(* ===== verification/_CoqProject ===== *)
-Q . S2P
Prelude.v
Math.v
Bytes.v
Lz4.v
Lz4Compress.v
Lz4Decompress.v
Bitmap.v
Gpa.v
Heap.v
Pgas.v
Gva.v
Btt.v
Agas.v
Rebalance.v
CyclicAlloc.v
Chunks.v
Mmap.v
Condition.v
Monitor.v
Lco.v
And.v
Future.v
Semaphore.v
GenCount.v
Reduce.v
User.v
Clients.v
AllReduce.v
Gather.v
AllToAll.v
Actions.v
Par.v
CircularBuffer.v
Lru.v
Commands.v
Eager.v
ISend.v
IRecv.v
Isir.v
Coalesce.v
Parcel.v
Compression.v
Continuation.v
Tree.v
Credit.v
Deque.v
Mailbox.v
Worker.v
Transfer.v
Remote.v
Copies.v
UserAlloc.v
StringOps.v
Rma.v
Exit.v
Guppie.v
Shared.v
Qsort.v
