(* ===== verification/Prelude.v ===== *)
(** * HPX-5 runtime: a verification development

    HPX-5 is a runtime for programs of lightweight threads over many localities.  A thread is a
    parcel that runs; parcels wait at lightweight control objects (LCOs), travel between
    localities through a network, and name data by addresses of a global address space.  This
    library models those parts of [libhpx] as executable definitions, one file for a component,
    and proves what they promise each other.

    ** Conventions

    A machine integer is a [Z] with its wrap-around written out ([u32], [i64], ...); a failed
    assertion, an undefined operation and a call of [abort] are [None]; an error that the code
    returns is a value.  Concurrent code is a step function on a world, [option] of the next
    world for a label that names who moves and what the environment answers: a step is what the
    code does under one lock, or one access to an atomic variable where there is no lock.  A
    theorem about a run holds for every list of labels.  Memory orders are sequentially
    consistent.  Loops that are not structural have fuel, which the theorems show to be enough;
    liveness theorems bound the number of steps of every run and say what holds when no step is
    left.

    ** Shared files

    - [Prelude]: machine integers, bit operations, lists, tactics and hints.
    - [Math]: include/hpx/builtins.h, include/libhpx/util/math.h, padding.h.
    - [Bytes]: buffers of bytes and [memcpy].
    - [Copies]: copies between the memories of localities, none of which writes what another
      reads or writes: in any order they bring what was at their sources.
    - [Shared]: threads that share an array, fork and wait: when forked threads keep to ranges
      that are apart, every interleaving ends as one after the other does.

    ** Addresses and memory

    - [Bitmap]: util/Bitmap.cpp, the chunks of a heap.  [reserve] and [rreserve] find the first
      and the last aligned free run or report that there is none; [release] undoes them.
    - [Gpa], [Gva]: gas/gpa.c and gas/agas/GlobalVirtualAddress.h, the arithmetic of addresses
      against positions in an allocation.
    - [Heap], [Pgas]: gas/pgas, the heap segment over the bitmap and the address space over it.
    - [Btt]: gas/agas/BlockTranslationTable.cpp, translations with pins that a move waits for.
    - [Agas]: the moves of AGAS.cpp.  Threads at every rank pin, use and unpin a block and ask
      for it to be moved, moves wait for pins, and blocks and messages travel in any order.
    - [CyclicAlloc], [UserAlloc]: the allocation and release of AGAS.cpp: cyclic segments, and
      local and user-distributed ones through their whole life, with the parcels that place and
      take apart their blocks delivered in any order.
    - [Chunks], [Mmap]: the table from chunks of memory to addresses with its allocator, and
      system/linux/mmap.cpp, which gets aligned memory from the system.
    - [Rebalance]: the statistics and the graph of the rebalancer.
    - [StringOps]: network/ParcelStringOps.cpp, the copies of AGAS.cpp and smp/SMP.cpp: copying
      by parcels is copying at once, for calls that do not race and that keep to one block.
    - [Rma]: the same calls and the rendezvous sends of network/pwc over [Copies], by puts and
      gets with commands at their ends.
    - [Lru]: util/LRUCache.h, the cache of registered chunks.

    ** LCOs

    - [Condition]: scheduler/Condition.cpp, the tagged word of waiting parcels, refines a list.
    - [Monitor], [Lco], [Clients]: what threads that call the methods of an LCO share.  A method
      is a state machine that runs under the lock until it waits; [Monitor] is the class of such
      objects, [MonitorLaws] what they promise, and the theorems on schedules are proved for the
      class.  [Lco] has the state word and wakers, [Clients] threads that call repeatedly.
    - [And], [Future], [Semaphore], [GenCount], [Reduce], [User], [AllReduce], [Gather],
      [AllToAll]: scheduler/lco, an instance for each LCO with what its callers rely on.
    - [Remote]: scheduler/lco/LCO.cpp, the calls on an LCO at any locality, over the class.

    ** Actions, parcels and processes

    - [Actions]: actions/registration.cpp, marshalled.cpp, vectored.cpp.
    - [Parcel]: network/parcel.cpp and include/libhpx/parcel.h, parcels as memory with states,
      nesting, sending through a gate, deletion.
    - [Par]: par.cpp, parallel loops and the divide and conquer call.
    - [Credit], [Continuation], [Tree]: process, termination detection by credit, the
      continuations and the tree of the process allreduce.

    ** Scheduler

    - [Deque]: util/ChaseLevDeque.h, every interleaving with growth refines a sequential deque.
    - [Mailbox]: util/TwoLockQueue.h, every interleaving refines a queue.
    - [Worker]: scheduler/Worker.cpp, parcels and stacks through mail, queues, stealing, spawns,
      suspension and stops.
    - [Transfer]: scheduler/arch/x86_64, the context switch instruction by instruction on a
      memory of bytes, against a map of suspended contexts.
    - [Exit]: scheduler/Scheduler.cpp and hpx.cpp, how an epoch ends at all localities.

    ** Networks

    - [CircularBuffer], [Commands], [Eager]: network/pwc, the growing ring, commands in a word,
      and the eager protocol with its blocks: exactly-once delivery, block safety, completion.
    - [ISend], [IRecv], [Isir]: network/isir, the buffers of sends and receives with an MPI whose
      answers are labels, and the network over them: exactly-once delivery, flush returns.
    - [Coalesce]: network/CoalescingWrapper.cpp, the coalesced parcels in bytes.
    - [Lz4], [Lz4Compress], [Lz4Decompress], [Compression]: contrib/lz4/lz4.c, the compressor
      and the decompressor on blocks of bytes with their round trip, and
      network/CompressionWrapper.cpp, which sends parcels through them.

    ** Programs

    - [Guppie], [Qsort]: examples/guppie.c, the random sequence and its jumps, and
      examples/qsort.c, parallel quicksort over [Shared].

    ** Bounds

    Widths are those of the source on a 64-bit machine.  Section hypotheses bound what the
    source leaves to its configuration (a heap of at most 2^61 bytes, block sizes that fit their
    fields, sizes whose sums do not wrap); each property that has hypotheses comes with a witness
    at a concrete input.  The network over MPI is verified for an MPI_Testsome that reports in
    ascending order, which MPI does not document and the code relies on, and without a limit
    of receives.  [Agas] takes a block for a move only while the rank that passed the check still
    owns it, and delivers owners in an order that keeps the newest; the code ensures neither,
    and lemmas there show what two moves at once do.

    ** Not modelled

    Startup, configuration and its generated parser; boot networks, transports and the parts
    that only call MPI, Photon, hwloc, OpenCL, libffi or a third-party allocator; the streams and
    dictionaries of LZ4; stack switching on machines other than x86-64; the collectives that a
    network provides (coll_network); instrumentation; the C++ bindings; tests and the other
    examples.  Weak
    memory orders are not modelled: the atomics are sequentially consistent here. *)

From Stdlib Require Export ZArith Lia Bool Btauto.
From stdpp Require Export base list gmap.

(** ** Machine integers

    A [w]-bit unsigned integer is the [Z] in [0, 2^w); every operation that can
    leave the range is wrapped where the source's type wraps it.  A [w]-bit
    signed integer is the [Z] in [-2^(w-1), 2^(w-1)). *)

Declare Scope hpx_scope.
Delimit Scope hpx_scope with hpx.

Definition wrap (w x : Z) : Z := (x mod 2 ^ w)%Z.
Definition swrap (w x : Z) : Z := ((x + 2 ^ (w - 1)) mod 2 ^ w - 2 ^ (w - 1))%Z.

Abbreviation u16 := (wrap 16).
Abbreviation u32 := (wrap 32).
Abbreviation u64 := (wrap 64).
Abbreviation i16 := (swrap 16).
Abbreviation i32 := (swrap 32).
Abbreviation i64 := (swrap 64).

(** [x] is representable as an unsigned (signed) [w]-bit integer. *)
Notation "x '∈u' w" := (0 <= x < 2 ^ w)%Z (at level 70) : hpx_scope.
Notation "x '∈s' w" := (- 2 ^ (w - 1) <= x < 2 ^ (w - 1))%Z (at level 70) : hpx_scope.

Open Scope hpx_scope.
Open Scope Z_scope.

(** Truth value of an integer used as a C condition. *)
Definition nz (x : Z) : bool := negb (x =? 0).

Create HintDb hpx.

Ltac simp := repeat (simplify_eq/=; try case_match; try case_decide).
Ltac zbool :=
  repeat match goal with
  | H : (_ <? _) = true |- _ => apply Z.ltb_lt in H
  | H : (_ <? _) = false |- _ => apply Z.ltb_ge in H
  | H : (_ <=? _) = true |- _ => apply Z.leb_le in H
  | H : (_ <=? _) = false |- _ => apply Z.leb_gt in H
  | H : (_ =? _) = true |- _ => apply Z.eqb_eq in H
  | H : (_ =? _) = false |- _ => apply Z.eqb_neq in H
  | H : (_ >? _) = true |- _ => rewrite Z.gtb_ltb in H
  | H : (_ >? _) = false |- _ => rewrite Z.gtb_ltb in H
  | H : (_ && _) = true |- _ => apply andb_true_iff in H; destruct H
  | H : negb _ = true |- _ => apply negb_true_iff in H
  | H : negb _ = false |- _ => apply negb_false_iff in H
  end.

(** Decide the comparisons of the goal. *)
Ltac zcases :=
  repeat match goal with
  | |- context [?a =? ?b] => destruct (Z.eqb_spec a b)
  | |- context [?a <? ?b] => destruct (Z.ltb_spec a b)
  | |- context [?a <=? ?b] => destruct (Z.leb_spec a b)
  | |- context [?a >? ?b] => destruct (Z.gtb_spec a b)
  end.

Section MachineIntegers.
Implicit Types w x y : Z.

Lemma wrap_range w x : 0 <= w -> wrap w x ∈u w.
Proof. intros. apply Z.mod_pos_bound. lia. Qed.

Lemma wrap_small w x : x ∈u w -> wrap w x = x.
Proof. intros. by apply Z.mod_small. Qed.

Lemma wrap_wrap w x : 0 <= w -> wrap w (wrap w x) = wrap w x.
Proof. intros. apply Z.mod_mod. lia. Qed.

Lemma wrap_add_l w x y : wrap w (wrap w x + y) = wrap w (x + y).
Proof. unfold wrap. by rewrite Zplus_mod_idemp_l. Qed.

Lemma wrap_add_r w x y : wrap w (x + wrap w y) = wrap w (x + y).
Proof. unfold wrap. by rewrite Zplus_mod_idemp_r. Qed.

Lemma wrap_mul_l w x y : wrap w (wrap w x * y) = wrap w (x * y).
Proof. unfold wrap. by rewrite Zmult_mod_idemp_l. Qed.

Lemma wrap_sub_l w x y : wrap w (wrap w x - y) = wrap w (x - y).
Proof. unfold wrap. by rewrite Zminus_mod_idemp_l. Qed.

Lemma wrap_sub_r w x y : wrap w (x - wrap w y) = wrap w (x - y).
Proof. unfold wrap. by rewrite Zminus_mod_idemp_r. Qed.

Lemma wrap_eq_add w x k : 0 <= w -> wrap w (x + k * 2 ^ w) = wrap w x.
Proof. intros. unfold wrap. apply Z_mod_plus_full. Qed.

Lemma swrap_small w x : 0 < w -> x ∈s w -> swrap w x = x.
Proof.
  intros Hw Hx. unfold swrap. rewrite Z.mod_small; [lia|].
  replace (2 ^ w) with (2 * 2 ^ (w - 1)); [lia|].
  rewrite <- Z.pow_succ_r by lia. f_equal. lia.
Qed.

Lemma swrap_range w x : 0 < w -> swrap w x ∈s w.
Proof.
  intros Hw. unfold swrap.
  assert (2 ^ w = 2 * 2 ^ (w - 1)) by (rewrite <- Z.pow_succ_r by lia; f_equal; lia).
  pose proof (Z.mod_pos_bound (x + 2 ^ (w - 1)) (2 ^ w)). lia.
Qed.

(** A signed value is determined by its bit pattern. *)
Lemma swrap_wrap w x : 0 < w -> swrap w (wrap w x) = swrap w x.
Proof. intros. unfold swrap, wrap. by rewrite Zplus_mod_idemp_l. Qed.

Lemma wrap_swrap w x : 0 < w -> wrap w (swrap w x) = wrap w x.
Proof.
  intros. unfold swrap, wrap. rewrite Zminus_mod_idemp_l. f_equal. lia.
Qed.

End MachineIntegers.

(** ** Bits *)

Create Rewrite HintDb bits.
#[export] Hint Rewrite Z.land_spec Z.lor_spec Z.lxor_spec Z.ldiff_spec Z.testbit_0_l
  : bits.
#[export] Hint Rewrite Z.shiftl_spec Z.shiftr_spec Z.lnot_spec using lia : bits.

Lemma testbit_high w x i : x ∈u w -> 0 <= w <= i -> Z.testbit x i = false.
Proof.
  intros Hx Hi. rewrite <- (Z.mod_small x (2 ^ w)) by lia.
  apply Z.mod_pow2_bits_high. lia.
Qed.

Lemma testbit_ones n i : 0 <= n -> Z.testbit (Z.ones n) i = (0 <=? i) && (i <? n).
Proof. intros. by apply Z.testbit_ones. Qed.

Lemma testbit_wrap w x i : 0 <= w ->
  Z.testbit (wrap w x) i = (i <? w) && Z.testbit x i.
Proof.
  intros. unfold wrap. destruct (Z.ltb_spec i w).
  - destruct (Z.le_gt_cases 0 i).
    + by rewrite Z.mod_pow2_bits_low.
    + by rewrite !Z.testbit_neg_r by lia.
  - rewrite Z.mod_pow2_bits_high by lia. done.
Qed.

(** A non-negative number that is zero above bit [w] is below [2^w]. *)
Lemma bits_bound w x : 0 <= w -> 0 <= x ->
  (forall i, w <= i -> Z.testbit x i = false) -> x ∈u w.
Proof.
  intros Hw Hx Hb. split; [done|].
  replace x with (x mod 2 ^ w); [apply Z.mod_pos_bound; lia|].
  apply Z.bits_inj'; intros i Hi. destruct (Z.lt_ge_cases i w).
  - by rewrite Z.mod_pow2_bits_low.
  - rewrite Z.mod_pow2_bits_high by lia. by rewrite Hb.
Qed.

(** A quotient's bounds from the bounds of the number it was divided out of. *)
Lemma quotient_bounds a b m k : 0 <= m < b -> 0 <= a * b + m < k * b -> 0 <= a < k.
Proof. intros. split; nia. Qed.

(** Packing a bit field below another. *)
Lemma lor_shiftl_add a b k : 0 <= k -> b ∈u k -> Z.lor (Z.shiftl a k) b = a * 2 ^ k + b.
Proof.
  intros Hk Hb. rewrite <- Z.shiftl_mul_pow2 by done. symmetry. apply Z.add_nocarry_lor.
  apply Z.bits_inj'; intros i Hi. rewrite Z.land_spec, Z.shiftl_spec, Z.testbit_0_l by done.
  destruct (Z.lt_ge_cases i k).
  - by rewrite Z.testbit_neg_r by lia.
  - by rewrite (testbit_high k b), andb_false_r by lia.
Qed.

Lemma nonzero_testbit x : 0 <= x -> x <> 0 -> exists i, 0 <= i /\ Z.testbit x i = true.
Proof.
  intros. exists (Z.log2 x). split; [apply Z.log2_nonneg|]. apply Z.bit_log2. lia.
Qed.

(** ** Lists *)

Section Lists.
Context {A : Type}.
Implicit Types l : list A.

Lemma lookup_Z_nonneg l (i : Z) x : l !! Z.to_nat i = Some x -> (Z.to_nat i < length l)%nat.
Proof. apply lookup_lt_Some. Qed.

Lemma lookup_total_range l (i : nat) : (i < length l)%nat -> exists x, l !! i = Some x.
Proof. intros. by apply lookup_lt_is_Some. Qed.

Lemma elem_of_insert l (i : nat) x z : z ∈ <[i := x]> l -> z = x \/ z ∈ l.
Proof.
  intros [j Hj]%list_elem_of_lookup. apply list_lookup_insert_Some in Hj as [(_ & -> & _)|(_ & Hj)]; [by left|].
  right. by eapply list_elem_of_lookup_2.
Qed.

Lemma elem_of_delete l (i : nat) z : z ∈ delete i l -> z ∈ l.
Proof. intros Hz. eapply elem_of_submseteq; [done|]. by apply sublist_submseteq, sublist_delete. Qed.

End Lists.

(** The sum of a measure of the elements. *)
Definition sum_of {A} (f : A -> Z) (l : list A) : Z := foldr (fun x n => f x + n) 0 l.

Section Sums.
Context {A : Type} (f : A -> Z).
Implicit Types l : list A.

Lemma sum_of_app l k : sum_of f (l ++ k) = sum_of f l + sum_of f k.
Proof. induction l as [|x l IH]; simpl; [lia|]. rewrite IH. lia. Qed.

Lemma sum_of_delete l i x : l !! i = Some x -> sum_of f (delete i l) = sum_of f l - f x.
Proof.
  revert i. induction l as [|y l IH]; intros [|i] Hi; simplify_eq/=; [lia|]. rewrite (IH i) by done. lia.
Qed.

Lemma sum_of_insert l i x y : l !! i = Some x -> sum_of f (<[i := y]> l) = sum_of f l - f x + f y.
Proof.
  revert i. induction l as [|z l IH]; intros [|i] Hi; simplify_eq/=; [lia|]. rewrite (IH i) by done. lia.
Qed.

Lemma sum_of_nonneg l : (forall x, x ∈ l -> 0 <= f x) -> 0 <= sum_of f l.
Proof.
  induction l as [|x l IH]; intros H; simpl; [lia|].
  assert (0 <= f x) by (apply H; left). assert (0 <= sum_of f l) by (apply IH; intros; apply H; by right). lia.
Qed.

Lemma sum_of_zero l : (forall x, x ∈ l -> 0 < f x) -> sum_of f l = 0 -> l = [].
Proof.
  destruct l as [|x l]; [done|]. intros H Hz. exfalso. simpl in Hz.
  assert (0 < f x) by (apply H; left).
  assert (0 <= sum_of f l) by (apply sum_of_nonneg; intros y Hy; assert (0 < f y) by (apply H; by right); lia). lia.
Qed.

Lemma sum_of_elem l x : (forall y, y ∈ l -> 0 <= f y) -> x ∈ l -> f x <= sum_of f l.
Proof.
  intros H [i Hi]%list_elem_of_lookup. pose proof (sum_of_delete _ _ _ Hi).
  assert (0 <= sum_of f (delete i l)); [|lia]. apply sum_of_nonneg. intros y Hy. apply H.
  eapply elem_of_submseteq; [done|]. by apply sublist_submseteq, sublist_delete.
Qed.
End Sums.

(** An update of one element changes a concatenation by what that element gains. *)
Lemma concat_insert {A B} (f : A -> list B) (l : list A) r (x y : A) d : l !! r = Some x -> f y ≡ₚ f x ++ d ->
  concat (map f (<[r := y]> l)) ≡ₚ concat (map f l) ++ d.
Proof.
  revert r. induction l as [|z l IH]; intros [|r] Hx Hf; simpl in *; try done.
  - injection Hx as ->. rewrite Hf, <- !app_assoc. apply Permutation_app_head, Permutation_app_comm.
  - by rewrite IH, app_assoc by done.
Qed.

#[export] Hint Resolve wrap_range swrap_range : hpx.
