(* ===== verification/Math.v ===== *)
(** * Integer helpers of the runtime

    [include/hpx/builtins.h] and [include/libhpx/util/math.h]: counting zeros and
    ones, base-2 logarithms, rounded division; [include/libhpx/padding.h]: padding
    and alignment.  The compiler builtins are total functions here; the ones the
    compiler leaves undefined at 0 are only used on non-zero words. *)

From S2P Require Import Prelude.

(** ** Builtins *)

Fixpoint pos_ctz (p : positive) : Z :=
  match p with
  | xO q => 1 + pos_ctz q
  | _ => 0
  end.

Fixpoint pos_popcount (p : positive) : Z :=
  match p with
  | xO q => pos_popcount q
  | xI q => 1 + pos_popcount q
  | xH => 1
  end.

(** [__builtin_ctzl]; the value at 0 is the word width. *)
Definition ctzl (x : Z) : Z := match x with Zpos p => pos_ctz p | _ => 64 end.

(** [__builtin_clz] and [__builtin_clzl] at width [w]. *)
Definition clz (w x : Z) : Z := if x =? 0 then w else w - 1 - Z.log2 x.

Definition popcountl (x : Z) : Z := match x with Zpos p => pos_popcount p | _ => 0 end.

(** [ceil_log2_32], [ceil_log2_64] and the [ceil_log2] template, at width [w]. *)
Definition ceil_log2 (w val : Z) : Z :=
  wrap w ((w - 1 - clz w val) + Z.b2z (nz (Z.land val (wrap w (val - 1))))).

Definition ceil2 (w val : Z) : Z := wrap w (Z.shiftl 1 (ceil_log2 w val)).

(** [ceil_div_32], [ceil_div_64] and the [ceil_div] template. *)
Definition ceil_div (num denom : Z) : Z :=
  num / denom + (if nz (num mod denom) then 1 else 0).

(** The [ALIGN] macro at [size_t]; [align] is a power of two. *)
Definition align (bytes align : Z) : Z :=
  Z.land (u64 (align - Z.land bytes (align - 1))) (align - 1).

(** The [_BYTES] macro. *)
Definition pad_bytes (n s : Z) : Z := n - s mod n.

(** ** Trailing zeros *)

Lemma pos_ctz_nonneg p : 0 <= pos_ctz p.
Proof. induction p; simpl; lia. Qed.

Lemma ctzl_nonneg x : 0 <= ctzl x.
Proof. destruct x; simpl; try lia. apply pos_ctz_nonneg. Qed.

Lemma pos_ctz_bit p : Z.testbit (Zpos p) (pos_ctz p) = true.
Proof.
  induction p as [p IH|p IH|]; [done| |done].
  pose proof (pos_ctz_nonneg p). cbn [pos_ctz].
  rewrite Pos2Z.inj_xO, Z.add_1_l, Z.double_bits_succ by lia. done.
Qed.

Lemma pos_ctz_low p i : i < pos_ctz p -> Z.testbit (Zpos p) i = false.
Proof.
  revert i. induction p as [p IH|p IH|]; intros i Hi; cbn [pos_ctz] in Hi;
    try (apply Z.testbit_neg_r; lia).
  destruct (Z.lt_ge_cases i 0); [apply Z.testbit_neg_r; lia|].
  destruct (Z.eq_dec i 0) as [->|]; [done|].
  rewrite Pos2Z.inj_xO. replace i with (Z.succ (Z.pred i)) by lia.
  rewrite Z.double_bits_succ. apply IH. lia.
Qed.

Lemma ctzl_bit x : 0 < x -> Z.testbit x (ctzl x) = true.
Proof. destruct x; try lia. intros _. apply pos_ctz_bit. Qed.

Lemma ctzl_low x i : 0 < x -> i < ctzl x -> Z.testbit x i = false.
Proof. destruct x; try lia. intros _. apply pos_ctz_low. Qed.

Lemma ctzl_le x i : 0 < x -> Z.testbit x i = true -> ctzl x <= i.
Proof.
  intros Hx Hi. destruct (Z.le_gt_cases (ctzl x) i); [done|].
  rewrite ctzl_low in Hi by lia. done.
Qed.

Lemma ctzl_unique x c : 0 < x -> Z.testbit x c = true ->
  (forall i, 0 <= i < c -> Z.testbit x i = false) -> ctzl x = c.
Proof.
  intros Hx Hc Hlow. apply Z.le_antisymm; [by apply ctzl_le|].
  destruct (Z.le_gt_cases c (ctzl x)); [done|].
  pose proof (ctzl_nonneg x). pose proof (ctzl_bit x Hx) as Hb.
  rewrite Hlow in Hb by lia. done.
Qed.

Lemma ctzl_lt w x : 0 < x < 2 ^ w -> 0 <= w -> ctzl x < w.
Proof.
  intros Hx Hw. destruct (Z.lt_ge_cases (ctzl x) w); [done|].
  pose proof (ctzl_bit x ltac:(lia)) as Hb. rewrite (testbit_high w) in Hb by lia. done.
Qed.

(** [ctzl] counts the largest power of two that divides. *)
Lemma ctzl_divide x k : 0 < x -> 0 <= k -> (k <= ctzl x <-> (2 ^ k | x)).
Proof.
  intros Hx Hk. split.
  - intros Hc. apply Z.mod_divide; [lia|]. apply Z.bits_inj'; intros i Hi.
    rewrite Z.testbit_0_l. destruct (Z.lt_ge_cases i k).
    + rewrite Z.mod_pow2_bits_low by lia. apply ctzl_low; lia.
    + apply Z.mod_pow2_bits_high. lia.
  - intros [q ->]. destruct (Z.le_gt_cases k (ctzl (q * 2 ^ k))) as [|Hlt]; [done|].
    pose proof (ctzl_bit _ Hx) as Hb.
    rewrite <- Z.shiftl_mul_pow2 in Hb at 1 by lia.
    rewrite Z.shiftl_spec_low in Hb by lia. done.
Qed.

(** ** Ones *)

Lemma popcountl_double x : 0 <= x -> popcountl (2 * x) = popcountl x.
Proof. by destruct x. Qed.

Lemma popcountl_succ_double x : 0 <= x -> popcountl (2 * x + 1) = 1 + popcountl x.
Proof. by destruct x. Qed.

Lemma popcountl_nonneg x : 0 <= popcountl x.
Proof. destruct x as [|p|]; simpl; try lia. induction p; simpl; lia. Qed.

Lemma popcountl_ones n : 0 <= n -> popcountl (Z.ones n) = n.
Proof.
  revert n. apply natlike_ind; [done|]. intros n Hn IH.
  replace (Z.ones (Z.succ n)) with (2 * Z.ones n + 1).
  - rewrite popcountl_succ_double, IH; [lia|].
    rewrite Z.ones_equiv. pose proof (Z.pow_pos_nonneg 2 n). lia.
  - rewrite !Z.ones_equiv, Z.pow_succ_r by lia. lia.
Qed.

Lemma popcountl_shiftl x n : 0 <= x -> 0 <= n -> popcountl (Z.shiftl x n) = popcountl x.
Proof.
  intros Hx. revert n. apply natlike_ind; [by rewrite Z.shiftl_0_r|]. intros n Hn IH.
  rewrite Z.shiftl_mul_pow2, Z.pow_succ_r by lia.
  replace (x * (2 * 2 ^ n)) with (2 * (x * 2 ^ n)) by lia.
  rewrite popcountl_double by lia. by rewrite <- Z.shiftl_mul_pow2, IH by lia.
Qed.

(** ** Logarithms *)

Lemma land_pred_zero x : 0 < x -> (Z.land x (x - 1) = 0 <-> x = 2 ^ Z.log2 x).
Proof.
  intros Hx. pose proof (Z.log2_spec x Hx). pose proof (Z.log2_nonneg x). split.
  - intros Hl. destruct (Z.eq_dec x (2 ^ Z.log2 x)) as [|Hne]; [done|].
    assert (Z.log2 (x - 1) = Z.log2 x) as Hlog.
    { apply Z.log2_unique; lia. }
    assert (Z.testbit (Z.land x (x - 1)) (Z.log2 x) = true) as Hb.
    { rewrite Z.land_spec, Z.bit_log2 by lia. rewrite <- Hlog. rewrite Z.bit_log2; [done|].
      pose proof (Z.pow_pos_nonneg 2 (Z.log2 x)). lia. }
    rewrite Hl, Z.testbit_0_l in Hb. done.
  - intros Heq. rewrite Heq at 1 2. set (k := Z.log2 x) in *.
    replace (2 ^ k - 1) with (Z.ones k) by (rewrite Z.ones_equiv; lia).
    rewrite Z.land_ones by lia. apply Z.mod_same. lia.
Qed.

Lemma ceil_log2_eq w val : 1 < w -> 0 < val < 2 ^ w -> ceil_log2 w val = Z.log2_up val.
Proof.
  intros Hw Hv. unfold ceil_log2, clz, nz.
  pose proof (Z.log2_nonneg val). pose proof (Z.log2_spec val ltac:(lia)).
  assert (Z.log2 val < w) by (apply Z.log2_lt_pow2; lia).
  assert (w < 2 ^ w) by (apply Z.pow_gt_lin_r; lia).
  rewrite (wrap_small w (val - 1)) by lia.
  destruct (Z.eqb_spec val 0); [lia|].
  replace (w - 1 - (w - 1 - Z.log2 val)) with (Z.log2 val) by lia.
  pose proof (land_pred_zero val ltac:(lia)) as Hz.
  destruct (Z.eqb_spec (Z.land val (val - 1)) 0) as [He|Hne]; simpl.
  - apply Hz in He. rewrite wrap_small by lia. rewrite He at 2.
    rewrite Z.log2_up_pow2; lia.
  - assert (val <> 2 ^ Z.log2 val) by tauto.
    rewrite wrap_small by lia. symmetry. apply Z.log2_up_unique; [lia|].
    rewrite Z.add_1_r, Z.pred_succ. lia.
Qed.

Lemma log2_up_bounds val : 0 < val ->
  val <= 2 ^ Z.log2_up val /\ 2 ^ Z.log2_up val < 2 * val.
Proof.
  intros Hv. destruct (Z.eq_dec val 1) as [->|]; [by vm_compute|].
  pose proof (Z.log2_up_spec val ltac:(lia)).
  pose proof (Z.log2_up_pos val ltac:(lia)).
  split; [lia|]. replace (Z.log2_up val) with (Z.succ (Z.pred (Z.log2_up val))) by lia.
  rewrite Z.pow_succ_r by lia. lia.
Qed.

Lemma log2_up_bound w val : 0 <= w -> 0 < val <= 2 ^ w -> 0 <= Z.log2_up val <= w.
Proof.
  intros. split; [apply Z.log2_up_nonneg|].
  rewrite <- (Z.log2_up_pow2 w) by lia. apply Z.log2_up_le_mono. lia.
Qed.

(** ** Rounded division and padding *)

Lemma ceil_div_spec num denom : 0 <= num -> 0 < denom ->
  num <= ceil_div num denom * denom < num + denom.
Proof.
  intros. unfold ceil_div, nz.
  pose proof (Z.div_mod num denom). pose proof (Z.mod_pos_bound num denom).
  destruct (Z.eqb_spec (num mod denom) 0); simpl; lia.
Qed.

Lemma ceil_div_nonneg num denom : 0 <= num -> 0 < denom -> 0 <= ceil_div num denom.
Proof. intros. pose proof (ceil_div_spec num denom). nia. Qed.

(** The two halves a ring is doubled into. *)
Lemma mod_double m c : 0 < c ->
  (m mod (2 * c) = m mod c /\ (m + c) mod (2 * c) = m mod c + c)
  \/ (m mod (2 * c) = m mod c + c /\ (m + c) mod (2 * c) = m mod c).
Proof.
  intros Hc. pose proof (Z.mod_pos_bound m c Hc). pose proof (Z.div_mod m c ltac:(lia)) as Hm.
  destruct (Z.Even_or_Odd (m / c)) as [[q Hq]|[q Hq]]; rewrite Hq in Hm.
  - left. split; symmetry; apply Z.mod_unique_pos with q; lia.
  - right. split; symmetry; [apply Z.mod_unique_pos with q|apply Z.mod_unique_pos with (q + 1)]; lia.
Qed.

(** Numbers closer than the modulus have different residues. *)
Lemma mod_distinct i j n : 0 < n -> i <> j -> Z.abs (i - j) < n -> i mod n <> j mod n.
Proof.
  intros Hn Hij Habs E. pose proof (Z.div_mod i n ltac:(lia)). pose proof (Z.div_mod j n ltac:(lia)).
  rewrite E in H. assert (i - j = n * (i / n - j / n)) by lia.
  destruct (Z.eq_dec (i / n) (j / n)) as [E'|E']; [rewrite E' in *; lia|]. nia.
Qed.

Lemma land_pred_pow2 x k : 0 <= k -> Z.land x (2 ^ k - 1) = x mod 2 ^ k.
Proof.
  intros. rewrite <- Z.land_ones by lia. f_equal. rewrite Z.ones_equiv. lia.
Qed.

Lemma align_eq bytes k : 0 <= k < 64 -> align bytes (2 ^ k) = (- bytes) mod 2 ^ k.
Proof.
  intros Hk. unfold align. rewrite !land_pred_pow2 by lia. unfold wrap.
  assert (2 ^ k < 2 ^ 64) by (apply Z.pow_lt_mono_r; lia).
  pose proof (Z.mod_pos_bound bytes (2 ^ k)).
  rewrite (Z.mod_small (2 ^ k - _)) by lia.
  rewrite Zminus_mod_idemp_r.
  replace (2 ^ k - bytes) with (- bytes + 1 * 2 ^ k) by lia.
  by rewrite Z_mod_plus_full.
Qed.

Lemma align_spec bytes k : 0 <= bytes -> 0 <= k < 64 ->
  0 <= align bytes (2 ^ k) < 2 ^ k /\ (2 ^ k | bytes + align bytes (2 ^ k)).
Proof.
  intros. rewrite align_eq by lia. split; [apply Z.mod_pos_bound; lia|].
  apply Z.mod_divide; [lia|]. rewrite Zplus_mod_idemp_r, Z.add_opp_diag_r. done.
Qed.
