(* ===== verification/Bytes.v ===== *)
(** * Byte buffers: what [memcpy] does

    A buffer is the list of its bytes.  A copy into a buffer that does not fit is
    undefined behaviour of the C code, and [None] here. *)

From S2P Require Import Prelude.

Definition store (dst : list Z) (off : Z) (src : list Z) : option (list Z) :=
  let i := Z.to_nat off in
  if (0 <=? off) && (i + length src <=? length dst)%nat
  then Some (take i dst ++ src ++ drop (i + length src) dst) else None.

Definition load (src : list Z) (off : Z) (size : nat) : option (list Z) :=
  let i := Z.to_nat off in
  if (0 <=? off) && (i + size <=? length src)%nat then Some (take size (drop i src)) else None.

Section Bytes.
Implicit Types dst src : list Z.

Lemma store_some dst off src : 0 <= off -> (Z.to_nat off + length src <= length dst)%nat ->
  store dst off src = Some (take (Z.to_nat off) dst ++ src ++ drop (Z.to_nat off + length src) dst).
Proof.
  intros H0 H1. unfold store. by rewrite (proj2 (Z.leb_le _ _) H0), (proj2 (Nat.leb_le _ _) H1).
Qed.

Lemma store_inv dst off src d : store dst off src = Some d ->
  0 <= off /\ (Z.to_nat off + length src <= length dst)%nat
  /\ d = take (Z.to_nat off) dst ++ src ++ drop (Z.to_nat off + length src) dst.
Proof.
  unfold store. destruct (Z.leb_spec 0 off); [|done]. destruct (Nat.leb_spec (Z.to_nat off + length src) (length dst)); [|done].
  by intros [= <-].
Qed.

Lemma store_length dst off src d : store dst off src = Some d -> length d = length dst.
Proof.
  intros (H0 & H1 & ->)%store_inv. rewrite !length_app, length_take, length_drop. lia.
Qed.

(** The bytes of the source where they were put, the old ones elsewhere. *)
Lemma store_lookup dst off src d i : store dst off src = Some d ->
  d !! i = if decide (Z.to_nat off <= i < Z.to_nat off + length src)%nat
           then src !! (i - Z.to_nat off)%nat else dst !! i.
Proof.
  intros (H0 & H1 & ->)%store_inv. assert (Hl : length (take (Z.to_nat off) dst) = Z.to_nat off)
    by (rewrite length_take; lia).
  destruct (decide _) as [Hi|Hi].
  - rewrite lookup_app_r by lia. rewrite Hl. rewrite lookup_app_l by lia. done.
  - destruct (decide (i < Z.to_nat off)%nat).
    + rewrite lookup_app_l by lia. by rewrite lookup_take_lt by lia.
    + rewrite lookup_app_r by lia. rewrite lookup_app_r by lia. rewrite lookup_drop. f_equal. lia.
Qed.

Lemma load_some src off size : 0 <= off -> (Z.to_nat off + size <= length src)%nat ->
  load src off size = Some (take size (drop (Z.to_nat off) src)).
Proof.
  intros H0 H1. unfold load. by rewrite (proj2 (Z.leb_le _ _) H0), (proj2 (Nat.leb_le _ _) H1).
Qed.

Lemma load_inv src off size x : load src off size = Some x ->
  0 <= off /\ (Z.to_nat off + size <= length src)%nat /\ x = take size (drop (Z.to_nat off) src).
Proof.
  unfold load. destruct (Z.leb_spec 0 off); [|done]. destruct (Nat.leb_spec (Z.to_nat off + size) (length src)); [|done].
  by intros [= <-].
Qed.

Lemma load_length src off size x : load src off size = Some x -> length x = size.
Proof. intros (H0 & H1 & ->)%load_inv. rewrite length_take, length_drop. lia. Qed.

Lemma load_lookup src off size x i : load src off size = Some x -> (i < size)%nat ->
  x !! i = src !! (Z.to_nat off + i)%nat.
Proof.
  intros (H0 & H1 & ->)%load_inv Hi. by rewrite lookup_take_lt, lookup_drop by lia.
Qed.

(** Reading back what was stored. *)
Lemma load_store dst off src d : store dst off src = Some d -> load d off (length src) = Some src.
Proof.
  intros Hs. pose proof (store_length _ _ _ _ Hs) as Hl. apply store_inv in Hs as (H0 & H1 & ->).
  rewrite load_some by lia. f_equal.
  rewrite drop_app_length' by (rewrite length_take; lia). by rewrite take_app_length.
Qed.
(** A copy leaves the other ranges alone. *)
Lemma load_store_ne dst off src d off' size : store dst off src = Some d ->
  off' + Z.of_nat size <= off \/ off + Z.of_nat (length src) <= off' -> load d off' size = load dst off' size.
Proof.
  intros Hs Hd. pose proof (store_length _ _ _ _ Hs) as Hl. unfold load. rewrite Hl.
  destruct (Z.leb_spec 0 off') as [H0|]; [|done]. cbn [andb]. destruct (Nat.leb_spec (Z.to_nat off' + size) (length dst)); [|done]. f_equal.
  apply list_eq. intros i. destruct (decide (i < size)%nat) as [Hi|Hi]; [|by rewrite !lookup_take_ge by lia].
  rewrite !lookup_take_lt, !lookup_drop by lia. rewrite (store_lookup _ _ _ _ _ Hs).
  apply store_inv in Hs as (Hoff & _ & _). rewrite decide_False by lia. done.
Qed.
End Bytes.

(** ** Chunks

    A buffer of chunks of [n] bytes; [placed] says that chunk [i] is [x]. *)
Definition chunk (buf : list Z) (n i : nat) : list Z := take n (drop (i * n) buf).

Lemma chunk_store buf n (i : nat) x d : length x = n -> store buf (Z.of_nat (i * n)) x = Some d ->
  chunk d n i = x /\ forall j, j <> i -> chunk d n j = chunk buf n j.
Proof.
  intros Hn Hs. pose proof (store_length _ _ _ _ Hs) as Hlen.
  assert (Hc : forall j k, (k < n)%nat -> chunk d n j !! k = if decide (j = i) then x !! k else chunk buf n j !! k).
  { intros j k Hk. unfold chunk. rewrite !lookup_take_lt, !lookup_drop by done.
    rewrite (store_lookup _ _ _ _ _ Hs), Nat2Z.id. destruct (decide (j = i)) as [->|Hne].
    - rewrite decide_True by lia. f_equal. lia.
    - rewrite decide_False; [done|]. rewrite Hn. intros [H1 H2].
      destruct (decide (j < i)%nat); nia. }
  assert (Hout : forall b j k, (n <= k)%nat -> chunk b n j !! k = None).
  { intros b j k Hk. apply lookup_ge_None. unfold chunk. rewrite length_take. lia. }
  split.
  - apply list_eq. intros k. destruct (decide (k < n)%nat).
    + rewrite Hc by done. by rewrite decide_True.
    + rewrite Hout by lia. symmetry. apply lookup_ge_None. lia.
  - intros j Hj. apply list_eq. intros k. destruct (decide (k < n)%nat).
    + rewrite Hc by done. by rewrite decide_False.
    + by rewrite !Hout by lia.
Qed.

(** ** Integers in memory, least significant byte first *)

Fixpoint le (k : nat) (x : Z) : list Z :=
  match k with
  | O => []
  | S k => x mod 256 :: le k (x / 256)
  end.

Fixpoint unle (bs : list Z) : Z :=
  match bs with
  | [] => 0
  | b :: bs => b + 256 * unle bs
  end.

Lemma le_length k : forall x, length (le k x) = k.
Proof. induction k as [|k IH]; intros x; simpl; [done|by rewrite IH]. Qed.

Lemma unle_le k : forall x, 0 <= x < 2 ^ (8 * Z.of_nat k) -> unle (le k x) = x.
Proof.
  induction k as [|k IH]; intros x Hx; simpl; [change (2 ^ (8 * Z.of_nat 0)) with 1 in Hx; lia|].
  replace (8 * Z.of_nat (S k)) with (8 + 8 * Z.of_nat k) in Hx by lia. rewrite Z.pow_add_r in Hx by lia. change (2 ^ 8) with 256 in Hx.
  rewrite IH; [pose proof (Z.div_mod x 256); lia|]. split; [apply Z.div_pos; lia|]. apply Z.div_lt_upper_bound; lia.
Qed.
