(* ===== verification/Lz4.v ===== *)
(** * LZ4 block compression

    contrib/lz4/lz4.c: the compressor and the decompressor that the compressing network uses,
    on a 64-bit little-endian machine.  Buffers are lists of bytes and pointers are offsets
    into them; an access outside of a buffer is undefined behaviour, and [None].  The
    functions are generic in C, with directives that are constants of their callers: without
    a dictionary, for the two types of tables and with and without a limit of the output in
    the compressor, and with the end given by the input or by the output, in full, in the
    decompressor. *)

From S2P Require Import Prelude Math Bytes.

(** ** Reading and writing *)

Definition byte (m : list Z) (p : Z) : option Z := unle <$> load m p 1.
Definition LZ4_read16 (m : list Z) (p : Z) : option Z := unle <$> load m p 2.
Definition LZ4_read32 (m : list Z) (p : Z) : option Z := unle <$> load m p 4.
Definition LZ4_read64 (m : list Z) (p : Z) : option Z := unle <$> load m p 8.

Definition put (m : list Z) (p v : Z) : option (list Z) := store m p [wrap 8 v].
Definition LZ4_writeLE16 (m : list Z) (p v : Z) : option (list Z) := store m p (le 2 (u16 v)).

(** memcpy from another buffer. *)
Definition copy (dst : list Z) (d : Z) (src : list Z) (s : Z) (n : nat) : option (list Z) :=
  bs ← load src s n; store dst d bs.

Fixpoint wild_loop (fuel : nat) (dst : list Z) (d : Z) (src : list Z) (s e : Z) : option (list Z) :=
  match fuel with
  | O => None
  | S fuel =>
    dst ← copy dst d src s 8;
    if d + 8 <? e then wild_loop fuel dst (d + 8) src (s + 8) e else Some dst
  end.

(** A copy of eight bytes at a time, which may write up to 7 bytes beyond the end. *)
Definition LZ4_wildCopy (dst : list Z) (d : Z) (src : list Z) (s e : Z) : option (list Z) :=
  wild_loop (S (Z.to_nat (e - d))) dst d src s e.

Definition MINMATCH : Z := 4.
Definition COPYLENGTH : Z := 8.
Definition LASTLITERALS : Z := 5.
Definition MFLIMIT : Z := COPYLENGTH + MINMATCH.
Definition LZ4_minLength : Z := MFLIMIT + 1.
Definition MAX_DISTANCE : Z := 2 ^ 16 - 1.
Definition ML_BITS : Z := 4.
Definition ML_MASK : Z := 15.
Definition RUN_MASK : Z := 15.
Definition LZ4_64Klimit : Z := 2 ^ 16 + (MFLIMIT - 1).
Definition LZ4_skipTrigger : Z := 6.
Definition LZ4_MAX_INPUT_SIZE : Z := 2113929216.

Definition LZ4_compressBound (isize : Z) : Z :=
  if LZ4_MAX_INPUT_SIZE <? u32 isize then 0 else isize + isize / 255 + 16.

(** ** Counting common bytes *)

Definition LZ4_NbCommonBytes (val : Z) : Z := Z.shiftr (ctzl val) 3.

(** The loop over words: the position where it stops, or where the words differ. *)
Fixpoint count_words (fuel : nat) (m : list Z) (pIn pMatch pInLimit : Z) : option (Z * Z * bool) :=
  match fuel with
  | O => None
  | S fuel =>
    if pIn <? pInLimit - 7 then
      a ← LZ4_read64 m pMatch;
      b ← LZ4_read64 m pIn;
      let diff := Z.lxor a b in
      if diff =? 0 then count_words fuel m (pIn + 8) (pMatch + 8) pInLimit
      else Some (pIn + LZ4_NbCommonBytes diff, pMatch, true)
    else Some (pIn, pMatch, false)
  end.

(** One of the last, shorter comparisons. *)
Definition count_tail (read : list Z -> Z -> option Z) (k : Z) (m : list Z) (pInLimit : Z) (p : Z * Z) : option (Z * Z) :=
  let '(pIn, pMatch) := p in
  if pIn <? pInLimit - (k - 1) then
    a ← read m pMatch;
    b ← read m pIn;
    Some (if a =? b then (pIn + k, pMatch + k) else (pIn, pMatch))
  else Some (pIn, pMatch).

Definition LZ4_count (m : list Z) (pIn pMatch pInLimit : Z) : option Z :=
  '(p, q, found) ← count_words (S (Z.to_nat (pInLimit - pIn))) m pIn pMatch pInLimit;
  if found : bool then Some (p - pIn)
  else
    r ← count_tail LZ4_read32 4 m pInLimit (p, q);
    r ← count_tail LZ4_read16 2 m pInLimit r;
    r ← count_tail byte 1 m pInLimit r;
    Some (r.1 - pIn).

(** ** The table of positions *)

Inductive tableType_t := byU32 | byU16.

Definition hashLog (tt : tableType_t) : Z := match tt with byU16 => 13 | byU32 => 12 end.
Definition prime5bytes : Z := 889523592379.

Definition LZ4_hashSequence64 (sequence : Z) (tt : tableType_t) : Z :=
  Z.land (Z.shiftr (u64 (sequence * prime5bytes)) (40 - hashLog tt)) (Z.shiftl 1 (hashLog tt) - 1).

Definition LZ4_hashPosition (m : list Z) (p : Z) (tt : tableType_t) : option Z :=
  s ← LZ4_read64 m p; Some (LZ4_hashSequence64 s tt).

(** A table that was cleared. *)
Abbreviation table := (gmap Z Z).

Definition LZ4_putPositionOnHash (p h : Z) (t : table) (tt : tableType_t) : table :=
  <[h := match tt with byU32 => u32 p | byU16 => u16 p end]> t.

Definition LZ4_putPosition (m : list Z) (p : Z) (t : table) (tt : tableType_t) : option table :=
  h ← LZ4_hashPosition m p tt; Some (LZ4_putPositionOnHash p h t tt).

Definition LZ4_getPositionOnHash (h : Z) (t : table) : Z := default 0 (t !! h).

Definition LZ4_getPosition (m : list Z) (p : Z) (t : table) (tt : tableType_t) : option Z :=
  h ← LZ4_hashPosition m p tt; Some (LZ4_getPositionOnHash h t).

(** ** Compression *)

Section Compress.
Variables (src : list Z) (inputSize maxOutputSize : Z) (outputLimited : bool) (tt : tableType_t) (acceleration : Z).

Definition iend : Z := inputSize.
Definition mflimit : Z := iend - MFLIMIT.
Definition matchlimit : Z := iend - LASTLITERALS.
Definition olimit : Z := maxOutputSize.

Inductive search := LastLiterals | Match (ip match_ : Z) (t : table).

(** The do-while loop that looks for a match. *)
Fixpoint find_match (fuel : nat) (forwardIp step searchMatchNb forwardH : Z) (t : table) : option search :=
  match fuel with
  | O => None
  | S fuel =>
    let h := forwardH in
    let ip := forwardIp in
    let forwardIp := forwardIp + step in
    let step := Z.shiftr searchMatchNb LZ4_skipTrigger in
    if mflimit <? forwardIp then Some LastLiterals
    else
      let match_ := LZ4_getPositionOnHash h t in
      forwardH ← LZ4_hashPosition src forwardIp tt;
      let t := LZ4_putPositionOnHash ip h t tt in
      let far := match tt with byU16 => false | byU32 => match_ + MAX_DISTANCE <? ip end in
      again ← (if far : bool then Some true
               else a ← LZ4_read32 src match_; b ← LZ4_read32 src ip; Some (negb (a =? b)));
      if again : bool then find_match fuel forwardIp step (u32 (searchMatchNb + 1)) forwardH t
      else Some (Match ip match_ t)
  end.

(** Extends a match to the left. *)
Fixpoint catch_up (fuel : nat) (ip match_ anchor : Z) : option (Z * Z) :=
  match fuel with
  | O => None
  | S fuel =>
    if (anchor <? ip) && (0 <? match_) then
      a ← byte src (ip - 1);
      b ← byte src (match_ - 1);
      if a =? b then catch_up fuel (ip - 1) (match_ - 1) anchor else Some (ip, match_)
    else Some (ip, match_)
  end.

(** The rest of a length, in bytes of 255 and a last one. *)
Fixpoint put_run (fuel : nat) (dest : list Z) (op len : Z) : option (list Z * Z) :=
  match fuel with
  | O => None
  | S fuel =>
    if 255 <=? len then dest ← put dest op 255; put_run fuel dest (op + 1) (len - 255)
    else dest ← put dest op len; Some (dest, op + 1)
  end.

Fixpoint put_run2 (fuel : nat) (dest : list Z) (op len : Z) : option (list Z * Z * Z) :=
  match fuel with
  | O => None
  | S fuel =>
    if 510 <=? len then
      dest ← put dest op 255;
      dest ← put dest (op + 1) 255;
      put_run2 fuel dest (op + 2) (len - 510)
    else Some (dest, op, len)
  end.

(** The token and the literals from [anchor] to [ip]: none when the output would be too
    large. *)
Definition put_literals (dest : list Z) (op anchor ip : Z) : option (list Z * option (Z * Z)) :=
  let litLength := ip - anchor in
  let token := op in
  let op := op + 1 in
  if outputLimited && (olimit <? op + litLength + (2 + 1 + LASTLITERALS) + litLength / 255) then Some (dest, None)
  else
    '(dest, op) ← (if RUN_MASK <=? litLength then
                     dest ← put dest token (Z.shiftl RUN_MASK ML_BITS);
                     put_run (S (Z.to_nat litLength)) dest op (litLength - RUN_MASK)
                   else dest ← put dest token (Z.shiftl litLength ML_BITS); Some (dest, op));
    dest ← LZ4_wildCopy dest op src anchor (op + litLength);
    Some (dest, Some (op + litLength, token)).

(** [token] is increased by the code of the match length. *)
Definition add_token (dest : list Z) (token v : Z) : option (list Z) := a ← byte dest token; put dest token (a + v).

(** _next_match: the offset and the length of a match. *)
Definition put_match (dest : list Z) (op token ip match_ : Z) : option (list Z * option (Z * Z)) :=
  dest ← LZ4_writeLE16 dest op (ip - match_);
  let op := op + 2 in
  matchLength ← LZ4_count src (ip + MINMATCH) (match_ + MINMATCH) matchlimit;
  let ip := ip + MINMATCH + matchLength in
  if outputLimited && (olimit <? op + (1 + LASTLITERALS) + Z.shiftr matchLength 8) then Some (dest, None)
  else if ML_MASK <=? matchLength then
    dest ← add_token dest token ML_MASK;
    '(dest, op, len) ← put_run2 (S (Z.to_nat matchLength)) dest op (matchLength - ML_MASK);
    '(dest, op, len) ← (if 255 <=? len then dest ← put dest op 255; Some (dest, op + 1, len - 255) else Some (dest, op, len));
    dest ← put dest op len;
    Some (dest, Some (op + 1, ip))
  else dest ← add_token dest token matchLength; Some (dest, Some (op, ip)).

(** _last_literals. *)
Definition last_literals (dest : list Z) (op anchor : Z) : option (Z * list Z) :=
  let lastRun := iend - anchor in
  if outputLimited && (u32 maxOutputSize <? op + lastRun + 1 + (lastRun + 255 - RUN_MASK) / 255) then Some (0, dest)
  else
    '(dest, op) ← (if RUN_MASK <=? lastRun then
                     dest ← put dest op (Z.shiftl RUN_MASK ML_BITS);
                     put_run (S (Z.to_nat lastRun)) dest (op + 1) (lastRun - RUN_MASK)
                   else dest ← put dest op (Z.shiftl lastRun ML_BITS); Some (dest, op + 1));
    dest ← copy dest op src anchor (Z.to_nat lastRun);
    Some (op + lastRun, dest).

(** Where the main loop goes on: it looks for a match from [ip] on, or has one at [ip]. *)
Inductive point := Search (ip forwardH : Z) | NextMatch (ip match_ token : Z).

Fixpoint main_loop (fuel : nat) (c : point) (anchor op : Z) (dest : list Z) (t : table) : option (Z * list Z) :=
  match fuel with
  | O => None
  | S fuel =>
    match c with
    | Search ip forwardH =>
      r ← find_match (S (Z.to_nat inputSize)) ip 1 (u32 (Z.shiftl acceleration LZ4_skipTrigger)) forwardH t;
      match r with
      | LastLiterals => last_literals dest op anchor
      | Match ip match_ t =>
        '(ip, match_) ← catch_up (S (Z.to_nat inputSize)) ip match_ anchor;
        '(dest, r) ← put_literals dest op anchor ip;
        match r with
        | None => Some (0, dest)
        | Some (op, token) => main_loop fuel (NextMatch ip match_ token) anchor op dest t
        end
      end
    | NextMatch ip match_ token =>
      '(dest, r) ← put_match dest op token ip match_;
      match r with
      | None => Some (0, dest)
      | Some (op, ip) =>
        let anchor := ip in
        if mflimit <? ip then last_literals dest op anchor
        else
          t ← LZ4_putPosition src (ip - 2) t tt;
          match_ ← LZ4_getPosition src ip t tt;
          t ← LZ4_putPosition src ip t tt;
          again ← (if ip <=? match_ + MAX_DISTANCE then
                     a ← LZ4_read32 src match_; b ← LZ4_read32 src ip; Some (a =? b)
                   else Some false);
          if again : bool then
            dest ← put dest op 0;
            main_loop fuel (NextMatch ip match_ op) anchor (op + 1) dest t
          else
            forwardH ← LZ4_hashPosition src (ip + 1) tt;
            main_loop fuel (Search (ip + 1) forwardH) anchor op dest t
      end
    end
  end.

(** The number of bytes written, zero when it failed, and the output. *)
Definition LZ4_compress_generic (dest : list Z) : option (Z * list Z) :=
  if LZ4_MAX_INPUT_SIZE <? u32 inputSize then Some (0, dest)
  else if (match tt with byU16 => true | byU32 => false end) && (LZ4_64Klimit <=? inputSize) then Some (0, dest)
  else if inputSize <? LZ4_minLength then last_literals dest 0 0
  else
    t ← LZ4_putPosition src 0 ∅ tt;
    forwardH ← LZ4_hashPosition src 1 tt;
    main_loop (S (S (Z.to_nat inputSize))) (Search 1 forwardH) 0 0 dest t.
End Compress.

Definition LZ4_compress_fast (src dest : list Z) (inputSize maxOutputSize acceleration : Z) : option (Z * list Z) :=
  let acceleration := if acceleration <? 1 then 1 else acceleration in
  let tt := if inputSize <? LZ4_64Klimit then byU16 else byU32 in
  if LZ4_compressBound inputSize <=? maxOutputSize
  then LZ4_compress_generic src inputSize 0 false tt acceleration dest
  else LZ4_compress_generic src inputSize maxOutputSize true tt acceleration dest.

(** ** Decompression *)

Section Decompress.
Variables (src : list Z) (inputSize outputSize : Z) (endOnInput : bool).
Variable overlap : bool.               (* memcpy may be used on memory that overlaps *)
Variables src_at dest_at : Z.          (* the addresses of the input and the output *)

(** memcpy inside the output: it is not defined on memory that overlaps, but to load all of
    it and then store it. *)
Definition copy_in (m : list Z) (d s : Z) (n : nat) : option (list Z) :=
  if negb overlap && (Z.abs (d - s) <? Z.of_nat n) then None else copy m d m s n.

Fixpoint wild_in_loop (fuel : nat) (m : list Z) (d s e : Z) : option (list Z) :=
  match fuel with
  | O => None
  | S fuel =>
    m ← copy_in m d s 8;
    if d + 8 <? e then wild_in_loop fuel m (d + 8) (s + 8) e else Some m
  end.

Definition wildCopy_in (m : list Z) (d s e : Z) : option (list Z) := wild_in_loop (S (Z.to_nat (e - d))) m d s e.

(** while (op<cpy) *op++ = *match++; *)
Fixpoint bytes_in (n : nat) (m : list Z) (d s : Z) : option (list Z) :=
  match n with
  | O => Some m
  | S n => v ← byte m s; m ← put m d v; bytes_in n m (d + 1) (s + 1)
  end.

Definition dec32table : list Z := [4; 1; 2; 1; 4; 4; 4; 4].
Definition dec64table : list Z := [0; 0; 0; -1; 0; 1; 2; 3].

Definition dec_iend : Z := inputSize.
Definition oend : Z := outputSize.
Definition checkOffset : bool := endOnInput.

(** The loop of a length: it stops at a byte below 255, or, for literals, near the end of the
    input; the match length fails when it comes too close to the end. *)
Fixpoint lit_length (fuel : nat) (ip length : Z) : option (Z * Z) :=
  match fuel with
  | O => None
  | S fuel =>
    s ← byte src ip;
    let ip := ip + 1 in
    let length := length + s in
    if (if endOnInput then ip <? dec_iend - RUN_MASK else true) && (s =? 255) then lit_length fuel ip length else Some (ip, length)
  end.

Inductive progress := Error (ip : Z) | Going (ip length : Z).

Fixpoint match_length (fuel : nat) (ip length : Z) : option progress :=
  match fuel with
  | O => None
  | S fuel =>
    if endOnInput && (dec_iend - LASTLITERALS <? ip) then Some (Error ip)
    else
      s ← byte src ip;
      let ip := ip + 1 in
      let length := length + s in
      if s =? 255 then match_length fuel ip length else Some (Going ip length)
  end.

(** The first eight bytes of a match, four of them one by one when it is close. *)
Definition copy_first (m : list Z) (op match_ : Z) : option (list Z * Z * Z) :=
  if op - match_ <? 8 then
    dec64 ← dec64table !! Z.to_nat (op - match_);
    m ← bytes_in 4 m op match_;
    dec32 ← dec32table !! Z.to_nat (op - match_);
    m ← copy_in m (op + 4) (match_ + dec32) 4;
    Some (m, op + 8, match_ + dec32 - dec64)
  else m ← copy_in m op match_ 8; Some (m, op + 8, match_ + 8).

(** The copy of a match of [length] bytes at [op]; none when it ends too close to the end. *)
Definition copy_match (m : list Z) (op match_ length : Z) : option (option (list Z)) :=
  let cpy := op + length in
  '(m, op, match_) ← copy_first m op match_;
  if oend - 12 <? cpy then
    if oend - LASTLITERALS <? cpy then Some None
    else
      '(m, op, match_) ← (if op <? oend - 8 then
                            m ← wildCopy_in m op match_ (oend - 8);
                            Some (m, oend - 8, match_ + (oend - 8 - op))
                          else Some (m, op, match_));
      m ← bytes_in (Z.to_nat (cpy - op)) m op match_;
      Some (Some m)
  else m ← wildCopy_in m op match_ cpy; Some (Some m).

(** A negative result is an error. *)
Definition output_error (ip : Z) : Z := - ip - 1.

(** The overflow detection of the decoder of an input of known size: an address and a length whose
    sum does not fit. *)
Definition wraps (a n : Z) : bool := endOnInput && (u64 (a + n) <? a).

Fixpoint dec_loop (fuel : nat) (ip op : Z) (m : list Z) : option (Z * list Z) :=
  match fuel with
  | O => None
  | S fuel =>
    token ← byte src ip;
    let ip := ip + 1 in
    let length := Z.shiftr token ML_BITS in
    let run := length =? RUN_MASK in
    '(ip, length) ← (if run then lit_length (S (List.length src)) ip length else Some (ip, length));
    let cpy := op + length in
    if run && (wraps (dest_at + op) length || wraps (src_at + ip) length) then Some (output_error ip, m)
    else if (if endOnInput then (oend - MFLIMIT <? cpy) || (dec_iend - (2 + 1 + LASTLITERALS) <? ip + length) else oend - COPYLENGTH <? cpy) then
      if (if endOnInput then negb (ip + length =? dec_iend) || (oend <? cpy) else negb (cpy =? oend)) then Some (output_error ip, m)
      else
        m ← copy m op src ip (Z.to_nat length);
        Some (if endOnInput then op + length else ip + length, m)
    else
      m ← LZ4_wildCopy m op src ip cpy;
      let ip := ip + length in
      let op := cpy in
      offset ← LZ4_read16 src ip;
      let match_ := cpy - offset in
      let ip := ip + 2 in
      if checkOffset && (match_ <? 0) then Some (output_error ip, m)
      else
        r ← (if Z.land token ML_MASK =? ML_MASK then match_length (S (List.length src)) ip (Z.land token ML_MASK)
             else Some (Going ip (Z.land token ML_MASK)));
        match r with
        | Error ip => Some (output_error ip, m)
        | Going ip length =>
          if (Z.land token ML_MASK =? ML_MASK) && wraps (dest_at + op) length then Some (output_error ip, m)
          else
            let length := length + MINMATCH in
            r ← copy_match m op match_ length;
            match r with
            | None => Some (output_error ip, m)
            | Some m => dec_loop fuel ip (op + length) m
            end
        end
  end.

Definition LZ4_decompress_generic (dest : list Z) : option (Z * list Z) :=
  if outputSize =? 0 then
    if endOnInput then
      if inputSize =? 1 then b ← byte src 0; Some (if b =? 0 then 0 else -1, dest) else Some (-1, dest)
    else b ← byte src 0; Some (if b =? 0 then 1 else -1, dest)
  else dec_loop (S (List.length src)) 0 0 dest.
End Decompress.

(** Without a size of the input there is no overflow detection, and the addresses are not used. *)
Definition LZ4_decompress_fast (overlap : bool) (src dest : list Z) (originalSize : Z) : option (Z * list Z) :=
  LZ4_decompress_generic src 0 originalSize false overlap 0 0 dest.

Definition LZ4_decompress_safe (overlap : bool) (src_at dest_at : Z) (src dest : list Z) (compressedSize maxDecompressedSize : Z) : option (Z * list Z) :=
  LZ4_decompress_generic src compressedSize maxDecompressedSize true overlap src_at dest_at dest.

(** ** Bytes and words *)

(** The byte at [p]. *)
Definition bt (m : list Z) (p : Z) : Z := nth (Z.to_nat p) m 0.
Definition len (m : list Z) : Z := Z.of_nat (length m).
Definition bytes (m : list Z) : Prop := Forall (fun v => 0 <= v < 256) m.
Definition sub (m : list Z) (p n : Z) : list Z := take (Z.to_nat n) (drop (Z.to_nat p) m).

Lemma bt_lookup m p : 0 <= p < len m -> m !! Z.to_nat p = Some (bt m p).
Proof. unfold bt, len. intros H. destruct (nth_lookup_or_length m (Z.to_nat p) 0) as [E|E]; [done|lia]. Qed.

Lemma bt_bound m p : bytes m -> 0 <= bt m p < 256.
Proof.
  intros Hm. unfold bt. destruct (nth_lookup_or_length m (Z.to_nat p) 0) as [E|E]; [exact (Forall_lookup_1 _ _ _ _ Hm E)|].
  rewrite nth_overflow by lia. lia.
Qed.

Lemma sub_length m p n : 0 <= p -> 0 <= n -> p + n <= len m -> len (sub m p n) = n.
Proof. unfold len, sub. intros. rewrite length_take, length_drop. lia. Qed.

Lemma sub_lookup m p n i : 0 <= p -> 0 <= n -> p + n <= len m -> 0 <= i < n -> sub m p n !! Z.to_nat i = Some (bt m (p + i)).
Proof.
  intros Hp Hn Hl Hi. unfold sub. rewrite lookup_take_lt, lookup_drop by lia.
  replace (Z.to_nat p + Z.to_nat i)%nat with (Z.to_nat (p + i)) by lia. apply bt_lookup. lia.
Qed.

Lemma sub_app m p n k : 0 <= p -> 0 <= n -> 0 <= k -> sub m p n ++ sub m (p + n) k = sub m p (n + k).
Proof.
  intros Hp Hn Hk. unfold sub. rewrite Z2Nat.inj_add, Z2Nat.inj_add by lia. rewrite <- drop_drop.
  by rewrite <- take_take_drop.
Qed.

Lemma sub_bytes m p n : bytes m -> bytes (sub m p n).
Proof. intros H. by apply Forall_take, Forall_drop. Qed.

Lemma load_sub m p n : 0 <= p -> p + Z.of_nat n <= len m -> load m p n = Some (sub m p (Z.of_nat n)).
Proof. intros Hp Hn. unfold len in *. rewrite load_some by lia. unfold sub. by rewrite Nat2Z.id. Qed.

Lemma byte_bt m p : 0 <= p < len m -> byte m p = Some (bt m p).
Proof.
  intros Hp. unfold byte. rewrite load_sub by lia. simpl. f_equal. pose proof (sub_lookup m p 1 0 ltac:(lia) ltac:(lia) ltac:(lia) ltac:(lia)) as Hl.
  pose proof (sub_length m p 1 ltac:(lia) ltac:(lia) ltac:(lia)) as Hlen. change (Z.of_nat 1) with 1 in *. rewrite Z.add_0_r in Hl.
  unfold len in Hlen. destruct (sub m p 1) as [|v [|]]; cbn in *; try done; try lia. injection Hl as ->. lia.
Qed.

Lemma unle_bound bs : bytes bs -> 0 <= unle bs < 2 ^ (8 * Z.of_nat (length bs)).
Proof.
  induction bs as [|b bs IH]; [simpl; lia|]. intros [Hb Hbs]%Forall_cons. specialize (IH Hbs). cbn [unle length].
  replace (8 * Z.of_nat (S (length bs))) with (8 + 8 * Z.of_nat (length bs)) by lia. rewrite Z.pow_add_r by lia. lia.
Qed.

(** Byte [i] of a word is its bits from [8 i] on. *)
Lemma unle_byte bs : forall i v, bytes bs -> bs !! i = Some v -> forall b, 0 <= b < 8 ->
  Z.testbit (unle bs) (8 * Z.of_nat i + b) = Z.testbit v b.
Proof.
  induction bs as [|c bs IH]; intros [|i] v Hbs Hv b Hb; try done; apply Forall_cons in Hbs as [Hc Hbs]; cbn [unle].
  - injection Hv as ->. replace (8 * Z.of_nat 0 + b) with b by lia. replace (v + 256 * unle bs) with (Z.lor (Z.shiftl (unle bs) 8) v).
    + rewrite Z.lor_spec, Z.shiftl_spec_low by lia. done.
    + rewrite lor_shiftl_add by lia. lia.
  - replace (c + 256 * unle bs) with (Z.lor (Z.shiftl (unle bs) 8) c) by (rewrite lor_shiftl_add by lia; lia).
    rewrite Z.lor_spec, Z.shiftl_spec by lia. rewrite (testbit_high 8 c) by lia. rewrite orb_false_r.
    replace (8 * Z.of_nat (S i) + b - 8) with (8 * Z.of_nat i + b) by lia. by apply IH.
Qed.

Lemma byte_ext v w : 0 <= v < 256 -> 0 <= w < 256 -> (forall b, 0 <= b < 8 -> Z.testbit v b = Z.testbit w b) -> v = w.
Proof.
  intros Hv Hw H. apply Z.bits_inj'. intros b Hb. destruct (Z.lt_ge_cases b 8); [apply H; lia|]. rewrite !(testbit_high 8) by lia. done.
Qed.

Section Words.
Variable m : list Z.
Hypothesis Hm : bytes m.

(** Bit [b] of byte [i] of the word of [n] bytes at [p]. *)
Lemma word_bit p n i b : 0 <= p -> p + Z.of_nat n <= len m -> 0 <= i < Z.of_nat n -> 0 <= b < 8 ->
  Z.testbit (unle (sub m p (Z.of_nat n))) (8 * i + b) = Z.testbit (bt m (p + i)) b.
Proof.
  intros Hp Hn Hi Hb. rewrite <- (Z2Nat.id i) at 1 by lia. apply unle_byte; [by apply sub_bytes| |done]. by apply sub_lookup; lia.
Qed.

Lemma word_bound p n : 0 <= p -> p + Z.of_nat n <= len m -> 0 <= unle (sub m p (Z.of_nat n)) < 2 ^ (8 * Z.of_nat n).
Proof.
  intros Hp Hn. pose proof (unle_bound (sub m p (Z.of_nat n)) (sub_bytes _ _ _ Hm)) as H.
  pose proof (sub_length m p (Z.of_nat n) Hp ltac:(lia) Hn) as Hl. unfold len in Hl. by rewrite Hl in H.
Qed.

(** Words are equal when their bytes are. *)
Lemma word_eq p q n : 0 <= p -> p + Z.of_nat n <= len m -> 0 <= q -> q + Z.of_nat n <= len m ->
  unle (sub m p (Z.of_nat n)) = unle (sub m q (Z.of_nat n)) <-> forall i, 0 <= i < Z.of_nat n -> bt m (p + i) = bt m (q + i).
Proof.
  intros Hp Hpn Hq Hqn. split.
  - intros E i Hi. apply byte_ext; [by apply bt_bound..|]. intros b Hb. rewrite <- (word_bit p n i b), <- (word_bit q n i b) by done. by rewrite E.
  - intros H. f_equal. apply list_eq. intros i. destruct (decide (i < n)%nat) as [Hi|Hi].
    + pose proof (sub_lookup m p (Z.of_nat n) (Z.of_nat i) ltac:(lia) ltac:(lia) ltac:(lia) ltac:(lia)) as H1.
      pose proof (sub_lookup m q (Z.of_nat n) (Z.of_nat i) ltac:(lia) ltac:(lia) ltac:(lia) ltac:(lia)) as H2. rewrite Nat2Z.id in H1, H2. rewrite H1, H2. f_equal. apply H. lia.
    + pose proof (sub_length m p (Z.of_nat n) Hp ltac:(lia) Hpn). pose proof (sub_length m q (Z.of_nat n) Hq ltac:(lia) Hqn). unfold len in *.
      rewrite !lookup_ge_None_2 by lia. done.
Qed.

(** The first byte in which two words differ. *)
Lemma common_bytes p q : 0 <= p -> p + 8 <= len m -> 0 <= q -> q + 8 <= len m ->
  let d := Z.lxor (unle (sub m q 8)) (unle (sub m p 8)) in d <> 0 ->
  let k := LZ4_NbCommonBytes d in
  0 <= k < 8 /\ (forall j, 0 <= j < k -> bt m (p + j) = bt m (q + j)) /\ bt m (p + k) <> bt m (q + k).
Proof.
  intros Hp Hpn Hq Hqn d Hd k. pose proof (word_bound p 8 Hp Hpn) as Bp. pose proof (word_bound q 8 Hq Hqn) as Bq. change (Z.of_nat 8) with 8 in *. change (8 * 8) with 64 in *.
  assert (Hd0 : 0 <= d) by (apply Z.lxor_nonneg; lia). assert (Hd64 : d < 2 ^ 64).
  { destruct (Z.eq_dec d 0); [lia|]. apply Z.log2_lt_pow2; [lia|]. eapply Z.le_lt_trans; [apply Z.log2_lxor; lia|].
    apply Z.max_lub_lt; (destruct (Z.eq_dec (unle (sub m q 8)) 0) as [E|]; destruct (Z.eq_dec (unle (sub m p 8)) 0) as [E'|]; rewrite ?E, ?E'; simpl; try lia; apply Z.log2_lt_pow2; lia). }
  pose proof (ctzl_bit d ltac:(lia)) as Hbit. pose proof (ctzl_lt 64 d ltac:(lia) ltac:(lia)) as Hc. pose proof (ctzl_nonneg d) as Hc0.
  assert (Hk : 8 * k <= ctzl d < 8 * k + 8).
  { unfold k, LZ4_NbCommonBytes. rewrite Z.shiftr_div_pow2 by lia. change (2 ^ 3) with 8. pose proof (Z.div_mod (ctzl d) 8 ltac:(lia)). pose proof (Z.mod_pos_bound (ctzl d) 8). lia. }
  split; [lia|]. split.
  - intros j Hj. apply byte_ext; [by apply bt_bound..|]. intros b Hb.
    pose proof (word_bit p 8 j b ltac:(lia) ltac:(lia) ltac:(lia) Hb) as W1. pose proof (word_bit q 8 j b ltac:(lia) ltac:(lia) ltac:(lia) Hb) as W2. change (Z.of_nat 8) with 8 in *.
    rewrite <- W1, <- W2. pose proof (ctzl_low d (8 * j + b) ltac:(lia) ltac:(lia)) as Hl. unfold d in Hl. rewrite Z.lxor_spec in Hl.
    destruct (Z.testbit (unle (sub m q 8)) (8 * j + b)), (Z.testbit (unle (sub m p 8)) (8 * j + b)); done.
  - intros E. set (b := ctzl d - 8 * k). assert (Hcb : ctzl d = 8 * k + b) by (unfold b; lia). rewrite Hcb in Hbit. unfold d in Hbit. rewrite Z.lxor_spec in Hbit.
    pose proof (word_bit p 8 k b ltac:(lia) ltac:(lia) ltac:(lia) ltac:(lia)) as W1. pose proof (word_bit q 8 k b ltac:(lia) ltac:(lia) ltac:(lia) ltac:(lia)) as W2. change (Z.of_nat 8) with 8 in *.
    rewrite W1, W2, E in Hbit. by rewrite xorb_nilpotent in Hbit.
Qed.
End Words.

(** ** The length of a match *)

(** [n] bytes at [p] and at [q] are the same. *)
Definition agree (m : list Z) (p q n : Z) : Prop := forall j, 0 <= j < n -> bt m (p + j) = bt m (q + j).

Lemma agree_app m p q n k : 0 <= n -> agree m p q n -> agree m (p + n) (q + n) k -> agree m p q (n + k).
Proof.
  intros Hn H1 H2 j Hj. destruct (Z.lt_ge_cases j n); [apply H1; lia|]. replace (p + j) with (p + n + (j - n)) by lia.
  replace (q + j) with (q + n + (j - n)) by lia. apply H2. lia.
Qed.

Lemma agree_mono m p q n k : k <= n -> agree m p q n -> agree m p q k.
Proof. intros Hk H j Hj. apply H. lia. Qed.

Section Count.
Variables (m : list Z) (lim : Z).
Hypothesis Hm : bytes m.
Hypothesis Hlim : lim <= len m.

Lemma read64_sub p : 0 <= p -> p + 8 <= len m -> LZ4_read64 m p = Some (unle (sub m p 8)).
Proof. intros. unfold LZ4_read64. by rewrite load_sub by lia. Qed.

Lemma read32_sub p : 0 <= p -> p + 4 <= len m -> LZ4_read32 m p = Some (unle (sub m p 4)).
Proof. intros. unfold LZ4_read32. by rewrite load_sub by lia. Qed.

Lemma read16_sub p : 0 <= p -> p + 2 <= len m -> LZ4_read16 m p = Some (unle (sub m p 2)).
Proof. intros. unfold LZ4_read16. by rewrite load_sub by lia. Qed.

Lemma byte_sub p : 0 <= p -> p + 1 <= len m -> byte m p = Some (unle (sub m p 1)).
Proof. intros. unfold byte. by rewrite load_sub by lia. Qed.

Lemma count_words_spec fuel : forall p q, 0 <= q <= p -> p <= lim -> (Z.to_nat (lim - p) < fuel)%nat ->
  exists p' q' b, count_words fuel m p q lim = Some (p', q', b) /\ p <= p' <= lim /\ agree m p q (p' - p)
    /\ (if b : bool then p' < lim /\ bt m p' <> bt m (q + (p' - p)) else q' = q + (p' - p) /\ lim - p' < 8).
Proof.
  induction fuel as [|fuel IH]; intros p q Hq Hp Hf; [lia|]. cbn [count_words]. destruct (Z.ltb_spec p (lim - 7)) as [Hlt|Hge].
  - rewrite !read64_sub by lia. cbn [mbind option_bind]. destruct (Z.eqb_spec (Z.lxor (unle (sub m q 8)) (unle (sub m p 8))) 0) as [E|E].
    + apply Z.lxor_eq in E. destruct (IH (p + 8) (q + 8)) as (p' & q' & b & E' & Hp' & Ha & Hb); [lia|lia|lia|].
      exists p', q', b. split; [done|]. split; [lia|]. assert (H8 : agree m p q 8).
      { intros j Hj. symmetry. apply (proj1 (word_eq m Hm q p 8 ltac:(lia) ltac:(lia) ltac:(lia) ltac:(lia)) E). lia. }
      split; [replace (p' - p) with (8 + (p' - (p + 8))) by lia; by apply agree_app; [lia| |]|].
      destruct b; [|lia]. destruct Hb as [Hb1 Hb2]. split; [done|]. by replace (q + (p' - p)) with (q + 8 + (p' - (p + 8))) by lia.
    + destruct (common_bytes m Hm p q ltac:(lia) ltac:(lia) ltac:(lia) ltac:(lia) E) as (Hk & Ha & Hd). set (k := LZ4_NbCommonBytes _) in *.
      exists (p + k), q, true. split; [done|]. split; [lia|]. replace (p + k - p) with k by lia. split; [done|]. split; [lia|done].
  - exists p, q, false. split; [done|]. split; [lia|]. split; [intros j Hj; lia|lia].
Qed.

(** Between the tests, fewer than [k] bytes are left or the next [k] differ. *)
Definition near (k p q : Z) : Prop := lim - p < k \/ ~ agree m p q k.

Lemma count_tail_spec read k p q : 0 < k -> (forall x, 0 <= x -> x + k <= len m -> read m x = Some (unle (sub m x k))) ->
  0 <= q <= p -> p <= lim -> near (2 * k) p q ->
  exists d, count_tail read k m lim (p, q) = Some (p + d, q + d) /\ 0 <= d /\ p + d <= lim /\ agree m p q d /\ near k (p + d) (q + d).
Proof.
  intros Hk Hread Hq Hp Hn. unfold count_tail. destruct (Z.ltb_spec p (lim - (k - 1))) as [Hlt|Hge].
  - rewrite !Hread by lia. cbn [mbind option_bind].
    assert (Hw : unle (sub m q k) = unle (sub m p k) <-> agree m p q k).
    { pose proof (word_eq m Hm p q (Z.to_nat k)) as H. rewrite Z2Nat.id in H by lia. rewrite <- H by lia. split; congruence. }
    destruct (Z.eqb_spec (unle (sub m q k)) (unle (sub m p k))) as [E|E].
    + exists k. split; [done|]. split; [lia|]. split; [lia|]. apply Hw in E. split; [done|]. destruct Hn as [Hn|Hn]; [left; lia|].
      right. intros Hc. apply Hn. replace (2 * k) with (k + k) by lia. apply agree_app; [lia|done|done].
    + exists 0. rewrite !Z.add_0_r. split; [done|]. split; [lia|]. split; [lia|]. split; [intros j Hj; lia|]. right. by rewrite <- Hw.
  - exists 0. rewrite !Z.add_0_r. split; [done|]. split; [lia|]. split; [lia|]. split; [intros j Hj; lia|]. left. lia.
Qed.

(** LZ4_count is the length of the longest common prefix, up to the limit. *)
Lemma count_spec p q : 0 <= q <= p -> p <= lim ->
  exists k, LZ4_count m p q lim = Some k /\ 0 <= k /\ p + k <= lim /\ agree m p q k /\ (p + k = lim \/ bt m (p + k) <> bt m (q + k)).
Proof.
  intros Hq Hp. unfold LZ4_count. destruct (count_words_spec (S (Z.to_nat (lim - p))) p q) as (p1 & q1 & b & E & Hp1 & Ha & Hb); [lia|lia|lia|].
  rewrite E. cbn [mbind option_bind]. destruct b.
  - exists (p1 - p). split; [done|]. split; [lia|]. split; [lia|]. split; [done|]. right. destruct Hb as [_ Hb]. by replace (p + (p1 - p)) with p1 by lia.
  - destruct Hb as [-> Hb]. set (d0 := p1 - p) in *. replace p1 with (p + d0) in * by lia.
    destruct (count_tail_spec LZ4_read32 4 (p + d0) (q + d0)) as (d1 & E1 & D1 & L1 & A1 & N1); [lia|apply read32_sub|lia|lia|left; lia|].
    rewrite E1. cbn [mbind option_bind].
    destruct (count_tail_spec LZ4_read16 2 (p + d0 + d1) (q + d0 + d1)) as (d2 & E2 & D2 & L2 & A2 & N2); [lia|apply read16_sub|lia|lia|done|].
    rewrite E2. cbn [mbind option_bind].
    destruct (count_tail_spec byte 1 (p + d0 + d1 + d2) (q + d0 + d1 + d2)) as (d3 & E3 & D3 & L3 & A3 & N3); [lia|apply byte_sub|lia|lia|done|].
    rewrite E3. cbn [mbind option_bind fst]. exists (d0 + d1 + d2 + d3). split; [f_equal; lia|]. split; [lia|]. split; [lia|]. split.
    + apply agree_app; [lia| |by rewrite !Z.add_assoc]. apply agree_app; [lia| |by rewrite !Z.add_assoc]. by apply agree_app; [lia| |].
    + destruct N3 as [N3|N3]; [left; lia|]. right. intros Heq. apply N3. intros j Hj. replace j with 0 by lia. rewrite !Z.add_0_r.
      by rewrite !Z.add_assoc in Heq.
Qed.
End Count.

(** ** Writing one thing after the other *)

(** A buffer of [n] bytes that starts with [bs]. *)
Definition starts (m bs : list Z) (n : Z) : Prop := bs `prefix_of` m /\ len m = n.

Lemma len_app a b : len (a ++ b) = len a + len b.
Proof. unfold len. rewrite length_app. lia. Qed.

Lemma len_nonneg a : 0 <= len a.
Proof. unfold len. lia. Qed.

Lemma starts_nil m : starts m [] (len m).
Proof. split; [apply prefix_nil|done]. Qed.

Lemma starts_len m bs n : starts m bs n -> len bs <= n.
Proof. intros [[k ->] <-]. rewrite len_app. pose proof (len_nonneg k). lia. Qed.

Lemma starts_app m bs xs ys n : ys `prefix_of` xs -> starts m (bs ++ xs) n -> starts m (bs ++ ys) n.
Proof. intros Hp [H1 H2]. split; [|done]. etransitivity; [by apply prefix_app|done]. Qed.

Lemma starts_store m bs xs n : starts m bs n -> len bs + len xs <= n ->
  exists m', store m (len bs) xs = Some m' /\ starts m' (bs ++ xs) n.
Proof.
  intros [[k ->] Hn] Hl. rewrite len_app in Hn. unfold len in *. rewrite store_some by (try rewrite length_app; lia). eexists. split; [done|].
  rewrite Nat2Z.id, take_app_length. split.
  - exists (drop (length bs + length xs) (bs ++ k)). by rewrite <- app_assoc.
  - unfold len. rewrite !length_app, length_drop, length_app. lia.
Qed.

Lemma starts_put m bs v n : starts m bs n -> len bs < n -> exists m', put m (len bs) v = Some m' /\ starts m' (bs ++ [wrap 8 v]) n.
Proof. intros Hs Hl. apply starts_store; [done|]. unfold len at 2. simpl. lia. Qed.

(** The same at an address that is known to be the end. *)
Lemma starts_put_at m bs v n p : starts m bs n -> p = len bs -> len bs < n ->
  exists m', put m p v = Some m' /\ starts m' (bs ++ [wrap 8 v]) n.
Proof. intros Hs ->. by apply starts_put. Qed.

Lemma starts_replace m a t r v n : starts m (a ++ [t] ++ r) n ->
  byte m (len a) = Some t /\ exists m', put m (len a) v = Some m' /\ starts m' (a ++ [wrap 8 v] ++ r) n.
Proof.
  intros [[k ->] Hn]. unfold len in *. rewrite !length_app in Hn. simpl in Hn. split.
  - rewrite byte_bt by (unfold len; rewrite !length_app; simpl; lia). f_equal. unfold bt. rewrite Nat2Z.id, <- !app_assoc. apply nth_middle.
  - unfold put. rewrite store_some by (try rewrite !length_app; simpl; lia). eexists. split; [done|].
    rewrite Nat2Z.id, <- !app_assoc, take_app_length. split.
    + exists k. rewrite <- !app_assoc. do 2 f_equal. rewrite drop_app_ge by (simpl; lia). by replace (length a + length [wrap 8 v] - length a)%nat with 1%nat by (simpl; lia).
    + unfold len. rewrite !length_app, length_drop, !length_app. simpl. lia.
Qed.

Lemma starts_bt m bs n p : starts m bs n -> 0 <= p < len bs -> bt m p = bt bs p.
Proof. intros [[k ->] _] Hp. unfold bt, len in *. rewrite app_nth1 by lia. done. Qed.

Lemma sub_prefix m p n k : 0 <= n <= k -> sub m p n `prefix_of` sub m p k.
Proof.
  intros Hn. unfold sub. exists (drop (Z.to_nat n) (take (Z.to_nat k) (drop (Z.to_nat p) m))).
  rewrite <- (take_drop (Z.to_nat n) (take (Z.to_nat k) (drop (Z.to_nat p) m))) at 1. f_equal. rewrite take_take. f_equal. lia.
Qed.

Section Wild.
Variables (src bs : list Z) (s k n : Z).
Hypothesis Hs : 0 <= s.
Hypothesis Hk : 0 <= k.
Hypothesis Hsrc : s + 8 <= len src /\ s + k + 7 <= len src.
Hypothesis Hdst : len bs + 8 <= n /\ len bs + k + 7 <= n.

Lemma wild_loop_spec fuel : forall i m, 0 <= i -> i = 0 \/ i < k -> (Z.to_nat (k - i) < fuel)%nat -> starts m (bs ++ sub src s i) n ->
  exists m', wild_loop fuel m (len bs + i) src (s + i) (len bs + k) = Some m' /\ starts m' (bs ++ sub src s k) n.
Proof.
  induction fuel as [|fuel IH]; intros i m Hi Hik Hf Hst; [lia|]. cbn [wild_loop]. unfold copy. rewrite load_sub by lia. cbn [mbind option_bind].
  assert (El : len bs + i = len (bs ++ sub src s i)) by (rewrite len_app, sub_length by lia; done). change (Z.of_nat 8) with 8.
  destruct (starts_store m (bs ++ sub src s i) (sub src (s + i) 8) n Hst) as (m1 & E1 & S1); [rewrite <- El, sub_length by lia; lia|].
  rewrite <- El in E1. rewrite E1. cbn [mbind option_bind]. rewrite <- app_assoc, sub_app in S1 by lia.
  destruct (Z.ltb_spec (len bs + i + 8) (len bs + k)).
  - replace (len bs + i + 8) with (len bs + (i + 8)) by lia. replace (s + i + 8) with (s + (i + 8)) by lia. apply IH; [lia|lia|lia|done].
  - exists m1. split; [done|]. eapply starts_app; [|done]. apply sub_prefix. lia.
Qed.

Lemma wildCopy_spec m : starts m bs n ->
  exists m', LZ4_wildCopy m (len bs) src s (len bs + k) = Some m' /\ starts m' (bs ++ sub src s k) n.
Proof.
  intros Hst. unfold LZ4_wildCopy. destruct (wild_loop_spec (S (Z.to_nat (len bs + k - len bs))) 0 m) as (m' & E & S'); [lia|by left|lia|by rewrite app_nil_r|].
  rewrite !Z.add_0_r in E. eauto.
Qed.
End Wild.

(** ** The format *)

Definition run (n : Z) : list Z := replicate (Z.to_nat (n / 255)) 255 ++ [n mod 255].
Definition ext (n : Z) : list Z := if 15 <=? n then run (n - 15) else [].
Definition token_of (l c : Z) : Z := Z.min l 15 * 16 + Z.min c 15.

Lemma run_length n : 0 <= n -> len (run n) = n / 255 + 1.
Proof. intros Hn. unfold run. rewrite len_app. unfold len. rewrite length_replicate. simpl. pose proof (Z.div_pos n 255). lia. Qed.

Lemma ext_length n : 0 <= n -> 0 <= len (ext n) /\ (n < 15 -> len (ext n) = 0) /\ (15 <= n -> len (ext n) = (n - 15) / 255 + 1).
Proof.
  intros Hn. unfold ext. destruct (Z.leb_spec 15 n).
  - rewrite run_length by lia. pose proof (Z.div_pos (n - 15) 255). lia.
  - unfold len. simpl. lia.
Qed.

Lemma run_more n : 255 <= n -> run n = 255 :: run (n - 255).
Proof.
  intros Hn. unfold run. replace n with (n - 255 + 1 * 255) at 1 2 by lia. rewrite Z.div_add, Z.mod_add by lia.
  pose proof (Z.div_pos (n - 255) 255 ltac:(lia) ltac:(lia)).
  by replace (Z.to_nat ((n - 255) / 255 + 1)) with (S (Z.to_nat ((n - 255) / 255))) by lia.
Qed.

Lemma run_last n : 0 <= n < 255 -> run n = [n].
Proof. intros Hn. unfold run. by rewrite Z.div_small, Z.mod_small by lia. Qed.

Lemma put_run_spec fuel : forall m bs n k, starts m bs n -> 0 <= k -> (Z.to_nat k < fuel)%nat -> len bs + k / 255 + 1 <= n ->
  exists m', put_run fuel m (len bs) k = Some (m', len bs + k / 255 + 1) /\ starts m' (bs ++ run k) n.
Proof.
  induction fuel as [|fuel IH]; intros m bs n k Hst Hk Hf Hl; [lia|]. cbn [put_run]. pose proof (Z.div_pos k 255 Hk ltac:(lia)) as Hd.
  destruct (starts_put m bs (if 255 <=? k then 255 else k) n Hst) as (m1 & E1 & S1); [lia|]. destruct (Z.leb_spec 255 k).
  - rewrite E1. cbn [mbind option_bind]. change (wrap 8 255) with 255 in S1. assert (Ed : (k - 255) / 255 = k / 255 - 1).
    { replace k with (k - 255 + 1 * 255) at 2 by lia. rewrite Z.div_add by lia. lia. }
    assert (El : len bs + 1 = len (bs ++ [255])) by (rewrite len_app; done). rewrite El.
    destruct (IH m1 (bs ++ [255]) n (k - 255) S1) as (m2 & E2 & S2); [lia|lia|lia|]. exists m2. split; [rewrite E2; do 2 f_equal; lia|].
    rewrite run_more by lia. by rewrite <- app_assoc in S2.
  - rewrite E1. cbn [mbind option_bind]. exists m1. rewrite Z.div_small by lia. split; [do 2 f_equal; lia|].
    rewrite run_last by lia. by rewrite wrap_small in S1 by lia.
Qed.

Lemma put_run2_spec fuel : forall m bs n k, starts m bs n -> 0 <= k -> (Z.to_nat k < fuel)%nat -> len bs + k / 255 + 1 <= n ->
  exists m' q, put_run2 fuel m (len bs) k = Some (m', len bs + 2 * q, k - 510 * q) /\ starts m' (bs ++ replicate (Z.to_nat (2 * q)) 255) n
    /\ 0 <= q /\ 0 <= k - 510 * q < 510.
Proof.
  induction fuel as [|fuel IH]; intros m bs n k Hst Hk Hf Hl; [lia|]. cbn [put_run2]. destruct (Z.leb_spec 510 k).
  - assert (Ed : (k - 510) / 255 = k / 255 - 2) by (replace k with (k - 510 + 2 * 255) at 2 by lia; rewrite Z.div_add by lia; lia).
    pose proof (Z.div_pos (k - 510) 255 ltac:(lia) ltac:(lia)).
    destruct (starts_put m bs 255 n Hst) as (m1 & E1 & S1); [lia|]. rewrite E1. cbn [mbind option_bind].
    assert (El : len bs + 1 = len (bs ++ [255])) by (rewrite len_app; done). rewrite El. change (wrap 8 255) with 255 in S1.
    destruct (starts_put m1 (bs ++ [255]) 255 n S1) as (m2 & E2 & S2); [rewrite <- El; lia|]. rewrite E2. cbn [mbind option_bind].
    change (wrap 8 255) with 255 in S2. rewrite <- app_assoc in S2. assert (El2 : len bs + 2 = len (bs ++ [255] ++ [255])) by (rewrite len_app; done). rewrite El2.
    destruct (IH m2 (bs ++ [255] ++ [255]) n (k - 510) S2) as (m3 & q & E3 & S3 & Hq & Hr); [lia|lia|lia|].
    exists m3, (q + 1). split; [rewrite E3; f_equal; f_equal; [f_equal|]; lia|]. split; [|lia].
    replace (Z.to_nat (2 * (q + 1))) with (S (S (Z.to_nat (2 * q)))) by lia. by rewrite <- !app_assoc in S3.
  - exists m, 0. split; [f_equal; f_equal; [f_equal|]; lia|]. split; [by rewrite app_nil_r|lia].
Qed.

(** The two loops of the match length write what one would. *)
Lemma run_pairs q k : 0 <= q -> 0 <= k - 510 * q < 510 ->
  run k = replicate (Z.to_nat (2 * q)) 255 ++ (if 255 <=? k - 510 * q then [255; k - 510 * q - 255] else [k - 510 * q]).
Proof.
  intros Hq. revert k. pattern q. apply natlike_ind; [| |done].
  - intros k Hk. replace (k - 510 * 0) with k in * by lia. simpl. destruct (Z.leb_spec 255 k); [rewrite run_more, run_last by lia; done|by apply run_last; lia].
  - intros x Hx IH k Hk. rewrite run_more, run_more by lia. rewrite (IH (k - 255 - 255)) by lia.
    replace (Z.to_nat (2 * Z.succ x)) with (S (S (Z.to_nat (2 * x)))) by lia. simpl.
    replace (k - 255 - 255 - 510 * x) with (k - 510 * Z.succ x) by lia. done.
Qed.
