(* ===== verification/Lz4Compress.v ===== *)
(** * What the LZ4 compressor writes

    The output of the compressor of Lz4.v is the encoding of a sequence of literals and
    matches that describe the input and keep the distances from its end that the
    decompressor relies on; it never reads outside of the input or writes outside of an
    output of the size that LZ4_compressBound gives. *)

From S2P Require Import Prelude Math Bytes Lz4.

(** ** Sequences *)

(** Literals, and a match of [4 + ml] bytes at a distance. *)
Record sequence := Seq { lit : Z; off : Z; ml : Z }.

Section Format.
Variable src : list Z.
Abbreviation N := (len src).

Definition seq_end (p : Z) (q : sequence) : Z := p + q.(lit) + 4 + q.(ml).

Definition enc_literals (p k c : Z) : list Z := [token_of k c] ++ ext k ++ sub src p k.
Definition enc_seq (p : Z) (q : sequence) : list Z := enc_literals p q.(lit) q.(ml) ++ le 2 q.(off) ++ ext q.(ml).
Definition enc_last (p : Z) : list Z := enc_literals p (N - p) 0.

Fixpoint endpos (p : Z) (qs : list sequence) : Z := match qs with [] => p | q :: qs => endpos (seq_end p q) qs end.
Fixpoint encs (p : Z) (qs : list sequence) : list Z := match qs with [] => [] | q :: qs => enc_seq p q ++ encs (seq_end p q) qs end.

(** The whole block. *)
Definition enc (qs : list sequence) : list Z := encs 0 qs ++ enc_last (endpos 0 qs).

(** A match starts 12 bytes before the end or earlier and leaves five literals at the end. *)
Definition seq_ok (p : Z) (q : sequence) : Prop :=
  0 <= q.(lit) /\ 1 <= q.(off) <= 65535 /\ q.(off) <= p + q.(lit) /\ p + q.(lit) <= N - 12 /\ 0 <= q.(ml)
  /\ seq_end p q <= N - 5 /\ agree src (p + q.(lit)) (p + q.(lit) - q.(off)) (4 + q.(ml)).

Fixpoint parse_ok (p : Z) (qs : list sequence) : Prop :=
  match qs with [] => True | q :: qs => seq_ok p q /\ parse_ok (seq_end p q) qs end.

Lemma encs_snoc qs : forall p q, encs p (qs ++ [q]) = encs p qs ++ enc_seq (endpos p qs) q.
Proof.
  induction qs as [|r qs IH]; intros p q; cbn [app encs endpos]; [by rewrite app_nil_r|]. by rewrite IH, app_assoc.
Qed.

Lemma endpos_snoc qs : forall p q, endpos p (qs ++ [q]) = seq_end (endpos p qs) q.
Proof. induction qs as [|r qs IH]; intros p q; simpl; [done|apply IH]. Qed.

Lemma parse_snoc qs : forall p q, parse_ok p (qs ++ [q]) <-> parse_ok p qs /\ seq_ok (endpos p qs) q.
Proof. induction qs as [|r qs IH]; intros p q; simpl; [naive_solver|]. rewrite IH. naive_solver. Qed.

Lemma endpos_range qs : forall p, 0 <= p <= N -> parse_ok p qs -> p <= endpos p qs <= N.
Proof.
  induction qs as [|q qs IH]; intros p Hp Hq; simpl; [lia|]. destruct Hq as [(H1 & H2 & H3 & H4 & H5 & H6 & _) Hq].
  unfold seq_end in *. specialize (IH (p + lit q + 4 + ml q) ltac:(lia) Hq). lia.
Qed.

(** ** Sizes *)

Lemma ext_size n : 0 <= n -> 0 <= len (ext n) /\ 255 * len (ext n) <= n + 240 /\ (n < 15 -> len (ext n) = 0).
Proof.
  intros Hn. destruct (ext_length n Hn) as (H1 & H2 & H3). split; [done|]. split; [|done].
  destruct (Z.lt_ge_cases n 15) as [Hl|Hl]; [rewrite H2 by done; lia|]. rewrite H3 by done. pose proof (Z.mul_div_le (n - 15) 255). lia.
Qed.

Lemma literals_length p k c : 0 <= p -> 0 <= k -> p + k <= N -> len (enc_literals p k c) = 1 + len (ext k) + k.
Proof. intros. unfold enc_literals. rewrite !len_app, sub_length by lia. unfold len at 1. simpl. lia. Qed.

Lemma seq_length p q : 0 <= p -> seq_ok p q -> len (enc_seq p q) = 3 + len (ext q.(lit)) + q.(lit) + len (ext q.(ml)).
Proof.
  intros Hp (H1 & H2 & H3 & H4 & H5 & H6 & _). unfold enc_seq. rewrite !len_app, literals_length by lia.
  assert (E : len (le 2 (off q)) = 2) by done. rewrite E. lia.
Qed.

Lemma seq_size p q : 0 <= p -> seq_ok p q -> 255 * len (enc_seq p q) <= 256 * (seq_end p q - p).
Proof.
  intros Hp Hq. rewrite seq_length by done. destruct Hq as (H1 & H2 & H3 & H4 & H5 & H6 & _).
  destruct (ext_size (lit q) H1) as (A1 & A2 & A3), (ext_size (ml q) H5) as (B1 & B2 & B3). unfold seq_end.
  destruct (Z.lt_ge_cases (lit q) 15) as [L|L], (Z.lt_ge_cases (ml q) 15) as [M|M]; try rewrite (A3 L); try rewrite (B3 M); lia.
Qed.

Lemma encs_size qs : forall p, 0 <= p -> parse_ok p qs -> 255 * len (encs p qs) <= 256 * (endpos p qs - p).
Proof.
  induction qs as [|q qs IH]; intros p Hp Hq; cbn [encs endpos]; [unfold len; simpl; lia|]. destruct Hq as [Hq Hqs]. rewrite len_app.
  pose proof (seq_size p q Hp Hq). destruct Hq as (H1 & _ & _ & _ & H5 & _). unfold seq_end in *.
  specialize (IH (p + lit q + 4 + ml q) ltac:(lia) Hqs). lia.
Qed.

(** The encoding fits in what LZ4_compressBound allows, with room to spare. *)
Lemma enc_size qs : parse_ok 0 qs -> len (enc qs) <= N + N / 255 + 2.
Proof.
  intros Hq. pose proof (len_nonneg src). pose proof (endpos_range qs 0 ltac:(lia) Hq) as He. pose proof (encs_size qs 0 ltac:(lia) Hq) as Hs.
  unfold enc, enc_last. rewrite len_app, literals_length by lia. destruct (ext_size (N - endpos 0 qs) ltac:(lia)) as (A1 & A2 & A3).
  pose proof (Z.div_mod N 255 ltac:(lia)). pose proof (Z.mod_pos_bound N 255). lia.
Qed.
End Format.

(** ** The compressor *)

Section Compressor.
Variables (src : list Z) (maxOutputSize : Z) (outputLimited : bool) (tt : tableType_t) (acceleration : Z) (n : Z).
Abbreviation N := (len src).
Hypothesis Hbytes : bytes src.
Hypothesis HN : N <= LZ4_MAX_INPUT_SIZE.
Hypothesis Htt : tt = byU16 -> N < LZ4_64Klimit.
Hypothesis Hacc : 1 <= acceleration < 2 ^ 25.

(** The output has [n] bytes: without a limit those of LZ4_compressBound, with a limit at
    least as many, for inputs up to 128 KB. *)
Hypothesis Hroom : if outputLimited then 0 <= maxOutputSize <= n /\ maxOutputSize < 2 ^ 31 /\ N <= 2 ^ 17 else N + N / 255 + 16 <= n.

Lemma N_small : 0 <= N < 2 ^ 31.
Proof. unfold LZ4_MAX_INPUT_SIZE in HN. pose proof (len_nonneg src). lia. Qed.

(** Positions in the table are before [b]. *)
Definition tab_ok (t : table) (b : Z) : Prop := forall h, 0 <= LZ4_getPositionOnHash h t < b.

Lemma tab_mono t b b' : b <= b' -> tab_ok t b -> tab_ok t b'.
Proof. intros Hb H h. specialize (H h). lia. Qed.

Lemma tab_put t b p h : tab_ok t b -> 0 <= p < b -> p <= N - 12 -> tab_ok (LZ4_putPositionOnHash p h t tt) b.
Proof.
  intros Ht Hp HpN h'. pose proof N_small. unfold LZ4_putPositionOnHash, LZ4_getPositionOnHash. destruct (decide (h = h')) as [->|Hne].
  - rewrite lookup_insert_eq. simpl. destruct tt eqn:Ett; [rewrite wrap_small by lia; lia|].
    unfold LZ4_64Klimit, MFLIMIT, COPYLENGTH, MINMATCH in Htt. specialize (Htt eq_refl). rewrite wrap_small by lia. lia.
  - rewrite lookup_insert_ne by done. apply (Ht h').
Qed.

Lemma hash_some p : 0 <= p -> p + 8 <= N -> exists h, LZ4_hashPosition src p tt = Some h.
Proof. intros. unfold LZ4_hashPosition. rewrite read64_sub by lia. by eexists. Qed.

Lemma put_some t b p : tab_ok t b -> 0 <= p < b -> p <= N - 12 -> exists t', LZ4_putPosition src p t tt = Some t' /\ tab_ok t' b.
Proof.
  intros Ht Hp HpN. unfold LZ4_putPosition. destruct (hash_some p) as [h ->]; [lia|lia|]. simpl. eexists. split; [done|]. by apply tab_put.
Qed.

(** Four bytes that are the same. *)
Lemma read_agree p q : 0 <= p -> p + 4 <= N -> 0 <= q -> q + 4 <= N ->
  exists a b, LZ4_read32 src q = Some a /\ LZ4_read32 src p = Some b /\ (a = b -> agree src p q 4).
Proof.
  intros. rewrite !read32_sub by lia. do 2 eexists. split; [done|]. split; [done|]. intros E j Hj.
  symmetry. apply (proj1 (word_eq src Hbytes q p 4 ltac:(lia) ltac:(lia) ltac:(lia) ltac:(lia)) E). lia.
Qed.

(** ** Finding a match *)

Lemma find_match_spec fuel : forall fip step nb fh t, 1 <= fip -> 1 <= step -> 64 <= nb -> nb + (N - fip) < 2 ^ 32 -> tab_ok t fip ->
  (Z.to_nat (N - fip) < fuel)%nat -> fip <= N ->
  exists r, find_match src N tt fuel fip step nb fh t = Some r /\
    match r with
    | LastLiterals => True
    | Match ip q t' => fip <= ip <= N - 13 /\ 0 <= q < ip /\ ip - q <= 65535 /\ agree src ip q 4 /\ tab_ok t' (ip + 1)
    end.
Proof.
  induction fuel as [|fuel IH]; intros fip step nb fh t Hf Hst Hnb Hnbl Ht Hfu HfN; [lia|]. cbn [find_match]. pose proof N_small as HNs.
  unfold mflimit, iend, MFLIMIT, COPYLENGTH, MINMATCH. destruct (Z.ltb_spec (N - (8 + 4)) (fip + step)) as [_|Hle]; [by exists LastLiterals|].
  destruct (hash_some (fip + step)) as [h' ->]; [lia|lia|]. cbn [mbind option_bind].
  set (q := LZ4_getPositionOnHash fh t). pose proof (Ht fh) as Hq. fold q in Hq.
  pose proof (tab_put t (fip + 1) fip fh (tab_mono t fip (fip + 1) ltac:(lia) Ht) ltac:(lia) ltac:(lia)) as Ht'.
  assert (Hagain : exists r, find_match src N tt fuel (fip + step) (Z.shiftr nb LZ4_skipTrigger) (u32 (nb + 1)) h' (LZ4_putPositionOnHash fip fh t tt) = Some r /\
    match r with LastLiterals => True | Match ip q t' => fip <= ip <= N - 13 /\ 0 <= q < ip /\ ip - q <= 65535 /\ agree src ip q 4 /\ tab_ok t' (ip + 1) end).
  { assert (Hsh : 1 <= Z.shiftr nb LZ4_skipTrigger) by (unfold LZ4_skipTrigger; rewrite Z.shiftr_div_pow2 by lia; apply Z.div_le_lower_bound; lia).
    rewrite (wrap_small 32 (nb + 1)) by lia.
    destruct (IH (fip + step) (Z.shiftr nb LZ4_skipTrigger) (nb + 1) h' (LZ4_putPositionOnHash fip fh t tt)) as (r & E & Hr);
      [lia..|by eapply tab_mono; [|done]; lia|lia|lia|].
    exists r. split; [done|]. destruct r; [done|]. destruct Hr as (? & ? & ? & ? & ?). split; [lia|]. split; [lia|]. split; [lia|]. done. }
  destruct (match tt with byU32 => q + MAX_DISTANCE <? fip | byU16 => false end) eqn:Efar; cbn [mbind option_bind]; [done|].
  destruct (read_agree fip q) as (a & b & -> & -> & Hab); [lia|lia|lia|lia|]. cbn [mbind option_bind].
  destruct (Z.eqb_spec a b) as [E|E]; cbn [negb]; [|done]. eexists. split; [done|]. cbn.
  assert (Hdist : fip - q <= 65535).
  { destruct tt eqn:Ett; [unfold MAX_DISTANCE in Efar; zbool; lia|]. specialize (Htt eq_refl). unfold LZ4_64Klimit, MFLIMIT, COPYLENGTH, MINMATCH in Htt. lia. }
  split; [lia|]. split; [lia|]. split; [lia|]. split; [by apply Hab|done].
Qed.

Lemma catch_up_spec fuel : forall ip q anchor, 0 <= anchor <= ip -> 0 <= q < ip -> ip <= N -> (Z.to_nat (ip - anchor) < fuel)%nat ->
  exists ip' q', catch_up src fuel ip q anchor = Some (ip', q') /\ anchor <= ip' <= ip /\ 0 <= q' /\ ip' - q' = ip - q /\ agree src ip' q' (ip - ip').
Proof.
  induction fuel as [|fuel IH]; intros ip q anchor Ha Hq HipN Hf; [lia|]. cbn [catch_up].
  assert (Hstop : exists ip' q', Some (ip, q) = Some (ip', q') /\ anchor <= ip' <= ip /\ 0 <= q' /\ ip' - q' = ip - q /\ agree src ip' q' (ip - ip')).
  { exists ip, q. split; [done|]. split; [lia|]. split; [lia|]. split; [lia|]. intros j Hj. lia. }
  destruct (Z.ltb_spec anchor ip); [|done]. destruct (Z.ltb_spec 0 q); [|done]. cbn [andb]. rewrite !byte_bt by lia. cbn [mbind option_bind].
  destruct (Z.eqb_spec (bt src (ip - 1)) (bt src (q - 1))) as [E|E]; [|done].
  destruct (IH (ip - 1) (q - 1) anchor) as (ip' & q' & E' & H1 & H2 & H3 & H4); [lia|lia|lia|lia|]. exists ip', q'. split; [done|].
  split; [lia|]. split; [lia|]. split; [lia|]. replace (ip - ip') with ((ip - 1 - ip') + 1) by lia. apply agree_app; [lia|done|].
  intros j Hj. replace (ip' + (ip - 1 - ip') + j) with (ip - 1) by lia. replace (q' + (ip - 1 - ip') + j) with (q - 1) by lia. done.
Qed.

(** ** Writing *)

Lemma token_lit k : 0 <= k < 15 -> wrap 8 (Z.shiftl k ML_BITS) = token_of k 0.
Proof. intros Hk. unfold token_of, ML_BITS. rewrite Z.shiftl_mul_pow2 by lia. rewrite wrap_small by lia. lia. Qed.

Lemma token_run k : 15 <= k -> wrap 8 (Z.shiftl 15 ML_BITS) = token_of k 0.
Proof. intros Hk. unfold token_of. rewrite Z.min_r by lia. done. Qed.

(** The token and the length of literals. *)
Lemma put_length_spec m bs k : starts m bs n -> 0 <= k -> len bs + 1 + len (ext k) <= n ->
  exists m', (if RUN_MASK <=? k then dest ← put m (len bs) (Z.shiftl RUN_MASK ML_BITS); put_run (S (Z.to_nat k)) dest (len bs + 1) (k - RUN_MASK)
              else dest ← put m (len bs) (Z.shiftl k ML_BITS); Some (dest, len bs + 1)) = Some (m', len bs + 1 + len (ext k))
    /\ starts m' (bs ++ [token_of k 0] ++ ext k) n.
Proof.
  intros Hst Hk Hl. destruct (ext_length k Hk) as (X1 & X2 & X3). unfold RUN_MASK in *.
  destruct (starts_put m bs (Z.shiftl (if 15 <=? k then 15 else k) ML_BITS) n Hst) as (m1 & E1 & S1); [lia|].
  assert (El : len bs + 1 = len (bs ++ [token_of k 0])) by (rewrite len_app; done). destruct (Z.leb_spec 15 k) as [Hk15|Hk15].
  - rewrite E1. cbn [mbind option_bind]. rewrite (token_run k) in S1 by done. rewrite X3 in Hl |- * by done. rewrite El.
    pose proof (Z.div_pos (k - 15) 255 ltac:(lia) ltac:(lia)).
    destruct (put_run_spec (S (Z.to_nat k)) m1 (bs ++ [token_of k 0]) n (k - 15) S1) as (m2 & E2 & S2); [lia|lia|rewrite <- El; lia|].
    exists m2. split; [rewrite E2; do 2 f_equal; lia|]. unfold ext. destruct (Z.leb_spec 15 k); [|lia]. by rewrite app_assoc.
  - rewrite E1. cbn [mbind option_bind]. rewrite token_lit in S1 by lia. exists m1. rewrite X2 by done. split; [do 2 f_equal; lia|].
    unfold ext. destruct (Z.leb_spec 15 k); [lia|]. by rewrite app_nil_r.
Qed.

(** Where the limit of the output leaves room. *)
Definition below (k : Z) : Prop := if outputLimited then k <= maxOutputSize else True.

Lemma put_literals_spec m bs anchor ip : starts m bs n -> 255 * len bs <= 256 * anchor -> 0 <= anchor <= ip -> ip <= N - 12 ->
  exists m' r, put_literals src maxOutputSize outputLimited m (len bs) anchor ip = Some (m', r) /\
    match r with
    | None => outputLimited = true /\ len m' = n
    | Some (op, token) => token = len bs /\ op = len (bs ++ enc_literals src anchor (ip - anchor) 0)
        /\ starts m' (bs ++ enc_literals src anchor (ip - anchor) 0) n /\ below (op + 2)
    end.
Proof.
  intros Hst Hsz Ha Hip. unfold put_literals. set (k := ip - anchor). assert (Hk : 0 <= k) by lia. pose proof (len_nonneg bs) as Hb0.
  destruct (ext_size k Hk) as (X1 & X2 & X3). pose proof (Z.div_mod k 255 ltac:(lia)) as Dk. pose proof (Z.mod_pos_bound k 255 ltac:(lia)) as Mk.
  assert (X4 : len (ext k) <= k / 255 + 1) by (destruct (Z.lt_ge_cases k 15); lia).
  destruct (outputLimited && _) eqn:Elim; [exists m, None; split; [done|]; split; [by destruct outputLimited|apply Hst]|].
  assert (Hfit : len bs + 1 + len (ext k) + 8 <= n /\ len bs + 1 + len (ext k) + k + 7 <= n /\ below (len bs + 1 + len (ext k) + k + 2)).
  { unfold below, olimit, LASTLITERALS in *. destruct outputLimited; cbn [andb] in Elim; [zbool; destruct (Z.lt_ge_cases k 15); [rewrite X3 by done|]; lia|].
    pose proof (Z.div_mod N 255 ltac:(lia)). pose proof (Z.mod_pos_bound N 255 ltac:(lia)). lia. }
  destruct Hfit as (F1 & F2 & F3).
  destruct (put_length_spec m bs k Hst Hk) as (m1 & E1 & S1); [lia|]. rewrite E1. cbn [mbind option_bind].
  assert (El : len bs + 1 + len (ext k) = len (bs ++ [token_of k 0] ++ ext k)) by (rewrite !len_app; change (len [token_of k 0]) with 1; lia). rewrite El.
  destruct (wildCopy_spec src (bs ++ [token_of k 0] ++ ext k) anchor k n) with (m := m1) as (m2 & E2 & S2); [lia|done|lia|rewrite <- El; lia|done|].
  rewrite E2. cbn [mbind option_bind]. eexists m2, _. split; [done|]. split; [done|].
  assert (El2 : len (bs ++ [token_of k 0] ++ ext k) + k = len (bs ++ enc_literals src anchor k 0)).
  { unfold enc_literals. rewrite !len_app, sub_length by lia. lia. }
  split; [done|]. split; [by unfold enc_literals; rewrite !app_assoc in *|]. rewrite <- El. done.
Qed.

Lemma len_replicate k v : len (replicate k v) = Z.of_nat k.
Proof. unfold len. by rewrite length_replicate. Qed.

Lemma token_add k c : 0 <= k -> 0 <= c -> wrap 8 (token_of k 0 + Z.min c 15) = token_of k c.
Proof. intros Hk Hc. unfold token_of. rewrite wrap_small by lia. lia. Qed.

(** The length of a match after its offset. *)
Lemma put_run_pairs m bs k : starts m bs n -> 0 <= k -> len bs + k / 255 + 1 <= n ->
  exists m' m1 op1 r1 op2, put_run2 (S (Z.to_nat (k + ML_MASK))) m (len bs) k = Some (m1, op1, r1)
    /\ (('(dest, op, r) ← (if 255 <=? r1 then dest ← put m1 op1 255; Some (dest, op1 + 1, r1 - 255) else Some (m1, op1, r1));
         dest ← put dest op r; Some (dest, op + 1)) = Some (m', op2)) /\ op2 = len bs + k / 255 + 1 /\ starts m' (bs ++ run k) n.
Proof.
  intros Hst Hk Hl. destruct (put_run2_spec (S (Z.to_nat (k + ML_MASK))) m bs n k Hst Hk) as (m1 & q & E1 & S1 & Hq & Hr); [unfold ML_MASK; lia|done|].
  set (r := k - 510 * q) in *. assert (Hdiv : k / 255 = 2 * q + (if 255 <=? r then 1 else 0)).
  { symmetry. apply Z.div_unique with (r := if 255 <=? r then r - 255 else r); destruct (Z.leb_spec 255 r); lia. }
  rewrite (run_pairs q k Hq Hr). fold r. assert (El : len bs + 2 * q = len (bs ++ replicate (Z.to_nat (2 * q)) 255)).
  { rewrite len_app, len_replicate. lia. }
  rewrite El in E1. destruct (Z.leb_spec 255 r) as [H255|H255].
  - destruct (starts_put m1 _ 255 n S1) as (m2 & E2 & S2); [rewrite <- El; lia|].
    destruct (starts_put m2 _ (r - 255) n S2) as (m3 & E3 & S3); [rewrite len_app, <- El; change (len [wrap 8 255]) with 1; lia|].
    eexists m3, m1, _, r, _. split; [done|]. destruct (Z.leb_spec 255 r); [|lia]. rewrite E2. cbn [mbind option_bind].
    rewrite len_app in E3. change (len [wrap 8 255]) with 1 in E3. rewrite E3. cbn [mbind option_bind]. split; [done|]. split; [rewrite <- El; lia|].
    rewrite !wrap_small in S3 by lia. by rewrite <- !app_assoc in S3.
  - destruct (starts_put m1 _ r n S1) as (m3 & E3 & S3); [rewrite <- El; lia|].
    eexists m3, m1, _, r, _. split; [done|]. destruct (Z.leb_spec 255 r); [lia|]. cbn [mbind option_bind]. rewrite E3. cbn [mbind option_bind].
    split; [done|]. split; [rewrite <- El; lia|]. rewrite wrap_small in S3 by lia. by rewrite <- !app_assoc in S3.
Qed.

(** The offset of a match and the room for it. *)
Lemma match_room bs anchor k ml : 255 * len bs <= 256 * anchor -> 0 <= anchor -> 0 <= k -> 0 <= ml -> anchor + k + 4 + ml <= N - 5 ->
  let op := len (bs ++ enc_literals src anchor k 0) in below (op + 2) ->
  op + 2 <= n /\ (outputLimited && (maxOutputSize <? op + 2 + (1 + LASTLITERALS) + Z.shiftr ml 8) = false ->
    op + 2 + len (ext ml) <= n /\ below (op + 2 + len (ext ml) + 3)).
Proof.
  intros Hsz Ha Hk Hml He op Hb. assert (Eop : op = len bs + 1 + len (ext k) + k) by (unfold op; rewrite len_app, literals_length by lia; lia).
  destruct (ext_size k Hk) as (X1 & X2 & X3), (ext_size ml Hml) as (Y1 & Y2 & Y3). pose proof (Z.div_mod N 255 ltac:(lia)). pose proof (Z.mod_pos_bound N 255 ltac:(lia)).
  unfold below, LASTLITERALS in *. destruct outputLimited; cbn [andb].
  - split; [lia|]. intros Hlim. zbool. rewrite Z.shiftr_div_pow2 in Hlim by lia. change (2 ^ 8) with 256 in Hlim.
    pose proof (Z.div_mod ml 256 ltac:(lia)). pose proof (Z.mod_pos_bound ml 256 ltac:(lia)).
    destruct (Z.lt_ge_cases ml 15); [rewrite Y3 in * by done|]; lia.
  - assert (op + 2 + len (ext ml) <= n); [|lia]. destruct (Z.lt_ge_cases k 15), (Z.lt_ge_cases ml 15); try rewrite X3 in * by done; try rewrite Y3 in * by done; lia.
Qed.

Lemma put_match_spec m bs anchor k ip q : starts m (bs ++ enc_literals src anchor k 0) n -> 255 * len bs <= 256 * anchor ->
  0 <= anchor -> 0 <= k -> ip = anchor + k -> 0 <= q < ip -> ip - q <= 65535 -> ip <= N - 12 -> agree src ip q 4 ->
  below (len (bs ++ enc_literals src anchor k 0) + 2) ->
  exists m' r, put_match src N maxOutputSize outputLimited m (len (bs ++ enc_literals src anchor k 0)) (len bs) ip q = Some (m', r) /\
    match r with
    | None => outputLimited = true /\ len m' = n
    | Some (op, ip') => exists ml, let sq := Seq k (ip - q) ml in seq_ok src anchor sq /\ ip' = seq_end anchor sq
        /\ op = len (bs ++ enc_seq src anchor sq) /\ starts m' (bs ++ enc_seq src anchor sq) n /\ below (op + 3)
        /\ (ip' = N - 5 \/ bt src ip' <> bt src (ip' - (ip - q)))
    end.
Proof.
  intros Hst Hsz Ha Hk Hip Hq Hd HipN Hag Hbl. unfold put_match, matchlimit, iend, LASTLITERALS, MINMATCH.
  destruct (count_spec src (N - 5) Hbytes ltac:(lia) (ip + 4) (q + 4)) as (ml & Ec & Hml & Hle & Hag2 & Hex); [lia|lia|].
  set (op := len (bs ++ enc_literals src anchor k 0)) in *.
  destruct (match_room bs anchor k ml Hsz Ha Hk Hml ltac:(lia) Hbl) as [R1 R2].
  assert (Eu : u16 (ip - q) = ip - q) by (apply wrap_small; lia).
  destruct (starts_store m _ (le 2 (ip - q)) n Hst) as (m1 & E1 & S1); [fold op; change (len (le 2 (ip - q))) with 2; lia|].
  unfold LZ4_writeLE16. rewrite Eu. fold op in E1. rewrite E1. cbn [mbind option_bind]. rewrite Ec. cbn [mbind option_bind].
  set (sq := Seq k (ip - q) ml).
  assert (Hsq : seq_ok src anchor sq).
  { unfold seq_ok, sq, seq_end; cbn. repeat split; try lia. replace (anchor + k) with ip by lia. replace (ip - (ip - q)) with q by lia. by apply agree_app; [lia| |]. }
  assert (Hend : ip + 4 + ml = seq_end anchor sq) by (unfold seq_end, sq; cbn; lia).
  assert (Hexact : ip + 4 + ml = N - 5 \/ bt src (ip + 4 + ml) <> bt src (ip + 4 + ml - (ip - q))).
  { destruct Hex as [Hex|Hex]; [by left|right]. by replace (ip + 4 + ml - (ip - q)) with (q + 4 + ml) by lia. }
  unfold olimit. destruct (outputLimited && _) eqn:Elim; [exists m1, None; split; [done|]; split; [by destruct outputLimited|apply S1]|].
  specialize (R2 eq_refl) as [R2 R3].
  (* the token *)
  assert (Htok : exists m2, add_token m1 (len bs) (Z.min ml 15) = Some m2 /\ starts m2 (bs ++ enc_literals src anchor k ml ++ le 2 (ip - q)) n).
  { unfold enc_literals in S1. rewrite <- !app_assoc in S1. cbn [app] in S1.
    destruct (starts_replace m1 bs (token_of k 0) (ext k ++ sub src anchor k ++ le 2 (ip - q)) (token_of k 0 + Z.min ml 15) n S1) as (Hb & m2 & E2 & S2).
    exists m2. unfold add_token. rewrite Hb. cbn [mbind option_bind]. rewrite E2. split; [done|]. rewrite token_add in S2 by lia.
    unfold enc_literals. by rewrite <- !app_assoc. }
  destruct Htok as (m2 & E2 & S2).
  assert (El : op + 2 = len (bs ++ enc_literals src anchor k ml ++ le 2 (ip - q))).
  { unfold op. rewrite !len_app, !literals_length by lia. change (len (le 2 (ip - q))) with 2. lia. }
  assert (Henc : bs ++ enc_seq src anchor sq = (bs ++ enc_literals src anchor k ml ++ le 2 (ip - q)) ++ ext ml).
  { unfold enc_seq, sq; cbn [lit off Lz4Compress.ml]. by rewrite <- !app_assoc. }
  unfold ML_MASK. destruct (ext_length ml Hml) as (X1 & X2 & X3). destruct (Z.leb_spec 15 ml) as [H15|H15].
  - rewrite Z.min_r in E2 by lia. rewrite E2. cbn [mbind option_bind]. rewrite X3 in R2, R3 by done.
    destruct (put_run_pairs m2 _ (ml - 15) S2) as (m5 & m3 & o3 & r3 & o5 & E3 & E4 & Eo & S5); [lia|rewrite <- El; lia|].
    unfold ML_MASK in E3. replace (ml - 15 + 15) with ml in E3 by lia. rewrite <- El in E3, Eo. rewrite E3. cbn [mbind option_bind].
    destruct (if 255 <=? r3 then _ else _) as [[[m4 o4] r4]|]; [|done]. cbn [mbind option_bind] in E4 |- *.
    destruct (put m4 o4 r4) as [m5'|]; [|done]. cbn [mbind option_bind] in E4 |- *. injection E4 as -> <-.
    eexists m5, _. split; [done|]. exists ml. fold sq. rewrite Henc. unfold ext in S5 |- *. destruct (Z.leb_spec 15 ml); [|lia].
    split; [done|]. split; [done|]. split; [rewrite len_app, <- El, run_length by lia; lia|]. split; [done|]. split; [rewrite Eo; by replace (op + 2 + (ml - 15) / 255 + 1) with (op + 2 + ((ml - 15) / 255 + 1)) by lia|done].
  - rewrite Z.min_l in E2 by lia. rewrite E2. cbn [mbind option_bind]. eexists m2, _. split; [done|]. exists ml. fold sq. rewrite Henc.
    unfold ext. destruct (Z.leb_spec 15 ml); [lia|]. rewrite app_nil_r. rewrite X2 in R3 by done. rewrite Z.add_0_r in R3. done.
Qed.

Lemma last_literals_spec m bs anchor : starts m bs n -> 255 * len bs <= 256 * anchor -> 0 <= anchor <= N ->
  exists r m', last_literals src N maxOutputSize outputLimited m (len bs) anchor = Some (r, m') /\ len m' = n /\
    ((outputLimited = true /\ r = 0) \/ (r = len (bs ++ enc_last src anchor) /\ starts m' (bs ++ enc_last src anchor) n)).
Proof.
  intros Hst Hsz Ha. unfold last_literals, iend, RUN_MASK at 1. set (k := N - anchor). assert (Hk : 0 <= k) by lia.
  destruct (outputLimited && _) eqn:Elim.
  { exists 0, m. split; [done|]. split; [apply Hst|]. left. by destruct outputLimited. }
  destruct (ext_size k Hk) as (X1 & X2 & X3), (ext_length k Hk) as (_ & _ & X4). pose proof N_small.
  assert (Hfit : len bs + 1 + len (ext k) + k <= n).
  { destruct outputLimited; cbn [andb] in Elim.
    - zbool. rewrite wrap_small in Elim by lia. destruct (Z.lt_ge_cases k 15); [rewrite X3 by done; pose proof (Z.div_pos (k + 255 - 15) 255); lia|].
      rewrite X4 by done. replace (k + 255 - 15) with (k - 15 + 1 * 255) in Elim by lia. rewrite Z.div_add in Elim by lia. lia.
    - pose proof (Z.div_mod N 255 ltac:(lia)). pose proof (Z.mod_pos_bound N 255 ltac:(lia)). lia. }
  destruct (put_length_spec m bs k Hst Hk) as (m1 & E1 & S1); [lia|]. rewrite E1. cbn [mbind option_bind].
  unfold copy. rewrite load_sub by lia. cbn [mbind option_bind]. rewrite Z2Nat.id by lia.
  assert (El : len bs + 1 + len (ext k) = len (bs ++ [token_of k 0] ++ ext k)) by (rewrite !len_app; change (len [token_of k 0]) with 1; lia). rewrite El.
  destruct (starts_store m1 _ (sub src anchor k) n S1) as (m2 & E2 & S2); [rewrite <- El, sub_length by lia; lia|]. rewrite E2. cbn [mbind option_bind].
  eexists _, m2. split; [done|]. split; [apply S2|]. right. unfold enc_last, enc_literals. fold k. rewrite !app_assoc in *. split; [|done].
  rewrite (len_app _ (sub src anchor k)), sub_length by lia. done.
Qed.

(** ** The main loop *)

(** A result: too large, which only happens with a limit, or the encoding of a parse. *)
Definition result_ok (r : Z) (m : list Z) : Prop :=
  len m = n /\ ((outputLimited = true /\ r = 0) \/ exists qs, parse_ok src 0 qs /\ r = len (enc src qs) /\ starts m (enc src qs) n).

Lemma last_result m qs : parse_ok src 0 qs -> starts m (encs src 0 qs) n ->
  exists r m', last_literals src N maxOutputSize outputLimited m (len (encs src 0 qs)) (endpos 0 qs) = Some (r, m') /\ result_ok r m'.
Proof.
  intros Hq Hst. pose proof (len_nonneg src). pose proof (endpos_range src qs 0 ltac:(lia) Hq). pose proof (encs_size src qs 0 ltac:(lia) Hq).
  destruct (last_literals_spec m (encs src 0 qs) (endpos 0 qs) Hst) as (r & m' & E & Hl & Hr); [lia|lia|].
  exists r, m'. split; [done|]. split; [done|]. destruct Hr as [?|[-> ?]]; [by left|right]. by exists qs.
Qed.

(** Where the loop is: [z] is the last position in the table, and inside the match. *)
Definition point_ok (c : point) (anchor op : Z) (m : list Z) (t : table) (qs : list sequence) : Prop :=
  match c with
  | Search ip _ => starts m (encs src 0 qs) n /\ op = len (encs src 0 qs) /\ 1 <= ip /\ anchor <= ip <= N /\ tab_ok t ip
  | NextMatch ip q token =>
    token = len (encs src 0 qs) /\ exists k z, ip = anchor + k /\ 0 <= k /\ starts m (encs src 0 qs ++ enc_literals src anchor k 0) n
      /\ op = len (encs src 0 qs ++ enc_literals src anchor k 0) /\ 0 <= q < ip /\ ip - q <= 65535 /\ ip <= z <= N - 12
      /\ agree src ip q (z + 4 - ip) /\ tab_ok t (z + 1) /\ below (op + 2)
  end.

Definition point_fuel (c : point) (anchor : Z) : nat := match c with Search _ _ => Z.to_nat (N - anchor) + 1 | NextMatch _ _ _ => Z.to_nat (N - anchor) end.

Lemma search_result r0 anchor op m t qs fuel ip fh : parse_ok src 0 qs -> endpos 0 qs = anchor -> point_ok (Search ip fh) anchor op m t qs ->
  (forall ip q token op m t, point_ok (NextMatch ip q token) anchor op m t qs ->
     exists r m', main_loop src N maxOutputSize outputLimited tt acceleration fuel (NextMatch ip q token) anchor op m t = Some (r, m') /\ result_ok r m') ->
  r0 = main_loop src N maxOutputSize outputLimited tt acceleration (S fuel) (Search ip fh) anchor op m t ->
  exists r m', r0 = Some (r, m') /\ result_ok r m'.
Proof.
  intros Hq He (Hst & -> & Hip & Ha & Ht) Hnext ->. cbn [main_loop]. pose proof N_small. pose proof (endpos_range src qs 0 ltac:(lia) Hq) as Hr.
  pose proof (encs_size src qs 0 ltac:(lia) Hq) as Hsz. rewrite He in Hr, Hsz.
  assert (Hnb : u32 (Z.shiftl acceleration LZ4_skipTrigger) = acceleration * 64).
  { unfold LZ4_skipTrigger. rewrite Z.shiftl_mul_pow2 by lia. apply wrap_small. lia. }
  rewrite Hnb. destruct (find_match_spec (S (Z.to_nat N)) ip 1 (acceleration * 64) fh t) as (r & -> & Hr'); [lia|lia|lia|lia|done|lia|lia|].
  cbn [mbind option_bind]. destruct r as [|ip1 q1 t1]; [rewrite <- He; by apply last_result|]. destruct Hr' as (I1 & I2 & I3 & I4 & I5).
  destruct (catch_up_spec (S (Z.to_nat N)) ip1 q1 anchor) as (ip2 & q2 & -> & J1 & J2 & J3 & J4); [lia|lia|lia|lia|]. cbn [mbind option_bind].
  destruct (put_literals_spec m (encs src 0 qs) anchor ip2 Hst) as (m1 & r & -> & Hr'); [lia|lia|lia|]. cbn [mbind option_bind].
  destruct r as [[op1 tok]|]; [|exists 0, m1; split; [done|]; split; [apply Hr'|left; split; [apply Hr'|done]]]. destruct Hr' as (-> & -> & S1 & B1).
  apply Hnext. split; [done|]. exists (ip2 - anchor), ip1. repeat (split; [done || lia|]). split; [|done].
  replace (ip1 + 4 - ip2) with (ip1 - ip2 + 4) by lia. apply agree_app; [lia|done|]. replace (ip2 + (ip1 - ip2)) with ip1 by lia.
  by replace (q2 + (ip1 - ip2)) with q1 by lia.
Qed.

Lemma main_loop_spec fuel : forall c anchor op m t qs, parse_ok src 0 qs -> endpos 0 qs = anchor -> point_ok c anchor op m t qs ->
  (point_fuel c anchor < fuel)%nat ->
  exists r m', main_loop src N maxOutputSize outputLimited tt acceleration fuel c anchor op m t = Some (r, m') /\ result_ok r m'.
Proof.
  induction fuel as [|fuel IH]; intros c anchor op m t qs Hq He Hc Hf; [lia|]. pose proof N_small. pose proof (endpos_range src qs 0 ltac:(lia) Hq) as Hr.
  pose proof (encs_size src qs 0 ltac:(lia) Hq) as Hsz. rewrite He in Hr, Hsz. destruct c as [ip fh|ip q token].
  - eapply (search_result _ anchor op m t qs fuel ip fh); [done|done|done| |done]. intros ip' q' token' op' m' t' Hc'.
    eapply IH; [done|done|done|]. simpl in *. lia.
  - cbn [main_loop]. destruct Hc as (-> & k & z & Hip & Hk & Hst & -> & Hq' & Hd & Hz & Hag & Ht & Hb). cbn in Hf.
    destruct (put_match_spec m (encs src 0 qs) anchor k ip q) as (m1 & r & -> & Hr'); try done; try lia; [by eapply agree_mono; [|done]; lia|].
    cbn [mbind option_bind]. destruct r as [[op1 ip1]|]; [|exists 0, m1; split; [done|]; split; [apply Hr'|left; split; [apply Hr'|done]]].
    destruct Hr' as (ml & Hsq & -> & -> & S1 & B1 & Hex). set (sq := Seq k (ip - q) ml) in *. set (ip1 := seq_end anchor sq) in *.
    assert (Hq1 : parse_ok src 0 (qs ++ [sq])) by (apply parse_snoc; by rewrite He).
    assert (He1 : endpos 0 (qs ++ [sq]) = ip1) by (by rewrite endpos_snoc, He).
    assert (Hs1 : encs src 0 qs ++ enc_seq src anchor sq = encs src 0 (qs ++ [sq])) by (by rewrite encs_snoc, He). rewrite Hs1 in *.
    pose proof Hsq as (Q1 & Q2 & Q3 & Q4 & Q5 & Q6 & Q7). cbn in Q1, Q2, Q3, Q4, Q5, Q7. assert (Hip1 : ip1 = ip + 4 + ml) by (unfold ip1, seq_end, sq; cbn; lia).
    fold ip1 in Q6.
    (* the match goes beyond all positions in the table *)
    assert (Hfar : z + 4 <= ip1).
    { destruct (Z.le_gt_cases (z + 4) ip1) as [|Hlt]; [done|]. exfalso. destruct Hex as [Hex|Hex]; [lia|]. apply Hex.
      replace ip1 with (ip + (ip1 - ip)) at 1 by lia. rewrite (Hag (ip1 - ip)) by lia. f_equal. lia. }
    unfold mflimit, iend, MFLIMIT, COPYLENGTH, MINMATCH. destruct (Z.ltb_spec (N - (8 + 4)) ip1) as [_|Hle].
    + rewrite <- He1. by apply last_result.
    + destruct (put_some t ip1 (ip1 - 2)) as (t1 & -> & T1); [by eapply tab_mono; [|done]; lia|lia|lia|]. cbn [mbind option_bind].
      unfold LZ4_getPosition. destruct (hash_some ip1) as [h1 E1]; [lia|lia|]. rewrite E1. cbn [mbind option_bind].
      set (q1 := LZ4_getPositionOnHash h1 t1). pose proof (T1 h1) as Hq1b. fold q1 in Hq1b.
      destruct (put_some t1 (ip1 + 1) ip1) as (t2 & -> & T2); [by eapply tab_mono; [|done]; lia|lia|lia|]. cbn [mbind option_bind].
      assert (Hsearch : exists r m', (forwardH ← LZ4_hashPosition src (ip1 + 1) tt;
          main_loop src N maxOutputSize outputLimited tt acceleration fuel (Search (ip1 + 1) forwardH) ip1 (len (encs src 0 (qs ++ [sq]))) m1 t2) = Some (r, m') /\ result_ok r m').
      { destruct (hash_some (ip1 + 1)) as [h2 ->]; [lia|lia|]. cbn [mbind option_bind]. apply (IH _ _ _ _ _ (qs ++ [sq])); [done|done| |cbn; lia].
        repeat (split; [done || lia|]). done. }
      destruct (Z.leb_spec ip1 (q1 + MAX_DISTANCE)) as [Hmd|_]; cbn [mbind option_bind]; [|done].
      destruct (read_agree ip1 q1) as (a & b & -> & -> & Hab); [lia|lia|lia|lia|]. cbn [mbind option_bind].
      destruct (Z.eqb_spec a b) as [E|_]; [|done]. specialize (Hab E).
      destruct (starts_put m1 (encs src 0 (qs ++ [sq])) 0 n S1) as (m2 & -> & S2).
      { pose proof (encs_size src (qs ++ [sq]) 0 ltac:(lia) Hq1) as Hsz1. rewrite He1 in Hsz1. unfold below in B1. destruct outputLimited; [lia|].
        pose proof (Z.div_mod N 255 ltac:(lia)). pose proof (Z.mod_pos_bound N 255 ltac:(lia)). lia. }
      cbn [mbind option_bind]. apply (IH _ _ _ _ _ (qs ++ [sq])); [done|done| |cbn; lia]. split; [done|]. exists 0, ip1.
      assert (Hlit : enc_literals src ip1 0 0 = [wrap 8 0]) by done. rewrite Hlit.
      split; [lia|]. split; [lia|]. split; [done|]. split; [rewrite len_app; done|]. split; [lia|]. split; [unfold MAX_DISTANCE in Hmd; lia|].
      split; [lia|]. split; [by replace (ip1 + 4 - ip1) with 4 by lia|]. split; [done|]. unfold below in *. destruct outputLimited; [lia|done].
Qed.

Lemma compress_generic_spec m : len m = n ->
  exists r m', LZ4_compress_generic src N maxOutputSize outputLimited tt acceleration m = Some (r, m') /\ result_ok r m'.
Proof.
  intros Hm. pose proof N_small. unfold LZ4_compress_generic. rewrite (wrap_small 32) by lia. destruct (Z.ltb_spec LZ4_MAX_INPUT_SIZE N); [lia|].
  destruct (_ && _) eqn:Et.
  { exfalso. destruct tt; [done|]. cbn in Et. specialize (Htt eq_refl). zbool. lia. }
  assert (Hst : starts m (encs src 0 []) n) by (split; [apply prefix_nil|done]).
  unfold LZ4_minLength, MFLIMIT, COPYLENGTH, MINMATCH. destruct (Z.ltb_spec N (8 + 4 + 1)) as [_|Hge].
  - apply (last_result m []); done.
  - assert (T0 : tab_ok ∅ 1) by (intros h; unfold LZ4_getPositionOnHash; rewrite lookup_empty; simpl; lia).
    destruct (put_some ∅ 1 0) as (t & -> & T1); [done|lia|lia|]. cbn [mbind option_bind]. destruct (hash_some 1) as [h ->]; [lia|lia|]. cbn [mbind option_bind].
    apply (main_loop_spec _ _ _ _ _ _ []); [done|done| |cbn; lia]. repeat (split; [done || lia|]). done.
Qed.
End Compressor.

(** An output large enough for any input of this size, or a limit for inputs up to 128 KB. *)
Definition output_fits (n inputSize maxOutputSize : Z) : Prop :=
  (LZ4_compressBound inputSize <= maxOutputSize /\ LZ4_compressBound inputSize <= n)
  \/ (0 <= maxOutputSize < 2 ^ 31 /\ maxOutputSize <= n /\ inputSize <= 2 ^ 17).

Lemma compress_fast_spec src dest maxOutputSize acceleration : bytes src -> len src <= LZ4_MAX_INPUT_SIZE -> acceleration < 2 ^ 25 ->
  output_fits (len dest) (len src) maxOutputSize ->
  exists r dest', LZ4_compress_fast src dest (len src) maxOutputSize acceleration = Some (r, dest') /\ len dest' = len dest
    /\ ((r = 0 /\ maxOutputSize < LZ4_compressBound (len src))
        \/ exists qs, parse_ok src 0 qs /\ r = len (enc src qs) /\ starts dest' (enc src qs) (len dest)).
Proof.
  intros Hb HN Hacc Hfit. pose proof (len_nonneg src) as H0. unfold LZ4_compress_fast.
  set (acc := if acceleration <? 1 then 1 else acceleration). assert (Ha : 1 <= acc < 2 ^ 25) by (unfold acc; destruct (Z.ltb_spec acceleration 1); lia).
  set (tt := if len src <? LZ4_64Klimit then byU16 else byU32). assert (Htt : tt = byU16 -> len src < LZ4_64Klimit) by (unfold tt; by destruct (Z.ltb_spec (len src) LZ4_64Klimit)).
  assert (Hbound : LZ4_compressBound (len src) = len src + len src / 255 + 16).
  { unfold LZ4_compressBound. unfold LZ4_MAX_INPUT_SIZE in *. rewrite wrap_small by lia. by destruct (Z.ltb_spec 2113929216 (len src)); [lia|]. }
  destruct (Z.leb_spec (LZ4_compressBound (len src)) maxOutputSize) as [Hle|Hgt].
  - destruct (compress_generic_spec src 0 false tt acc (len dest) Hb HN Htt Ha) with (m := dest) as (r & m' & E & L & [[? _]|Hr]); [destruct Hfit; lia|done|done|].
    exists r, m'. split; [done|]. split; [done|by right].
  - destruct Hfit as [?|(F1 & F2 & F3)]; [lia|].
    destruct (compress_generic_spec src maxOutputSize true tt acc (len dest) Hb HN Htt Ha) with (m := dest) as (r & m' & E & L & Hr); [cbn; lia|done|].
    exists r, m'. split; [done|]. split; [done|]. destruct Hr as [[_ ->]|Hr]; [by left|by right].
Qed.
