(* ===== verification/Lz4Decompress.v ===== *)
(** * LZ4 decompression inverts compression

    What the decompressors of Lz4.v give for a block that the compressor wrote: the input of
    the compressor, without an access outside of the block or of an output of exactly its
    size, and without a copy between parts of the output that overlap. *)

From S2P Require Import Prelude Math Bytes Lz4 Lz4Compress.

(** ** Copying a match *)

Lemma store_bt m d xs : 0 <= d -> d + len xs <= len m ->
  exists m', store m d xs = Some m' /\ len m' = len m
    /\ forall j, 0 <= j < len m -> bt m' j = if (d <=? j) && (j <? d + len xs) then bt xs (j - d) else bt m j.
Proof.
  intros Hd Hl. unfold len in Hl. rewrite store_some by lia. eexists. split; [done|]. set (m' := _ ++ _).
  assert (E : store m d xs = Some m') by (apply store_some; lia). pose proof (store_length _ _ _ _ E) as Hm. assert (Hlen : len m' = len m) by (unfold len; by rewrite Hm).
  split; [done|]. intros j Hj. enough (Some (bt m' j) = Some (if (d <=? j) && (j <? d + len xs) then bt xs (j - d) else bt m j)) by congruence.
  rewrite <- bt_lookup by lia. rewrite (store_lookup _ _ _ _ (Z.to_nat j) E). unfold len in *.
  destruct (Z.leb_spec d j), (Z.ltb_spec j (d + Z.of_nat (length xs))); cbn [andb]; destruct (decide _); try lia;
    try (apply bt_lookup; unfold len; lia). replace (Z.to_nat j - Z.to_nat d)%nat with (Z.to_nat (j - d)) by lia. apply bt_lookup. unfold len. lia.
Qed.

Section Fill.
Variables (S : list Z) (p off L : Z) (overlap : bool).
Abbreviation N := (len S).
Hypothesis HS : bytes S.
Hypothesis Hoff : 1 <= off <= p.
Hypothesis Hag : agree S p (p - off) L.
Hypothesis HL : 4 <= L.
Hypothesis HpL : p + L <= N - 5.
Hypothesis Hp : p <= N - 12.

(** The output is right up to [e]. *)
Definition filled (m : list Z) (e : Z) : Prop := len m = N /\ forall j, 0 <= j < e -> bt m j = bt S j.

(** A distance at which the match repeats. *)
Definition period (D : Z) : Prop := exists t, 1 <= t /\ D = t * off.

Lemma period_bt D j : period D -> p <= j < p + L -> p - off <= j - D -> bt S j = bt S (j - D).
Proof.
  intros (t & Ht & ->). revert j. pattern t. apply Zlt_lower_bound_ind with (z := 1); [|done]. clear t Ht. intros t IH Ht j Hj Hd.
  assert (E : bt S j = bt S (j - off)).
  { replace j with (p + (j - p)) at 1 by lia. rewrite (Hag (j - p)) by lia. f_equal. lia. }
  destruct (decide (t = 1)) as [->|Hne]; [rewrite E; f_equal; lia|]. rewrite E. replace (j - t * off) with (j - off - (t - 1) * off) by lia.
  apply (IH (t - 1)); [lia| |lia]. nia.
Qed.

Lemma copy_in_step m d D (n : nat) : filled m (Z.min d (p + L)) -> period D -> Z.of_nat n <= D -> p <= d -> p - off <= d - D -> d + Z.of_nat n <= N ->
  exists m', copy_in overlap m d (d - D) n = Some m' /\ filled m' (Z.min (d + Z.of_nat n) (p + L)).
Proof.
  intros [Hm Hf] HD Hn Hd Hs Hb. unfold copy_in. destruct (negb overlap && _) eqn:E; [exfalso; zbool; lia|].
  unfold copy. rewrite load_sub by lia. cbn [mbind option_bind].
  assert (Hl : len (sub m (d - D) (Z.of_nat n)) = Z.of_nat n) by (apply sub_length; lia).
  destruct (store_bt m d (sub m (d - D) (Z.of_nat n))) as (m' & -> & Hm' & Hbt); [lia|lia|]. exists m'. split; [done|]. split; [lia|].
  intros j Hj. rewrite Hbt by lia. rewrite Hl. destruct (Z.leb_spec d j), (Z.ltb_spec j (d + Z.of_nat n)); cbn [andb]; try lia; [|by apply Hf; lia].
  assert (Hx : sub m (d - D) (Z.of_nat n) !! Z.to_nat (j - d) = Some (bt m (d - D + (j - d)))) by (apply sub_lookup; lia).
  rewrite bt_lookup in Hx by lia. injection Hx as ->. rewrite Hf by lia. rewrite (period_bt D j) by (done || lia). f_equal. lia.
Qed.

Lemma wild_in_spec fuel : forall m d D e, filled m (Z.min d (p + L)) -> period D -> 8 <= D -> p <= d -> p - off <= d - D ->
  d + 8 <= N -> e + 7 <= N -> (Z.to_nat (e - d) < fuel)%nat ->
  exists m', wild_in_loop overlap fuel m d (d - D) e = Some m' /\ filled m' (Z.min e (p + L)).
Proof.
  induction fuel as [|fuel IH]; intros m d D e Hf HD H8 Hd Hs Hb He Hfu; [lia|]. cbn [wild_in_loop].
  destruct (copy_in_step m d D 8 Hf HD) as (m1 & -> & F1); [lia|lia|lia|lia|]. cbn [mbind option_bind]. change (Z.of_nat 8) with 8 in F1.
  destruct (Z.ltb_spec (d + 8) e).
  - replace (d - D + 8) with (d + 8 - D) by lia. apply IH; [done|done|lia|lia|lia|lia|lia|lia].
  - exists m1. split; [done|]. destruct F1 as [G1 G2]. split; [done|]. intros j Hj. apply G2. lia.
Qed.

Lemma bytes_in_spec k : forall m d D, filled m d -> period D -> p <= d -> p - off <= d - D -> d + Z.of_nat k <= p + L ->
  exists m', bytes_in k m d (d - D) = Some m' /\ filled m' (d + Z.of_nat k).
Proof.
  induction k as [|k IH]; intros m d D [Hm Hf] HD Hd Hs Hb; [exists m; split; [done|]; split; [done|]; intros j Hj; apply Hf; lia|].
  assert (HD0 : 1 <= D) by (destruct HD as (t & Ht & ->); nia). cbn [bytes_in]. rewrite byte_bt by lia. cbn [mbind option_bind].
  unfold put. destruct (store_bt m d [wrap 8 (bt m (d - D))]) as (m1 & -> & Hm1 & Hbt); [lia|change (len [wrap 8 (bt m (d - D))]) with 1; lia|].
  change (len [wrap 8 (bt m (d - D))]) with 1 in Hbt. cbn [mbind option_bind]. replace (d - D + 1) with (d + 1 - D) by lia.
  replace (d + Z.of_nat (Datatypes.S k)) with (d + 1 + Z.of_nat k) by lia. apply IH; [|done|lia|lia|lia]. split; [lia|]. intros j Hj. rewrite Hbt by lia.
  destruct (Z.leb_spec d j), (Z.ltb_spec j (d + 1)); cbn [andb]; try lia; [|by apply Hf; lia].
  replace j with d in * by lia. rewrite Z.sub_diag. unfold bt at 1. cbn [nth Z.to_nat]. rewrite Hf by lia.
  rewrite wrap_small by (pose proof (bt_bound S (d - D) HS); lia). symmetry. apply period_bt; [done|lia|lia].
Qed.

(** The first eight bytes: a short distance is widened to one of eight or more. *)
Lemma copy_first_spec m : filled m p ->
  exists m' D, copy_first overlap m p (p - off) = Some (m', p + 8, p + 8 - D)
    /\ filled m' (Z.min (p + 8) (p + L)) /\ period D /\ 8 <= D /\ p - off <= p + 8 - D.
Proof.
  intros Hf. assert (H1 : period off) by (exists 1; lia). unfold copy_first. replace (p - (p - off)) with off by lia. destruct (Z.ltb_spec off 8) as [Hlt|Hge].
  - destruct (bytes_in_spec 4 m p off Hf H1) as (m1 & E1 & F1); [lia|lia|lia|]. change (Z.of_nat 4) with 4 in F1.
    assert (Ht : exists d32 d64, dec32table !! Z.to_nat off = Some d32 /\ dec64table !! Z.to_nat off = Some d64
                 /\ period (off + 4 - d32) /\ 4 <= off + 4 - d32 /\ 0 <= d32 /\ period (off + 8 - d32 + d64) /\ 8 <= off + 8 - d32 + d64 /\ 0 <= d32 - d64).
    { assert (Hc : off = 1 \/ off = 2 \/ off = 3 \/ off = 4 \/ off = 5 \/ off = 6 \/ off = 7) by lia. unfold period.
      destruct Hc as [->|[->|[->|[->|[->|[->| ->]]]]]]; do 2 eexists; (split; [done|]); (split; [done|]);
        (split; [first [exists 1; lia|exists 2; lia|exists 4; lia]|]); (split; [lia|]); (split; [lia|]);
        (split; [first [exists 2; lia|exists 8; lia|exists 4; lia|exists 3; lia]|lia]). }
    destruct Ht as (d32 & d64 & -> & -> & P1 & P2 & P3 & P4 & P5 & P6). cbn [mbind option_bind]. rewrite E1. cbn [mbind option_bind].
    destruct (copy_in_step m1 (p + 4) (off + 4 - d32) 4) as (m2 & E2 & F2); [split; [apply F1|intros j Hj; apply F1; lia]|done|lia|lia|lia|lia|].
    replace (p - off + d32) with (p + 4 - (off + 4 - d32)) by lia. rewrite E2. cbn [mbind option_bind].
    exists m2, (off + 8 - d32 + d64). split; [do 2 f_equal; lia|]. split; [|repeat split; done || lia].
    by replace (p + 4 + Z.of_nat 4) with (p + 8) in F2 by lia.
  - destruct (copy_in_step m p off 8) as (m2 & E2 & F2); [split; [apply Hf|intros j Hj; apply Hf; lia]|done|lia|lia|lia|lia|].
    rewrite E2. cbn [mbind option_bind]. exists m2, off. split; [do 2 f_equal; lia|]. repeat split; done || apply F2 || lia.
Qed.

Lemma copy_match_spec m : filled m p -> exists m', copy_match N overlap m p (p - off) L = Some (Some m') /\ filled m' (p + L).
Proof.
  intros Hf. unfold copy_match. destruct (copy_first_spec m Hf) as (m1 & D & -> & F1 & HD & H8 & Hs). cbn [mbind option_bind]. unfold oend, LASTLITERALS.
  destruct (Z.ltb_spec (N - 12) (p + L)) as [Hnear|Hfar].
  - destruct (Z.ltb_spec (N - 5) (p + L)); [lia|]. destruct (Z.ltb_spec (p + 8) (N - 8)) as [Hl|Hl].
    + unfold wildCopy_in. destruct (wild_in_spec (Datatypes.S (Z.to_nat (N - 8 - (p + 8)))) m1 (p + 8) D (N - 8)) as (m2 & -> & F2); try done; try lia.
      cbn [mbind option_bind]. destruct (Z.le_gt_cases (N - 8) (p + L)) as [Hc|Hc].
      * rewrite Z.min_l in F2 by lia. replace (p + 8 - D + (N - 8 - (p + 8))) with (N - 8 - D) by lia.
        destruct (bytes_in_spec (Z.to_nat (p + L - (N - 8))) m2 (N - 8) D F2 HD) as (m3 & -> & F3); [lia|lia|lia|]. cbn [mbind option_bind].
        exists m3. split; [done|]. by replace (N - 8 + Z.of_nat (Z.to_nat (p + L - (N - 8)))) with (p + L) in F3 by lia.
      * replace (Z.to_nat (p + L - (N - 8))) with 0%nat by lia. cbn [bytes_in mbind option_bind]. exists m2. split; [done|]. by rewrite Z.min_r in F2 by lia.
    + destruct (Z.le_gt_cases (p + 8) (p + L)) as [Hc|Hc]; cbn [mbind option_bind].
      * rewrite Z.min_l in F1 by lia. destruct (bytes_in_spec (Z.to_nat (p + L - (p + 8))) m1 (p + 8) D F1 HD) as (m3 & -> & F3); [lia|lia|lia|].
        cbn [mbind option_bind]. exists m3. split; [done|]. by replace (p + 8 + Z.of_nat (Z.to_nat (p + L - (p + 8)))) with (p + L) in F3 by lia.
      * replace (Z.to_nat (p + L - (p + 8))) with 0%nat by lia. cbn [bytes_in mbind option_bind]. exists m1. split; [done|]. by rewrite Z.min_r in F1 by lia.
  - unfold wildCopy_in. destruct (wild_in_spec (Datatypes.S (Z.to_nat (p + L - (p + 8)))) m1 (p + 8) D (p + L)) as (m2 & -> & F2); try done; try lia.
    cbn [mbind option_bind]. exists m2. split; [done|]. by rewrite Z.min_id in F2.
Qed.
End Fill.

(** ** Reading a block *)

Lemma byte_app pre b post : byte (pre ++ b :: post) (len pre) = Some b.
Proof.
  pose proof (len_nonneg pre). pose proof (len_nonneg post). assert (len (pre ++ b :: post) = len pre + 1 + len post) by (rewrite len_app; unfold len; simpl; lia).
  rewrite byte_bt by lia. f_equal. unfold bt, len. rewrite Nat2Z.id. apply nth_middle.
Qed.

Lemma sub_mid pre xs post : sub (pre ++ xs ++ post) (len pre) (len xs) = xs.
Proof. unfold sub, len. by rewrite !Nat2Z.id, drop_app_length, take_app_length. Qed.

Lemma run_pos k : 0 <= k -> 1 <= len (run k).
Proof. intros Hk. rewrite run_length by done. pose proof (Z.div_pos k 255 Hk). lia. Qed.

Lemma run_cons k xs : 0 <= k -> exists v, run k ++ xs = v :: (if v =? 255 then run (k - 255) ++ xs else xs)
  /\ len (run k) = 1 + (if v =? 255 then len (run (k - 255)) else 0) /\ k = v + (if v =? 255 then k - 255 else 0) /\ (v = 255 <-> 255 <= k).
Proof.
  intros Hk. destruct (Z.le_gt_cases 255 k) as [Hc|Hc].
  - exists 255. rewrite run_more by done. split; [done|]. split; [|rewrite Z.eqb_refl; lia]. unfold len. cbn [length]. rewrite Z.eqb_refl. lia.
  - exists k. rewrite run_last by lia. destruct (Z.eqb_spec k 255); [lia|]. split; [done|]. split; [done|]. lia.
Qed.

Lemma ext_run k : 15 <= k -> ext k = run (k - 15).
Proof. intros Hk. unfold ext. by destruct (Z.leb_spec 15 k); [|lia]. Qed.

Section Reader.
Variables (endOnInput : bool).

(** With the end of the input given, it is that of the block. *)
Definition ends (E : list Z) (inputSize : Z) : Prop := endOnInput = true -> inputSize = len E.

Lemma lit_length_spec fuel : forall pre k post isz l, ends (pre ++ run k ++ post) isz -> 0 <= k -> (endOnInput = true -> 15 <= len post) ->
  (length (run k) <= fuel)%nat -> lit_length (pre ++ run k ++ post) isz endOnInput fuel (len pre) l = Some (len pre + len (run k), l + k).
Proof.
  induction fuel as [|fuel IH]; intros pre k post isz l He Hk Hpost Hf; [pose proof (run_pos k Hk); unfold len in *; lia|]. destruct (run_cons k post Hk) as (v & Ev & El & Ek & Hv).
  cbn [lit_length]. rewrite Ev at 1. rewrite byte_app. cbn [mbind option_bind]. unfold dec_iend, RUN_MASK. destruct (Z.eqb_spec v 255) as [E255|Hne].
  - subst v. assert (Hk' : 255 <= k) by (by apply Hv). pose proof (run_pos (k - 255) ltac:(lia)).
    assert (Hcont : (if endOnInput then len pre + 1 <? isz - 15 else true) = true).
    { unfold ends in He. destruct endOnInput; [|done]. rewrite (He eq_refl), !len_app. specialize (Hpost eq_refl). apply Z.ltb_lt. lia. }
    rewrite Hcont. cbn [andb]. rewrite Ev. change (pre ++ 255 :: run (k - 255) ++ post) with (pre ++ [255] ++ run (k - 255) ++ post). rewrite app_assoc.
    replace (len pre + 1) with (len (pre ++ [255])) by (rewrite len_app; done).
    rewrite (IH (pre ++ [255]) (k - 255) post isz (l + 255)); [f_equal; f_equal; [rewrite len_app; change (len [255]) with 1; lia|lia]| |lia|done|unfold len in El; lia].
    rewrite <- app_assoc. cbn [app]. by rewrite <- Ev.
  - rewrite andb_false_r. do 2 f_equal; lia.
Qed.

Lemma match_length_spec fuel : forall pre k post isz l, ends (pre ++ run k ++ post) isz -> 0 <= k -> 5 <= len post ->
  (length (run k) <= fuel)%nat -> match_length (pre ++ run k ++ post) isz endOnInput fuel (len pre) l = Some (Going (len pre + len (run k)) (l + k)).
Proof.
  induction fuel as [|fuel IH]; intros pre k post isz l He Hk Hpost Hf; [pose proof (run_pos k Hk); unfold len in *; lia|]. destruct (run_cons k post Hk) as (v & Ev & El & Ek & Hv).
  cbn [match_length]. pose proof (run_pos k Hk). unfold dec_iend, LASTLITERALS.
  assert (Hin : endOnInput && (isz - 5 <? len pre) = false).
  { unfold ends in He. destruct endOnInput; [|done]. rewrite (He eq_refl), !len_app. cbn [andb]. apply Z.ltb_ge. lia. }
  rewrite Hin. rewrite Ev at 1. rewrite byte_app. cbn [mbind option_bind]. destruct (Z.eqb_spec v 255) as [E255|Hne].
  - subst v. assert (Hk' : 255 <= k) by (by apply Hv). rewrite Ev. change (pre ++ 255 :: run (k - 255) ++ post) with (pre ++ [255] ++ run (k - 255) ++ post). rewrite app_assoc.
    replace (len pre + 1) with (len (pre ++ [255])) by (rewrite len_app; done).
    rewrite (IH (pre ++ [255]) (k - 255) post isz (l + 255)); [f_equal; f_equal; [rewrite len_app; change (len [255]) with 1; lia|lia]| |lia|done|unfold len in El; lia].
    rewrite <- app_assoc. cbn [app]. by rewrite <- Ev.
  - do 2 f_equal; lia.
Qed.

Lemma token_literals k c : 0 <= k -> 0 <= c -> Z.shiftr (token_of k c) ML_BITS = Z.min k 15.
Proof. intros. unfold token_of, ML_BITS. rewrite Z.shiftr_div_pow2 by lia. change (2 ^ 4) with 16. symmetry. apply Z.div_unique with (r := Z.min c 15); lia. Qed.

Lemma token_match k c : 0 <= k -> 0 <= c -> Z.land (token_of k c) ML_MASK = Z.min c 15.
Proof.
  intros. unfold token_of, ML_MASK. change 15 with (Z.ones 4) at 3. rewrite Z.land_ones by lia. change (2 ^ 4) with 16.
  symmetry. apply Z.mod_unique with (q := Z.min k 15); lia.
Qed.

(** The number of literals. *)
Lemma read_literals pre k c post isz : 0 <= k -> 0 <= c -> let E := pre ++ [token_of k c] ++ ext k ++ post in
  ends E isz -> k <= len post ->
  (if Z.min k 15 =? RUN_MASK then lit_length E isz endOnInput (S (length E)) (len pre + 1) (Z.min k 15) else Some (len pre + 1, Z.min k 15))
  = Some (len pre + 1 + len (ext k), k).
Proof.
  intros Hk Hc E He Hp. destruct (ext_length k Hk) as (X1 & X2 & X3). unfold RUN_MASK. destruct (Z.eqb_spec (Z.min k 15) 15) as [Em|Em].
  - assert (Hlen : len pre + 1 = len (pre ++ [token_of k c])) by (rewrite len_app; done). unfold E in *. rewrite ext_run in * by lia. rewrite app_assoc in *.
    rewrite Em, Hlen. rewrite lit_length_spec; [do 2 f_equal; lia|done|lia|lia|]. rewrite !length_app. lia.
  - rewrite X2 by lia. do 2 f_equal; lia.
Qed.

(** The length of a match. *)
Lemma read_match pre k post isz : 0 <= k -> let E := pre ++ ext k ++ post in ends E isz -> 5 <= len post ->
  (if Z.min k 15 =? ML_MASK then match_length E isz endOnInput (S (length E)) (len pre) (Z.min k 15) else Some (Going (len pre) (Z.min k 15)))
  = Some (Going (len pre + len (ext k)) k).
Proof.
  intros Hk E He Hp. destruct (ext_length k Hk) as (X1 & X2 & X3). unfold ML_MASK. destruct (Z.eqb_spec (Z.min k 15) 15) as [Em|Em].
  - unfold E in *. rewrite ext_run in * by lia. rewrite Em. rewrite match_length_spec; [do 2 f_equal; lia|done|lia|done|]. rewrite !length_app. lia.
  - rewrite X2 by lia. do 2 f_equal; lia.
Qed.
End Reader.

(** ** The blocks of the compressor *)

Lemma wraps_not (b : bool) a n : (b = true -> 0 <= a /\ 0 <= n /\ a + n < 2 ^ 64) -> wraps b a n = false.
Proof.
  intros H. unfold wraps. destruct b; [|done]. destruct (H eq_refl) as (H1 & H2 & H3). rewrite wrap_small by lia. apply Z.ltb_ge. lia.
Qed.

(** A buffer of [n] bytes that is not at the end of the address space. *)
Definition placed (a n : Z) : Prop := 0 <= a /\ a + n < 2 ^ 64.

Section Decode.
Variables (S : list Z) (endOnInput overlap : bool) (isz src_at dest_at : Z).
Abbreviation N := (len S).
Hypothesis HS : bytes S.
Hypothesis Hplaced : endOnInput = true -> placed src_at isz /\ placed dest_at N.

Lemma filled_starts m e : 0 <= e <= N -> filled S m e <-> starts m (sub S 0 e) N.
Proof.
  intros He. assert (Hl : len (sub S 0 e) = e) by (apply sub_length; lia). assert (Hb : forall j, 0 <= j < e -> bt (sub S 0 e) j = bt S j).
  { intros j Hj. pose proof (sub_lookup S 0 e j ltac:(lia) ltac:(lia) ltac:(lia) Hj) as E. rewrite bt_lookup in E by lia. by injection E. }
  split; [intros [Hm Hf]|intros Hst]; (split; [|]); try done.
  - exists (drop (Z.to_nat e) m). rewrite <- (take_drop (Z.to_nat e) m) at 1. f_equal. apply list_eq. intros i. unfold len in *.
    destruct (decide (i < Z.to_nat e)%nat) as [Hi|Hi].
    + rewrite lookup_take_lt by done. replace i with (Z.to_nat (Z.of_nat i)) by lia. rewrite !bt_lookup by (unfold len; lia). f_equal. rewrite Hf, Hb by lia. done.
    + rewrite !lookup_ge_None_2; [done|lia|rewrite length_take; lia].
  - apply Hst.
  - intros j Hj. rewrite (starts_bt _ _ _ j Hst) by lia. by apply Hb.
Qed.

Lemma filled_all m : filled S m N -> m = S.
Proof.
  intros [Hm Hf]. apply list_eq. intros i. unfold len in *. destruct (decide (i < length S)%nat) as [Hi|Hi].
  - replace i with (Z.to_nat (Z.of_nat i)) by lia. rewrite !bt_lookup by (unfold len; lia). f_equal. apply Hf. lia.
  - rewrite !lookup_ge_None_2; [done|lia|lia].
Qed.

(** Literals in the middle of a block. *)
Lemma copy_literals pre post p k m : filled S m p -> 0 <= p -> 0 <= k -> p + k + 8 <= N -> 8 <= len post ->
  exists m', LZ4_wildCopy m p (pre ++ sub S p k ++ post) (len pre) (p + k) = Some m' /\ filled S m' (p + k).
Proof.
  intros Hf Hp Hk Hb Hpost. assert (Hl : len (sub S p k) = k) by (apply sub_length; lia). assert (Hl0 : len (sub S 0 p) = p) by (apply sub_length; lia).
  apply filled_starts in Hf; [|lia]. pose proof (len_nonneg pre).
  destruct (wildCopy_spec (pre ++ sub S p k ++ post) (sub S 0 p) (len pre) k N) with (m := m) as (m' & E & S'); [lia|lia|rewrite !len_app; lia|lia|done|].
  rewrite Hl0 in E. exists m'. split; [done|]. apply filled_starts; [lia|]. pose proof (sub_mid pre (sub S p k) post) as Es. rewrite Hl in Es. rewrite Es in S'.
  replace p with (0 + p) in S' at 2 by lia. by rewrite sub_app in S' by lia.
Qed.

(** One sequence. *)
Lemma dec_sequence fuel pre post p q m : let E := pre ++ enc_seq S p q ++ post in ends endOnInput E isz -> filled S m p -> 0 <= p -> seq_ok S p q -> 6 <= len post ->
  exists m', dec_loop E isz N endOnInput overlap src_at dest_at (Datatypes.S fuel) (len pre) p m
    = dec_loop E isz N endOnInput overlap src_at dest_at fuel (len pre + len (enc_seq S p q)) (seq_end p q) m' /\ filled S m' (seq_end p q).
Proof.
  intros E He Hf Hp Hq Hpost. pose proof Hq as (Q1 & Q2 & Q3 & Q4 & Q5 & Q6 & Q7). destruct q as [k o c]. unfold seq_end in *. cbn [lit off ml] in *.
  set (lits := pre ++ [token_of k c] ++ ext k). set (offs := lits ++ sub S p k).
  assert (E1 : E = pre ++ [token_of k c] ++ ext k ++ (sub S p k ++ le 2 o ++ ext c ++ post)) by (unfold E, enc_seq, enc_literals; cbn [lit off ml]; by rewrite <- !app_assoc).
  assert (E2 : E = lits ++ sub S p k ++ (le 2 o ++ ext c ++ post)) by (unfold lits; rewrite E1; by rewrite <- !app_assoc).
  assert (E3 : E = offs ++ le 2 o ++ (ext c ++ post)) by (unfold offs; rewrite E2; by rewrite <- !app_assoc).
  assert (E4 : E = (offs ++ le 2 o) ++ ext c ++ post) by (rewrite E3; by rewrite <- !app_assoc).
  assert (Ls : len (sub S p k) = k) by (apply sub_length; lia). assert (Lo : len (le 2 o) = 2) by done.
  assert (Ll : len lits = len pre + 1 + len (ext k)) by (unfold lits; rewrite !len_app; change (len [token_of k c]) with 1; lia).
  assert (Lf : len offs = len lits + k) by (unfold offs; rewrite len_app; lia). pose proof (len_nonneg (ext c)). pose proof (len_nonneg lits).
  assert (LE : len E = len lits + k + 2 + len (ext c) + len post) by (rewrite E2, !len_app; lia).
  assert (B1 : byte E (len pre) = Some (token_of k c)) by (rewrite E1; apply byte_app).
  pose proof (read_literals endOnInput pre k c (sub S p k ++ le 2 o ++ ext c ++ post) isz Q1 Q5) as RL. cbv zeta in RL. rewrite <- E1 in RL.
  pose proof (read_match endOnInput (offs ++ le 2 o) c post isz Q5) as RM. cbv zeta in RM. rewrite <- E4 in RM.
  clearbody lits offs E. cbn [dec_loop]. rewrite B1. cbn [mbind option_bind]. rewrite token_literals by done.
  rewrite RL by (done || rewrite !len_app; lia). cbn [mbind option_bind]. rewrite <- Ll.
  assert (Hw : forall a, 0 <= a -> p + a <= N -> len lits + a <= len E -> wraps endOnInput (dest_at + p) a || wraps endOnInput (src_at + len lits) a = false).
  { intros a Ha H1 H2. unfold ends in He. rewrite !wraps_not; [done|..]; intros Heo; specialize (He Heo); destruct (Hplaced Heo) as [[? ?] [? ?]]; lia. }
  assert (Hw2 : forall a, 0 <= a -> p + k + a <= N -> wraps endOnInput (dest_at + (p + k)) a = false).
  { intros a Ha H1. apply wraps_not. intros Heo. destruct (Hplaced Heo) as [_ [? ?]]. lia. }
  rewrite Hw, andb_false_r by lia.
  unfold oend, dec_iend, MFLIMIT, COPYLENGTH, MINMATCH, LASTLITERALS.
  assert (Hend : (if endOnInput then (N - (8 + 4) <? p + k) || (isz - (2 + 1 + 5) <? len lits + k) else N - 8 <? p + k) = false).
  { unfold ends in He. destruct endOnInput; [rewrite (He eq_refl); apply orb_false_iff; split|]; apply Z.ltb_ge; lia. }
  rewrite Hend. destruct (copy_literals lits (le 2 o ++ ext c ++ post) p k m Hf) as (m1 & C1 & F1); [lia|lia|lia|rewrite !len_app; lia|].
  rewrite <- E2 in C1. rewrite C1. cbn [mbind option_bind]. rewrite read16_sub by lia. rewrite <- Lf.
  assert (Eo : sub E (len offs) 2 = le 2 o) by (rewrite E3, <- Lo; apply sub_mid). rewrite Eo, unle_le by lia. cbn [mbind option_bind].
  assert (Hlow : checkOffset endOnInput && (p + k - o <? 0) = false) by (destruct (Z.ltb_spec (p + k - o) 0); [lia|apply andb_false_r]).
  rewrite Hlow, token_match by done. replace (len offs + 2) with (len (offs ++ le 2 o)) by (rewrite len_app; lia).
  rewrite RM by (done || lia). cbn [mbind option_bind]. rewrite Hw2, andb_false_r by lia.
  destruct (copy_match_spec S (p + k) o (c + 4) overlap HS) with (m := m1) as (m2 & C2 & F2); [lia|by replace (c + 4) with (4 + c) by lia|lia|lia|lia|done|].
  rewrite C2. cbn [mbind option_bind]. exists m2. replace (p + k + (c + 4)) with (p + k + 4 + c) in * by lia. split; [|done]. f_equal.
  rewrite len_app, (seq_length S p (Seq k o c)) by done. cbn [lit ml]. lia.
Qed.

(** The literals at the end. *)
Lemma dec_last fuel pre p m : let E := pre ++ enc_last S p in ends endOnInput E isz -> filled S m p -> 0 <= p <= N ->
  dec_loop E isz N endOnInput overlap src_at dest_at (Datatypes.S fuel) (len pre) p m = Some (if endOnInput then N else len E, S).
Proof.
  intros E He Hf Hp. set (k := N - p) in *. set (lits := pre ++ [token_of k 0] ++ ext k).
  assert (Ls : len (sub S p k) = k) by (apply sub_length; lia).
  assert (E1 : E = pre ++ [token_of k 0] ++ ext k ++ (sub S p k)) by (unfold E, enc_last, enc_literals; fold k; done).
  assert (E2 : E = lits ++ sub S p k ++ []) by (unfold lits; rewrite E1, app_nil_r; by rewrite <- !app_assoc).
  assert (Ll : len lits = len pre + 1 + len (ext k)) by (unfold lits; rewrite !len_app; change (len [token_of k 0]) with 1; lia).
  assert (LE : len E = len lits + k) by (rewrite E2, !len_app, Ls; change (len []) with 0; lia). pose proof (len_nonneg lits).
  assert (B1 : byte E (len pre) = Some (token_of k 0)) by (rewrite E1; apply byte_app).
  pose proof (read_literals endOnInput pre k 0 (sub S p k) isz ltac:(lia) ltac:(lia)) as RL. cbv zeta in RL. rewrite <- E1 in RL.
  clearbody lits E. cbn [dec_loop]. rewrite B1. cbn [mbind option_bind]. rewrite token_literals by lia.
  rewrite RL by (done || lia). cbn [mbind option_bind]. rewrite <- Ll. unfold ends in He.
  assert (Hw : wraps endOnInput (dest_at + p) k || wraps endOnInput (src_at + len lits) k = false).
  { rewrite !wraps_not; [done|..]; intros Heo; specialize (He Heo); destruct (Hplaced Heo) as [[? ?] [? ?]]; lia. }
  rewrite Hw, andb_false_r.
  unfold oend, dec_iend, MFLIMIT, COPYLENGTH, MINMATCH, LASTLITERALS.
  assert (Hend : (if endOnInput then (N - (8 + 4) <? p + k) || (isz - (2 + 1 + 5) <? len lits + k) else N - 8 <? p + k) = true).
  { destruct endOnInput; [apply orb_true_iff; left|]; apply Z.ltb_lt; lia. }
  assert (Hex : (if endOnInput then negb (len lits + k =? isz) || (N <? p + k) else negb (p + k =? N)) = false).
  { destruct endOnInput; [rewrite (He eq_refl); apply orb_false_iff; split; [|apply Z.ltb_ge; lia]|]; apply negb_false_iff, Z.eqb_eq; lia. }
  rewrite Hend, Hex. unfold copy. rewrite load_sub by lia. rewrite Z2Nat.id by lia. cbn [mbind option_bind].
  assert (Es : sub E (len lits) k = sub S p k) by (pose proof (sub_mid lits (sub S p k) []) as X; rewrite Ls in X; by rewrite E2). rewrite Es.
  apply filled_starts in Hf; [|lia]. assert (Hl0 : len (sub S 0 p) = p) by (apply sub_length; lia).
  destruct (starts_store m (sub S 0 p) (sub S p k) N Hf) as (m' & Em & S'); [lia|]. rewrite Hl0 in Em. rewrite Em. cbn [mbind option_bind].
  replace p with (0 + p) in S' at 2 by lia. rewrite sub_app in S' by lia. replace (p + k) with N in S' by lia. apply filled_starts in S'; [|lia].
  rewrite (filled_all _ S'). do 2 f_equal. destruct endOnInput; lia.
Qed.

Lemma endpos_margin qs : forall p, p <= N - 5 -> parse_ok S p qs -> endpos p qs <= N - 5.
Proof. induction qs as [|q qs IH]; intros p Hp Hq; [done|]. destruct Hq as [(_ & _ & _ & _ & _ & Q6 & _) Hqs]. by apply IH. Qed.

Lemma dec_parse qs : forall fuel pre p m, let E := pre ++ encs S p qs ++ enc_last S (endpos p qs) in ends endOnInput E isz ->
  filled S m p -> 0 <= p <= N -> parse_ok S p qs -> (length qs < fuel)%nat ->
  dec_loop E isz N endOnInput overlap src_at dest_at fuel (len pre) p m = Some (if endOnInput then N else len E, S).
Proof.
  induction qs as [|q qs IH]; intros fuel pre p m E He Hf Hp Hq Hfu; (destruct fuel as [|fuel]; [lia|]).
  - by apply dec_last.
  - destruct Hq as [Hq Hqs]. unfold E in *. cbn [encs endpos] in *. pose proof Hq as (Q1 & Q2 & Q3 & Q4 & Q5 & Q6 & Q7). rewrite <- app_assoc in *.
    assert (Hend : 0 <= seq_end p q <= N - 5) by (unfold seq_end in *; lia).
    pose proof (endpos_range S qs (seq_end p q) ltac:(lia) Hqs) as Hr.
    assert (Hpost : 6 <= len (encs S (seq_end p q) qs ++ enc_last S (endpos (seq_end p q) qs))).
    { rewrite len_app. pose proof (len_nonneg (encs S (seq_end p q) qs)). unfold enc_last. rewrite literals_length by lia.
      destruct (ext_length (N - endpos (seq_end p q) qs)) as (X1 & _); [lia|].
      assert (endpos (seq_end p q) qs <= N - 5) by (apply endpos_margin; [lia|done]). lia. }
    destruct (dec_sequence fuel pre _ p q m He Hf ltac:(lia) Hq Hpost) as (m' & -> & F'). rewrite <- len_app, app_assoc in *.
    apply (IH fuel (pre ++ enc_seq S p q)); [done|done|lia|done|simpl in Hfu; lia].
Qed.

Lemma encs_count qs : forall p, 0 <= p -> parse_ok S p qs -> Z.of_nat (length qs) <= len (encs S p qs).
Proof.
  induction qs as [|q qs IH]; intros p Hp Hq; cbn [encs length]; [unfold len; simpl; lia|]. destruct Hq as [Hq Hqs]. rewrite len_app, (seq_length S p q Hp Hq).
  destruct Hq as (Q1 & Q2 & Q3 & Q4 & Q5 & Q6 & _). specialize (IH (seq_end p q) ltac:(unfold seq_end; lia) Hqs).
  pose proof (len_nonneg (ext (lit q))). pose proof (len_nonneg (ext (ml q))). lia.
Qed.

Lemma decompress_generic_spec qs m : parse_ok S 0 qs -> len m = N -> ends endOnInput (enc S qs) isz ->
  LZ4_decompress_generic (enc S qs) isz N endOnInput overlap src_at dest_at m = Some (if endOnInput then N else len (enc S qs), S).
Proof.
  intros Hq Hm He. pose proof (len_nonneg S) as HN. unfold LZ4_decompress_generic. destruct (Z.eqb_spec N 0) as [E0|Hne].
  - assert (HS0 : S = []) by (destruct S; [done|unfold len in E0; simpl in E0; lia]). assert (Hm0 : m = []) by (destruct m; [done|unfold len in *; simpl in *; lia]).
    destruct qs as [|q qs]; [|destruct Hq as [(Q1 & _ & Q3 & Q4 & _) _]; lia]. unfold ends in He. rewrite E0, Hm0, HS0 in *.
    destruct endOnInput; [|done]. rewrite (He eq_refl). done.
  - apply (dec_parse qs (Datatypes.S (length (enc S qs))) [] 0 m); [done| |lia|done|].
    + split; [done|]. intros j Hj. lia.
    + pose proof (encs_count qs 0 ltac:(lia) Hq). unfold enc. rewrite length_app. unfold len in *. lia.
Qed.
End Decode.

(** ** Round trip *)

Lemma starts_take m bs n : starts m bs n -> take (Z.to_nat (len bs)) m = bs.
Proof. intros [[k ->] _]. unfold len. by rewrite Nat2Z.id, take_app_length. Qed.

Lemma enc_pos src qs : parse_ok src 0 qs -> 0 < len (enc src qs).
Proof.
  intros Hq. pose proof (len_nonneg src). pose proof (endpos_range src qs 0 ltac:(lia) Hq). unfold enc, enc_last. rewrite len_app, literals_length by lia.
  pose proof (len_nonneg (encs src 0 qs)). pose proof (len_nonneg (ext (len src - endpos 0 qs))). lia.
Qed.

(** What the compressor gives when it does not give up. *)
Lemma fast_roundtrip src dest maxOutputSize acceleration : bytes src -> len src <= LZ4_MAX_INPUT_SIZE -> acceleration < 2 ^ 25 ->
  output_fits (len dest) (len src) maxOutputSize ->
  exists r dest', LZ4_compress_fast src dest (len src) maxOutputSize acceleration = Some (r, dest') /\ len dest' = len dest
    /\ ((r = 0 /\ maxOutputSize < LZ4_compressBound (len src))
        \/ (0 < r <= Z.min (len dest) (len src + len src / 255 + 2) /\ forall out overlap, len out = len src ->
              LZ4_decompress_fast overlap (take (Z.to_nat r) dest') out (len src) = Some (r, src)
              /\ forall a b, placed a r -> placed b (len src) ->
                   LZ4_decompress_safe overlap a b (take (Z.to_nat r) dest') out r (len src) = Some (len src, src))).
Proof.
  intros Hb HN Hacc Hfit. destruct (compress_fast_spec src dest maxOutputSize acceleration Hb HN Hacc Hfit) as (r & dest' & E & L & Hr).
  exists r, dest'. split; [done|]. split; [done|]. destruct Hr as [?|(qs & Hq & -> & Hst)]; [by left|right]. pose proof (starts_len _ _ _ Hst).
  split; [pose proof (enc_pos src qs Hq); pose proof (enc_size src qs Hq); lia|]. intros out overlap Ho. rewrite (starts_take _ _ _ Hst).
  split; [by apply (decompress_generic_spec src false overlap 0 0 0 Hb)|]. intros a b Ha Hb'. by apply (decompress_generic_spec src true overlap (len (enc src qs)) a b Hb).
Qed.

(** C17: LZ4_compress_fast and the decompressors are inverse, for any input of bytes up to the
    largest size, any output that is large enough by LZ4_compressBound, or any limit for inputs
    up to 128 KB, and any acceleration below 2^25.  Compression ends without an access outside
    of the input and the output; it fails only when the limit is below LZ4_compressBound.
    Otherwise both decompressors, given the block and an output of the input's size, give the
    input, LZ4_decompress_fast returns the size of the block and LZ4_decompress_safe that of
    the input, wherever the buffers are in the address space, also without an access outside of
    them, and without a memcpy between overlapping parts of the output, whether [overlap] allows
    that or not. *)
Theorem lz4_roundtrip src dest maxOutputSize acceleration :
  bytes src -> len src <= LZ4_MAX_INPUT_SIZE -> acceleration < 2 ^ 25 -> output_fits (len dest) (len src) maxOutputSize ->
  exists r dest', LZ4_compress_fast src dest (len src) maxOutputSize acceleration = Some (r, dest') /\ len dest' = len dest
    /\ (r = 0 -> maxOutputSize < LZ4_compressBound (len src))
    /\ (r <> 0 -> 0 < r <= len dest /\ r <= len src + len src / 255 + 2 /\ forall out overlap, len out = len src ->
          LZ4_decompress_fast overlap (take (Z.to_nat r) dest') out (len src) = Some (r, src)
          /\ forall a b, placed a r -> placed b (len src) ->
               LZ4_decompress_safe overlap a b (take (Z.to_nat r) dest') out r (len src) = Some (len src, src)).
Proof.
  intros Hb HN Ha Hf. destruct (fast_roundtrip src dest maxOutputSize acceleration Hb HN Ha Hf) as (r & dest' & E & L & Hr).
  exists r, dest'. split; [done|]. split; [done|]. destruct Hr as [[-> Hr]|[Hn Hr]]; (split; [|]); [done|lia|lia|]. intros _. do 2 (split; [lia|]). done.
Qed.

Definition sample : list Z := concat (replicate 12 [1; 2; 3]) ++ [7; 7; 7; 7; 7; 7; 7; 7; 7; 7; 7; 7; 7; 7; 7; 7; 7; 8; 9; 10; 11; 12; 13].

Lemma lz4_roundtrip_witness :
  exists r dest', LZ4_compress_fast sample (replicate 80 0) 59 75 1 = Some (r, dest') /\ 0 < r <= 61
    /\ LZ4_decompress_fast false (take (Z.to_nat r) dest') (replicate 59 0) 59 = Some (r, sample)
    /\ LZ4_decompress_safe false 4096 8192 (take (Z.to_nat r) dest') (replicate 59 0) r 59 = Some (59, sample).
Proof.
  destruct (lz4_roundtrip sample (replicate 80 0) 75 1) as (r & dest' & E & _ & H0 & Hr).
  - unfold bytes, sample. repeat constructor; lia.
  - vm_compute. discriminate.
  - lia.
  - left. vm_compute. split; discriminate.
  - exists r, dest'. assert (Hne : r <> 0) by (intros E0; apply H0 in E0; revert E0; vm_compute; discriminate).
    destruct (Hr Hne) as (H1 & H2 & H3). split; [exact E|]. split; [split; [apply H1|exact H2]|]. destruct (H3 (replicate 59 0) false eq_refl) as [H4 H5]. split; [exact H4|].
    apply H5; [split; [lia|change (len (replicate 80 0)) with 80 in H1; lia]|vm_compute; split; [discriminate|reflexivity]].
Defined.

(** ** Limits *)

(** The room that the compressor leaves for the length of a match with a limited output: a byte
    for every 256, not for every 255. *)
Lemma match_limit_short : (1 + LASTLITERALS) + Z.shiftr 400000 8 < len (ext 400000).
Proof. by vm_compute. Qed.

(** LZ4_decompress_safe reads past an input of one byte. *)
Lemma safe_reads_past : LZ4_decompress_safe true 4096 8192 [240] (replicate 10 0) 1 10 = None.
Proof. by vm_compute. Qed.

(** An offset of zero, which is no match, is accepted: it copies what the output held to
    itself, with memcpy. *)
Lemma offset_zero : let block := [16; 65; 0; 0; 128] ++ replicate 8 66 in
  LZ4_decompress_safe true 4096 8192 block (replicate 13 77) 13 13 <> None /\ LZ4_decompress_safe false 4096 8192 block (replicate 13 77) 13 13 = None.
Proof. vm_compute. done. Qed.

(** An acceleration of 2^26 is zero once it is shifted: the search does not advance, finds the
    position itself, and the block is wrong. *)
Lemma large_acceleration : exists r dest out, LZ4_compress_fast (seqZ 0 40) (replicate 60 0) 40 60 (2 ^ 26) = Some (r, dest)
  /\ LZ4_decompress_safe true 4096 8192 (take (Z.to_nat r) dest) (replicate 40 0) r 40 = Some (40, out) /\ out <> seqZ 0 40.
Proof. do 3 eexists. split; [by vm_compute|]. split; [by vm_compute|]. by vm_compute. Qed.
