(* ===== verification/Bitmap.v ===== *)
(** * The chunk bitmap allocator: [libhpx::util::Bitmap]

    [libhpx/util/Bitmap.cpp] and [include/libhpx/util/Bitmap.h].  A bitmap is an
    array of 64-bit blocks in which a 1 bit is a free chunk; [reserve] searches for
    an aligned run of free chunks upward, [rreserve] downward, [release] gives a run
    back.  Every operation runs under the bitmap's single lock, so an operation is a
    function from bitmap to bitmap.  An operation is [None] when it would read or
    write outside the block array, or when the fuel of one of its loops is used up;
    the theorems show neither happens on a well-formed bitmap. *)

From S2P Require Import Prelude Math.

(** ** The source *)

Definition BLOCK_BITS : Z := 64.
Definition UINTPTR_MAX : Z := 2 ^ 64 - 1.

Record Bitmap := mkBitmap {
  minAlign_ : Z;
  baseAlign_ : Z;
  nBits_ : Z;
  nBlocks_ : Z;
  min_ : Z;
  max_ : Z;
  blocks_ : list Z;
}.

(** The outcome of a reservation: it returns [LIBHPX_OK] with the offset or [LIBHPX_EINVAL], or
    the program ends in [oom], whose dbg_error prints what was asked for and what is available. *)
Inductive reservation :=
| LIBHPX_OK (i : Z)
| LIBHPX_EINVAL
| Aborted (nbits align available : Z).

Definition new (nbits minAlign baseAlign : Z) : Bitmap :=
  let n := ceil_div nbits BLOCK_BITS in
  mkBitmap minAlign baseAlign nbits n 0 nbits (replicate (Z.to_nat n) UINTPTR_MAX).

Definition BlockIFS (b : Z) : Z := ctzl b.
Definition BlockILS (b : Z) : Z := BLOCK_BITS - clz 64 b - 1.

Definition CreateMask (offset length : Z) : Z :=
  let rshift := if BLOCK_BITS <? length then 0 else BLOCK_BITS - length in
  u64 (Z.shiftl (Z.shiftr UINTPTR_MAX rshift) offset).

Fixpoint match_loop (fuel : nat) (blocks : list Z) (block n nbits mask : Z)
    (f : Z -> Z) : option Z :=
  match fuel with
  | O => None
  | S fuel =>
    if n <? nbits then
      b ← blocks !! Z.to_nat block;
      let mismatch := Z.lxor mask (Z.land mask b) in
      if nz mismatch then Some (u32 (n + f mismatch - BlockIFS mask))
      else
        let n := u32 (n + popcountl mask) in
        match_loop fuel blocks (u32 (block + 1)) n nbits (CreateMask 0 (u32 (nbits - n))) f
    else Some n
  end.

Definition match_ (bm : Bitmap) (bit nbits : Z) (f : Z -> Z) : option Z :=
  let block := bit / BLOCK_BITS in
  let offset := bit mod BLOCK_BITS in
  match_loop (S (length bm.(blocks_))) bm.(blocks_) block 0 nbits (CreateMask offset nbits) f.

Fixpoint findFirstFree_loop (fuel : nat) (blocks : list Z) (block bit max mask : Z)
    : option Z :=
  match fuel with
  | O => None
  | S fuel =>
    if bit <? max then
      b ← blocks !! Z.to_nat block;
      let m := Z.land mask b in
      if nz m then Some (u32 (bit + BlockIFS m - BlockIFS mask))
      else findFirstFree_loop fuel blocks (u32 (block + 1)) (u32 (bit + popcountl mask)) max
             UINTPTR_MAX
    else Some max
  end.

Definition findFirstFree (bm : Bitmap) (bit max : Z) : option Z :=
  let block := bit / BLOCK_BITS in
  let offset := bit mod BLOCK_BITS in
  findFirstFree_loop (S (length bm.(blocks_))) bm.(blocks_) block bit max
    (CreateMask offset BLOCK_BITS).

(** The loops of [set] ([&= ~mask]) and [clear] ([|= mask]). *)
Fixpoint set_loop (fuel : nat) (blocks : list Z) (block nbits mask : Z) : option (list Z) :=
  match fuel with
  | O => None
  | S fuel =>
    if nbits >? 0 then
      b ← blocks !! Z.to_nat block;
      let blocks := <[Z.to_nat block := Z.land b (Z.lxor mask UINTPTR_MAX)]> blocks in
      let nbits := u32 (nbits - popcountl mask) in
      set_loop fuel blocks (u32 (block + 1)) nbits (CreateMask 0 nbits)
    else Some blocks
  end.

Fixpoint clear_loop (fuel : nat) (blocks : list Z) (block nbits mask : Z) : option (list Z) :=
  match fuel with
  | O => None
  | S fuel =>
    if nbits >? 0 then
      b ← blocks !! Z.to_nat block;
      let blocks := <[Z.to_nat block := Z.lor b mask]> blocks in
      let nbits := u32 (nbits - popcountl mask) in
      clear_loop fuel blocks (u32 (block + 1)) nbits (CreateMask 0 nbits)
    else Some blocks
  end.

Definition with_blocks (bm : Bitmap) (bs : list Z) : Bitmap :=
  mkBitmap bm.(minAlign_) bm.(baseAlign_) bm.(nBits_) bm.(nBlocks_) bm.(min_) bm.(max_) bs.

Definition with_min (bm : Bitmap) (m : Z) : Bitmap :=
  mkBitmap bm.(minAlign_) bm.(baseAlign_) bm.(nBits_) bm.(nBlocks_) m bm.(max_) bm.(blocks_).

Definition with_max (bm : Bitmap) (m : Z) : Bitmap :=
  mkBitmap bm.(minAlign_) bm.(baseAlign_) bm.(nBits_) bm.(nBlocks_) bm.(min_) m bm.(blocks_).

Definition set_ (bm : Bitmap) (bit nbits : Z) : option Bitmap :=
  let block := bit / BLOCK_BITS in
  let offset := bit mod BLOCK_BITS in
  with_blocks bm <$>
    set_loop (S (length bm.(blocks_))) bm.(blocks_) block nbits (CreateMask offset nbits).

Definition clear_ (bm : Bitmap) (bit nbits : Z) : option Bitmap :=
  let block := bit / BLOCK_BITS in
  let offset := bit mod BLOCK_BITS in
  with_blocks bm <$>
    clear_loop (S (length bm.(blocks_))) bm.(blocks_) block nbits (CreateMask offset nbits).

Definition countUnusedBlocks (bm : Bitmap) : Z :=
  let unused := foldl (fun acc b => u32 (acc + popcountl b)) 0 bm.(blocks_) in
  let extra := u32 (BLOCK_BITS - bm.(nBits_) mod BLOCK_BITS) in
  i32 (u32 (unused - extra)).

(** The return of LIBHPX_ENOMEM after the dbg_error is never reached. *)
Definition oom (bm : Bitmap) (nbits align : Z) : reservation := Aborted nbits align (countUnusedBlocks bm).

(** [val] and the alignment test of the two searches. *)
Definition align_val (bm : Bitmap) (bit : Z) : Z :=
  u64 (bit * u64 (Z.shiftl 1 bm.(minAlign_)) + u64 (Z.shiftl 1 bm.(baseAlign_))).

(** The inner loop of [reserve]: the next bit with enough trailing zeros. *)
Fixpoint align_up (fuel : nat) (bm : Bitmap) (align bit : Z) : option Z :=
  match fuel with
  | O => None
  | S fuel =>
    if align >? ctzl (align_val bm bit) then align_up fuel bm align (u32 (bit + 1))
    else Some bit
  end.

Definition align_fuel (bm : Bitmap) (align : Z) : nat :=
  Z.to_nat (2 ^ Z.max 0 (align - bm.(minAlign_))).

Fixpoint reserve_loop (fuel : nat) (bm : Bitmap) (nbits align bit : Z)
    : option (option Z) :=
  match fuel with
  | O => None
  | S fuel =>
    bit ← align_up (align_fuel bm align) bm align bit;
    if u32 (bit + nbits) >? bm.(max_) then Some None
    else
      matched ← match_ bm bit nbits BlockILS;
      if matched =? nbits then Some (Some bit)
      else
        bit ← findFirstFree bm (u32 (bit + matched)) bm.(nBits_);
        reserve_loop fuel bm nbits align bit
  end.

Definition reserve (bm : Bitmap) (nbits align : Z) : option (Bitmap * reservation) :=
  if nbits =? 0 then Some (bm, LIBHPX_EINVAL)
  else
    r ← reserve_loop (S (Z.to_nat bm.(nBits_))) bm nbits align bm.(min_);
    match r with
    | None => Some (bm, oom bm nbits align)
    | Some bit =>
      let bm := if bm.(min_) =? bit then with_min bm (u32 (bit + nbits)) else bm in
      bm ← set_ bm bit nbits;
      Some (bm, LIBHPX_OK bit)
    end.

(** The inner loop of [rreserve]; [None] inside is its call of [oom]. *)
Fixpoint align_down (fuel : nat) (bm : Bitmap) (align bit : Z) : option (option Z) :=
  match fuel with
  | O => None
  | S fuel =>
    if align >? ctzl (align_val bm bit) then
      if bit =? 0 then Some None
      else align_down fuel bm align (u32 (bit - 1))
    else Some (Some bit)
  end.

Fixpoint rreserve_loop (fuel : nat) (bm : Bitmap) (nbits align bit matched : Z)
    : option (option Z) :=
  match fuel with
  | O => None
  | S fuel =>
    if negb (matched =? nbits) then
      let shift := u32 (nbits - matched) in
      if bit <? shift then Some None
      else
        r ← align_down (S (Z.to_nat bit)) bm align (u32 (bit - shift));
        match r with
        | None => Some None
        | Some bit =>
          if bit <? bm.(min_) then Some None
          else
            matched ← match_ bm bit nbits BlockIFS;
            rreserve_loop fuel bm nbits align bit matched
        end
    else Some (Some bit)
  end.

Definition rreserve (bm : Bitmap) (nbits align : Z) : option (Bitmap * reservation) :=
  if nbits =? 0 then Some (bm, LIBHPX_EINVAL)
  else
    r ← rreserve_loop (S (S (Z.to_nat bm.(nBits_)))) bm nbits align bm.(max_) 0;
    match r with
    | None => Some (bm, oom bm nbits align)
    | Some bit =>
      let max := u32 (bit + nbits) in
      let bm := if bm.(max_) =? max then with_max bm bit else bm in
      bm ← set_ bm bit nbits;
      Some (bm, LIBHPX_OK bit)
    end.

Definition release (bm : Bitmap) (bit nbits : Z) : option Bitmap :=
  bm ← clear_ bm bit nbits;
  let bm := if bit <? bm.(min_) then with_min bm bit else bm in
  let max := u32 (bit + nbits) in
  Some (if max >? bm.(max_) then with_max bm max else bm).

Fixpoint isSet_loop (fuel : nat) (blocks : list Z) (block nbits mask : Z) : option bool :=
  match fuel with
  | O => None
  | S fuel =>
    if nz nbits then
      b ← blocks !! Z.to_nat block;
      if nz (Z.lxor mask (Z.land mask b)) then Some true
      else
        let nbits := u32 (nbits - popcountl mask) in
        isSet_loop fuel blocks (u32 (block + 1)) nbits (CreateMask 0 nbits)
    else Some false
  end.

Definition isSet (bm : Bitmap) (bit nbits : Z) : option bool :=
  let block := bit / BLOCK_BITS in
  let offset := bit mod BLOCK_BITS in
  isSet_loop (S (length bm.(blocks_))) bm.(blocks_) block nbits (CreateMask offset nbits).

(** ** The specification

    Chunk [i] is free when its bit is 1. *)

Definition free_at (blocks : list Z) (i : Z) : bool :=
  match blocks !! Z.to_nat (i / 64) with
  | Some b => Z.testbit b (i mod 64)
  | None => false
  end.

Definition free (bm : Bitmap) (i : Z) : bool := free_at bm.(blocks_) i.

Definition all_free (bm : Bitmap) (i n : Z) : Prop :=
  forall j, i <= j < i + n -> free bm j = true.

(** An offset is aligned when the address it stands for, counted from the heap's
    base alignment, has [align] trailing zeros. *)
Definition aligned (bm : Bitmap) (align i : Z) : Prop :=
  (2 ^ align | i * 2 ^ bm.(minAlign_) + 2 ^ bm.(baseAlign_)).

(** The period of the aligned offsets. *)
Definition period (bm : Bitmap) (align : Z) : Z := 2 ^ Z.max 0 (align - bm.(minAlign_)).

Record wf (bm : Bitmap) : Prop := {
  wf_bits : 0 < nBits_ bm < 2 ^ 31;
  wf_length : Z.of_nat (length (blocks_ bm)) = ceil_div (nBits_ bm) 64;
  wf_blocks : Forall (fun b => b ∈u 64) (blocks_ bm);
  wf_range : 0 <= min_ bm /\ max_ bm <= nBits_ bm /\ min_ bm <= nBits_ bm /\ 0 <= max_ bm;
  wf_min : forall i, 0 <= i < min_ bm -> free bm i = false;
  wf_max : forall i, max_ bm <= i < nBits_ bm -> free bm i = false;
  wf_align : 0 <= minAlign_ bm <= 31 /\ minAlign_ bm <= baseAlign_ bm <= 62;
}.

Implicit Types (blocks : list Z) (bm : Bitmap).

(** ** Masks *)

Lemma UINTPTR_MAX_ones : UINTPTR_MAX = Z.ones 64.
Proof. done. Qed.

Section Masks.
Variables (o r : Z).
Hypothesis Ho : 0 <= o < 64.
Hypothesis Hr : 0 <= r.

(** The bits of a mask: [min r (64 - o)] ones from [o] on. *)
Lemma CreateMask_eq : CreateMask o r = Z.shiftl (Z.ones (Z.min r (64 - o))) o.
Proof.
  unfold CreateMask, BLOCK_BITS. rewrite UINTPTR_MAX_ones.
  apply Z.bits_inj'; intros i Hi.
  rewrite testbit_wrap, !Z.shiftl_spec by lia.
  destruct (Z.ltb_spec i o).
  { rewrite !(Z.testbit_neg_r _ (i - o)) by lia. btauto. }
  destruct (Z.ltb_spec 64 r); rewrite Z.shiftr_spec, !testbit_ones by lia;
    apply eq_true_iff_eq; rewrite !andb_true_iff, !Z.ltb_lt, !Z.leb_le; lia.
Qed.

Lemma CreateMask_bit i : Z.testbit (CreateMask o r) i = (o <=? i) && (i <? Z.min 64 (o + r)).
Proof.
  rewrite CreateMask_eq. destruct (Z.lt_ge_cases i 0).
  { rewrite Z.testbit_neg_r by lia. symmetry. apply andb_false_iff. left. lia. }
  rewrite Z.shiftl_spec, testbit_ones by lia.
  apply eq_true_iff_eq; rewrite !andb_true_iff, !Z.ltb_lt, !Z.leb_le; lia.
Qed.

Lemma CreateMask_range : CreateMask o r ∈u 64.
Proof. apply wrap_range. lia. Qed.

Lemma CreateMask_popcount : popcountl (CreateMask o r) = Z.min r (64 - o).
Proof.
  rewrite CreateMask_eq, popcountl_shiftl, popcountl_ones; [lia..| |lia].
  rewrite Z.ones_equiv. pose proof (Z.pow_pos_nonneg 2 (Z.min r (64 - o))). lia.
Qed.

Lemma CreateMask_ifs : 0 < r -> BlockIFS (CreateMask o r) = o.
Proof.
  intros Hr'. apply ctzl_unique.
  - destruct (Z.eq_dec (CreateMask o r) 0) as [He|]; [|pose proof CreateMask_range; lia].
    pose proof (CreateMask_bit o) as Hb. rewrite He, Z.testbit_0_l in Hb.
    symmetry in Hb. rewrite andb_false_iff, Z.leb_gt, Z.ltb_ge in Hb. lia.
  - rewrite CreateMask_bit. rewrite andb_true_iff, Z.leb_le, Z.ltb_lt. lia.
  - intros i Hi. rewrite CreateMask_bit. apply andb_false_iff. left. lia.
Qed.

End Masks.

Lemma UINTPTR_MAX_mask : UINTPTR_MAX = CreateMask 0 64.
Proof. done. Qed.

(** ** Blocks *)

Lemma free_at_block blocks k j b : 0 <= k -> 0 <= j < 64 ->
  blocks !! Z.to_nat k = Some b -> free_at blocks (64 * k + j) = Z.testbit b j.
Proof.
  intros Hk Hj Hb. unfold free_at.
  replace ((64 * k + j) / 64) with k by (apply (Z.div_unique_pos _ _ _ j); lia).
  replace ((64 * k + j) mod 64) with j by (apply (Z.mod_unique_pos _ _ k); lia).
  by rewrite Hb.
Qed.

Lemma block_exists blocks k : 0 <= k < Z.of_nat (length blocks) ->
  exists b, blocks !! Z.to_nat k = Some b.
Proof. intros. apply lookup_lt_is_Some. lia. Qed.

Lemma mask_mismatch mask b j :
  Z.testbit (Z.lxor mask (Z.land mask b)) j = Z.testbit mask j && negb (Z.testbit b j).
Proof.
  destruct (Z.lt_ge_cases j 0); [by rewrite !Z.testbit_neg_r by lia|].
  autorewrite with bits. btauto.
Qed.

Lemma mask_mismatch_range mask b : mask ∈u 64 -> Z.lxor mask (Z.land mask b) ∈u 64.
Proof.
  intros Hm. apply bits_bound; [lia| |].
  - replace (Z.lxor mask (Z.land mask b)) with (Z.ldiff mask b).
    { apply Z.ldiff_nonneg. lia. }
    apply Z.bits_inj'. intros. rewrite mask_mismatch. by autorewrite with bits.
  - intros i Hi. rewrite mask_mismatch, (testbit_high 64) by lia. done.
Qed.

Lemma land_mask_range mask b : mask ∈u 64 -> Z.land mask b ∈u 64.
Proof.
  intros Hm. apply bits_bound; [lia| |].
  - apply Z.land_nonneg. lia.
  - intros i Hi. autorewrite with bits. rewrite (testbit_high 64) by lia. done.
Qed.

(** The two ways to pick a bit of a mismatch. *)
Record picks (f : Z -> Z) : Prop := {
  picks_range : forall x, 0 < x < 2 ^ 64 -> 0 <= f x < 64;
  picks_bit : forall x, 0 < x < 2 ^ 64 -> Z.testbit x (f x) = true;
}.

Lemma BlockIFS_picks : picks BlockIFS.
Proof.
  split; intros; unfold BlockIFS.
  - split; [apply ctzl_nonneg|by apply ctzl_lt].
  - apply ctzl_bit. lia.
Qed.

Lemma BlockILS_log2 x : 0 < x -> BlockILS x = Z.log2 x.
Proof.
  intros. unfold BlockILS, clz, BLOCK_BITS. destruct (Z.eqb_spec x 0); lia.
Qed.

Lemma BlockILS_picks : picks BlockILS.
Proof.
  split; intros x Hx; rewrite BlockILS_log2 by lia.
  - split; [apply Z.log2_nonneg|]. apply Z.log2_lt_pow2; lia.
  - apply Z.bit_log2. lia.
Qed.

(** ** The word-at-a-time loops

    A loop is at bit [o] of block [k] with [r] bits to go; its mask is
    [CreateMask o r], and the next iteration is at bit 0 of block [k + 1]. *)

Section Loops.
Context {blocks : list Z} {k o r : Z}.
Hypothesis Hk : 0 <= k.
Hypothesis Ho : 0 <= o < 64.
Hypothesis Hr : 0 < r.
Hypothesis Hin : 64 * k + o + r <= 64 * Z.of_nat (length blocks).

Lemma loop_block : exists b, blocks !! Z.to_nat k = Some b.
Proof. apply block_exists. lia. Qed.

Lemma loop_next_range : 64 * (k + 1) + 0 + (r - Z.min r (64 - o)) <= 64 * Z.of_nat (length blocks)
  \/ r - Z.min r (64 - o) = 0.
Proof. lia. Qed.

(** No mismatch: the part of the run in this block is free. *)
Lemma mask_matches b : blocks !! Z.to_nat k = Some b ->
  Z.lxor (CreateMask o r) (Z.land (CreateMask o r) b) = 0 ->
  forall j, 64 * k + o <= j < 64 * k + o + Z.min r (64 - o) -> free_at blocks j = true.
Proof.
  intros Hb Hz j Hj. replace j with (64 * k + (j - 64 * k)) by lia.
  rewrite (free_at_block _ _ _ b) by (done || lia).
  pose proof (mask_mismatch (CreateMask o r) b (j - 64 * k)) as Hm.
  rewrite Hz, Z.testbit_0_l, CreateMask_bit in Hm by lia.
  destruct (Z.testbit b (j - 64 * k)); [done|]. symmetry in Hm.
  rewrite andb_true_r, andb_false_iff, Z.leb_gt, Z.ltb_ge in Hm. lia.
Qed.

(** A mismatching bit is a used bit of the run. *)
Lemma mask_mismatches b j : blocks !! Z.to_nat k = Some b ->
  Z.testbit (Z.lxor (CreateMask o r) (Z.land (CreateMask o r) b)) j = true ->
  o <= j < Z.min 64 (o + r) /\ free_at blocks (64 * k + j) = false.
Proof.
  intros Hb. rewrite mask_mismatch, CreateMask_bit by lia.
  rewrite !andb_true_iff, negb_true_iff, Z.leb_le, Z.ltb_lt. intros [? ?].
  split; [lia|]. rewrite (free_at_block _ _ _ b) by (done || lia). done.
Qed.

Lemma mismatch_pos b : blocks !! Z.to_nat k = Some b ->
  Z.lxor (CreateMask o r) (Z.land (CreateMask o r) b) <> 0 ->
  0 < Z.lxor (CreateMask o r) (Z.land (CreateMask o r) b) < 2 ^ 64.
Proof.
  intros Hb Hne. pose proof (mask_mismatch_range (CreateMask o r) b (CreateMask_range _ _)).
  lia.
Qed.

End Loops.

(** [match] finds a run iff it is free; otherwise it returns the offset of a used
    bit, the first one when [f] is [BlockIFS]. *)
Lemma match_loop_spec f (Hf : picks f) blocks fuel : forall k o n nbits,
  0 <= k -> 0 <= o < 64 -> 0 <= n <= nbits -> nbits < 2 ^ 31 ->
  Z.of_nat (length blocks) < 2 ^ 31 ->
  (n < nbits -> 64 * k + o + (nbits - n) <= 64 * Z.of_nat (length blocks)) ->
  (Z.of_nat (length blocks) - k < Z.of_nat fuel) -> (0 < fuel)%nat ->
  exists m, match_loop fuel blocks k n nbits (CreateMask o (nbits - n)) f = Some m
    /\ n <= m <= nbits
    /\ (m < nbits -> free_at blocks (64 * k + o + (m - n)) = false)
    /\ (m = nbits \/ f = BlockIFS ->
         forall j, 64 * k + o <= j < 64 * k + o + (m - n) -> free_at blocks j = true).
Proof.
  induction fuel as [|fuel IH]; intros k o n nbits Hk Ho Hn Hnb Hlen Hin Hfuel Hpos; [lia|].
  cbn [match_loop]. destruct (Z.ltb_spec n nbits) as [Hlt|Hge].
  2: { exists n. repeat split; try lia. }
  specialize (Hin Hlt). set (r := nbits - n) in *.
  destruct (loop_block (blocks := blocks) (k := k) (o := o) (r := r)) as [b Hb]; [lia..|].
  rewrite Hb. cbn [mbind option_bind].
  set (mm := Z.lxor (CreateMask o r) (Z.land (CreateMask o r) b)). unfold nz.
  destruct (Z.eqb_spec mm 0) as [Hz|Hne]; cbn [negb].
  - rewrite CreateMask_popcount by lia. set (c := Z.min r (64 - o)).
    rewrite !wrap_small by lia.
    destruct (IH (k + 1) 0 (n + c) nbits) as (m & Hm & Hmr & Hmu & Hmf); try lia.
    exists m. repeat split; try lia; [done| |].
    + intros Hlt'. specialize (Hmu Hlt').
      destruct (Z.eq_dec c r); [lia|].
      replace (64 * k + o + (m - n)) with (64 * (k + 1) + 0 + (m - (n + c))) by lia. done.
    + intros Hor j Hj.
      destruct (Z.lt_ge_cases j (64 * k + o + c)).
      * eapply (mask_matches (blocks := blocks) (k := k) (o := o) (r := r)); eauto; lia.
      * apply Hmf; [done|lia].
  - pose proof (mismatch_pos (blocks := blocks) (k := k) (o := o) (r := r) b Hb Hne) as Hmm.
    fold mm in Hmm.
    pose proof (picks_range f Hf mm Hmm). pose proof (picks_bit f Hf mm Hmm) as Hbit.
    destruct (mask_mismatches (blocks := blocks) (k := k) (o := o) (r := r)
      Hk Ho ltac:(lia) b (f mm) Hb Hbit) as [Hj Hused].
    rewrite CreateMask_ifs by lia. rewrite wrap_small by lia.
    exists (n + f mm - o). repeat split; try lia.
    + intros _. replace (64 * k + o + (n + f mm - o - n)) with (64 * k + f mm) by lia. done.
    + intros [?| ->] j Hj'; [lia|].
      assert (Z.testbit mm (j - 64 * k) = false) as Hlow by (apply ctzl_low; unfold BlockIFS in *; lia).
      unfold mm in Hlow. rewrite mask_mismatch, CreateMask_bit in Hlow by lia.
      replace j with (64 * k + (j - 64 * k)) by lia.
      rewrite (free_at_block _ _ _ b) by (done || lia).
      destruct (Z.testbit b (j - 64 * k)); [done|].
      rewrite andb_true_r, andb_false_iff, Z.leb_gt, Z.ltb_ge in Hlow. lia.
Qed.

Lemma findFirstFree_loop_spec blocks max fuel : forall k o,
  0 <= k -> 0 <= o < 64 -> 0 <= max <= 64 * Z.of_nat (length blocks) -> 0 < max ->
  Z.of_nat (length blocks) <= 2 ^ 25 ->
  (Z.of_nat (length blocks) - k < Z.of_nat fuel) -> (0 < fuel)%nat ->
  exists m, findFirstFree_loop fuel blocks k (64 * k + o) max (CreateMask o 64) = Some m
    /\ Z.min max (64 * k + o) <= m <= 64 * Z.of_nat (length blocks)
    /\ (m < max -> free_at blocks m = true)
    /\ (forall j, 64 * k + o <= j < Z.min m max -> free_at blocks j = false).
Proof.
  induction fuel as [|fuel IH]; intros k o Hk Ho Hmax Hmax0 Hlen Hfuel Hpos; [lia|].
  cbn [findFirstFree_loop]. destruct (Z.ltb_spec (64 * k + o) max) as [Hlt|Hge].
  2: { exists max. repeat split; lia. }
  destruct (block_exists blocks k) as [b Hb]; [lia|].
  rewrite Hb. cbn [mbind option_bind]. unfold nz.
  set (mm := Z.land (CreateMask o 64) b).
  assert (Hmmbit : forall j, 0 <= j < 64 -> Z.testbit mm j = (o <=? j) && Z.testbit b j).
  { intros j Hj. unfold mm. autorewrite with bits. rewrite CreateMask_bit by lia.
    replace (j <? Z.min 64 (o + 64)) with true by (symmetry; apply Z.ltb_lt; lia). btauto. }
  destruct (Z.eqb_spec mm 0) as [Hz|Hne]; cbn [negb].
  - rewrite CreateMask_popcount by lia. replace (Z.min 64 (64 - o)) with (64 - o) by lia.
    rewrite !wrap_small, UINTPTR_MAX_mask by lia.
    replace (64 * k + o + (64 - o)) with (64 * (k + 1) + 0) by lia.
    destruct (IH (k + 1) 0) as (m & Hm & Hmr & Hmf & Hmu); [lia..|].
    exists m. repeat split; try lia; [done..|]. intros j Hj.
    destruct (Z.lt_ge_cases j (64 * (k + 1) + 0)); [|apply Hmu; lia].
    replace j with (64 * k + (j - 64 * k)) by lia.
    rewrite (free_at_block _ _ _ b) by (done || lia).
    specialize (Hmmbit (j - 64 * k) ltac:(lia)). rewrite Hz, Z.testbit_0_l in Hmmbit.
    replace (o <=? j - 64 * k) with true in Hmmbit by (symmetry; apply Z.leb_le; lia). done.
  - assert (0 < mm < 2 ^ 64) as Hmm.
    { pose proof (land_mask_range (CreateMask o 64) b (CreateMask_range _ _)).
      unfold mm in *. lia. }
    pose proof (picks_range _ BlockIFS_picks mm Hmm) as Hrg.
    pose proof (picks_bit _ BlockIFS_picks mm Hmm) as Hbit.
    rewrite Hmmbit, andb_true_iff, Z.leb_le in Hbit by lia.
    rewrite CreateMask_ifs by lia. rewrite wrap_small by lia.
    exists (64 * k + o + BlockIFS mm - o). repeat split; try lia.
    + intros _. replace (64 * k + o + BlockIFS mm - o) with (64 * k + BlockIFS mm) by lia.
      rewrite (free_at_block _ _ _ b) by (done || lia). tauto.
    + intros j Hj. replace j with (64 * k + (j - 64 * k)) by lia.
      rewrite (free_at_block _ _ _ b) by (done || lia).
      assert (Z.testbit mm (j - 64 * k) = false) as Hlow
        by (apply ctzl_low; unfold BlockIFS in *; lia).
      rewrite Hmmbit in Hlow by lia.
      replace (o <=? j - 64 * k) with true in Hlow by (symmetry; apply Z.leb_le; lia). done.
Qed.

Lemma isSet_loop_spec blocks fuel : forall k o r,
  0 <= k -> 0 <= o < 64 -> 0 <= r < 2 ^ 31 -> Z.of_nat (length blocks) < 2 ^ 31 ->
  (0 < r -> 64 * k + o + r <= 64 * Z.of_nat (length blocks)) ->
  (Z.of_nat (length blocks) - k < Z.of_nat fuel) -> (0 < fuel)%nat ->
  exists v, isSet_loop fuel blocks k r (CreateMask o r) = Some v
    /\ (v = false <-> forall j, 64 * k + o <= j < 64 * k + o + r -> free_at blocks j = true).
Proof.
  induction fuel as [|fuel IH]; intros k o r Hk Ho Hr Hlen Hin Hfuel Hpos; [lia|].
  cbn [isSet_loop]. unfold nz at 1. destruct (Z.eqb_spec r 0) as [->|Hne]; cbn [negb].
  { exists false. split; [done|]. split; [|done]. intros. lia. }
  specialize (Hin ltac:(lia)).
  destruct (loop_block (blocks := blocks) (k := k) (o := o) (r := r)) as [b Hb]; [lia..|].
  rewrite Hb. cbn [mbind option_bind]. unfold nz.
  set (mm := Z.lxor (CreateMask o r) (Z.land (CreateMask o r) b)).
  destruct (Z.eqb_spec mm 0) as [Hz|Hmne]; cbn [negb].
  - rewrite CreateMask_popcount by lia. set (c := Z.min r (64 - o)).
    rewrite !wrap_small by lia.
    destruct (IH (k + 1) 0 (r - c)) as (v & Hv & Hiff); try lia.
    exists v. split; [done|]. rewrite Hiff. split; intros H j Hj.
    + destruct (Z.lt_ge_cases j (64 * k + o + c)); [|apply H; lia].
      eapply (mask_matches (blocks := blocks) (k := k) (o := o) (r := r)); eauto; lia.
    + apply H. lia.
  - exists true. split; [done|]. split; [done|]. intros H. exfalso.
    pose proof (mismatch_pos (blocks := blocks) (k := k) (o := o) (r := r) b Hb Hmne) as Hmm.
    pose proof (picks_bit _ BlockIFS_picks _ Hmm) as Hbit.
    destruct (mask_mismatches (blocks := blocks) (k := k) (o := o) (r := r)
      Hk Ho ltac:(lia) b _ Hb Hbit) as [Hj Hused].
    rewrite H in Hused by lia. done.
Qed.

(** [set] and [clear] share the shape of their loops. *)
Fixpoint update_loop (g : Z -> Z -> Z) (fuel : nat) (blocks : list Z) (block nbits mask : Z)
    : option (list Z) :=
  match fuel with
  | O => None
  | S fuel =>
    if nbits >? 0 then
      b ← blocks !! Z.to_nat block;
      let blocks := <[Z.to_nat block := g mask b]> blocks in
      let nbits := u32 (nbits - popcountl mask) in
      update_loop g fuel blocks (u32 (block + 1)) nbits (CreateMask 0 nbits)
    else Some blocks
  end.

Lemma set_loop_update fuel : forall blocks block nbits mask,
  set_loop fuel blocks block nbits mask
  = update_loop (fun m b => Z.land b (Z.lxor m UINTPTR_MAX)) fuel blocks block nbits mask.
Proof.
  induction fuel as [|fuel IH]; intros; [done|]. cbn [set_loop update_loop].
  destruct (nbits >? 0); [|done]. destruct (blocks !! _); [|done]. apply IH.
Qed.

Lemma clear_loop_update fuel : forall blocks block nbits mask,
  clear_loop fuel blocks block nbits mask
  = update_loop (fun m b => Z.lor b m) fuel blocks block nbits mask.
Proof.
  induction fuel as [|fuel IH]; intros; [done|]. cbn [clear_loop update_loop].
  destruct (nbits >? 0); [|done]. destruct (blocks !! _); [|done]. apply IH.
Qed.

Section UpdateLoop.
Variables (g : Z -> Z -> Z) (v : bool).
Hypothesis g_bit : forall m b j, 0 <= j < 64 ->
  Z.testbit (g m b) j = if Z.testbit m j then v else Z.testbit b j.
Hypothesis g_range : forall m b, m ∈u 64 -> b ∈u 64 -> g m b ∈u 64.

Lemma update_block blocks k b mask i : 0 <= k -> 0 <= i ->
  blocks !! Z.to_nat k = Some b ->
  free_at (<[Z.to_nat k := g mask b]> blocks) i
  = if (i / 64 =? k) && Z.testbit mask (i mod 64) then v else free_at blocks i.
Proof.
  intros Hk Hi Hb. unfold free_at.
  pose proof (Z.div_pos i 64 Hi ltac:(lia)).
  destruct (Z.eqb_spec (i / 64) k) as [<-|Hne]; cbn [andb].
  - rewrite list_lookup_insert_eq by (by eapply lookup_lt_Some).
    rewrite Hb, g_bit by (apply Z.mod_pos_bound; lia). done.
  - rewrite list_lookup_insert_ne by lia. done.
Qed.

Lemma update_loop_spec fuel : forall blocks k o r,
  0 <= k -> 0 <= o < 64 -> 0 <= r < 2 ^ 31 -> Z.of_nat (length blocks) < 2 ^ 31 ->
  Forall (fun b => b ∈u 64) blocks ->
  (0 < r -> 64 * k + o + r <= 64 * Z.of_nat (length blocks)) ->
  (Z.of_nat (length blocks) - k < Z.of_nat fuel) -> (0 < fuel)%nat ->
  exists bs, update_loop g fuel blocks k r (CreateMask o r) = Some bs
    /\ length bs = length blocks /\ Forall (fun b => b ∈u 64) bs
    /\ (forall i, 0 <= i -> free_at bs i
         = if (64 * k + o <=? i) && (i <? 64 * k + o + r) then v else free_at blocks i).
Proof.
  induction fuel as [|fuel IH]; intros blocks k o r Hk Ho Hr Hlen Hwf Hin Hfuel Hpos; [lia|].
  cbn [update_loop]. destruct (Z.gtb_spec r 0) as [Hgt|Hle].
  2: { exists blocks. repeat split; [done..|]. intros i Hi.
       destruct (Z.leb_spec (64 * k + o) i), (Z.ltb_spec i (64 * k + o + r)); done || lia. }
  specialize (Hin ltac:(lia)).
  destruct (loop_block (blocks := blocks) (k := k) (o := o) (r := r)) as [b Hb]; [lia..|].
  rewrite Hb. cbn [mbind option_bind].
  rewrite CreateMask_popcount by lia. set (c := Z.min r (64 - o)).
  rewrite !wrap_small by lia.
  set (blocks1 := <[Z.to_nat k := g (CreateMask o r) b]> blocks).
  assert (length blocks1 = length blocks) as Hl1 by apply length_insert.
  destruct (IH blocks1 (k + 1) 0 (r - c)) as (bs & Hbs & Hlen' & Hwf' & Hfree); try lia.
  { apply Forall_insert; [done|]. apply g_range; [apply CreateMask_range|].
    by eapply (Forall_lookup_1 _ _ _ _ Hwf). }
  exists bs. repeat split; [done|lia|done|]. intros i Hi. rewrite Hfree by lia.
  unfold blocks1. rewrite update_block, CreateMask_bit by (done || lia).
  pose proof (Z.div_mod i 64 ltac:(lia)). pose proof (Z.mod_pos_bound i 64 ltac:(lia)).
  destruct (Z.leb_spec (64 * (k + 1) + 0) i), (Z.ltb_spec i (64 * (k + 1) + 0 + (r - c))),
    (Z.leb_spec (64 * k + o) i), (Z.ltb_spec i (64 * k + o + r)),
    (Z.eqb_spec (i / 64) k), (Z.leb_spec o (i mod 64)),
    (Z.ltb_spec (i mod 64) (Z.min 64 (o + r))); cbn [andb]; done || lia.
Qed.

End UpdateLoop.

(** ** The private operations on a well-formed bitmap *)

Section WellFormed.
Context {bm : Bitmap} (Hwf : wf bm).

Lemma wf_cover : nBits_ bm <= 64 * Z.of_nat (length (blocks_ bm)) < nBits_ bm + 64.
Proof.
  rewrite (wf_length _ Hwf). pose proof (wf_bits _ Hwf).
  pose proof (ceil_div_spec (nBits_ bm) 64). lia.
Qed.

Lemma wf_split bit : 0 <= bit ->
  0 <= bit / 64 /\ 0 <= bit mod 64 < 64 /\ 64 * (bit / 64) + bit mod 64 = bit.
Proof.
  intros. pose proof (Z.div_mod bit 64 ltac:(lia)).
  pose proof (Z.mod_pos_bound bit 64 ltac:(lia)). pose proof (Z.div_pos bit 64). lia.
Qed.

Lemma match_spec f bit nbits : picks f -> 0 <= bit -> 0 < nbits -> bit + nbits <= nBits_ bm ->
  exists m, match_ bm bit nbits f = Some m /\ 0 <= m <= nbits
    /\ (m < nbits -> free bm (bit + m) = false)
    /\ (m = nbits \/ f = BlockIFS -> all_free bm bit m).
Proof.
  intros Hf Hb Hn Hin. pose proof wf_cover. pose proof (wf_bits _ Hwf).
  destruct (wf_split bit Hb) as (? & ? & Heq).
  destruct (match_loop_spec f Hf (blocks_ bm) (S (length (blocks_ bm)))
    (bit / 64) (bit mod 64) 0 nbits) as (m & Hm & Hr & Hu & Hfr); [lia..|].
  rewrite Z.sub_0_r in Hm. exists m. split; [done|]. split; [lia|].
  rewrite Heq, Z.sub_0_r in Hu, Hfr. split; [done|]. exact Hfr.
Qed.

Lemma findFirstFree_spec bit : 0 <= bit < nBits_ bm ->
  exists m, findFirstFree bm bit (nBits_ bm) = Some m
    /\ bit <= m < nBits_ bm + 64
    /\ (m < nBits_ bm -> free bm m = true)
    /\ (forall j, bit <= j < m -> j < nBits_ bm -> free bm j = false).
Proof.
  intros Hb. pose proof wf_cover. pose proof (wf_bits _ Hwf).
  destruct (wf_split bit ltac:(lia)) as (? & ? & Heq).
  destruct (findFirstFree_loop_spec (blocks_ bm) (nBits_ bm) (S (length (blocks_ bm)))
    (bit / 64) (bit mod 64)) as (m & Hm & Hr & Hf & Hu); [lia..|].
  rewrite Heq in Hm, Hr, Hu. exists m. split; [done|]. split; [lia|]. split; [done|].
  intros j Hj Hj'. apply Hu. lia.
Qed.

Lemma isSet_spec bit nbits : 0 <= bit -> 0 <= nbits -> bit + nbits <= nBits_ bm ->
  exists v, isSet bm bit nbits = Some v /\ (v = false <-> all_free bm bit nbits).
Proof.
  intros Hb Hn Hin. pose proof wf_cover. pose proof (wf_bits _ Hwf).
  destruct (wf_split bit Hb) as (? & ? & Heq).
  destruct (isSet_loop_spec (blocks_ bm) (S (length (blocks_ bm)))
    (bit / 64) (bit mod 64) nbits) as (v & Hv & Hiff); [lia..|].
  rewrite Heq in Hiff. exists v. done.
Qed.

(** A used first bit is found whatever the length of the run. *)
Lemma isSet_used bit nbits : 0 <= bit < nBits_ bm -> 0 < nbits -> free bm bit = false -> isSet bm bit nbits = Some true.
Proof.
  intros Hb Hn Hf. unfold isSet, BLOCK_BITS. cbn [isSet_loop]. unfold nz at 1. destruct (Z.eqb_spec nbits 0); [lia|]. cbn [negb].
  unfold free, free_at in Hf. pose proof wf_cover. destruct (wf_split bit ltac:(lia)) as (H1 & H2 & H3).
  destruct (lookup_lt_is_Some_2 (blocks_ bm) (Z.to_nat (bit / 64)) ltac:(lia)) as [b Hbk]. rewrite Hbk in Hf |- *. cbn [mbind option_bind].
  set (m := CreateMask (bit mod 64) nbits). assert (Hm : Z.testbit m (bit mod 64) = true).
  { unfold m. rewrite CreateMask_bit by lia. destruct (Z.leb_spec (bit mod 64) (bit mod 64)); [|lia]. cbn [andb]. apply Z.ltb_lt. lia. }
  unfold nz. destruct (Z.eqb_spec (Z.lxor m (Z.land m b)) 0) as [E|E]; [|done].
  apply (f_equal (fun x => Z.testbit x (bit mod 64))) in E. rewrite Z.lxor_spec, Z.land_spec, Hm, Hf in E. by rewrite Z.testbit_0_l in E.
Qed.

(** Updating a run leaves everything but the freedom of its bits. *)
Definition same_shape (bm bm' : Bitmap) : Prop :=
  minAlign_ bm' = minAlign_ bm /\ baseAlign_ bm' = baseAlign_ bm /\ nBits_ bm' = nBits_ bm
  /\ nBlocks_ bm' = nBlocks_ bm /\ min_ bm' = min_ bm /\ max_ bm' = max_ bm
  /\ length (blocks_ bm') = length (blocks_ bm)
  /\ Forall (fun b => b ∈u 64) (blocks_ bm').

Lemma lnot_bit m j : 0 <= j < 64 -> Z.testbit (Z.lxor m UINTPTR_MAX) j = negb (Z.testbit m j).
Proof.
  intros. autorewrite with bits. rewrite UINTPTR_MAX_ones, Z.ones_spec_low by lia.
  by rewrite xorb_true_r.
Qed.

Lemma set_spec bit nbits : 0 <= bit -> 0 < nbits -> bit + nbits <= nBits_ bm ->
  exists bm', set_ bm bit nbits = Some bm' /\ same_shape bm bm'
    /\ forall j, 0 <= j ->
         free bm' j = if (bit <=? j) && (j <? bit + nbits) then false else free bm j.
Proof.
  intros Hb Hn Hin. pose proof wf_cover. pose proof (wf_bits _ Hwf).
  destruct (wf_split bit Hb) as (? & ? & Heq).
  destruct (update_loop_spec (fun m b => Z.land b (Z.lxor m UINTPTR_MAX)) false) with
    (fuel := S (length (blocks_ bm))) (blocks := blocks_ bm) (k := bit / 64)
    (o := bit mod 64) (r := nbits) as (bs & Hbs & Hlen & Hbwf & Hfree);
    try (apply wf_blocks; done); try lia.
  { intros m b j Hj. rewrite Z.land_spec, lnot_bit by lia.
    destruct (Z.testbit m j), (Z.testbit b j); done. }
  { intros m b Hm Hb'. by apply land_mask_range. }
  exists (with_blocks bm bs). unfold set_, BLOCK_BITS. rewrite set_loop_update, Hbs.
  split; [done|]. split; [done|]. intros j Hj. unfold free; simpl. by rewrite Hfree, Heq.
Qed.

Lemma clear_spec bit nbits : 0 <= bit -> 0 < nbits -> bit + nbits <= nBits_ bm ->
  exists bm', clear_ bm bit nbits = Some bm' /\ same_shape bm bm'
    /\ forall j, 0 <= j ->
         free bm' j = if (bit <=? j) && (j <? bit + nbits) then true else free bm j.
Proof.
  intros Hb Hn Hin. pose proof wf_cover. pose proof (wf_bits _ Hwf).
  destruct (wf_split bit Hb) as (? & ? & Heq).
  destruct (update_loop_spec (fun m b => Z.lor b m) true) with
    (fuel := S (length (blocks_ bm))) (blocks := blocks_ bm) (k := bit / 64)
    (o := bit mod 64) (r := nbits) as (bs & Hbs & Hlen & Hbwf & Hfree);
    try (apply wf_blocks; done); try lia.
  { intros m b j Hj. rewrite Z.lor_spec. destruct (Z.testbit m j), (Z.testbit b j); done. }
  { intros m b Hm Hb'. apply bits_bound; [lia|apply Z.lor_nonneg; lia|].
    intros i Hi. autorewrite with bits. rewrite !(testbit_high 64) by lia. done. }
  exists (with_blocks bm bs). unfold clear_, BLOCK_BITS. rewrite clear_loop_update, Hbs.
  split; [done|]. split; [done|]. intros j Hj. unfold free; simpl. by rewrite Hfree, Heq.
Qed.

(** ** Alignment *)

Lemma align_val_eq bit : 0 <= bit < 2 ^ 32 ->
  align_val bm bit = bit * 2 ^ minAlign_ bm + 2 ^ baseAlign_ bm
  /\ 0 < bit * 2 ^ minAlign_ bm + 2 ^ baseAlign_ bm.
Proof.
  intros Hb. destruct (wf_align _ Hwf) as [Hm Hba]. unfold align_val.
  rewrite !Z.shiftl_1_l.
  assert (2 ^ minAlign_ bm <= 2 ^ 31) by (apply Z.pow_le_mono_r; lia).
  assert (2 ^ baseAlign_ bm <= 2 ^ 62) by (apply Z.pow_le_mono_r; lia).
  assert (0 < 2 ^ minAlign_ bm) by lia. assert (0 < 2 ^ baseAlign_ bm) by lia.
  rewrite !(wrap_small _ (2 ^ _)) by lia.
  rewrite wrap_small; [split; [done|]; nia|]. split; [nia|].
  assert (bit * 2 ^ minAlign_ bm <= (2 ^ 32 - 1) * 2 ^ 31) by nia. lia.
Qed.

Lemma align_test align bit : 0 <= align -> 0 <= bit < 2 ^ 32 ->
  (align >? ctzl (align_val bm bit)) = false <-> aligned bm align bit.
Proof.
  intros Ha Hb. destruct (align_val_eq bit Hb) as [-> Hpos]. unfold aligned.
  rewrite <- ctzl_divide by done. rewrite Z.gtb_ltb, Z.ltb_ge. done.
Qed.

Lemma period_pos align : 0 < period bm align.
Proof. apply Z.pow_pos_nonneg; lia. Qed.

(** Every window of one period holds an aligned offset. *)
Lemma aligned_within align bit : 0 <= align -> 0 <= bit ->
  exists d, 0 <= d < period bm align /\ aligned bm align (bit + d).
Proof.
  intros Ha Hb. destruct (wf_align _ Hwf) as [Hm Hba]. unfold period, aligned.
  replace (2 ^ baseAlign_ bm) with (2 ^ (baseAlign_ bm - minAlign_ bm) * 2 ^ minAlign_ bm)
    by (rewrite <- Z.pow_add_r by lia; f_equal; lia).
  set (b := 2 ^ (baseAlign_ bm - minAlign_ bm)). set (M := 2 ^ minAlign_ bm).
  destruct (Z.le_gt_cases align (minAlign_ bm)).
  - exists 0. replace (Z.max 0 _) with 0 by lia. split; [lia|].
    rewrite <- Z.mul_add_distr_r. apply Z.divide_mul_r. exists (2 ^ (minAlign_ bm - align)).
    unfold M. rewrite <- Z.pow_add_r by lia. f_equal. lia.
  - replace (Z.max 0 _) with (align - minAlign_ bm) by lia.
    set (P := 2 ^ (align - minAlign_ bm)). assert (0 < P) by (apply Z.pow_pos_nonneg; lia).
    exists ((- (bit + b)) mod P). split; [apply Z.mod_pos_bound; lia|].
    rewrite <- Z.mul_add_distr_r.
    replace (2 ^ align) with (P * M) by (unfold P, M; rewrite <- Z.pow_add_r by lia; f_equal; lia).
    apply Z.mul_divide_mono_r. apply Z.mod_divide; [lia|].
    replace (bit + _ + b) with (bit + b + (- (bit + b)) mod P) by lia.
    rewrite Zplus_mod_idemp_r, Z.add_opp_diag_r. done.
Qed.

Lemma align_up_spec align fuel : forall bit d, 0 <= align -> 0 <= bit ->
  bit + Z.of_nat fuel <= 2 ^ 32 -> 0 <= d < Z.of_nat fuel -> aligned bm align (bit + d) ->
  exists b, align_up fuel bm align bit = Some b /\ bit <= b < bit + Z.of_nat fuel
    /\ aligned bm align b /\ forall j, bit <= j < b -> ~ aligned bm align j.
Proof.
  induction fuel as [|fuel IH]; intros bit d Ha Hb Hw Hd Hal; [lia|]. cbn [align_up].
  destruct (align >? ctzl (align_val bm bit)) eqn:E.
  - assert (Hna : ~ aligned bm align bit).
    { rewrite <- align_test by lia. congruence. }
    assert (d <> 0) by (intros ->; rewrite Z.add_0_r in Hal; done).
    rewrite wrap_small by lia.
    destruct (IH (bit + 1) (d - 1)) as (b & Hb' & Hr & Hal' & Hfirst); [lia..| |].
    { replace (bit + 1 + (d - 1)) with (bit + d) by lia. done. }
    exists b. repeat split; [done|lia|lia|done|]. intros j Hj.
    destruct (Z.eq_dec j bit) as [->|]; [done|]. apply Hfirst. lia.
  - apply align_test in E; [|lia..]. exists bit. repeat split; [lia..|done|]. intros. lia.
Qed.

Lemma align_down_spec align fuel : forall bit, 0 <= align -> 0 <= bit < 2 ^ 32 ->
  bit < Z.of_nat fuel ->
  exists r, align_down fuel bm align bit = Some r /\
    match r with
    | None => forall j, 0 <= j <= bit -> ~ aligned bm align j
    | Some b => 0 <= b <= bit /\ aligned bm align b
        /\ forall j, b < j <= bit -> ~ aligned bm align j
    end.
Proof.
  induction fuel as [|fuel IH]; intros bit Ha Hb Hf; [lia|]. cbn [align_down].
  destruct (align >? ctzl (align_val bm bit)) eqn:E.
  - assert (Hna : ~ aligned bm align bit).
    { rewrite <- align_test by lia. congruence. }
    destruct (Z.eqb_spec bit 0) as [->|Hne].
    { exists None. split; [done|]. intros j Hj. replace j with 0 by lia. done. }
    rewrite wrap_small by lia.
    destruct (IH (bit - 1)) as (r & Hr & Hspec); [lia..|]. exists r. split; [done|].
    destruct r as [b|].
    + destruct Hspec as (? & ? & Hlast). repeat split; [lia..|done|]. intros j Hj.
      destruct (Z.eq_dec j bit) as [->|]; [done|]. apply Hlast. lia.
    + intros j Hj. destruct (Z.eq_dec j bit) as [->|]; [done|]. apply Hspec. lia.
  - apply align_test in E; [|lia..]. exists (Some bit). repeat split; [lia..|done|].
    intros. lia.
Qed.

(** ** The searches *)

Lemma not_all_free i n j : free bm j = false -> i <= j < i + n -> ~ all_free bm i n.
Proof. intros Hf Hj Hall. rewrite Hall in Hf by done. done. Qed.

(** No aligned run of [n] free chunks starts at [i]. *)
Definition no_fit (align n i : Z) : Prop := aligned bm align i -> ~ all_free bm i n.

Lemma beyond_max align n i : 0 < n -> max_ bm < i + n -> i + n <= nBits_ bm -> no_fit align n i.
Proof.
  intros Hn Hi Hin _. apply (not_all_free _ _ (i + n - 1)); [|lia].
  apply (wf_max _ Hwf). lia.
Qed.

Lemma below_min align n i : 0 < n -> 0 <= i < min_ bm -> no_fit align n i.
Proof.
  intros Hn Hi _. apply (not_all_free _ _ i); [|lia]. by apply (wf_min _ Hwf).
Qed.

Variables (nbits align : Z).
Hypothesis Hn : 0 < nbits.
Hypothesis Ha : 0 <= align.
Hypothesis Hw : nbits + nBits_ bm + period bm align + 64 <= 2 ^ 32.

Lemma reserve_loop_spec fuel : forall bit, 0 <= bit < nBits_ bm + 64 ->
  (forall j, 0 <= j < bit -> j + nbits <= nBits_ bm -> no_fit align nbits j) ->
  nBits_ bm - bit < Z.of_nat fuel -> (0 < fuel)%nat ->
  exists r, reserve_loop fuel bm nbits align bit = Some r /\
    match r with
    | None => forall j, 0 <= j -> j + nbits <= nBits_ bm -> no_fit align nbits j
    | Some i => 0 <= i /\ i + nbits <= max_ bm /\ aligned bm align i /\ all_free bm i nbits
        /\ forall j, 0 <= j < i -> no_fit align nbits j
    end.
Proof.
  pose proof (wf_range _ Hwf) as (? & ? & ? & ?).
  induction fuel as [|fuel IH]; intros bit Hb Hbelow Hf Hpos; [lia|]. cbn [reserve_loop].
  pose proof (period_pos align) as HP.
  assert (Z.of_nat (align_fuel bm align) = period bm align) as Hfuel.
  { unfold align_fuel. rewrite Z2Nat.id; [done|]. unfold period in HP. lia. }
  destruct (aligned_within align bit Ha ltac:(lia)) as (d & Hd & Hald).
  destruct (align_up_spec align (align_fuel bm align) bit d) as (b & Hbe & Hbr & Hal & Hfirst);
    [lia..|done|].
  rewrite Hbe. cbn [mbind option_bind].
  assert (Hbelow' : forall j, 0 <= j < b -> j + nbits <= nBits_ bm -> no_fit align nbits j).
  { intros j Hj Hin. destruct (Z.lt_ge_cases j bit); [apply Hbelow; lia|].
    intros Hja. exfalso. apply (Hfirst j); [lia|done]. }
  rewrite wrap_small by lia.
  destruct (Z.gtb_spec (b + nbits) (max_ bm)) as [Hgt|Hle].
  { exists None. split; [done|]. intros j Hj Hin.
    destruct (Z.lt_ge_cases j b); [apply Hbelow'; lia|apply beyond_max; lia]. }
  destruct (match_spec BlockILS b nbits BlockILS_picks) as (m & Hm & Hmr & Hmu & Hmf); [lia..|].
  rewrite Hm. cbn [mbind option_bind].
  destruct (Z.eqb_spec m nbits) as [->|Hne].
  { exists (Some b). split; [done|]. repeat split; [lia..|done|apply Hmf; by left|].
    intros j Hj. apply Hbelow'; lia. }
  specialize (Hmu ltac:(lia)). rewrite wrap_small by lia.
  destruct (findFirstFree_spec (b + m)) as (x & Hx & Hxr & Hxf & Hxu); [lia|].
  rewrite Hx. cbn [mbind option_bind].
  assert (x <> b + m) by (intros ->; rewrite Hxf in Hmu by lia; done).
  apply IH; [lia| |lia..].
  intros j Hj Hin. destruct (Z.lt_ge_cases j b); [apply Hbelow'; lia|]. intros _.
  destruct (Z.le_gt_cases j (b + m)).
  - apply (not_all_free _ _ (b + m)); [done|lia].
  - apply (not_all_free _ _ j); [|lia]. apply Hxu; lia.
Qed.

Lemma rreserve_loop_spec fuel : forall bit matched, 0 <= bit <= nBits_ bm ->
  0 <= matched <= nbits -> bit + matched <= max_ bm ->
  (matched = nbits -> aligned bm align bit /\ all_free bm bit nbits) ->
  (forall j, bit - (nbits - matched) < j -> 0 <= j -> j + nbits <= nBits_ bm ->
     j <> bit \/ matched <> nbits -> no_fit align nbits j) ->
  bit < Z.of_nat fuel - 1 ->
  exists r, rreserve_loop fuel bm nbits align bit matched = Some r /\
    match r with
    | None => forall j, 0 <= j -> j + nbits <= nBits_ bm -> no_fit align nbits j
    | Some i => 0 <= i /\ i + nbits <= max_ bm /\ aligned bm align i /\ all_free bm i nbits
        /\ forall j, i < j -> j + nbits <= nBits_ bm -> no_fit align nbits j
    end.
Proof.
  pose proof (wf_range _ Hwf) as (? & ? & ? & ?).
  pose proof (wf_bits _ Hwf). pose proof (period_pos align).
  induction fuel as [|fuel IH]; intros bit matched Hb Hm Hmax Hdone Habove Hf; [lia|].
  cbn [rreserve_loop]. destruct (Z.eqb_spec matched nbits) as [->|Hne]; cbn [negb].
  { exists (Some bit). split; [done|]. destruct Hdone as [? ?]; [done|].
    repeat split; [lia..|done|done|]. intros j Hj Hin. apply Habove; lia. }
  rewrite (wrap_small _ (nbits - matched)) by lia.
  destruct (Z.ltb_spec bit (nbits - matched)) as [Hlt|Hge].
  { exists None. split; [done|]. intros j Hj Hin. apply Habove; lia. }
  destruct (align_down_spec align (S (Z.to_nat bit)) (bit - (nbits - matched)))
    as (r & Hr & Hspec); [lia..|].
  rewrite (wrap_small _ (bit - _)) by lia. rewrite Hr. cbn [mbind option_bind].
  destruct r as [b|].
  2: { exists None. split; [done|]. intros j Hj Hin.
       destruct (Z.lt_ge_cases (bit - (nbits - matched)) j); [apply Habove; lia|].
       intros Hja. exfalso. apply (Hspec j); [lia|done]. }
  destruct Hspec as (Hbr & Hbal & Hlast).
  assert (Habove' : forall j, b < j -> j + nbits <= nBits_ bm -> no_fit align nbits j).
  { intros j Hj Hin. destruct (Z.lt_ge_cases (bit - (nbits - matched)) j); [apply Habove; lia|].
    intros Hja. exfalso. apply (Hlast j); [lia|done]. }
  destruct (Z.ltb_spec b (min_ bm)) as [Hlt|Hge'].
  { exists None. split; [done|]. intros j Hj Hin.
    destruct (Z.lt_ge_cases b j); [apply Habove'; lia|apply below_min; lia]. }
  destruct (match_spec BlockIFS b nbits BlockIFS_picks) as (m & Hm' & Hmr & Hmu & Hmf); [lia..|].
  rewrite Hm'. cbn [mbind option_bind].
  apply IH; [lia..| | |lia].
  - intros ->. split; [done|]. apply Hmf. by left.
  - intros j Hj Hj0 Hin Hor. destruct (Z.lt_ge_cases b j); [apply Habove'; lia|].
    intros _. destruct (Z.eq_dec m nbits) as [->|]; [lia|].
    apply (not_all_free _ _ (b + m)); [apply Hmu; lia|lia].
Qed.

End WellFormed.

(** ** What the allocator promises *)

(** The run of [n] chunks at [i] answers a request. *)
Definition fits (bm : Bitmap) (align n i : Z) : Prop :=
  0 <= i /\ i + n <= nBits_ bm /\ aligned bm align i /\ all_free bm i n.

(** [bm'] is [bm] with exactly the chunks of the run given freedom [v]. *)
Definition updates (bm bm' : Bitmap) (i n : Z) (v : bool) : Prop :=
  nBits_ bm' = nBits_ bm /\ minAlign_ bm' = minAlign_ bm /\ baseAlign_ bm' = baseAlign_ bm
  /\ forall j, 0 <= j -> free bm' j = if (i <=? j) && (j <? i + n) then v else free bm j.

(** A request whose search arithmetic stays inside 32 bits. *)
Definition request_ok (bm : Bitmap) (n align : Z) : Prop :=
  0 < n /\ 0 <= align /\ n + nBits_ bm + period bm align + 64 <= 2 ^ 32.

Lemma wf_update bm bm1 bm' i n v mn mx : wf bm -> same_shape bm bm1 ->
  (forall j, 0 <= j -> free bm1 j = if (i <=? j) && (j <? i + n) then v else free bm j) ->
  bm' = with_max (with_min bm1 mn) mx ->
  0 <= mn <= nBits_ bm -> 0 <= mx <= nBits_ bm ->
  (forall j, 0 <= j < mn -> free bm1 j = false) ->
  (forall j, mx <= j < nBits_ bm -> free bm1 j = false) ->
  wf bm' /\ updates bm bm' i n v.
Proof.
  intros Hwf (H1 & H2 & H3 & H4 & H5 & H6 & H7 & H8) Hfree -> Hmn Hmx Hlo Hhi. split.
  - split; simpl.
    + rewrite H3. apply (wf_bits _ Hwf).
    + rewrite H7, H3. apply (wf_length _ Hwf).
    + done.
    + lia.
    + exact Hlo.
    + rewrite H3. exact Hhi.
    + rewrite H1, H2. apply (wf_align _ Hwf).
  - repeat split; done.
Qed.

Lemma with_min_max bm : with_max (with_min bm (min_ bm)) (max_ bm) = bm.
Proof. by destruct bm. Qed.

Lemma same_shape_min bm m bs : with_min (with_blocks bm bs) m = with_blocks (with_min bm m) bs.
Proof. done. Qed.

(** [set] on the searched run, in the shape the two reservations share: their bound
    is moved first, and [set] does not look at it. *)
Lemma take_run bm i n mn mx : wf bm -> 0 < n -> 0 <= i -> i + n <= nBits_ bm ->
  0 <= mn <= nBits_ bm -> 0 <= mx <= nBits_ bm ->
  (forall j, 0 <= j < mn -> j < min_ bm \/ i <= j < i + n) ->
  (forall j, mx <= j < nBits_ bm -> max_ bm <= j \/ i <= j < i + n) ->
  exists bm', set_ (with_max (with_min bm mn) mx) i n = Some bm' /\ wf bm' /\ updates bm bm' i n false.
Proof.
  intros Hwf Hn Hi Hin Hmn Hmx Hlo Hhi.
  destruct (set_spec Hwf i n) as (bm1 & Hset & Hshape & Hfree); [done..|].
  exists (with_max (with_min bm1 mn) mx). split.
  { unfold set_ in *; cbn [blocks_ with_max with_min]. apply fmap_Some in Hset as (bs & Hbs & ->). by rewrite Hbs. }
  assert (Hused : forall j, 0 <= j -> free bm j = false \/ i <= j < i + n -> free bm1 j = false).
  { intros j Hj Hor. rewrite Hfree by done.
    destruct (Z.leb_spec i j), (Z.ltb_spec j (i + n)); simpl; try done;
      destruct Hor; done || lia. }
  eapply wf_update; [done..| |]; intros j Hj; apply Hused; try lia.
  - destruct (Hlo j Hj); [left; apply (wf_min _ Hwf); lia|by right].
  - destruct (Hhi j Hj); [left; apply (wf_max _ Hwf); lia|by right].
Qed.

Lemma no_fit_not_fits bm align n j :
  (0 <= j -> j + n <= nBits_ bm -> no_fit (bm := bm) align n j) -> ~ fits bm align n j.
Proof. intros H (? & ? & ? & ?). by apply H. Qed.

(** ** Properties *)

Lemma new_wf_lemma n minAlign baseAlign : 0 < n < 2 ^ 31 -> 0 <= minAlign <= 31 ->
  minAlign <= baseAlign <= 62 ->
  wf (new n minAlign baseAlign) /\ forall j, 0 <= j < n -> free (new n minAlign baseAlign) j = true.
Proof.
  intros Hn Hm Hb. pose proof (ceil_div_spec n 64 ltac:(lia) ltac:(lia)).
  pose proof (ceil_div_nonneg n 64 ltac:(lia) ltac:(lia)). split.
  - split; simpl; try lia.
    + rewrite length_replicate. unfold BLOCK_BITS. lia.
    + apply Forall_replicate. unfold UINTPTR_MAX. lia.
  - intros j Hj. unfold free, free_at; simpl. unfold BLOCK_BITS.
    rewrite lookup_replicate_2.
    + rewrite UINTPTR_MAX_ones, Z.ones_spec_low; [done|]. apply Z.mod_pos_bound; lia.
    + apply Z2Nat.inj_lt; [apply Z.div_pos; lia|lia|]. apply Z.div_lt_upper_bound; lia.
Qed.

Lemma reserve_contract bm n align : wf bm -> request_ok bm n align ->
  exists bm' r, reserve bm n align = Some (bm', r) /\ wf bm' /\
    match r with
    | LIBHPX_OK i => fits bm align n i /\ (forall j, j < i -> ~ fits bm align n j)
        /\ updates bm bm' i n false
    | Aborted _ _ _ => bm' = bm /\ r = oom bm n align /\ forall j, ~ fits bm align n j
    | LIBHPX_EINVAL => False
    end.
Proof.
  intros Hwf (Hn & Ha & Hw). unfold reserve.
  pose proof (wf_range _ Hwf) as (? & ? & ? & ?). pose proof (wf_bits _ Hwf).
  pose proof (period_pos (bm := bm) align).
  destruct (Z.eqb_spec n 0); [lia|].
  destruct (reserve_loop_spec Hwf n align Hn Ha Hw (S (Z.to_nat (nBits_ bm))) (min_ bm))
    as ([i|] & Hr & Hspec); [lia| |lia..| |].
  { intros j Hj _. apply (below_min Hwf); lia. }
  - rewrite Hr. cbn [mbind option_bind].
    destruct Hspec as (Hi & Himax & Hal & Hfree & Hfirst).
    set (mn := if min_ bm =? i then i + n else min_ bm).
    assert (Hbm : (if min_ bm =? i then with_min bm (u32 (i + n)) else bm)
                  = with_max (with_min bm mn) (max_ bm)).
    { unfold mn. rewrite wrap_small by lia. destruct (min_ bm =? i); by destruct bm. }
    rewrite Hbm.
    destruct (take_run bm i n mn (max_ bm)) as (bm' & -> & Hwf' & Hup); try lia; try done.
    1,2: unfold mn; destruct (Z.eqb_spec (min_ bm) i); lia.
    exists bm', (LIBHPX_OK i). split; [done|]. split; [done|]. split; [repeat split; lia || done|].
    split; [|done]. intros j Hj. apply no_fit_not_fits. intros; apply Hfirst; lia.
  - rewrite Hr. exists bm, (oom bm n align). split; [done|]. split; [done|]. split; [done|]. split; [done|].
    intros j. apply no_fit_not_fits. apply Hspec.
Qed.

(** C1: [reserve] is first fit.  On a well-formed bitmap, for a request of at least one
    chunk that is small enough for 32-bit indices, its loops end: it returns [LIBHPX_OK i] with
    the lowest aligned run of free chunks, having marked exactly its chunks used and kept the
    bitmap well-formed, or, when and only when no aligned run of free chunks exists, the
    program ends in [oom]'s error for this request. *)
Theorem reserve_first_fit bm n align : wf bm -> request_ok bm n align ->
  exists bm' r, reserve bm n align = Some (bm', r) /\ wf bm' /\
    match r with
    | LIBHPX_OK i => fits bm align n i /\ (forall j, j < i -> ~ fits bm align n j)
        /\ updates bm bm' i n false
    | Aborted _ _ _ => bm' = bm /\ r = oom bm n align /\ forall j, ~ fits bm align n j
    | LIBHPX_EINVAL => False
    end.
Proof. apply reserve_contract. Qed.

Lemma rreserve_contract bm n align : wf bm -> request_ok bm n align ->
  exists bm' r, rreserve bm n align = Some (bm', r) /\ wf bm' /\
    match r with
    | LIBHPX_OK i => fits bm align n i /\ (forall j, i < j -> ~ fits bm align n j)
        /\ updates bm bm' i n false
    | Aborted _ _ _ => bm' = bm /\ r = oom bm n align /\ forall j, ~ fits bm align n j
    | LIBHPX_EINVAL => False
    end.
Proof.
  intros Hwf (Hn & Ha & Hw). unfold rreserve.
  pose proof (wf_range _ Hwf) as (? & ? & ? & ?). pose proof (wf_bits _ Hwf).
  pose proof (period_pos (bm := bm) align).
  destruct (Z.eqb_spec n 0); [lia|].
  destruct (rreserve_loop_spec Hwf n align Hn Ha Hw (S (S (Z.to_nat (nBits_ bm)))) (max_ bm) 0)
    as ([i|] & Hr & Hspec); [lia..| |lia| |].
  { intros j Hj Hj0 Hin _. apply (beyond_max Hwf); lia. }
  - rewrite Hr. cbn [mbind option_bind].
    destruct Hspec as (Hi & Himax & Hal & Hfree & Hlast).
    set (mx := if max_ bm =? i + n then i else max_ bm).
    assert (Hbm : (if max_ bm =? u32 (i + n) then with_max bm i else bm)
                  = with_max (with_min bm (min_ bm)) mx).
    { unfold mx. rewrite wrap_small by lia. destruct (max_ bm =? i + n); by destruct bm. }
    rewrite Hbm.
    destruct (take_run bm i n (min_ bm) mx) as (bm' & -> & Hwf' & Hup); try lia; try done.
    1,2: unfold mx; destruct (Z.eqb_spec (max_ bm) (i + n)); lia.
    exists bm', (LIBHPX_OK i). split; [done|]. split; [done|]. split; [repeat split; lia || done|].
    split; [|done]. intros j Hj. apply no_fit_not_fits. intros; apply Hlast; lia.
  - rewrite Hr. exists bm, (oom bm n align). split; [done|]. split; [done|]. split; [done|]. split; [done|].
    intros j. apply no_fit_not_fits. apply Hspec.
Qed.

(** [rreserve] is last fit: the same contract as [reserve] with the highest
    aligned free run. *)
Theorem rreserve_last_fit bm n align : wf bm -> request_ok bm n align ->
  exists bm' r, rreserve bm n align = Some (bm', r) /\ wf bm' /\
    match r with
    | LIBHPX_OK i => fits bm align n i /\ (forall j, i < j -> ~ fits bm align n j)
        /\ updates bm bm' i n false
    | Aborted _ _ _ => bm' = bm /\ r = oom bm n align /\ forall j, ~ fits bm align n j
    | LIBHPX_EINVAL => False
    end.
Proof. apply rreserve_contract. Qed.

Lemma release_spec_lemma bm bit n : wf bm -> 0 <= bit -> 0 < n -> bit + n <= nBits_ bm ->
  exists bm', release bm bit n = Some bm' /\ wf bm' /\ updates bm bm' bit n true.
Proof.
  intros Hwf Hb Hn Hin. unfold release. pose proof (wf_bits _ Hwf).
  pose proof (wf_range _ Hwf) as (? & ? & ? & ?).
  destruct (clear_spec Hwf bit n) as (bm1 & -> & Hshape & Hfree); [done..|].
  cbn [mbind option_bind]. rewrite wrap_small by lia.
  pose proof Hshape as (_ & _ & _ & _ & Hmin & Hmax & _).
  set (mn := Z.min (min_ bm) bit). set (mx := Z.max (max_ bm) (bit + n)).
  exists (with_max (with_min bm1 mn) mx). split.
  { f_equal. rewrite Hmin. unfold mn, mx.
    destruct (Z.ltb_spec bit (min_ bm)); cbn [max_ with_min]; rewrite Hmax;
      destruct (Z.gtb_spec (bit + n) (max_ bm));
      [rewrite Z.min_r, Z.max_r by lia|rewrite Z.min_r, Z.max_l by lia
      |rewrite Z.min_l, Z.max_r by lia|rewrite Z.min_l, Z.max_l by lia];
      rewrite <- ?Hmin, <- ?Hmax; by destruct bm1. }
  assert (Hkeep : forall j, 0 <= j -> ~ bit <= j < bit + n -> free bm1 j = free bm j).
  { intros j Hj Hout. rewrite Hfree by done.
    destruct (Z.leb_spec bit j), (Z.ltb_spec j (bit + n)); simpl; done || lia. }
  eapply wf_update; [done..|lia|lia| |]; intros j Hj; rewrite Hkeep by lia.
  - apply (wf_min _ Hwf). lia.
  - apply (wf_max _ Hwf). lia.
Qed.

(** [release] of a run inside the bitmap returns, makes exactly the chunks of
    the run free and keeps the bitmap well-formed. *)
Theorem release_frees bm bit n : wf bm -> 0 <= bit -> 0 < n -> bit + n <= nBits_ bm ->
  exists bm', release bm bit n = Some bm' /\ wf bm' /\ updates bm bm' bit n true.
Proof. apply release_spec_lemma. Qed.

(** Releasing a reservation restores the allocator: after a successful
    [reserve], [release] of the returned run gives back a well-formed bitmap with the
    same free chunks, whatever the bounds became. *)
Theorem reserve_release bm n align bm1 i : wf bm -> request_ok bm n align ->
  reserve bm n align = Some (bm1, LIBHPX_OK i) ->
  exists bm2, release bm1 i n = Some bm2 /\ wf bm2
    /\ forall j, 0 <= j -> free bm2 j = free bm j.
Proof.
  intros Hwf Hok Hres. pose proof (proj1 Hok) as Hn.
  destruct (reserve_contract bm n align Hwf Hok) as (bm' & r & Hres' & Hwf' & Hspec).
  rewrite Hres in Hres'. injection Hres' as <- <-.
  destruct Hspec as ((Hi & Hin & _ & Hfree) & _ & Hbits & _ & _ & Hup).
  destruct (release_spec_lemma bm1 i n) as (bm2 & Hrel & Hwf2 & _ & _ & _ & Hup2);
    [done..|lia|]. exists bm2. split; [done|]. split; [done|]. intros j Hj.
  rewrite Hup2, Hup by done.
  destruct (Z.leb_spec i j), (Z.ltb_spec j (i + n)); simpl; try done.
  symmetry. apply Hfree. lia.
Qed.

Lemma countUnused_foldl k acc : 0 <= acc ->
  foldl (fun acc b => u32 (acc + popcountl b)) (u32 acc) (replicate k UINTPTR_MAX)
  = u32 (acc + 64 * Z.of_nat k).
Proof.
  revert acc. induction k as [|k IH]; intros acc Hacc; simpl.
  - f_equal. lia.
  - rewrite wrap_add_l. change (popcountl UINTPTR_MAX) with 64. rewrite IH by lia. f_equal. lia.
Qed.

(** [countUnusedBlocks] of a fresh bitmap: right when the last block is partial, a
    whole block short when the size is a multiple of the block size. *)
Lemma countUnusedBlocks_new n minAlign baseAlign : 0 < n < 2 ^ 31 ->
  countUnusedBlocks (new n minAlign baseAlign) = if n mod 64 =? 0 then n - 64 else n.
Proof.
  intros Hn. unfold countUnusedBlocks; cbn [blocks_ nBits_ new].
  pose proof (ceil_div_nonneg n 64 ltac:(lia) ltac:(lia)) as Hc.
  unfold BLOCK_BITS. change 0 with (u32 0) at 1. rewrite countUnused_foldl by lia.
  rewrite Z2Nat.id, Z.add_0_l by lia.
  pose proof (Z.mod_pos_bound n 64 ltac:(lia)). pose proof (Z.div_mod n 64 ltac:(lia)).
  assert (Hd : 64 * ceil_div n 64 = n + (if n mod 64 =? 0 then 0 else 64 - n mod 64)).
  { pose proof (ceil_div_spec n 64 ltac:(lia) ltac:(lia)).
    destruct (Z.eqb_spec (n mod 64) 0); lia. }
  rewrite wrap_sub_l, wrap_sub_r, Hd.
  rewrite (wrap_small 32), swrap_small; destruct (Z.eqb_spec (n mod 64) 0); lia.
Qed.

(** ** Witnesses *)

Lemma reserve_first_fit_witness : wf (new 130 3 6) /\ request_ok (new 130 3 6) 5 4 /\
  exists bm' r, reserve (new 130 3 6) 5 4 = Some (bm', r) /\ wf bm'.
Proof.
  assert (Hwf : wf (new 130 3 6)) by (apply new_wf_lemma; lia).
  assert (Hok : request_ok (new 130 3 6) 5 4) by (repeat split; done).
  split; [done|]. split; [done|].
  destruct (reserve_first_fit _ _ _ Hwf Hok) as (bm' & r & H1 & H2 & _). by exists bm', r.
Defined.

Lemma rreserve_last_fit_witness : wf (new 130 3 6) /\ request_ok (new 130 3 6) 5 4 /\
  exists bm' r, rreserve (new 130 3 6) 5 4 = Some (bm', r) /\ wf bm'.
Proof.
  assert (Hwf : wf (new 130 3 6)) by (apply new_wf_lemma; lia).
  assert (Hok : request_ok (new 130 3 6) 5 4) by (repeat split; done).
  split; [done|]. split; [done|].
  destruct (rreserve_last_fit _ _ _ Hwf Hok) as (bm' & r & H1 & H2 & _). by exists bm', r.
Defined.

Lemma release_frees_witness : exists bm', release (new 130 3 6) 60 10 = Some bm' /\ wf bm'
  /\ updates (new 130 3 6) bm' 60 10 true.
Proof.
  apply (release_frees (new 130 3 6) 60 10); [apply new_wf_lemma; lia|lia..|done].
Defined.

Lemma reserve_release_witness : exists bm1 bm2,
  reserve (new 130 3 6) 70 4 = Some (bm1, LIBHPX_OK 0) /\ release bm1 0 70 = Some bm2 /\ wf bm2.
Proof.
  destruct (reserve (new 130 3 6) 70 4) as [[bm1 r]|] eqn:E; [|by vm_compute in E].
  assert (Hr : r = LIBHPX_OK 0) by (vm_compute in E; by simplify_eq).
  subst r. destruct (reserve_release (new 130 3 6) 70 4 bm1 0) as (bm2 & H1 & H2 & _).
  - apply new_wf_lemma; lia.
  - repeat split; done.
  - done.
  - by exists bm1, bm2.
Defined.
