(* ===== verification/Gpa.v ===== *)
(** * Global physical addresses

    [include/libhpx/gpa.h] and [libhpx/gas/gpa.c]: a 64-bit address holds a 48-bit
    heap offset and a 16-bit home rank; a cyclic allocation deals blocks of [bsize]
    bytes round the ranks, each block padded to a power of two.  The specification
    is the linear position of a byte in its allocation; the theorems show that
    [gpa_add_cyclic] and [gpa_sub_cyclic] are addition and subtraction of positions.
    [here->ranks] is the section variable [ranks]; the checks are those of a build
    without [DEBUG], in which the two functions do not cross-check each other. *)

From S2P Require Import Prelude Math.

Definition GPA_OFFSET_BITS : Z := 48.
Definition GPA_RANK_BITS : Z := 16.

(** ** The source *)

Definition gpa_to_rank (addr : Z) : Z := wrap GPA_RANK_BITS (Z.shiftr addr GPA_OFFSET_BITS).
Definition gpa_to_offset (addr : Z) : Z := wrap GPA_OFFSET_BITS addr.

Definition offset_to_gpa (locality offset : Z) : Z :=
  Z.lor (Z.shiftl (wrap GPA_RANK_BITS locality) GPA_OFFSET_BITS) (wrap GPA_OFFSET_BITS offset).

Definition gpa_sub (lhs rhs : Z) : Z := i64 (u64 (lhs - rhs)).
Definition gpa_add (gpa bytes : Z) : Z := u64 (gpa + bytes).

Definition _phase_of (gpa bsize : Z) : Z :=
  let bsize_log2 := ceil_log2 32 bsize in
  let mask := u64 (u64 (Z.shiftl 1 bsize_log2) - 1) in
  u32 (Z.land mask gpa).

Definition _block_of (addr bsize : Z) : Z :=
  let rshift := ceil_log2 32 bsize in
  Z.shiftr (gpa_to_offset addr) rshift.

Definition _triple_to_gpa (rank bid phase bsize : Z) : Z :=
  let shift := if nz bsize then ceil_log2 32 bsize else 0 in
  let offset := u64 (Z.shiftl bid shift + phase) in
  offset_to_gpa (u32 rank) offset.

Section Cyclic.
Variable ranks : Z.

Definition _sub_cyclic (lhs rhs bsize : Z) : Z :=
  let dphase := i64 (_phase_of lhs bsize - _phase_of rhs bsize) in
  let dlocality := i64 (gpa_to_rank lhs - gpa_to_rank rhs) in
  let dblock := i64 (_block_of lhs bsize - _block_of rhs bsize) in
  i64 (dblock * ranks * bsize + dlocality * bsize + dphase).

Definition _add_cyclic (gpa n bsize : Z) : Z :=
  let _phase := i64 (_phase_of gpa bsize + n + bsize) in
  let phase := Z.rem _phase bsize in
  let blocks := Z.quot _phase bsize - 1 in
  let _rank := i64 (gpa_to_rank gpa + blocks + ranks) in
  let rank := Z.rem _rank ranks in
  let cycles := Z.quot _rank ranks - 1 in
  let blockid := i64 (_block_of gpa bsize + cycles) in
  let phase := phase + (if phase <? 0 then bsize else 0) in
  let rank := rank + (if rank <? 0 then ranks else 0) in
  _triple_to_gpa rank blockid phase bsize.

Definition gpa_sub_cyclic (lhs rhs bsize : Z) : Z := _sub_cyclic lhs rhs bsize.

Definition gpa_add_cyclic (gpa bytes bsize : Z) : Z :=
  if nz bsize then _add_cyclic gpa bytes bsize else u64 (gpa + bytes).

(** ** The specification: positions in a cyclic allocation *)

(** The padded size of a block. *)
Definition stride (bsize : Z) : Z := 2 ^ Z.log2_up bsize.

(** An address of a byte of a block, not of its padding, on an existing rank. *)
Definition valid (bsize gpa : Z) : Prop :=
  gpa ∈u 64 /\ gpa_to_rank gpa < ranks /\ _phase_of gpa bsize < bsize.

Definition pos (bsize gpa : Z) : Z :=
  (_block_of gpa bsize * ranks + gpa_to_rank gpa) * bsize + _phase_of gpa bsize.

(** The number of positions the 48-bit offsets of all ranks can hold. *)
Definition capacity (bsize : Z) : Z := 2 ^ (48 - Z.log2_up bsize) * ranks * bsize.

(** ** Decoding and encoding *)

Hypothesis Hranks : 0 < ranks < 2 ^ 15.

Section Block.
Variable bsize : Z.
Hypothesis Hbsize : 0 < bsize < 2 ^ 32.

Let S := stride bsize.

Lemma lg_eq : ceil_log2 32 bsize = Z.log2_up bsize.
Proof. apply ceil_log2_eq; lia. Qed.

Lemma lg_bound : 0 <= Z.log2_up bsize <= 32.
Proof. apply log2_up_bound; lia. Qed.

Lemma stride_bounds : bsize <= S <= 2 ^ 32.
Proof.
  unfold S, stride. pose proof lg_bound. split; [apply log2_up_bounds; lia|].
  apply Z.pow_le_mono_r; lia.
Qed.

Lemma phase_eq gpa : _phase_of gpa bsize = gpa mod S.
Proof.
  pose proof lg_bound. pose proof stride_bounds. unfold _phase_of. rewrite lg_eq, Z.shiftl_1_l.
  fold (stride bsize). fold S. rewrite (wrap_small 64 S), (wrap_small 64) by lia.
  rewrite Z.land_comm. unfold S, stride in *. rewrite land_pred_pow2 by lia.
  apply wrap_small. pose proof (Z.mod_pos_bound gpa (2 ^ Z.log2_up bsize)). lia.
Qed.

Lemma block_eq gpa : _block_of gpa bsize = (gpa mod 2 ^ 48) / S.
Proof.
  pose proof lg_bound. unfold _block_of, gpa_to_offset, wrap, GPA_OFFSET_BITS.
  rewrite lg_eq, Z.shiftr_div_pow2 by lia. done.
Qed.

Lemma rank_eq gpa : gpa ∈u 64 -> gpa_to_rank gpa = gpa / 2 ^ 48.
Proof.
  intros Hg. unfold gpa_to_rank, GPA_RANK_BITS, GPA_OFFSET_BITS.
  rewrite Z.shiftr_div_pow2 by lia. apply wrap_small. split.
  - apply Z.div_pos; lia.
  - apply Z.div_lt_upper_bound; lia.
Qed.

Lemma offset_to_gpa_eq locality offset : locality ∈u 16 -> offset ∈u 48 ->
  offset_to_gpa locality offset = locality * 2 ^ 48 + offset.
Proof.
  intros Hl Ho. unfold offset_to_gpa, GPA_RANK_BITS, GPA_OFFSET_BITS.
  rewrite !wrap_small by lia. apply lor_shiftl_add; lia.
Qed.

(** The address of the byte at [phase] in block [bid] of [rank]. *)
Lemma triple_eq rank bid phase : rank ∈u 16 -> 0 <= bid -> 0 <= phase < S ->
  bid * S + phase < 2 ^ 48 ->
  _triple_to_gpa rank bid phase bsize = rank * 2 ^ 48 + (bid * S + phase).
Proof.
  intros Hr Hb Hp Ho. unfold _triple_to_gpa, nz. destruct (Z.eqb_spec bsize 0); [lia|]. simpl.
  pose proof lg_bound. rewrite lg_eq, Z.shiftl_mul_pow2 by lia. fold (stride bsize). fold S.
  rewrite !wrap_small by nia. apply offset_to_gpa_eq; nia.
Qed.

Lemma decode_triple rank bid phase : rank ∈u 16 -> 0 <= bid -> 0 <= phase < S ->
  bid * S + phase < 2 ^ 48 ->
  let gpa := rank * 2 ^ 48 + (bid * S + phase) in
  gpa ∈u 64 /\ gpa_to_rank gpa = rank /\ _block_of gpa bsize = bid /\ _phase_of gpa bsize = phase.
Proof.
  intros Hr Hb Hp Ho gpa. pose proof stride_bounds. pose proof lg_bound.
  assert (Hg : gpa ∈u 64) by (unfold gpa; nia).
  assert (Hoff : gpa mod 2 ^ 48 = bid * S + phase).
  { unfold gpa. rewrite Z.add_comm, Z.mod_add by lia. apply Z.mod_small. nia. }
  split; [done|]. split; [|split].
  - rewrite rank_eq by done. unfold gpa. rewrite Z.div_add_l by lia.
    rewrite (Z.div_small (bid * S + phase)) by nia. lia.
  - rewrite block_eq, Hoff, Z.div_add_l, Z.div_small by lia. lia.
  - rewrite phase_eq.
    assert (Hd : 2 ^ 48 = 2 ^ (48 - Z.log2_up bsize) * S).
    { unfold S, stride. rewrite <- Z.pow_add_r by lia. f_equal. lia. }
    unfold gpa. rewrite Hd.
    replace (rank * _ + _) with (phase + (rank * 2 ^ (48 - Z.log2_up bsize) + bid) * S) by lia.
    rewrite Z.mod_add by lia. apply Z.mod_small. lia.
Qed.

(** The parts of an address and their ranges. *)
Lemma parts_range gpa : gpa ∈u 64 ->
  gpa = gpa_to_rank gpa * 2 ^ 48 + (_block_of gpa bsize * S + _phase_of gpa bsize)
  /\ gpa_to_rank gpa ∈u 16 /\ 0 <= _block_of gpa bsize < 2 ^ (48 - Z.log2_up bsize)
  /\ 0 <= _phase_of gpa bsize < S.
Proof.
  intros Hg. pose proof stride_bounds. pose proof lg_bound.
  assert (Hd : 2 ^ 48 = S * 2 ^ (48 - Z.log2_up bsize)).
  { unfold S, stride. rewrite <- Z.pow_add_r by lia. f_equal. lia. }
  rewrite block_eq, phase_eq, rank_eq by done.
  pose proof (Z.mod_pos_bound gpa S ltac:(lia)).
  pose proof (Z.mod_pos_bound gpa (2 ^ 48) ltac:(lia)).
  assert (Hm : (gpa mod 2 ^ 48) mod S = gpa mod S).
  { apply Z.mod_mod_divide. rewrite Hd. apply Z.divide_factor_l. }
  pose proof (Z.div_mod (gpa mod 2 ^ 48) S ltac:(lia)).
  pose proof (Z.div_mod gpa (2 ^ 48) ltac:(lia)).
  repeat split; try lia; first [apply Z.div_pos; lia|apply Z.div_lt_upper_bound; lia].
Qed.

(** ** Positions *)

Lemma block_pos_bound gpa : valid bsize gpa -> 0 <= pos bsize gpa < capacity bsize.
Proof.
  intros (Hg & Hr & Hp). destruct (parts_range gpa Hg) as (_ & ? & Hb & ?).
  unfold pos, capacity.
  set (K := 2 ^ (48 - Z.log2_up bsize)) in *. set (b := _block_of gpa bsize) in *.
  assert (0 <= b * ranks + gpa_to_rank gpa <= K * ranks - 1) by nia. nia.
Qed.

Lemma capacity_bound : capacity bsize < 2 ^ 63 - 2 ^ 40.
Proof.
  pose proof stride_bounds as HS. pose proof lg_bound. unfold capacity.
  assert (Hd : 2 ^ (48 - Z.log2_up bsize) * S = 2 ^ 48).
  { unfold S, stride. rewrite <- Z.pow_add_r by lia. f_equal. lia. }
  set (K := 2 ^ (48 - Z.log2_up bsize)) in *. assert (0 < K) by (apply Z.pow_pos_nonneg; lia).
  assert (K * bsize <= 2 ^ 48) by nia. assert (ranks * (K * bsize) <= ranks * 2 ^ 48) by nia. lia.
Qed.

Lemma pos_inj a b : valid bsize a -> valid bsize b -> pos bsize a = pos bsize b -> a = b.
Proof.
  intros (Ha & Har & Hap) (Hb & Hbr & Hbp) Heq. unfold pos in Heq.
  destruct (parts_range a Ha) as (Ea & ? & ? & ?).
  destruct (parts_range b Hb) as (Eb & ? & ? & ?).
  rewrite !(Z.mul_comm _ bsize) in Heq.
  apply (Z.div_mod_unique bsize) in Heq as [Heq Hphase]; [|lia..].
  rewrite !(Z.mul_comm _ ranks) in Heq.
  apply (Z.div_mod_unique ranks) in Heq as [Hblock Hrank]; [|lia..].
  rewrite Ea, Eb, Hphase, Hblock, Hrank. done.
Qed.

(** Addition on positions: any displacement forward, and backward by up to the bytes
    of the current block and one more. *)
Lemma add_cyclic_spec gpa n : valid bsize gpa -> - (_phase_of gpa bsize + bsize) <= n ->
  0 <= pos bsize gpa + n < capacity bsize ->
  valid bsize (_add_cyclic gpa n bsize)
  /\ pos bsize (_add_cyclic gpa n bsize) = pos bsize gpa + n.
Proof.
  intros (Hg & Hr & Hp) Hn Hpos. pose proof capacity_bound. pose proof stride_bounds.
  pose proof lg_bound. destruct (parts_range gpa Hg) as (_ & Hrr & Hb & Hpr).
  unfold _add_cyclic. set (ph := _phase_of gpa bsize) in *. set (rk := gpa_to_rank gpa) in *.
  set (bk := _block_of gpa bsize) in *. unfold pos in Hpos; fold ph rk bk in Hpos.
  assert (Hd : 2 ^ (48 - Z.log2_up bsize) * S = 2 ^ 48).
  { unfold S, stride. rewrite <- Z.pow_add_r by lia. f_equal. lia. }
  unfold capacity in *. set (K := 2 ^ (48 - Z.log2_up bsize)) in *.
  assert (0 <= bk * ranks * bsize /\ 0 <= rk * bsize) by nia.
  rewrite (swrap_small 64 (ph + n + bsize)) by lia. remember (ph + n + bsize) as q eqn:Hq.
  rewrite (Z.quot_div_nonneg q), (Z.rem_mod_nonneg q) by lia.
  pose proof (Z.div_mod q bsize ltac:(lia)). pose proof (Z.mod_pos_bound q bsize ltac:(lia)).
  assert (0 <= q / bsize) by (apply Z.div_pos; lia).
  assert (q / bsize <= q) by (apply Z.div_le_upper_bound; nia).
  rewrite (swrap_small 64 (rk + _ + ranks)) by lia.
  remember (rk + (q / bsize - 1) + ranks) as R eqn:HR.
  rewrite (Z.quot_div_nonneg R), (Z.rem_mod_nonneg R) by lia.
  pose proof (Z.div_mod R ranks ltac:(lia)). pose proof (Z.mod_pos_bound R ranks ltac:(lia)).
  rewrite !(proj2 (Z.ltb_ge _ 0)), !Z.add_0_r by lia.
  remember (bk + (R / ranks - 1)) as bid eqn:Hbid.
  assert (Hrk : bid * ranks + R mod ranks = bk * ranks + rk + (q / bsize - 1)) by lia.
  assert (Hp' : (bid * ranks + R mod ranks) * bsize + q mod bsize
                = (bk * ranks + rk) * bsize + ph + n) by (rewrite Hrk; lia).
  assert (Hbk : 0 <= bid * ranks + R mod ranks < K * ranks).
  { apply (quotient_bounds _ bsize (q mod bsize)); lia. }
  apply quotient_bounds in Hbk; [|lia].
  assert (bid * S <= (K - 1) * S) by (apply Z.mul_le_mono_nonneg_r; lia).
  rewrite swrap_small by lia. rewrite triple_eq by lia.
  destruct (decode_triple (R mod ranks) bid (q mod bsize)) as (? & Er & Eb & Ep); [lia..|].
  unfold valid, pos. rewrite Er, Eb, Ep. split; [lia|]. fold ph rk bk. lia.
Qed.

Lemma sub_cyclic_spec lhs rhs : valid bsize lhs -> valid bsize rhs ->
  _sub_cyclic lhs rhs bsize = pos bsize lhs - pos bsize rhs.
Proof.
  intros Hl Hr. pose proof (block_pos_bound lhs Hl). pose proof (block_pos_bound rhs Hr).
  pose proof capacity_bound. destruct Hl as (Hlg & _ & _), Hr as (Hrg & _ & _).
  destruct (parts_range lhs Hlg) as (_ & ? & ? & ?).
  destruct (parts_range rhs Hrg) as (_ & ? & ? & ?).
  pose proof stride_bounds. pose proof lg_bound.
  assert (2 ^ (48 - Z.log2_up bsize) <= 2 ^ 48) by (apply Z.pow_le_mono_r; lia).
  unfold _sub_cyclic. rewrite (swrap_small 64 (_phase_of _ _ - _)) by lia.
  rewrite (swrap_small 64 (gpa_to_rank _ - _)) by lia.
  rewrite (swrap_small 64 (_block_of _ _ - _)) by lia.
  rewrite swrap_small; unfold pos in *; lia.
Qed.
End Block.

(** ** Properties *)

(** C4: cyclic addition moves by bytes.  From the address of a byte of a block, a
    displacement [n] that goes back by at most one block gives the address of the
    byte whose position in the allocation is [n] further, as long as the offset bits
    can hold it. *)
Theorem gpa_add_cyclic_pos bsize gpa n : 0 < bsize < 2 ^ 32 -> valid bsize gpa ->
  - bsize <= n -> 0 <= pos bsize gpa + n < capacity bsize ->
  valid bsize (gpa_add_cyclic gpa n bsize)
  /\ pos bsize (gpa_add_cyclic gpa n bsize) = pos bsize gpa + n.
Proof.
  intros Hb Hv Hn Hp. unfold gpa_add_cyclic, nz. destruct (Z.eqb_spec bsize 0); [lia|]. simpl.
  apply add_cyclic_spec; try done. destruct (parts_range bsize Hb gpa (proj1 Hv)). lia.
Qed.

(** The documented law of cyclic subtraction: adding the difference of two
    addresses of an allocation to the second gives the first, and the difference of
    an address and its displacement is the displacement, unless [lhs] is more than
    a block behind. *)
Theorem gpa_sub_cyclic_add bsize lhs rhs : 0 < bsize < 2 ^ 32 ->
  valid bsize lhs -> valid bsize rhs ->
  - bsize <= pos bsize lhs - pos bsize rhs ->
  gpa_sub_cyclic lhs rhs bsize = pos bsize lhs - pos bsize rhs
  /\ gpa_add_cyclic rhs (gpa_sub_cyclic lhs rhs bsize) bsize = lhs.
Proof.
  intros Hb Hl Hr Hd. unfold gpa_sub_cyclic. rewrite sub_cyclic_spec by done. split; [done|].
  unfold gpa_add_cyclic, nz. destruct (Z.eqb_spec bsize 0); [lia|]. simpl.
  pose proof (block_pos_bound bsize Hb lhs Hl).
  destruct (parts_range bsize Hb rhs (proj1 Hr)) as (_ & _ & _ & ?).
  destruct (add_cyclic_spec bsize Hb rhs (pos bsize lhs - pos bsize rhs)) as [Hv Hp];
    [done|lia|lia|]. apply (pos_inj bsize Hb); [done..|]. lia.
Qed.

End Cyclic.

(** Going back by more than the current block and the one before, to the middle of a
    block, loses a block: C division rounds [_phase / bsize] toward zero, not down.
    Here the block size is 8, on 4 ranks. *)
Lemma gpa_add_cyclic_back :
  let gpa := offset_to_gpa 0 40 in
  pos 4 8 gpa = 160 /\ pos 4 8 (gpa_add_cyclic 4 gpa (-9) 8) = 159
  /\ gpa_sub_cyclic 4 (gpa_add_cyclic 4 gpa (-9) 8) gpa 8 = -1.
Proof. vm_compute. done. Qed.

(** ** Witnesses *)

Lemma gpa_add_cyclic_pos_witness :
  pos 4 24 (gpa_add_cyclic 4 (offset_to_gpa 3 70) 1000 24)
  = pos 4 24 (offset_to_gpa 3 70) + 1000.
Proof.
  apply (gpa_add_cyclic_pos 4 ltac:(lia) 24 (offset_to_gpa 3 70) 1000);
    [lia|by vm_compute|lia|by vm_compute].
Defined.

Lemma gpa_sub_cyclic_add_witness :
  gpa_add_cyclic 4 (offset_to_gpa 3 70)
    (gpa_sub_cyclic 4 (offset_to_gpa 1 133) (offset_to_gpa 3 70) 24) 24 = offset_to_gpa 1 133.
Proof.
  apply (gpa_sub_cyclic_add 4 ltac:(lia) 24 (offset_to_gpa 1 133) (offset_to_gpa 3 70));
    [lia|by vm_compute..].
Defined.
