(* ===== verification/Heap.v ===== *)
(** * The heap segment of the partitioned global address space

    libhpx/gas/pgas/HeapSegment.{h,cpp} and parts of PGAS.{h,cpp}: a contiguous segment whose
    chunks a bitmap manages, from the bottom for global allocations and from the top for cyclic
    ones; [csbrk] is the lower end of the cyclic region, and tells whether an address is cyclic.
    A result [Some (_, None)] is the program's fatal error, [None] a failed assertion or a
    read outside the bitmap. *)

From S2P Require Import Prelude Math Bitmap Gpa.

Inductive ChunkType := CYCLIC | GLOBAL.

#[export] Instance chunk_type_eq_dec : EqDecision ChunkType.
Proof. solve_decision. Defined.

Record heap := mkHeap {
  bytesPerChunk_ : Z;
  nBytes_ : Z;
  csbrk_ : Z;
  nChunks_ : Z;
  logMaxBlockSize_ : Z;
  base_ : Z;
  chunks_ : Bitmap;
}.

Implicit Types h : heap.

Definition with_csbrk h c : heap :=
  mkHeap h.(bytesPerChunk_) h.(nBytes_) c h.(nChunks_) h.(logMaxBlockSize_) h.(base_) h.(chunks_).
Definition with_chunks h bm : heap :=
  mkHeap h.(bytesPerChunk_) h.(nBytes_) h.(csbrk_) h.(nChunks_) h.(logMaxBlockSize_) h.(base_) bm.

Definition GPA_MAX_LG_BSIZE : Z := 32.
Definition UINT32_MAX : Z := 2 ^ 32 - 1.

(** [bytesPerChunk] is the allocator's, and [base] the address of the mapping. *)
Definition HeapSegment (bytesPerChunk base size : Z) : heap :=
  let nBytes := size - size mod bytesPerChunk in
  let nChunks := u32 (ceil_div nBytes bytesPerChunk) in
  let logMax := Z.min GPA_MAX_LG_BSIZE (ceil_log2 64 nBytes) in
  mkHeap bytesPerChunk nBytes nBytes nChunks logMax base
    (Bitmap.new nChunks (ceil_log2 64 bytesPerChunk) logMax).

Definition maxBlockSize h : Z := u64 (Z.shiftl 1 h.(logMaxBlockSize_)).

Definition offsetToLVA h (offset : Z) : option Z :=
  if h.(nBytes_) <? offset then None else Some (h.(base_) + offset).

Definition lvaToOffset h (lva : Z) : option Z :=
  if (lva <? h.(base_)) || (h.(base_) + h.(nBytes_) <=? lva) then None else Some (lva - h.(base_)).

Definition isCyclicOffset h (offset : Z) : bool :=
  if h.(nBytes_) <=? offset then false else h.(csbrk_) <=? offset.

Definition chunksAreUsed h (offset n : Z) : option bool :=
  let from := u32 (offset / h.(bytesPerChunk_)) in
  let t := ceil_div (u64 (offset + n)) h.(bytesPerChunk_) in
  if t <? UINT32_MAX then
    let to := u32 t in
    let nbits := u32 (to - from) in
    if u32 (from + nbits) <=? h.(chunks_).(Bitmap.nBits_) then Bitmap.isSet h.(chunks_) from nbits else None
  else None.

(** [cas] is whether the weak exchange succeeds. *)
Definition setCsbrk h (offset : Z) (cas : bool) : option (heap * bool) :=
  let old := h.(csbrk_) in
  let h := if (offset <? old) && cas then with_csbrk h offset else h in
  used ← chunksAreUsed h offset (u64 (old - offset));
  Some (h, used).

(** The [None] beside the heap is the fatal out-of-memory error of the bitmap or of this function;
    the outer one a failed assertion. *)
Definition allocateChunk h (n align : Z) (type : ChunkType) (cas : bool) : option (heap * option Z) :=
  if (n mod h.(bytesPerChunk_) =? 0) && (n / h.(bytesPerChunk_) <? UINT32_MAX) then
    let bits := u32 (n / h.(bytesPerChunk_)) in
    let log2_align := ceil_log2 64 align in
    '(bm, r) ← (match type with
                | GLOBAL => Bitmap.reserve h.(chunks_) bits log2_align
                | CYCLIC => Bitmap.rreserve h.(chunks_) bits log2_align
                end);
    let h := with_chunks h bm in
    match r with
    | LIBHPX_OK bit =>
      let offset := u64 (bit * h.(bytesPerChunk_)) in
      if offset mod align =? 0 then
        let finish h := p ← offsetToLVA h offset;
          if Z.land p (align - 1) =? 0 then Some (h, Some p) else None in
        match type with
        | GLOBAL => if offset + n >? h.(csbrk_) then Some (h, None) else finish h
        | CYCLIC => '(h, _) ← setCsbrk h offset cas; finish h
        end
      else None
    | _ => Some (h, None)
    end
  else None.

Definition deallocateChunk h (chunk size : Z) : option heap :=
  let offset := u64 (chunk - h.(base_)) in
  if (offset mod h.(bytesPerChunk_) =? 0) && (size mod h.(bytesPerChunk_) =? 0) then
    let bit := offset / h.(bytesPerChunk_) in
    let nbits := size / h.(bytesPerChunk_) in
    bm ← Bitmap.release h.(chunks_) (u32 bit) (u32 nbits);
    Some (with_chunks h bm)
  else None.

(** The handler on every locality of the broadcast of [csbrk]: [true] is its fatal error. *)
Definition SetCsbrkHandler h (offset : Z) (cas : bool) : option (heap * bool) := setCsbrk h offset cas.

(** ** The shape of a heap *)

Record chunk := mkChunk { c_type : ChunkType; c_bit : Z; c_bits : Z }.

Implicit Types c d : chunk.

Record shape h : Prop := {
  sh_chunk : 0 <= h.(chunks_).(minAlign_) <= 31 /\ h.(bytesPerChunk_) = 2 ^ h.(chunks_).(minAlign_);
  sh_bytes : h.(nBytes_) = h.(chunks_).(nBits_) * h.(bytesPerChunk_) /\ h.(nBytes_) <= 2 ^ 48;
  sh_base : 0 <= h.(base_) /\ h.(base_) + h.(nBytes_) < 2 ^ 64 /\ (2 ^ h.(logMaxBlockSize_) | h.(base_));
  sh_align : h.(chunks_).(baseAlign_) = h.(logMaxBlockSize_) /\ 0 <= h.(logMaxBlockSize_) <= 32;
  sh_wf : wf h.(chunks_);
  sh_csbrk : exists cb, h.(csbrk_) = cb * h.(bytesPerChunk_) /\ 0 <= cb <= h.(chunks_).(nBits_);
}.

Definition disjoint c d : Prop := c.(c_bit) + c.(c_bits) <= d.(c_bit) \/ d.(c_bit) + d.(c_bits) <= c.(c_bit).

(** The chunks in use are inside the heap, marked used, and apart from each other. *)
Record owns (bm : Bitmap) (live : list chunk) : Prop := {
  ow_in c : c ∈ live -> 0 <= c.(c_bit) /\ 0 < c.(c_bits) /\ c.(c_bit) + c.(c_bits) <= nBits_ bm
    /\ forall j, c.(c_bit) <= j < c.(c_bit) + c.(c_bits) -> free bm j = false;
  ow_apart i j c d : live !! i = Some c -> live !! j = Some d -> i <> j -> disjoint c d;
}.

(** A request: whole chunks, and an alignment that the mapping has. *)
Record request h (n align k a : Z) : Prop := {
  rq_n : n = k * h.(bytesPerChunk_) /\ 0 < k;
  rq_align : align = 2 ^ a /\ 0 <= a <= h.(logMaxBlockSize_);
  rq_size : k + nBits_ h.(chunks_) + 2 ^ Z.max 0 (a - minAlign_ h.(chunks_)) + 64 <= 2 ^ 32;
}.

Lemma heap_chunk_pos h : shape h -> 0 < h.(bytesPerChunk_) <= 2 ^ 31.
Proof.
  intros S. destruct (sh_chunk _ S) as [Hm ->]. split; [lia|]. apply Z.pow_le_mono_r; lia.
Qed.

(** The bits of a run of chunks. *)
Lemma bits_of h b : shape h -> 0 <= b <= nBits_ h.(chunks_) ->
  b * h.(bytesPerChunk_) <= 2 ^ 48 /\ (b * h.(bytesPerChunk_)) / h.(bytesPerChunk_) = b
  /\ ceil_div (b * h.(bytesPerChunk_)) h.(bytesPerChunk_) = b /\ b < 2 ^ 31.
Proof.
  intros S Hb. pose proof (heap_chunk_pos h S). destruct (sh_bytes _ S) as [E Hle]. pose proof (wf_bits _ (sh_wf _ S)).
  split; [nia|]. split; [by rewrite Z.div_mul by lia|]. split; [|lia].
  unfold ceil_div, nz. by rewrite Z.div_mul, Z_mod_mult, Z.add_0_r by lia.
Qed.

Lemma owns_update bm bm' i n v live : owns bm live -> updates bm bm' i n v ->
  (forall c, c ∈ live -> v = false \/ c.(c_bit) + c.(c_bits) <= i \/ i + n <= c.(c_bit)) -> owns bm' live.
Proof.
  intros [O1 O2] (U1 & _ & _ & U4) H. split; [|done]. intros c Hc. destruct (O1 c Hc) as (H1 & H2 & H3 & H4). rewrite U1.
  split_and!; try done. intros j Hj. rewrite U4 by lia. specialize (H c Hc). specialize (H4 j Hj).
  destruct (Z.leb_spec i j), (Z.ltb_spec j (i + n)); cbn [andb]; try done. destruct H as [->|H]; [done|lia].
Qed.

(** A new run is apart from the chunks in use, because it was free. *)
Lemma owns_cons bm bm' live t i n : owns bm live -> updates bm bm' i n false -> 0 <= i -> 0 < n -> i + n <= nBits_ bm ->
  all_free bm i n -> owns bm' (mkChunk t i n :: live).
Proof.
  intros O U Hi Hn Hin Hf. pose proof (owns_update _ _ _ _ _ _ O U ltac:(by left)) as O'. destruct U as (U1 & _ & _ & U4).
  assert (Hd : forall c, c ∈ live -> disjoint (mkChunk t i n) c).
  { intros c Hc. destruct (ow_in _ _ O c Hc) as (H1 & H2 & H3 & H4). unfold disjoint; simpl.
    destruct (Z.le_gt_cases (i + n) (c_bit c)); [by left|]. destruct (Z.le_gt_cases (c_bit c + c_bits c) i); [by right|].
    specialize (Hf (Z.max i (c_bit c)) ltac:(lia)). rewrite H4 in Hf by lia. done. }
  split.
  - intros c Hc. apply elem_of_cons in Hc as [->|Hc]; [|by apply (ow_in _ _ O')]. simpl. rewrite U1. split_and!; try done.
    intros j Hj. rewrite U4 by lia. destruct (Z.leb_spec i j); [|lia]. destruct (Z.ltb_spec j (i + n)); [done|lia].
  - intros [|p] [|q] c d Hp Hq Hne; simpl in *; [done|..]; simplify_eq.
    + apply Hd. by eapply list_elem_of_lookup_2.
    + destruct (Hd c) as [H|H]; [by eapply list_elem_of_lookup_2|by right|by left].
    + apply (ow_apart _ _ O p q); [done..|lia].
Qed.

Lemma shape_chunks h bm i n v : shape h -> wf bm -> updates h.(chunks_) bm i n v -> shape (with_chunks h bm).
Proof.
  intros [S1 S2 S3 S4 S5 S6] Hw (U1 & U2 & U3 & _). split; simpl; rewrite ?U1, ?U2, ?U3; done.
Qed.

(** ** The operations *)

(** The boundary after an attempt to lower it. *)
Definition lowered h (b : Z) (cas : bool) : Z := if cas then Z.min h.(csbrk_) (b * h.(bytesPerChunk_)) else h.(csbrk_).

(** Lowering [csbrk]; a chunk that is given out again may lie above it. *)
Lemma setCsbrk_spec h b cas : shape h -> 0 <= b <= nBits_ h.(chunks_) ->
  (h.(csbrk_) < b * h.(bytesPerChunk_) -> b < nBits_ h.(chunks_) /\ free h.(chunks_) b = false) ->
  exists used, setCsbrk h (b * h.(bytesPerChunk_)) cas = Some (with_csbrk h (lowered h b cas), used)
    /\ shape (with_csbrk h (lowered h b cas))
    /\ (used = false -> forall j, b <= j -> j * h.(bytesPerChunk_) < h.(csbrk_) -> free h.(chunks_) j = true).
Proof.
  intros S Hb Hused. pose proof (heap_chunk_pos h S) as Hc. destruct (sh_csbrk _ S) as (cb & Ecb & Hcb).
  destruct (bits_of h b S Hb) as (B1 & B2 & B3 & B4). destruct (bits_of h cb S Hcb) as (C1 & C2 & C3 & C4).
  set (B := bytesPerChunk_ h) in *. assert (Hsh : shape (with_csbrk h (lowered h b cas))).
  { destruct S as [S1 S2 S3 S4 S5 _]. unfold lowered. fold B. split; simpl; try done. exists (if cas then Z.min cb b else cb). rewrite Ecb. fold B. destruct cas; split; nia || lia. }
  unfold setCsbrk. set (h1 := if (b * B <? csbrk_ h) && cas then with_csbrk h (b * B) else h).
  assert (E1 : h1 = with_csbrk h (lowered h b cas)).
  { unfold h1, lowered. fold B. destruct cas; [|rewrite andb_false_r; by destruct h]. destruct (Z.ltb_spec (b * B) (csbrk_ h)); cbn [andb]; [by rewrite Z.min_r by lia|].
    rewrite Z.min_l by lia. by destruct h. }
  clearbody h1. subst h1. rewrite Ecb in Hused |- *.
  unfold chunksAreUsed. cbn [with_csbrk bytesPerChunk_ chunks_]. fold B.
  assert (Ew : u64 (b * B + u64 (cb * B - b * B)) = cb * B) by (rewrite wrap_add_r; replace (b * B + (cb * B - b * B)) with (cb * B) by lia; apply wrap_small; nia).
  rewrite Ew, B2, C3. rewrite (wrap_small 32 b), (wrap_small 32 cb) by lia. unfold UINT32_MAX. destruct (Z.ltb_spec cb (2 ^ 32 - 1)); [|lia].
  assert (Et : u32 (b + u32 (cb - b)) = cb) by (rewrite wrap_add_r; replace (b + (cb - b)) with cb by lia; apply wrap_small; lia).
  rewrite Et. destruct (Z.leb_spec cb (Bitmap.nBits_ (chunks_ h))); [|lia].
  destruct (Z.le_gt_cases b cb).
  - rewrite wrap_small by lia. destruct (isSet_spec (sh_wf _ S) b (cb - b)) as (v & Ev & Hv); [lia..|]. rewrite Ev. exists v.
    split; [done|]. split; [done|]. intros Hf j Hj1 Hj2. apply Hv; [done|]. nia.
  - destruct Hused as [Hlt Hfree]; [nia|]. rewrite (isSet_used (sh_wf _ S)); [by exists true|lia| |done].
    replace (cb - b) with (cb - b + 2 ^ 32 + (-1) * 2 ^ 32) by lia. rewrite wrap_eq_add, wrap_small by lia. lia.
Qed.

Lemma reserve_any h k a type : shape h -> 0 < k -> 0 <= a -> k + nBits_ h.(chunks_) + 2 ^ Z.max 0 (a - minAlign_ h.(chunks_)) + 64 <= 2 ^ 32 ->
  exists bm r, (match type with GLOBAL => Bitmap.reserve h.(chunks_) k a | CYCLIC => Bitmap.rreserve h.(chunks_) k a end) = Some (bm, r)
    /\ wf bm /\ match r with
       | LIBHPX_OK i => fits h.(chunks_) a k i /\ updates h.(chunks_) bm i k false
       | _ => bm = h.(chunks_)
       end.
Proof.
  intros S Hk Ha Hs. assert (Hq : request_ok (chunks_ h) k a) by (unfold request_ok, period; lia). destruct type.
  - destruct (rreserve_contract _ _ _ (sh_wf _ S) Hq) as (bm & r & E & Hw & H). exists bm, r. split; [done|]. split; [done|]. destruct r; tauto.
  - destruct (reserve_contract _ _ _ (sh_wf _ S) Hq) as (bm & r & E & Hw & H). exists bm, r. split; [done|]. split; [done|]. destruct r; tauto.
Qed.

(** An aligned offset, and the address it has. *)
Lemma fits_aligned h a k i : shape h -> 0 <= a <= h.(logMaxBlockSize_) -> fits h.(chunks_) a k i ->
  (i * h.(bytesPerChunk_)) mod 2 ^ a = 0 /\ Z.land (h.(base_) + i * h.(bytesPerChunk_)) (2 ^ a - 1) = 0.
Proof.
  intros S Ha (_ & _ & Hal & _). destruct (sh_chunk _ S) as [Hm E]. destruct (sh_base _ S) as (_ & _ & Hb). destruct (sh_align _ S) as [Eb _].
  unfold aligned in Hal. rewrite Eb, <- E in Hal. assert (Hd : (2 ^ a | 2 ^ logMaxBlockSize_ h)).
  { exists (2 ^ (logMaxBlockSize_ h - a)). rewrite <- Z.pow_add_r by lia. f_equal. lia. }
  assert (H1 : (2 ^ a | i * bytesPerChunk_ h)).
  { replace (i * bytesPerChunk_ h) with (i * bytesPerChunk_ h + 2 ^ logMaxBlockSize_ h - 2 ^ logMaxBlockSize_ h) by lia. by apply Z.divide_sub_r. }
  split; [apply Z.mod_divide; [lia|done]|]. rewrite land_pred_pow2 by lia. apply Z.mod_divide; [lia|].
  apply Z.divide_add_r; [|done]. exact (Z.divide_trans _ _ _ Hd Hb).
Qed.

Definition same_layout h h' : Prop :=
  h'.(bytesPerChunk_) = h.(bytesPerChunk_) /\ h'.(nBytes_) = h.(nBytes_) /\ h'.(base_) = h.(base_)
  /\ nBits_ h'.(chunks_) = nBits_ h.(chunks_) /\ h'.(logMaxBlockSize_) = h.(logMaxBlockSize_).

(** Allocation: it succeeds with a chunk of its own, at an aligned address, or ends in the
    fatal error; a global chunk is below [csbrk], and a cyclic one at or above it. *)
Lemma allocateChunk_spec h live n align k a type cas : shape h -> owns h.(chunks_) live -> request h n align k a ->
  exists h' r, allocateChunk h n align type cas = Some (h', r) /\ shape h' /\ same_layout h h' /\ owns h'.(chunks_) live
    /\ match r with
       | None => h'.(csbrk_) = h.(csbrk_)
       | Some p => exists i, p = h.(base_) + i * h.(bytesPerChunk_) /\ p mod align = 0
           /\ owns h'.(chunks_) (mkChunk type i k :: live)
           /\ match type with
              | GLOBAL => h'.(csbrk_) = h.(csbrk_) /\ (i + k) * h.(bytesPerChunk_) <= h.(csbrk_)
              | CYCLIC => h'.(csbrk_) = lowered h i cas
              end
       end.
Proof.
  intros S O [[En Hk] [Ea Ha] Hs]. pose proof (heap_chunk_pos h S) as Hc. destruct (sh_bytes _ S) as [Eb Hle]. destruct (sh_align _ S) as [_ Hlog].
  destruct (sh_base _ S) as (B1 & B2 & B3). pose proof (wf_bits _ (sh_wf _ S)) as Hnb.
  unfold allocateChunk. set (B := bytesPerChunk_ h) in *. assert (0 < 2 ^ Z.max 0 (a - minAlign_ (chunks_ h))) by lia.
  rewrite En, Z_mod_mult, Z.div_mul by lia. cbn [Z.eqb andb]. unfold UINT32_MAX. destruct (Z.ltb_spec k (2 ^ 32 - 1)); [|lia].
  rewrite (wrap_small 32 k) by lia. assert (El : ceil_log2 64 align = a).
  { rewrite Ea, ceil_log2_eq; [apply Z.log2_up_pow2; lia|lia|]. split; [lia|]. apply Z.pow_lt_mono_r; lia. }
  rewrite El. destruct (reserve_any h k a type S Hk ltac:(lia) Hs) as (bm & r & Er & Hw & Hr). rewrite Er. cbn [mbind option_bind].
  destruct r as [i| |]; [|exists (with_chunks h bm), None; subst bm; by destruct h; split_and!..].
  destruct Hr as [Hf Hu]. pose proof Hf as (F1 & F2 & _ & F4). pose proof (shape_chunks _ _ _ _ _ S Hw Hu) as S1.
  pose proof (owns_cons _ _ _ type _ _ O Hu F1 Hk F2 F4) as O1. pose proof (owns_update _ _ _ _ _ _ O Hu ltac:(by left)) as O2.
  destruct (fits_aligned h a k i S Ha Hf) as [A1 A2]. fold B in A1, A2. destruct Hu as (U1 & U2 & U3 & U4).
  cbn [with_chunks bytesPerChunk_ csbrk_]. fold B. rewrite (wrap_small 64 (i * B)) by nia. rewrite Ea, A1. cbn [Z.eqb].
  assert (Hmod : (base_ h + i * B) mod 2 ^ a = 0) by (by rewrite <- land_pred_pow2 by lia).
  destruct type.
  - destruct (setCsbrk_spec (with_chunks h bm) i cas S1) as (used & Es & Ss & _); [simpl; rewrite U1; lia| |].
    { intros _. simpl. rewrite U1. split; [lia|]. rewrite U4 by lia. destruct (Z.leb_spec i i); [|lia]. destruct (Z.ltb_spec i (i + k)); [done|lia]. }
    cbn [with_chunks bytesPerChunk_ csbrk_] in Es, Ss. fold B in Es, Ss. rewrite Es. cbn [mbind option_bind]. unfold offsetToLVA. cbn [with_csbrk with_chunks nBytes_ base_].
    destruct (Z.ltb_spec (nBytes_ h) (i * B)); [nia|]. cbn [mbind option_bind]. rewrite A2. cbn [Z.eqb].
    eexists _, _. split; [done|]. split; [done|]. split; [by split_and!|]. split; [done|]. exists i. by split_and!.
  - rewrite Z.gtb_ltb. destruct (Z.ltb_spec (csbrk_ h) (i * B + k * B)); [exists (with_chunks h bm), None; by split_and!|].
    unfold offsetToLVA. cbn [with_chunks nBytes_ base_]. destruct (Z.ltb_spec (nBytes_ h) (i * B)); [nia|]. cbn [mbind option_bind]. rewrite A2. cbn [Z.eqb].
    eexists _, _. split; [done|]. split; [done|]. split; [by split_and!|]. split; [done|]. exists i. split_and!; try done. simpl. lia.
Qed.

Lemma lookup_delete_back {A} (l : list A) i j x : delete i l !! j = Some x ->
  l !! (if decide (j < i)%nat then j else S j) = Some x.
Proof. intros H. case_decide; [by rewrite list_lookup_delete_lt in H|by rewrite list_lookup_delete_ge in H by lia]. Qed.

Lemma owns_delete bm live i : owns bm live -> owns bm (delete i live).
Proof.
  intros [O1 O2]. split; [intros d Hd; by apply O1, (list_elem_of_delete_inv _ i)|].
  intros p q d e Hp Hq Hne. apply lookup_delete_back in Hp, Hq. eapply O2; [exact Hp|exact Hq|]. repeat case_decide; lia.
Qed.

Lemma deallocateChunk_spec h live i c : shape h -> owns h.(chunks_) live -> live !! i = Some c ->
  exists h', deallocateChunk h (h.(base_) + c.(c_bit) * h.(bytesPerChunk_)) (c.(c_bits) * h.(bytesPerChunk_)) = Some h'
    /\ shape h' /\ same_layout h h' /\ owns h'.(chunks_) (delete i live) /\ h'.(csbrk_) = h.(csbrk_).
Proof.
  intros S O Hi. pose proof (heap_chunk_pos h S) as Hc. destruct (sh_bytes _ S) as [Eb Hle]. pose proof (wf_bits _ (sh_wf _ S)) as Hnb.
  destruct (ow_in _ _ O c) as (C1 & C2 & C3 & _); [by eapply list_elem_of_lookup_2|]. unfold deallocateChunk.
  replace (base_ h + c_bit c * bytesPerChunk_ h - base_ h) with (c_bit c * bytesPerChunk_ h) by lia. rewrite (wrap_small 64) by nia.
  rewrite !Z_mod_mult, !Z.div_mul by lia. cbn [Z.eqb andb]. rewrite !wrap_small by lia.
  destruct (release_spec_lemma (chunks_ h) (c_bit c) (c_bits c) (sh_wf _ S)) as (bm & E & Hw & Hu); [lia..|]. rewrite E. cbn [mbind option_bind].
  pose proof Hu as (U1 & _). exists (with_chunks h bm). split; [done|]. split; [by eapply shape_chunks|]. split; [by split_and!|]. split; [|done].
  apply (owns_update (chunks_ h) bm (c_bit c) (c_bits c) true); [|done|].
  - by apply owns_delete.
  - intros d Hd. right. apply list_elem_of_lookup in Hd as [j Hj]. apply lookup_delete_back in Hj.
    destruct (ow_apart _ _ O _ _ d c Hj Hi) as [H|H]; [case_decide; lia|by left|by right].
Qed.

(** ** Runs *)

(** Where the chunks are: global ones below [csbrk], cyclic ones above it. *)
Definition region h c : Prop :=
  match c.(c_type) with
  | GLOBAL => (c.(c_bit) + c.(c_bits)) * h.(bytesPerChunk_) <= h.(csbrk_)
  | CYCLIC => h.(csbrk_) <= c.(c_bit) * h.(bytesPerChunk_)
  end.

Definition byte_start h c : Z := c.(c_bit) * h.(bytesPerChunk_).
Definition byte_size h c : Z := c.(c_bits) * h.(bytesPerChunk_).

(** What the locality that makes a cyclic allocation does not check: that its weak exchange
    succeeded, and that the chunk is above the global ones in use.  The other localities check
    the latter when they learn of the new [csbrk]. *)
Definition in_order h (live : list chunk) (type : ChunkType) (p : Z) (cas : bool) : Prop :=
  type = CYCLIC -> cas = true /\ forall c, c ∈ live -> c.(c_type) = GLOBAL -> h.(base_) + byte_start h c + byte_size h c <= p.

(** The runs of a locality, with the chunks in use and whether all cyclic allocations were in
    order. *)
Inductive runs (bytesPerChunk base size : Z) : heap -> list chunk -> Prop -> Prop :=
  | runs_new : runs bytesPerChunk base size (HeapSegment bytesPerChunk base size) [] True
  | runs_alloc h live ok n align k a type cas h' p : runs bytesPerChunk base size h live ok -> request h n align k a ->
      allocateChunk h n align type cas = Some (h', Some p) ->
      runs bytesPerChunk base size h' (mkChunk type ((p - h.(base_)) / h.(bytesPerChunk_)) k :: live) (ok /\ in_order h live type p cas)
  | runs_free h live ok i c h' : runs bytesPerChunk base size h live ok -> live !! i = Some c ->
      deallocateChunk h (h.(base_) + byte_start h c) (byte_size h c) = Some h' ->
      runs bytesPerChunk base size h' (delete i live) ok
  | runs_csbrk h live ok b cas h' : runs bytesPerChunk base size h live ok -> 0 <= b -> b * h.(bytesPerChunk_) <= h.(csbrk_) ->
      SetCsbrkHandler h (b * h.(bytesPerChunk_)) cas = Some (h', false) -> runs bytesPerChunk base size h' live ok.

(** A mapping that the constructor accepts. *)
Definition mapping (bytesPerChunk base size m : Z) : Prop :=
  bytesPerChunk = 2 ^ m /\ 0 <= m <= 31 /\ bytesPerChunk <= size <= 2 ^ 48 /\ size / bytesPerChunk < 2 ^ 31
  /\ 0 <= base /\ base + size < 2 ^ 64 /\ (2 ^ 32 | base).

Lemma new_shape bytesPerChunk base size m : mapping bytesPerChunk base size m ->
  shape (HeapSegment bytesPerChunk base size).
Proof.
  intros (Eb & Hm & Hs & Hc & Hb1 & Hb2 & Hb3). assert (Hp : 0 < bytesPerChunk) by (rewrite Eb; lia).
  pose proof (Z.div_mod size bytesPerChunk ltac:(lia)) as Hd. pose proof (Z.mod_pos_bound size bytesPerChunk Hp) as Hr.
  set (q := size / bytesPerChunk) in *. assert (Hq : 1 <= q) by nia.
  assert (Hn : size - size mod bytesPerChunk = q * bytesPerChunk) by lia.
  assert (Hcd : ceil_div (q * bytesPerChunk) bytesPerChunk = q) by (unfold ceil_div, nz; by rewrite Z.div_mul, Z_mod_mult, Z.add_0_r by lia).
  assert (Hl : ceil_log2 64 bytesPerChunk = m).
  { rewrite Eb, ceil_log2_eq; [apply Z.log2_up_pow2; lia|lia|]. split; [lia|]. apply Z.pow_lt_mono_r; lia. }
  assert (Hl2 : m <= ceil_log2 64 (q * bytesPerChunk)).
  { rewrite ceil_log2_eq by (assert (2 ^ 48 < 2 ^ 64) by (apply Z.pow_lt_mono_r; lia); nia). rewrite <- (Z.log2_up_pow2 m) by lia.
    apply Z.log2_up_le_mono. nia. }
  unfold HeapSegment, GPA_MAX_LG_BSIZE. rewrite Hn, Hcd, Hl, (wrap_small 32 q) by lia. set (lg := Z.min 32 _) in *.
  assert (Hlg : m <= lg <= 32) by lia. destruct (new_wf_lemma q m lg ltac:(lia) Hm ltac:(lia)) as [Hw _].
  split; simpl; try done.
  - split; [done|lia].
  - split; [lia|]. split; [lia|]. apply (Z.divide_trans _ (2 ^ 32)); [|done]. exists (2 ^ (32 - lg)). rewrite <- Z.pow_add_r by lia. f_equal. lia.
  - lia.
  - exists q. lia.
Qed.

Lemma region_delete h h' i live : h'.(bytesPerChunk_) = h.(bytesPerChunk_) -> h'.(csbrk_) = h.(csbrk_) ->
  Forall (region h) live -> Forall (region h') (delete i live).
Proof.
  intros E1 E2 Hf. rewrite Forall_forall in *. intros c Hc. apply list_elem_of_delete_inv in Hc. specialize (Hf c Hc). unfold region in *. by rewrite E1, E2.
Qed.

(** Lowering [csbrk] over free chunks keeps the global ones below it. *)
Lemma region_csbrk h b cas live : shape h -> owns h.(chunks_) live -> Forall (region h) live ->
  (forall j, b <= j -> j * h.(bytesPerChunk_) < h.(csbrk_) -> free h.(chunks_) j = true) -> b * h.(bytesPerChunk_) <= h.(csbrk_) ->
  Forall (region (with_csbrk h (lowered h b cas))) live.
Proof.
  intros S O Hf Hfree Hb. pose proof (heap_chunk_pos h S). rewrite Forall_forall in *. intros c Hc. specialize (Hf c Hc).
  destruct (ow_in _ _ O c Hc) as (C1 & C2 & C3 & C4). unfold region, lowered in *. simpl. destruct cas; [|done]. destruct (c_type c); [lia|]. rewrite Z.min_r by lia.
  destruct (Z.le_gt_cases (c_bit c + c_bits c) b); [nia|]. specialize (C4 (c_bit c + c_bits c - 1) ltac:(lia)).
  rewrite Hfree in C4; [done|lia|nia].
Qed.

Lemma heap_runs_invariant bytesPerChunk base size m h live ok : mapping bytesPerChunk base size m -> runs bytesPerChunk base size h live ok ->
  shape h /\ owns h.(chunks_) live /\ (ok -> Forall (region h) live).
Proof.
  intros Hm. induction 1 as [|h live ok n align k a type cas h' p Hr (S & O & R) Hq E|h live ok i c h' Hr (S & O & R) Hi E|h live ok b cas h' Hr (S & O & R) Hb Hle E].
  - split; [by eapply new_shape|]. split; [|constructor]. by split; [intros c Hc%elem_of_nil|].
  - pose proof (heap_chunk_pos h S). destruct (allocateChunk_spec h live n align k a type cas S O Hq) as (h1 & r & E1 & S1 & L1 & _ & H1).
    rewrite E in E1. injection E1 as <- <-. destruct H1 as (i & -> & _ & O1 & Ht). replace (base_ h + i * bytesPerChunk_ h - base_ h) with (i * bytesPerChunk_ h) by lia.
    rewrite Z.div_mul by lia. split; [done|]. split; [done|]. intros [Hok Habove]. specialize (R Hok). destruct L1 as (L1 & _). rewrite Forall_forall in R.
    apply Forall_cons. unfold region. rewrite L1. destruct type; simpl.
    + destruct (Habove eq_refl) as [-> Hab]. rewrite Ht. unfold lowered. split; [lia|]. apply Forall_forall. intros c Hc. specialize (R c Hc). specialize (Hab c Hc). unfold region, byte_start, byte_size in *.
      destruct (c_type c); [lia|]. specialize (Hab eq_refl). lia.
    + destruct Ht as [Ht Hle]. rewrite Ht. split; [done|]. apply Forall_forall. exact R.
  - destruct (deallocateChunk_spec h live i c S O Hi) as (h1 & E1 & S1 & L1 & O1 & Ec). unfold byte_start, byte_size in E. rewrite E in E1. injection E1 as <-.
    split; [done|]. split; [done|]. intros Hok. apply (region_delete h); [apply L1|done|by apply R].
  - assert (Hbn : b <= nBits_ (chunks_ h)) by (destruct (sh_csbrk _ S) as (cb & Ec & Hcb); pose proof (heap_chunk_pos h S); nia).
    destruct (setCsbrk_spec h b cas S ltac:(lia)) as (used & E1 & S1 & Hf); [lia|]. unfold SetCsbrkHandler in E. rewrite E in E1. injection E1 as -> <-.
    split; [done|]. split; [done|]. intros Hok. apply region_csbrk; [done..|by apply R|by apply Hf|done].
Qed.


(** ** A run *)

Definition demo_base : Z := 2 ^ 40.

Definition demo_heap : heap := HeapSegment 64 demo_base 1000.

Definition demo_global : heap * option Z := default (demo_heap, None) (allocateChunk demo_heap 128 128 GLOBAL true).

Definition demo_cyclic : heap * option Z := default (demo_heap, None) (allocateChunk demo_global.1 192 64 CYCLIC true).

Lemma demo_mapping : mapping 64 demo_base 1000 6.
Proof. unfold mapping, demo_base. split_and!; try done; try lia. by exists 256. Qed.

Lemma demo_global_ok : allocateChunk demo_heap 128 128 GLOBAL true = Some (demo_global.1, Some demo_base).
Proof. by vm_compute. Qed.

Lemma demo_cyclic_ok : allocateChunk demo_global.1 192 64 CYCLIC true = Some (demo_cyclic.1, Some (demo_base + 12 * 64)).
Proof. by vm_compute. Qed.

Definition demo_in_order : Prop := (True /\ in_order demo_heap [] GLOBAL demo_base true) /\ in_order demo_global.1 [mkChunk GLOBAL 0 2] CYCLIC (demo_base + 12 * 64) true.

Lemma demo_heap_runs : runs 64 demo_base 1000 demo_cyclic.1 [mkChunk CYCLIC 12 3; mkChunk GLOBAL 0 2] demo_in_order.
Proof.
  assert (H1 : runs 64 demo_base 1000 demo_global.1 [mkChunk GLOBAL 0 2] (True /\ in_order demo_heap [] GLOBAL demo_base true)).
  { apply (runs_alloc 64 demo_base 1000 demo_heap [] True 128 128 2 7 GLOBAL true demo_global.1 demo_base); [apply runs_new| |exact demo_global_ok].
    by split; vm_compute. }
  apply (runs_alloc 64 demo_base 1000 demo_global.1 _ _ 192 64 3 6 CYCLIC true demo_cyclic.1 (demo_base + 12 * 64)); [exact H1| |exact demo_cyclic_ok].
  by split; vm_compute.
Qed.

Lemma demo_ok : demo_in_order.
Proof. split; [split; [done|intros [=]]|]. intros _. split; [done|]. intros c Hc _. apply list_elem_of_singleton in Hc as ->. by vm_compute. Qed.


(** ** What the code does not check *)

(** The locality that allocates the cyclic chunks ignores what lowering [csbrk] reports: with
    the top of the heap occupied, a cyclic chunk is taken from below a global one, whose
    addresses are then classified as cyclic. *)
Lemma cyclic_below_global :
  let run := '(h, _) ← allocateChunk demo_heap 64 64 GLOBAL true; '(h, _) ← allocateChunk h 832 64 GLOBAL true;
             '(h, _) ← allocateChunk h 64 64 GLOBAL true; h ← deallocateChunk h demo_base 64;
             '(h, p) ← allocateChunk h 64 64 CYCLIC true; Some (p, isCyclicOffset h 64) in
  run = Some (Some demo_base, true).
Proof. by vm_compute. Qed.

(** The exchange is weak and is not repeated: when it fails spuriously, a new cyclic chunk is
    not classified as cyclic. *)
Lemma csbrk_weak : allocateChunk demo_heap 64 64 CYCLIC false = Some (with_chunks demo_heap
    (default (chunks_ demo_heap) (fst <$> Bitmap.rreserve (chunks_ demo_heap) 1 6)), Some (demo_base + 14 * 64))
  /\ (p ← allocateChunk demo_heap 64 64 CYCLIC false; Some (isCyclicOffset p.1 (14 * 64))) = Some false.
Proof. by vm_compute. Qed.

(** A locality that learns of two allocations in the wrong order is asked for the chunks of a
    run of negative length, and reads beyond the bitmap. *)
Lemma csbrk_stale : ('(h, used) ← SetCsbrkHandler demo_heap 64 true; Some used) = Some false
  /\ ('(h, _) ← SetCsbrkHandler demo_heap 64 true; SetCsbrkHandler h 128 true) = None.
Proof. by vm_compute. Qed.
