(* ===== verification/Pgas.v ===== *)
(** * The partitioned global address space

    libhpx/gas/pgas/PGAS.{h,cpp} over the heap segment: addresses, pinning, cyclic allocation
    with zeroed blocks, and the memory operations, which are local copies or requests to the
    network.  The bytes of the locality's segment are a list. *)

From S2P Require Import Prelude Math Bytes Gpa Bitmap Heap.

Section PGAS.
Variable rank ranks : Z.        (* here->rank, here->ranks *)

Implicit Types (h : heap) (gpa : Z).

Definition gpaToLVA h gpa : option Z := offsetToLVA h (gpa_to_offset gpa).

Definition offsetToGPA (offset : Z) : Z := offset_to_gpa rank offset.

Definition isCyclicAddress h gpa : bool := isCyclicOffset h (gpa_to_offset gpa).

Definition there (i : Z) : Z := offset_to_gpa i (2 ^ 64 - 1).

Definition add h gpa n bsize : Z := if isCyclicAddress h gpa then gpa_add_cyclic ranks gpa n bsize else gpa_add gpa n.

Definition sub h lhs rhs bsize : option Z :=
  if Bool.eqb (isCyclicAddress h lhs) (isCyclicAddress h rhs)
  then Some (if isCyclicAddress h lhs then gpa_sub_cyclic ranks lhs rhs bsize else gpa_sub lhs rhs)
  else None.

(** [None] in the result: the address of the locality itself, which is not in the heap. *)
Definition tryPin h gpa : option (option (option Z)) :=
  if gpa_to_rank gpa =? rank then
    if gpa =? there rank then Some (Some None) else lva ← gpaToLVA h gpa; Some (Some (Some lva))
  else Some None.

(** ** Allocation of cyclic blocks *)

Definition padded (bsize : Z) : Z := u64 (Z.shiftl 1 (ceil_log2 64 bsize)).

(** The bytes that [zeroBlocks] clears from its offset on, given the number of blocks. *)
Definition zeroBlocks (n bsize : Z) : Z := u64 (ceil_div n ranks * padded bsize).

(** The bytes that are allocated on every locality, and those that are cleared. *)
Definition allocateCyclicBlocks (n bsize : Z) (zero : bool) : Z * Z :=
  let blocks := ceil_div n ranks in
  (u64 (blocks * padded bsize), if zero then zeroBlocks blocks bsize else 0).

(** ** Memory operations *)

Inductive event :=
  | lco_set (lco : Z)                            (* hpx_lco_set *)
  | lco_error (lco code : Z)                     (* hpx_lco_error *)
  | net_memput (to : Z) (from : list Z) (syncs : list Z)
  | net_memget (from : Z) (n : nat) (syncs : list Z)
  | net_memcpy (to from : Z) (n : nat) (sync : Z).

Definition HPX_SUCCESS : Z := 0.

(** A locality's segment, and what an operation causes. *)
Definition result : Type := list Z * list event.

Implicit Types mem : list Z.

Definition memput_lsync mem (to : Z) (from : list Z) (lsync rsync : Z) : option result :=
  match from with
  | [] => Some (mem, [lco_error lsync HPX_SUCCESS; lco_error rsync HPX_SUCCESS])
  | _ => if gpa_to_rank to =? rank
         then mem ← store mem (gpa_to_offset to) from; Some (mem, [lco_error lsync HPX_SUCCESS; lco_error rsync HPX_SUCCESS])
         else Some (mem, [net_memput to from [lsync; rsync]])
  end.

Definition memput_rsync mem (to : Z) (from : list Z) (rsync : Z) : option result :=
  match from with
  | [] => Some (mem, [lco_error rsync HPX_SUCCESS])
  | _ => if gpa_to_rank to =? rank
         then mem ← store mem (gpa_to_offset to) from; Some (mem, [lco_set rsync])
         else Some (mem, [net_memput to from [rsync]])
  end.

Definition memput mem (to : Z) (from : list Z) : option result :=
  match from with
  | [] => Some (mem, [])
  | _ => if gpa_to_rank to =? rank
         then mem ← store mem (gpa_to_offset to) from; Some (mem, [])
         else Some (mem, [net_memput to from []])
  end.

(** The bytes a local get copies to the caller. *)
Definition memget_lsync_rsync mem (from : Z) (n : nat) (lsync rsync : Z) : option (list Z * list event) :=
  if (n =? 0)%nat then Some ([], [lco_error lsync HPX_SUCCESS; lco_error rsync HPX_SUCCESS])
  else if gpa_to_rank from =? rank
       then bs ← load mem (gpa_to_offset from) n; Some (bs, [lco_error lsync HPX_SUCCESS; lco_error rsync HPX_SUCCESS])
       else Some ([], [net_memget from n [lsync; rsync]]).

Definition memget_lsync mem (from : Z) (n : nat) (lsync : Z) : option (list Z * list event) :=
  if (n =? 0)%nat then Some ([], [lco_error lsync HPX_SUCCESS])
  else if gpa_to_rank from =? rank
       then bs ← load mem (gpa_to_offset from) n; Some (bs, [lco_set lsync])
       else Some ([], [net_memget from n [lsync]]).

Definition memget mem (from : Z) (n : nat) : option (list Z * list event) :=
  if (n =? 0)%nat then Some ([], [])
  else if gpa_to_rank from =? rank
       then bs ← load mem (gpa_to_offset from) n; Some (bs, [])
       else Some ([], [net_memget from n []]).

Definition memcpy mem (to from : Z) (n : nat) (sync : Z) : option result :=
  if (n =? 0)%nat then Some (mem, [lco_error sync HPX_SUCCESS])
  else if negb (gpa_to_rank to =? rank) then Some (mem, [net_memcpy to from n sync])
  else if negb (gpa_to_rank from =? rank) then Some (mem, [net_memcpy to from n sync])
  else bs ← load mem (gpa_to_offset from) n; mem ← store mem (gpa_to_offset to) bs; Some (mem, [lco_error sync HPX_SUCCESS]).
End PGAS.

(** ** Properties *)

(** An allocation that asks for zeroed blocks divides by the number of localities twice: with
    more blocks than localities, part of every locality's share is not cleared. *)
Lemma zeroBlocks_short ranks n bsize : 1 < ranks -> ranks < n -> 0 < bsize < 2 ^ 32 -> n < 2 ^ 31 ->
  let '(allocated, cleared) := allocateCyclicBlocks ranks n bsize true in cleared < allocated.
Proof.
  intros Hr Hn Hb Hs. unfold allocateCyclicBlocks, zeroBlocks, padded. set (b := ceil_div n ranks). set (c := ceil_div b ranks).
  rewrite ceil_log2_eq by lia. pose proof (Z.log2_up_nonneg bsize). assert (Hl : Z.log2_up bsize <= 32) by (apply Z.log2_up_le_pow2; lia).
  rewrite Z.shiftl_1_l, (wrap_small 64 (2 ^ _)) by (split; [lia|apply Z.pow_lt_mono_r; lia]).
  pose proof (ceil_div_spec n ranks ltac:(lia) ltac:(lia)). fold b in H0. assert (Hb2 : 2 <= b) by nia.
  pose proof (ceil_div_spec b ranks ltac:(lia) ltac:(lia)) as Hc. fold c in Hc. assert (c < b) by nia. assert (0 < c) by nia. assert (b <= n) by nia.
  assert (0 < 2 ^ Z.log2_up bsize <= 2 ^ 32) by (split; [lia|apply Z.pow_le_mono_r; lia]).
  rewrite !wrap_small by nia. nia.
Qed.

(** The memory operations of a locality on its own segment.  A put within the segment succeeds,
    a get of the same range then returns what was put, no other byte changes, and whatever the
    variant, the caller's LCOs are each signalled exactly once. *)
Theorem pgas_local_roundtrip rank (mem : list Z) off (from : list Z) lsync rsync : 0 <= rank < 2 ^ 16 -> 0 <= off < 2 ^ 48 -> from <> [] ->
  off + Z.of_nat (length from) <= Z.of_nat (length mem) ->
  let gpa := offsetToGPA rank off in
  exists mem', memput rank mem gpa from = Some (mem', [])
    /\ memput_rsync rank mem gpa from rsync = Some (mem', [lco_set rsync])
    /\ memput_lsync rank mem gpa from lsync rsync = Some (mem', [lco_error lsync HPX_SUCCESS; lco_error rsync HPX_SUCCESS])
    /\ memget rank mem' gpa (length from) = Some (from, [])
    /\ memget_lsync rank mem' gpa (length from) lsync = Some (from, [lco_set lsync])
    /\ length mem' = length mem
    /\ forall o n, 0 <= o -> o + Z.of_nat n <= off \/ off + Z.of_nat (length from) <= o -> load mem' o n = load mem o n.
Proof.
  intros Hr Ho Hne Hl gpa.
  assert (Hg : gpa_to_rank gpa = rank /\ gpa_to_offset gpa = off).
  { unfold gpa, offsetToGPA. rewrite offset_to_gpa_eq by done. unfold gpa_to_rank, gpa_to_offset, GPA_OFFSET_BITS, GPA_RANK_BITS.
    rewrite Z.shiftr_div_pow2 by lia. split.
    - replace (rank * 2 ^ 48 + off) with (off + rank * 2 ^ 48) by lia. rewrite Z.div_add, Z.div_small by lia. apply wrap_small. lia.
    - replace (rank * 2 ^ 48 + off) with (off + rank * 2 ^ 48) by lia. rewrite wrap_eq_add by lia. apply wrap_small. lia. }
  destruct Hg as [Eg Eo].
  destruct (store mem off from) as [mem'|] eqn:Es; [|rewrite store_some in Es by lia; done].
  pose proof (load_store _ _ _ _ Es) as El. pose proof (store_length _ _ _ _ Es) as Hlen. exists mem'.
  unfold memput, memput_rsync, memput_lsync, memget, memget_lsync. rewrite Eg, Eo, Z.eqb_refl, Es, El.
  destruct (Nat.eqb_spec (length from) 0) as [E0|_]; [by apply length_zero_iff_nil in E0|].
  split_and!; try done; [by destruct from..|]. intros o n0 Ho' Hd. by apply (load_store_ne _ _ _ _ _ _ Es).
Qed.
