(* ===== verification/Gva.v ===== *)
(** * Global virtual addresses

    libhpx/gas/agas/GlobalVirtualAddress.h: the 64-bit address of the active global
    address space, with a 42-bit offset, the logarithm of the block size, a flag for
    cyclic allocations and the home rank.  Two addresses are equal, as the translation
    table sees them, when they are in the same block. *)

From S2P Require Import Prelude Math Gpa.

Definition GVA_RANK_BITS : Z := 16.
Definition GVA_SIZE_BITS : Z := 5.
Definition GVA_OFFSET_BITS : Z := 42.

(** ** Fields *)

Definition offset (a : Z) : Z := wrap GVA_OFFSET_BITS a.
Definition size (a : Z) : Z := wrap GVA_SIZE_BITS (Z.shiftr a 42).
Definition cyclic (a : Z) : Z := wrap 1 (Z.shiftr a 47).
Definition home (a : Z) : Z := wrap GVA_RANK_BITS (Z.shiftr a 48).

Definition GlobalVirtualAddress (o s c h : Z) : Z :=
  Z.lor (Z.shiftl (wrap GVA_RANK_BITS h) 48)
    (Z.lor (Z.shiftl (wrap 1 c) 47) (Z.lor (Z.shiftl (wrap GVA_SIZE_BITS s) 42) (wrap GVA_OFFSET_BITS o))).

Definition toKey (a : Z) : Z :=
  let mask := u64 (Z.lnot (u64 (Z.shiftl 1 (size a)) - 1)) in Z.land a mask.

Definition toBlockOffset (a : Z) : Z :=
  let mask := u64 (Z.shiftl 1 (size a)) - 1 in Z.land a mask.

Definition getBlockSize (a : Z) : Z := u64 (Z.shiftl 1 (size a)).

(** operator== *)
Definition gva_eqb (a b : Z) : bool := toKey a =? toKey b.

#[global] Arguments offset : simpl never.
#[global] Arguments size : simpl never.
#[global] Arguments cyclic : simpl never.
#[global] Arguments home : simpl never.
#[global] Arguments toKey : simpl never.
#[global] Arguments toBlockOffset : simpl never.

(** ** Arithmetic *)

(** The division is unsigned: [n] is converted to the type of [bsize].  The assertion keeps
    the result out of the padding of its block. *)
Definition addLocal (a n bsize : Z) : option Z :=
  let block_size := u64 (Z.shiftl 1 (size a)) in
  let blocks := i64 (u64 n / bsize) in
  let bytes := i64 (u64 n mod bsize) in
  let addr := u64 (a + blocks * block_size + bytes) in
  if Z.land addr (block_size - 1) <? bsize then Some addr else None.

Definition subLocal (a b bsize : Z) : Z :=
  let mask := u64 (Z.shiftl 1 (size a)) - 1 in
  let plhs := Z.land (offset a) mask in
  let prhs := Z.land (offset b) mask in
  let blhs := Z.shiftr (offset a) (size a) in
  let brhs := Z.shiftr (offset b) (size a) in
  i64 (u64 ((plhs - prhs) + (blhs - brhs) * bsize)).

Definition addCyclic (ranks a bytes bsize : Z) : Z :=
  let lhs := gpa_add_cyclic ranks a bytes bsize in
  GlobalVirtualAddress (offset lhs) (size a) 1 (home lhs).

(** The assertion on the block size is checked in every build. *)
Definition add (ranks a bytes bsize : Z) : option Z :=
  if size a =? ceil_log2 64 bsize
  then if nz (cyclic a) then Some (addCyclic ranks a bytes bsize) else addLocal a bytes bsize
  else None.

Definition sub (ranks a b bsize : Z) : option Z :=
  if (size a =? size b) && (size a =? ceil_log2 64 bsize) && (cyclic a =? cyclic b) then
    if nz (cyclic a) then Some (gpa_sub_cyclic ranks a b bsize)
    else if home a =? home b then Some (subLocal a b bsize) else None
  else None.

(** ** Fields and blocks *)

Section Fields.
Variable a : Z.
Hypothesis Ha : a ∈u 64.

Lemma size_range : 0 <= size a < 32.
Proof. apply (wrap_range 5). lia. Qed.

Lemma field_eq :
  offset a = a mod 2 ^ 42 /\ size a = (a / 2 ^ 42) mod 2 ^ 5 /\ cyclic a = (a / 2 ^ 47) mod 2
  /\ home a = a / 2 ^ 48.
Proof.
  unfold offset, size, cyclic, home, wrap, GVA_OFFSET_BITS, GVA_SIZE_BITS, GVA_RANK_BITS.
  rewrite !Z.shiftr_div_pow2 by lia. repeat split. apply Z.mod_small. split; [apply Z.div_pos; lia|].
  apply Z.div_lt_upper_bound; lia.
Qed.

(** An address is the sum of its fields. *)
Lemma fields_sum : a = home a * 2 ^ 48 + cyclic a * 2 ^ 47 + size a * 2 ^ 42 + offset a.
Proof.
  destruct field_eq as (-> & -> & -> & ->).
  pose proof (Z.div_mod a (2 ^ 42) ltac:(lia)). pose proof (Z.div_mod (a / 2 ^ 42) (2 ^ 5) ltac:(lia)).
  pose proof (Z.div_mod (a / 2 ^ 47) 2 ltac:(lia)).
  assert (a / 2 ^ 42 / 2 ^ 5 = a / 2 ^ 47) as E1 by (rewrite Z.div_div by lia; f_equal).
  assert (a / 2 ^ 47 / 2 = a / 2 ^ 48) as E2 by (rewrite Z.div_div by lia; f_equal).
  rewrite E1 in *. rewrite E2 in *. lia.
Qed.

Lemma block_size_eq : getBlockSize a = 2 ^ size a.
Proof.
  pose proof size_range. unfold getBlockSize. rewrite Z.shiftl_1_l. apply wrap_small.
  split; [apply Z.pow_nonneg; lia|apply Z.pow_lt_mono_r; lia].
Qed.

Lemma block_offset_eq : toBlockOffset a = a mod 2 ^ size a.
Proof.
  pose proof size_range. pose proof block_size_eq as E. unfold getBlockSize in E. unfold toBlockOffset.
  rewrite E. apply land_pred_pow2. lia.
Qed.

Lemma key_eq : toKey a = a / 2 ^ size a * 2 ^ size a.
Proof.
  pose proof size_range. pose proof block_size_eq as E. unfold getBlockSize in E. unfold toKey. rewrite E.
  assert (Em : a / 2 ^ size a * 2 ^ size a = Z.shiftl (Z.shiftr a (size a)) (size a)).
  { rewrite Z.shiftl_mul_pow2, Z.shiftr_div_pow2 by lia. done. }
  rewrite Em. apply Z.bits_inj'. intros i Hi. rewrite Z.land_spec, Z.shiftl_spec by done.
  rewrite testbit_wrap, Z.lnot_spec by lia. replace (2 ^ size a - 1) with (Z.ones (size a)) by (rewrite Z.ones_equiv; lia).
  rewrite testbit_ones by lia. destruct (Z.lt_ge_cases i (size a)).
  - rewrite (Z.testbit_neg_r _ (i - size a)) by lia. zcases; try lia; by rewrite ?andb_false_r.
  - rewrite Z.shiftr_spec by lia. replace (i - size a + size a) with i by lia.
    destruct (Z.lt_ge_cases i 64); [zcases; try lia; by rewrite andb_true_r|]. by rewrite (testbit_high 64 a) by lia.
Qed.

(** The key and the offset in the block make up the address. *)
Lemma key_offset : a = toKey a + toBlockOffset a /\ 0 <= toBlockOffset a < getBlockSize a.
Proof.
  pose proof size_range. rewrite key_eq, block_offset_eq, block_size_eq.
  pose proof (Z.div_mod a (2 ^ size a) ltac:(lia)). pose proof (Z.mod_pos_bound a (2 ^ size a) ltac:(lia)). lia.
Qed.

Lemma pow_split : 2 ^ 42 = 2 ^ (42 - size a) * 2 ^ size a.
Proof. pose proof size_range. rewrite <- Z.pow_add_r by lia. f_equal. lia. Qed.

(** The fields above the offset are in the key. *)
Lemma key_high : toKey a / 2 ^ 42 = a / 2 ^ 42.
Proof.
  pose proof size_range. assert (0 < 2 ^ size a) by lia. assert (0 < 2 ^ (42 - size a)) by (apply Z.pow_pos_nonneg; lia).
  rewrite key_eq, pow_split, (Z.mul_comm (2 ^ (42 - size a))), <- !Z.div_div by lia. by rewrite Z.div_mul by lia.
Qed.

Lemma block_number : offset a / 2 ^ size a = (a / 2 ^ size a) mod 2 ^ (42 - size a).
Proof.
  pose proof size_range. destruct field_eq as (-> & _). rewrite pow_split.
  assert (0 < 2 ^ size a) by lia. assert (0 < 2 ^ (42 - size a)) by (apply Z.pow_pos_nonneg; lia).
  rewrite (Z.mul_comm (2 ^ (42 - size a))), Z.rem_mul_r by lia.
  rewrite (Z.mul_comm (2 ^ size a)), Z.div_add by lia.
  rewrite (Z.div_small (a mod 2 ^ size a)); [lia|]. apply Z.mod_pos_bound. lia.
Qed.
End Fields.

(** Equality of the fields above the offset. *)
Lemma high_eq a b : a ∈u 64 -> b ∈u 64 ->
  (a / 2 ^ 42 = b / 2 ^ 42 <-> home a = home b /\ cyclic a = cyclic b /\ size a = size b).
Proof.
  intros Ha Hb. pose proof (fields_sum a Ha) as Ea. pose proof (fields_sum b Hb) as Eb.
  assert (H : forall x, x ∈u 64 -> x / 2 ^ 42 = home x * 2 ^ 6 + cyclic x * 2 ^ 5 + size x).
  { intros x Hx. rewrite (fields_sum x Hx) at 1.
    assert (0 <= offset x < 2 ^ 42) by (apply (wrap_range 42); lia).
    replace (home x * 2 ^ 48 + cyclic x * 2 ^ 47 + size x * 2 ^ 42 + offset x)
      with (offset x + (home x * 2 ^ 6 + cyclic x * 2 ^ 5 + size x) * 2 ^ 42) by lia.
    rewrite Z.div_add by lia. rewrite Z.div_small by lia. lia. }
  rewrite !H by done. pose proof (size_range a). pose proof (size_range b).
  assert (0 <= cyclic a < 2) by (apply (wrap_range 1); lia). assert (0 <= cyclic b < 2) by (apply (wrap_range 1); lia). lia.
Qed.

(** An address is the key of its block and the offset in it, and the translation
    table's equality identifies exactly the addresses of one block: those with the same
    home, the same flag, the same block size and the same block number. *)
Theorem gva_blocks a b : a ∈u 64 -> b ∈u 64 ->
  a = toKey a + toBlockOffset a /\ 0 <= toBlockOffset a < getBlockSize a
  /\ (gva_eqb a b = true <->
       home a = home b /\ cyclic a = cyclic b /\ size a = size b
       /\ offset a / getBlockSize a = offset b / getBlockSize b).
Proof.
  intros Ha Hb. split; [apply key_offset; done|]. split; [apply key_offset; done|].
  unfold gva_eqb. rewrite Z.eqb_eq, !block_size_eq, !block_number by done.
  pose proof (high_eq a b Ha Hb) as Hh. split.
  - intros E. assert (Eh : a / 2 ^ 42 = b / 2 ^ 42) by (rewrite <- (key_high a), <- (key_high b), E; done).
    apply Hh in Eh as (E1 & E2 & E3). repeat split; [done..|]. rewrite !key_eq in E by done. rewrite E3 in *.
    pose proof (size_range b). apply Z.mul_reg_r in E; [|lia]. by rewrite E.
  - intros (E1 & E2 & E3 & E4). assert (Eh : a / 2 ^ 42 = b / 2 ^ 42) by (by apply Hh).
    rewrite !key_eq by done. rewrite E3 in *. f_equal. pose proof (size_range b).
    assert (Hs : 0 < 2 ^ size b) by lia. assert (Ht : 0 < 2 ^ (42 - size b)) by (apply Z.pow_pos_nonneg; lia).
    rewrite (Z.div_mod (a / 2 ^ size b) (2 ^ (42 - size b))), (Z.div_mod (b / 2 ^ size b) (2 ^ (42 - size b))) by lia.
    rewrite E4, !Z.div_div by lia. rewrite (Z.mul_comm (2 ^ size b)), <- (pow_split b). by rewrite Eh.
Qed.

Lemma gva_blocks_witness : gva_eqb (GlobalVirtualAddress 4096 12 0 3) (GlobalVirtualAddress 5000 12 0 3) = true.
Proof. apply (gva_blocks (GlobalVirtualAddress 4096 12 0 3) (GlobalVirtualAddress 5000 12 0 3)); vm_compute; repeat split; discriminate. Defined.

(** ** The table's equality *)

Definition same_block (a b : Z) : Prop := toKey a = toKey b.

#[export] Instance same_block_equivalence : Equivalence same_block.
Proof. split; unfold same_block; [intros a|intros a b|intros a b c]; congruence. Qed.

#[export] Instance same_block_dec : RelDecision same_block.
Proof. intros a b. unfold same_block. apply _. Defined.

#[export] Instance toKey_proper : Proper (same_block ==> eq) toKey.
Proof. by intros a b. Qed.

(** ** Arithmetic on local allocations *)

(** The position of a byte in a local allocation of blocks of [bsize] bytes. *)
Definition local_pos (a bsize : Z) : Z := offset a / 2 ^ size a * bsize + offset a mod 2 ^ size a.

Lemma swrap_cong w x : 0 < w -> exists m, swrap w x = x + m * 2 ^ w.
Proof.
  intros Hw. unfold swrap. exists (- ((x + 2 ^ (w - 1)) / 2 ^ w)).
  pose proof (Z.div_mod (x + 2 ^ (w - 1)) (2 ^ w) ltac:(lia)). lia.
Qed.

Lemma addLocal_eq a n bsize : a ∈u 64 -> 0 < bsize ->
  addLocal a n bsize = let addr := u64 (a + u64 n / bsize * 2 ^ size a + u64 n mod bsize) in
    if addr mod 2 ^ size a <? bsize then Some addr else None.
Proof.
  intros Ha Hb. unfold addLocal. fold (getBlockSize a). rewrite block_size_eq by done. pose proof (size_range a).
  cbv zeta. rewrite land_pred_pow2 by lia.
  destruct (swrap_cong 64 (u64 n / bsize)) as [m1 ->]; [lia|]. destruct (swrap_cong 64 (u64 n mod bsize)) as [m2 ->]; [lia|].
  replace (a + (u64 n / bsize + m1 * 2 ^ 64) * 2 ^ size a + (u64 n mod bsize + m2 * 2 ^ 64))
    with (a + u64 n / bsize * 2 ^ size a + u64 n mod bsize + (m1 * 2 ^ size a + m2) * 2 ^ 64) by ring.
  by rewrite wrap_eq_add by lia.
Qed.

(** With padded blocks, addition is that of 64-bit integers, in both directions. *)
Lemma addLocal_padded a n : a ∈u 64 -> addLocal a n (2 ^ size a) = Some (u64 (a + n)).
Proof.
  intros Ha. pose proof (size_range a). rewrite addLocal_eq by lia. cbv zeta.
  pose proof (Z.div_mod (u64 n) (2 ^ size a) ltac:(lia)).
  assert (E : u64 (a + u64 n / 2 ^ size a * 2 ^ size a + u64 n mod 2 ^ size a) = u64 (a + n))
    by (rewrite <- (wrap_add_r 64 a n); f_equal; lia).
  rewrite E. pose proof (Z.mod_pos_bound (u64 (a + n)) (2 ^ size a) ltac:(lia)).
  by destruct (Z.ltb_spec (u64 (a + n) mod 2 ^ size a) (2 ^ size a)); [|lia].
Qed.

(** The place in a block is that of the offset. *)
Lemma block_mod a s : a ∈u 64 -> 0 <= s <= 42 -> a mod 2 ^ s = offset a mod 2 ^ s.
Proof.
  intros Ha Hs. destruct (field_eq a Ha) as (-> & _). symmetry.
  assert (E : 2 ^ 42 = 2 ^ s * 2 ^ (42 - s)) by (rewrite <- Z.pow_add_r by lia; f_equal; lia).
  rewrite E, Z.rem_mul_r by lia. rewrite (Z.mul_comm (2 ^ s)), Z.mod_add, Z.mod_mod by lia. done.
Qed.

(** Moving up within the offset leaves the other fields. *)
Lemma add_offset a d : a ∈u 64 -> 0 <= d -> offset a + d < 2 ^ 42 ->
  (a + d) ∈u 64 /\ offset (a + d) = offset a + d /\ (a + d) / 2 ^ 42 = a / 2 ^ 42.
Proof.
  intros Ha Hd Ho. destruct (field_eq a Ha) as (E & _). pose proof (Z.div_mod a (2 ^ 42) ltac:(lia)) as Hm.
  pose proof (Z.mod_pos_bound a (2 ^ 42) ltac:(lia)).
  assert (Hq : a / 2 ^ 42 < 2 ^ 22) by (apply Z.div_lt_upper_bound; lia).
  assert (Hr : (a + d) ∈u 64) by (rewrite E in Ho; lia). destruct (field_eq (a + d) Hr) as (E' & _).
  split; [done|]. rewrite E', E in *.
  assert (Heq : a + d = (a mod 2 ^ 42 + d) + a / 2 ^ 42 * 2 ^ 42) by lia.
  rewrite Heq, Z.mod_add, Z.mod_small, Z.div_add, (Z.div_small (a mod 2 ^ 42 + d)) by lia. lia.
Qed.

Lemma subLocal_eq a b bsize : a ∈u 64 -> b ∈u 64 -> size a = size b ->
  subLocal a b bsize = i64 (local_pos a bsize - local_pos b bsize).
Proof.
  intros Ha Hb E. unfold subLocal, local_pos. fold (getBlockSize a). rewrite block_size_eq, <- E by done.
  pose proof (size_range a). rewrite !land_pred_pow2, !Z.shiftr_div_pow2, swrap_wrap by lia. f_equal. ring.
Qed.

(** C33: address arithmetic on a local allocation, as long as it stays in the offset and
    does not cross the padding of a block: adding [n] bytes moves the position by [n] and
    keeps the home, the flag and the block size, subtraction returns [n], and for padded
    blocks addition is that of 64-bit integers, for negative [n] too. *)
Theorem gva_add_local ranks a n bsize : a ∈u 64 -> cyclic a = 0 -> 0 < bsize < 2 ^ 32 -> size a = Z.log2_up bsize ->
  0 <= n < 2 ^ 42 -> offset a mod 2 ^ size a + n mod bsize < bsize ->
  offset a + n / bsize * 2 ^ size a + n mod bsize < 2 ^ 42 ->
  (exists b, add ranks a n bsize = Some b /\ b ∈u 64
     /\ home b = home a /\ cyclic b = cyclic a /\ size b = size a
     /\ local_pos b bsize = local_pos a bsize + n /\ sub ranks b a bsize = Some n)
  /\ (bsize = getBlockSize a -> forall m, add ranks a m bsize = Some (u64 (a + m))).
Proof.
  intros Ha Hc Hb Hs Hn Hp Ho.
  assert (Hsz : (size a =? ceil_log2 64 bsize) = true) by (rewrite ceil_log2_eq, Hs by lia; apply Z.eqb_refl).
  split.
  2: { intros E m. unfold add. rewrite Hsz, Hc, E, block_size_eq by done. simpl. by rewrite addLocal_padded. }
  pose proof (size_range a). set (d := n / bsize * 2 ^ size a + n mod bsize).
  assert (Hq : 0 <= n / bsize) by (apply Z.div_pos; lia). pose proof (Z.mod_pos_bound n bsize ltac:(lia)) as Hr.
  assert (0 <= d) by (unfold d; nia).
  destruct (add_offset a d Ha) as (Hbr & Hbo & Hbh); [done|unfold d; lia|].
  apply (high_eq _ _ Hbr Ha) in Hbh as (E1 & E2 & E3).
  assert (Epos : offset (a + d) mod 2 ^ size a < bsize /\ local_pos (a + d) bsize = local_pos a bsize + n).
  { unfold local_pos. rewrite Hbo, E3. pose proof (Z.div_mod (offset a) (2 ^ size a) ltac:(lia)) as Hm.
    pose proof (Z.mod_pos_bound (offset a) (2 ^ size a) ltac:(lia)).
    assert (Hle : bsize <= 2 ^ size a) by (rewrite Hs; apply log2_up_bounds; lia).
    assert (Heq : offset a + d = (offset a mod 2 ^ size a + n mod bsize) + (offset a / 2 ^ size a + n / bsize) * 2 ^ size a)
      by (unfold d; lia).
    rewrite Heq, Z.mod_add, Z.div_add by lia. rewrite (Z.mod_small (offset a mod _ + _)), (Z.div_small (offset a mod _ + _)) by lia.
    pose proof (Z.div_mod n bsize ltac:(lia)). lia. }
  destruct Epos as [Hin Epos]. assert (Eadd : addLocal a n bsize = Some (a + d)).
  { rewrite addLocal_eq, (wrap_small 64 n) by lia. rewrite <- Z.add_assoc. fold d. cbv zeta. rewrite wrap_small by done.
    rewrite block_mod by (done || lia). by destruct (Z.ltb_spec (offset (a + d) mod 2 ^ size a) bsize); [|lia]. }
  exists (a + d). unfold add, sub. rewrite Hsz, Hc, E1, E2, E3, Hsz, Hc, !Z.eqb_refl. simpl. rewrite Eadd.
  repeat split; try done; try lia. rewrite subLocal_eq by done. rewrite Epos. f_equal.
  replace (local_pos a bsize + n - local_pos a bsize) with n by lia. apply swrap_small; lia.
Qed.

Lemma gva_add_local_witness : exists b,
  add 4 (GlobalVirtualAddress 4100 12 0 3) 6000 3000 = Some b /\ sub 4 b (GlobalVirtualAddress 4100 12 0 3) 3000 = Some 6000.
Proof.
  destruct (gva_add_local 4 (GlobalVirtualAddress 4100 12 0 3) 6000 3000) as [(b & H1 & _ & _ & _ & _ & _ & H2) _];
    [vm_compute; intuition discriminate..|]. by exists b.
Defined.

(** Across the padding of a block the addition goes wrong: two bytes on from the last
    byte of a block of three is the second byte of the next block, and not the first. *)
Lemma addLocal_crosses_padding :
  let a := GlobalVirtualAddress 2 2 0 0 in
  addLocal a 2 3 = Some (GlobalVirtualAddress 4 2 0 0) /\ local_pos (GlobalVirtualAddress 4 2 0 0) 3 = local_pos a 3 + 1.
Proof. split; reflexivity. Qed.

(** So does a negative displacement when the block size is not a power of two. *)
Lemma addLocal_negative :
  let a := GlobalVirtualAddress 8 2 0 0 in
  addLocal a (-3) 3 <> Some (GlobalVirtualAddress 4 2 0 0) /\ local_pos (GlobalVirtualAddress 4 2 0 0) 3 = local_pos a 3 - 3.
Proof. split; [vm_compute; discriminate|reflexivity]. Qed.

(** The largest block size that the address space admits does not fit its field. *)
Lemma max_block_size : size (GlobalVirtualAddress 0 (ceil_log2 64 (2 ^ 32)) 0 0) = 0.
Proof. reflexivity. Qed.
