(* ===== verification/Btt.v ===== *)
(** * The block translation table

    libhpx/gas/agas/BlockTranslationTable.{h,cpp}: a rank's table from global virtual
    blocks to local memory, with the rank that owns a block, the number of pins and the
    thread that waits for them to go.  Each operation on the concurrent hash table is
    atomic, as its documentation promises. *)

From S2P Require Import Prelude Math Gva.

Definition HPX_GAS_ATTR_NONE : Z := 0.

Record Entry := mkEntry {
  count : Z;
  owner : Z;
  lva : Z;                 (* 0 is the null pointer *)
  blocks : Z;
  cont : option Z;         (* the parcel of a waiting thread *)
  attr : Z;
}.

Definition Entry_new (o l b a : Z) : Entry := mkEntry 0 o l b None a.

Definition with_count (e : Entry) (n : Z) : Entry := mkEntry n e.(owner) e.(lva) e.(blocks) e.(cont) e.(attr).
Definition with_owner (e : Entry) (o : Z) : Entry := mkEntry e.(count) o e.(lva) e.(blocks) e.(cont) e.(attr).
Definition with_cont (e : Entry) (c : option Z) : Entry := mkEntry e.(count) e.(owner) e.(lva) e.(blocks) c e.(attr).
Definition with_attr (e : Entry) (a : Z) : Entry := mkEntry e.(count) e.(owner) e.(lva) e.(blocks) e.(cont) a.

Record btt := mkBtt { rank_ : Z; map_ : gmap Z Entry }.

Definition with_map (t : btt) (m : gmap Z Entry) : btt := mkBtt t.(rank_) m.
Definition find (t : btt) (gva : Z) : option Entry := t.(map_) !! toKey gva.
Definition store (t : btt) (gva : Z) (e : Entry) : btt := with_map t (<[toKey gva := e]> t.(map_)).

Implicit Types (t : btt) (gva : Z) (e : Entry).

(** ** Operations *)

Definition insert t gva (o l b a : Z) : option btt :=
  match find t gva with
  | Some _ => None
  | None => Some (store t gva (Entry_new o l b a))
  end.

Definition upsert t gva (o l b a : Z) : btt := store t gva (Entry_new o l b a).

Definition updateOwner t gva (o : Z) : option btt :=
  if o =? t.(rank_) then None
  else match find t gva with
  | None => Some (store t gva (Entry_new o 0 1 HPX_GAS_ATTR_NONE))
  | Some e => if e.(count) =? 0 then Some (store t gva (with_owner e o)) else None
  end.

Inductive pin_result := Pinned (l : Z) | Missing | NotOwner (o : Z).

(** On [NotOwner] the source of the current parcel is told the owner. *)
Definition tryPin t gva : option (btt * pin_result) :=
  match find t gva with
  | None => if home gva =? t.(rank_) then None else Some (t, Missing)
  | Some e =>
    if e.(owner) =? t.(rank_) then
      if (0 <=? e.(count)) && (e.(count) <? 2 ^ 31 - 1)
      then Some (store t gva (with_count e (e.(count) + 1)), Pinned (e.(lva) + toBlockOffset gva))
      else None
    else Some (t, NotOwner e.(owner))
  end.

(** The thread that unpin spawns. *)
Definition unpin t gva : option (btt * option Z) :=
  e ← find t gva;
  if (e.(owner) =? t.(rank_)) && (0 <? e.(count)) then
    let e := with_count e (e.(count) - 1) in
    if nz e.(count) then Some (store t gva (with_cont e None), e.(cont)) else Some (store t gva e, None)
  else None.

Definition getLVA t gva : Z := match find t gva with Some e => e.(lva) | None => 0 end.

Definition getOwner t gva : option Z := e ← find t gva; Some (u16 e.(owner)).

Definition getOwner_cached t gva : Z * bool :=
  match find t gva with Some e => (u16 e.(owner), true) | None => (home gva, false) end.

Definition getAttr t gva : Z := match find t gva with Some e => e.(attr) | None => HPX_GAS_ATTR_NONE end.

Definition setAttr t gva (a : Z) : option btt := e ← find t gva; Some (store t gva (with_attr e (Z.lor e.(attr) a))).

Definition getSegment t gva : option (Z * Z) := e ← find t gva; Some (e.(lva), e.(blocks)).

(** The continuation of a thread [p] that waits for the pins to go: it is recorded, or
    spawned again. *)
Definition waitForZeroCount t gva (p : Z) : option (btt * option Z) :=
  match find t gva with
  | None => Some (t, Some p)
  | Some e =>
    if nz e.(count) then
      match e.(cont) with
      | Some _ => None
      | None => Some (store t gva (with_cont e (Some p)), None)
      end
    else Some (t, Some p)
  end.

Definition erase t gva : btt := with_map t (delete (toKey gva) t.(map_)).

(** The two operations of tryRemove, and its result when nothing comes between them. *)
Definition remove_read t gva : option (Z * Z) := e ← find t gva; Some (e.(count), e.(lva)).

Definition tryRemove t gva : option (btt * option Z) :=
  '(n, l) ← remove_read t gva;
  if n =? 0 then Some (erase t gva, Some l) else Some (t, None).

Definition tryRemoveForFastpathFree t gva : btt * Z :=
  if nz (cyclic gva) || negb (home gva =? t.(rank_)) then (t, 0)
  else match find t gva with
  | None => (t, 0)
  | Some e =>
    let out := if (e.(count) =? 0) && (e.(blocks) =? 1) then e.(lva) else 0 in
    if nz out then (erase t gva, out) else (t, out)
  end.

(** The local memory and the attributes, when the block could be moved. *)
Definition tryMove t gva (to : Z) : btt * option (Z * Z) :=
  match find t gva with
  | None => (t, None)
  | Some e =>
    if e.(count) =? 0
    then (store t gva (with_owner e to), if nz e.(lva) then Some (e.(lva), e.(attr)) else None)
    else (t, None)
  end.

(** ** The table sees blocks, not addresses *)

Ltac block_proper :=
  repeat intro; subst;
  match goal with E : same_block ?a ?b |- _ =>
    unfold find, store, erase in *; unfold same_block in E; rewrite ?E; reflexivity end.

#[export] Instance find_proper : Proper (eq ==> same_block ==> eq) find.
Proof. block_proper. Qed.

#[export] Instance store_proper : Proper (eq ==> same_block ==> eq ==> eq) store.
Proof. block_proper. Qed.

#[export] Instance erase_proper : Proper (eq ==> same_block ==> eq) erase.
Proof. block_proper. Qed.

#[export] Instance upsert_proper : Proper (eq ==> same_block ==> eq ==> eq ==> eq ==> eq ==> eq) upsert.
Proof. unfold upsert. block_proper. Qed.

#[export] Instance updateOwner_proper : Proper (eq ==> same_block ==> eq ==> eq) updateOwner.
Proof. unfold updateOwner. block_proper. Qed.

#[export] Instance unpin_proper : Proper (eq ==> same_block ==> eq) unpin.
Proof. unfold unpin. block_proper. Qed.

#[export] Instance tryMove_proper : Proper (eq ==> same_block ==> eq ==> eq) tryMove.
Proof. unfold tryMove. block_proper. Qed.

#[export] Instance getOwner_proper : Proper (eq ==> same_block ==> eq) getOwner.
Proof. unfold getOwner. block_proper. Qed.

#[export] Instance waitForZeroCount_proper : Proper (eq ==> same_block ==> eq ==> eq) waitForZeroCount.
Proof. unfold waitForZeroCount. block_proper. Qed.

Lemma find_store t gva e g : find (store t gva e) g = if decide (toKey gva = toKey g) then Some e else find t g.
Proof. unfold find, store; simpl. case_decide as E; [rewrite E; apply lookup_insert_eq|by apply lookup_insert_ne]. Qed.

Lemma find_erase t gva g : find (erase t gva) g = if decide (toKey gva = toKey g) then None else find t g.
Proof. unfold find, erase; simpl. case_decide as E; [rewrite E; apply lookup_delete_eq|by apply lookup_delete_ne]. Qed.

(** ** Pins *)

Inductive op :=
| Insert (gva o l b a : Z)
| Upsert (gva o l b a : Z)
| UpdateOwner (gva o : Z)
| Pin (gva : Z)
| Unpin (gva : Z)
| SetAttr (gva a : Z)
| Wait (gva p : Z)
| Move (gva to : Z)
| Erase (gva : Z).

(** A table and the pins that its clients hold: the block, and the memory they were given. *)
Record pinned := mkPinned { table : btt; pins : list (Z * Z) }.

Definition release (l : list (Z * Z)) (k : Z) : option (list (Z * Z)) :=
  '(i, _) ← list_find (fun p => p.1 = k) l; Some (delete i l).

Definition pin_step (y : pinned) (o : op) : option pinned :=
  let t := y.(table) in
  match o with
  | Insert g o l b a => t ← insert t g o l b a; Some (mkPinned t y.(pins))
  | Upsert g o l b a => Some (mkPinned (upsert t g o l b a) y.(pins))
  | UpdateOwner g o => t ← updateOwner t g o; Some (mkPinned t y.(pins))
  | Pin g =>
    '(t, r) ← tryPin t g;
    match r with
    | Pinned l => Some (mkPinned t ((toKey g, l - toBlockOffset g) :: y.(pins)))
    | _ => Some (mkPinned t y.(pins))
    end
  | Unpin g => ps ← release y.(pins) (toKey g); '(t, _) ← unpin t g; Some (mkPinned t ps)
  | SetAttr g a => t ← setAttr t g a; Some (mkPinned t y.(pins))
  | Wait g p => '(t, _) ← waitForZeroCount t g p; Some (mkPinned t y.(pins))
  | Move g to => Some (mkPinned (tryMove t g to).1 y.(pins))
  | Erase g => Some (mkPinned (erase t g) y.(pins))
  end.

Definition on_block (k : Z) (p : Z * Z) : Z := if decide (p.1 = k) then 1 else 0.
Definition npins (k : Z) (l : list (Z * Z)) : Z := sum_of (on_block k) l.

(** The clients' part: a block that arrives is not pinned, nor is one whose translation is
    erased, and a block is unpinned by who pinned it. *)
Definition client_ok (y : pinned) (o : op) : Prop :=
  match o with
  | Upsert g _ _ _ _ | Erase g => npins (toKey g) y.(pins) = 0
  | Unpin g => 0 < npins (toKey g) y.(pins)
  | Pin g => npins (toKey g) y.(pins) < 2 ^ 31 - 1
  | _ => True
  end.

Inductive pin_run (r : Z) : pinned -> Prop :=
| pin_start : pin_run r (mkPinned (mkBtt r ∅) [])
| pin_next y o y' : pin_run r y -> client_ok y o -> pin_step y o = Some y' -> pin_run r y'.

Definition pins_inv (y : pinned) : Prop :=
  (forall k e, y.(table).(map_) !! k = Some e -> e.(count) = npins k y.(pins))
  /\ (forall k l, (k, l) ∈ y.(pins) -> exists e, y.(table).(map_) !! k = Some e /\ e.(owner) = y.(table).(rank_) /\ e.(lva) = l).

Lemma npins_nonneg k l : 0 <= npins k l.
Proof. apply sum_of_nonneg. intros p _. unfold on_block. case_decide; lia. Qed.

Lemma npins_zero k l b : npins k l = 0 -> (k, b) ∉ l.
Proof.
  intros H Hin. assert (Hle : on_block k (k, b) <= npins k l).
  { apply sum_of_elem; [|done]. intros p _. unfold on_block. case_decide; lia. }
  unfold on_block in Hle. simpl in Hle. rewrite decide_True in Hle by done. lia.
Qed.

Lemma npins_pos k l : 0 < npins k l -> exists b, (k, b) ∈ l.
Proof.
  induction l as [|[k' b] l IH]; unfold npins; simpl; [lia|]. fold (npins k l). unfold on_block; simpl. case_decide as E.
  - intros _. exists b. rewrite E. left.
  - intros H. destruct IH as [b' Hb]; [lia|]. exists b'. by right.
Qed.

Lemma release_spec l k : 0 < npins k l ->
  exists l', release l k = Some l' /\ (forall k', npins k' l' = npins k' l - (if decide (k = k') then 1 else 0))
    /\ (forall p, p ∈ l' -> p ∈ l).
Proof.
  intros Hp. apply npins_pos in Hp as [b Hb]. unfold release.
  destruct (list_find (fun p => p.1 = k) l) as [[i p]|] eqn:E.
  - apply list_find_Some in E as (Hi & Hk & _). eexists. split; [done|]. split.
    + intros k'. unfold npins. rewrite (sum_of_delete _ _ _ _ Hi). unfold on_block. by rewrite Hk.
    + intros q Hq. by eapply elem_of_delete.
  - apply list_find_None in E. rewrite Forall_forall in E. by apply E in Hb.
Qed.

Lemma pins_store y g e ps : pins_inv y ->
  (forall k, k <> toKey g -> npins k ps = npins k y.(pins)) ->
  (forall k b, k <> toKey g -> (k, b) ∈ ps -> (k, b) ∈ y.(pins)) ->
  e.(count) = npins (toKey g) ps ->
  (forall b, (toKey g, b) ∈ ps -> e.(owner) = y.(table).(rank_) /\ e.(lva) = b) ->
  pins_inv (mkPinned (store y.(table) g e) ps).
Proof.
  intros [I1 I2] Hn Hin Hc Ho. split; simpl.
  - intros k e' Hk. apply lookup_insert_Some in Hk as [[<- <-]|[Hne Hk]]; [done|]. rewrite Hn by done. by apply I1.
  - intros k b Hb. destruct (decide (k = toKey g)) as [->|Hne].
    + exists e. rewrite lookup_insert_eq. by destruct (Ho b Hb).
    + rewrite lookup_insert_ne by done. by apply I2, Hin.
Qed.

(** An update of an entry that keeps what its pins rely on. *)
Lemma pins_update y g e e' : pins_inv y -> find y.(table) g = Some e -> e'.(count) = e.(count) ->
  (e.(count) = 0 \/ e'.(owner) = e.(owner) /\ e'.(lva) = e.(lva)) -> pins_inv (mkPinned (store y.(table) g e') y.(pins)).
Proof.
  intros I Hf Hc Ho. pose proof I as [I1 I2]. apply pins_store; try done.
  - rewrite Hc. by apply I1.
  - intros b Hb. destruct (I2 _ _ Hb) as (e2 & He & H1 & H2). unfold find in Hf. rewrite Hf in He. injection He as <-.
    destruct Ho as [Hz|[-> ->]]; [|done]. exfalso. rewrite (I1 _ _ Hf) in Hz. by apply (npins_zero _ _ b) in Hz.
Qed.

Lemma pins_fresh y g e : pins_inv y -> npins (toKey g) y.(pins) = 0 -> e.(count) = 0 ->
  pins_inv (mkPinned (store y.(table) g e) y.(pins)).
Proof.
  intros I Hz Hc. apply pins_store; try done; [congruence|]. intros b Hb. by apply (npins_zero _ _ b) in Hz.
Qed.

Lemma unmapped_npins y g : pins_inv y -> find y.(table) g = None -> npins (toKey g) y.(pins) = 0.
Proof.
  intros [_ I2] Hf. destruct (Z.lt_ge_cases 0 (npins (toKey g) (pins y))) as [Hp|]; [|pose proof (npins_nonneg (toKey g) (pins y)); lia].
  apply npins_pos in Hp as [b Hb]. apply I2 in Hb as (e & He & _). unfold find in Hf. congruence.
Qed.

Lemma pin_step_inv y o y' : pins_inv y -> client_ok y o -> pin_step y o = Some y' -> pins_inv y'.
Proof.
  intros I Hc H. pose proof I as [I1 I2]. destruct o as [g o l b a|g o l b a|g o|g|g|g a|g p|g to|g]; simpl in H, Hc.
  - unfold insert in H. destruct (find (table y) g) eqn:Hf; [done|]. injection H as <-.
    apply pins_fresh; [done|by apply unmapped_npins|done].
  - injection H as <-. by apply pins_fresh.
  - unfold updateOwner in H. destruct (o =? _); [done|]. destruct (find (table y) g) as [e|] eqn:Hf.
    + destruct (Z.eqb_spec (count e) 0); [|done]. injection H as <-. eapply pins_update; [done..|]. by left.
    + injection H as <-. apply pins_fresh; [done|by apply unmapped_npins|done].
  - unfold tryPin in H. destruct (find (table y) g) as [e|] eqn:Hf; [|by destruct (home g =? _); simplify_eq/=; destruct y].
    destruct (Z.eqb_spec (owner e) (rank_ (table y))); [|by simplify_eq/=; destruct y].
    destruct (_ && _); [|done]. cbn [mbind option_bind] in H. injection H as <-.
    replace (lva e + toBlockOffset g - toBlockOffset g) with (lva e) by lia. apply pins_store; [done|..].
    + intros k Hne. unfold npins; simpl. unfold on_block at 1; simpl. rewrite decide_False by done. lia.
    + intros k b Hne Hin. apply elem_of_cons in Hin as [Heq|Hin]; [|done]. congruence.
    + unfold npins; simpl. unfold on_block at 1; simpl. rewrite decide_True by done. rewrite (I1 _ _ Hf). unfold npins. lia.
    + intros b Hb. split; [done|]. apply elem_of_cons in Hb as [[= ->]|Hb]; [done|].
      destruct (I2 _ _ Hb) as (e2 & He & _ & Hl). unfold find in Hf. simpl. congruence.
  - destruct (release_spec _ _ Hc) as (ps & Er & Hn & Hin). rewrite Er in H. cbn [mbind option_bind] in H.
    unfold unpin in H. destruct (find (table y) g) as [e|] eqn:Hf; [|done]. cbn [mbind option_bind] in H.
    destruct (_ && _) eqn:E; [|done]. apply andb_true_iff in E as [E1 E2]. zbool.
    assert (G : forall c, pins_inv (mkPinned (store (table y) g (with_cont (with_count e (count e - 1)) c)) ps)).
    { intros c. apply pins_store; [done|..].
      - intros k Hne. rewrite Hn, decide_False by done. lia.
      - intros k b _ Hb. by apply Hin.
      - simpl. rewrite Hn, decide_True by done. by rewrite (I1 _ _ Hf).
      - intros b Hb. split; [done|]. destruct (I2 _ _ (Hin _ Hb)) as (e2 & He & _ & Hl). unfold find in Hf. simpl. congruence. }
    destruct (nz _); simpl in H; injection H as <-; [apply G|]. specialize (G (cont e)). by destruct e.
  - unfold setAttr in H. destruct (find (table y) g) as [e|] eqn:Hf; [|done]. cbn [mbind option_bind] in H. injection H as <-.
    eapply pins_update; [done..|]. by right.
  - unfold waitForZeroCount in H. destruct (find (table y) g) as [e|] eqn:Hf; [|by simplify_eq/=; destruct y].
    destruct (nz _); [|by simplify_eq/=; destruct y]. destruct (cont e); [done|]. simpl in H. injection H as <-.
    eapply pins_update; [done..|]. by right.
  - unfold tryMove in H. destruct (find (table y) g) as [e|] eqn:Hf; [|by simplify_eq/=; destruct y].
    destruct (Z.eqb_spec (count e) 0); [|by simplify_eq/=; destruct y]. simpl in H. injection H as <-.
    eapply pins_update; [done..|]. by left.
  - injection H as <-. split; simpl.
    + intros k e Hk. apply lookup_delete_Some in Hk as [_ Hk]. by apply I1.
    + intros k b Hb. rewrite lookup_delete_ne; [by apply I2|]. intros <-. by apply (npins_zero _ _ b) in Hc.
Qed.

Lemma pin_step_rank y o y' : pin_step y o = Some y' -> y'.(table).(rank_) = y.(table).(rank_).
Proof.
  destruct o; simpl; unfold insert, updateOwner, tryPin, unpin, setAttr, waitForZeroCount, tryMove, mbind, option_bind; intros H;
    repeat (match type of H with context [match ?x with _ => _ end] =>
              lazymatch x with context [match _ with _ => _ end] => fail | _ => destruct x end end; try discriminate);
    injection H as <-; reflexivity.
Qed.

Lemma pin_run_inv r y : pin_run r y -> pins_inv y /\ y.(table).(rank_) = r.
Proof.
  induction 1 as [|y o y' Hr [I E] Hc Hs].
  - split; [split; simpl|done]; [intros k e Hk; by rewrite lookup_empty in Hk|intros k l Hl; by apply elem_of_nil in Hl].
  - split; [by eapply pin_step_inv|]. rewrite <- E. by eapply pin_step_rank.
Qed.

(** C24: a pin protects its translation.  In every run of the table in which blocks arrive
    and translations are erased only while they are not pinned, the count of an entry is
    the number of pins that are held; as long as a pin is held, the block is mapped, owned
    by this rank and at the memory the pin was given, whatever moves, waits, owner and
    attribute updates are tried; a move or an owner update of it does not take place, and
    it can be unpinned. *)
Theorem pins_protect r y k l g : pin_run r y -> (k, l) ∈ y.(pins) -> toKey g = k ->
  (exists e, find y.(table) g = Some e /\ e.(owner) = r /\ e.(lva) = l
     /\ e.(count) = npins k y.(pins) /\ 0 < e.(count))
  /\ (forall to, tryMove y.(table) g to = (y.(table), None))
  /\ (forall o, updateOwner y.(table) g o = None)
  /\ is_Some (unpin y.(table) g).
Proof.
  intros Hr Hin <-. destruct (pin_run_inv _ _ Hr) as [[I1 I2] <-]. destruct (I2 _ _ Hin) as (e & He & Ho & Hl).
  pose proof (I1 _ _ He) as Hc. assert (Hpos : 0 < npins (toKey g) (pins y)).
  { destruct (Z.eq_dec (npins (toKey g) (pins y)) 0) as [Hz|]; [by apply (npins_zero _ _ l) in Hz|].
    pose proof (npins_nonneg (toKey g) (pins y)). lia. }
  assert (Hf : find (table y) g = Some e) by done. split; [exists e; repeat split; (done || lia)|].
  assert (Ez : (count e =? 0) = false) by (apply Z.eqb_neq; lia). split; [|split].
  - intros to. unfold tryMove. by rewrite Hf, Ez.
  - intros o. unfold updateOwner. rewrite Hf, Ez. by destruct (o =? _).
  - unfold unpin. rewrite Hf. cbn [mbind option_bind]. rewrite Ho, Z.eqb_refl, (proj2 (Z.ltb_lt 0 (count e))) by lia. simpl.
    destruct (nz _); by eexists.
Qed.

(** *** Executable runs *)

#[export] Instance client_ok_dec y o : Decision (client_ok y o).
Proof. destruct o; simpl; apply _. Defined.

Fixpoint pin_exec (y : pinned) (os : list op) : option pinned :=
  match os with
  | [] => Some y
  | o :: os => if decide (client_ok y o) then y ← pin_step y o; pin_exec y os else None
  end.

Lemma pin_exec_run r os : forall y y', pin_run r y -> pin_exec y os = Some y' -> pin_run r y'.
Proof.
  induction os as [|o os IH]; simpl; intros y y' Hr H; [by simplify_eq|]. case_decide as Hc; [|done].
  destruct (pin_step y o) as [y1|] eqn:E; [|done]; cbn [mbind option_bind] in H. eapply IH; [|done]. by econstructor.
Qed.

(** A block of rank 1 at address 4096, pinned twice and unpinned once. *)
Definition demo_gva : Z := GlobalVirtualAddress 8192 12 0 1.
Definition demo_pins : list op := [Insert demo_gva 1 4096 1 0; Pin demo_gva; Pin (demo_gva + 5); Move demo_gva 2; Unpin demo_gva].
Definition demo_pinned : option pinned := pin_exec (mkPinned (mkBtt 1 ∅) []) demo_pins.

Lemma demo_pin_run y : demo_pinned = Some y -> pin_run 1 y.
Proof. unfold demo_pinned. apply pin_exec_run. constructor. Qed.

Lemma demo_pin_held : pins <$> demo_pinned = Some [(toKey demo_gva, 4096)].
Proof. vm_compute. reflexivity. Qed.

Lemma pins_protect_witness : exists y, demo_pinned = Some y /\ forall to, tryMove y.(table) demo_gva to = (y.(table), None).
Proof.
  destruct (proj1 (fmap_Some pins demo_pinned [(toKey demo_gva, 4096)]) demo_pin_held) as (y & E & Hp).
  exists y. split; [exact E|].
  destruct (pins_protect 1 y (toKey demo_gva) 4096 demo_gva (demo_pin_run y E)) as (_ & H & _); [|reflexivity|exact H].
  rewrite <- Hp. apply list_elem_of_here.
Defined.

(** ** Waiting and removing *)

(** The last unpin leaves the thread that waits for it, and an earlier one wakes it. *)
Lemma unpin_wakes t gva e p : find t gva = Some e -> e.(owner) = t.(rank_) -> 0 < e.(count) -> e.(cont) = Some p ->
  exists t' e', find t' gva = Some e' /\ e'.(count) = e.(count) - 1
    /\ (e.(count) = 1 -> unpin t gva = Some (t', None) /\ e'.(cont) = Some p)
    /\ (1 < e.(count) -> unpin t gva = Some (t', Some p) /\ e'.(cont) = None).
Proof.
  intros Hf Ho Hc Hp. unfold unpin. rewrite Hf. cbn [mbind option_bind]. rewrite Ho, Z.eqb_refl, (proj2 (Z.ltb_lt _ _) Hc). simpl.
  destruct (Z.eq_dec (count e) 1) as [E|E].
  - rewrite E. simpl. exists (store t gva (with_count e 0)), (with_count e 0).
    rewrite find_store, decide_True by done. repeat split; (done || lia).
  - unfold nz. destruct (Z.eqb_spec (count e - 1) 0); [lia|]. simpl.
    exists (store t gva (with_cont (with_count e (count e - 1)) None)), (with_cont (with_count e (count e - 1)) None).
    rewrite find_store, decide_True, Hp by done. repeat split; (done || lia).
Qed.

(** A second thread that waits fails the assertion. *)
Lemma second_waiter t gva e p q : find t gva = Some e -> e.(count) <> 0 -> e.(cont) = Some p ->
  waitForZeroCount t gva q = None.
Proof. intros Hf Hc Hp. unfold waitForZeroCount, nz. rewrite Hf, Hp. by destruct (Z.eqb_spec (count e) 0). Qed.

(** A pin between the two operations of tryRemove is lost: the block cannot be unpinned. *)
Lemma remove_race t gva e : find t gva = Some e -> e.(count) = 0 -> e.(owner) = t.(rank_) ->
  remove_read t gva = Some (0, e.(lva))
  /\ exists t' l, tryPin t gva = Some (t', Pinned l) /\ unpin (erase t' gva) gva = None.
Proof.
  intros Hf Hc Ho. unfold remove_read, tryPin, unpin. rewrite Hf. simpl. rewrite Hc, Ho, Z.eqb_refl. split; [done|]. simpl.
  do 2 eexists. split; [done|]. by rewrite find_erase, decide_True.
Qed.

(** A move looks at the count only: a second one, after the block has left, returns the
    memory that was moved, and sends the rest of the rank to its own destination. *)
Lemma move_twice t gva e to to' : find t gva = Some e -> e.(count) = 0 -> e.(lva) <> 0 ->
  let '(t1, r1) := tryMove t gva to in
  let '(t2, r2) := tryMove t1 gva to' in
  r1 = Some (e.(lva), e.(attr)) /\ r2 = Some (e.(lva), e.(attr)) /\ getOwner t2 gva = Some (u16 to') /\ getLVA t2 gva = e.(lva).
Proof.
  intros Hf Hc Hl. unfold tryMove, getOwner, getLVA. rewrite Hf, Hc. simpl. rewrite find_store, decide_True by done. simpl.
  rewrite Hc. simpl. rewrite find_store, decide_True by done. simpl. unfold nz. by destruct (Z.eqb_spec (lva e) 0).
Qed.
