(* ===== verification/Agas.v ===== *)
(** * Moving blocks between ranks

    libhpx/gas/agas/AGAS.{h,cpp}: every rank has a translation table and memory; a block
    starts at its home, moves when the rank that owns it invalidates its mapping and sends
    it on, and is reached by following what the ranks know of its owner.  A rank that is
    asked for a block it does not own tells the source.  One block is followed here.  Threads
    pin it, use it and unpin it, and move it, with a step for each operation on the table of
    a rank; the messages of the protocol are delivered in any order. *)

From S2P Require Import Prelude Math Gva Btt.

Section Agas.
Context {D : Type}.                   (* the contents of a block *)

(** ** Ranks *)

Record local := mkLocal { tbl : btt; mem : gmap Z D }.

Implicit Types (x : local) (d : D).

Definition with_tbl x t : local := mkLocal t x.(mem).

Definition THERE_OFFSET : Z := 4398046511103.

Definition there (i : Z) : Z := GlobalVirtualAddress THERE_OFFSET 0 0 i.

Definition ownerOf x gva : Z :=
  if offset gva =? THERE_OFFSET then home gva else (getOwner_cached x.(tbl) gva).1.

(** [a] is the address that malloc returns. *)
Definition upsertBlock x gva (at_ : Z) d (a : Z) : option local :=
  match x.(mem) !! a with
  | Some _ => None
  | None =>
    if a =? 0 then None
    else Some (mkLocal (upsert x.(tbl) gva x.(tbl).(rank_) a 1 at_) (<[a := d]> x.(mem)))
  end.

(** free(): the address must have been allocated. *)
Definition free_mem x (a : Z) : option local :=
  match x.(mem) !! a with
  | Some _ => Some (mkLocal x.(tbl) (delete a x.(mem)))
  | None => None
  end.

(** invalidateMapping, in the parts between which other threads run.  Up to the check of the
    owner: *)
Inductive checked :=
| Done                        (* the block is where it should go *)
| Resend
| Proceed.

Definition invalidate_check x gva (to : Z) : option checked :=
  if x.(tbl).(rank_) =? to then Some Done
  else
    o ← getOwner x.(tbl) gva;
    Some (if negb (o =? x.(tbl).(rank_)) then Resend else Proceed).

(** A round of the loop of move, its attempt and its wait for the pins to go: the attempt gives
    the memory and the attributes of the block, the wait whether the thread [p] runs again. *)
Definition invalidate_try x gva (to : Z) : local * option (Z * Z) :=
  let '(t, r) := tryMove x.(tbl) gva to in (with_tbl x t, r).

Definition invalidate_wait x gva (p : Z) : option (local * bool) :=
  '(t, r) ← waitForZeroCount x.(tbl) gva p;
  Some (with_tbl x t, bool_decide (is_Some r)).

(** The copy of the block into the parcel, and the release of its memory away from home. *)
Definition invalidate_send x gva (l : Z) : option (local * D) :=
  d ← x.(mem) !! l;
  x ← (if home gva =? x.(tbl).(rank_) then Some x else free_mem x l);
  Some (x, d).

(** A pinned access that may write, as one step: the contents it sees, or what the source is
    told. *)
Inductive accessed := Seen (d : D) | Failed (tell : option (Z * Z)).

Definition access x gva (src : Z) (w : option D) : option (local * accessed) :=
  '(t, r) ← tryPin x.(tbl) gva;
  match r with
  | Pinned l =>
    let l := l - toBlockOffset gva in
    d ← x.(mem) !! l;
    '(t, _) ← unpin t gva;
    Some (mkLocal t (match w with Some d' => <[l := d']> x.(mem) | None => x.(mem) end), Seen d)
  | Missing => Some (with_tbl x t, Failed None)
  | NotOwner o =>
    Some (with_tbl x t, Failed (if src =? x.(tbl).(rank_) then None else Some (src, o)))
  end.

Definition UpdateOwnerHandler x gva (o : Z) : option local :=
  t ← updateOwner x.(tbl) gva (u16 o); Some (with_tbl x t).

(** freeBlock at a rank at which the block is not pinned: true when the request goes on to
    the home of the block. *)
Definition freeBlock x gva : option (local * bool) :=
  '(t, r) ← tryRemove x.(tbl) gva;
  match r with
  | None => None
  | Some l =>
    let x := with_tbl x t in
    if home gva =? x.(tbl).(rank_) then Some (x, false)
    else x ← free_mem x l; Some (x, true)
  end.

(** ** The system *)

(** The parcel of UpsertBlock goes to the address that the block is moved to, which is taken
    to stay at the rank that the move names. *)
Inductive message :=
| UpsertBlock (to at_ : Z) (d : D)
| UpdateOwner (s o : Z).

(** A thread at rank [r]: it has pinned the block, whose memory is at [l], or runs
    invalidateMapping. *)
Inductive phase :=
| Holds (r l : Z)
| Tries (r to : Z)              (* it found the rank to be the owner *)
| Awaits (r to : Z)             (* tryMove has failed *)
| Parks (r to : Z)              (* it waits in the entry of the block *)
| Took (r to at_ l : Z)         (* it has the block, still in its old memory *)
| Ended.

(** The ranks that held the block, in the order they got it, and its last contents, are
    recorded for the specification. *)
Record world := mkWorld {
  ranks : list local;
  network : list message;
  threads : list phase;
  hist : list Z;
  latest : D;
}.

Implicit Types (y : world) (ths : list phase).

Inductive label :=
| TakePin (r src : Z)
| UsePin (i : nat) (w : option D)
| DropPin (i : nat)
| StartMove (r to : Z)
| TryMove (i : nat)
| AwaitPins (i : nat)
| SendBlock (i : nat)
| Deliver (i : nat) (a : Z).

Definition rank y (r : Z) : option local := if r <? 0 then None else y.(ranks) !! Z.to_nat r.
Definition set_rank y (r : Z) x : world := mkWorld (<[Z.to_nat r := x]> y.(ranks)) y.(network) y.(threads) y.(hist) y.(latest).
Definition with_net y n : world := mkWorld y.(ranks) n y.(threads) y.(hist) y.(latest).
Definition with_threads y ths : world := mkWorld y.(ranks) y.(network) ths y.(hist) y.(latest).
Definition with_latest y d : world := mkWorld y.(ranks) y.(network) y.(threads) y.(hist) d.

(** The thread that unpin spawns goes on with the loop of move. *)
Definition wake (ths : list phase) (c : option Z) : list phase :=
  match c with
  | None => ths
  | Some p =>
    match ths !! Z.to_nat p with
    | Some (Parks r to) => <[Z.to_nat p := Tries r to]> ths
    | _ => ths
    end
  end.

Section Block.
Variable gva : Z.

Definition agas_step y (b : label) : option (world * option D) :=
  match b with
  | TakePin r src =>
    x ← rank y r;
    '(t, res) ← tryPin x.(tbl) gva;
    let y := set_rank y r (with_tbl x t) in
    match res with
    | Pinned l => Some (with_threads y (y.(threads) ++ [Holds r (l - toBlockOffset gva)]), None)
    | Missing => Some (y, None)
    | NotOwner o =>
      Some (if src =? r then y else with_net y (y.(network) ++ [UpdateOwner src o]), None)
    end
  | UsePin i w =>
    p ← y.(threads) !! i;
    match p with
    | Holds r l =>
      x ← rank y r;
      d ← x.(mem) !! l;
      Some (match w with
            | Some d' => with_latest (set_rank y r (mkLocal x.(tbl) (<[l := d']> x.(mem)))) d'
            | None => y
            end, Some d)
    | _ => None
    end
  | DropPin i =>
    p ← y.(threads) !! i;
    match p with
    | Holds r l =>
      x ← rank y r;
      '(t, c) ← unpin x.(tbl) gva;
      Some (with_threads (set_rank y r (with_tbl x t)) (wake (<[i := Ended]> y.(threads)) c), None)
    | _ => None
    end
  | StartMove r to =>
    x ← rank y r;
    c ← invalidate_check x gva to;
    Some (match c with Proceed => with_threads y (y.(threads) ++ [Tries r to]) | _ => y end, None)
  | TryMove i =>
    p ← y.(threads) !! i;
    match p with
    | Tries r to =>
      x ← rank y r;
      let '(x, res) := invalidate_try x gva to in
      Some (with_threads (set_rank y r x)
        (<[i := match res with Some (l, at_) => Took r to at_ l | None => Awaits r to end]> y.(threads)), None)
    | _ => None
    end
  | AwaitPins i =>
    p ← y.(threads) !! i;
    match p with
    | Awaits r to =>
      x ← rank y r;
      '(x, again) ← invalidate_wait x gva (Z.of_nat i);
      Some (with_threads (set_rank y r x)
        (<[i := if again : bool then Tries r to else Parks r to]> y.(threads)), None)
    | _ => None
    end
  | SendBlock i =>
    p ← y.(threads) !! i;
    match p with
    | Took r to at_ l =>
      x ← rank y r;
      '(x, d) ← invalidate_send x gva l;
      Some (with_net (with_threads (set_rank y r x) (<[i := Ended]> y.(threads)))
        (y.(network) ++ [UpsertBlock to at_ d]), None)
    | _ => None
    end
  | Deliver i a =>
    m ← y.(network) !! i;
    let y := with_net y (delete i y.(network)) in
    match m with
    | UpsertBlock to at_ d =>
      x ← rank y to;
      x ← upsertBlock x gva at_ d a;
      let y := set_rank y to x in
      Some (mkWorld y.(ranks) y.(network) y.(threads) (y.(hist) ++ [to]) y.(latest), None)
    | UpdateOwner s o =>
      x ← rank y s;
      x ← UpdateOwnerHandler x gva o;
      Some (set_rank y s x, None)
    end
  end.

(** What a rank's parcels to the block do next. *)
Definition forward y (r : Z) : Z := match rank y r with Some x => ownerOf x gva | None => r end.

Definition empty_local (r : Z) : local := mkLocal (mkBtt r ∅) ∅.

(** The home of a block after its allocation at address [l]. *)
Definition home_local (l : Z) d : local :=
  mkLocal (upsert (mkBtt (home gva) ∅) gva (home gva) l 1 HPX_GAS_ATTR_NONE) {[l := d]}.

Definition agas_empty (n : nat) d : world :=
  mkWorld (map (fun i => empty_local (Z.of_nat i)) (seq 0 n)) [] [] [home gva] d.

Definition agas_start (n : nat) (l : Z) d : world := set_rank (agas_empty n d) (home gva) (home_local l d).

(** The blocks that are under way, in the memory of the rank they leave and in parcels, and
    the way of the block with them. *)
Definition in_thread y (p : phase) : option (Z * option D) :=
  match p with
  | Took r to _ l => Some (to, x ← rank y r; x.(mem) !! l)
  | _ => None
  end.
Definition in_parcel (m : message) : option (Z * option D) :=
  match m with UpsertBlock to _ d => Some (to, Some d) | _ => None end.
Definition flights y : list (Z * option D) := omap (in_thread y) y.(threads) ++ omap in_parcel y.(network).
Definition path y : list Z := y.(hist) ++ map fst (flights y).

(** An owner update is not stale: the rank it names gets the block after the receiver had it. *)
Definition recent y (s o : Z) : Prop :=
  exists t, path y !! t = Some o /\ forall j, y.(hist) !! j = Some s -> (j < t)%nat.

(** The rank is the owner of the block by its table. *)
Definition owns y (r : Z) : Prop :=
  exists x e, rank y r = Some x /\ find x.(tbl) gva = Some e /\ e.(owner) = r.

(** A move takes the block only where the check of the owner still holds, which the code does
    not look at again. *)
Definition label_ok y (b : label) : Prop :=
  match b with
  | StartMove _ to => 0 <= to < Z.of_nat (length y.(ranks))
  | TryMove i => match y.(threads) !! i with Some (Tries r _) => owns y r | _ => True end
  | Deliver i _ => match y.(network) !! i with Some (UpdateOwner s o) => recent y s o | _ => True end
  | _ => True
  end.

Inductive agas_run (n : nat) (l : Z) d : list (option D) -> world -> Prop :=
| agas_nil : agas_run n l d [] (agas_start n l d)
| agas_cons tr y b y' r : agas_run n l d tr y -> label_ok y b -> agas_step y b = Some (y', r) ->
    agas_run n l d (tr ++ [r]) y'.

(** ** The invariant *)

Definition resident y (r : Z) : Prop := flights y = [] /\ last y.(hist) = Some r.

Definition holder (p : phase) : Z := match p with Holds _ _ => 1 | _ => 0 end.
Definition holders (ths : list phase) : Z := sum_of holder ths.

(** The rank that has the block. *)
Definition holds_block y x : Prop :=
  exists e, find x.(tbl) gva = Some e /\ e.(owner) = x.(tbl).(rank_) /\ e.(count) = holders y.(threads) /\ e.(lva) <> 0
    /\ x.(mem) !! e.(lva) = Some y.(latest).

(** A rank that has not, or no longer. *)
Definition knows_block y (r : Z) x : Prop :=
  (forall e, find x.(tbl) gva = Some e -> e.(count) = 0 /\ e.(owner) <> r /\ recent y r e.(owner))
  /\ (r ∈ y.(hist) -> is_Some (find x.(tbl) gva)).

Definition phase_ok (n : nat) y (p : phase) : Prop :=
  match p with
  | Holds r l => resident y r /\ exists x e, rank y r = Some x /\ find x.(tbl) gva = Some e /\ e.(lva) = l
  | Tries r to | Awaits r to | Parks r to => to <> r /\ 0 <= to < Z.of_nat n
  | _ => True
  end.

Record agas_inv (n : nat) y : Prop := {
  ai_ranks : length y.(ranks) = n;
  ai_rank r x : rank y r = Some x -> x.(tbl).(rank_) = r;
  ai_home : y.(hist) !! 0%nat = Some (home gva);
  ai_path r : r ∈ path y -> 0 <= r < Z.of_nat n;
  ai_flight : flights y = [] \/ exists to, flights y = [(to, Some y.(latest))];
  ai_resident r x : resident y r -> rank y r = Some x -> holds_block y x;
  ai_other r x : ~ resident y r -> rank y r = Some x -> knows_block y r x;
  ai_thread i p : y.(threads) !! i = Some p -> phase_ok n y p;
}.

Lemma rank_set y r x x' r' : rank y r = Some x ->
  rank (set_rank y r x') r' = if decide (r = r') then Some x' else rank y r'.
Proof.
  unfold rank, set_rank; simpl. intros Hr. destruct (Z.ltb_spec r 0); [done|].
  case_decide as E.
  - subst r'. destruct (Z.ltb_spec r 0); [lia|]. apply list_lookup_insert_eq. by eapply lookup_lt_Some.
  - destruct (Z.ltb_spec r' 0); [done|]. apply list_lookup_insert_ne. lia.
Qed.

Lemma set_rank_same y r x : rank y r = Some x -> set_rank y r x = y.
Proof.
  unfold rank, set_rank. destruct (r <? 0); [done|]. intros H. rewrite list_insert_id by done. by destruct y.
Qed.

Lemma rank_range y r x : rank y r = Some x -> 0 <= r < Z.of_nat (length y.(ranks)).
Proof.
  unfold rank. destruct (Z.ltb_spec r 0); [done|]. intros Hl%lookup_lt_Some. lia.
Qed.

Lemma range_rank y r : 0 <= r < Z.of_nat (length y.(ranks)) -> exists x, rank y r = Some x.
Proof. intros Hr. unfold rank. destruct (Z.ltb_spec r 0); [lia|]. apply lookup_lt_is_Some. lia. Qed.

Lemma resident_dec y r : Decision (resident y r).
Proof. unfold resident. destruct (flights y); [|right; by intros [? _]]. destruct (decide (last (hist y) = Some r)); [by left|right; by intros [_ ?]]. Defined.

Lemma resident_one y r r' : resident y r -> resident y r' -> r = r'.
Proof. intros [_ ?] [_ ?]. congruence. Qed.

(** *** Threads *)

Lemma omap_one {A B} (f : A -> option B) (q : A) (k : list A) : omap f (q :: k) = option_list (f q) ++ omap f k.
Proof. simpl. by destruct (f q). Qed.

Lemma omap_insert_split {A B} (f : A -> option B) (l : list A) i p : l !! i = Some p ->
  omap f l = omap f (take i l) ++ option_list (f p) ++ omap f (drop (S i) l)
  /\ forall q, omap f (<[i := q]> l) = omap f (take i l) ++ option_list (f q) ++ omap f (drop (S i) l).
Proof.
  intros Hi. split.
  - rewrite <- (take_drop_middle _ _ _ Hi) at 1. by rewrite omap_app, omap_one.
  - intros q. rewrite insert_take_drop by (by eapply lookup_lt_Some). by rewrite omap_app, omap_one.
Qed.

Lemma omap_insert_same {A B} (f : A -> option B) (l : list A) i p q : l !! i = Some p -> f p = f q ->
  omap f (<[i := q]> l) = omap f l.
Proof. intros Hi E. destruct (omap_insert_split f l i p Hi) as [-> H]. by rewrite H, E. Qed.

(** Memory that stays is what the threads that took a block look at. *)
Lemma in_thread_frame y y' ths : (forall r, mem <$> rank y' r = mem <$> rank y r) ->
  omap (in_thread y') ths = omap (in_thread y) ths.
Proof.
  intros H. assert (E : forall p, in_thread y' p = in_thread y p).
  { intros [| | | |r to at_ l|]; try done. simpl. specialize (H r).
    destruct (rank y' r), (rank y r); simpl in *; congruence. }
  induction ths as [|p ths IH]; [done|]. by rewrite !omap_one, E, IH.
Qed.

Lemma in_thread_none y y' ths : omap (in_thread y) ths = [] -> omap (in_thread y') ths = [].
Proof.
  induction ths as [|p ths IH]; [done|]. rewrite !omap_one. by destruct p.
Qed.

Lemma holders_nonneg ths : 0 <= holders ths.
Proof. apply sum_of_nonneg. intros [] _; simpl; lia. Qed.

Lemma no_holders ths : (forall i r l, ths !! i <> Some (Holds r l)) -> holders ths = 0.
Proof.
  unfold holders. induction ths as [|p ths IH]; [done|]. intros H. simpl. rewrite IH by (intros i; apply (H (S i))).
  specialize (H 0%nat). destruct p as [r l| | | | |]; simpl; try done. by destruct (H r l).
Qed.

Lemma holder_counted ths i r l : ths !! i = Some (Holds r l) -> 1 <= holders ths.
Proof.
  intros Hi. change 1 with (holder (Holds r l)). apply sum_of_elem; [intros [] _; simpl; lia|].
  by eapply list_elem_of_lookup_2.
Qed.

Lemma holders_insert ths i p q : ths !! i = Some p -> holders (<[i := q]> ths) = holders ths - holder p + holder q.
Proof. apply sum_of_insert. Qed.

Lemma wake_flights y ths c : omap (in_thread y) (wake ths c) = omap (in_thread y) ths.
Proof.
  destruct c as [p|]; [|done]. simpl. destruct (ths !! Z.to_nat p) as [[]|] eqn:E; try done.
  by eapply omap_insert_same.
Qed.

Lemma wake_holders ths c : holders (wake ths c) = holders ths.
Proof.
  destruct c as [p|]; [|done]. simpl. destruct (ths !! Z.to_nat p) as [[]|] eqn:E; try done.
  rewrite (holders_insert _ _ _ _ E). simpl. lia.
Qed.

Lemma wake_phase n y ths c : (forall i p, ths !! i = Some p -> phase_ok n y p) ->
  forall i p, wake ths c !! i = Some p -> phase_ok n y p.
Proof.
  intros H i p. destruct c as [k|]; [|apply H]. simpl. destruct (ths !! Z.to_nat k) as [[]|] eqn:E; try apply H.
  intros [(_ & <- & _)|[_ Hi]]%list_lookup_insert_Some; [apply (H _ _ E)|by apply H in Hi].
Qed.

Lemma insert_phase n y ths i q : (forall i p, ths !! i = Some p -> phase_ok n y p) -> phase_ok n y q ->
  forall j p, <[i := q]> ths !! j = Some p -> phase_ok n y p.
Proof. intros H Hq j p [(_ & <- & _)|[_ Hj]]%list_lookup_insert_Some; [done|by apply H in Hj]. Qed.

Lemma app_phase n y ths q : (forall i p, ths !! i = Some p -> phase_ok n y p) -> phase_ok n y q ->
  forall j p, (ths ++ [q]) !! j = Some p -> phase_ok n y p.
Proof. intros H Hq j p [Hj|[_ <-]]%lookup_snoc_Some; [destruct Hj as [_ Hj]; by apply H in Hj|done]. Qed.

(** *** Steps that move nothing *)

Lemma local_inv n y r x x' net ths w : agas_inv n y -> rank y r = Some x -> x'.(tbl).(rank_) = r ->
  let y' := mkWorld (<[Z.to_nat r := x']> y.(ranks)) net ths y.(hist) w in
  flights y' = flights y -> (flights y = [] \/ w = y.(latest)) ->
  (resident y r \/ w = y.(latest) /\ holders ths = holders y.(threads)) ->
  (resident y r -> holds_block y' x') -> (~ resident y r -> knows_block y' r x') ->
  (forall i p, ths !! i = Some p -> phase_ok n y' p) ->
  agas_inv n y'.
Proof.
  intros I Hr Hk y' Hf Hw Hl Hres Hoth Hth.
  assert (Hrank : forall r2, rank y' r2 = if decide (r = r2) then Some x' else rank y r2).
  { intros r2. exact (rank_set y r x x' r2 Hr). }
  assert (Hresd : forall r2, resident y' r2 <-> resident y r2) by (intros r2; unfold resident; by rewrite Hf).
  assert (Hpath : path y' = path y) by (unfold path; by rewrite Hf).
  split; simpl.
  - rewrite length_insert. apply I.
  - intros r2 x2. rewrite Hrank. case_decide; [intros [= <-]; congruence|apply (ai_rank _ _ I)].
  - apply I.
  - rewrite Hpath. apply I.
  - rewrite Hf. destruct (ai_flight _ _ I) as [H|(to & H)]; [by left|right]. exists to. rewrite H.
    destruct Hw as [Hw| ->]; [congruence|done].
  - intros r2 x2. rewrite Hresd, Hrank. case_decide as E; [subst; intros H [= <-]; by apply Hres|].
    intros H Hx. destruct (ai_resident _ _ I _ _ H Hx) as (e & ? & ? & ? & ? & ?). exists e. simpl.
    destruct Hl as [Hl|[-> ->]]; [by destruct (E (resident_one _ _ _ Hl H))|done].
  - intros r2 x2. rewrite Hresd, Hrank. case_decide as E; [subst; intros H [= <-]; by apply Hoth|].
    intros H Hx. destruct (ai_other _ _ I _ _ H Hx) as [H1 H2]. split; [|done]. intros e He.
    destruct (H1 e He) as (? & ? & H3). split; [done|]. split; [done|]. unfold recent in *. by rewrite Hpath.
  - exact Hth.
Qed.

(** The threads stay as they are when the rank keeps the place of the block. *)
Lemma phase_keep n y r x x' net ths w p : rank y r = Some x ->
  let y' := mkWorld (<[Z.to_nat r := x']> y.(ranks)) net ths y.(hist) w in
  flights y' = flights y ->
  (resident y r -> forall e, find x.(tbl) gva = Some e -> exists e', find x'.(tbl) gva = Some e' /\ e'.(lva) = e.(lva)) ->
  phase_ok n y p -> phase_ok n y' p.
Proof.
  intros Hr y' Hf He. destruct p as [r2 l| | | | |]; try done. simpl. intros [Hres (x2 & e2 & Hr2 & He2 & Hl2)].
  split; [unfold resident; by rewrite Hf|].
  assert (Hrank : rank y' r2 = if decide (r = r2) then Some x' else rank y r2) by exact (rank_set y r x x' r2 Hr).
  rewrite Hrank. case_decide as E; [|by exists x2, e2]. subst r2. rewrite Hr in Hr2. injection Hr2 as <-.
  destruct (He Hres e2 He2) as (e' & ? & ?). exists x', e'. split; [done|]. split; [done|]. congruence.
Qed.

Lemma threads_inv n y net ths : agas_inv n y ->
  let y' := mkWorld y.(ranks) net ths y.(hist) y.(latest) in
  flights y' = flights y -> holders ths = holders y.(threads) ->
  (forall i p, ths !! i = Some p -> phase_ok n y p) -> agas_inv n y'.
Proof.
  intros [I1 I2 I3 I4 I5 I6 I7 I8] y' Ef Eh Hth. assert (Ep : path y' = path y) by (unfold path; by rewrite Ef).
  split; try done.
  - by rewrite Ep.
  - by rewrite Ef.
  - intros r x Hres Hr. unfold resident in Hres. rewrite Ef in Hres. destruct (I6 r x Hres Hr) as (e & H). exists e. simpl. by rewrite Eh.
  - intros r x Hres Hr. unfold resident in Hres. rewrite Ef in Hres. specialize (I7 r x Hres Hr).
    unfold knows_block, recent in *. by rewrite Ep.
  - intros i p Hi. specialize (Hth i p Hi). destruct p; try done. simpl in *. unfold resident in *. by rewrite Ef.
Qed.

Lemma not_owner n y r x e : agas_inv n y -> rank y r = Some x -> ~ resident y r -> find x.(tbl) gva = Some e ->
  e.(owner) <> x.(tbl).(rank_).
Proof.
  intros I Hr Hn He. rewrite (ai_rank _ _ I _ _ Hr). by destruct (proj1 (ai_other _ _ I _ _ Hn Hr) e He) as (_ & ? & _).
Qed.

Lemma owner_resident n y r : agas_inv n y -> owns y r -> resident y r.
Proof.
  intros I (x & e & Hr & He & Ho). destruct (resident_dec y r) as [|Hres]; [done|]. exfalso.
  apply (not_owner n y r x e I Hr Hres He). by rewrite (ai_rank _ _ I _ _ Hr).
Qed.

Lemma flights_table y r x x' net ths w : rank y r = Some x -> x'.(mem) = x.(mem) ->
  omap (in_thread y) ths = omap (in_thread y) y.(threads) -> omap in_parcel net = omap in_parcel y.(network) ->
  flights (mkWorld (<[Z.to_nat r := x']> y.(ranks)) net ths y.(hist) w) = flights y.
Proof.
  intros Hr Hm Ht Hn. unfold flights; simpl. rewrite Hn. f_equal. rewrite <- Ht. apply in_thread_frame. intros r2.
  transitivity (mem <$> rank (set_rank y r x') r2); [done|]. rewrite (rank_set y r x x' r2 Hr).
  case_decide as E; [|done]. subst r2. rewrite Hr. simpl. by rewrite Hm.
Qed.

(** A step on the table of a rank that keeps where the block is, its owner and, at a rank
    without the block, its count. *)
Lemma entry_inv n y r x e e' net ths : agas_inv n y -> rank y r = Some x -> find x.(tbl) gva = Some e ->
  e'.(lva) = e.(lva) -> e'.(owner) = e.(owner) -> (resident y r -> e'.(count) = holders ths) ->
  (~ resident y r -> e'.(count) = e.(count) /\ holders ths = holders y.(threads)) ->
  omap (in_thread y) ths = omap (in_thread y) y.(threads) -> omap in_parcel net = omap in_parcel y.(network) ->
  (forall i p, ths !! i = Some p -> phase_ok n y p \/ exists l, p = Holds r l /\ resident y r /\ l = e.(lva)) ->
  agas_inv n (mkWorld (<[Z.to_nat r := with_tbl x (store x.(tbl) gva e')]> y.(ranks)) net ths y.(hist) y.(latest)).
Proof.
  intros I Hr He Hl Ho Hc Hc' Ht Hn Hp.
  pose proof (flights_table y r x (with_tbl x (store (tbl x) gva e')) net ths y.(latest) Hr eq_refl Ht Hn) as Hf.
  pose proof (ai_rank _ _ I _ _ Hr) as Hk.
  assert (Hfind : find (tbl (with_tbl x (store (tbl x) gva e'))) gva = Some e') by (simpl; by rewrite find_store, decide_True).
  apply (local_inv n y r x); try done; [by right|..].
  - destruct (resident_dec y r) as [|Hres]; [by left|right]. by destruct (Hc' Hres).
  - intros Hres. destruct (ai_resident _ _ I _ _ Hres Hr) as (e2 & He2 & Ho2 & _ & Hl2 & Hm2). rewrite He in He2. injection He2 as <-.
    exists e'. rewrite Hl, Ho, (Hc Hres). done.
  - intros Hres. destruct (ai_other _ _ I _ _ Hres Hr) as [H1 H2]. split; [|intros _; by rewrite Hfind].
    intros e2. rewrite Hfind. intros [= <-]. destruct (H1 e He) as (H3 & H4 & H5). rewrite Ho, (proj1 (Hc' Hres)).
    split; [done|]. split; [done|]. unfold recent, path in *. by rewrite Hf.
  - intros i p Hi. destruct (Hp i p Hi) as [Hok|(l & -> & Hres & ->)].
    + apply (phase_keep n y r x); [done|done| |done]. intros _ e2 He2. rewrite He in He2. injection He2 as <-. by exists e'.
    + split; [unfold resident; by rewrite Hf|]. exists (with_tbl x (store (tbl x) gva e')), e'.
      split; [|done]. transitivity (rank (set_rank y r (with_tbl x (store (tbl x) gva e'))) r); [done|].
      by rewrite (rank_set y r x _ r Hr), decide_True.
Qed.

Lemma holds_at n y i r l x : agas_inv n y -> y.(threads) !! i = Some (Holds r l) -> rank y r = Some x ->
  resident y r /\ exists e, find x.(tbl) gva = Some e /\ e.(owner) = x.(tbl).(rank_) /\ e.(count) = holders y.(threads)
    /\ e.(lva) = l /\ x.(mem) !! l = Some y.(latest).
Proof.
  intros I Hi Hr. destruct (ai_thread _ _ I _ _ Hi) as [Hres (x2 & e & Hr2 & He & Hl)]. rewrite Hr in Hr2. injection Hr2 as <-.
  split; [done|]. destruct (ai_resident _ _ I _ _ Hres Hr) as (e2 & He2 & Ho & Hc & _ & Hm).
  rewrite He in He2. injection He2 as <-. exists e. by rewrite <- Hl.
Qed.

(** ** Pins *)

Lemma take_inv n y r src y' res : agas_inv n y -> agas_step y (TakePin r src) = Some (y', res) -> agas_inv n y' /\ res = None.
Proof.
  intros I H. simpl in H. destruct (rank y r) as [x|] eqn:Hr; [|done]; cbn [mbind option_bind] in H.
  pose proof (ai_rank _ _ I _ _ Hr) as Hk. unfold tryPin in H. destruct (find (tbl x) gva) as [e|] eqn:He.
  - destruct (Z.eqb_spec (owner e) (rank_ (tbl x))) as [Ho|Ho].
    + destruct (_ && _); [|done]. cbn [mbind option_bind] in H. injection H as <- <-. split; [|done].
      assert (Hres : resident y r) by (apply (owner_resident n); [done|]; exists x, e; by rewrite Ho).
      destruct (ai_resident _ _ I _ _ Hres Hr) as (e2 & He2 & _ & Hc & _). rewrite He in He2. injection He2 as <-.
      apply (entry_inv n y r x e); try done; simpl.
      * intros _. unfold holders in *. rewrite sum_of_app. simpl. lia.
      * rewrite omap_app. simpl. by rewrite app_nil_r.
      * intros i p [[_ Hi]|[_ <-]]%lookup_snoc_Some; [left; by apply (ai_thread _ _ I) in Hi|right].
        eexists. split; [done|]. split; [done|]. lia.
    + cbn [mbind option_bind] in H. replace (with_tbl x (tbl x)) with x in H by by destruct x.
      rewrite set_rank_same in H by done. injection H as <- <-. split; [|done]. destruct (src =? r); [done|].
      apply threads_inv; [done| |done|by apply (ai_thread _ _ I)]. unfold flights; simpl. rewrite omap_app. simpl. by rewrite app_nil_r.
  - destruct (home gva =? _); [done|]. cbn [mbind option_bind] in H. replace (with_tbl x (tbl x)) with x in H by by destruct x.
    rewrite set_rank_same in H by done. by injection H as <- <-.
Qed.

Lemma use_inv n y i w y' res : agas_inv n y -> agas_step y (UsePin i w) = Some (y', res) ->
  agas_inv n y' /\ res = Some y.(latest).
Proof.
  intros I H. simpl in H. destruct (threads y !! i) as [[r l| | | | |]|] eqn:Hi; try done. cbn [mbind option_bind] in H.
  destruct (rank y r) as [x|] eqn:Hr; [|done]; cbn [mbind option_bind] in H.
  destruct (holds_at n y i r l x I Hi Hr) as (Hres & e & He & Ho & Hc & Hl & Hm). rewrite Hm in H. cbn [mbind option_bind] in H.
  injection H as <- <-. split; [|done]. destruct w as [d'|]; [|done]. pose proof (ai_rank _ _ I _ _ Hr) as Hk.
  destruct (ai_resident _ _ I _ _ Hres Hr) as (e2 & He2 & _ & _ & Hl2 & _). rewrite He in He2. injection He2 as <-.
  assert (Hf : flights (with_latest (set_rank y r (mkLocal (tbl x) (<[l:=d']> (mem x)))) d') = flights y).
  { destruct Hres as [Hf _]. rewrite Hf. unfold flights in *. apply app_nil in Hf as [H1 H2]. simpl. rewrite H2, app_nil_r.
    by apply (in_thread_none y). }
  apply (local_inv n y r x); try done.
  - left. apply Hres.
  - by left.
  - intros _. exists e. simpl. rewrite Hl in *. by rewrite lookup_insert_eq.
  - intros j p Hj. apply (phase_keep n y r x); [done|done| |by apply (ai_thread _ _ I) in Hj]. intros _ e2 He2. by exists e2.
Qed.

Lemma drop_inv n y i y' res : agas_inv n y -> agas_step y (DropPin i) = Some (y', res) -> agas_inv n y' /\ res = None.
Proof.
  intros I H. simpl in H. destruct (threads y !! i) as [[r l| | | | |]|] eqn:Hi; try done. cbn [mbind option_bind] in H.
  destruct (rank y r) as [x|] eqn:Hr; [|done]; cbn [mbind option_bind] in H.
  destruct (holds_at n y i r l x I Hi Hr) as (Hres & e & He & Ho & Hc & Hl & Hm).
  destruct (unpin (tbl x) gva) as [[t c]|] eqn:Eu; [|done]. cbn [mbind option_bind] in H. injection H as <- <-. split; [|done].
  assert (Ht : exists e', t = store (tbl x) gva e' /\ lva e' = lva e /\ owner e' = owner e /\ count e' = count e - 1).
  { unfold unpin in Eu. rewrite He in Eu. cbn [mbind option_bind] in Eu. destruct (_ && _); [|done].
    destruct (nz _); injection Eu as <- <-; by eexists. }
  destruct Ht as (e' & -> & Hl' & Ho' & Hc'). apply (entry_inv n y r x e); try done.
  - intros _. rewrite wake_holders, (holders_insert _ _ _ _ Hi). simpl. lia.
  - rewrite wake_flights. by eapply omap_insert_same.
  - intros j p Hj. left. revert j p Hj. apply wake_phase, insert_phase; [apply (ai_thread _ _ I)|done].
Qed.

(** The holder of a pin can use it and give it back. *)
Lemma held_usable n y i r l : agas_inv n y -> y.(threads) !! i = Some (Holds r l) ->
  resident y r /\ (forall w, exists y', agas_step y (UsePin i w) = Some (y', Some y.(latest)))
  /\ exists y', agas_step y (DropPin i) = Some (y', None).
Proof.
  intros I Hi. destruct (ai_thread _ _ I _ _ Hi) as [_ (x & _ & Hr & _)].
  destruct (holds_at n y i r l x I Hi Hr) as (Hres & e & He & Ho & Hc & Hl & Hm). pose proof (holder_counted _ _ _ _ Hi).
  split; [done|]. simpl. rewrite Hi. cbn [mbind option_bind]. rewrite Hr. cbn [mbind option_bind]. split.
  - intros w. rewrite Hm. by eexists.
  - unfold unpin. rewrite He. cbn [mbind option_bind]. rewrite Ho, Z.eqb_refl. destruct (Z.ltb_spec 0 (count e)); [|lia].
    cbn [andb]. destruct (nz _); cbn [mbind option_bind]; by eexists.
Qed.

(** ** Moves *)

Lemma owner_range n y r x e : agas_inv n y -> Z.of_nat n <= 2 ^ 16 -> rank y r = Some x -> find x.(tbl) gva = Some e ->
  0 <= e.(owner) < 2 ^ 16.
Proof.
  intros I Hn Hr He. pose proof (rank_range _ _ _ Hr) as Hrr. rewrite (ai_ranks _ _ I) in Hrr.
  destruct (resident_dec y r) as [Hres|Hres].
  - destruct (ai_resident _ _ I _ _ Hres Hr) as (e' & Hf & Ho & _). rewrite He in Hf. injection Hf as <-.
    rewrite Ho, (ai_rank _ _ I _ _ Hr). lia.
  - destruct (proj1 (ai_other _ _ I _ _ Hres Hr) e He) as (_ & _ & t & Ht & _).
    apply list_elem_of_lookup_2 in Ht. apply (ai_path _ _ I) in Ht. lia.
Qed.

Lemma recent_grow y y' s o l : y'.(hist) = y.(hist) -> path y' = path y ++ l -> recent y s o -> recent y' s o.
Proof.
  intros Eh Ep (t & Ht & Hj). exists t. rewrite Eh, Ep. split; [by apply lookup_app_l_Some|done].
Qed.

Lemma start_move_inv n y r to y' res : agas_inv n y -> 0 <= to < Z.of_nat n ->
  agas_step y (StartMove r to) = Some (y', res) -> agas_inv n y' /\ res = None.
Proof.
  intros I Hto H. simpl in H. destruct (rank y r) as [x|] eqn:Hr; [|done]; cbn [mbind option_bind] in H.
  unfold invalidate_check in H. rewrite (ai_rank _ _ I _ _ Hr) in H.
  destruct (Z.eqb_spec r to) as [->|Hne]; [by injection H as <- <-|].
  destruct (getOwner (tbl x) gva) as [o|]; [|done]; cbn [mbind option_bind] in H.
  destruct (negb _); injection H as <- <-; [done|]. split; [|done].
  apply threads_inv; [done|..].
  - unfold flights; simpl. rewrite omap_app. simpl. by rewrite app_nil_r.
  - unfold holders. rewrite sum_of_app. simpl. lia.
  - apply app_phase; [apply (ai_thread _ _ I)|]. split; [congruence|done].
Qed.

(** The thread [i] takes the block. *)
Lemma depart_inv n y i r x e to at_ : agas_inv n y -> y.(threads) !! i = Some (Tries r to) -> rank y r = Some x ->
  resident y r -> find x.(tbl) gva = Some e -> e.(count) = 0 ->
  agas_inv n (with_threads (set_rank y r (with_tbl x (store x.(tbl) gva (with_owner e to)))) (<[i := Took r to at_ e.(lva)]> y.(threads))).
Proof.
  intros I Hi Hr Hres He Hc. set (x' := with_tbl _ _). set (y' := with_threads _ _).
  destruct (ai_thread _ _ I _ _ Hi) as [Hto Hrange]. pose proof (ai_rank _ _ I _ _ Hr) as Hk.
  destruct (ai_resident _ _ I _ _ Hres Hr) as (e2 & He2 & _ & Hh & _ & Hm). rewrite He in He2. injection He2 as <-. rewrite Hc in Hh.
  assert (Hrank : forall r2, rank y' r2 = if decide (r = r2) then Some x' else rank y r2) by (intros r2; exact (rank_set y r x x' r2 Hr)).
  destruct Hres as [Hf Hl].
  assert (Ef : flights y' = [(to, Some (latest y))]).
  { unfold flights in Hf |- *. apply app_nil in Hf as [H1 H2]. change (network y') with (network y). rewrite H2, app_nil_r.
    destruct (omap_insert_split (in_thread y) _ _ _ Hi) as [E _]. rewrite E in H1. simpl in H1. apply app_nil in H1 as [H3 H4].
    destruct (omap_insert_split (in_thread y') _ _ _ Hi) as [_ E']. change (threads y') with (<[i := Took r to at_ e.(lva)]> y.(threads)).
    rewrite E', (in_thread_none _ y' _ H3), (in_thread_none _ y' _ H4).
    cbn [in_thread]. rewrite Hrank, decide_True by done. simpl. by rewrite Hm. }
  assert (Ep : path y' = path y ++ [to]) by (unfold path; rewrite Ef, Hf; simpl; by rewrite app_nil_r).
  assert (Ey : path y = hist y) by (unfold path; rewrite Hf; apply app_nil_r).
  assert (Hfind : find (tbl x') gva = Some (with_owner e to)) by (unfold x'; simpl; by rewrite find_store, decide_True).
  split; simpl.
  - rewrite length_insert. apply I.
  - intros r2 x2. rewrite Hrank. case_decide; [intros [= <-]; simpl; congruence|apply (ai_rank _ _ I)].
  - apply I.
  - intros r2. rewrite Ep, elem_of_app, list_elem_of_singleton. intros [H| ->]; [by apply (ai_path _ _ I)|done].
  - right. exists to. by rewrite Ef.
  - intros r2 x2 [H _]. rewrite Ef in H. done.
  - intros r2 x2 _. rewrite Hrank. case_decide as E.
    + subst r2. intros [= <-]. split; [|intros _; by rewrite Hfind]. intros e2. rewrite Hfind. intros [= <-]. simpl.
      split; [done|]. split; [done|]. exists (length (hist y)). split.
      * rewrite Ep, Ey, lookup_app_r, Nat.sub_diag by lia. done.
      * intros j Hj. by eapply lookup_lt_Some.
    + intros Hx2. assert (Hn2 : ~ resident y r2) by (intros [_ Hl2]; congruence).
      destruct (ai_other _ _ I _ _ Hn2 Hx2) as [H1 H2]. split; [|done]. intros e2 He2. destruct (H1 e2 He2) as (? & ? & H3).
      split; [done|]. split; [done|]. by apply (recent_grow y y' _ _ [to]).
  - apply insert_phase; [|done]. intros j p Hj. pose proof (ai_thread _ _ I _ _ Hj) as Hp. destruct p; try done.
    apply holder_counted in Hj. lia.
Qed.

Lemma try_inv n y i y' res : agas_inv n y -> label_ok y (TryMove i) ->
  agas_step y (TryMove i) = Some (y', res) -> agas_inv n y' /\ res = None.
Proof.
  intros I Hok H. simpl in H, Hok. destruct (threads y !! i) as [[|r to| | | |]|] eqn:Hi; try done. cbn [mbind option_bind] in H.
  destruct (rank y r) as [x|] eqn:Hr; [|done]; cbn [mbind option_bind] in H.
  pose proof (owner_resident _ _ _ I Hok) as Hres.
  destruct (ai_resident _ _ I _ _ Hres Hr) as (e & He & Ho & Hc & Hl & Hm). unfold invalidate_try, tryMove in H. rewrite He in H.
  destruct (Z.eqb_spec (count e) 0) as [Hz|Hz].
  - unfold nz in H. destruct (Z.eqb_spec (lva e) 0); [done|]. cbn [negb] in H. injection H as <- <-. split; [|done].
    by apply depart_inv.
  - replace (with_tbl x (tbl x)) with x in H by by destruct x. rewrite set_rank_same in H by done. injection H as <- <-.
    split; [|done]. apply threads_inv; [done|..].
    + unfold flights; simpl. f_equal. by eapply omap_insert_same.
    + rewrite (holders_insert _ _ _ _ Hi). simpl. lia.
    + apply insert_phase; [apply (ai_thread _ _ I)|apply (ai_thread _ _ I _ _ Hi)].
Qed.

Lemma await_inv n y i y' res : agas_inv n y -> agas_step y (AwaitPins i) = Some (y', res) -> agas_inv n y' /\ res = None.
Proof.
  intros I H. simpl in H. destruct (threads y !! i) as [[| |r to| | |]|] eqn:Hi; try done. cbn [mbind option_bind] in H.
  destruct (rank y r) as [x|] eqn:Hr; [|done]; cbn [mbind option_bind] in H.
  assert (Hagain : agas_inv n (with_threads y (<[i := Tries r to]> (threads y)))).
  { apply threads_inv; [done|..].
    - unfold flights; simpl. f_equal. by eapply omap_insert_same.
    - rewrite (holders_insert _ _ _ _ Hi). simpl. lia.
    - apply insert_phase; [apply (ai_thread _ _ I)|apply (ai_thread _ _ I _ _ Hi)]. }
  assert (Hx : with_tbl x (tbl x) = x) by by destruct x.
  unfold invalidate_wait, waitForZeroCount in H. destruct (find (tbl x) gva) as [e|] eqn:He.
  - destruct (nz (count e)).
    + destruct (cont e); [done|]. cbn [mbind option_bind] in H. rewrite bool_decide_false in H by by intros [? ?].
      injection H as <- <-. split; [|done]. apply (entry_inv n y r x e); try done.
      * intros Hres. destruct (ai_resident _ _ I _ _ Hres Hr) as (e2 & He2 & _ & Hc & _). rewrite He in He2. injection He2 as <-.
        rewrite (holders_insert _ _ _ _ Hi). simpl. lia.
      * intros _. rewrite (holders_insert _ _ _ _ Hi). simpl. split; [done|lia].
      * by eapply omap_insert_same.
      * intros j p Hj. left. revert j p Hj. apply insert_phase; [apply (ai_thread _ _ I)|apply (ai_thread _ _ I _ _ Hi)].
    + cbn [mbind option_bind] in H. rewrite bool_decide_true in H by done. rewrite Hx, set_rank_same in H by done. by injection H as <- <-.
  - cbn [mbind option_bind] in H. rewrite bool_decide_true in H by done. rewrite Hx, set_rank_same in H by done. by injection H as <- <-.
Qed.

(** The one copy is with the thread that took it. *)
Lemma took_at n y i r to at_ l : agas_inv n y -> y.(threads) !! i = Some (Took r to at_ l) ->
  flights y = [(to, Some y.(latest))] /\ omap in_parcel y.(network) = []
  /\ omap (in_thread y) (<[i := Ended]> y.(threads)) = []
  /\ exists x, rank y r = Some x /\ x.(mem) !! l = Some y.(latest).
Proof.
  intros I Hi. destruct (omap_insert_split (in_thread y) _ _ _ Hi) as [E E']. specialize (E' Ended).
  destruct (ai_flight _ _ I) as [Hf|(to2 & Hf)]; pose proof Hf as Hf0; unfold flights in Hf; rewrite E in Hf; simpl in Hf.
  - by destruct (omap _ (take i _)).
  - destruct (omap _ (take i (threads y))) as [|? [|]] eqn:E1; simplify_eq/=.
    apply app_nil in H0 as [H2 H3]. rewrite Hf0, E', H2, H3. split; [done|]. split; [done|]. split; [done|].
    destruct (rank y r) as [x|]; [|done]. by exists x.
Qed.

Lemma send_inv n y i y' res : agas_inv n y -> agas_step y (SendBlock i) = Some (y', res) -> agas_inv n y' /\ res = None.
Proof.
  intros I H. simpl in H. destruct (threads y !! i) as [[| | | |r to at_ l|]|] eqn:Hi; try done. cbn [mbind option_bind] in H.
  destruct (took_at n y i r to at_ l I Hi) as (Hf & Hn & Ht & x & Hr & Hm). rewrite Hr in H. cbn [mbind option_bind] in H.
  unfold invalidate_send in H. rewrite Hm in H. cbn [mbind option_bind] in H.
  destruct (if home gva =? _ then _ else _) as [x'|] eqn:Ex; [|done]. cbn [mbind option_bind] in H. injection H as <- <-. split; [|done].
  assert (Hx : tbl x' = tbl x).
  { destruct (home gva =? _); [by injection Ex as <-|]. unfold free_mem in Ex. rewrite Hm in Ex. by injection Ex as <-. }
  set (y' := with_net _ _). assert (Hf' : flights y' = flights y).
  { unfold flights at 1. change (network y') with (y.(network) ++ [UpsertBlock to at_ y.(latest)]).
    change (threads y') with (<[i := Ended]> y.(threads)). rewrite omap_app, Hn, (in_thread_none _ y' _ Ht). by rewrite Hf. }
  assert (Hres : ~ resident y r) by (intros [H _]; rewrite Hf in H; done).
  apply (local_inv n y r x); try done.
  - rewrite Hx. by apply (ai_rank _ _ I).
  - by right.
  - right. split; [done|]. cbn [threads with_threads set_rank]. rewrite (holders_insert _ _ _ _ Hi). simpl. lia.
  - intros _. destruct (ai_other _ _ I _ _ Hres Hr) as [H1 H2]. unfold knows_block. rewrite Hx. split; [|done].
    intros e He. destruct (H1 e He) as (? & ? & H3). split; [done|]. split; [done|].
    apply (recent_grow y y' _ _ []); [done|unfold path; rewrite Hf'; by rewrite app_nil_r|done].
  - apply insert_phase; [|done]. intros j p Hj. apply (phase_keep n y r x); [done|done| |by apply (ai_thread _ _ I) in Hj].
    intros _ e He. exists e. by rewrite Hx.
Qed.

(** Nothing stops the copy. *)
Lemma took_sent n y i r to at_ l : agas_inv n y -> y.(threads) !! i = Some (Took r to at_ l) ->
  exists y', agas_step y (SendBlock i) = Some (y', None).
Proof.
  intros I Hi. destruct (took_at n y i r to at_ l I Hi) as (_ & _ & _ & x & Hr & Hm). simpl. rewrite Hi. cbn [mbind option_bind].
  rewrite Hr. cbn [mbind option_bind]. unfold invalidate_send, free_mem. rewrite Hm. cbn [mbind option_bind].
  destruct (home gva =? _); by eexists.
Qed.

(** ** Messages *)

Lemma flights_delete y i m : y.(network) !! i = Some m ->
  exists f1 f2, flights y = f1 ++ option_list (in_parcel m) ++ f2
    /\ flights (with_net y (delete i y.(network))) = f1 ++ f2.
Proof.
  intros Hi. unfold flights, with_net; simpl.
  eexists (omap _ (threads y) ++ omap in_parcel (take i (network y))), (omap in_parcel (drop (S i) (network y))). split.
  - rewrite <- (take_drop_middle _ _ _ Hi) at 1. rewrite omap_app, omap_one. by rewrite <- app_assoc.
  - rewrite delete_take_drop, omap_app. by rewrite <- app_assoc.
Qed.

(** The block arrives. *)
Lemma arrive_inv n y i to at_ d x a x' : agas_inv n y -> y.(network) !! i = Some (UpsertBlock to at_ d) ->
  rank y to = Some x -> upsertBlock x gva at_ d a = Some x' ->
  agas_inv n (mkWorld (<[Z.to_nat to := x']> y.(ranks)) (delete i y.(network)) y.(threads) (y.(hist) ++ [to]) y.(latest)).
Proof.
  intros I Hi Hr Hu. set (y' := mkWorld _ _ _ _ _). pose proof (ai_rank _ _ I _ _ Hr) as Hk.
  destruct (flights_delete _ _ _ Hi) as (f1 & f2 & E1 & E2).
  assert (Hfl : flights y = [(to, Some (latest y))] /\ d = latest y /\ flights (with_net y (delete i (network y))) = []).
  { destruct (ai_flight _ _ I) as [H|(to2 & H)]; rewrite H in E1; [by destruct f1|].
    destruct f1 as [|? [|]]; simplify_eq/=. done. }
  destruct Hfl as (Hf & -> & Hf1).
  assert (Hf0 : flights y' = []).
  { unfold flights in Hf1 |- *. apply app_nil in Hf1 as [H1 H2]. simpl in H1, H2. simpl. rewrite H2, app_nil_r. by apply (in_thread_none _ y') in H1. }
  assert (Hno : forall j p, threads y !! j = Some p -> holder p = 0).
  { intros j p Hj. apply (ai_thread _ _ I) in Hj. destruct p; try done. destruct Hj as [[H _] _]. congruence. }
  assert (Ep : path y' = path y) by (unfold path; rewrite Hf0, Hf; simpl; by rewrite app_nil_r).
  unfold upsertBlock in Hu. destruct (mem x !! a) eqn:Hm; [done|]. destruct (Z.eqb_spec a 0) as [|Ha]; [done|]. injection Hu as <-.
  assert (Hrank : forall r2, rank y' r2 = if decide (to = r2) then Some (mkLocal (upsert (tbl x) gva (rank_ (tbl x)) a 1 at_) (<[a:=latest y]> (mem x))) else rank y r2)
    by (intros r2; exact (rank_set y to x _ r2 Hr)).
  assert (Hres : forall r2, resident y' r2 <-> r2 = to).
  { intros r2. unfold resident. simpl. rewrite last_snoc, Hf0. split; [by intros [_ [= ->]]|by intros ->]. }
  split; simpl.
  - rewrite length_insert. apply I.
  - intros r2 x2. rewrite Hrank. case_decide; [intros [= <-]; simpl; congruence|apply (ai_rank _ _ I)].
  - apply lookup_app_l_Some, I.
  - rewrite Ep. apply I.
  - by left.
  - intros r2 x2 ->%Hres. rewrite Hrank, decide_True by done. intros [= <-]. eexists. simpl.
    unfold upsert. rewrite find_store, decide_True by done. split; [done|]. simpl. rewrite lookup_insert_eq, no_holders; [done|].
    intros j r l Hj. by apply Hno in Hj.
  - intros r2 x2 Hn2. rewrite Hres in Hn2. rewrite Hrank, decide_False by done. intros Hx2.
    assert (Hn3 : ~ resident y r2) by (intros [H _]; congruence).
    destruct (ai_other _ _ I _ _ Hn3 Hx2) as [H1 H2]. split.
    + intros e He. destruct (H1 e He) as (? & ? & t & Ht & Hj). split; [done|]. split; [done|]. exists t. rewrite Ep.
      split; [done|]. intros j Hjs. simpl in Hjs. apply lookup_snoc_Some in Hjs as [[_ Hjs]|[_ Hjs]]; [by apply Hj|congruence].
    + simpl. rewrite elem_of_app, list_elem_of_singleton. intros [H|H]; [by apply H2|congruence].
  - intros j p Hj. pose proof (Hno j p Hj). pose proof (ai_thread _ _ I _ _ Hj). by destruct p.
Qed.

Lemma update_inv n y i s o x x' : agas_inv n y -> Z.of_nat n <= 2 ^ 16 -> y.(network) !! i = Some (UpdateOwner s o) ->
  recent y s o -> rank y s = Some x -> UpdateOwnerHandler x gva o = Some x' ->
  agas_inv n (set_rank (with_net y (delete i y.(network))) s x').
Proof.
  intros I Hn Hi Hrec Hr Hu. pose proof (ai_rank _ _ I _ _ Hr) as Hk.
  assert (Ho : 0 <= o < 2 ^ 16).
  { destruct Hrec as (t & Ht & _). apply list_elem_of_lookup_2 in Ht. apply (ai_path _ _ I) in Ht. lia. }
  assert (Hns : ~ resident y s).
  { intros [Hf0 Hl]. destruct Hrec as (t & Ht & Hj). unfold path in Ht. rewrite Hf0, app_nil_r in Ht.
    rewrite last_lookup in Hl. apply Hj in Hl. apply lookup_lt_Some in Ht. lia. }
  unfold UpdateOwnerHandler in Hu. rewrite wrap_small in Hu by done. destruct (updateOwner (tbl x) gva o) as [t|] eqn:Et; [|done].
  cbn [mbind option_bind] in Hu. injection Hu as <-. unfold updateOwner in Et. rewrite Hk in Et.
  destruct (Z.eqb_spec o s) as [|Hos]; [done|].
  set (y' := set_rank _ _ _). assert (Hf : flights y' = flights y).
  { apply (flights_table y s x); [done|done|done|]. cbn [network with_net]. rewrite delete_take_drop, omap_app.
    destruct (omap_insert_split in_parcel _ _ _ Hi) as [E _]. by rewrite E. }
  assert (Hpath : path y' = path y) by (unfold path; by rewrite Hf).
  assert (Hfind : exists e, find t gva = Some e /\ count e = 0 /\ owner e = o /\ rank_ t = s).
  { destruct (find (tbl x) gva) as [e|] eqn:He.
    - destruct (Z.eqb_spec (count e) 0); [|done]. injection Et as <-. eexists. by rewrite find_store, decide_True.
    - injection Et as <-. eexists. by rewrite find_store, decide_True. }
  destruct Hfind as (e & Hfe & Hc & Hoe & Hrt).
  apply (local_inv n y s x); try done; [by right|by right|..].
  - intros _. split; [|intros _; simpl; by rewrite Hfe].
    intros e2 He2. simpl in He2. rewrite Hfe in He2. injection He2 as <-. rewrite Hoe. split; [done|]. split; [done|].
    apply (recent_grow y y' _ _ []); [done|by rewrite app_nil_r|done].
  - intros j p Hj. apply (phase_keep n y s x); [done|done|done|by apply (ai_thread _ _ I) in Hj].
Qed.

Lemma deliver_inv n y i a y' res : agas_inv n y -> Z.of_nat n <= 2 ^ 16 -> label_ok y (Deliver i a) ->
  agas_step y (Deliver i a) = Some (y', res) -> agas_inv n y' /\ res = None.
Proof.
  intros I Hn Hl H. simpl in H, Hl. destruct (network y !! i) as [m|] eqn:Hi; [|done]; cbn [mbind option_bind] in H.
  destruct m as [to at_ d|s o].
  - destruct (rank _ to) as [x|] eqn:Hr; [|done]; cbn [mbind option_bind] in H.
    destruct (upsertBlock x gva at_ d a) as [x'|] eqn:Hu; [|done]; cbn [mbind option_bind] in H. injection H as <- <-.
    split; [|done]. by eapply arrive_inv.
  - destruct (rank _ s) as [x|] eqn:Hr; [|done]; cbn [mbind option_bind] in H.
    destruct (UpdateOwnerHandler x gva o) as [x'|] eqn:Hu; [|done]; cbn [mbind option_bind] in H. injection H as <- <-.
    split; [|done]. by eapply update_inv.
Qed.

Lemma agas_start_inv n l d : l <> 0 -> home gva < Z.of_nat n -> agas_inv n (agas_start n l d).
Proof.
  intros Hl Hh. assert (Hh0 : 0 <= home gva) by (apply (wrap_range 16); lia).
  assert (Hr0 : forall r, 0 <= r < Z.of_nat n -> rank (agas_empty n d) r = Some (empty_local r)).
  { intros r Hr. unfold rank. cbn [agas_empty ranks]. destruct (Z.ltb_spec r 0); [lia|].
    rewrite list_lookup_fmap, lookup_seq_lt by lia. cbn [fmap option_fmap option_map].
    do 2 f_equal. lia. }
  assert (Hrank : forall r, rank (agas_start n l d) r = if decide (home gva = r) then Some (home_local l d) else rank (agas_empty n d) r).
  { intros r. apply (rank_set _ _ (empty_local (home gva))). apply Hr0. lia. }
  assert (Hlen : length (ranks (agas_start n l d)) = n) by (cbn [agas_start set_rank ranks agas_empty]; by rewrite length_insert, length_fmap, length_seq).
  assert (Hsome : forall r x, rank (agas_empty n d) r = Some x -> x = empty_local r).
  { intros r x H. pose proof (rank_range _ _ _ H) as Hrr. cbn [agas_empty ranks] in Hrr. rewrite length_fmap, length_seq in Hrr.
    rewrite Hr0 in H by done. congruence. }
  split; [done|..].
  - intros r x. rewrite Hrank. case_decide as E; [intros [= <-]; done|]. intros ->%Hsome. done.
  - done.
  - intros r. unfold path; simpl. rewrite list_elem_of_singleton. intros ->. done.
  - by left.
  - intros r x [_ Hr]. simpl in Hr. injection Hr as <-. rewrite Hrank, decide_True by done. intros [= <-].
    eexists. simpl. unfold upsert. rewrite find_store, decide_True by done. split; [done|]. simpl. by rewrite lookup_singleton_eq.
  - intros r x Hn. rewrite Hrank. case_decide as E; [subst; by destruct Hn|]. intros ->%Hsome. split.
    + intros e He. unfold find in He; simpl in He. by rewrite lookup_empty in He.
    + simpl. rewrite list_elem_of_singleton. congruence.
  - done.
Qed.

Lemma agas_step_inv n y b y' r : agas_inv n y -> Z.of_nat n <= 2 ^ 16 -> label_ok y b -> agas_step y b = Some (y', r) -> agas_inv n y'.
Proof.
  intros I Hn Hb Hs. destruct b as [r0 src|i w|i|r0 to|i|i|i|i a].
  - by apply (take_inv n y r0 src y' r).
  - by apply (use_inv n y i w y' r).
  - by apply (drop_inv n y i y' r).
  - simpl in Hb. rewrite (ai_ranks _ _ I) in Hb. by eapply (start_move_inv n y r0 to y' r).
  - by apply (try_inv n y i y' r).
  - by apply (await_inv n y i y' r).
  - by apply (send_inv n y i y' r).
  - by eapply (deliver_inv n y i a y' r).
Qed.

Lemma agas_run_inv n l d tr y : l <> 0 -> home gva < Z.of_nat n <= 2 ^ 16 -> agas_run n l d tr y -> agas_inv n y.
Proof.
  intros Hl Hn. induction 1 as [|tr y b y' r Hr IH Hb Hs]; [apply agas_start_inv; [done|lia]|].
  eapply agas_step_inv; (done || lia).
Qed.

(** ** Reaching the block *)

Lemma forward_resident n y r x : agas_inv n y -> Z.of_nat n <= 2 ^ 16 -> offset gva <> THERE_OFFSET ->
  resident y r -> rank y r = Some x -> forward y r = r.
Proof.
  intros I Hn Ht Hres Hr. unfold forward, ownerOf, getOwner_cached. rewrite Hr. destruct (Z.eqb_spec (offset gva) THERE_OFFSET); [done|].
  destruct (ai_resident _ _ I _ _ Hres Hr) as (e & He & Ho & _). rewrite He. cbn [fst].
  rewrite wrap_small by exact (owner_range n y r x e I Hn Hr He). rewrite Ho. by apply (ai_rank _ _ I).
Qed.

(** Each hop leads to a rank that got the block later. *)
Lemma forward_hop n y r x : agas_inv n y -> Z.of_nat n <= 2 ^ 16 -> offset gva <> THERE_OFFSET ->
  flights y = [] -> ~ resident y r -> rank y r = Some x ->
  exists t, y.(hist) !! t = Some (forward y r) /\ forall j, y.(hist) !! j = Some r -> (j < t)%nat.
Proof.
  intros I Hn Ht Hf Hres Hr. unfold forward, ownerOf, getOwner_cached. rewrite Hr. destruct (Z.eqb_spec (offset gva) THERE_OFFSET); [done|].
  destruct (ai_other _ _ I _ _ Hres Hr) as [H1 H2]. destruct (find (tbl x) gva) as [e|] eqn:He; cbn [fst].
  - rewrite wrap_small by exact (owner_range n y r x e I Hn Hr He).
    destruct (H1 e eq_refl) as (_ & _ & t & Hp & Hj). exists t. unfold path in Hp. rewrite Hf, app_nil_r in Hp. done.
  - exists 0%nat. split; [apply I|]. intros j Hj. exfalso. apply list_elem_of_lookup_2 in Hj. apply H2 in Hj as [? ?]. congruence.
Qed.

Lemma forward_reaches n y r : agas_inv n y -> Z.of_nat n <= 2 ^ 16 -> offset gva <> THERE_OFFSET -> flights y = [] ->
  0 <= r < Z.of_nat n -> resident y (Nat.iter (S (length y.(hist))) (forward y) r).
Proof.
  intros I Hn Ht Hf Hr.
  assert (Hin : forall t r, hist y !! t = Some r -> exists x, rank y r = Some x).
  { intros t r' H. apply range_rank. rewrite (ai_ranks _ _ I). apply (ai_path _ _ I). unfold path.
    apply elem_of_app. left. by eapply list_elem_of_lookup_2. }
  assert (Hres : exists r0, resident y r0).
  { destruct (last (hist y)) as [r0|] eqn:El; [by exists r0|]. apply last_None in El. pose proof (ai_home _ _ I) as H0.
    rewrite El in H0. done. }
  assert (H : forall m, let o := Nat.iter (S m) (forward y) r in resident y o \/ exists t, hist y !! t = Some o /\ (m <= t)%nat).
  { induction m as [|m IH].
    - destruct (range_rank y r) as [x Hx]; [by rewrite (ai_ranks _ _ I)|]. simpl. destruct (resident_dec y r) as [Hr0|Hr0].
      + left. by rewrite (forward_resident n y r x).
      + right. destruct (forward_hop n y r x I Hn Ht Hf Hr0 Hx) as (t & H & _). exists t. split; [done|lia].
    - change (Nat.iter (S (S m)) (forward y) r) with (forward y (Nat.iter (S m) (forward y) r)).
      set (o := Nat.iter (S m) (forward y) r) in *. simpl in IH. destruct (resident_dec y o) as [Hr0|Hr0].
      + left. destruct Hr0 as [Hf0 Hl0]. destruct (Hin (pred (length (hist y))) o) as [x Hx]; [by rewrite <- last_lookup|].
        by rewrite (forward_resident n y o x).
      + destruct IH as [?|(t & H1 & H2)]; [done|]. destruct (Hin t o H1) as [x Hx].
        destruct (forward_hop n y o x I Hn Ht Hf Hr0 Hx) as (t' & H3 & H4). right. exists t'. split; [done|].
        apply H4 in H1. lia. }
  destruct (H (length (hist y))) as [?|(t & H1 & H2)]; [done|]. apply lookup_lt_Some in H1. lia.
Qed.

(** C9: a block can always be found, and nothing is lost on its way.  Take any run of the
    protocol, with any interleaving of the threads that pin, use and move the block and any
    order of the messages, in which owner updates are not stale when they arrive and a move
    takes the block only at a rank that still owns it.  Then only the rank that got the
    block last owns it in its table; a thread that holds a pin is at that rank, sees what was
    written last, and can unpin; at most one copy is under way, with those contents, and the
    thread that took it can send it; and when none is, following the owners from any rank
    leads to the block within one hop more than the block has been at places. *)
Theorem block_reachable n l d tr y : l <> 0 -> home gva < Z.of_nat n <= 2 ^ 16 -> offset gva <> THERE_OFFSET ->
  agas_run n l d tr y ->
  (forall r, owns y r -> resident y r)
  /\ (forall i r la, y.(threads) !! i = Some (Holds r la) -> resident y r
      /\ (forall w, exists y', agas_step y (UsePin i w) = Some (y', Some y.(latest)))
      /\ exists y', agas_step y (DropPin i) = Some (y', None))
  /\ (flights y = [] \/ exists to, flights y = [(to, Some y.(latest))])
  /\ (forall i r to at_ la, y.(threads) !! i = Some (Took r to at_ la) -> exists y', agas_step y (SendBlock i) = Some (y', None))
  /\ (flights y = [] -> forall r, 0 <= r < Z.of_nat n -> resident y (Nat.iter (S (length y.(hist))) (forward y) r)).
Proof.
  intros Hl Hn Ht Hr. pose proof (agas_run_inv _ _ _ _ _ Hl Hn Hr) as I. split; [|split; [|split; [|split]]].
  - intros r. by apply (owner_resident n).
  - intros i r la. by apply (held_usable n).
  - apply I.
  - intros i r to at_ la. by apply (took_sent n).
  - intros Hf r Hrr. apply (forward_reaches n); (done || lia).
Qed.

(** ** Executable runs *)

Definition recentb y (s o : Z) : bool :=
  existsb (fun t => bool_decide (path y !! t = Some o)
    && forallb (fun j => negb (bool_decide (y.(hist) !! j = Some s)) || (j <? t)%nat) (seq 0 (length y.(hist))))
    (seq 0 (length (path y))).

Lemma recentb_recent y s o : recentb y s o = true -> recent y s o.
Proof.
  unfold recentb. intros (t & _ & H)%existsb_exists. apply andb_true_iff in H as [H1%bool_decide_eq_true H2].
  exists t. split; [done|]. intros j Hj. rewrite forallb_forall in H2.
  specialize (H2 j). rewrite in_seq in H2. pose proof (lookup_lt_Some _ _ _ Hj). rewrite bool_decide_true in H2 by done.
  simpl in H2. apply Nat.ltb_lt, H2. lia.
Qed.

Definition ownsb y (r : Z) : bool :=
  match rank y r with
  | Some x => match find x.(tbl) gva with Some e => e.(owner) =? r | None => false end
  | None => false
  end.

Lemma ownsb_owns y r : ownsb y r = true -> owns y r.
Proof.
  unfold ownsb. destruct (rank y r) as [x|] eqn:Hr; [|done]. destruct (find (tbl x) gva) as [e|] eqn:He; [|done].
  intros Ho%Z.eqb_eq. by exists x, e.
Qed.

Definition label_okb y (b : label) : bool :=
  match b with
  | StartMove _ to => (0 <=? to) && (to <? Z.of_nat (length y.(ranks)))
  | TryMove i => match y.(threads) !! i with Some (Tries r _) => ownsb y r | _ => true end
  | Deliver i _ => match y.(network) !! i with Some (UpdateOwner s o) => recentb y s o | _ => true end
  | _ => true
  end.

Lemma label_okb_ok y b : label_okb y b = true -> label_ok y b.
Proof.
  destruct b as [| | |r to|i| | |i a]; simpl; try done; [intros; zbool; lia|..].
  - destruct (threads y !! i) as [[|r to| | | |]|]; try done. apply ownsb_owns.
  - destruct (network y !! i) as [[|s o]|]; [done| |done]. apply recentb_recent.
Qed.

Fixpoint agas_exec y (bs : list label) : option (list (option D) * world) :=
  match bs with
  | [] => Some ([], y)
  | b :: bs =>
    '(y, r) ← agas_step y b;
    '(tr, y) ← agas_exec y bs;
    Some (r :: tr, y)
  end.

Fixpoint all_ok y (bs : list label) : bool :=
  match bs with
  | [] => true
  | b :: bs => label_okb y b && match agas_step y b with Some (y, _) => all_ok y bs | None => false end
  end.

Lemma agas_exec_run n l d bs : forall tr y tr' y', agas_run n l d tr y -> all_ok y bs = true ->
  agas_exec y bs = Some (tr', y') -> agas_run n l d (tr ++ tr') y'.
Proof.
  induction bs as [|b bs IH]; simpl; intros tr y tr' y' Hr Hok H.
  - injection H as <- <-. by rewrite app_nil_r.
  - apply andb_true_iff in Hok as [Hb%label_okb_ok Hok].
    destruct (agas_step y b) as [[y1 r]|] eqn:E; [|done]; cbn [mbind option_bind] in H.
    destruct (agas_exec y1 bs) as [[tr1 y2]|] eqn:E'; [|done]; cbn [mbind option_bind] in H. injection H as <- <-.
    replace (tr ++ r :: tr1) with ((tr ++ [r]) ++ tr1) by by rewrite <- app_assoc.
    eapply IH; [|done|done]. by econstructor.
Qed.

End Block.
End Agas.

(** A block of rank 0 of four ranks moves to rank 1 and to rank 2.  The first move waits for a
    pin to go; rank 3 asks for the block at its home and is told of rank 1, and the block is
    written in between. *)
Definition demo_block : Z := GlobalVirtualAddress 8192 12 0 0.
Definition demo_moves : list (@label Z) :=
  [TakePin 0 0; StartMove 0 1; TryMove 1; UsePin 0 (Some 5); DropPin 0; AwaitPins 1; TryMove 1; SendBlock 1; Deliver 0 100;
   TakePin 0 3; TakePin 1 1; UsePin 2 (Some 6); Deliver 0 0; DropPin 2;
   StartMove 1 2; TryMove 3; SendBlock 3; Deliver 0 200; TakePin 2 2; UsePin 4 None].
Definition demo_agas : option (list (option Z) * world) := agas_exec demo_block (agas_start demo_block 4 4096 1) demo_moves.

Lemma demo_agas_run tr y : demo_agas = Some (tr, y) -> agas_run demo_block 4 4096 1 tr y.
Proof.
  unfold demo_agas. intros H. apply (agas_exec_run demo_block 4 4096 1 demo_moves [] _ tr y (agas_nil demo_block 4 4096 1)); [|done].
  vm_compute. reflexivity.
Qed.

Lemma demo_agas_result : (fun r : list (option Z) * world => (omap (fun v => v) r.1, hist r.2, network r.2, threads r.2)) <$> demo_agas
  = Some ([1; 5; 6], [0; 1; 2], [], [Ended; Ended; Ended; Ended; Holds 2 200]).
Proof. vm_compute. reflexivity. Qed.

Lemma block_reachable_witness : exists tr y, demo_agas = Some (tr, y)
  /\ resident y 2 /\ resident y (Nat.iter 4 (forward demo_block y) 3).
Proof.
  destruct (proj1 (fmap_Some _ demo_agas _) demo_agas_result) as ([tr y] & E & Hres). exists tr, y. split; [exact E|].
  injection Hres as _ Hh Hnet Hth.
  destruct (block_reachable demo_block 4 4096 1 tr y) as (_ & Hp & _ & _ & H).
  - discriminate.
  - split; vm_compute; [reflexivity|discriminate].
  - vm_compute. discriminate.
  - exact (demo_agas_run tr y E).
  - assert (Hf : flights y = []) by (unfold flights; rewrite <- Hnet, <- Hth; reflexivity).
    specialize (H Hf 3 ltac:(lia)). rewrite <- Hh in H. split; [|exact H].
    destruct (Hp 4%nat 2 200) as [Hr _]; [rewrite <- Hth; reflexivity|exact Hr].
Defined.

(** ** Where the protocol goes wrong *)

(** Two moves that pass the check of the owner before either takes the block: the table of the
    home is changed twice, and both destinations own a copy. *)
Lemma two_moves_two_owners : exists tr y,
  agas_exec demo_block (agas_start demo_block 4 4096 1)
    [StartMove 0 1; StartMove 0 2; TryMove 0; SendBlock 0; Deliver 0 100; TryMove 1; SendBlock 1; Deliver 0 200] = Some (tr, y)
  /\ owns demo_block y 1 /\ owns demo_block y 2.
Proof.
  do 2 eexists. split; [vm_compute; reflexivity|]. split; apply ownsb_owns; vm_compute; reflexivity.
Qed.

(** Away from the home the first of them has freed the memory that the second copies. *)
Lemma second_move_reads_freed : exists tr y,
  agas_exec demo_block (agas_start demo_block 4 4096 1)
    [StartMove 0 1; TryMove 0; SendBlock 0; Deliver 0 100; StartMove 1 2; StartMove 1 3; TryMove 1; SendBlock 1; TryMove 2] = Some (tr, y)
  /\ threads y !! 2%nat = Some (Took 1 3 0 100) /\ agas_step demo_block y (SendBlock 2) = None.
Proof. do 2 eexists. split; [vm_compute; reflexivity|]. split; vm_compute; reflexivity. Qed.

(** An owner update that was under way while its receiver had the block sends the parcels
    round in a circle: the block is at rank 3, and the ranks 1 and 2 point at each other. *)
Definition stale_run : list (@label Z) :=
  [StartMove 0 1; TryMove 0; SendBlock 0; Deliver 0 100; TakePin 0 2; StartMove 1 2; TryMove 1; SendBlock 1; Deliver 1 200;
   StartMove 2 3; TryMove 2; SendBlock 2; Deliver 1 300; Deliver 0 0].

Lemma stale_hops : (fun r => (hist r.2, network r.2, threads r.2, map (forward demo_block r.2) [0; 1; 2]))
    <$> agas_exec demo_block (agas_start demo_block 4 4096 1) stale_run = Some ([0; 1; 2; 3], [], [Ended; Ended; Ended], [1; 2; 1]).
Proof. vm_compute. reflexivity. Qed.

Lemma stale_update_loops : exists tr y, agas_exec demo_block (agas_start demo_block 4 4096 1) stale_run = Some (tr, y)
  /\ resident y 3 /\ forall k, Nat.iter k (forward demo_block y) 0 <> 3.
Proof.
  destruct (proj1 (fmap_Some _ _ _) stale_hops) as ([tr y] & E & H). exists tr, y. split; [exact E|].
  clear E. injection H as Hh Hn Ht H0 H1 H2. split.
  - split; [unfold flights; rewrite <- Hn, <- Ht; reflexivity|rewrite <- Hh; reflexivity].
  - intros k. assert (Hk : Nat.iter k (forward demo_block y) 0 ∈ [0; 1; 2]).
    { induction k as [|k IH]; [left|]. change (Nat.iter (S k) (forward demo_block y) 0) with (forward demo_block y (Nat.iter k (forward demo_block y) 0)).
      rewrite !elem_of_cons in IH. destruct IH as [-> |[-> |[-> |IH]]]; [| | |by apply elem_of_nil in IH].
      - rewrite <- H0. right. left.
      - rewrite <- H1. right. right. left.
      - rewrite <- H2. right. left. }
    intros E3. rewrite E3, !elem_of_cons in Hk. destruct Hk as [?|[?|[?|Hk]]]; [done..|]. by apply elem_of_nil in Hk.
Qed.

(** A rank that asks for a block while it moves there is told that it owns it, which fails
    the assertion. *)
Lemma update_names_receiver : exists tr y,
  agas_exec demo_block (agas_start demo_block 4 4096 1) [StartMove 0 1; TryMove 0; SendBlock 0; TakePin 0 1] = Some (tr, y)
  /\ network y = [UpsertBlock 1 0 1; UpdateOwner 1 1] /\ agas_step demo_block y (Deliver 1 0) = None.
Proof. do 2 eexists. split; [vm_compute; reflexivity|]. split; vm_compute; reflexivity. Qed.

(** Freeing a block that moved twice: the request goes where the home last sent the block,
    which frees the memory that it freed when the block left. *)
Lemma free_after_two_moves : exists tr y x0 x1,
  agas_exec demo_block (agas_start demo_block 4 4096 1) 
    [StartMove 0 1; TryMove 0; SendBlock 0; Deliver 0 100; StartMove 1 2; TryMove 1; SendBlock 1; Deliver 0 200] = Some (tr, y)
  /\ rank y 0 = Some x0 /\ ownerOf x0 demo_block = 1 /\ rank y 1 = Some x1 /\ freeBlock x1 demo_block = None.
Proof. do 4 eexists. split; [vm_compute; reflexivity|]. repeat split; vm_compute; reflexivity. Qed.
