(* ===== verification/Rebalance.v ===== *)
(** * Rebalancing blocks

    gas/agas/BlockStatisticsTable.cpp, gas/agas/partitioning.cpp and gas/agas/Rebalancer.cpp:
    the counts of the accesses to the blocks of a locality are serialized as a graph between
    blocks and localities, in compressed sparse rows, and sent to the locality that
    rebalances, which merges the graphs, has them partitioned, and sends each owner the blocks
    that are to move.  The table of a locality is the list of its entries in the order in
    which it is iterated. *)

From S2P Require Import Prelude.

Section Rebalance.
Variable ranks : nat.

(** The accesses to a block, from each locality. *)
Record Entry := mkEntry { counts : list Z; sizes : list Z }.

Definition table : Type := list (Z * Entry).

(** ** Serializing *)

Definition serializeMaxBytes (t : table) : Z :=
  let n := Z.of_nat (length t) in
  u64 (u64 (2 + 4 * n + 3 * Z.of_nat ranks * n + Z.of_nat ranks) * 8).

(** What the loops over the table accumulate; [vtxs], [vwgt], [vsizes] and [xadj] are arrays
    of the output, and [adjncy] is the part of it that follows. *)
Record csr := mkCsr {
  vtxs : list Z;
  vwgt : list Z;
  vsizes : list Z;
  xadj : list Z;
  adjncy : list Z;
  adjwgt : list Z;
  lnbrs : list (list Z);
}.

(** The loop over the localities, of the block with index [id]. *)
Fixpoint rank_loop (n k : nat) (e : Entry) (id : Z) (g : csr) (total_vwgt total_vsize : Z) : option (csr * Z * Z) :=
  match n with
  | O => Some (g, total_vwgt, total_vsize)
  | S n =>
    count ← e.(counts) !! k;
    size ← e.(sizes) !! k;
    if nz count then
      l ← g.(lnbrs) !! k;
      rank_loop n (S k) e id
        (mkCsr g.(vtxs) g.(vwgt) g.(vsizes) g.(xadj) (g.(adjncy) ++ [Z.of_nat k]) (g.(adjwgt) ++ [u64 (count * size)]) (<[k := l ++ [id]]> g.(lnbrs)))
        (u64 (total_vwgt + count)) (u64 (total_vsize + size))
    else rank_loop n (S k) e id g total_vwgt total_vsize
  end.

Fixpoint item_loop (t : table) (id : Z) (g : csr) : option csr :=
  match t with
  | [] => Some g
  | (block, e) :: t =>
    let prev_nbrs := length g.(adjncy) in
    '(g, total_vwgt, total_vsize) ← rank_loop ranks 0 e id g 0 0;
    item_loop t (id + 1)
      (mkCsr (g.(vtxs) ++ [block]) (g.(vwgt) ++ [total_vwgt]) (g.(vsizes) ++ [total_vsize])
         (g.(xadj) ++ [Z.of_nat (length g.(adjncy) - prev_nbrs)]) g.(adjncy) g.(adjwgt) g.(lnbrs))
  end.

Definition empty_csr : csr := mkCsr [] [] [] [] [] [] (replicate ranks []).

(** The words of the buffer, in order. *)
Definition layout (g : csr) : list Z :=
  [Z.of_nat (length g.(vtxs))] ++ g.(vtxs) ++ g.(vwgt) ++ g.(vsizes) ++ g.(xadj)
  ++ [Z.of_nat (length g.(adjncy))] ++ g.(adjncy) ++ g.(adjwgt)
  ++ map (fun l => Z.of_nat (length l)) g.(lnbrs) ++ concat g.(lnbrs).

Definition toBuffer (t : table) : option (list Z) :=
  g ← item_loop t 0 empty_csr;
  Some (layout g).

(** ** Taking the buffer apart *)

(** The next [n] words of a buffer, and the rest of it. *)
Definition next (n : nat) (buf : list Z) : option (list Z * list Z) :=
  if (n <=? length buf)%nat then Some (take n buf, drop n buf) else None.

Fixpoint lnbrs_loop (lsizes : list Z) (buf : list Z) : option (list (list Z)) :=
  match lsizes with
  | [] => Some []
  | n :: lsizes =>
    '(l, buf) ← next (Z.to_nat n) buf;
    ls ← lnbrs_loop lsizes buf;
    Some (l :: ls)
  end.

Definition deserialize_bst (buf : list Z) : option csr :=
  '(nv, buf) ← next 1 buf;
  let nvtxs := Z.to_nat (hd 0 nv) in
  '(vs, buf) ← next nvtxs buf;
  '(wg, buf) ← next nvtxs buf;
  '(sz, buf) ← next nvtxs buf;
  '(xa, buf) ← next nvtxs buf;
  '(ne, buf) ← next 1 buf;
  let nedges := Z.to_nat (hd 0 ne) in
  '(ad, buf) ← next nedges buf;
  '(aw, buf) ← next nedges buf;
  '(ls, buf) ← next ranks buf;
  ln ← lnbrs_loop ls buf;
  Some (mkCsr vs wg sz xa ad aw ln).

(** ** The graph *)

Record owner := mkOwner { start : Z; owner_of : Z }.

Record graph := mkGraph {
  nvtxs : Z;
  nedges : Z;
  owner_map : list owner;       (* an array of [ranks] entries, of which the first are set *)
  rows : csr;
}.

Definition graph_init : graph :=
  mkGraph (Z.of_nat ranks) 0 []
    (mkCsr (map Z.of_nat (seq 0 ranks)) (replicate ranks (2 ^ 31 - 1)) (replicate ranks 0) (replicate (S ranks) 0) [] [] (replicate ranks [])).

(** The degrees of the localities grow by [lsizes]. *)
Fixpoint add_sizes (xs lsizes : list Z) : list Z :=
  match xs, lsizes with
  | x :: xs, n :: lsizes => u64 (x + n) :: add_sizes xs lsizes
  | _, _ => xs
  end.

Definition agas_graph_construct (g : graph) (buf : list Z) (from : Z) : option graph :=
  c ← deserialize_bst buf;
  if (length g.(owner_map) <? ranks)%nat then
    let o := mkOwner g.(nvtxs) from in
    x0 ← g.(rows).(xadj) !! 0%nat;
    let gx := x0 :: add_sizes (drop 1 g.(rows).(xadj)) (map (fun l => Z.of_nat (length l)) c.(lnbrs)) in
    let ln := zip_with (fun l k => l ++ map (fun j => u64 (j + g.(nvtxs))) k) g.(rows).(lnbrs) c.(lnbrs) in
    Some (mkGraph (g.(nvtxs) + Z.of_nat (length c.(vtxs))) (g.(nedges) + Z.of_nat (length c.(adjncy))) (g.(owner_map) ++ [o])
      (mkCsr (g.(rows).(vtxs) ++ c.(vtxs)) (g.(rows).(vwgt) ++ c.(vwgt)) (g.(rows).(vsizes) ++ c.(vsizes))
         (gx ++ c.(xadj)) (g.(rows).(adjncy) ++ c.(adjncy)) (g.(rows).(adjwgt) ++ c.(adjwgt)) ln))
  else None.

(** The locality nodes' rows are put in front: the loop counts down from [ranks] to 1, and
    [lnbrs] has [ranks] elements. *)
Fixpoint insert_loop (i : nat) (ln : list (list Z)) (adj : list Z) : option (list Z) :=
  match i with
  | O => Some adj
  | S k => l ← ln !! i; insert_loop k ln (l ++ adj)
  end.

Fixpoint prefix_sums (acc : Z) (xs : list Z) : list Z :=
  match xs with
  | [] => []
  | x :: xs => u64 (acc + x) :: prefix_sums (u64 (acc + x)) xs
  end.

Definition postprocess_graph (g : graph) : option graph :=
  adj ← insert_loop ranks g.(rows).(lnbrs) g.(rows).(adjncy);
  let c := g.(rows) in
  Some (mkGraph g.(nvtxs) (Z.of_nat (length adj)) g.(owner_map)
    (mkCsr c.(vtxs) c.(vwgt) c.(vsizes) (prefix_sums 0 c.(xadj)) adj c.(adjwgt) c.(lnbrs))).

(** The first and the last vertex of an owner, and the owner. *)
Definition agas_graph_get_owner_entry (g : graph) (id : nat) : option (Z * Z * Z) :=
  if (id <? ranks)%nat then
    let count := length g.(owner_map) in
    if (S id =? count)%nat then e ← g.(owner_map) !! id; Some (e.(start), g.(nvtxs) - 1, e.(owner_of))
    else if (count <=? id)%nat then Some (0, 0, 0)
    else e ← g.(owner_map) !! id; e' ← g.(owner_map) !! S id; Some (e.(start), e'.(start) - 1, e.(owner_of))
  else None.

(** The blocks that the owner is asked to move, with their new owners: [start, end) of the two
    arrays. *)
Definition bulk (g : graph) (partition : list Z) (id : nat) : option (Z * list (Z * Z)) :=
  '(s, e, o) ← agas_graph_get_owner_entry g id;
  let n := Z.to_nat (e - s) in
  Some (o, zip (take n (drop (Z.to_nat s) g.(rows).(vtxs))) (take n (drop (Z.to_nat s) partition))).

(** ** The rows of a table *)

Definition cnt (e : Entry) (k : nat) : Z := default 0 (e.(counts) !! k).
Definition siz (e : Entry) (k : nat) : Z := default 0 (e.(sizes) !! k).

(** The localities that accessed a block, of the [n] from [k] on. *)
Fixpoint row (n k : nat) (e : Entry) : list nat :=
  match n with
  | O => []
  | S n => if nz (cnt e k) then k :: row n (S k) e else row n (S k) e
  end.

Definition wsum (f : nat -> Z) (a : Z) (ks : list nat) : Z := foldl (fun a k => u64 (a + f k)) a ks.

(** The indices of the blocks that locality [k] accessed. *)
Fixpoint ids (k : nat) (id : Z) (t : table) : list Z :=
  match t with
  | [] => []
  | (_, e) :: t => if nz (cnt e k) then id :: ids k (id + 1) t else ids k (id + 1) t
  end.

Definition row_weights (e : Entry) : list Z := map (fun k => u64 (cnt e k * siz e k)) (row ranks 0 e).

(** The graph of a table, whose blocks are numbered from [id] on. *)
Definition csr_of (id : Z) (t : table) : csr :=
  mkCsr (map fst t) (map (fun x => wsum (cnt x.2) 0 (row ranks 0 x.2)) t) (map (fun x => wsum (siz x.2) 0 (row ranks 0 x.2)) t)
    (map (fun x => Z.of_nat (length (row ranks 0 x.2))) t) (concat (map (fun x => map Z.of_nat (row ranks 0 x.2)) t))
    (concat (map (fun x => row_weights x.2) t)) (map (fun k => ids k id t) (seq 0 ranks)).

Definition wf_entry (e : Entry) : Prop := length e.(counts) = ranks /\ length e.(sizes) = ranks.

Definition app_csr (g h : csr) : csr :=
  mkCsr (g.(vtxs) ++ h.(vtxs)) (g.(vwgt) ++ h.(vwgt)) (g.(vsizes) ++ h.(vsizes)) (g.(xadj) ++ h.(xadj)) (g.(adjncy) ++ h.(adjncy))
    (g.(adjwgt) ++ h.(adjwgt)) (zip_with app g.(lnbrs) h.(lnbrs)).

Definition flag (id : Z) (e : Entry) (k : nat) : list Z := if nz (cnt e k) then [id] else [].

Lemma rank_loop_spec n : forall k e id g a b, wf_entry e -> length g.(lnbrs) = ranks -> (k + n = ranks)%nat ->
  exists ln, rank_loop n k e id g a b = Some (mkCsr g.(vtxs) g.(vwgt) g.(vsizes) g.(xadj) (g.(adjncy) ++ map Z.of_nat (row n k e))
      (g.(adjwgt) ++ map (fun j => u64 (cnt e j * siz e j)) (row n k e)) ln, wsum (cnt e) a (row n k e), wsum (siz e) b (row n k e))
    /\ length ln = ranks
    /\ (forall j l, g.(lnbrs) !! j = Some l -> ln !! j = Some (l ++ if (k <=? j)%nat then flag id e j else [])).
Proof.
  induction n as [|n IH]; intros k e id g a b We Hl Hk; cbn [rank_loop row].
  - exists g.(lnbrs). rewrite !app_nil_r. split; [by destruct g|]. split; [done|]. intros j l Hj. apply lookup_lt_Some in Hj as Hlt.
    destruct (Nat.leb_spec k j); [lia|]. by rewrite app_nil_r.
  - pose proof We as [W1 W2]. destruct (lookup_lt_is_Some_2 e.(counts) k ltac:(lia)) as [c Hc]. destruct (lookup_lt_is_Some_2 e.(sizes) k ltac:(lia)) as [z Hz].
    assert (Ec : cnt e k = c) by (unfold cnt; by rewrite Hc). assert (Ez : siz e k = z) by (unfold siz; by rewrite Hz).
    subst c z. rewrite Hc, Hz. cbn [mbind option_bind]. destruct (nz (cnt e k)) eqn:Hnz.
    + destruct (lookup_lt_is_Some_2 g.(lnbrs) k ltac:(lia)) as [l0 Hl0]. rewrite Hl0. cbn [mbind option_bind].
      match goal with |- context [rank_loop n (S k) e id ?x ?y ?z] => destruct (IH (S k) e id x y z We) as (ln & E & H1 & H2) end;
        [cbn [lnbrs]; by rewrite length_insert|lia|]. exists ln. rewrite E. cbn [vtxs vwgt vsizes xadj adjncy adjwgt map lnbrs] in *. rewrite <- !app_assoc.
      split; [done|]. split; [done|]. intros j l Hj. destruct (decide (j = k)) as [->|Hne].
      * rewrite Hl0 in Hj. injection Hj as <-. rewrite (H2 k (l0 ++ [id])) by (apply list_lookup_insert_eq; by eapply lookup_lt_Some). rewrite (proj2 (Nat.leb_le k k)) by done.
        rewrite (proj2 (Nat.leb_gt (S k) k)) by lia. unfold flag. by rewrite Hnz, app_nil_r.
      * rewrite (H2 j l) by (by rewrite list_lookup_insert_ne). do 2 f_equal. destruct (Nat.leb_spec (S k) j), (Nat.leb_spec k j); (done || lia).
    + destruct (IH (S k) e id g a b We Hl ltac:(lia)) as (ln & E & H1 & H2). exists ln. split; [done|]. split; [done|]. intros j l Hj. rewrite (H2 j l Hj). do 2 f_equal.
      destruct (Nat.leb_spec (S k) j), (Nat.leb_spec k j); try done; try lia. assert (j = k) as -> by lia. unfold flag. by rewrite Hnz.
Qed.

Lemma ids_app k id t u : ids k id (t ++ u) = ids k id t ++ ids k (id + Z.of_nat (length t)) u.
Proof.
  revert id. induction t as [|[b e] t IH]; intros id; simpl; [by rewrite Z.add_0_r|]. rewrite IH.
  replace (id + 1 + Z.of_nat (length t)) with (id + Z.of_nat (S (length t))) by lia. by destruct (nz (cnt e k)).
Qed.

Lemma item_loop_spec t : forall id g, Forall (fun x => wf_entry x.2) t -> length g.(lnbrs) = ranks ->
  item_loop t id g = Some (app_csr g (csr_of id t)).
Proof.
  induction t as [|[b e] t IH]; intros id g Hw Hl; cbn [item_loop].
  - unfold app_csr, csr_of. cbn. rewrite !app_nil_r. destruct g as [? ? ? ? ? ? ln]. simpl in *. do 2 f_equal. clear - Hl.
    apply list_eq. intros j. rewrite lookup_zip_with, list_lookup_fmap. destruct (ln !! j) as [l|] eqn:E; [|done].
    apply lookup_lt_Some in E as Hlt. rewrite lookup_seq_lt by lia. simpl. by rewrite app_nil_r.
  - apply Forall_cons in Hw as [We Hw]. destruct (rank_loop_spec ranks 0 e id g 0 0 We Hl ltac:(lia)) as (ln & E & H1 & H2). rewrite E. cbn [mbind option_bind].
    rewrite IH by done. unfold app_csr, csr_of. cbn [vtxs vwgt vsizes xadj adjncy adjwgt lnbrs map concat fst snd]. rewrite <- !app_assoc.
    do 2 f_equal.
    + rewrite length_app, length_map, Nat.add_comm, Nat.add_sub. done.
    + apply list_eq. intros j. rewrite !lookup_zip_with, !list_lookup_fmap. destruct (lnbrs g !! j) as [l|] eqn:Ej.
      * apply lookup_lt_Some in Ej as Hlt. rewrite (H2 j l Ej), lookup_seq_lt by lia. cbn. unfold flag. rewrite <- app_assoc. by destruct (nz (cnt e j)).
      * apply lookup_ge_None in Ej. by rewrite (lookup_ge_None_2 ln j) by lia.
Qed.

Lemma toBuffer_spec t : Forall (fun x => wf_entry x.2) t -> toBuffer t = Some (layout (csr_of 0 t)).
Proof.
  intros Hw. unfold toBuffer. rewrite item_loop_spec by (done || apply length_replicate). cbn [mbind option_bind]. do 2 f_equal.
  unfold app_csr, empty_csr, csr_of. cbn. f_equal. apply list_eq. intros j. rewrite lookup_zip_with, list_lookup_fmap.
  destruct (decide (j < ranks)%nat) as [Hj|Hj].
  - rewrite lookup_replicate_2, lookup_seq_lt by lia. done.
  - rewrite (lookup_ge_None_2 (replicate _ _)) by (rewrite length_replicate; lia). by rewrite lookup_seq_ge by lia.
Qed.

(** ** Round trip *)

Lemma next_app a b : next (length a) (a ++ b) = Some (a, b).
Proof. unfold next. rewrite (proj2 (Nat.leb_le _ _)) by (rewrite length_app; lia). by rewrite take_app_length, drop_app_length. Qed.

Lemma lnbrs_loop_concat ls : lnbrs_loop (map (fun l => Z.of_nat (length l)) ls) (concat ls) = Some ls.
Proof.
  induction ls as [|l ls IH]; [done|]. cbn [map lnbrs_loop concat]. by rewrite Nat2Z.id, next_app; cbn [mbind option_bind]; rewrite IH.
Qed.

Record consistent (g : csr) : Prop := {
  cs_vwgt : length g.(vwgt) = length g.(vtxs);
  cs_vsizes : length g.(vsizes) = length g.(vtxs);
  cs_xadj : length g.(xadj) = length g.(vtxs);
  cs_adjwgt : length g.(adjwgt) = length g.(adjncy);
  cs_lnbrs : length g.(lnbrs) = ranks;
}.

Lemma csr_of_consistent id t : consistent (csr_of id t).
Proof.
  split; cbn [csr_of vtxs vwgt vsizes xadj adjncy adjwgt lnbrs]; rewrite ?length_map, ?length_seq; try done.
  induction t as [|x t IH]; [done|]. cbn [map concat]. rewrite !length_app, IH. unfold row_weights. by rewrite !length_map.
Qed.

Lemma deserialize_layout g : consistent g -> deserialize_bst (layout g) = Some g.
Proof.
  intros [C1 C2 C3 C4 C5]. destruct g as [vt wg sz xa ad aw ln]. simpl in *. unfold deserialize_bst, layout. cbn [vtxs vwgt vsizes xadj adjncy adjwgt lnbrs].
  rewrite (next_app [_] _). cbn [mbind option_bind hd]. rewrite Nat2Z.id, next_app. cbn [mbind option_bind].
  rewrite <- C1, next_app. cbn [mbind option_bind]. rewrite C1, <- C2, next_app. cbn [mbind option_bind]. rewrite C2, <- C3, next_app. cbn [mbind option_bind].
  rewrite (next_app [_] _). cbn [mbind option_bind hd]. rewrite Nat2Z.id, next_app. cbn [mbind option_bind]. rewrite <- C4, next_app. cbn [mbind option_bind].
  rewrite <- C5, <- (length_map (fun l => Z.of_nat (length l)) ln) at 1. rewrite next_app. cbn [mbind option_bind]. by rewrite lnbrs_loop_concat.
Qed.

(** ** Counting edges *)

Lemma row_length n : forall k e, length (row n k e) = sum_list_with (fun j => if nz (cnt e j) then 1 else 0)%nat (seq k n).
Proof. induction n as [|n IH]; intros k e; simpl; [done|]. destruct (nz (cnt e k)); simpl; by rewrite IH. Qed.

Lemma sum_list_with_add {A} (f g : A -> nat) l : sum_list_with (fun x => f x + g x)%nat l = (sum_list_with f l + sum_list_with g l)%nat.
Proof. induction l as [|x l IH]; simpl; [done|]. rewrite IH. lia. Qed.

Lemma ids_cons_length k id x t : length (ids k id (x :: t)) = ((if nz (cnt x.2 k) then 1 else 0) + length (ids k (id + 1) t))%nat.
Proof. destruct x as [b e]. simpl. by destruct (nz (cnt e k)). Qed.

(** Both sides of the graph have the same edges. *)
Lemma edges_agree (t : table) : forall id, sum_list_with (fun k => length (ids k id t)) (seq 0 ranks) = length (concat (map (fun x => map Z.of_nat (row ranks 0 x.2)) t)).
Proof.
  induction t as [|x t IH]; intros id.
  - cbn [ids map concat length]. generalize (seq 0 ranks) as l. intros l. induction l as [|k l IHl]; [done|exact IHl].
  - cbn [map concat]. rewrite length_app, length_map, row_length, <- (IH (id + 1)), <- sum_list_with_add.
    generalize (seq 0 ranks) as l. intros l. induction l as [|k l IHl]; [done|]. cbn [sum_list_with]. by rewrite IHl, ids_cons_length.
Qed.

Lemma concat_length_sum {A B} (f : A -> list B) l : length (concat (map f l)) = sum_list_with (fun x => length (f x)) l.
Proof. induction l as [|x l IH]; [done|]. cbn [map concat sum_list_with]. by rewrite length_app, IH. Qed.

Lemma row_bound n k e : (length (row n k e) <= n)%nat.
Proof. revert k. induction n as [|n IH]; intros k; simpl; [done|]. destruct (nz (cnt e k)); simpl; specialize (IH (S k)); lia. Qed.

Lemma edges_bound (t : table) : (length (concat (map (fun x => map Z.of_nat (row ranks 0 x.2)) t)) <= ranks * length t)%nat.
Proof.
  induction t as [|x t IH]; simpl; [lia|]. rewrite length_app, length_map. pose proof (row_bound ranks 0 x.2). lia.
Qed.

(** The statistics of a locality, for blocks and accesses of any number, survive the trip to
    the locality that rebalances: what is serialized fits in the parcel that was allocated
    for it, and taking it apart gives the graph between blocks and localities: the blocks, the
    sum of the accesses and of the bytes of each, the localities that accessed it with
    the weights of these edges, and for every locality the indices of the blocks it
    accessed. *)
Theorem statistics_roundtrip (t : table) : Forall (fun x => wf_entry x.2) t ->
  exists buf, toBuffer t = Some buf /\ deserialize_bst buf = Some (csr_of 0 t)
    /\ (8 * (2 + 4 * Z.of_nat (length t) + 3 * Z.of_nat ranks * Z.of_nat (length t) + Z.of_nat ranks) < 2 ^ 64 ->
         8 * Z.of_nat (length buf) <= serializeMaxBytes t).
Proof.
  intros Hw. exists (layout (csr_of 0 t)). split; [by apply toBuffer_spec|]. split; [apply deserialize_layout, csr_of_consistent|].
  intros Hmax. pose proof (csr_of_consistent 0 t) as [C1 C2 C3 C4 C5]. unfold serializeMaxBytes. rewrite (wrap_small 64 (2 + _ + _ + _)), wrap_small by nia.
  unfold layout. rewrite !length_app, C1, C2, C3, C4, length_map, C5. pose proof (edges_bound t) as Hb.
  assert (Hl : length (concat (lnbrs (csr_of 0 t))) = length (adjncy (csr_of 0 t))) by (cbn [csr_of lnbrs adjncy]; by rewrite concat_length_sum, edges_agree).
  rewrite Hl. cbn [csr_of vtxs adjncy]. rewrite length_map. cbn [length]. nia.
Qed.

(** ** Merging *)

(** The graph of the blocks [t] of all localities together: vertices 0 to [ranks] - 1 are the
    localities, and the blocks follow. *)
Definition graph_of (t : table) (om : list owner) : graph :=
  let c := csr_of (Z.of_nat ranks) t in
  mkGraph (Z.of_nat (ranks + length t)) (Z.of_nat (length c.(adjncy))) om
    (mkCsr (map Z.of_nat (seq 0 ranks) ++ c.(vtxs)) (replicate ranks (2 ^ 31 - 1) ++ c.(vwgt)) (replicate ranks 0 ++ c.(vsizes))
       ((0 :: map (fun l => Z.of_nat (length l)) c.(lnbrs)) ++ c.(xadj)) c.(adjncy) c.(adjwgt) c.(lnbrs)).

Lemma map_const_seq {A} (a : A) n : forall k, map (fun _ => a) (seq k n) = replicate n a.
Proof. induction n as [|n IH]; intros k; [done|]. simpl. by rewrite IH. Qed.

Lemma graph_init_of : graph_init = graph_of [] [].
Proof.
  unfold graph_init, graph_of. cbn [csr_of vtxs vwgt vsizes xadj adjncy adjwgt lnbrs map concat length]. rewrite !app_nil_r, Nat.add_0_r. f_equal. f_equal.
  - cbn [replicate]. f_equal. rewrite map_map. cbn [ids length]. by rewrite map_const_seq.
  - cbn [ids]. by rewrite map_const_seq.
Qed.

Lemma ids_range k : forall t id j, j ∈ ids k id t -> id <= j < id + Z.of_nat (length t).
Proof.
  induction t as [|[b e] t IH]; intros id j Hj; cbn [ids] in Hj; [by apply elem_of_nil in Hj|]. cbn [length].
  destruct (nz (cnt e k)); [apply elem_of_cons in Hj as [->|Hj]; [lia|]|]; specialize (IH _ _ Hj); lia.
Qed.

Lemma ids_shift k n : forall t id, 0 <= id -> 0 <= n -> id + n + Z.of_nat (length t) < 2 ^ 64 ->
  map (fun j => u64 (j + n)) (ids k id t) = ids k (id + n) t.
Proof.
  induction t as [|[b e] t IH]; intros id H1 H2 H3; cbn [ids]; [done|]. cbn [length] in H3. replace (id + n + 1) with (id + 1 + n) by lia.
  destruct (nz (cnt e k)); cbn [map]; rewrite IH by lia; [|done]. by rewrite wrap_small by lia.
Qed.

Lemma ids_length k t id : (length (ids k id t) <= length t)%nat.
Proof. revert id. induction t as [|[b e] t IH]; intros id; simpl; [done|]. destruct (nz (cnt e k)); simpl; specialize (IH (id + 1)); lia. Qed.

Lemma add_sizes_ids (ks : list nat) (t u : table) xs : Z.of_nat (length t + length u) < 2 ^ 64 ->
  add_sizes (map (fun k => Z.of_nat (length (ids k (Z.of_nat ranks) t))) ks ++ xs) (map (fun k => Z.of_nat (length (ids k 0 u))) ks)
  = map (fun k => Z.of_nat (length (ids k (Z.of_nat ranks) (t ++ u)))) ks ++ xs.
Proof.
  intros Hb. induction ks as [|k ks IH]; cbn [map app add_sizes]; [by destruct xs|]. rewrite IH. f_equal. rewrite ids_app, length_app.
  assert (El : length (ids k (Z.of_nat ranks + Z.of_nat (length t)) u) = length (ids k 0 u)).
  { generalize (Z.of_nat ranks + Z.of_nat (length t)) as a, 0 as b. clear. induction u as [|[? e] u IH]; intros a b; [done|]. cbn [ids]. destruct (nz (cnt e k)); cbn [length]; by rewrite (IH _ (b + 1)). }
  rewrite El. pose proof (ids_length k t (Z.of_nat ranks)). pose proof (ids_length k u 0). rewrite wrap_small by lia. lia.
Qed.

Lemma construct_spec t u om o : Forall (fun x => wf_entry x.2) u -> (length om < ranks)%nat -> Z.of_nat (ranks + length t + length u) < 2 ^ 63 ->
  agas_graph_construct (graph_of t om) (layout (csr_of 0 u)) o = Some (graph_of (t ++ u) (om ++ [mkOwner (Z.of_nat (ranks + length t)) o])).
Proof.
  intros Hw Hom Hb. unfold agas_graph_construct. rewrite deserialize_layout by apply csr_of_consistent. cbn [mbind option_bind].
  unfold graph_of. cbn [nvtxs nedges owner_map rows csr_of vtxs vwgt vsizes xadj adjncy adjwgt lnbrs]. rewrite (proj2 (Nat.ltb_lt _ _) Hom).
  cbn [app lookup list_lookup mbind option_bind drop]. rewrite !map_app, !concat_app, !length_app, !length_map, <- ?app_assoc. f_equal. f_equal; [lia|lia|].
  f_equal.
  - rewrite !map_map, drop_0, add_sizes_ids by lia. by rewrite <- app_assoc.
  - apply list_eq. intros k. rewrite lookup_zip_with, !list_lookup_fmap. destruct (decide (k < ranks)%nat) as [Hk|Hk]; [|by rewrite lookup_seq_ge by lia].
    rewrite lookup_seq_lt by done. cbn. rewrite ids_app. do 2 f_equal. rewrite ids_shift by lia. f_equal. lia.
Qed.

(** All the localities' tables, in the order in which their parcels arrive. *)
Fixpoint construct_all (g : graph) (ts : list (Z * table)) : option graph :=
  match ts with
  | [] => Some g
  | (o, t) :: ts => buf ← toBuffer t; g ← agas_graph_construct g buf o; construct_all g ts
  end.

Fixpoint owners (id : Z) (ts : list (Z * table)) : list owner :=
  match ts with
  | [] => []
  | (o, t) :: ts => mkOwner id o :: owners (id + Z.of_nat (length t)) ts
  end.

Lemma construct_all_spec ts : forall t om, Forall (fun x => Forall (fun y => wf_entry y.2) x.2) ts -> (length om + length ts <= ranks)%nat ->
  Z.of_nat (ranks + length t + length (concat (map snd ts))) < 2 ^ 63 ->
  construct_all (graph_of t om) ts = Some (graph_of (t ++ concat (map snd ts)) (om ++ owners (Z.of_nat (ranks + length t)) ts)).
Proof.
  induction ts as [|[o u] ts IH]; intros t om Hw Hl Hb; cbn [construct_all owners map concat].
  - by rewrite !app_nil_r.
  - apply Forall_cons in Hw as [Hu Hw]. cbn [map concat length snd] in *. rewrite length_app in Hb. rewrite toBuffer_spec by done. cbn [mbind option_bind].
    rewrite construct_spec by (done || lia). cbn [mbind option_bind]. rewrite IH; [|done|rewrite length_app; simpl; lia|rewrite length_app; lia].
    rewrite <- !app_assoc, length_app. cbn [app]. do 4 f_equal. f_equal. lia.
Qed.

Lemma ids_in k : forall t id i b e, t !! i = Some (b, e) -> (id + Z.of_nat i ∈ ids k id t <-> cnt e k <> 0).
Proof.
  induction t as [|[b0 e0] t IH]; intros id [|i] b e Hi; simplify_eq/=.
  - rewrite Z.add_0_r. unfold nz. destruct (Z.eqb_spec (cnt e k) 0) as [E|E]; cbn [negb].
    + split; [|done]. intros Hin. apply ids_range in Hin. lia.
    + split; [done|]. intros _. by left.
  - specialize (IH (id + 1) i b e Hi). replace (id + Z.of_nat (S i)) with (id + 1 + Z.of_nat i) by lia. destruct (nz (cnt e0 k)); [|done].
    rewrite elem_of_cons, IH. split; [intros [|]; [lia|done]|by right].
Qed.

(** Merging the statistics of the localities, which arrive in any order, gives the graph of
    all their blocks: after the vertices of the localities come the blocks of each, in
    the order of arrival, with the owner's first one recorded; a block's row lists the
    localities that accessed it, a locality's row the numbers of the blocks it accessed, and
    they agree: a block is in the row of a locality exactly when the locality accessed it;
    the first degrees are the lengths of the localities' rows, and the edges counted from
    either side are the same. *)
Theorem graph_merges ts : Forall (fun x => Forall (fun y => wf_entry y.2) x.2) ts -> (length ts <= ranks)%nat ->
  Z.of_nat (ranks + length (concat (map snd ts))) < 2 ^ 63 ->
  exists g, construct_all graph_init ts = Some g
    /\ g.(nvtxs) = Z.of_nat (length g.(rows).(vtxs)) /\ g.(rows).(vtxs) = map Z.of_nat (seq 0 ranks) ++ concat (map (fun x => map fst x.2) ts)
    /\ g.(owner_map) = owners (Z.of_nat ranks) ts
    /\ g.(rows).(adjncy) = concat (map (fun x => map Z.of_nat (row ranks 0 x.2)) (concat (map snd ts)))
    /\ (forall i k b e, concat (map snd ts) !! i = Some (b, e) -> (k < ranks)%nat ->
         exists l, g.(rows).(lnbrs) !! k = Some l /\ (Z.of_nat (ranks + i) ∈ l <-> cnt e k <> 0)
           /\ g.(rows).(xadj) !! S k = Some (Z.of_nat (length l)))
    /\ g.(nedges) = Z.of_nat (length g.(rows).(adjncy)) /\ length (concat g.(rows).(lnbrs)) = length g.(rows).(adjncy).
Proof.
  intros Hw Hl Hb. exists (graph_of (concat (map snd ts)) (owners (Z.of_nat ranks) ts)). rewrite graph_init_of.
  rewrite (construct_all_spec ts [] [] Hw) by (simpl; lia). cbn [length app]. rewrite Nat.add_0_r. split; [done|]. set (t := concat (map snd ts)) in *.
  unfold graph_of. cbn [nvtxs nedges owner_map rows csr_of vtxs adjncy lnbrs xadj]. rewrite length_app, !length_map, length_seq. split; [done|].
  split; [by unfold t; rewrite concat_map, map_map|]. split; [done|]. split; [done|]. split; [|split; [done|by rewrite concat_length_sum, edges_agree]].
  intros i k b e Hi Hk. exists (ids k (Z.of_nat ranks) t). rewrite list_lookup_fmap, lookup_seq_lt by done. split; [done|]. split.
  - rewrite Nat2Z.inj_add. by eapply ids_in.
  - rewrite lookup_app_l by (simpl; rewrite !length_map, length_seq; lia). simpl. by rewrite !list_lookup_fmap, lookup_seq_lt by done.
Qed.

(** ** What goes wrong afterwards *)

(** The rows of the localities are put in front of the others with an index that is one too
    large: with any number of localities, the loop starts beyond the end of the array. *)
Lemma postprocess_beyond g : (0 < ranks)%nat -> length g.(rows).(lnbrs) = ranks -> postprocess_graph g = None.
Proof.
  intros Hr Hl. unfold postprocess_graph. assert (E : insert_loop ranks g.(rows).(lnbrs) g.(rows).(adjncy) = None); [|by rewrite E].
  destruct ranks as [|n] eqn:En; [lia|]. cbn [insert_loop]. by rewrite lookup_ge_None_2 by lia.
Qed.
End Rebalance.

(** ** Two localities *)

Definition demo_t0 : table := [(1000, mkEntry [3; 0] [24; 0]); (1001, mkEntry [1; 2] [8; 16])].
Definition demo_t1 : table := [(2000, mkEntry [0; 5] [0; 40]); (2001, mkEntry [4; 0] [32; 0]); (2002, mkEntry [7; 1] [56; 8])].

Lemma demo_tables_ok : Forall (fun x => Forall (fun y => wf_entry 2 y.2) x.2) [(1, demo_t1); (0, demo_t0)].
Proof. repeat constructor. Qed.

Lemma statistics_roundtrip_witness : exists buf, toBuffer 2 demo_t0 = Some buf /\ deserialize_bst 2 buf = Some (csr_of 2 0 demo_t0).
Proof.
  destruct (statistics_roundtrip 2 demo_t0 ltac:(repeat constructor)) as (buf & H1 & H2 & _). exists buf. split; [exact H1|exact H2].
Defined.

Definition no_graph : graph := mkGraph 0 0 [] (mkCsr [] [] [] [] [] [] []).

Definition demo_graph : graph := default no_graph (construct_all 2 (graph_init 2) [(1, demo_t1); (0, demo_t0)]).

Lemma graph_merges_witness : exists g, construct_all 2 (graph_init 2) [(1, demo_t1); (0, demo_t0)] = Some g
  /\ g.(rows).(vtxs) = [0; 1; 2000; 2001; 2002; 1000; 1001] /\ g.(owner_map) = [mkOwner 2 1; mkOwner 5 0].
Proof.
  destruct (graph_merges 2 [(1, demo_t1); (0, demo_t0)] demo_tables_ok ltac:(simpl; lia) ltac:(simpl; lia)) as (g & E & _ & H1 & H2 & _).
  exists g. split; [exact E|]. split; [rewrite H1; reflexivity|rewrite H2; reflexivity].
Defined.

(** The end of an owner's blocks is taken for the first vertex that is not its own, and is its
    last one: the owner of three blocks is asked to move two of them. *)
Lemma bulk_misses_last : bulk 2 demo_graph (replicate 7 0) 0 = Some (1, [(2000, 0); (2001, 0)])
  /\ bulk 2 demo_graph (replicate 7 0) 1 = Some (0, [(1000, 0)]).
Proof. by vm_compute. Qed.
