(* ===== verification/CyclicAlloc.v ===== *)
(** * Cyclic allocation

    AGAS::allocateCyclic and AGAS::insertCyclicSegment: rank 0 allocates the segment that
    gives a cyclic allocation its address, and every rank inserts the blocks that the
    address arithmetic of the allocation assigns to it.  The composition of the address
    arithmetic, the addresses of the active address space and the translation tables. *)

From S2P Require Import Prelude Math Gpa Gva Btt.

Section Alloc.
Variable ranks : Z.

(** The blocks of a rank, from [gva] on. *)
Fixpoint insert_loop (n : nat) (t : btt) (gva l blocks padded attr : Z) : option btt :=
  match n with
  | O => Some t
  | S n =>
    t ← insert t gva t.(rank_) l blocks attr;
    gva ← add ranks gva (ranks * padded) padded;
    insert_loop n t gva (l + padded) blocks padded attr
  end.

(** [segment] is the memory that a rank other than 0 allocates. *)
Definition insertCyclicSegment (t : btt) (gva blocks padded attr l segment : Z) : option btt :=
  let l := if t.(rank_) =? 0 then l else segment in
  gva ← add ranks gva (t.(rank_) * padded) padded;
  insert_loop (Z.to_nat blocks) t gva l blocks padded attr.

(** lvaToGVA: [offsetOf] is the table of chunks. *)
Definition lvaToGVA (offsetOf : Z -> Z) (rank l bsize : Z) : Z :=
  GlobalVirtualAddress (offsetOf l) (ceil_log2 64 bsize) 0 rank.

(** What allocateCyclic broadcasts: the address, the blocks of a rank and their size. *)
Definition allocateCyclic (offsetOf : Z -> Z) (n bsize l : Z) : Z * Z * Z :=
  let blocks := ceil_div n ranks in
  let padded := u64 (Z.shiftl 1 (ceil_log2 64 bsize)) in
  let gva := lvaToGVA offsetOf 0 l padded in
  (GlobalVirtualAddress (offset gva) (size gva) 1 (home gva), blocks, padded).

(** ** Addresses *)

Lemma gva_eq o s c h : o ∈u 42 -> s ∈u 5 -> c ∈u 1 -> h ∈u 16 ->
  GlobalVirtualAddress o s c h = h * 2 ^ 48 + (c * 2 ^ 47 + (s * 2 ^ 42 + o)).
Proof.
  intros Ho Hs Hc Hh. unfold GlobalVirtualAddress, GVA_RANK_BITS, GVA_SIZE_BITS, GVA_OFFSET_BITS.
  rewrite !wrap_small by done. rewrite (lor_shiftl_add s o 42) by lia.
  rewrite (lor_shiftl_add c _ 47) by lia. apply lor_shiftl_add; lia.
Qed.

Lemma gva_fields o s c h : o ∈u 42 -> s ∈u 5 -> c ∈u 1 -> h ∈u 16 ->
  let a := GlobalVirtualAddress o s c h in
  a ∈u 64 /\ offset a = o /\ size a = s /\ cyclic a = c /\ home a = h.
Proof.
  intros Ho Hs Hc Hh a. pose proof (gva_eq o s c h Ho Hs Hc Hh) as E. fold a in E.
  assert (Ha : a ∈u 64) by (rewrite E; lia). split; [done|]. pose proof (fields_sum a Ha) as F.
  assert (0 <= offset a < 2 ^ 42) by (apply (wrap_range 42); lia). pose proof (size_range a).
  assert (0 <= cyclic a < 2) by (apply (wrap_range 1); lia). assert (0 <= home a < 2 ^ 16) by (apply (wrap_range 16); lia). lia.
Qed.

Hypothesis Hranks : 0 < ranks < 2 ^ 15.

Section Size.
Variables s bsize : Z.
Hypothesis Hs : 0 <= s < 32.
Hypothesis Hb : 0 < bsize.
Hypothesis Hlog : Z.log2_up bsize = s.

(** An address of a cyclic allocation of blocks of [bsize] bytes. *)
Abbreviation cyc o h := (GlobalVirtualAddress o s 1 h).

(** Its position, but for a constant. *)
Definition cyc_pos (o h : Z) : Z := (o / 2 ^ s * ranks + h) * bsize + o mod 2 ^ s.

Lemma bsize_bounds : bsize <= 2 ^ s < 2 ^ 32.
Proof. split; [rewrite <- Hlog; apply log2_up_bounds; lia|apply Z.pow_lt_mono_r; lia]. Qed.

Lemma cyc_gpa o h : o ∈u 42 -> o mod 2 ^ s < bsize -> 0 <= h < ranks ->
  valid ranks bsize (cyc o h)
  /\ pos ranks bsize (cyc o h) = cyc_pos o h + 2 ^ (42 - s) * (32 + s) * ranks * bsize.
Proof.
  intros Ho Hm' Hh. pose proof bsize_bounds as Hp. destruct (gva_fields o s 1 h) as (Ha & _); [done|lia..|].
  rewrite gva_eq in * by lia. set (H := 2 ^ 47 + s * 2 ^ 42). set (K := 2 ^ (42 - s)).
  assert (HK : 2 ^ 42 = K * 2 ^ s) by (unfold K; rewrite <- Z.pow_add_r by lia; f_equal; lia).
  assert (HH : H = (32 * K + s * K) * 2 ^ s) by (unfold H; rewrite HK; lia).
  pose proof (Z.div_mod o (2 ^ s) ltac:(lia)) as Hd. pose proof (Z.mod_pos_bound o (2 ^ s) ltac:(lia)) as Hm.
  assert (0 <= o / 2 ^ s) by (apply Z.div_pos; lia). assert (0 < K) by (unfold K; apply Z.pow_pos_nonneg; lia).
  assert (E : 1 * 2 ^ 47 + (s * 2 ^ 42 + o) = (32 * K + s * K + o / 2 ^ s) * 2 ^ s + o mod 2 ^ s)
    by (transitivity (H + o); [unfold H; lia|rewrite HH; lia]).
  rewrite E. assert (Hst : stride bsize = 2 ^ s) by (unfold stride; by rewrite Hlog).
  pose proof (decode_triple bsize ltac:(lia) h (32 * K + s * K + o / 2 ^ s) (o mod 2 ^ s)) as Hdec.
  rewrite Hst in Hdec. destruct Hdec as (_ & Er & Eb & Ep); [lia|nia|lia|rewrite <- E; lia|].
  split.
  - unfold valid. rewrite Er, Ep. rewrite <- E. lia.
  - unfold pos, cyc_pos. rewrite Er, Eb, Ep. ring.
Qed.

(** Cyclic addition between addresses of an allocation. *)
Lemma cyc_add o h o' h' n : o ∈u 42 -> o' ∈u 42 -> o mod 2 ^ s < bsize -> o' mod 2 ^ s < bsize ->
  0 <= h < ranks -> 0 <= h' < ranks -> 0 <= n ->
  cyc_pos o' h' = cyc_pos o h + n -> add ranks (cyc o h) n bsize = Some (cyc o' h').
Proof.
  intros Ho Ho' Hm Hm' Hh Hh' Hn E. pose proof bsize_bounds as Hp.
  destruct (cyc_gpa o h Ho Hm Hh) as [V P]. destruct (cyc_gpa o' h' Ho' Hm' Hh') as [V' P'].
  destruct (gva_fields o s 1 h) as (_ & _ & F1 & F2 & _); [done|lia..|].
  destruct (gva_fields o' s 1 h') as (_ & G0 & _ & _ & G3); [done|lia..|].
  unfold add. rewrite F1, ceil_log2_eq, Hlog, Z.eqb_refl, F2 by lia. simpl. f_equal.
  unfold addCyclic. rewrite F1. assert (Eg : gpa_add_cyclic ranks (cyc o h) n bsize = cyc o' h').
  { unfold gpa_add_cyclic, nz. destruct (Z.eqb_spec bsize 0); [lia|]. simpl.
    assert (Hbs : 0 < bsize < 2 ^ 32) by lia.
    pose proof (block_pos_bound ranks Hranks bsize Hbs _ V') as B.
    destruct (parts_range bsize Hbs (cyc o h) (proj1 V)) as (_ & _ & _ & ?).
    destruct (add_cyclic_spec ranks Hranks bsize Hbs (cyc o h) n V) as [V2 P2]; [lia|lia|].
    apply (pos_inj ranks bsize Hbs); [done..|]. lia. }
  by rewrite Eg, G0, G3.
Qed.

(** The key of an address is that of its block. *)
Lemma cyc_key o h ph : (o + ph) ∈u 42 -> (2 ^ s | o) -> 0 <= ph < 2 ^ s -> 0 <= o -> 0 <= h < ranks ->
  toKey (cyc (o + ph) h) = cyc o h /\ toBlockOffset (cyc (o + ph) h) = ph.
Proof.
  intros Hr [k Hk] Hph Ho Hh. destruct (gva_fields (o + ph) s 1 h) as (Ha & _ & F & _ & _); [done|lia..|].
  rewrite key_eq, block_offset_eq by done. rewrite F, !gva_eq by lia.
  set (K := 2 ^ (42 - s)). assert (HK : 2 ^ 42 = K * 2 ^ s) by (unfold K; rewrite <- Z.pow_add_r by lia; f_equal; lia).
  assert (E : h * 2 ^ 48 + (1 * 2 ^ 47 + (s * 2 ^ 42 + (o + ph))) = ph + (h * 64 * K + 32 * K + s * K + k) * 2 ^ s).
  { replace (2 ^ 48) with (64 * 2 ^ 42) by lia. replace (2 ^ 47) with (32 * 2 ^ 42) by lia. rewrite HK, Hk. ring. }
  rewrite E, Z.div_add, Z.mod_add, Z.div_small, Z.mod_small by lia. split; [|done].
  replace (2 ^ 48) with (64 * 2 ^ 42) by lia. replace (2 ^ 47) with (32 * 2 ^ 42) by lia. rewrite HK, Hk. ring.
Qed.
End Size.

(** ** Segments *)

Section Segment.
Variable s : Z.
Hypothesis Hs : 0 <= s < 32.

Abbreviation cyc o h := (GlobalVirtualAddress o s 1 h).

Lemma block_key o h : o ∈u 42 -> (2 ^ s | o) -> 0 <= h < ranks -> toKey (cyc o h) = cyc o h.
Proof.
  intros Ho Hd Hh. pose proof (cyc_key s Hs o h 0) as H. rewrite Z.add_0_r in H. apply H; (done || lia).
Qed.

(** One turn round the ranks leads to the next block of the rank. *)
Lemma next_block o h : o ∈u 42 -> o + 2 ^ s < 2 ^ 42 -> (2 ^ s | o) -> 0 <= h < ranks ->
  add ranks (cyc o h) (ranks * 2 ^ s) (2 ^ s) = Some (cyc (o + 2 ^ s) h).
Proof.
  intros Ho Ho' Hd Hh. assert (Hp : 0 < 2 ^ s) by lia. assert (Hm : o mod 2 ^ s = 0) by (by apply Z.mod_divide; [lia|]).
  assert (Hm' : (o + 2 ^ s) mod 2 ^ s = 0).
  { replace (o + 2 ^ s) with (o + 1 * 2 ^ s) by lia. by rewrite Z.mod_add by lia. }
  apply (cyc_add s (2 ^ s)); try lia; [apply Z.log2_up_pow2; lia|].
  unfold cyc_pos. rewrite Hm, Hm'. replace (o + 2 ^ s) with (o + 1 * 2 ^ s) by lia. rewrite Z.div_add by lia. ring.
Qed.

Lemma insert_loop_maps m : forall t o h l blocks a, t.(rank_) = h -> 0 <= h < ranks -> 0 <= o -> (2 ^ s | o) ->
  o + Z.of_nat m * 2 ^ s < 2 ^ 42 ->
  (forall i, 0 <= i < Z.of_nat m -> find t (cyc (o + i * 2 ^ s) h) = None) ->
  exists t', insert_loop m t (cyc o h) l blocks (2 ^ s) a = Some t' /\ t'.(rank_) = h
    /\ (forall i, 0 <= i < Z.of_nat m -> find t' (cyc (o + i * 2 ^ s) h) = Some (Entry_new h (l + i * 2 ^ s) blocks a))
    /\ (forall g, (forall i, 0 <= i < Z.of_nat m -> toKey g <> toKey (cyc (o + i * 2 ^ s) h)) -> find t' g = find t g).
Proof.
  assert (Hp : 0 < 2 ^ s) by lia.
  induction m as [|m IH]; intros t o h l blocks a Ht Hh Ho Hd Hr Hf.
  - exists t. simpl. repeat split; try done. lia.
  - cbn [insert_loop]. unfold insert. assert (Hf0 : find t (cyc o h) = None).
    { specialize (Hf 0). rewrite Z.mul_0_l, Z.add_0_r in Hf. apply Hf. lia. }
    rewrite Hf0. cbn [mbind option_bind]. rewrite next_block by (done || nia). cbn [mbind option_bind].
    assert (Hk : forall i, 0 <= i < Z.of_nat (S m) -> toKey (cyc (o + i * 2 ^ s) h) = cyc (o + i * 2 ^ s) h).
    { intros i Hi. apply block_key; [nia| |done]. apply Z.divide_add_r; [done|apply Z.divide_factor_r]. }
    assert (Hinj : forall i, 0 < i < Z.of_nat (S m) -> toKey (cyc o h) <> toKey (cyc (o + i * 2 ^ s) h)).
    { intros i Hi. pose proof (Hk 0 ltac:(lia)) as H0. rewrite Z.mul_0_l, Z.add_0_r in H0. rewrite H0, Hk by lia.
      rewrite !gva_eq by nia. nia. }
    destruct (IH (store t (cyc o h) (Entry_new (rank_ t) l blocks a)) (o + 2 ^ s) h (l + 2 ^ s) blocks a)
      as (t' & E & Hrk & Hin & Hout); try done; try nia.
    + apply Z.divide_add_r; [done|apply Z.divide_refl].
    + intros i Hi. rewrite find_store. replace (o + 2 ^ s + i * 2 ^ s) with (o + (i + 1) * 2 ^ s) by ring.
      rewrite decide_False by (apply Hinj; lia). apply Hf. lia.
    + exists t'. split; [done|]. split; [done|]. split.
      * intros i Hi. destruct (Z.eq_dec i 0) as [->|Hne].
        -- rewrite Z.mul_0_l, !Z.add_0_r. rewrite Hout.
           ++ rewrite find_store, decide_True by done. by rewrite Ht.
           ++ intros j Hj. replace (o + 2 ^ s + j * 2 ^ s) with (o + (j + 1) * 2 ^ s) by ring. apply Hinj. lia.
        -- specialize (Hin (i - 1)). replace (o + 2 ^ s + (i - 1) * 2 ^ s) with (o + i * 2 ^ s) in Hin by ring.
           replace (l + 2 ^ s + (i - 1) * 2 ^ s) with (l + i * 2 ^ s) in Hin by ring. apply Hin. lia.
      * intros g Hg. rewrite Hout.
        -- rewrite find_store, decide_False; [done|]. intros E0. apply (Hg 0); [lia|]. by rewrite Z.mul_0_l, Z.add_0_r.
        -- intros i Hi. replace (o + 2 ^ s + i * 2 ^ s) with (o + (i + 1) * 2 ^ s) by ring. apply Hg. lia.
Qed.
End Segment.
(** ** The allocation *)

Lemma allocateCyclic_eq offsetOf n bsize l : 0 < bsize <= 2 ^ 31 -> offsetOf l ∈u 42 ->
  let s := Z.log2_up bsize in
  allocateCyclic offsetOf n bsize l = (GlobalVirtualAddress (offsetOf l) s 1 0, ceil_div n ranks, 2 ^ s) /\ 0 <= s < 32.
Proof.
  intros Hb Ho s. assert (Hs : 0 <= s < 32) by (pose proof (log2_up_bound 31 bsize ltac:(lia) Hb); lia).
  assert (Hp : 0 < 2 ^ s < 2 ^ 32) by (split; [lia|apply Z.pow_lt_mono_r; lia]). split; [|done].
  unfold allocateCyclic, lvaToGVA. rewrite (ceil_log2_eq 64 bsize) by lia. fold s. rewrite Z.shiftl_1_l, (wrap_small 64 (2 ^ s)) by lia.
  rewrite ceil_log2_eq, Z.log2_up_pow2 by lia.
  destruct (gva_fields (offsetOf l) s 0 0) as (_ & -> & -> & _ & ->); [done|lia..|]. done.
Qed.

(** A byte of a segment whose blocks were inserted can be pinned. *)
Lemma segment_pins s t o q ph h l seg blocks a : 0 <= s < 32 -> 0 <= o -> (2 ^ s | o) -> 0 <= q < blocks -> 0 <= ph < 2 ^ s ->
  o + blocks * 2 ^ s < 2 ^ 42 -> 0 <= h < ranks -> t.(rank_) = h ->
  (forall j, 0 <= j < blocks -> find t (GlobalVirtualAddress (o + j * 2 ^ s) s 1 h) = None) ->
  exists t' t2, insertCyclicSegment t (GlobalVirtualAddress o s 1 0) blocks (2 ^ s) a l seg = Some t'
    /\ tryPin t' (GlobalVirtualAddress (o + q * 2 ^ s + ph) s 1 h)
       = Some (t2, Pinned ((if h =? 0 then l else seg) + q * 2 ^ s + ph))
    /\ forall g, (forall j, 0 <= j < blocks -> toKey g <> toKey (GlobalVirtualAddress (o + j * 2 ^ s) s 1 h)) -> find t' g = find t g.
Proof.
  intros Hs Ho Hd Hq Hph Hr Hh Ht Hf. assert (Hp : 0 < 2 ^ s) by lia.
  assert (Hm : o mod 2 ^ s = 0) by (by apply Z.mod_divide; [lia|]).
  unfold insertCyclicSegment. rewrite Ht.
  rewrite (cyc_add s (2 ^ s) Hs Hp (Z.log2_up_pow2 s (proj1 Hs)) o 0 o h) by (try nia; unfold cyc_pos; rewrite ?Hm; nia).
  cbn [mbind option_bind]. set (base := if h =? 0 then l else seg).
  destruct (insert_loop_maps s Hs (Z.to_nat blocks) t o h base blocks a) as (t' & E & Hrk & Hin & Hout);
    [done..|rewrite Z2Nat.id by lia; done|intros i Hi; apply Hf; lia|].
  rewrite E. exists t'. assert (Hdq : (2 ^ s | o + q * 2 ^ s)) by (apply Z.divide_add_r; [done|apply Z.divide_factor_r]).
  destruct (cyc_key s Hs (o + q * 2 ^ s) h ph) as [K1 K2]; [nia|done|done|nia|done|].
  assert (Hfind : find t' (GlobalVirtualAddress (o + q * 2 ^ s + ph) s 1 h) = Some (Entry_new h (base + q * 2 ^ s) blocks a)).
  { rewrite <- (Hin q) by lia. apply find_proper; [done|]. unfold same_block. rewrite K1.
    by rewrite (block_key s Hs) by (done || nia). }
  eexists. split; [done|]. unfold tryPin. rewrite Hfind. cbn [owner count lva Entry_new]. rewrite Hrk, Z.eqb_refl, K2. split; [done|].
  intros g Hg. apply Hout. intros j Hj. apply Hg. lia.
Qed.

(** C28: a cyclic allocation is addressable.  After the segments of an allocation of [n]
    blocks of [bsize] bytes were inserted, the address of every byte of it, as address
    arithmetic from the base computes it, has its home at the rank that the block is
    dealt to, and pins there at the byte's place in that rank's segment; the rank may have
    anything else mapped, which stays, but none of the blocks that it gets. *)
Theorem cyclic_addressable offsetOf n bsize l gva blocks padded i : 0 < bsize <= 2 ^ 31 -> 0 < n ->
  allocateCyclic offsetOf n bsize l = (gva, blocks, padded) ->
  0 <= offsetOf l -> (padded | offsetOf l) -> offsetOf l + blocks * padded < 2 ^ 42 -> 0 <= i < n * bsize ->
  exists g, add ranks gva i bsize = Some g /\ home g = (i / bsize) mod ranks
    /\ forall t seg a, t.(rank_) = home g ->
         let block j := GlobalVirtualAddress (offsetOf l + j * padded) (Z.log2_up bsize) 1 (home g) in
         (forall j, 0 <= j < blocks -> find t (block j) = None) ->
         exists t' t2, insertCyclicSegment t gva blocks padded a l seg = Some t'
           /\ tryPin t' g = Some (t2, Pinned ((if home g =? 0 then l else seg) + i / bsize / ranks * padded + i mod bsize))
           /\ forall k, (forall j, 0 <= j < blocks -> toKey k <> toKey (block j)) -> find t' k = find t k.
Proof.
  intros Hb Hn E Ho Hd Hr Hi. pose proof (ceil_div_spec n ranks ltac:(lia) ltac:(lia)) as Hc.
  assert (Hoff : offsetOf l ∈u 42).
  { unfold allocateCyclic in E. injection E as _ <- <-. assert (0 <= u64 (Z.shiftl 1 (ceil_log2 64 bsize))) by (apply wrap_range; lia).
    split; [done|]. assert (0 <= ceil_div n ranks) by (apply ceil_div_nonneg; lia). nia. }
  destruct (allocateCyclic_eq offsetOf n bsize l Hb Hoff) as [E' Hs]. rewrite E' in E. injection E as <- <- <-. clear E'.
  set (s := Z.log2_up bsize) in *. set (o := offsetOf l) in *. set (blocks := ceil_div n ranks) in *.
  pose proof (bsize_bounds s bsize Hs ltac:(lia) eq_refl) as Hbs.
  set (q := i / bsize / ranks). set (h := (i / bsize) mod ranks). set (ph := i mod bsize).
  pose proof (Z.div_mod i bsize ltac:(lia)) as D1. pose proof (Z.div_mod (i / bsize) ranks ltac:(lia)) as D2.
  pose proof (Z.mod_pos_bound i bsize ltac:(lia)) as Hph. pose proof (Z.mod_pos_bound (i / bsize) ranks ltac:(lia)) as Hh.
  assert (Hib : 0 <= i / bsize < n) by (split; [apply Z.div_pos; lia|apply Z.div_lt_upper_bound; lia]).
  assert (Hq : 0 <= q < blocks).
  { split; [apply Z.div_pos; lia|]. apply Z.div_lt_upper_bound; [lia|]. lia. }
  fold ph in D1, Hph. fold h q in D2, Hh. assert (Hm : o mod 2 ^ s = 0) by (by apply Z.mod_divide; [lia|]).
  assert (Hm' : (o + q * 2 ^ s + ph) mod 2 ^ s = ph /\ (o + q * 2 ^ s + ph) / 2 ^ s = o / 2 ^ s + q).
  { replace (o + q * 2 ^ s + ph) with (o mod 2 ^ s + ph + (o / 2 ^ s + q) * 2 ^ s) by (pose proof (Z.div_mod o (2 ^ s) ltac:(lia)); lia).
    rewrite Hm, Z.mod_add, Z.div_add, Z.mod_small, Z.div_small by lia. lia. }
  assert (Hrange : (o + q * 2 ^ s + ph) ∈u 42) by nia.
  exists (GlobalVirtualAddress (o + q * 2 ^ s + ph) s 1 h).
  destruct (gva_fields (o + q * 2 ^ s + ph) s 1 h) as (_ & _ & _ & _ & Fh); [done|lia..|]. rewrite Fh.
  split; [|split; [done|]].
  - apply (cyc_add s bsize Hs); try done; try lia. unfold cyc_pos. destruct Hm' as [-> ->]. rewrite Hm. nia.
  - intros t seg a Ht block Hf. apply segment_pins; (done || lia).
Qed.

End Alloc.

(** Rank 1 has a block of the same size mapped already. *)
Definition demo_table : btt := upsert (mkBtt 1 ∅) (GlobalVirtualAddress 4096 12 1 1) 1 77 1 HPX_GAS_ATTR_NONE.

Lemma cyclic_addressable_witness : exists g,
  add 3 (GlobalVirtualAddress 65536 12 1 0) 31000 3000 = Some g /\ home g = 1
  /\ exists t' t2, insertCyclicSegment 3 demo_table (GlobalVirtualAddress 65536 12 1 0) 7 4096 0 65536 8192 = Some t'
       /\ tryPin t' g = Some (t2, Pinned (8192 + 3 * 4096 + 1000)).
Proof.
  destruct (cyclic_addressable 3 ltac:(lia) (fun l => l) 20 3000 65536 (GlobalVirtualAddress 65536 12 1 0) 7 4096 31000)
    as (g & H1 & H2 & H3); [lia|lia|vm_compute; reflexivity|lia|exists 16; reflexivity|lia|lia|].
  exists g. split; [exact H1|]. assert (Hh : home g = 1) by (rewrite H2; reflexivity). split; [exact Hh|].
  destruct (H3 demo_table 8192 0) as (t' & t2 & E1 & E2 & _).
  - rewrite Hh. reflexivity.
  - intros j Hj. rewrite Hh. assert (Hc : j = 0 \/ j = 1 \/ j = 2 \/ j = 3 \/ j = 4 \/ j = 5 \/ j = 6) by lia.
    destruct Hc as [-> |[-> |[-> |[-> |[-> |[-> | ->]]]]]]; vm_compute; reflexivity.
  - exists t', t2. split; [exact E1|]. rewrite E2, Hh. reflexivity.
Defined.
