(* ===== verification/Chunks.v ===== *)
(** * The chunks of the active address space

    libhpx/gas/agas/ChunkAllocator.cpp and ChunkTable.cpp: an allocation reserves a run of chunks of
    the offset space in a bitmap, maps memory for it, and records for each chunk of the memory
    its offset; the address of a byte is found from the chunk it is in.  The memory that the
    system maps is a parameter of each allocation. *)

From S2P Require Import Prelude Math Bitmap.

(** The table of an allocator, and its bitmap; the table has the offset of a chunk by the chunk's
    address. *)
Record ChunkAllocator := mkChunkAllocator { bitmap : Bitmap; chunkSize_ : Z; chunks_ : gmap Z Z }.

Implicit Types c : ChunkAllocator.

Definition ChunkAllocator_new (chunkSize heapSize : Z) : ChunkAllocator :=
  mkChunkAllocator (new (ceil_div heapSize chunkSize) (ceil_log2 64 chunkSize) (ceil_log2 64 heapSize)) chunkSize ∅.

(** ** The table *)

Definition offsetOf (m : gmap Z Z) (chunkSize lva : Z) : option Z :=
  let chunkMask := u64 (Z.lnot (chunkSize - 1)) in
  let masked := Z.land lva chunkMask in
  let offset := Z.land lva (u64 (Z.lnot chunkMask)) in
  base ← m !! masked;
  Some (u64 (base + offset)).

(** The assertions of the table: a chunk is inserted once, and removed when it is there. *)
Definition table_insert (m : gmap Z Z) (chunk base : Z) : option (gmap Z Z) :=
  match m !! chunk with None => Some (<[chunk := base]> m) | Some _ => None end.

Definition table_remove (m : gmap Z Z) (chunk : Z) : option (gmap Z Z) :=
  match m !! chunk with Some _ => Some (delete chunk m) | None => None end.

Fixpoint insert_chunks (n : nat) (m : gmap Z Z) (cs chunk offset : Z) : option (gmap Z Z) :=
  match n with
  | O => Some m
  | S n => m ← table_insert m chunk offset; insert_chunks n m cs (chunk + cs) (u64 (offset + cs))
  end.

Fixpoint remove_chunks (n : nat) (m : gmap Z Z) (cs chunk : Z) : option (gmap Z Z) :=
  match n with
  | O => Some m
  | S n => m ← table_remove m chunk; remove_chunks n m cs (chunk + cs)
  end.

(** ** Allocation *)

Definition nbits_of c (n : Z) : Z := u32 (ceil_div n c.(chunkSize_)).

(** The alignment that mmap is asked for: an integer is shifted. *)
Definition mmap_align (log2_align : Z) : Z := u64 (i32 (Z.shiftl 1 log2_align)).

(** [base] is what the system mapped.  An exhausted bitmap ends the program, like a failed assertion. *)
Definition allocate c (n align bsize base : Z) : option (ChunkAllocator * Z) :=
  let nbits := nbits_of c n in
  let log2_align := ceil_log2 64 (Z.max align bsize) in
  '(bm, r) ← reserve c.(bitmap) nbits log2_align;
  match r with
  | LIBHPX_OK bit =>
    let offset := u64 (bit * c.(chunkSize_)) in
    if (base =? 0) || nz (Z.land base (u64 (mmap_align log2_align - 1))) then None
    else
      m ← insert_chunks (Z.to_nat nbits) c.(chunks_) c.(chunkSize_) base offset;
      Some (mkChunkAllocator bm c.(chunkSize_) m, base)
  | _ => None
  end.

(** Up to the unmapping of the memory. *)
Definition deallocate_release c (addr n : Z) : option ChunkAllocator :=
  offset ← offsetOf c.(chunks_) c.(chunkSize_) addr;
  bm ← release c.(bitmap) (u32 (offset / c.(chunkSize_))) (nbits_of c n);
  Some (mkChunkAllocator bm c.(chunkSize_) c.(chunks_)).

(** After it. *)
Definition deallocate_remove c (addr n : Z) : option ChunkAllocator :=
  m ← remove_chunks (Z.to_nat (nbits_of c n)) c.(chunks_) c.(chunkSize_) addr;
  Some (mkChunkAllocator c.(bitmap) c.(chunkSize_) m).

Definition deallocate c (addr n : Z) : option ChunkAllocator :=
  c ← deallocate_release c addr n;
  deallocate_remove c addr n.

(** ** The memory that is mapped *)

(** The size of a chunk is a power of two. *)
Section Chunks.
Variable k : Z.
Hypothesis k_range : 12 <= k <= 31.
Abbreviation cs := (2 ^ k).

(** An allocation in use: its memory, its size and alignment, and the first of its chunks. *)
Record live := mkLive { l_base : Z; l_bytes : Z; l_align : Z; l_bit : Z }.

Definition l_nbits (a : live) : Z := ceil_div a.(l_bytes) cs.

Lemma cs_range : 4096 <= cs <= 2 ^ 31.
Proof. split; [change 4096 with (2 ^ 12)|]; apply Z.pow_le_mono_r; lia. Qed.

Lemma insert_chunks_spec n : forall m chunk off, 0 <= off -> off + Z.of_nat n * cs < 2 ^ 64 -> (forall i, 0 <= i < Z.of_nat n -> m !! (chunk + i * cs) = None) ->
  exists m', insert_chunks n m cs chunk off = Some m'
    /\ forall key v, m' !! key = Some v <-> m !! key = Some v \/ exists i, 0 <= i < Z.of_nat n /\ key = chunk + i * cs /\ v = off + i * cs.
Proof.
  pose proof cs_range as Hcs. induction n as [|n IH]; intros m chunk off Ho Hr Hf.
  - exists m. split; [done|]. intros key v. split; [by left|]. intros [?|(i & ? & _)]; [done|lia].
  - cbn [insert_chunks]. unfold table_insert. pose proof (Hf 0 ltac:(lia)) as H0. rewrite Z.mul_0_l, Z.add_0_r in H0. rewrite H0. cbn [mbind option_bind]. rewrite wrap_small by lia.
    destruct (IH (<[chunk := off]> m) (chunk + cs) (off + cs)) as (m' & E & Hm); [lia|lia| |].
    { intros i Hi. rewrite lookup_insert_ne by nia. replace (chunk + cs + i * cs) with (chunk + (i + 1) * cs) by ring. apply Hf. lia. }
    exists m'. split; [done|]. intros key v. rewrite Hm, lookup_insert_Some. split.
    + intros [[[<- <-]|[Hne H]]|(i & Hi & -> & ->)].
      * right. exists 0. lia.
      * by left.
      * right. exists (i + 1). split; [lia|]. split; ring.
    + intros [H|(i & Hi & -> & ->)].
      * left. right. split; [|done]. intros <-. congruence.
      * destruct (Z.eq_dec i 0) as [->|Hne]; [left; left; lia|]. right. exists (i - 1). split; [lia|]. split; ring.
Qed.

Lemma remove_chunks_spec n : forall m chunk, (forall i, 0 <= i < Z.of_nat n -> is_Some (m !! (chunk + i * cs))) ->
  exists m', remove_chunks n m cs chunk = Some m' /\ forall key v, m' !! key = Some v <-> m !! key = Some v /\ forall i, 0 <= i < Z.of_nat n -> key <> chunk + i * cs.
Proof.
  pose proof cs_range as Hcs. induction n as [|n IH]; intros m chunk Hf.
  - exists m. split; [done|]. intros key v. split; [intros H; split; [done|lia]|tauto].
  - cbn [remove_chunks]. unfold table_remove. destruct (Hf 0 ltac:(lia)) as [x H0]. rewrite Z.mul_0_l, Z.add_0_r in H0. rewrite H0. cbn [mbind option_bind].
    destruct (IH (delete chunk m) (chunk + cs)) as (m' & E & Hm).
    { intros i Hi. rewrite lookup_delete_ne by nia. replace (chunk + cs + i * cs) with (chunk + (i + 1) * cs) by ring. apply Hf. lia. }
    exists m'. split; [done|]. intros key v. rewrite Hm, lookup_delete_Some. split.
    + intros [[Hne H] Hi]. split; [done|]. intros i Hr. destruct (Z.eq_dec i 0) as [->|]; [lia|]. specialize (Hi (i - 1) ltac:(lia)). intros ->. apply Hi. ring.
    + intros [H Hi]. split; [split; [|done]|].
      * specialize (Hi 0 ltac:(lia)). lia.
      * intros i Hr. specialize (Hi (i + 1) ltac:(lia)). intros ->. apply Hi. ring.
Qed.

(** The chunk of an address, and the place in it. *)
Lemma offsetOf_eq m x : 0 <= x < 2 ^ 64 -> offsetOf m cs x = (base ← m !! (x / cs * cs); Some (u64 (base + x mod cs))).
Proof.
  intros Hx. pose proof cs_range as Hcs. unfold offsetOf.
  assert (Hk : forall i, 0 <= i < 64 -> Z.testbit (u64 (Z.lnot (cs - 1))) i = negb (i <? k)).
  { intros i Hi. rewrite testbit_wrap, Z.lnot_spec by lia. replace (cs - 1) with (Z.ones k) by (rewrite Z.ones_equiv; lia). rewrite testbit_ones by lia.
    destruct (Z.ltb_spec i 64); [|lia]. destruct (Z.leb_spec 0 i); [|lia]. done. }
  assert (H1 : Z.land x (u64 (Z.lnot (cs - 1))) = x / cs * cs).
  { rewrite <- Z.shiftl_mul_pow2, <- Z.shiftr_div_pow2 by lia. apply Z.bits_inj'. intros i Hi. rewrite Z.land_spec, Z.shiftl_spec by lia.
    destruct (Z.ltb_spec i k) as [Hlt|Hge].
    - rewrite Hk by lia. destruct (Z.ltb_spec i k); [|lia]. simpl. rewrite andb_false_r, Z.testbit_neg_r by lia. done.
    - rewrite Z.shiftr_spec by lia. replace (i - k + k) with i by lia. destruct (Z.ltb_spec i 64) as [|Hbig]; [|by rewrite (testbit_high 64 x i) by lia].
      rewrite Hk by lia. destruct (Z.ltb_spec i k); [lia|]. simpl. by rewrite andb_true_r. }
  assert (H2 : Z.land x (u64 (Z.lnot (u64 (Z.lnot (cs - 1))))) = x mod cs).
  { rewrite <- land_pred_pow2 by lia. apply Z.bits_inj'. intros i Hi. rewrite !Z.land_spec. destruct (Z.ltb_spec i 64) as [|Hbig]; [|by rewrite (testbit_high 64 x i) by lia].
    f_equal. rewrite testbit_wrap, Z.lnot_spec, Hk by lia. destruct (Z.ltb_spec i 64); [|lia]. simpl. rewrite negb_involutive. replace (cs - 1) with (Z.ones k) by (rewrite Z.ones_equiv; lia).
    rewrite testbit_ones by lia. destruct (Z.leb_spec 0 i); [done|lia]. }
  by rewrite H1, H2.
Qed.

(** ** Allocations in use *)

(** The heap has [2 ^ H] bytes. *)
Variable H : Z.
Hypothesis H_range : k < H /\ 31 <= H <= 61 /\ H - k <= 30.

Record good (bm : Bitmap) (a : live) : Prop := {
  g_bytes : 0 < a.(l_bytes);
  g_base : 0 < a.(l_base) /\ (cs | a.(l_base)) /\ a.(l_base) + l_nbits a * cs <= 2 ^ 64;
  g_bit : 0 <= a.(l_bit) /\ a.(l_bit) + l_nbits a <= nBits_ bm;
  g_used j : a.(l_bit) <= j < a.(l_bit) + l_nbits a -> free bm j = false;
  g_align : (2 ^ a.(l_align) | a.(l_bit) * cs);
}.

Definition apart (a b : live) : Prop :=
  (a.(l_bit) + l_nbits a <= b.(l_bit) \/ b.(l_bit) + l_nbits b <= a.(l_bit))
  /\ (a.(l_base) + a.(l_bytes) <= b.(l_base) \/ b.(l_base) + b.(l_bytes) <= a.(l_base)).

Lemma apart_sym a b : apart a b -> apart b a.
Proof. unfold apart. tauto. Qed.

(** The table has the chunks of [a]. *)
Definition maps (a : live) (key v : Z) : Prop := exists i, 0 <= i < l_nbits a /\ key = a.(l_base) + i * cs /\ v = (a.(l_bit) + i) * cs.

Record inv c (A : list live) : Prop := {
  v_bitmap : wf c.(bitmap) /\ minAlign_ c.(bitmap) = k /\ baseAlign_ c.(bitmap) = H /\ nBits_ c.(bitmap) = 2 ^ (H - k);
  v_size : c.(chunkSize_) = cs;
  v_good a : a ∈ A -> good c.(bitmap) a;
  v_apart a B b : A ≡ₚ a :: B -> b ∈ B -> apart a b;
  v_table key v : c.(chunks_) !! key = Some v <-> exists a, a ∈ A /\ maps a key v;
}.

(** What the system maps for an allocation: memory that is not in use, with the alignment. *)
Definition system_mmap (A : list live) (n l base : Z) : Prop :=
  0 < base /\ (2 ^ l | base) /\ base + ceil_div n cs * cs <= 2 ^ 64
  /\ forall a, a ∈ A -> base + n <= a.(l_base) \/ a.(l_base) + a.(l_bytes) <= base.

(** An allocation that the arithmetic of the search covers: at least a chunk aligned, and at
    most 2^30. *)
Definition request_in c (n align bsize : Z) : Prop :=
  0 < n <= 2 ^ H /\ cs <= Z.max align bsize <= 2 ^ 30 /\ request_ok c.(bitmap) (ceil_div n cs) (ceil_log2 64 (Z.max align bsize)).

Lemma nbits_bound n : 0 < n <= 2 ^ H -> 0 < ceil_div n cs <= 2 ^ (H - k) /\ (ceil_div n cs - 1) * cs < n <= ceil_div n cs * cs.
Proof.
  intros Hn. pose proof cs_range. pose proof (ceil_div_spec n cs ltac:(lia) ltac:(lia)) as Hc. assert (Hh : 2 ^ H = 2 ^ (H - k) * cs) by (rewrite <- Z.pow_add_r by lia; f_equal; lia).
  split; [split; [nia|nia]|lia].
Qed.

Lemma chunk_bytes a i bm : good bm a -> 0 <= i < l_nbits a -> i * cs < a.(l_bytes).
Proof.
  intros G Hi. pose proof cs_range. pose proof (g_bytes _ _ G). pose proof (ceil_div_spec (l_bytes a) cs ltac:(lia) ltac:(lia)) as Hc. unfold l_nbits in Hi. nia.
Qed.

Lemma log2_range n align bsize c : request_in c n align bsize -> k <= ceil_log2 64 (Z.max align bsize) <= 30.
Proof.
  intros (_ & [H1 H2] & _). pose proof cs_range. rewrite ceil_log2_eq by lia. split.
  - pose proof (log2_up_bounds (Z.max align bsize) ltac:(lia)) as [Hu _]. destruct (Z.le_gt_cases k (Z.log2_up (Z.max align bsize))) as [|Hlt]; [done|].
    assert (2 ^ Z.log2_up (Z.max align bsize) < cs) by (apply Z.pow_lt_mono_r; lia). lia.
  - apply (log2_up_bound 30); lia.
Qed.

Lemma mmap_align_eq l : 0 <= l <= 30 -> mmap_align l = 2 ^ l.
Proof.
  intros Hl. unfold mmap_align. rewrite Z.shiftl_1_l. assert (0 < 2 ^ l <= 2 ^ 30) by (split; [lia|apply Z.pow_le_mono_r; lia]). rewrite swrap_small by lia. apply wrap_small. lia.
Qed.

Lemma good_update bm bm' a i n v : updates bm bm' i n v -> good bm a -> (v = true -> forall j, a.(l_bit) <= j < a.(l_bit) + l_nbits a -> ~ i <= j < i + n) -> good bm' a.
Proof.
  intros (U1 & _ & _ & U4) [G1 G2 G3 G4 G5] Hv. split; try done; [by rewrite U1|]. intros j Hj. rewrite U4 by lia. destruct ((i <=? j) && (j <? i + n)) eqn:E; [|by apply G4].
  destruct v; [|done]. apply andb_true_iff in E as [E1 E2]. destruct (Hv eq_refl j Hj). lia.
Qed.

(** The chunks that the system's memory is in are not in the table. *)
Lemma keys_free c A n l base i : inv c A -> system_mmap A n l base -> 0 < n <= 2 ^ H -> 0 <= i < ceil_div n cs -> c.(chunks_) !! (base + i * cs) = None.
Proof.
  intros I (_ & _ & _ & Hap) Hn Hi. destruct (c.(chunks_) !! (base + i * cs)) as [v|] eqn:E; [|done]. exfalso. apply (v_table _ _ I) in E as (a & Ha & j & Hj & Hk & _).
  pose proof (v_good _ _ I a Ha) as G. pose proof (chunk_bytes _ _ _ G Hj) as Hb. pose proof (nbits_bound n Hn) as [_ Hc]. pose proof cs_range. 
  assert (i * cs < n) by (apply Z.le_lt_trans with ((ceil_div n cs - 1) * cs); [apply Z.mul_le_mono_nonneg_r; lia|lia]).
  assert (0 <= i * cs) by (apply Z.mul_nonneg_nonneg; lia). assert (0 <= j * cs) by (apply Z.mul_nonneg_nonneg; lia). destruct (Hap a Ha) as [?|?]; lia.
Qed.

(** Chunks that are free are not in use. *)
Lemma free_apart bm a b : good bm b -> 0 < l_nbits a -> all_free bm a.(l_bit) (l_nbits a) -> a.(l_base) + a.(l_bytes) <= b.(l_base) \/ b.(l_base) + b.(l_bytes) <= a.(l_base) -> apart a b.
Proof.
  intros G Ha Hfree Hmem. split; [|done]. pose proof cs_range as Hcs. pose proof (g_used _ _ G) as Hu. destruct (Z.le_gt_cases (l_bit a + l_nbits a) (l_bit b)); [by left|].
  destruct (Z.le_gt_cases (l_bit b + l_nbits b) (l_bit a)); [by right|]. exfalso.
  assert (Hb : 0 < l_nbits b) by (pose proof (g_bytes _ _ G); pose proof (ceil_div_spec (l_bytes b) cs ltac:(lia) ltac:(lia)); unfold l_nbits; nia).
  assert (Hx : l_bit a <= Z.max (l_bit a) (l_bit b) < l_bit a + l_nbits a /\ l_bit b <= Z.max (l_bit a) (l_bit b) < l_bit b + l_nbits b) by lia. destruct Hx as [Hx1 Hx2].
  specialize (Hfree _ Hx1). rewrite (Hu _ Hx2) in Hfree. done.
Qed.

(** An allocation reserves chunks that are free, when there are any. *)
Lemma inv_allocate c A n align bsize base : inv c A -> request_in c n align bsize -> system_mmap A n (ceil_log2 64 (Z.max align bsize)) base ->
  (exists c' bit, allocate c n align bsize base = Some (c', base) /\ inv c' (mkLive base n (ceil_log2 64 (Z.max align bsize)) bit :: A))
  \/ (allocate c n align bsize base = None /\ forall j, ~ fits c.(bitmap) (ceil_log2 64 (Z.max align bsize)) (ceil_div n cs) j).
Proof.
  intros I R M. pose proof cs_range as Hcs. pose proof (log2_range _ _ _ _ R) as Hl. set (l := ceil_log2 64 (Z.max align bsize)) in *. pose proof R as (Hn & _ & Hok). fold l in Hok.
  destruct (v_bitmap _ _ I) as (Hwf & Hmin & Hbase & Hnb). destruct (nbits_bound n Hn) as [Hnbits Hnc]. assert (Hheap : 2 ^ H = 2 ^ (H - k) * cs) by (rewrite <- Z.pow_add_r by lia; f_equal; lia).
  assert (H61 : 2 ^ H <= 2 ^ 61) by (apply Z.pow_le_mono_r; lia). assert (H30 : 2 ^ (H - k) <= 2 ^ 30) by (apply Z.pow_le_mono_r; lia).
  destruct (reserve_contract _ _ _ Hwf Hok) as (bm & r & Hres & Hwf' & Hr). unfold allocate. fold l. unfold nbits_of. rewrite (v_size _ _ I), (wrap_small 32 (ceil_div n cs)) by lia. rewrite Hres. cbn [mbind option_bind].
  destruct r as [bit| |]; [left|done|right; split; [done|apply Hr]]. destruct Hr as ((Hb1 & Hb2 & Hal & Hfree) & _ & U). pose proof U as (U1 & U2 & U3 & U4). destruct M as (M1 & M2 & M3 & M4).
  rewrite mmap_align_eq by lia. assert (Hp30 : 0 < 2 ^ l <= 2 ^ 30) by (split; [lia|apply Z.pow_le_mono_r; lia]). rewrite (wrap_small 64 (2 ^ l - 1)) by lia. rewrite land_pred_pow2 by lia.
  rewrite (proj2 (Z.mod_divide base (2 ^ l) ltac:(lia)) M2). destruct (Z.eqb_spec base 0); [lia|]. cbn [orb nz negb Z.eqb].
  destruct (insert_chunks_spec (Z.to_nat (ceil_div n cs)) c.(chunks_) base (bit * cs)) as (m & E & Hm); [nia|rewrite Z2Nat.id by lia; nia| |].
  { intros i Hi. rewrite Z2Nat.id in Hi by lia. apply (keys_free c A n l); [done|by split|done|lia]. }
  rewrite (wrap_small 64 (bit * cs)) by nia. rewrite E. cbn [mbind option_bind]. exists (mkChunkAllocator bm cs m), bit. split; [done|].
  assert (Hcs_base : (cs | base)) by (eapply Z.divide_trans; [|exact M2]; exists (2 ^ (l - k)); rewrite <- Z.pow_add_r by lia; f_equal; lia).
  set (a := mkLive base n l bit). assert (Ga : good bm a).
  { split; unfold a, l_nbits; cbn [l_bytes l_base l_bit l_align]; [lia|done|by rewrite U1| |].
    - intros j Hj. rewrite U4 by lia. destruct (Z.leb_spec bit j), (Z.ltb_spec j (bit + ceil_div n cs)); simpl; (done || lia).
    - unfold aligned in Hal. rewrite Hmin, Hbase in Hal. replace (bit * cs) with (bit * 2 ^ k + 2 ^ H - 2 ^ H) by lia. apply Z.divide_sub_r; [done|].
      exists (2 ^ (H - l)). rewrite <- Z.pow_add_r by lia. f_equal. lia. }
  assert (Hnew : forall b, b ∈ A -> apart a b) by (intros b Hb; apply (free_apart c.(bitmap)); [by apply (v_good _ _ I)|exact (proj1 Hnbits)|exact Hfree|by apply M4]).
  split; cbn [bitmap chunkSize_ chunks_].
  - by rewrite U1, U2, U3.
  - done.
  - intros b Hb. apply elem_of_cons in Hb as [->|Hb]; [done|]. eapply good_update; [exact U|by apply (v_good _ _ I)|done].
  - intros x B y Hp Hy. assert (Hx : x ∈ a :: A) by (rewrite Hp; by apply elem_of_cons; left). apply elem_of_cons in Hx as [->|Hx].
    + apply Hnew. apply Permutation_cons_inv in Hp. by rewrite Hp.
    + apply elem_of_Permutation in Hx as [C HC]. assert (HB : B ≡ₚ a :: C) by (apply Permutation_cons_inv with x; rewrite <- Hp, HC; solve_Permutation).
      rewrite HB in Hy. apply elem_of_cons in Hy as [->|Hy]; [|by apply (v_apart _ _ I x C)]. apply apart_sym, Hnew. rewrite HC. by apply elem_of_cons; left.
  - intros key v. rewrite Hm, (v_table _ _ I). rewrite Z2Nat.id by lia. split.
    + intros [(b & Hb & Hk)|(i & Hi & -> & ->)]; [exists b; split; [by apply elem_of_cons; right|done]|]. exists a. split; [by apply elem_of_cons; left|]. exists i. unfold a, l_nbits. cbn [l_base l_bit l_bytes].
      split; [lia|]. split; [done|ring].
    + intros (b & Hb & Hk). apply elem_of_cons in Hb as [->|Hb]; [|left; by exists b]. right. destruct Hk as (i & Hi & -> & ->). unfold a, l_nbits in *. cbn [l_base l_bit l_bytes] in *. exists i. split; [lia|]. split; [done|ring].
Qed.

Lemma maps_key bm a b key v v' : good bm a -> good bm b -> apart a b -> maps a key v -> maps b key v' -> False.
Proof.
  intros Ga Gb [_ Hm] (i & Hi & -> & _) (j & Hj & Hk & _). pose proof (chunk_bytes _ _ _ Ga Hi). pose proof (chunk_bytes _ _ _ Gb Hj). pose proof cs_range.
  assert (0 <= i * cs) by (apply Z.mul_nonneg_nonneg; lia). assert (0 <= j * cs) by (apply Z.mul_nonneg_nonneg; lia). lia.
Qed.

Lemma good_nbits bm a : good bm a -> 0 < l_nbits a.
Proof. intros G. pose proof cs_range. pose proof (g_bytes _ _ G). pose proof (ceil_div_spec (l_bytes a) cs ltac:(lia) ltac:(lia)). unfold l_nbits. nia. Qed.

(** The offset of a byte of an allocation. *)
Lemma offsetOf_live c A a x : inv c A -> a ∈ A -> a.(l_base) <= x < a.(l_base) + a.(l_bytes) ->
  offsetOf c.(chunks_) cs x = Some (a.(l_bit) * cs + (x - a.(l_base))) /\ a.(l_bit) * cs + (x - a.(l_base)) < 2 ^ H.
Proof.
  intros I Ha Hx. pose proof cs_range as Hcs. pose proof (v_good _ _ I a Ha) as G. destruct (g_base _ _ G) as (B1 & B2 & B3). destruct (g_bit _ _ G) as (C1 & C2).
  destruct (v_bitmap _ _ I) as (_ & _ & _ & Hnb). assert (Hheap : 2 ^ H = 2 ^ (H - k) * cs) by (rewrite <- Z.pow_add_r by lia; f_equal; lia).
  assert (H61 : 2 ^ H <= 2 ^ 61) by (apply Z.pow_le_mono_r; lia).
  pose proof (ceil_div_spec (l_bytes a) cs ltac:(pose proof (g_bytes _ _ G); lia) ltac:(lia)) as Hc. fold (l_nbits a) in Hc. destruct B2 as [q Hq].
  set (i := (x - l_base a) / cs). pose proof (Z.div_mod (x - l_base a) cs ltac:(lia)) as Hd. fold i in Hd. pose proof (Z.mod_pos_bound (x - l_base a) cs ltac:(lia)) as Hm.
  assert (Hi : 0 <= i < l_nbits a) by (split; [apply Z.div_pos; lia|apply Z.div_lt_upper_bound; lia]).
  assert (Hdm : x / cs * cs = l_base a + i * cs /\ x mod cs = (x - l_base a) mod cs).
  { clearbody i. remember ((x - l_base a) mod cs) as r eqn:Er. assert (Hxe : x = r + (q + i) * cs) by lia. clear Er. rewrite Hxe, Z.div_add, Z.mod_add, Z.div_small, Z.mod_small by lia. split; [rewrite Hq; ring|done]. }
  destruct Hdm as [Hd1 Hd2]. assert (Hbnd : (l_bit a + i + 1) * cs <= 2 ^ H) by (rewrite Hheap, <- Hnb; apply Z.mul_le_mono_nonneg_r; lia).
  rewrite offsetOf_eq, Hd1, Hd2 by lia. assert (E : c.(chunks_) !! (l_base a + i * cs) = Some ((l_bit a + i) * cs)).
  { apply (v_table _ _ I). exists a. split; [done|]. by exists i. }
  rewrite E. cbn [mbind option_bind]. assert (0 <= (l_bit a + i) * cs) by (apply Z.mul_nonneg_nonneg; lia). rewrite wrap_small by lia. split; [f_equal; lia|lia].
Qed.

(** An allocation in use can be given back; its chunks are free then. *)
Lemma inv_deallocate c A a R : inv c A -> A ≡ₚ a :: R -> exists c', deallocate c a.(l_base) a.(l_bytes) = Some c' /\ inv c' R
  /\ forall j, a.(l_bit) <= j < a.(l_bit) + l_nbits a -> free c'.(bitmap) j = true.
Proof.
  intros I HA. pose proof cs_range as Hcs. assert (Ha : a ∈ A) by (rewrite HA; by apply elem_of_cons; left). pose proof (v_good _ _ I a Ha) as G. pose proof (good_nbits _ _ G) as Hn.
  destruct (g_bit _ _ G) as (C1 & C2). destruct (v_bitmap _ _ I) as (Hwf & V1 & V2 & V3). assert (H30 : 2 ^ (H - k) <= 2 ^ 30) by (apply Z.pow_le_mono_r; lia).
  destruct (offsetOf_live c A a (l_base a) I Ha) as [Ho _]; [pose proof (g_bytes _ _ G); lia|]. rewrite Z.sub_diag, Z.add_0_r in Ho.
  destruct (release_spec_lemma _ (l_bit a) (l_nbits a) Hwf) as (bm & Hrel & Hwf' & U); [lia..|].
  destruct (remove_chunks_spec (Z.to_nat (l_nbits a)) c.(chunks_) (l_base a)) as (m & Hrem & Hm).
  { intros i Hi. rewrite Z2Nat.id in Hi by lia. exists ((l_bit a + i) * cs). apply (v_table _ _ I). exists a. split; [done|]. by exists i. }
  exists (mkChunkAllocator bm cs m). split; [|split].
  - unfold deallocate, deallocate_release, deallocate_remove, nbits_of. rewrite (v_size _ _ I), Ho. cbn [mbind option_bind]. rewrite Z.div_mul by lia. fold (l_nbits a). rewrite !wrap_small by lia.
    rewrite Hrel. cbn [mbind option_bind chunks_ chunkSize_ bitmap]. fold (l_nbits a). rewrite wrap_small by lia. by rewrite Hrem.
  - pose proof U as (U1 & U2 & U3 & U4). assert (Hap : forall b, b ∈ R -> b ∈ A /\ apart a b) by (intros b Hb; split; [rewrite HA; by apply elem_of_cons; right|by apply (v_apart _ _ I a R)]).
    split; cbn [bitmap chunkSize_ chunks_].
    + by rewrite U1, U2, U3.
    + done.
    + intros b Hb. destruct (Hap b Hb) as [HbA [Hbits _]]. eapply good_update; [exact U|by apply (v_good _ _ I)|]. intros _ j Hj. lia.
    + intros x B y Hp Hy. apply (v_apart _ _ I x (a :: B)); [rewrite HA, Hp; solve_Permutation|by apply elem_of_cons; right].
    + intros key v. rewrite Hm, (v_table _ _ I), Z2Nat.id by lia. split.
      * intros [(b & Hb & Hk) Hno]. rewrite HA in Hb. apply elem_of_cons in Hb as [->|Hb]; [|by exists b]. destruct Hk as (i & Hi & -> & _). by destruct (Hno i Hi).
      * intros (b & Hb & Hk). destruct (Hap b Hb) as [HbA Hapart]. split; [by exists b|]. intros i Hi ->. eapply (maps_key c.(bitmap) a b); [done|by apply (v_good _ _ I)|done| |exact Hk]. by exists i.
  - intros j Hj. destruct U as (_ & _ & _ & U4). cbn [bitmap]. rewrite U4 by lia. destruct (Z.leb_spec (l_bit a) j), (Z.ltb_spec j (l_bit a + l_nbits a)); simpl; (done || lia).
Qed.

Lemma inv_new : inv (ChunkAllocator_new cs (2 ^ H)) [].
Proof.
  pose proof cs_range as Hcs. assert (Hp : 2 ^ (H - k) <= 2 ^ 30) by (apply Z.pow_le_mono_r; lia). assert (H64 : 2 ^ H < 2 ^ 64) by (apply Z.pow_lt_mono_r; lia).
  assert (Hheap : 2 ^ H = 2 ^ (H - k) * cs) by (rewrite <- Z.pow_add_r by lia; f_equal; lia).
  assert (Hc : ceil_div (2 ^ H) cs = 2 ^ (H - k)) by (pose proof (ceil_div_spec (2 ^ H) cs ltac:(lia) ltac:(lia)); nia).
  unfold ChunkAllocator_new. rewrite Hc, !ceil_log2_eq, !Z.log2_up_pow2 by lia. destruct (new_wf_lemma (2 ^ (H - k)) k H) as [Hwf _]; [lia..|].
  split; cbn [bitmap chunkSize_ chunks_]; try done.
  - intros a Ha. by apply elem_of_nil in Ha.
  - intros a B b Hp'. by apply Permutation_nil_cons in Hp'.
  - intros key v. rewrite lookup_empty. split; [done|]. intros (a & Ha & _). by apply elem_of_nil in Ha.
Qed.

(** An allocator and its allocations in use. *)
Inductive reach : ChunkAllocator -> list live -> Prop :=
| reach_new : reach (ChunkAllocator_new cs (2 ^ H)) []
| reach_allocate c A n align bsize base c' bit : reach c A -> request_in c n align bsize -> system_mmap A n (ceil_log2 64 (Z.max align bsize)) base ->
    allocate c n align bsize base = Some (c', base) -> offsetOf c'.(chunks_) cs base = Some (bit * cs) ->
    reach c' (mkLive base n (ceil_log2 64 (Z.max align bsize)) bit :: A)
| reach_deallocate c A a R c' : reach c A -> A ≡ₚ a :: R -> deallocate c a.(l_base) a.(l_bytes) = Some c' -> reach c' R.

Lemma reach_inv c A : reach c A -> inv c A.
Proof.
  induction 1 as [|c A n align bsize base c' bit _ I R M E Ho|c A a R c' _ I HA E]; [apply inv_new| |].
  - destruct (inv_allocate _ _ _ _ _ _ I R M) as [(c1 & bit' & E' & I')|[E' _]]; [|congruence]. rewrite E in E'. injection E' as <-.
    set (a := mkLive base n (ceil_log2 64 (Z.max align bsize)) bit') in I'. destruct (offsetOf_live c' _ a base I') as [Ho' _]; [by apply elem_of_cons; left|unfold a; cbn [l_base l_bytes]; destruct R; lia|].
    rewrite Ho in Ho'. injection Ho' as Hb. pose proof cs_range. assert (bit = bit') as -> by (apply (Z.mul_reg_r bit bit' cs); unfold a in Hb; cbn [l_bit l_base] in Hb; lia). exact I'.
  - destruct (inv_deallocate _ _ _ _ I HA) as (c1 & E' & I' & _). rewrite E in E'. by injection E' as <-.
Qed.


(** Between the unmapping of an allocation's memory and the removal of its chunks from the table the
    system may map that memory again: the allocation that gets it fails. *)
Lemma reuse_before_remove c A a R c1 n align bsize : inv c A -> A ≡ₚ a :: R -> deallocate_release c a.(l_base) a.(l_bytes) = Some c1 -> 0 < nbits_of c1 n ->
  allocate c1 n align bsize a.(l_base) = None.
Proof.
  intros I HA E Hn. assert (Ha : a ∈ A) by (rewrite HA; by apply elem_of_cons; left). unfold deallocate_release in E. destruct (offsetOf _ _ _) as [o|]; [|done]. cbn [mbind option_bind] in E.
  destruct (release _ _ _) as [bm|]; [|done]. cbn [mbind option_bind] in E. injection E as <-. unfold allocate. cbn [bitmap chunkSize_ chunks_]. destruct (reserve _ _ _) as [[bm' r]|]; [|done]. cbn [mbind option_bind].
  destruct r as [bit| |]; [|done..]. destruct (_ || _); [done|]. set (nb := nbits_of _ n) in *. destruct (Z.to_nat nb) as [|m] eqn:Em; [lia|]. cbn [insert_chunks]. unfold table_insert.
  assert (Ek : c.(chunks_) !! l_base a = Some (l_bit a * cs)).
  { apply (v_table _ _ I). exists a. split; [done|]. exists 0. pose proof (good_nbits _ _ (v_good _ _ I a Ha)). rewrite Z.mul_0_l, !Z.add_0_r. done. }
  by rewrite Ek.
Qed.
End Chunks.

(** ** A concrete allocator *)

