(* ===== verification/Mmap.v ===== *)
(** * Aligned memory from the operating system

    libhpx/system/linux/mmap.cpp: memory is mapped with an alignment that the system does not
    know.  A first mapping may happen to be aligned; else a larger one is made and what is before
    and after the aligned part is given back.  The addresses that the system chooses are
    arguments.  The chunk allocators get their memory here. *)

From S2P Require Import Prelude Math Bitmap Chunks.

(** ** The system's calls *)

(** The bytes that are mapped. *)
Definition mapping : Type := Z -> bool.

Definition within (b n x : Z) : bool := (b <=? x) && (x <? b + n).

(** Lengths are rounded up to pages of [page] bytes. *)
Definition round_page (page n : Z) : Z := (n + page - 1) / page * page.

Definition map_at (page : Z) (m : mapping) (b n : Z) : mapping := fun x => m x || within b (round_page page n) x.

(** [munmap] fails for an address that is not that of a page, and for no bytes. *)
Definition munmap (page : Z) (m : mapping) (b n : Z) : option mapping :=
  if (b mod page =? 0) && (0 <? n) then Some (fun x => m x && negb (within b (round_page page n) x)) else None.

(** What [mmap] may return: pages that are not mapped. *)
Definition answers (page : Z) (m : mapping) (n b : Z) : Prop :=
  0 < b /\ b mod page = 0 /\ b + round_page page n <= 2 ^ 47 /\ forall x, within b (round_page page n) x = true -> m x = false.

(** ** Mapping with an alignment *)

(** [b] is the result of [mmap], if it did not fail. *)
Definition _mmap_aligned (page : Z) (m : mapping) (b : option Z) (n align : Z) : option (mapping * Z) :=
  buffer ← b;
  let m := map_at page m buffer (u64 (n + align)) in
  let mask := u64 (align - 1) in
  let suffix := Z.land buffer mask in
  let prefix := u64 (align - suffix) in
  m ← (if nz prefix then munmap page m buffer prefix else Some m);
  m ← (if nz suffix then munmap page m (u64 (buffer + prefix + n)) suffix else Some m);
  Some (m, u64 (buffer + prefix)).

Definition _mmap_lucky (page : Z) (m : mapping) (b1 b2 : option Z) (n align : Z) : option (mapping * Z) :=
  buffer ← b1;
  let m := map_at page m buffer n in
  let modulo := Z.land buffer (u64 (align - 1)) in
  if nz modulo then m ← munmap page m buffer n; _mmap_aligned page m b2 n align
  else Some (m, buffer).

Definition system_mmap (page : Z) (m : mapping) (b1 b2 : option Z) (n align : Z) : option (mapping * Z) := _mmap_lucky page m b1 b2 n align.

Definition system_munmap (page : Z) (m : mapping) (b n : Z) : option mapping := munmap page m b n.

(** *** Huge pages *)

(** The request for pages of [huge] bytes. *)
Definition huge_align (huge align : Z) : Z := if nz (Z.land align (huge - 1)) then huge else align.

Definition huge_size (huge n : Z) : Z :=
  if nz (Z.land n (huge - 1)) then u64 (n + (huge - Z.land n (huge - 1))) else n.

(** The pages are those of the huge page file, or of the system when it could not be opened. *)
Definition system_mmap_huge_pages (page huge : Z) (m : mapping) (b1 b2 : option Z) (n align : Z) : option (mapping * Z) :=
  let align := huge_align huge align in
  let n := huge_size huge n in
  if page =? huge then _mmap_lucky page m b1 b2 n align else system_mmap page m b1 b2 n align.

Definition system_munmap_huge_pages (page huge : Z) (m : mapping) (b n : Z) : option mapping := system_munmap page m b (huge_size huge n).

(** ** What is mapped *)

Section Pages.
Variable p : Z.
Hypothesis p_range : 0 <= p <= 40.
Abbreviation page := (2 ^ p).

Lemma page_range : 0 < page <= 2 ^ 40.
Proof. split; [lia|apply Z.pow_le_mono_r; lia]. Qed.

Lemma round_multiple n : (page | n) -> round_page page n = n.
Proof.
  intros [q ->]. pose proof page_range. unfold round_page. replace (q * page + page - 1) with (page - 1 + q * page) by lia.
  rewrite Z.div_add by lia. rewrite (Z.div_small (page - 1)) by lia. lia.
Qed.

Lemma munmap_multiple m b n : (page | b) -> (page | n) -> 0 < n -> munmap page m b n = Some (fun x => m x && negb (within b n x)).
Proof.
  intros Hb Hn Hpos. unfold munmap. apply Z.mod_divide in Hb; [|pose proof page_range; lia]. rewrite Hb, round_multiple by done.
  by destruct (Z.ltb_spec 0 n); [|lia].
Qed.

(** What is left when the bytes before and after a part are given back. *)
Lemma trim (y : bool) b n k s x : 0 <= k -> 0 <= s -> 0 < n -> (within b (n + k + s) x = true -> y = false) ->
  (y || within b (n + k + s) x) && negb (within b k x) && negb (within (b + k + n) s x) = y || within (b + k) n x.
Proof. unfold within. intros Hk Hs Hn Hy. destruct y; zcases; simpl in *; try done; try lia; by discriminate Hy. Qed.

(** The aligned part of a larger mapping. *)
Lemma mmap_aligned_spec m b n a : p <= a <= 46 -> 0 < n <= 2 ^ 46 -> (page | n) -> answers page m (n + 2 ^ a) b ->
  exists m' b', _mmap_aligned page m (Some b) n (2 ^ a) = Some (m', b') /\ (2 ^ a | b') /\ b <= b' /\ b' + n <= b + (n + 2 ^ a) /\ forall x, m' x = m x || within b' n x.
Proof.
  intros Ha Hn Hpn (Hb & Hbp & Hlim & Hfree). pose proof page_range as Hp.
  assert (Hpa : (page | 2 ^ a)) by (exists (2 ^ (a - p)); rewrite <- Z.pow_add_r by lia; f_equal; lia). assert (Ha46 : 0 < 2 ^ a <= 2 ^ 46) by (split; [lia|apply Z.pow_le_mono_r; lia]).
  assert (Hpb : (page | b)) by (by apply Z.mod_divide; [lia|]). assert (Hr : round_page page (n + 2 ^ a) = n + 2 ^ a) by (apply round_multiple, Z.divide_add_r; done). rewrite Hr in *.
  unfold _mmap_aligned. cbn [mbind option_bind]. rewrite (wrap_small 64 (n + 2 ^ a)), (wrap_small 64 (2 ^ a - 1)), land_pred_pow2 by lia.
  pose proof (Z.mod_pos_bound b (2 ^ a) ltac:(lia)) as Hs. set (suffix := b mod 2 ^ a) in *. rewrite (wrap_small 64 (2 ^ a - suffix)) by lia.
  assert (Hal : (2 ^ a | b + (2 ^ a - suffix))).
  { exists (b / 2 ^ a + 1). pose proof (Z.div_mod b (2 ^ a) ltac:(lia)). unfold suffix. lia. }
  assert (Hps : (page | suffix)).
  { replace suffix with (b + 2 ^ a - (b + (2 ^ a - suffix))) by lia. apply Z.divide_sub_r; [by apply Z.divide_add_r|by apply Z.divide_trans with (2 ^ a)]. }
  assert (Hpp : (page | 2 ^ a - suffix)) by (by apply Z.divide_sub_r). rewrite (wrap_small 64 (b + (2 ^ a - suffix) + n)), (wrap_small 64 (b + (2 ^ a - suffix))) by lia.
  assert (Hnz : nz (2 ^ a - suffix) = true) by (unfold nz; zcases; lia || done). rewrite Hnz. rewrite munmap_multiple by (done || lia). cbn [mbind option_bind].
  assert (Ht : n + 2 ^ a = n + (2 ^ a - suffix) + suffix) by lia.
  unfold nz. destruct (Z.eqb_spec suffix 0) as [E|E]; cbn [negb mbind option_bind].
  - eexists _, _. split; [done|]. split; [done|]. split; [lia|]. split; [lia|]. intros x. unfold map_at. rewrite Hr, Ht, <- (trim (m x) b n (2 ^ a - suffix) suffix x) by (lia || (rewrite <- Ht; apply Hfree)).
    assert (Hw : within (b + (2 ^ a - suffix) + n) suffix x = false) by (unfold within; zcases; simpl; done || lia). by rewrite Hw, andb_true_r.
  - rewrite munmap_multiple; [|apply Z.divide_add_r; [apply Z.divide_add_r|]; done|done|lia]. cbn [mbind option_bind]. eexists _, _. split; [done|]. split; [done|]. split; [lia|]. split; [lia|].
    intros x. unfold map_at. rewrite Hr, Ht. apply trim; [lia..|]. rewrite <- Ht. apply Hfree.
Qed.

(** A mapping of [n] bytes with the alignment [2 ^ a]. *)
Definition mapped (m : mapping) (n a : Z) (r : option (mapping * Z)) : Prop :=
  exists m' b, r = Some (m', b) /\ (2 ^ a | b) /\ 0 < b /\ b mod page = 0 /\ b + n <= 2 ^ 47 /\ (forall x, within b n x = true -> m x = false) /\ forall x, m' x = m x || within b n x.

Lemma answers_ext m m' n b : (forall x, m x = m' x) -> answers page m n b -> answers page m' n b.
Proof. intros E (H1 & H2 & H3 & H4). split; [done|]. split; [done|]. split; [done|]. intros x Hx. rewrite <- E. by apply H4. Qed.

Lemma mmap_lucky_spec m b1 b2 n a : 0 <= a <= 46 -> 0 < n <= 2 ^ 46 -> (page | n) -> answers page m n b1 -> answers page m (n + 2 ^ a) b2 ->
  mapped m n a (_mmap_lucky page m (Some b1) (Some b2) n (2 ^ a)).
Proof.
  intros Ha Hn Hpn A1 A2. pose proof page_range as Hp. pose proof A1 as (B1 & B2 & B3 & B4). assert (0 < 2 ^ a <= 2 ^ 46) by (split; [lia|apply Z.pow_le_mono_r; lia]).
  rewrite round_multiple in B3, B4 by done. unfold _mmap_lucky. cbn [mbind option_bind]. rewrite (wrap_small 64 (2 ^ a - 1)), land_pred_pow2 by lia. unfold nz. destruct (Z.eqb_spec (b1 mod 2 ^ a) 0) as [E|E]; cbn [negb].
  - exists (map_at page m b1 n), b1. split; [done|]. split; [by apply Z.mod_divide; [lia|]|]. split; [done|]. split; [done|]. split; [done|]. split; [done|]. intros x. unfold map_at. by rewrite round_multiple.
  - assert (Hpa : p <= a).
    { destruct (Z.le_gt_cases p a) as [|Hlt]; [done|]. destruct E. apply Z.mod_divide; [lia|]. apply Z.divide_trans with page; [|by apply Z.mod_divide; [lia|]].
      exists (2 ^ (p - a)). rewrite <- Z.pow_add_r by lia. f_equal. lia. }
    assert (Hb1 : (page | b1)) by (by apply Z.mod_divide; [lia|]). rewrite munmap_multiple by (done || lia). cbn [mbind option_bind]. set (m1 := fun x => _).
    assert (Hm1 : forall x, m1 x = m x).
    { intros x. specialize (B4 x). unfold m1, map_at. rewrite round_multiple by done. destruct (within b1 n x); [rewrite B4 by done; done|]. by rewrite orb_false_r, andb_true_r. }
    assert (A2' : answers page m1 (n + 2 ^ a) b2) by (by apply answers_ext with m). destruct (mmap_aligned_spec m1 b2 n a ltac:(lia) Hn Hpn A2') as (m' & b & -> & H1 & H2 & H3 & H4).
    assert (Hpa' : (page | 2 ^ a)) by (exists (2 ^ (a - p)); rewrite <- Z.pow_add_r by lia; f_equal; lia). destruct A2 as (C1 & C2 & C3 & C4). rewrite round_multiple in C3, C4 by (by apply Z.divide_add_r).
    exists m', b. split; [done|]. split; [done|]. split; [lia|]. split; [apply Z.mod_divide; [lia|by apply Z.divide_trans with (2 ^ a)]|]. split; [lia|]. split.
    + intros x Hx. apply C4. unfold within in *. zbool. apply andb_true_iff. split; zcases; lia.
    + intros x. by rewrite H4, Hm1.
Qed.

(** Giving a mapping back. *)
Lemma munmap_mapped m n a r : 0 < n -> (page | n) -> mapped m n a r -> exists m' b m'', r = Some (m', b) /\ munmap page m' b n = Some m'' /\ forall x, m'' x = m x.
Proof.
  intros Hn Hpn (m' & b & -> & _ & _ & Hb & _ & Hfree & Hm). pose proof page_range. assert (Hpb : (page | b)) by (by apply Z.mod_divide; [lia|]).
  eexists m', b, _. split; [done|]. split; [by apply munmap_multiple|]. intros x. simpl. rewrite Hm. specialize (Hfree x). destruct (within b n x); [rewrite Hfree by done; done|]. by rewrite orb_false_r, andb_true_r.
Qed.

(** The requests for huge pages. *)
Lemma huge_align_eq h a : 0 <= h <= 40 -> 0 <= a <= 46 -> huge_align (2 ^ h) (2 ^ a) = 2 ^ Z.max a h.
Proof.
  intros Hh Ha. unfold huge_align, nz. rewrite land_pred_pow2 by lia. destruct (Z.le_gt_cases h a) as [Hle|Hlt].
  - rewrite (proj2 (Z.mod_divide (2 ^ a) (2 ^ h) ltac:(lia))); [by rewrite Z.max_l by lia|]. exists (2 ^ (a - h)). rewrite <- Z.pow_add_r by lia. f_equal. lia.
  - assert (2 ^ a < 2 ^ h) by (apply Z.pow_lt_mono_r; lia). rewrite Z.mod_small by lia. destruct (Z.eqb_spec (2 ^ a) 0); [lia|]. simpl. by rewrite Z.max_r by lia.
Qed.

Lemma huge_size_spec h n : 0 <= h <= 40 -> 0 < n <= 2 ^ 45 -> (2 ^ h | huge_size (2 ^ h) n) /\ n <= huge_size (2 ^ h) n < n + 2 ^ h.
Proof.
  intros Hh Hn. assert (2 ^ h <= 2 ^ 40) by (apply Z.pow_le_mono_r; lia). unfold huge_size, nz. rewrite land_pred_pow2 by lia. pose proof (Z.div_mod n (2 ^ h) ltac:(lia)). pose proof (Z.mod_pos_bound n (2 ^ h) ltac:(lia)).
  destruct (Z.eqb_spec (n mod 2 ^ h) 0) as [E|E]; cbn [negb].
  - split; [by apply Z.mod_divide; [lia|]|lia].
  - rewrite wrap_small by lia. split; [exists (n / 2 ^ h + 1); lia|lia].
Qed.

(** Aligned memory.  With any addresses that the system may choose, [system_mmap] maps exactly [n]
    bytes that were not mapped, at an address with the alignment, and [system_munmap] of them leaves
    the memory as it was; the same holds for huge pages, for the size that both round up to. *)
Theorem aligned_memory m b1 b2 n a h : 0 <= a <= 46 -> 0 < n <= 2 ^ 45 -> p <= h <= 40 ->
  ((page | n) -> answers page m n b1 -> answers page m (n + 2 ^ a) b2 ->
     mapped m n a (system_mmap page m (Some b1) (Some b2) n (2 ^ a))
     /\ exists m' b m'', system_mmap page m (Some b1) (Some b2) n (2 ^ a) = Some (m', b) /\ system_munmap page m' b n = Some m'' /\ forall x, m'' x = m x)
  /\ (let N := huge_size (2 ^ h) n in answers page m N b1 -> answers page m (N + 2 ^ Z.max a h) b2 ->
     n <= N < n + 2 ^ h /\ mapped m N (Z.max a h) (system_mmap_huge_pages page (2 ^ h) m (Some b1) (Some b2) n (2 ^ a))
     /\ exists m' b m'', system_mmap_huge_pages page (2 ^ h) m (Some b1) (Some b2) n (2 ^ a) = Some (m', b) /\ system_munmap_huge_pages page (2 ^ h) m' b n = Some m'' /\ forall x, m'' x = m x).
Proof.
  intros Ha Hn Hh. pose proof page_range. split.
  - intros Hpn A1 A2. assert (M : mapped m n a (system_mmap page m (Some b1) (Some b2) n (2 ^ a))) by (apply mmap_lucky_spec; done || lia). split; [done|].
    apply munmap_mapped with a; [lia|done..].
  - intros N A1 A2. destruct (huge_size_spec h n ltac:(lia) Hn) as [Hp Hs]. fold N in Hp, Hs. split; [done|]. assert (2 ^ h <= 2 ^ 40) by (apply Z.pow_le_mono_r; lia).
    assert (HpN : (page | N)) by (apply Z.divide_trans with (2 ^ h); [|done]; exists (2 ^ (h - p)); rewrite <- Z.pow_add_r by lia; f_equal; lia).
    assert (E : system_mmap_huge_pages page (2 ^ h) m (Some b1) (Some b2) n (2 ^ a) = _mmap_lucky page m (Some b1) (Some b2) N (2 ^ Z.max a h)).
    { unfold system_mmap_huge_pages. rewrite huge_align_eq by lia. by destruct (page =? 2 ^ h). }
    rewrite E. assert (M : mapped m N (Z.max a h) (_mmap_lucky page m (Some b1) (Some b2) N (2 ^ Z.max a h))) by (apply mmap_lucky_spec; done || lia).
    split; [done|]. apply munmap_mapped with (Z.max a h); [lia|done..].
Qed.

(** A size that is not a number of pages: the system refuses to take the rest back. *)
Lemma unaligned_size m b n a : 0 <= a <= 46 -> 0 < n <= 2 ^ 45 -> ~ (page | n) -> (page | b) -> 0 < b <= 2 ^ 47 -> ~ (2 ^ a | b) -> _mmap_aligned page m (Some b) n (2 ^ a) = None.
Proof.
  intros Ha Hn Hpn Hb Hb47 Hab. pose proof page_range. assert (Ha46 : 0 < 2 ^ a <= 2 ^ 46) by (split; [lia|apply Z.pow_le_mono_r; lia]). unfold _mmap_aligned. cbn [mbind option_bind]. rewrite (wrap_small 64 (2 ^ a - 1)), land_pred_pow2 by lia.
  pose proof (Z.mod_pos_bound b (2 ^ a) ltac:(lia)) as Hs. assert (Hs0 : b mod 2 ^ a <> 0) by (intros E; apply Hab; by apply Z.mod_divide; [lia|]).
  assert (Hpa : p <= a).
  { destruct (Z.le_gt_cases p a) as [|Hlt]; [done|]. destruct Hab. apply Z.divide_trans with page; [|done]. exists (2 ^ (p - a)). rewrite <- Z.pow_add_r by lia. f_equal. lia. }
  set (s := b mod 2 ^ a) in *. rewrite (wrap_small 64 (2 ^ a - s)) by lia. assert (Hnz : nz (2 ^ a - s) = true) by (unfold nz; zcases; lia || done). rewrite Hnz. destruct (munmap page _ b (2 ^ a - s)) as [m1|]; [|done]. cbn [mbind option_bind].
  assert (Hns : nz s = true) by (unfold nz; zcases; lia || done). rewrite Hns, (wrap_small 64 (b + (2 ^ a - s) + n)) by lia. unfold munmap. destruct (Z.eqb_spec ((b + (2 ^ a - s) + n) mod page) 0) as [E|]; [|done].
  destruct Hpn. apply Z.mod_divide in E; [|lia]. replace n with (b + (2 ^ a - s) + n - (b + (2 ^ a - s))) by lia. apply Z.divide_sub_r; [done|].
  apply Z.divide_trans with (2 ^ a); [exists (2 ^ (a - p)); rewrite <- Z.pow_add_r by lia; f_equal; lia|]. exists (b / 2 ^ a + 1). pose proof (Z.div_mod b (2 ^ a) ltac:(lia)). unfold s. lia.
Qed.
End Pages.

(** ** Memory for the chunk allocators *)

Section Chunk_memory.
Variables (p k H : Z).
Hypotheses (p_range : 0 <= p <= k) (k_range : 12 <= k <= 31) (H_range : k < H /\ 31 <= H <= 45 /\ H - k <= 30).

(** The bytes of the allocations in use are mapped. *)
Definition backed (m : mapping) (A : list live) : Prop := forall a x, a ∈ A -> within a.(l_base) a.(l_bytes) x = true -> m x = true.

(** An allocation of chunks whose memory comes from [system_mmap]: the memory is apart from
    that of the allocations in use, so that the allocation succeeds when a run of chunks
    fits, and the bytes of all allocations are then mapped. *)
Theorem chunk_memory c A m n align bsize b1 b2 j : let l := ceil_log2 64 (Z.max align bsize) in
  reach k H c A -> backed m A -> request_in k H c n align bsize -> (2 ^ p | n) -> fits c.(bitmap) l (ceil_div n (2 ^ k)) j ->
  answers (2 ^ p) m n b1 -> answers (2 ^ p) m (n + 2 ^ l) b2 ->
  exists m' base c' bit, system_mmap (2 ^ p) m (Some b1) (Some b2) n (mmap_align l) = Some (m', base)
    /\ allocate c n align bsize base = Some (c', base) /\ reach k H c' (mkLive base n l bit :: A) /\ backed m' (mkLive base n l bit :: A).
Proof.
  intros l HR B R Hpn Hf A1 A2. assert (H61 : k < H /\ 31 <= H <= 61 /\ H - k <= 30) by lia. pose proof (log2_range k k_range H n align bsize c R) as Hl. fold l in Hl. rewrite mmap_align_eq by lia. pose proof R as (Hn & _).
  assert (2 ^ H <= 2 ^ 45) by (apply Z.pow_le_mono_r; lia).
  destruct (mmap_lucky_spec p ltac:(lia) m b1 b2 n l ltac:(lia) ltac:(lia) Hpn A1 A2) as (m' & base & E & H1 & H2 & H3 & H4 & H5 & H6). exists m', base.
  assert (M : Chunks.system_mmap k A n l base).
  { split; [done|]. split; [done|]. split.
    - pose proof (cs_range k k_range). pose proof (ceil_div_spec n (2 ^ k) ltac:(lia) ltac:(lia)). lia.
    - intros a Ha. assert (Hb : 0 < l_bytes a) by apply (g_bytes _ _ _ (v_good _ _ _ _ (reach_inv k k_range H H61 c A HR) a Ha)). destruct (Z.le_gt_cases (base + n) (l_base a)) as [|Hlt]; [by left|].
      destruct (Z.le_gt_cases (l_base a + l_bytes a) base) as [|Hlt']; [by right|]. exfalso. set (x := Z.max base (l_base a)).
      assert (m x = true) by (apply (B a x Ha); unfold within, x; zcases; simpl; done || lia). assert (m x = false) by (apply H5; unfold within, x; zcases; simpl; done || lia). congruence. }
  pose proof (reach_inv k k_range H H61 c A HR) as I.
  destruct (inv_allocate k k_range H H61 c A n align bsize base I R M) as [(c' & bit & Ea & I')|[_ Hno]]; [|by destruct (Hno j)]. fold l in I'.
  exists c', bit. split; [done|]. split; [done|]. split.
  - eapply reach_allocate; [done|done|done|done|]. set (a := mkLive base n l bit) in I'. destruct (offsetOf_live k k_range H H61 c' _ a base I') as [Ho _]; [by apply elem_of_cons; left|unfold a; cbn; lia|].
    rewrite Ho. unfold a. cbn. f_equal. lia.
  - intros a x Ha Hx. rewrite H6. apply elem_of_cons in Ha as [->|Ha]; [cbn in Hx; by rewrite Hx, orb_true_r|]. by rewrite (B a x Ha Hx).
Qed.
End Chunk_memory.

(** ** Concrete mappings *)

Definition unmapped : mapping := fun _ => false.

Lemma unmapped_answers page n b : 0 < b -> b mod page = 0 -> b + round_page page n <= 2 ^ 47 -> answers page unmapped n b.
Proof. done. Qed.

(** The first address is a page's and not aligned. *)
Lemma aligned_memory_witness : exists m' b m'', system_mmap (2 ^ 12) unmapped (Some (2 ^ 30 + 4096)) (Some (2 ^ 30 + 8192)) 12288 (2 ^ 21) = Some (m', b)
  /\ system_munmap (2 ^ 12) m' b 12288 = Some m'' /\ forall x, m'' x = false.
Proof.
  destruct (aligned_memory 12 ltac:(lia) unmapped (2 ^ 30 + 4096) (2 ^ 30 + 8192) 12288 21 21 ltac:(lia) ltac:(lia) ltac:(lia)) as [Hsmall _].
  apply Hsmall; [by exists 3|by apply unmapped_answers..].
Defined.
