(* ===== verification/Condition.v ===== *)
(** * Condition variables: [libhpx::scheduler::Condition]

    [libhpx/scheduler/Condition.{h,cpp}] and the parcel stacks of
    [include/libhpx/parcel.h].  A condition is one word: the top of a stack of
    parcels linked through their [next] fields, or, when bit 0 is set, an error code
    in the upper half.  [Word] has the code on that word and the [next] fields of the
    parcels in memory; [cond] is what it stands for, a list of waiting parcels or an
    error, and the theorem of this file is that the word implements [cond].  The
    lightweight control objects are modelled over [cond].

    A parcel is its address.  An operation is [None] when it dereferences a parcel
    that is not in memory, or when the code calls [dbg_error]. *)

From S2P Require Import Prelude.

Definition HPX_SUCCESS : Z := 0.

(** ** What a condition stands for *)

Module Cond.

Inductive cond :=
| Waiting (l : list Z)
| Failed (code : Z).

Definition getError (c : cond) : Z :=
  match c with Waiting _ => HPX_SUCCESS | Failed code => code end.

Definition empty (c : cond) : bool := match c with Waiting [] => true | _ => false end.

Definition push (c : cond) (p : Z) : cond * Z :=
  match c with
  | Waiting l => (Waiting (p :: l), HPX_SUCCESS)
  | Failed code => (c, code)
  end.

(** The signals return the parcels they launch, in order. *)
Definition signal (c : cond) : cond * list Z :=
  match c with
  | Waiting (p :: l) => (Waiting l, [p])
  | _ => (c, [])
  end.

Definition signalAll (c : cond) : cond * list Z :=
  match c with
  | Waiting l => (Waiting [], l)
  | Failed _ => (c, [])
  end.

Definition signalError (c : cond) (code : Z) : cond * list Z :=
  match c with
  | Waiting l => (Failed code, l)
  | Failed _ => (c, [])
  end.

Definition clearError (c : cond) : cond :=
  match c with Waiting _ => c | Failed _ => Waiting [] end.

(** Resetting a condition with waiting parcels is an error of the caller. *)
Definition reset (c : cond) : option cond :=
  match c with Waiting (_ :: _) => None | _ => Some (Waiting []) end.

Definition waiters (c : cond) : list Z := match c with Waiting l => l | Failed _ => [] end.

End Cond.

Abbreviation cond := Cond.cond.
Abbreviation Waiting := Cond.Waiting.
Abbreviation Failed := Cond.Failed.

(** ** The word *)

Module Word.

Definition CODE_OFFSET : Z := 32.
Definition ERROR_MASK : Z := 1.
Definition nullptr : Z := 0.

(** The condition's word, and the [next] field of every parcel in memory. *)
Record state := mk { top_ : Z; next : gmap Z Z }.

Definition init (mem : gmap Z Z) : state := mk nullptr mem.

Definition hasError (s : state) : bool := nz (Z.land s.(top_) ERROR_MASK).

Definition setError (s : state) (code : Z) : state * Z :=
  if hasError s then (s, nullptr)
  else (mk (Z.lor (u64 (Z.shiftl (u64 code) CODE_OFFSET)) ERROR_MASK) s.(next), s.(top_)).

Definition getError (s : state) : Z :=
  if hasError s then i16 (Z.shiftr s.(top_) CODE_OFFSET) else HPX_SUCCESS.

Definition clearError (s : state) : state :=
  if hasError s then mk nullptr s.(next) else s.

Definition push (s : state) (parcel : Z) : option (state * Z) :=
  if hasError s then Some (s, getError s)
  else
    _ ← s.(next) !! parcel;
    Some (mk parcel (<[parcel := s.(top_)]> s.(next)), HPX_SUCCESS).

Definition pop (s : state) : option (state * Z) :=
  if hasError s then Some (s, nullptr)
  else
    let top := s.(top_) in
    if nz top then
      n ← s.(next) !! top;
      Some (mk n (<[top := nullptr]> s.(next)), top)
    else Some (s, top).

Definition popAll (s : state) : state * Z :=
  if hasError s then (s, nullptr) else (mk nullptr s.(next), s.(top_)).

Definition empty (s : state) : bool := s.(top_) =? nullptr.

Definition reset (s : state) : option state :=
  if negb (hasError s) && negb (empty s) then None else Some (mk nullptr s.(next)).

Definition parcel_stack_pop (mem : gmap Z Z) (stack : Z) : option (gmap Z Z * Z * Z) :=
  let top := stack in
  if nz top then
    n ← mem !! top;
    Some (<[top := nullptr]> mem, n, top)
  else Some (mem, stack, top).

(** [parcel_launch_all]; the launched parcels in order. *)
Fixpoint parcel_launch_all (fuel : nat) (mem : gmap Z Z) (stack : Z)
    : option (gmap Z Z * list Z) :=
  match fuel with
  | O => None
  | S fuel =>
    '(mem, stack, p) ← parcel_stack_pop mem stack;
    if nz p then
      '(mem, ps) ← parcel_launch_all fuel mem stack;
      Some (mem, p :: ps)
    else Some (mem, [])
  end.

Definition launch (s : state) (stack : Z) : option (state * list Z) :=
  '(mem, ps) ← parcel_launch_all (S (size s.(next))) s.(next) stack;
  Some (mk s.(top_) mem, ps).

Definition signal (s : state) : option (state * list Z) := '(s, p) ← pop s; launch s p.
Definition signalAll (s : state) : option (state * list Z) :=
  let (s, p) := popAll s in launch s p.
Definition signalError (s : state) (code : Z) : option (state * list Z) :=
  let (s, p) := setError s code in launch s p.

End Word.

(** ** The operations of the two levels *)

Inductive cop :=
| OpPush (p : Z)
| OpSignal
| OpSignalAll
| OpSignalError (code : Z)
| OpGetError
| OpClearError
| OpEmpty
| OpReset.

(** What an operation tells its caller, and the parcels it launches. *)
Record answer := Answer { status : Z; launched : list Z }.

Definition spec_step (c : cond) (o : cop) : option (cond * answer) :=
  match o with
  | OpPush p => let (c, e) := Cond.push c p in Some (c, Answer e [])
  | OpSignal => let (c, ps) := Cond.signal c in Some (c, Answer HPX_SUCCESS ps)
  | OpSignalAll => let (c, ps) := Cond.signalAll c in Some (c, Answer HPX_SUCCESS ps)
  | OpSignalError e => let (c, ps) := Cond.signalError c e in Some (c, Answer HPX_SUCCESS ps)
  | OpGetError => Some (c, Answer (Cond.getError c) [])
  | OpClearError => Some (Cond.clearError c, Answer HPX_SUCCESS [])
  | OpEmpty => Some (c, Answer (Z.b2z (Cond.empty c)) [])
  | OpReset => c ← Cond.reset c; Some (c, Answer HPX_SUCCESS [])
  end.

Definition word_step (s : Word.state) (o : cop) : option (Word.state * answer) :=
  match o with
  | OpPush p => '(s, e) ← Word.push s p; Some (s, Answer e [])
  | OpSignal => '(s, ps) ← Word.signal s; Some (s, Answer HPX_SUCCESS ps)
  | OpSignalAll => '(s, ps) ← Word.signalAll s; Some (s, Answer HPX_SUCCESS ps)
  | OpSignalError e => '(s, ps) ← Word.signalError s e; Some (s, Answer HPX_SUCCESS ps)
  | OpGetError => Some (s, Answer (Word.getError s) [])
  | OpClearError => Some (Word.clearError s, Answer HPX_SUCCESS [])
  | OpEmpty => Some (s, Answer (Z.b2z (Word.empty s)) [])
  | OpReset => s ← Word.reset s; Some (s, Answer HPX_SUCCESS [])
  end.

(** ** Refinement *)

(** [l] is the stack linked from [p]. *)
Fixpoint chain (mem : gmap Z Z) (p : Z) (l : list Z) : Prop :=
  match l with
  | [] => p = Word.nullptr
  | x :: l => p = x /\ exists n, mem !! x = Some n /\ chain mem n l
  end.

(** The address of a parcel: not null, and aligned, so bit 0 is clear. *)
Definition parcel_ptr (p : Z) : Prop := 0 < p /\ Z.even p = true.

Definition rep (s : Word.state) (c : cond) : Prop :=
  match c with
  | Waiting l => chain (Word.next s) (Word.top_ s) l /\ NoDup l /\ Forall parcel_ptr l
  | Failed code => Word.top_ s = u64 (code * 2 ^ 32) + 1 /\ code ∈s 16
  end.

(** A pushed parcel is in memory and not already waiting; an error code is a
    [hpx_status_t]. *)
Definition op_ok (s : Word.state) (c : cond) (o : cop) : Prop :=
  match o with
  | OpPush p => (p ∈ dom (Word.next s)) /\ (p ∉ Cond.waiters c) /\ parcel_ptr p
  | OpSignalError code => code ∈s 16
  | _ => True
  end.

Lemma land_1_even p : Z.land p 1 = if Z.even p then 0 else 1.
Proof.
  change 1 with (Z.ones 1) at 1. rewrite Z.land_ones by lia. apply Zmod_even.
Qed.

Lemma rep_hasError s c : rep s c ->
  Word.hasError s = match c with Waiting _ => false | Failed _ => true end.
Proof.
  intros Hrep. unfold Word.hasError, Word.ERROR_MASK, nz. rewrite land_1_even. destruct c as [l|code].
  - destruct Hrep as (Hc & _ & Hp). destruct l as [|x l]; simpl in Hc.
    + by rewrite Hc.
    + destruct Hc as [-> _]. apply Forall_cons in Hp as [[_ He] _]. by rewrite He.
  - destruct Hrep as [-> _]. unfold wrap.
    replace (code * 2 ^ 32) with (2 * (code * 2 ^ 31)) by lia.
    change (2 ^ 64) with (2 * 2 ^ 63). rewrite Z.mul_mod_distr_l by lia.
    rewrite Z.add_comm, Z.even_add_mul_2. done.
Qed.

(** Writing the [next] fields of parcels outside the stack leaves the stack. *)
Lemma chain_ext mem mem' p l : (forall x, x ∈ l -> mem' !! x = mem !! x) ->
  chain mem p l -> chain mem' p l.
Proof.
  revert p. induction l as [|y l IH]; intros p Hx; simpl; [done|].
  intros (-> & m & Hm & Hc). split; [done|]. exists m. rewrite Hx by set_solver.
  split; [done|]. apply IH; [|done]. set_solver.
Qed.

Lemma chain_insert mem p l x n : x ∉ l -> chain mem p l -> chain (<[x := n]> mem) p l.
Proof. intros Hx. apply chain_ext. intros y Hy. rewrite lookup_insert_ne; [done|]. by intros ->. Qed.

Lemma launch_all_spec l : forall fuel mem p, chain mem p l -> NoDup l -> Forall parcel_ptr l ->
  (length l < fuel)%nat ->
  exists mem', Word.parcel_launch_all fuel mem p = Some (mem', l)
    /\ forall x, x ∉ l -> mem' !! x = mem !! x.
Proof.
  induction l as [|x l IH]; intros [|fuel] mem p Hc Hnd Hp Hf; simpl in *; try lia.
  - subst p. by exists mem.
  - destruct Hc as (-> & n & Hn & Hc). apply NoDup_cons in Hnd as [Hx Hnd].
    apply Forall_cons in Hp as [[Hx0 _] Hp].
    unfold Word.parcel_stack_pop, nz. rewrite (proj2 (Z.eqb_neq x 0)) by lia. simpl.
    rewrite Hn. simpl. unfold nz. rewrite (proj2 (Z.eqb_neq x 0)) by lia. simpl.
    destruct (IH fuel (<[x := Word.nullptr]> mem) n) as (mem' & -> & Hmem);
      [by apply chain_insert|done..|lia|].
    exists mem'. split; [done|]. intros y Hy. apply not_elem_of_cons in Hy as [Hne Hy].
    by rewrite Hmem, lookup_insert_ne.
Qed.

Lemma chain_dom mem p l : chain mem p l -> Forall (fun x => x ∈ dom mem) l.
Proof.
  revert p. induction l as [|x l IH]; intros p; [constructor|]. simpl.
  intros (-> & n & Hn & Hc). constructor; [|by eapply IH]. apply elem_of_dom. by exists n.
Qed.

(** A stack of distinct parcels is no longer than the memory. *)
Lemma chain_length mem p l : chain mem p l -> NoDup l -> (length l <= size mem)%nat.
Proof.
  intros Hc Hnd. rewrite <- size_dom. rewrite <- (size_list_to_set (C := gset Z) l Hnd).
  apply subseteq_size. intros x Hx. apply elem_of_list_to_set in Hx.
  pose proof (chain_dom _ _ _ Hc) as Hd. rewrite Forall_forall in Hd. by apply Hd.
Qed.

Arguments Word.launch : simpl never.

Lemma launch_spec s l p : chain (Word.next s) p l -> NoDup l -> Forall parcel_ptr l ->
  exists mem', Word.launch s p = Some (Word.mk (Word.top_ s) mem', l)
    /\ forall x, x ∉ l -> mem' !! x = Word.next s !! x.
Proof.
  intros Hc Hnd Hp. unfold Word.launch. pose proof (chain_length _ _ _ Hc Hnd).
  destruct (launch_all_spec l (S (size (Word.next s))) _ _ Hc Hnd Hp) as (mem' & -> & Hd); [lia|].
  by exists mem'.
Qed.

Lemma error_word code : code ∈s 16 ->
  Z.lor (u64 (Z.shiftl (u64 code) 32)) 1 = u64 (code * 2 ^ 32) + 1
  /\ i16 (Z.shiftr (u64 (code * 2 ^ 32) + 1) 32) = code.
Proof.
  intros Hc.
  assert (E : u64 (code * 2 ^ 32) = u32 code * 2 ^ 32).
  { unfold wrap. change (2 ^ 64) with (2 ^ 32 * 2 ^ 32). rewrite Z.mul_mod_distr_r by lia. done. }
  assert (Hu : u32 code ∈u 32) by (apply wrap_range; lia). split.
  - rewrite Z.shiftl_mul_pow2, wrap_mul_l, E by lia.
    replace (u32 code * 2 ^ 32) with (Z.shiftl (u32 code * 2 ^ 31) 1)
      by (rewrite Z.shiftl_mul_pow2; lia).
    rewrite lor_shiftl_add, Z.shiftl_mul_pow2 by lia. lia.
  - rewrite E, Z.shiftr_div_pow2, Z.div_add_l by lia. simpl (1 / _). rewrite Z.add_0_r.
    unfold swrap, wrap in *.
    destruct (Z.lt_ge_cases code 0).
    + rewrite <- (Z.mod_unique code (2 ^ 32) (-1) (code + 2 ^ 32)) by lia.
      rewrite <- (Z.mod_unique (code + 2 ^ 32 + 2 ^ (16 - 1)) (2 ^ 16) (2 ^ 16) (code + 2 ^ 15)); lia.
    + rewrite (Z.mod_small code) by lia. rewrite Z.mod_small; lia.
Qed.


Lemma rep_null s : Word.top_ s = Word.nullptr -> rep s (Waiting []).
Proof. intros Htop. split; [exact Htop|]. split; constructor. Qed.

Lemma rep_waiting s l : rep s (Waiting l) -> Word.hasError s = false /\
  Word.empty s = match l with [] => true | _ => false end.
Proof.
  intros Hrep. split; [exact (rep_hasError _ _ Hrep)|]. destruct Hrep as (Hc & _ & Hp).
  unfold Word.empty. destruct l as [|x l]; simpl in Hc; [by rewrite Hc|].
  destruct Hc as [-> _]. apply Forall_cons in Hp as [[? _] _]. apply Z.eqb_neq.
  unfold Word.nullptr. lia.
Qed.

(** Popping one parcel and launching it. *)
Lemma word_signal s l : rep s (Waiting l) ->
  exists s', Word.signal s = Some (s', snd (Cond.signal (Waiting l)))
    /\ rep s' (fst (Cond.signal (Waiting l))).
Proof.
  intros Hrep. destruct (rep_waiting _ _ Hrep) as [He _]. destruct Hrep as (Hc & Hnd & Hp).
  unfold Word.signal, Word.pop. rewrite He. destruct l as [|x l]; simpl in Hc.
  - rewrite Hc. simpl.
    destruct (launch_spec s [] Word.nullptr) as (mem' & -> & _); [done|constructor..|].
    eexists. split; [done|]. by apply rep_null.
  - destruct Hc as (Htop & n & Hn & Hc). apply NoDup_cons in Hnd as [Hx Hnd].
    apply Forall_cons in Hp as [Hx0 Hp]. rewrite Htop. unfold nz.
    rewrite (proj2 (Z.eqb_neq x 0)) by (destruct Hx0; lia). simpl. rewrite Hn. simpl.
    destruct (launch_spec (Word.mk n (<[x := Word.nullptr]> (Word.next s))) [x] x)
      as (mem' & -> & Hmem).
    + simpl. split; [done|]. exists Word.nullptr. by rewrite lookup_insert_eq.
    + apply NoDup_singleton.
    + by apply Forall_singleton.
    + eexists. split; [done|]. repeat split; [|done..]. simpl.
      apply (chain_ext (Word.next s)); [|done]. intros y Hy.
      assert (y <> x) by (intros ->; done).
      rewrite Hmem by (apply not_elem_of_cons; split; [done|apply not_elem_of_nil]).
      by apply lookup_insert_ne.
Qed.

(** Detaching the whole stack, leaving [top] in the word, and launching it. *)
Lemma word_detach s l top : rep s (Waiting l) ->
  exists s', Word.launch (Word.mk top (Word.next s)) (Word.top_ s) = Some (s', l)
    /\ Word.top_ s' = top.
Proof.
  intros (Hc & Hnd & Hp).
  destruct (launch_spec (Word.mk top (Word.next s)) l (Word.top_ s)) as (mem' & -> & _); [done..|].
  by eexists.
Qed.

Lemma word_getError s c : rep s c -> Word.getError s = Cond.getError c.
Proof.
  intros Hrep. unfold Word.getError. rewrite (rep_hasError _ _ Hrep).
  destruct c as [l|e]; [done|]. destruct Hrep as [-> Hc]. by apply error_word.
Qed.

Lemma word_empty s c : rep s c -> Word.empty s = Cond.empty c.
Proof.
  intros Hrep. destruct c as [l|e].
  - rewrite (proj2 (rep_waiting _ _ Hrep)). by destruct l.
  - unfold Word.empty. destruct Hrep as [-> _]. apply Z.eqb_neq.
    pose proof (wrap_range 64 (e * 2 ^ 32)). unfold Word.nullptr. lia.
Qed.

Lemma word_push s c p : rep s c -> op_ok s c (OpPush p) ->
  exists s', Word.push s p = Some (s', snd (Cond.push c p)) /\ rep s' (fst (Cond.push c p)).
Proof.
  intros Hrep (Hdom & Hnew & Hptr). unfold Word.push, Word.getError.
  pose proof (rep_hasError _ _ Hrep) as He. rewrite He. destruct c as [l|code]; simpl.
  - apply elem_of_dom in Hdom as [n Hn]. rewrite Hn. simpl. eexists. split; [done|].
    destruct Hrep as (Hc & Hnd & Hp). repeat split; [|by constructor..].
    exists (Word.top_ s). simpl. rewrite lookup_insert_eq. split; [done|]. by apply chain_insert.
  - exists s. split; [|done]. pose proof (word_getError _ _ Hrep) as Hg.
    unfold Word.getError in Hg. rewrite He in Hg. by rewrite Hg.
Qed.

(** ** Property *)

(** C38: the tagged word implements the condition.  From a word that represents a
    condition, each operation answers and launches what the specification says, in
    the specification's order, and leaves a word that represents the new condition;
    it fails only where the specification does, on resetting a condition that has
    waiting parcels. *)
Theorem condition_refines s c o : rep s c -> op_ok s c o ->
  match spec_step c o with
  | Some (c', a) => exists s', word_step s o = Some (s', a) /\ rep s' c'
  | None => word_step s o = None
  end.
Proof.
  intros Hrep Hok. pose proof (rep_hasError _ _ Hrep) as He.
  destruct o as [p| | |code| | | |]; simpl.
  - destruct (word_push s c p Hrep Hok) as (s' & -> & Hrep'). simpl.
    destruct (Cond.push c p) as [c' e]. by exists s'.
  - destruct c as [l|e].
    + destruct (word_signal s l Hrep) as (s' & -> & Hrep').
      destruct (Cond.signal (Waiting l)) as [c' ps]. by exists s'.
    + simpl. unfold Word.signal, Word.pop. rewrite He. simpl. by eexists.
  - unfold Word.signalAll, Word.popAll. rewrite He. destruct c as [l|e]; simpl.
    + destruct (word_detach s l Word.nullptr Hrep) as (s' & -> & Htop). simpl.
      exists s'. split; [done|]. by apply rep_null.
    + by eexists.
  - unfold Word.signalError, Word.setError. rewrite He. destruct c as [l|e]; simpl.
    + unfold Word.CODE_OFFSET, Word.ERROR_MASK. destruct (error_word code Hok) as [-> _].
      destruct (word_detach s l (u64 (code * 2 ^ 32) + 1) Hrep) as (s' & -> & Htop). simpl.
      by exists s'.
    + by eexists.
  - exists s. by rewrite (word_getError _ _ Hrep).
  - unfold Word.clearError. rewrite He. destruct c as [l|e]; eexists; (split; [done|]); [done|].
    by apply rep_null.
  - exists s. by rewrite (word_empty _ _ Hrep).
  - unfold Word.reset. rewrite He. destruct c as [l|e]; simpl.
    + rewrite (proj2 (rep_waiting _ _ Hrep)). destruct l as [|x l]; simpl; [|done].
      eexists. split; [done|]. by apply rep_null.
    + eexists. split; [done|]. by apply rep_null.
Qed.

(** Two parcels wait; an error launches both, the later first. *)
Lemma condition_refines_witness :
  let s := Word.mk 128 {[ 64 := 0; 128 := 64 ]} in
  exists s', word_step s (OpSignalError (-5)) = Some (s', Answer HPX_SUCCESS [128; 64])
    /\ rep s' (Failed (-5)).
Proof.
  intros s. apply (condition_refines s (Waiting [128; 64]) (OpSignalError (-5))); [|done].
  repeat split.
  - exists 64. split; [done|]. split; [done|]. exists 0. done.
  - rewrite !NoDup_cons, !not_elem_of_cons. repeat split; try set_solver. apply NoDup_nil_2.
  - repeat constructor.
Defined.
