(* ===== verification/Monitor.v ===== *)
(** * Monitors: lightweight control objects and the threads that use them

    Every method of an LCO runs under the object's lock and gives the lock up only in
    [LCO::waitFor] ([Worker::wait] of [libhpx/scheduler/Worker.cpp]): the thread's
    parcel is pushed on a condition and the scheduler switches away, and when the
    parcel is launched again the thread takes the lock and reads the condition's
    error.  A method is therefore a set of segments, each atomic, named by a program
    point that holds the method's arguments; [segment] runs one.  A system is an LCO
    with the threads that call it, each about to run a segment, parked, or finished;
    a step lets one thread run one segment.  A segment is [None] where the code calls
    [dbg_error] or fails a [dbg_assert].

    The class [Monitor] is what an LCO gives; [MonitorLaws] is what it promises about
    its condition queues, and on that promise every reachable system has exactly the
    parked threads on the queues ([parked_iff_queued]). *)

From S2P Require Import Prelude Condition.

(** How a segment ends: the method returns, the thread waits on the condition it has
    been pushed on, or it releases the lock and goes on. *)
Inductive next (P R : Type) :=
| Return (r : R)
| Park (pc : P)
| Yield (pc : P).

Arguments Return {_ _} _.
Arguments Park {_ _} _.
Arguments Yield {_ _} _.

Inductive thread (P R : Type) :=
| At (pc : P)
| Parked (pc : P)
| Finished (r : R).

Arguments At {_ _} _.
Arguments Parked {_ _} _.
Arguments Finished {_ _} _.

(** An LCO with state [S], program points [P] and results [R]. *)
Class Monitor (S P R : Type) := {
  (** [segment pc t s]: thread [t] runs the code at [pc]; the new state, the parcels
      launched, in order, and how the segment ends. *)
  segment : P -> Z -> S -> option (S * list Z * next P R);
  (** the parcels on the LCO's conditions *)
  queued : S -> list Z;
  (** the parcel a method attaches to the LCO *)
  attaches : P -> option Z;
}.

(** [Worker::wait]: push the thread's parcel on the condition; on success the thread
    parks at [pc], otherwise the code goes on with the error [k] handles. *)
Definition waitFor {S P R} (c : cond) (set : cond -> S) (t : Z) (pc : P)
    (k : Z -> option (S * list Z * next P R)) : option (S * list Z * next P R) :=
  let (c', status) := Cond.push c t in
  if nz status then k status else Some (set c', [], Park pc).

(** ** Systems *)

Section System.
Context {S P R : Type} `{Monitor S P R}.

Record sys := mkSys {
  lco : S;
  threads : gmap Z (thread P R);
  sent : list Z;
}.

(** Launching a parcel resumes its thread, or sends it when it was only attached. *)
Definition launch (y : sys) (p : Z) : sys :=
  match y.(threads) !! p with
  | Some (Parked pc) => mkSys y.(lco) (<[p := At pc]> y.(threads)) y.(sent)
  | _ => mkSys y.(lco) y.(threads) (y.(sent) ++ [p])
  end.

Definition becomes (n : next P R) : thread P R :=
  match n with
  | Return r => Finished r
  | Park pc => Parked pc
  | Yield pc => At pc
  end.

Definition step (y : sys) (t : Z) : option sys :=
  match y.(threads) !! t with
  | Some (At pc) =>
    '(s, ps, n) ← segment pc t y.(lco);
    Some (foldl launch (mkSys s (<[t := becomes n]> y.(threads)) y.(sent)) ps)
  | _ => None
  end.

Fixpoint run (y : sys) (ts : list Z) : option sys :=
  match ts with
  | [] => Some y
  | t :: ts => y ← step y t; run y ts
  end.

Inductive reachable (y0 : sys) : sys -> Prop :=
| reach_start : reachable y0 y0
| reach_step y y' t : reachable y0 y -> step y t = Some y' -> reachable y0 y'.

Lemma run_reachable y ts : forall y0 y', reachable y0 y -> run y ts = Some y' -> reachable y0 y'.
Proof.
  revert y. induction ts as [|t ts IH]; intros y y0 y' Hr; simpl.
  - intros [= <-]. done.
  - destruct (step y t) as [y1|] eqn:E; [|done]. apply IH. by eapply reach_step.
Qed.

(** An invariant of the initial system that every step keeps. *)
Lemma reachable_inv (I : sys -> Prop) y0 y : I y0 ->
  (forall y y' t, I y -> step y t = Some y' -> I y') -> reachable y0 y -> I y.
Proof. intros H0 Hs. induction 1; eauto. Qed.

(** No thread can run: decided on the thread map. *)
Definition stuck (y : sys) : bool :=
  forallb (fun x : Z * thread P R => match x.2 with At _ => false | _ => true end)
    (map_to_list y.(threads)).

Lemma stuck_step y t : stuck y = true -> step y t = None.
Proof.
  unfold stuck, step. rewrite forallb_forall. intros Hs.
  destruct (threads y !! t) as [th|] eqn:E; [|done].
  apply elem_of_map_to_list, list_elem_of_In in E. specialize (Hs _ E). by destruct th.
Qed.

(** *** Launching *)

Lemma launch_lco y p : lco (launch y p) = lco y.
Proof. unfold launch. by repeat case_match. Qed.

Lemma launches_lco ps : forall y, lco (foldl launch y ps) = lco y.
Proof. induction ps as [|p ps IH]; intros y; simpl; [done|]. by rewrite IH, launch_lco. Qed.

(** The thread a parcel belongs to after a list of launches. *)
Lemma launches_lookup ps : forall y t,
  threads (foldl launch y ps) !! t =
    match threads y !! t with
    | Some (Parked pc) => if decide (t ∈ ps) then Some (At pc) else Some (Parked pc)
    | th => th
    end.
Proof.
  induction ps as [|p ps IH]; intros y t; simpl.
  - by destruct (threads y !! t) as [[]|].
  - rewrite IH. unfold launch. destruct (decide (p = t)) as [->|Hne].
    + destruct (threads y !! t) as [[pc|pc|r]|] eqn:E; simpl; rewrite ?lookup_insert_eq, ?E; try done.
      by rewrite decide_True by set_solver.
    + assert (Hl : forall pc, <[p := At pc]> (threads y) !! t = threads y !! t)
        by (intros; by rewrite lookup_insert_ne).
      assert (Hm : t ∈ p :: ps <-> t ∈ ps)
        by (rewrite elem_of_cons; split; [intros [->|]; done|by right]).
      destruct (threads y !! p) as [[]|]; simpl; rewrite ?Hl;
        (destruct (threads y !! t) as [[]|]; try done; by erewrite decide_ext).
Qed.

End System.

Arguments sys _ _ _ : clear implicits.

(** ** The queue discipline *)

(** What a segment does to the queues [q]: the parcels launched and still queued are
    those that were queued, with the thread itself when it parks, or with the parcel
    the method attaches. *)
Definition queue_law {P R} (pc : P) (att : P -> option Z) (t : Z) (q : list Z)
    (q' ps : list Z) (n : next P R) : Prop :=
  exists new, ps ++ q' ≡ₚ new ++ q
    /\ match n with
       | Park _ => new = [t] /\ t ∈ q'
       | _ => Forall (fun p => att pc = Some p) new
       end.

(** The promise of an LCO, over the states and program points it can be in. *)
Class MonitorLaws (S P R : Type) `{Monitor S P R} := {
  state_ok : S -> Prop;
  point_ok : P -> Prop;
  segment_ok pc t s s' ps n : state_ok s -> point_ok pc -> segment pc t s = Some (s', ps, n) ->
    state_ok s' /\
      match n with
      | Park qc | Yield qc =>
        (* only the first segment of a method attaches its parcel *)
        point_ok qc /\ attaches qc = None
      | Return _ => True
      end;
  segment_queues pc t s s' ps n : state_ok s -> point_ok pc ->
    segment pc t s = Some (s', ps, n) -> queue_law pc attaches t (queued s) (queued s') ps n;
}.

Section Queues.
Context {S P R : Type} `{MonitorLaws S P R}.
Implicit Types (y : sys S P R).

Definition point (th : thread P R) : option P :=
  match th with At pc | Parked pc => Some pc | Finished _ => None end.

(** Parcels attached by the methods of the system are not its threads. *)
Definition attached_apart (y : sys S P R) : Prop :=
  forall t th pc p, threads y !! t = Some th -> point th = Some pc -> attaches pc = Some p ->
    threads y !! p = None.

(** The LCO and the program points of the threads are ones the promise covers. *)
Definition sys_ok (y : sys S P R) : Prop :=
  state_ok (lco y)
  /\ forall t th pc, threads y !! t = Some th -> point th = Some pc -> point_ok pc.

Definition parked (th : thread P R) : Prop := match th with Parked _ => True | _ => False end.

#[global] Instance parked_dec th : Decision (parked th).
Proof. destruct th; apply _. Defined.

(** How often a parcel is on the queues. *)
Abbreviation occ := (count_occ Z.eq_dec).

(** The threads on the queues are the parked ones, each queued once. *)
Definition queues_ok (y : sys S P R) : Prop :=
  forall t th, threads y !! t = Some th ->
    occ (queued (lco y)) t = if decide (parked th) then 1%nat else 0%nat.

Lemma step_inv y y' t : step y t = Some y' ->
  exists pc s ps n, threads y !! t = Some (At pc) /\ segment pc t (lco y) = Some (s, ps, n)
    /\ y' = foldl launch (mkSys s (<[t := becomes n]> (threads y)) (sent y)) ps
    /\ lco y' = s.
Proof.
  unfold step. destruct (threads y !! t) as [[pc| |]|] eqn:Et; try done.
  destruct (segment pc t (lco y)) as [[[s ps] n]|] eqn:Es; [|done]. simpl. intros [= <-].
  exists pc, s, ps, n. by rewrite launches_lco.
Qed.

Lemma step_lco y y' t pc s ps n : threads y !! t = Some (At pc) ->
  segment pc t (lco y) = Some (s, ps, n) -> step y t = Some y' -> lco y' = s.
Proof.
  intros Et Es. unfold step. rewrite Et, Es. simpl. intros [= <-]. apply launches_lco.
Qed.

(** A thread's state after a step. *)
Lemma step_lookup y y' t pc s ps n u : threads y !! t = Some (At pc) ->
  segment pc t (lco y) = Some (s, ps, n) -> step y t = Some y' ->
  threads y' !! u =
    match (if decide (u = t) then Some (becomes n) else threads y !! u) with
    | Some (Parked qc) => if decide (u ∈ ps) then Some (At qc) else Some (Parked qc)
    | th => th
    end.
Proof.
  intros Et Es. unfold step. rewrite Et, Es. simpl. intros [= <-].
  rewrite launches_lookup. simpl. destruct (decide (u = t)) as [->|].
  - by rewrite lookup_insert_eq.
  - by rewrite lookup_insert_ne.
Qed.

(** A predicate on threads across a step: kept by the threads that did nothing, true
    of the thread that ran, and of the threads it launched. *)
Lemma step_forall (F F' : thread P R -> Prop) y y' t pc s ps n :
  threads y !! t = Some (At pc) -> segment pc t (lco y) = Some (s, ps, n) -> step y t = Some y' ->
  (forall u th, threads y !! u = Some th -> F th) ->
  (forall th, F th -> F' th) -> F' (becomes n) ->
  (forall qc, ps <> [] -> F' (Parked qc) -> F' (At qc)) ->
  forall u th, threads y' !! u = Some th -> F' th.
Proof.
  intros Et Es Hs HF Hkeep Hn Hlaunch u th. rewrite (step_lookup _ _ _ _ _ _ _ u Et Es Hs).
  assert (Hin : forall qc, F' (Parked qc) ->
            (if decide (u ∈ ps) then Some (At qc) else Some (Parked qc)) = Some th -> F' th).
  { intros qc Hq. case_decide as Hd; intros [= <-]; [|done]. apply Hlaunch; [|done].
    intros ->. by apply not_elem_of_nil in Hd. }
  destruct (decide (u = t)) as [->|].
  - destruct (becomes n) as [qc|qc|r]; [by intros [= <-]|by apply Hin|by intros [= <-]].
  - destruct (threads y !! u) as [th0|] eqn:E; [|done]. specialize (Hkeep _ (HF _ _ E)).
    destruct th0 as [qc|qc|r]; [by intros [= <-]|by apply Hin|by intros [= <-]].
Qed.

Lemma step_threads_dom y y' t u : step y t = Some y' ->
  is_Some (threads y' !! u) <-> is_Some (threads y !! u).
Proof.
  intros Hs. destruct (step_inv _ _ _ Hs) as (pc & s & ps & n & Et & Es & _).
  rewrite (step_lookup _ _ _ _ _ _ _ u Et Es Hs). destruct (decide (u = t)) as [->|].
  - rewrite Et. destruct n; simpl; try (split; by eauto). case_decide; split; eauto.
  - destruct (threads y !! u) as [[]|]; try done. case_decide; split; eauto.
Qed.

Lemma threads_kept y y' t : step y t = Some y' -> size (threads y') = size (threads y).
Proof.
  intros Hs. rewrite <- !(size_dom (D := gset Z)). f_equal. apply set_eq. intros u.
  rewrite !elem_of_dom. by eapply step_threads_dom.
Qed.

Lemma occ_zero (l : list Z) t : occ l t = 0%nat <-> t ∉ l.
Proof. rewrite <- count_occ_not_In. by rewrite list_elem_of_In. Qed.

Lemma occ_balance (ps q new q0 : list Z) t : ps ++ q ≡ₚ new ++ q0 ->
  (occ ps t + occ q t = occ new t + occ q0 t)%nat.
Proof.
  intros Hp. rewrite <- !count_occ_app. apply (Permutation_count_occ Z.eq_dec). done.
Qed.

Lemma sys_ok_step y y' t : sys_ok y -> step y t = Some y' -> sys_ok y'.
Proof.
  intros [Hok Hpts] Hs. destruct (step_inv _ _ _ Hs) as (pc & s & ps & n & Et & Es & _ & Hlco).
  destruct (segment_ok _ _ _ _ _ _ Hok (Hpts t _ _ Et eq_refl) Es) as [Hok' Hn].
  split; [by rewrite Hlco|]. intros u th qc Hu Hqc.
  rewrite (step_lookup _ _ _ _ _ _ _ u Et Es Hs) in Hu. destruct (decide (u = t)) as [->|].
  - destruct n as [r|rc|rc]; simpl in Hu; [|case_decide|]; simplify_eq/=; by destruct Hn.
  - destruct (threads y !! u) as [[rc|rc|r]|] eqn:E; try case_decide; simplify_eq/=;
      (eapply Hpts; [exact E|reflexivity]).
Qed.

Lemma queues_ok_step y y' t : sys_ok y -> attached_apart y -> queues_ok y ->
  step y t = Some y' -> queues_ok y'.
Proof.
  intros [Hok Hpts] Hapart Hq Hs.
  destruct (step_inv _ _ _ Hs) as (pc & s & ps & n & Et & Es & _ & Hlco).
  destruct (segment_queues _ _ _ _ _ _ Hok (Hpts t _ _ Et eq_refl) Es) as (new & Hperm & Hnew).
  intros u th Hu. rewrite Hlco. rewrite (step_lookup _ _ _ _ _ _ _ u Et Es Hs) in Hu.
  pose proof (occ_balance _ _ _ _ u Hperm) as Hb.
  assert (Hfresh : forall th0, threads y !! u = Some th0 ->
            Forall (fun p => attaches pc = Some p) new -> occ new u = 0%nat).
  { intros th0 Hth0 Hall. apply occ_zero. intros Hin. rewrite Forall_forall in Hall.
    specialize (Hapart t (At pc) pc u Et eq_refl (Hall u Hin)). congruence. }
  destruct (decide (u = t)) as [->|Hne].
  - pose proof (Hq t _ Et) as H0t. simpl in H0t. destruct n as [r|qc|qc]; simpl in Hu.
    + injection Hu as <-. simpl. rewrite (Hfresh _ Et Hnew) in Hb. lia.
    + destruct Hnew as [-> Hin]. simpl in Hb. destruct (Z.eq_dec t t); [|done].
      assert (occ (queued s) t <> 0%nat) by (intros E; by apply occ_zero in E).
      assert (Hps : t ∉ ps) by (apply occ_zero; lia).
      rewrite decide_False in Hu by done. injection Hu as <-. simpl. lia.
    + injection Hu as <-. simpl. rewrite (Hfresh _ Et Hnew) in Hb. lia.
  - destruct (threads y !! u) as [th0|] eqn:E; [|done]. pose proof (Hq u _ E) as Hqu.
    assert (Hnewu : occ new u = 0%nat).
    { destruct n; try by eapply Hfresh. destruct Hnew as [-> _]. simpl.
      destruct (Z.eq_dec t u); [by subst|done]. }
    rewrite Hnewu in Hb. destruct th0 as [qc|qc|r]; simpl in Hqu.
    + injection Hu as <-. simpl. lia.
    + destruct (decide (u ∈ ps)) as [Hin|Hin]; injection Hu as <-; simpl.
      * destruct (occ ps u) eqn:Eo; [by apply occ_zero in Eo|]. lia.
      * apply occ_zero in Hin. lia.
    + injection Hu as <-. simpl. lia.
Qed.

Lemma attached_apart_step y y' t : sys_ok y -> attached_apart y -> step y t = Some y' ->
  attached_apart y'.
Proof.
  intros [Hok Hpts] Hapart Hs u th pc p Hu Hpc Ha.
  destruct (step_inv _ _ _ Hs) as (pc0 & s & ps & n & Et & Es & _).
  destruct (segment_ok _ _ _ _ _ _ Hok (Hpts t _ _ Et eq_refl) Es) as [_ Hn].
  assert (Hnone : threads y !! p = None).
  { rewrite (step_lookup _ _ _ _ _ _ _ u Et Es Hs) in Hu. destruct (decide (u = t)) as [->|].
    - destruct n as [r|qc|qc]; simpl in Hu; [|case_decide|]; simplify_eq/=;
        destruct Hn; congruence.
    - destruct (threads y !! u) as [[qc|qc|r]|] eqn:E; try case_decide; simplify_eq/=;
        (eapply Hapart; [exact E|reflexivity|exact Ha]). }
  apply eq_None_not_Some. rewrite (step_threads_dom _ _ _ _ Hs), Hnone. apply is_Some_None.
Qed.

(** The start of a system: no thread has run and nothing waits. *)
Definition fresh (y : sys S P R) : Prop :=
  queued (lco y) = [] /\ sys_ok y /\ attached_apart y
  /\ forall t th, threads y !! t = Some th -> exists pc, th = At pc.

Lemma reachable_queues y0 y : fresh y0 -> reachable y0 y ->
  sys_ok y /\ attached_apart y /\ queues_ok y.
Proof.
  intros (Hq & Hok & Ha & Hat).
  apply (reachable_inv (fun y => sys_ok y /\ attached_apart y /\ queues_ok y)).
  - split; [done|]. split; [done|]. intros t th Ht. rewrite Hq.
    destruct (Hat t th Ht) as [pc ->]. done.
  - intros y1 y2 t (Hok1 & Ha1 & Hq1) Hs.
    split; [by eapply sys_ok_step|]. split; [by eapply attached_apart_step|by eapply queues_ok_step].
Qed.

(** In every reachable system, the threads on the queues are the parked ones. *)
Lemma parked_iff_queued y0 y t th : fresh y0 -> reachable y0 y -> threads y !! t = Some th ->
  t ∈ queued (lco y) <-> parked th.
Proof.
  intros Hf Hr Ht. destruct (reachable_queues _ _ Hf Hr) as (_ & _ & Hq). specialize (Hq t th Ht).
  destruct (decide (parked th)).
  - split; [done|]. intros _. destruct (decide (t ∈ queued (lco y))) as [|Hn]; [done|].
    apply occ_zero in Hn. lia.
  - apply occ_zero in Hq. naive_solver.
Qed.

(** An invariant whose steps may use what holds in every reachable system. *)
Lemma reachable_inv_from (I : sys S P R -> Prop) y0 y : I y0 ->
  (forall y y' t, reachable y0 y -> I y -> step y t = Some y' -> I y') -> reachable y0 y -> I y.
Proof. intros HI Hs. induction 1; eauto. Qed.

(** Launching all that is queued wakes every thread that is parked. *)
Definition woken (th : thread P R) : thread P R :=
  match th with Parked qc => At qc | _ => th end.

Lemma launched_all y0 y y' t pc s ps n : fresh y0 -> reachable y0 y ->
  threads y !! t = Some (At pc) -> segment pc t (lco y) = Some (s, ps, n) ->
  step y t = Some y' -> ps = queued (lco y) -> forall u uh', threads y' !! u = Some uh' ->
  (u = t /\ uh' = becomes n)
  \/ (u <> t /\ exists uh, threads y !! u = Some uh /\ uh' = woken uh).
Proof.
  intros Hf Hr Et Es Hs -> u uh' Hu. rewrite (step_lookup _ _ _ _ _ _ _ u Et Es Hs) in Hu.
  destruct (decide (u = t)) as [->|Hne].
  - left. split; [done|]. destruct n as [r|qc|qc]; simpl in *; [congruence| |congruence].
    rewrite decide_False in Hu; [congruence|].
    intros Hin. by apply (parked_iff_queued y0 y t _ Hf Hr Et) in Hin.
  - right. split; [done|]. destruct (threads y !! u) as [uh|] eqn:Eu; [|done]. exists uh.
    split; [done|]. destruct uh as [qc|qc|r]; simpl; [congruence| |congruence].
    rewrite decide_True in Hu; [congruence|]. by apply (parked_iff_queued y0 y u _ Hf Hr Eu).
Qed.

(** A thread that is not parked and does not run is left alone. *)
Lemma step_other y y' t u th : step y t = Some y' -> u <> t -> threads y !! u = Some th ->
  ~ parked th -> threads y' !! u = Some th.
Proof.
  intros Hs Hne Hu Hnp. destruct (step_inv _ _ _ Hs) as (pc & s & ps & n & Et & Es & _).
  rewrite (step_lookup _ _ _ _ _ _ _ u Et Es Hs), decide_False, Hu by done.
  by destruct th.
Qed.
End Queues.

(** ** Sums over threads *)

Section Sums.
Context {P R : Type} (f : thread P R -> Z).

Definition tsum (m : gmap Z (thread P R)) : Z := map_fold (fun _ th acc => f th + acc) 0 m.

Lemma tsum_insert m t th : m !! t = None -> tsum (<[t := th]> m) = f th + tsum m.
Proof.
  intros Ht. unfold tsum. rewrite map_fold_insert_L; [done| |done]. intros. lia.
Qed.

Lemma tsum_update m t th th' : m !! t = Some th -> tsum (<[t := th']> m) = tsum m - f th + f th'.
Proof.
  intros Ht. rewrite <- (insert_delete_id m t th Ht) at 2.
  rewrite <- insert_delete_eq. rewrite !tsum_insert by apply lookup_delete_eq. lia.
Qed.

Lemma tsum_nonneg m : (forall t th, m !! t = Some th -> 0 <= f th) -> 0 <= tsum m.
Proof.
  induction m as [|t th m Ht IH] using map_ind; intros Hf; [done|].
  rewrite tsum_insert by done. pose proof (Hf t th (lookup_insert_eq _ _ _)).
  assert (0 <= tsum m); [|lia]. apply IH. intros u uh Hu. apply (Hf u).
  rewrite lookup_insert_ne; [done|]. intros ->. congruence.
Qed.

(** A sum of non-negative terms bounds each. *)
Lemma tsum_ge m t th : (forall t th, m !! t = Some th -> 0 <= f th) ->
  m !! t = Some th -> f th <= tsum m.
Proof.
  intros Hf Ht. rewrite <- (insert_delete_id m t th Ht), tsum_insert by apply lookup_delete_eq.
  assert (0 <= tsum (delete t m)); [|lia]. apply tsum_nonneg. intros u uh Hu.
  apply lookup_delete_Some in Hu as [_ Hu]. by apply (Hf u).
Qed.

Lemma tsum_le k m : (forall t th, m !! t = Some th -> f th <= k) ->
  tsum m <= k * Z.of_nat (size m).
Proof.
  induction m as [|t th m Ht IH] using map_ind; intros Hf.
  { unfold tsum. rewrite map_fold_empty, map_size_empty. lia. }
  rewrite tsum_insert, map_size_insert_None by done. pose proof (Hf t th (lookup_insert_eq _ _ _)).
  assert (tsum m <= k * Z.of_nat (size m)); [|lia]. apply IH. intros u uh Hu. apply (Hf u).
  rewrite lookup_insert_ne; [done|]. intros ->. congruence.
Qed.

Lemma tsum_zero m : (forall t th, m !! t = Some th -> f th = 0) -> tsum m = 0.
Proof.
  induction m as [|t th m Ht IH] using map_ind; intros Hf; [done|].
  rewrite tsum_insert, (Hf t th (lookup_insert_eq _ _ _)) by done. simpl. apply IH.
  intros u uh Hu. apply (Hf u). rewrite lookup_insert_ne; [done|]. intros ->. congruence.
Qed.

(** Terms of at most one: when the others add up to nothing, or to everything. *)
Lemma tsum_others_zero m t th : (forall t th, m !! t = Some th -> 0 <= f th) ->
  m !! t = Some th -> tsum m <= f th -> forall u uh, u <> t -> m !! u = Some uh -> f uh = 0.
Proof.
  intros Hf Ht Hs u uh Hne Hu.
  assert (Hd : delete t m !! u = Some uh) by (by rewrite lookup_delete_ne).
  assert (Hnn : forall v vh, delete t m !! v = Some vh -> 0 <= f vh).
  { intros v vh Hv. apply lookup_delete_Some in Hv as [_ Hv]. by apply (Hf v). }
  pose proof (tsum_ge _ u uh Hnn Hd). pose proof (Hnn u uh Hd).
  rewrite <- (insert_delete_id m t th Ht), tsum_insert in Hs by apply lookup_delete_eq. lia.
Qed.

Lemma tsum_const k m : (forall t th, m !! t = Some th -> f th = k) -> tsum m = k * Z.of_nat (size m).
Proof.
  induction m as [|t th m Ht IH] using map_ind; intros Hf.
  { unfold tsum. rewrite map_fold_empty, map_size_empty. lia. }
  rewrite tsum_insert, map_size_insert_None by done. rewrite (Hf t th (lookup_insert_eq _ _ _)).
  rewrite IH; [lia|]. intros u uh Hu. apply (Hf u). rewrite lookup_insert_ne; [done|].
  intros ->. congruence.
Qed.

Context {S : Type} `{Monitor S P R}.
Hypothesis f_resume : forall pc, f (At pc) = f (Parked pc).

Implicit Types (y : sys S P R).

Lemma tsum_launch ps : forall y, tsum (threads (foldl launch y ps)) = tsum (threads y).
Proof.
  induction ps as [|p ps IH]; intros y; simpl; [done|]. rewrite IH. unfold launch.
  destruct (threads y !! p) as [[]|] eqn:E; try done. simpl.
  rewrite (tsum_update _ _ _ _ E), f_resume. lia.
Qed.

Lemma tsum_step y y' t pc s ps n : threads y !! t = Some (At pc) ->
  segment pc t (lco y) = Some (s, ps, n) -> step y t = Some y' ->
  tsum (threads y') = tsum (threads y) - f (At pc) + f (becomes n).
Proof.
  intros Et Es. unfold step. rewrite Et, Es. simpl. intros [= <-].
  rewrite tsum_launch. simpl. by rewrite (tsum_update _ _ _ _ Et).
Qed.
End Sums.

(** When all but one thread are counted, every other one is. *)
Lemma tsum_others_one {P R} (f : thread P R -> Z) m t th :
  (forall t th, m !! t = Some th -> 0 <= f th <= 1) -> m !! t = Some th -> f th = 0 ->
  tsum f m = Z.of_nat (size m) - 1 -> forall u uh, u <> t -> m !! u = Some uh -> f uh = 1.
Proof.
  intros Hf Ht H0 Hs u uh Hne Hu.
  assert (Hc : tsum (fun th => 1 - f th) m = 1).
  { assert (Hadd : forall m', tsum f m' + tsum (fun th => 1 - f th) m' = Z.of_nat (size m')).
    { intros m'. induction m' as [|v vh m' Hv IH] using map_ind.
      - unfold tsum. rewrite !map_fold_empty, map_size_empty. lia.
      - rewrite !tsum_insert, map_size_insert_None by done. lia. }
    specialize (Hadd m). lia. }
  assert (1 - f uh = 0); [|lia].
  apply (tsum_others_zero (fun th => 1 - f th) m t th) with (u := u); try done.
  - intros v vh Hv. specialize (Hf v vh Hv). lia.
  - lia.
Qed.

Lemma tsum_ext {P R} (f g : thread P R -> Z) m :
  (forall t th, m !! t = Some th -> f th = g th) -> tsum f m = tsum g m.
Proof.
  induction m as [|t th m Ht IH] using map_ind; intros Hf; [done|].
  rewrite !tsum_insert by done. rewrite (Hf t th (lookup_insert_eq _ _ _)), IH; [done|].
  intros u uh Hu. apply (Hf u). rewrite lookup_insert_ne; [done|]. intros ->. congruence.
Qed.

(** ** What the threads still have to contribute *)

Section Lists.
Context {P R A : Type} (f : thread P R -> list A).

Definition tlist (m : gmap Z (thread P R)) : list A := concat (map (fun x => f x.2) (map_to_list m)).

Lemma tlist_insert m t th : m !! t = None -> tlist (<[t := th]> m) ≡ₚ f th ++ tlist m.
Proof.
  intros Ht. unfold tlist. by rewrite (map_to_list_insert m t th Ht).
Qed.

Lemma tlist_update m t th th' : m !! t = Some th ->
  f th ++ tlist (<[t := th']> m) ≡ₚ f th' ++ tlist m.
Proof.
  intros Ht. rewrite <- (insert_delete_id m t th Ht) at 2.
  rewrite <- insert_delete_eq. rewrite !tlist_insert by apply lookup_delete_eq. solve_Permutation.
Qed.

Lemma tlist_nil m : (forall t th, m !! t = Some th -> f th = []) -> tlist m = [].
Proof.
  intros Hf. unfold tlist. apply concat_nil_Forall, Forall_forall. intros l Hl.
  apply list_elem_of_In, in_map_iff in Hl as ([t th] & <- & Hin).
  apply list_elem_of_In, elem_of_map_to_list in Hin. by apply (Hf t).
Qed.

Lemma tlist_single m t th : m !! t = Some th ->
  (forall u uh, u <> t -> m !! u = Some uh -> f uh = []) -> tlist m ≡ₚ f th.
Proof.
  intros Ht Hf. rewrite <- (insert_delete_id m t th Ht), tlist_insert by apply lookup_delete_eq.
  rewrite tlist_nil; [by rewrite app_nil_r|]. intros u uh Hu.
  apply lookup_delete_Some in Hu as [Hne Hu]. by apply (Hf u).
Qed.

Context {S : Type} `{Monitor S P R}.
Hypothesis f_resume : forall pc, f (At pc) = f (Parked pc).
Implicit Types (y : sys S P R).

Lemma tlist_launch ps : forall y, tlist (threads (foldl launch y ps)) ≡ₚ tlist (threads y).
Proof.
  induction ps as [|p ps IH]; intros y; simpl; [done|]. rewrite IH. unfold launch.
  destruct (threads y !! p) as [[]|] eqn:E; try done. simpl.
  apply (Permutation_app_inv_l (f (Parked pc))). rewrite (tlist_update _ _ _ _ E), f_resume. done.
Qed.

Lemma tlist_step y y' t pc s ps n : threads y !! t = Some (At pc) ->
  segment pc t (lco y) = Some (s, ps, n) -> step y t = Some y' ->
  f (At pc) ++ tlist (threads y') ≡ₚ f (becomes n) ++ tlist (threads y).
Proof.
  intros Et Es. unfold step. rewrite Et, Es. simpl. intros [= <-].
  rewrite tlist_launch. simpl. by rewrite (tlist_update _ _ _ _ Et).
Qed.
End Lists.

Lemma tlist_ext {P R A} (f g : thread P R -> list A) m :
  (forall t th, m !! t = Some th -> f th = g th) -> tlist f m = tlist g m.
Proof.
  intros Hf. unfold tlist. f_equal. apply map_ext_in. intros [t th] Hin.
  apply list_elem_of_In, elem_of_map_to_list in Hin. by apply (Hf t).
Qed.

(** ** Finishing

    The two halves of an argument that every thread finishes: a measure that each
    segment decreases bounds every schedule, and a system that cannot run has finished
    when an invariant rules out failing segments and forgotten waiters. *)

Section Finish.
Context {S P R : Type} `{MonitorLaws S P R}.
Implicit Types (y : sys S P R).

Section Bound.
Variables (I : sys S P R -> Prop) (weight : thread P R -> Z) (k : Z).
Hypothesis I_step : forall y y' t, I y -> step y t = Some y' -> I y'.
Hypothesis weight_resume : forall pc, weight (At pc) = weight (Parked pc).
Hypothesis weight_range : forall th, 0 <= weight th <= k.
Hypothesis weight_segment : forall y pc t s' ps n, I y -> threads y !! t = Some (At pc) ->
  segment pc t (lco y) = Some (s', ps, n) -> weight (becomes n) < weight (At pc).

Lemma weight_run ts : forall y y', I y -> run y ts = Some y' ->
  Z.of_nat (length ts) + tsum weight (threads y') <= tsum weight (threads y).
Proof.
  induction ts as [|t ts IH]; intros y y' Hi; simpl.
  - intros [= <-]. lia.
  - destruct (step y t) as [y1|] eqn:E; [|done]. simpl. intros Hr.
    destruct (step_inv _ _ _ E) as (p & l' & ps & n & Et & Es & _ & _).
    pose proof (tsum_step weight weight_resume _ _ _ _ _ _ _ Et Es E).
    pose proof (weight_segment _ _ _ _ _ _ Hi Et Es). specialize (IH _ _ (I_step _ _ _ Hi E) Hr). lia.
Qed.

(** At most [k] segments per thread. *)
Lemma run_bound y ts y' : I y -> run y ts = Some y' ->
  Z.of_nat (length ts) <= k * Z.of_nat (size (threads y)).
Proof.
  intros Hi Hrun. pose proof (weight_run _ _ _ Hi Hrun).
  pose proof (tsum_nonneg weight (threads y') ltac:(intros; apply weight_range)).
  pose proof (tsum_le weight k (threads y) ltac:(intros; apply weight_range)). lia.
Qed.
End Bound.

Lemma all_finished y0 y : fresh y0 -> reachable y0 y ->
  (forall t p, threads y !! t = Some (At p) -> step y t <> None) ->
  ((forall t p, threads y !! t <> Some (At p)) -> queued (lco y) = []) ->
  (forall t, step y t = None) -> forall t th, threads y !! t = Some th -> exists r, th = Finished r.
Proof.
  intros Hf Hr Hprog Hdrain Hstuck.
  assert (Hno : forall t p, threads y !! t <> Some (At p)).
  { intros t p Ht. apply (Hprog t p Ht), Hstuck. }
  specialize (Hdrain Hno). intros t th Ht.
  pose proof (parked_iff_queued _ _ _ _ Hf Hr Ht) as Hpq. rewrite Hdrain in Hpq.
  destruct th as [p|p|r]; [by destruct (Hno t p)| |by exists r].
  exfalso. by apply (not_elem_of_nil t), Hpq.
Qed.
End Finish.

(** ** Discharging the queue laws

    The ways a segment treats the queues [q]: it only signals, parks the thread on a
    queue, or attaches a parcel, queued or launched at once. *)
Section QueueLaw.
Context {P R : Type} (pc : P) (att : P -> option Z) (t : Z) (q : list Z).

Lemma law_signal q' ps (n : next P R) : ps ++ q' ≡ₚ q ->
  match n with Park _ => False | _ => True end -> queue_law pc att t q q' ps n.
Proof. intros Hp Hn. exists []. split; [done|]. by destruct n. Qed.

Lemma law_park q' ps qc : ps ++ q' ≡ₚ t :: q -> t ∈ q' ->
  queue_law (R := R) pc att t q q' ps (Park qc).
Proof. intros Hp Hin. by exists [t]. Qed.

Lemma law_attach q' ps p (n : next P R) : ps ++ q' ≡ₚ p :: q -> att pc = Some p ->
  match n with Park _ => False | _ => True end -> queue_law pc att t q q' ps n.
Proof. intros Hp Ha Hn. exists [p]. split; [done|]. destruct n; try done; by repeat constructor. Qed.
End QueueLaw.

Create HintDb queues.
#[export] Hint Resolve law_signal law_park law_attach : queues.
