(* ===== verification/Lco.v ===== *)
(** * What the lightweight control objects share

    The state word of [LCO] in [libhpx/scheduler/lco/LCO.cpp] and the lemmas on
    conditions that discharge the queue laws of each class. *)

From S2P Require Import Prelude Condition Monitor.

Definition TRIGGERED_MASK : Z := 2.
Definition USER_MASK : Z := 4.

(** The new word and whether the trigger was already set. *)
Definition setTriggered (state_ : Z) : Z * Z :=
  (Z.lor state_ TRIGGERED_MASK, Z.land state_ TRIGGERED_MASK).

Definition resetTriggered (state_ : Z) : Z := Z.land state_ (Z.lnot TRIGGERED_MASK).
Definition getTriggered (state_ : Z) : bool := nz (Z.land state_ TRIGGERED_MASK).
Definition setUser (state_ : Z) : Z := Z.lor state_ USER_MASK.
Definition getUser (state_ : Z) : bool := nz (Z.land state_ USER_MASK).

Lemma getTriggered_bit st : getTriggered st = Z.testbit st 1.
Proof.
  unfold getTriggered, nz, TRIGGERED_MASK. change 2 with (2 ^ 1) at 1.
  destruct (Z.testbit st 1) eqn:E.
  - apply negb_true_iff, Z.eqb_neq. intros H. apply (f_equal (fun x => Z.testbit x 1)) in H.
    by rewrite Z.land_spec, E in H.
  - apply negb_false_iff, Z.eqb_eq. apply Z.bits_inj'. intros i Hi. rewrite Z.land_spec, Z.testbit_0_l.
    destruct (Z.eq_dec i 1) as [->|]; [by rewrite E|].
    rewrite Z.pow2_bits_false by lia. apply andb_false_r.
Qed.

Lemma getTriggered_set st : getTriggered (fst (setTriggered st)) = true.
Proof. rewrite getTriggered_bit. unfold setTriggered, fst. by rewrite Z.lor_spec, orb_true_r. Qed.

Lemma getTriggered_reset st : getTriggered (resetTriggered st) = false.
Proof. rewrite getTriggered_bit. unfold resetTriggered. by rewrite Z.land_spec, andb_false_r. Qed.

(** The old bit that [setTriggered] returns. *)
Lemma nz_triggered st : nz (Z.land st TRIGGERED_MASK) = getTriggered st.
Proof. done. Qed.

Arguments setTriggered : simpl never.
Arguments resetTriggered : simpl never.
Arguments getTriggered : simpl never.

Create Rewrite HintDb lco.
Lemma getTriggered_lor st : getTriggered (Z.lor st TRIGGERED_MASK) = true.
Proof. apply getTriggered_set. Qed.

#[export] Hint Rewrite getTriggered_set getTriggered_lor getTriggered_reset nz_triggered : lco.

(** ** Conditions and queues *)

(** Waking up: what a signal launches and leaves is what was waiting. *)
Lemma signal_queue c c' ps : Cond.signal c = (c', ps) ->
  ps ++ Cond.waiters c' ≡ₚ Cond.waiters c.
Proof. destruct c as [[|p l]|]; simpl; intros [= <- <-]; done. Qed.

Lemma signalAll_queue c c' ps : Cond.signalAll c = (c', ps) ->
  ps ++ Cond.waiters c' ≡ₚ Cond.waiters c.
Proof. destruct c; simpl; intros [= <- <-]; [|done]. by rewrite app_nil_r. Qed.

Lemma signalError_queue c code c' ps : Cond.signalError c code = (c', ps) ->
  ps ++ Cond.waiters c' ≡ₚ Cond.waiters c.
Proof. destruct c; simpl; intros [= <- <-]; [|done]. by rewrite app_nil_r. Qed.

Lemma reset_queue c c' : Cond.reset c = Some c' -> Cond.waiters c' = [] /\ Cond.waiters c = [].
Proof. destruct c as [[|p l]|]; simpl; intros [= <-]; done. Qed.

(** A condition in error holds a non-zero code: what [hpx_lco_error] guarantees. *)
Definition cond_ok (c : cond) : Prop :=
  match c with Waiting _ => True | Failed code => code <> HPX_SUCCESS end.

(** A parcel is pushed, or the error is returned. *)
Lemma push_queue c p c' e : cond_ok c -> Cond.push c p = (c', e) ->
  (e = HPX_SUCCESS /\ Cond.waiters c' = p :: Cond.waiters c /\ cond_ok c')
  \/ (e <> HPX_SUCCESS /\ c' = c).
Proof. destruct c; simpl; intros ? [= <- <-]; [by left|by right]. Qed.

Lemma nz_status e : nz e = true <-> e <> HPX_SUCCESS.
Proof. unfold nz, HPX_SUCCESS. rewrite negb_true_iff. apply Z.eqb_neq. Qed.

(** [waitFor] parks the thread on the condition, or goes on with its error. *)
Lemma waitFor_inv {S P R} c (set : cond -> S) t (pc : P) k (x : S * list Z * next P R) :
  cond_ok c -> waitFor c set t pc k = Some x ->
  (exists l, c = Waiting l /\ x = (set (Waiting (t :: l)), [], Park pc))
  \/ (exists code, c = Failed code /\ code <> HPX_SUCCESS /\ k code = Some x).
Proof.
  intros Hok. unfold waitFor. destruct c as [l|code]; simpl in *.
  - intros [= <-]. left. by exists l.
  - rewrite (proj2 (nz_status code)) by done. intros. right. by exists code.
Qed.

#[export] Hint Resolve signal_queue signalAll_queue signalError_queue : hpx.

Lemma nz_failed (code : Z) : code <> HPX_SUCCESS -> nz code = false -> False.
Proof. intros Hc Hn. apply nz_status in Hc. congruence. Qed.

(** All the ways a segment can run: the conditions and tests it branches on. *)
Ltac segment_cases H :=
  unfold waitFor, mbind, option_bind in H; simpl in H;
  repeat (case_match; simplify_eq/=);
  try match goal with
  | Hc : ?c <> HPX_SUCCESS, Hn : nz ?c = false |- _ => destruct (nz_failed c Hc Hn)
  end.

(** The queue law of one case. *)
Ltac queue_solve :=
  simpl; rewrite ?app_nil_r; first
    [ by apply law_signal
    | apply law_signal; [by rewrite app_nil_r|done]
    | apply law_park; [done|by apply elem_of_cons; left]
    | apply law_park; [by rewrite Permutation_app_comm|by apply elem_of_cons; left]
    | eapply law_attach; [|reflexivity|exact I]; done ].

(** What remains of a segment's case once its tests are known. *)
Ltac segment_crush :=
  repeat split; intros; simplify_eq/=;
  rewrite ?negb_true_iff, ?negb_false_iff, ?nz_status in *;
  autorewrite with lco in *; try done; try congruence; try tauto; try by left.
