(* ===== verification/And.v ===== *)
(** * The and-gate LCO: [libhpx/scheduler/lco/And.cpp]

    [set] subtracts from the counter atomically, outside the lock, and the thread that
    reaches zero takes the lock, triggers and wakes everyone; [wait] and [attach] run
    under the lock.  The theorems are about every interleaving of the threads of a
    system: a wait that returns success has seen every set, and when nothing can run
    any more nobody is left waiting. *)

From S2P Require Import Prelude Condition Monitor Lco.

Record And := mkAnd {
  state_ : Z;
  barrier_ : cond;
  count_ : Z;
  value_ : Z;
}.

Definition new (count : Z) : And :=
  let st := 0 in
  mkAnd (if count =? 0 then fst (setTriggered st) else st) (Waiting []) count count.

(** The program points of the methods.  [SetTrigger] is [set] after the subtraction
    that reached zero, before the lock; [ResumeWait] is [wait] after [waitFor]. *)
Inductive pc :=
| CallSet (n : Z)
| SetTrigger
| CallWait (reset : bool)
| ResumeWait (reset : bool)
| CallAttach (p : Z)
| CallError (code : Z)
| CallReset.

(** The value a method returns, by method. *)
Inductive result :=
| SetResult (r : Z)
| WaitResult (status : Z)
| AttachResult (status : Z)
| Void.

Definition unlockedReset (l : And) : option And :=
  barrier ← Cond.reset l.(barrier_);
  let st := resetTriggered l.(state_) in
  Some (mkAnd (if l.(value_) =? 0 then fst (setTriggered st) else st) barrier
          l.(value_) l.(value_)).

(** The end of [wait], once the status is known. *)
Definition wait_finish (l : And) (reset : bool) (status : Z)
    : option (And * list Z * next pc result) :=
  if reset && (status =? HPX_SUCCESS) then
    l ← unlockedReset l;
    Some (l, [], Return (WaitResult status))
  else Some (l, [], Return (WaitResult status)).

Definition with_barrier (l : And) (c : cond) : And :=
  mkAnd l.(state_) c l.(count_) l.(value_).

Definition and_segment (p : pc) (t : Z) (l : And) : option (And * list Z * next pc result) :=
  match p with
  | CallSet n =>
    let count := l.(count_) in
    let l := mkAnd l.(state_) l.(barrier_) (i32 (count - n)) l.(value_) in
    if count >? n then Some (l, [], Return (SetResult 0))
    else if count =? n then Some (l, [], Yield SetTrigger)
    else None
  | SetTrigger =>
    if getTriggered l.(state_) then None
    else
      let (barrier, ps) := Cond.signalAll l.(barrier_) in
      Some (mkAnd (fst (setTriggered l.(state_))) barrier l.(count_) l.(value_), ps,
            Return (SetResult 1))
  | CallWait reset =>
    let status := Cond.getError l.(barrier_) in
    if nz status then Some (l, [], Return (WaitResult status))
    else if negb (getTriggered l.(state_)) then
      waitFor l.(barrier_) (with_barrier l) t (ResumeWait reset) (wait_finish l reset)
    else wait_finish l reset status
  | ResumeWait reset => wait_finish l reset (Cond.getError l.(barrier_))
  | CallAttach p =>
    let status := Cond.getError l.(barrier_) in
    if nz status then Some (l, [], Return (AttachResult status))
    else if getTriggered l.(state_) then Some (l, [p], Return (AttachResult HPX_SUCCESS))
    else
      let (barrier, status) := Cond.push l.(barrier_) p in
      Some (with_barrier l barrier, [], Return (AttachResult status))
  | CallError code =>
    let (barrier, ps) := Cond.signalError l.(barrier_) code in
    Some (with_barrier l barrier, ps, Return Void)
  | CallReset =>
    l ← unlockedReset l;
    Some (l, [], Return Void)
  end.

#[export] Instance and_monitor : Monitor And pc result := {
  segment := and_segment;
  queued l := Cond.waiters l.(barrier_);
  attaches p := match p with CallAttach q => Some q | _ => None end;
}.

(** ** The queue laws *)

Definition and_point_ok (p : pc) : Prop :=
  match p with CallError code => code <> HPX_SUCCESS | _ => True end.

Ltac and_cases l H :=
  unfold and_segment, wait_finish, unlockedReset in H; destruct l as [st [q|code] c v];
  segment_cases H.

Lemma and_queues p t l l' ps n : cond_ok (barrier_ l) -> and_point_ok p ->
  and_segment p t l = Some (l', ps, n) ->
  queue_law p attaches t (queued l) (queued l') ps n.
Proof. intros Hok Hp H. and_cases l H; queue_solve. Qed.

Lemma and_ok p t l l' ps n : cond_ok (barrier_ l) -> and_point_ok p ->
  and_segment p t l = Some (l', ps, n) ->
  cond_ok (barrier_ l') /\ match n with
    | Park q | Yield q => and_point_ok q /\ attaches q = None
    | Return _ => True
    end.
Proof. intros Hok Hp H. by and_cases l H. Qed.

#[export] Instance and_laws : MonitorLaws And pc result := {
  state_ok l := cond_ok (barrier_ l);
  point_ok := and_point_ok;
  segment_ok := and_ok;
  segment_queues := and_queues;
}.

(** ** Joining: threads that set, wait and attach, without resets *)

(** The calls of a joining system: sets of at least one, waits without reset. *)
Definition joins (p : pc) : Prop :=
  match p with
  | CallSet n => 0 < n
  | CallWait reset | ResumeWait reset => reset = false
  | CallError code => code <> HPX_SUCCESS
  | CallAttach _ | SetTrigger => True
  | CallReset => False
  end.

Definition is_call (p : pc) : Prop :=
  match p with SetTrigger | ResumeWait _ => False | _ => True end.

(** What a thread still has to subtract, and whether it is about to trigger. *)
Definition pending (th : thread pc result) : Z :=
  match point th with Some (CallSet n) => n | _ => 0 end.

Definition triggering (th : thread pc result) : Z :=
  match point th with Some SetTrigger => 1 | _ => 0 end.

Abbreviation system := (sys And pc result).

(** A new and-gate for exactly the sets its threads will do. *)
Definition join_start (y : system) : Prop :=
  let v := tsum pending (threads y) in
  lco y = new v /\ v < 2 ^ 31 /\ attached_apart y
  /\ forall t th, threads y !! t = Some th -> exists p, th = At p /\ joins p /\ is_call p.

Definition failed (c : cond) : Prop := match c with Failed _ => True | _ => False end.

(** What a thread knows: it joins; awake after a wait, or back from one with success,
    the gate has triggered or failed. *)
Definition thread_ok (l : And) (th : thread pc result) : Prop :=
  (forall p, point th = Some p -> joins p)
  /\ match th with
     | At (ResumeWait _) => getTriggered (state_ l) = true \/ failed (barrier_ l)
     | Finished (WaitResult status) => status = HPX_SUCCESS -> getTriggered (state_ l) = true
     | Parked p => p = ResumeWait false
     | _ => True
     end.

Record join_inv (y : system) : Prop := {
  inv_count : count_ (lco y) = tsum pending (threads y);
  inv_small : count_ (lco y) < 2 ^ 31;
  inv_trigger : tsum triggering (threads y)
    = Z.b2z ((count_ (lco y) =? 0) && negb (getTriggered (state_ (lco y))));
  inv_done : getTriggered (state_ (lco y)) = true ->
    count_ (lco y) = 0 /\ Cond.waiters (barrier_ (lco y)) = [];
  inv_threads : forall t th, threads y !! t = Some th -> thread_ok (lco y) th;
  inv_ok : cond_ok (barrier_ (lco y));
}.

(** What one segment does, for the parts of the invariant that do not count. *)
Lemma and_segment_effect p t l l' ps n : thread_ok l (At p) -> cond_ok (barrier_ l) ->
  (getTriggered (state_ l) = true -> Cond.waiters (barrier_ l) = []) ->
  and_segment p t l = Some (l', ps, n) ->
  (forall th, thread_ok l th -> thread_ok l' th)
  /\ thread_ok l' (becomes n)
  /\ (ps <> [] -> getTriggered (state_ l') = true \/ failed (barrier_ l'))
  /\ (getTriggered (state_ l') = true -> Cond.waiters (barrier_ l') = [])
  /\ cond_ok (barrier_ l').
Proof.
  intros [Hj Hr] Hok Hw H. specialize (Hj p eq_refl).
  assert (Hmono : (getTriggered (state_ l) = true -> getTriggered (state_ l') = true)
                  /\ (failed (barrier_ l) -> failed (barrier_ l'))).
  { clear Hr. and_cases l H; segment_crush. }
  split; [|clear Hmono].
  { intros th [Hp Hth]. split; [done|]. destruct th as [[]| |[]]; tauto. }
  and_cases l H; segment_crush.
Qed.

(** What it does to the counters. *)
Lemma and_segment_count p t l l' ps n : joins p -> 0 <= count_ l < 2 ^ 31 ->
  (p = SetTrigger -> count_ l = 0) -> (getTriggered (state_ l) = true -> count_ l = 0) ->
  and_segment p t l = Some (l', ps, n) ->
  count_ l' = count_ l - pending (At p) /\ pending (becomes n) = 0
  /\ (getTriggered (state_ l') = true -> count_ l' = 0)
  /\ Z.b2z ((count_ l' =? 0) && negb (getTriggered (state_ l')))
     = Z.b2z ((count_ l =? 0) && negb (getTriggered (state_ l)))
       - triggering (At p) + triggering (becomes n).
Proof.
  intros Hj Hc Ht Hg H.
  assert (Hi : forall m, p = CallSet m -> m <= count_ l -> i32 (count_ l - m) = count_ l - m).
  { intros m -> Hm. simpl in Hj. apply swrap_small; lia. }
  and_cases l H; unfold pending, triggering; simpl; autorewrite with lco; zbool;
    try (rewrite (Hi _ eq_refl) by lia); try specialize (Ht eq_refl);
    destruct (getTriggered st) eqn:Eg; simpl in *; try specialize (Hg eq_refl);
    repeat split; intros; try done; try lia; rewrite ?andb_false_r, ?andb_true_r;
    zcases; simpl; lia.
Qed.

Lemma pending_resume p : pending (At p) = pending (Parked p).
Proof. done. Qed.

Lemma triggering_resume p : triggering (At p) = triggering (Parked p).
Proof. done. Qed.

Lemma pending_nonneg y : join_inv y -> forall t th, threads y !! t = Some th -> 0 <= pending th.
Proof.
  intros Hi t th Ht. destruct (inv_threads _ Hi t th Ht) as [Hj _]. unfold pending.
  destruct (point th) as [[]|]; try done. specialize (Hj _ eq_refl). simpl in Hj. lia.
Qed.

Lemma triggering_nonneg th : 0 <= triggering th.
Proof. unfold triggering. by destruct (point th) as [[]|]. Qed.

Lemma join_inv_step y y' t : join_inv y -> step y t = Some y' -> join_inv y'.
Proof.
  intros Hi Hs. destruct (step_inv _ _ _ Hs) as (p & l' & ps & n & Et & Es & _ & Hlco).
  pose proof (inv_threads _ Hi t _ Et) as Hth.
  pose proof (tsum_nonneg pending _ (pending_nonneg y Hi)) as Hnn. rewrite <- inv_count in Hnn by done.
  pose proof (pending_nonneg y Hi t _ Et) as Hpn. pose proof (inv_small _ Hi).
  assert (Htr : p = SetTrigger -> count_ (lco y) = 0).
  { intros ->. pose proof (tsum_ge triggering _ t _ ltac:(intros; apply triggering_nonneg) Et) as Hge.
    rewrite (inv_trigger _ Hi) in Hge. unfold triggering in Hge. simpl in Hge.
    destruct (Z.eqb_spec (count_ (lco y)) 0); [done|]. simpl in Hge. lia. }
  destruct (and_segment_count p t (lco y) l' ps n) as (Hc & Hn0 & Hg & Hb); try done.
  { by apply Hth. }
  { intros Hg. by apply (inv_done _ Hi). }
  destruct (and_segment_effect p t (lco y) l' ps n) as (He1 & He2 & He3 & He4 & He5); try done.
  { apply (inv_ok _ Hi). }
  { intros Hg'. by apply (inv_done _ Hi). }
  split; rewrite ?Hlco; [|lia| |by auto| |done].
  - rewrite (tsum_step _ pending_resume _ _ _ _ _ _ _ Et Es Hs), <- inv_count by done. lia.
  - rewrite (tsum_step _ triggering_resume _ _ _ _ _ _ _ Et Es Hs), (inv_trigger _ Hi). lia.
  - eapply step_forall; [exact Et|exact Es|exact Hs|apply (inv_threads _ Hi)|done|done|].
    intros qc Hps [Hq _]. split; [done|]. destruct qc; try done. by apply He3.
Qed.

Lemma join_start_inv y : join_start y -> join_inv y /\ fresh y.
Proof.
  intros (Hl & Hv & Ha & Hth).
  assert (Hnn : 0 <= tsum pending (threads y)).
  { apply tsum_nonneg. intros t th Ht. destruct (Hth t th Ht) as (p & -> & Hj & _).
    unfold pending. destruct p; simpl in *; lia. }
  assert (Htr : tsum triggering (threads y) = 0).
  { apply tsum_zero. intros t th Ht. destruct (Hth t th Ht) as (p & -> & _ & Hc). by destruct p. }
  set (v := tsum pending (threads y)) in *.
  assert (Hst : getTriggered (state_ (new v)) = (v =? 0)).
  { unfold new; simpl. destruct (v =? 0); by autorewrite with lco. }
  split.
  - split; rewrite Hl; [done|done| | | |done].
    + rewrite Htr, Hst. simpl. by destruct (v =? 0).
    + rewrite Hst. intros ?%Z.eqb_eq. done.
    + intros t th Ht. destruct (Hth t th Ht) as (p & -> & Hj & Hc). split.
      * by intros q [= <-].
      * by destruct p.
  - split; [by rewrite Hl|]. split; [|split; [done|]].
    + split; [by rewrite Hl|]. intros t th p Ht Hp. destruct (Hth t th Ht) as (q & -> & Hj & _).
      injection Hp as <-. by destruct q.
    + intros t th Ht. destruct (Hth t th Ht) as (p & -> & _). by exists p.
Qed.

Lemma join_reachable y0 y : join_start y0 -> reachable y0 y -> join_inv y.
Proof.
  intros Hs. apply reachable_inv; [by apply join_start_inv|]. intros y1 y2 t. apply join_inv_step.
Qed.

(** No segment of a joining system fails. *)
Lemma join_progress y t p : join_inv y -> threads y !! t = Some (At p) -> step y t <> None.
Proof.
  intros Hi Ht. destruct (inv_threads _ Hi t _ Ht) as [Hj _]. specialize (Hj _ eq_refl).
  unfold step. rewrite Ht.
  assert (Hseg : and_segment p t (lco y) <> None).
  { destruct p as [n| |r|r|a|e|]; simpl in *; subst; unfold waitFor.
    - pose proof (tsum_ge pending _ t _ (pending_nonneg y Hi) Ht) as Hge.
      rewrite <- (inv_count _ Hi) in Hge. unfold pending in Hge. simpl in Hge. zcases; [done..|lia].
    - pose proof (tsum_ge triggering _ t _ ltac:(intros; apply triggering_nonneg) Ht) as Hge.
      rewrite (inv_trigger _ Hi) in Hge. unfold triggering in Hge. simpl in Hge.
      destruct (getTriggered _); [by rewrite andb_false_r in Hge|]. by destruct (Cond.signalAll _).
    - destruct (nz _); [done|]. destruct (negb _); [|done].
      destruct (Cond.push _ _) as [c e]. by destruct (nz e).
    - done.
    - destruct (nz _); [done|]. destruct (getTriggered _); [done|]. by destruct (Cond.push _ _).
    - by destruct (Cond.signalError _ _).
    - done. }
  simpl. destruct (and_segment p t (lco y)) as [[[? ?] ?]|]; done.
Qed.

(** The segments a thread can still run. *)
Definition weight (th : thread pc result) : Z :=
  match point th with
  | Some SetTrigger | Some (ResumeWait _) => 1
  | Some _ => 2
  | None => 0
  end.

Lemma and_weight_segment p t l l' ps n : and_segment p t l = Some (l', ps, n) ->
  weight (becomes n) < weight (At p).
Proof. intros H. unfold weight. and_cases l H; lia. Qed.

Lemma and_weight_range th : 0 <= weight th <= 2.
Proof. unfold weight. by destruct (point th) as [[]|]. Qed.

(** When nobody can run, every set is done, so the gate has triggered. *)
Lemma join_drained y : join_inv y -> (forall t p, threads y !! t <> Some (At p)) ->
  Cond.waiters (barrier_ (lco y)) = [].
Proof.
  intros Hi Hno.
  assert (Hz : tsum pending (threads y) = 0 /\ tsum triggering (threads y) = 0).
  { split; apply tsum_zero; intros t [p|p|r] Ht; try done; try (by destruct (Hno t p));
      destruct (inv_threads _ Hi t _ Ht) as [_ ->]; done. }
  destruct Hz as [Hp Htr]. rewrite <- (inv_count _ Hi) in Hp. rewrite (inv_trigger _ Hi), Hp in Htr.
  apply (inv_done _ Hi). by destruct (getTriggered _).
Qed.

(** ** Properties *)

(** C2: an and-gate joins.  In a system whose threads set a new gate by exactly its
    value and wait on it, in any interleaving, a wait that has returned success has
    seen every set done, the trigger included. *)
Theorem and_wait_joins y0 y t : join_start y0 -> reachable y0 y ->
  threads y !! t = Some (Finished (WaitResult HPX_SUCCESS)) ->
  forall u th, threads y !! u = Some th ->
    match point th with Some (CallSet _) | Some SetTrigger => False | _ => True end.
Proof.
  intros H0 Hr Ht u th Hu. pose proof (join_reachable _ _ H0 Hr) as Hi.
  destruct (inv_threads _ Hi t _ Ht) as [_ Hg]. specialize (Hg eq_refl).
  destruct (inv_done _ Hi Hg) as [Hc _].
  pose proof (tsum_ge pending _ u _ (pending_nonneg y Hi) Hu) as Hp.
  pose proof (tsum_ge triggering _ u _ ltac:(intros; apply triggering_nonneg) Hu) as Htr.
  rewrite <- (inv_count _ Hi), Hc in Hp. rewrite (inv_trigger _ Hi), Hc, Hg in Htr.
  destruct (inv_threads _ Hi u _ Hu) as [Hj _]. unfold pending, triggering in *. simpl in Htr.
  destruct (point th) as [[]|]; try done. specialize (Hj _ eq_refl). simpl in Hj. lia.
Qed.

(** C3: nobody is left waiting.  Every schedule of a joining system runs at most two
    segments per thread; at every point of it, a thread that is about to run a segment can
    run it, without a failed assertion or a fatal error; and a system in which nothing can
    run has finished all its threads. *)
Theorem and_all_finish y0 ts y : join_start y0 -> run y0 ts = Some y ->
  Z.of_nat (length ts) <= 2 * Z.of_nat (size (threads y0))
  /\ (forall t p, threads y !! t = Some (At p) -> is_Some (and_segment p t (lco y)) /\ is_Some (step y t))
  /\ ((forall t, step y t = None) ->
      forall t th, threads y !! t = Some th -> exists r, th = Finished r).
Proof.
  intros H0 Hrun. pose proof (run_reachable _ _ _ _ (reach_start y0) Hrun) as Hr.
  pose proof (join_reachable _ _ H0 Hr) as Hi. destruct (join_start_inv _ H0) as [_ Hf]. split; [|split].
  - apply (run_bound (fun _ => True) weight) with (y' := y); try done;
      eauto using and_weight_range, and_weight_segment.
  - intros t p Ht. pose proof (join_progress y t p Hi Ht) as Hs. unfold step in *. rewrite Ht in *. cbn [segment and_monitor] in *.
    destruct (and_segment p t (lco y)) as [[[l ps] n]|]; [|done]. by split; eexists.
  - apply (all_finished y0); [done..| |].
    + intros t p. by apply join_progress.
    + by apply join_drained.
Qed.

(** ** Witnesses: two setters, two waiters and an attached parcel *)

Definition demo : system :=
  mkSys (new 3) {[ 1 := At (CallSet 1); 2 := At (CallSet 2); 3 := At (CallWait false);
                   4 := At (CallWait false); 5 := At (CallAttach 100) ]} [].

Lemma and_demo_start : join_start demo.
Proof.
  split; [done|]. split; [done|]. split.
  - intros t th p q Ht Hp Ha. unfold demo in *; simpl in *.
    repeat (apply lookup_insert_Some in Ht as [[<- <-]|[_ Ht]]; [by simplify_eq/=|]).
    apply lookup_singleton_Some in Ht as [<- <-]. by simplify_eq/=.
  - intros t th Ht. unfold demo in Ht; simpl in Ht.
    repeat (apply lookup_insert_Some in Ht as [[<- <-]|[_ Ht]]; [by eexists|]).
    apply lookup_singleton_Some in Ht as [<- <-]. by eexists.
Qed.

Lemma and_wait_joins_witness : exists y,
  run demo [3; 1; 5; 2; 2; 3] = Some y
  /\ threads y !! 3 = Some (Finished (WaitResult HPX_SUCCESS))
  /\ forall u th, threads y !! u = Some th -> point th <> Some SetTrigger.
Proof.
  destruct (run demo [3; 1; 5; 2; 2; 3]) as [y|] eqn:E; [|by vm_compute in E].
  assert (H3 : threads y !! 3 = Some (Finished (WaitResult HPX_SUCCESS)))
    by (vm_compute in E; by simplify_eq).
  exists y. split; [done|]. split; [done|]. intros u th Hu Hp.
  pose proof (and_wait_joins demo y 3 and_demo_start
    (run_reachable _ _ _ _ (reach_start demo) E) H3 u th Hu) as Hj. by rewrite Hp in Hj.
Defined.

Lemma and_all_finish_witness : exists y,
  run demo [3; 1; 5; 2; 4; 2; 3; 4] = Some y /\ forall t th, threads y !! t = Some th ->
    exists r, th = Finished r.
Proof.
  destruct (run demo [3; 1; 5; 2; 4; 2; 3; 4]) as [y|] eqn:E; [|by vm_compute in E].
  exists y. split; [done|]. apply (and_all_finish demo _ y and_demo_start E).
  intros t. apply stuck_step. vm_compute in E. by simplify_eq.
Defined.
