(* ===== verification/Future.v ===== *)
(** * Futures: [libhpx/scheduler/lco/Future.cpp]

    A write-once cell.  [set] stores the value and wakes everyone, [error] stores an
    error instead; [get] waits for either, copies the value out and may reset the cell.
    The theorems are about a future with one writer, in every interleaving with the
    readers: each reader gets the writer's outcome, and none is left waiting. *)

From S2P Require Import Prelude Condition Monitor Lco.

Record Future := mkFuture {
  state_ : Z;
  full_ : cond;
  value_ : list Z;
}.

Definition new (size : nat) : Future := mkFuture 0 (Waiting []) (replicate size 0).

(** [ResumeGet] is [get] after [waitFor].  A [wait] is a [get] of no bytes, and
    [getRef] is a [wait] without reset that then hands out the address of [value_]. *)
Inductive pc :=
| CallSet (from : list Z)
| CallGet (size : nat) (reset : bool)
| ResumeGet (size : nat) (reset : bool)
| CallAttach (p : Z)
| CallError (code : Z)
| CallReset.

Definition CallWait (reset : bool) : pc := CallGet 0 reset.
Definition CallGetRef : pc := CallWait false.

Inductive result :=
| SetResult (r : Z)
| GetResult (status : Z) (out : list Z)
| AttachResult (status : Z)
| Void.

Definition resetFull (l : Future) : option Future :=
  full ← Cond.reset l.(full_);
  Some (mkFuture (resetTriggered l.(state_)) full l.(value_)).

(** [memcpy] into and out of the value, within its bounds. *)
Definition copy_in (value from : list Z) : option (list Z) :=
  if (length from <=? length value)%nat then Some (from ++ drop (length from) value) else None.

Definition copy_out (value : list Z) (size : nat) : option (list Z) :=
  if (size <=? length value)%nat then Some (take size value) else None.

(** [get] from the point where [waitFull] has returned [status]. *)
Definition get_finish (l : Future) (size : nat) (reset : bool) (status : Z)
    : option (Future * list Z * next pc result) :=
  if nz status then Some (l, [], Return (GetResult status []))
  else
    out ← copy_out l.(value_) size;
    l ← (if reset then resetFull l else Some l);
    Some (l, [], Return (GetResult HPX_SUCCESS out)).

Definition with_full (l : Future) (c : cond) : Future := mkFuture l.(state_) c l.(value_).

Definition future_segment (p : pc) (t : Z) (l : Future)
    : option (Future * list Z * next pc result) :=
  match p with
  | CallSet from =>
    let (st, old) := setTriggered l.(state_) in
    if nz old then None
    else
      value ← copy_in l.(value_) from;
      let (full, ps) := Cond.signalAll l.(full_) in
      Some (mkFuture st full value, ps, Return (SetResult 1))
  | CallGet size reset =>
    if getTriggered l.(state_) then get_finish l size reset (Cond.getError l.(full_))
    else waitFor l.(full_) (with_full l) t (ResumeGet size reset) (get_finish l size reset)
  | ResumeGet size reset => get_finish l size reset (Cond.getError l.(full_))
  | CallAttach p =>
    if negb (getTriggered l.(state_)) then
      let (full, status) := Cond.push l.(full_) p in
      Some (with_full l full, [], Return (AttachResult status))
    else
      let status := Cond.getError l.(full_) in
      if nz status then Some (l, [], Return (AttachResult status))
      else Some (l, [p], Return (AttachResult HPX_SUCCESS))
  | CallError code =>
    let (full, ps) := Cond.signalError l.(full_) code in
    Some (mkFuture (fst (setTriggered l.(state_))) full l.(value_), ps, Return Void)
  | CallReset =>
    l ← resetFull l;
    Some (l, [], Return Void)
  end.

#[export] Instance future_monitor : Monitor Future pc result := {
  segment := future_segment;
  queued l := Cond.waiters l.(full_);
  attaches p := match p with CallAttach q => Some q | _ => None end;
}.

(** ** The queue laws *)

Definition future_point_ok (p : pc) : Prop :=
  match p with CallError code => code <> HPX_SUCCESS | _ => True end.

Ltac future_cases l H :=
  unfold future_segment, get_finish, resetFull, copy_in, copy_out in H;
  destruct l as [st [q|code] v]; segment_cases H.

Lemma future_queues p t l l' ps n : cond_ok (full_ l) -> future_point_ok p ->
  future_segment p t l = Some (l', ps, n) ->
  queue_law p attaches t (queued l) (queued l') ps n.
Proof.
  intros Hok Hp H. future_cases l H; queue_solve.
Qed.

Lemma future_ok p t l l' ps n : cond_ok (full_ l) -> future_point_ok p ->
  future_segment p t l = Some (l', ps, n) ->
  cond_ok (full_ l') /\ match n with
    | Park q | Yield q => future_point_ok q /\ attaches q = None
    | Return _ => True
    end.
Proof. intros Hok Hp H. by future_cases l H. Qed.

#[export] Instance future_laws : MonitorLaws Future pc result := {
  state_ok l := cond_ok (full_ l);
  point_ok := future_point_ok;
  segment_ok := future_ok;
  segment_queues := future_queues;
}.

(** ** One writer *)

Section OneWriter.
(** The writer's call and the size of the future's value. *)
Variables (w : pc) (size : nat).

Definition is_writer (p : pc) : Prop :=
  match p with
  | CallSet from => (length from <= size)%nat
  | CallError code => code <> HPX_SUCCESS
  | _ => False
  end.

Hypothesis Hw : is_writer w.

(** What a reader of [n] bytes gets. *)
Definition outcome (n : nat) : result :=
  match w with
  | CallSet from => GetResult HPX_SUCCESS (take n (from ++ replicate (size - length from) 0))
  | CallError code => GetResult code []
  | _ => Void
  end.

(** The calls of the other threads: reads within the value, without reset. *)
Definition reads (p : pc) : Prop :=
  match p with
  | CallGet n reset | ResumeGet n reset => reset = false /\ (n <= size)%nat
  | CallAttach _ => True
  | _ => False
  end.

Abbreviation system := (sys Future pc result).

Definition writing (th : thread pc result) : Z :=
  match point th with Some (CallSet _) | Some (CallError _) => 1 | _ => 0 end.

Definition write_start (y : system) : Prop :=
  lco y = new size /\ tsum writing (threads y) = 1 /\ attached_apart y
  /\ forall t th, threads y !! t = Some th -> exists p, th = At p
       /\ (p = w \/ reads p /\ match p with ResumeGet _ _ => False | _ => True end).

(** The future before and after the write. *)
Definition holds (l : Future) : Prop :=
  if getTriggered (state_ l) then
    match w with
    | CallSet from => value_ l = from ++ replicate (size - length from) 0 /\ full_ l = Waiting []
    | CallError code => full_ l = Failed code
    | _ => False
    end
  else value_ l = replicate size 0 /\ exists q, full_ l = Waiting q.

Definition thread_ok (l : Future) (th : thread pc result) : Prop :=
  match th with
  | At (ResumeGet n r) => reads (ResumeGet n r) /\ getTriggered (state_ l) = true
  | At p => p = w \/ reads p
  | Parked (ResumeGet n r) => reads (ResumeGet n r)
  | Parked _ => False
  | Finished (GetResult status out) => exists n, GetResult status out = outcome n
  | Finished _ => True
  end.

Record write_inv (y : system) : Prop := {
  inv_writing : tsum writing (threads y) = Z.b2z (negb (getTriggered (state_ (lco y))));
  inv_holds : holds (lco y);
  inv_threads : forall t th, threads y !! t = Some th -> thread_ok (lco y) th;
}.

Lemma writing_nonneg th : 0 <= writing th.
Proof. unfold writing. by destruct (point th) as [[]|]. Qed.

Lemma writing_writer : writing (At w) = 1.
Proof. unfold writing. by destruct w. Qed.

(** A write, then a read. *)
Lemma future_write_effect t l l' ps n : holds l -> getTriggered (state_ l) = false ->
  future_segment w t l = Some (l', ps, n) ->
  holds l' /\ getTriggered (state_ l') = true /\ exists r, n = Return r /\
    match r with GetResult _ _ => False | _ => True end.
Proof.
  unfold holds. intros Hh Hg. rewrite Hg in Hh. destruct Hh as [Hv [q Hq]].
  destruct w as [from| | | |code|]; simpl in Hw; try done; simpl; rewrite Hq.
  - rewrite nz_triggered. unfold copy_in. rewrite Hg, Hv, length_replicate. simpl.
    rewrite (proj2 (Nat.leb_le _ _) Hw). simpl. intros [= <- <- <-]. simpl.
    rewrite getTriggered_lor, drop_replicate. split; [done|]. split; [done|].
    by exists (SetResult 1).
  - intros [= <- <- <-]. simpl. rewrite getTriggered_lor. split; [done|]. split; [done|].
    by exists Void.
Qed.

Lemma finish_effect l n l' ps nx : holds l -> getTriggered (state_ l) = true ->
  get_finish l n false (Cond.getError (full_ l)) = Some (l', ps, nx) ->
  l' = l /\ ps = [] /\ nx = Return (outcome n).
Proof.
  unfold holds, outcome, get_finish. intros Hh Hg. rewrite Hg in Hh.
  destruct w as [from| | | |code|]; simpl in Hw; try done.
  - destruct Hh as [Hv ->]. simpl. unfold copy_out. destruct (n <=? length (value_ l))%nat; [|done].
    simpl. intros [= <- <- <-]. by rewrite Hv.
  - rewrite Hh. simpl. rewrite (proj2 (nz_status code)) by done. by intros [= <- <- <-].
Qed.

Lemma outcome_ok l k : thread_ok l (Finished (outcome k)).
Proof. unfold thread_ok. destruct (outcome k) eqn:E; try done. by exists k. Qed.

Lemma future_read_effect p t l l' ps n : thread_ok l (At p) -> reads p -> holds l ->
  future_segment p t l = Some (l', ps, n) ->
  holds l' /\ getTriggered (state_ l') = getTriggered (state_ l) /\ thread_ok l' (becomes n)
  /\ (ps <> [] -> getTriggered (state_ l) = true) /\ writing (becomes n) = 0.
Proof.
  intros Hth Hr Hh. destruct p as [from|k r|k r|a|code|]; simpl in Hr; try done; simpl.
  - destruct Hr as [-> Hk]. destruct (getTriggered (state_ l)) eqn:Hg.
    + intros (-> & -> & ->)%finish_effect; [|done..]. rewrite Hg. repeat split; try done.
      apply outcome_ok.
    + pose proof Hh as Hh'. unfold holds in Hh'. rewrite Hg in Hh'. destruct Hh' as [Hv [q Hq]].
      rewrite Hq. simpl. intros [= <- <- <-]. unfold holds; simpl. rewrite Hg.
      repeat split; try done. by eexists.
  - destruct Hth as [_ Hg]. destruct Hr as [-> Hk].
    intros (-> & -> & ->)%finish_effect; [|done..]. rewrite Hg. repeat split; try done.
    apply outcome_ok.
  - pose proof Hh as Hh'. unfold holds in Hh'. destruct (getTriggered (state_ l)) eqn:Hg; simpl.
    + destruct (nz _); intros [= <- <- <-]; rewrite Hg; done.
    + destruct Hh' as [Hv [q Hq]]. rewrite Hq. simpl. intros [= <- <- <-]. unfold holds; simpl.
      rewrite Hg. repeat split; try done. by eexists.
Qed.

Lemma write_inv_step y y' t : write_inv y -> step y t = Some y' -> write_inv y'.
Proof.
  intros [Hwr Hh Hth] Hs. destruct (step_inv _ _ _ Hs) as (p & l' & ps & n & Et & Es & _ & Hlco).
  pose proof (Hth t _ Et) as Hp.
  assert (Hcase : p = w \/ reads p) by (destruct p; simpl in *; tauto).
  assert (Heff : holds l' /\ (getTriggered (state_ (lco y)) = true -> getTriggered (state_ l') = true)
            /\ thread_ok l' (becomes n) /\ (ps <> [] -> getTriggered (state_ l') = true)
            /\ tsum writing (threads y') = Z.b2z (negb (getTriggered (state_ l')))).
  { rewrite (tsum_step writing ltac:(done) _ _ _ _ _ _ _ Et Es Hs), Hwr. simpl in Es.
    destruct Hcase as [->|Hr].
    - pose proof (tsum_ge writing _ t _ ltac:(intros; apply writing_nonneg) Et) as Hge.
      rewrite Hwr, writing_writer in Hge. destruct (getTriggered (state_ (lco y))) eqn:Hg; [done|].
      destruct (future_write_effect t (lco y) l' ps n Hh Hg Es) as (Hh' & Hg' & r & -> & Hr).
      rewrite Hg'. repeat split; try done; [by destruct r|]. rewrite writing_writer. done.
    - destruct (future_read_effect p t (lco y) l' ps n Hp Hr Hh Es) as (Hh' & Hg' & Hn & Hps & Hwn).
      rewrite Hg'. repeat split; try done. rewrite Hwn.
      assert (writing (At p) = 0) as -> by (by destruct p). lia. }
  destruct Heff as (Hh' & Hmono & Hn & Hps & Hsum). split; rewrite ?Hlco; [done|done|].
  eapply step_forall; [exact Et|exact Es|exact Hs|exact Hth| |done|].
  - intros th. unfold thread_ok. destruct th as [[]|[]|[]]; naive_solver.
  - intros qc Hne. unfold thread_ok. destruct qc; try done. auto.
Qed.

Lemma write_start_inv y : write_start y -> write_inv y /\ fresh y.
Proof.
  intros (Hl & Hsum & Ha & Hth). split.
  - split; rewrite Hl; simpl; [done| |].
    + unfold holds; simpl. by eauto.
    + intros t th Ht. destruct (Hth t th Ht) as (p & -> & [->|[Hr Hc]]).
      * unfold thread_ok. destruct w; try done; by left.
      * unfold thread_ok. destruct p; try done; by right.
  - split; [by rewrite Hl|]. split; [|split; [done|]].
    + split; [by rewrite Hl|]. intros t th p Ht Hp. destruct (Hth t th Ht) as (q & -> & Hq).
      injection Hp as <-. destruct Hq as [->|[Hr _]]; [by destruct w|by destruct q].
    + intros t th Ht. destruct (Hth t th Ht) as (p & -> & _). by exists p.
Qed.

Lemma write_reachable y0 y : write_start y0 -> reachable y0 y -> write_inv y.
Proof.
  intros Hs. apply reachable_inv; [by apply write_start_inv|]. intros y1 y2 t. apply write_inv_step.
Qed.

Lemma write_progress y t p : write_inv y -> threads y !! t = Some (At p) -> step y t <> None.
Proof.
  intros Hi Ht. pose proof (inv_threads _ Hi t _ Ht) as Hp. pose proof (inv_holds _ Hi) as Hh.
  assert (Hcase : p = w \/ reads p) by (destruct p; simpl in *; tauto).
  unfold step. rewrite Ht.
  assert (Hseg : future_segment p t (lco y) <> None).
  { assert (Hlen : length (value_ (lco y)) = size \/ nz (Cond.getError (full_ (lco y))) = true).
    { unfold holds in Hh. destruct (getTriggered _).
      - destruct w as [from| | | |code|]; simpl in Hw; try done.
        + left. destruct Hh as [-> _]. rewrite length_app, length_replicate. lia.
        + right. rewrite Hh. by apply nz_status.
      - left. destruct Hh as [-> _]. apply length_replicate. }
    assert (Hfin : forall k, (k <= size)%nat ->
              get_finish (lco y) k false (Cond.getError (full_ (lco y))) <> None).
    { intros k Hk. unfold get_finish, copy_out. destruct Hlen as [->| ->]; [|done].
      rewrite (proj2 (Nat.leb_le _ _) Hk). by destruct (nz _). }
    destruct Hcase as [->|Hr].
    - pose proof (tsum_ge writing _ t _ ltac:(intros; apply writing_nonneg) Ht) as Hge.
      rewrite (inv_writing _ Hi), writing_writer in Hge. unfold holds in Hh.
      destruct (getTriggered (state_ (lco y))) eqn:Hg; [done|].
      destruct w as [from| | | |code|]; simpl in Hw; try done; simpl.
      + rewrite nz_triggered, Hg. unfold copy_in. destruct Hh as [-> [q ->]].
        rewrite length_replicate, (proj2 (Nat.leb_le _ _) Hw). done.
      + by destruct (Cond.signalError _ _).
    - destruct p as [from|k r|k r|a|code|]; simpl in Hr; try done; simpl.
      + destruct Hr as [-> Hk]. destruct (getTriggered _) eqn:Hg; [by apply Hfin|].
        unfold holds in Hh. rewrite Hg in Hh. by destruct Hh as [_ [q ->]].
      + destruct Hr as [-> Hk]. by apply Hfin.
      + destruct (negb _); [by destruct (Cond.push _ _)|by destruct (nz _)]. }
  simpl. destruct (future_segment p t (lco y)) as [[[? ?] ?]|]; done.
Qed.

Lemma write_drained y : write_inv y -> (forall t p, threads y !! t <> Some (At p)) ->
  Cond.waiters (full_ (lco y)) = [].
Proof.
  intros [Hwr Hh Hth] Hno.
  assert (Hz : tsum writing (threads y) = 0).
  { apply tsum_zero. intros t [p|p|r] Ht; try done; [by destruct (Hno t p)|].
    specialize (Hth t _ Ht). by destruct p. }
  rewrite Hz in Hwr. unfold holds in Hh. destruct (getTriggered _); [|done].
  destruct w; try done; [by destruct Hh as [_ ->]|by rewrite Hh].
Qed.

(** The segments a thread can still run. *)
Definition weight (th : thread pc result) : Z :=
  match point th with Some (ResumeGet _ _) => 1 | Some _ => 2 | None => 0 end.

Lemma future_weight_segment p t l l' ps n : future_segment p t l = Some (l', ps, n) ->
  weight (becomes n) < weight (At p).
Proof. intros H. unfold weight. future_cases l H; lia. Qed.

Lemma future_weight_range th : 0 <= weight th <= 2.
Proof. unfold weight. by destruct (point th) as [[]|]. Qed.

(** *** What a reader asked for *)

(** A thread that was started to get [n] bytes. *)
Definition asked (n : nat) (th : thread pc result) : Prop :=
  match th with
  | At (CallGet k _) | At (ResumeGet k _) | Parked (ResumeGet k _) => k = n
  | Finished r => r = outcome n
  | _ => False
  end.

Lemma asked_segment n p t l l' ps nx : asked n (At p) -> thread_ok l (At p) -> holds l ->
  future_segment p t l = Some (l', ps, nx) -> asked n (becomes nx).
Proof.
  intros Ha Hp Hh. assert (Hcase : p = w \/ reads p) by (destruct p; simpl in *; tauto).
  destruct p as [|k r|k r| | |]; try done; simpl in Ha; subst k; simpl.
  - assert (r = false) as ->. { destruct Hcase as [E|[-> _]]; [|done]. by rewrite <- E in Hw. }
    destruct (getTriggered (state_ l)) eqn:Hg; [by intros (_ & _ & ->)%finish_effect|].
    unfold holds in Hh. rewrite Hg in Hh. destruct Hh as [_ [q ->]]. by intros [= <- <- <-].
  - destruct Hp as [[-> _] Hg]. by intros (_ & _ & ->)%finish_effect.
Qed.

Lemma asked_step n u y y' t : write_inv y -> step y t = Some y' ->
  (exists th, threads y !! u = Some th /\ asked n th) -> exists th, threads y' !! u = Some th /\ asked n th.
Proof.
  intros I Hs (th & Hu & Ha). destruct (step_inv _ _ _ Hs) as (p & l' & ps & nx & Et & Es & _).
  rewrite (step_lookup _ _ _ _ _ _ _ u Et Es Hs).
  assert (Hwake : forall th, asked n th -> exists th',
    match Some th with Some (Parked qc) => if decide (u ∈ ps) then Some (At qc) else Some (Parked qc) | o => o end = Some th' /\ asked n th').
  { intros [pc|qc|r] H; [by eexists| |by eexists]. case_decide; eexists; (split; [done|]); [|done]. by destruct qc. }
  destruct (decide (u = t)) as [->|].
  - rewrite Et in Hu. injection Hu as <-. apply Hwake.
    eapply asked_segment; [done|by apply (inv_threads _ I t)|apply (inv_holds _ I)|done].
  - rewrite Hu. by apply Hwake.
Qed.

(** ** Properties *)

(** C21: single assignment.  In a system with one writer, which sets a value or an error,
    and any readers, a thread that was started to get [n] bytes and has returned, in any
    interleaving, has the writer's outcome: the error, or success with the first [n] bytes
    of the value written. *)
Theorem future_get_outcome y0 y t n reset r : write_start y0 -> reachable y0 y ->
  threads y0 !! t = Some (At (CallGet n reset)) -> threads y !! t = Some (Finished r) -> r = outcome n.
Proof.
  intros H0 Hr Ht Hf.
  assert (H : write_inv y /\ exists th, threads y !! t = Some th /\ asked n th).
  { clear Hf. induction Hr as [|y y' u Hr [I IH] Hs]; [split; [by apply write_start_inv|by eexists]|].
    split; [by eapply write_inv_step|by eapply asked_step]. }
  destruct H as (_ & th & Hth & Ha). rewrite Hf in Hth. by injection Hth as <-.
Qed.

(** A future's readers all finish.  Every schedule of a system with one writer runs
    at most two segments per thread, none of them fails, and when nothing can run
    every reader has returned. *)
Theorem future_all_finish y0 ts y : write_start y0 -> run y0 ts = Some y ->
  Z.of_nat (length ts) <= 2 * Z.of_nat (base.size (threads y0))
  /\ ((forall t, step y t = None) ->
      forall t th, threads y !! t = Some th -> exists r, th = Finished r).
Proof.
  intros H0 Hrun. pose proof (run_reachable _ _ _ _ (reach_start y0) Hrun) as Hr.
  pose proof (write_reachable _ _ H0 Hr) as Hi. destruct (write_start_inv _ H0) as [_ Hf]. split.
  - apply (run_bound (fun _ => True) weight) with (y' := y); try done;
      eauto using future_weight_range, future_weight_segment.
  - apply (all_finished y0); [done..| |].
    + intros t p. by apply write_progress.
    + by apply write_drained.
Qed.

End OneWriter.

(** ** Witnesses: a writer, two readers and an attached parcel *)

Definition demo : sys Future pc result :=
  mkSys (new 4) {[ 1 := At (CallSet [7; 8; 9]); 2 := At (CallGet 2 false);
                   3 := At (CallGet 4 false); 4 := At (CallAttach 100) ]} [].

Lemma future_demo_start : write_start (CallSet [7; 8; 9]) 4 demo.
Proof.
  split; [done|]. split; [done|]. split.
  - intros t th p q Ht Hp Ha. unfold demo in *; simpl in *.
    repeat (apply lookup_insert_Some in Ht as [[<- <-]|[_ Ht]]; [by simplify_eq/=|]).
    apply lookup_singleton_Some in Ht as [<- <-]. by simplify_eq/=.
  - intros t th Ht. unfold demo in Ht; simpl in Ht.
    repeat (apply lookup_insert_Some in Ht as [[<- <-]|[_ Ht]];
      [eexists; split; [done|]; (by left) || (right; simpl; split; [split; [done|lia]|done])|]).
    apply lookup_singleton_Some in Ht as [<- <-]. eexists. split; [done|]. by right.
Qed.

Lemma future_get_outcome_witness : exists y,
  run demo [3; 4; 1; 2; 3] = Some y
  /\ threads y !! 2 = Some (Finished (GetResult HPX_SUCCESS [7; 8]))
  /\ GetResult HPX_SUCCESS [7; 8] = outcome (CallSet [7; 8; 9]) 4 2.
Proof.
  destruct (run demo [3; 4; 1; 2; 3]) as [y|] eqn:E; [|by vm_compute in E].
  assert (H2 : threads y !! 2 = Some (Finished (GetResult HPX_SUCCESS [7; 8])))
    by (vm_compute in E; by simplify_eq).
  exists y. split; [done|]. split; [done|].
  apply (future_get_outcome (CallSet [7; 8; 9]) 4 ltac:(simpl; lia) demo y 2 2 false _ future_demo_start
    (run_reachable _ _ _ _ (reach_start demo) E) eq_refl H2).
Defined.

Lemma future_all_finish_witness : exists y,
  run demo [3; 4; 1; 2; 3] = Some y /\ forall t th, threads y !! t = Some th ->
    exists r, th = Finished r.
Proof.
  destruct (run demo [3; 4; 1; 2; 3]) as [y|] eqn:E; [|by vm_compute in E].
  exists y. split; [done|].
  apply (future_all_finish (CallSet [7; 8; 9]) 4 ltac:(simpl; lia) demo _ y future_demo_start E).
  intros t. apply stuck_step. vm_compute in E. by simplify_eq.
Defined.
