(* ===== verification/Semaphore.v ===== *)
(** * Semaphores: [libhpx/scheduler/lco/Semaphore.cpp]

    [set] increments the counter and wakes one waiter when the counter was zero; [wait]
    waits while the counter is zero and then decrements it.  The counter is exact in
    every interleaving; waking only on the step from zero loses a wakeup when two sets
    come before the first waiter runs. *)

From S2P Require Import Prelude Condition Monitor Lco.

Record Semaphore := mkSemaphore {
  nonZero_ : cond;
  count_ : Z;
  init_ : Z;
}.

Definition new (count : Z) : Semaphore := mkSemaphore (Waiting []) count count.

(** [ResumeWait] is [wait] after [waitFor].  [get] is [wait]; [attach] is an error. *)
Inductive pc :=
| CallSet
| CallWait (reset : bool)
| ResumeWait (reset : bool)
| CallAttach (p : Z)
| CallError (code : Z)
| CallReset.

Inductive result :=
| SetResult (r : Z)
| WaitResult (status : Z)
| Void.

(** The new semaphore and the parcels launched. *)
Definition resetNonZero (l : Semaphore) : option (Semaphore * list Z) :=
  let (c, ps) := Cond.signalAll l.(nonZero_) in
  c ← Cond.reset c;
  Some (mkSemaphore c l.(init_) l.(init_), ps).

(** The loop of [wait], from its test on. *)
Definition wait_loop (l : Semaphore) (t : Z) (reset : bool)
    : option (Semaphore * list Z * next pc result) :=
  if l.(count_) =? 0 then
    waitFor l.(nonZero_) (fun c => mkSemaphore c l.(count_) l.(init_)) t (ResumeWait reset)
      (fun status => Some (l, [], Return (WaitResult status)))
  else
    let l := mkSemaphore l.(nonZero_) (u32 (l.(count_) - 1)) l.(init_) in
    if reset then
      '(l, ps) ← resetNonZero l;
      Some (l, ps, Return (WaitResult HPX_SUCCESS))
    else Some (l, [], Return (WaitResult HPX_SUCCESS)).

Definition sema_segment (p : pc) (t : Z) (l : Semaphore)
    : option (Semaphore * list Z * next pc result) :=
  match p with
  | CallSet =>
    let count := u32 (l.(count_) + 1) in
    if l.(count_) =? 0 then
      let (c, ps) := Cond.signal l.(nonZero_) in
      Some (mkSemaphore c count l.(init_), ps, Return (SetResult 1))
    else Some (mkSemaphore l.(nonZero_) count l.(init_), [], Return (SetResult 1))
  | CallWait reset => wait_loop l t reset
  | ResumeWait reset =>
    let status := Cond.getError l.(nonZero_) in
    if nz status then Some (l, [], Return (WaitResult status)) else wait_loop l t reset
  | CallAttach p => None
  | CallError code =>
    let (c, ps) := Cond.signalError l.(nonZero_) code in
    Some (mkSemaphore c l.(count_) l.(init_), ps, Return Void)
  | CallReset =>
    '(l, ps) ← resetNonZero l;
    Some (l, ps, Return Void)
  end.

#[export] Instance sema_monitor : Monitor Semaphore pc result := {
  segment := sema_segment;
  queued l := Cond.waiters l.(nonZero_);
  attaches p := None;
}.

(** ** The queue laws *)

Definition sema_point_ok (p : pc) : Prop :=
  match p with CallError code => code <> HPX_SUCCESS | _ => True end.

Ltac sema_cases l H :=
  unfold sema_segment, wait_loop, resetNonZero in H;
  destruct l as [[[|x q]|code] c i]; segment_cases H.

Lemma sema_queues p t l l' ps n : cond_ok (nonZero_ l) -> sema_point_ok p ->
  sema_segment p t l = Some (l', ps, n) ->
  queue_law p attaches t (queued l) (queued l') ps n.
Proof. intros Hok Hp H. sema_cases l H; queue_solve. Qed.

Lemma sema_ok p t l l' ps n : cond_ok (nonZero_ l) -> sema_point_ok p ->
  sema_segment p t l = Some (l', ps, n) ->
  cond_ok (nonZero_ l') /\ match n with
    | Park q | Yield q => sema_point_ok q /\ attaches q = None
    | Return _ => True
    end.
Proof. intros Hok Hp H. by sema_cases l H. Qed.

#[export] Instance sema_laws : MonitorLaws Semaphore pc result := {
  state_ok l := cond_ok (nonZero_ l);
  point_ok := sema_point_ok;
  segment_ok := sema_ok;
  segment_queues := sema_queues;
}.

(** ** Counting *)

Abbreviation system := (sys Semaphore pc result).

(** The calls of a counting system: no resets. *)
Definition counts (p : pc) : Prop :=
  match p with
  | CallWait reset | ResumeWait reset => reset = false
  | CallError code => code <> HPX_SUCCESS
  | CallAttach _ | CallReset => False
  | CallSet => True
  end.

(** Increments done less decrements done, and increments still to come. *)
Definition balance (th : thread pc result) : Z :=
  match th with
  | Finished (SetResult _) => 1
  | Finished (WaitResult status) => if status =? HPX_SUCCESS then -1 else 0
  | _ => 0
  end.

Definition to_set (th : thread pc result) : Z :=
  match point th with Some CallSet => 1 | _ => 0 end.

Definition count_start (y : system) : Prop :=
  exists init, lco y = new init /\ 0 <= init /\ init + tsum to_set (threads y) < 2 ^ 32
    /\ forall t th, threads y !! t = Some th -> exists p, th = At p /\ counts p.

Record count_inv (init : Z) (y : system) : Prop := {
  inv_balance : count_ (lco y) = init + tsum balance (threads y);
  inv_room : 0 <= count_ (lco y) /\ count_ (lco y) + tsum to_set (threads y) < 2 ^ 32;
  inv_cond : cond_ok (nonZero_ (lco y));
  inv_counts : forall t th, threads y !! t = Some th ->
    match point th with Some p => counts p | None => True end;
}.

Lemma sema_segment_effect p t l l' ps n : counts p -> 0 <= count_ l -> cond_ok (nonZero_ l) ->
  count_ l + to_set (At p) < 2 ^ 32 ->
  sema_segment p t l = Some (l', ps, n) ->
  0 <= count_ l' /\ count_ l' = count_ l + balance (becomes n)
  /\ count_ l' + to_set (becomes n) <= count_ l + to_set (At p)
  /\ match point (becomes n) with Some q => counts q | None => True end.
Proof.
  intros Hp Hc Hok Hr H. unfold to_set in *. sema_cases l H; zbool; simpl in *; try lia.
  all: rewrite ?wrap_small by lia; rewrite ?(proj2 (Z.eqb_neq code _)) by done.
  all: try (split; [lia|]; split; [lia|]; split; [lia|done]).
Qed.

Lemma sema_to_set_nonneg th : 0 <= to_set th.
Proof. unfold to_set. by destruct (point th) as [[]|]. Qed.

Lemma count_inv_step init y y' t : count_inv init y -> step y t = Some y' -> count_inv init y'.
Proof.
  intros [Hb [Hc Hr] Hok Hp] Hs.
  destruct (step_inv _ _ _ Hs) as (p & l' & ps & n & Et & Es & _ & Hlco).
  pose proof (tsum_ge to_set _ t _ ltac:(intros; apply sema_to_set_nonneg) Et).
  destruct (sema_segment_effect p t (lco y) l' ps n) as (Hc' & Hb' & Hr' & Hn); try done.
  { by apply (Hp t _ Et). }
  { lia. }
  split; rewrite ?Hlco.
  - rewrite (tsum_step balance ltac:(done) _ _ _ _ _ _ _ Et Es Hs). simpl. lia.
  - rewrite (tsum_step to_set ltac:(done) _ _ _ _ _ _ _ Et Es Hs). lia.
  - eapply (sema_ok p t (lco y)); [done| |done]. specialize (Hp t _ Et). by destruct p.
  - by eapply (step_forall (fun th => match point th with Some p => counts p | None => True end)
                 (fun th => match point th with Some p => counts p | None => True end)).
Qed.

(** ** Properties *)

(** A semaphore counts.  In every interleaving of sets and waits without reset, the
    counter is its initial value plus the sets done less the waits that returned
    success, and it never goes below zero: no more waits succeed than the initial
    value and the sets allow. *)
Theorem sema_counts y0 y init : count_start y0 -> lco y0 = new init -> reachable y0 y ->
  count_ (lco y) = init + tsum balance (threads y) /\ 0 <= count_ (lco y).
Proof.
  intros (i & Hl & Hi & Hr & Hth) Hl' Hreach. rewrite Hl in Hl'. injection Hl' as ->.
  assert (Hinv : count_inv init y); [|by destruct Hinv as [? [? _] _ _]].
  apply (reachable_inv (count_inv init) y0); [|intros; by eapply count_inv_step|done].
  split; rewrite ?Hl; simpl; [|lia|done|].
  - assert (tsum balance (threads y0) = 0) as ->; [|lia]. apply tsum_zero. intros t th Ht.
    by destruct (Hth t th Ht) as (p & -> & _).
  - intros t th Ht. by destruct (Hth t th Ht) as (p & -> & Hp).
Qed.

(** Two waiters park; two sets wake only the first of them, which takes one of the two
    units: nothing can run any more, and the other waiter sleeps while the counter is
    one. *)
Lemma sema_lost_wakeup :
  let y0 : system := mkSys (new 0) {[ 1 := At (CallWait false); 2 := At (CallWait false);
                                      3 := At CallSet; 4 := At CallSet ]} [] in
  exists y, run y0 [1; 2; 3; 4; 2] = Some y /\ stuck y = true /\ count_ (lco y) = 1
    /\ threads y !! 1 = Some (Parked (ResumeWait false)).
Proof. vm_compute. by eexists. Qed.

(** ** Witness *)

Definition demo : system :=
  mkSys (new 1) {[ 1 := At (CallWait false); 2 := At (CallWait false); 3 := At CallSet ]} [].

Lemma sema_counts_witness : exists y, run demo [1; 2; 3] = Some y
  /\ count_ (lco y) = 1 + tsum balance (threads y).
Proof.
  destruct (run demo [1; 2; 3]) as [y|] eqn:E; [|by vm_compute in E].
  exists y. split; [done|]. apply (sema_counts demo y 1); [|done|].
  - exists 1. split; [done|]. split; [done|]. split; [done|]. intros t th Ht.
    unfold demo in Ht; simpl in Ht.
    repeat (apply lookup_insert_Some in Ht as [[<- <-]|[_ Ht]]; [by eexists|]).
    apply lookup_singleton_Some in Ht as [<- <-]. by eexists.
  - exact (run_reachable _ _ _ _ (reach_start demo) E).
Defined.
