(* ===== verification/GenCount.v ===== *)
(** * Generation counters: [libhpx/scheduler/lco/GenerationCounter.cpp]

    A counter whose readers wait for a generation.  The next [ninplace_] generations
    have conditions of their own, used round robin; later ones share the overflow
    condition, which every increment wakes.  The theorems show that a reader returns
    only when its generation has come, and is never asleep once it has. *)

From S2P Require Import Prelude Condition Monitor Lco.

Record GenerationCounter := mkGen {
  oflow_ : cond;
  gen_ : Z;
  inplace_ : list cond;
}.

(** [ninplace_] is the length of the condition array. *)
Definition ninplace_ (l : GenerationCounter) : Z := Z.of_nat (length l.(inplace_)).

Definition new (ninplace : nat) : GenerationCounter :=
  mkGen (Waiting []) 0 (replicate ninplace (Waiting [])).

(** Which condition a thread waits on. *)
Inductive cref := Inplace (k : nat) | Oflow.

Inductive pc :=
| CallSet
| CallGet
| CallWait
| ResumeWait
| CallWaitGen (i : Z)
| ResumeWaitGen (i : Z) (c : cref)
| CallAttach (p : Z)
| CallError (code : Z)
| CallReset.

#[export] Instance cref_eq_dec : EqDecision cref.
Proof. solve_decision. Defined.

#[export] Instance pc_eq_dec : EqDecision pc.
Proof. solve_decision. Defined.

Inductive result :=
| SetResult (r : Z)
| GetResult (gen : Z)
| WaitResult (status : Z)
| GenResult (i : Z) (status : Z)
| AttachResult (status : Z)
| Void.

Definition conditionAt (l : GenerationCounter) (c : cref) : option cond :=
  match c with Inplace k => l.(inplace_) !! k | Oflow => Some l.(oflow_) end.

Definition with_condition (l : GenerationCounter) (c : cref) (x : cond) : GenerationCounter :=
  match c with
  | Inplace k => mkGen l.(oflow_) l.(gen_) (<[k := x]> l.(inplace_))
  | Oflow => mkGen x l.(gen_) l.(inplace_)
  end.

(** The loops over the conditions of [error] and [reset]. *)
Fixpoint signal_errors (cs : list cond) (code : Z) : list cond * list Z :=
  match cs with
  | [] => ([], [])
  | c :: cs =>
    let (c, ps) := Cond.signalError c code in
    let (cs, qs) := signal_errors cs code in
    (c :: cs, ps ++ qs)
  end.

Fixpoint reset_all (cs : list cond) : option (list cond) :=
  match cs with
  | [] => Some []
  | c :: cs => c ← Cond.reset c; cs ← reset_all cs; Some (c :: cs)
  end.

(** The loop of [waitForGeneration], from its test on. *)
Definition wait_loop (l : GenerationCounter) (t i : Z)
    : option (GenerationCounter * list Z * next pc result) :=
  if l.(gen_) <? i then
    let inplace := i <? u64 (l.(gen_) + ninplace_ l) in
    let c := if inplace then Inplace (Z.to_nat (i mod ninplace_ l)) else Oflow in
    cond ← conditionAt l c;
    waitFor cond (with_condition l c) t (ResumeWaitGen i c)
      (fun status => Some (l, [], Return (GenResult i status)))
  else Some (l, [], Return (GenResult i (Cond.getError l.(oflow_)))).

Definition gen_segment (p : pc) (t : Z) (l : GenerationCounter)
    : option (GenerationCounter * list Z * next pc result) :=
  match p with
  | CallSet =>
    let i := u64 (l.(gen_) + 1) in
    let (oflow, ps) := Cond.signalAll l.(oflow_) in
    let l := mkGen oflow i l.(inplace_) in
    if nz (ninplace_ l) then
      let c := Inplace (Z.to_nat (i mod ninplace_ l)) in
      cond ← conditionAt l c;
      let (cond, qs) := Cond.signalAll cond in
      Some (with_condition l c cond, ps ++ qs, Return (SetResult 1))
    else Some (l, ps, Return (SetResult 1))
  | CallGet => Some (l, [], Return (GetResult l.(gen_)))
  | CallWait =>
    waitFor l.(oflow_) (with_condition l Oflow) t ResumeWait
      (fun status => Some (l, [], Return (WaitResult status)))
  | ResumeWait => Some (l, [], Return (WaitResult (Cond.getError l.(oflow_))))
  | CallWaitGen i => wait_loop l t i
  | ResumeWaitGen i c =>
    cond ← conditionAt l c;
    let status := Cond.getError cond in
    if nz status then Some (l, [], Return (GenResult i status)) else wait_loop l t i
  | CallAttach p =>
    let (oflow, status) := Cond.push l.(oflow_) p in
    Some (with_condition l Oflow oflow, [], Return (AttachResult status))
  | CallError code =>
    let (cs, ps) := signal_errors l.(inplace_) code in
    let (oflow, qs) := Cond.signalError l.(oflow_) code in
    Some (mkGen oflow l.(gen_) cs, ps ++ qs, Return Void)
  | CallReset =>
    cs ← reset_all l.(inplace_);
    oflow ← Cond.reset l.(oflow_);
    Some (mkGen oflow l.(gen_) cs, [], Return Void)
  end.

Definition waiters_all (cs : list cond) : list Z := concat (map Cond.waiters cs).

#[export] Instance gen_monitor : Monitor GenerationCounter pc result := {
  segment := gen_segment;
  queued l := Cond.waiters l.(oflow_) ++ waiters_all l.(inplace_);
  attaches p := match p with CallAttach q => Some q | _ => None end;
}.

(** ** The queue laws *)

Lemma signal_errors_queue cs code cs' ps : signal_errors cs code = (cs', ps) ->
  ps ++ waiters_all cs' ≡ₚ waiters_all cs.
Proof.
  revert cs' ps. induction cs as [|c cs IH]; intros cs' ps; simpl; [by intros [= <- <-]|].
  destruct (Cond.signalError c code) as [c1 ps1] eqn:E. destruct (signal_errors cs code) as [cs1 qs].
  intros [= <- <-]. specialize (IH _ _ eq_refl). apply signalError_queue in E. simpl.
  unfold waiters_all in *. simpl. rewrite <- IH, <- E. solve_Permutation.
Qed.

Lemma reset_all_queue cs cs' : reset_all cs = Some cs' -> waiters_all cs' = [] /\ waiters_all cs = [].
Proof.
  revert cs'. induction cs as [|c cs IH]; intros cs'; simpl; [by intros [= <-]|].
  destruct (Cond.reset c) as [c1|] eqn:E; [|done]. apply reset_queue in E as [E1 E2]. simpl.
  destruct (reset_all cs) as [cs1|]; [|done]. destruct (IH _ eq_refl) as [H1 H2].
  intros [= <-]. unfold waiters_all in *. simpl. by rewrite E1, E2, H1, H2.
Qed.

(** Replacing one condition of the array. *)
Lemma waiters_all_insert cs k c c' : cs !! k = Some c ->
  waiters_all (<[k := c']> cs) ++ Cond.waiters c ≡ₚ waiters_all cs ++ Cond.waiters c'.
Proof.
  revert k. induction cs as [|d cs IH]; intros [|k]; simpl; try done; unfold waiters_all in *; simpl.
  - intros [= ->]. solve_Permutation.
  - intros Hk. rewrite <- !app_assoc. by rewrite (IH k Hk).
Qed.

Definition gen_ok (l : GenerationCounter) : Prop := cond_ok l.(oflow_) /\ Forall cond_ok l.(inplace_).

Definition gen_point_ok (p : pc) : Prop :=
  match p with CallError code => code <> HPX_SUCCESS | _ => True end.

Lemma conditionAt_ok l c x : gen_ok l -> conditionAt l c = Some x -> cond_ok x.
Proof.
  intros [Ho Hi]. destruct c as [k|]; simpl; [|by intros [= <-]].
  rewrite Forall_lookup in Hi. apply Hi.
Qed.

Lemma with_condition_ok l c x : gen_ok l -> cond_ok x -> gen_ok (with_condition l c x).
Proof.
  intros [Ho Hi] Hx. destruct c as [k|]; split; simpl; try done. by apply Forall_insert.
Qed.

Lemma with_condition_queued l c x x' : conditionAt l c = Some x ->
  queued (with_condition l c x') ++ Cond.waiters x ≡ₚ queued l ++ Cond.waiters x'.
Proof.
  destruct c as [k|]; simpl.
  - intros Hk. rewrite <- !app_assoc. by rewrite (waiters_all_insert _ k x x' Hk).
  - intros [= ->]. solve_Permutation.
Qed.

(** Waiting on a condition of the counter. *)
Lemma wait_on_law l c x t (p q : pc) k l' ps (n : next pc result) : gen_ok l -> conditionAt l c = Some x ->
  (forall status, exists r, k status = Some (l, [], Return r)) ->
  waitFor x (with_condition l c) t q k = Some (l', ps, n) ->
  queue_law p attaches t (queued l) (queued l') ps n
  /\ gen_ok l' /\ (n = Park q \/ exists r, n = Return r).
Proof.
  intros Hok Hc Hk H. pose proof (conditionAt_ok _ _ _ Hok Hc) as Hx.
  apply waitFor_inv in H as [(w & -> & [= -> -> ->])|(code & -> & Hcode & Hr)]; [| |done].
  - split; [|split; [by apply with_condition_ok|by left]].
    pose proof (with_condition_queued l c _ (Waiting (t :: w)) Hc) as Hq. simpl in Hq.
    assert (Hperm : queued (with_condition l c (Waiting (t :: w))) ≡ₚ t :: queued l).
    { apply (Permutation_app_inv_r w). rewrite Hq. solve_Permutation. }
    apply law_park; [done|]. rewrite Hperm. by apply elem_of_cons; left.
  - destruct (Hk code) as [r Hr']. rewrite Hr' in Hr. injection Hr as <- <- <-.
    split; [by apply law_signal|]. split; [done|]. right. by exists r.
Qed.

Lemma wait_loop_law l t i p l' ps n : gen_ok l -> wait_loop l t i = Some (l', ps, n) ->
  queue_law p attaches t (queued l) (queued l') ps n
  /\ gen_ok l' /\ ((exists c, n = Park (ResumeWaitGen i c)) \/ exists r, n = Return r).
Proof.
  intros Hok. unfold wait_loop. destruct (gen_ l <? i).
  - set (c := if i <? _ then _ else _). destruct (conditionAt l c) as [x|] eqn:Hc; [|done].
    cbn [mbind option_bind]. intros H.
    edestruct (wait_on_law l c x t p) as (? & ? & [|]); [done|exact Hc| |exact H|by eauto..].
    by eexists.
  - intros [= <- <- <-]. split; [by apply law_signal|]. split; [done|]. right. by eexists.
Qed.

Lemma signal_errors_ok cs code cs' ps : code <> HPX_SUCCESS -> Forall cond_ok cs ->
  signal_errors cs code = (cs', ps) -> Forall cond_ok cs'.
Proof.
  intros Hc. revert cs' ps. induction cs as [|c cs IH]; intros cs' ps; simpl; [by intros _ [= <- <-]|].
  intros [Hx Hcs]%Forall_cons. destruct (signal_errors cs code) as [cs1 qs].
  specialize (IH _ _ Hcs eq_refl). destruct c; simpl; intros [= <- <-]; by constructor.
Qed.

Lemma reset_all_ok cs cs' : reset_all cs = Some cs' -> Forall cond_ok cs'.
Proof.
  revert cs'. induction cs as [|c cs IH]; intros cs'; simpl; [intros [= <-]; constructor|].
  destruct (Cond.reset c) as [c1|] eqn:E; [|done]. simpl. destruct (reset_all cs); [|done].
  intros [= <-]. constructor; [|by apply IH]. by destruct c as [[]|]; simplify_eq/=.
Qed.

Lemma gen_segment_law p t l l' ps n : gen_ok l -> gen_point_ok p ->
  gen_segment p t l = Some (l', ps, n) ->
  queue_law p attaches t (queued l) (queued l') ps n /\ gen_ok l'
  /\ match n with
     | Park ResumeWait | Park (ResumeWaitGen _ _) | Return _ => True
     | _ => False
     end.
Proof.
  intros Hok Hp. destruct p as [| | | |i|i c|a|code|]; cbn [gen_segment].
  - destruct (Cond.signalAll (oflow_ l)) as [o os] eqn:Eo.
    assert (Hok1 : gen_ok (mkGen o (u64 (gen_ l + 1)) (inplace_ l))).
    { destruct Hok. split; [|done]. by destruct (oflow_ l); simplify_eq/=. }
    apply signalAll_queue in Eo.
    set (l1 := mkGen _ _ _) in *. set (c := Inplace _). destruct (nz _).
    + destruct (conditionAt l1 c) as [x|] eqn:Hc; [|done]. cbn [mbind option_bind].
      destruct (Cond.signalAll x) as [x' xs] eqn:Ex. intros [= <- <- <-].
      pose proof (conditionAt_ok _ _ _ Hok1 Hc) as Hx.
      assert (Hx' : cond_ok x') by (by destruct x; simplify_eq/=).
      apply signalAll_queue in Ex. split; [|split; [by apply (with_condition_ok l1 c x')|done]].
      apply law_signal; [|done]. apply (Permutation_app_inv_r (Cond.waiters x)).
      change (queued (mkGen _ _ _)) with (queued (with_condition l1 c x')).
      rewrite <- app_assoc, (with_condition_queued l1 c x x' Hc). simpl.
      rewrite <- Eo, <- Ex. solve_Permutation.
    + intros [= <- <- <-]. split; [|done]. apply law_signal; [|done]. simpl. rewrite <- Eo.
      solve_Permutation.
  - intros [= <- <- <-]. split; [by apply law_signal|done].
  - intros H. edestruct (wait_on_law l Oflow (oflow_ l) t CallWait) as (? & ? & Hn);
      [done|done| |exact H|]; [by eexists|]. destruct Hn as [->|[r ->]]; eauto.
  - intros [= <- <- <-]. split; [by apply law_signal|done].
  - intros (? & ? & [[c ->]|[r ->]])%(wait_loop_law _ _ _ (CallWaitGen i)); eauto.
  - destruct (conditionAt l c) as [x|]; [|done]. cbn [mbind option_bind]. destruct (nz _).
    + intros [= <- <- <-]. split; [by apply law_signal|done].
    + intros (? & ? & [[d ->]|[r ->]])%(wait_loop_law _ _ _ (ResumeWaitGen i c)); eauto.
  - destruct (Cond.push (oflow_ l) a) as [o e] eqn:E. intros [= <- <- <-].
    destruct Hok as [Ho Hi]. apply push_queue in E as [(_ & Hq & Ho')|[_ ->]]; [| |done].
    + split; [|done]. apply (law_attach _ _ _ _ _ _ a); [|done|done]. simpl. by rewrite Hq.
    + split; [by apply law_signal|done].
  - destruct (signal_errors _ _) as [cs cps] eqn:Ec. destruct (Cond.signalError _ _) as [o os] eqn:Eo.
    intros [= <- <- <-]. destruct Hok as [Ho Hi]. split; [|split; [split; simpl|done]].
    + apply signal_errors_queue in Ec. apply signalError_queue in Eo.
      apply law_signal; [|done]. simpl. rewrite <- Ec, <- Eo. solve_Permutation.
    + by destruct (oflow_ l); simplify_eq/=.
    + by eapply signal_errors_ok.
  - destruct (reset_all _) as [cs|] eqn:Ec; [|done]. simpl.
    destruct (Cond.reset _) as [o|] eqn:Eo; [|done]. simpl. intros [= <- <- <-].
    pose proof (reset_all_ok _ _ Ec). apply reset_all_queue in Ec as [Ec1 Ec2].
    split; [|split; [split; simpl|done]].
    + apply reset_queue in Eo as [Eo1 Eo2].
      apply law_signal; [|done]. simpl. by rewrite Ec1, Ec2, Eo1, Eo2.
    + by destruct (oflow_ l) as [[]|]; simplify_eq/=.
    + done.
Qed.

Lemma gen_segment_ok p t l l' ps n : gen_ok l -> gen_point_ok p ->
  gen_segment p t l = Some (l', ps, n) ->
  gen_ok l' /\ match n with
    | Park q | Yield q => gen_point_ok q /\ attaches q = None
    | Return _ => True
    end.
Proof.
  intros Hok Hp H. destruct (gen_segment_law _ _ _ _ _ _ Hok Hp H) as (_ & ? & Hn).
  split; [done|]. by destruct n as [|[]|].
Qed.

Lemma gen_queues p t l l' ps n : gen_ok l -> gen_point_ok p ->
  gen_segment p t l = Some (l', ps, n) -> queue_law p attaches t (queued l) (queued l') ps n.
Proof. intros Hok Hp H. by apply (gen_segment_law _ _ _ _ _ _ Hok Hp H). Qed.

#[export] Instance gen_laws : MonitorLaws GenerationCounter pc result := {
  state_ok := gen_ok;
  point_ok := gen_point_ok;
  segment_ok := gen_segment_ok;
  segment_queues := gen_queues;
}.

(** ** Where threads wait *)

Definition waits_on (p : pc) : option cref :=
  match p with
  | ResumeWait => Some Oflow
  | ResumeWaitGen _ c => Some c
  | _ => None
  end.

(** What a segment does to each condition: a new waiter is the thread that parks there
    or an attached parcel, and what it launches it takes from conditions it empties. *)
Definition placement (l l' : GenerationCounter) (p : pc) (t : Z) (ps : list Z)
    (n : next pc result) : Prop :=
  (forall c x', conditionAt l' c = Some x' -> exists x, conditionAt l c = Some x
     /\ forall u, u ∈ Cond.waiters x' -> u ∈ Cond.waiters x
          \/ (u = t /\ exists q, n = Park q /\ waits_on q = Some c) \/ attaches p = Some u)
  /\ (forall u, u ∈ ps -> exists c x x', conditionAt l c = Some x /\ u ∈ Cond.waiters x
        /\ conditionAt l' c = Some x' /\ Cond.waiters x' = []).

Lemma placement_id l p t n : placement l l p t [] n.
Proof. split; [by eauto|]. intros u Hu. by apply not_elem_of_nil in Hu. Qed.

Lemma conditionAt_with l c x c' x' : conditionAt (with_condition l c x) c' = Some x' ->
  exists y, conditionAt l c' = Some y /\ ((c' = c /\ x' = x) \/ (c' <> c /\ x' = y)).
Proof.
  destruct c as [k|], c' as [k'|]; simpl.
  - rewrite list_lookup_insert_Some. intros [(-> & -> & Hlt)|[Hne Hl]].
    + apply lookup_lt_is_Some in Hlt as [y Hy]. exists y. by auto.
    + exists x'. split; [done|]. right. split; [congruence|done].
  - intros [= <-]. eauto.
  - intros Hl. exists x'. auto.
  - intros [= <-]. eauto.
Qed.

Lemma conditionAt_with_eq l c x y : conditionAt l c = Some y ->
  conditionAt (with_condition l c x) c = Some x.
Proof.
  destruct c as [k|]; simpl; [|done]. intros Hl. apply list_lookup_insert_eq.
  by eapply lookup_lt_Some.
Qed.

Lemma placement_park l c x t p q : conditionAt l c = Some (Waiting x) -> waits_on q = Some c ->
  placement l (with_condition l c (Waiting (t :: x))) p t [] (Park q).
Proof.
  intros Hc Hq. split; [|intros u Hu; by apply not_elem_of_nil in Hu].
  intros c' x' (y & Hy & [[-> ->]|[Hne ->]])%conditionAt_with; exists y; (split; [done|]).
  - intros u Hu. simpl in Hu. apply elem_of_cons in Hu as [->|Hu]; [right; left; by eauto|].
    left. rewrite Hc in Hy. by injection Hy as <-.
  - by auto.
Qed.

Lemma wait_loop_placement l t i p l' ps n : gen_ok l -> wait_loop l t i = Some (l', ps, n) ->
  placement l l' p t ps n.
Proof.
  intros Hok. unfold wait_loop. destruct (gen_ l <? i).
  - set (c := if i <? _ then _ else _). destruct (conditionAt l c) as [x|] eqn:Hc; [|done].
    cbn [mbind option_bind]. intros H. apply waitFor_inv in H; [|by eapply conditionAt_ok].
    destruct H as [(w & -> & [= -> -> ->])|(code & _ & _ & [= <- <- <-])].
    + by apply placement_park.
    + apply placement_id.
  - intros [= <- <- <-]. apply placement_id.
Qed.

Lemma signal_errors_lookup cs code cs' ps : signal_errors cs code = (cs', ps) ->
  length cs' = length cs /\ (forall k x, cs' !! k = Some x -> Cond.waiters x = [])
  /\ forall u, u ∈ ps -> exists k x, cs !! k = Some x /\ u ∈ Cond.waiters x.
Proof.
  revert cs' ps. induction cs as [|c cs IH]; intros cs' ps; simpl.
  { intros [= <- <-]. split; [done|]. split; [done|]. intros u Hu. by apply not_elem_of_nil in Hu. }
  destruct (signal_errors cs code) as [cs1 qs]. destruct (IH _ _ eq_refl) as (Hlen & Hemp & Hin).
  destruct (Cond.signalError c code) as [c1 cps] eqn:E. intros [= <- <-].
  assert (Hc : Cond.waiters c1 = [] /\ cps = Cond.waiters c) by (by destruct c; simplify_eq/=).
  destruct Hc as [Hc1 ->]. simpl. split; [lia|]. split.
  - intros [|k] x; simpl; [by intros [= <-]|apply Hemp].
  - intros u [Hu|Hu]%elem_of_app; [by exists 0%nat, c|].
    destruct (Hin u Hu) as (k & x & ? & ?). by exists (S k), x.
Qed.

Lemma signalAll_empties c c' ps : Cond.signalAll c = (c', ps) ->
  Cond.waiters c' = [] /\ ps = Cond.waiters c.
Proof. by destruct c; intros [= <- <-]. Qed.

Lemma set_placement t l l' ps n : gen_segment CallSet t l = Some (l', ps, n) ->
  placement l l' CallSet t ps n.
Proof.
  cbn [gen_segment]. destruct (Cond.signalAll (oflow_ l)) as [o os] eqn:Eo.
  apply signalAll_empties in Eo as [Ho ->]. set (l1 := mkGen _ _ _).
  assert (H1 : placement l l1 CallSet t (Cond.waiters (oflow_ l)) n).
  { split.
    - intros [k|] x' Hx'; simpl in *; [by eauto|]. injection Hx' as <-. exists (oflow_ l).
      split; [done|]. rewrite Ho. intros u Hu. by apply not_elem_of_nil in Hu.
    - intros u Hu. by exists Oflow, (oflow_ l), o. }
  destruct (nz _); [|by intros [= <- <- <-]].
  set (c := Inplace _). destruct (conditionAt l1 c) as [x|] eqn:Hc; [|done]. cbn [mbind option_bind].
  destruct (Cond.signalAll x) as [x1 xs] eqn:Ex. apply signalAll_empties in Ex as [Hx1 ->].
  intros [= <- <- <-]. destruct H1 as [H1 H2].
  change (mkGen _ _ _) with (with_condition l1 c x1). split.
  - intros c' x' (z & Hz & [[-> ->]|[Hne ->]])%conditionAt_with.
    + destruct (H1 c z Hz) as (w & Hw & _). exists w. split; [done|]. rewrite Hx1.
      intros u Hu. by apply not_elem_of_nil in Hu.
    + by apply H1.
  - intros u [Hu|Hu]%elem_of_app.
    + by exists Oflow, (oflow_ l), o.
    + exists c, x, x1. split; [done|]. split; [done|]. split; [|done].
      by eapply conditionAt_with_eq.
Qed.

Lemma error_placement code t l l' ps n : gen_segment (CallError code) t l = Some (l', ps, n) ->
  placement l l' (CallError code) t ps n.
Proof.
  cbn [gen_segment]. destruct (signal_errors _ _) as [cs cps] eqn:Ec.
  apply signal_errors_lookup in Ec as (Hlen & Hemp & Hin).
  destruct (Cond.signalError (oflow_ l) code) as [o os] eqn:Eo.
  assert (Ho : Cond.waiters o = [] /\ os = Cond.waiters (oflow_ l))
    by (by destruct (oflow_ l); simplify_eq/=).
  destruct Ho as [Ho ->]. intros [= <- <- <-].
  assert (Hcs : forall k x, inplace_ l !! k = Some x -> exists x', cs !! k = Some x' /\ Cond.waiters x' = []).
  { intros k x Hk. destruct (lookup_lt_is_Some_2 cs k) as [x' Hx'].
    - rewrite Hlen. by eapply lookup_lt_Some.
    - exists x'. split; [done|]. by eapply Hemp. }
  split.
  - intros [k|] x' Hx'; simpl in *.
    + destruct (lookup_lt_is_Some_2 (inplace_ l) k) as [x Hx].
      { rewrite <- Hlen. by eapply lookup_lt_Some. }
      exists x. split; [done|]. rewrite (Hemp _ _ Hx'). intros u Hu. by apply not_elem_of_nil in Hu.
    + injection Hx' as <-. exists (oflow_ l). split; [done|]. rewrite Ho. intros u Hu.
      by apply not_elem_of_nil in Hu.
  - intros u [Hu|Hu]%elem_of_app; [|by exists Oflow, (oflow_ l), o].
    destruct (Hin u Hu) as (k & x & Hk & Hux). destruct (Hcs k x Hk) as (x' & Hx' & He).
    by exists (Inplace k), x, x'.
Qed.

Lemma gen_placement p t l l' ps n : gen_ok l -> p <> CallReset ->
  gen_segment p t l = Some (l', ps, n) -> placement l l' p t ps n.
Proof.
  intros Hok Hp. destruct p as [| | | |i|i c|a|code|].
  - apply set_placement.
  - cbn. intros [= <- <- <-]. apply placement_id.
  - cbn [gen_segment]. intros H. apply waitFor_inv in H; [|by apply Hok].
    destruct H as [(w & Hw & [= -> -> ->])|(code & _ & _ & [= <- <- <-])].
    + apply (placement_park l Oflow); simpl; congruence.
    + apply placement_id.
  - cbn. intros [= <- <- <-]. apply placement_id.
  - cbn [gen_segment]. by apply wait_loop_placement.
  - cbn [gen_segment]. destruct (conditionAt l c) as [x|]; [|done]. cbn [mbind option_bind].
    destruct (nz _); [intros [= <- <- <-]; apply placement_id|by apply wait_loop_placement].
  - cbn [gen_segment]. destruct (Cond.push (oflow_ l) a) as [o e] eqn:E. intros [= <- <- <-].
    apply push_queue in E as [(_ & Hq & _)|[_ ->]]; [| |by apply Hok].
    + split; [|intros u Hu; by apply not_elem_of_nil in Hu].
      intros [k|] x' Hx'; simpl in Hx'; [by eauto|]. injection Hx' as <-. exists (oflow_ l).
      split; [done|]. rewrite Hq. intros u [->|Hu]%elem_of_cons; auto.
    + destruct l. apply placement_id.
  - apply error_placement.
  - done.
Qed.

(** ** Generations *)

Abbreviation system := (sys GenerationCounter pc result).

(** The threads on a condition are parked there. *)
Definition placed (y : system) : Prop :=
  forall c x t th, conditionAt (lco y) c = Some x -> t ∈ Cond.waiters x ->
    threads y !! t = Some th -> exists p, th = Parked p /\ waits_on p = Some c.

Lemma placed_step y y' t p : sys_ok y -> attached_apart y -> placed y ->
  threads y !! t = Some (At p) -> p <> CallReset -> step y t = Some y' -> placed y'.
Proof.
  intros [Hok Hpts] Hapart Hpl Ht Hp Hs c x' u th Hx' Hu Hth.
  destruct (step_inv _ _ _ Hs) as (p' & l' & ps & n & Et & Es & _ & Hlco).
  rewrite Ht in Et. injection Et as <-. rewrite Hlco in Hx'.
  destruct (gen_placement _ _ _ _ _ _ Hok Hp Es) as [H1 H2].
  destruct (H1 c x' Hx') as (x & Hx & Hold). rewrite (step_lookup _ _ _ _ _ _ _ u Ht Es Hs) in Hth.
  destruct (Hold u Hu) as [Hux|[(-> & q & -> & Hq)|Ha]].
  - destruct (decide (u = t)) as [->|Hne].
    { destruct (Hpl c x t _ Hx Hux Ht) as (? & ? & _). done. }
    destruct (threads y !! u) as [uh|] eqn:Eu; [|done].
    destruct (Hpl c x u uh Hx Hux Eu) as (q & -> & Hq). exists q. split; [|done].
    case_decide as Hin; [|congruence]. exfalso.
    destruct (H2 u Hin) as (d & z & z' & Hz & Huz & Hz' & He).
    destruct (Hpl d z u _ Hz Huz Eu) as (q' & [= <-] & Hq'). assert (d = c) by congruence. subst d.
    rewrite Hx' in Hz'. injection Hz' as <-. rewrite He in Hu. by apply not_elem_of_nil in Hu.
  - rewrite decide_True in Hth by done. simpl in Hth. rewrite decide_False in Hth.
    { exists q. split; [congruence|done]. }
    intros Hin. destruct (H2 t Hin) as (d & z & _ & Hz & Htz & _).
    by destruct (Hpl d z t _ Hz Htz Ht) as (? & ? & _).
  - specialize (Hapart t (At p) p u Ht eq_refl Ha). destruct (decide (u = t)); [congruence|].
    rewrite Hapart in Hth. done.
Qed.

(** The calls of a running counter: no resets, generations of [unsigned long]. *)
Definition runs (p : pc) : Prop :=
  match p with
  | CallWaitGen i | ResumeWaitGen i _ => i ∈u 64
  | CallError code => code <> HPX_SUCCESS
  | CallReset => False
  | _ => True
  end.

Definition to_set (th : thread pc result) : Z :=
  match point th with Some CallSet => 1 | _ => 0 end.

(** What a thread may rely on at generation [g], with [n] conditions in place. *)
Definition thread_ok (g n : Z) (th : thread pc result) : Prop :=
  match th with
  | At p => runs p
  | Parked (ResumeWaitGen i c) => i ∈u 64 /\ g < i
      /\ match c with Inplace k => Z.of_nat k = i mod n /\ i < g + n | Oflow => True end
  | Parked p => runs p
  | Finished (GenResult i status) => status = HPX_SUCCESS -> i <= g
  | Finished _ => True
  end.

Definition gen_start (y : system) : Prop :=
  exists n, lco y = new n /\ tsum to_set (threads y) + Z.of_nat n < 2 ^ 64 /\ attached_apart y
    /\ forall t th, threads y !! t = Some th -> exists p, th = At p /\ runs p
         /\ match p with ResumeWait | ResumeWaitGen _ _ => False | _ => True end.

Record gen_inv (y : system) : Prop := {
  inv_room : 0 <= gen_ (lco y)
    /\ gen_ (lco y) + tsum to_set (threads y) + ninplace_ (lco y) < 2 ^ 64;
  inv_placed : placed y;
  inv_threads : forall t th, threads y !! t = Some th ->
    thread_ok (gen_ (lco y)) (ninplace_ (lco y)) th;
}.

Lemma wait_loop_thread l t i l' ps n : gen_ok l -> i ∈u 64 -> 0 <= gen_ l ->
  gen_ l + ninplace_ l < 2 ^ 64 -> wait_loop l t i = Some (l', ps, n) ->
  gen_ l' = gen_ l /\ ninplace_ l' = ninplace_ l /\ ps = []
  /\ thread_ok (gen_ l) (ninplace_ l) (becomes n).
Proof.
  intros Hok Hi Hg Hr. unfold wait_loop. destruct (Z.ltb_spec (gen_ l) i) as [Hlt|Hge].
  - rewrite wrap_small by (unfold ninplace_ in *; lia).
    set (c := if i <? _ then _ else _). destruct (conditionAt l c) as [x|] eqn:Hc; [|done].
    cbn [mbind option_bind]. intros H. apply waitFor_inv in H; [|by eapply conditionAt_ok].
    destruct H as [(w & -> & [= -> -> ->])|(code & _ & Hcode & [= <- <- <-])].
    + assert (Hl : gen_ (with_condition l c (Waiting (t :: w))) = gen_ l
                   /\ ninplace_ (with_condition l c (Waiting (t :: w))) = ninplace_ l).
      { unfold ninplace_. destruct c; simpl; [by rewrite length_insert|done]. }
      destruct Hl as [-> ->]. repeat split; try lia. unfold c.
      destruct (Z.ltb_spec i (gen_ l + ninplace_ l)); [|done]. split; [|lia].
      rewrite Z2Nat.id; [done|]. apply Z.mod_pos_bound. lia.
    + repeat split. simpl. done.
  - intros [= <- <- <-]. repeat split. simpl. lia.
Qed.

Lemma queued_condition l u : u ∈ queued l -> exists c x, conditionAt l c = Some x /\ u ∈ Cond.waiters x.
Proof.
  simpl. intros [Hu|Hu]%elem_of_app; [by exists Oflow, (oflow_ l)|].
  unfold waiters_all in Hu. apply list_elem_of_In, in_concat in Hu as (q & Hq & Hu).
  apply in_map_iff in Hq as (x & <- & Hx). apply list_elem_of_In, list_elem_of_lookup in Hx as [k Hk].
  exists (Inplace k), x. split; [done|]. by apply list_elem_of_In.
Qed.

(** An increment, and whom it wakes. *)
Lemma gen_set_effect t l l' ps n : gen_segment CallSet t l = Some (l', ps, n) ->
  gen_ l' = u64 (gen_ l + 1) /\ ninplace_ l' = ninplace_ l /\ n = Return (SetResult 1)
  /\ (forall u, u ∈ Cond.waiters (oflow_ l) -> u ∈ ps)
  /\ (forall k x u, inplace_ l !! k = Some x -> Z.of_nat k = u64 (gen_ l + 1) mod ninplace_ l ->
        u ∈ Cond.waiters x -> u ∈ ps).
Proof.
  cbn [gen_segment]. destruct (Cond.signalAll (oflow_ l)) as [o os] eqn:Eo.
  apply signalAll_empties in Eo as [_ ->]. unfold nz.
  change (ninplace_ (mkGen _ _ _)) with (ninplace_ l).
  destruct (Z.eqb_spec (ninplace_ l) 0) as [E|E]; simpl.
  - intros [= <- <- <-]. repeat split; [by auto|]. intros k x u Hk. apply lookup_lt_Some in Hk.
    unfold ninplace_ in E. lia.
  - set (k0 := Z.to_nat _). destruct (inplace_ l !! k0) as [x|] eqn:Hk0; [|done]. simpl.
    destruct (Cond.signalAll x) as [x1 xs] eqn:Ex. apply signalAll_empties in Ex as [_ ->].
    intros [= <- <- <-]. repeat split.
    + unfold ninplace_. simpl. by rewrite length_insert.
    + intros u Hu. apply elem_of_app. by left.
    + intros k z u Hk Hkk Hu. apply elem_of_app. right.
      assert (k = k0) as -> by (unfold k0; rewrite <- Hkk; lia). congruence.
Qed.

(** The segments other than an increment. *)
Lemma gen_other_effect p t l l' ps n : gen_ok l -> runs p -> p <> CallSet -> 0 <= gen_ l ->
  gen_ l + ninplace_ l < 2 ^ 64 -> gen_segment p t l = Some (l', ps, n) ->
  gen_ l' = gen_ l /\ ninplace_ l' = ninplace_ l
  /\ thread_ok (gen_ l) (ninplace_ l) (becomes n).
Proof.
  intros Hok Hr Hp Hg Hroom. destruct p as [| | | |i|i c|a|code|]; try done; cbn [gen_segment].
  - intros [= <- <- <-]. done.
  - intros H. apply waitFor_inv in H; [|by apply Hok].
    by destruct H as [(w & Hw & [= -> -> ->])|(code & _ & _ & [= <- <- <-])].
  - intros [= <- <- <-]. done.
  - intros (? & ? & _ & ?)%wait_loop_thread; done.
  - destruct (conditionAt l c) as [x|] eqn:Hc; [|done]. cbn [mbind option_bind].
    destruct (nz _) eqn:Hn.
    + intros [= <- <- <-]. repeat split. simpl. by apply nz_status in Hn.
    + intros (? & ? & _ & ?)%wait_loop_thread; done.
  - destruct (Cond.push _ _). by intros [= <- <- <-].
  - destruct (signal_errors _ _) as [cs cps] eqn:Ec. apply signal_errors_lookup in Ec as (Hlen & _).
    destruct (Cond.signalError _ _). intros [= <- <- <-]. unfold ninplace_. simpl. by rewrite Hlen.
Qed.

Lemma gen_to_set_nonneg th : 0 <= to_set th.
Proof. unfold to_set. by destruct (point th) as [[]|]. Qed.

(** A reader still parked after an increment waits for a later generation. *)
Lemma parked_later y0 y t l' ps n u i c : fresh y0 -> reachable y0 y -> placed y ->
  0 <= gen_ (lco y) -> gen_ (lco y) + 1 < 2 ^ 64 ->
  gen_segment CallSet t (lco y) = Some (l', ps, n) ->
  threads y !! u = Some (Parked (ResumeWaitGen i c)) -> u ∉ ps ->
  thread_ok (gen_ (lco y)) (ninplace_ (lco y)) (Parked (ResumeWaitGen i c)) ->
  thread_ok (gen_ (lco y) + 1) (ninplace_ (lco y)) (Parked (ResumeWaitGen i c)).
Proof.
  intros Hf Hr Hpl Hg Hroom Es Hu Hnot (Hi & Hgi & Hc).
  destruct (gen_set_effect _ _ _ _ _ Es) as (_ & _ & _ & Ho & Hk).
  assert (Hq : u ∈ queued (lco y)) by (by apply (parked_iff_queued y0 y u _ Hf Hr Hu)).
  apply queued_condition in Hq as (d & x & Hx & Hux).
  destruct (Hpl d x u _ Hx Hux Hu) as (q & [= <-] & [= <-]).
  rewrite wrap_small in Hk by lia. simpl. split; [done|].
  destruct c as [k|]; simpl in Hx.
  - destruct Hc as [Hkm Hlt]. split; [|split; [done|lia]].
    destruct (Z.eq_dec i (gen_ (lco y) + 1)) as [->|]; [|lia].
    exfalso. apply Hnot. by apply (Hk k x).
  - injection Hx as <-. exfalso. by apply Hnot, Ho.
Qed.

Lemma gen_inv_threads y0 y y' t p l' ps n : fresh y0 -> reachable y0 y -> sys_ok y -> gen_inv y ->
  threads y !! t = Some (At p) -> segment p t (lco y) = Some (l', ps, n) ->
  step y t = Some y' ->
  gen_ l' = gen_ (lco y) + to_set (At p) /\ ninplace_ l' = ninplace_ (lco y)
  /\ forall u th, threads y' !! u = Some th -> thread_ok (gen_ l') (ninplace_ l') th.
Proof.
  intros Hf Hr [Hok _] [[Hg Hroom] Hpl Hth] Et Es Hs.
  pose proof (tsum_ge to_set _ t _ ltac:(intros; apply gen_to_set_nonneg) Et) as Hge.
  pose proof (Hth t _ Et) as Hp. unfold ninplace_ in Hroom.
  destruct (decide (p = CallSet)) as [->|Hne].
  - destruct (gen_set_effect _ _ _ _ _ Es) as (Hg' & Hn' & -> & _).
    unfold to_set in *. simpl in Hge. rewrite wrap_small in Hg' by lia.
    split; [done|]. split; [done|]. rewrite Hg', Hn'. intros u th.
    rewrite (step_lookup _ _ _ _ _ _ _ u Et Es Hs). destruct (decide (u = t)) as [->|].
    { by intros [= <-]. }
    destruct (threads y !! u) as [uh|] eqn:Eu; [|done]. pose proof (Hth u _ Eu) as Huh.
    destruct uh as [q|q|r].
    + by intros [= <-].
    + case_decide as Hin; intros [= <-].
      * destruct q; try done. apply Huh.
      * destruct q; try done. eapply parked_later; try done. lia.
    + intros [= <-]. destruct r; try done. simpl in *. lia.
  - destruct (gen_other_effect p t (lco y) l' ps n) as (Hg' & Hn' & Hn); try done.
    { unfold ninplace_. pose proof (gen_to_set_nonneg (At p)). lia. }
    rewrite Hg', Hn'. split; [destruct p; try done; unfold to_set; simpl; lia|]. split; [done|].
    eapply step_forall; [exact Et|exact Es|exact Hs|exact Hth|done|done|].
    intros q _ Hq. destruct q; try done. apply Hq.
Qed.

Lemma gen_start_inv y : gen_start y -> gen_inv y /\ fresh y.
Proof.
  intros (n & Hl & Hroom & Ha & Hth).
  assert (Hw : forall c x, conditionAt (new n) c = Some x -> x = Waiting []).
  { intros [k|] x; simpl; [|by intros [= <-]]. by intros [-> _]%lookup_replicate. }
  split; split; rewrite ?Hl.
  - unfold ninplace_. simpl. rewrite length_replicate. lia.
  - intros c x t th Hc Hx. rewrite Hl in Hc. rewrite (Hw _ _ Hc) in Hx. by apply not_elem_of_nil in Hx.
  - intros t th Ht. by destruct (Hth t th Ht) as (p & -> & Hp & _).
  - simpl. unfold waiters_all. clear. by induction n.
  - split; [|split; [done|]].
    + split; [rewrite Hl; split; [done|by apply Forall_replicate]|]. intros t th p Ht Hp.
      destruct (Hth t th Ht) as (q & -> & Hq & _). injection Hp as <-. by destruct q.
    + intros t th Ht. destruct (Hth t th Ht) as (p & -> & _). by exists p.
Qed.

Lemma gen_reachable y0 y : gen_start y0 -> reachable y0 y -> gen_inv y.
Proof.
  intros H0. destruct (gen_start_inv y0 H0) as [Hi Hf].
  apply reachable_inv_from; [done|]. intros y1 y2 t Hr Hinv Hs.
  destruct (reachable_queues _ _ Hf Hr) as (Hok & Hap & _).
  destruct (step_inv _ _ _ Hs) as (p & l' & ps & n & Et & Es & _ & Hlco).
  destruct (gen_inv_threads y0 y1 y2 t p l' ps n) as (Hg & Hn & Hth); try done.
  pose proof (tsum_ge to_set _ t _ ltac:(intros; apply gen_to_set_nonneg) Et).
  pose proof (gen_to_set_nonneg (At p)). destruct Hinv as [[Hg0 Hroom] Hpl Ht].
  split; rewrite ?Hlco; [|eapply placed_step; try done|done].
  - rewrite (tsum_step to_set ltac:(done) _ _ _ _ _ _ _ Et Es Hs), Hg, Hn.
    assert (to_set (becomes n) = 0); [|lia].
    pose proof (gen_segment_law _ _ _ _ _ _ (proj1 Hok) (proj2 Hok t _ _ Et eq_refl) Es) as (_ & _ & Hnx).
    by destruct n as [|[]|].
  - specialize (Ht t _ Et). by destruct p.
Qed.

(** ** Properties *)

(** A generation counter neither wakes early nor loses a wakeup.  In every
    interleaving, a [waitForGeneration] that returned success waited for a generation
    that has come, and a thread that is asleep waits for one that has not. *)
Theorem gen_wait_exact y0 y t i : gen_start y0 -> reachable y0 y ->
  (threads y !! t = Some (Finished (GenResult i HPX_SUCCESS)) -> i <= gen_ (lco y))
  /\ (forall c, threads y !! t = Some (Parked (ResumeWaitGen i c)) -> gen_ (lco y) < i).
Proof.
  intros H0 Hr. pose proof (inv_threads _ (gen_reachable _ _ H0 Hr) t) as Hth. split.
  - intros Ht. by apply (Hth _ Ht).
  - intros c Ht. apply (Hth _ Ht).
Qed.

(** ** Witness: one in-place condition pair, readers of near and far generations *)

Definition demo : system :=
  mkSys (new 2) {[ 1 := At CallSet; 2 := At CallSet; 3 := At CallSet; 4 := At (CallWaitGen 1);
                   5 := At (CallWaitGen 3); 6 := At (CallWaitGen 4) ]} [].

Lemma gen_demo_start : gen_start demo.
Proof.
  exists 2%nat. split; [done|]. split; [done|]. split.
  - intros t th p q Ht Hp Ha. unfold demo in *; simpl in *.
    repeat (apply lookup_insert_Some in Ht as [[<- <-]|[_ Ht]]; [by simplify_eq/=|]).
    apply lookup_singleton_Some in Ht as [<- <-]. by simplify_eq/=.
  - intros t th Ht. unfold demo in Ht; simpl in Ht.
    repeat (apply lookup_insert_Some in Ht as [[<- <-]|[_ Ht]]; [by eexists|]).
    apply lookup_singleton_Some in Ht as [<- <-]. by eexists.
Qed.

Lemma gen_wait_exact_witness : exists y, run demo [4; 5; 6; 1; 4; 5; 2; 3; 5; 6] = Some y
  /\ threads y !! 5 = Some (Finished (GenResult 3 HPX_SUCCESS)) /\ 3 <= gen_ (lco y)
  /\ (forall c, threads y !! 6 = Some (Parked (ResumeWaitGen 4 c)) -> gen_ (lco y) < 4).
Proof.
  destruct (run demo [4; 5; 6; 1; 4; 5; 2; 3; 5; 6]) as [y|] eqn:E; [|by vm_compute in E].
  assert (H5 : threads y !! 5 = Some (Finished (GenResult 3 HPX_SUCCESS)))
    by (vm_compute in E; by simplify_eq).
  pose proof (run_reachable _ _ _ _ (reach_start demo) E) as Hr.
  exists y. split; [done|]. split; [done|]. split.
  - by apply (gen_wait_exact demo y 5 3 gen_demo_start Hr).
  - apply (gen_wait_exact demo y 6 4 gen_demo_start Hr).
Defined.
