(* ===== verification/Reduce.v ===== *)
(** * Reductions: [libhpx/scheduler/lco/Reduce.cpp]

    A barrier with a value: each [set] combines its input into the value with the
    reduction's operation, the last of [inputs_] sets wakes the readers, and [get]
    waits for it.  The operation and the identity are user actions, parameters here
    with nothing assumed of them: the theorem is that what is read is the fold of the
    operation over all the inputs, each once, in some order. *)

From S2P Require Import Prelude Condition Monitor Lco.

Section Reduction.
(** The handlers of the actions [op_] and [id_] on the value buffer. *)
Variables (op : list Z -> list Z -> list Z) (id : list Z -> list Z).

Record Reduce := mkReduce {
  barrier_ : cond;
  size_ : nat;
  inputs_ : Z;
  remaining_ : Z;
  value_ : list Z;
}.

(** [value0] is the uninitialised buffer, of the size asked for. *)
Definition new (inputs : Z) (value0 : list Z) : Reduce :=
  mkReduce (Waiting []) (length value0) inputs inputs (id value0).

(** [ResumeGet] is [get] after [waitFor].  [wait] is a [get] of no bytes, [getRef] a
    [wait] without reset, after its assertions, that then hands out the address of
    [value_]. *)
Inductive pc :=
| CallSet (from : list Z)
| CallGet (size : nat) (reset : bool)
| ResumeGet (size : nat) (reset : bool)
| CallGetRef (size : nat)
| CallAttach (p : Z)
| CallError (code : Z)
| CallReset.

Inductive result :=
| SetResult (r : Z)
| GetResult (status : Z) (size : nat) (out : list Z)
| AttachResult (status : Z)
| Void.

Definition resetBarrier (l : Reduce) : option Reduce :=
  barrier ← Cond.reset l.(barrier_);
  Some (mkReduce barrier l.(size_) l.(inputs_) l.(inputs_) (id l.(value_))).

Definition with_barrier (l : Reduce) (c : cond) : Reduce :=
  mkReduce c l.(size_) l.(inputs_) l.(remaining_) l.(value_).

(** [get] from the test of its loop on. *)
Definition get_loop (l : Reduce) (t : Z) (size : nat) (reset : bool)
    : option (Reduce * list Z * next pc result) :=
  if nz l.(remaining_) then
    waitFor l.(barrier_) (with_barrier l) t (ResumeGet size reset)
      (fun status => Some (l, [], Return (GetResult status size [])))
  else
    let out := take size l.(value_) in
    l ← (if reset then resetBarrier l else Some l);
    Some (l, [], Return (GetResult HPX_SUCCESS size out)).

(** The operation is called only on inputs of at least a byte. *)
Definition combine (value from : list Z) : list Z :=
  match from with [] => value | _ => op value from end.

(** The debug assertions on sizes fail with [None]. *)
Definition reduce_segment (p : pc) (t : Z) (l : Reduce)
    : option (Reduce * list Z * next pc result) :=
  match p with
  | CallSet from =>
    if (length from =? l.(size_))%nat then
      let value := combine l.(value_) from in
      let remaining := u32 (l.(remaining_) - 1) in
      if remaining =? 0 then
        let (barrier, ps) := Cond.signalAll l.(barrier_) in
        Some (mkReduce barrier l.(size_) l.(inputs_) remaining value, ps, Return (SetResult 1))
      else Some (mkReduce l.(barrier_) l.(size_) l.(inputs_) remaining value, [], Return (SetResult 0))
    else None
  | CallGet size reset =>
    if (size =? 0)%nat || (size =? l.(size_))%nat then get_loop l t size reset else None
  | CallGetRef size =>
    if (size =? l.(size_))%nat && negb (size =? 0)%nat then get_loop l t 0 false else None
  | ResumeGet size reset =>
    let status := Cond.getError l.(barrier_) in
    if nz status then Some (l, [], Return (GetResult status size []))
    else get_loop l t size reset
  | CallAttach p =>
    if nz l.(remaining_) then
      let (barrier, status) := Cond.push l.(barrier_) p in
      Some (with_barrier l barrier, [], Return (AttachResult status))
    else
      let status := Cond.getError l.(barrier_) in
      if nz status then Some (l, [], Return (AttachResult status))
      else Some (l, [p], Return (AttachResult HPX_SUCCESS))
  | CallError code =>
    let (barrier, ps) := Cond.signalError l.(barrier_) code in
    Some (with_barrier l barrier, ps, Return Void)
  | CallReset =>
    l ← resetBarrier l;
    Some (l, [], Return Void)
  end.

#[export] Instance reduce_monitor : Monitor Reduce pc result := {
  segment := reduce_segment;
  queued l := Cond.waiters l.(barrier_);
  attaches p := match p with CallAttach q => Some q | _ => None end;
}.

(** ** The queue laws *)

Definition reduce_point_ok (p : pc) : Prop :=
  match p with CallError code => code <> HPX_SUCCESS | _ => True end.

Ltac reduce_cases l H :=
  unfold reduce_segment, get_loop, resetBarrier in H;
  destruct l as [[q|code] sz i r v]; segment_cases H.

Lemma reduce_queues p t l l' ps n : cond_ok (barrier_ l) -> reduce_point_ok p ->
  reduce_segment p t l = Some (l', ps, n) ->
  queue_law p attaches t (queued l) (queued l') ps n.
Proof. intros Hok Hp H. reduce_cases l H; queue_solve. Qed.

Lemma reduce_ok p t l l' ps n : cond_ok (barrier_ l) -> reduce_point_ok p ->
  reduce_segment p t l = Some (l', ps, n) ->
  cond_ok (barrier_ l') /\ match n with
    | Park q | Yield q => reduce_point_ok q /\ attaches q = None
    | Return _ => True
    end.
Proof. intros Hok Hp H. by reduce_cases l H. Qed.

#[export] Instance reduce_laws : MonitorLaws Reduce pc result := {
  state_ok l := cond_ok (barrier_ l);
  point_ok := reduce_point_ok;
  segment_ok := reduce_ok;
  segment_queues := reduce_queues;
}.

(** ** One round: as many sets as inputs, reads without reset *)

Abbreviation system := (sys Reduce pc result).

Definition joins (p : pc) : Prop :=
  match p with
  | CallGet _ reset | ResumeGet _ reset => reset = false
  | CallError code => code <> HPX_SUCCESS
  | CallReset => False
  | _ => True
  end.

(** The input a thread still has to set. *)
Definition to_set (th : thread pc result) : list (list Z) :=
  match point th with Some (CallSet from) => [from] | _ => [] end.

Abbreviation to_come y := (tlist to_set (threads y)).

Variable value0 : list Z.

Definition round_start (y : system) : Prop :=
  let inputs := Z.of_nat (length (to_come y)) in
  lco y = new inputs value0 /\ 0 < inputs < 2 ^ 32 /\ attached_apart y
  /\ forall t th, threads y !! t = Some th -> exists p, th = At p /\ joins p
       /\ match p with ResumeGet _ _ => False | _ => True end.

Definition failed (c : cond) : Prop := match c with Failed _ => True | _ => False end.

Definition thread_ok (l : Reduce) (th : thread pc result) : Prop :=
  match th with
  | At (ResumeGet n r) => r = false /\ (remaining_ l = 0 \/ failed (barrier_ l))
  | At p => joins p
  | Parked (ResumeGet n r) => r = false
  | Parked _ => False
  | Finished (GetResult status n out) =>
      status = HPX_SUCCESS -> remaining_ l = 0 /\ out = take n (value_ l)
  | Finished _ => True
  end.

Record round_inv (inputs : list (list Z)) (y : system) : Prop := {
  inv_value : exists done, value_ (lco y) = foldl combine (id value0) done
    /\ done ++ to_come y ≡ₚ inputs;
  inv_remaining : remaining_ (lco y) = Z.of_nat (length (to_come y));
  inv_small : remaining_ (lco y) < 2 ^ 32;
  inv_drained : remaining_ (lco y) = 0 -> Cond.waiters (barrier_ (lco y)) = [];
  inv_ok : cond_ok (barrier_ (lco y));
  inv_threads : forall t th, threads y !! t = Some th -> thread_ok (lco y) th;
}.

(** A set. *)
Lemma reduce_set_effect from t l l' ps n : 0 < remaining_ l < 2 ^ 32 ->
  reduce_segment (CallSet from) t l = Some (l', ps, n) ->
  value_ l' = combine (value_ l) from /\ remaining_ l' = remaining_ l - 1
  /\ (remaining_ l' = 0 -> Cond.waiters (barrier_ l') = [])
  /\ (ps <> [] -> remaining_ l' = 0) /\ (failed (barrier_ l) -> failed (barrier_ l'))
  /\ exists r, n = Return (SetResult r).
Proof.
  intros Hr H. simpl in H. destruct (_ =? _)%nat; [|done]. rewrite wrap_small in H by lia.
  destruct l as [[q|code] sz i r v]; simpl in *; destruct (Z.eqb_spec (r - 1) 0); simplify_eq/=; repeat split; try done; try lia; by eexists.
Qed.

(** The other segments leave the value and the count. *)
Lemma reduce_read_effect p t l l' ps n : thread_ok l (At p) -> cond_ok (barrier_ l) -> to_set (At p) = [] ->
  (remaining_ l = 0 -> Cond.waiters (barrier_ l) = []) ->
  reduce_segment p t l = Some (l', ps, n) ->
  value_ l' = value_ l /\ remaining_ l' = remaining_ l
  /\ (remaining_ l' = 0 -> Cond.waiters (barrier_ l') = [])
  /\ (ps <> [] -> remaining_ l' = 0 \/ failed (barrier_ l'))
  /\ (failed (barrier_ l) -> failed (barrier_ l'))
  /\ thread_ok l' (becomes n) /\ to_set (becomes n) = [].
Proof.
  intros Hth Hok Hp Hw H. unfold nz, to_set in *. reduce_cases l H; unfold nz in *; zbool; segment_crush;
    by destruct Hth.
Qed.

Lemma round_inv_step inputs y y' t : round_inv inputs y -> step y t = Some y' -> round_inv inputs y'.
Proof.
  intros [(ds & Hv & Hin) Hrem Hsm Hdr Hok Hth] Hs.
  destruct (step_inv _ _ _ Hs) as (p & l' & ps & n & Et & Es & _ & Hlco).
  pose proof (Hth t _ Et) as Hp. pose proof (tlist_step to_set ltac:(done) _ _ _ _ _ _ _ Et Es Hs) as Hcome.
  assert (Hok' : cond_ok (barrier_ l')).
  { eapply (reduce_ok p t (lco y)); [done| |exact Es]. by destruct p. }
  assert (Hcase : (exists from, p = CallSet from) \/ to_set (At p) = [])
    by (destruct p; eauto). destruct Hcase as [[from ->]|Hns].
  - assert (Hlen := Permutation_length Hcome). rewrite !length_app in Hlen. simpl in Hlen.
    assert (Hpos : 0 < remaining_ (lco y)).
    { pose proof (Permutation_length (tlist_update to_set _ t _ (Finished Void) Et)) as Hl.
      rewrite !length_app in Hl. simpl in Hl. lia. }
    destruct (reduce_set_effect from t (lco y) l' ps n) as (Hv' & Hr' & Hd' & Hps & Hf & r & ->); [lia|done|].
    simpl in Hcome, Hlen. split; rewrite ?Hlco; [|lia|lia|done|done|].
    + exists (ds ++ [from]). rewrite foldl_app, Hv', Hv. split; [done|].
      rewrite <- Hin, <- Hcome. by rewrite <- app_assoc.
    + eapply step_forall; [exact Et|exact Es|exact Hs|exact Hth| |done|].
      * intros th. unfold thread_ok. destruct th as [[]|[]|[]]; try done; [|lia].
        intros [-> Hor]. split; [done|]. destruct Hor; [lia|auto].
      * intros q Hne. unfold thread_ok. destruct q; try done. auto.
  - destruct (reduce_read_effect p t (lco y) l' ps n) as (Hv' & Hr' & Hd' & Hps & Hf & Hn & Hnn); try done.
    rewrite Hns, Hnn in Hcome. simpl in Hcome.
    split; rewrite ?Hlco, ?Hr', ?Hv'; [|by rewrite Hcome|done|by rewrite <- Hr'|done|].
    + exists ds. split; [done|]. by rewrite Hcome.
    + eapply step_forall; [exact Et|exact Es|exact Hs|exact Hth| |done|].
      * intros th. unfold thread_ok. rewrite Hv', Hr'. destruct th as [[]|[]|[]]; try done.
        intros [-> Hor]. split; [done|]. tauto.
      * intros q Hne. unfold thread_ok. destruct q; try done. auto.
Qed.

Lemma round_start_inv y : round_start y -> round_inv (to_come y) y /\ fresh y.
Proof.
  intros (Hl & Hin & Ha & Hth). split.
  - split; rewrite ?Hl; simpl; try lia; try done.
    + by exists [].
    + intros t th Ht. destruct (Hth t th Ht) as (p & -> & Hj & Hc). by destruct p.
  - split; [by rewrite Hl|]. split; [|split; [done|]].
    + split; [by rewrite Hl|]. intros t th p Ht Hp. destruct (Hth t th Ht) as (q & -> & Hj & _).
      injection Hp as <-. by destruct q.
    + intros t th Ht. destruct (Hth t th Ht) as (p & -> & _). by exists p.
Qed.

Lemma round_reachable y0 y : round_start y0 -> reachable y0 y -> round_inv (to_come y0) y.
Proof.
  intros H0. apply reachable_inv; [by apply round_start_inv|].
  intros y1 y2 t. apply round_inv_step.
Qed.

(** The calls of a thread keep to the size of the reduction. *)
Definition sized (size : nat) (th : thread pc result) : Prop :=
  match point th with
  | Some (CallSet from) => length from = size
  | Some (CallGet n _) => n = 0%nat \/ n = size
  | Some (CallGetRef n) => n = size /\ n <> 0%nat
  | _ => True
  end.

Definition all_sized (y : system) : Prop := forall t th, threads y !! t = Some th -> sized (size_ (lco y)) th.

Lemma reduce_sized p t l l' ps n : reduce_segment p t l = Some (l', ps, n) ->
  size_ l' = size_ l /\ sized (size_ l) (becomes n).
Proof. intros H. reduce_cases l H; done. Qed.

Lemma all_sized_step y y' t : all_sized y -> step y t = Some y' -> all_sized y'.
Proof.
  intros Ha Hs. destruct (step_inv _ _ _ Hs) as (p & l' & ps & n & Et & Es & _ & Hlco).
  destruct (reduce_sized _ _ _ _ _ _ Es) as [Hl Hn]. unfold all_sized. rewrite Hlco, Hl.
  by eapply step_forall; [exact Et|exact Es|exact Hs|exact Ha|..].
Qed.

(** The segments a thread can still run. *)
Definition weight (th : thread pc result) : Z :=
  match point th with Some (ResumeGet _ _) => 1 | Some _ => 2 | None => 0 end.

Lemma reduce_weight_range th : 0 <= weight th <= 2.
Proof. unfold weight. by destruct (point th) as [[]|]. Qed.

Lemma reduce_weight_segment p t l l' ps n : thread_ok l (At p) -> cond_ok (barrier_ l) ->
  reduce_segment p t l = Some (l', ps, n) -> weight (becomes n) < weight (At p).
Proof.
  intros Hth Hok H. unfold weight. reduce_cases l H; try lia; unfold nz in *; zbool; naive_solver lia.
Qed.

Lemma reduce_progress y t p inputs : round_inv inputs y -> all_sized y -> threads y !! t = Some (At p) ->
  step y t <> None.
Proof.
  intros Hi Ha Ht. pose proof (inv_threads _ _ Hi t _ Ht) as Hp. pose proof (Ha t _ Ht) as Hsz. unfold step. rewrite Ht.
  assert (Hloop : forall k, get_loop (lco y) t k false <> None).
  { intros k. unfold get_loop, waitFor. destruct (nz _); [|done].
    destruct (Cond.push _ _) as [c e]. by destruct (nz e). }
  assert (Hseg : reduce_segment p t (lco y) <> None).
  { unfold sized in Hsz. destruct p as [from|k r|k r|k|a|code|]; simpl in *; try done.
    - rewrite (proj2 (Nat.eqb_eq _ _) Hsz). destruct (_ =? 0); [|done]. by destruct (Cond.signalAll _).
    - subst r. destruct (Nat.eqb_spec k 0), (Nat.eqb_spec k (size_ (lco y))); try lia; apply Hloop.
    - destruct Hp as [-> _]. destruct (nz _); [done|apply Hloop].
    - destruct Hsz as [-> Hz]. rewrite Nat.eqb_refl, (proj2 (Nat.eqb_neq _ _) Hz). apply Hloop.
    - destruct (nz _); [by destruct (Cond.push _ _)|by destruct (nz _)].
    - by destruct (Cond.signalError _ _). }
  simpl. destruct (reduce_segment p t (lco y)) as [[[? ?] ?]|]; done.
Qed.

Lemma reduce_drained y inputs : round_inv inputs y -> (forall t p, threads y !! t <> Some (At p)) ->
  Cond.waiters (barrier_ (lco y)) = [].
Proof.
  intros Hi Hno. apply (inv_drained _ _ Hi). rewrite (inv_remaining _ _ Hi).
  rewrite tlist_nil; [done|]. intros t [p|p|r] Ht; try done; [by destruct (Hno t p)|].
  pose proof (inv_threads _ _ Hi t _ Ht). by destruct p.
Qed.

(** ** Properties *)

(** C29: a reduction reduces.  In a system with as many sets as the reduction has inputs,
    in any interleaving with the readers, a [get] that returned success has the bytes
    it asked for of the fold of the operation over all the inputs, each taken once. *)
Theorem reduce_get_fold y0 y t n out : round_start y0 -> reachable y0 y ->
  threads y !! t = Some (Finished (GetResult HPX_SUCCESS n out)) ->
  exists order, order ≡ₚ to_come y0 /\ out = take n (foldl combine (id value0) order).
Proof.
  intros H0 Hr Ht. pose proof (round_reachable _ _ H0 Hr) as Hi.
  destruct (inv_threads _ _ Hi t _ Ht eq_refl) as [Hz ->].
  destruct (inv_value _ _ Hi) as (ds & -> & Hin). exists ds. split; [|done].
  rewrite (inv_remaining _ _ Hi) in Hz. rewrite <- Hin.
  destruct (to_come y); [by rewrite app_nil_r|done].
Qed.

(** A reduction's readers all finish: when the calls keep to its size, every schedule is
    finite, no step fails, and when nothing can run every thread has returned. *)
Theorem reduce_all_finish y0 ts y : round_start y0 -> all_sized y0 -> run y0 ts = Some y ->
  Z.of_nat (length ts) <= 2 * Z.of_nat (size (threads y0))
  /\ ((forall t, step y t = None) ->
      forall t th, threads y !! t = Some th -> exists r, th = Finished r).
Proof.
  intros H0 Ha Hrun. pose proof (run_reachable _ _ _ _ (reach_start y0) Hrun) as Hr.
  assert (Hay : all_sized y) by (revert Hr; apply reachable_inv; [done|]; intros y1 y2 t; apply all_sized_step).
  pose proof (round_reachable _ _ H0 Hr) as Hi. destruct (round_start_inv _ H0) as [Hi0 Hf]. split.
  - apply (run_bound (round_inv (to_come y0)) weight) with (y' := y); try done.
    + intros y1 y2 t. apply round_inv_step.
    + apply reduce_weight_range.
    + intros y1 p t s' ps n Hi1 Ht. apply reduce_weight_segment; [|apply (inv_ok _ _ Hi1)].
      by apply (inv_threads _ _ Hi1 t).
  - apply (all_finished y0); [done..| |].
    + intros t p. by apply (reduce_progress y t p (to_come y0)).
    + by apply (reduce_drained y (to_come y0)).
Qed.
End Reduction.

(** ** Witnesses: a sum over three threads, read by two *)

Definition sum_op (value from : list Z) : list Z := zip_with Z.add value from.
Definition sum_id (value : list Z) : list Z := replicate (length value) 0.

Definition demo : sys Reduce pc result :=
  mkSys (new sum_id 3 [9; 9])
    {[ 1 := At (CallSet [1; 10]); 2 := At (CallSet [2; 20]); 3 := At (CallSet [3; 30]);
       4 := At (CallGet 2 false); 5 := At (CallGet 0 false); 6 := At (CallAttach 100) ]} [].

Lemma reduce_demo_start : round_start sum_op sum_id [9; 9] demo.
Proof.
  split; [done|]. split; [done|]. split.
  - intros t th p q Ht Hp Ha. unfold demo in *; simpl in *.
    repeat (apply lookup_insert_Some in Ht as [[<- <-]|[_ Ht]]; [by simplify_eq/=|]).
    apply lookup_singleton_Some in Ht as [<- <-]. by simplify_eq/=.
  - intros t th Ht. unfold demo in Ht; simpl in Ht.
    repeat (apply lookup_insert_Some in Ht as [[<- <-]|[_ Ht]]; [by eexists|]).
    apply lookup_singleton_Some in Ht as [<- <-]. by eexists.
Qed.

Lemma reduce_demo_sized : all_sized demo.
Proof.
  intros t th Ht. unfold demo in Ht; simpl in Ht.
  repeat (apply lookup_insert_Some in Ht as [[<- <-]|[_ Ht]]; [vm_compute; auto|]).
  apply lookup_singleton_Some in Ht as [<- <-]. done.
Qed.

Lemma reduce_get_fold_witness : exists y,
  run (H := reduce_monitor sum_op sum_id) demo [4; 1; 6; 3; 2; 4] = Some y
  /\ threads y !! 4 = Some (Finished (GetResult HPX_SUCCESS 2 [6; 60]))
  /\ exists order, [6; 60] = take 2 (foldl (combine sum_op) (sum_id [9; 9]) order).
Proof.
  destruct (run (H := reduce_monitor sum_op sum_id) demo [4; 1; 6; 3; 2; 4]) as [y|] eqn:E;
    [|by vm_compute in E].
  assert (H4 : threads y !! 4 = Some (Finished (GetResult HPX_SUCCESS 2 [6; 60])))
    by (vm_compute in E; by simplify_eq).
  exists y. split; [done|]. split; [done|].
  destruct (reduce_get_fold sum_op sum_id [9; 9] demo y 4 2 [6; 60] reduce_demo_start
    (run_reachable _ _ _ _ (reach_start demo) E) H4) as (order & _ & Ho). by exists order.
Defined.

Lemma reduce_all_finish_witness : exists y,
  run (H := reduce_monitor sum_op sum_id) demo [4; 1; 6; 3; 2; 5; 4] = Some y
  /\ forall t th, threads y !! t = Some th -> exists r, th = Finished r.
Proof.
  destruct (run (H := reduce_monitor sum_op sum_id) demo [4; 1; 6; 3; 2; 5; 4]) as [y|] eqn:E;
    [|by vm_compute in E].
  exists y. split; [done|].
  apply (reduce_all_finish sum_op sum_id [9; 9] demo _ y reduce_demo_start reduce_demo_sized E).
  intros t. apply stuck_step. vm_compute in E. by simplify_eq.
Defined.
