(* ===== verification/User.v ===== *)
(** * User-defined LCOs: [libhpx/scheduler/lco/UserLCO.cpp]

    The operation, the predicate and the initialisation are user actions, parameters here with
    nothing assumed of them.  A set combines its input into the user data, and the one after
    which the predicate holds wakes the readers; a reset initialises the data again, from what
    it then holds and the data kept from the construction. *)

From S2P Require Import Prelude Math Condition Monitor Lco.

(** ** The memory of an LCO

    [sizeof] is the size of the class, the offset of its user data. *)
Definition GetPaddedBytes (sizeof size initSize : Z) : Z := sizeof + size + pad_bytes 8 size + initSize.

(** Where the constructor keeps the initialisation data. *)
Definition initData_offset (sizeof size : Z) : Z := sizeof + (size + pad_bytes 8 size).

(** The initialisation data is aligned, behind the user data and inside the allocation. *)
Lemma user_layout sizeof size initSize : sizeof mod 8 = 0 -> 0 <= size -> 0 <= initSize ->
  sizeof + size <= initData_offset sizeof size /\ initData_offset sizeof size mod 8 = 0
  /\ initData_offset sizeof size + initSize = GetPaddedBytes sizeof size initSize.
Proof.
  intros H1 H2 H3. unfold initData_offset, GetPaddedBytes, pad_bytes. pose proof (Z.mod_pos_bound size 8 ltac:(lia)) as Hm. split; [lia|]. split; [|lia].
  rewrite (Z.div_mod size 8) at 1 by lia. replace (sizeof + (8 * (size / 8) + size mod 8 + (8 - size mod 8))) with (sizeof + (size / 8 + 1) * 8) by lia.
  by rewrite Z.mod_add.
Qed.

(** ** The monitor *)

Section UserLCO.
(** The handlers of [op_] and [predicate_] on the user data, and of [id_] on the user data
    and the initialisation data. *)
Variables (op : list Z -> list Z -> list Z) (predicate : list Z -> bool) (id : list Z -> list Z -> list Z).

Record UserLCO := mkUserLCO {
  state_ : Z;
  cvar_ : cond;
  size_ : nat;
  initData_ : list Z;
  userData_ : list Z;
}.

(** The buffer is not initialised. *)
Definition user_new (size : nat) (init buffer : list Z) : UserLCO := mkUserLCO 0 (Waiting []) size init (id buffer init).

Inductive pc :=
| CallSet (from : list Z)
| CallGet (size : nat) (reset : bool)
| ResumeGet (size : nat) (reset : bool)
| CallAttach (p : Z)
| CallError (code : Z)
| CallReset.

Inductive result :=
| SetResult (r : Z)
| GetResult (status : Z) (size : nat) (out : list Z)
| AttachResult (status : Z)
| Void.

Definition with_cvar (l : UserLCO) (c : cond) : UserLCO := mkUserLCO l.(state_) c l.(size_) l.(initData_) l.(userData_).

Definition resetState (l : UserLCO) : option UserLCO :=
  c ← Cond.reset l.(cvar_);
  Some (mkUserLCO (resetTriggered l.(state_)) c l.(size_) l.(initData_) (id l.(userData_) l.(initData_))).

(** [get] from the test of its loop on; [wait] is a [get] of no bytes, and [getRef] a [wait]
    that then hands out the address of the data. *)
Definition get_loop (l : UserLCO) (t : Z) (size : nat) (reset : bool) : option (UserLCO * list Z * next pc result) :=
  if getTriggered l.(state_) then
    let out := take size l.(userData_) in
    l ← (if reset then resetState l else Some l);
    Some (l, [], Return (GetResult HPX_SUCCESS size out))
  else
    waitFor l.(cvar_) (with_cvar l) t (ResumeGet size reset)
      (fun status => Some (l, [], Return (GetResult status size []))).

Definition user_segment (p : pc) (t : Z) (l : UserLCO) : option (UserLCO * list Z * next pc result) :=
  match p with
  | CallSet from =>
    if getTriggered l.(state_) then None
    else
      let data := op l.(userData_) from in
      if predicate data then
        let (c, ps) := Cond.signalAll l.(cvar_) in
        Some (mkUserLCO (setTriggered l.(state_)).1 c l.(size_) l.(initData_) data, ps, Return (SetResult 1))
      else Some (mkUserLCO l.(state_) l.(cvar_) l.(size_) l.(initData_) data, [], Return (SetResult 0))
  | CallGet size reset =>
    if ((size =? 0) || (size =? l.(size_)))%nat then get_loop l t size reset else None
  | ResumeGet size reset =>
    let status := Cond.getError l.(cvar_) in
    if nz status then Some (l, [], Return (GetResult status size []))
    else get_loop l t size reset
  | CallAttach p =>
    if getTriggered l.(state_) then
      let status := Cond.getError l.(cvar_) in
      if nz status then Some (l, [], Return (AttachResult status))
      else Some (l, [p], Return (AttachResult HPX_SUCCESS))
    else
      let (c, status) := Cond.push l.(cvar_) p in
      Some (with_cvar l c, [], Return (AttachResult status))
  | CallError code =>
    let (c, ps) := Cond.signalError l.(cvar_) code in
    Some (mkUserLCO (setTriggered l.(state_)).1 c l.(size_) l.(initData_) l.(userData_), ps, Return Void)
  | CallReset =>
    l ← resetState l;
    Some (l, [], Return Void)
  end.

#[export] Instance user_monitor : Monitor UserLCO pc result := {
  segment := user_segment;
  queued l := Cond.waiters l.(cvar_);
  attaches p := match p with CallAttach q => Some q | _ => None end;
}.

(** ** The queue laws *)

Definition user_point_ok (p : pc) : Prop :=
  match p with CallError code => code <> HPX_SUCCESS | _ => True end.

Ltac user_cases l H :=
  unfold user_segment, get_loop, resetState in H;
  destruct l as [st [q|code] sz i v]; segment_cases H.

Lemma user_queues p t l l' ps n : cond_ok (cvar_ l) -> user_point_ok p ->
  user_segment p t l = Some (l', ps, n) -> queue_law p attaches t (queued l) (queued l') ps n.
Proof. intros Hok Hp H. user_cases l H; queue_solve. Qed.

Lemma user_ok p t l l' ps n : cond_ok (cvar_ l) -> user_point_ok p -> user_segment p t l = Some (l', ps, n) ->
  cond_ok (cvar_ l') /\ match n with
    | Park q | Yield q => user_point_ok q /\ attaches q = None
    | Return _ => True
    end.
Proof. intros Hok Hp H. by user_cases l H. Qed.

#[export] Instance user_laws : MonitorLaws UserLCO pc result := {
  state_ok l := cond_ok (cvar_ l);
  point_ok := user_point_ok;
  segment_ok := user_ok;
  segment_queues := user_queues;
}.

(** After an error, a get that had not waited returns the data as if the predicate held. *)
Lemma get_after_error l t code l1 ps1 : user_segment (CallError code) t l = Some (l1, ps1, Return Void) ->
  user_segment (CallGet l.(size_) false) t l1 = Some (l1, [], Return (GetResult HPX_SUCCESS l.(size_) (take l.(size_) l.(userData_)))).
Proof.
  simpl. destruct (Cond.signalError _ _) as [c ps]. intros [= <- <-]. simpl. rewrite Nat.eqb_refl, orb_true_r. unfold get_loop. simpl. by rewrite getTriggered_lor.
Qed.

(** ** Batches: the inputs from one reset to the next *)

Section Batches.
Variable init : list Z.

(** The data after the inputs [b] from the data [d] of before the reset. *)
Definition value (d : list Z) (b : list (list Z)) : list Z := foldl op (id d init) b.

Definition batch_open (d : list Z) (b : list (list Z)) : Prop :=
  forall b1 x b2, b = b1 ++ x :: b2 -> predicate (value d (b1 ++ [x])) = false.

(** The predicate holds after the last input of [b], for the first time. *)
Definition batch_done (d : list Z) (b : list (list Z)) : Prop :=
  exists b1 x, b = b1 ++ [x] /\ batch_open d b1 /\ predicate (value d b) = true.

Fixpoint chain (d : list Z) (bs : list (list (list Z))) (d' : list Z) : Prop :=
  match bs with
  | [] => d = d'
  | b :: bs => batch_done d b /\ chain (value d b) bs d'
  end.

(** One of the batches [bs] has the first [n] bytes [out]. *)
Definition read_of (d0 : list Z) (bs : list (list (list Z))) (n : nat) (out : list Z) : Prop :=
  exists bs1 b bs2 d, bs = bs1 ++ b :: bs2 /\ chain d0 bs1 d /\ batch_done d b /\ out = take n (value d b).

Lemma chain_snoc bs b : forall d d', chain d bs d' -> batch_done d' b -> chain d (bs ++ [b]) (value d' b).
Proof. induction bs as [|c bs IH]; intros d d' Hc Hb; simpl in *; [by subst|]. destruct Hc as [? Hc]. split; [done|]. by apply IH. Qed.

Lemma batch_open_nil d : batch_open d [].
Proof. intros [|? ?] x b2 H; done. Qed.

Lemma batch_open_snoc d b x : batch_open d b -> predicate (value d (b ++ [x])) = false -> batch_open d (b ++ [x]).
Proof.
  intros Hb Hp b1 y b2 H. destruct (nil_or_length_pos b2) as [->|Hl].
  - apply app_inj_tail in H as [-> ->]. done.
  - destruct b2 as [|z b2 _] using rev_ind; [simpl in Hl; lia|]. rewrite app_comm_cons, app_assoc in H. apply app_inj_tail in H as [-> _]. by eapply Hb.
Qed.

Lemma read_of_mono d0 bs bs' n out : read_of d0 bs n out -> read_of d0 (bs ++ bs') n out.
Proof. intros (bs1 & b & bs2 & d & -> & H). exists bs1, b, (bs2 ++ bs'), d. by rewrite <- app_assoc. Qed.

Abbreviation system := (sys UserLCO pc result).

(** Threads that set, get with or without reset, wait and attach. *)
Definition user_joins (sz : nat) (p : pc) : Prop :=
  match p with
  | CallGet n _ => n = 0%nat \/ n = sz
  | CallError _ | CallReset => False
  | _ => True
  end.

Definition to_set (th : thread pc result) : list (list Z) := match point th with Some (CallSet from) => [from] | _ => [] end.

Abbreviation to_come y := (tlist to_set (threads y)).

Definition user_start (sz : nat) (buffer : list Z) (y : system) : Prop :=
  lco y = user_new sz init buffer /\ attached_apart y
  /\ forall t th, threads y !! t = Some th -> exists p, th = At p /\ user_joins sz p /\ match p with ResumeGet _ _ => False | _ => True end.

(** The batches that are complete. *)
Definition batches (trig : bool) (bs : list (list (list Z))) (cur : list (list Z)) : list (list (list Z)) := if trig then bs ++ [cur] else bs.

Definition user_thread_ok (sz : nat) (buffer : list Z) (bs : list (list (list Z))) (th : thread pc result) : Prop :=
  match th with
  | At p => user_joins sz p
  | Parked (ResumeGet _ _) => True
  | Parked _ => False
  | Finished (GetResult status n out) => status = HPX_SUCCESS /\ read_of buffer bs n out
  | Finished _ => True
  end.

Record user_state (sz : nat) (buffer : list Z) (l : UserLCO) (bs : list (list (list Z))) (cur : list (list Z)) (d : list Z) : Prop := {
  us_size : size_ l = sz;
  us_init : initData_ l = init;
  us_chain : chain buffer bs d;
  us_value : userData_ l = value d cur;
  us_batch : if getTriggered (state_ l) then batch_done d cur else batch_open d cur;
  us_cvar : exists q, cvar_ l = Waiting q /\ (getTriggered (state_ l) = true -> q = []);
}.

Lemma user_set_effect sz buffer from t l l' ps n bs cur d : user_state sz buffer l bs cur d -> user_segment (CallSet from) t l = Some (l', ps, n) ->
  user_state sz buffer l' bs (cur ++ [from]) d /\ getTriggered (state_ l) = false /\ exists r, n = Return (SetResult r).
Proof.
  intros [U1 U2 U3 U4 U5 (q & U6 & U7)] H. simpl in H. destruct (getTriggered (state_ l)) eqn:Ht; [done|].
  assert (Hv : value d (cur ++ [from]) = op (value d cur) from) by (unfold value; by rewrite foldl_app). rewrite U4, <- Hv, U6 in H.
  destruct (predicate _) eqn:Hp; simplify_eq/=; (split; [|by split; [|eexists]]); split; try done; simpl; rewrite ?getTriggered_lor, ?Ht.
  - by exists cur, from.
  - by exists [].
  - by apply batch_open_snoc.
  - by exists q.
Qed.

(** A segment that does not set leaves the batches, a reset only starts the next. *)
Definition kept (sz : nat) (buffer : list Z) (l l' : UserLCO) (n : next pc result) (bs : list (list (list Z))) (cur : list (list Z)) : Prop :=
  exists bs' cur' d', user_state sz buffer l' bs' cur' d' /\ concat bs' ++ cur' = concat bs ++ cur
    /\ batches (getTriggered (state_ l')) bs' cur' = batches (getTriggered (state_ l)) bs cur
    /\ user_thread_ok sz buffer (batches (getTriggered (state_ l)) bs cur) (becomes n) /\ to_set (becomes n) = [].

Lemma kept_waiting sz buffer l n bs cur d q : user_state sz buffer l bs cur d -> getTriggered (state_ l) = false ->
  user_thread_ok sz buffer bs (becomes n) -> to_set (becomes n) = [] -> kept sz buffer l (with_cvar l (Waiting q)) n bs cur.
Proof.
  intros [U1 U2 U3 U4 U5 U6] Ht Hn1 Hn2. exists bs, cur, d. unfold with_cvar. simpl. rewrite Ht in *. split; [|done]. split; try done; simpl; rewrite Ht; [done|]. by exists q.
Qed.

Lemma kept_loop sz buffer t k reset l l' ps n bs cur d : user_state sz buffer l bs cur d -> get_loop l t k reset = Some (l', ps, n) -> kept sz buffer l l' n bs cur.
Proof.
  intros U. unfold get_loop. pose proof U as [U1 U2 U3 U4 U5 (q & U6 & U7)]. destruct (getTriggered (state_ l)) eqn:Ht.
  - rewrite U4. assert (Hr : read_of buffer (batches true bs cur) k (take k (value d cur))) by (by exists bs, cur, [], d).
    destruct reset; unfold resetState; simpl; [rewrite U6, (U7 eq_refl); simpl|]; intros [= <- <- <-].
    + exists (bs ++ [cur]), [], (value d cur). simpl. rewrite getTriggered_reset. rewrite Ht. split; [|split; [by rewrite concat_app, app_nil_r; simpl; rewrite app_nil_r|done]].
      split; try done; simpl; rewrite ?getTriggered_reset; [by apply chain_snoc|by rewrite U2, U4|apply batch_open_nil|by exists []].
    + exists bs, cur, d. by rewrite Ht.
  - rewrite U6. unfold waitFor. simpl. intros [= <- <- <-]. by eapply kept_waiting.
Qed.

Lemma user_read_effect sz buffer p t l l' ps n bs cur d : user_state sz buffer l bs cur d -> user_joins sz p -> to_set (At p) = [] ->
  user_segment p t l = Some (l', ps, n) -> kept sz buffer l l' n bs cur.
Proof.
  intros U Hj Hs H. pose proof U as [U1 U2 U3 U4 U5 (q & U6 & U7)]. destruct p as [from|k r|k r|a|code|]; try done; simpl in H.
  - destruct (_ || _); [|done]. by eapply kept_loop.
  - rewrite U6 in H. simpl in H. by eapply kept_loop.
  - rewrite U6 in H. simpl in H. destruct (getTriggered (state_ l)) eqn:Ht; simplify_eq/=.
    + exists bs, cur, d. by rewrite Ht.
    + by eapply kept_waiting.
Qed.

Definition user_inv (sz : nat) (buffer : list Z) (inputs : list (list Z)) (y : system) : Prop :=
  exists bs cur d, user_state sz buffer (lco y) bs cur d /\ concat bs ++ cur ++ to_come y ≡ₚ inputs
    /\ forall t th, threads y !! t = Some th -> user_thread_ok sz buffer (batches (getTriggered (state_ (lco y))) bs cur) th.

Lemma user_thread_mono sz buffer bs bs' th : user_thread_ok sz buffer bs th -> user_thread_ok sz buffer (bs ++ bs') th.
Proof. destruct th as [[]|[]|[]]; try done. simpl. intros [? ?]. split; [done|]. by apply read_of_mono. Qed.

Lemma user_inv_step sz buffer inputs y y' t : user_inv sz buffer inputs y -> step y t = Some y' -> user_inv sz buffer inputs y'.
Proof.
  intros (bs & cur & d & U & Hin & Hth) Hs. destruct (step_inv _ _ _ Hs) as (p & l' & ps & n & Et & Es & _ & Hlco).
  pose proof (Hth t _ Et) as Hp. pose proof (tlist_step to_set ltac:(done) _ _ _ _ _ _ _ Et Es Hs) as Hcome.
  assert (Hcase : (exists from, p = CallSet from) \/ to_set (At p) = []) by (destruct p; eauto). destruct Hcase as [[from ->]|Hns].
  - destruct (user_set_effect sz buffer from t (lco y) l' ps n bs cur d U Es) as (U' & Ht & r & ->). simpl in Hcome.
    exists bs, (cur ++ [from]), d. rewrite Hlco. split; [done|]. split; [rewrite <- Hin, <- Hcome; solve_Permutation|].
    rewrite Ht in Hth. assert (Hm : forall th, user_thread_ok sz buffer bs th -> user_thread_ok sz buffer (batches (getTriggered (state_ l')) bs (cur ++ [from])) th).
    { intros th Hok. unfold batches. destruct (getTriggered (state_ l')); [by apply user_thread_mono|done]. }
    eapply step_forall; [exact Et|exact Es|exact Hs|exact Hth|exact Hm|done|]. by intros [].
  - destruct (user_read_effect sz buffer p t (lco y) l' ps n bs cur d U Hp Hns Es) as (bs' & cur' & d' & U' & Hc & Hb & Hn1 & Hn2).
    rewrite Hns, Hn2 in Hcome. simpl in Hcome. exists bs', cur', d'. rewrite Hlco, Hb. split; [done|]. split; [by rewrite app_assoc, Hc, <- app_assoc, Hcome|].
    eapply step_forall; [exact Et|exact Es|exact Hs|exact Hth|done|done|]. by intros [].
Qed.

Lemma user_start_inv sz buffer y : user_start sz buffer y -> user_inv sz buffer (to_come y) y /\ fresh y.
Proof.
  intros (Hl & Ha & Hth). split.
  - exists [], [], buffer. rewrite Hl. split; [split; try done; [apply batch_open_nil|by exists []]|]. split; [done|].
    intros t th Ht. by destruct (Hth t th Ht) as (p & -> & Hj & _).
  - split; [by rewrite Hl|]. split; [|split; [done|]].
    + split; [by rewrite Hl|]. intros t th p Ht Hp. destruct (Hth t th Ht) as (q & -> & Hj & _). injection Hp as <-. by destruct q.
    + intros t th Ht. destruct (Hth t th Ht) as (p & -> & _). by exists p.
Qed.

(** C31: a user-defined LCO batches its inputs.  In every interleaving of sets, waits, gets with and
    without reset and attached parcels, the inputs set so far are a sequence of batches, each
    the shortest after which the predicate holds, and an open one; a get returns success and
    the data of one of the batches; a thread waits only while the predicate has not held since
    the last reset; and only a set can fail, that of an input when it has held. *)
Theorem user_batches sz buffer y0 y : user_start sz buffer y0 -> reachable y0 y ->
  exists bs cur d, chain buffer bs d /\ userData_ (lco y) = value d cur
    /\ (if getTriggered (state_ (lco y)) then batch_done d cur else batch_open d cur)
    /\ concat bs ++ cur ++ to_come y ≡ₚ to_come y0
    /\ (forall t status n out, threads y !! t = Some (Finished (GetResult status n out)) ->
         status = HPX_SUCCESS /\ read_of buffer (batches (getTriggered (state_ (lco y))) bs cur) n out)
    /\ (forall t p, threads y !! t = Some (Parked p) -> getTriggered (state_ (lco y)) = false)
    /\ (forall t p, threads y !! t = Some (At p) -> step y t = None -> exists from, p = CallSet from /\ getTriggered (state_ (lco y)) = true).
Proof.
  intros H0 Hr. destruct (user_start_inv _ _ _ H0) as [Hi0 Hf].
  assert (Hi : user_inv sz buffer (to_come y0) y) by (eapply reachable_inv; [exact Hi0| |exact Hr]; intros y1 y2 t; apply user_inv_step).
  destruct Hi as (bs & cur & d & [U1 U2 U3 U4 U5 (q & U6 & U7)] & Hin & Hth). exists bs, cur, d. split; [done|]. split; [done|]. split; [done|]. split; [done|]. split; [|split].
  - intros t status n out Ht. apply (Hth t _ Ht).
  - intros t p Ht. destruct (getTriggered (state_ (lco y))) eqn:E; [|done]. pose proof (proj2 (parked_iff_queued y0 y t _ Hf Hr Ht) I) as Hq.
    simpl in Hq. rewrite U6, (U7 eq_refl) in Hq. by apply elem_of_nil in Hq.
  - intros t p Ht Hs. pose proof (Hth t _ Ht) as Hj. unfold step in Hs. rewrite Ht in Hs.
    assert (Hloop : forall k r, get_loop (lco y) t k r <> None).
    { intros k r. unfold get_loop, waitFor, resetState. rewrite U6. destruct (getTriggered _) eqn:E; [|done]. rewrite (U7 eq_refl). by destruct r. }
    assert (Hseg : user_segment p t (lco y) = None) by (simpl in Hs; by destruct (user_segment p t (lco y)) as [[[? ?] ?]|]).
    destruct p as [from|k r|k r|a|code|]; simpl in Hseg, Hj; try done; rewrite ?U6 in Hseg; simpl in Hseg.
    + exists from. split; [done|]. by destruct (getTriggered _); [|destruct (predicate _)].
    + replace ((k =? 0) || (k =? size_ (lco y)))%nat with true in Hseg; [by apply Hloop in Hseg|]. rewrite U1. symmetry. apply orb_true_iff. rewrite !Nat.eqb_eq. tauto.
    + by apply Hloop in Hseg.
    + by destruct (getTriggered _).
Qed.
End Batches.
End UserLCO.

(** ** Witness: sums in batches of at least ten *)

Definition add_op (v from : list Z) : list Z := zip_with Z.add v from.
Definition ten (v : list Z) : bool := match v with x :: _ => 10 <=? x | [] => false end.
Definition from_init (_ init : list Z) : list Z := init.

Definition user_demo : sys UserLCO pc result :=
  mkSys (user_new from_init 1 [0] [9])
    {[ 1 := At (CallSet [4]); 2 := At (CallSet [7]); 3 := At (CallSet [12]);
       4 := At (CallGet 1 true); 5 := At (CallGet 1 false); 6 := At (CallAttach 100) ]} [].

Lemma user_demo_start : user_start add_op ten from_init [0] 1 [9] user_demo.
Proof.
  split; [done|]. split.
  - intros t th p q Ht Hp Ha. unfold user_demo in *; simpl in *.
    repeat (apply lookup_insert_Some in Ht as [[<- <-]|[_ Ht]]; [by simplify_eq/=|]).
    apply lookup_singleton_Some in Ht as [<- <-]. by simplify_eq/=.
  - intros t th Ht. unfold user_demo in Ht; simpl in Ht.
    repeat (apply lookup_insert_Some in Ht as [[<- <-]|[_ Ht]]; [eexists; split; [done|]; simpl; auto|]).
    apply lookup_singleton_Some in Ht as [<- <-]. by eexists.
Qed.

Lemma user_batches_witness : exists y, run (H := user_monitor add_op ten from_init) user_demo [4; 1; 5; 2; 4; 6; 5; 3; 5] = Some y
  /\ threads y !! 4 = Some (Finished (GetResult HPX_SUCCESS 1 [11])) /\ threads y !! 5 = Some (Finished (GetResult HPX_SUCCESS 1 [12]))
  /\ exists bs cur d, chain add_op ten from_init [0] [9] bs d /\ batch_done add_op ten from_init [0] d cur.
Proof.
  destruct (run (H := user_monitor add_op ten from_init) user_demo [4; 1; 5; 2; 4; 6; 5; 3; 5]) as [y|] eqn:E; [|by vm_compute in E].
  assert (Hy : threads y !! 4 = Some (Finished (GetResult HPX_SUCCESS 1 [11])) /\ threads y !! 5 = Some (Finished (GetResult HPX_SUCCESS 1 [12]))
    /\ getTriggered (state_ (lco y)) = true) by (vm_compute in E; by simplify_eq). destruct Hy as (H4 & H5 & Ht).
  exists y. split; [done|]. split; [done|]. split; [done|].
  destruct (user_batches add_op ten from_init [0] 1 [9] user_demo y user_demo_start (run_reachable _ _ _ _ (reach_start user_demo) E)) as (bs & cur & d & Hc & _ & Hb & _).
  rewrite Ht in Hb. by exists bs, cur, d.
Defined.
