(* ===== verification/Clients.v ===== *)
(** * Clients that make several calls

    A thread that calls the methods of an LCO one after the other: a script is the
    list of its calls and the results so far.  The client of a monitor is again a
    monitor, whose program points are a point of the current call with the script, and
    it keeps the queue laws when no call attaches a parcel. *)

From S2P Require Import Prelude Condition Monitor.

Record script (P R : Type) := mkScript {
  calls : list P;
  got : list R;
}.

Arguments mkScript {_ _} _ _.
Arguments calls {_ _} _.
Arguments got {_ _} _.

Section Client.
Context {S P R : Type} `{Monitor S P R}.

(** The calls still to make, after the current one. *)
Definition continue (c : script P R) (r : R) : next (P * script P R) (script P R) :=
  let c := mkScript c.(calls) (c.(got) ++ [r]) in
  match c.(calls) !! length c.(got) with
  | Some p => Yield (p, c)
  | None => Return c
  end.

Definition client_segment (pc : P * script P R) (t : Z) (s : S)
    : option (S * list Z * next (P * script P R) (script P R)) :=
  let (p, c) := pc in
  '(s, ps, n) ← segment p t s;
  Some (s, ps, match n with
               | Return r => continue c r
               | Park q => Park (q, c)
               | Yield q => Yield (q, c)
               end).

#[export] Instance client_monitor : Monitor S (P * script P R) (script P R) := {
  segment := client_segment;
  queued := queued;
  attaches _ := None;
}.

Lemma client_segment_intro p c t s s' ps m : segment p t s = Some (s', ps, m) ->
  segment (Monitor := client_monitor) (p, c) t s =
    Some (s', ps, match m with
                  | Return r => continue c r
                  | Park q => Park (q, c)
                  | Yield q => Yield (q, c)
                  end).
Proof. intros Hs. simpl. by rewrite Hs. Qed.

Lemma client_segment_inv p c t s s' ps n : client_segment (p, c) t s = Some (s', ps, n) ->
  exists m, segment p t s = Some (s', ps, m)
    /\ n = match m with Return r => continue c r | Park q => Park (q, c) | Yield q => Yield (q, c) end.
Proof.
  simpl. destruct (segment p t s) as [[[s1 ps1] m]|]; [|done]. simpl. intros [= <- <- <-].
  by exists m.
Qed.
End Client.

Section ClientLaws.
Context {S P R : Type} `{MonitorLaws S P R}.

Definition call_ok (p : P) : Prop := point_ok p /\ attaches p = None.

Definition client_ok (pc : P * script P R) : Prop := call_ok pc.1 /\ Forall call_ok pc.2.(calls).

Lemma client_segment_ok pc t s s' ps n : state_ok s -> client_ok pc ->
  client_segment pc t s = Some (s', ps, n) ->
  state_ok s' /\ match n with
    | Park q | Yield q => client_ok q /\ attaches (Monitor := client_monitor) q = None
    | Return _ => True
    end.
Proof.
  destruct pc as [p c]. intros Hs [[Hp Ha] Hc] (m & Hm & ->)%client_segment_inv.
  destruct (segment_ok _ _ _ _ _ _ Hs Hp Hm) as [Hs' Hn]. split; [done|].
  destruct m as [r|q|q]; [|by destruct Hn..]. unfold continue; simpl.
  destruct (calls c !! _) as [q|] eqn:E; [|done]. split; [|done]. split; [|done].
  rewrite Forall_lookup in Hc. by eapply Hc.
Qed.

Lemma client_queues pc t s s' ps n : state_ok s -> client_ok pc ->
  client_segment pc t s = Some (s', ps, n) ->
  queue_law pc (attaches (Monitor := client_monitor)) t (queued s) (queued s') ps n.
Proof.
  destruct pc as [p c]. intros Hs [[Hp Ha] Hc] (m & Hm & ->)%client_segment_inv.
  destruct (segment_queues _ _ _ _ _ _ Hs Hp Hm) as (new & Hperm & Hnew).
  assert (Hnil : match m with Park _ => True | _ => new = [] end).
  { destruct m; [|done|]; (destruct new as [|x new]; [done|]);
      apply Forall_cons in Hnew as [Hx _]; congruence. }
  exists new. split; [done|]. destruct m as [r|q|q]; [|done|by rewrite Hnil].
  rewrite Hnil. unfold continue. by destruct (_ !! _).
Qed.

#[export] Instance client_laws : MonitorLaws S (P * script P R) (script P R) := {
  state_ok := state_ok;
  point_ok := client_ok;
  segment_ok := client_segment_ok;
  segment_queues := client_queues;
}.
End ClientLaws.
