(* ===== verification/AllReduce.v ===== *)
(** * All-reductions: [libhpx/scheduler/lco/AllReduce.cpp]

    A reduction that starts over: [writers_] sets combine into the value, then
    [readers_] gets read it, the last of which resets the value and starts the next
    epoch; a reader that is not the last waits for that.  [join] is a set and a get
    without giving up the lock.  The theorem is about any number of threads that join
    the same number of times: in every interleaving each join of an epoch returns the
    fold of the operation over that epoch's inputs, and no thread is left waiting. *)

From S2P Require Import Prelude Condition Monitor Lco Clients.

Definition REDUCING : Z := 0.
Definition READING : Z := 1.

Record AllReduce := mkAllReduce {
  epoch_ : cond;
  readers_ : Z;
  writers_ : Z;
  count_ : Z;
  phase_ : Z;
  value_ : list Z;
}.

Section AllReduction.
(** The handlers of the actions [op_] and [id_] on the value buffer; [id] is given the
    number of bytes to reset. *)
Variables (op : list Z -> list Z -> list Z) (id : nat -> list Z -> list Z).

Definition new (writers readers : Z) (size : nat) (value0 : list Z) : AllReduce :=
  mkAllReduce (Waiting []) readers writers writers REDUCING
    (if Nat.eqb size 0 then value0 else id size value0).

(** [ResumeSet], [ResumeGet] and [ResumeJoin] are the methods after [waitFor] in their
    first loop, [ResumeTail] is [get] or [join] after [waitFor] in the last loop, with
    the bytes already copied out.  [wait] is a [get] of no bytes. *)
Inductive pc :=
| CallSet (from : list Z)
| ResumeSet (from : list Z)
| CallGet (size : nat)
| ResumeGet (size : nat)
| ResumeTail (out : list Z)
| CallJoin (from : list Z)
| ResumeJoin (from : list Z)
| CallAttach (p : Z)
| CallError (code : Z)
| CallReset.

Inductive result :=
| SetResult (r : Z)
| GetResult (status : Z) (out : list Z)
| AttachResult (status : Z)
| Void.

Definition with_epoch (l : AllReduce) (c : cond) : AllReduce :=
  mkAllReduce c l.(readers_) l.(writers_) l.(count_) l.(phase_) l.(value_).

Definition combine (value from : list Z) : list Z :=
  match from with [] => value | _ => op value from end.

(** [setInner] once the phase is [REDUCING]. *)
Definition set_apply (l : AllReduce) (from : list Z) : AllReduce * list Z * Z :=
  let value := combine l.(value_) from in
  let count := u64 (l.(count_) - 1) in
  if count =? 0 then
    let (epoch, ps) := Cond.signalAll l.(epoch_) in
    (mkAllReduce epoch l.(readers_) l.(writers_) count READING value, ps, 1)
  else (mkAllReduce l.(epoch_) l.(readers_) l.(writers_) count l.(phase_) value, [], 0).

(** The last loop of [getInner]; [ps] has been launched before. *)
Definition get_tail (l : AllReduce) (t : Z) (out : list Z) (ps : list Z)
    : option (AllReduce * list Z * next pc result) :=
  if l.(phase_) =? READING then
    '(l, qs, n) ← waitFor l.(epoch_) (with_epoch l) t (ResumeTail out)
        (fun status => Some (l, [], Return (GetResult status out)));
    Some (l, ps ++ qs, n)
  else Some (l, ps, Return (GetResult HPX_SUCCESS out)).

(** [getInner] from the test of its first loop on. *)
Definition getInner (l : AllReduce) (t : Z) (size : nat) (ps : list Z)
    : option (AllReduce * list Z * next pc result) :=
  if negb (l.(phase_) =? READING) then
    '(l, qs, n) ← waitFor l.(epoch_) (with_epoch l) t (ResumeGet size)
        (fun status => Some (l, [], Return (GetResult status [])));
    Some (l, ps ++ qs, n)
  else
    let out := take size l.(value_) in
    let count := u64 (l.(count_) + 1) in
    if l.(readers_) =? count then
      let (epoch, qs) := Cond.signalAll l.(epoch_) in
      Some (mkAllReduce epoch l.(readers_) l.(writers_) l.(writers_) REDUCING (id size l.(value_)),
            ps ++ qs, Return (GetResult HPX_SUCCESS out))
    else get_tail (mkAllReduce l.(epoch_) l.(readers_) l.(writers_) count l.(phase_) l.(value_))
           t out ps.

(** [set] and [join] from the test of the loop of [setInner] on.  An error while
    waiting there is a [dbg_error]. *)
Definition set_loop (l : AllReduce) (t : Z) (from : list Z)
    : option (AllReduce * list Z * next pc result) :=
  if negb (l.(phase_) =? REDUCING) then
    waitFor l.(epoch_) (with_epoch l) t (ResumeSet from) (fun _ => None)
  else
    let '(l, ps, r) := set_apply l from in
    Some (l, ps, Return (SetResult r)).

Definition join_loop (l : AllReduce) (t : Z) (from : list Z)
    : option (AllReduce * list Z * next pc result) :=
  if negb (l.(phase_) =? REDUCING) then
    waitFor l.(epoch_) (with_epoch l) t (ResumeJoin from) (fun _ => None)
  else
    let '(l, ps, r) := set_apply l from in
    getInner l t (length from) ps.

Definition allreduce_segment (p : pc) (t : Z) (l : AllReduce)
    : option (AllReduce * list Z * next pc result) :=
  let status := Cond.getError l.(epoch_) in
  match p with
  | CallSet from => set_loop l t from
  | ResumeSet from => if nz status then None else set_loop l t from
  | CallGet size => getInner l t size []
  | ResumeGet size =>
    if nz status then Some (l, [], Return (GetResult status [])) else getInner l t size []
  | ResumeTail out =>
    if nz status then Some (l, [], Return (GetResult status out)) else get_tail l t out []
  | CallJoin from => join_loop l t from
  | ResumeJoin from => if nz status then None else join_loop l t from
  | CallAttach p =>
    if negb (l.(phase_) =? REDUCING) then
      let (epoch, status) := Cond.push l.(epoch_) p in
      Some (with_epoch l epoch, [], Return (AttachResult status))
    else if nz status then Some (l, [], Return (AttachResult status))
    else Some (l, [p], Return (AttachResult HPX_SUCCESS))
  | CallError code =>
    let (epoch, ps) := Cond.signalError l.(epoch_) code in
    Some (with_epoch l epoch, ps, Return Void)
  | CallReset =>
    epoch ← Cond.reset l.(epoch_);
    Some (with_epoch l epoch, [], Return Void)
  end.

#[export] Instance allreduce_monitor : Monitor AllReduce pc result := {
  segment := allreduce_segment;
  queued l := Cond.waiters l.(epoch_);
  attaches p := match p with CallAttach q => Some q | _ => None end;
}.

(** ** The queue laws *)

Definition allreduce_point_ok (p : pc) : Prop :=
  match p with CallError code => code <> HPX_SUCCESS | _ => True end.

Ltac allreduce_cases l H :=
  unfold allreduce_segment, set_loop, join_loop, getInner, get_tail, set_apply in H;
  destruct l as [[q|code] rd wr ct ph v]; segment_cases H.

Lemma allreduce_queues p t l l' ps n : cond_ok (epoch_ l) -> allreduce_point_ok p ->
  allreduce_segment p t l = Some (l', ps, n) ->
  queue_law p attaches t (queued l) (queued l') ps n.
Proof.
  intros Hok Hp H. allreduce_cases l H; queue_solve.
Qed.

Lemma allreduce_ok p t l l' ps n : cond_ok (epoch_ l) -> allreduce_point_ok p ->
  allreduce_segment p t l = Some (l', ps, n) ->
  cond_ok (epoch_ l') /\ match n with
    | Park q | Yield q => allreduce_point_ok q /\ attaches q = None
    | Return _ => True
    end.
Proof. intros Hok Hp H. by allreduce_cases l H. Qed.

#[export] Instance allreduce_laws : MonitorLaws AllReduce pc result := {
  state_ok l := cond_ok (epoch_ l);
  point_ok := allreduce_point_ok;
  segment_ok := allreduce_ok;
  segment_queues := allreduce_queues;
}.

(** ** The segments of a join *)

Lemma join_more from t l q : phase_ l = REDUCING -> epoch_ l = Waiting q -> 1 < count_ l < 2 ^ 64 ->
  allreduce_segment (CallJoin from) t l =
    Some (mkAllReduce (Waiting (t :: q)) (readers_ l) (writers_ l) (count_ l - 1) REDUCING
            (combine (value_ l) from), [], Park (ResumeGet (length from))).
Proof.
  destruct l as [e r w c ph v]; simpl. intros -> -> Hc. unfold join_loop, set_apply; simpl.
  rewrite wrap_small by lia. destruct (Z.eqb_spec (c - 1) 0); [lia|]. done.
Qed.

(** The last to set starts the reading, and reads first. *)
Lemma join_last from t l q : phase_ l = REDUCING -> epoch_ l = Waiting q -> count_ l = 1 ->
  let value := combine (value_ l) from in
  let out := take (length from) value in
  allreduce_segment (CallJoin from) t l =
    if readers_ l =? 1 then
      Some (mkAllReduce (Waiting []) (readers_ l) (writers_ l) (writers_ l) REDUCING
              (id (length from) value), q, Return (GetResult HPX_SUCCESS out))
    else
      Some (mkAllReduce (Waiting [t]) (readers_ l) (writers_ l) 1 READING value, q,
            Park (ResumeTail out)).
Proof.
  destruct l as [e r w c ph v]; simpl. intros -> -> ->. unfold join_loop, set_apply; simpl.
  unfold getInner; simpl. change (u64 (u64 (1 - 1) + 1)) with 1. destruct (r =? 1).
  - by rewrite app_nil_r.
  - unfold get_tail; simpl. by rewrite app_nil_r.
Qed.

Lemma get_more size t l q : phase_ l = READING -> epoch_ l = Waiting q -> 0 <= count_ l ->
  count_ l + 1 < readers_ l < 2 ^ 64 ->
  allreduce_segment (ResumeGet size) t l =
    Some (mkAllReduce (Waiting (t :: q)) (readers_ l) (writers_ l) (count_ l + 1) READING
            (value_ l), [], Park (ResumeTail (take size (value_ l)))).
Proof.
  destruct l as [e r w c ph v]; simpl. intros -> -> Hc Hr. unfold getInner; simpl.
  rewrite wrap_small by lia. destruct (Z.eqb_spec r (c + 1)); [lia|]. done.
Qed.

Lemma get_last size t l q : phase_ l = READING -> epoch_ l = Waiting q -> 0 <= count_ l ->
  count_ l + 1 = readers_ l -> readers_ l < 2 ^ 64 ->
  allreduce_segment (ResumeGet size) t l =
    Some (mkAllReduce (Waiting []) (readers_ l) (writers_ l) (writers_ l) REDUCING
            (id size (value_ l)), q, Return (GetResult HPX_SUCCESS (take size (value_ l)))).
Proof.
  destruct l as [e r w c ph v]; simpl. intros -> -> Hc Hr Hb. unfold getInner; simpl.
  rewrite wrap_small by lia. destruct (Z.eqb_spec r (c + 1)); [|lia]. done.
Qed.

Lemma tail_done out t l q : phase_ l = REDUCING -> epoch_ l = Waiting q ->
  allreduce_segment (ResumeTail out) t l = Some (l, [], Return (GetResult HPX_SUCCESS out)).
Proof. destruct l as [e r w c ph v]; simpl. by intros -> ->. Qed.

(** ** Rounds of joins *)

Section Rounds.
(** [rounds] joins of [size] bytes by every thread; [unit] is the value the identity
    action writes, whatever the buffer held; [inputs r] are the inputs of round [r]. *)
Variables (rounds size : nat) (unit : list Z) (inputs : nat -> list (list Z)).
Hypothesis id_unit : forall v, id size v = unit.

Abbreviation joiner := (thread (pc * script pc result) (script pc result)).
Abbreviation system := (sys AllReduce (pc * script pc result) (script pc result)).

Definition script_of (th : joiner) : script pc result :=
  match th with At (_, c) | Parked (_, c) | Finished c => c end.

(** The input of a thread in round [r]. *)
Definition input_of (r : nat) (th : joiner) : list (list Z) :=
  match calls (script_of th) !! r with Some (CallJoin from) => [from] | _ => [] end.

Definition joins_only (c : script pc result) : Prop :=
  length (calls c) = rounds
  /\ Forall (fun p => match p with CallJoin from => length from = size | _ => False end) (calls c).

(** What a join of round [r] must return: the fold over the inputs of the round. *)
Definition good (r : nat) (out : list Z) : Prop :=
  exists order, order ≡ₚ inputs r /\ out = take size (foldl combine unit order).

Definition results_ok (c : script pc result) : Prop :=
  forall r x, got c !! r = Some x -> exists out, x = GetResult HPX_SUCCESS out /\ good r out.

(** Where a thread is in round [R] of phase [ph]: it has still to join, it has set and
    waits to read, or it has read and waits for the round to end. *)
Definition thread_ok (R : nat) (ph : Z) (th : joiner) : Prop :=
  joins_only (script_of th) /\ results_ok (script_of th)
  /\ match th with
     | At (CallJoin from, c) =>
         ph = REDUCING /\ length (got c) = R /\ calls c !! R = Some (CallJoin from)
     | Parked (ResumeGet n, c) =>
         ph = REDUCING /\ length (got c) = R /\ n = size /\ (R < rounds)%nat
     | At (ResumeGet n, c) => ph = READING /\ length (got c) = R /\ n = size
     | At (ResumeTail out, c) =>
         ph = REDUCING /\ S (length (got c)) = R /\ good (length (got c)) out
     | Parked (ResumeTail out, c) => ph = READING /\ length (got c) = R /\ good R out
     | Finished c => ph = REDUCING /\ R = rounds /\ length (got c) = rounds
     | _ => False
     end.

(** The threads that have not set in this round, and those that have read. *)
Definition unset (th : joiner) : Z :=
  match point th with Some (ResumeGet _, _) => 0 | _ => 1 end.

Definition read (th : joiner) : Z :=
  match point th with Some (ResumeTail _, _) => 1 | _ => 0 end.

Definition to_come (R : nat) (th : joiner) : list (list Z) :=
  match point th with Some (ResumeGet _, _) => [] | _ => input_of R th end.

Record rounds_inv (y : system) (R : nat) (ds : list (list Z)) : Prop := {
  inv_round : (R <= rounds)%nat;
  inv_inputs : forall r, tlist (input_of r) (threads y) ≡ₚ inputs r;
  inv_waiting : exists q, epoch_ (lco y) = Waiting q;
  inv_parties : readers_ (lco y) = Z.of_nat (base.size (threads y))
    /\ writers_ (lco y) = readers_ (lco y) /\ 0 < readers_ (lco y) < 2 ^ 64;
  inv_value : value_ (lco y) = foldl combine unit ds;
  inv_phase :
    (phase_ (lco y) = REDUCING /\ count_ (lco y) = tsum unset (threads y) /\ 0 < count_ (lco y)
       /\ ds ++ tlist (to_come R) (threads y) ≡ₚ inputs R)
    \/ (phase_ (lco y) = READING /\ count_ (lco y) = tsum read (threads y)
       /\ count_ (lco y) < readers_ (lco y) /\ ds ≡ₚ inputs R /\ (R < rounds)%nat);
  inv_threads : forall t th, threads y !! t = Some th -> thread_ok R (phase_ (lco y)) th;
}.

(** *** What every step keeps *)

Lemma script_kept y y' t r : step y t = Some y' ->
  tlist (input_of r) (threads y') ≡ₚ tlist (input_of r) (threads y).
Proof.
  intros Hs. destruct (step_inv _ _ _ Hs) as ([p c] & l & ps & n & Et & Es & _ & _).
  pose proof (tlist_step (input_of r) ltac:(by intros [? ?]) _ _ _ _ _ _ _ Et Es Hs) as Hp.
  destruct (client_segment_inv _ _ _ _ _ _ _ Es) as (m & _ & ->).
  assert (E : input_of r (becomes (match m with
             | Return x => continue c x | Park q => Park (q, c) | Yield q => Yield (q, c) end))
           = input_of r (At (p, c))).
  { destruct m; try done. unfold continue; simpl. by destruct (calls c !! _). }
  rewrite E in Hp. by apply Permutation_app_inv_l in Hp.
Qed.

Lemma epoch_queued l q : epoch_ l = Waiting q -> q = queued l.
Proof. intros Hq. simpl. by rewrite Hq. Qed.

Lemma unset_range th : 0 <= unset th <= 1.
Proof. unfold unset. destruct (point th) as [[[] ?]|]; lia. Qed.

Lemma read_range th : 0 <= read th <= 1.
Proof. unfold read. destruct (point th) as [[[] ?]|]; lia. Qed.

Lemma to_come_join R c from : calls c !! R = Some (CallJoin from) ->
  to_come R (At (CallJoin from, c)) = [from].
Proof. unfold to_come, input_of; simpl. by intros ->. Qed.

Lemma round_left R c p : joins_only c -> calls c !! R = Some p -> (R < rounds)%nat.
Proof. intros [<- _]. apply lookup_lt_Some. Qed.

Lemma round_size R c from : joins_only c -> calls c !! R = Some (CallJoin from) ->
  length from = size.
Proof. intros [_ Hf] Hc. exact (proj1 (Forall_lookup _ _) Hf _ _ Hc). Qed.

(** *** Returning from a join *)

Lemma results_ok_snoc c out : results_ok c -> good (length (got c)) out ->
  results_ok (mkScript (calls c) (got c ++ [GetResult HPX_SUCCESS out])).
Proof.
  intros Hr Hg r x. simpl. rewrite lookup_app. destruct (got c !! r) as [x0|] eqn:E.
  { intros [= <-]. by apply Hr. }
  apply lookup_ge_None in E. intros Hx. apply list_lookup_singleton_Some in Hx as [Hx <-].
  exists out. split; [done|]. by replace r with (length (got c)) by lia.
Qed.

Lemma continue_ok R c out : joins_only c -> results_ok c -> good (length (got c)) out ->
  S (length (got c)) = R -> (R <= rounds)%nat ->
  let th := becomes (continue c (GetResult HPX_SUCCESS out)) in
  thread_ok R REDUCING th /\ unset th = 1 /\ read th = 0 /\ to_come R th = input_of R (Finished c).
Proof.
  intros Hj Hr Hg HR Hle. unfold continue; simpl. rewrite length_app; simpl.
  replace (length (got c) + 1)%nat with R by lia. pose proof (results_ok_snoc c out Hr Hg) as Hr'.
  destruct (calls c !! R) as [p|] eqn:E.
  - destruct Hj as [Hl Hf]. pose proof (proj1 (Forall_lookup _ _) Hf _ _ E) as Hp. simpl in Hp.
    destruct p; try done. split; [|done]. split; [done|]. split; [done|]. simpl.
    rewrite length_app; simpl. split; [done|]. split; [lia|done].
  - split; [|done]. split; [done|]. split; [done|]. simpl. rewrite length_app; simpl.
    apply lookup_ge_None in E. destruct Hj as [Hl _]. split; [done|]. split; lia.
Qed.

(** *** The end of a round *)

Lemma next_round y R : (S R <= rounds)%nat ->
  (forall r, tlist (input_of r) (threads y) ≡ₚ inputs r) ->
  0 < Z.of_nat (base.size (threads y)) < 2 ^ 64 ->
  (let n := Z.of_nat (base.size (threads y)) in
   lco y = mkAllReduce (Waiting []) n n n REDUCING unit) ->
  (forall t th, threads y !! t = Some th -> thread_ok (S R) REDUCING th /\ unset th = 1) ->
  rounds_inv y (S R) [].
Proof.
  simpl. intros HR Hin Hn Hl Hth.
  constructor; rewrite ?Hl; simpl; try done.
  - by exists [].
  - left. split; [done|]. rewrite (tsum_const unset 1) by (intros t th Ht; by destruct (Hth _ _ Ht)).
    split; [lia|]. split; [lia|]. rewrite (tlist_ext (to_come (S R)) (input_of (S R))).
    { by apply Hin. }
    intros t th Ht. destruct (Hth _ _ Ht) as [_ Hu]. unfold unset in Hu. unfold to_come.
    destruct (point th) as [[[] ?]|]; done.
  - intros t th Ht. by destruct (Hth _ _ Ht).
Qed.

(** *** The steps of a round *)

Section Step.
Variables (y0 y y' : system) (t : Z) (R : nat) (ds : list (list Z)).
Hypothesis y0_fresh : fresh y0.
Hypothesis y_reachable : reachable y0 y.
Hypothesis y_inv : rounds_inv y R ds.
Hypothesis y_step : step y t = Some y'.

(** What a step has to show about the LCO, the counts and the threads. *)
Lemma step_rounds_inv R' ds' p c s ps n :
  threads y !! t = Some (At (p, c)) -> segment p t (lco y) = Some (s, ps, n) ->
  (R' <= rounds)%nat -> (exists q, epoch_ s = Waiting q) ->
  readers_ s = readers_ (lco y) -> writers_ s = writers_ (lco y) ->
  value_ s = foldl combine unit ds' ->
  ((phase_ s = REDUCING /\ count_ s = tsum unset (threads y') /\ 0 < count_ s
      /\ ds' ++ tlist (to_come R') (threads y') ≡ₚ inputs R')
   \/ (phase_ s = READING /\ count_ s = tsum read (threads y')
      /\ count_ s < readers_ s /\ ds' ≡ₚ inputs R' /\ (R' < rounds)%nat)) ->
  (forall u th, threads y' !! u = Some th -> thread_ok R' (phase_ s) th) ->
  rounds_inv y' R' ds'.
Proof.
  intros Et Es HR Hq Hr Hw Hv Hph Hth. destruct y_inv as [_ Hin _ (Hp1 & Hp2 & Hp3) _ _ _].
  assert (Hl : lco y' = s).
  { destruct (step_inv _ _ _ y_step) as ([p1 c1] & s1 & ps1 & n1 & Et1 & Es1 & _ & ->).
    rewrite Et in Et1. simplify_eq. destruct (client_segment_inv _ _ _ _ _ _ _ Es1) as (m & Hm & _).
    congruence. }
  constructor; rewrite ?Hl; try done.
  - intros r. by rewrite (script_kept _ _ _ _ y_step).
  - rewrite Hw, Hr, (threads_kept _ _ _ y_step). lia.
Qed.

Lemma join_more_step from c : threads y !! t = Some (At (CallJoin from, c)) ->
  1 < count_ (lco y) -> rounds_inv y' R (ds ++ [from]).
Proof.
  intros Et Hc. destruct y_inv as [HR Hin [q Hq] (Hp1 & Hp2 & Hp3) Hv Hph Hth].
  destruct (Hth _ _ Et) as (Hj & Hr & Hpr & Hl & Hcall). rewrite Hpr in *.
  destruct Hph as [(_ & Hct & Hct0 & Hds)|(? & _)]; [|done].
  pose proof (round_size _ _ _ Hj Hcall) as Hsz.
  assert (Hle : count_ (lco y) <= readers_ (lco y)).
  { rewrite Hct, Hp1. pose proof (tsum_le unset 1 (threads y) ltac:(intros; apply unset_range)). lia. }
  pose proof (join_more from t (lco y) q Hpr Hq ltac:(lia)) as Es.
  pose proof (client_segment_intro _ c _ _ _ _ _ Es) as Es'.
  eapply step_rounds_inv; try done; simpl.
  - by exists (t :: q).
  - by rewrite Hv, foldl_app.
  - left. split; [done|].
    rewrite (tsum_step unset ltac:(by intros [? ?]) _ _ _ _ _ _ _ Et Es' y_step). simpl.
    split; [unfold unset at 2 3; simpl; lia|]. split; [lia|]. rewrite <- Hds.
    pose proof (tlist_step (to_come R) ltac:(by intros [? ?]) _ _ _ _ _ _ _ Et Es' y_step) as Hp.
    rewrite (to_come_join _ _ _ Hcall) in Hp. rewrite <- Hp. simpl. solve_Permutation.
  - apply (step_forall (thread_ok R REDUCING) (thread_ok R REDUCING) _ _ _ _ _ _ _ Et Es' y_step);
      try done.
    simpl. split; [done|]. split; [done|]. split; [done|]. split; [done|]. split; [done|].
    by eapply round_left.
Qed.

(** At the last join of a round the others have set and wait to read. *)
Lemma last_setter from c : threads y !! t = Some (At (CallJoin from, c)) -> count_ (lco y) = 1 ->
  (forall u uh, u <> t -> threads y !! u = Some uh -> exists c', uh = Parked (ResumeGet size, c'))
  /\ ds ++ [from] ≡ₚ inputs R /\ tsum read (threads y) = 0.
Proof.
  intros Et Hc. destruct y_inv as [HR Hin _ _ _ Hph Hth].
  destruct (Hth _ _ Et) as (Hj & Hr & Hpr & Hl & Hcall). rewrite Hpr in *.
  destruct Hph as [(_ & Hct & Hct0 & Hds)|(? & _)]; [|done].
  assert (Hset : forall u uh, u <> t -> threads y !! u = Some uh ->
            exists c', uh = Parked (ResumeGet size, c')).
  { intros u uh Hne Hu.
    assert (H0 : unset uh = 0).
    { apply (tsum_others_zero unset _ _ _ ltac:(intros; apply unset_range) Et) with (u := u);
        [unfold unset at 2; simpl; lia|done..]. }
    destruct (Hth _ _ Hu) as (_ & _ & Hu'). destruct uh as [[[] c']|[[] c']|]; try done.
    { by destruct Hu'. }
    destruct Hu' as (_ & _ & -> & _). by exists c'. }
  split; [done|]. split.
  - rewrite <- Hds. rewrite (tlist_single (to_come R) _ _ _ Et).
    + by rewrite (to_come_join _ _ _ Hcall).
    + intros u uh Hne Hu. by destruct (Hset u uh Hne Hu) as [c' ->].
  - apply tsum_zero. intros u uh Hu. destruct (decide (u = t)) as [->|Hne].
    + rewrite Et in Hu. by injection Hu as <-.
    + by destruct (Hset u uh Hne Hu) as [c' ->].
Qed.

Lemma join_last_step from c : threads y !! t = Some (At (CallJoin from, c)) ->
  count_ (lco y) = 1 -> readers_ (lco y) <> 1 -> rounds_inv y' R (ds ++ [from]).
Proof.
  intros Et Hc Hn. destruct (last_setter _ _ Et Hc) as (Hset & Hds & Hread).
  destruct y_inv as [HR Hin [q Hq] (Hp1 & Hp2 & Hp3) Hv _ Hth].
  destruct (Hth _ _ Et) as (Hj & Hr & Hpr & Hl & Hcall).
  pose proof (round_left _ _ _ Hj Hcall) as HRr. pose proof (round_size _ _ _ Hj Hcall) as Hsz.
  pose proof (join_last from t (lco y) q Hpr Hq Hc) as Es. cbv zeta in Es.
  rewrite (proj2 (Z.eqb_neq _ _) Hn) in Es.
  pose proof (client_segment_intro _ c _ _ _ _ _ Es) as Es'.
  eapply step_rounds_inv; try done; simpl.
  - by exists [t].
  - by rewrite Hv, foldl_app.
  - right. split; [done|].
    rewrite (tsum_step read ltac:(by intros [? ?]) _ _ _ _ _ _ _ Et Es' y_step), Hread.
    split; [done|]. split; [lia|done].
  - intros u uh' Hu.
    destruct (launched_all _ _ _ _ _ _ _ _ y0_fresh y_reachable Et Es' y_step ltac:(simpl; by rewrite Hq)
                _ _ Hu) as [[-> ->]|(Hne & uh & Eu & ->)].
    + split; [done|]. split; [done|]. simpl. split; [done|]. split; [done|].
      exists (ds ++ [from]). by rewrite foldl_app, Hsz, Hv.
    + destruct (Hset _ _ Hne Eu) as [c' ->].
      destruct (Hth _ _ Eu) as (? & ? & ? & ? & ? & ?). done.
Qed.

(** A round ends: [t] returns, and the others, which have read, are woken. *)
Lemma round_ends p c v out : threads y !! t = Some (At (p, c)) -> (R < rounds)%nat ->
  joins_only c -> results_ok c -> length (got c) = R -> good R out ->
  segment p t (lco y) =
    Some (mkAllReduce (Waiting []) (readers_ (lco y)) (writers_ (lco y)) (writers_ (lco y)) REDUCING
            (id size v), queued (lco y), Return (GetResult HPX_SUCCESS out)) ->
  (forall u uh, u <> t -> threads y !! u = Some uh -> read uh = 1 /\ thread_ok R READING uh) ->
  rounds_inv y' (S R) [].
Proof.
  intros Et HR Hj Hr Hl Hg Es Hread. destruct y_inv as [_ Hin _ (Hp1 & Hp2 & Hp3) _ _ _].
  pose proof (client_segment_intro _ c _ _ _ _ _ Es) as Es'. simpl in Es'.
  apply next_round; [lia| | | |].
  - intros r. by rewrite (script_kept _ _ _ _ y_step).
  - rewrite (threads_kept _ _ _ y_step). lia.
  - destruct (step_inv _ _ _ y_step) as (p1 & s1 & ps1 & n1 & Et1 & Es1 & _ & ->).
    rewrite Et in Et1. injection Et1 as <-. simpl in Es1. simpl in Es. rewrite Es in Es1.
    injection Es1 as <- _ _. rewrite (threads_kept _ _ _ y_step), <- Hp1, Hp2, id_unit. done.
  - intros u uh' Hu.
    destruct (launched_all _ _ _ _ _ _ _ _ y0_fresh y_reachable Et Es' y_step eq_refl _ _ Hu)
      as [[-> ->]|(Hne & uh & Eu & ->)].
    + rewrite <- Hl in Hg. destruct (continue_ok (S R) c out Hj Hr Hg) as (H1 & H2 & _); [lia..|].
      done.
    + destruct (Hread _ _ Hne Eu) as [H1 (H2 & H3 & H4)].
      destruct uh as [[[] c']|[[] c']|]; try done; try by destruct H4.
      destruct H4 as (_ & H4 & H5). split; [|done]. split; [done|]. split; [done|].
      split; [done|]. rewrite H4. done.
Qed.

Lemma join_alone_step from c : threads y !! t = Some (At (CallJoin from, c)) ->
  count_ (lco y) = 1 -> readers_ (lco y) = 1 -> rounds_inv y' (S R) [].
Proof.
  intros Et Hc Hn. destruct (last_setter _ _ Et Hc) as (Hset & Hds & Hread).
  destruct y_inv as [HR Hin [q Hq] (Hp1 & Hp2 & Hp3) Hv _ Hth].
  destruct (Hth _ _ Et) as (Hj & Hr & Hpr & Hl & Hcall). pose proof (round_size _ _ _ Hj Hcall) as Hsz.
  pose proof (join_last from t (lco y) q Hpr Hq Hc) as Es. cbv zeta in Es.
  rewrite (proj2 (Z.eqb_eq _ _) Hn), Hsz, (epoch_queued _ _ Hq) in Es.
  eapply round_ends; [exact Et|by eapply round_left|done..| |exact Es|].
  - exists (ds ++ [from]). split; [done|]. by rewrite foldl_app, Hv.
  - intros u uh Hne Hu. exfalso.
    assert (Hone : read uh = 1).
    { apply (tsum_others_one read _ _ _ ltac:(intros; apply read_range) Et) with (u := u);
        [done|lia|done..]. }
    by destruct (Hset _ _ Hne Hu) as [c' ->].
Qed.

Lemma read_good out : ds ≡ₚ inputs R -> out = take size (value_ (lco y)) -> good R out.
Proof. intros Hds ->. exists ds. split; [done|]. by rewrite (inv_value _ _ _ y_inv). Qed.

Lemma get_more_step c : threads y !! t = Some (At (ResumeGet size, c)) ->
  count_ (lco y) + 1 < readers_ (lco y) -> rounds_inv y' R ds.
Proof.
  intros Et Hc. pose proof read_good as Hgood.
  destruct y_inv as [HR Hin [q Hq] (Hp1 & Hp2 & Hp3) Hv Hph Hth].
  destruct (Hth _ _ Et) as (Hj & Hr & Hpr & Hl & _). rewrite Hpr in *.
  destruct Hph as [(? & _)|(_ & Hct & Hct1 & Hds & HRr)]; [done|].
  pose proof (tsum_nonneg read (threads y) ltac:(intros; apply read_range)) as Hnn.
  pose proof (get_more size t (lco y) q Hpr Hq ltac:(lia) ltac:(lia)) as Es.
  pose proof (client_segment_intro _ c _ _ _ _ _ Es) as Es'.
  eapply step_rounds_inv; try done; simpl.
  - by exists (t :: q).
  - right. split; [done|].
    rewrite (tsum_step read ltac:(by intros [? ?]) _ _ _ _ _ _ _ Et Es' y_step), <- Hct.
    split; [unfold read; simpl; lia|done].
  - apply (step_forall (thread_ok R READING) (thread_ok R READING) _ _ _ _ _ _ _ Et Es' y_step);
      try done.
    split; [done|]. split; [done|]. simpl. split; [done|]. split; [done|]. by apply Hgood.
Qed.

Lemma get_last_step c : threads y !! t = Some (At (ResumeGet size, c)) ->
  count_ (lco y) + 1 = readers_ (lco y) -> rounds_inv y' (S R) [].
Proof.
  intros Et Hc. pose proof read_good as Hgood.
  destruct y_inv as [HR Hin [q Hq] (Hp1 & Hp2 & Hp3) Hv Hph Hth].
  destruct (Hth _ _ Et) as (Hj & Hr & Hpr & Hl & _). rewrite Hpr in *.
  destruct Hph as [(? & _)|(_ & Hct & Hct1 & Hds & HRr)]; [done|].
  pose proof (tsum_nonneg read (threads y) ltac:(intros; apply read_range)) as Hnn.
  pose proof (get_last size t (lco y) q Hpr Hq ltac:(lia) Hc ltac:(lia)) as Es.
  rewrite (epoch_queued _ _ Hq) in Es.
  eapply round_ends; [exact Et|done..| |exact Es|].
  - by apply Hgood.
  - intros u uh Hne Hu. split; [|by eapply Hth].
    apply (tsum_others_one read _ _ _ ltac:(intros; apply read_range) Et) with (u := u);
      [done|lia|done..].
Qed.

Lemma tail_step out c : threads y !! t = Some (At (ResumeTail out, c)) -> rounds_inv y' R ds.
Proof.
  intros Et. destruct y_inv as [HR Hin [q Hq] (Hp1 & Hp2 & Hp3) Hv Hph Hth].
  destruct (Hth _ _ Et) as (Hj & Hr & Hpr & Hl & Hg).
  pose proof (tail_done out t (lco y) q Hpr Hq) as Es.
  pose proof (client_segment_intro _ c _ _ _ _ _ Es) as Es'. cbv iota in Es'. rewrite Hpr in *.
  destruct Hph as [(_ & Hct & Hct0 & Hds)|(? & _)]; [|done].
  destruct (continue_ok R c out Hj Hr Hg Hl HR) as (H1 & H2 & H3 & H4).
  eapply step_rounds_inv; try done.
  - by exists q.
  - left. split; [done|].
    rewrite (tsum_step unset ltac:(by intros [? ?]) _ _ _ _ _ _ _ Et Es' y_step), H2.
    split; [unfold unset at 2; simpl; lia|]. split; [done|]. rewrite <- Hds.
    pose proof (tlist_step (to_come R) ltac:(by intros [? ?]) _ _ _ _ _ _ _ Et Es' y_step) as Hp.
    rewrite H4 in Hp. apply Permutation_app_inv_l in Hp. by rewrite Hp.
  - rewrite Hpr.
    by apply (step_forall (thread_ok R REDUCING) (thread_ok R REDUCING) _ _ _ _ _ _ _ Et Es' y_step).
Qed.

Lemma rounds_step : exists R' ds', rounds_inv y' R' ds'.
Proof.
  destruct (step_inv _ _ _ y_step) as ([p c] & s & ps & n & Et & _).
  pose proof (inv_threads _ _ _ y_inv _ _ Et) as (_ & _ & Hp).
  pose proof (inv_phase _ _ _ y_inv) as Hph. destruct p as [| | |size'|out|from| | | |]; try done.
  - destruct Hp as (Hp & _ & ->). destruct Hph as [(Hp' & _)|(_ & _ & Hlt & _)]; [by rewrite Hp in Hp'|].
    destruct (decide (count_ (lco y) + 1 = readers_ (lco y))).
    + eexists _, _. by eapply get_last_step.
    + eexists _, _. eapply get_more_step; [done|lia].
  - eexists _, _. by eapply tail_step.
  - destruct Hp as (Hp & _). destruct Hph as [(_ & _ & Hpos & _)|(Hp' & _)]; [|by rewrite Hp in Hp'].
    destruct (decide (count_ (lco y) = 1)) as [H1|].
    + destruct (decide (readers_ (lco y) = 1)).
      * eexists _, _. by eapply join_alone_step.
      * eexists _, _. by eapply join_last_step.
    + eexists _, _. eapply join_more_step; [done|lia].
Qed.
End Step.

(** *** Progress *)

(** How many segments are left of a join. *)
Definition rank (p : pc) : Z :=
  match p with CallJoin _ => 3 | ResumeGet _ => 2 | ResumeTail _ => 1 | _ => 0 end.

Definition weight (th : joiner) : Z :=
  match point th with
  | Some (p, c) => 3 * Z.of_nat (rounds - S (length (got c))) + rank p
  | None => 0
  end.

Lemma rounds_segment y R ds t p c : rounds_inv y R ds -> threads y !! t = Some (At (p, c)) ->
  (length (got c) < rounds)%nat /\ 0 < rank p
  /\ exists s ps m, segment p t (lco y) = Some (s, ps, m)
    /\ match m with Park q | Yield q => rank q < rank p | Return _ => True end.
Proof.
  intros [HR Hin [q Hq] (Hp1 & Hp2 & Hp3) Hv Hph Hth] Et. destruct (Hth _ _ Et) as (Hj & _ & Hp).
  destruct p as [| | |size'|out|from| | | |]; try done.
  - destruct Hp as (Hp & <- & ->).
    destruct Hph as [(Hp' & _)|(_ & Hct & Hlt & _ & HRr)]; [by rewrite Hp in Hp'|].
    pose proof (tsum_nonneg read (threads y) ltac:(intros; apply read_range)).
    split; [done|]. split; [done|]. destruct (decide (count_ (lco y) + 1 = readers_ (lco y))).
    + eexists _, _, _. split; [apply (get_last _ _ _ q); [done..|lia|done|lia]|done].
    + eexists _, _, _. split; [apply (get_more _ _ _ q); [done..|lia|lia]|done].
  - destruct Hp as (Hp & <- & _). split; [lia|]. split; [done|].
    eexists _, _, _. by split; [apply (tail_done _ _ _ q)|].
  - destruct Hp as (Hp & Hl & Hcall).
    destruct Hph as [(_ & Hct & Hpos & _)|(Hp' & _)]; [|by rewrite Hp in Hp'].
    pose proof (tsum_le unset 1 (threads y) ltac:(intros; apply unset_range)).
    pose proof (round_left _ _ _ Hj Hcall) as Hleft. split; [lia|]. split; [done|].
    destruct (decide (count_ (lco y) = 1)) as [H1|].
    + pose proof (join_last from t _ _ Hp Hq H1) as E. cbv zeta in E.
      destruct (readers_ (lco y) =? 1); by eexists _, _, _.
    + eexists _, _, _. split; [apply (join_more _ _ _ q); [done..|lia]|done].
Qed.

Lemma rounds_progress y R ds t pc : rounds_inv y R ds -> threads y !! t = Some (At pc) ->
  step y t <> None.
Proof.
  intros Hi Et. destruct pc as [p c].
  destruct (rounds_segment _ _ _ _ _ _ Hi Et) as (_ & _ & s & ps & m & Es & _).
  unfold step. by rewrite Et, (client_segment_intro _ c _ _ _ _ _ Es).
Qed.

Lemma rounds_weight y pc t s ps n : (exists R ds, rounds_inv y R ds) ->
  threads y !! t = Some (At pc) -> segment pc t (lco y) = Some (s, ps, n) ->
  weight (becomes n) < weight (At pc).
Proof.
  intros (R & ds & Hi) Et Es. destruct pc as [p c].
  destruct (rounds_segment _ _ _ _ _ _ Hi Et) as (Hl & Hpos & s' & ps' & m & Em & Hm).
  rewrite (client_segment_intro _ c _ _ _ _ _ Em) in Es. injection Es as _ _ <-.
  unfold weight; simpl. destruct m as [r|q|q]; simpl; [|lia..].
  unfold continue; simpl. rewrite length_app; simpl.
  destruct (calls c !! _) as [q|] eqn:E; simpl; [|lia].
  assert (rank q <= 3) by (destruct q; simpl; lia). apply lookup_lt_Some in E.
  destruct (inv_threads _ _ _ Hi _ _ Et) as [[Hlen _] _]. simpl in Hlen. rewrite length_app; simpl.
  lia.
Qed.

(** With nobody to run, the last round is over. *)
Lemma rounds_end y R ds : rounds_inv y R ds -> (forall t, step y t = None) ->
  forall t th, threads y !! t = Some th ->
  exists c, th = Finished c /\ length (got c) = rounds /\ results_ok c.
Proof.
  intros Hinv Hstuck.
  assert (Hno : forall t pc, threads y !! t <> Some (At pc)).
  { intros t pc Et. by eapply rounds_progress. }
  destruct Hinv as [HR Hin Hq (Hp1 & Hp2 & Hp3) Hv Hph Hth].
  destruct Hph as [(Hp & Hct & Hpos & _)|(Hp & Hct & Hlt & _)]; rewrite Hp in Hth.
  - assert (Hfin : R = rounds).
    { destruct (decide (R = rounds)) as [|Hne]; [done|]. exfalso.
      rewrite (tsum_zero unset) in Hct; [lia|]. intros t th Ht.
      destruct (Hth _ _ Ht) as (_ & _ & Hok).
      destruct th as [pc|[[] c]|c]; try done; [by destruct (Hno t pc)|by destruct Hok|].
      destruct Hok; lia. }
    intros t th Ht. destruct (Hth _ _ Ht) as (_ & Hr & Hok).
    destruct th as [pc|[[] c]|c]; try done; [by destruct (Hno t pc)|lia|by destruct Hok|].
    exists c. destruct Hok as (_ & _ & Hok). done.
  - exfalso. rewrite (tsum_const read 1) in Hct; [lia|]. intros t th Ht.
    destruct (Hth _ _ Ht) as (_ & _ & Hok).
    destruct th as [pc|[[] c]|c]; try done; [by destruct (Hno t pc)|by destruct Hok..].
Qed.

(** *** The start *)

Definition starts (th : joiner) : Prop :=
  exists from c, th = At (CallJoin from, c) /\ got c = [] /\ joins_only c
    /\ calls c !! 0%nat = Some (CallJoin from).

Definition start (value0 : list Z) (y0 : system) : Prop :=
  let n := Z.of_nat (base.size (threads y0)) in
  lco y0 = new n n size value0 /\ 0 < n < 2 ^ 64
  /\ (forall r, inputs r = tlist (input_of r) (threads y0))
  /\ forall t th, threads y0 !! t = Some th -> starts th.

Hypothesis size_pos : (0 < size)%nat.

Lemma start_inv value0 y0 : start value0 y0 -> rounds_inv y0 0 [].
Proof.
  intros (Hl & Hn & Hin & Hth).
  assert (Hu : forall t th, threads y0 !! t = Some th -> unset th = 1 /\ to_come 0 th = input_of 0 th).
  { intros t th Ht. by destruct (Hth _ _ Ht) as (from & c & -> & _). }
  constructor; rewrite ?Hl; simpl; try done.
  - lia.
  - intros r. by rewrite Hin.
  - by exists [].
  - destruct (Nat.eqb_spec size 0); [lia|]. apply id_unit.
  - left. split; [done|]. rewrite (tsum_const unset 1), Hin by (intros; by eapply Hu).
    split; [lia|]. split; [lia|]. erewrite tlist_ext; [done|]. intros; by eapply Hu.
  - intros t th Ht. destruct (Hth _ _ Ht) as (from & c & -> & Hg & Hj & Hc).
    split; [done|]. split; [intros r x; simpl; by rewrite Hg|]. simpl. by rewrite Hg.
Qed.

Lemma start_fresh value0 y0 : start value0 y0 -> fresh y0.
Proof.
  intros (Hl & _ & _ & Hth). split; [simpl; by rewrite Hl|]. split; [split; [simpl; by rewrite Hl|]|].
  - intros t th pc Ht Hpc. destruct (Hth _ _ Ht) as (from & c & -> & _ & (_ & Hf) & _).
    injection Hpc as <-. split; [done|]. apply Forall_forall. intros p Hp.
    rewrite Forall_forall in Hf. specialize (Hf p Hp). by destruct p.
  - split; [by intros t th pc p Ht Hpc Ha|].
    intros t th Ht. destruct (Hth _ _ Ht) as (from & c & -> & _). by eexists.
Qed.

Lemma start_reachable value0 y0 y : start value0 y0 -> reachable y0 y ->
  exists R ds, rounds_inv y R ds.
Proof.
  intros Hst. pose proof (start_fresh _ _ Hst) as Hf.
  apply (reachable_inv_from (fun y => exists R ds, rounds_inv y R ds)).
  - eexists _, _. by apply (start_inv value0).
  - intros y1 y2 t Hr (R & ds & Hi) Hs. by eapply (rounds_step y0 y1 y2).
Qed.

Lemma start_bound value0 y0 y ts : start value0 y0 -> run y0 ts = Some y ->
  Z.of_nat (length ts) <= 3 * Z.of_nat rounds * Z.of_nat (base.size (threads y0)).
Proof.
  intros Hst Hrun. pose proof (start_fresh _ _ Hst) as Hf.
  assert (Hw : Z.of_nat (length ts) + tsum weight (threads y) <= tsum weight (threads y0)).
  { apply (weight_run (fun y => reachable y0 y) weight); [| | |constructor|done].
    - intros y1 y2 t Hr Hs. by eapply reach_step.
    - by intros [? ?].
    - intros y1 pc t s ps n Hr. apply rounds_weight. by eapply start_reachable. }
  pose proof (tsum_nonneg weight (threads y)) as H0.
  pose proof (tsum_le weight (3 * Z.of_nat rounds) (threads y0)) as H1.
  assert (Hwt : forall th : joiner, 0 <= weight th).
  { intros th. unfold weight. destruct (point th) as [[p c]|]; [|done]. destruct p; simpl; lia. }
  specialize (H0 ltac:(intros; apply Hwt)).
  assert (tsum weight (threads y0) <= 3 * Z.of_nat rounds * Z.of_nat (base.size (threads y0)));
    [|lia].
  apply H1. intros t th Ht. destruct Hst as (_ & _ & _ & Hth).
  destruct (Hth _ _ Ht) as (from & c & -> & Hg & Hj & Hc). unfold weight; simpl. rewrite Hg; simpl.
  pose proof (round_left _ _ _ Hj Hc). lia.
Qed.
End Rounds.

(** C22: any number of threads that each join the same all-reduction [rounds] times: under every
    schedule every thread returns from every join, after at most three segments per join, and
    its result for round [r] is the fold of the operation, from the identity, over the
    inputs of all threads to round [r]; no input of another round gets in. *)
Theorem allreduce_rounds rounds size unit value0 y0 :
  (forall v, id size v = unit) -> (0 < size)%nat ->
  let inputs r := tlist (input_of r) (threads y0) in
  start rounds size inputs value0 y0 ->
  (forall ts y, run y0 ts = Some y ->
     Z.of_nat (length ts) <= 3 * Z.of_nat rounds * Z.of_nat (base.size (threads y0)))
  /\ forall y, reachable y0 y -> (forall t, step y t = None) ->
     forall t th, threads y !! t = Some th ->
     exists c, th = Finished c /\ length (got c) = rounds /\ results_ok size unit inputs c.
Proof.
  intros Hid Hsz inputs Hst. split.
  - intros ts y. by eapply start_bound.
  - intros y Hr Hstuck t th Ht. destruct (start_reachable _ _ _ _ Hid Hsz _ _ _ Hst Hr) as (R & ds & Hi).
    by eapply rounds_end.
Qed.
End AllReduction.

(** ** A concrete all-reduction: the sum of one byte *)

Definition sum_op (value from : list Z) : list Z :=
  match value, from with v :: _, x :: _ => [v + x] | _, _ => value end.

Definition sum_id (size : nat) (value : list Z) : list Z := repeat 0 size.

#[local] Instance sum_monitor : Monitor AllReduce pc result := allreduce_monitor sum_op sum_id.

Definition joins (xs : list Z) : script pc result := mkScript (map (fun x => CallJoin [x]) xs) [].

Definition two_rounds : sys AllReduce (pc * script pc result) (script pc result) :=
  mkSys (new sum_id 3 3 1 [77])
    {[ 1 := At (CallJoin [1], joins [1; 10]);
       2 := At (CallJoin [2], joins [2; 20]);
       3 := At (CallJoin [3], joins [3; 30]) ]} [].

Definition schedule : list Z := [1; 2; 3; 2; 1; 1; 3; 2; 3; 2; 1; 3; 2; 1].

Lemma two_rounds_start :
  start sum_id 2 1 (fun r => tlist (input_of r) (threads two_rounds)) [77] two_rounds.
Proof.
  split; [done|]. split; [done|]. split; [done|]. intros t th Ht. unfold two_rounds in Ht. simpl in Ht.
  assert (Hjs : forall x y, starts 2 1 (At (CallJoin [x], joins [x; y]))).
  { intros x y. eexists _, _. split; [done|]. split; [done|]. split; [|done].
    split; [done|by repeat constructor]. }
  apply lookup_insert_Some in Ht as [[_ <-]|[_ Ht]]; [done|].
  apply lookup_insert_Some in Ht as [[_ <-]|[_ Ht]]; [done|].
  by apply lookup_singleton_Some in Ht as [_ <-].
Qed.

Lemma allreduce_rounds_witness :
  exists y, run two_rounds schedule = Some y /\ stuck y = true
    /\ exists c, threads y !! 1 = Some (Finished c)
      /\ got c = [GetResult 0 [6]; GetResult 0 [60]]
      /\ results_ok sum_op 1 [0] (fun r => tlist (input_of r) (threads two_rounds)) c.
Proof.
  destruct (run two_rounds schedule) as [y|] eqn:E; [|by vm_compute in E].
  exists y. split; [done|]. assert (Hs : stuck y = true).
  { revert E. vm_compute. by intros [= <-]. }
  split; [done|]. destruct (allreduce_rounds sum_op sum_id 2 1 [0] [77] two_rounds
    ltac:(done) ltac:(lia) two_rounds_start) as [_ Hall].
  specialize (Hall y (run_reachable _ _ _ _ (reach_start _) E) (fun t => stuck_step y t Hs) 1).
  destruct (threads y !! 1) as [th|] eqn:Ey.
  - destruct (Hall th eq_refl) as (c & -> & _ & Hr). exists c. split; [done|]. split; [|done].
    revert E Ey. vm_compute. intros [= <-] [= <-]. done.
  - revert E Ey. vm_compute. by intros [= <-] [=].
Defined.

(** Sets and gets by different threads: a reader waits in its last loop for the phase to
    leave [READING].  When the writers complete the next epoch before the reader runs
    again, it finds [READING] once more and waits for an epoch whose reads include its own
    next get: nobody can run, and neither reader has returned from its calls. *)
Definition two_epochs : sys AllReduce (pc * script pc result) (script pc result) :=
  let sets := mkScript [CallSet [5]; CallSet [7]] [] in
  let gets := mkScript [CallGet 1; CallGet 1] [] in
  mkSys (new sum_id 1 2 1 [0])
    {[ 1 := At (CallSet [5], sets); 2 := At (CallGet 1, gets); 3 := At (CallGet 1, gets) ]} [].

Lemma allreduce_missed_epoch :
  exists y, run two_epochs [1; 2; 3; 1; 2; 3] = Some y /\ stuck y = true
    /\ threads y !! 2 = Some (Parked (ResumeTail [5], mkScript [CallGet 1; CallGet 1] []))
    /\ threads y !! 3 = Some (Parked (ResumeTail [7],
         mkScript [CallGet 1; CallGet 1] [GetResult 0 [5]])).
Proof. vm_compute. eexists. split; [reflexivity|]. by split. Qed.
