(* ===== verification/Gather.v ===== *)
(** * Gathers: [libhpx/scheduler/lco/Gather.cpp]

    [writers_] calls of [setId] each fill their chunk of the buffer, then [readers_] gets
    copy the buffer out, the last of which opens the next round.  The theorem is about a
    round: as many threads that set distinct chunks as the gather has writers, and as many
    readers; in every interleaving every reader returns the chunks of all writers, each
    where its offset says, and every thread finishes. *)

From S2P Require Import Prelude Bytes Condition Monitor Lco.

Record Gather := mkGather {
  cvar_ : cond;
  writers_ : Z;
  readers_ : Z;
  wcount_ : Z;
  rcount_ : Z;
  value_ : list Z;
}.

Definition new (writers readers : Z) (size : nat) : Gather :=
  mkGather (Waiting []) writers readers 0 readers (replicate size 0).

(** [getRef] is a [get] into a fresh buffer and [wait] a [get] of no bytes. *)
Inductive pc :=
| CallSet
| CallSetId (offset : Z) (buffer : list Z)
| ResumeSetId (offset : Z) (buffer : list Z)
| CallGet (size : nat)
| ResumeGet (size : nat)
| CallAttach (p : Z)
| CallError (code : Z)
| CallReset.

Inductive result :=
| SetResult (status : Z)
| GetResult (status : Z) (size : nat) (out : list Z)
| AttachResult (status : Z)
| Void.

Definition with_cvar (l : Gather) (c : cond) : Gather :=
  mkGather c l.(writers_) l.(readers_) l.(wcount_) l.(rcount_) l.(value_).

(** [get] from the test of its loop on. *)
Definition get_loop (l : Gather) (t : Z) (size : nat)
    : option (Gather * list Z * next pc result) :=
  if l.(wcount_) <? l.(writers_) then
    waitFor l.(cvar_) (with_cvar l) t (ResumeGet size)
      (fun status => Some (l, [], Return (GetResult status size [])))
  else
    out ← load l.(value_) 0 size;
    let rcount := u32 (l.(rcount_) - 1) in
    if rcount =? 0 then
      let (cvar, ps) := Cond.signalAll l.(cvar_) in
      Some (mkGather cvar l.(writers_) l.(readers_) 0 rcount l.(value_), ps,
            Return (GetResult HPX_SUCCESS size out))
    else Some (mkGather l.(cvar_) l.(writers_) l.(readers_) l.(wcount_) rcount l.(value_), [],
               Return (GetResult HPX_SUCCESS size out)).

(** [setId] from the test of its loop on. *)
Definition setId_loop (l : Gather) (t : Z) (offset : Z) (buffer : list Z)
    : option (Gather * list Z * next pc result) :=
  if l.(wcount_) =? l.(writers_) then
    waitFor l.(cvar_) (with_cvar l) t (ResumeSetId offset buffer)
      (fun status => Some (l, [], Return (SetResult status)))
  else
    let size := Z.of_nat (length buffer) in
    if size =? 0 then None else
    value ← store l.(value_) (u64 (offset * size)) buffer;
    let wcount := u32 (l.(wcount_) + 1) in
    if wcount =? l.(writers_) then
      let (cvar, ps) := Cond.signalAll l.(cvar_) in
      Some (mkGather cvar l.(writers_) l.(readers_) wcount l.(readers_) value, ps,
            Return (SetResult HPX_SUCCESS))
    else Some (mkGather l.(cvar_) l.(writers_) l.(readers_) wcount l.(rcount_) value, [],
               Return (SetResult HPX_SUCCESS)).

Definition gather_segment (p : pc) (t : Z) (l : Gather)
    : option (Gather * list Z * next pc result) :=
  let status := Cond.getError l.(cvar_) in
  match p with
  | CallSet => None
  | CallSetId offset buffer => setId_loop l t offset buffer
  | ResumeSetId offset buffer =>
    if nz status then Some (l, [], Return (SetResult status)) else setId_loop l t offset buffer
  | CallGet size => get_loop l t size
  | ResumeGet size =>
    if nz status then Some (l, [], Return (GetResult status size [])) else get_loop l t size
  | CallAttach p =>
    if l.(wcount_) =? l.(writers_) then
      let (cvar, status) := Cond.push l.(cvar_) p in
      Some (with_cvar l cvar, [], Return (AttachResult status))
    else if nz status then Some (l, [], Return (AttachResult status))
    else Some (l, [p], Return (AttachResult HPX_SUCCESS))
  | CallError code =>
    let (cvar, ps) := Cond.signalError l.(cvar_) code in
    Some (with_cvar l cvar, ps, Return Void)
  | CallReset =>
    cvar ← Cond.reset l.(cvar_);
    Some (with_cvar l cvar, [], Return Void)
  end.

#[export] Instance gather_monitor : Monitor Gather pc result := {
  segment := gather_segment;
  queued l := Cond.waiters l.(cvar_);
  attaches p := match p with CallAttach q => Some q | _ => None end;
}.

(** ** The queue laws *)

Definition gather_point_ok (p : pc) : Prop :=
  match p with CallError code => code <> HPX_SUCCESS | _ => True end.

Ltac gather_cases l H :=
  unfold gather_segment, setId_loop, get_loop in H;
  destruct l as [[q|code] w r wc rc v]; segment_cases H.

Lemma gather_queues p t l l' ps n : cond_ok (cvar_ l) -> gather_point_ok p ->
  gather_segment p t l = Some (l', ps, n) ->
  queue_law p attaches t (queued l) (queued l') ps n.
Proof. intros Hok Hp H. gather_cases l H; queue_solve. Qed.

Lemma gather_ok p t l l' ps n : cond_ok (cvar_ l) -> gather_point_ok p ->
  gather_segment p t l = Some (l', ps, n) ->
  cond_ok (cvar_ l') /\ match n with
    | Park q | Yield q => gather_point_ok q /\ attaches q = None
    | Return _ => True
    end.
Proof. intros Hok Hp H. by gather_cases l H. Qed.

#[export] Instance gather_laws : MonitorLaws Gather pc result := {
  state_ok l := cond_ok (cvar_ l);
  point_ok := gather_point_ok;
  segment_ok := gather_ok;
  segment_queues := gather_queues;
}.

(** ** One round *)

Section Round.
(** Chunks of [n] bytes, as many as there are [writers]; [readers] gets. *)
Variables (n writers readers : nat) (inputs : list (nat * list Z)).
Hypothesis n_pos : (0 < n)%nat.
Hypothesis writers_range : 0 < Z.of_nat writers < 2 ^ 32.
Hypothesis readers_range : 0 < Z.of_nat readers < 2 ^ 32.
Hypothesis buffer_range : Z.of_nat (writers * n) < 2 ^ 64.
Hypothesis inputs_writers : length inputs = writers.
Hypothesis inputs_apart : NoDup (map fst inputs).

Abbreviation system := (sys Gather pc result).

(** What a thread still has to set, and whether it has still to read. *)
Definition to_set (th : thread pc result) : list (nat * list Z) :=
  match point th with Some (CallSetId o b) => [(Z.to_nat o, b)] | _ => [] end.

Definition unread (th : thread pc result) : Z :=
  match point th with Some (CallGet _ | ResumeGet _) => 1 | _ => 0 end.

Abbreviation to_come y := (tlist to_set (threads y)).
Abbreviation to_read y := (tsum unread (threads y)).

Definition call_ok (p : pc) : Prop :=
  match p with
  | CallSetId o b => 0 <= o < Z.of_nat writers /\ length b = n
  | CallGet k => (k <= writers * n)%nat
  | _ => False
  end.

Definition round_start (y : system) : Prop :=
  lco y = new (Z.of_nat writers) (Z.of_nat readers) (writers * n)
  /\ to_come y = inputs /\ to_read y = Z.of_nat readers
  /\ forall t th, threads y !! t = Some th -> exists p, th = At p /\ call_ok p.

(** The buffer holds the chunks of [done]. *)
Definition holds (value : list Z) (done : list (nat * list Z)) : Prop :=
  length value = (writers * n)%nat /\ forall j b, (j, b) ∈ done -> chunk value n j = b.

Definition thread_ok (l : Gather) (gathered : Prop) (th : thread pc result) : Prop :=
  match th with
  | At (ResumeGet k) => (k <= writers * n)%nat /\ gathered
  | At p => call_ok p
  | Parked (ResumeGet k) => (k <= writers * n)%nat
  | Parked _ => False
  | Finished (GetResult status k out) =>
      status = HPX_SUCCESS /\ gathered /\ out = take k (value_ l)
  | Finished _ => True
  end.

(** Before the last set, while the readers read, and after the last read. *)
Definition counts_ok (l : Gather) (unset reads : Z) : Prop :=
  (0 < unset /\ wcount_ l = Z.of_nat writers - unset /\ reads = Z.of_nat readers)
  \/ (unset = 0 /\ wcount_ l = Z.of_nat writers /\ 0 < reads <= Z.of_nat readers /\ rcount_ l = reads
      /\ cvar_ l = Waiting [])
  \/ (unset = 0 /\ wcount_ l = 0 /\ reads = 0 /\ cvar_ l = Waiting []).

Record round_inv (y : system) : Prop := {
  inv_done : exists done, done ++ to_come y ≡ₚ inputs /\ holds (value_ (lco y)) done;
  inv_cvar : exists q, cvar_ (lco y) = Waiting q;
  inv_parties : writers_ (lco y) = Z.of_nat writers /\ readers_ (lco y) = Z.of_nat readers;
  inv_counts : counts_ok (lco y) (Z.of_nat (length (to_come y))) (to_read y);
  inv_threads : forall t th, threads y !! t = Some th -> thread_ok (lco y) (to_come y = []) th;
}.

Lemma gather_unread_range th : 0 <= unread th <= 1.
Proof. unfold unread. destruct (point th) as [[]|]; lia. Qed.

Lemma to_come_bound done (y : system) : done ++ to_come y ≡ₚ inputs -> (length (to_come y) <= writers)%nat.
Proof. intros H. apply Permutation_length in H. rewrite length_app in H. lia. Qed.

(** Storing a chunk that is not there yet. *)
Lemma holds_store value done o b : holds value done -> 0 <= o < Z.of_nat writers -> length b = n ->
  ~ In (Z.to_nat o) (map fst done) ->
  exists value', store value (u64 (o * Z.of_nat (length b))) b = Some value'
    /\ holds value' (done ++ [(Z.to_nat o, b)]).
Proof.
  intros [Hl Hh] Ho Hb Hnew. rewrite Hb.
  assert (Hoff : o * Z.of_nat n = Z.of_nat (Z.to_nat o * n)) by lia.
  assert (Hin : (Z.to_nat o * n + n <= writers * n)%nat) by nia.
  rewrite wrap_small by lia. rewrite Hoff.
  destruct (store value (Z.of_nat (Z.to_nat o * n)) b) as [v|] eqn:E.
  2: { rewrite store_some in E by lia. done. }
  exists v. split; [done|]. destruct (chunk_store _ n _ _ _ Hb E) as [H1 H2].
  split; [by rewrite (store_length _ _ _ _ E)|]. intros j c Hj.
  apply elem_of_app in Hj as [Hj|Hj].
  - rewrite H2; [by apply Hh|]. intros ->. apply Hnew, in_map_iff. exists (Z.to_nat o, c).
    by rewrite <- list_elem_of_In.
  - apply list_elem_of_singleton in Hj. by injection Hj as -> ->.
Qed.

Lemma gather_set_effect o b t l q v : cvar_ l = Waiting q -> (0 < length b)%nat ->
  0 <= wcount_ l < writers_ l -> writers_ l < 2 ^ 32 ->
  store (value_ l) (u64 (o * Z.of_nat (length b))) b = Some v ->
  exists l' ps, segment (CallSetId o b) t l = Some (l', ps, Return (SetResult HPX_SUCCESS))
    /\ value_ l' = v /\ wcount_ l' = wcount_ l + 1
    /\ writers_ l' = writers_ l /\ readers_ l' = readers_ l
    /\ ((wcount_ l' = writers_ l /\ cvar_ l' = Waiting [] /\ rcount_ l' = readers_ l)
        \/ (wcount_ l' <> writers_ l /\ cvar_ l' = Waiting q /\ ps = [])).
Proof.
  destruct l as [c w r wc rc v0]; simpl. intros -> Hb Hw Hw' Hs. unfold setId_loop; simpl.
  destruct (Z.eqb_spec wc w); [lia|]. destruct (Z.eqb_spec (Z.of_nat (length b)) 0); [lia|].
  rewrite Hs; simpl. rewrite wrap_small by lia.
  destruct (Z.eqb_spec (wc + 1) w); eexists _, _; (split; [done|]); simpl;
    repeat (split; [done|]); [left|right]; done.
Qed.

Lemma gather_get_wait k t l q : cvar_ l = Waiting q -> wcount_ l < writers_ l ->
  get_loop l t k = Some (with_cvar l (Waiting (t :: q)), [], Park (ResumeGet k)).
Proof.
  intros Hc Hw. unfold get_loop, waitFor. by rewrite (proj2 (Z.ltb_lt _ _) Hw), Hc.
Qed.

Lemma gather_get_effect k t l : cvar_ l = Waiting [] -> wcount_ l = writers_ l ->
  0 < rcount_ l < 2 ^ 32 -> (k <= length (value_ l))%nat ->
  get_loop l t k =
    Some (mkGather (Waiting []) (writers_ l) (readers_ l)
            (if rcount_ l =? 1 then 0 else wcount_ l) (rcount_ l - 1) (value_ l), [],
          Return (GetResult HPX_SUCCESS k (take k (value_ l)))).
Proof.
  destruct l as [c w r wc rc v]; simpl. intros -> -> Hr Hk. unfold get_loop; simpl.
  rewrite Z.ltb_irrefl, load_some by lia. simpl. rewrite wrap_small by lia.
  destruct (Z.eqb_spec (rc - 1) 0), (Z.eqb_spec rc 1); try lia; done.
Qed.

(** *** The steps of a round *)

(** A set never waits, and takes the round to the reading phase when it is the last. *)
Lemma gather_set_cases y t o b : round_inv y -> threads y !! t = Some (At (CallSetId o b)) ->
  0 < Z.of_nat (length (to_come y)) /\ to_read y = Z.of_nat readers
  /\ (exists ds v, ds ++ to_come y ≡ₚ inputs /\ holds v (ds ++ [(Z.to_nat o, b)])
     /\ exists l' ps, segment (CallSetId o b) t (lco y) = Some (l', ps, Return (SetResult HPX_SUCCESS))
       /\ value_ l' = v /\ (exists q, cvar_ l' = Waiting q)
       /\ writers_ l' = writers_ (lco y) /\ readers_ l' = readers_ (lco y)
       /\ counts_ok l' (Z.of_nat (length (to_come y)) - 1) (Z.of_nat readers)
       /\ (ps <> [] -> length (to_come y) = 1%nat)).
Proof.
  intros [(ds & Hin & Hh) [q Hq] [Hw Hr] Hc Hth] Et.
  destruct (Hth _ _ Et) as [Ho Hb]. pose proof (to_come_bound _ _ Hin) as Hle.
  pose proof (tlist_update to_set _ _ _ (Finished Void) Et) as Hup. simpl in Hup.
  destruct Hc as [(Hp & Hwc & Hreads)|Hc]; cycle 1.
  { exfalso. apply Permutation_length in Hup. simpl in Hup. destruct Hc as [(? & _)|(? & _)]; lia. }
  destruct (holds_store (value_ (lco y)) ds o b Hh Ho Hb) as (v & Hst & Hh').
  { intros Hino. rewrite <- Hin, <- Hup, map_app in inputs_apart. simpl in inputs_apart.
    apply NoDup_app in inputs_apart as (_ & Hdis & _). apply list_elem_of_In in Hino.
    apply (Hdis _ Hino). by left. }
  destruct (gather_set_effect o b t (lco y) q v Hq ltac:(lia) ltac:(lia) ltac:(lia) Hst)
    as (l' & ps & Es & Hv & Hwc' & Hw' & Hr' & Hor).
  split; [done|]. split; [done|]. exists ds, v. split; [done|]. split; [done|].
  exists l', ps. split; [done|]. split; [done|].
  destruct Hor as [(H1 & H2 & H3)|(H1 & H2 & ->)]; (split; [by eexists|]); (split; [done|]);
    (split; [done|]); (split; [|intros ?; done || lia]).
  - right; left. repeat split; (done || lia).
  - left. lia.
Qed.

Lemma gather_set_step y y' t o b : round_inv y -> threads y !! t = Some (At (CallSetId o b)) ->
  step y t = Some y' -> round_inv y'.
Proof.
  intros Hi Et Hs. destruct (gather_set_cases _ _ _ _ Hi Et)
    as (Hp & Hreads & ds & v & Hin & Hh & l' & ps & Es & Hv & Hq & Hw & Hr & Hc & Hps).
  destruct Hi as [_ _ [Hw0 Hr0] _ Hth].
  pose proof (tlist_step to_set ltac:(done) _ _ _ _ _ _ _ Et Es Hs) as Hcome. simpl in Hcome.
  pose proof (Permutation_length Hcome) as Hlen. simpl in Hlen.
  pose proof (tsum_step unread ltac:(done) _ _ _ _ _ _ _ Et Es Hs) as Hrd. simpl in Hrd.
  assert (Hrd' : to_read y' = Z.of_nat readers) by (rewrite Hrd, Hreads; unfold unread; simpl; lia).
  constructor; rewrite ?(step_lco _ _ _ _ _ _ _ Et Es Hs), ?Hv, ?Hrd'; [| done | lia | |].
  - exists (ds ++ [(Z.to_nat o, b)]). split; [|done]. rewrite <- Hin, <- Hcome. by rewrite <- app_assoc.
  - by replace (Z.of_nat (length (to_come y'))) with (Z.of_nat (length (to_come y)) - 1) by lia.
  - apply (step_forall _ _ _ _ _ _ _ _ _ Et Es Hs Hth); [|done|].
    + intros [[]|[]|[]]; try done; simpl.
      * intros [_ E]. by rewrite E in Hp.
      * intros (_ & E & _). by rewrite E in Hp.
    + intros [] Hne; try done; simpl. intros Hk. split; [done|].
      apply length_zero_iff_nil. specialize (Hps Hne). lia.
Qed.

(** What a get does in the phase it finds. *)
Lemma gather_get_cases y t p k : round_inv y -> threads y !! t = Some (At p) ->
  p = CallGet k \/ p = ResumeGet k ->
  exists l' n', segment p t (lco y) = Some (l', [], n')
    /\ value_ l' = value_ (lco y) /\ (exists q, cvar_ l' = Waiting q)
    /\ writers_ l' = writers_ (lco y) /\ readers_ l' = readers_ (lco y)
    /\ counts_ok l' (Z.of_nat (length (to_come y))) (to_read y - 1 + unread (becomes n'))
    /\ thread_ok l' (to_come y = []) (becomes n') /\ to_set (becomes n') = []
    /\ ((exists r, n' = Return r) \/ (p = CallGet k /\ n' = Park (ResumeGet k))).
Proof.
  intros [(ds & Hin & Hh) [q Hq] [Hw Hr] Hc Hth] Et Hp. pose proof (to_come_bound _ _ Hin) as Hle.
  assert (Hk : (k <= writers * n)%nat) by (destruct Hp as [-> | ->]; [exact (Hth _ _ Et)|exact (proj1 (Hth _ _ Et))]).
  assert (Hseg : segment p t (lco y) = get_loop (lco y) t k).
  { by destruct Hp as [-> | ->]; simpl; rewrite ?Hq. }
  assert (Hun : 1 <= to_read y).
  { pose proof (tsum_ge unread _ t _ ltac:(intros; apply gather_unread_range) Et) as Hge.
    by destruct Hp as [-> | ->]. }
  rewrite Hseg. destruct Hc as [(Hp0 & Hwc & Hreads)|[(Hu & Hwc & Hpos & Hrc & Hq')|(_ & _ & ? & _)]]; [| |lia].
  - rewrite (gather_get_wait k t (lco y) q Hq) by lia. eexists _, _. split; [done|]. simpl.
    repeat (split; [done|]). split; [by eexists|]. repeat (split; [done|]).
    split; [left; split; [done|]; split; [done|]; change (unread (Parked (ResumeGet k))) with 1; lia|].
    repeat (split; [done|]). right. destruct Hp as [-> | ->]; [done|].
    destruct (Hth _ _ Et) as [_ E]. by rewrite E in Hp0.
  - rewrite (gather_get_effect k t (lco y)); [|done|lia|lia|by rewrite (proj1 Hh)].
    eexists _, _. split; [done|]. simpl. split; [done|]. split; [by eexists|].
    split; [done|]. split; [done|]. change (unread (Finished _)) with 0.
    split; [|split; [|split; [done|by left; eexists]]].
    + right. destruct (Z.eqb_spec (rcount_ (lco y)) 1); [right|left]; simpl; repeat split; (done || lia).
    + split; [done|]. split; [|done]. apply length_zero_iff_nil. lia.
Qed.

Lemma gather_get_step y y' t p k : round_inv y -> threads y !! t = Some (At p) ->
  p = CallGet k \/ p = ResumeGet k -> step y t = Some y' -> round_inv y'.
Proof.
  intros Hi Et Hp Hs.
  destruct (gather_get_cases y t p k Hi Et Hp) as (l' & n' & Es & Hv & Hq & Hw & Hr & Hc & Hth & Hset & _).
  destruct Hi as [(ds & Hin & Hh) _ [Hw0 Hr0] _ Hth0].
  pose proof (tlist_step to_set ltac:(done) _ _ _ _ _ _ _ Et Es Hs) as Hcome. rewrite Hset in Hcome.
  pose proof (tsum_step unread ltac:(done) _ _ _ _ _ _ _ Et Es Hs) as Hrd.
  assert (E1 : unread (At p) = 1) by (by destruct Hp as [-> | ->]).
  assert (E0 : to_set (At p) = []) by (by destruct Hp as [-> | ->]).
  rewrite E0 in Hcome. simpl in Hcome. pose proof (Permutation_length Hcome) as Hlen.
  assert (Hnil : to_come y' = [] <-> to_come y = []).
  { rewrite <- !length_zero_iff_nil. by rewrite Hlen. }
  constructor; rewrite ?(step_lco _ _ _ _ _ _ _ Et Es Hs), ?Hv, ?Hlen, ?Hrd, ?E1; try done.
  - exists ds. split; [by rewrite Hcome|done].
  - by rewrite Hw, Hr.
  - apply (step_forall _ _ _ _ _ _ _ _ _ Et Es Hs Hth0); [| |done].
    + intros [[]|[]|[]]; simpl; rewrite ?Hnil, ?Hv; done.
    + destruct (becomes n') as [[]|[]|[]]; simpl in *; rewrite ?Hnil; done.
Qed.

Lemma gather_round_step y y' t : round_inv y -> step y t = Some y' -> round_inv y'.
Proof.
  intros Hi Hs. destruct (step_inv _ _ _ Hs) as (p & s & ps & n' & Et & _).
  pose proof (inv_threads _ Hi _ _ Et) as Hp. destruct p; try done.
  - by eapply gather_set_step.
  - eapply gather_get_step; [done|done|by left|done].
  - eapply gather_get_step; [done|done|by right|done].
Qed.

Lemma gather_round_start_inv y : round_start y -> round_inv y /\ fresh y.
Proof.
  intros (Hl & Hin & Hrd & Hth). split.
  - constructor; rewrite ?Hl, ?Hin, ?Hrd; simpl; try done.
    + exists []. split; [done|]. split; [by rewrite length_replicate|]. by intros j b ?%not_elem_of_nil.
    + by eexists.
    + left. simpl. lia.
    + intros t th Ht. destruct (Hth _ _ Ht) as (p & -> & Hp). by destruct p.
  - split; [by rewrite Hl|]. split; [split; [by rewrite Hl|]|split].
    + intros t th p Ht Hp. destruct (Hth _ _ Ht) as (p' & -> & Hp'). injection Hp as <-. by destruct p'.
    + intros t th p q Ht Hp Ha. destruct (Hth _ _ Ht) as (p' & -> & Hp'). injection Hp as <-. by destruct p'.
    + intros t th Ht. destruct (Hth _ _ Ht) as (p & -> & _). by eexists.
Qed.

Definition weight (th : thread pc result) : Z :=
  match point th with Some (CallGet _) => 2 | Some _ => 1 | None => 0 end.

Lemma gather_weight_range th : 0 <= weight th <= 2.
Proof. unfold weight. destruct (point th) as [[]|]; lia. Qed.

Lemma gather_progress y t p : round_inv y -> threads y !! t = Some (At p) ->
  exists l' ps n', segment p t (lco y) = Some (l', ps, n') /\ weight (becomes n') < weight (At p).
Proof.
  intros Hi Et. pose proof (inv_threads _ Hi _ _ Et) as Hp.
  assert (Hget : forall k, p = CallGet k \/ p = ResumeGet k -> exists l' ps n',
            segment p t (lco y) = Some (l', ps, n') /\ weight (becomes n') < weight (At p)).
  { intros k Hk. destruct (gather_get_cases y t _ k Hi Et Hk)
      as (l' & n' & Es & _ & _ & _ & _ & _ & _ & _ & [[r ->]|[-> ->]]);
      (eexists _, _, _; split; [exact Es|]); [|done]. by destruct Hk as [-> | ->]. }
  destruct p as [|o b| |k|k| | |]; try done; [|apply (Hget k); by left|apply (Hget k); by right].
  destruct (gather_set_cases _ _ _ _ Hi Et) as (_ & _ & ds & v & _ & _ & l' & ps & Es & _).
  by eexists _, _, _.
Qed.

Lemma gather_drained y : round_inv y -> (forall t p, threads y !! t <> Some (At p)) ->
  queued (lco y) = [].
Proof.
  intros [_ _ _ Hc Hth] Hno. simpl.
  destruct Hc as [(Hp & _)|[(_ & _ & _ & _ & ->)|(_ & _ & _ & ->)]]; [|done..].
  rewrite tlist_nil in Hp; [done|]. intros t [p|p|r] Ht; try done; [by destruct (Hno t p)|].
  specialize (Hth _ _ Ht). by destruct p.
Qed.

Lemma gather_round_reachable y0 y : round_start y0 -> reachable y0 y -> round_inv y.
Proof.
  intros H0. apply reachable_inv; [by apply gather_round_start_inv|]. intros y1 y2 t. apply gather_round_step.
Qed.

(** What a reader must get: the first [k] bytes of the chunks of all writers. *)
Definition gathers (k : nat) (out : list Z) : Prop :=
  exists value, length value = (writers * n)%nat /\ out = take k value
    /\ forall j b, (j, b) ∈ inputs -> chunk value n j = b.

(** A round of a gather: [writers] threads that set distinct chunks and [readers] threads
    that get.  In every interleaving, a get that has returned has succeeded with the
    chunks of all the writers, each at its offset; every schedule is finite, and when
    nothing can run every thread has returned. *)
Theorem gather_round y0 ts y : round_start y0 -> run y0 ts = Some y ->
  (forall t status k out, threads y !! t = Some (Finished (GetResult status k out)) ->
     status = HPX_SUCCESS /\ gathers k out)
  /\ Z.of_nat (length ts) <= 2 * Z.of_nat (size (threads y0))
  /\ ((forall t, step y t = None) ->
      forall t th, threads y !! t = Some th -> exists r, th = Finished r).
Proof.
  intros H0 Hrun. pose proof (run_reachable _ _ _ _ (reach_start y0) Hrun) as Hr.
  pose proof (gather_round_reachable _ _ H0 Hr) as Hi. destruct (gather_round_start_inv _ H0) as [Hi0 Hf].
  split; [|split].
  - intros t status k out Ht. destruct (inv_threads _ Hi _ _ Ht) as (-> & Hnil & ->). split; [done|].
    destruct (inv_done _ Hi) as (ds & Hin & Hl & Hh). rewrite Hnil, app_nil_r in Hin.
    exists (value_ (lco y)). split; [done|]. split; [done|]. intros j b Hj. apply Hh. by rewrite Hin.
  - apply (run_bound round_inv weight) with (y' := y); try done.
    + intros y1 y2 t. apply gather_round_step.
    + apply gather_weight_range.
    + intros y1 p t s' ps n' Hi1 Ht Hs. destruct (gather_progress _ _ _ Hi1 Ht) as (? & ? & ? & E & Hlt).
      rewrite E in Hs. by injection Hs as <- <- <-.
  - apply (all_finished y0); [done..| |by apply gather_drained].
    intros t p Ht. destruct (gather_progress _ _ _ Hi Ht) as (? & ? & ? & E & _).
    unfold step. by rewrite Ht, E.
Qed.
End Round.

(** ** Witness: two writers of two bytes, two readers *)

Definition demo : sys Gather pc result :=
  mkSys (new 2 2 4)
    {[ 1 := At (CallSetId 1 [12; 13]); 2 := At (CallGet 4); 3 := At (CallSetId 0 [10; 11]);
       4 := At (CallGet 3) ]} [].

Lemma gather_demo_start :
  round_start 2 2 2 (tlist to_set (threads demo)) demo.
Proof.
  split; [done|]. split; [done|]. split; [done|]. intros t th Ht. unfold demo in Ht; simpl in Ht.
  repeat (apply lookup_insert_Some in Ht as [[<- <-]|[_ Ht]]; [eexists; split; [done|simpl; lia]|]).
  apply lookup_singleton_Some in Ht as [<- <-]. eexists. split; [done|simpl; lia].
Qed.

Lemma gather_round_witness : exists y,
  run demo [2; 1; 3; 4; 2] = Some y
  /\ threads y !! 2 = Some (Finished (GetResult HPX_SUCCESS 4 [10; 11; 12; 13]))
  /\ gathers 2 2 (tlist to_set (threads demo)) 4 [10; 11; 12; 13]
  /\ forall t th, threads y !! t = Some th -> exists r, th = Finished r.
Proof.
  destruct (run demo [2; 1; 3; 4; 2]) as [y|] eqn:E; [|by vm_compute in E].
  assert (H2 : threads y !! 2 = Some (Finished (GetResult HPX_SUCCESS 4 [10; 11; 12; 13])))
    by (vm_compute in E; by simplify_eq).
  exists y. split; [done|]. split; [done|].
  destruct (gather_round 2 2 2 (tlist to_set (threads demo)) ltac:(lia) ltac:(lia) ltac:(lia)
    ltac:(lia) eq_refl ltac:(vm_compute; repeat constructor; set_solver) demo _ y gather_demo_start E)
    as (H1 & _ & H3).
  split; [by apply (H1 2 HPX_SUCCESS)|]. apply H3. intros t. apply stuck_step. vm_compute in E.
  by simplify_eq.
Defined.
