(* ===== verification/AllToAll.v ===== *)
(** * All-to-all exchanges: [libhpx/scheduler/lco/AllToAll.cpp]

    Each of [inputs_] participants sets a row of [inputs_] elements and gets a column:
    [setId] scatters its row over the buffer so that [getId] copies one contiguous row
    out.  The sets of a round come first, then the gets; a reader that is not the last
    waits for the round to end.  The theorem is about a round: in every interleaving of
    the setters and the getters of a round, participant [i] gets element [i] of every
    participant's row, in the order of the participants, and every thread finishes. *)

From S2P Require Import Prelude Bytes Condition Monitor Lco.

Definition GATHERING : Z := 0.
Definition READING : Z := 1.

Record AllToAll := mkAllToAll {
  wait_ : cond;
  inputs_ : Z;
  count_ : Z;
  phase_ : Z;
  value_ : list Z;
}.

Definition new (inputs : Z) (value0 : list Z) : AllToAll :=
  mkAllToAll (Waiting []) inputs inputs GATHERING value0.

(** [CallSet] stands for [set], [get], [getRef] and [release], which this class does not
    support; [wait] is a [getId] of no bytes.  A get's result keeps the offset it asked for. *)
Inductive pc :=
| CallSet
| CallSetId (offset : Z) (buffer : list Z)
| ResumeSetId (offset : Z) (buffer : list Z)
| CallGetId (offset : Z) (size : nat)
| ResumeGetId (offset : Z) (size : nat)
| ResumeTail (offset : Z) (out : list Z)
| CallAttach (p : Z)
| CallError (code : Z)
| CallReset.

Inductive result :=
| SetResult (status : Z)
| GetResult (status offset : Z) (out : list Z)
| AttachResult (status : Z)
| Void.

Definition with_wait (l : AllToAll) (c : cond) : AllToAll :=
  mkAllToAll c l.(inputs_) l.(count_) l.(phase_) l.(value_).

(** The loop of [setId] with [k] iterations left; every offset is an [unsigned]. *)
Fixpoint scatter (k : nat) (i size elementSize columnOffset : Z) (buffer value : list Z)
    : option (list Z) :=
  match k with
  | O => Some value
  | S k =>
    let rowOffset := u32 (i * size) in
    let destOffset := u32 (rowOffset + columnOffset) in
    let sourceOffset := u32 (i * elementSize) in
    element ← load buffer sourceOffset (Z.to_nat elementSize);
    value ← store value destOffset element;
    scatter k (i + 1) size elementSize columnOffset buffer value
  end.

(** The row of [offset] put in its column. *)
Definition transpose (inputs offset : Z) (buffer value : list Z) : option (list Z) :=
  let size := Z.of_nat (length buffer) in
  let elementSize := u32 (size / inputs) in
  let columnOffset := u32 (offset * elementSize) in
  scatter (Z.to_nat (i32 inputs)) 0 size elementSize columnOffset buffer value.

(** The last loop of [getId]. *)
Definition get_tail (l : AllToAll) (t : Z) (offset : Z) (out : list Z)
    : option (AllToAll * list Z * next pc result) :=
  if l.(phase_) =? READING then
    waitFor l.(wait_) (with_wait l) t (ResumeTail offset out)
      (fun status => Some (l, [], Return (GetResult status offset out)))
  else Some (l, [], Return (GetResult HPX_SUCCESS offset out)).

(** [getId] from the test of its first loop on. *)
Definition getId_loop (l : AllToAll) (t : Z) (offset : Z) (size : nat)
    : option (AllToAll * list Z * next pc result) :=
  if negb (l.(phase_) =? READING) then
    waitFor l.(wait_) (with_wait l) t (ResumeGetId offset size)
      (fun status => Some (l, [], Return (GetResult status offset [])))
  else
    out ← (if Nat.eqb size 0 then Some []
           else load l.(value_) (u64 (offset * Z.of_nat size)) size);
    let count := u32 (l.(count_) + 1) in
    if count =? l.(inputs_) then
      let (wait, ps) := Cond.signalAll l.(wait_) in
      Some (mkAllToAll wait l.(inputs_) count GATHERING l.(value_), ps,
            Return (GetResult HPX_SUCCESS offset out))
    else get_tail (mkAllToAll l.(wait_) l.(inputs_) count l.(phase_) l.(value_)) t offset out.

(** [setId] from the test of its loop on. *)
Definition setId_loop (l : AllToAll) (t : Z) (offset : Z) (buffer : list Z)
    : option (AllToAll * list Z * next pc result) :=
  if negb (l.(phase_) =? GATHERING) then
    waitFor l.(wait_) (with_wait l) t (ResumeSetId offset buffer)
      (fun status => Some (l, [], Return (SetResult status)))
  else
    value ← transpose l.(inputs_) offset buffer l.(value_);
    let count := u32 (l.(count_) - 1) in
    if count =? 0 then
      let (wait, ps) := Cond.signalAll l.(wait_) in
      Some (mkAllToAll wait l.(inputs_) count READING value, ps, Return (SetResult HPX_SUCCESS))
    else Some (mkAllToAll l.(wait_) l.(inputs_) count l.(phase_) value, [],
               Return (SetResult HPX_SUCCESS)).

Definition alltoall_segment (p : pc) (t : Z) (l : AllToAll)
    : option (AllToAll * list Z * next pc result) :=
  let status := Cond.getError l.(wait_) in
  match p with
  | CallSet => None
  | CallSetId offset buffer =>
    if Nat.eqb (length buffer) 0 then None else setId_loop l t offset buffer
  | ResumeSetId offset buffer =>
    if nz status then Some (l, [], Return (SetResult status)) else setId_loop l t offset buffer
  | CallGetId offset size => getId_loop l t offset size
  | ResumeGetId offset size =>
    if nz status then Some (l, [], Return (GetResult status offset [])) else getId_loop l t offset size
  | ResumeTail offset out =>
    if nz status then Some (l, [], Return (GetResult status offset out)) else get_tail l t offset out
  | CallAttach p =>
    let (wait, pushed) :=
      if negb (l.(phase_) =? GATHERING) then Cond.push l.(wait_) p
      else (l.(wait_), HPX_SUCCESS) in
    if nz pushed then Some (l, [], Return (AttachResult pushed))
    else if nz (Cond.getError wait) then
      Some (with_wait l wait, [], Return (AttachResult (Cond.getError wait)))
    else Some (with_wait l wait, [p], Return (AttachResult HPX_SUCCESS))
  | CallError code =>
    let (wait, ps) := Cond.signalError l.(wait_) code in
    Some (with_wait l wait, ps, Return Void)
  | CallReset =>
    wait ← Cond.reset l.(wait_);
    Some (with_wait l wait, [], Return Void)
  end.

#[export] Instance alltoall_monitor : Monitor AllToAll pc result := {
  segment := alltoall_segment;
  queued l := Cond.waiters l.(wait_);
  attaches p := match p with CallAttach q => Some q | _ => None end;
}.

(** ** The queue laws *)

Definition alltoall_point_ok (p : pc) : Prop :=
  match p with CallError code => code <> HPX_SUCCESS | _ => True end.

Ltac alltoall_cases l H :=
  unfold alltoall_segment, setId_loop, getId_loop, get_tail in H;
  destruct l as [[q|code] i c ph v]; segment_cases H.

Lemma alltoall_queues p t l l' ps n : cond_ok (wait_ l) -> alltoall_point_ok p ->
  alltoall_segment p t l = Some (l', ps, n) ->
  queue_law p attaches t (queued l) (queued l') ps n.
Proof.
  intros Hok Hp H. alltoall_cases l H; try queue_solve.
  (* an attach while reading queues the parcel and launches it as well *)
  exists [p0; p0]. split; [done|]. by repeat constructor.
Qed.

Lemma alltoall_ok p t l l' ps n : cond_ok (wait_ l) -> alltoall_point_ok p ->
  alltoall_segment p t l = Some (l', ps, n) ->
  cond_ok (wait_ l') /\ match n with
    | Park q | Yield q => alltoall_point_ok q /\ attaches q = None
    | Return _ => True
    end.
Proof. intros Hok Hp H. by alltoall_cases l H. Qed.

#[export] Instance alltoall_laws : MonitorLaws AllToAll pc result := {
  state_ok l := cond_ok (wait_ l);
  point_ok := alltoall_point_ok;
  segment_ok := alltoall_ok;
  segment_queues := alltoall_queues;
}.

(** ** The transposition *)

Section Transpose.
(** [n] participants with rows of [n] elements of [e] bytes; the buffer is below 4 GiB. *)
Variables (n e : nat).
Hypothesis n_range : 0 < Z.of_nat n < 2 ^ 31.
Hypothesis e_pos : (0 < e)%nat.
Hypothesis buffer_range : Z.of_nat (n * (n * e)) < 2 ^ 32.

Lemma chunk_load buf i : ((i + 1) * e <= length buf)%nat ->
  load buf (Z.of_nat (i * e)) e = Some (chunk buf e i) /\ length (chunk buf e i) = e.
Proof.
  intros Hi. split.
  - rewrite load_some by lia. by rewrite Nat2Z.id.
  - unfold chunk. rewrite length_take, length_drop. lia.
Qed.

Lemma row_column (m a b i j : nat) : (b < m)%nat -> (j < m)%nat ->
  (a * m + b = i * m + j)%nat -> b = j /\ a = i.
Proof.
  intros Hb Hj Heq. destruct (Nat.lt_trichotomy a i) as [H|[->|H]]; [|lia|]; exfalso; nia.
Qed.

(** Iterations [i] to [n - 1] of the loop, for participant [j]. *)
Lemma scatter_spec j buf : (j < n)%nat -> length buf = (n * e)%nat ->
  forall k i value, (i + k = n)%nat -> length value = (n * (n * e))%nat ->
  exists value', scatter k (Z.of_nat i) (Z.of_nat (n * e)) (Z.of_nat e) (Z.of_nat (j * e)) buf value = Some value'
    /\ length value' = length value
    /\ forall a b, (b < n)%nat ->
         chunk value' e (a * n + b) =
           if decide (b = j /\ (i <= a < n)%nat) then chunk buf e a else chunk value e (a * n + b).
Proof.
  intros Hj Hbuf. induction k as [|k IH]; intros i value Hik Hv; simpl.
  { exists value. split; [done|]. split; [done|]. intros a b Hb. rewrite decide_False by lia. done. }
  assert (Hrow : (i * (n * e) + j * e + e <= n * (n * e))%nat) by nia.
  assert (Hsrc : ((i + 1) * e <= n * e)%nat) by nia.
  replace (Z.of_nat i * Z.of_nat (n * e)) with (Z.of_nat (i * (n * e))) by lia.
  replace (Z.of_nat i * Z.of_nat e) with (Z.of_nat (i * e)) by lia.
  assert (Hne : (n * e <= n * (n * e))%nat) by (destruct n; lia).
  rewrite (wrap_small 32 (Z.of_nat (i * (n * e)))), (wrap_small 32 (Z.of_nat (i * e))),
    (wrap_small 32 (_ + _)) by lia.
  replace (Z.of_nat (i * (n * e)) + Z.of_nat (j * e)) with (Z.of_nat ((i * n + j) * e)) by lia.
  rewrite Nat2Z.id. destruct (chunk_load buf i) as [-> Hcl]; [by rewrite Hbuf|]. simpl.
  destruct (store value (Z.of_nat ((i * n + j) * e)) (chunk buf e i)) as [v|] eqn:E.
  2: { rewrite store_some in E by lia. done. }
  simpl. destruct (chunk_store _ e _ _ _ Hcl E) as [H1 H2].
  pose proof (store_length _ _ _ _ E) as Hlv.
  replace (Z.of_nat i + 1) with (Z.of_nat (S i)) by lia.
  destruct (IH (S i) v) as (v' & Hs & Hl & Hc); [lia|lia|]. exists v'. split; [done|].
  split; [by rewrite Hl|]. intros a b Hb. rewrite Hc by done.
  destruct (decide (b = j /\ (S i <= a < n)%nat)) as [[-> Ha]|Hn].
  - by rewrite decide_True by lia.
  - destruct (decide (b = j /\ (i <= a < n)%nat)) as [[-> Ha]|Hn'].
    + assert (a = i) as -> by (destruct (decide (a = i)); [done|exfalso; apply Hn; lia]). done.
    + apply H2. intros Heq. apply Hn'. assert (b = j /\ a = i); [|lia].
      apply (row_column n); lia.
Qed.

(** The row of participant [j] becomes column [j], and the other columns stay. *)
Lemma transpose_spec j buf value : 0 <= j < Z.of_nat n -> length buf = (n * e)%nat ->
  length value = (n * (n * e))%nat ->
  exists value', transpose (Z.of_nat n) j buf value = Some value' /\ length value' = length value
    /\ forall a b, (a < n)%nat -> (b < n)%nat ->
         chunk value' e (a * n + b) =
           if decide (b = Z.to_nat j) then chunk buf e a else chunk value e (a * n + b).
Proof.
  intros Hj Hbuf Hv. unfold transpose. rewrite Hbuf.
  assert (Hd : Z.of_nat (n * e) / Z.of_nat n = Z.of_nat e).
  { rewrite Nat2Z.inj_mul, Z.mul_comm. apply Z.div_mul. lia. }
  assert (He : (e <= n * e)%nat) by (destruct n; lia).
  assert (Hne : (n * e <= n * (n * e))%nat) by (destruct n; lia).
  assert (Hje : j * Z.of_nat e = Z.of_nat (Z.to_nat j * e)) by lia.
  assert (Hjn : (Z.to_nat j * e <= n * e)%nat) by (apply Nat.mul_le_mono_r; lia).
  rewrite Hd, (wrap_small 32 (Z.of_nat e)), Hje, wrap_small, swrap_small by lia. rewrite Nat2Z.id.
  destruct (scatter_spec (Z.to_nat j) buf ltac:(lia) Hbuf n 0 value eq_refl Hv) as (v & Hs & Hl & Hc).
  exists v. split; [done|]. split; [done|]. intros a b Ha Hb. rewrite Hc by done.
  apply decide_ext. lia.
Qed.
End Transpose.

(** ** One round *)

Section Round.
Variables (n e : nat) (inputs : list (nat * list Z)).
Hypothesis n_range : 0 < Z.of_nat n < 2 ^ 31.
Hypothesis e_pos : (0 < e)%nat.
Hypothesis buffer_range : Z.of_nat (n * (n * e)) < 2 ^ 32.
Hypothesis inputs_all : length inputs = n.
Hypothesis inputs_apart : NoDup (map fst inputs).

Abbreviation system := (sys AllToAll pc result).

(** The rows still to set, and the threads that have still to read. *)
Definition to_set (th : thread pc result) : list (nat * list Z) :=
  match point th with Some (CallSetId o b) => [(Z.to_nat o, b)] | _ => [] end.

Definition unread (th : thread pc result) : Z :=
  match point th with Some (CallGetId _ _ | ResumeGetId _ _) => 1 | _ => 0 end.

Abbreviation to_come y := (tlist to_set (threads y)).
Abbreviation to_read y := (tsum unread (threads y)).

Definition call_ok (p : pc) : Prop :=
  match p with
  | CallSetId o b => 0 <= o < Z.of_nat n /\ length b = (n * e)%nat
  | CallGetId o k => 0 <= o < Z.of_nat n /\ k = (n * e)%nat
  | _ => False
  end.

Definition round_start (y : system) : Prop :=
  (exists value0, lco y = new (Z.of_nat n) value0 /\ length value0 = (n * (n * e))%nat)
  /\ to_come y = inputs /\ to_read y = Z.of_nat n
  /\ forall t th, threads y !! t = Some th -> exists p, th = At p /\ call_ok p.

Definition holds (value : list Z) (done : list (nat * list Z)) : Prop :=
  length value = (n * (n * e))%nat
  /\ forall a j b, (a < n)%nat -> (j, b) ∈ done ->
       (j < n)%nat /\ chunk value e (a * n + j) = chunk b e a.

(** What participant [i] must get: element [i] of every row. *)
Definition column (i : Z) (out : list Z) : Prop :=
  length out = (n * e)%nat
  /\ forall j b, (j, b) ∈ inputs -> (j < n)%nat /\ chunk out e j = chunk b e (Z.to_nat i).

Definition thread_ok (l : AllToAll) (gathered : bool) (th : thread pc result) : Prop :=
  match th with
  | At (ResumeGetId i k) => 0 <= i < Z.of_nat n /\ k = (n * e)%nat /\ phase_ l = READING
  | At (ResumeTail i out) => phase_ l = GATHERING /\ gathered = true /\ column i out
  | At p => call_ok p
  | Parked (ResumeGetId i k) => 0 <= i < Z.of_nat n /\ k = (n * e)%nat /\ gathered = false
  | Parked (ResumeTail i out) => phase_ l = READING /\ column i out
  | Parked _ => False
  | Finished (GetResult status i out) => status = HPX_SUCCESS /\ gathered = true /\ column i out
  | Finished _ => True
  end.

(** While the rows come in, while the readers read, and after the last read. *)
Definition counts_ok (l : AllToAll) (unset reads : Z) : Prop :=
  (0 < unset <= Z.of_nat n /\ phase_ l = GATHERING /\ count_ l = unset /\ reads = Z.of_nat n)
  \/ (unset = 0 /\ phase_ l = READING /\ 0 < reads <= Z.of_nat n /\ count_ l = Z.of_nat n - reads)
  \/ (unset = 0 /\ phase_ l = GATHERING /\ reads = 0 /\ wait_ l = Waiting []).

Abbreviation unset y := (Z.of_nat (length (to_come y))).

Record round_inv (y : system) : Prop := {
  inv_done : exists done, done ++ to_come y ≡ₚ inputs /\ holds (value_ (lco y)) done;
  inv_wait : exists q, wait_ (lco y) = Waiting q;
  inv_parties : inputs_ (lco y) = Z.of_nat n;
  inv_counts : counts_ok (lco y) (unset y) (to_read y);
  inv_threads : forall t th, threads y !! t = Some th -> thread_ok (lco y) (unset y =? 0) th;
}.

Lemma alltoall_unread_range th : 0 <= unread th <= 1.
Proof. unfold unread. destruct (point th) as [[]|]; lia. Qed.

(** Setting a row that is not there yet. *)
Lemma holds_transpose value done j b : holds value done -> 0 <= j < Z.of_nat n ->
  length b = (n * e)%nat -> ~ In (Z.to_nat j) (map fst done) ->
  exists value', transpose (Z.of_nat n) j b value = Some value'
    /\ holds value' (done ++ [(Z.to_nat j, b)]).
Proof.
  intros [Hl Hh] Hj Hb Hnew.
  destruct (transpose_spec n e n_range e_pos buffer_range j b value Hj Hb Hl) as (v & Ht & Hlv & Hc).
  exists v. split; [done|]. split; [by rewrite Hlv|]. intros a j' b' Ha Hin.
  apply elem_of_app in Hin as [Hin|Hin].
  - destruct (Hh a _ _ Ha Hin) as [Hlt Hch]. split; [done|]. rewrite Hc by done.
    rewrite decide_False; [done|]. intros ->. apply Hnew, in_map_iff. exists (Z.to_nat j, b').
    by rewrite <- list_elem_of_In.
  - apply list_elem_of_singleton in Hin. injection Hin as -> ->. split; [lia|].
    rewrite Hc by lia. by rewrite decide_True.
Qed.

(** A row of the transposed buffer is a column of the rows. *)
Lemma holds_column value i : holds value inputs -> 0 <= i < Z.of_nat n ->
  exists out, load value (u64 (i * Z.of_nat (n * e))) (n * e) = Some out /\ column i out.
Proof.
  intros [Hl Hh] Hi.
  assert (Hie : i * Z.of_nat (n * e) = Z.of_nat (Z.to_nat i * (n * e))) by lia.
  assert (Hfit : (Z.to_nat i * (n * e) + n * e <= n * (n * e))%nat).
  { transitivity ((Z.to_nat i + 1) * (n * e))%nat; [lia|]. apply Nat.mul_le_mono_r. lia. }
  rewrite Hie, wrap_small by lia. rewrite load_some by lia. eexists. split; [done|].
  rewrite Nat2Z.id. split; [rewrite length_take, length_drop; lia|].
  intros j b Hin. destruct (Hh (Z.to_nat i) j b ltac:(lia) Hin) as [Hj Hc]. split; [done|].
  rewrite <- Hc. unfold chunk.
  assert (Hje : (j * e + e <= n * e)%nat).
  { transitivity ((j + 1) * e)%nat; [lia|]. apply Nat.mul_le_mono_r. lia. }
  rewrite skipn_firstn_comm, take_take, drop_drop. f_equal; [lia|]. f_equal. lia.
Qed.

(** *** The steps of a round *)

Lemma alltoall_set_effect j b t l q v : wait_ l = Waiting q -> phase_ l = GATHERING -> (0 < length b)%nat ->
  0 < count_ l < 2 ^ 32 -> transpose (inputs_ l) j b (value_ l) = Some v ->
  segment (CallSetId j b) t l =
    if count_ l =? 1 then
      Some (mkAllToAll (Waiting []) (inputs_ l) 0 READING v, q, Return (SetResult HPX_SUCCESS))
    else Some (mkAllToAll (Waiting q) (inputs_ l) (count_ l - 1) GATHERING v, [],
               Return (SetResult HPX_SUCCESS)).
Proof.
  destruct l as [w i c ph v0]; simpl. intros -> -> Hb Hc Ht. destruct (Nat.eqb_spec (length b) 0); [lia|].
  unfold setId_loop; simpl. rewrite Ht; simpl. rewrite wrap_small by lia.
  destruct (Z.eqb_spec (c - 1) 0), (Z.eqb_spec c 1); try lia; [|done]. by subst.
Qed.

Lemma alltoall_get_wait i k t l q : wait_ l = Waiting q -> phase_ l = GATHERING ->
  segment (CallGetId i k) t l = Some (with_wait l (Waiting (t :: q)), [], Park (ResumeGetId i k)).
Proof. destruct l as [w ins c ph v]; simpl. by intros -> ->. Qed.

Lemma alltoall_get_effect p i k t l q out : wait_ l = Waiting q -> phase_ l = READING ->
  p = CallGetId i k \/ p = ResumeGetId i k -> (0 < k)%nat ->
  0 <= count_ l < 2 ^ 32 - 1 -> load (value_ l) (u64 (i * Z.of_nat k)) k = Some out ->
  segment p t l =
    if count_ l + 1 =? inputs_ l then
      Some (mkAllToAll (Waiting []) (inputs_ l) (count_ l + 1) GATHERING (value_ l), q,
            Return (GetResult HPX_SUCCESS i out))
    else Some (mkAllToAll (Waiting (t :: q)) (inputs_ l) (count_ l + 1) READING (value_ l), [],
               Park (ResumeTail i out)).
Proof.
  intros Hq Hp Hor Hk Hc Hl. assert (Hs : segment p t l = getId_loop l t i k).
  { by destruct Hor as [-> | ->]; simpl; rewrite ?Hq. }
  rewrite Hs. destruct l as [w ins c ph v]; simpl in *. subst. unfold getId_loop; simpl.
  destruct (Nat.eqb_spec k 0); [lia|]. rewrite Hl; simpl. rewrite wrap_small by lia.
  by destruct (c + 1 =? ins).
Qed.

Lemma tail_effect i out t l q : wait_ l = Waiting q -> phase_ l = GATHERING ->
  segment (ResumeTail i out) t l = Some (l, [], Return (GetResult HPX_SUCCESS i out)).
Proof. destruct l as [w ins c ph v]; simpl. by intros -> ->. Qed.

Lemma set_ready y t j b : round_inv y -> threads y !! t = Some (At (CallSetId j b)) ->
  0 < unset y /\ phase_ (lco y) = GATHERING /\ 0 < count_ (lco y) < 2 ^ 32
  /\ count_ (lco y) = unset y /\ to_read y = Z.of_nat n
  /\ exists ds v, ds ++ to_come y ≡ₚ inputs /\ holds v (ds ++ [(Z.to_nat j, b)])
     /\ transpose (inputs_ (lco y)) j b (value_ (lco y)) = Some v.
Proof.
  intros [(ds & Hin & Hh) [q Hq] Hw Hc Hth] Et. destruct (Hth _ _ Et) as [Hj Hb].
  pose proof (tlist_update to_set _ _ _ (Finished Void) Et) as Hup. simpl in Hup.
  destruct Hc as [(Hp & Hph & Hct & Hreads)|Hc]; cycle 1.
  { exfalso. apply Permutation_length in Hup. simpl in Hup. destruct Hc as [(? & _)|(? & _)]; lia. }
  split; [lia|]. split; [done|]. split; [lia|]. split; [done|]. split; [done|].
  destruct (holds_transpose (value_ (lco y)) ds j b Hh Hj Hb) as (v & Hst & Hh').
  { intros Hino. rewrite <- Hin, <- Hup, map_app in inputs_apart. simpl in inputs_apart.
    apply NoDup_app in inputs_apart as (_ & Hdis & _). apply list_elem_of_In in Hino.
    apply (Hdis _ Hino). by left. }
  exists ds, v. by rewrite Hw.
Qed.

Section Step.
Variables (y0 y y' : system) (t : Z).
Hypothesis y0_fresh : fresh y0.
Hypothesis y_reachable : reachable y0 y.
Hypothesis y_inv : round_inv y.
Hypothesis y_step : step y t = Some y'.

(** The counts after a step. *)
Lemma step_counts p s ps n' : threads y !! t = Some (At p) ->
  segment p t (lco y) = Some (s, ps, n') ->
  lco y' = s /\ to_set (At p) ++ to_come y' ≡ₚ to_set (becomes n') ++ to_come y
  /\ to_read y' = to_read y - unread (At p) + unread (becomes n').
Proof.
  intros Et Es. split; [by eapply step_lco|]. split.
  - by eapply (tlist_step to_set ltac:(done)).
  - by eapply (tsum_step unread ltac:(done)).
Qed.

Lemma alltoall_set_more_step j b : threads y !! t = Some (At (CallSetId j b)) -> count_ (lco y) <> 1 ->
  round_inv y'.
Proof.
  intros Et E1. destruct (set_ready _ _ _ _ y_inv Et)
    as (Hp & Hph & Hct & Hcu & Hreads & ds & v & Hin & Hh & Htr).
  destruct y_inv as [_ [q Hq] Hw Hc Hth]. destruct (Hth _ _ Et) as [_ Hb].
  pose proof (alltoall_set_effect j b t (lco y) q v Hq Hph ltac:(lia) Hct Htr) as Es.
  rewrite (proj2 (Z.eqb_neq _ _) E1) in Es.
  destruct (step_counts _ _ _ _ Et Es) as (Hl & Hcome & Hrd). simpl in Hcome.
  pose proof (Permutation_length Hcome) as Hlen. simpl in Hlen.
  change (to_read y' = to_read y - 0 + 0) in Hrd.
  assert (Hz : (unset y' =? 0) = (unset y =? 0)) by (zcases; done || lia).
  constructor; rewrite ?Hl; simpl; try done.
  - exists (ds ++ [(Z.to_nat j, b)]). split; [|done]. rewrite <- Hin, <- Hcome. by rewrite <- app_assoc.
  - by eexists.
  - left. simpl. destruct Hc as [(? & _)|[(? & _)|(? & _)]]; lia.
  - rewrite Hz. apply (step_forall _ _ _ _ _ _ _ _ _ Et Es y_step Hth); [|done..].
    intros [[]|[]|[]]; try done; simpl; rewrite Hph; done.
Qed.

(** The last set wakes the readers, which now read. *)
Lemma alltoall_set_last_step j b : threads y !! t = Some (At (CallSetId j b)) -> count_ (lco y) = 1 ->
  round_inv y'.
Proof.
  intros Et E1. destruct (set_ready _ _ _ _ y_inv Et)
    as (Hp & Hph & Hct & Hcu & Hreads & ds & v & Hin & Hh & Htr).
  destruct y_inv as [_ [q Hq] Hw Hc Hth]. destruct (Hth _ _ Et) as [_ Hb].
  pose proof (alltoall_set_effect j b t (lco y) q v Hq Hph ltac:(lia) Hct Htr) as Es.
  rewrite (proj2 (Z.eqb_eq _ _) E1) in Es.
  destruct (step_counts _ _ _ _ Et Es) as (Hl & Hcome & Hrd). simpl in Hcome.
  pose proof (Permutation_length Hcome) as Hlen. simpl in Hlen.
  change (to_read y' = to_read y - 0 + 0) in Hrd.
  assert (Hz : (unset y =? 0) = false) by (zcases; done || lia). rewrite Hz in Hth.
  constructor; rewrite ?Hl; simpl; try done.
  - exists (ds ++ [(Z.to_nat j, b)]). split; [|done]. rewrite <- Hin, <- Hcome. by rewrite <- app_assoc.
  - by eexists.
  - right; left. simpl. lia.
  - intros u uh' Hu.
    destruct (launched_all _ _ _ _ _ _ _ _ y0_fresh y_reachable Et Es y_step ltac:(simpl; by rewrite Hq)
                _ _ Hu) as [[-> ->]|(Hne & uh & Eu & ->)]; [done|].
    specialize (Hth _ _ Eu). unfold thread_ok in Hth. rewrite Hph in Hth.
    destruct uh as [[]|[]|[]]; simpl in *; naive_solver.
Qed.

(** A reader that comes before the last set waits. *)
Lemma alltoall_get_wait_step p i k : threads y !! t = Some (At p) -> p = CallGetId i k ->
  phase_ (lco y) = GATHERING -> round_inv y'.
Proof.
  intros Et -> Hph. destruct y_inv as [Hd [q Hq] Hw Hc Hth].
  pose proof (alltoall_get_wait i k t (lco y) q Hq Hph) as Es.
  destruct (step_counts _ _ _ _ Et Es) as (Hl & Hcome & Hrd). simpl in Hcome.
  pose proof (Permutation_length Hcome) as Hlen. change (to_read y' = to_read y - 1 + 1) in Hrd.
  pose proof (tsum_ge unread _ t _ ltac:(intros; apply alltoall_unread_range) Et) as Hge.
  change (1 <= to_read y) in Hge.
  assert (Hun : 0 < unset y) by (destruct Hc as [(? & _)|[(_ & Hx & _)|(_ & _ & ? & _)]];
    [lia|by rewrite Hph in Hx|lia]).
  constructor; rewrite ?Hl, ?Hlen; simpl; try done.
  - destruct Hd as (ds & Hin & Hh). exists ds. split; [by rewrite Hcome|done].
  - by eexists.
  - left. simpl. destruct Hc as [(? & _ & ? & ?)|[(? & _)|(? & _)]]; [|lia..]. rewrite Hph. lia.
  - apply (step_forall _ _ _ _ _ _ _ _ _ Et Es y_step Hth); [done| |done].
    destruct (Hth _ _ Et) as [Hi Hk]. simpl. split; [done|]. split; [done|]. zcases; lia.
Qed.

Lemma read_ready p i k : threads y !! t = Some (At p) -> p = CallGetId i k \/ p = ResumeGetId i k ->
  phase_ (lco y) = READING ->
  k = (n * e)%nat /\ unset y = 0 /\ 0 <= count_ (lco y) < Z.of_nat n
  /\ to_read y = Z.of_nat n - count_ (lco y) /\ to_come y = []
  /\ exists out, load (value_ (lco y)) (u64 (i * Z.of_nat k)) k = Some out /\ column i out.
Proof.
  intros Et Hor Hph. destruct y_inv as [(ds & Hin & Hh) _ Hw Hc Hth].
  assert (Hik : 0 <= i < Z.of_nat n /\ k = (n * e)%nat)
    by (specialize (Hth _ _ Et); destruct Hor as [-> | ->]; destruct Hth; tauto).
  destruct Hc as [(_ & Hx & _)|[(Hu & _ & Hr & Hct)|(_ & Hx & _)]]; [by rewrite Hph in Hx| |by rewrite Hph in Hx].
  assert (Hnil : to_come y = []) by (apply length_zero_iff_nil; lia).
  split; [tauto|]. split; [done|]. split; [lia|]. split; [lia|]. split; [done|].
  destruct Hik as [Hi ->]. apply holds_column; [|done]. rewrite Hnil, app_nil_r in Hin.
  destruct Hh as [Hlen Hh]. split; [done|]. intros a j b Ha Hj. apply Hh; [done|]. by rewrite Hin.
Qed.

Lemma alltoall_get_more_step p i k : threads y !! t = Some (At p) -> p = CallGetId i k \/ p = ResumeGetId i k ->
  phase_ (lco y) = READING -> count_ (lco y) + 1 <> Z.of_nat n -> round_inv y'.
Proof.
  intros Et Hor Hph E1. destruct (read_ready p i k Et Hor Hph) as (-> & Hu & Hct & Hrd0 & Hnil & out & Hld & Hcol).
  destruct y_inv as [Hd [q Hq] Hw Hc Hth].
  pose proof (alltoall_get_effect p i _ t (lco y) q out Hq Hph Hor ltac:(destruct n; lia) ltac:(lia) Hld) as Es.
  rewrite Hw, (proj2 (Z.eqb_neq _ _) E1) in Es.
  destruct (step_counts _ _ _ _ Et Es) as (Hl & Hcome & Hrd). rewrite Hnil in Hcome.
  assert (E0 : to_set (At p) = []) by (by destruct Hor as [-> | ->]). rewrite E0 in Hcome. simpl in Hcome.
  assert (E2 : unread (At p) = 1) by (by destruct Hor as [-> | ->]). rewrite E2 in Hrd.
  change (to_read y' = to_read y - 1 + 0) in Hrd. apply Permutation_nil_r in Hcome.
  constructor; rewrite ?Hl, ?Hcome; simpl; try done.
  - by rewrite <- Hnil.
  - by eexists.
  - right; left. simpl. lia.
  - rewrite Hnil in Hth. apply (step_forall _ _ _ _ _ _ _ _ _ Et Es y_step Hth); [|done..].
    intros [[]|[]|[]]; try done; simpl; rewrite Hph; done.
Qed.

(** The last read ends the round and wakes the readers that have read. *)
Lemma alltoall_get_last_step p i k : threads y !! t = Some (At p) -> p = CallGetId i k \/ p = ResumeGetId i k ->
  phase_ (lco y) = READING -> count_ (lco y) + 1 = Z.of_nat n -> round_inv y'.
Proof.
  intros Et Hor Hph E1. destruct (read_ready p i k Et Hor Hph) as (-> & Hu & Hct & Hrd0 & Hnil & out & Hld & Hcol).
  destruct y_inv as [Hd [q Hq] Hw Hc Hth].
  pose proof (alltoall_get_effect p i _ t (lco y) q out Hq Hph Hor ltac:(destruct n; lia) ltac:(lia) Hld) as Es.
  rewrite Hw, (proj2 (Z.eqb_eq _ _) E1) in Es.
  destruct (step_counts _ _ _ _ Et Es) as (Hl & Hcome & Hrd). rewrite Hnil in Hcome.
  assert (E0 : to_set (At p) = []) by (by destruct Hor as [-> | ->]). rewrite E0 in Hcome. simpl in Hcome.
  assert (E2 : unread (At p) = 1) by (by destruct Hor as [-> | ->]). rewrite E2 in Hrd.
  change (to_read y' = to_read y - 1 + 0) in Hrd. apply Permutation_nil_r in Hcome.
  constructor; rewrite ?Hl, ?Hcome; simpl; try done.
  - by rewrite <- Hnil.
  - by eexists.
  - right; right. simpl. split; [done|]. split; [done|]. split; [lia|done].
  - intros u uh' Hu'.
    destruct (launched_all _ _ _ _ _ _ _ _ y0_fresh y_reachable Et Es y_step ltac:(simpl; by rewrite Hq)
                _ _ Hu') as [[-> ->]|(Hne & uh & Eu & ->)]; [done|].
    assert (Hread : unread uh = 0).
    { apply (tsum_others_zero unread _ _ _ ltac:(intros; apply alltoall_unread_range) Et) with (u := u);
        [rewrite E2; lia|done..]. }
    specialize (Hth _ _ Eu). rewrite Hu in Hth. unfold thread_ok in Hth. rewrite Hph in Hth.
    destruct uh as [[]|[]|[]]; simpl in *; naive_solver.
Qed.

Lemma alltoall_tail_step i out : threads y !! t = Some (At (ResumeTail i out)) -> round_inv y'.
Proof.
  intros Et. destruct y_inv as [Hd [q Hq] Hw Hc Hth]. destruct (Hth _ _ Et) as (Hph & Hg & Hcol).
  pose proof (tail_effect i out t (lco y) q Hq Hph) as Es.
  destruct (step_counts _ _ _ _ Et Es) as (Hl & Hcome & Hrd). simpl in Hcome.
  pose proof (Permutation_length Hcome) as Hlen. change (to_read y' = to_read y - 0 + 0) in Hrd.
  constructor; rewrite ?Hl, ?Hlen; simpl; try done.
  - destruct Hd as (ds & Hin & Hh). exists ds. split; [by rewrite Hcome|done].
  - by eexists.
  - rewrite Hrd. by replace (to_read y - 0 + 0) with (to_read y) by lia.
  - by apply (step_forall _ _ _ _ _ _ _ _ _ Et Es y_step Hth).
Qed.

(** What a thread of a round can run, and that it gets closer to its end. *)
Definition weight (th : thread pc result) : Z :=
  match point th with
  | Some (CallGetId _ _) => 3
  | Some (ResumeGetId _ _) => 2
  | Some _ => 1
  | None => 0
  end.

Lemma alltoall_progress p : threads y !! t = Some (At p) ->
  exists s ps n', segment p t (lco y) = Some (s, ps, n') /\ weight (becomes n') < weight (At p).
Proof.
  intros Et. pose proof (inv_threads _ y_inv _ _ Et) as Hp.
  destruct (inv_wait _ y_inv) as [q Hq]. pose proof (inv_parties _ y_inv) as Hw.
  assert (Hread : forall i k, p = CallGetId i k \/ p = ResumeGetId i k -> phase_ (lco y) = READING ->
    exists s ps n', segment p t (lco y) = Some (s, ps, n') /\ weight (becomes n') < weight (At p)).
  { intros i k Hor Hph.
    destruct (read_ready p i k Et Hor Hph) as (-> & Hu & Hct & Hrd0 & Hnil & out & Hld & Hcol).
    pose proof (alltoall_get_effect p i _ t (lco y) q out Hq Hph Hor ltac:(destruct n; lia) ltac:(lia) Hld) as Es.
    destruct (count_ (lco y) + 1 =? inputs_ (lco y));
      (eexists _, _, _; split; [exact Es|]); by destruct Hor as [-> | ->]. }
  destruct p as [|j b| |i k|i k|i out| | |]; try done.
  - destruct (set_ready _ _ _ _ y_inv Et) as (_ & Hph & Hct & _ & _ & ds & v & _ & _ & Htr).
    destruct Hp as [_ Hb].
    pose proof (alltoall_set_effect j b t (lco y) q v Hq Hph ltac:(destruct n; lia) Hct Htr) as Es.
    destruct (count_ (lco y) =? 1); (eexists _, _, _; split; [exact Es|done]).
  - destruct (decide (phase_ (lco y) = READING)) as [Hr|Hr]; [by apply (Hread i k); [left|]|].
    assert (Hph : phase_ (lco y) = GATHERING).
    { destruct (inv_counts _ y_inv) as [(_ & ? & _)|[(_ & ? & _)|(_ & ? & _)]]; done. }
    rewrite (alltoall_get_wait i k t (lco y) q Hq Hph). by eexists _, _, _.
  - destruct Hp as (_ & _ & Hph). apply (Hread i k); [by right|done].
  - destruct Hp as (Hph & _). rewrite (tail_effect i out t (lco y) q Hq Hph). by eexists _, _, _.
Qed.

Lemma alltoall_round_step : round_inv y'.
Proof.
  destruct (step_inv _ _ _ y_step) as (p & s & ps & n' & Et & _).
  pose proof (inv_threads _ y_inv _ _ Et) as Hp.
  assert (Hread : forall i k, p = CallGetId i k \/ p = ResumeGetId i k -> phase_ (lco y) = READING ->
    round_inv y').
  { intros i k Hor Hph. destruct (decide (count_ (lco y) + 1 = Z.of_nat n)).
    - by eapply alltoall_get_last_step.
    - by eapply alltoall_get_more_step. }
  destruct p as [|j b| |i k|i k|i out| | |]; try done.
  - destruct (decide (count_ (lco y) = 1)); [by eapply alltoall_set_last_step|by eapply alltoall_set_more_step].
  - destruct (decide (phase_ (lco y) = READING)) as [Hr|Hr]; [by apply (Hread i k); [left|]|].
    eapply alltoall_get_wait_step; [done|done|].
    destruct (inv_counts _ y_inv) as [(_ & ? & _)|[(_ & ? & _)|(_ & ? & _)]]; done.
  - destruct Hp as (_ & _ & Hph). apply (Hread i k); [by right|done].
  - by eapply alltoall_tail_step.
Qed.
End Step.

Lemma alltoall_round_start_inv y : round_start y -> round_inv y /\ fresh y.
Proof.
  intros ((v0 & Hl & Hv) & Hin & Hrd & Hth). split.
  - constructor; rewrite ?Hl, ?Hin, ?Hrd; simpl; try done.
    + exists []. split; [done|]. split; [done|]. by intros a j b _ ?%not_elem_of_nil.
    + by eexists.
    + left. simpl. lia.
    + intros t th Ht. destruct (Hth _ _ Ht) as (p & -> & Hp). by destruct p.
  - split; [by rewrite Hl|]. split; [split; [by rewrite Hl|]|split].
    + intros t th p Ht Hp. destruct (Hth _ _ Ht) as (p' & -> & Hp'). injection Hp as <-. by destruct p'.
    + intros t th p q Ht Hp Ha. destruct (Hth _ _ Ht) as (p' & -> & Hp'). injection Hp as <-. by destruct p'.
    + intros t th Ht. destruct (Hth _ _ Ht) as (p & -> & _). by eexists.
Qed.

Lemma alltoall_round_reachable y0 y : round_start y0 -> reachable y0 y -> round_inv y.
Proof.
  intros H0. destruct (alltoall_round_start_inv _ H0) as [Hi Hf]. apply reachable_inv_from; [done|].
  intros y1 y2 t Hr Hi1 Hs. by eapply (alltoall_round_step y0 y1 y2 t).
Qed.

(** With nobody to run, the last read has been. *)
Lemma round_end y : round_inv y -> (forall t p, threads y !! t <> Some (At p)) ->
  forall t th, threads y !! t = Some th -> exists r, th = Finished r.
Proof.
  intros [_ _ _ Hc Hth] Hno.
  assert (Hpt : forall t th, threads y !! t = Some th -> to_set th = [] /\
            (unset y = 0 -> unread th = 0)).
  { intros t [p|p|r] Ht; [by destruct (Hno t p)| |done]. specialize (Hth _ _ Ht).
    destruct p; try done; simpl. split; [done|]. intros Hz. rewrite Hz in Hth. by destruct Hth as (_ & _ & ?). }
  assert (Hnil : to_come y = []) by (apply tlist_nil; intros; by eapply Hpt).
  rewrite Hnil in Hc, Hpt, Hth.
  assert (Hrd : to_read y = 0) by (apply tsum_zero; intros; by eapply Hpt).
  destruct Hc as [(? & _)|[(_ & _ & ? & _)|(_ & Hph & _ & _)]]; [simpl in *; lia|lia|].
  intros t th Ht. specialize (Hth _ _ Ht). destruct th as [p|p|r]; [by destruct (Hno t p)| |by eexists].
  destruct p as [| | | |i k|i out| | |]; try done; simpl in Hth.
  - by destruct Hth as (_ & _ & ?).
  - destruct Hth as [Hx _]. by rewrite Hph in Hx.
Qed.

(** C39: a round of an all-to-all exchange: [n] threads that each set the row of a
    participant and [n] threads that get.  In every interleaving, a get for participant [i]
    that has returned has succeeded, and element [j] of what it got is element [i] of the
    row of participant [j]; every schedule is finite, and when nothing can run every
    thread has returned. *)
Theorem alltoall_round y0 ts y : round_start y0 -> run y0 ts = Some y ->
  (forall t status i out, threads y !! t = Some (Finished (GetResult status i out)) ->
     status = HPX_SUCCESS /\ column i out)
  /\ Z.of_nat (length ts) <= 3 * Z.of_nat (size (threads y0))
  /\ ((forall t, step y t = None) ->
      forall t th, threads y !! t = Some th -> exists r, th = Finished r).
Proof.
  intros H0 Hrun. pose proof (run_reachable _ _ _ _ (reach_start y0) Hrun) as Hr.
  pose proof (alltoall_round_reachable _ _ H0 Hr) as Hi. destruct (alltoall_round_start_inv _ H0) as [Hi0 Hf].
  split; [|split].
  - intros t status i out Ht. by destruct (inv_threads _ Hi _ _ Ht) as (-> & _ & Hcol).
  - apply (run_bound (reachable y0) weight) with (y' := y); [| | | |constructor|done].
    + intros y1 y2 t Hr1 Hs. by eapply reach_step.
    + done.
    + intros th. unfold weight. destruct (point th) as [[]|]; lia.
    + intros y1 p t s ps n' Hr1 Ht Hs.
      destruct (alltoall_progress y1 t (alltoall_round_reachable _ _ H0 Hr1) p Ht) as (? & ? & ? & E & Hlt).
      rewrite E in Hs. by injection Hs as <- <- <-.
  - intros Hstuck. apply (round_end y Hi). intros t p Ht.
    destruct (alltoall_progress y t Hi p Ht) as (? & ? & ? & E & _).
    specialize (Hstuck t). unfold step in Hstuck. by rewrite Ht, E in Hstuck.
Qed.
End Round.

(** ** Witness: two participants with elements of one byte *)

Definition demo : sys AllToAll pc result :=
  mkSys (new 2 [0; 0; 0; 0])
    {[ 1 := At (CallSetId 1 [20; 21]); 2 := At (CallGetId 0 2); 3 := At (CallSetId 0 [10; 11]);
       4 := At (CallGetId 1 2) ]} [].

Lemma alltoall_demo_start : round_start 2 1 (tlist to_set (threads demo)) demo.
Proof.
  split; [by eexists|]. split; [done|]. split; [done|]. intros t th Ht. unfold demo in Ht; simpl in Ht.
  repeat (apply lookup_insert_Some in Ht as [[<- <-]|[_ Ht]]; [eexists; split; [done|simpl; lia]|]).
  apply lookup_singleton_Some in Ht as [<- <-]. eexists. split; [done|simpl; lia].
Qed.

Lemma alltoall_demo_inputs :
  length (tlist to_set (threads demo)) = 2%nat /\ NoDup (map fst (tlist to_set (threads demo))).
Proof. vm_compute. split; [done|]. repeat constructor; set_solver. Qed.

Lemma alltoall_round_witness : exists y,
  run demo [2; 1; 3; 4; 2; 4] = Some y
  /\ threads y !! 2 = Some (Finished (GetResult HPX_SUCCESS 0 [10; 20]))
  /\ threads y !! 4 = Some (Finished (GetResult HPX_SUCCESS 1 [11; 21]))
  /\ column 2 1 (tlist to_set (threads demo)) 1 [11; 21]
  /\ forall t th, threads y !! t = Some th -> exists r, th = Finished r.
Proof.
  destruct (run demo [2; 1; 3; 4; 2; 4]) as [y|] eqn:E; [|by vm_compute in E].
  assert (H2 : threads y !! 2 = Some (Finished (GetResult HPX_SUCCESS 0 [10; 20]))
               /\ threads y !! 4 = Some (Finished (GetResult HPX_SUCCESS 1 [11; 21])))
    by (vm_compute in E; by simplify_eq).
  destruct H2 as [H2 H4]. exists y. split; [done|]. split; [done|]. split; [done|].
  destruct alltoall_demo_inputs as [Hl Hd].
  destruct (alltoall_round 2 1 (tlist to_set (threads demo)) ltac:(lia) ltac:(lia) ltac:(lia)
    Hl Hd demo _ y alltoall_demo_start E) as (H1 & _ & H3).
  split; [by apply (H1 4 HPX_SUCCESS)|]. apply H3. intros t. apply stuck_step. vm_compute in E.
  by simplify_eq.
Defined.
