(* ===== verification/Actions.v ===== *)
(** * Actions

    libhpx/actions: the table of actions and the ids it assigns (registration.cpp), the classes
    of actions (init.cpp), and the marshalled and the vectored parcels (marshalled.cpp,
    vectored.cpp), whose arguments are packed into the payload at the caller and unpacked at
    the target.  The sort of the C library is a parameter. *)

From Stdlib Require Import Sorted.
From stdpp Require Import sorting.
From S2P Require Import Prelude Math Bytes.

(** ** Registration *)

Module Registration.

Definition LIBHPX_ACTION_MAX : Z := 2 ^ 16.
Definition HPX_ACTION_INVALID : Z := 2 ^ 16 - 1.
Definition HPX_INTERNAL : Z := 4.

(** An entry: [id] is the variable of the user that holds the action's id. *)
Record action_t := mkAction { handler : Z; id : option Z; key : list Z; type : Z; attr : Z }.

(** The table, and the variables. *)
Record table := mkTable { actions : list action_t; ids : gmap Z Z }.

Definition null_action : action_t := mkAction 0 None [] 0 0.

Definition empty_table : table := mkTable [null_action] ∅.

Definition _register_action_va (t : table) (ty at_ : Z) (k : list Z) (i : Z) (system : bool) (h : Z) : option table :=
  let vars := <[i := HPX_ACTION_INVALID]> t.(ids) in
  let at_ := if system then Z.lor at_ HPX_INTERNAL else at_ in
  let n := Z.of_nat (length t.(actions)) + 1 in
  if n >=? LIBHPX_ACTION_MAX then None
  else Some (mkTable (t.(actions) ++ [mkAction h (Some i) k ty at_]) vars).

(** strcmp, of strings without their terminator. *)
Fixpoint strcmp (s t : list Z) : Z :=
  match s, t with
  | [], [] => 0
  | [], _ :: _ => -1
  | _ :: _, [] => 1
  | a :: s, b :: t => if a =? b then strcmp s t else if a <? b then -1 else 1
  end.

Definition _cmp_keys (el er : action_t) : Z :=
  match el.(id), er.(id) with
  | None, _ => -1
  | Some _, None => 1
  | Some _, Some _ => strcmp el.(key) er.(key)
  end.

Fixpoint assign_loop (i : Z) (l : list action_t) (vars : gmap Z Z) : option (gmap Z Z) :=
  match l with
  | [] => Some vars
  | a :: l =>
    v ← a.(id);
    assign_loop (i + 1) l (<[v := u16 i]> vars)
  end.

Section Finalize.
Variable qsort : (action_t -> action_t -> Z) -> list action_t -> list action_t.

Definition _sort_entries (t : table) : table := mkTable (qsort _cmp_keys t.(actions)) t.(ids).

Definition _assign_ids (t : table) : option table :=
  vars ← assign_loop 1 (drop 1 t.(actions)) t.(ids); Some (mkTable t.(actions) vars).

(** The last check is the assertion that the reserved action is still the first. *)
Definition action_registration_finalize (t : table) : option table :=
  t ← _assign_ids (_sort_entries t);
  a ← t.(actions) !! 0%nat;
  match a.(id) with None => Some t | Some _ => None end.
End Finalize.

(** *** The order of the keys *)

Lemma strcmp_eq s : forall t, strcmp s t = 0 <-> s = t.
Proof.
  induction s as [|a s IH]; intros [|b t]; simpl; try done. destruct (Z.eqb_spec a b) as [->|Hne].
  - rewrite IH. split; [by intros ->|by intros [=]].
  - split; [destruct (_ <? _); lia|congruence].
Qed.

Lemma strcmp_range s : forall t, strcmp s t = -1 \/ strcmp s t = 0 \/ strcmp s t = 1.
Proof. induction s as [|a s IH]; intros [|b t]; simpl; try lia. destruct (a =? b); [apply IH|]. destruct (a <? b); lia. Qed.

Lemma strcmp_opp s : forall t, strcmp t s = - strcmp s t.
Proof.
  induction s as [|a s IH]; intros [|b t]; simpl; try done. rewrite Z.eqb_sym, IH.
  destruct (Z.eqb_spec a b); [done|]. destruct (Z.ltb_spec a b), (Z.ltb_spec b a); lia.
Qed.

Lemma strcmp_trans s : forall t u, strcmp s t <= 0 -> strcmp t u <= 0 -> strcmp s u <= 0.
Proof.
  induction s as [|a s IH]; intros [|b t] [|c u]; simpl; try lia.
  destruct (Z.eqb_spec a b) as [->|], (Z.eqb_spec b c) as [->|]; try (destruct (Z.ltb_spec b c); lia).
  - apply IH.
  - intros H1 _. destruct (Z.eqb_spec a c); [congruence|]. done.
  - destruct (Z.ltb_spec a b), (Z.ltb_spec b c); try lia. intros _ _.
    destruct (Z.eqb_spec a c); [lia|]. destruct (Z.ltb_spec a c); lia.
Qed.

(** *** Sorting *)

(** What the C library promises of qsort: for a comparison that orders the elements, a
    sorted permutation; the order of equal elements is not specified. *)
Definition sorts (qsort : (action_t -> action_t -> Z) -> list action_t -> list action_t) : Prop :=
  forall cmp l, NoDup l ->
    (forall a b, a ∈ l -> b ∈ l -> a <> b -> Z.sgn (cmp b a) = - Z.sgn (cmp a b)) ->
    (forall a b c, a ∈ l -> b ∈ l -> c ∈ l -> cmp a b <= 0 -> cmp b c <= 0 -> cmp a c <= 0) ->
    qsort cmp l ≡ₚ l /\ StronglySorted (fun a b => cmp a b <= 0) (qsort cmp l).

Lemma cmp_trans a b c : _cmp_keys a b <= 0 -> _cmp_keys b c <= 0 -> _cmp_keys a c <= 0.
Proof. unfold _cmp_keys. destruct (id a), (id b), (id c); try lia. apply strcmp_trans. Qed.

(** The order on keys of the sorted table. *)
Definition key_le (s t : list Z) : Prop := strcmp s t <= 0.

#[local] Instance key_le_antisymm : AntiSymm (=) key_le.
Proof. intros s t Hs Ht. unfold key_le in *. rewrite strcmp_opp in Ht. apply strcmp_eq. lia. Qed.

Lemma sorted_keys l : Forall (fun a => is_Some a.(id)) l -> StronglySorted (fun a b => _cmp_keys a b <= 0) l ->
  StronglySorted key_le (map key l).
Proof.
  intros Hi. induction 1 as [|a l Hs IH Ha]; simpl; constructor; apply Forall_cons in Hi as [[i Hi] Hl]; [by apply IH|].
  apply Forall_forall. intros k Hk. apply list_elem_of_fmap in Hk as (b & -> & Hb). rewrite Forall_forall in Ha, Hl.
  specialize (Ha b Hb). destruct (Hl b Hb) as [j Hj]. unfold _cmp_keys in Ha. by rewrite Hi, Hj in Ha.
Qed.

(** The reserved action sorts first. *)
Lemma null_first l es : l ≡ₚ null_action :: es -> Forall (fun a => is_Some a.(id)) es ->
  StronglySorted (fun a b => _cmp_keys a b <= 0) l -> exists l', l = null_action :: l' /\ l' ≡ₚ es
    /\ StronglySorted (fun a b => _cmp_keys a b <= 0) l'.
Proof.
  intros Hp Hes Hs. destruct Hs as [|a l Hs Ha]; [by apply Permutation_nil_cons in Hp|]. rewrite Forall_forall in Hes, Ha.
  assert (a = null_action) as ->.
  { assert (Hin : a ∈ null_action :: es) by (rewrite <- Hp; left). apply elem_of_cons in Hin as [->|Hin]; [done|].
    assert (Hn : null_action ∈ a :: l) by (rewrite Hp; left). apply elem_of_cons in Hn as [->|Hn]; [done|].
    specialize (Ha _ Hn). destruct (Hes a Hin) as [i Hi]. unfold _cmp_keys in Ha. rewrite Hi in Ha. simpl in Ha. lia. }
  exists l. split; [done|]. split; [by apply Permutation_cons_inv in Hp|done].
Qed.

(** *** Assignment *)

Lemma assign_loop_spec l : forall i vars, Forall (fun a => is_Some a.(id)) l -> NoDup (map id l) ->
  0 <= i -> i + Z.of_nat (length l) <= 2 ^ 16 ->
  exists vars', assign_loop i l vars = Some vars'
    /\ (forall j a v, l !! j = Some a -> a.(id) = Some v -> vars' !! v = Some (i + Z.of_nat j))
    /\ (forall v, Some v ∉ map id l -> vars' !! v = vars !! v).
Proof.
  induction l as [|a l IH]; intros i vars Hid Hnd Hi Hlen; cbn [assign_loop]; [by exists vars|].
  apply Forall_cons in Hid as [[v Hv] Hid]. cbn [map] in Hnd. apply NoDup_cons in Hnd as [Hv' Hnd]. rewrite Hv in *. cbn [mbind option_bind].
  cbn [length] in Hlen. destruct (IH (i + 1) (<[v := u16 i]> vars) Hid Hnd) as (vars' & E & H1 & H2); [lia|lia|]. exists vars'. split; [done|]. split.
  - intros [|j] b w Hb Hw.
    + simpl in Hb. injection Hb as <-. rewrite Hv in Hw. injection Hw as <-. rewrite H2 by done. rewrite lookup_insert_eq, wrap_small by lia. f_equal. lia.
    + rewrite (H1 j b w Hb Hw). f_equal. lia.
  - intros w Hw. cbn [map] in Hw. rewrite Hv in Hw. rewrite H2 by set_solver. apply lookup_insert_ne. set_solver.
Qed.

(** *** A locality's table *)

Record registration := mkReg { r_type : Z; r_attr : Z; r_key : list Z; r_id : Z; r_system : bool; r_handler : Z }.

Definition entry (r : registration) : action_t :=
  mkAction r.(r_handler) (Some r.(r_id)) r.(r_key) r.(r_type) (if r.(r_system) then Z.lor r.(r_attr) HPX_INTERNAL else r.(r_attr)).

(** The registrations of a locality, in the order its constructors run. *)
Fixpoint register_all (rs : list registration) (t : table) : option table :=
  match rs with
  | [] => Some t
  | r :: rs => t ← _register_action_va t r.(r_type) r.(r_attr) r.(r_key) r.(r_id) r.(r_system) r.(r_handler); register_all rs t
  end.

Lemma register_all_spec rs : forall t, Z.of_nat (length t.(actions) + length rs) < LIBHPX_ACTION_MAX ->
  exists t', register_all rs t = Some t' /\ t'.(actions) = t.(actions) ++ map entry rs.
Proof.
  induction rs as [|r rs IH]; intros t Hl; cbn [register_all]; [exists t; by rewrite app_nil_r|].
  unfold _register_action_va. cbn [length] in Hl. rewrite Z.geb_leb. destruct (Z.leb_spec LIBHPX_ACTION_MAX (Z.of_nat (length (actions t)) + 1)); [lia|].
  cbn [mbind option_bind]. edestruct IH as (t' & E & Ha); [|rewrite E; exists t'; split; [done|rewrite Ha; simpl; by rewrite <- app_assoc]].
  simpl. rewrite length_app. simpl. lia.
Qed.

Lemma entries_ids rs : Forall (fun a => is_Some a.(id)) (map entry rs).
Proof. apply Forall_forall. intros a Ha. apply list_elem_of_fmap in Ha as (r & -> & _). by eexists. Qed.

Lemma nodup_key {A B} (f : A -> B) l x y : NoDup (map f l) -> x ∈ l -> y ∈ l -> f x = f y -> x = y.
Proof.
  intros Hn Hx Hy E. apply list_elem_of_lookup in Hx as [i Hi], Hy as [j Hj].
  assert (i = j) as <-; [|congruence]. eapply (NoDup_lookup (map f l)); [done|rewrite list_lookup_fmap, Hi; done|rewrite list_lookup_fmap, Hj; simpl; by rewrite E].
Qed.

Section Locality.
Context (qsort : (action_t -> action_t -> Z) -> list action_t -> list action_t) (Hsorts : sorts qsort).

Lemma finalize_spec rs : NoDup (map r_key rs) -> NoDup (map r_id rs) -> Z.of_nat (length rs) + 1 < LIBHPX_ACTION_MAX ->
  exists t t' l, register_all rs empty_table = Some t /\ action_registration_finalize qsort t = Some t'
    /\ t'.(actions) = null_action :: l /\ l ≡ₚ map entry rs /\ StronglySorted key_le (map key l)
    /\ (forall j a v, l !! j = Some a -> a.(id) = Some v -> t'.(ids) !! v = Some (1 + Z.of_nat j)).
Proof.
  intros Hk Hi Hl. destruct (register_all_spec rs empty_table) as (t & E & Ha); [simpl; lia|]. simpl in Ha.
  destruct (Hsorts _cmp_keys (actions t)) as [Hp Hs].
  - rewrite Ha. apply NoDup_cons. split; [|by apply (NoDup_fmap_1 key); change (NoDup (map key (map entry rs))); rewrite map_map].
    intros Hin. apply list_elem_of_fmap in Hin as (r & Hr & _). done.
  - rewrite Ha. intros a b Hin Hin' Hne. unfold _cmp_keys. pose proof (entries_ids rs) as Hid. rewrite Forall_forall in Hid.
    apply elem_of_cons in Hin as [->|Hin], Hin' as [->|Hin']; [done|..]; try destruct (Hid _ Hin) as [i Ei]; try destruct (Hid _ Hin') as [i' Ei'];
      rewrite ?Ei, ?Ei'; simpl; [done..|]. rewrite strcmp_opp. destruct (strcmp_range (key a) (key b)) as [->|[->| ->]]; done.
  - intros a b c _ _ _. apply cmp_trans.
  - rewrite Ha in Hp, Hs. destruct (null_first _ _ Hp (entries_ids rs) Hs) as (l & El & Hpl & Hsl).
    assert (Hid : Forall (fun a => is_Some a.(id)) l) by (rewrite Hpl; apply entries_ids).
    assert (Hnd : NoDup (map id l)).
    { change (NoDup (id <$> l)). rewrite Hpl. change (NoDup (map id (map entry rs))). rewrite map_map. cbn [entry id].
      rewrite <- (map_map r_id Some). by apply NoDup_fmap_2; [apply _|]. }
    destruct (assign_loop_spec l 1 (ids t) Hid Hnd) as (vars & Ev & H1 & _); [lia|apply Permutation_length in Hpl; rewrite length_map in Hpl; unfold LIBHPX_ACTION_MAX in Hl; lia|].
    exists t, (mkTable (null_action :: l) vars), l. split; [done|]. split.
    { unfold action_registration_finalize, _assign_ids, _sort_entries. cbn [actions ids]. rewrite Ha, El. simpl. rewrite drop_0. by rewrite Ev. }
    split; [done|]. split; [done|]. split; [by apply sorted_keys|done].
Qed.

(** The localities agree on the ids of actions.  Two localities that register the same
    keys, in any orders and with handlers and variables of their own, finalize their tables;
    every key then gets the same id on both, and that id, between 1 and the size of the table,
    selects on each locality the action that it registered under the key. *)
Theorem registration_ids_agree rs1 rs2 : map r_key rs1 ≡ₚ map r_key rs2 -> NoDup (map r_key rs1) ->
  NoDup (map r_id rs1) -> NoDup (map r_id rs2) -> Z.of_nat (length rs1) + 1 < LIBHPX_ACTION_MAX ->
  exists t1 t1' t2 t2', register_all rs1 empty_table = Some t1 /\ action_registration_finalize qsort t1 = Some t1'
    /\ register_all rs2 empty_table = Some t2 /\ action_registration_finalize qsort t2 = Some t2'
    /\ forall r1 r2, r1 ∈ rs1 -> r2 ∈ rs2 -> r1.(r_key) = r2.(r_key) ->
       exists i, t1'.(ids) !! r1.(r_id) = Some (Z.of_nat i) /\ t2'.(ids) !! r2.(r_id) = Some (Z.of_nat i)
         /\ (1 <= i <= length rs1)%nat
         /\ t1'.(actions) !! i = Some (entry r1) /\ t2'.(actions) !! i = Some (entry r2).
Proof.
  intros Hk Hk1 Hi1 Hi2 Hl. pose proof (Permutation_length Hk) as Hlen. rewrite !length_map in Hlen.
  assert (Hk2 : NoDup (map r_key rs2)) by (change (NoDup (r_key <$> rs2)); by rewrite <- Hk).
  destruct (finalize_spec rs1 Hk1 Hi1 Hl) as (t1 & t1' & l1 & E1 & F1 & A1 & P1 & S1 & V1).
  destruct (finalize_spec rs2 Hk2 Hi2 ltac:(lia)) as (t2 & t2' & l2 & E2 & F2 & A2 & P2 & S2 & V2).
  exists t1, t1', t2, t2'. do 4 (split; [done|]). intros r1 r2 H1 H2 Hkey.
  assert (Hkeys : map key l1 = map key l2).
  { apply (StronglySorted_unique key_le _ _ S1 S2). rewrite (Permutation_map key P1), (Permutation_map key P2), !map_map. exact Hk. }
  assert (Hin1 : entry r1 ∈ l1) by (rewrite P1; by apply list_elem_of_fmap_2).
  apply list_elem_of_lookup in Hin1 as [j Hj]. pose proof (f_equal (fun l => l !! j) Hkeys) as Hkj. simpl in Hkj.
  rewrite !list_lookup_fmap, Hj in Hkj. destruct (l2 !! j) as [a|] eqn:Ha; [|done]. injection Hkj as Hka.
  assert (a = entry r2) as ->.
  { assert (Hin : a ∈ map entry rs2) by (rewrite <- P2; by eapply list_elem_of_lookup_2). apply list_elem_of_fmap in Hin as (r & -> & Hr).
    f_equal. apply (nodup_key r_key rs2); [done..|]. simpl in Hka. congruence. }
  pose proof (lookup_lt_Some _ _ _ Hj) as Hlt. apply Permutation_length in P1. rewrite length_map in P1.
  exists (S j). rewrite A1, A2, (V1 j _ _ Hj eq_refl), (V2 j _ _ Ha eq_refl). split_and!; [f_equal; lia|f_equal; lia|lia|lia|done|done].
Qed.
End Locality.

(** *** An instance *)

Fixpoint insert_sorted (cmp : action_t -> action_t -> Z) (x : action_t) (l : list action_t) : list action_t :=
  match l with
  | [] => [x]
  | y :: l => if cmp x y <=? 0 then x :: y :: l else y :: insert_sorted cmp x l
  end.

Definition insertion_sort (cmp : action_t -> action_t -> Z) (l : list action_t) : list action_t := foldr (insert_sorted cmp) [] l.

Lemma insert_sorted_perm cmp x l : insert_sorted cmp x l ≡ₚ x :: l.
Proof. induction l as [|y l IH]; simpl; [done|]. destruct (_ <=? _); [done|]. rewrite IH. apply perm_swap. Qed.

Lemma insert_sorted_sorted cmp x l : x ∉ l ->
  (forall a b, a ∈ x :: l -> b ∈ x :: l -> a <> b -> Z.sgn (cmp b a) = - Z.sgn (cmp a b)) ->
  (forall a b c, a ∈ x :: l -> b ∈ x :: l -> c ∈ x :: l -> cmp a b <= 0 -> cmp b c <= 0 -> cmp a c <= 0) ->
  StronglySorted (fun a b => cmp a b <= 0) l -> StronglySorted (fun a b => cmp a b <= 0) (insert_sorted cmp x l).
Proof.
  intros Hx Hsgn Htr. induction 1 as [|y l Hs IH Hy]; simpl; [by repeat constructor|]. rewrite Forall_forall in Hy.
  destruct (Z.leb_spec (cmp x y) 0) as [Hle|Hgt].
  - constructor; [constructor; [done|by apply Forall_forall]|]. apply Forall_forall. intros z Hz. apply elem_of_cons in Hz as [->|Hz]; [done|].
    apply (Htr x y z); [left|by right; left|by right; right|done|by apply Hy].
  - constructor; [apply IH; [set_solver|intros; apply Hsgn; set_solver|intros a b c ? ? ?; apply Htr; set_solver]|].
    apply Forall_forall. intros z Hz. rewrite insert_sorted_perm in Hz. apply elem_of_cons in Hz as [->|Hz]; [|by apply Hy].
    assert (Hne : x <> y) by set_solver. specialize (Hsgn x y ltac:(left) ltac:(by right; left) Hne). lia.
Qed.

Lemma insertion_sort_sorts : sorts insertion_sort.
Proof.
  intros cmp l Hnd Hsgn Htr. unfold insertion_sort. induction l as [|x l IH]; simpl; [by split; constructor|].
  apply NoDup_cons in Hnd as [Hx Hnd]. destruct IH as [Hp Hs]; [done|intros; apply Hsgn; set_solver|intros a b c ? ? ?; apply Htr; set_solver|].
  split; [by rewrite insert_sorted_perm, Hp|]. apply insert_sorted_sorted; [by rewrite Hp| | |done].
  - intros a b Ha Hb. rewrite Hp in Ha, Hb. by apply Hsgn.
  - intros a b c Ha Hb Hc. rewrite Hp in Ha, Hb, Hc. by apply Htr.
Qed.

(** Two localities whose constructors run in different orders. *)
Definition demo_rs1 : list registration :=
  [mkReg 0 0 [98; 97] 500 true 1; mkReg 0 0 [97] 508 true 2; mkReg 0 1 [98] 516 false 3].
Definition demo_rs2 : list registration :=
  [mkReg 0 1 [98] 916 false 13; mkReg 0 0 [98; 97] 900 true 11; mkReg 0 0 [97] 908 true 12].

Lemma registration_ids_agree_witness : exists t1 t1' t2 t2' i,
  register_all demo_rs1 empty_table = Some t1 /\ action_registration_finalize insertion_sort t1 = Some t1'
  /\ register_all demo_rs2 empty_table = Some t2 /\ action_registration_finalize insertion_sort t2 = Some t2'
  /\ t1'.(ids) !! 500 = Some (Z.of_nat i) /\ t2'.(ids) !! 900 = Some (Z.of_nat i).
Proof.
  destruct (registration_ids_agree insertion_sort insertion_sort_sorts demo_rs1 demo_rs2) as (t1 & t1' & t2 & t2' & H1 & H2 & H3 & H4 & H).
  - by apply (bool_decide_unpack _); vm_compute.
  - by apply (bool_decide_unpack _); vm_compute.
  - by apply (bool_decide_unpack _); vm_compute.
  - by apply (bool_decide_unpack _); vm_compute.
  - by vm_compute.
  - destruct (H (mkReg 0 0 [98; 97] 500 true 1) (mkReg 0 0 [98; 97] 900 true 11)) as (i & Hi1 & Hi2 & _); [set_solver|set_solver|done|].
    exists t1, t1', t2, t2', i. by split_and!.
Defined.

(** The order of equal keys is the library's, so a key that is registered twice can get
    different ids on two localities. *)
Lemma equal_keys_disagree :
  let f rs := t ← register_all rs empty_table; t ← action_registration_finalize insertion_sort t; Some (t.(ids) !! 1, t.(ids) !! 2) in
  f [mkReg 0 0 [97] 1 true 0; mkReg 0 0 [97] 2 true 0] = Some (Some 1, Some 2)
  /\ f [mkReg 0 0 [97] 2 true 0; mkReg 0 0 [97] 1 true 0] = Some (Some 2, Some 1).
Proof. by vm_compute. Qed.
End Registration.

(** ** Vectored parcels *)

Module Vectored.

Definition sizeof_int : Z := 4.
Definition sizeof_size_t : Z := 8.

(** The start of the arguments of a parcel with [n] of them. *)
Definition args_offset (n : nat) : Z := sizeof_int + sizeof_size_t * Z.of_nat n.

Fixpoint pack_loop (n i : nat) (bytes : Z) (vargs : list (list Z)) (buffer : list Z) : option (list Z) :=
  match vargs with
  | [] => Some buffer
  | arg :: vargs =>
    let size := Z.of_nat (length arg) in
    buffer ← store buffer (sizeof_int + sizeof_size_t * Z.of_nat i) (le 8 size);
    buffer ← store buffer (args_offset n + bytes) arg;
    pack_loop n (S i) (bytes + (size + align size 8)) vargs buffer
  end.

(** The buffers of the caller are the list of their bytes. *)
Definition _pack_vectored (vargs : list (list Z)) (buffer : list Z) : option (list Z) :=
  let n := length vargs in
  buffer ← store buffer 0 (le 4 (Z.of_nat n));
  pack_loop n 0 (align (args_offset n) 8) vargs buffer.

Fixpoint size_loop (bytes : Z) (vargs : list (list Z)) : Z :=
  match vargs with
  | [] => bytes
  | arg :: vargs =>
    let bytes := u64 (bytes + align bytes 8) in
    size_loop (u64 (bytes + Z.of_nat (length arg))) vargs
  end.

(** [fresh] is the payload of a new parcel of a size, whose bytes are arbitrary. *)
Definition _new_vectored (fresh : Z -> list Z) (vargs : list (list Z)) : option (list Z) :=
  match vargs with
  | [] => None
  | _ => _pack_vectored vargs (fresh (size_loop (args_offset (length vargs)) vargs))
  end.

(** What the handler reads: every argument at its pointer, of its size. *)
Fixpoint exec_loop (k i : nat) (argp : Z) (args : list Z) : option (list (Z * list Z)) :=
  match k with
  | O => Some []
  | S k =>
    bs ← load args (sizeof_int + sizeof_size_t * Z.of_nat i) 8;
    let size := unle bs in
    arg ← load args argp (Z.to_nat size);
    rest ← exec_loop k (S i) (argp + size + align size 8) args;
    Some ((argp, arg) :: rest)
  end.

(** The arguments with their offsets in the payload. *)
Definition _exec_vectored (args : list Z) : option (list (Z * list Z)) :=
  bs ← load args 0 4;
  let nargs := Z.to_nat (unle bs) in
  exec_loop nargs 0 (args_offset nargs + align (args_offset nargs) 8) args.

Inductive outcome := Resend | Handler (target : Z) (args : list (Z * list Z)).

(** [pin] is what pinning the target gives. *)
Definition _exec_pinned_vectored (pin : option Z) (args : list Z) : option outcome :=
  match pin with
  | None => Some Resend
  | Some target => a ← _exec_vectored args; Some (Handler target a)
  end.

(** *** Offsets *)

Lemma align8 x : 0 <= x -> 0 <= align x 8 < 8 /\ (x + align x 8) mod 8 = 0.
Proof. intros Hx. destruct (align_spec x 3 Hx ltac:(lia)) as [H1 H2]. split; [exact H1|]. apply Z.mod_divide; [lia|exact H2]. Qed.

Lemma align8_shift c x : 0 <= c -> 0 <= x -> c mod 8 = 0 -> align (c + x) 8 = align x 8.
Proof.
  intros Hc Hx Hm. change 8 with (2 ^ 3) at 1 2. rewrite !align_eq by lia. change (2 ^ 3) with 8.
  pose proof (Z.div_mod c 8 ltac:(lia)). replace (- (c + x)) with (- x + (- (c / 8)) * 8) by lia. apply Z.mod_add. lia.
Qed.

(** The bytes of the arguments, with room for the padding of each. *)
Fixpoint room (vargs : list (list Z)) : Z :=
  match vargs with
  | [] => 0
  | arg :: vargs => Z.of_nat (length arg) + 8 + room vargs
  end.

Lemma size_loop_cons x arg vargs : 0 <= x -> x + room (arg :: vargs) < 2 ^ 64 ->
  size_loop x (arg :: vargs) = size_loop (x + align x 8 + Z.of_nat (length arg)) vargs.
Proof.
  intros Hx Hr. cbn [size_loop room] in *. destruct (align8 x Hx) as [Ha _].
  assert (0 <= room vargs) by (clear; induction vargs; simpl; lia).
  rewrite (wrap_small 64 (x + _)) by lia. by rewrite wrap_small by lia.
Qed.

Lemma size_loop_ge vargs : forall x, 0 <= x -> x + room vargs < 2 ^ 64 -> x <= size_loop x vargs.
Proof.
  induction vargs as [|arg vargs IH]; intros x Hx Hr; [simpl; lia|]. rewrite size_loop_cons by done. cbn [room] in Hr.
  destruct (align8 x Hx) as [Ha _]. etransitivity; [|apply IH]; lia.
Qed.

(** Packing writes the sizes and the arguments, leaves the rest alone, and unpacking reads
    them back. *)
Lemma pack_exec n vargs : forall i bytes x buffer, (i + length vargs = n)%nat -> 0 <= x -> 0 <= bytes ->
  x + align x 8 = args_offset n + bytes -> x + room vargs < 2 ^ 64 -> size_loop x vargs <= Z.of_nat (length buffer) ->
  exists buffer', pack_loop n i bytes vargs buffer = Some buffer' /\ length buffer' = length buffer
    /\ (forall off size, off + Z.of_nat size <= sizeof_int + sizeof_size_t * Z.of_nat i
         \/ args_offset n <= off /\ off + Z.of_nat size <= args_offset n + bytes -> load buffer' off size = load buffer off size)
    /\ exists ps, exec_loop (length vargs) i (args_offset n + bytes) buffer' = Some ps
       /\ map snd ps = vargs /\ Forall (fun p => p.1 mod 8 = 0) ps.
Proof.
  induction vargs as [|arg vargs IH]; intros i bytes x buffer Hi Hx Hb Hc Hr Hl.
  - exists buffer. split; [done|]. split; [done|]. split; [done|]. by exists [].
  - rewrite size_loop_cons in Hl by done. destruct (align8 x Hx) as [Ha Hm]. cbn [room length] in Hr, Hi. rewrite Hc in Hl, Hm.
    set (size := Z.of_nat (length arg)) in *. set (cur := args_offset n + bytes) in *.
    assert (Hn : sizeof_int + sizeof_size_t * Z.of_nat (S i) <= args_offset n) by (unfold args_offset, sizeof_int, sizeof_size_t; lia).
    assert (H0 : 0 <= sizeof_int + sizeof_size_t * Z.of_nat i) by (unfold sizeof_int, sizeof_size_t; lia).
    assert (Hs8 : sizeof_int + sizeof_size_t * Z.of_nat i + 8 = sizeof_int + sizeof_size_t * Z.of_nat (S i)) by (unfold sizeof_size_t; lia).
    assert (0 <= room vargs) by (clear; induction vargs; simpl; lia).
    assert (Hsl : cur + size <= size_loop (cur + size) vargs) by (apply size_loop_ge; lia).
    destruct (store buffer (sizeof_int + sizeof_size_t * Z.of_nat i) (le 8 size)) as [b1|] eqn:E1;
      [|rewrite store_some in E1 by (rewrite ?le_length; lia); done].
    pose proof (store_length _ _ _ _ E1) as L1.
    destruct (store b1 cur arg) as [b2|] eqn:E2; [|rewrite store_some in E2 by lia; done]. pose proof (store_length _ _ _ _ E2) as L2.
    destruct (align8 size ltac:(lia)) as [Has _].
    assert (Hnext : cur + size + align (cur + size) 8 = args_offset n + (bytes + (size + align size 8))) by (rewrite align8_shift by lia; unfold cur; lia).
    destruct (IH (S i) (bytes + (size + align size 8)) (cur + size) b2) as (b' & E & L & Hk & ps & Ep & Hv & Hal); [lia|lia|lia|done|lia|lia|].
    cbn [pack_loop]. fold size cur. rewrite E1. cbn [mbind option_bind]. rewrite E2. cbn [mbind option_bind]. rewrite E.
    exists b'. split; [done|]. split; [lia|]. split.
    + intros off sz Hd. rewrite Hk by lia. rewrite (load_store_ne _ _ _ _ _ _ E2) by (fold size; lia).
      apply (load_store_ne _ _ _ _ _ _ E1). rewrite le_length. lia.
    + exists ((cur, arg) :: ps). split; [|split; [simpl; by rewrite Hv|by constructor]]. cbn [exec_loop length].
      rewrite Hk by (left; lia). rewrite (load_store_ne _ _ _ _ _ _ E2) by (left; lia). apply load_store in E1. rewrite le_length in E1.
      rewrite E1. cbn [mbind option_bind]. rewrite unle_le by (change (8 * Z.of_nat 8) with 64; lia). replace (Z.to_nat size) with (length arg) by lia.
      rewrite Hk by (right; fold size; lia). apply load_store in E2. rewrite E2. cbn [mbind option_bind].
      replace (cur + size + align size 8) with (args_offset n + (bytes + (size + align size 8))) by (unfold cur; lia). by rewrite Ep.
Qed.

(** Vectored arguments survive the trip.  For any number of buffers, of any sizes that fit
    a parcel, the caller's parcel is large enough for what is packed into it, whatever its
    bytes were, and the handler at the target is called with the same buffers, each at an
    offset that is a multiple of eight; when the target cannot be pinned, the parcel is sent
    again. *)
Theorem vectored_roundtrip fresh vargs : vargs <> [] -> Z.of_nat (length vargs) < 2 ^ 31 ->
  args_offset (length vargs) + room vargs < 2 ^ 64 ->
  (forall n, 0 <= n -> length (fresh n) = Z.to_nat n) ->
  exists buffer ps, _new_vectored fresh vargs = Some buffer
    /\ (forall target, _exec_pinned_vectored (Some target) buffer = Some (Handler target ps))
    /\ _exec_pinned_vectored None buffer = Some Resend
    /\ _exec_vectored buffer = Some ps
    /\ map snd ps = vargs /\ Forall (fun p => p.1 mod 8 = 0) ps.
Proof.
  intros Hne Hn Hr Hf. unfold _new_vectored, _pack_vectored. destruct vargs as [|a0 va] eqn:Ev; [done|]. rewrite <- Ev in *. clear Hne.
  set (n := length vargs) in *. assert (H0 : 0 <= args_offset n) by (unfold args_offset, sizeof_int, sizeof_size_t; lia).
  pose proof (size_loop_ge vargs (args_offset n) H0 Hr) as Hge. set (buf := fresh _). assert (Hb : Z.of_nat (length buf) = size_loop (args_offset n) vargs) by (unfold buf; rewrite Hf; lia).
  destruct (store buf 0 (le 4 (Z.of_nat n))) as [b1|] eqn:E1;
    [|rewrite store_some in E1 by (rewrite ?le_length; unfold args_offset, sizeof_int, sizeof_size_t in *; lia); done].
  pose proof (store_length _ _ _ _ E1) as L1. cbn [mbind option_bind].
  destruct (pack_exec n vargs 0 (align (args_offset n) 8) (args_offset n) b1) as (b' & E & L & Hk & ps & Ep & Hv & Hal);
    [done|done|apply align8; lia|done|done|lia|]. rewrite E. exists b', ps. split; [done|].
  assert (Ex : _exec_vectored b' = Some ps).
  { unfold _exec_vectored. rewrite Hk by (left; unfold sizeof_int; lia). apply load_store in E1. rewrite le_length in E1. rewrite E1.
    cbn [mbind option_bind]. rewrite unle_le by (change (8 * Z.of_nat 4) with 32; lia). rewrite Nat2Z.id. exact Ep. }
  unfold _exec_pinned_vectored. rewrite Ex. done.
Qed.

Lemma vectored_roundtrip_witness : exists buffer ps,
  _new_vectored (fun n => replicate (Z.to_nat n) 255) [[1; 2; 3]; []; [4; 5; 6; 7; 8; 9; 10; 11; 12]] = Some buffer
  /\ _exec_vectored buffer = Some ps /\ map snd ps = [[1; 2; 3]; []; [4; 5; 6; 7; 8; 9; 10; 11; 12]].
Proof.
  destruct (vectored_roundtrip (fun n => replicate (Z.to_nat n) 255) [[1; 2; 3]; []; [4; 5; 6; 7; 8; 9; 10; 11; 12]])
    as (buffer & ps & H1 & _ & _ & H2 & H3 & _); [done|by vm_compute|by vm_compute|intros n _; apply length_replicate|].
  exists buffer, ps. split; [exact H1|]. split; [exact H2|exact H3].
Defined.
End Vectored.

(** ** Classes of actions *)

Module Classes.

Inductive hpx_type := HPX_POINTER | HPX_INT | HPX_UINT | HPX_SIZE_T | HPX_OTHER (t : Z).

#[export] Instance hpx_type_eq_dec : EqDecision hpx_type.
Proof. solve_decision. Defined.

(** The tables of functions that a class of actions uses for its parcels. *)
Inductive parcel_class :=
  _ffi_0_vtable | _pinned_ffi_0_vtable | _ffi_n_vtable | _pinned_ffi_n_vtable
  | _marshalled_vtable | _pinned_marshalled_vtable | _vectored_vtable | _pinned_vectored_vtable.

Definition HPX_MARSHALLED : Z := 1.
Definition HPX_PINNED : Z := 2.
Definition HPX_VECTORED : Z := 8.

Definition va_arg (l : list hpx_type) : option (hpx_type * list hpx_type) :=
  match l with [] => None | t :: l => Some (t, l) end.

Definition count_type (t : hpx_type) : bool := bool_decide (t ∈ [HPX_INT; HPX_UINT; HPX_SIZE_T]).

(** The first type of a pinned action is consumed. *)
Definition pinned_arg (pinned : bool) (l : list hpx_type) : option (list hpx_type) :=
  if pinned then '(t, l) ← va_arg l; if decide (t = HPX_POINTER) then Some l else None else Some l.

Definition action_init_marshalled (attr : Z) (l : list hpx_type) : option parcel_class :=
  let pinned := nz (Z.land attr HPX_PINNED) in
  l ← pinned_arg pinned l;
  '(addr, l) ← va_arg l;
  '(size, _) ← va_arg l;
  if decide (addr = HPX_POINTER) then
    if count_type size then Some (if pinned then _pinned_marshalled_vtable else _marshalled_vtable) else None
  else None.

Definition action_init_vectored (attr : Z) (l : list hpx_type) : option parcel_class :=
  let pinned := nz (Z.land attr HPX_PINNED) in
  l ← pinned_arg pinned l;
  '(count, l) ← va_arg l;
  '(args, l) ← va_arg l;
  '(sizes, _) ← va_arg l;
  if count_type count then
    if decide (args = HPX_POINTER /\ sizes = HPX_POINTER)
    then Some (if pinned then _pinned_vectored_vtable else _vectored_vtable) else None
  else None.

Section Init.
Variable ffi_prep_cif : list hpx_type -> bool.     (* whether libffi accepts the types *)

Definition action_init_ffi (attr : Z) (l : list hpx_type) : option parcel_class :=
  let pinned := nz (Z.land attr HPX_PINNED) in
  _ ← pinned_arg pinned l;
  if ffi_prep_cif l then
    Some (if pinned && (1 <? length l)%nat then _pinned_ffi_n_vtable
          else if pinned then _pinned_ffi_0_vtable
          else if (0 <? length l)%nat then _ffi_n_vtable else _ffi_0_vtable)
  else None.

Definition action_init (attr : Z) (l : list hpx_type) : option parcel_class :=
  let a := Z.land attr (Z.lor HPX_MARSHALLED HPX_VECTORED) in
  if a =? 0 then action_init_ffi attr l
  else if a =? HPX_MARSHALLED then action_init_marshalled attr l
  else if a =? Z.lor HPX_MARSHALLED HPX_VECTORED then action_init_vectored attr l
  else None.

Definition pinned_class (c : parcel_class) : bool :=
  match c with
  | _pinned_ffi_0_vtable | _pinned_ffi_n_vtable | _pinned_marshalled_vtable | _pinned_vectored_vtable => true
  | _ => false
  end.

(** The parcels of an action pin their target exactly when the action is registered as
    pinned, and then its first parameter is a pointer. *)
Lemma action_init_pinned attr l c : action_init attr l = Some c ->
  pinned_class c = nz (Z.land attr HPX_PINNED) /\ (pinned_class c = true -> head l = Some HPX_POINTER).
Proof.
  assert (Hp : forall b l', pinned_arg b l = Some l' -> b = true -> head l = Some HPX_POINTER).
  { intros b l' E ->. destruct l as [|t l0]; [done|]. simpl in *. by destruct (decide (t = HPX_POINTER)) as [->|]. }
  unfold action_init, action_init_ffi, action_init_marshalled, action_init_vectored. set (b := nz (Z.land attr HPX_PINNED)).
  assert (Hc : forall l', pinned_arg b l = Some l' -> pinned_class c = b ->
    pinned_class c = b /\ (pinned_class c = true -> head l = Some HPX_POINTER)).
  { intros l' E ->. split; [done|]. by apply (Hp b l'). }
  intros H. destruct (_ =? 0); [|destruct (_ =? HPX_MARSHALLED); [|destruct (_ =? _); [|done]]].
  - apply bind_Some in H as (l' & E & H). apply (Hc l' E). destruct (ffi_prep_cif l); [|done]. injection H as <-.
    destruct b, (1 <? length l)%nat, (0 <? length l)%nat; done.
  - apply bind_Some in H as (l' & E & H). apply (Hc l' E). apply bind_Some in H as ([t1 l1] & _ & H). apply bind_Some in H as ([t2 l2] & _ & H).
    case_decide; [|done]. destruct (count_type t2); [|done]. injection H as <-. by destruct b.
  - apply bind_Some in H as (l' & E & H). apply (Hc l' E). apply bind_Some in H as ([t1 l1] & _ & H). apply bind_Some in H as ([t2 l2] & _ & H).
    apply bind_Some in H as ([t3 l3] & _ & H). destruct (count_type t1); [|done]. case_decide; [|done]. injection H as <-. by destruct b.
Qed.
End Init.

(** *** Marshalled parcels *)

(** The payload is the caller's buffer, or empty. *)
Definition _new_marshalled (data : option (list Z)) : list Z := match data with Some bs => bs | None => [] end.

Inductive outcome := Resend | Handler (target : option Z) (args : list Z) (size : Z).

Definition _exec_marshalled (payload : list Z) : outcome := Handler None payload (Z.of_nat (length payload)).

Definition _exec_pinned_marshalled (pin : option Z) (payload : list Z) : outcome :=
  match pin with
  | None => Resend
  | Some target => Handler (Some target) payload (Z.of_nat (length payload))
  end.
End Classes.
