(* ===== verification/Par.v ===== *)
(** * Parallel loops

    libhpx/par.cpp: a loop over the scheduler's threads, a divide and conquer call of an
    action for every iteration, and a call of an action on every element of a global array.
    The call of an action is a parameter that gives its status; the address arithmetic is an
    interface, which the cyclic and the linear address spaces implement. *)

From stdpp Require Import list_numbers relations.
From S2P Require Import Prelude Math Gpa.

(** A C int, whose overflow is undefined. *)
Definition int (x : Z) : option Z := if (- 2 ^ 31 <=? x) && (x <? 2 ^ 31) then Some x else None.

(** ** The loop over the threads *)

(** The iterations of a range, in order. *)
Definition _par_for_async_handler (min max : Z) : list Z := seqZ min (max - min).

Fixpoint par_for_loop (k : nat) (i base m r : Z) : list (Z * Z * Z) :=
  match k with
  | O => []
  | S k =>
    let rmin := base in
    let rmax := base + m + (if 0 <? r then 1 else 0) in
    (i, rmin, rmax) :: par_for_loop k (i + 1) rmax m (r - 1)
  end.

(** The mail: for every worker, its range. *)
Definition hpx_par_for (nthreads min max : Z) : option (list (Z * Z * Z)) :=
  n ← int (max - min);
  if (0 <? n) && (0 <? nthreads) then
    let m := Z.quot n nthreads in
    let r := Z.rem n nthreads in
    Some (par_for_loop (Z.to_nat nthreads) 0 min m r)
  else None.

(** ** Divide and conquer *)

Section Call.
Variable call : Z -> Z -> Z.      (* the status of the call for a range *)

Fixpoint call_loop (k : nat) (amin amax m r : Z) : option (Z * list (Z * Z)) :=
  match k with
  | O => Some (0, [])
  | S k =>
    if nz (call amin amax) then Some (call amin amax, [])
    else
      amax' ← int (amax + m + (if 0 <? r then 1 else 0));
      if amax' <=? amax then Some (0, [(amin, amax)])
      else '(e, cs) ← call_loop k amax amax' m (r - 1); Some (e, (amin, amax) :: cs)
  end.

(** The status, the ranges that are called, and the iterations that are sent. *)
Definition _hpx_par_call_helper (min max branching_factor cutoff : Z) : option (Z * list (Z * Z) * list Z) :=
  n ← int (max - min);
  if (0 <? n) && (0 <? branching_factor) && (0 <? cutoff) then
    if cutoff <? n then
      let m := Z.quot n branching_factor in
      let r := Z.rem n branching_factor in
      amax ← int (min + m + (if 0 <? r then 1 else 0));
      '(e, cs) ← call_loop (Z.to_nat branching_factor) min amax m (r - 1);
      Some (e, cs, [])
    else Some (0, [], seqZ min (max - min))
  else None.

(** With a [sync], the inputs of the and gate; what the first call does. *)
Definition hpx_par_call (min max branching_factor cutoff : Z) (sync : bool) :=
  n ← int (max - min);
  if (0 <? n) && (0 <? branching_factor) && (0 <? cutoff) then
    r ← _hpx_par_call_helper min max branching_factor cutoff;
    Some (if sync then Some n else None, r)
  else None.

(** The executions: any call that is pending runs next. *)
Inductive par_step (branching_factor cutoff : Z) : list (Z * Z) * list Z -> list (Z * Z) * list Z -> Prop :=
  | par_exec p1 p2 a b sent e cs its : _hpx_par_call_helper a b branching_factor cutoff = Some (e, cs, its) ->
      par_step branching_factor cutoff (p1 ++ (a, b) :: p2, sent) (p1 ++ p2 ++ cs, sent ++ its).
End Call.

(** ** A call for every element of an array *)

(** What the client of addresses relies on: adding moves the position of an address. *)
Class Addressing (add : Z -> Z -> Z -> Z) (bsize : Z) (valid : Z -> Prop) (pos : Z -> Z) (capacity : Z) : Prop := {
  add_pos a n : valid a -> 0 <= n -> n < 2 ^ 63 -> pos a + n < capacity ->
    valid (add a n bsize) /\ pos (add a n bsize) = pos a + n;
  pos_unique a b : valid a -> valid b -> pos a = pos b -> a = b;
}.

Section Count.
Variable add : Z -> Z -> Z -> Z.   (* hpx_addr_add *)
Variable call : Z -> Z.            (* the status of the call at an address *)

Fixpoint count_loop (k : nat) (i addr increment bsize : Z) : Z * list Z :=
  match k with
  | O => (0, [])
  | S k =>
    let target := add addr (i64 (u64 (i * increment))) bsize in
    if nz (call target) then (call target, [])
    else let '(e, ts) := count_loop k (i + 1) addr increment bsize in (e, target :: ts)
  end.

Definition _hpx_count_range_call_handler (addr count increment bsize : Z) : Z * list Z :=
  count_loop (Z.to_nat count) 0 addr increment bsize.

(** The calls of the handler: a locality, an address and a count. *)
Definition hpx_count_range_call (localities threads here addr count increment bsize : Z) : list (Z * Z * Z) :=
  let thread_chunk := count / (localities * threads) in
  flat_map (fun l => map (fun t =>
      (l, add addr (i64 (u64 ((l * threads + t) * thread_chunk * increment))) bsize, thread_chunk))
    (seqZ 0 threads)) (seqZ 0 localities)
  ++ [(here, add addr (i64 (u64 (localities * threads * thread_chunk * increment))) bsize,
       count mod (localities * threads))].
End Count.

(** ** Ranges *)

Definition span (r : Z * Z) : list Z := seqZ r.1 (r.2 - r.1).

Lemma int_ok x : - 2 ^ 31 <= x < 2 ^ 31 -> int x = Some x.
Proof. intros H. unfold int. by rewrite (proj2 (Z.leb_le _ _)), (proj2 (Z.ltb_lt _ _)) by lia. Qed.

Lemma seqZ_split a b c : a <= b <= c -> seqZ a (c - a) = seqZ a (b - a) ++ seqZ b (c - b).
Proof.
  intros H. replace (c - a) with ((b - a) + (c - b)) by lia. rewrite seqZ_app by lia. by replace (a + (b - a)) with b by lia.
Qed.

(** What is left when [k] parts and [R] larger ones remain. *)
Lemma par_for_loop_spec k : forall i base m r, 0 <= m -> Z.max 0 r <= Z.of_nat k ->
  let rs := par_for_loop k i base m r in
  length rs = k
  /\ flat_map (fun '(_, a, b) => _par_for_async_handler a b) rs = seqZ base (Z.of_nat k * m + Z.max 0 r)
  /\ (forall j w a b, rs !! j = Some (w, a, b) -> w = i + Z.of_nat j /\ m <= b - a <= m + 1).
Proof.
  induction k as [|k IH]; intros i base m r Hm Hr; cbv zeta.
  - cbn [par_for_loop flat_map length]. split; [done|]. split; [|done]. by replace (Z.of_nat 0 * m + Z.max 0 r) with 0 by lia.
  - cbn [par_for_loop flat_map length]. set (x := if 0 <? r then 1 else 0).
    assert (Hx : x = if 0 <? r then 1 else 0) by done. clearbody x.
    assert (Hx' : 0 <= x <= 1 /\ Z.max 0 r = x + Z.max 0 (r - 1)) by (subst x; destruct (Z.ltb_spec 0 r); lia).
    destruct (IH (i + 1) (base + m + x) m (r - 1) Hm ltac:(lia)) as (I1 & I2 & I3). rewrite I1, I2. split; [done|]. split.
    + unfold _par_for_async_handler. replace (base + m + x - base) with (m + x) by lia.
      replace (base + m + x) with (base + (m + x)) by lia. rewrite <- seqZ_app by nia. f_equal. lia.
    + intros [|j] w a b Hj; [simplify_eq/=; lia|]. apply I3 in Hj. lia.
Qed.

(** The loop over the threads gives each of the [nthreads] workers one range; the ranges
    in the order of the workers are the iterations from [min] to [max], each exactly once, and
    their sizes differ by at most one. *)
Theorem par_for_exact nthreads min max : 0 < nthreads -> min < max -> max - min < 2 ^ 31 ->
  exists rs, hpx_par_for nthreads min max = Some rs
    /\ map (fun '(w, _, _) => w) rs = seqZ 0 nthreads
    /\ flat_map (fun '(_, a, b) => _par_for_async_handler a b) rs = seqZ min (max - min)
    /\ Forall (fun '(_, a, b) => (max - min) / nthreads <= b - a <= (max - min) / nthreads + 1) rs.
Proof.
  intros Ht Hm Ho. unfold hpx_par_for. rewrite int_ok by lia. cbn [mbind option_bind].
  destruct (Z.ltb_spec 0 (max - min)); [|lia]. destruct (Z.ltb_spec 0 nthreads); [|lia]. cbn [andb].
  rewrite Z.quot_div_nonneg, Z.rem_mod_nonneg by lia. eexists. split; [done|].
  pose proof (Z.mod_pos_bound (max - min) nthreads Ht). pose proof (Z.div_mod (max - min) nthreads ltac:(lia)).
  assert (0 <= (max - min) / nthreads) by (apply Z.div_pos; lia).
  destruct (par_for_loop_spec (Z.to_nat nthreads) 0 min ((max - min) / nthreads) ((max - min) mod nthreads)) as (I1 & I2 & I3); [lia|lia|].
  split; [|split].
  - apply list_eq_same_length with (Z.to_nat nthreads); [by rewrite length_seqZ|by rewrite length_map|].
    intros j x y Hj Hx Hy. rewrite list_lookup_fmap in Hx. apply lookup_seqZ in Hy as [-> Hy].
    destruct (par_for_loop _ _ _ _ _ !! j) as [[[w a] b]|] eqn:E; [|done]. apply I3 in E. simplify_eq/=. lia.
  - rewrite I2. f_equal. lia.
  - apply Forall_lookup. intros j [[w a] b] Hj. apply I3 in Hj as [_ Hj]. exact Hj.
Qed.

Lemma par_for_exact_witness : exists rs, hpx_par_for 4 (-3) 7 = Some rs
  /\ flat_map (fun '(_, a, b) => _par_for_async_handler a b) rs = [-3; -2; -1; 0; 1; 2; 3; 4; 5; 6].
Proof.
  destruct (par_for_exact 4 (-3) 7 ltac:(lia) ltac:(lia) ltac:(lia)) as (rs & E & _ & H & _). exists rs. split; [exact E|exact H].
Defined.

(** ** The divide and conquer *)

Section Exact.
Variable call : Z -> Z -> Z.
Implicit Types (p : list (Z * Z)) (amin amax m r : Z).

(** The state of the loop: [k] parts remain of [max], the next is the range that is ready. *)
Definition ready (k : nat) amin amax m r max : Prop :=
  amin < amax /\ 0 <= m /\ amax = amin + m + (if 0 <? r + 1 then 1 else 0)
  /\ max = amin + Z.of_nat k * m + Z.max 0 (r + 1) /\ Z.max 0 (r + 1) <= Z.of_nat k.

(** The next state, or the end. *)
Lemma ready_next k amin amax m r max : ready (S k) amin amax m r max -> 
  let amax' := amax + m + (if 0 <? r then 1 else 0) in
  amax <= max /\ (k = O -> amax = max) /\ (k <> O -> amax' <= max) /\ (amax' <= max + m)
  /\ (amax < amax' -> k <> O -> ready k amax amax' m (r - 1) max) /\ (amax' <= amax -> amax = max).
Proof.
  unfold ready. intros (H1 & H2 & H3 & H4 & H5). cbv zeta. replace (r - 1 + 1) with r by lia.
  destruct (Z.ltb_spec 0 (r + 1)); destruct (Z.ltb_spec 0 r); destruct k as [|k]; repeat split; try lia; nia.
Qed.

(** A range that is called: not empty, not longer than the first, within the bounds. *)
Definition part amin amax max (c : Z * Z) : Prop :=
  c.1 < c.2 /\ c.2 - c.1 <= amax - amin /\ amin <= c.1 /\ c.2 <= max /\ call c.1 c.2 = 0.

(** Without errors, the loop calls consecutive ranges up to [max], none longer than the first;
    with one, it returns the error of the first call that fails, and what it called ends
    where that call's range begins. *)
Lemma call_loop_spec k : forall amin amax m r max, ready k amin amax m r max -> (0 < k)%nat ->
  - 2 ^ 31 <= amin -> max + m < 2 ^ 31 ->
  exists e cs x, call_loop call k amin amax m r = Some (e, cs)
    /\ flat_map span cs = seqZ amin (x - amin) /\ amin <= x <= max
    /\ Forall (part amin amax max) cs
    /\ (if nz e then exists y, x < y <= max /\ call x y = e else x = max).
Proof.
  induction k as [|k IH]; intros amin amax m r max Hr Hk Hlo Hhi; [lia|].
  destruct (ready_next _ _ _ _ _ _ Hr) as (N1 & N2 & N3 & N4 & N5 & N6). pose proof Hr as (R1 & R2 & R3 & R4 & R5). cbn [call_loop].
  unfold nz at 1. destruct (Z.eqb_spec (call amin amax) 0) as [Hc|Hc]; cbn [negb].
  2: { exists (call amin amax), [], amin. split; [done|]. split; [by replace (amin - amin) with 0 by lia|]. split; [lia|]. split; [constructor|].
       unfold nz. destruct (Z.eqb_spec (call amin amax) 0); [done|]. cbn [negb]. exists amax. lia. }
  set (amax' := amax + m + (if 0 <? r then 1 else 0)) in *. rewrite int_ok by (unfold amax'; destruct (Z.ltb_spec 0 r); lia).
  cbn [mbind option_bind]. assert (Hone : forall l, Forall (part amin amax max) l ->
    Forall (part amin amax max) ((amin, amax) :: l)).
  { intros l Hl. constructor; [unfold part; simpl; lia|done]. }
  destruct (Z.leb_spec amax' amax).
  - exists 0, [(amin, amax)], amax. split; [done|]. split; [apply app_nil_r|]. split; [lia|]. split; [by apply Hone|by apply N6].
  - destruct (decide (k = O)) as [->|Hk0].
    + cbn [call_loop mbind option_bind]. exists 0, [(amin, amax)], amax. split; [done|]. split; [apply app_nil_r|].
      split; [lia|]. split; [by apply Hone|by apply N2].
    + destruct (IH _ _ _ _ _ (N5 H Hk0)) as (e & cs & x & E & Ef & Hx & Hf & He); [lia|lia|lia|]. rewrite E. cbn [mbind option_bind].
      exists e, ((amin, amax) :: cs), x. split; [done|]. cbn [flat_map]. rewrite Ef. split; [symmetry; apply (seqZ_split amin amax x); lia|].
      split; [lia|]. split; [|done]. apply Hone. eapply Forall_impl; [exact Hf|]. intros c (C1 & C2 & C3 & C4 & C5). unfold part.
      assert (amax' - amax <= amax - amin) by (unfold amax'; clear -R3; revert R3; destruct (Z.ltb_spec 0 r), (Z.ltb_spec 0 (r + 1)); intros R3; lia).
      lia.
Qed.

(** One call of the helper: it sends its iterations, or calls its parts; with an error, of the
    first part that fails, it leaves that part and the rest out. *)
Lemma helper_spec a b bf cutoff : a < b -> - 2 ^ 31 <= a -> b - a < 2 ^ 31 -> 1 < bf -> 0 < cutoff -> b + (b - a) / bf < 2 ^ 31 ->
  exists e cs its x, _hpx_par_call_helper call a b bf cutoff = Some (e, cs, its)
    /\ its ++ flat_map span cs = seqZ a (x - a) /\ a <= x <= b
    /\ Forall (fun c => c.1 < c.2 /\ c.2 - c.1 < b - a /\ a <= c.1 /\ c.2 <= b) cs
    /\ (its = [] \/ cs = []) /\ (if nz e then exists y, x < y <= b /\ call x y = e else x = b).
Proof.
  intros Hab Ha Hn Hbf Hc Ho. unfold _hpx_par_call_helper. rewrite int_ok by lia. cbn [mbind option_bind].
  destruct (Z.ltb_spec 0 (b - a)); [|lia]. destruct (Z.ltb_spec 0 bf); [|lia]. destruct (Z.ltb_spec 0 cutoff); [|lia]. cbn [andb].
  destruct (Z.ltb_spec cutoff (b - a)).
  - rewrite Z.quot_div_nonneg, Z.rem_mod_nonneg by lia. set (m := (b - a) / bf) in *. set (r := (b - a) mod bf).
    pose proof (Z.mod_pos_bound (b - a) bf ltac:(lia)) as Hr. pose proof (Z.div_mod (b - a) bf ltac:(lia)) as Hd. fold m r in Hr, Hd.
    assert (Hm : 0 <= m) by (apply Z.div_pos; lia).
    assert (Hs : ready (Z.to_nat bf) a (a + m + (if 0 <? r then 1 else 0)) m (r - 1) b).
    { unfold ready. replace (r - 1 + 1) with r by lia. destruct (Z.ltb_spec 0 r); repeat split; nia. }
    assert (Hlt : m + (if 0 <? r then 1 else 0) < b - a) by (destruct (Z.ltb_spec 0 r); nia).
    rewrite int_ok by (destruct (Z.ltb_spec 0 r); lia). cbn [mbind option_bind].
    destruct (call_loop_spec _ _ _ _ _ _ Hs) as (e & cs & x & E & Ef & Hx & Hf & He); [lia|lia|lia|]. rewrite E. cbn [mbind option_bind].
    exists e, cs, [], x. split_and!; try done; [lia..| |by left]. eapply Forall_impl; [exact Hf|]. intros c (C1 & C2 & C3 & C4 & C5). lia.
  - exists 0, [], (seqZ a (b - a)), b. split_and!; try done; [by rewrite app_nil_r|lia..|by right].
Qed.
End Exact.

(** ** Executions *)

(** A measure that every step decreases. *)
Definition work (p : list (Z * Z)) : Z := sum_of (fun c => 2 * (c.2 - c.1) - 1) p.

Lemma work_length cs : Forall (fun c => c.1 < c.2) cs -> work cs = 2 * Z.of_nat (length (flat_map span cs)) - Z.of_nat (length cs).
Proof.
  unfold work. induction 1 as [|[a b] cs Hc _ IH]; [done|]. cbn [sum_of foldr flat_map]. fold (sum_of (fun c : Z * Z => 2 * (c.2 - c.1) - 1) cs).
  rewrite IH, length_app. unfold span at 2. rewrite length_seqZ. simpl in *. lia.
Qed.

(** The parts are less work than the whole. *)
Lemma work_parts a b cs its : a < b -> its ++ flat_map span cs = seqZ a (b - a) -> its = [] \/ cs = [] ->
  Forall (fun c => c.1 < c.2 /\ c.2 - c.1 < b - a /\ a <= c.1 /\ c.2 <= b) cs -> work cs < 2 * (b - a) - 1.
Proof.
  intros Hab E Hor Hf. destruct Hor as [->| ->]; [|unfold work; simpl; lia]. simpl in E.
  apply (f_equal length) in E. rewrite length_seqZ in E. rewrite work_length by (eapply Forall_impl; [exact Hf|]; intros c H; apply H).
  destruct cs as [|c [|d cs]]; [simpl in E; lia| |simpl in *; lia].
  apply Forall_cons in Hf as [Hc _]. cbn [flat_map] in E. rewrite app_nil_r in E. unfold span in E. rewrite length_seqZ in E. lia.
Qed.

Section Runs.
Context (call : Z -> Z -> Z) (Hcall : forall a b, call a b = 0).
Context (min max bf cutoff : Z) (Hmin : - 2 ^ 31 <= min) (Hn : max - min < 2 ^ 31).
Context (Hbf : 1 < bf) (Hcut : 0 < cutoff) (Hmax : max + (max - min) / bf < 2 ^ 31).

Definition within (c : Z * Z) : Prop := c.1 < c.2 /\ min <= c.1 /\ c.2 <= max.

Lemma helper_within a b : within (a, b) -> exists cs its, _hpx_par_call_helper call a b bf cutoff = Some (0, cs, its)
  /\ its ++ flat_map span cs = seqZ a (b - a) /\ Forall within cs /\ work cs < 2 * (b - a) - 1.
Proof.
  intros (H1 & H2 & H3); simpl in *.
  assert ((b - a) / bf <= (max - min) / bf) by (apply Z.div_le_mono; lia).
  destruct (helper_spec call a b bf cutoff) as (e & cs & its & x & E & Ei & Hx & Hf & Hor & He); [lia..|].
  unfold nz in He. destruct (Z.eqb_spec e 0) as [->|Hne]; cbn [negb] in He; [subst x|destruct He as (y & _ & Hy); rewrite Hcall in Hy; congruence].
  exists cs, its. split; [done|]. split; [done|]. split; [|by apply (work_parts a b cs its)].
  eapply Forall_impl; [exact Hf|]. intros c (C1 & C2 & C3 & C4). unfold within. lia.
Qed.

Lemma runs_invariant n p sent : min < max -> nsteps (par_step call bf cutoff) n ([(min, max)], []) (p, sent) ->
  Forall within p /\ sent ++ flat_map span p ≡ₚ seqZ min (max - min) /\ Z.of_nat n + work p <= 2 * (max - min) - 1.
Proof.
  intros Hlt. revert p sent. induction n as [|n IH]; intros p sent Hs.
  - inversion Hs; subst. split; [constructor; [unfold within; simpl; lia|constructor]|].
    split; [simpl; by rewrite app_nil_r|unfold work; simpl; lia].
  - apply nsteps_inv_r in Hs as ([q d] & Hs & H1). apply IH in Hs as (Hw & Hp & Hm). inversion H1 as [p1 p2 a b sent0 e cs its E]; subst.
    apply Forall_app in Hw as [Hw1 Hw2]. apply Forall_cons in Hw2 as [Hab Hw2].
    destruct (helper_within a b Hab) as (cs' & its' & E' & Hi & Hc & Hk). rewrite E in E'. injection E' as -> -> ->.
    split; [by rewrite !Forall_app|]. split.
    + rewrite <- Hp, !flat_map_app. cbn [flat_map]. change (span (a, b)) with (seqZ a (b - a)). rewrite <- Hi. solve_Permutation.
    + unfold work in *. rewrite !sum_of_app in *. cbn [sum_of foldr fst snd] in Hm.
      fold (sum_of (fun c : Z * Z => 2 * (c.2 - c.1) - 1) p2) in Hm. lia.
Qed.
End Runs.

(** C36: the divide and conquer, whose calls run in any order, performs every iteration from
    [min] to [max] exactly once: at any time, what was sent and what is pending are the
    iterations, in some order, a pending call can always run, and the number of steps is
    bounded, so that every execution ends with exactly the iterations sent, which are as
    many as the and gate of the caller has inputs.  The branching factor is at least two. *)
Theorem par_call_exact call min max bf cutoff : (forall a b, call a b = 0) -> - 2 ^ 31 <= min < max -> max - min < 2 ^ 31 ->
  1 < bf -> 0 < cutoff -> max + (max - min) / bf < 2 ^ 31 ->
  (exists r, hpx_par_call call min max bf cutoff true = Some (Some (max - min), r))
  /\ forall n p sent, nsteps (par_step call bf cutoff) n ([(min, max)], []) (p, sent) ->
     sent ++ flat_map span p ≡ₚ seqZ min (max - min)
     /\ (forall c, c ∈ p -> exists p' sent', par_step call bf cutoff (p, sent) (p', sent'))
     /\ Z.of_nat n <= 2 * (max - min) - 1.
Proof.
  intros Hcall Hmin Hn Hbf Hcut Hmax. split.
  - destruct (helper_within call Hcall min max bf cutoff ltac:(lia) ltac:(lia) ltac:(lia) ltac:(lia) ltac:(lia) min max) as (cs & its & E & _); [unfold within; simpl; lia|].
    unfold hpx_par_call. rewrite int_ok by lia. cbn [mbind option_bind].
    destruct (Z.ltb_spec 0 (max - min)); [|lia]. destruct (Z.ltb_spec 0 bf); [|lia]. destruct (Z.ltb_spec 0 cutoff); [|lia]. cbn [andb].
    rewrite E. by eexists.
  - intros n p sent Hs. destruct (runs_invariant call Hcall min max bf cutoff ltac:(lia) ltac:(lia) ltac:(lia) ltac:(lia) ltac:(lia) n p sent ltac:(lia) Hs) as (Hw & Hp & Hm).
    split; [done|]. split.
    + intros [a b] Hc. rewrite Forall_forall in Hw. pose proof (Hw _ Hc) as Hab. apply list_elem_of_split in Hc as (p1 & p2 & ->).
      destruct (helper_within call Hcall min max bf cutoff ltac:(lia) ltac:(lia) ltac:(lia) ltac:(lia) ltac:(lia) a b Hab) as (cs & its & E & _).
      eexists _, _. by apply (par_exec call bf cutoff p1 p2 a b sent 0 cs its).
    + assert (0 <= work p); [|lia]. apply sum_of_nonneg. intros c Hc. rewrite Forall_forall in Hw. destruct (Hw c Hc). lia.
Qed.

Lemma par_call_exact_witness : exists r, hpx_par_call (fun _ _ => 0) 0 10 3 2 true = Some (Some 10, r).
Proof. apply (par_call_exact (fun _ _ => 0) 0 10 3 2); [done|lia..|by vm_compute]. Defined.

(** The parts are those of a run without errors; the loop goes through them up to the first
    whose call fails, and returns its status. *)
Lemma call_loop_parts call k : forall amin amax m r e ps, call_loop (fun _ _ => 0) k amin amax m r = Some (e, ps) ->
  (forall pre c post, ps = pre ++ c :: post -> Forall (fun p => call p.1 p.2 = 0) pre -> call c.1 c.2 <> 0 ->
     call_loop call k amin amax m r = Some (call c.1 c.2, pre))
  /\ (Forall (fun p => call p.1 p.2 = 0) ps -> call_loop call k amin amax m r = Some (0, ps)).
Proof.
  induction k as [|k IH]; intros amin amax m r e ps H; cbn [call_loop] in H |- *.
  - injection H as <- <-. split; [|done]. intros [|? ?]; done.
  - change (nz 0) with false in H. cbn iota in H. destruct (int _) as [amax'|] eqn:Ei; [|done]. cbn [mbind option_bind] in H.
    assert (Hfirst : exists qs, ps = (amin, amax) :: qs).
    { destruct (amax' <=? amax); [injection H as <- <-; by eexists|]. destruct (call_loop _ _ _ _ _ _) as [[? ?]|]; [|done].
      injection H as <- <-. by eexists. }
    assert (Hok : call amin amax = 0 -> nz (call amin amax) = false) by (intros ->; done).
    split.
    + intros [|p pre] c post E Hpre Hc.
      * destruct Hfirst as [qs ->]. injection E as <- _. cbn [fst snd] in *. unfold nz. by destruct (Z.eqb_spec (call amin amax) 0).
      * destruct Hfirst as [qs Eq]. rewrite Eq in E. injection E as <- E. apply Forall_cons in Hpre as [Hp Hpre]. cbn [fst snd] in Hp.
        rewrite Hok by done. cbn [mbind option_bind]. destruct (amax' <=? amax).
        { injection H as _ <-. injection Eq as <-. by destruct pre. }
        destruct (call_loop (fun _ _ => 0) k amax amax' m (r - 1)) as [[e' ps']|] eqn:El; [|done]. cbn [mbind option_bind] in H.
        injection H as _ <-. injection Eq as ->. destruct (IH _ _ _ _ _ _ El) as [IH1 _]. by rewrite (IH1 pre c post).
    + intros Hall. destruct Hfirst as [qs Eq]. pose proof Hall as Hall'. rewrite Eq in Hall'. apply Forall_cons in Hall' as [Hp Hqs]. cbn [fst snd] in Hp.
      rewrite Hok by done. cbn [mbind option_bind]. destruct (amax' <=? amax); [by injection H as _ <-|].
      destruct (call_loop (fun _ _ => 0) k amax amax' m (r - 1)) as [[e' ps']|] eqn:El; [|done]. cbn [mbind option_bind] in H.
      injection H as _ <-. injection Eq as ->. destruct (IH _ _ _ _ _ _ El) as [_ IH2]. by rewrite (IH2 Hqs).
Qed.

(** C37: errors in the divide and conquer.  The helper has a list of parts, those that a run
    without errors calls, which with the iterations it sends itself are the whole range.  When
    the call for a part fails, with any status but zero, and the calls for the parts before it
    do not, the helper returns that status, it has called exactly the parts before, and makes
    no call for that part or for what comes after it.  When no call fails, it returns
    success and has called all parts. *)
Theorem par_call_error call a b bf cutoff : a < b -> - 2 ^ 31 <= a -> b - a < 2 ^ 31 -> 1 < bf -> 0 < cutoff ->
  b + (b - a) / bf < 2 ^ 31 ->
  exists parts its, _hpx_par_call_helper (fun _ _ => 0) a b bf cutoff = Some (0, parts, its)
    /\ its ++ flat_map span parts = seqZ a (b - a)
    /\ (forall pre c post, parts = pre ++ c :: post -> Forall (fun p => call p.1 p.2 = 0) pre -> call c.1 c.2 <> 0 ->
          _hpx_par_call_helper call a b bf cutoff = Some (call c.1 c.2, pre, []))
    /\ (Forall (fun p => call p.1 p.2 = 0) parts -> _hpx_par_call_helper call a b bf cutoff = Some (0, parts, its)).
Proof.
  intros H1 H2 H3 H4 H5 H6. destruct (helper_spec (fun _ _ => 0) a b bf cutoff H1 H2 H3 H4 H5 H6) as (e & cs & its & x & E & Hi & _ & _ & _ & Hy).
  assert (Hex : e = 0 /\ x = b).
  { unfold nz in Hy. destruct (Z.eqb_spec e 0) as [->|]; [done|]. cbn [negb] in Hy. destruct Hy as (y & _ & ?). congruence. }
  destruct Hex as [-> ->]. exists cs, its. split; [done|]. split; [done|]. unfold _hpx_par_call_helper in E |- *.
  destruct (int (b - a)); [|done]. cbn [mbind option_bind] in E |- *. destruct (_ && _ && _); [|done].
  destruct (cutoff <? z); [|injection E as <- <-; split; [by intros [|? ?]|done]].
  destruct (int _) as [amax|]; [|done]. cbn [mbind option_bind] in E |- *.
  destruct (call_loop (fun _ _ => 0) _ _ _ _ _) as [[e' ps]|] eqn:El; [|done]. cbn [mbind option_bind] in E. injection E as -> -> <-.
  destruct (call_loop_parts call _ _ _ _ _ _ _ El) as [P1 P2]. split.
  - intros pre c post Ep Hpre Hc. by rewrite (P1 pre c post Ep Hpre Hc).
  - intros Hall. by rewrite (P2 Hall).
Qed.

Definition failing_call (a _ : Z) : Z := if a =? 4 then 7 else 0.

Lemma par_call_error_witness : _hpx_par_call_helper failing_call 0 10 3 2 = Some (7, [(0, 4)], []).
Proof.
  destruct (par_call_error failing_call 0 10 3 2 ltac:(lia) ltac:(lia) ltac:(lia) ltac:(lia) ltac:(lia) ltac:(by vm_compute))
    as (parts & its & E & _ & H & _).
  assert (Ep : parts = [(0, 4); (4, 7); (7, 10)]) by (vm_compute in E; injection E as E _; symmetry; exact E).
  apply (H [(0, 4)] (4, 7) [(7, 10)] Ep); [repeat constructor|discriminate].
Defined.

(** With a branching factor of one, a range that is longer than the cutoff calls itself. *)
Lemma par_call_one call a b cutoff : a < b -> - 2 ^ 31 <= a -> b - a < 2 ^ 31 -> 0 < cutoff < b - a -> b + (b - a) < 2 ^ 31 ->
  call a b = 0 -> _hpx_par_call_helper call a b 1 cutoff = Some (0, [(a, b)], []).
Proof.
  intros H1 H2 H3 H4 H5 Hc. unfold _hpx_par_call_helper. rewrite int_ok by lia. cbn [mbind option_bind].
  destruct (Z.ltb_spec 0 (b - a)); [|lia]. destruct (Z.ltb_spec 0 cutoff); [|lia]. cbn [andb Z.ltb Z.compare].
  destruct (Z.ltb_spec cutoff (b - a)); [|lia]. rewrite Z.quot_1_r, Z.rem_1_r. cbn [Z.ltb Z.compare].
  replace (a + (b - a) + 0) with b by lia. rewrite int_ok by lia. cbn [mbind option_bind]. change (Z.to_nat 1) with 1%nat. cbn [call_loop].
  rewrite Hc. cbn [nz Z.eqb negb]. rewrite int_ok by (simpl; lia). cbn [mbind option_bind Z.ltb Z.compare].
  by destruct (_ <=? _).
Qed.

(** The range that the loop computes after its last part is not used, but overflows an int. *)
Lemma par_call_overflow : _hpx_par_call_helper (fun _ _ => 0) 0 (2 ^ 31 - 1) 2 1 = None.
Proof. by vm_compute. Qed.

(** ** The elements of an array *)

Lemma seqZ_shift q c : seqZ q c = map (Z.add q) (seqZ 0 c).
Proof. change (map (Z.add q) (seqZ 0 c)) with (Z.add q <$> seqZ 0 c). rewrite fmap_add_seqZ. f_equal. lia. Qed.

(** Consecutive blocks of [c] numbers. *)
Lemma seqZ_blocks c n : 0 <= c -> 0 <= n -> flat_map (fun j => seqZ (j * c) c) (seqZ 0 n) = seqZ 0 (n * c).
Proof.
  intros Hc. revert n. apply natlike_ind; [done|]. intros n Hn IH. unfold Z.succ. rewrite seqZ_app by lia. rewrite flat_map_app, IH.
  rewrite Z.mul_add_distr_r, seqZ_app by nia. f_equal. rewrite (seqZ_cons (0 + n) 1) by lia. cbn [flat_map].
  change (seqZ (Z.succ (0 + n)) (Z.pred 1)) with (@nil Z). cbn [flat_map]. rewrite app_nil_r. f_equal; lia.
Qed.

Section CountSpec.
Context (add : Z -> Z -> Z -> Z) (bsize : Z) (valid : Z -> Prop) (pos : Z -> Z) (capacity : Z).
Context `{!Addressing add bsize valid pos capacity}.
Context (call : Z -> Z) (Hcall : forall a, call a = 0).

Lemma add_wrapped a n : valid a -> 0 <= n < 2 ^ 63 -> pos a + n < capacity ->
  valid (add a (i64 (u64 n)) bsize) /\ pos (add a (i64 (u64 n)) bsize) = pos a + n.
Proof. intros Hv Hn Hp. rewrite swrap_wrap, swrap_small by lia. apply add_pos; (done || lia). Qed.

Lemma count_loop_pos increment k : forall i addr, valid addr -> 0 <= i -> 0 <= increment ->
  (i + Z.of_nat k) * increment < 2 ^ 63 -> pos addr + (i + Z.of_nat k) * increment < capacity ->
  exists ts, count_loop add call k i addr increment bsize = (0, ts) /\ Forall valid ts
    /\ map pos ts = map (fun j => pos addr + j * increment) (seqZ i (Z.of_nat k)).
Proof.
  induction k as [|k IH]; intros i addr Hv Hi Hinc H1 H2; cbn [count_loop]; [by exists []|].
  rewrite Hcall. cbn [nz Z.eqb negb]. assert (i * increment <= (i + Z.of_nat (S k)) * increment) by nia.
  destruct (add_wrapped addr (i * increment)) as [Hv' Hp']; [done|nia|nia|].
  destruct (IH (i + 1) addr Hv ltac:(lia) Hinc) as (ts & E & Hf & Hm); [nia|nia|]. rewrite E.
  eexists. split; [done|]. split; [by constructor|]. rewrite seqZ_cons by lia. cbn [map]. rewrite Hp', Hm.
  f_equal. by replace (Z.pred (Z.of_nat (S k))) with (Z.of_nat k) by lia.
Qed.

(** The targets of a chunk that starts at element [q]. *)
Lemma chunk_pos increment addr q c : valid addr -> 0 <= q -> 0 <= c -> 0 <= increment -> (q + c) * increment < 2 ^ 63 ->
  pos addr + (q + c) * increment < capacity ->
  exists ts, _hpx_count_range_call_handler add call (add addr (i64 (u64 (q * increment))) bsize) c increment bsize = (0, ts)
    /\ Forall valid ts /\ map pos ts = map (fun j => pos addr + j * increment) (seqZ q c).
Proof.
  intros Hv Hq Hc Hinc H1 H2. destruct (add_wrapped addr (q * increment)) as [Hv' Hp']; [done|nia|nia|].
  unfold _hpx_count_range_call_handler. destruct (count_loop_pos increment (Z.to_nat c) 0 _ Hv') as (ts & E & Hf & Hm); [lia|lia|nia|nia|].
  exists ts. split; [done|]. split; [done|]. rewrite Hm, Hp', Z2Nat.id by lia.
  rewrite (seqZ_shift q c).
  rewrite map_map. apply map_ext. intros j. lia.
Qed.

(** The targets of a list of calls of the handler. *)
Definition targets (increment : Z) (cs : list (Z * Z * Z)) : list Z :=
  flat_map (fun '(_, a, c) => (_hpx_count_range_call_handler add call a c increment bsize).2) cs.

Lemma targets_pos increment addr (cs : list (Z * Z * Z)) (qs : list (Z * Z)) : valid addr -> 0 <= increment ->
  Forall2 (fun '(_, a, c) '(q, c') => c = c' /\ a = add addr (i64 (u64 (q * increment))) bsize) cs qs ->
  Forall (fun '(q, c) => 0 <= q /\ 0 <= c /\ (q + c) * increment < 2 ^ 63 /\ pos addr + (q + c) * increment < capacity) qs ->
  Forall valid (targets increment cs)
  /\ map pos (targets increment cs) = map (fun j => pos addr + j * increment) (flat_map (fun '(q, c) => seqZ q c) qs).
Proof.
  intros Hv Hinc Hf. induction Hf as [|[[l a] c] [q c'] cs qs [-> ->] Hf IH]; intros Hq; [done|]. apply Forall_cons in Hq as [(Q1 & Q2 & Q3 & Q4) Hq].
  destruct (IH Hq) as [I1 I2]. destruct (chunk_pos increment addr q c' Hv Q1 Q2 Hinc Q3 Q4) as (ts & E & Ht & Hm).
  unfold targets in *. cbn [flat_map]. rewrite E. cbn [snd]. split; [by apply Forall_app|]. by rewrite !map_app, Hm, I2.
Qed.
End CountSpec.

(** The call of an action on [count] elements of a global array, [increment] bytes apart:
    the chunks of the threads of all localities and the remainder call it at the addresses of
    the elements, each exactly once and in order, for any address space whose addition moves
    positions. *)
Theorem count_range_exact add bsize valid pos capacity call localities threads here addr count increment :
  Addressing add bsize valid pos capacity -> (forall a, call a = 0) -> valid addr -> 0 < localities -> 0 < threads ->
  0 <= count -> 0 <= increment -> count * increment < 2 ^ 63 -> pos addr + count * increment < capacity ->
  let ts := targets add bsize call increment (hpx_count_range_call add localities threads here addr count increment bsize) in
  Forall valid ts /\ map pos ts = map (fun j => pos addr + j * increment) (seqZ 0 count).
Proof.
  intros HA Hcall Hv Hl Ht Hc Hinc H1 H2. set (lt := localities * threads). assert (Hlt : 0 < lt) by (unfold lt; nia).
  set (c := count / lt). assert (Hcc : 0 <= c) by (apply Z.div_pos; lia). pose proof (Z.div_mod count lt ltac:(lia)) as Hd. fold c in Hd.
  pose proof (Z.mod_pos_bound count lt Hlt) as Hm. set (rest := count mod lt) in *.
  set (qs := flat_map (fun l => map (fun t => ((l * threads + t) * c, c)) (seqZ 0 threads)) (seqZ 0 localities) ++ [(lt * c, rest)]).
  cbv zeta. destruct (targets_pos add bsize valid pos capacity call Hcall increment addr
    (hpx_count_range_call add localities threads here addr count increment bsize) qs Hv Hinc) as [T1 T2].
  - unfold hpx_count_range_call, qs. fold lt c rest. apply Forall2_app; [|by repeat constructor].
    generalize (seqZ 0 localities). intros ls. induction ls as [|l ls IH]; [constructor|]. cbn [flat_map]. apply Forall2_app; [|done].
    generalize (seqZ 0 threads). intros tt. induction tt as [|t tt IHt]; [constructor|]. by constructor.
  - unfold qs. apply Forall_app. split; [|constructor; [nia|constructor]]. apply Forall_forall. intros [q c'] Hq.
    apply list_elem_of_In, in_flat_map in Hq as (l & Hl' & Hq). apply in_map_iff in Hq as (t & E & Ht'). injection E as <- <-.
    apply list_elem_of_In, elem_of_seqZ in Hl', Ht'. assert (l * threads + t + 1 <= lt) by (unfold lt; nia).
    assert ((l * threads + t) * c + c <= count) by nia. nia.
  - split; [done|]. rewrite T2. f_equal. unfold qs. rewrite flat_map_app. cbn [flat_map]. rewrite app_nil_r.
    replace (seqZ 0 count) with (seqZ 0 (count - 0)) by (f_equal; lia). rewrite (seqZ_split 0 (lt * c) count) by lia. replace (count - lt * c) with rest by lia. replace (lt * c - 0) with (lt * c) by lia. f_equal.
    rewrite <- (seqZ_blocks c lt) by lia. unfold lt at 1. rewrite <- (seqZ_blocks threads localities) by lia.
    generalize (seqZ 0 localities). intros ls. induction ls as [|l ls IH]; [done|]. cbn [flat_map]. rewrite !flat_map_app, IH. f_equal.
    rewrite (seqZ_shift (l * threads)). generalize (seqZ 0 threads). intros tt. induction tt as [|t tt IHt]; [done|].
    cbn [map flat_map]. by rewrite IHt.
Qed.

(** The cyclic addresses of the global address space implement the interface, and the
    linear ones, of a local allocation. *)
#[export] Instance cyclic_addressing ranks bsize : 0 < ranks < 2 ^ 15 -> 0 < bsize < 2 ^ 32 ->
  Addressing (gpa_add_cyclic ranks) bsize (Gpa.valid ranks bsize) (Gpa.pos ranks bsize) (Gpa.capacity ranks bsize).
Proof.
  intros Hr Hb. split; [|by apply pos_inj]. intros a n Hv Hn _ Hc. unfold gpa_add_cyclic, nz. destruct (Z.eqb_spec bsize 0); [lia|]. cbn [negb].
  pose proof (block_pos_bound ranks Hr bsize Hb a Hv). destruct (parts_range bsize Hb a (proj1 Hv)) as (_ & _ & _ & Hph).
  apply add_cyclic_spec; try done; lia.
Qed.

#[export] Instance linear_addressing bsize : Addressing (fun a n _ => gpa_add a n) bsize (fun a => a ∈u 64) id (2 ^ 64).
Proof.
  split; [|done]. intros a n Hv Hn _ Hc. unfold gpa_add, id in *. rewrite wrap_small by lia. lia.
Qed.

(** Ten elements of eight bytes, in blocks of sixteen on three localities of two threads. *)
Lemma count_range_exact_witness : exists ts,
  ts = targets (gpa_add_cyclic 3) 16 (fun _ => 0) 8 (hpx_count_range_call (gpa_add_cyclic 3) 3 2 0 0 10 8 16)
  /\ map (Gpa.pos 3 16) ts = [0; 8; 16; 24; 32; 40; 48; 56; 64; 72].
Proof.
  eexists. split; [reflexivity|].
  destruct (count_range_exact (gpa_add_cyclic 3) 16 (Gpa.valid 3 16) (Gpa.pos 3 16) (Gpa.capacity 3 16) (fun _ => 0) 3 2 0 0 10 8)
    as [_ E]; [apply cyclic_addressing; lia|done|by vm_compute|lia..|by vm_compute|]. exact E.
Defined.
