(* ===== verification/CircularBuffer.v ===== *)
(** * Circular buffers: [libhpx/network/pwc/CircularBuffer.{h,cpp}]

    A growing ring of records between two counters that only increase: [append] takes
    the next slot, doubling the ring and moving the wrapped part when it is full, and
    [progress] consumes records from the front.  The class [Fifo] is what the send path
    of a peer needs of such a buffer, and the theorem of this file is that the ring
    implements it: through any growth the records come out in the order they went in. *)

From S2P Require Import Prelude Math.

Definition LIBHPX_OK : Z := 0.
Definition LIBHPX_RETRY : Z := 1.

(** ** The interface *)

Section Drain.
Context {A S : Type} (f : S -> A -> option (S * Z)).

(** Consuming a list from the front: until the consumer asks to retry. *)
Fixpoint drain (s : S) (l : list A) : option (S * list A * Z) :=
  match l with
  | [] => Some (s, [], 0)
  | x :: l' =>
    '(s, e) ← f s x;
    if e =? LIBHPX_OK then drain s l'
    else if e =? LIBHPX_RETRY then Some (s, l, Z.of_nat (length l))
    else None
  end.
End Drain.

(** A buffer [Q] of records [A].  It holds fewer than [fifo_limit] of them at a time, and
    its counters are good for [2^64] pushes. *)
Class Fifo (A Q : Type) := {
  fifo_size : Q -> option Z;
  fifo_push : Q -> A -> option Q;
  fifo_progress : forall S, (S -> A -> option (S * Z)) -> S -> Q -> option (S * Q * Z);
}.

Class FifoLaws (A Q : Type) `{Fifo A Q} := {
  fifo_ok : Q -> Prop;
  fifo_list : Q -> list A;
  fifo_limit : Z;
  fifo_pushes : Q -> Z;
  fifo_size_spec q : fifo_ok q -> fifo_size q = Some (Z.of_nat (length (fifo_list q)));
  fifo_push_spec q x : fifo_ok q -> Z.of_nat (length (fifo_list q)) + 1 < fifo_limit ->
    fifo_pushes q + 1 < 2 ^ 64 ->
    exists q', fifo_push q x = Some q' /\ fifo_ok q' /\ fifo_list q' = fifo_list q ++ [x]
      /\ fifo_pushes q' = fifo_pushes q + 1;
  fifo_progress_spec S (f : S -> A -> option (S * Z)) s q s' l r : fifo_ok q ->
    drain f s (fifo_list q) = Some (s', l, r) ->
    exists q', fifo_progress S f s q = Some (s', q', r) /\ fifo_ok q' /\ fifo_list q' = l
      /\ fifo_pushes q' = fifo_pushes q;
}.

(** *** Runs of operations *)

Section Runs.
Context {A S : Type}.

Inductive op :=
| Push (x : A)
| Progress (f : S -> A -> option (S * Z)).

(** A run of operations on a list, and on a buffer; the results are those of the calls of
    [progress]. *)
Fixpoint list_run (ops : list op) (s : S) (l : list A) (rs : list Z) : option (S * list A * list Z) :=
  match ops with
  | [] => Some (s, l, rs)
  | Push x :: ops => list_run ops s (l ++ [x]) rs
  | Progress f :: ops => '(s, l, r) ← drain f s l; list_run ops s l (rs ++ [r])
  end.

Context {Q : Type} `{FifoLaws A Q}.

Fixpoint fifo_run (ops : list op) (s : S) (q : Q) (rs : list Z) : option (S * Q * list Z) :=
  match ops with
  | [] => Some (s, q, rs)
  | Push x :: ops => q ← fifo_push q x; fifo_run ops s q rs
  | Progress f :: ops => '(s, q, r) ← fifo_progress S f s q; fifo_run ops s q (rs ++ [r])
  end.

Lemma drain_length (f : S -> A -> option (S * Z)) l : forall s s' l' r,
  drain f s l = Some (s', l', r) -> (length l' <= length l)%nat.
Proof.
  induction l as [|x l IH]; intros s s' l' r; simpl; [by intros [= <- <- <-]|].
  destruct (f s x) as [[s1 e]|]; [|done]. simpl. destruct (e =? LIBHPX_OK).
  - intros Hd%IH. lia.
  - destruct (e =? LIBHPX_RETRY); [|done]. by intros [= <- <- <-].
Qed.

Lemma fifo_run_refines ops : forall s q rs s' l' rs', fifo_ok q ->
  Z.of_nat (length (fifo_list q)) + Z.of_nat (length ops) < fifo_limit ->
  fifo_pushes q + Z.of_nat (length ops) < 2 ^ 64 ->
  list_run ops s (fifo_list q) rs = Some (s', l', rs') ->
  exists q', fifo_run ops s q rs = Some (s', q', rs') /\ fifo_ok q' /\ fifo_list q' = l'.
Proof.
  induction ops as [|[x|f] ops IH]; intros s q rs s' l' rs' Hok Hlim Hmax; simpl in *.
  - intros [= <- <- <-]. by exists q.
  - intros Hrun. destruct (fifo_push_spec q x Hok ltac:(lia) ltac:(lia)) as (q' & -> & Hok' & Hl & Hp).
    simpl. apply IH; [done|rewrite Hl, length_app; simpl; lia|lia|by rewrite Hl].
  - destruct (drain f s (fifo_list q)) as [[[s1 l1] r1]|] eqn:E; [|done]. simpl. intros Hrun.
    destruct (fifo_progress_spec _ _ _ _ _ _ _ Hok E) as (q' & -> & Hok' & Hl & Hp). simpl.
    pose proof (drain_length _ _ _ _ _ _ E).
    apply IH; [done|rewrite Hl; lia|lia|by rewrite Hl].
Qed.
End Runs.

Arguments op : clear implicits.

(** ** The ring *)

Section Ring.
Context {A : Type}.

(** [records_] has [None] where memory is allocated and not written. *)
Record CircularBuffer := mkCircularBuffer {
  capacity_ : Z;
  elementSize_ : Z;
  max_ : Z;
  min_ : Z;
  records_ : list (option A);
}.

Implicit Types b : CircularBuffer.

Definition UINT32_MAX : Z := 2 ^ 32 - 1.

Definition size b : option Z :=
  let size := u64 (b.(max_) - b.(min_)) in
  if size <? UINT32_MAX then Some (u32 size) else None.

(** The mask is right for capacities that are a power of two; others are an error. *)
Definition getIndexOf (i capacity : Z) : option Z :=
  if capacity =? u32 (Z.shiftl 1 (ceil_log2 32 capacity))
  then Some (Z.land (u32 i) (u32 (capacity - 1))) else None.

(** The byte offset of a record; the product is an [unsigned]. *)
Definition getAddressOf b (i : Z) : Z := u32 (i * b.(elementSize_)).

(** The record at a byte offset. *)
Definition slot b (bytes : Z) : nat := Z.to_nat (bytes / b.(elementSize_)).

(** [memcpy] of whole records between disjoint parts of the array. *)
Definition copy b (to from bytes : Z) : option CircularBuffer :=
  let rs := b.(records_) in
  let i := slot b to in
  let j := slot b from in
  let n := slot b bytes in
  if ((i + n <=? j) || (j + n <=? i))%nat && (i + n <=? length rs)%nat && (j + n <=? length rs)%nat
  then Some (mkCircularBuffer b.(capacity_) b.(elementSize_) b.(max_) b.(min_)
               (take i rs ++ take n (drop j rs) ++ drop (i + n) rs))
  else None.

Definition reflow b (oldCapacity : Z) : option CircularBuffer :=
  if oldCapacity =? 0 then Some b else
  oldMin ← getIndexOf b.(min_) oldCapacity;
  oldMax ← getIndexOf b.(max_) oldCapacity;
  let oldMin := i32 oldMin in
  let oldMax := i32 oldMax in
  let prefix := i32 (if oldMin <? oldMax then oldMax - oldMin else oldCapacity - oldMin) in
  let suffix := if oldMin <? oldMax then 0 else oldMax in
  newMin ← getIndexOf b.(min_) b.(capacity_);
  newMax ← getIndexOf b.(max_) b.(capacity_);
  let newMin := i32 newMin in
  let newMax := i32 newMax in
  if oldMin =? newMin then
    if negb (oldMax =? newMax) && (oldMin + prefix =? newMax - suffix) then
      copy b (getAddressOf b (oldMin + prefix)) (getAddressOf b 0) (u32 (suffix * b.(elementSize_)))
    else None
  else if oldMax =? newMax then
    if (0 <? prefix) && (prefix <=? 2 ^ 31 - 1 - newMin) && (u32 (newMin + prefix) <=? b.(capacity_)) then
      copy b (getAddressOf b newMin) (getAddressOf b oldMin) (u32 (prefix * b.(elementSize_)))
    else None
  else Some b.

(** [realloc] to [bytes], which succeeds. *)
Definition realloc b (bytes : Z) : list (option A) :=
  let n := slot b bytes in
  take n b.(records_) ++ replicate (n - length b.(records_)) None.

Definition expand b (capacity : Z) : option CircularBuffer :=
  if capacity =? 0 then None
  else if capacity <? b.(capacity_) then Some b
  else if b.(capacity_) =? capacity then Some b
  else
    let records := realloc b (u32 (capacity * b.(elementSize_))) in
    reflow (mkCircularBuffer capacity b.(elementSize_) b.(max_) b.(min_) records) b.(capacity_).

Definition new (elementSize capacity : Z) : option CircularBuffer :=
  expand (mkCircularBuffer 0 elementSize 0 0 []) (u32 (Z.shiftl 1 (ceil_log2 32 capacity))).

(** The new buffer and the byte offset of the slot taken. *)
Definition append b : option (CircularBuffer * Z) :=
  let next := b.(max_) in
  let b := mkCircularBuffer b.(capacity_) b.(elementSize_) (u64 (next + 1)) b.(min_) b.(records_) in
  n ← size b;
  b ← (if b.(capacity_) <=? n then expand b (u32 (b.(capacity_) * 2)) else Some b);
  i ← getIndexOf next b.(capacity_);
  Some (b, getAddressOf b i).

Definition push b (record : A) : option CircularBuffer :=
  '(b, r) ← append b;
  let i := slot b r in
  if (i <? length b.(records_))%nat
  then Some (mkCircularBuffer b.(capacity_) b.(elementSize_) b.(max_) b.(min_)
               (<[i := Some record]> b.(records_)))
  else None.

(** The loop of [progress], with [fuel] iterations at most. *)
Fixpoint progress_loop {S} (f : S -> A -> option (S * Z)) (fuel : nat) (s : S) b
    : option (S * CircularBuffer * Z) :=
  match fuel with
  | O => None
  | Datatypes.S fuel =>
    if b.(min_) <? b.(max_) then
      i ← getIndexOf b.(min_) b.(capacity_);
      record ← b.(records_) !! slot b (getAddressOf b i);
      x ← record;
      '(s, e) ← f s x;
      if e =? LIBHPX_OK then
        progress_loop f fuel s
          (mkCircularBuffer b.(capacity_) b.(elementSize_) b.(max_) (u64 (b.(min_) + 1)) b.(records_))
      else if e =? LIBHPX_RETRY then (n ← size b; Some (s, b, n))
      else None
    else Some (s, b, 0)
  end.

Definition progress S (f : S -> A -> option (S * Z)) (s : S) b : option (S * CircularBuffer * Z) :=
  progress_loop f (Datatypes.S (Z.to_nat (b.(max_) - b.(min_)))) s b.

End Ring.

Arguments CircularBuffer : clear implicits.

#[export] Instance ring_fifo A : Fifo A (CircularBuffer A) := {
  fifo_size := size;
  fifo_push := push;
  fifo_progress := progress;
}.

(** ** Correctness *)

Section RingLaws.
Context {A : Type}.
Implicit Types b : CircularBuffer A.

(** The record of abstract index [i]. *)
Definition get b (i : Z) : option A :=
  mjoin (records_ b !! Z.to_nat (i mod capacity_ b)).

Definition ring_list b : list A := omap (get b) (seqZ (min_ b) (max_ b - min_ b)).

(** The shape of a ring: a power of two of records that the 32-bit offsets can reach. *)
Record ring_shape b : Prop := {
  shape_pow2 : exists k, 0 <= k <= 30 /\ capacity_ b = 2 ^ k;
  shape_element : 0 < elementSize_ b;
  shape_bytes : capacity_ b * elementSize_ b < 2 ^ 32;
  shape_records : Z.of_nat (length (records_ b)) = capacity_ b;
  shape_counters : 0 <= min_ b <= max_ b /\ max_ b < 2 ^ 64;
}.

Record ring_ok b : Prop := {
  ring_has_shape : ring_shape b;
  ring_room : max_ b - min_ b < capacity_ b;
  ring_written : forall i, min_ b <= i < max_ b -> is_Some (get b i);
}.

Lemma getIndexOf_spec i k : 0 <= k <= 31 -> getIndexOf i (2 ^ k) = Some (i mod 2 ^ k).
Proof.
  intros Hk. unfold getIndexOf.
  assert (H2 : 2 ^ k <= 2 ^ 31) by (apply Z.pow_le_mono_r; lia). change (2 ^ 31) with 2147483648 in H2.
  assert (H0 : 0 < 2 ^ k) by (apply Z.pow_pos_nonneg; lia).
  rewrite ceil_log2_eq, Z.log2_up_pow2, Z.shiftl_mul_pow2, Z.mul_1_l, wrap_small, Z.eqb_refl by lia.
  rewrite (wrap_small 32 (2 ^ k - 1)), land_pred_pow2 by lia. f_equal. unfold wrap.
  apply Z.mod_mod_divide. exists (2 ^ (32 - k)). rewrite <- Z.pow_add_r by lia. f_equal. lia.
Qed.

Lemma slot_address b i : 0 < elementSize_ b -> 0 <= i -> i * elementSize_ b < 2 ^ 32 ->
  slot b (getAddressOf b i) = Z.to_nat i.
Proof.
  intros He Hi Hb. unfold slot, getAddressOf. rewrite wrap_small by nia. by rewrite Z.div_mul by lia.
Qed.

(** The slots of [to], [from] and [bytes], and what the copy leaves. *)
Lemma copy_spec b (to from n : Z) : let es := elementSize_ b in
  0 < es -> 0 <= to -> 0 <= from -> 0 <= n -> to + n <= from \/ from + n <= to ->
  to + n <= Z.of_nat (length (records_ b)) -> from + n <= Z.of_nat (length (records_ b)) ->
  exists b', copy b (to * es) (from * es) (n * es) = Some b'
    /\ capacity_ b' = capacity_ b /\ elementSize_ b' = es /\ max_ b' = max_ b /\ min_ b' = min_ b
    /\ length (records_ b') = length (records_ b)
    /\ forall p, records_ b' !! p =
         if decide (Z.to_nat to <= p < Z.to_nat (to + n))%nat
         then records_ b !! (p - Z.to_nat to + Z.to_nat from)%nat else records_ b !! p.
Proof.
  simpl. intros He Ht Hf Hn Hd Hlt Hlf. unfold copy, slot. rewrite !Z.div_mul by lia.
  assert (Hg : ((Z.to_nat to + Z.to_nat n <=? Z.to_nat from) || (Z.to_nat from + Z.to_nat n <=? Z.to_nat to))%nat
    && (Z.to_nat to + Z.to_nat n <=? length (records_ b))%nat
    && (Z.to_nat from + Z.to_nat n <=? length (records_ b))%nat = true).
  { rewrite !andb_true_iff, orb_true_iff, !Nat.leb_le. lia. }
  rewrite Hg. eexists. split; [done|]. simpl. repeat (split; [done|]). split.
  - rewrite !length_app, !length_take, !length_drop. lia.
  - intros p. set (rs := records_ b) in *.
    assert (Hl1 : length (take (Z.to_nat to) rs) = Z.to_nat to) by (rewrite length_take; lia).
    assert (Hl2 : length (take (Z.to_nat n) (drop (Z.to_nat from) rs)) = Z.to_nat n)
      by (rewrite length_take, length_drop; lia).
    destruct (decide _) as [Hp|Hp].
    + rewrite lookup_app_r by lia. rewrite lookup_app_l by lia.
      rewrite lookup_take_lt, lookup_drop by lia. f_equal. lia.
    + destruct (decide (p < Z.to_nat to)%nat).
      * rewrite lookup_app_l by lia. by rewrite lookup_take_lt by lia.
      * rewrite lookup_app_r by lia. rewrite lookup_app_r by lia. rewrite lookup_drop. f_equal. lia.
Qed.

Lemma mod_step m c j : 0 < c -> 0 <= j < c ->
  (m + j) mod c = if m mod c + j <? c then m mod c + j else m mod c + j - c.
Proof.
  intros Hc Hj. pose proof (Z.mod_pos_bound m c Hc). pose proof (Z.div_mod m c ltac:(lia)).
  destruct (Z.ltb_spec (m mod c + j) c); symmetry.
  - apply Z.mod_unique_pos with (m / c); lia.
  - apply Z.mod_unique_pos with (m / c + 1); lia.
Qed.

(** Reflowing a full ring after its array was doubled: each record is where the new
    capacity looks for it. *)
Lemma reflow_spec b c : 0 < elementSize_ b -> (exists k, 0 <= k < 30 /\ c = 2 ^ k) ->
  capacity_ b = 2 * c -> capacity_ b * elementSize_ b < 2 ^ 32 ->
  Z.of_nat (length (records_ b)) = 2 * c -> max_ b = min_ b + c ->
  exists b', reflow b c = Some b'
    /\ capacity_ b' = capacity_ b /\ elementSize_ b' = elementSize_ b /\ max_ b' = max_ b
    /\ min_ b' = min_ b /\ length (records_ b') = length (records_ b)
    /\ forall i, min_ b <= i < max_ b ->
         records_ b' !! Z.to_nat (i mod (2 * c)) = records_ b !! Z.to_nat (i mod c).
Proof.
  intros He (k & Hk & Hc) Hcap Hbytes Hlen Hmax.
  assert (H2c : 2 * c = 2 ^ (k + 1)) by (rewrite Hc, Z.pow_add_r by lia; lia).
  assert (H30 : 2 * c <= 2 ^ 30) by (rewrite H2c; apply Z.pow_le_mono_r; lia).
  assert (Hc0 : 0 < c) by (rewrite Hc; apply Z.pow_pos_nonneg; lia).
  assert (G1 : forall i, getIndexOf i c = Some (i mod c))
    by (intros; rewrite Hc; apply getIndexOf_spec; lia).
  assert (G2 : forall i, getIndexOf i (2 * c) = Some (i mod (2 * c)))
    by (intros; rewrite H2c; apply getIndexOf_spec; lia).
  unfold reflow. destruct (Z.eqb_spec c 0); [lia|]. rewrite Hcap, !G1, !G2. simpl. rewrite Hmax.
  assert (Hsame : (min_ b + c) mod c = min_ b mod c).
  { rewrite <- (Z.mul_1_l c) at 1. by rewrite Z_mod_plus_full. }
  rewrite Hsame. remember (min_ b mod c) as r eqn:Hr. pose proof (Z.mod_pos_bound (min_ b) c Hc0).
  assert (Hrb : 0 <= r < c) by lia. rewrite Z.ltb_irrefl.
  rewrite !(swrap_small 32 r) by lia. rewrite (swrap_small 32 (c - r)) by lia.
  unfold getAddressOf.
  destruct (mod_double (min_ b) c Hc0) as [[E1 E2]|[E1 E2]]; rewrite E1, E2, <- Hr.
  - rewrite (swrap_small 32 r), (swrap_small 32 (r + c)), Z.eqb_refl by lia.
    destruct (Z.eqb_spec r (r + c)); [lia|]. destruct (Z.eqb_spec (r + (c - r)) (r + c - r)); [|lia].
    simpl. replace (r + (c - r)) with c by lia. rewrite !wrap_small by nia.
    destruct (copy_spec b c 0 r) as (b' & -> & F1 & F2 & F3 & F4 & F5 & F6); [lia..|].
    exists b'. repeat (split; [done || congruence|]). intros i Hi. rewrite F6.
    replace i with (min_ b + (i - min_ b)) by lia. rewrite !mod_step by lia. rewrite E1, <- Hr.
    destruct (Z.ltb_spec (r + (i - min_ b)) (2 * c)); [|lia].
    destruct (Z.ltb_spec (r + (i - min_ b)) c).
    + by rewrite decide_False by lia.
    + rewrite decide_True by lia. f_equal. lia.
  - rewrite (swrap_small 32 r), (swrap_small 32 (r + c)), Z.eqb_refl by lia.
    destruct (Z.eqb_spec r (r + c)); [lia|].
    rewrite (wrap_small 32 (r + c + (c - r))) by lia.
    destruct (Z.ltb_spec 0 (c - r)); [|lia]. destruct (Z.leb_spec (c - r) (2 ^ 31 - 1 - (r + c))); [|lia].
    destruct (Z.leb_spec (r + c + (c - r)) (2 * c)); [|lia]. simpl. rewrite !wrap_small by nia.
    destruct (copy_spec b (r + c) r (c - r)) as (b' & -> & F1 & F2 & F3 & F4 & F5 & F6); [lia..|].
    exists b'. repeat (split; [done || congruence|]). intros i Hi. rewrite F6.
    replace i with (min_ b + (i - min_ b)) by lia. rewrite !mod_step by lia. rewrite E1, <- Hr.
    destruct (Z.ltb_spec (r + (i - min_ b)) c), (Z.ltb_spec (r + c + (i - min_ b)) (2 * c)); try lia.
    + rewrite decide_True by lia. f_equal. lia.
    + rewrite decide_False by lia. f_equal. lia.
Qed.

(** Doubling a ring that has just been filled. *)
Lemma expand_spec b : ring_shape b -> max_ b = min_ b + capacity_ b ->
  2 * capacity_ b * elementSize_ b < 2 ^ 32 -> 2 * capacity_ b <= 2 ^ 30 ->
  exists b', expand b (u32 (capacity_ b * 2)) = Some b' /\ ring_shape b'
    /\ capacity_ b' = 2 * capacity_ b /\ max_ b' = max_ b /\ min_ b' = min_ b
    /\ elementSize_ b' = elementSize_ b
    /\ forall i, min_ b <= i < max_ b -> get b' i = get b i.
Proof.
  intros [(k & Hk & Hc) He Hb Hl Hct] Hmax Hb2 H30.
  assert (H0 : 0 < capacity_ b) by (rewrite Hc; apply Z.pow_pos_nonneg; lia).
  assert (Hk' : k < 30).
  { destruct (Z.lt_ge_cases k 30); [done|]. assert (k = 30) as -> by lia. lia. }
  unfold expand. rewrite wrap_small by lia.
  destruct (Z.eqb_spec (capacity_ b * 2) 0); [lia|]. destruct (Z.ltb_spec (capacity_ b * 2) (capacity_ b)); [lia|].
  destruct (Z.eqb_spec (capacity_ b) (capacity_ b * 2)); [lia|].
  rewrite (wrap_small 32 (capacity_ b * 2 * elementSize_ b)) by nia.
  set (rs := realloc b (capacity_ b * 2 * elementSize_ b)).
  assert (Hslot : slot b (capacity_ b * 2 * elementSize_ b) = Z.to_nat (capacity_ b * 2))
    by (unfold slot; by rewrite Z.div_mul by lia).
  assert (Hrs : rs = records_ b ++ replicate (Z.to_nat (capacity_ b)) None).
  { unfold rs, realloc. rewrite Hslot, take_ge by lia. do 2 f_equal. lia. }
  destruct (reflow_spec (mkCircularBuffer (capacity_ b * 2) (elementSize_ b) (max_ b) (min_ b) rs) (capacity_ b))
    as (b' & -> & F1 & F2 & F3 & F4 & F5 & F6); simpl in *; [lia|exists k; lia|lia|lia| |lia|].
  { rewrite Hrs, length_app, length_replicate. lia. }
  exists b'. split; [done|]. split; [|split; [lia|split; [done|split; [done|split; [done|]]]]].
  - constructor; rewrite ?F1, ?F2, ?F3, ?F4, ?F5; [|lia|lia| |lia].
    + exists (k + 1). split; [lia|]. rewrite Z.pow_add_r, <- Hc by lia. lia.
    + rewrite Hrs, length_app, length_replicate. lia.
  - intros i Hi. unfold get. rewrite F1. rewrite (Z.mul_comm _ 2), F6 by done. rewrite Hrs.
    rewrite lookup_app_l; [done|]. pose proof (Z.mod_pos_bound i _ H0). lia.
Qed.

(** A shape whose counters moved within their bounds. *)
Lemma shape_counted b lo hi : ring_shape b -> 0 <= lo <= hi -> hi < 2 ^ 64 ->
  ring_shape (mkCircularBuffer (capacity_ b) (elementSize_ b) hi lo (records_ b)).
Proof. by intros [? ? ? ? ?] ? ?; constructor. Qed.

Lemma append_spec b : ring_ok b -> max_ b + 1 < 2 ^ 64 ->
  (max_ b - min_ b + 1) * 2 * elementSize_ b < 2 ^ 32 -> (max_ b - min_ b + 1) * 2 <= 2 ^ 30 ->
  exists b', append b = Some (b', getAddressOf b' (max_ b mod capacity_ b')) /\ ring_shape b'
    /\ max_ b' = max_ b + 1 /\ min_ b' = min_ b /\ elementSize_ b' = elementSize_ b
    /\ max_ b' - min_ b' < capacity_ b'
    /\ forall i, min_ b <= i < max_ b -> get b' i = get b i.
Proof.
  intros [Hsh Hroom Hw] Hmax Hby H30. pose proof (shape_counters _ Hsh) as Hct.
  set (b1 := mkCircularBuffer (capacity_ b) (elementSize_ b) (max_ b + 1) (min_ b) (records_ b)).
  assert (Hsh1 : ring_shape b1) by (apply shape_counted; [done|lia|lia]).
  unfold append. rewrite (wrap_small 64 (max_ b + 1)) by lia. fold b1.
  assert (Hidx : forall b', ring_shape b' ->
            getIndexOf (max_ b) (capacity_ b') = Some (max_ b mod capacity_ b')).
  { intros b' [(k & Hk & ->) _ _ _ _]. apply getIndexOf_spec. lia. }
  assert (Hsz : size b1 = Some (max_ b + 1 - min_ b)).
  { unfold size; simpl. rewrite !wrap_small by lia. destruct (Z.ltb_spec (max_ b + 1 - min_ b) UINT32_MAX); [done|].
    unfold UINT32_MAX in *. lia. }
  rewrite Hsz; simpl. destruct (Z.leb_spec (capacity_ b) (max_ b + 1 - min_ b)) as [Hfull|Hfree].
  - destruct (expand_spec b1 Hsh1) as (b' & Hexp & Hsh' & F1 & F2 & F3 & F4 & F5);
      simpl in *; [lia| |lia|]. { replace (capacity_ b) with (max_ b - min_ b + 1) by lia. lia. }
    rewrite Hexp; simpl. rewrite Hidx by done. simpl. exists b'.
    split; [done|]. split; [done|]. split; [lia|]. split; [lia|]. split; [done|]. split; [lia|].
    intros i Hi. rewrite F5 by lia. done.
  - simpl. rewrite (Hidx b Hsh). simpl. exists b1. split; [done|]. split; [done|].
    split; [done|]. split; [done|]. split; [done|]. split; [simpl; lia|done].
Qed.

Lemma ring_list_length b : (forall i, min_ b <= i < max_ b -> is_Some (get b i)) ->
  min_ b <= max_ b -> Z.of_nat (length (ring_list b)) = max_ b - min_ b.
Proof.
  intros Hw Hc. unfold ring_list.
  assert (Hgen : forall l, (forall i, i ∈ l -> is_Some (get b i)) -> length (omap (get b) l) = length l).
  { intros l. induction l as [|i l IH]; intros Hl; [done|]. simpl.
    destruct (Hl i) as [x Hx]; [by left|]. rewrite Hx. simpl. f_equal. apply IH.
    intros j Hj. apply Hl. by right. }
  rewrite Hgen; [rewrite length_seqZ; lia|]. intros i Hi%elem_of_seqZ. apply Hw. lia.
Qed.

Lemma omap_ext_in (f g : Z -> option A) (l : list Z) : (forall i, i ∈ l -> f i = g i) -> omap f l = omap g l.
Proof.
  intros Hfg. apply list_omap_ext, Forall_Forall2_diag, Forall_forall. done.
Qed.

Lemma push_spec b x : ring_ok b -> max_ b + 1 < 2 ^ 64 ->
  (max_ b - min_ b + 1) * 2 * elementSize_ b < 2 ^ 32 -> (max_ b - min_ b + 1) * 2 <= 2 ^ 30 ->
  exists b', push b x = Some b' /\ ring_ok b' /\ ring_list b' = ring_list b ++ [x]
    /\ max_ b' = max_ b + 1 /\ elementSize_ b' = elementSize_ b.
Proof.
  intros Hok Hmax Hby H30. pose proof (shape_counters _ (ring_has_shape _ Hok)) as Hct.
  destruct (append_spec b Hok Hmax Hby H30) as (b1 & Happ & Hsh & F1 & F2 & F3 & F4 & F5).
  unfold push. rewrite Happ; simpl. destruct Hsh as [(k & Hk & Hc) He Hb Hl Hct1].
  assert (H0 : 0 < capacity_ b1) by (rewrite Hc; apply Z.pow_pos_nonneg; lia).
  pose proof (Z.mod_pos_bound (max_ b) _ H0) as Hm.
  rewrite slot_address by nia. destruct (Nat.ltb_spec (Z.to_nat (max_ b mod capacity_ b1)) (length (records_ b1))); [|lia].
  eexists. split; [done|].
  set (b' := mkCircularBuffer _ _ _ _ _).
  assert (Hget : forall i, min_ b <= i < max_ b -> get b' i = get b i).
  { intros i Hi. rewrite <- F5 by done. unfold get, b'; simpl. rewrite list_lookup_insert_ne; [done|].
    intros E. pose proof (Z.mod_pos_bound i _ H0) as Hm'. assert (E' : max_ b mod capacity_ b1 = i mod capacity_ b1) by lia.
    replace (max_ b) with (i + (max_ b - i)) in E' by lia.
    rewrite mod_step in E' by lia. destruct (Z.ltb_spec (i mod capacity_ b1 + (max_ b - i)) (capacity_ b1)); lia. }
  assert (Hnew : get b' (max_ b) = Some x).
  { unfold get, b'; simpl. by rewrite list_lookup_insert_eq by lia. }
  split; [|split; [|done]].
  - constructor; [|simpl; lia|].
    + constructor; simpl; [by exists k|lia|lia|by rewrite length_insert|lia].
    + intros i Hi. simpl in Hi. destruct (decide (i = max_ b)) as [->|]; [by rewrite Hnew|].
      rewrite Hget by lia. apply (ring_written _ Hok). lia.
  - unfold ring_list. simpl. rewrite F1, F2.
    replace (max_ b + 1 - min_ b) with ((max_ b - min_ b) + 1) by lia.
    rewrite seqZ_app, omap_app by lia. f_equal.
    + apply omap_ext_in. intros i Hi%elem_of_seqZ. apply Hget. lia.
    + replace (min_ b + (max_ b - min_ b)) with (max_ b) by lia.
      change (match get b' (max_ b) with Some y => [y] | None => [] end = [x]). by rewrite Hnew.
Qed.

(** The loop is the reference loop on the list, when the fuel covers the list. *)
Lemma progress_loop_spec {S} (f : S -> A -> option (S * Z)) fuel : forall s b s' l r,
  ring_ok b -> max_ b - min_ b < Z.of_nat fuel -> drain f s (ring_list b) = Some (s', l, r) ->
  exists b', progress_loop f fuel s b = Some (s', b', r) /\ ring_ok b' /\ ring_list b' = l
    /\ max_ b' = max_ b /\ elementSize_ b' = elementSize_ b.
Proof.
  induction fuel as [|fuel IH]; intros s b s' l r Hok Hfuel Hd.
  { pose proof (shape_counters _ (ring_has_shape _ Hok)). lia. }
  pose proof Hok as [Hsh Hroom Hw]. pose proof Hsh as [(k & Hk & Hc) He Hb Hl Hct].
  assert (H0 : 0 < capacity_ b) by (rewrite Hc; apply Z.pow_pos_nonneg; lia).
  simpl. destruct (Z.ltb_spec (min_ b) (max_ b)) as [Hlt|Hge].
  2: { unfold ring_list in Hd. rewrite seqZ_nil in Hd by lia. injection Hd as <- <- <-.
       exists b. split; [done|]. split; [done|]. split; [|done]. unfold ring_list. by rewrite seqZ_nil by lia. }
  rewrite Hc, getIndexOf_spec, <- Hc by lia. simpl. pose proof (Z.mod_pos_bound (min_ b) _ H0).
  rewrite slot_address by nia. destruct (Hw (min_ b) ltac:(lia)) as [x Hx].
  set (b1 := mkCircularBuffer (capacity_ b) (elementSize_ b) (max_ b) (min_ b + 1) (records_ b)).
  assert (Hlist : ring_list b = x :: ring_list b1).
  { unfold ring_list. rewrite seqZ_cons by lia. simpl. rewrite Hx. simpl. do 2 f_equal. f_equal; lia. }
  unfold get in Hx. destruct (records_ b !! Z.to_nat (min_ b mod capacity_ b)) as [rec|]; [|done].
  simpl in Hx. subst rec. simpl. rewrite Hlist in Hd. simpl in Hd.
  destruct (f s x) as [[s1 e]|]; [|done]. simpl in *. rewrite (wrap_small 64 (min_ b + 1)) by lia.
  destruct (e =? LIBHPX_OK).
  - destruct (IH s1 b1 s' l r) as (b' & H1 & H2 & H3 & H4 & H5); [|simpl; lia|done|by exists b'].
    constructor; [apply shape_counted; [done|lia|lia]|simpl; lia|]. intros i Hi. apply Hw. simpl in Hi. lia.
  - destruct (e =? LIBHPX_RETRY); [|done]. injection Hd as <- <- <-.
    assert (Hsz : size b = Some (max_ b - min_ b)).
    { assert (capacity_ b <= 2 ^ 30) by (rewrite Hc; apply Z.pow_le_mono_r; lia).
      unfold size. rewrite !wrap_small by lia.
      destruct (Z.ltb_spec (max_ b - min_ b) UINT32_MAX); [done|]. unfold UINT32_MAX in *. lia. }
    rewrite Hsz. simpl. exists b. split; [|by rewrite Hlist].
    rewrite <- (ring_list_length b Hw) by lia. by rewrite Hlist.
Qed.

Lemma ring_size_spec b : ring_ok b -> size b = Some (Z.of_nat (length (ring_list b))).
Proof.
  intros [[(k & Hk & Hc) He Hb Hl Hct] Hroom Hw]. rewrite ring_list_length by (done || lia).
  assert (capacity_ b <= 2 ^ 30) by (rewrite Hc; apply Z.pow_le_mono_r; lia).
  unfold size. rewrite !wrap_small by lia.
  destruct (Z.ltb_spec (max_ b - min_ b) UINT32_MAX); [done|]. unfold UINT32_MAX in *. lia.
Qed.
End RingLaws.

(** ** The ring is a queue *)

Section RingFifo.
Context {A : Type} (elementSize : Z).
Hypothesis element_range : 0 < elementSize < 2 ^ 16.

Definition ring_fifo_ok (b : CircularBuffer A) : Prop := ring_ok b /\ elementSize_ b = elementSize.

(** Twice the records of the limit are addressed by 32 bits. *)
Definition ring_limit : Z := 2 ^ 30 / (2 * elementSize).

Lemma ring_limit_spec n : 0 <= n -> n + 1 < ring_limit ->
  (n + 1) * 2 * elementSize < 2 ^ 32 /\ (n + 1) * 2 <= 2 ^ 30.
Proof.
  intros Hn Hl. unfold ring_limit in Hl.
  pose proof (Z.mul_div_le (2 ^ 30) (2 * elementSize) ltac:(lia)).
  assert ((n + 1) * (2 * elementSize) <= 2 ^ 30) by nia. split; nia.
Qed.

Lemma ring_push_spec (b : CircularBuffer A) x : ring_fifo_ok b ->
  Z.of_nat (length (ring_list b)) + 1 < ring_limit -> max_ b + 1 < 2 ^ 64 ->
  exists b', push b x = Some b' /\ ring_fifo_ok b' /\ ring_list b' = ring_list b ++ [x]
    /\ max_ b' = max_ b + 1.
Proof.
  intros [Hok He] Hlim Hmax. pose proof (shape_counters _ (ring_has_shape _ Hok)) as Hct.
  rewrite (ring_list_length _ (ring_written _ Hok)) in Hlim by lia.
  destruct (ring_limit_spec (max_ b - min_ b) ltac:(lia) Hlim) as [H1 H2].
  destruct (push_spec b x Hok Hmax ltac:(rewrite He; lia) H2) as (b' & Hp & Hok' & Hl & Hm & He').
  exists b'. split; [done|]. split; [split; [done|congruence]|done].
Qed.

Lemma ring_progress_spec S (f : S -> A -> option (S * Z)) s (b : CircularBuffer A) s' l r : ring_fifo_ok b ->
  drain f s (ring_list b) = Some (s', l, r) ->
  exists b', progress S f s b = Some (s', b', r) /\ ring_fifo_ok b' /\ ring_list b' = l
    /\ max_ b' = max_ b.
Proof.
  intros [Hok He] Hd. pose proof (shape_counters _ (ring_has_shape _ Hok)) as Hct.
  destruct (progress_loop_spec f (Datatypes.S (Z.to_nat (max_ b - min_ b))) s b s' l r Hok ltac:(lia) Hd)
    as (b' & H1 & H2 & H3 & H4 & H5).
  exists b'. split; [done|]. split; [split; [done|congruence]|done].
Qed.

Lemma ring_fifo_size_spec (b : CircularBuffer A) : ring_fifo_ok b ->
  size b = Some (Z.of_nat (length (ring_list b))).
Proof. intros [Hok _]. by apply ring_size_spec. Qed.

#[global] Instance ring_fifo_laws : FifoLaws A (CircularBuffer A) := {
  fifo_ok := ring_fifo_ok;
  fifo_list := ring_list;
  fifo_limit := ring_limit;
  fifo_pushes := max_;
  fifo_size_spec := ring_fifo_size_spec;
  fifo_push_spec := ring_push_spec;
  fifo_progress_spec := ring_progress_spec;
}.

(** An empty ring from the constructor. *)
Lemma ring_new_spec capacity : 0 < capacity -> 2 * capacity * elementSize <= 2 ^ 32 ->
  2 * capacity <= 2 ^ 30 ->
  exists b, new elementSize capacity = Some b /\ ring_fifo_ok b /\ ring_list b = [] /\ max_ b = 0.
Proof.
  intros Hc Hb H30. unfold new. rewrite ceil_log2_eq, Z.shiftl_mul_pow2, Z.mul_1_l by (apply Z.log2_up_nonneg || lia).
  destruct (log2_up_bounds capacity Hc) as [Hlo Hhi].
  destruct (log2_up_bound 30 capacity ltac:(lia) ltac:(lia)) as [Hk0 _].
  assert (Hk : Z.log2_up capacity < 30) by (apply (Z.pow_lt_mono_r_iff 2); lia).
  remember (2 ^ Z.log2_up capacity) as c eqn:Ec. rewrite (wrap_small 32 c) by lia.
  unfold expand, realloc, slot. cbn [capacity_ elementSize_ max_ min_ records_ length].
  destruct (Z.eqb_spec c 0); [lia|]. destruct (Z.ltb_spec c 0); [lia|]. destruct (Z.eqb_spec 0 c); [lia|].
  rewrite wrap_small, Z.div_mul, take_nil, Nat.sub_0_r by nia.
  eexists. split; [done|]. split; [|done]. split; [|done].
  constructor; simpl; [|lia|intros; lia].
  constructor; simpl; [exists (Z.log2_up capacity); lia|lia|nia|rewrite length_replicate; lia|lia].
Qed.

(** A circular buffer is a first-in first-out queue.  Any run of pushes and calls of
    [progress] from a new buffer gives what the same run gives on a list: the consumer
    sees the records in the order they were pushed, none lost or repeated when the ring
    wraps around or grows, the calls return the same results, and what the buffer then
    holds is the list. *)
Theorem circular_buffer_fifo S (ops : list (op A S)) s s' l rs capacity :
  0 < capacity -> 2 * capacity * elementSize <= 2 ^ 32 -> 2 * capacity <= 2 ^ 30 ->
  Z.of_nat (length ops) < ring_limit ->
  list_run ops s [] [] = Some (s', l, rs) ->
  exists b b', new elementSize capacity = Some b /\ fifo_run ops s b [] = Some (s', b', rs)
    /\ ring_list b' = l.
Proof.
  intros Hc Hb H30 Hlen Hrun. destruct (ring_new_spec capacity Hc Hb H30) as (b & Hnew & Hok & Hl & Hm).
  assert (Hlim : ring_limit <= 2 ^ 30) by (unfold ring_limit; apply Z.div_le_upper_bound; lia).
  destruct (fifo_run_refines ops s b [] s' l rs) as (b' & Hr & _ & Hl').
  - done.
  - simpl. rewrite Hl. simpl. lia.
  - simpl. lia.
  - simpl. by rewrite Hl.
  - by exists b, b'.
Qed.
End RingFifo.

(** ** Witness: a ring that wraps and grows *)

(** A consumer that takes records until it has [n] of them. *)
Definition take_until (n : nat) (s : list Z) (x : Z) : option (list Z * Z) :=
  if (length s <? n)%nat then Some (s ++ [x], LIBHPX_OK) else Some (s, LIBHPX_RETRY).

Definition wrapping_run : list (op Z (list Z)) :=
  [Push 1; Push 2; Push 3; Progress (take_until 2); Push 4; Push 5; Push 6; Push 7; Push 8;
   Progress (take_until 7)].

Lemma circular_buffer_fifo_witness :
  exists b b', new 8 4 = Some b
    /\ fifo_run wrapping_run [] b [] = Some ([1; 2; 3; 4; 5; 6; 7], b', [1; 1]) /\ ring_list b' = [8].
Proof.
  apply (circular_buffer_fifo 8 ltac:(lia) (list Z) wrapping_run [] [1; 2; 3; 4; 5; 6; 7] [8] [1; 1] 4);
    [lia|lia|lia|by vm_compute|by vm_compute].
Defined.
