(* ===== verification/Lru.v ===== *)
(** * The cache of registered chunks

    include/libhpx/util/LRUCache.h and its use in network/pwc/jemalloc.cpp: freed chunks are kept
    in a list, most recent first, whose links are in the chunks themselves; an allocation takes
    the first of its size, and a chunk put into a full cache drives the oldest out. *)

From S2P Require Import Prelude.

(** ** The list *)

(** The fields of the nodes in memory, by their addresses. *)
Record nodes := mkNodes { bytes : gmap Z Z; prev : gmap Z Z; next : gmap Z Z }.

Implicit Types h : nodes.

Definition set_prev h (n p : Z) : nodes := mkNodes h.(bytes) (<[n := p]> h.(prev)) h.(next).
Definition set_next h (n p : Z) : nodes := mkNodes h.(bytes) h.(prev) (<[n := p]> h.(next)).

(** A node that is its own neighbour. *)
Definition Node_new (n : Z) : nodes := mkNodes {[n := 0]} {[n := n]} {[n := n]}.

(** A node of [b] bytes behind [p]. *)
Definition Node_after h (n b p : Z) : option nodes :=
  nx ← h.(next) !! p;
  let h := mkNodes (<[n := b]> h.(bytes)) (<[n := p]> h.(prev)) (<[n := nx]> h.(next)) in
  let h := set_prev h nx n in
  Some (set_next h p n).

Definition Node_remove h (n : Z) : option nodes :=
  p ← h.(prev) !! n;
  nx ← h.(next) !! n;
  let h := set_next h p nx in
  Some (set_prev h nx p).

(** ** The cache *)

(** [chunks_] is the address of the node that the cache itself has. *)
Record LRUCache := mkLRUCache { capacity_ : Z; size_ : Z; chunks_ : Z; heap : nodes }.

Definition LRUCache_new (capacity addr : Z) : LRUCache := mkLRUCache capacity 0 addr (Node_new addr).

Fixpoint find_loop (fuel : nat) h (s n b : Z) : option (option Z) :=
  match fuel with
  | O => None
  | S fuel =>
    if n =? s then Some None
    else
      nb ← h.(bytes) !! n;
      if nb =? b then Some (Some n)
      else nx ← h.(next) !! n; find_loop fuel h s nx b
  end.

(** [fresh] is what the caller allocates when there is no such chunk. *)
Definition get (fuel : nat) (c : LRUCache) (b fresh : Z) : option (LRUCache * Z) :=
  first ← c.(heap).(next) !! c.(chunks_);
  r ← find_loop fuel c.(heap) c.(chunks_) first b;
  match r with
  | Some n => h ← Node_remove c.(heap) n; Some (mkLRUCache c.(capacity_) (u32 (c.(size_) - 1)) c.(chunks_) h, n)
  | None => Some (c, fresh)
  end.

Definition NODE_SIZE : Z := 24.

(** With the chunk that is given back to the system. *)
Definition put (c : LRUCache) (obj b : Z) : option (LRUCache * option (Z * Z)) :=
  if b <=? NODE_SIZE then None
  else
    h ← Node_after c.(heap) obj b c.(chunks_);
    let h := set_next h c.(chunks_) obj in
    if c.(size_) =? c.(capacity_) then
      last ← h.(prev) !! c.(chunks_);
      h ← Node_remove h last;
      nb ← h.(bytes) !! last;
      Some (mkLRUCache c.(capacity_) (u32 (u32 (c.(size_) + 1) - 1)) c.(chunks_) h, Some (last, nb))
    else Some (mkLRUCache c.(capacity_) (u32 (c.(size_) + 1)) c.(chunks_) h, None).

(** ** Links *)

Definition link h (p q : Z) : Prop := h.(next) !! p = Some q /\ h.(prev) !! q = Some p.

(** From [p] through the chunks [l] to [q]. *)
Fixpoint seg h (p : Z) (l : list (Z * Z)) (q : Z) : Prop :=
  match l with
  | [] => link h p q
  | (a, b) :: l => link h p a /\ h.(bytes) !! a = Some b /\ seg h a l q
  end.

Definition ring h (s : Z) (l : list (Z * Z)) : Prop := seg h s l s /\ NoDup (s :: l.*1).

Lemma links_app h l1 a b l2 : forall p q, seg h p (l1 ++ (a, b) :: l2) q <-> seg h p l1 a /\ h.(bytes) !! a = Some b /\ seg h a l2 q.
Proof. induction l1 as [|[x y] l1 IH]; intros p q; simpl; [tauto|]. rewrite IH. tauto. Qed.

(** The neighbours in a ring. *)
Definition first_of (l : list (Z * Z)) (q : Z) : Z := match l with [] => q | (a, _) :: _ => a end.
Definition last_of (p : Z) (l : list (Z * Z)) : Z := match last l with Some (a, _) => a | None => p end.

Lemma links_first h p l q : seg h p l q -> h.(next) !! p = Some (first_of l q).
Proof. destruct l as [|[a b] l]; simpl; unfold link; tauto. Qed.

Lemma last_of_cons p a b l : last_of p ((a, b) :: l) = last_of a l.
Proof. unfold last_of. rewrite last_cons. by destruct (last l) as [[]|]. Qed.

Lemma links_last h l q : forall p, seg h p l q -> h.(prev) !! q = Some (last_of p l).
Proof.
  induction l as [|[a b] l IH]; intros p; simpl; [intros [_ H]; exact H|]. rewrite last_of_cons. intros (_ & _ & H). by apply IH.
Qed.

(** Links that a change does not touch. *)
Lemma links_frame h h' l q : forall p, seg h p l q -> (forall x, x ∈ p :: l.*1 -> h'.(next) !! x = h.(next) !! x) ->
  (forall x, x ∈ l.*1 ++ [q] -> h'.(prev) !! x = h.(prev) !! x) -> (forall x, x ∈ l.*1 -> h'.(bytes) !! x = h.(bytes) !! x) -> seg h' p l q.
Proof.
  induction l as [|[a b] l IH]; intros p Hs Hn Hp Hb; simpl in *.
  - destruct Hs as [H1 H2]. split; [rewrite Hn by set_solver; done|rewrite Hp by set_solver; done].
  - destruct Hs as ([H1 H2] & H3 & H4). split; [split; [rewrite Hn by set_solver; done|rewrite Hp by set_solver; done]|]. split; [rewrite Hb by set_solver; done|].
    apply IH; [done|intros x Hx; apply Hn; set_solver|intros x Hx; apply Hp; set_solver|intros x Hx; apply Hb; set_solver].
Qed.

(** The end of a segment is bent to [q']. *)
Lemma links_bend h l q q' : forall p, seg h p l q -> NoDup (p :: l.*1) -> q' ∉ l.*1 ->
  seg (set_prev (set_next h (last_of p l) q') q' (last_of p l)) p l q'.
Proof.
  induction l as [|[a b] l IH]; intros p Hs Hnd Hq; simpl in *.
  - unfold last_of. simpl. split; simpl; by rewrite lookup_insert_eq.
  - destruct Hs as ([H1 H2] & H3 & H4). rewrite last_of_cons. apply NoDup_cons in Hnd as [Hp Hnd]. pose proof Hnd as Hnd'. apply NoDup_cons in Hnd as [Ha Hnd].
    assert (Hl : last_of a l ∈ a :: l.*1).
    { unfold last_of. destruct (last l) as [[x y]|] eqn:E; [|by apply elem_of_cons; left]. apply elem_of_cons. right. apply last_Some_elem_of in E. apply list_elem_of_fmap. by exists (x, y). }
    split; [split; simpl|split; [done|]].
    + rewrite lookup_insert_ne; [done|]. intros E. apply Hp. rewrite <- E. simpl. exact Hl.
    + rewrite lookup_insert_ne; [done|]. intros ->. set_solver.
    + apply IH; [done|done|set_solver].
Qed.

Lemma ring_push h s l o b : ring h s l -> o ∉ s :: l.*1 -> exists h', Node_after h o b s = Some h' /\ ring (set_next h' s o) s ((o, b) :: l).
Proof.
  intros [Hs Hnd] Ho. unfold Node_after. rewrite (links_first _ _ _ _ Hs). cbn [mbind option_bind]. eexists. split; [done|]. apply not_elem_of_cons in Ho as [Hos Ho].
  apply NoDup_cons in Hnd as [Hsl Hnd]. split; [|simpl; rewrite !NoDup_cons, elem_of_cons; naive_solver].
  destruct l as [|[a c] l]; cbn [seg first_of set_next set_prev bytes prev next].
  - split; [split; simpl|split; [simpl; by rewrite lookup_insert_eq|split; simpl]].
    + by rewrite lookup_insert_eq.
    + by rewrite lookup_insert_ne, lookup_insert_eq by done.
    + by rewrite !lookup_insert_ne, lookup_insert_eq by done.
    + by rewrite lookup_insert_eq.
  - simpl in Hs, Hsl, Ho, Hnd. destruct Hs as (_ & Hb & Hs). apply not_elem_of_cons in Hsl as [Hsa Hsl]. apply not_elem_of_cons in Ho as [Hoa Ho]. apply NoDup_cons in Hnd as [Ha Hnd].
    split; [split; simpl; [by rewrite lookup_insert_eq|by rewrite lookup_insert_ne, lookup_insert_eq by done]|]. split; [simpl; by rewrite lookup_insert_eq|].
    split; [split; simpl; [by rewrite !lookup_insert_ne, lookup_insert_eq by done|by rewrite lookup_insert_eq]|]. split; [simpl; by rewrite lookup_insert_ne by done|].
    eapply links_frame; [exact Hs| | |]; simpl; intros x Hx.
    + rewrite !lookup_insert_ne; [done|intros <-; set_solver..].
    + apply elem_of_app in Hx as [Hx|Hx%list_elem_of_singleton]; [|subst x]; rewrite !lookup_insert_ne; (done || (intros <-; set_solver)).
    + rewrite lookup_insert_ne; [done|intros <-; set_solver].
Qed.

Lemma ring_remove h s l1 x b l2 : ring h s (l1 ++ (x, b) :: l2) -> exists h', Node_remove h x = Some h' /\ ring h' s (l1 ++ l2) /\ h'.(bytes) = h.(bytes).
Proof.
  intros [Hs Hnd]. pose proof Hs as Hs'. apply links_app in Hs as (H1 & Hb & H2). unfold Node_remove. rewrite (links_last _ _ _ _ H1). cbn [mbind option_bind].
  rewrite (links_first _ _ _ _ H2). cbn [mbind option_bind]. eexists. split; [done|]. split; [|done]. rewrite fmap_app in Hnd. cbn [fmap list_fmap fst] in Hnd.
  assert (Hnd' : NoDup (s :: (l1 ++ l2).*1) /\ x ∉ s :: (l1 ++ l2).*1).
  { rewrite fmap_app. assert (Hp : s :: l1.*1 ++ x :: l2.*1 ≡ₚ x :: s :: l1.*1 ++ l2.*1) by solve_Permutation. rewrite Hp in Hnd. apply NoDup_cons in Hnd. tauto. }
  destruct Hnd' as [Hnd' Hx]. split; [|done]. rewrite fmap_app in Hnd', Hx. rewrite app_comm_cons in Hnd'. apply NoDup_app in Hnd' as (Hn1 & Hn12 & Hn2).
  assert (Hlast : last_of s l1 ∈ s :: l1.*1).
  { unfold last_of. destruct (last l1) as [[y z]|] eqn:E; [|by apply elem_of_cons; left]. apply elem_of_cons. right. apply last_Some_elem_of in E. apply list_elem_of_fmap. by exists (y, z). }
  destruct l2 as [|[a c] l2]; cbn [first_of].
  - rewrite app_nil_r. eapply links_bend; [exact H1|done|]. by apply NoDup_cons in Hn1 as [? _].
  - simpl in H2, Hn2, Hn12, Hx. destruct H2 as (_ & Hc & H2). apply NoDup_cons in Hn2 as [Ha Hn2]. apply links_app. split; [|split; [done|]].
    + eapply links_bend; [exact H1|done|]. intros Hin. apply (Hn12 a); [by apply elem_of_cons; right|by apply elem_of_cons; left].
    + eapply links_frame; [exact H2| | |done]; simpl; intros y Hy.
      * rewrite lookup_insert_ne; [done|]. intros <-. by apply (Hn12 _ Hlast).
      * rewrite lookup_insert_ne; [done|]. intros <-. apply elem_of_app in Hy as [Hy|Hy%list_elem_of_singleton]; [done|subst]. apply (Hn12 s); [by apply elem_of_cons; left|by apply elem_of_cons; left].
Qed.

(** ** The cache as a list, most recent first *)

Fixpoint find_chunk (b : Z) (l : list (Z * Z)) : option (list (Z * Z) * Z * list (Z * Z)) :=
  match l with
  | [] => None
  | (a, c) :: l => if c =? b then Some ([], a, l) else '(l1, x, l2) ← find_chunk b l; Some ((a, c) :: l1, x, l2)
  end.

Inductive op := Put (obj b : Z) | Get (b fresh : Z).

Inductive outcome := Evicted (x : option (Z * Z)) | Got (x : Z).

(** With the chunks that leave the cache; a chunk is put by who has it. *)
Definition spec_step (cap : nat) (s : Z) (l : list (Z * Z)) (o : op) : option (list (Z * Z) * outcome * list (Z * Z)) :=
  match o with
  | Put obj b =>
    if decide (obj ∉ s :: l.*1) then
      if b <=? NODE_SIZE then None
      else if (length l =? cap)%nat
      then Some (removelast ((obj, b) :: l), Evicted (last ((obj, b) :: l)), match last ((obj, b) :: l) with Some x => [x] | None => [] end)
      else Some ((obj, b) :: l, Evicted None, [])
    else None
  | Get b fresh =>
    match find_chunk b l with
    | Some (l1, x, l2) => Some (l1 ++ l2, Got x, [(x, b)])
    | None => Some (l, Got fresh, [])
    end
  end.

Fixpoint spec_run (cap : nat) (s : Z) (l : list (Z * Z)) (ops : list op) : option (list (Z * Z) * list outcome * list (Z * Z)) :=
  match ops with
  | [] => Some (l, [], [])
  | o :: ops => '(l, r, xs) ← spec_step cap s l o; '(l, rs, ys) ← spec_run cap s l ops; Some (l, r :: rs, xs ++ ys)
  end.

Definition cache_step (c : LRUCache) (o : op) : option (LRUCache * outcome) :=
  match o with
  | Put obj b => '(c, x) ← put c obj b; Some (c, Evicted x)
  | Get b fresh => '(c, x) ← get (S (Z.to_nat c.(capacity_))) c b fresh; Some (c, Got x)
  end.

Fixpoint cache_run (c : LRUCache) (ops : list op) : option (LRUCache * list outcome) :=
  match ops with
  | [] => Some (c, [])
  | o :: ops => '(c, r) ← cache_step c o; '(c, rs) ← cache_run c ops; Some (c, r :: rs)
  end.

Lemma find_chunk_spec b l : match find_chunk b l with Some (l1, x, l2) => l = l1 ++ (x, b) :: l2 | None => True end.
Proof.
  induction l as [|[a c] l IH]; [done|]. simpl. destruct (Z.eqb_spec c b) as [->|Hne]; [done|]. destruct (find_chunk b l) as [[[l1 x] l2]|]; [|done]. simpl. by rewrite IH.
Qed.

Lemma find_loop_spec h s b l : forall p fuel, seg h p l s -> s ∉ l.*1 -> (length l < fuel)%nat ->
  find_loop fuel h s (first_of l s) b = Some (match find_chunk b l with Some (_, x, _) => Some x | None => None end).
Proof.
  induction l as [|[a c] l IH]; intros p [|fuel] Hs Hn Hf; try (simpl in Hf; lia); cbn [find_loop first_of]; [by rewrite Z.eqb_refl|].
  simpl in Hs, Hn. destruct Hs as (_ & Hb & Hs). apply not_elem_of_cons in Hn as [Hne Hn]. destruct (Z.eqb_spec a s); [done|]. rewrite Hb. cbn [mbind option_bind find_chunk].
  destruct (c =? b); [done|]. rewrite (links_first _ _ _ _ Hs). cbn [mbind option_bind]. rewrite (IH a) by (done || (simpl in Hf; lia)). by destruct (find_chunk b l) as [[[? ?] ?]|].
Qed.

(** The cache [c] holds the chunks [l]. *)
Record holds (cap : nat) (s : Z) (c : LRUCache) (l : list (Z * Z)) : Prop := {
  h_capacity : c.(capacity_) = Z.of_nat cap;
  h_size : c.(size_) = Z.of_nat (length l);
  h_bound : (length l <= cap)%nat;
  h_chunks : c.(chunks_) = s;
  h_ring : ring c.(heap) s l;
}.

Section Cache.
Variables (cap : nat) (s : Z).
Hypothesis cap_range : Z.of_nat cap < 2 ^ 32.

Lemma holds_get c l b fresh : holds cap s c l -> exists c', cache_step c (Get b fresh) = Some (c', Got (match find_chunk b l with Some (_, x, _) => x | None => fresh end))
  /\ holds cap s c' (match find_chunk b l with Some (l1, _, l2) => l1 ++ l2 | None => l end).
Proof.
  intros [H1 H2 H3 H4 [H5 H6]]. cbn [cache_step]. unfold get. rewrite H4, (links_first _ _ _ _ H5). cbn [mbind option_bind].
  assert (Hs : s ∉ l.*1) by (by apply NoDup_cons in H6 as [? _]). rewrite (find_loop_spec _ _ _ _ s) by (done || (rewrite H1; lia)). cbn [mbind option_bind].
  pose proof (find_chunk_spec b l) as Hl. destruct (find_chunk b l) as [[[l1 x] l2]|]; [|by exists c]. subst l.
  destruct (ring_remove _ _ _ _ _ _ (conj H5 H6)) as (h' & E & Hr & _). rewrite E. cbn [mbind option_bind]. eexists. split; [done|]. rewrite length_app in H2, H3. simpl in H2, H3.
  split; cbn; try done; rewrite ?length_app; [|lia]. rewrite wrap_small by lia. lia.
Qed.

Lemma holds_put c l obj b : holds cap s c l -> obj ∉ s :: l.*1 -> NODE_SIZE < b -> exists c', cache_step c (Put obj b) = Some (c', Evicted (if (length l =? cap)%nat then last ((obj, b) :: l) else None))
  /\ holds cap s c' (if (length l =? cap)%nat then removelast ((obj, b) :: l) else (obj, b) :: l).
Proof.
  intros [H1 H2 H3 H4 H5] Ho Hb. cbn [cache_step]. unfold put. destruct (Z.leb_spec b NODE_SIZE); [lia|]. destruct (ring_push _ _ _ _ b H5 Ho) as (h & E & Hr).
  rewrite H4, E. cbn [mbind option_bind]. rewrite H1, H2. destruct (Nat.eqb_spec (length l) cap) as [He|He].
  - destruct (Z.eqb_spec (Z.of_nat (length l)) (Z.of_nat cap)); [|lia]. set (l' := (obj, b) :: l) in *. assert (Hl' : l' <> []) by done.
    destruct (exists_last Hl') as (l1 & [x y] & El). rewrite El in Hr |- *. pose proof Hr as [Hseg _]. rewrite (links_last _ _ _ _ Hseg). cbn [mbind option_bind].
    assert (Hlast : last_of s (l1 ++ [(x, y)]) = x) by (unfold last_of; by rewrite last_snoc). rewrite Hlast. destruct (ring_remove _ _ _ _ _ _ Hr) as (h' & Er & Hr' & Hbytes). rewrite Er. cbn [mbind option_bind].
    apply links_app in Hseg as (_ & Hy & _). rewrite Hbytes, Hy. cbn [mbind option_bind]. rewrite last_snoc, removelast_last. eexists. split; [done|].
    assert (Hlen : length l1 = length l) by (apply (f_equal length) in El; rewrite length_app in El; simpl in El; lia).
    split; cbn; try done; [|lia|by rewrite app_nil_r in Hr']. rewrite wrap_sub_l, wrap_small by lia. lia.
  - destruct (Z.eqb_spec (Z.of_nat (length l)) (Z.of_nat cap)); [lia|]. eexists. split; [done|]. split; cbn; try done; [|lia]. rewrite wrap_small by lia. lia.
Qed.

Lemma holds_step c l o l' r xs : holds cap s c l -> spec_step cap s l o = Some (l', r, xs) -> exists c', cache_step c o = Some (c', r) /\ holds cap s c' l'.
Proof.
  intros H E. destruct o as [obj b|b fresh]; cbn [spec_step] in E.
  - destruct (decide (obj ∉ s :: l.*1)) as [Ho|]; [|done]. destruct (Z.leb_spec b NODE_SIZE); [done|]. destruct (holds_put c l obj b H Ho ltac:(lia)) as (c' & E' & H').
    exists c'. destruct (length l =? cap)%nat; by simplify_eq.
  - destruct (holds_get c l b fresh H) as (c' & E' & H'). exists c'. destruct (find_chunk b l) as [[[l1 x] l2]|]; by simplify_eq.
Qed.

Definition put_of (o : op) : list (Z * Z) := match o with Put obj b => [(obj, b)] | Get _ _ => [] end.

Lemma spec_step_kept l o l' r xs : spec_step cap s l o = Some (l', r, xs) -> put_of o ++ l ≡ₚ xs ++ l'.
Proof.
  intros E. destruct o as [obj b|b fresh]; cbn [spec_step put_of] in *.
  - destruct (decide _); [|done]. destruct (_ <=? _); [done|]. destruct (_ =? cap)%nat; [|by simplify_eq]. change ([(obj, b)] ++ l) with ((obj, b) :: l).
    set (k := (obj, b) :: l) in *. assert (Hk : k <> []) by done. clearbody k. destruct (exists_last Hk) as (l1 & x & ->). rewrite last_snoc, removelast_last in E. simplify_eq.
    apply Permutation_app_comm.
  - pose proof (find_chunk_spec b l) as Hl. destruct (find_chunk b l) as [[[l1 x] l2]|]; simplify_eq; [|done]. simpl. solve_Permutation.
Qed.

(** The cache is a list of at most its capacity, most recent first.  For any sequence of puts, of
    chunks that are not in it, and of gets, the linked nodes hold what the list holds and every
    call has the list's result: a get takes the most recent chunk of its size, a put into a full
    cache evicts the oldest chunk; and each chunk that was put is in the cache, or has left it
    once. *)
Theorem lru_refines ops l rs xs : spec_run cap s [] ops = Some (l, rs, xs) ->
  exists c, cache_run (LRUCache_new (Z.of_nat cap) s) ops = Some (c, rs) /\ ring c.(heap) s l
    /\ c.(size_) = Z.of_nat (length l) /\ (length l <= cap)%nat /\ concat (map put_of ops) ≡ₚ xs ++ l.
Proof.
  assert (Hgen : forall ops c l0 l rs xs, holds cap s c l0 -> spec_run cap s l0 ops = Some (l, rs, xs) ->
    exists c', cache_run c ops = Some (c', rs) /\ holds cap s c' l /\ concat (map put_of ops) ++ l0 ≡ₚ xs ++ l).
  { clear ops l rs xs. intros ops. induction ops as [|o ops IH]; intros c l0 l rs xs H E; cbn [spec_run] in E; [simplify_eq; by exists c|].
    destruct (spec_step cap s l0 o) as [[[l1 r] ys]|] eqn:E1; [|done]. cbn [mbind option_bind] in E. destruct (spec_run cap s l1 ops) as [[[l2 rs'] zs]|] eqn:E2; [|done]. cbn [mbind option_bind] in E. simplify_eq.
    destruct (holds_step _ _ _ _ _ _ H E1) as (c1 & Ec1 & H1). destruct (IH _ _ _ _ _ H1 E2) as (c2 & Ec2 & H2 & Hp). exists c2. cbn [cache_run]. rewrite Ec1. cbn [mbind option_bind].
    rewrite Ec2. split; [done|]. split; [done|]. pose proof (spec_step_kept _ _ _ _ _ E1) as Hk. simpl. rewrite <- app_assoc, (Permutation_app_comm (concat _)), app_assoc, Hk, <- !app_assoc.
    apply Permutation_app_head. rewrite Permutation_app_comm. exact Hp. }
  intros E. destruct (Hgen ops (LRUCache_new (Z.of_nat cap) s) [] l rs xs) as (c & Ec & [H1 H2 H3 H4 H5] & Hp); [|done|].
  - split; cbn; try done; [lia|]. split; [split; simpl; by rewrite lookup_singleton_eq|]. apply NoDup_singleton.
  - exists c. rewrite app_nil_r in Hp. done.
Qed.
End Cache.

(** ** Witness: a cache of two *)

Definition demo_ops : list op := [Put 100 64; Put 200 64; Get 64 900; Put 300 32; Put 400 64; Get 64 901; Get 64 902; Get 16 903].

Lemma lru_refines_witness : exists c, cache_run (LRUCache_new 2 1) demo_ops
    = Some (c, [Evicted None; Evicted None; Got 200; Evicted None; Evicted (Some (100, 64)); Got 400; Got 902; Got 903]) /\ c.(size_) = 1.
Proof.
  destruct (lru_refines 2 1 ltac:(lia) demo_ops [(300, 32)]
    [Evicted None; Evicted None; Got 200; Evicted None; Evicted (Some (100, 64)); Got 400; Got 902; Got 903] [(200, 64); (100, 64); (400, 64)]) as (c & H1 & _ & H2 & _);
    [vm_compute; reflexivity|]. exists c. split; [exact H1|exact H2].
Defined.
