(* ===== verification/Commands.v ===== *)
(** * Commands of the put-with-completion network: [libhpx/network/pwc/Commands.{h,cpp}]

    A command is a 16-bit operation and a 48-bit argument that travel in one word with an
    rDMA operation and run at the source or the target when it completes.  The theorems:
    a command comes out of its word as it went in, and an LCO that is set by command is
    the one that was named, although only its offset fits. *)

From S2P Require Import Prelude Math Gpa.

Definition NOP : Z := 0.
Definition RESUME_PARCEL : Z := 1.
Definition RESUME_PARCEL_SOURCE : Z := 2.
Definition DELETE_PARCEL : Z := 3.
Definition LCO_SET : Z := 4.
Definition LCO_SET_SOURCE : Z := 5.
Definition RECV_PARCEL : Z := 6.
Definition RENDEZVOUS_LAUNCH : Z := 7.
Definition RELOAD_REQUEST : Z := 8.
Definition RELOAD_REPLY : Z := 9.

Record Command := mkCommand { arg_ : Z; op_ : Z }.

(** The constructor stores into bit fields of 48 and 16 bits. *)
Definition command (op arg : Z) : Command := mkCommand (wrap 48 arg) (wrap 16 op).

Definition Nop : Command := command NOP 0.
Definition ResumeParcel (p : Z) : Command := command RESUME_PARCEL p.
Definition ResumeParcelAtSource (p : Z) : Command := command RESUME_PARCEL_SOURCE p.
Definition RecvParcel (p : Z) : Command := command RECV_PARCEL p.
Definition DeleteParcel (p : Z) : Command := command DELETE_PARCEL p.
Definition SetLCO (lco : Z) : Command := command LCO_SET lco.
Definition SetLCOAtSource (lco : Z) : Command := command LCO_SET_SOURCE lco.
Definition ReloadRequest (bytes : Z) : Command := command RELOAD_REQUEST bytes.
Definition ReloadReply : Command := command RELOAD_REPLY 0.
Definition RendezvousLaunch (p : Z) : Command := command RENDEZVOUS_LAUNCH p.

Definition nonempty (c : Command) : bool := negb (c.(op_) =? NOP).

(** The union of a command with a 64-bit word: the argument in the low bits. *)
Definition Pack (c : Command) : Z := Z.lor (Z.shiftl c.(op_) 48) c.(arg_).
Definition Unpack (packed : Z) : Command := mkCommand (wrap 48 packed) (wrap 16 (Z.shiftr packed 48)).

(** ** Running a command *)

(** What a command asks the runtime to do at the locality it runs on. *)
Inductive effect :=
| Resume (p : Z)            (* return the parcel to the caller, which launches it *)
| Delete (p : Z)            (* delete the parcel, return the one waiting behind it *)
| SetLco (lco : Z)
| Receive (p : Z)           (* a parcel that was put into an eager block *)
| Launch (p : Z)            (* a parcel that was fetched by rendezvous *)
| Reload (n : Z)
| Progress
| Forward (rank : Z) (rop : Command).

(** [operator()], run on locality [rank] for an operation of [src]; running the empty
    command aborts. *)
Definition run_command (rank src : Z) (c : Command) : option effect :=
  if c.(op_) =? RESUME_PARCEL then Some (Resume c.(arg_))
  else if c.(op_) =? RESUME_PARCEL_SOURCE then Some (Forward src (command RESUME_PARCEL c.(arg_)))
  else if c.(op_) =? DELETE_PARCEL then Some (Delete c.(arg_))
  else if c.(op_) =? LCO_SET then Some (SetLco (offset_to_gpa rank c.(arg_)))
  else if c.(op_) =? LCO_SET_SOURCE then Some (Forward src (command LCO_SET c.(arg_)))
  else if c.(op_) =? RECV_PARCEL then Some (Receive c.(arg_))
  else if c.(op_) =? RENDEZVOUS_LAUNCH then Some (Launch c.(arg_))
  else if c.(op_) =? RELOAD_REQUEST then Some (Reload c.(arg_))
  else if c.(op_) =? RELOAD_REPLY then Some Progress
  else None.

(** ** The word *)

Definition command_ok (c : Command) : Prop := c.(arg_) ∈u 48 /\ c.(op_) ∈u 16.

Lemma command_fits op arg : command_ok (command op arg).
Proof. split; apply wrap_range; lia. Qed.

#[export] Hint Resolve command_fits : hpx.

Lemma unpack_pack c : command_ok c -> Unpack (Pack c) = c.
Proof.
  intros [Ha Ho]. destruct c as [arg op]; simpl in *. unfold Unpack, Pack; simpl.
  rewrite lor_shiftl_add by lia. f_equal.
  - unfold wrap. rewrite Z.add_comm, Z_mod_plus_full. by apply Z.mod_small.
  - rewrite Z.shiftr_div_pow2 by lia. rewrite Z.add_comm, Z.div_add, (Z.div_small arg) by lia.
    by apply wrap_small.
Qed.

(** A command survives the trip through the word of a completion: whatever operation and
    argument it was made with, unpacking the packed command gives it back, and the word
    fits in 64 bits. *)
Theorem command_roundtrip op arg :
  Pack (command op arg) ∈u 64 /\ Unpack (Pack (command op arg)) = command op arg.
Proof.
  split; [|by apply unpack_pack; auto with hpx].
  destruct (command_fits op arg) as [Ha Ho]. unfold Pack. rewrite lor_shiftl_add by lia. lia.
Qed.

(** Setting an LCO by command.  The word holds only the offset of the LCO's address;
    the command, run on the LCO's home locality, or sent back from there by a command that
    names an LCO of its source, sets the LCO that was named. *)
Theorem set_lco_command lco rank src : lco ∈u 64 ->
  (gpa_to_rank lco = rank -> run_command rank src (Unpack (Pack (SetLCO lco))) = Some (SetLco lco))
  /\ (gpa_to_rank lco = src -> exists c,
        run_command rank src (Unpack (Pack (SetLCOAtSource lco))) = Some (Forward src c)
        /\ run_command src rank (Unpack (Pack c)) = Some (SetLco lco)).
Proof.
  intros Hl. unfold SetLCO, SetLCOAtSource. rewrite !unpack_pack by auto with hpx.
  assert (Hset : forall r, gpa_to_rank lco = r -> offset_to_gpa r (wrap 48 lco) = lco).
  { intros r <-. unfold offset_to_gpa, gpa_to_rank, GPA_RANK_BITS, GPA_OFFSET_BITS.
    rewrite !wrap_wrap by lia. rewrite lor_shiftl_add by (try apply wrap_range; lia).
    rewrite Z.shiftr_div_pow2 by lia. rewrite (wrap_small 16).
    - unfold wrap. pose proof (Z.div_mod lco (2 ^ 48)). lia.
    - split; [apply Z.div_pos; lia|]. apply Z.div_lt_upper_bound; lia. }
  split; intros Hr.
  - unfold run_command; simpl. by rewrite Hset.
  - exists (command LCO_SET (wrap 48 lco)). split; [done|]. rewrite unpack_pack by auto with hpx.
    unfold run_command; simpl. rewrite wrap_wrap by lia. by rewrite Hset.
Qed.

Lemma set_lco_command_witness :
  run_command 3 1 (Unpack (Pack (SetLCO (offset_to_gpa 3 4096)))) = Some (SetLco (offset_to_gpa 3 4096)).
Proof. apply (set_lco_command (offset_to_gpa 3 4096) 3 1); [vm_compute; split; congruence|done]. Defined.
