(* ===== verification/Eager.v ===== *)
(** * Eager parcels over rDMA: [libhpx/network/pwc/ParcelBlock.{h,cpp}] and [Peer.{h,cpp}]

    A parcel for another locality is put into a block of that locality's memory that the
    sender carves up itself.  When the block cannot hold a parcel the sender asks for a new
    one and buffers what it has to send until the reply brings the header of the new
    block; the receiver gives the unused bytes of the old block back, and frees a block
    when all its bytes have been given back, by parcels that are deleted or by that.

    [EagerBlock] is the sender's view of a block, the receiver's blocks are the map
    [blocks] from the address of an [InplaceBlock] to its [remaining_] bytes.  A network of
    one sender and one receiver has the operations in flight, which complete in any order.
    The theorems are about that network: parcels are delivered exactly once, blocks never
    overlap and are freed exactly when they are empty, and nothing waits for ever. *)

From S2P Require Import Prelude Math CircularBuffer Commands.

Definition HPX_CACHELINE_SIZE : Z := 64.

(** A parcel at the sender: its address and the size of its payload. *)
Record parcel := mkParcel { addr : Z; psize : Z }.

(** [parcel_size]: the header of a parcel is a cache line. *)
Definition parcel_size (p : parcel) : Z := u32 (HPX_CACHELINE_SIZE + p.(psize)).

(** What a parcel takes of a block. *)
Definition padded (bytes : Z) : Z := u64 (bytes + align bytes HPX_CACHELINE_SIZE).

(** ** Blocks *)

Record EagerBlock := mkEagerBlock { end_ : Z; next_ : Z }.

(** The default constructor. *)
Definition empty_block : EagerBlock := mkEagerBlock 0 0.

(** The new block, the updated [bytes], and the buffer or [None]. *)
Definition allocate (e : EagerBlock) (bytes : Z) : option (EagerBlock * Z * option Z) :=
  let padded := padded bytes in
  if (bytes <=? padded) && (e.(next_) <=? e.(end_)) then
    let capacity := u64 (e.(end_) - e.(next_)) in
    if capacity <=? padded then Some (e, capacity, None)
    else Some (mkEagerBlock e.(end_) (u64 (e.(next_) + padded)), bytes, Some e.(next_))
  else None.

(** What an rDMA put writes at the target. *)
Inductive payload :=
| NoData
| ParcelData (p : parcel)
| HeaderData (e : EagerBlock).

Record Op := mkOp { dest : Z; data : payload; lop : Command; rop : Command }.

(** The put of a parcel, or [None] with the bytes left when it does not fit. *)
Definition put (e : EagerBlock) (p : parcel) (n : Z) : option (EagerBlock * Z * option Op) :=
  '(e, n, d) ← allocate e n;
  Some (e, n, match d with
              | None => None
              | Some d => Some (mkOp d (ParcelData p) (DeleteParcel p.(addr)) (RecvParcel d))
              end).

Section Protocol.
(** The size of a block, the size of its header, and the buffer of a peer. *)
Variables (eagerSize sizeof_InplaceBlock : Z) (Q : Type).
Context `{Hfifo : FifoLaws parcel Q}.

Abbreviation heap := (gmap Z Z).

Definition InplaceBlock_header (block : Z) : EagerBlock :=
  mkEagerBlock (block + sizeof_InplaceBlock + (eagerSize - sizeof_InplaceBlock))
    (block + sizeof_InplaceBlock).

(** [registered_memalign] returned [block]: fresh, aligned memory whose addresses fit in
    the argument of a command. *)
Definition alloc_ok (blocks : heap) (block : Z) : bool :=
  (0 <? block) && (block mod eagerSize =? 0) && (block + eagerSize <=? 2 ^ 48)
  && match blocks !! block with None => true | Some _ => false end.

Definition InplaceBlock_new (blocks : heap) (block : Z) : option heap :=
  if alloc_ok blocks block then Some (<[block := eagerSize - sizeof_InplaceBlock]> blocks)
  else None.

Definition SIZE_MAX : Z := 2 ^ 64 - 1.

(** [None] when the block is not allocated or a [dbg_assert] fails. *)
Definition deallocate (blocks : heap) (block bytes : Z) : option heap :=
  if (0 <? bytes) && (bytes <? SIZE_MAX / 2) then
    remaining ← blocks !! block;
    if bytes <=? remaining then
      let remaining := remaining - bytes in
      Some (if remaining =? 0 then delete block blocks else <[block := remaining]> blocks)
    else None
  else None.

Definition finalize (blocks : heap) (block : Z) : option heap :=
  remaining ← blocks !! block;
  if nz remaining then deallocate blocks block remaining else Some blocks.

(** The block of a parcel from its address. *)
Definition block_of (p : Z) : Z := Z.land p (Z.lnot (eagerSize - 1)).

Definition InplaceBlock_DeleteParcel (blocks : heap) (p : Z) (bytes : Z) : option heap :=
  deallocate blocks (block_of p) (padded bytes).

(** ** Peers *)

Record Peer := mkPeer { sendEager_ : EagerBlock; sendBuffer_ : Q; recv_ : Z }.

(** The operations started so far and the block they come from. *)
Abbreviation sending := (EagerBlock * list Op)%type.

Definition start (s : sending) (p : parcel) : option (sending * Z) :=
  let (e, ops) := s in
  '(e, n, op) ← put e p (parcel_size p);
  match op with
  | Some op => Some ((e, ops ++ [op]), LIBHPX_OK)
  | None => Some ((e, ops ++ [mkOp 0 NoData Nop (ReloadRequest n)]), LIBHPX_RETRY)
  end.

Definition progress (peer : Peer) : option (Peer * list Op) :=
  '(e, ops, q, i) ← fifo_progress sending start (peer.(sendEager_), []) peer.(sendBuffer_);
  if i <? 0 then None else Some (mkPeer e q peer.(recv_), ops).

Definition send (peer : Peer) (p : parcel) : option (Peer * list Op) :=
  n ← fifo_size peer.(sendBuffer_);
  if nz n then
    q ← fifo_push peer.(sendBuffer_) p;
    Some (mkPeer peer.(sendEager_) q peer.(recv_), [])
  else
    '(e, ops, r) ← start (peer.(sendEager_), []) p;
    if r =? LIBHPX_RETRY then
      q ← fifo_push peer.(sendBuffer_) p;
      Some (mkPeer e q peer.(recv_), ops)
    else Some (mkPeer e peer.(sendBuffer_) peer.(recv_), ops).

(** [block] is the memory that is allocated. *)
Definition reload (peer : Peer) (blocks : heap) (n block : Z) : option (Peer * heap * list Op) :=
  blocks ← (if nz peer.(recv_) && nz n then deallocate blocks peer.(recv_) n else Some blocks);
  blocks ← InplaceBlock_new blocks block;
  Some (mkPeer peer.(sendEager_) peer.(sendBuffer_) block, blocks,
        [mkOp 0 (HeaderData (InplaceBlock_header block)) Nop ReloadReply]).

(** ** The network of a sender and a receiver *)

Record net := mkNet {
  src : Peer;                   (* the sender's peer object for the receiver *)
  dst : Peer;                   (* the receiver's peer object for the sender *)
  blocks : heap;                (* the receiver's blocks *)
  mem : gmap Z parcel;          (* the parcels in the receiver's blocks *)
  to_dst : list Op;             (* operations in flight *)
  to_src : list Op;
  completed : list Command;     (* completions at the sender that have not run *)
  received : list Z;            (* parcels the receiver has and has not deleted *)
  sent : list parcel;           (* all parcels handed to [send], in order *)
  delivered : list parcel;      (* all parcels the receiver was given *)
  released : list Z;            (* the sender's parcels deleted after their put *)
}.

(** The completions at the initiator: the local command of each operation that has one. *)
Definition local_completions (ops : list Op) : list Command :=
  filter (fun c => nonempty c = true) (map lop ops).

Inductive label :=
| Send (p : parcel)
| Deliver (i : nat) (block : Z)   (* an operation completes at the receiver *)
| Land (i : nat)                  (* an operation writes the sender's memory *)
| Complete (i : nat)              (* the sender runs a completion *)
| DeleteAt (p : Z).               (* the receiver is done with a parcel *)

(** The commands arrive packed in a word. *)
Definition run_packed (c : Command) : option effect := run_command 0 0 (Unpack (Pack c)).

Definition deliver (y : net) (op : Op) (block : Z) : option net :=
  let mem := match op.(data) with ParcelData p => <[op.(dest) := p]> y.(mem) | _ => y.(mem) end in
  match run_packed op.(rop) with
  | Some (Receive a) =>
    p ← mem !! a;
    Some (mkNet y.(src) y.(dst) y.(blocks) mem y.(to_dst) y.(to_src) y.(completed)
            (y.(received) ++ [a]) y.(sent) (y.(delivered) ++ [p]) y.(released))
  | Some (Reload n) =>
    '(dst, blocks, ops) ← reload y.(dst) y.(blocks) n block;
    Some (mkNet y.(src) dst blocks mem y.(to_dst) (y.(to_src) ++ ops) y.(completed)
            y.(received) y.(sent) y.(delivered) y.(released))
  | _ => None
  end.

Definition step (y : net) (a : label) : option net :=
  match a with
  | Send p =>
    '(src, ops) ← send y.(src) p;
    Some (mkNet src y.(dst) y.(blocks) y.(mem) (y.(to_dst) ++ ops) y.(to_src)
            (y.(completed) ++ local_completions ops) y.(received) (y.(sent) ++ [p])
            y.(delivered) y.(released))
  | Deliver i block =>
    op ← y.(to_dst) !! i;
    deliver (mkNet y.(src) y.(dst) y.(blocks) y.(mem) (delete i y.(to_dst)) y.(to_src)
               y.(completed) y.(received) y.(sent) y.(delivered) y.(released)) op block
  | Land i =>
    op ← y.(to_src) !! i;
    match op.(data) with
    | HeaderData e =>
      Some (mkNet (mkPeer e y.(src).(sendBuffer_) y.(src).(recv_)) y.(dst) y.(blocks) y.(mem)
              y.(to_dst) (delete i y.(to_src)) (y.(completed) ++ [op.(rop)]) y.(received)
              y.(sent) y.(delivered) y.(released))
    | _ => None
    end
  | Complete i =>
    c ← y.(completed) !! i;
    let completed := delete i y.(completed) in
    match run_packed c with
    | Some Progress =>
      '(src, ops) ← progress y.(src);
      Some (mkNet src y.(dst) y.(blocks) y.(mem) (y.(to_dst) ++ ops) y.(to_src)
              (completed ++ local_completions ops) y.(received) y.(sent) y.(delivered) y.(released))
    | Some (Delete p) =>
      Some (mkNet y.(src) y.(dst) y.(blocks) y.(mem) y.(to_dst) y.(to_src) completed
              y.(received) y.(sent) y.(delivered) (y.(released) ++ [p]))
    | _ => None
    end
  | DeleteAt a =>
    i ← list_find (fun x => x = a) y.(received);
    p ← y.(mem) !! a;
    blocks ← InplaceBlock_DeleteParcel y.(blocks) a (parcel_size p);
    Some (mkNet y.(src) y.(dst) blocks (delete a y.(mem)) y.(to_dst) y.(to_src) y.(completed)
            (delete i.1 y.(received)) y.(sent) y.(delivered) y.(released))
  end.

Fixpoint run (y : net) (ls : list label) : option net :=
  match ls with
  | [] => Some y
  | a :: ls => y ← step y a; run y ls
  end.

Definition start_net (q q' : Q) : net :=
  mkNet (mkPeer empty_block q 0) (mkPeer empty_block q' 0) ∅ ∅ [] [] [] [] [] [] [].


(** ** The blocks and the parcels in them

    [core e recv blocks out]: the sender carves [e] up, the receiver's current block is
    [recv], and [out] are the parcels in blocks, with their addresses. *)

Hypothesis eager_pow2 : exists k, 6 <= k <= 47 /\ eagerSize = 2 ^ k.
Hypothesis header_size : 0 < sizeof_InplaceBlock < eagerSize /\ (64 | sizeof_InplaceBlock).

Abbreviation bytes_of p := (padded (parcel_size p)).

(** Parcels that are sent eagerly: a block can hold them. *)
Definition fits (p : parcel) : Prop :=
  addr p ∈u 48 /\ 0 <= psize p /\ HPX_CACHELINE_SIZE + psize p < 2 ^ 32
  /\ bytes_of p < eagerSize - sizeof_InplaceBlock.

Definition block_ok (b : Z) : Prop := 0 < b /\ b mod eagerSize = 0 /\ b + eagerSize <= 2 ^ 48.

Definition bytes_in (b : Z) (out : list (Z * parcel)) : Z :=
  foldr (fun x n => (if block_of x.1 =? b then bytes_of x.2 else 0) + n) 0 out.

Definition avail (e : EagerBlock) : Z := end_ e - next_ e.

(** The bytes of a block that have not been given back. *)
Definition owed (e : EagerBlock) (recv b : Z) (out : list (Z * parcel)) : Z :=
  bytes_in b out + (if b =? recv then avail e else 0).

Record extent_ok (e : EagerBlock) (recv a : Z) (p : parcel) : Prop := {
  extent_fits : fits p;
  extent_aligned : (64 | a);
  extent_block : block_ok (block_of a);
  extent_low : block_of a + sizeof_InplaceBlock <= a;
  extent_high : a + bytes_of p <= block_of a + eagerSize;
  extent_bump : block_of a = recv -> a + bytes_of p <= next_ e;
}.

Record core (e : EagerBlock) (recv : Z) (blocks : heap) (out : list (Z * parcel)) : Prop := {
  core_eager : (recv = 0 /\ e = empty_block)
    \/ (block_ok recv /\ end_ e = recv + eagerSize /\ (64 | next_ e)
        /\ recv + sizeof_InplaceBlock <= next_ e < end_ e);
  core_blocks : forall b, blocks !! b = if owed e recv b out =? 0 then None else Some (owed e recv b out);
  core_extents : forall a p, (a, p) ∈ out -> extent_ok e recv a p;
  core_nodup : NoDup (map fst out);
  core_apart : forall a p a' p', (a, p) ∈ out -> (a', p') ∈ out -> a < a' -> a + bytes_of p <= a';
}.

(** *** Arithmetic of sizes and addresses *)

Lemma padded_spec n : 0 <= n < 2 ^ 63 -> n <= padded n < n + 64 /\ (64 | padded n).
Proof.
  intros Hn. unfold padded, HPX_CACHELINE_SIZE.
  destruct (align_spec n 6 ltac:(lia) ltac:(lia)) as [Hr Hd]. change (2 ^ 6) with 64 in *.
  rewrite wrap_small by lia. split; [lia|done].
Qed.

Lemma fits_size p : fits p -> parcel_size p = 64 + psize p /\ 64 <= bytes_of p /\ (64 | bytes_of p)
  /\ bytes_of p < eagerSize - sizeof_InplaceBlock.
Proof.
  intros (_ & Hs & Hb & Hf). assert (Hp : parcel_size p = 64 + psize p).
  { unfold parcel_size, HPX_CACHELINE_SIZE in *. by rewrite wrap_small by lia. }
  unfold HPX_CACHELINE_SIZE in Hb.
  destruct (padded_spec (parcel_size p)) as [H1 H2]; [rewrite Hp; lia|]. rewrite Hp in *.
  split; [done|]. split; [lia|]. done.
Qed.

Lemma eager_bounds : 64 <= eagerSize < 2 ^ 48 /\ (64 | eagerSize).
Proof.
  destruct eager_pow2 as (k & Hk & ->). split.
  - split; [change 64 with (2 ^ 6); apply Z.pow_le_mono_r; lia|apply Z.pow_lt_mono_r; lia].
  - exists (2 ^ (k - 6)). change 64 with (2 ^ 6). rewrite <- Z.pow_add_r by lia. f_equal. lia.
Qed.

(** The block of an address: the mask rounds it down. *)
Lemma block_of_eq a b : block_ok b -> b <= a < b + eagerSize -> block_of a = b.
Proof.
  intros (Hb & Hm & _) Ha. unfold block_of. destruct eager_pow2 as (k & Hk & HE).
  assert (Hones : eagerSize - 1 = Z.ones k) by (rewrite Z.ones_equiv, HE; lia).
  rewrite Hones, <- Z.ldiff_land, Z.ldiff_ones_r, Z.shiftl_mul_pow2, Z.shiftr_div_pow2, <- HE by lia.
  destruct eager_bounds as [Hbd _]. pose proof (Z.div_mod b eagerSize ltac:(lia)) as Hdb.
  rewrite <- (Z.div_unique_pos a eagerSize (b / eagerSize) (a - b)); lia.
Qed.

Lemma blocks_apart b b' : block_ok b -> block_ok b' -> b <> b' ->
  b + eagerSize <= b' \/ b' + eagerSize <= b.
Proof.
  intros (Hb & Hm & _) (Hb' & Hm' & _) Hne. destruct eager_bounds as [Hbd _].
  pose proof (Z.div_mod b eagerSize ltac:(lia)). pose proof (Z.div_mod b' eagerSize ltac:(lia)).
  destruct (Z.lt_trichotomy (b / eagerSize) (b' / eagerSize)) as [Hlt|[Heq|Hlt]]; nia.
Qed.

(** *** Bytes in a block *)

Lemma bytes_in_cons b a p out :
  bytes_in b ((a, p) :: out) = (if block_of a =? b then bytes_of p else 0) + bytes_in b out.
Proof. done. Qed.

#[local] Instance bytes_in_perm b : Proper ((≡ₚ) ==> (=)) (bytes_in b).
Proof. intros l l' Hp. induction Hp; simpl; lia. Qed.

Lemma bytes_in_nonneg b out : (forall a p, (a, p) ∈ out -> fits p) -> 0 <= bytes_in b out.
Proof.
  induction out as [|[a p] out IH]; intros Hf; simpl; [done|].
  destruct (fits_size p) as (_ & H1 & _); [by apply (Hf a); left|].
  assert (0 <= bytes_in b out) by (apply IH; intros a' p' Hin; apply (Hf a'); by right).
  destruct (_ =? _); lia.
Qed.

Lemma bytes_in_zero b out : (forall a p, (a, p) ∈ out -> fits p) -> bytes_in b out = 0 ->
  forall a p, (a, p) ∈ out -> block_of a <> b.
Proof.
  induction out as [|[a0 p0] out IH]; intros Hf Hz a p Hin; [by apply not_elem_of_nil in Hin|].
  simpl in Hz. destruct (fits_size p0) as (_ & H1 & _); [by apply (Hf a0); left|].
  assert (Hf' : forall a p, (a, p) ∈ out -> fits p) by (intros a' p' Hin'; apply (Hf a'); by right).
  pose proof (bytes_in_nonneg b out Hf').
  destruct (Z.eqb_spec (block_of a0) b); [lia|].
  apply elem_of_cons in Hin as [[= -> ->]|Hin]; [done|]. apply (IH Hf' ltac:(lia) _ _ Hin).
Qed.

Lemma bytes_in_pos a p out : (forall a p, (a, p) ∈ out -> fits p) -> (a, p) ∈ out ->
  0 < bytes_in (block_of a) out.
Proof.
  intros Hf Hin. pose proof (bytes_in_nonneg (block_of a) out Hf).
  destruct (Z.eq_dec (bytes_in (block_of a) out) 0) as [Hz|]; [|lia].
  by destruct (bytes_in_zero (block_of a) out Hf Hz a p Hin).
Qed.

Lemma deallocate_spec (bs : heap) b n r : bs !! b = Some r -> 0 < n <= r -> n < 2 ^ 62 ->
  exists bs', deallocate bs b n = Some bs'
    /\ forall b', bs' !! b' = if decide (b' = b) then (if r - n =? 0 then None else Some (r - n)) else bs !! b'.
Proof.
  intros Hb Hn Hs. unfold deallocate. destruct (Z.ltb_spec 0 n); [|lia].
  assert (Hmax : 2 ^ 62 < SIZE_MAX / 2) by (by vm_compute). destruct (Z.ltb_spec n (SIZE_MAX / 2)); [|lia].
  simpl. rewrite Hb. simpl. destruct (Z.leb_spec n r); [|lia]. eexists. split; [done|].
  intros b'. destruct (decide (b' = b)) as [->|Hne]; destruct (r - n =? 0).
  - apply lookup_delete_eq.
  - apply lookup_insert_eq.
  - by rewrite lookup_delete_ne.
  - by rewrite lookup_insert_ne.
Qed.

(** *** The operations on blocks keep the core *)

Section Core.
Context {e : EagerBlock} {recv : Z} {blocks : heap} {out : list (Z * parcel)}.
Hypothesis c : core e recv blocks out.

Lemma core_fits a p : (a, p) ∈ out -> fits p.
Proof. intros Hin. apply (extent_fits _ _ _ _ (core_extents _ _ _ _ c _ _ Hin)). Qed.

Lemma core_perm out' : out ≡ₚ out' -> core e recv blocks out'.
Proof.
  intros Hp. destruct c as [He Hb Hx Hn Ha]. constructor; [done| | | |].
  - intros b. rewrite (Hb b). unfold owed. by rewrite (bytes_in_perm b _ _ Hp).
  - intros a p. rewrite <- Hp. apply Hx.
  - by rewrite <- Hp.
  - intros a p a' p'. rewrite <- Hp. apply Ha.
Qed.

Lemma core_avail : 0 <= avail e /\ (recv <> 0 -> 0 < avail e) /\ end_ e <= 2 ^ 48 /\ 0 <= next_ e
  /\ next_ e <= end_ e.
Proof.
  unfold avail. destruct (core_eager _ _ _ _ c) as [[-> ->]|((H1 & H2 & H3) & H4 & H5 & H6)]; simpl; [lia|].
  destruct header_size. lia.
Qed.

(** Carving a parcel off the sender's block. *)
Lemma core_put p : fits p -> bytes_of p < avail e ->
  core (mkEagerBlock (end_ e) (next_ e + bytes_of p)) recv blocks ((next_ e, p) :: out).
Proof.
  intros Hf Hav. destruct (fits_size p Hf) as (Hs & Hlo & Hdiv & Hhi).
  destruct core_avail as (Ha0 & Ha1 & Hend & Hn0 & Hne). destruct header_size as [Hh Hh64].
  destruct c as [[[-> ->]|(Hrb & He & Hn64 & Hn)] Hb Hx Hnd Hap]; [unfold avail in Hav; simpl in Hav; lia|].
  unfold avail in *. destruct Hrb as (Hr1 & Hr2 & Hr3).
  assert (Hblk : block_of (next_ e) = recv) by (apply block_of_eq; [done|lia]).
  assert (Hbelow : forall a q, (a, q) ∈ out -> a + bytes_of q <= next_ e \/ next_ e + bytes_of p <= a).
  { intros a q Hin. destruct (Hx a q Hin) as [Hq1 Hq2 Hq3 Hq4 Hq5 Hq6].
    destruct (decide (block_of a = recv)) as [Heq|Hne']; [left; auto|].
    destruct (blocks_apart _ recv Hq3 ltac:(done) Hne'); lia. }
  constructor; simpl.
  - right. split; [done|]. split; [done|]. split; [by apply Z.divide_add_r|lia].
  - intros b. rewrite (Hb b). unfold owed, avail. rewrite bytes_in_cons, Hblk. simpl.
    assert (E : bytes_in b out + (if b =? recv then end_ e - next_ e else 0) =
      (if recv =? b then bytes_of p else 0) + bytes_in b out
      + (if b =? recv then end_ e - (next_ e + bytes_of p) else 0))
      by (rewrite (Z.eqb_sym recv b); destruct (b =? recv); lia).
    by rewrite E.
  - intros a q [[= -> ->]|Hin]%elem_of_cons.
    + constructor; simpl; rewrite ?Hblk; done || lia.
    + destruct (Hx a q Hin) as [Hq1 Hq2 Hq3 Hq4 Hq5 Hq6]. constructor; simpl; try done.
      intros E. specialize (Hq6 E). lia.
  - constructor; [|done]. intros Hin%list_elem_of_In%in_map_iff. destruct Hin as ([a q] & Ha & Hin%list_elem_of_In).
    simpl in Ha. subst a. destruct (fits_size q) as (_ & Hq & _); [by apply (extent_fits _ _ _ _ (Hx _ _ Hin))|].
    destruct (Hbelow _ _ Hin); lia.
  - intros a q a' q' [[= -> ->]|Hin]%elem_of_cons [[= -> ->]|Hin']%elem_of_cons Hlt; [lia| | |by eapply Hap].
    + destruct (fits_size q') as (_ & Hq & _); [by apply (extent_fits _ _ _ _ (Hx _ _ Hin'))|].
      destruct (Hbelow _ _ Hin'); lia.
    + destruct (Hbelow _ _ Hin); lia.
Qed.

Lemma core_nonneg b : 0 <= bytes_in b out.
Proof. apply bytes_in_nonneg. intros a p Hin. by eapply core_fits. Qed.

(** What a block owes, when it owes something. *)
Lemma core_owed b : 0 < owed e recv b out -> blocks !! b = Some (owed e recv b out).
Proof. intros Hb. rewrite (core_blocks _ _ _ _ c b). destruct (Z.eqb_spec (owed e recv b out) 0); [lia|done]. Qed.
End Core.

(** A parcel is deleted: its bytes are given back to its block, which is there. *)
Lemma core_delete e recv blocks a p out : core e recv blocks ((a, p) :: out) ->
  exists blocks', InplaceBlock_DeleteParcel blocks a (parcel_size p) = Some blocks'
    /\ core e recv blocks' out.
Proof.
  intros c. destruct (core_extents _ _ _ _ c a p (list_elem_of_here _ _)) as [Hf _ Hbk _ Hhi _].
  destruct (fits_size p Hf) as (Hs & Hlo & _ & Hmax). destruct eager_bounds as [Hbd _].
  assert (Hfits : forall a' p', (a', p') ∈ out -> fits p')
    by (intros a' p' Hin; apply (core_fits c a'); by right).
  pose proof (bytes_in_nonneg (block_of a) out Hfits) as Hnn.
  destruct (core_avail c) as (Hav & _). destruct header_size as [Hh _].
  assert (Howed : forall b, owed e recv b ((a, p) :: out) =
            (if block_of a =? b then bytes_of p else 0) + owed e recv b out).
  { intros b. unfold owed. rewrite bytes_in_cons. lia. }
  assert (Hpos : 0 <= owed e recv (block_of a) out).
  { unfold owed. destruct (block_of a =? recv); lia. }
  pose proof (core_owed c (block_of a)) as Hbl. rewrite Howed, Z.eqb_refl in Hbl.
  destruct (deallocate_spec blocks (block_of a) (bytes_of p) _ (Hbl ltac:(lia))) as (bs & Hd & Hl); [lia|lia|].
  exists bs. split; [done|]. constructor.
  - apply (core_eager _ _ _ _ c).
  - intros b. rewrite Hl. rewrite (core_blocks _ _ _ _ c b), Howed.
    replace (bytes_of p + owed e recv (block_of a) out - bytes_of p) with (owed e recv (block_of a) out) by lia.
    destruct (decide (b = block_of a)) as [->|Hne]; [done|].
    destruct (Z.eqb_spec (block_of a) b); [congruence|]. by rewrite Z.add_0_l.
  - intros a' p' Hin. apply (core_extents _ _ _ _ c). by right.
  - pose proof (core_nodup _ _ _ _ c) as Hnd. by apply NoDup_cons in Hnd as [_ Hnd].
  - intros a1 p1 a2 p2 H1 H2 Hlt.
    apply (core_apart _ _ _ _ c a1 p1 a2 p2); [by right|by right|done].
Qed.

(** A reload: the rest of the current block is given back, and the sender goes on with the
    new block. *)
Lemma core_reload e recv blocks out block : core e recv blocks out ->
  exists blocks', (if nz recv && nz (avail e) then deallocate blocks recv (avail e) else Some blocks) = Some blocks'
    /\ (blocks !! block = None -> blocks' !! block = None)
    /\ (alloc_ok blocks' block = true -> exists blocks'', InplaceBlock_new blocks' block = Some blocks''
        /\ core (InplaceBlock_header block) block blocks'' out).
Proof.
  intros c. destruct eager_bounds as [Hbd H64]. destruct (core_avail c) as (Hav & Hav1 & Hend & Hn0 & Hne).
  destruct header_size as [Hh Hh64]. pose proof (core_nonneg c recv) as Hnn.
  assert (Hback : exists bs, (if nz recv && nz (avail e) then deallocate blocks recv (avail e) else Some blocks) = Some bs
    /\ forall b, bs !! b = if bytes_in b out =? 0 then None else Some (bytes_in b out)).
  { unfold nz. destruct (Z.eqb_spec recv 0) as [E0|Hr0]; simpl.
    - exists blocks. split; [done|]. intros b. rewrite (core_blocks _ _ _ _ c b). unfold owed.
      assert (E : (if b =? recv then avail e else 0) = 0).
      { destruct (core_eager _ _ _ _ c) as [[_ ->]|((? & _) & _)]; [by destruct (b =? recv)|lia]. }
      by rewrite E, Z.add_0_r.
    - specialize (Hav1 Hr0). destruct (Z.eqb_spec (avail e) 0); [lia|]. simpl.
      assert (Ho : owed e recv recv out = bytes_in recv out + avail e) by (unfold owed; by rewrite Z.eqb_refl).
      pose proof (core_owed c recv ltac:(lia)) as Hbl. rewrite Ho in Hbl.
      destruct (deallocate_spec blocks recv (avail e) _ Hbl) as (bs & Hd & Hl); [lia|unfold avail; lia|].
      exists bs. split; [done|]. intros b. rewrite Hl.
      replace (bytes_in recv out + avail e - avail e) with (bytes_in recv out) by lia.
      destruct (decide (b = recv)) as [->|Hneq]; [done|]. rewrite (core_blocks _ _ _ _ c b). unfold owed.
      destruct (Z.eqb_spec b recv); [done|]. by rewrite Z.add_0_r. }
  destruct Hback as (bs & Hd & Hl). exists bs. split; [done|]. split.
  { intros Hnone. rewrite Hl. rewrite (core_blocks _ _ _ _ c block) in Hnone. unfold owed in Hnone.
    pose proof (core_nonneg c block).
    destruct (Z.eqb_spec (bytes_in block out) 0); [done|].
    destruct (Z.eqb_spec (bytes_in block out + (if block =? recv then avail e else 0)) 0) as [Hz|]; [|done].
    destruct (block =? recv); lia. }
  intros Hok. unfold InplaceBlock_new. rewrite Hok. eexists. split; [done|].
  unfold alloc_ok in Hok. rewrite !andb_true_iff in Hok. destruct Hok as [[[Hb0 Hbm] Hb48] Hbn].
  apply Z.ltb_lt in Hb0. apply Z.eqb_eq in Hbm. apply Z.leb_le in Hb48.
  assert (Hbok : block_ok block) by done.
  assert (Hz : bytes_in block out = 0).
  { rewrite Hl in Hbn. by destruct (Z.eqb_spec (bytes_in block out) 0). }
  constructor; simpl.
  - right. split; [done|]. split; [lia|]. split; [|lia]. apply Z.divide_add_r; [|done].
    destruct H64 as [q Hq]. pose proof (Z.div_mod block eagerSize ltac:(lia)) as Hdm. rewrite Hbm, Z.add_0_r in Hdm.
    exists (q * (block / eagerSize)). rewrite Hdm at 1. rewrite Hq at 1. lia.
  - intros b. unfold owed, avail; simpl. destruct (decide (b = block)) as [->|Hneq].
    + rewrite lookup_insert_eq, Z.eqb_refl, Hz.
      destruct (Z.eqb_spec (0 + (block + sizeof_InplaceBlock + (eagerSize - sizeof_InplaceBlock)
        - (block + sizeof_InplaceBlock))) 0); [lia|]. f_equal. lia.
    + rewrite lookup_insert_ne by done. rewrite Hl. destruct (Z.eqb_spec b block); [done|].
      by rewrite Z.add_0_r.
  - intros a p Hin. destruct (core_extents _ _ _ _ c a p Hin) as [H1 H2 H3 H4 H5 H6].
    constructor; try done. intros E. exfalso.
    apply (bytes_in_zero block out ltac:(intros; by eapply (core_fits c)) Hz a p Hin E).
  - apply (core_nodup _ _ _ _ c).
  - apply (core_apart _ _ _ _ c).
Qed.

(** ** The sender *)

Definition put_op (d : Z) (p : parcel) : Op :=
  mkOp d (ParcelData p) (DeleteParcel (addr p)) (RecvParcel d).

Definition request (n : Z) : Op := mkOp 0 NoData Nop (ReloadRequest n).

(** The puts of the parcels [placed], and the request when some parcel did not fit. *)
Definition puts (placed : list (Z * parcel)) : list Op := map (fun x => put_op x.1 x.2) placed.

Definition asks (e : EagerBlock) (left : list parcel) : list Op :=
  match left with [] => [] | _ => [request (avail e)] end.

Lemma start_spec e recv blocks out ops p : core e recv blocks out -> fits p ->
  start (e, ops) p =
    if bytes_of p <? avail e
    then Some ((mkEagerBlock (end_ e) (next_ e + bytes_of p), ops ++ [put_op (next_ e) p]), LIBHPX_OK)
    else Some ((e, ops ++ [request (avail e)]), LIBHPX_RETRY).
Proof.
  intros c Hf. destruct (fits_size p Hf) as (Hs & Hlo & _ & Hmax). destruct eager_bounds as [Hbd _].
  destruct (core_avail c) as (Hav & _ & Hend & Hn0 & Hne). destruct header_size as [Hh _].
  pose proof Hf as (_ & Hp0 & Hp1 & _). unfold HPX_CACHELINE_SIZE in Hp1.
  destruct (padded_spec (parcel_size p)) as [Hpad _]; [rewrite Hs; lia|].
  unfold start, put, allocate. fold (avail e).
  destruct (Z.leb_spec (parcel_size p) (bytes_of p)); [|lia]. destruct (Z.leb_spec (next_ e) (end_ e)); [|lia].
  simpl. rewrite (wrap_small 64 (avail e)) by (unfold avail in *; lia).
  destruct (Z.leb_spec (avail e) (bytes_of p)), (Z.ltb_spec (bytes_of p) (avail e)); try lia; simpl; [done|].
  by rewrite wrap_small by (unfold avail in *; lia).
Qed.

#[local] Arguments start : simpl never.

(** Sending a list of parcels: those that fit are put, and the first that does not asks for
    a new block. *)
Lemma drain_start recv blocks l : forall e out ops, core e recv blocks out -> Forall fits l ->
  exists e' placed left,
    drain start (e, ops) l = Some ((e', ops ++ puts placed ++ asks e' left), left, Z.of_nat (length left))
    /\ l = map snd placed ++ left /\ core e' recv blocks (placed ++ out)
    /\ (match l with p :: _ => bytes_of p < avail e -> placed <> [] | [] => True end)
    /\ (placed = [] -> e' = e).
Proof.
  induction l as [|p l IH]; intros e out ops c Hf.
  { exists e, [], []. simpl. by rewrite app_nil_r. }
  apply Forall_cons in Hf as [Hp Hf]. simpl. rewrite (start_spec _ _ _ _ _ _ c Hp).
  destruct (Z.ltb_spec (bytes_of p) (avail e)) as [Hlt|Hge]; simpl.
  - destruct (IH _ _ (ops ++ [put_op (next_ e) p]) (core_put c p Hp Hlt) Hf)
      as (e' & placed & left & Hd & Hl & c' & _ & _).
    exists e', ((next_ e, p) :: placed), left. rewrite Hd. split; [by rewrite <- app_assoc|].
    split; [by rewrite Hl|]. split; [|done]. apply (core_perm c').
    symmetry. apply Permutation_middle.
  - exists e, [], (p :: l). split; [done|]. split; [done|]. split; [done|]. split; [lia|done].
Qed.

(** ** The network *)

(** The parcels being put, the reloads asked for, and the parcels at the receiver. *)
Definition in_flight (ops : list Op) : list (Z * parcel) :=
  omap (fun op => match data op with ParcelData p => Some (dest op, p) | _ => None end) ops.

Definition requests (ops : list Op) : list Z :=
  omap (fun op => match data op with NoData => Some (arg_ (rop op)) | _ => None end) ops.

Definition held (mem : gmap Z parcel) (received : list Z) : list (Z * parcel) :=
  omap (fun a => p ← mem !! a; Some (a, p)) received.

Definition outstanding (y : net) : list (Z * parcel) :=
  in_flight (to_dst y) ++ held (mem y) (received y).

Definition deletes (cs : list Command) : list Z :=
  omap (fun c => if op_ c =? DELETE_PARCEL then Some (arg_ c) else None) cs.

Definition replies (cs : list Command) : list Command := filter (fun c => op_ c = RELOAD_REPLY) cs.

Definition op_ok (op : Op) : Prop :=
  (exists d p, op = put_op d p) \/ (exists n, n ∈u 48 /\ op = request n).

Definition completion_ok (c : Command) : Prop :=
  c = ReloadReply \/ exists p, p ∈u 48 /\ c = DeleteParcel p.

(** How far a reload is: none, the request is on its way, the header is, or it has been
    written and the sender is to be told. *)
Inductive stage := Idle | Requested | Landing | Replied.

Definition eager_of (y : net) (st : stage) : EagerBlock :=
  match st with
  | Landing => InplaceBlock_header (recv_ (dst y))
  | _ => sendEager_ (src y)
  end.

Abbreviation buffered y := (fifo_list (sendBuffer_ (src y))).

Definition header_op (block : Z) : Op :=
  mkOp 0 (HeaderData (InplaceBlock_header block)) Nop ReloadReply.

Definition stage_ok (y : net) (st : stage) : Prop :=
  requests (to_dst y) = (match st with Requested => [avail (sendEager_ (src y))] | _ => [] end)
  /\ to_src y = (match st with Landing => [header_op (recv_ (dst y))] | _ => [] end)
  /\ replies (completed y) = (match st with Replied => [ReloadReply] | _ => [] end)
  /\ match st with
     | Idle => buffered y = []
     | Replied => buffered y <> []
                  /\ sendEager_ (src y) = InplaceBlock_header (recv_ (dst y))
     | _ => buffered y <> []
     end.

Record net_inv (y : net) (st : stage) : Prop := {
  net_core : core (eager_of y st) (recv_ (dst y)) (blocks y) (outstanding y);
  net_stage : stage_ok y st;
  net_ops : Forall op_ok (to_dst y);
  net_completed : Forall completion_ok (completed y);
  net_mem : Forall (fun a => is_Some (mem y !! a)) (received y);
  net_fifo : fifo_ok (sendBuffer_ (src y));
  net_pushes : fifo_pushes (sendBuffer_ (src y)) <= Z.of_nat (length (sent y));
  net_fits : Forall fits (sent y);
  net_sent : sent y ≡ₚ delivered y ++ map snd (in_flight (to_dst y)) ++ buffered y;
  net_released : released y ++ deletes (completed y) ≡ₚ
    map addr (delivered y ++ map snd (in_flight (to_dst y)));
}.

(** *** Operations and completions *)

#[local] Instance in_flight_perm : Proper ((≡ₚ) ==> (≡ₚ)) in_flight.
Proof. intros l l' Hp. unfold in_flight. by rewrite Hp. Qed.

#[local] Instance requests_perm : Proper ((≡ₚ) ==> (≡ₚ)) requests.
Proof. intros l l' Hp. unfold requests. by rewrite Hp. Qed.

#[local] Instance deletes_perm : Proper ((≡ₚ) ==> (≡ₚ)) deletes.
Proof. intros l l' Hp. unfold deletes. by rewrite Hp. Qed.

#[local] Instance replies_perm : Proper ((≡ₚ) ==> (≡ₚ)) replies.
Proof. intros l l' Hp. unfold replies. by rewrite Hp. Qed.

Lemma in_flight_app l k : in_flight (l ++ k) = in_flight l ++ in_flight k.
Proof. apply omap_app. Qed.

Lemma requests_app l k : requests (l ++ k) = requests l ++ requests k.
Proof. apply omap_app. Qed.

Lemma deletes_app l k : deletes (l ++ k) = deletes l ++ deletes k.
Proof. apply omap_app. Qed.

Lemma replies_app l k : replies (l ++ k) = replies l ++ replies k.
Proof. apply filter_app. Qed.

(** What the operations of a send are, as the sender has them. *)
Lemma in_flight_puts placed e left : in_flight (puts placed ++ asks e left) = placed.
Proof.
  rewrite in_flight_app. assert (E : in_flight (asks e left) = []) by (by destruct left).
  rewrite E, app_nil_r. induction placed as [|[d p] placed IH]; [done|]. simpl. by f_equal.
Qed.

Lemma in_flight_emit l placed e left :
  in_flight (l ++ puts placed ++ asks e left) = in_flight l ++ placed.
Proof. by rewrite in_flight_app, in_flight_puts. Qed.

Lemma requests_puts placed e left :
  requests (puts placed ++ asks e left) = match left with [] => [] | _ => [wrap 48 (avail e)] end.
Proof.
  rewrite requests_app. assert (E : requests (puts placed) = []).
  { induction placed as [|[d p] placed IH]; [done|]. by simpl. }
  rewrite E. by destruct left.
Qed.

Lemma completions_puts placed e left :
  local_completions (puts placed ++ asks e left) = map (fun x => DeleteParcel (addr x.2)) placed.
Proof.
  unfold local_completions. rewrite map_app, filter_app.
  assert (E : filter (fun c => nonempty c = true) (map lop (asks e left)) = []) by (by destruct left).
  rewrite E, app_nil_r. induction placed as [|[d p] placed IH]; [done|]. simpl.
  rewrite filter_cons_True by done. by f_equal.
Qed.

Lemma deletes_puts (placed : list (Z * parcel)) : Forall (fun x => fits x.2) placed ->
  deletes (map (fun x => DeleteParcel (addr x.2)) placed) = map addr (map snd placed).
Proof.
  induction 1 as [|[d p] placed (Ha & _) _ IH]; [done|]. simpl in *. f_equal; [|done].
  by apply wrap_small.
Qed.

Lemma replies_puts (placed : list (Z * parcel)) :
  replies (map (fun x => DeleteParcel (addr x.2)) placed) = [].
Proof.
  induction placed as [|[d p] placed IH]; [done|]. simpl. unfold replies. by rewrite filter_cons_False.
Qed.

Lemma ops_ok_puts placed e left : avail e ∈u 48 -> Forall op_ok (puts placed ++ asks e left).
Proof.
  intros Ha. apply Forall_app. split.
  - induction placed as [|[d p] placed IH]; constructor; [|done]. left. by eexists _, _.
  - destruct left; constructor; [|done]. right. by eexists.
Qed.

Lemma completions_ok_puts (placed : list (Z * parcel)) : Forall (fun x => fits x.2) placed ->
  Forall completion_ok (map (fun x => DeleteParcel (addr x.2)) placed).
Proof.
  induction 1 as [|[d p] placed (Ha & _) _ IH]; constructor; [|done]. right. by eexists.
Qed.

(** The commands that travel. *)
Lemma run_recv d : d ∈u 48 -> run_packed (RecvParcel d) = Some (Receive d).
Proof.
  intros Hd. unfold run_packed, RecvParcel. rewrite unpack_pack by auto with hpx. unfold run_command; simpl.
  by rewrite wrap_small.
Qed.

Lemma run_request n : n ∈u 48 -> run_packed (ReloadRequest n) = Some (Reload n).
Proof.
  intros Hd. unfold run_packed, ReloadRequest. rewrite unpack_pack by auto with hpx. unfold run_command; simpl.
  by rewrite wrap_small.
Qed.

Lemma run_delete p : p ∈u 48 -> run_packed (DeleteParcel p) = Some (Delete p).
Proof.
  intros Hd. unfold run_packed, DeleteParcel. rewrite unpack_pack by auto with hpx. unfold run_command; simpl.
  by rewrite wrap_small.
Qed.

Lemma run_reply : run_packed ReloadReply = Some Progress.
Proof. done. Qed.

(** *** The steps of the sender *)

Lemma core_avail48 e recv bs out : core e recv bs out -> avail e ∈u 48.
Proof.
  intros c. destruct (core_avail c) as (H1 & _ & H3 & H4 & _). unfold avail in *.
  split; [done|]. destruct (core_eager _ _ _ _ c) as [[_ ->]|(_ & _ & _ & Hn)]; [done|].
  destruct header_size as [Hh _]. destruct (core_eager _ _ _ _ c) as [[_ ->]|((Hr & _) & _)]; [done|]. lia.
Qed.

(** The sender puts the parcels [placed], keeps [left] and asks for a block for them. *)
Lemma emit_inv y e placed left q cs snt :
  core e (recv_ (dst y)) (blocks y) (placed ++ outstanding y) ->
  requests (to_dst y) = [] -> to_src y = [] -> replies cs = [] ->
  Forall op_ok (to_dst y) -> Forall completion_ok cs ->
  Forall (fun a => is_Some (mem y !! a)) (received y) ->
  fifo_ok q -> fifo_list q = left -> fifo_pushes q <= Z.of_nat (length snt) -> Forall fits snt ->
  snt ≡ₚ delivered y ++ map snd (in_flight (to_dst y)) ++ map snd placed ++ left ->
  released y ++ deletes cs ≡ₚ map addr (delivered y ++ map snd (in_flight (to_dst y))) ->
  let ops := puts placed ++ asks e left in
  net_inv (mkNet (mkPeer e q (recv_ (src y))) (dst y) (blocks y) (mem y) (to_dst y ++ ops) (to_src y)
             (cs ++ local_completions ops) (received y) snt (delivered y) (released y))
    (match left with [] => Idle | _ => Requested end).
Proof.
  intros c Hrq Hts Hrp Hops Hcs Hmem Hq Hl Hpush Hfits Hsent Hrel ops.
  pose proof (core_avail48 _ _ _ _ c) as Hav.
  assert (Hpf : Forall (fun x => fits x.2) placed).
  { apply Forall_forall. intros [d p] Hin. apply (core_fits c d). apply elem_of_app. by left. }
  unfold ops. constructor; simpl; rewrite ?in_flight_emit, ?completions_puts; try done.
  - assert (He : forall y', sendEager_ (src y') = e ->
              eager_of y' (match left with [] => Idle | _ => Requested end) = e)
      by (intros y' <-; by destruct left).
    rewrite He by done. apply (core_perm c). unfold outstanding; simpl.
    rewrite in_flight_emit. solve_Permutation.
  - unfold stage_ok; simpl. rewrite requests_app, requests_puts, Hrq, Hts, replies_app, Hrp, replies_puts.
    destruct left; simpl; rewrite ?wrap_small by done; by rewrite Hl.
  - apply Forall_app. split; [done|by apply ops_ok_puts].
  - apply Forall_app. split; [done|by apply completions_ok_puts].
  - rewrite Hl, map_app, Hsent. by rewrite <- !app_assoc.
  - rewrite deletes_app, deletes_puts, map_app, app_assoc, Hrel by done. rewrite !map_app. solve_Permutation.
Qed.

(** What is left to do: a parcel that is buffered has to be put, delivered, deleted, and
    deleted at the sender, and may need a reload. *)
Definition measure (y : net) : Z :=
  6 * Z.of_nat (length (buffered y)) + 2 * Z.of_nat (length (in_flight (to_dst y)))
  + 3 * Z.of_nat (length (requests (to_dst y))) + 2 * Z.of_nat (length (to_src y))
  + Z.of_nat (length (completed y)) + Z.of_nat (length (received y)).

(** Room for one more parcel in the sender's buffer. *)
Definition roomy (y : net) : Prop :=
  Z.of_nat (length (buffered y)) + 1 < fifo_limit /\ Z.of_nat (length (sent y)) + 1 < 2 ^ 64.

Lemma send_step y st p : net_inv y st -> fits p -> roomy y ->
  exists y' st', step y (Send p) = Some y' /\ net_inv y' st' /\ sent y' = sent y ++ [p]
    /\ measure y' <= measure y + 9.
Proof.
  intros i Hf [Hroom1 Hroom2]. pose proof (net_pushes _ _ i) as Hpu.
  simpl. unfold send. rewrite (fifo_size_spec _ (net_fifo _ _ i)). simpl.
  destruct (fifo_push_spec _ p (net_fifo _ _ i) ltac:(lia) ltac:(lia)) as (q & Hq & Hqok & Hql & Hqp).
  destruct (decide (buffered y = [])) as [Hnil|Hne].
  - assert (st = Idle) as ->. { destruct (net_stage _ _ i) as (_ & _ & _ & Hs). destruct st; try done; by destruct Hs. }
    destruct (net_stage _ _ i) as (Hrq & Hts & Hrp & _). pose proof (net_core _ _ i) as c. simpl in c.
    rewrite Hnil. simpl. rewrite (start_spec _ _ _ _ _ _ c Hf).
    assert (Hfs : Forall fits (sent y ++ [p])) by (apply Forall_app; split; [apply (net_fits _ _ i)|by apply Forall_singleton]).
    destruct (Z.ltb_spec (bytes_of p) (avail (sendEager_ (src y)))) as [Hlt|Hge]; simpl.
    + eexists _, _. split; [done|]. split; [|split; [done|]]; cycle 1.
      { unfold measure; simpl. rewrite Hnil, in_flight_app, requests_app, !length_app. simpl. lia. }
      apply (emit_inv y _ [(next_ (sendEager_ (src y)), p)] [] _ (completed y) (sent y ++ [p]));
        try apply i; try done.
      * by apply core_put.
      * rewrite length_app; simpl; lia.
      * rewrite (net_sent _ _ i), Hnil. simpl. solve_Permutation.
    + rewrite Hq. simpl. eexists _, _. split; [done|]. split; [|split; [done|]]; cycle 1.
      { unfold measure; simpl. rewrite Hql, Hnil, in_flight_app, requests_app, !length_app. simpl. lia. }
      apply (emit_inv y _ [] [p] q (completed y) (sent y ++ [p])); try apply i; try done.
      * by rewrite Hql, Hnil.
      * rewrite length_app; simpl; lia.
      * rewrite (net_sent _ _ i), Hnil. simpl. solve_Permutation.
  - assert (Hnz : nz (Z.of_nat (length (buffered y))) = true).
    { unfold nz. destruct (buffered y); [done|]. apply negb_true_iff, Z.eqb_neq. simpl. lia. }
    rewrite Hnz, Hq. simpl. eexists _, st. split; [done|]. split; [|split; [done|]]; cycle 1.
    { unfold measure; simpl. rewrite Hql, !app_nil_r, length_app. simpl. lia. }
    destruct i as [c (Hrq & Hts & Hrp & Hst) Hops Hcs Hmem Hok Hpush Hfits Hsent Hrel].
    constructor; simpl; rewrite ?app_nil_r; try done.
    + unfold stage_ok; simpl. rewrite ?app_nil_r, Hql. split; [by destruct st|]. split; [done|]. split; [done|].
      assert (Hcons : buffered y ++ [p] <> []) by (by destruct (buffered y)).
      destruct st; [done|done|done|by destruct Hst].
    + rewrite Hqp, length_app. simpl. lia.
    + apply Forall_app. split; [done|by apply Forall_singleton].
    + rewrite Hql, Hsent. solve_Permutation.
Qed.

Lemma perm_one {A} (x : A) l k : l ≡ₚ x :: k -> l = [] \/ (exists z, l = [z]) -> l = [x] /\ k = [].
Proof.
  intros Hp [->|[z ->]].
  - by apply Permutation_nil_cons in Hp.
  - apply Permutation_singleton_l in Hp. injection Hp as -> ->. done.
Qed.

#[local] Arguments run_packed : simpl never.

(** The reply: the sender goes through its buffer with the new block, which holds the first
    parcel at least. *)
Lemma reply_step y st i : net_inv y st -> completed y !! i = Some ReloadReply ->
  exists y' st', step y (Complete i) = Some y' /\ net_inv y' st' /\ sent y' = sent y
    /\ measure y' < measure y.
Proof.
  intros I Hi. pose proof (delete_Permutation _ _ _ Hi) as Hperm.
  assert (Hone : replies (completed y) ≡ₚ ReloadReply :: replies (delete i (completed y)))
    by (by rewrite Hperm at 1).
  destruct (net_stage _ _ I) as (Hrq & Hts & Hrp & Hst).
  apply perm_one in Hone as [E Hrp'].
  2: { rewrite Hrp. destruct st; [by left..|right; by eexists]. }
  destruct st; [by rewrite Hrp in E..|]. destruct Hst as [Hne Heq].
  pose proof (net_core _ _ I) as c. simpl in c.
  assert (Hfb : Forall fits (buffered y)).
  { pose proof (net_fits _ _ I) as Hf. rewrite (net_sent _ _ I) in Hf.
    apply Forall_app in Hf as [_ Hf]. by apply Forall_app in Hf as [_ Hf]. }
  destruct (drain_start _ _ (buffered y) _ _ [] c Hfb) as (e' & placed & left & Hd & Hl & c' & Hpl & _).
  destruct (fifo_progress_spec _ _ _ _ _ _ _ (net_fifo _ _ I) Hd) as (q' & Hq & Hqok & Hql & Hqp).
  assert (Hplaced : placed <> []).
  { destruct (buffered y) as [|p0 l0]; [done|]. apply Hpl. apply Forall_cons in Hfb as [Hf0 _].
    destruct (fits_size p0 Hf0) as (_ & _ & _ & Hlt). rewrite Heq. unfold avail, InplaceBlock_header; simpl. lia. }
  unfold step. rewrite Hi. cbn [mbind option_bind]. rewrite run_reply. unfold progress. rewrite Hq.
  cbn [mbind option_bind].
  destruct (Z.ltb_spec (Z.of_nat (length left)) 0); [lia|].
  eexists _, _. split; [done|]. split; [|split; [done|]].
  - apply (emit_inv y e' placed left q' (delete i (completed y)) (sent y)); try apply I; try done.
    + pose proof (net_completed _ _ I) as Hcs. rewrite Hperm in Hcs. by apply Forall_cons in Hcs as [_ Hcs].
    + rewrite Hqp. apply I.
    + rewrite (net_sent _ _ I), Hl. done.
    + rewrite <- (net_released _ _ I). f_equiv. rewrite Hperm at 2. done.
  - unfold measure; simpl. rewrite in_flight_emit, completions_puts, requests_app, requests_puts, Hrq, Hql.
    apply (f_equal length) in Hl. rewrite length_app, length_map in Hl.
    apply Permutation_length in Hperm. simpl in Hperm. rewrite !length_app, length_map.
    destruct placed as [|x placed]; [done|]. simpl in *. destruct left; simpl in *; lia.
Qed.

Lemma release_step y st i p : net_inv y st -> completed y !! i = Some (DeleteParcel p) -> p ∈u 48 ->
  exists y' st', step y (Complete i) = Some y' /\ net_inv y' st' /\ sent y' = sent y
    /\ measure y' < measure y.
Proof.
  intros [c (Hrq & Hts & Hrp & Hst) Hops Hcs Hmem Hok Hpush Hfits Hsent Hrel] Hi Hp.
  pose proof (delete_Permutation _ _ _ Hi) as Hperm. unfold step. rewrite Hi. cbn [mbind option_bind].
  rewrite (run_delete p Hp). eexists _, st. split; [done|]. split; [|split; [done|]].
  - assert (Hrp' : replies (completed y) ≡ₚ replies (delete i (completed y))) by (by rewrite Hperm at 1).
    assert (Hdel : deletes (completed y) ≡ₚ p :: deletes (delete i (completed y))).
    { rewrite Hperm at 1. simpl. by rewrite wrap_small. }
    constructor; simpl; try done.
    + split; [done|]. split; [done|]. split; [|done]. simpl. rewrite Hrp in Hrp'. symmetry in Hrp'.
      destruct st; [by apply Permutation_nil_r in Hrp'..|by apply Permutation_singleton_r in Hrp'].
    + rewrite Hperm in Hcs. by apply Forall_cons in Hcs as [_ Hcs].
    + rewrite <- Hrel, Hdel. solve_Permutation.
  - unfold measure; simpl. apply Permutation_length in Hperm. simpl in Hperm. lia.
Qed.

(** *** The steps of the receiver *)

Lemma held_insert m d p l : d ∉ l -> held (<[d := p]> m) (l ++ [d]) = held m l ++ [(d, p)].
Proof.
  intros Hd. unfold held. rewrite omap_app. f_equal.
  - apply list_omap_ext, Forall_Forall2_diag, Forall_forall. intros a Ha.
    rewrite lookup_insert_ne; [done|]. by intros ->.
  - simpl. by rewrite lookup_insert_eq.
Qed.

Lemma held_delete m d l : d ∉ l -> held (delete d m) l = held m l.
Proof.
  intros Hd. apply list_omap_ext, Forall_Forall2_diag, Forall_forall. intros a Ha.
  rewrite lookup_delete_ne; [done|]. by intros ->.
Qed.

Lemma held_fst m l : Forall (fun a => is_Some (m !! a)) l -> map fst (held m l) = l.
Proof.
  induction 1 as [|a l [p Hp] Hl IH]; [done|]. unfold held. simpl. rewrite Hp. simpl. f_equal. apply IH.
Qed.

(** A parcel arrives. *)
Lemma deliver_step y st i b d p : net_inv y st -> to_dst y !! i = Some (put_op d p) ->
  exists y' st', step y (Deliver i b) = Some y' /\ net_inv y' st' /\ sent y' = sent y
    /\ measure y' < measure y.
Proof.
  intros [c (Hrq & Hts & Hrp & Hst) Hops Hcs Hmem Hok Hpush Hfits Hsent Hrel] Hi.
  pose proof (delete_Permutation _ _ _ Hi) as Hperm.
  assert (Hfl : in_flight (to_dst y) ≡ₚ (d, p) :: in_flight (delete i (to_dst y))) by (by rewrite Hperm at 1).
  assert (Hrq' : requests (delete i (to_dst y)) = requests (to_dst y)).
  { assert (Hp : requests (to_dst y) ≡ₚ requests (delete i (to_dst y))) by (by rewrite Hperm at 1).
    rewrite Hrq in *. symmetry in Hp.
    destruct st; [by apply Permutation_nil_r in Hp|by apply Permutation_singleton_r in Hp|
      by apply Permutation_nil_r in Hp..]. }
  assert (Hout : outstanding y ≡ₚ (d, p) :: in_flight (delete i (to_dst y)) ++ held (mem y) (received y)).
  { unfold outstanding. by rewrite Hfl. }
  pose proof (core_perm c _ Hout) as c'.
  destruct (core_extents _ _ _ _ c' d p (list_elem_of_here _ _)) as [Hf _ (Hb0 & _ & Hb48) Hlow Hhigh _].
  destruct (fits_size p Hf) as (_ & Hlo & _). destruct header_size as [Hh _].
  assert (Hd : d ∉ received y).
  { pose proof (core_nodup _ _ _ _ c') as Hnd. simpl in Hnd. apply NoDup_cons in Hnd as [Hnd _].
    rewrite map_app, (held_fst _ _ Hmem) in Hnd. intros Hin. apply Hnd, elem_of_app. by right. }
  unfold step. rewrite Hi. cbn [mbind option_bind]. unfold deliver. simpl data. simpl rop. simpl dest.
  rewrite run_recv by lia. cbn [mem]. rewrite lookup_insert_eq. cbn [mbind option_bind].
  eexists _, st. split; [done|]. split; [|split; [done|]].
  - constructor; simpl; try done.
    + unfold outstanding; simpl. rewrite held_insert by done.
      assert (Hpm : (d, p) :: in_flight (delete i (to_dst y)) ++ held (mem y) (received y) ≡ₚ
        in_flight (delete i (to_dst y)) ++ held (mem y) (received y) ++ [(d, p)]) by solve_Permutation.
      destruct st; exact (core_perm c' _ Hpm).
    + split; [simpl; by rewrite Hrq'|done].
    + rewrite Hperm in Hops. by apply Forall_cons in Hops as [_ Hops].
    + apply Forall_app. split.
      * apply Forall_forall. intros a Ha. rewrite lookup_insert_ne by (by intros ->).
        by apply (proj1 (Forall_forall _ _) Hmem).
      * apply Forall_singleton. rewrite lookup_insert_eq. by eexists.
    + rewrite Hsent, Hfl. simpl. solve_Permutation.
    + rewrite Hrel, Hfl. simpl. rewrite !map_app. simpl. solve_Permutation.
  - unfold measure; simpl. rewrite Hrq'. apply Permutation_length in Hfl. simpl in Hfl.
    rewrite length_app. simpl. lia.
Qed.

(** A request arrives: the receiver gives the sender a new block.  Memory that was free
    before is what the allocator may return. *)
Definition fresh_block (y : net) (b : Z) : Prop := block_ok b /\ blocks y !! b = None.

Lemma reload_step y st i b n : net_inv y st -> to_dst y !! i = Some (request n) -> n ∈u 48 ->
  (exists y' st', step y (Deliver i b) = Some y' /\ net_inv y' st' /\ sent y' = sent y
    /\ measure y' < measure y)
  \/ (step y (Deliver i b) = None /\ ~ fresh_block y b).
Proof.
  intros [c (Hrq & Hts & Hrp & Hst) Hops Hcs Hmem Hok Hpush Hfits Hsent Hrel] Hi Hn.
  pose proof (delete_Permutation _ _ _ Hi) as Hperm.
  assert (Hone : requests (to_dst y) ≡ₚ n :: requests (delete i (to_dst y))).
  { rewrite Hperm at 1. simpl. by rewrite wrap_small. }
  apply perm_one in Hone as [E Hrq'].
  2: { rewrite Hrq. destruct st; [by left|right; by eexists|by left..]. }
  rewrite E in Hrq. destruct st; try done. injection Hrq as ->. simpl in c.
  assert (Hfl : in_flight (to_dst y) ≡ₚ in_flight (delete i (to_dst y))) by (by rewrite Hperm at 1).
  assert (Hout : outstanding y ≡ₚ in_flight (delete i (to_dst y)) ++ held (mem y) (received y)).
  { unfold outstanding. by rewrite Hfl. }
  destruct (core_reload _ _ _ _ b (core_perm c _ Hout)) as (bs & Hd & Hnone & Hnew).
  unfold step. rewrite Hi. cbn [mbind option_bind]. unfold deliver. simpl data. simpl rop.
  rewrite run_request by done. unfold reload. cbn [dst blocks]. rewrite Hd. cbn [mbind option_bind].
  destruct (alloc_ok bs b) eqn:Halloc; [left|right].
  2: { unfold InplaceBlock_new. rewrite Halloc. split; [done|]. intros [(Hb0 & Hbm & Hb48) Hbn].
       unfold alloc_ok in Halloc. rewrite (Hnone Hbn), (proj2 (Z.ltb_lt _ _) Hb0),
         (proj2 (Z.eqb_eq _ _) Hbm), (proj2 (Z.leb_le _ _) Hb48) in Halloc. done. }
  destruct (Hnew eq_refl) as (bs' & -> & c'). cbn [mbind option_bind].
  eexists _, Landing. split; [done|]. split; [|split; [done|]].
  - constructor; simpl; try done.
    + split; [done|]. simpl. by rewrite Hts.
    + rewrite Hperm in Hops. by apply Forall_cons in Hops as [_ Hops].
    + by rewrite Hsent, Hfl.
    + by rewrite Hrel, Hfl.
  - unfold measure; simpl. rewrite Hrq', E, Hts. apply Permutation_length in Hfl. simpl. lia.
Qed.

(** The header of the new block is written at the sender. *)
Lemma land_step y st i op : net_inv y st -> to_src y !! i = Some op ->
  exists y' st', step y (Land i) = Some y' /\ net_inv y' st' /\ sent y' = sent y
    /\ measure y' < measure y.
Proof.
  intros [c (Hrq & Hts & Hrp & Hst) Hops Hcs Hmem Hok Hpush Hfits Hsent Hrel] Hi.
  rewrite Hts in Hi. destruct st; try done. apply list_lookup_singleton_Some in Hi as [-> <-].
  unfold step. rewrite Hts. cbn [lookup list_lookup mbind option_bind header_op data].
  eexists _, Replied. split; [done|]. split; [|split; [done|]].
  - constructor; simpl; rewrite ?deletes_app, ?app_nil_r; try done.
    + unfold stage_ok; simpl. rewrite Hrq, replies_app, Hrp. done.
    + apply Forall_app. split; [done|]. apply Forall_singleton. by left.
  - unfold measure; simpl. rewrite Hts, length_app. simpl. lia.
Qed.

(** The receiver deletes a parcel it has. *)
Lemma delete_step y st a : net_inv y st -> a ∈ received y ->
  exists y' st', step y (DeleteAt a) = Some y' /\ net_inv y' st' /\ sent y' = sent y
    /\ measure y' < measure y.
Proof.
  intros [c (Hrq & Hts & Hrp & Hst) Hops Hcs Hmem Hok Hpush Hfits Hsent Hrel] Ha.
  destruct (proj1 (Forall_forall _ _) Hmem a Ha) as [p Hp].
  destruct (list_find_elem_of (fun x => x = a) (received y) a Ha eq_refl) as [[i x] Hfind].
  pose proof Hfind as (Hi & -> & _)%list_find_Some. pose proof (delete_Permutation _ _ _ Hi) as Hperm.
  assert (Hnd : NoDup (received y)).
  { pose proof (core_nodup _ _ _ _ c) as Hnd. unfold outstanding in Hnd. rewrite map_app in Hnd.
    apply NoDup_app in Hnd as (_ & _ & Hnd). by rewrite (held_fst _ _ Hmem) in Hnd. }
  assert (Hnot : a ∉ delete i (received y)) by (rewrite Hperm in Hnd; by apply NoDup_cons in Hnd as [? _]).
  assert (Hout : outstanding y ≡ₚ (a, p) :: in_flight (to_dst y) ++ held (mem y) (delete i (received y))).
  { unfold outstanding. assert (Hh : held (mem y) (received y) ≡ₚ (a, p) :: held (mem y) (delete i (received y))).
    { unfold held. rewrite Hperm at 1. simpl. by rewrite Hp. }
    rewrite Hh. solve_Permutation. }
  destruct (core_delete _ _ _ _ _ _ (core_perm c _ Hout)) as (bs & Hdel & c').
  unfold step. rewrite Hfind. cbn [mbind option_bind]. rewrite Hp. cbn [mbind option_bind].
  rewrite Hdel. cbn [mbind option_bind fst].
  eexists _, st. split; [done|]. split; [|split; [done|]].
  - constructor; simpl; try done.
    + unfold outstanding; simpl. rewrite held_delete by done.
      by destruct st.
    + rewrite Hperm in Hmem. apply Forall_cons in Hmem as [_ Hmem].
      apply Forall_forall. intros a' Ha'. rewrite lookup_delete_ne by (by intros ->).
      by apply (proj1 (Forall_forall _ _) Hmem).
  - unfold measure; simpl. apply Permutation_length in Hperm. simpl in Hperm. lia.
Qed.

(** ** Runs of the network *)

(** What can happen: the parcels sent fit, the sender's buffer has room. *)
Definition legal (y : net) (a : label) : Prop :=
  match a with Send p => fits p /\ roomy y | _ => True end.

(** What should succeed: an operation in flight, a completion that has not run, a parcel
    that was received, with memory for a block that is free. *)
Definition enabled (y : net) (a : label) : Prop :=
  match a with
  | Send p => fits p /\ roomy y
  | Deliver i b => is_Some (to_dst y !! i) /\ fresh_block y b
  | Land i => is_Some (to_src y !! i)
  | Complete i => is_Some (completed y !! i)
  | DeleteAt a => a ∈ received y
  end.

Definition sends (ls : list label) : list parcel :=
  omap (fun a => match a with Send p => Some p | _ => None end) ls.

(** A step, when it can be taken, keeps the invariant, and is taken when it should be. *)
Lemma net_step y st a : net_inv y st -> legal y a ->
  (exists y' st', step y a = Some y' /\ net_inv y' st' /\ sent y' = sent y ++ sends [a]
     /\ measure y' <= measure y + (match a with Send _ => 9 | _ => -1 end))
  \/ (step y a = None /\ ~ enabled y a).
Proof.
  intros I Hlegal.
  assert (Hdown : forall b, (exists y' st', step y b = Some y' /\ net_inv y' st' /\ sent y' = sent y
            /\ measure y' < measure y) -> sends [b] = [] ->
            match b with Send _ => False | _ => True end ->
          exists y' st', step y b = Some y' /\ net_inv y' st' /\ sent y' = sent y ++ sends [b]
            /\ measure y' <= measure y + (match b with Send _ => 9 | _ => -1 end)).
  { intros b (y' & st' & H1 & H2 & H3 & H4) Hb Hns. exists y', st'. rewrite Hb, app_nil_r.
    repeat (split; [done|]). destruct b; done || lia. }
  destruct a as [p|i b|i|i|x].
  - left. destruct Hlegal as [Hf Hr]. destruct (send_step y st p I Hf Hr) as (y' & st' & H1 & H2 & H3 & H4).
    exists y', st'. by repeat (split; [done|]).
  - destruct (to_dst y !! i) as [op|] eqn:Hi.
    2: { right. split; [unfold step; by rewrite Hi|]. intros [[? Hx] _]. congruence. }
    destruct (proj1 (Forall_lookup _ _) (net_ops _ _ I) _ _ Hi) as [(d & p & ->)|(n & Hn & ->)].
    + left. apply Hdown; [by eapply deliver_step|done..].
    + destruct (reload_step y st i b n I Hi Hn) as [Hok|[Hnone Hnf]].
      * left. by apply Hdown.
      * right. split; [done|]. by intros [_ Hf].
  - destruct (to_src y !! i) as [op|] eqn:Hi.
    + left. apply Hdown; [by eapply land_step|done..].
    + right. split; [unfold step; by rewrite Hi|]. intros [? Hx]. congruence.
  - destruct (completed y !! i) as [c0|] eqn:Hi.
    + left. apply Hdown; [|done..].
      destruct (proj1 (Forall_lookup _ _) (net_completed _ _ I) _ _ Hi) as [->|(p & Hp & ->)].
      * by eapply reply_step.
      * by eapply release_step.
    + right. split; [unfold step; by rewrite Hi|]. intros [? Hx]. congruence.
  - destruct (decide (x ∈ received y)) as [Hin|Hout].
    + left. apply Hdown; [by eapply delete_step|done..].
    + right. split; [|done]. unfold step.
      destruct (list_find (fun z => z = x) (received y)) as [[j z]|] eqn:Hf; [|done].
      apply list_find_Some in Hf as (Hj & -> & _). by apply list_elem_of_lookup_2 in Hj.
Qed.

Inductive runs (y : net) : list label -> net -> Prop :=
| runs_nil : runs y [] y
| runs_step a ls y1 y2 : legal y a -> step y a = Some y1 -> runs y1 ls y2 -> runs y (a :: ls) y2.

(** Checking a run by evaluation. *)
Definition legalb (y : net) (a : label) : bool :=
  match a with
  | Send p =>
    (0 <=? addr p) && (addr p <? 2 ^ 48) && (0 <=? psize p) && (HPX_CACHELINE_SIZE + psize p <? 2 ^ 32)
    && (bytes_of p <? eagerSize - sizeof_InplaceBlock)
    && (Z.of_nat (length (buffered y)) + 1 <? fifo_limit) && (Z.of_nat (length (sent y)) + 1 <? 2 ^ 64)
  | _ => true
  end.

Fixpoint runb (y : net) (ls : list label) : option net :=
  match ls with
  | [] => Some y
  | a :: ls => if legalb y a then (y ← step y a; runb y ls) else None
  end.

Lemma runb_runs ls : forall y y', runb y ls = Some y' -> runs y ls y'.
Proof.
  induction ls as [|a ls IH]; intros y y'; simpl.
  { intros [= ->]. constructor. }
  destruct (legalb y a) eqn:Hl; [|done]. destruct (step y a) as [y1|] eqn:Hs; [|done]. simpl.
  intros Hr. apply runs_step with y1; [|done|by apply IH]. destruct a; try done. simpl in Hl.
  rewrite !andb_true_iff, !Z.ltb_lt, !Z.leb_le in Hl. unfold legal, fits, roomy. lia.
Qed.

Lemma sends_app ls ks : sends (ls ++ ks) = sends ls ++ sends ks.
Proof. apply omap_app. Qed.

Lemma runs_inv y ls y' : runs y ls y' -> forall st, net_inv y st ->
  exists st', net_inv y' st' /\ sent y' = sent y ++ sends ls
    /\ measure y' + Z.of_nat (length ls) <= measure y + 10 * Z.of_nat (length (sends ls)).
Proof.
  induction 1 as [y|y a ls y1 y2 Hlegal Hs Hr IH]; intros st I.
  { exists st. rewrite app_nil_r. split; [done|]. split; [done|]. simpl. lia. }
  destruct (net_step y st a I Hlegal) as [(y1' & st1 & E & I1 & Hsent & Hm)|[E _]]; [|congruence].
  rewrite E in Hs. injection Hs as ->. destruct (IH st1 I1) as (st2 & I2 & Hsent2 & Hm2).
  exists st2. split; [done|]. change (a :: ls) with ([a] ++ ls). rewrite sends_app, Hsent2, Hsent.
  split; [by rewrite app_assoc|]. rewrite !length_app. clear -Hm Hm2. destruct a; simpl in *; lia.
Qed.

Lemma start_net_inv q q' : fifo_ok q -> fifo_list q = [] -> fifo_pushes q = 0 ->
  net_inv (start_net q q') Idle.
Proof.
  intros Hq Hl Hp. constructor; simpl; rewrite ?Hl; try done.
  constructor; simpl; try done.
  - by left.
  - intros b. unfold owed, avail; simpl. by destruct (b =? 0).
  - by intros a p ?%not_elem_of_nil.
  - constructor.
  - by intros a p a' p' ?%not_elem_of_nil.
  - lia.
Qed.
End Protocol.

Arguments sendEager_ {_} _.
Arguments sendBuffer_ {_} _.
Arguments recv_ {_} _.
Arguments src {_} _.
Arguments dst {_} _.
Arguments blocks {_} _.
Arguments mem {_} _.
Arguments to_dst {_} _.
Arguments to_src {_} _.
Arguments completed {_} _.
Arguments received {_} _.
Arguments sent {_} _.
Arguments delivered {_} _.
Arguments released {_} _.
Arguments outstanding {_} _.
Arguments start_net {_} _ _.

(** ** Properties

    The network of two peers whose send buffer is the ring of [CircularBuffer], with room
    for eight parcel pointers at first, as [Peer::Peer] makes it. *)

Section Properties.
Variables (eagerSize sizeof_InplaceBlock : Z).
Hypothesis eager_pow2 : exists k, 6 <= k <= 47 /\ eagerSize = 2 ^ k.
Hypothesis header_size : 0 < sizeof_InplaceBlock < eagerSize /\ (64 | sizeof_InplaceBlock).

#[local] Instance peer_buffer : FifoLaws parcel (CircularBuffer parcel) :=
  ring_fifo_laws 8 ltac:(lia).

Abbreviation network := (net (CircularBuffer parcel)).
Abbreviation nstep := (step eagerSize sizeof_InplaceBlock (CircularBuffer parcel)).
Abbreviation nruns := (runs eagerSize sizeof_InplaceBlock (CircularBuffer parcel)).

(** The network after the peers have been constructed. *)
Definition initial (y : network) : Prop :=
  exists q, CircularBuffer.new 8 8 = Some q /\ y = start_net q q.

Lemma initial_inv y : initial y -> net_inv eagerSize sizeof_InplaceBlock _ y Idle.
Proof.
  intros (q & Hq & ->).
  destruct (ring_new_spec (A := parcel) 8 ltac:(lia) 8) as (b & Hb & Hok & Hl & Hm); [lia..|].
  rewrite Hb in Hq. injection Hq as <-. by apply start_net_inv.
Qed.

Lemma initial_runs y0 ls y : initial y0 -> nruns y0 ls y ->
  exists st, net_inv eagerSize sizeof_InplaceBlock _ y st /\ sent y = sends ls
    /\ Z.of_nat (length ls) <= 10 * Z.of_nat (length (sends ls)).
Proof.
  intros H0 Hr. pose proof (initial_inv _ H0) as I0.
  destruct (runs_inv _ _ _ eager_pow2 header_size _ _ _ Hr _ I0) as (st & I & Hs & Hm).
  exists st. split; [done|]. destruct H0 as (q & Hq & ->). split; [done|].
  assert (H0 : measure _ (start_net q q) = 0).
  { unfold measure; simpl. pose proof (net_stage _ _ _ _ _ I0) as (_ & _ & _ & Hb). simpl in Hb. by rewrite Hb. }
  assert (0 <= measure _ y) by (unfold measure; lia). lia.
Qed.

(** C5: eager parcels are delivered exactly once.  In every run of the network, of parcels
    that fit a block and with room in the send buffer, operations completing in any order, the parcels that were sent are those that have been
    delivered, those being put and those in the send buffer, none twice; and the sender's
    copies that have been deleted, or are about to be, are those of parcels that were put. *)
Theorem eager_exactly_once y0 ls y : initial y0 -> nruns y0 ls y ->
  sends ls ≡ₚ delivered y ++ map snd (in_flight (to_dst y)) ++ ring_list (sendBuffer_ (src y))
  /\ released y ++ deletes (completed y) ≡ₚ
     map addr (delivered y ++ map snd (in_flight (to_dst y))).
Proof.
  intros H0 Hr. destruct (initial_runs _ _ _ H0 Hr) as (st & I & <- & _).
  split; [apply (net_sent _ _ _ _ _ I)|apply (net_released _ _ _ _ _ I)].
Qed.

(** C23: eager blocks are memory safe.  In every run, a parcel that is being put or has been
    received and not deleted lies at a cache line inside a block of the receiver that is
    allocated, past its header, and overlaps no other; and every operation that is due
    succeeds: no parcel is deleted from a block that has been freed, no block gets back
    more bytes than it has, and no assertion fails. *)
Theorem eager_blocks_safe y0 ls y : initial y0 -> nruns y0 ls y ->
  (forall a p, (a, p) ∈ outstanding y ->
     is_Some (blocks y !! block_of eagerSize a) /\ (64 | a)
     /\ block_of eagerSize a + sizeof_InplaceBlock <= a
     /\ a + padded (parcel_size p) <= block_of eagerSize a + eagerSize
     /\ forall a' p', (a', p') ∈ outstanding y -> a < a' -> a + padded (parcel_size p) <= a')
  /\ NoDup (map fst (outstanding y))
  /\ forall l, enabled eagerSize sizeof_InplaceBlock _ y l -> nstep y l <> None.
Proof.
  intros H0 Hr. destruct (initial_runs _ _ _ H0 Hr) as (st & I & _ & _).
  pose proof (net_core _ _ _ _ _ I) as c. split; [|split].
  - intros a p Hin. destruct (core_extents _ _ _ _ _ _ c a p Hin) as [Hf Ha Hb Hlo Hhi _].
    split; [|split; [done|split; [done|split; [done|]]]].
    + pose proof (bytes_in_pos eagerSize sizeof_InplaceBlock a p _
                    (core_fits _ _ c) Hin) as Hpos.
      destruct (core_avail _ _ header_size c) as (Hav & _).
      rewrite (core_owed _ _ c) by (unfold owed; destruct (_ =? _); lia). by eexists.
    + intros a' p' Hin' Hlt. by apply (core_apart _ _ _ _ _ _ c a p a' p').
  - apply (core_nodup _ _ _ _ _ _ c).
  - intros l Hen. assert (Hlegal : legal eagerSize sizeof_InplaceBlock _ y l) by (by destruct l).
    destruct (net_step _ _ _ eager_pow2 header_size y st l I Hlegal) as [(y' & _ & -> & _)|[_ Hn]]; [done|].
    by destruct Hn.
Qed.

(** C30: eager parcels all arrive, if they fit a block and the send buffer has room when they
    are sent.  A run takes at most ten steps for each parcel sent, so the
    network comes to rest; when no operation and no completion is pending, every parcel has
    been delivered and the sender's copies are deleted, and once the receiver has deleted
    them all, no block is left but the one the sender would use next. *)
Theorem eager_all_delivered y0 ls y : initial y0 -> nruns y0 ls y ->
  Z.of_nat (length ls) <= 10 * Z.of_nat (length (sends ls))
  /\ (to_dst y = [] -> to_src y = [] -> completed y = [] ->
      delivered y ≡ₚ sends ls /\ released y ≡ₚ map addr (sends ls)
      /\ (received y = [] -> forall b, is_Some (blocks y !! b) -> b = recv_ (dst y))).
Proof.
  intros H0 Hr. destruct (initial_runs _ _ _ H0 Hr) as (st & I & <- & Hlen). split; [done|].
  intros Hd Hs Hc. destruct (net_stage _ _ _ _ _ I) as (Hrq & Hts & Hrp & Hst).
  rewrite Hd in Hrq. rewrite Hs in Hts. rewrite Hc in Hrp. destruct st; try done. simpl in Hst.
  pose proof (net_sent _ _ _ _ _ I) as Hsent. pose proof (net_released _ _ _ _ _ I) as Hrel.
  rewrite Hd in Hsent, Hrel. rewrite Hc in Hrel. simpl in *. rewrite Hst, !app_nil_r in *.
  split; [by rewrite Hsent|]. split; [by rewrite Hrel, Hsent|]. intros Hrv b Hb.
  rewrite (core_blocks _ _ _ _ _ _ (net_core _ _ _ _ _ I) b) in Hb.
  unfold owed, outstanding in Hb. rewrite Hd, Hrv in Hb. simpl in Hb.
  destruct (Z.eqb_spec b (recv_ (dst y))); [done|]. by destruct Hb.
Qed.
End Properties.

(** ** Witnesses: blocks of 256 bytes, two parcels of which each block holds one *)

#[local] Instance demo_buffer : FifoLaws parcel (CircularBuffer parcel) := ring_fifo_laws 8 ltac:(lia).

Definition demo_q : CircularBuffer parcel := mkCircularBuffer 8 8 0 0 (replicate 8 None).
Definition demo_start : net (CircularBuffer parcel) := start_net demo_q demo_q.
Definition p1 : parcel := mkParcel 4096 10.
Definition p2 : parcel := mkParcel 8192 20.

(** The first parcel waits for a block, the second for another, and the completions come
    out of order; at the end the receiver deletes both. *)
Definition demo_labels : list label :=
  [Send p1; Send p2; Deliver 0 1024; Land 0; Complete 0; Deliver 1 512; Land 0; Deliver 0 0;
   Complete 1; DeleteAt 1088; Deliver 0 0; Complete 0; Complete 0; DeleteAt 576].

Lemma demo_initial : initial demo_start.
Proof. exists demo_q. by vm_compute. Qed.

Lemma demo_pow2 : exists k, 6 <= k <= 47 /\ 256 = 2 ^ k.
Proof. by exists 8. Qed.

Lemma demo_header : 0 < 64 < 256 /\ (64 | 64).
Proof. split; [lia|by exists 1]. Qed.

(** The network after the first [n] of those steps. *)
Definition demo_at (n : nat) : net (CircularBuffer parcel) :=
  default demo_start (runb 256 64 _ demo_start (take n demo_labels)).

(** Seven steps in, one parcel is in flight and one has been put and not deleted. *)
Lemma eager_exactly_once_witness :
  [p1; p2] ≡ₚ delivered (demo_at 7) ++ map snd (in_flight (to_dst (demo_at 7)))
              ++ ring_list (sendBuffer_ (src (demo_at 7))).
Proof.
  apply (eager_exactly_once 256 64 demo_pow2 demo_header demo_start (take 7 demo_labels) (demo_at 7) demo_initial).
  apply runb_runs. vm_compute. reflexivity.
Defined.

Lemma eager_blocks_safe_witness :
  outstanding (demo_at 7) = [(1088, p1)]
  /\ step 256 64 _ (demo_at 7) (Deliver 0 2048) <> None.
Proof.
  split; [vm_compute; reflexivity|].
  apply (eager_blocks_safe 256 64 demo_pow2 demo_header demo_start (take 7 demo_labels) (demo_at 7) demo_initial).
  - apply runb_runs. vm_compute. reflexivity.
  - vm_compute. split; [by eexists|done].
Defined.

Lemma eager_all_delivered_witness :
  delivered (demo_at 14) ≡ₚ [p1; p2] /\ released (demo_at 14) ≡ₚ [4096; 8192].
Proof.
  destruct (eager_all_delivered 256 64 demo_pow2 demo_header demo_start (take 14 demo_labels) (demo_at 14) demo_initial)
    as (_ & H).
  - apply runb_runs. vm_compute. reflexivity.
  - destruct (H eq_refl eq_refl eq_refl) as (Hd & Hr & _). by split.
Defined.

(** The network only checks that the eager limit is at most the size of a block.  A parcel
    that is within the limit but does not fit beside the header is refused by every new
    block: the sender asks for a block, and on its arrival asks again. *)
Definition large : parcel := mkParcel 4096 100.

Lemma eager_too_large_livelock :
  parcel_size large <= 256 /\
  let round b := [Deliver 0 b; Land 0; Complete 0] in
  let y := fun bs => y ← run 256 64 _ demo_start (Send large :: concat (map round bs));
                     Some (to_dst y, to_src y, completed y, delivered y, ring_list (sendBuffer_ (src y))) in
  y [1024; 512] = y [1024] /\ y [1024; 512; 256] = y [1024]
  /\ exists o, y [1024] = Some ([o], [], [], [], [large]).
Proof. split; [done|]. vm_compute. repeat split; by eexists. Qed.
