(* ===== verification/ISend.v ===== *)
(** * The buffer of sends

    libhpx/network/isir/ISendBuffer.{h,cpp} and parcel_utils.h: parcels wait in a circular
    buffer that grows, are handed to MPI in order up to a limit, and leave it as MPI
    completes them, in any order; the buffer is then compacted.  The two arrays of the
    buffer are one list of slots.  What MPI completes is a label of the steps. *)

From Stdlib Require Import Sorted.
From S2P Require Import Prelude Math.

Section ISend.
Variable isend : Z -> Z.      (* the request that MPI returns for a parcel *)

(** A slot: the request, and the parcel with the parcels that its completion spawns. *)
Record slot := mkSlot { request : option Z; record : option (Z * list Z) }.

Definition empty_slot : slot := mkSlot None None.

Record isends := mkISends {
  limit_ : Z;
  twin_ : Z;
  size_ : Z;
  min_ : Z;
  active_ : Z;
  max_ : Z;
  slots : list slot;
}.

Implicit Types (b : isends) (l : list slot) (x : slot).

Definition with_slots b l : isends := mkISends b.(limit_) b.(twin_) b.(size_) b.(min_) b.(active_) b.(max_) l.
Definition with_min b m : isends := mkISends b.(limit_) b.(twin_) b.(size_) m b.(active_) b.(max_) b.(slots).
Definition with_active b m : isends := mkISends b.(limit_) b.(twin_) b.(size_) b.(min_) m b.(max_) b.(slots).
Definition with_twin b m : isends := mkISends b.(limit_) m b.(size_) b.(min_) b.(active_) b.(max_) b.(slots).

Definition _index_of (id n : Z) : nat := Z.to_nat (Z.land id (n - 1)).

(** std::copy of [n] slots. *)
Fixpoint copy_loop (n src dst : nat) l : list slot :=
  match n with
  | O => l
  | S n => copy_loop n (S src) (S dst) (match l !! src with Some x => <[dst := x]> l | None => l end)
  end.

Definition reserve b (size : Z) : option isends :=
  if size <? b.(size_) then None
  else if size =? b.(size_) then Some b
  else
    let l := b.(slots) ++ replicate (Z.to_nat (size - b.(size_))) empty_slot in
    let done l := Some (mkISends b.(limit_) b.(twin_) size b.(min_) b.(active_) b.(max_) l) in
    if b.(max_) =? b.(min_) then done l
    else
      let min := _index_of b.(min_) b.(size_) in
      let max := _index_of b.(max_) b.(size_) in
      let prefix := if (min <? max)%nat then (max - min)%nat else (Z.to_nat b.(size_) - min)%nat in
      let suffix := if (min <? max)%nat then 0%nat else max in
      let nmin := _index_of b.(min_) size in
      let nmax := _index_of b.(max_) size in
      if (min =? nmin)%nat then
        if negb (max =? nmax)%nat && (min + prefix =? nmax - suffix)%nat
        then done (copy_loop suffix 0 (min + prefix) l) else None
      else if (max =? nmax)%nat then
        if (0 <? prefix)%nat && (nmin + prefix <=? Z.to_nat size)%nat
        then done (copy_loop prefix min nmin l) else None
      else None.

Definition ISendBuffer (isir_sendlimit isir_testwindow : Z) : option isends :=
  reserve (mkISends isir_sendlimit isir_testwindow 0 0 0 0 []) 64.

Definition append b (p : Z) (ssync : list Z) : option isends :=
  let max := _index_of b.(max_) b.(size_) in
  x ← b.(slots) !! max;
  let b := mkISends b.(limit_) b.(twin_) b.(size_) b.(min_) b.(active_) (u64 (b.(max_) + 1))
             (<[max := mkSlot x.(request) (Some (p, ssync))]> b.(slots)) in
  if b.(size_) <=? u64 (b.(max_) - b.(min_)) then reserve b (u32 (2 * b.(size_))) else Some b.

(** Hand a parcel to MPI. *)
Definition start b (id : Z) : option (isends * (Z * list Z)) :=
  let i := _index_of id b.(size_) in
  x ← b.(slots) !! i;
  r ← x.(record);
  Some (with_slots b (<[i := mkSlot (Some (isend r.1)) (Some r)]> b.(slots)), r).

Fixpoint start_loop (n : nat) b (started : list (Z * list Z)) : option (isends * list (Z * list Z)) :=
  match n with
  | O => Some (b, started)
  | S n =>
    '(b', r) ← start b b.(active_);
    start_loop n (with_active b' (u64 (b'.(active_) + 1))) (started ++ [r])
  end.

Definition startAll b : option (isends * list (Z * list Z)) :=
  let e := if nz b.(limit_) then Z.min (u64 (b.(min_) + b.(limit_))) b.(max_) else b.(max_) in
  start_loop (Z.to_nat (e - b.(active_))) b [].

(** The completions of a range that starts at slot [i]: the parcels that are deleted, with
    those that are spawned, and the slots. *)
Fixpoint test_loop (i : nat) (done : list nat) l : option (list slot * list (Z * list Z) * list nat) :=
  match done with
  | [] => Some (l, [], [])
  | j :: done =>
    let k := (i + j)%nat in
    x ← l !! k;
    r ← x.(record);
    '(l, rs, out) ← test_loop i done (<[k := mkSlot None None]> l);
    Some (l, r :: rs, k :: out)
  end.

Definition testRange b (i n : nat) (done : list nat) : option (isends * list (Z * list Z) * list nat) :=
  if Z.of_nat (i + n) <=? b.(size_) then
    if (n =? 0)%nat then Some (b, [], [])
    else '(l, rs, out) ← test_loop i done b.(slots); Some (with_slots b l, rs, out)
  else None.

Fixpoint compact_loop (out : list nat) b : option isends :=
  match out with
  | [] => Some b
  | o :: out =>
    x ← b.(slots) !! _index_of b.(min_) b.(size_);
    compact_loop out (with_min (with_slots b (<[o := x]> b.(slots))) (u64 (b.(min_) + 1)))
  end.

Definition compact b (out : list nat) : option isends :=
  let n := Z.of_nat (length out) in
  let m := u64 (b.(active_) - b.(min_)) in
  if n =? m then Some (with_min b (u64 (b.(min_) + n)))
  else if n <? 1073741823 then compact_loop out b else None.

Definition ISIR_TWIN_INC : Z := 10.

(** The ranges that are tested: [i, i + n) and [0, m). *)
Definition ranges b : nat * nat * nat :=
  let i := _index_of b.(min_) b.(size_) in
  let j := _index_of b.(active_) b.(size_) in
  let wrapped := (j <? i)%nat in
  let n := if wrapped then (Z.to_nat b.(size_) - i)%nat else (j - i)%nat in
  let m := if wrapped then j else 0%nat in
  let n := Nat.min n (Z.to_nat b.(twin_)) in
  let m := Nat.min m (Z.to_nat b.(twin_) - n) in
  (i, n, m).

(** [done1] and [done2] are what MPI completes of the two ranges. *)
Definition testAll b (done1 done2 : list nat) : option (isends * list (Z * list Z)) :=
  let '(i, n, m) := ranges b in
  '(b, rs1, out1) ← testRange b i n done1;
  '(b, rs2, out2) ← testRange b 0 m done2;
  let out := out1 ++ out2 in
  b ← (match out with [] => Some b | _ => compact b out end);
  let total := Z.of_nat (length out) in
  let twin := if total >=? b.(twin_) then u32 (b.(twin_) + ISIR_TWIN_INC)
              else if b.(twin_) - total >? ISIR_TWIN_INC then b.(twin_) - ISIR_TWIN_INC else b.(twin_) in
  Some (with_twin b twin, rs1 ++ rs2).

Definition progress b (done1 done2 : list nat) : option (isends * list (Z * list Z) * list (Z * list Z)) :=
  '(b, completed) ← testAll b done1 done2;
  '(b, started) ← startAll b;
  Some (b, completed, started).

(** [mpi] is what MPI completes in each state. *)
Fixpoint flush (mpi : isends -> list nat * list nat) (fuel : nat) b : option (isends * list (Z * list Z) * list (Z * list Z)) :=
  if b.(min_) =? b.(max_) then Some (b, [], [])
  else
    match fuel with
    | O => None
    | S fuel =>
      '(b, completed, started) ← progress b (mpi b).1 (mpi b).2;
      '(b, completed', started') ← flush mpi fuel b;
      Some (b, completed ++ completed', started ++ started')
    end.

(** What the destructor cancels: the parcels it deletes. *)
Fixpoint cancel_loop (n : nat) b (id : Z) : option (list Z) :=
  match n with
  | O => Some []
  | S n =>
    x ← b.(slots) !! _index_of id b.(size_);
    r ← x.(record);
    ps ← cancel_loop n b (id + 1);
    Some (r.1 :: r.2 ++ ps)
  end.

Definition cancelAll b : option (list Z) := cancel_loop (Z.to_nat (b.(active_) - b.(min_))) b b.(min_).

(** ** Windows *)

Definition at_id b (id : Z) : option slot := b.(slots) !! _index_of id b.(size_).

(** The window [min_, max_) of a buffer holds the slots [w]. *)
Record window b (w : list slot) : Prop := {
  wn_size : exists k, 6 <= k <= 29 /\ b.(size_) = 2 ^ k;
  wn_slots : length b.(slots) = Z.to_nat b.(size_);
  wn_order : 0 <= b.(min_) /\ b.(min_) <= b.(active_) <= b.(max_) /\ b.(max_) < 2 ^ 64;
  wn_length : Z.of_nat (length w) = b.(max_) - b.(min_);
  wn_bound : Z.of_nat (length w) <= b.(size_);
  wn_at j x : w !! j = Some x -> at_id b (b.(min_) + Z.of_nat j) = Some x;
}.

Lemma index_mod id k : 0 <= k -> _index_of id (2 ^ k) = Z.to_nat (id mod 2 ^ k).
Proof. intros Hk. unfold _index_of. by rewrite land_pred_pow2. Qed.

Lemma index_lt b w id : window b w -> (_index_of id b.(size_) < length b.(slots))%nat.
Proof.
  intros W. destruct (wn_size _ _ W) as (k & Hk & E). rewrite (wn_slots _ _ W), E, index_mod by lia.
  pose proof (Z.mod_pos_bound id (2 ^ k) ltac:(lia)). lia.
Qed.

Lemma index_ne b w id id' : window b w -> id <> id' -> Z.abs (id - id') < b.(size_) ->
  _index_of id b.(size_) <> _index_of id' b.(size_).
Proof.
  intros W Hne Habs. destruct (wn_size _ _ W) as (k & Hk & E). rewrite E in *. rewrite !index_mod by lia.
  pose proof (mod_distinct id id' (2 ^ k) ltac:(lia) Hne Habs).
  pose proof (Z.mod_pos_bound id (2 ^ k) ltac:(lia)). pose proof (Z.mod_pos_bound id' (2 ^ k) ltac:(lia)). lia.
Qed.

(** Writing a slot of the window. *)
Lemma window_set b w j x : window b w -> (j < length w)%nat ->
  window (with_slots b (<[_index_of (b.(min_) + Z.of_nat j) b.(size_) := x]> b.(slots))) (<[j := x]> w).
Proof.
  intros W Hj. pose proof (wn_bound _ _ W). destruct W as [W1 W2 W3 W4 W5 W6] eqn:EW.
  split; simpl; try done; rewrite ?length_insert; try done.
  intros i y Hi. unfold at_id; simpl. destruct (decide (i = j)) as [->|Hne].
  - rewrite list_lookup_insert_eq in Hi by done. injection Hi as <-. apply list_lookup_insert_eq. by apply (index_lt b w).
  - rewrite list_lookup_insert_ne in Hi by done. apply lookup_lt_Some in Hi as Hlt.
    rewrite list_lookup_insert_ne; [by apply W6|]. apply (index_ne b w); [done|lia|lia].
Qed.

(** The window without its first slots. *)
Lemma window_advance b w n : window b w -> (n <= length w)%nat -> b.(min_) + Z.of_nat n <= b.(active_) ->
  window (with_min b (b.(min_) + Z.of_nat n)) (drop n w).
Proof.
  intros [W1 W2 W3 W4 W5 W6] Hn Ha. split; simpl; try done; rewrite ?length_drop; try lia.
  intros j x Hj. rewrite lookup_drop in Hj. apply W6 in Hj. unfold at_id in *; simpl.
  by replace (min_ b + Z.of_nat n + Z.of_nat j) with (min_ b + Z.of_nat (n + j)) by lia.
Qed.

(** ** Growing *)

Lemma copy_loop_spec n : forall src dst l p, (src + n <= dst)%nat -> (dst + n <= length l)%nat ->
  length (copy_loop n src dst l) = length l
  /\ copy_loop n src dst l !! p = if (dst <=? p)%nat && (p <? dst + n)%nat then l !! (src + (p - dst))%nat else l !! p.
Proof.
  induction n as [|n IH]; intros src dst l p H1 H2; cbn [copy_loop].
  - split; [done|]. destruct (Nat.leb_spec dst p), (Nat.ltb_spec p (dst + 0)); simpl; (done || lia).
  - destruct (l !! src) as [x|] eqn:Hx; [|apply lookup_ge_None in Hx; lia].
    destruct (IH (S src) (S dst) (<[dst := x]> l) p) as [IH1 IH2]; [lia|rewrite length_insert; lia|].
    rewrite length_insert in IH1. split; [done|]. rewrite IH2.
    destruct (Nat.leb_spec dst p), (Nat.ltb_spec p (dst + S n)), (Nat.leb_spec (S dst) p), (Nat.ltb_spec p (S dst + n));
      simpl; try lia.
    + rewrite list_lookup_insert_ne by lia. f_equal. lia.
    + assert (p = dst) as -> by lia. rewrite list_lookup_insert_eq by lia. by rewrite Nat.sub_diag, Nat.add_0_r.
    + rewrite list_lookup_insert_ne by lia. done.
    + rewrite list_lookup_insert_ne by lia. done.
Qed.
(** The residue of the double modulus. *)
Lemma mod_add_small a j m : 0 < m -> 0 <= j -> a mod m + j < m -> (a + j) mod m = a mod m + j.
Proof.
  intros Hm Hj H. pose proof (Z.mod_pos_bound a m Hm). rewrite <- (Zplus_mod_idemp_l a). apply Z.mod_small. lia.
Qed.

Lemma mod_add_wrap a j m : 0 < m -> 0 <= j < m -> m <= a mod m + j -> (a + j) mod m = a mod m + j - m.
Proof.
  intros Hm Hj H. pose proof (Z.mod_pos_bound a m Hm). rewrite <- (Zplus_mod_idemp_l a).
  rewrite <- (Z.mod_add (a mod m + j) (-1) m) by lia. rewrite Z.mod_small; lia.
Qed.

(** The slots [w] are where the indices of a buffer of [m] slots point, from [a] on. *)
Definition placed (a m : Z) (w l : list slot) : Prop :=
  forall j x, w !! j = Some x -> l !! Z.to_nat ((a + Z.of_nat j) mod m) = Some x.

(** The suffix of a full buffer of [m] slots, moved behind the prefix, is where the indices
    of one of [2 * m] slots point; so is the prefix, moved to the end. *)
Lemma suffix_moved a m w l : 0 < m -> Z.of_nat (length w) = m -> length l = Z.to_nat (2 * m) ->
  a mod (2 * m) = a mod m -> placed a m w l ->
  let l' := copy_loop (Z.to_nat (a mod m)) 0 (Z.to_nat (a mod m) + (Z.to_nat m - Z.to_nat (a mod m))) l in
  length l' = length l /\ placed a (2 * m) w l'.
Proof.
  intros Hm Hw Hl En Hold. pose proof (Z.mod_pos_bound a m Hm) as Hi. set (i := a mod m) in *.
  pose proof (copy_loop_spec (Z.to_nat i) 0 (Z.to_nat i + (Z.to_nat m - Z.to_nat i)) l) as C.
  split; [apply (C 0%nat); lia|]. intros j x Hj. pose proof (lookup_lt_Some _ _ _ Hj).
  rewrite (mod_add_small a) by lia. rewrite En. destruct (C (Z.to_nat (i + Z.of_nat j))) as [_ ->]; [lia..|].
  apply Hold in Hj. destruct (Z.lt_ge_cases (i + Z.of_nat j) m).
  - rewrite (proj2 (Nat.leb_gt _ _)) by lia. simpl. by rewrite mod_add_small in Hj by (fold i; lia).
  - rewrite (proj2 (Nat.leb_le _ _)), (proj2 (Nat.ltb_lt _ _)) by lia. simpl.
    rewrite mod_add_wrap in Hj by (fold i; lia). fold i in Hj.
    by replace (Z.to_nat (i + Z.of_nat j) - (Z.to_nat i + (Z.to_nat m - Z.to_nat i)))%nat with (Z.to_nat (i + Z.of_nat j - m)) by lia.
Qed.

Lemma prefix_moved a m w l : 0 < m -> Z.of_nat (length w) = m -> length l = Z.to_nat (2 * m) ->
  a mod (2 * m) = a mod m + m -> placed a m w l ->
  let l' := copy_loop (Z.to_nat m - Z.to_nat (a mod m)) (Z.to_nat (a mod m)) (Z.to_nat (a mod m + m)) l in
  length l' = length l /\ placed a (2 * m) w l'.
Proof.
  intros Hm Hw Hl En Hold. pose proof (Z.mod_pos_bound a m Hm) as Hi. set (i := a mod m) in *.
  pose proof (copy_loop_spec (Z.to_nat m - Z.to_nat i) (Z.to_nat i) (Z.to_nat (i + m)) l) as C.
  split; [apply (C 0%nat); lia|]. intros j x Hj. pose proof (lookup_lt_Some _ _ _ Hj). apply Hold in Hj.
  destruct (Z.lt_ge_cases (i + Z.of_nat j) m).
  - rewrite (mod_add_small a) by lia. rewrite En. destruct (C (Z.to_nat (i + m + Z.of_nat j))) as [_ ->]; [lia..|].
    rewrite (proj2 (Nat.leb_le _ _)), (proj2 (Nat.ltb_lt _ _)) by lia. simpl.
    rewrite mod_add_small in Hj by (fold i; lia). fold i in Hj.
    by replace (Z.to_nat i + (Z.to_nat (i + m + Z.of_nat j) - Z.to_nat (i + m)))%nat with (Z.to_nat (i + Z.of_nat j)) by lia.
  - rewrite (mod_add_wrap a) by lia. rewrite En. destruct (C (Z.to_nat (i + m + Z.of_nat j - 2 * m))) as [_ ->]; [lia..|].
    rewrite (proj2 (Nat.leb_gt _ _)) by lia. simpl. rewrite mod_add_wrap in Hj by (fold i; lia). fold i in Hj.
    by replace (Z.to_nat (i + m + Z.of_nat j - 2 * m)) with (Z.to_nat (i + Z.of_nat j - m)) by lia.
Qed.

(** A full buffer doubles, and keeps its window. *)
Lemma reserve_full b w : window b w -> Z.of_nat (length w) = b.(size_) -> b.(size_) <= 2 ^ 28 ->
  exists l, reserve b (2 * b.(size_)) = Some (mkISends b.(limit_) b.(twin_) (2 * b.(size_)) b.(min_) b.(active_) b.(max_) l)
    /\ window (mkISends b.(limit_) b.(twin_) (2 * b.(size_)) b.(min_) b.(active_) b.(max_) l) w.
Proof.
  intros W Hfull Hbig. pose proof W as [(k & Hk & E) W2 W3 W4 W5 W6]. rewrite E in *. assert (Hp : 64 <= 2 ^ k).
  { change 64 with (2 ^ 6). apply Z.pow_le_mono_r; lia. }
  assert (Hk' : k <= 28).
  { destruct (Z.le_gt_cases k 28); [done|]. assert (2 ^ 29 <= 2 ^ k) by (apply Z.pow_le_mono_r; lia). lia. }
  assert (E2 : 2 * 2 ^ k = 2 ^ (k + 1)) by (rewrite Z.pow_add_r by lia; lia).
  set (m := 2 ^ k) in *. set (i := min_ b mod m). pose proof (Z.mod_pos_bound (min_ b) m ltac:(lia)) as Hi. fold i in Hi.
  assert (Emax : max_ b mod m = i).
  { replace (max_ b) with (min_ b + 1 * m) by lia. by rewrite Z.mod_add by lia. }
  assert (Hmod : forall a, _index_of a m = Z.to_nat (a mod m)) by (intros a; apply index_mod; lia).
  assert (Hmod2 : forall a, _index_of a (2 * m) = Z.to_nat (a mod (2 * m))) by (intros a; rewrite E2; apply index_mod; lia).
  set (l0 := slots b ++ replicate (Z.to_nat (2 * m - m)) empty_slot).
  assert (Hl0 : length l0 = Z.to_nat (2 * m)) by (unfold l0; rewrite length_app, W2, length_replicate; lia).
  assert (Hold : placed (min_ b) m w l0).
  { intros j x Hj. apply W6 in Hj. unfold at_id in Hj. rewrite E, Hmod in Hj. unfold l0. by apply lookup_app_l_Some. }
  assert (Hwin : forall l, length l = length l0 /\ placed (min_ b) (2 * m) w l ->
    window (mkISends (limit_ b) (twin_ b) (2 * m) (min_ b) (active_ b) (max_ b) l) w).
  { intros l [Hl Hw]. split; simpl; try done; try lia.
    - exists (k + 1). split; [lia|done].
    - intros j x Hj. unfold at_id; simpl. rewrite Hmod2. by apply Hw. }
  unfold reserve. rewrite E. destruct (Z.ltb_spec (2 * m) m); [lia|]. destruct (Z.eqb_spec (2 * m) m); [lia|].
  destruct (Z.eqb_spec (max_ b) (min_ b)); [lia|]. fold l0. rewrite !Hmod, !Hmod2, Emax. fold i. rewrite Nat.ltb_irrefl.
  destruct (mod_double (min_ b) m ltac:(lia)) as [[En Enx]|[En Enx]]; fold i in En, Enx; replace (min_ b + m) with (max_ b) in Enx by lia.
  - rewrite En, Enx, Nat.eqb_refl. destruct (Nat.eqb_spec (Z.to_nat i) (Z.to_nat (i + m))); [lia|]. simpl.
    destruct (Nat.eqb_spec (Z.to_nat i + (Z.to_nat m - Z.to_nat i)) (Z.to_nat (i + m) - Z.to_nat i)); [|lia].
    eexists. split; [done|]. apply Hwin, suffix_moved; try done; lia.
  - rewrite En, Enx, Nat.eqb_refl. destruct (Nat.eqb_spec (Z.to_nat i) (Z.to_nat (i + m))); [lia|].
    destruct (Nat.ltb_spec 0 (Z.to_nat m - Z.to_nat i)); [|lia].
    destruct (Nat.leb_spec (Z.to_nat (i + m) + (Z.to_nat m - Z.to_nat i)) (Z.to_nat (2 * m))); [|lia]. simpl.
    eexists. split; [done|]. apply Hwin, prefix_moved; try done; lia.
Qed.

(** ** Compaction *)

(** What compaction does to the window, of which [k] elements are gone: the first element
    goes where one was completed. *)
Fixpoint fill {A} (k : nat) (w : list A) (cs : list nat) : list A :=
  match cs, w with
  | [], _ => w
  | c :: cs, h :: _ => fill (S k) (drop 1 (<[(c - k)%nat := h]> w)) cs
  | _, [] => w
  end.

Abbreviation ascending := (StronglySorted lt).

Lemma ascending_inv cs c : ascending (c :: cs) -> ascending cs /\ forall d, d ∈ cs -> (c < d)%nat.
Proof. intros Hs. apply StronglySorted_inv in Hs as [Hs Hf]. by rewrite Forall_forall in Hf. Qed.

Section Fill.
Context {A : Type}.
Implicit Types w : list A.

Definition inside (k : nat) w (cs : list nat) : Prop := forall c, c ∈ cs -> (k <= c < k + length w)%nat.

Lemma inside_inv k w h c cs : ascending (c :: cs) -> inside k w (c :: cs) -> inside (S k) (drop 1 (<[(c - k)%nat := h]> w)) cs.
Proof.
  intros [_ Hd]%ascending_inv Hc d Hin. rewrite length_drop, length_insert. pose proof (Hd d Hin).
  pose proof (Hc c ltac:(left)). pose proof (Hc d ltac:(by right)). lia.
Qed.

Lemma fill_one w c h : w !! 0%nat = Some h -> (c < length w)%nat -> drop 1 (<[c := h]> w) ≡ₚ delete c w.
Proof.
  destruct w as [|h' w]; simpl; [done|]. intros [= ->] Hc. destruct c as [|c]; simpl; [done|]. rewrite drop_0.
  rewrite insert_take_drop by lia. rewrite delete_take_drop. by rewrite Permutation_middle.
Qed.

Lemma fill_perm cs : forall k w, ascending cs -> inside k w cs ->
  w ≡ₚ omap (fun c => w !! (c - k)%nat) cs ++ fill k w cs /\ length (fill k w cs) = (length w - length cs)%nat.
Proof.
  induction cs as [|c cs IH]; intros k w Hs Hc; simpl; [split; [done|lia]|].
  pose proof (Hc c ltac:(left)) as Hlt. destruct w as [|h w']; [simpl in Hlt; lia|]. set (w := h :: w') in *.
  destruct (ascending_inv _ _ Hs) as [Hs' Hd]. destruct (lookup_lt_is_Some_2 w (c - k)%nat ltac:(lia)) as [y Hy].
  destruct (IH (S k) (drop 1 (<[(c - k)%nat := h]> w)) Hs' (inside_inv k w h c cs Hs Hc)) as [IH1 IH2].
  assert (Hom : omap (fun d => drop 1 (<[(c - k)%nat := h]> w) !! (d - S k)%nat) cs = omap (fun d => w !! (d - k)%nat) cs).
  { apply list_omap_ext. apply Forall2_same_length_lookup_2; [done|]. intros n d d' H1 H2. assert (d = d') as <- by congruence.
    apply list_elem_of_lookup_2 in H1. pose proof (Hd d H1). rewrite lookup_drop.
    replace (1 + (d - S k))%nat with (d - k)%nat by lia. by rewrite list_lookup_insert_ne by lia. }
  rewrite Hom in IH1. rewrite Hy. split.
  - rewrite <- app_comm_cons, <- IH1. rewrite fill_one by (done || lia). by apply delete_Permutation.
  - rewrite IH2, length_drop, length_insert. lia.
Qed.

Lemma fill_app cs : forall k w p, ascending cs -> inside k w cs -> fill k (w ++ p) cs = fill k w cs ++ p.
Proof.
  induction cs as [|c cs IH]; intros k w p Hs Hc; [by destruct w|]. pose proof (Hc c ltac:(left)) as Hlt.
  destruct w as [|h w]; [simpl in Hlt; lia|]. cbn [fill]. rewrite <- IH; [|by eapply ascending_inv|by apply inside_inv].
  rewrite <- app_comm_cons. cbn [fill]. f_equal. rewrite (app_comm_cons w p h), insert_app_l by lia.
  by rewrite drop_app_le by (rewrite length_insert; simpl; lia).
Qed.

(** The completed elements themselves do not matter. *)
Lemma fill_mark cs : forall k w c y, ascending cs -> c ∈ cs -> (forall d, d ∈ cs -> k <= d)%nat ->
  fill k (<[(c - k)%nat := y]> w) cs = fill k w cs.
Proof.
  induction cs as [|c0 cs IH]; intros k w c y Hs Hin Hk; [by apply elem_of_nil in Hin|].
  destruct w as [|h w]; [done|]. destruct (ascending_inv _ _ Hs) as [Hs' Hd]. pose proof (Hk c0 ltac:(left)).
  apply elem_of_cons in Hin as [->|Hin].
  - destruct (c0 - k)%nat as [|c1] eqn:Ec; cbn [insert list_insert fill]; rewrite Ec; [done|]. f_equal.
    change (drop 1 (<[S c1 := h]> (h :: <[c1 := y]> w)) = drop 1 (<[S c1 := h]> (h :: w))). simpl. rewrite !drop_0.
    by rewrite list_insert_insert_eq.
  - pose proof (Hd c Hin). destruct (c - k)%nat as [|c1] eqn:Ec; [lia|]. cbn [insert list_insert]. cbn [fill].
    assert (E : drop 1 (<[(c0 - k)%nat := h]> (h :: <[c1 := y]> w)) = <[(c - S k)%nat := y]> (drop 1 (<[(c0 - k)%nat := h]> (h :: w)))).
    { replace (c - S k)%nat with c1 by lia. destruct (c0 - k)%nat as [|c2] eqn:E2; simpl; rewrite !drop_0; [done|].
      by rewrite list_insert_insert_ne by lia. }
    change (fill (S k) (drop 1 (<[(c0 - k)%nat := h]> (h :: <[c1 := y]> w))) cs = fill (S k) (drop 1 (<[(c0 - k)%nat := h]> (h :: w))) cs).
    rewrite E. apply IH; [done|done|]. intros d Hin'. pose proof (Hd d Hin'). lia.
Qed.

Lemma fill_map {B} (f : A -> B) cs : forall k w, fill k (map f w) cs = map f (fill k w cs).
Proof.
  induction cs as [|c cs IH]; intros k [|h w]; [done..|]. cbn [map fill]. rewrite <- IH. f_equal.
  change (f h :: map f w) with (map f (h :: w)). by rewrite <- list_fmap_insert, fmap_drop.
Qed.
End Fill.
(** The slot of the element at place [c] of a window that began at [m]. *)
Definition place (sz m : Z) (c : nat) : nat := _index_of (m + Z.of_nat c) sz.

Definition moved b n l : isends := mkISends b.(limit_) b.(twin_) b.(size_) n b.(active_) b.(max_) l.

Lemma compact_loop_window cs : forall k b w m, window b w -> ascending cs -> inside k w cs ->
  b.(min_) = m + Z.of_nat k -> b.(min_) + Z.of_nat (length cs) <= b.(active_) ->
  exists l, compact_loop (map (place b.(size_) m) cs) b = Some (moved b (b.(min_) + Z.of_nat (length cs)) l)
    /\ window (moved b (b.(min_) + Z.of_nat (length cs)) l) (fill k w cs).
Proof.
  induction cs as [|c cs IH]; intros k b w m W Hs Hc Hm Ha.
  - exists (slots b). assert (E : moved b (min_ b + Z.of_nat 0) (slots b) = b).
    { unfold moved. rewrite Z.add_0_r. by destruct b. }
    cbn [length]. rewrite E. split; [done|]. by destruct w.
  - pose proof (Hc c ltac:(left)) as Hlt. destruct w as [|h w']; [simpl in Hlt; lia|]. set (w := h :: w') in *.
    cbn [map compact_loop fill w]. fold w. pose proof (wn_at _ _ W 0%nat h eq_refl) as Hh. unfold at_id in Hh. rewrite Z.add_0_r in Hh.
    rewrite Hh. cbn [mbind option_bind].
    pose proof (window_set b w (c - k)%nat h W ltac:(lia)) as W1.
    assert (Ep : _index_of (min_ b + Z.of_nat (c - k)) (size_ b) = place (size_ b) m c) by (unfold place; f_equal; lia).
    rewrite Ep in W1. apply (window_advance _ _ 1) in W1; [|rewrite length_insert; simpl; lia|simpl in *; lia].
    change (Z.of_nat 1) with 1 in W1. destruct (wn_order _ _ W) as (? & ? & ?). simpl length in Ha.
    assert (Eu : u64 (min_ b + 1) = min_ b + 1) by (apply wrap_small; lia).
    change (with_min (with_slots b (<[place (size_ b) m c:=h]> (slots b))) (u64 (min_ (with_slots b (<[place (size_ b) m c:=h]> (slots b))) + 1)))
      with (with_min (with_slots b (<[place (size_ b) m c:=h]> (slots b))) (u64 (min_ b + 1))). rewrite Eu.
    destruct (IH (S k) _ _ m W1) as (l & E & W2); [by eapply ascending_inv|by apply inside_inv|simpl; lia|simpl; lia|].
    cbn [with_min with_slots size_ min_] in E, W2. rewrite E. exists l.
    replace (min_ b + Z.of_nat (length (c :: cs))) with (min_ b + 1 + Z.of_nat (length cs)) by (simpl; lia).
    split; [reflexivity|exact W2].
Qed.

(** The window after the completed records were taken. *)
Definition mark (w : list slot) (cs : list nat) : list slot := foldl (fun w c => <[c := empty_slot]> w) w cs.

Definition completed (w : list slot) (cs : list nat) : list (Z * list Z) := omap (fun c => x ← w !! c; x.(record)) cs.

Lemma mark_length cs : forall w, length (mark w cs) = length w.
Proof. induction cs as [|c cs IH]; intros w; [done|]. unfold mark in *; simpl. by rewrite IH, length_insert. Qed.

Lemma fill_marked cs cs' : forall w, ascending cs -> (forall c, c ∈ cs' -> c ∈ cs) -> fill 0 (mark w cs') cs = fill 0 w cs.
Proof.
  induction cs' as [|c cs' IH]; intros w Hs Hin; [done|]. unfold mark in *; simpl. rewrite IH; [|done|intros; apply Hin; by right].
  rewrite <- (Nat.sub_0_r c) at 1. apply fill_mark; [done|apply Hin; left|lia].
Qed.

Lemma test_loop_window i done : forall b w cs, window b w ->
  Forall2 (fun d c => (i + d)%nat = place b.(size_) b.(min_) c) done cs -> NoDup cs ->
  (forall c, c ∈ cs -> exists q r, w !! c = Some (mkSlot q (Some r))) ->
  exists l, test_loop i done b.(slots) = Some (l, completed w cs, map (place b.(size_) b.(min_)) cs)
    /\ window (with_slots b l) (mark w cs).
Proof.
  induction done as [|d done IH]; intros b w cs W Hf Hn Hr.
  - apply Forall2_nil_inv_l in Hf as ->. exists (slots b). split; [done|]. by destruct b.
  - apply Forall2_cons_inv_l in Hf as (c & cs' & E & Hf & ->). apply NoDup_cons in Hn as [Hc Hn].
    destruct (Hr c ltac:(left)) as (q & r & Hw). cbn [test_loop map]. rewrite E.
    pose proof (wn_at _ _ W c _ Hw) as Hat. unfold at_id in Hat. fold (place (size_ b) (min_ b) c) in Hat.
    rewrite Hat. cbn [mbind option_bind record].
    pose proof (window_set b w c empty_slot W (lookup_lt_Some _ _ _ Hw)) as W1. fold (place (size_ b) (min_ b) c) in W1.
    destruct (IH _ _ cs' W1 Hf Hn) as (l & El & Wl).
    { intros c' Hin. destruct (Hr c' ltac:(by right)) as (q' & r' & Hw'). exists q', r'.
      rewrite list_lookup_insert_ne; [done|]. by intros <-. }
    cbn [with_slots slots size_ min_] in El, Wl. change (mkSlot None None) with empty_slot. rewrite El. cbn [mbind option_bind].
    exists l. split; [|done]. unfold completed. cbn [omap list_omap]. rewrite Hw. cbn [mbind option_bind record].
    do 4 f_equal. apply list_omap_ext, Forall2_same_length_lookup_2; [done|]. intros n a a' H1 H2. assert (a = a') as <- by congruence.
    apply list_elem_of_lookup_2 in H1. rewrite list_lookup_insert_ne; [done|]. by intros ->.
Qed.
(** ** Sends *)

Definition started_slot (r : Z * list Z) : slot := mkSlot (Some (isend r.1)) (Some r).

(** A buffer whose sends [ra] are with MPI and whose sends [pa] wait, in order. *)
Record holds b (ra pa : list (Z * list Z)) : Prop := {
  h_window : exists pw, window b (map started_slot ra ++ pw) /\ map record pw = map Some pa;
  h_active : Z.of_nat (length ra) = b.(active_) - b.(min_);
  h_room : b.(max_) - b.(min_) < b.(size_);
  h_limit : 0 <= b.(limit_) < 2 ^ 32 /\ (b.(limit_) <> 0 -> Z.of_nat (length ra) <= b.(limit_));
  h_twin : 0 <= b.(twin_);
  h_max : b.(max_) < 2 ^ 63;
}.

(** The ranges cover the first sends with MPI. *)
Lemma ranges_spec b w : window b w -> b.(max_) - b.(min_) < b.(size_) ->
  let '(i, n, m) := ranges b in
  (n + m)%nat = Nat.min (Z.to_nat (b.(active_) - b.(min_))) (Z.to_nat b.(twin_))
  /\ (forall d, (d < n)%nat -> (i + d)%nat = place b.(size_) b.(min_) d)
  /\ (forall d, (d < m)%nat -> (0 + d)%nat = place b.(size_) b.(min_) (n + d))
  /\ Z.of_nat (i + n) <= b.(size_) /\ Z.of_nat m <= b.(size_).
Proof.
  intros W Hr. destruct (wn_size _ _ W) as (k & Hk & E). destruct (wn_order _ _ W) as (O1 & O2 & O3).
  unfold ranges, place. rewrite E in *. assert (64 <= 2 ^ k) by (change 64 with (2 ^ 6); apply Z.pow_le_mono_r; lia).
  set (sz := 2 ^ k) in *. assert (Hmod : forall a, _index_of a sz = Z.to_nat (a mod sz)) by (intros; apply index_mod; lia).
  set (a := active_ b - min_ b). assert (Ha : 0 <= a < sz) by lia. pose proof (Z.mod_pos_bound (min_ b) sz ltac:(lia)) as Hi.
  rewrite !Hmod. replace (active_ b) with (min_ b + a) by lia. set (i := min_ b mod sz) in *.
  destruct (Z.lt_ge_cases (i + a) sz) as [Hlt|Hge].
  - rewrite (mod_add_small (min_ b) a) by (fold i; lia). fold i.
    destruct (Nat.ltb_spec (Z.to_nat (i + a)) (Z.to_nat i)); [lia|]. repeat split; try lia; intros d Hd; rewrite Hmod.
    rewrite mod_add_small by (fold i; lia). fold i. lia.
  - rewrite (mod_add_wrap (min_ b) a) by (fold i; lia). fold i.
    destruct (Nat.ltb_spec (Z.to_nat (i + a - sz)) (Z.to_nat i)); [|lia]. repeat split; try lia; intros d Hd; rewrite Hmod.
    + rewrite mod_add_small by (fold i; lia). fold i. lia.
    + rewrite mod_add_wrap by (fold i; lia). fold i. lia.
Qed.

(** The places that MPI completes, when it reports [done1] and [done2]. *)
Definition places b (done1 done2 : list nat) : list nat :=
  let '(_, n, m) := ranges b in done1 ++ map (Nat.add n) done2.

(** MPI reports requests of the ranges it is given, in ascending order.  MPI does not document
    an order for MPI_Testsome; the compaction moves the sends right only in this one. *)
Definition testsome_ok b (done1 done2 : list nat) : Prop :=
  let '(_, n, m) := ranges b in
  ascending done1 /\ ascending done2 /\ (forall d, d ∈ done1 -> (d < n)%nat) /\ (forall d, d ∈ done2 -> (d < m)%nat).

Lemma ascending_app (l k : list nat) : ascending l -> ascending k -> (forall c d : nat, c ∈ l -> d ∈ k -> (c < d)%nat) -> ascending (l ++ k).
Proof.
  induction 1 as [|x l Hl IH Hx]; intros Hk H; simpl; [done|]. constructor.
  - apply IH; [done|]. intros y z Hy Hz. apply H; [by right|done].
  - rewrite Forall_forall in *. intros z Hz. apply elem_of_app in Hz as [Hz|Hz]; [by apply Hx|]. apply H; [left|done].
Qed.

Lemma ascending_map n (l : list nat) : ascending l -> ascending (map (Nat.add n) l).
Proof.
  induction 1 as [|x l Hl IH Hx]; simpl; constructor; [done|]. rewrite Forall_forall in *. intros z Hz.
  apply list_elem_of_fmap in Hz as (u & -> & Hu). apply Hx in Hu. lia.
Qed.

Lemma ascending_nodup (l : list nat) : ascending l -> NoDup l.
Proof.
  induction 1 as [|x l Hl IH Hx]; constructor; [|done]. rewrite Forall_forall in Hx. intros Hin. apply Hx in Hin. lia.
Qed.

Lemma places_ok b w done1 done2 : window b w -> b.(max_) - b.(min_) < b.(size_) -> testsome_ok b done1 done2 ->
  ascending (places b done1 done2) /\ forall c, c ∈ places b done1 done2 -> Z.of_nat c < b.(active_) - b.(min_).
Proof.
  intros W Hr Ht. pose proof (ranges_spec b w W Hr) as R. unfold testsome_ok, places in *. destruct (ranges b) as [[i n] m].
  destruct R as (R1 & _). destruct Ht as (T1 & T2 & T3 & T4). split.
  - apply ascending_app; [done|by apply ascending_map|]. intros x z Hx Hz. apply list_elem_of_fmap in Hz as (u & -> & Hu).
    specialize (T3 x Hx). lia.
  - intros c Hc. apply elem_of_app in Hc as [Hc|Hc]; [specialize (T3 c Hc); lia|].
    apply list_elem_of_fmap in Hc as (u & -> & Hu). specialize (T4 u Hu). lia.
Qed.
Lemma testRange_window b w i n done cs : window b w -> Z.of_nat (i + n) <= b.(size_) ->
  (forall d, d ∈ done -> (d < n)%nat) ->
  Forall2 (fun d c => (i + d)%nat = place b.(size_) b.(min_) c) done cs -> NoDup cs ->
  (forall c, c ∈ cs -> exists q r, w !! c = Some (mkSlot q (Some r))) ->
  exists l, testRange b i n done = Some (with_slots b l, completed w cs, map (place b.(size_) b.(min_)) cs)
    /\ window (with_slots b l) (mark w cs).
Proof.
  intros W Hle Hd Hf Hn Hr. unfold testRange. rewrite (proj2 (Z.leb_le _ _) Hle). destruct (Nat.eqb_spec n 0) as [->|Hne].
  - destruct done as [|d done]; [|specialize (Hd d ltac:(left)); lia]. apply Forall2_nil_inv_l in Hf as ->.
    exists (slots b). split; [by destruct b|]. by destruct b.
  - destruct (test_loop_window i done b w cs W Hf Hn Hr) as (l & E & Wl). rewrite E. by exists l.
Qed.

Lemma mark_app cs : forall w p, (forall c, c ∈ cs -> (c < length w)%nat) -> mark (w ++ p) cs = mark w cs ++ p.
Proof.
  unfold mark. induction cs as [|c cs IH]; intros w p H; [done|]. simpl. rewrite insert_app_l by (apply H; left).
  apply IH. intros d Hd. rewrite length_insert. apply H. by right.
Qed.

Lemma mark_lookup cs : forall w c, c ∉ cs -> mark w cs !! c = w !! c.
Proof.
  unfold mark. induction cs as [|d cs IH]; intros w c H; [done|]. simpl. rewrite IH by set_solver.
  apply list_lookup_insert_ne. set_solver.
Qed.

Lemma completed_mark w cs cs' : (forall c, c ∈ cs' -> c ∉ cs) -> completed (mark w cs) cs' = completed w cs'.
Proof.
  intros H. unfold completed. apply list_omap_ext, Forall2_same_length_lookup_2; [done|]. intros n a a' H1 H2.
  assert (a = a') as <- by congruence. apply list_elem_of_lookup_2, H in H1. by rewrite mark_lookup.
Qed.

Lemma completed_started ra pw cs : (forall c, c ∈ cs -> (c < length ra)%nat) ->
  completed (map started_slot ra ++ pw) cs = omap (fun c => ra !! c) cs.
Proof.
  intros H. unfold completed. apply list_omap_ext, Forall2_same_length_lookup_2; [done|]. intros n a a' H1 H2.
  assert (a = a') as <- by congruence. apply list_elem_of_lookup_2, H in H1.
  rewrite lookup_app_l by (by rewrite length_fmap). rewrite list_lookup_fmap. by destruct (ra !! a).
Qed.

(** Both ranges are tested. *)
Lemma tests_window b w done1 done2 : window b w -> b.(max_) - b.(min_) < b.(size_) -> testsome_ok b done1 done2 ->
  (forall c, Z.of_nat c < b.(active_) - b.(min_) -> exists q r, w !! c = Some (mkSlot q (Some r))) ->
  let cs := places b done1 done2 in
  exists i n m cs1 cs2 l1 l2, ranges b = (i, n, m) /\ cs = cs1 ++ cs2
    /\ testRange b i n done1 = Some (with_slots b l1, completed w cs1, map (place b.(size_) b.(min_)) cs1)
    /\ testRange (with_slots b l1) 0 m done2 = Some (with_slots b l2, completed w cs2, map (place b.(size_) b.(min_)) cs2)
    /\ window (with_slots b l2) (mark w cs).
Proof.
  intros W Hr Ht Hrec cs. destruct (places_ok b w done1 done2 W Hr Ht) as [Ha Hc]. fold cs in Ha, Hc.
  pose proof (ranges_spec b w W Hr) as R. unfold cs, places, testsome_ok in *. destruct (ranges b) as [[i n] m].
  destruct R as (R1 & R2 & R3 & R4 & R5). destruct Ht as (T1 & T2 & T3 & T4).
  apply ascending_nodup, NoDup_app in Ha as (N1 & N2 & N3).
  destruct (testRange_window b w i n done1 done1 W R4 T3) as (l1 & E1 & W1).
  - apply Forall2_same_length_lookup_2; [done|]. intros k d d' H1 H2. assert (d = d') as <- by congruence.
    apply R2, T3. by eapply list_elem_of_lookup_2.
  - done.
  - intros c Hin. apply Hrec, Hc. apply elem_of_app. by left.
  - destruct (testRange_window _ _ 0 m done2 (map (Nat.add n) done2) W1) as (l2 & E2 & W2); [done|done|..].
    + apply Forall2_same_length_lookup_2; [by rewrite length_fmap|]. intros k d d' H1 H2. rewrite list_lookup_fmap, H1 in H2.
      injection H2 as <-. apply R3, T4. by eapply list_elem_of_lookup_2.
    + done.
    + intros c Hin. destruct (Hrec c) as (q & r & Hw); [apply Hc, elem_of_app; by right|]. exists q, r.
      rewrite mark_lookup; [done|]. intros Hin1. by apply (N2 c).
    + exists i, n, m, done1, (map (Nat.add n) done2), l1, l2. split; [done|]. split; [done|]. split; [done|]. split.
      * rewrite E2. rewrite completed_mark; [done|]. intros c H1 H2. by apply (N2 c).
      * unfold mark in *. rewrite foldl_app. done.
Qed.
Lemma slot_started b ra pw c : Z.of_nat (length ra) = b.(active_) - b.(min_) ->
  Z.of_nat c < b.(active_) - b.(min_) -> exists q r, (map started_slot ra ++ pw) !! c = Some (mkSlot q (Some r)).
Proof.
  intros Hl Hc. destruct (lookup_lt_is_Some_2 ra c ltac:(lia)) as [r Hr]. exists (Some (isend r.1)), r.
  rewrite lookup_app_l by (rewrite length_fmap; lia). by rewrite list_lookup_fmap, Hr.
Qed.

(** Compaction keeps the sends that MPI did not complete. *)
Lemma compact_window b ra pw cs : window b (mark (map started_slot ra ++ pw) cs) ->
  Z.of_nat (length ra) = b.(active_) - b.(min_) -> b.(max_) < 2 ^ 63 ->
  ascending cs -> inside 0 ra cs -> (length cs <= length ra)%nat ->
  exists l, compact b (map (place b.(size_) b.(min_)) cs) = Some (moved b (b.(min_) + Z.of_nat (length cs)) l)
    /\ window (moved b (b.(min_) + Z.of_nat (length cs)) l) (map started_slot (fill 0 ra cs) ++ pw).
Proof.
  intros W Ha Hm Hs Hc Hn. destruct (wn_order _ _ W) as (O1 & O2 & O3). destruct (fill_perm cs 0 ra Hs Hc) as [_ Hl].
  assert (Hc' : forall c, c ∈ cs -> (c < length (map started_slot ra))%nat).
  { intros c Hin. rewrite length_fmap. pose proof (Hc c Hin). lia. }
  unfold compact. rewrite length_map. assert (Eu : u64 (active_ b - min_ b) = Z.of_nat (length ra)) by (rewrite Ha; apply wrap_small; lia).
  rewrite Eu. destruct (Z.eqb_spec (Z.of_nat (length cs)) (Z.of_nat (length ra))) as [He|He].
  - exists (slots b). assert (Em : u64 (min_ b + Z.of_nat (length cs)) = min_ b + Z.of_nat (length cs)) by (apply wrap_small; lia).
    rewrite Em. split; [done|]. apply (window_advance _ _ (length cs)) in W;
      [|rewrite mark_length, length_app, length_fmap; lia|lia].
    rewrite mark_app in W by done.
    destruct (fill 0 ra cs); [|simpl in Hl; lia]. rewrite drop_app_length' in W by (rewrite mark_length, length_fmap; lia). exact W.
  - destruct (wn_size _ _ W) as (k & Hk & Ek). pose proof (wn_bound _ _ W) as Hb. rewrite mark_length, length_app, length_fmap in Hb.
    assert (2 ^ k <= 2 ^ 29) by (apply Z.pow_le_mono_r; lia). destruct (Z.ltb_spec (Z.of_nat (length cs)) 1073741823); [|lia].
    destruct (compact_loop_window cs 0 b _ (min_ b) W Hs) as (l & E & Wl); [|lia|lia|].
    + intros c Hin. rewrite mark_length, length_app, length_fmap. pose proof (Hc c Hin). lia.
    + exists l. split; [exact E|]. rewrite fill_marked in Wl by done. rewrite fill_app in Wl; [by rewrite fill_map in Wl|done|].
      intros c Hin. rewrite length_fmap. by apply Hc.
Qed.

Lemma ascending_length cs n : ascending cs -> (forall c, c ∈ cs -> (c < n)%nat) -> (length cs <= n)%nat.
Proof.
  intros Hs H. rewrite <- (length_seq n 0). apply submseteq_length, NoDup_submseteq; [by apply ascending_nodup|].
  intros c Hc. apply elem_of_seq. specialize (H c Hc). lia.
Qed.

Lemma testAll_holds b ra pa done1 done2 : holds b ra pa -> testsome_ok b done1 done2 ->
  exists b' cs ra', testAll b done1 done2 = Some (b', cs) /\ ra ≡ₚ cs ++ ra' /\ holds b' ra' pa
    /\ b'.(limit_) = b.(limit_) /\ b'.(max_) = b.(max_) /\ length cs = (length done1 + length done2)%nat /\ 0 < b'.(twin_).
Proof.
  intros [(pw & W & Hp) Ha Hr Hl Ht Hm] Hd. destruct (places_ok _ _ _ _ W Hr Hd) as [Hs Hc].
  destruct (tests_window _ _ _ _ W Hr Hd (fun c => slot_started b ra pw c Ha)) as (i & n & m & cs1 & cs2 & l1 & l2 & E0 & Ecs & E1 & E2 & W2).
  set (cs := places b done1 done2) in *. assert (Hin : inside 0 ra cs) by (intros c Hin; specialize (Hc c Hin); lia).
  assert (Hlen : (length cs <= length ra)%nat) by (apply ascending_length; [done|intros c Hcc; specialize (Hin c Hcc); lia]).
  destruct (fill_perm cs 0 ra Hs Hin) as [Hperm Hlf]. destruct (wn_order _ _ W) as (O1 & O2 & O3).
  destruct (compact_window (with_slots b l2) ra pw cs W2 Ha Hm Hs Hin Hlen) as (l & E3 & W3).
  unfold testAll. rewrite E0, E1. cbn [mbind option_bind]. rewrite E2. cbn [mbind option_bind].
  rewrite <- map_app, <- Ecs.
  assert (Hcomp : completed (map started_slot ra ++ pw) cs1 ++ completed (map started_slot ra ++ pw) cs2 = omap (fun c => ra !! c) cs).
  { rewrite <- (completed_started ra pw cs) by (intros c Hcc; specialize (Hin c Hcc); lia). rewrite Ecs. unfold completed. by rewrite omap_app. }
  rewrite Hcomp. clear Hcomp. assert (E4 : exists l, match map (place (size_ b) (min_ b)) cs with [] => Some (with_slots b l2) | _ => compact (with_slots b l2) (map (place (size_ b) (min_ b)) cs) end
    = Some (moved b (min_ b + Z.of_nat (length cs)) l) /\ window (moved b (min_ b + Z.of_nat (length cs)) l) (map started_slot (fill 0 ra cs) ++ pw)).
  { destruct cs as [|c cs']; [exists l2|by exists l].
    cbn [length]. rewrite Z.add_0_r. split; [done|]. by destruct ra. }
  clear E3 W3 l. destruct E4 as (l & E4 & W4). rewrite E4. cbn [mbind option_bind].
  eexists _, _, _. split; [reflexivity|]. rewrite (list_omap_ext _ (fun c => ra !! (c - 0)%nat) cs cs).
  2: { apply Forall2_same_length_lookup_2; [done|]. intros ? x y H1 H2. assert (x = y) as <- by congruence. by rewrite Nat.sub_0_r. }
  rewrite length_map. assert (Htw : 0 < (if Z.of_nat (length cs) >=? twin_ b then u32 (twin_ b + ISIR_TWIN_INC)
    else if twin_ b - Z.of_nat (length cs) >? ISIR_TWIN_INC then twin_ b - ISIR_TWIN_INC else twin_ b)).
  { pose proof (wn_bound _ _ W) as Hb. destruct (wn_size _ _ W) as (k & Hk & Ek). rewrite length_app, length_map in Hb.
    assert (2 ^ k <= 2 ^ 29) by (apply Z.pow_le_mono_r; lia). unfold ISIR_TWIN_INC. rewrite Z.geb_leb.
    destruct (Z.leb_spec (twin_ b) (Z.of_nat (length cs))); [rewrite wrap_small by lia; lia|].
    destruct (Z.gtb_spec (twin_ b - Z.of_nat (length cs)) 10); lia. }
  split; [exact Hperm|]. split; [|split; [done|split; [done|split; [|exact Htw]]]].
  - destruct W4 as [? ? ? ? ? ?]. simpl in *. split; simpl; try done; try lia. exists pw. split; [|done]. by split.
  - apply Permutation_length in Hperm. rewrite length_app in Hperm.
    assert (length cs = length done1 + length done2)%nat by (unfold cs, places; rewrite E0, length_app, length_map; done). lia.
Qed.
(** ** Starting and appending *)

Lemma start_loop_window n : forall b ra pa pw acc, window b (map started_slot ra ++ pw) -> map record pw = map Some pa ->
  Z.of_nat (length ra) = b.(active_) - b.(min_) -> (n <= length pa)%nat ->
  exists l, let b' := with_active (with_slots b l) (b.(active_) + Z.of_nat n) in
    start_loop n b acc = Some (b', acc ++ take n pa) /\ window b' (map started_slot (ra ++ take n pa) ++ drop n pw).
Proof.
  induction n as [|n IH]; intros b ra pa pw acc W Hp Ha Hn; cbn [start_loop].
  - exists (slots b). rewrite Z.add_0_r, !take_0, drop_0, !app_nil_r. destruct b; done.
  - destruct pa as [|r pa]; [simpl in Hn; lia|]. destruct pw as [|x pw]; [done|]. injection Hp as Hx Hp.
    assert (Hlt : (length ra < length (map started_slot ra ++ x :: pw))%nat) by (rewrite length_app, length_fmap; simpl; lia).
    assert (Hat : (map started_slot ra ++ x :: pw) !! length ra = Some x) by (by rewrite lookup_app_r, length_fmap, Nat.sub_diag by (by rewrite length_fmap)).
    pose proof (wn_at _ _ W _ _ Hat) as Hs. pose proof (window_set b _ (length ra) (started_slot r) W Hlt) as W1.
    replace (min_ b + Z.of_nat (length ra)) with (active_ b) in Hs, W1 by lia. unfold at_id in Hs. unfold start. rewrite Hs. cbn [mbind option_bind].
    rewrite Hx. cbn [mbind option_bind]. fold (started_slot r). destruct (wn_order _ _ W) as (O1 & O2 & O3). pose proof (wn_length _ _ W) as Hlen.
    set (b1 := with_slots b _) in *. assert (Eu : u64 (active_ b1 + 1) = active_ b + 1) by (simpl; apply wrap_small; lia). rewrite Eu.
    assert (W2 : window (with_active b1 (active_ b + 1)) (map started_slot (ra ++ [r]) ++ pw)).
    { rewrite insert_app_r_alt, length_fmap, Nat.sub_diag in W1 by (by rewrite length_fmap). simpl in W1.
      rewrite map_app, <- app_assoc. simpl. destruct W1 as [? ? ? ? ? ?]. split; simpl in *; try done; lia. }
    destruct (IH _ _ pa _ (acc ++ [r]) W2 Hp) as (l & E & W3); [rewrite length_app; simpl; lia|simpl in Hn; lia|].
    exists l. cbv zeta in *. rewrite E. rewrite <- !app_assoc in *. simpl in *.
    replace (active_ b + 1 + Z.of_nat n) with (active_ b + Z.of_nat (S n)) in * by lia. done.
Qed.

(** How many sends are started. *)
Definition to_start b (ra pa : list (Z * list Z)) : nat :=
  if nz b.(limit_) then Nat.min (Z.to_nat b.(limit_) - length ra) (length pa) else length pa.

Lemma startAll_holds b ra pa : holds b ra pa ->
  exists b', startAll b = Some (b', take (to_start b ra pa) pa) /\ b'.(limit_) = b.(limit_) /\ b'.(max_) = b.(max_) /\ b'.(twin_) = b.(twin_)
    /\ holds b' (ra ++ take (to_start b ra pa) pa) (drop (to_start b ra pa) pa).
Proof.
  intros [(pw & W & Hp) Ha Hr Hl Ht Hm]. destruct (wn_order _ _ W) as (O1 & O2 & O3). pose proof (wn_length _ _ W) as Hlen.
  pose proof (f_equal length Hp) as Hpl. rewrite !length_map in Hpl. rewrite length_app, length_fmap in Hlen.
  assert (Hn : Z.to_nat ((if nz (limit_ b) then Z.min (u64 (min_ b + limit_ b)) (max_ b) else max_ b) - active_ b) = to_start b ra pa).
  { unfold to_start. unfold nz. destruct (Z.eqb_spec (limit_ b) 0); simpl; [lia|].
    assert (Eu : u64 (min_ b + limit_ b) = min_ b + limit_ b) by (apply wrap_small; lia). rewrite Eu. lia. }
  assert (Hle : (to_start b ra pa <= length pa)%nat) by (unfold to_start; destruct (nz _); lia).
  unfold startAll. rewrite Hn. destruct (start_loop_window (to_start b ra pa) b ra pa pw [] W Hp Ha Hle) as (l & E & W').
  cbv zeta in *. rewrite E. eexists. split; [reflexivity|]. do 3 (split; [done|]). split; simpl; try done.
  - exists (drop (to_start b ra pa) pw). split; [done|]. by rewrite <- !skipn_map, Hp.
  - rewrite length_app, length_take. lia.
  - split; [lia|]. intros Hnz. rewrite length_app, length_take. unfold to_start, nz in *.
    destruct (Z.eqb_spec (limit_ b) 0); simpl in *; lia.
Qed.

(** A write of the slot after the window extends it. *)
Lemma window_push b w x : window b w -> Z.of_nat (length w) < b.(size_) -> b.(max_) + 1 < 2 ^ 64 ->
  window (mkISends b.(limit_) b.(twin_) b.(size_) b.(min_) b.(active_) (b.(max_) + 1)
            (<[_index_of b.(max_) b.(size_) := x]> b.(slots))) (w ++ [x]).
Proof.
  intros W Hl Hm. pose proof W as [W1 W2 W3 W4 W5 W6]. split; simpl; rewrite ?length_insert, ?length_app; simpl; try done; try lia.
  intros j y Hj. unfold at_id; simpl. apply lookup_app_Some in Hj as [Hj|[Hge Hj]].
  - apply lookup_lt_Some in Hj as Hlt. rewrite list_lookup_insert_ne; [by apply W6|]. apply (index_ne b w); [done|lia|lia].
  - apply list_lookup_singleton_Some in Hj as [Hz <-]. replace (min_ b + Z.of_nat j) with (max_ b) by lia.
    apply list_lookup_insert_eq. by apply (index_lt b w).
Qed.

Lemma append_holds b ra pa p ssync : holds b ra pa -> b.(max_) + 1 < 2 ^ 63 -> Z.of_nat (length ra + length pa) < 2 ^ 28 ->
  exists b', append b p ssync = Some b' /\ holds b' ra (pa ++ [(p, ssync)])
    /\ b'.(limit_) = b.(limit_) /\ b'.(max_) = b.(max_) + 1.
Proof.
  intros [(pw & W & Hp) Ha Hr Hl Ht Hm] Hm1 Hs. destruct (wn_order _ _ W) as (O1 & O2 & O3). pose proof (wn_length _ _ W) as Hlen.
  pose proof (f_equal length Hp) as Hpl. rewrite !length_map in Hpl. unfold append.
  destruct (lookup_lt_is_Some_2 _ _ (index_lt _ _ (max_ b) W)) as [x Hx]. rewrite Hx. cbn [mbind option_bind].
  set (y := mkSlot (request x) (Some (p, ssync))). assert (Eu : u64 (max_ b + 1) = max_ b + 1) by (apply wrap_small; lia). rewrite Eu.
  pose proof (window_push b _ y W ltac:(lia) ltac:(lia)) as W1. rewrite <- app_assoc in W1.
  set (b1 := mkISends _ _ _ _ _ _ _) in *. assert (Hp1 : map record (pw ++ [y]) = map Some (pa ++ [(p, ssync)])) by (by rewrite !map_app, Hp).
  assert (Eu1 : u64 (max_ b1 - min_ b1) = max_ b1 - min_ b1) by (simpl; apply wrap_small; lia). rewrite Eu1.
  rewrite length_app, length_fmap in Hlen. destruct (Z.leb_spec (size_ b1) (max_ b1 - min_ b1)) as [Hfull|Hroom]; simpl in *.
  - assert (Hsz : size_ b <= 2 ^ 28) by lia. destruct (wn_size _ _ W) as (k & Hk & Ek).
    assert (64 <= 2 ^ k) by (change 64 with (2 ^ 6); apply Z.pow_le_mono_r; lia).
    destruct (reserve_full b1 _ W1) as (l & E & W2); [rewrite (wn_length _ _ W1); simpl; lia|done|].
    assert (Eu2 : u32 (2 * size_ b) = 2 * size_ b) by (apply wrap_small; lia). rewrite Eu2. simpl in E. rewrite E.
    eexists. split; [reflexivity|]. split; [|done]. split; simpl; try done; try lia. by exists (pw ++ [y]).
  - eexists. split; [reflexivity|]. split; [|done]. split; simpl; try done; try lia. by exists (pw ++ [y]).
Qed.
(** ** Runs *)

(** The runs of a buffer: what was appended, what was started, and what was completed.  An
    append has fewer than 2^28 sends in the buffer and 2^63 - 1 in all; a report of MPI
    names requests it was given, ascending. *)
Inductive runs (limit twin : Z) : isends -> list (Z * list Z) -> list (Z * list Z) -> list (Z * list Z) -> Prop :=
  | runs_init b : ISendBuffer limit twin = Some b -> runs limit twin b [] [] []
  | runs_append b a s c p ssync b' : runs limit twin b a s c ->
      Z.of_nat (length a) + 1 < 2 ^ 63 -> Z.of_nat (length a - length c) < 2 ^ 28 ->
      append b p ssync = Some b' -> runs limit twin b' (a ++ [(p, ssync)]) s c
  | runs_progress b a s c d1 d2 b' c' s' : runs limit twin b a s c ->
      testsome_ok b d1 d2 -> progress b d1 d2 = Some (b', c', s') -> runs limit twin b' a (s ++ s') (c ++ c').

(** What a run establishes, with the sends [ra] at MPI and those [pa] that wait. *)
Record keeps (limit : Z) b (a s c ra pa : list (Z * list Z)) : Prop := {
  k_holds : holds b ra pa;
  k_order : a = s ++ pa;
  k_once : s ≡ₚ c ++ ra;
  k_limit : b.(limit_) = limit;
  k_max : b.(max_) = Z.of_nat (length a);
}.

Lemma keeps_append limit b a s c ra pa p ssync : keeps limit b a s c ra pa ->
  Z.of_nat (length a) + 1 < 2 ^ 63 -> Z.of_nat (length a - length c) < 2 ^ 28 ->
  exists b', append b p ssync = Some b' /\ keeps limit b' (a ++ [(p, ssync)]) s c ra (pa ++ [(p, ssync)]).
Proof.
  intros [K1 K2 K3 K4 K5] H1 H2. pose proof (Permutation_length K3) as Hl. rewrite length_app in Hl.
  pose proof (f_equal length K2) as Hl2. rewrite length_app in Hl2.
  destruct (append_holds b ra pa p ssync K1) as (b' & E & Hh & E1 & E2); [lia|lia|].
  exists b'. split; [done|]. split; [done|by rewrite K2, app_assoc|done|congruence|]. rewrite length_app. simpl. lia.
Qed.

Lemma keeps_progress limit b a s c ra pa d1 d2 : keeps limit b a s c ra pa -> testsome_ok b d1 d2 ->
  exists b' c' s' ra' pa', progress b d1 d2 = Some (b', c', s') /\ keeps limit b' a (s ++ s') (c ++ c') ra' pa'
    /\ (pa' = [] \/ limit <> 0 /\ Z.of_nat (length ra') = limit)
    /\ length c' = (length d1 + length d2)%nat /\ 0 < b'.(twin_).
Proof.
  intros [K1 K2 K3 K4 K5] Ht. destruct (testAll_holds b ra pa d1 d2 K1 Ht) as (b1 & cs & ra1 & E1 & Hp & Hh & El & Em & Hlc & Htw).
  destruct (startAll_holds b1 ra1 pa Hh) as (b2 & E2 & El2 & Em2 & Etw & Hh2). set (n := to_start b1 ra1 pa) in *.
  exists b2, cs, (take n pa), (ra1 ++ take n pa), (drop n pa). unfold progress. rewrite E1. cbn [mbind option_bind]. rewrite E2. split; [done|].
  split; [|split; [|split; [done|congruence]]].
  - split; [done| |by rewrite K3, Hp, !app_assoc|congruence|congruence].
    by rewrite <- app_assoc, take_drop.
  - pose proof (h_limit _ _ _ Hh) as Hlim. unfold n, to_start, nz. rewrite El, K4 in *. rewrite length_app, length_take.
    destruct (Z.eqb_spec limit 0); simpl; [left; by rewrite drop_all|].
    destruct (Nat.le_gt_cases (length pa) (Z.to_nat limit - length ra1)); [left; rewrite Nat.min_r by lia; by rewrite drop_all|right; lia].
Qed.

Lemma init_keeps limit twin : 0 <= limit < 2 ^ 32 -> 0 <= twin ->
  exists b, ISendBuffer limit twin = Some b /\ keeps limit b [] [] [] [] [].
Proof.
  intros Hl Ht. eexists. split; [reflexivity|]. split; [|done..]. split; simpl; try done; try lia.
  exists []. split; [|done]. split; simpl; try done. by exists 6.
Qed.

Lemma keeps_count limit b a s c ra pa : keeps limit b a s c ra pa -> b.(max_) - b.(min_) = Z.of_nat (length ra + length pa).
Proof.
  intros K. destruct (h_window _ _ _ (k_holds _ _ _ _ _ _ _ K)) as (pw & W & E). rewrite <- (wn_length _ _ W), length_app, length_map.
  apply (f_equal length) in E. rewrite !length_map in E. by rewrite E.
Qed.

Lemma runs_keeps limit twin b a s c : 0 <= limit < 2 ^ 32 -> 0 <= twin -> runs limit twin b a s c ->
  exists ra pa, keeps limit b a s c ra pa.
Proof.
  intros Hl Ht. induction 1 as [b E|b a s c p ssync b' _ (ra & pa & K) H1 H2 E|b a s c d1 d2 b' c' s' _ (ra & pa & K) Hd E].
  - destruct (init_keeps limit twin Hl Ht) as (b0 & E0 & K). exists [], []. by simplify_eq.
  - destruct (keeps_append _ _ _ _ _ _ _ p ssync K H1 H2) as (b0 & E0 & K'). eexists _, _. by simplify_eq.
  - destruct (keeps_progress _ _ _ _ _ _ _ _ _ K Hd) as (b0 & c0 & s0 & ra' & pa' & E0 & K' & _). eexists _, _. by simplify_eq.
Qed.

(** In every run of the buffer of sends, every parcel appended is started exactly once and
    in the order of the appends, and completed at most once: what was started is what was
    completed and what is at MPI.  The buffer occupies exactly the sends not yet completed,
    at most [limit] of them at MPI.  A further append succeeds, also when the buffer grows,
    and whatever MPI reports in ascending order, progress succeeds, and leaves nothing waiting
    unless the limit is reached. *)
Theorem isend_exactly_once limit twin b a s c : 0 <= limit < 2 ^ 32 -> 0 <= twin -> runs limit twin b a s c ->
  exists ra pa, a = s ++ pa /\ s ≡ₚ c ++ ra
    /\ b.(max_) - b.(min_) = Z.of_nat (length ra + length pa)
    /\ (limit <> 0 -> Z.of_nat (length ra) <= limit)
    /\ (forall p ssync, Z.of_nat (length a) + 1 < 2 ^ 63 -> Z.of_nat (length a - length c) < 2 ^ 28 ->
         is_Some (append b p ssync))
    /\ (forall d1 d2, testsome_ok b d1 d2 -> exists b' c' s', progress b d1 d2 = Some (b', c', s')
         /\ (length (s ++ s') = length a \/ limit <> 0 /\ Z.of_nat (length (s ++ s')) = Z.of_nat (length (c ++ c')) + limit)).
Proof.
  intros Hl Ht Hr. destruct (runs_keeps _ _ _ _ _ _ Hl Ht Hr) as (ra & pa & K). exists ra, pa.
  pose proof (k_order _ _ _ _ _ _ _ K) as Ho. pose proof (k_once _ _ _ _ _ _ _ K) as Hp. pose proof (k_holds _ _ _ _ _ _ _ K) as Hh.
  do 2 (split; [done|]). split; [|split; [|split]].
  - apply (keeps_count _ _ _ _ _ _ _ K).
  - rewrite <- (k_limit _ _ _ _ _ _ _ K). apply (h_limit _ _ _ Hh).
  - intros p ssync H1 H2. destruct (keeps_append _ _ _ _ _ _ _ p ssync K H1 H2) as (b' & E & _). by exists b'.
  - intros d1 d2 Hd. destruct (keeps_progress _ _ _ _ _ _ _ _ _ K Hd) as (b' & c' & s' & ra' & pa' & E & K' & Hw & _).
    exists b', c', s'. split; [done|]. destruct K' as [_ K2 K3 _ _]. apply Permutation_length in K3. rewrite (length_app (c ++ c')) in K3.
    destruct Hw as [->|[Hn <-]]; [left; by rewrite K2, app_nil_r|right; lia].
Qed.

(** ** Flushing *)

(** MPI completes some request whenever it is given one. *)
Definition fair (mpi : isends -> list nat * list nat) : Prop := forall b,
  testsome_ok b (mpi b).1 (mpi b).2 /\ let '(_, n, m) := ranges b in (0 < n + m -> 0 < length (mpi b).1 + length (mpi b).2)%nat.

Lemma keeps_sum limit b a s c ra pa : keeps limit b a s c ra pa -> length a = (length c + length ra + length pa)%nat.
Proof. intros [_ -> K3 _ _]. apply Permutation_length in K3. rewrite !length_app in *. lia. Qed.

(** With a request at MPI, and a test window that is not empty, a round completes one. *)
Lemma round_completes limit b a s c ra pa mpi : keeps limit b a s c ra pa -> fair mpi -> ra <> [] -> 0 < b.(twin_) ->
  (0 < length (mpi b).1 + length (mpi b).2)%nat.
Proof.
  intros K Hf Hra Ht. destruct (k_holds _ _ _ _ _ _ _ K) as [(pw & W & _) Ha Hr _ _ _]. pose proof (ranges_spec b _ W Hr) as R.
  destruct (Hf b) as [_ H]. destruct (ranges b) as [[i n] m]. destruct R as [R _]. apply H. rewrite R. destruct ra; [done|]. simpl in Ha. lia.
Qed.

Lemma flush_ready mpi limit fuel : fair mpi -> forall b a s c ra pa, keeps limit b a s c ra pa ->
  0 < b.(twin_) -> (ra = [] -> pa = []) -> (length ra + length pa <= fuel)%nat ->
  exists b' c' s', flush mpi fuel b = Some (b', c', s') /\ keeps limit b' a (s ++ s') (c ++ c') [] [].
Proof.
  intros Hf. induction fuel as [|fuel IH]; intros b a s c ra pa K Ht Hr Hl; pose proof (keeps_count _ _ _ _ _ _ _ K) as Hc; cbn [flush].
  - destruct ra, pa; [|simpl in Hl; lia..]. destruct (Z.eqb_spec (min_ b) (max_ b)); [|simpl in Hc; lia].
    exists b, [], []. by rewrite !app_nil_r.
  - destruct (Z.eqb_spec (min_ b) (max_ b)) as [He|He].
    { destruct ra, pa; [|simpl in Hc; lia..]. exists b, [], []. by rewrite !app_nil_r. }
    assert (Hra : ra <> []) by (intros ->; rewrite Hr in Hc by done; simpl in Hc; lia).
    pose proof (round_completes _ _ _ _ _ _ _ _ K Hf Hra Ht) as Hd.
    destruct (keeps_progress _ _ _ _ _ _ _ _ _ K (proj1 (Hf b))) as (b1 & c1 & s1 & ra1 & pa1 & E & K1 & Hw & Hc1 & Ht1).
    pose proof (keeps_sum _ _ _ _ _ _ _ K) as Hs. pose proof (keeps_sum _ _ _ _ _ _ _ K1) as Hs1. rewrite length_app in Hs1.
    destruct (IH _ _ _ _ _ _ K1 Ht1) as (b2 & c2 & s2 & E2 & K2); [|lia|].
    + intros ->. destruct Hw as [|[H1 H2]]; [done|]. simpl in H2. lia.
    + exists b2, (c1 ++ c2), (s1 ++ s2). rewrite E. cbn [mbind option_bind]. rewrite E2. cbn [mbind option_bind]. by rewrite !app_assoc.
Qed.

(** A first round brings the buffer to a state where every further round completes a send. *)
Lemma flush_keeps mpi limit b a s c ra pa : fair mpi -> keeps limit b a s c ra pa ->
  exists b' c' s', flush mpi (S (length ra + length pa)) b = Some (b', c', s') /\ keeps limit b' a (s ++ s') (c ++ c') [] [].
Proof.
  intros Hf K. pose proof (keeps_count _ _ _ _ _ _ _ K) as Hc. cbn [flush]. destruct (Z.eqb_spec (min_ b) (max_ b)) as [He|He].
  { destruct ra, pa; [|simpl in Hc; lia..]. exists b, [], []. by rewrite !app_nil_r. }
  destruct (keeps_progress _ _ _ _ _ _ _ _ _ K (proj1 (Hf b))) as (b1 & c1 & s1 & ra1 & pa1 & E & K1 & Hw & Hc1 & Ht1).
  pose proof (keeps_sum _ _ _ _ _ _ _ K) as Hs. pose proof (keeps_sum _ _ _ _ _ _ _ K1) as Hs1. rewrite length_app in Hs1.
  destruct (flush_ready mpi limit (length ra + length pa) Hf _ _ _ _ _ _ K1 Ht1) as (b2 & c2 & s2 & E2 & K2); [|lia|].
  - intros ->. destruct Hw as [|[H1 H2]]; [done|]. simpl in H2. lia.
  - exists b2, (c1 ++ c2), (s1 ++ s2). rewrite E. cbn [mbind option_bind]. rewrite E2. cbn [mbind option_bind]. by rewrite !app_assoc.
Qed.

(** When MPI completes at least one of the requests it is asked about whenever it is asked
    about any, the flush of a buffer of sends returns after at most one round more than
    there are sends in the buffer, whatever the limit and the test window, a window of zero
    included; then every parcel that was ever appended has been started, and completed exactly
    once. *)
Theorem flush_completes mpi limit twin b a s c : fair mpi -> 0 <= limit < 2 ^ 32 -> 0 <= twin -> runs limit twin b a s c ->
  exists b' c' s', flush mpi (S (Z.to_nat (b.(max_) - b.(min_)))) b = Some (b', c', s')
    /\ s ++ s' = a /\ c ++ c' ≡ₚ a /\ b'.(min_) = b'.(max_) /\ b'.(active_) = b'.(max_).
Proof.
  intros Hf Hl Ht Hr. destruct (runs_keeps _ _ _ _ _ _ Hl Ht Hr) as (ra & pa & K). rewrite (keeps_count _ _ _ _ _ _ _ K), Nat2Z.id.
  destruct (flush_keeps mpi limit b a s c ra pa Hf K) as (b' & c' & s' & E & K'). exists b', c', s'. split; [done|].
  pose proof (keeps_count _ _ _ _ _ _ _ K') as Hc. destruct K' as [K1 K2 K3 _ _]. pose proof (h_active _ _ _ K1) as Ha.
  rewrite app_nil_r in K2, K3. simpl in *. split; [done|]. split; [by rewrite <- K3, K2|lia].
Qed.
End ISend.

(** ** A run *)

Fixpoint append_list (ps : list Z) (b : isends) : option isends :=
  match ps with
  | [] => Some b
  | p :: ps => b ← append b p []; append_list ps b
  end.

Lemma append_list_runs isend limit twin ps : forall b a s c b', runs isend limit twin b a s c ->
  Z.of_nat (length a + length ps) < 2 ^ 28 -> append_list ps b = Some b' ->
  runs isend limit twin b' (a ++ map (fun p => (p, [])) ps) s c.
Proof.
  induction ps as [|p ps IH]; intros b a s c b' Hr Hl E; simpl in *.
  - injection E as <-. by rewrite app_nil_r.
  - destruct (append b p []) as [b1|] eqn:E1; [|done]. simpl in E. change ((p, []) :: map (fun p0 => (p0, [])) ps) with ([(p, @nil Z)] ++ map (fun p0 => (p0, @nil Z)) ps).
    rewrite app_assoc. apply (IH b1); [|rewrite length_app; simpl; lia|done]. apply (runs_append _ _ _ b); [done|lia|lia|done].
Qed.

Definition demo_isend (p : Z) : Z := p + 1000.

Definition sends (ps : list Z) : list (Z * list Z) := map (fun p => (p, [])) ps.

Definition no_isends : isends := mkISends 0 0 0 0 0 0 [].

(** Seventy parcels, so that the buffer grows; four are started, two of them complete, and
    two more are started. *)
Definition demo_start : isends := default no_isends (ISendBuffer 4 10).

Definition demo_parcels : list Z := map Z.of_nat (seq 1 70).

Definition demo_full : isends := default no_isends (append_list demo_parcels demo_start).

Definition demo_first : isends := default no_isends ('(b, _, _) ← progress demo_isend demo_full [] []; Some b).

Definition demo_second : isends := default no_isends ('(b, _, _) ← progress demo_isend demo_first [1; 2]%nat []; Some b).

Lemma demo_start_ok : ISendBuffer 4 10 = Some demo_start.
Proof. by vm_compute. Qed.

Lemma demo_full_ok : append_list demo_parcels demo_start = Some demo_full.
Proof. by vm_compute. Qed.

Lemma demo_grown : size_ demo_full = 128.
Proof. by vm_compute. Qed.

Lemma demo_first_ok : progress demo_isend demo_full [] [] = Some (demo_first, [], sends [1; 2; 3; 4]).
Proof. by vm_compute. Qed.

Lemma demo_second_ok : progress demo_isend demo_first [1; 2]%nat [] = Some (demo_second, sends [2; 3], sends [5; 6]).
Proof. by vm_compute. Qed.

Lemma testsome_nil b : testsome_ok b [] [].
Proof. unfold testsome_ok. destruct (ranges b) as [[i n] m]. split_and!; try constructor; intros d Hd; by apply elem_of_nil in Hd. Qed.

Lemma demo_ranges : ranges demo_first = (0, 4, 0)%nat.
Proof. by vm_compute. Qed.

Lemma demo_testsome : testsome_ok demo_first [1; 2]%nat [].
Proof.
  unfold testsome_ok. rewrite demo_ranges. split_and!; [repeat constructor|constructor| |].
  - intros d. rewrite !elem_of_cons, elem_of_nil. lia.
  - intros d. rewrite elem_of_nil. lia.
Qed.

Lemma demo_isend_runs : runs demo_isend 4 10 demo_second (sends demo_parcels) (sends [1; 2; 3; 4] ++ sends [5; 6]) (sends [2; 3]).
Proof.
  assert (H : runs demo_isend 4 10 demo_full ([] ++ sends demo_parcels) [] []).
  { apply (append_list_runs demo_isend 4 10 _ demo_start); [apply runs_init, demo_start_ok|simpl; lia|apply demo_full_ok]. }
  pose proof (runs_progress _ _ _ _ _ _ _ _ _ _ _ _ H (testsome_nil _) demo_first_ok) as H1.
  exact (runs_progress _ _ _ _ _ _ _ _ _ _ _ _ H1 demo_testsome demo_second_ok).
Qed.

Lemma isend_exactly_once_witness : exists ra pa, sends demo_parcels = (sends [1; 2; 3; 4] ++ sends [5; 6]) ++ pa
  /\ sends [1; 2; 3; 4] ++ sends [5; 6] ≡ₚ sends [2; 3] ++ ra /\ Z.of_nat (length ra) <= 4.
Proof.
  destruct (isend_exactly_once demo_isend 4 10 demo_second _ _ _ ltac:(lia) ltac:(lia) demo_isend_runs) as (ra & pa & H1 & H2 & _ & H3 & _).
  exists ra, pa. split; [exact H1|]. split; [exact H2|]. apply H3. lia.
Defined.

(** An MPI that completes the first request it is given. *)
Definition first_mpi b : list nat * list nat :=
  let '(_, n, m) := ranges b in if (0 <? n)%nat then ([0%nat], []) else if (0 <? m)%nat then ([], [0%nat]) else ([], []).

Lemma first_fair : fair first_mpi.
Proof.
  intros b. unfold first_mpi, testsome_ok. destruct (ranges b) as [[i n] m].
  destruct (Nat.ltb_spec 0 n); [|destruct (Nat.ltb_spec 0 m)]; simpl; split_and!; try lia; try constructor; try constructor;
    intros d Hd; (apply list_elem_of_singleton in Hd as -> || apply elem_of_nil in Hd); done.
Qed.

(** Flushing the sends of the demonstration, four at a time. *)
Lemma flush_completes_witness : exists b' c' s', flush demo_isend first_mpi (S (Z.to_nat (demo_second.(max_) - demo_second.(min_)))) demo_second = Some (b', c', s')
  /\ sends [2; 3] ++ c' ≡ₚ sends demo_parcels.
Proof.
  destruct (flush_completes demo_isend first_mpi 4 10 demo_second _ _ _ first_fair ltac:(lia) ltac:(lia) demo_isend_runs) as (b' & c' & s' & H1 & _ & H2 & _).
  exists b', c', s'. split; [exact H1|exact H2].
Defined.

(** Compaction relies on the order of the indices that MPI reports, which MPI does not
    promise: of four sends, the first and the third complete, reported as 2, 0.  One that is
    still at MPI is forgotten, and a completed one is in the window again, without a record. *)
Lemma compact_unordered : exists b', testAll demo_first [2; 0]%nat [] = Some (b', sends [3; 1])
  /\ map (fun i => x ← at_id b' i; x.(record)) [2; 3] = [None; Some (4, [])]
  /\ (b'.(min_), b'.(active_)) = (2, 4).
Proof. eexists. split; [by vm_compute|]. by vm_compute. Qed.

(** The destructor deletes the four sends at MPI, and none of the sixty-six that wait. *)
Lemma destructor_leaks : cancelAll demo_first = Some [1; 2; 3; 4] /\ demo_first.(max_) - demo_first.(active_) = 66.
Proof. by vm_compute. Qed.
