(* ===== verification/IRecv.v ===== *)
(** * The buffer of receives

    libhpx/network/isir/IRecvBuffer.{h,cpp} and parcel_utils.h: messages of unknown sizes are
    announced by their tag, which encodes the size in cache lines; a receive is posted for the
    tag, and stays in the buffer to be posted again whenever it completes.  What MPI announces
    and completes are labels of the operations. *)

From S2P Require Import Prelude Math.

(** ** Sizes *)

Definition sizeof_parcel : Z := 64.
Definition HPX_CACHELINE_SIZE : Z := 64.
Definition isir_prefix_size : Z := 28.     (* offsetof(hpx_parcel_t, action) *)

Definition PayloadSizeToTag (payload : Z) : Z :=
  let parcel_size := u32 (payload + sizeof_parcel) in
  i32 (u32 (ceil_div parcel_size HPX_CACHELINE_SIZE)).

Definition payload_size_to_isir_bytes (payload : Z) : Z := i32 (u64 (payload + sizeof_parcel - isir_prefix_size)).

Definition isir_bytes_to_payload_size (bytes : Z) : option Z :=
  if 0 <? bytes then Some (u32 (bytes + isir_prefix_size - sizeof_parcel)) else None.

Definition tag_to_payload_size (tag : Z) : Z :=
  let parcel_size := u32 (tag * HPX_CACHELINE_SIZE) in
  u32 (parcel_size - sizeof_parcel).

(** ** The buffer *)

(** A record: its tag, and the payload of the parcel that waits for a message. *)
Record record := mkRecord { tag : Z; p : option Z }.

Record irecvs := mkIRecvs {
  limit_ : Z;
  capacity_ : Z;
  size_ : Z;
  records_ : list record;
}.

(** A parcel that was received: what was sent, the size that is stored in it, and its source. *)
Record received := mkReceived { message : Z; psize : Z; src : Z }.

(** What MPI reports for a request: the message, its bytes, and its source. *)
Record status := mkStatus { s_message : Z; s_bytes : Z; s_src : Z }.

Implicit Types (b : irecvs) (r : record).

Definition with_records b (rs : list record) : irecvs := mkIRecvs b.(limit_) b.(capacity_) b.(size_) rs.

Definition no_record : record := mkRecord (-1) None.

(** [cancelled] is whether MPI cancels the request; a parcel that was received is returned. *)
Definition cancel b (i : nat) (cancelled : bool) : option (irecvs * list Z) :=
  if Z.of_nat i <? b.(size_) then
    r ← b.(records_) !! i;
    Some (with_records b (<[i := no_record]> b.(records_)), if cancelled then [] else match r.(p) with Some x => [x] | None => [] end)
  else None.

Fixpoint cancel_loop (k : nat) b (answers : list bool) (out : list Z) : option (irecvs * list Z) :=
  match k with
  | O => Some (b, out)
  | S k =>
    '(b, ps) ← cancel b (Z.to_nat (b.(size_) - 1)) (hd true answers);
    cancel_loop k (mkIRecvs b.(limit_) b.(capacity_) (b.(size_) - 1) b.(records_)) (tl answers) (ps ++ out)
  end.

(** realloc: the records that remain, and new ones with arbitrary contents. *)
Definition resize (n : Z) (rs : list record) : list record :=
  take (Z.to_nat n) rs ++ replicate (Z.to_nat n - length rs) no_record.

Definition reserve b (capacity : Z) (answers : list bool) : option (irecvs * list Z) :=
  if capacity =? b.(capacity_) then Some (b, [])
  else
    let cap := if nz b.(limit_) then Z.min capacity b.(limit_) else capacity in
    '(b, out) ← cancel_loop (Z.to_nat (b.(size_) - cap)) b answers [];
    Some (mkIRecvs b.(limit_) cap b.(size_) (resize cap b.(records_)), out).

Definition IRecvBuffer (isir_recvlimit : Z) : option irecvs :=
  let b := mkIRecvs isir_recvlimit 0 0 [] in
  '(b, _) ← reserve b (if nz isir_recvlimit then Z.min 64 isir_recvlimit else 64) [];
  Some b.

(** Post a receive: the bytes it has room for. *)
Definition start b (i : nat) : option (irecvs * Z) :=
  r ← b.(records_) !! i;
  let size := tag_to_payload_size r.(tag) in
  Some (with_records b (<[i := mkRecord r.(tag) (Some size)]> b.(records_)), payload_size_to_isir_bytes size).

(** [t] is the tag that MPI announces, negative for none. *)
Definition probe b (t : Z) : option irecvs :=
  if t <? 0 then Some b
  else
    let i := Z.to_nat b.(size_) in
    r ← b.(records_) !! i;
    let b := mkIRecvs b.(limit_) b.(capacity_) (u32 (b.(size_) + 1)) (<[i := mkRecord t r.(p)]> b.(records_)) in
    '(b, _) ← start b i;
    if b.(size_) =? b.(capacity_) then '(b, _) ← reserve b (u32 (2 * b.(capacity_))) []; Some b
    else Some b.

Definition finish b (i : nat) (st : status) : option (irecvs * received) :=
  if (Z.of_nat i <? b.(size_)) && (0 <? st.(s_bytes)) then
    r ← b.(records_) !! i;
    _ ← r.(p);
    size ← isir_bytes_to_payload_size st.(s_bytes);
    Some (with_records b (<[i := mkRecord r.(tag) None]> b.(records_)), mkReceived st.(s_message) size st.(s_src))
  else None.

Fixpoint finish_loop (done : list (nat * status)) b (stack : list received) : option (irecvs * list received) :=
  match done with
  | [] => Some (b, stack)
  | (i, st) :: done =>
    '(b, x) ← finish b i st;
    '(b, _) ← start b i;
    finish_loop done b (x :: stack)
  end.

(** [done] is what MPI completes after the probe. *)
Definition progress b (t : Z) (done : list (nat * status)) : option (irecvs * list received) :=
  b ← probe b t;
  finish_loop done b [].

(** ** Sizes survive *)

Lemma isir_bytes_roundtrip payload : 0 <= payload < 2 ^ 31 - 36 ->
  isir_bytes_to_payload_size (payload_size_to_isir_bytes payload) = Some payload.
Proof.
  intros H. unfold isir_bytes_to_payload_size, payload_size_to_isir_bytes, sizeof_parcel, isir_prefix_size.
  rewrite wrap_small, swrap_small by lia. destruct (Z.ltb_spec 0 (payload + 64 - 28)); [|lia].
  f_equal. rewrite wrap_small by lia. lia.
Qed.

(** The receive that is posted for the tag of a message has room for it. *)
Lemma tag_room payload : 0 <= payload < 2 ^ 31 - 128 ->
  0 <= PayloadSizeToTag payload
  /\ payload_size_to_isir_bytes payload <= payload_size_to_isir_bytes (tag_to_payload_size (PayloadSizeToTag payload))
  /\ tag_to_payload_size (PayloadSizeToTag payload) < payload + 64.
Proof.
  intros H. unfold PayloadSizeToTag, HPX_CACHELINE_SIZE, sizeof_parcel. rewrite (wrap_small 32 (payload + 64)) by lia.
  pose proof (ceil_div_spec (payload + 64) 64 ltac:(lia) ltac:(lia)) as Hc. set (t := ceil_div (payload + 64) 64) in *.
  rewrite (wrap_small 32 t), (swrap_small 32 t) by lia. unfold tag_to_payload_size, payload_size_to_isir_bytes, HPX_CACHELINE_SIZE, sizeof_parcel, isir_prefix_size.
  rewrite (wrap_small 32 (t * 64)), (wrap_small 32 (t * 64 - 64)) by lia. rewrite !wrap_small, !swrap_small by lia. lia.
Qed.

(** ** The posted receives *)

(** A buffer without a limit: there is always room for another record, and every record of
    the buffer has a parcel posted. *)
Record posted b : Prop := {
  po_limit : b.(limit_) = 0;
  po_room : 0 <= b.(size_) < b.(capacity_) /\ b.(capacity_) < 2 ^ 31;
  po_length : Z.of_nat (length b.(records_)) = b.(capacity_);
  po_records i : Z.of_nat i < b.(size_) -> exists t x, b.(records_) !! i = Some (mkRecord t (Some x));
}.

Lemma new_posted : exists b, IRecvBuffer 0 = Some b /\ posted b /\ b.(size_) = 0.
Proof. eexists. split; [reflexivity|]. split; [|done]. split; simpl; try done. lia. Qed.

Lemma reserve_grow b c : b.(limit_) = 0 -> b.(capacity_) < c -> b.(size_) <= c ->
  reserve b c [] = Some (mkIRecvs 0 c b.(size_) (resize c b.(records_)), []).
Proof.
  intros E H1 H2. unfold reserve. destruct (Z.eqb_spec c (capacity_ b)); [lia|]. rewrite E. cbn [nz Z.eqb negb].
  replace (Z.to_nat (size_ b - c)) with 0%nat by lia. simpl. by rewrite E.
Qed.

(** A new record, or none; growing keeps the others. *)
Lemma probe_posted b t : posted b -> b.(capacity_) < 2 ^ 30 ->
  exists b', probe b t = Some b' /\ posted b' /\ (b'.(capacity_) <= 2 * b.(capacity_))
    /\ b'.(size_) = b.(size_) + (if t <? 0 then 0 else 1).
Proof.
  intros P Hc. pose proof P as [P1 P2 P3 P4]. unfold probe. destruct (Z.ltb_spec t 0); [exists b; split_and!; (done || lia)|].
  destruct (lookup_lt_is_Some_2 (records_ b) (Z.to_nat (size_ b)) ltac:(lia)) as [r Hr]. rewrite Hr. cbn [mbind option_bind].
  unfold start. cbn [records_]. rewrite list_lookup_insert_eq by lia. cbn [mbind option_bind with_records tag size_ capacity_ limit_].
  rewrite list_insert_insert_eq, (wrap_small 32 (size_ b + 1)) by lia. set (x := mkRecord t (Some (tag_to_payload_size t))).
  assert (Hrec : forall i (l : list record), Z.of_nat i < size_ b + 1 -> (forall j, (j < length (records_ b))%nat -> l !! j = <[Z.to_nat (size_ b) := x]> (records_ b) !! j) ->
    exists t' y, l !! i = Some (mkRecord t' (Some y))).
  { intros i l Hi Hl. rewrite Hl by lia. destruct (decide (i = Z.to_nat (size_ b))) as [->|Hne].
    - rewrite list_lookup_insert_eq by lia. by eexists _, _.
    - rewrite list_lookup_insert_ne by done. apply P4. lia. }
  destruct (Z.eqb_spec (size_ b + 1) (capacity_ b)) as [He|He].
  - rewrite (wrap_small 32) by lia. rewrite reserve_grow by (simpl; lia). cbn [mbind option_bind with_records limit_ size_ records_].
    eexists. split; [reflexivity|]. cbn [capacity_ size_]. split; [|lia]. split; cbn [limit_ capacity_ size_ records_]; try done; try lia.
    + unfold resize. rewrite length_app, length_take, length_replicate, length_insert. lia.
    + intros i Hi. apply (Hrec i); [done|]. intros j Hj. unfold resize. rewrite take_ge by (rewrite length_insert; lia).
      by rewrite lookup_app_l by (rewrite length_insert; lia).
  - eexists. split; [done|]. cbn [with_records capacity_ size_]. split; [|lia]. split; cbn [with_records limit_ capacity_ size_ records_]; try done; try lia.
    + rewrite length_insert. lia.
    + intros i Hi. by apply (Hrec i).
Qed.

(** What MPI may complete: requests of the buffer, each at most once, with messages that have
    its tag. *)
Definition reports (payload : Z -> Z) b (done : list (nat * status)) : Prop :=
  NoDup (map fst done) /\ Forall (fun '(i, st) => Z.of_nat i < b.(size_)
    /\ 0 <= payload st.(s_message) < 2 ^ 31 - 128 /\ st.(s_bytes) = payload_size_to_isir_bytes (payload st.(s_message))
    /\ exists r, b.(records_) !! i = Some r /\ r.(tag) = PayloadSizeToTag (payload st.(s_message))) done.

Definition arrives (payload : Z -> Z) (st : status) : received := mkReceived st.(s_message) (payload st.(s_message)) st.(s_src).

(** Every completion gives the parcel of its message, whole, and is posted again. *)
Lemma finish_loop_posted payload done : forall b stack, posted b -> reports payload b done ->
  exists b', finish_loop done b stack = Some (b', rev (map (fun d => arrives payload d.2) done) ++ stack)
    /\ posted b' /\ b'.(size_) = b.(size_) /\ b'.(capacity_) = b.(capacity_).
Proof.
  induction done as [|[i st] done IH]; intros b stack P [Hn Hf]; cbn [finish_loop]; [by exists b|].
  apply Forall_cons in Hf as [(H1 & H2 & H3 & r & Hr & Ht) Hf]. cbn [map fst] in Hn. apply NoDup_cons in Hn as [Hi Hn].
  pose proof P as [P1 P2 P3 P4]. destruct (P4 i H1) as (t & x & Hx). rewrite Hr in Hx. injection Hx as ->. simpl in Ht.
  pose proof (isir_bytes_roundtrip (payload (s_message st)) ltac:(lia)) as Hb.
  unfold finish. rewrite (proj2 (Z.ltb_lt _ _) H1). rewrite H3. assert (Hpos : 0 < payload_size_to_isir_bytes (payload (s_message st))).
  { unfold payload_size_to_isir_bytes, sizeof_parcel, isir_prefix_size. rewrite wrap_small, swrap_small by lia. lia. }
  rewrite (proj2 (Z.ltb_lt _ _) Hpos). cbn [andb]. rewrite Hr. cbn [mbind option_bind p]. rewrite Hb. cbn [mbind option_bind].
  unfold start. cbn [with_records records_ tag]. assert (Hlt : (i < length (records_ b))%nat) by (by eapply lookup_lt_Some).
  rewrite list_lookup_insert_eq by done. cbn [mbind option_bind tag]. rewrite list_insert_insert_eq.
  match goal with |- context [finish_loop done ?x _] => set (b' := x) end. assert (P' : posted b').
  { split; simpl; try done; [by rewrite length_insert|]. intros j Hj. destruct (decide (j = i)) as [->|Hne].
    - rewrite list_lookup_insert_eq by done. by eexists _, _.
    - rewrite list_lookup_insert_ne by done. by apply P4. }
  destruct (IH b' (mkReceived (s_message st) (payload (s_message st)) (s_src st) :: stack) P') as (b2 & E & P2' & Es & Ec).
  - split; [done|]. rewrite Forall_forall in *. intros [j sj] Hj. destruct (Hf _ Hj) as (J1 & J2 & J3 & rj & Hrj & Jt).
    split; [done|]. split; [done|]. split; [done|]. exists rj. split; [|done]. simpl. rewrite list_lookup_insert_ne; [done|]. intros ->. apply Hi. apply list_elem_of_fmap. by exists (j, sj).
  - exists b2. rewrite E. split; [|done]. simpl. by rewrite <- app_assoc.
Qed.

(** ** What a limit does *)

(** When the buffer has as many records as its limit, it can no longer grow, but the next
    message is given a record nevertheless, beyond the end of the array. *)
Lemma probe_beyond_limit : exists b, (b ← IRecvBuffer 2; b ← probe b 1; probe b 1) = Some b
  /\ (b.(size_), b.(capacity_)) = (2, 2) /\ probe b 1 = None.
Proof. eexists. split; [reflexivity|]. by vm_compute. Qed.
