(* ===== verification/Isir.v ===== *)
(** * The ISIR network

    libhpx/network/isir/FunneledNetwork.{h,cpp}: the network of a locality, the buffers of
    sends and receives behind one queue towards each, of which one thread at a time makes
    progress.  Any number of localities are composed; MPI, between them, carries each message
    that is started to its destination, and completes sends and receives in any order. *)

From S2P Require Import Prelude Math ISend IRecv.

Section Network.
Variable isend : Z -> Z.        (* the request that MPI returns for a parcel *)

(** A parcel of [sends_] has its synchronization parcels in its next field; an element of
    [recvs_] is a chain, null when it has no parcel. *)
Record network := mkNetwork {
  sends_ : list (Z * list Z);
  recvs_ : list (list Z);
  isends_ : isends;
  irecvs_ : irecvs;
}.

Implicit Types n : network.

Definition FunneledNetwork (isir_sendlimit isir_testwindow isir_recvlimit : Z) : option network :=
  s ← ISendBuffer isir_sendlimit isir_testwindow;
  r ← IRecvBuffer isir_recvlimit;
  Some (mkNetwork [] [] s r).

Definition send n (p : Z) (ssync : list Z) : network :=
  mkNetwork (n.(sends_) ++ [(p, ssync)]) n.(recvs_) n.(isends_) n.(irecvs_).

Definition probe n : network * list Z :=
  match n.(recvs_) with
  | [] => (n, [])
  | chain :: cs => (mkNetwork n.(sends_) cs n.(isends_) n.(irecvs_), chain)
  end.

Fixpoint append_all (q : list (Z * list Z)) (b : isends) : option isends :=
  match q with
  | [] => Some b
  | (p, ssync) :: q => b ← ISend.append b p ssync; append_all q b
  end.

Definition sendAll n : option network :=
  b ← append_all n.(sends_) n.(isends_);
  Some (mkNetwork [] n.(recvs_) b n.(irecvs_)).

(** The stack onto which the parcels of completed sends are moved. *)
Definition ssync_stack (completed : list (Z * list Z)) : list Z := rev (concat (map snd completed)).

(** The thread that has the lock.  [t] and [done] are what MPI announces and completes of the
    receives, [d1] and [d2] what it completes of the sends; also the sends that were completed
    and started, and the parcels received. *)
Definition progress n (t : Z) (done : list (nat * status)) (d1 d2 : list nat)
    : option (network * list (Z * list Z) * list (Z * list Z) * list received) :=
  '(ir, xs) ← IRecv.progress n.(irecvs_) t done;
  let q := if (length xs =? 0)%nat then n.(recvs_) else n.(recvs_) ++ [map message xs] in
  '(b, completed, started) ← ISend.progress isend n.(isends_) d1 d2;
  let q := if (length completed =? 0)%nat then q else q ++ [ssync_stack completed] in
  n ← sendAll (mkNetwork n.(sends_) q b ir);
  Some (n, completed, started, xs).

Definition flush (mpi : isends -> list nat * list nat) (fuel : nat) n
    : option (network * list (Z * list Z) * list (Z * list Z)) :=
  n ← sendAll n;
  '(b, completed, started) ← ISend.flush isend mpi fuel n.(isends_);
  let ssync := ssync_stack completed in
  let q := match ssync with [] => n.(recvs_) | _ => n.(recvs_) ++ [ssync] end in
  Some (mkNetwork n.(sends_) q b n.(irecvs_), completed, started).

(** What the destructor deletes of a queue of chains: a null chain ends its loop. *)
Fixpoint drain (q : list (list Z)) : list Z :=
  match q with
  | [] | [] :: _ => []
  | (p :: _) :: q => p :: drain q
  end.

(** ** Localities *)

(** A locality: its network, and what it was given, what it started, what MPI completed, what
    it received, and what it handed to the scheduler. *)
Record node := mkNode {
  net : network;
  sent : list (Z * list Z);
  started : list (Z * list Z);
  finished : list (Z * list Z);
  got : list received;
  up : list Z;
}.

Record world := mkWorld { nodes : list node; wire : list Z }.

Variable payload : Z -> Z.     (* the size of a parcel's payload *)
Variable dest : Z -> nat.      (* the locality that owns its target *)

Implicit Types (w : world) (x : node).

(** What MPI may report to locality [r]: requests it was given for sends, and messages for
    [r] that are not yet received, which leaves [rest].  The sends it completes are reported
    in ascending order, which MPI does not document. *)
Record legal (r : nat) x (wire : list Z) (t : Z) (done : list (nat * status)) (d1 d2 : list nat) (rest : list Z) : Prop := {
  lg_sends : testsome_ok x.(net).(isends_) d1 d2;
  lg_probe : 0 <= t -> exists p, p ∈ wire /\ dest p = r /\ t = PayloadSizeToTag (payload p);
  lg_room : x.(net).(irecvs_).(IRecv.capacity_) < 2 ^ 30;
  lg_recvs b : IRecv.probe x.(net).(irecvs_) t = Some b -> reports payload b done;
  lg_dest : Forall (fun d => dest (d.2).(s_message) = r) done;
  lg_wire : wire ≡ₚ map (fun d => (d.2).(s_message)) done ++ rest;
}.

(** A parcel is sent with fewer than 2^28 sends of its locality incomplete. *)
Inductive step : world -> world -> Prop :=
  | step_send w r x p ssync : w.(nodes) !! r = Some x ->
      Z.of_nat (length x.(sent)) + 1 < 2 ^ 63 -> Z.of_nat (length x.(sent) - length x.(finished)) < 2 ^ 28 ->
      step w (mkWorld (<[r := mkNode (send x.(net) p ssync) (x.(sent) ++ [(p, ssync)]) x.(started) x.(finished) x.(got) x.(up)]> w.(nodes)) w.(wire))
  | step_progress w r x t done d1 d2 rest n c s xs : w.(nodes) !! r = Some x ->
      legal r x w.(wire) t done d1 d2 rest -> progress x.(net) t done d1 d2 = Some (n, c, s, xs) ->
      step w (mkWorld (<[r := mkNode n x.(sent) (x.(started) ++ s) (x.(finished) ++ c) (x.(got) ++ xs) x.(up)]> w.(nodes)) (rest ++ map fst s))
  | step_probe w r x : w.(nodes) !! r = Some x ->
      step w (mkWorld (<[r := mkNode (probe x.(net)).1 x.(sent) x.(started) x.(finished) x.(got) (x.(up) ++ (probe x.(net)).2)]> w.(nodes)) w.(wire)).

Inductive reachable (k : nat) (limit twin : Z) : world -> Prop :=
  | reachable_start n : FunneledNetwork limit twin 0 = Some n -> reachable k limit twin (mkWorld (replicate k (mkNode n [] [] [] [] [])) [])
  | reachable_step w w' : reachable k limit twin w -> step w w' -> reachable k limit twin w'.

(** ** The invariant *)

Record node_ok (limit : Z) (r : nat) x : Prop := {
  nk_sends : exists a ra pa, keeps isend limit x.(net).(isends_) a x.(started) x.(finished) ra pa /\ x.(sent) = a ++ x.(net).(sends_);
  nk_room : Z.of_nat (length x.(sent)) < 2 ^ 63 /\ Z.of_nat (length x.(sent) - length x.(finished)) <= 2 ^ 28;
  nk_posted : posted x.(net).(irecvs_);
  nk_up : x.(up) ++ concat x.(net).(recvs_) ≡ₚ map message x.(got) ++ concat (map snd x.(finished));
  nk_got : Forall (fun g => g.(psize) = payload g.(message) /\ dest g.(message) = r) x.(got);
}.

Lemma append_all_keeps limit q : forall b a s c ra pa, keeps isend limit b a s c ra pa ->
  Z.of_nat (length a + length q) < 2 ^ 63 -> Z.of_nat (length a + length q - length c) <= 2 ^ 28 ->
  exists b', append_all q b = Some b' /\ keeps isend limit b' (a ++ q) s c ra (pa ++ q).
Proof.
  induction q as [|[p ssync] q IH]; intros b a s c ra pa K H1 H2; cbn [append_all].
  - exists b. by rewrite !app_nil_r.
  - simpl in H1, H2. pose proof (keeps_sum _ _ _ _ _ _ _ _ K) as Hs.
    destruct (keeps_append _ _ _ _ _ _ _ _ p ssync K ltac:(lia) ltac:(lia)) as (b1 & E & K1). rewrite E. cbn [mbind option_bind].
    destruct (IH _ _ _ _ _ _ K1) as (b2 & E2 & K2); [rewrite length_app; simpl; lia|rewrite length_app; simpl; lia|].
    exists b2. rewrite E2. split; [done|]. by rewrite <- !app_assoc in K2.
Qed.

Definition arrivals (done : list (nat * status)) : list received := rev (map (fun d => arrives payload d.2) done).

Lemma irecv_progress b t done : posted b -> b.(IRecv.capacity_) < 2 ^ 30 -> (forall b', IRecv.probe b t = Some b' -> reports payload b' done) ->
  exists b', IRecv.progress b t done = Some (b', arrivals done) /\ posted b'.
Proof.
  intros P Hc Hr. destruct (probe_posted b t P Hc) as (b1 & E1 & P1 & _ & _). unfold IRecv.progress. rewrite E1. cbn [mbind option_bind].
  destruct (finish_loop_posted payload done b1 [] P1 (Hr _ E1)) as (b2 & E2 & P2 & _). exists b2. by rewrite E2, app_nil_r.
Qed.

(** A chain is put in the queue unless there was nothing to put in it. *)
Lemma enqueue_concat {A} (xs : list A) (q : list (list Z)) (chain : list Z) : (xs = [] -> chain = []) ->
  concat (if (length xs =? 0)%nat then q else q ++ [chain]) = concat q ++ chain.
Proof.
  intros H. destruct xs; simpl; [by rewrite H, app_nil_r by done|]. by rewrite concat_app, concat_cons, app_nil_r.
Qed.

Lemma ssync_stack_perm c : ssync_stack c ≡ₚ concat (map snd c).
Proof. unfold ssync_stack. symmetry. apply Permutation_rev. Qed.

Lemma arrivals_got r done : Forall (fun d => dest (d.2).(s_message) = r) done ->
  Forall (fun g => g.(psize) = payload g.(message) /\ dest g.(message) = r) (arrivals done).
Proof.
  intros H. unfold arrivals. apply Forall_rev, Forall_fmap. eapply Forall_impl; [exact H|]. by intros [i st].
Qed.

Lemma node_progress limit r x wire t done d1 d2 rest : node_ok limit r x -> legal r x wire t done d1 d2 rest ->
  exists n c s, progress x.(net) t done d1 d2 = Some (n, c, s, arrivals done)
    /\ node_ok limit r (mkNode n x.(sent) (x.(started) ++ s) (x.(finished) ++ c) (x.(got) ++ arrivals done) x.(up)).
Proof.
  intros [(a & ra & pa & K & Hs) [N1 N2] N3 N4 N5] [L1 L2 L3 L4 L5 L6].
  destruct (irecv_progress _ t done N3 L3 L4) as (ir & E1 & P1).
  destruct (keeps_progress _ _ _ _ _ _ _ _ _ _ K L1) as (b1 & c & s & ra1 & pa1 & E2 & K1 & _).
  pose proof (f_equal length Hs) as Hl. rewrite length_app in Hl.
  destruct (append_all_keeps limit x.(net).(sends_) b1 _ _ _ _ _ K1) as (b2 & E3 & K2); [lia|rewrite length_app; lia|].
  unfold progress. rewrite E1. cbn [mbind option_bind]. rewrite E2. cbn [mbind option_bind]. unfold sendAll. cbn [sends_ isends_ recvs_ irecvs_].
  rewrite E3. cbn [mbind option_bind]. eexists _, c, s. split; [reflexivity|]. split; cbn [net sent started finished got up isends_ irecvs_ recvs_ sends_].
  - eexists _, _, _. split; [exact K2|]. by rewrite app_nil_r.
  - rewrite length_app. lia.
  - done.
  - rewrite !enqueue_concat by (by intros ->). rewrite !map_app, concat_app, ssync_stack_perm, !app_assoc, N4.
    rewrite <- !app_assoc. apply Permutation_app_head. rewrite !app_assoc. apply Permutation_app_tail, Permutation_app_comm.
  - apply Forall_app. split; [done|]. by apply arrivals_got.
Qed.

Lemma node_send limit r x p ssync : node_ok limit r x ->
  Z.of_nat (length x.(sent)) + 1 < 2 ^ 63 -> Z.of_nat (length x.(sent) - length x.(finished)) < 2 ^ 28 ->
  node_ok limit r (mkNode (send x.(net) p ssync) (x.(sent) ++ [(p, ssync)]) x.(started) x.(finished) x.(got) x.(up)).
Proof.
  intros [(a & ra & pa & K & Hs) [N1 N2] N3 N4 N5] H1 H2. split; simpl; try done.
  - exists a, ra, pa. split; [done|]. by rewrite Hs, app_assoc.
  - rewrite length_app. simpl. lia.
Qed.

Lemma node_probe limit r x : node_ok limit r x ->
  node_ok limit r (mkNode (probe x.(net)).1 x.(sent) x.(started) x.(finished) x.(got) (x.(up) ++ (probe x.(net)).2)).
Proof.
  intros [N1 N2 N3 N4 N5]. unfold probe. destruct (recvs_ (net x)) as [|chain q] eqn:E; split; simpl; try done.
  - by rewrite E, app_nil_r, <- N4.
  - by rewrite <- app_assoc, <- N4.
Qed.

(** ** The messages between the localities *)

Definition all_started (l : list node) : list Z := concat (map (fun x => map fst x.(started)) l).
Definition all_got (l : list node) : list Z := concat (map (fun x => map message x.(got)) l).

Record world_ok (k : nat) (limit : Z) w : Prop := {
  wk_length : length w.(nodes) = k;
  wk_nodes r x : w.(nodes) !! r = Some x -> node_ok limit r x;
  wk_wire : all_started w.(nodes) ≡ₚ all_got w.(nodes) ++ w.(wire);
}.

Lemma insert_nodes limit r x y (l : list node) : (forall q z, l !! q = Some z -> node_ok limit q z) -> l !! r = Some x -> node_ok limit r y ->
  forall q z, <[r := y]> l !! q = Some z -> node_ok limit q z.
Proof.
  intros H Hx Hy q z Hz. apply list_lookup_insert_Some in Hz as [(-> & -> & _)|[_ Hz]]; [done|by apply H].
Qed.

Lemma world_start k limit twin n : 0 <= limit < 2 ^ 32 -> 0 <= twin -> FunneledNetwork limit twin 0 = Some n ->
  world_ok k limit (mkWorld (replicate k (mkNode n [] [] [] [] [])) []).
Proof.
  intros Hl Ht E. destruct (init_keeps isend limit twin Hl Ht) as (b & Eb & K). destruct new_posted as (ir & Er & P & _).
  unfold FunneledNetwork in E. rewrite Eb in E. cbn [mbind option_bind] in E. rewrite Er in E. injection E as <-.
  split; cbn [nodes wire]; [by rewrite length_replicate| |].
  - intros r x Hx. apply lookup_replicate in Hx as [-> _]. split; simpl; try done. by exists [], [], [].
  - unfold all_started, all_got. induction k as [|k IH]; [done|exact IH].
Qed.

Lemma got_messages done : map message (arrivals done) ≡ₚ map (fun d => (d.2).(s_message)) done.
Proof. unfold arrivals. rewrite <- map_rev, map_map, map_rev. symmetry. apply Permutation_rev. Qed.

Lemma world_step k limit w w' : world_ok k limit w -> step w w' -> world_ok k limit w'.
Proof.
  intros [W1 W2 W3] Hs. destruct Hs as [w r x p ssync Hx H1 H2|w r x t done d1 d2 rest n c s xs Hx Hl E|w r x Hx]; split; cbn [nodes wire];
    try by rewrite length_insert.
  - eapply insert_nodes; [done..|]. by apply node_send; [apply W2| |].
  - unfold all_started, all_got. rewrite !(concat_insert _ _ r x _ []); try done; simpl; by rewrite ?app_nil_r.
  - destruct (node_progress limit r x _ _ _ _ _ _ (W2 _ _ Hx) Hl) as (n' & c' & s' & E' & N). simplify_eq. by eapply insert_nodes.
  - destruct (node_progress limit r x _ _ _ _ _ _ (W2 _ _ Hx) Hl) as (n' & c' & s' & E' & N). simplify_eq.
    unfold all_started, all_got. rewrite (concat_insert _ _ r x _ (map fst s)) by (done || (simpl; by rewrite map_app)).
    rewrite (concat_insert _ _ r x _ (map message (arrivals done))) by (done || (simpl; by rewrite map_app)).
    fold (all_started (nodes w)) (all_got (nodes w)). rewrite W3, (lg_wire _ _ _ _ _ _ _ _ Hl), got_messages. by rewrite <- !app_assoc.
  - eapply insert_nodes; [done..|]. by apply node_probe, W2.
  - unfold all_started, all_got. rewrite !(concat_insert _ _ r x _ []); try done; simpl; by rewrite ?app_nil_r.
Qed.

Lemma reachable_ok k limit twin w : 0 <= limit < 2 ^ 32 -> 0 <= twin -> reachable k limit twin w -> world_ok k limit w.
Proof. intros Hl Ht. induction 1 as [n E|w w' _ IH Hs]; [by eapply world_start|by eapply world_step]. Qed.


(** When MPI completes some request whenever it is asked about any, and reports them in
    ascending order, with no limit of receives, the flush of a
    locality's network returns, after at most one round more than the locality has
    incomplete sends; then every parcel the locality ever sent has been started, in order, and
    completed, its queue is empty, and all the parcels that its sends wake have been handed to
    the scheduler or wait for it. *)
Theorem isir_flush mpi k limit twin w r x : fair mpi -> 0 <= limit < 2 ^ 32 -> 0 <= twin -> reachable k limit twin w ->
  w.(nodes) !! r = Some x ->
  exists n c s, flush mpi (S (length x.(sent) - length x.(finished))) x.(net) = Some (n, c, s)
    /\ x.(started) ++ s = x.(sent) /\ x.(finished) ++ c ≡ₚ x.(sent) /\ n.(sends_) = []
    /\ x.(up) ++ concat n.(recvs_) ≡ₚ map message x.(got) ++ concat (map snd x.(sent)).
Proof.
  intros Hf Hl Ht Hr Hx. destruct (reachable_ok _ _ _ _ Hl Ht Hr) as [_ W2 _].
  destruct (W2 _ _ Hx) as [(a & ra & pa & K & Hs) [N1 N2] _ N4 _]. pose proof (f_equal length Hs) as Hlen. rewrite length_app in Hlen.
  destruct (append_all_keeps limit x.(net).(sends_) _ _ _ _ _ _ K) as (b1 & E1 & K1); [lia..|]. rewrite <- Hs in K1.
  destruct (flush_keeps _ mpi _ _ _ _ _ _ _ Hf K1) as (b2 & c & s & E2 & K2). pose proof (keeps_sum _ _ _ _ _ _ _ _ K1) as Hsum.
  unfold flush, sendAll. rewrite E1. cbn [mbind option_bind isends_ recvs_ irecvs_ sends_].
  replace (length (sent x) - length (finished x))%nat with (length ra + length (pa ++ sends_ (net x)))%nat by lia.
  rewrite E2. cbn [mbind option_bind]. eexists _, c, s. split; [reflexivity|]. cbn [sends_ recvs_].
  destruct K2 as [_ K2 K3 _ _]. rewrite app_nil_r in K2, K3. split; [done|]. split; [by rewrite <- K3, K2|]. split; [done|].
  assert (Hq : forall c, concat (match ssync_stack c with [] => recvs_ (net x) | _ => recvs_ (net x) ++ [ssync_stack c] end) = concat (recvs_ (net x)) ++ ssync_stack c).
  { intros c'. destruct (ssync_stack c'); [by rewrite app_nil_r|]. by rewrite concat_app, concat_cons, app_nil_r. }
  rewrite Hq, ssync_stack_perm, app_assoc, N4, <- app_assoc, <- concat_app, <- map_app.
  apply Permutation_app_head. by rewrite K2, K3.
Qed.
End Network.

(** ** Two localities *)

Definition no_network : network := mkNetwork [] [] no_isends (mkIRecvs 0 0 0 []).
Definition no_node : node := mkNode no_network [] [] [] [] [].

Definition demo_payload (p : Z) : Z := p * 100.
Definition demo_dest (p : Z) : nat := 1.

(** A step of progress, as a function. *)
Definition progress_step (w : world) (r : nat) t done d1 d2 rest : option world :=
  x ← w.(nodes) !! r;
  '(n, c, s, xs) ← progress demo_isend x.(net) t done d1 d2;
  Some (mkWorld (<[r := mkNode n x.(sent) (x.(started) ++ s) (x.(finished) ++ c) (x.(got) ++ xs) x.(up)]> w.(nodes)) (rest ++ map fst s)).

Definition send_step (w : world) (r : nat) (p : Z) (ssync : list Z) : option world :=
  x ← w.(nodes) !! r;
  Some (mkWorld (<[r := mkNode (send x.(net) p ssync) (x.(sent) ++ [(p, ssync)]) x.(started) x.(finished) x.(got) x.(up)]> w.(nodes)) w.(wire)).

Definition no_world : world := mkWorld [] [].

(** Locality 0 sends the parcels 7 and 8 to locality 1, which receives 8 first, while the send
    of 7 completes at locality 0. *)
Definition demo_net : network := default no_network (FunneledNetwork 0 10 0).
Definition demo_world0 : world := mkWorld (replicate 2 (mkNode demo_net [] [] [] [] [])) [].
Definition demo_world1 : world := default no_world (w ← send_step demo_world0 0 7 [70]; send_step w 0 8 []).
Definition demo_world2 : world := default no_world (progress_step demo_world1 0 (-1) [] [] [] []).
Definition demo_world3 : world := default no_world (progress_step demo_world2 0 (-1) [] [] [] []).
Definition demo_status (p : Z) : status := mkStatus p (payload_size_to_isir_bytes (demo_payload p)) 0.
Definition demo_tag (p : Z) : Z := PayloadSizeToTag (demo_payload p).
Definition demo_world4 : world := default no_world (progress_step demo_world3 1 (demo_tag 8) [(0%nat, demo_status 8)] [] [] [7]).
Definition demo_world5 : world := default no_world (progress_step demo_world4 0 (-1) [] [0%nat] [] [7]).

Definition node_of (w : world) (r : nat) : node := default no_node (w.(nodes) !! r).
Definition demo_posted : irecvs := default (mkIRecvs 0 0 0 []) (IRecv.probe (node_of demo_world3 1).(net).(irecvs_) (demo_tag 8)).

Lemma demo_net_ok : FunneledNetwork 0 10 0 = Some demo_net.
Proof. by vm_compute. Qed.

Lemma demo_world1_ok : (w ← send_step demo_world0 0 7 [70]; send_step w 0 8 []) = Some demo_world1.
Proof. by vm_compute. Qed.

Lemma demo_world2_ok : progress_step demo_world1 0 (-1) [] [] [] [] = Some demo_world2.
Proof. by vm_compute. Qed.

Lemma demo_world3_ok : progress_step demo_world2 0 (-1) [] [] [] [] = Some demo_world3.
Proof. by vm_compute. Qed.

Lemma demo_world4_ok : progress_step demo_world3 1 (demo_tag 8) [(0%nat, demo_status 8)] [] [] [7] = Some demo_world4.
Proof. by vm_compute. Qed.

Lemma demo_world5_ok : progress_step demo_world4 0 (-1) [] [0%nat] [] [7] = Some demo_world5.
Proof. by vm_compute. Qed.

Lemma progress_step_ok w r t done d1 d2 rest w' : progress_step w r t done d1 d2 rest = Some w' ->
  legal demo_payload demo_dest r (node_of w r) w.(wire) t done d1 d2 rest -> step demo_isend demo_payload demo_dest w w'.
Proof.
  unfold progress_step, node_of. destruct (nodes w !! r) as [x|] eqn:Hx; [|done]. cbn [mbind option_bind default].
  destruct (progress demo_isend (net x) t done d1 d2) as [[[[n c] s] xs]|] eqn:E; [|done]. intros [= <-] L. by eapply step_progress.
Qed.

Lemma send_step_ok w r p ssync w' : send_step w r p ssync = Some w' -> Z.of_nat (length (node_of w r).(sent)) < 2 ^ 28 ->
  step demo_isend demo_payload demo_dest w w'.
Proof.
  unfold send_step, node_of. destruct (nodes w !! r) as [x|] eqn:Hx; [|done]. intros [= <-] L. apply step_send; [done|simpl in L; lia..].
Qed.

(** MPI has nothing to report of receives. *)
Lemma legal_quiet r x wire d1 d2 : testsome_ok x.(net).(isends_) d1 d2 -> x.(net).(irecvs_).(IRecv.capacity_) < 2 ^ 30 ->
  legal demo_payload demo_dest r x wire (-1) [] d1 d2 wire.
Proof. intros H1 H2. split; try done; try (intros b _; split; constructor). Qed.

Lemma demo_posted_ok : IRecv.probe (node_of demo_world3 1).(net).(irecvs_) (demo_tag 8) = Some demo_posted.
Proof. by vm_compute. Qed.

Lemma reports_of o b0 done : o = Some b0 -> reports demo_payload b0 done -> forall b, o = Some b -> reports demo_payload b done.
Proof. intros -> H b [= <-]. done. Qed.

Lemma demo_reports : reports demo_payload demo_posted [(0%nat, demo_status 8)].
Proof.
  split; [apply NoDup_singleton|]. apply Forall_singleton. split; [by vm_compute|]. split; [unfold demo_payload; simpl; lia|]. split; [done|].
  eexists. split; by vm_compute.
Qed.

Lemma demo_wire3 : demo_world3.(wire) = [7; 8].
Proof. by vm_compute. Qed.

Lemma demo_wire4 : demo_world4.(wire) = [7].
Proof. by vm_compute. Qed.

Lemma demo_legal4 : legal demo_payload demo_dest 1 (node_of demo_world3 1) demo_world3.(wire) (demo_tag 8) [(0%nat, demo_status 8)] [] [] [7].
Proof.
  split.
  - apply testsome_nil.
  - intros _. exists 8. split; [|done]. rewrite demo_wire3. set_solver.
  - by vm_compute.
  - exact (reports_of _ _ _ demo_posted_ok demo_reports).
  - by apply Forall_singleton.
  - rewrite demo_wire3. apply Permutation_swap.
Qed.

Lemma demo_ranges4 : ranges (node_of demo_world4 0).(net).(isends_) = (0, 2, 0)%nat.
Proof. by vm_compute. Qed.

Lemma demo_legal5 : legal demo_payload demo_dest 0 (node_of demo_world4 0) demo_world4.(wire) (-1) [] [0%nat] [] [7].
Proof.
  rewrite demo_wire4. apply legal_quiet; [|by vm_compute]. unfold testsome_ok. rewrite demo_ranges4.
  split_and!; [repeat constructor|constructor| |]; intros d Hd; [apply list_elem_of_singleton in Hd as ->; lia|by apply elem_of_nil in Hd].
Qed.

Lemma demo_reachable : reachable demo_isend demo_payload demo_dest 2 0 10 demo_world5.
Proof.
  eapply reachable_step; [|exact (progress_step_ok _ _ _ _ _ _ _ _ demo_world5_ok demo_legal5)].
  eapply reachable_step; [|exact (progress_step_ok _ _ _ _ _ _ _ _ demo_world4_ok demo_legal4)].
  eapply reachable_step; [|eapply progress_step_ok; [exact demo_world3_ok|apply legal_quiet; [apply testsome_nil|by vm_compute]]].
  eapply reachable_step; [|eapply progress_step_ok; [exact demo_world2_ok|apply legal_quiet; [apply testsome_nil|by vm_compute]]].
  pose proof demo_world1_ok as E. destruct (send_step demo_world0 0 7 [70]) as [w|] eqn:E0; [|done]. cbn [mbind option_bind] in E.
  eapply reachable_step; [|eapply send_step_ok; [exact E|]]; [|injection E0 as <-; by vm_compute].
  eapply reachable_step; [|eapply send_step_ok; [exact E0|by vm_compute]]. apply reachable_start, demo_net_ok.
Qed.


Lemma isir_flush_witness : exists n c s, flush demo_isend first_mpi 2 (node_of demo_world5 0).(net) = Some (n, c, s)
  /\ (node_of demo_world5 0).(finished) ++ c ≡ₚ [(7, [70]); (8, [])].
Proof.
  assert (Hx : nodes demo_world5 !! 0%nat = Some (node_of demo_world5 0)) by (by vm_compute).
  destruct (isir_flush demo_isend demo_payload demo_dest first_mpi 2 0 10 demo_world5 0 _ first_fair ltac:(lia) ltac:(lia) demo_reachable Hx)
    as (n & c & s & H1 & _ & H2 & _).
  exists n, c, s. split; [exact H1|exact H2].
Defined.

(** ** The queue towards the scheduler *)

(** Completed sends that wake nothing leave a null chain in the queue.  The destructor takes it
    for the end of the queue, and of the other chains it deletes the first parcel only. *)
Lemma destructor_stops : (node_of demo_world5 0).(net).(recvs_) = [[70]]
  /\ option_map (fun w => (node_of w 0).(net).(recvs_)) (progress_step demo_world5 0 (-1) [] [0%nat] [] [7]) = Some [[70]; []]
  /\ drain [[]; [1]; [2]] = [] /\ drain [[1; 2]; [3]] = [1; 3].
Proof. by vm_compute. Qed.
