(* ===== verification/Coalesce.v ===== *)
(** * Coalescing parcels

    libhpx/network/CoalescingWrapper.cpp: parcels of coalesced actions are queued and counted;
    a thread that claims a number of them dequeues as many, puts those for the same locality
    next to each other in one large parcel, and sends that; the receiver takes it apart again.
    Any number of threads send, progress and flush; each access to shared memory is a step.
    The queue is taken as linearizable, which the mailbox queue is. *)

From S2P Require Import Prelude Bytes.

(** ** Parcels in memory *)

Definition sizeof_parcel : nat := 64.
Definition size_offset : nat := 20.

Definition field (off k : nat) (bs : list Z) : Z := unle (take k (drop off bs)).

Definition parcel_size (bs : list Z) : Z := Z.of_nat sizeof_parcel + field size_offset 4 bs.

(** The thread and next fields are cleared, and the state is set to serialized. *)
Definition parcel_clone (bs : list Z) : list Z :=
  replicate 16 0 ++ take 8 (drop 16 bs) ++ [2; 0] ++ drop 26 bs.

(** The loop reads a parcel, clones it, and advances by its size. *)
Fixpoint Demultiplex (fuel : nat) (buffer : list Z) : option (list (list Z)) :=
  match buffer, fuel with
  | [], _ => Some []
  | _, O => None
  | _, S fuel =>
    let n := Z.to_nat (parcel_size buffer) in
    if (n <=? length buffer)%nat then
      qs ← Demultiplex fuel (drop n buffer);
      Some (parcel_clone (take n buffer) :: qs)
    else None
  end.

Section Coalescing.
Variable ownerOf : list Z -> nat.       (* the locality that owns a parcel's target *)
Variable HPX_LOCALITIES : nat.
Variable size_ : Z.                     (* coalescing_buffersize *)

(** A parcel: its bytes, and the parcels chained to it. *)
Record parcel := mkParcel { bytes : list Z; next : list Z }.

(** ** The buffer for a locality *)

Record CoalescingBuffer := mkBuffer { parcels_ : list parcel; ssync_ : list Z; bytes_ : Z }.

Definition new_buffer : CoalescingBuffer := mkBuffer [] [] 0.

Definition record (b : CoalescingBuffer) (p : parcel) : CoalescingBuffer :=
  mkBuffer (mkParcel p.(bytes) [] :: b.(parcels_)) (rev p.(next) ++ b.(ssync_)) (u32 (b.(bytes_) + parcel_size p.(bytes))).

(** What reaches the network below: a parcel as it is, or a buffer for a locality. *)
Inductive message :=
| Direct (p : parcel) (ssync : list Z)
| Fat (target : nat) (payload : list Z) (ssync : list Z).

(** The copy loop: the part of the payload after [next] is overwritten. *)
Fixpoint copy_loop (ps : list parcel) (payload : list Z) (next : Z) : option (list Z) :=
  match ps with
  | [] => Some payload
  | p :: ps =>
    let n := parcel_size p.(bytes) in
    src ← load p.(bytes) 0 (Z.to_nat n);
    payload ← store payload next src;
    copy_loop ps payload (next + n)
  end.

Definition finish (b : CoalescingBuffer) (target : nat) : option (list message) :=
  if b.(bytes_) =? 0 then Some []
  else
    payload ← copy_loop b.(parcels_) (replicate (Z.to_nat b.(bytes_)) 0) 0;
    Some [Fat target payload b.(ssync_)].

(** ** Threads *)

(** Where a send of a claim returns to. *)
Inductive caller := InSend (n : Z) | InProgress | InFlush.

Inductive thread :=
| Idle
| Enqueue (p : parcel)
| Count
| While (n : Z)
| Enter (n : Z)
| Exchange (n : Z)
| Dequeue (k : Z) (bs : list CoalescingBuffer) (c : caller)
| Finish (i : nat) (bs : list CoalescingBuffer) (c : caller)
| Leave (n : Z)
| ProgressRead
| ProgressTest (count : Z)
| ProgressEnter
| ProgressExchange
| ProgressLeave
| ProgressStore (count : Z)
| FlushExchange
| FlushSpin.

Record wrapper := mkWrapper {
  prev_ : Z;
  count_ : Z;
  coalescing_ : Z;
  sends_ : list parcel;
  impl_ : list message;
}.

Implicit Types (s : wrapper) (t : thread).

Definition with_prev s x : wrapper := mkWrapper x s.(count_) s.(coalescing_) s.(sends_) s.(impl_).
Definition with_count s x : wrapper := mkWrapper s.(prev_) x s.(coalescing_) s.(sends_) s.(impl_).
Definition with_coalescing s x : wrapper := mkWrapper s.(prev_) s.(count_) x s.(sends_) s.(impl_).
Definition with_sends s x : wrapper := mkWrapper s.(prev_) s.(count_) s.(coalescing_) x s.(impl_).
Definition with_impl s x : wrapper := mkWrapper s.(prev_) s.(count_) s.(coalescing_) s.(sends_) x.

(** Where the thread is after the send of a claim. *)
Definition return_to (c : caller) : thread :=
  match c with
  | InSend n => Leave (u32 (n - size_))
  | InProgress => ProgressLeave
  | InFlush => FlushSpin
  end.

(** send(unsigned n): nothing for zero, else buffers for every locality. *)
Definition send_claim (n : Z) (c : caller) : thread :=
  if n =? 0 then return_to c else Dequeue n (replicate HPX_LOCALITIES new_buffer) c.

Definition thread_step s t : option (wrapper * thread) :=
  match t with
  | Idle => None
  | Enqueue p => Some (with_sends s (s.(sends_) ++ [p]), Count)
  | Count => let n := u32 (s.(count_) + 1) in Some (with_count s n, While n)
  | While n => Some (s, if size_ <? n then Enter n else Idle)
  | Enter n => Some (with_coalescing s (u32 (s.(coalescing_) + 1)), Exchange n)
  | Exchange n =>
    if s.(count_) =? n then Some (with_count s (u32 (n - size_)), send_claim size_ (InSend n))
    else Some (s, Leave s.(count_))
  | Dequeue k bs c =>
    match s.(sends_) with
    | [] => None
    | p :: q =>
      b ← bs !! ownerOf p.(bytes);
      let bs := <[ownerOf p.(bytes) := record b p]> bs in
      Some (with_sends s q, if k =? 1 then Finish 0 bs c else Dequeue (k - 1) bs c)
    end
  | Finish i bs c =>
    match bs !! i with
    | None => Some (s, return_to c)
    | Some b => ms ← finish b i; Some (with_impl s (s.(impl_) ++ ms), Finish (S i) bs c)
    end
  | Leave n => Some (with_coalescing s (u32 (s.(coalescing_) - 1)), While n)
  | ProgressRead => Some (s, ProgressTest s.(count_))
  | ProgressTest count => Some (s, if count =? s.(prev_) then ProgressEnter else ProgressStore count)
  | ProgressEnter => Some (with_coalescing s (u32 (s.(coalescing_) + 1)), ProgressExchange)
  | ProgressExchange => Some (with_count s 0, send_claim s.(count_) InProgress)
  | ProgressLeave => Some (with_coalescing s (u32 (s.(coalescing_) - 1)), ProgressStore 0)
  | ProgressStore count => Some (with_prev s count, Idle)
  | FlushExchange => Some (with_count s 0, send_claim s.(count_) InFlush)
  | FlushSpin => Some (s, if s.(coalescing_) =? 0 then Idle else FlushSpin)
  end.

(** The entry of send: a parcel whose action is not coalesced goes through; of one that is
    coalesced, the parcels in [ssync] are not looked at. *)
Definition send (coalesced : bool) s (p : parcel) (ssync : list Z) : wrapper * thread :=
  if coalesced then (s, Enqueue p) else (with_impl s (s.(impl_) ++ [Direct p ssync]), Idle).

Definition CoalescingWrapper : wrapper := mkWrapper 0 0 0 [] [].

Record world := mkWorld { shared : wrapper; threads : list thread; given : list parcel }.

Implicit Types w : world.

(** ** Taking apart *)

(** The bytes of a parcel, as long as its header says. *)
Definition wf (bs : list Z) : Prop := (sizeof_parcel <= length bs)%nat /\ Z.of_nat (length bs) = parcel_size bs.

Lemma field_app off k bs rest : (off + k <= length bs)%nat -> field off k (bs ++ rest) = field off k bs.
Proof.
  intros H. unfold field. rewrite drop_app_le by lia. by rewrite take_app_le by (rewrite length_drop; lia).
Qed.

Lemma parcel_size_app bs rest : wf bs -> parcel_size (bs ++ rest) = Z.of_nat (length bs).
Proof. intros [H1 ->]. unfold parcel_size, sizeof_parcel, size_offset in *. by rewrite field_app by lia. Qed.

Lemma Demultiplex_concat bss : forall fuel, Forall wf bss -> (length bss <= fuel)%nat ->
  Demultiplex fuel (concat bss) = Some (map parcel_clone bss).
Proof.
  induction bss as [|bs bss IH]; intros fuel Hf Hl; [by destruct fuel|]. apply Forall_cons in Hf as [Hw Hf].
  simpl in Hl. destruct fuel as [|fuel]; [lia|]. rewrite concat_cons. pose proof (proj1 Hw) as H64. unfold sizeof_parcel in H64.
  destruct (bs ++ concat bss) as [|b0 l0] eqn:E; [apply app_eq_nil in E as [-> _]; simpl in H64; lia|].
  cbn [Demultiplex]. rewrite <- E, parcel_size_app, Nat2Z.id by done. rewrite (proj2 (Nat.leb_le _ _)) by (rewrite length_app; lia).
  rewrite drop_app_length, take_app_length, IH by (done || lia). done.
Qed.

Lemma length_concat_wf bss : Forall wf bss -> (length bss <= length (concat bss))%nat.
Proof.
  induction 1 as [|bs bss [H _] _ IH]; [done|]. rewrite concat_cons, length_app. unfold sizeof_parcel in H. simpl. lia.
Qed.

(** ** Putting together *)

Definition sizes (ps : list parcel) : Z := sum_of (fun p => parcel_size p.(bytes)) ps.

Lemma sizes_concat ps : Forall wf (map bytes ps) -> sizes ps = Z.of_nat (length (concat (map bytes ps))).
Proof.
  induction ps as [|p ps IH]; intros H; [done|]. cbn [map] in H. apply Forall_cons in H as [[H1 H2] H].
  unfold sizes in *. simpl. rewrite length_app, <- H2. rewrite IH by done. lia.
Qed.

Lemma copy_loop_concat ps : forall pre rest, Forall wf (map bytes ps) -> length rest = length (concat (map bytes ps)) ->
  copy_loop ps (pre ++ rest) (Z.of_nat (length pre)) = Some (pre ++ concat (map bytes ps)).
Proof.
  induction ps as [|p ps IH]; intros pre rest H Hl; cbn [copy_loop].
  - simpl in Hl. destruct rest; [done|done].
  - cbn [map] in H. apply Forall_cons in H as [[H1 H2] H]. simpl in Hl. rewrite length_app in Hl.
    rewrite <- H2, Nat2Z.id, load_some by lia. cbn [mbind option_bind]. change (Z.to_nat 0) with 0%nat. rewrite drop_0, take_ge by lia.
    rewrite store_some by (rewrite ?length_app; lia). cbn [mbind option_bind]. rewrite Nat2Z.id, take_app_length.
    rewrite drop_app_add. replace (Z.of_nat (length pre) + Z.of_nat (length (bytes p))) with (Z.of_nat (length (pre ++ bytes p))) by (rewrite length_app; lia).
    rewrite (app_assoc pre), IH by (done || rewrite length_drop; lia). simpl. by rewrite <- app_assoc.
Qed.

(** The parcels that the receivers of a list of messages run, with the locality of each. *)
Definition received (ms : list message) : list (nat * list Z) :=
  concat (map (fun m => match m with
    | Direct _ _ => []
    | Fat target payload _ => map (pair target) (default [] (Demultiplex (length payload) payload))
    end) ms).

Lemma received_app ms ms' : received (ms ++ ms') = received ms ++ received ms'.
Proof. unfold received. by rewrite map_app, concat_app. Qed.

(** The buffer of locality [j]. *)
Record buffer_ok (j : nat) (b : CoalescingBuffer) : Prop := {
  bf_wf : Forall wf (map bytes b.(parcels_));
  bf_owner : Forall (fun p => ownerOf p.(bytes) = j) b.(parcels_);
  bf_bytes : b.(bytes_) = sizes b.(parcels_);
}.

Definition meant (bs : list Z) : nat * list Z := (ownerOf bs, parcel_clone bs).

Lemma finish_ok j b : buffer_ok j b -> exists ms, finish b j = Some ms /\ received ms = map meant (map bytes b.(parcels_)).
Proof.
  intros [B1 B2 B3]. unfold finish. rewrite B3, sizes_concat by done. pose proof (length_concat_wf _ B1) as Hl. rewrite length_map in Hl.
  destruct (Z.eqb_spec (Z.of_nat (length (concat (map bytes (parcels_ b))))) 0) as [E|E].
  - exists []. split; [done|]. destruct (parcels_ b); [done|simpl in Hl; simpl in E; lia].
  - rewrite Nat2Z.id. pose proof (copy_loop_concat (parcels_ b) [] (replicate (length (concat (map bytes (parcels_ b)))) 0) B1) as H.
    rewrite length_replicate in H. cbn [app length] in H. change (Z.of_nat 0) with 0 in H. rewrite H by done. cbn [mbind option_bind]. eexists. split; [done|].
    unfold received. cbn [map concat]. rewrite app_nil_r, Demultiplex_concat by (done || by rewrite length_map). cbn [from_option id].
    rewrite !map_map. apply map_ext_in. intros p Hp. unfold meant. rewrite Forall_forall in B2. by rewrite B2 by (by apply list_elem_of_In).
Qed.

(** ** The invariant *)

(** What a thread has in hand, and how many parcels of the queue it has to take or to count. *)
Definition held t : list parcel :=
  match t with
  | Enqueue p => [p]
  | Dequeue _ bs _ => concat (map parcels_ bs)
  | Finish i bs _ => concat (map parcels_ (drop i bs))
  | _ => []
  end.

Definition due t : Z :=
  match t with
  | Count => 1
  | Dequeue k _ _ => k
  | _ => 0
  end.

Definition outstanding w : list (list Z) := map bytes w.(shared).(sends_) ++ concat (map (fun t => map bytes (held t)) w.(threads)).

Definition buffers_ok (i : nat) (bs : list CoalescingBuffer) : Prop :=
  length bs = HPX_LOCALITIES /\ forall j b, (i <= j)%nat -> bs !! j = Some b -> buffer_ok j b.

Definition thread_ok t : Prop :=
  match t with
  | Enter n | Exchange n => size_ < n
  | Dequeue k bs _ => 1 <= k /\ buffers_ok 0 bs
  | Finish i bs _ => buffers_ok i bs
  | _ => True
  end.

Record inv w : Prop := {
  iv_count : Z.of_nat (length w.(shared).(sends_)) = w.(shared).(count_) + sum_of due w.(threads);
  iv_nonneg : 0 <= w.(shared).(count_);
  iv_threads t : t ∈ w.(threads) -> thread_ok t;
  iv_wf : Forall (fun bs => wf bs /\ (ownerOf bs < HPX_LOCALITIES)%nat) (outstanding w);
  iv_room : Z.of_nat (length (concat (outstanding w))) < 2 ^ 32;
  iv_once : map meant (map bytes w.(given)) ≡ₚ received w.(shared).(impl_) ++ map meant (outstanding w);
}.

(** A parcel may be given when the bytes of all the parcels outstanding fit in 32 bits. *)
Inductive step : world -> world -> Prop :=
  | step_send w i p ssync : w.(threads) !! i = Some Idle -> wf p.(bytes) -> (ownerOf p.(bytes) < HPX_LOCALITIES)%nat ->
      Z.of_nat (length (concat (outstanding w)) + length p.(bytes)) < 2 ^ 32 ->
      step w (mkWorld (send true w.(shared) p ssync).1 (<[i := (send true w.(shared) p ssync).2]> w.(threads)) (w.(given) ++ [p]))
  | step_direct w i p ssync : w.(threads) !! i = Some Idle ->
      step w (mkWorld (send false w.(shared) p ssync).1 (<[i := (send false w.(shared) p ssync).2]> w.(threads)) w.(given))
  | step_progress w i : w.(threads) !! i = Some Idle -> step w (mkWorld w.(shared) (<[i := ProgressRead]> w.(threads)) w.(given))
  | step_flush w i : w.(threads) !! i = Some Idle -> step w (mkWorld w.(shared) (<[i := FlushExchange]> w.(threads)) w.(given))
  | step_thread w i t s t' : w.(threads) !! i = Some t -> thread_step w.(shared) t = Some (s, t') ->
      step w (mkWorld s (<[i := t']> w.(threads)) w.(given)).

Inductive reachable (n : nat) : world -> Prop :=
  | reachable_start : reachable n (mkWorld CoalescingWrapper (replicate n Idle) [])
  | reachable_step w w' : reachable n w -> step w w' -> reachable n w'.

(** ** One step *)

Lemma due_nonneg t : thread_ok t -> 0 <= due t.
Proof. destruct t; simpl; lia. Qed.

(** What a step of one thread has to establish. *)
Lemma inv_update w i t s t' (gone : list (list Z)) : inv w -> w.(threads) !! i = Some t -> thread_ok t' ->
  Z.of_nat (length s.(sends_)) - s.(count_) - due t' = Z.of_nat (length w.(shared).(sends_)) - w.(shared).(count_) - due t -> 0 <= s.(count_) ->
  map bytes w.(shared).(sends_) ++ map bytes (held t) ≡ₚ gone ++ map bytes s.(sends_) ++ map bytes (held t') ->
  received s.(impl_) ≡ₚ received w.(shared).(impl_) ++ map meant gone ->
  inv (mkWorld s (<[i := t']> w.(threads)) w.(given)).
Proof.
  intros [I1 I2 I3 I4 I5 I6] Ht Hok Hc Hn Hp Hr.
  assert (Ho : outstanding w ≡ₚ gone ++ outstanding (mkWorld s (<[i := t']> (threads w)) (given w))).
  { unfold outstanding. cbn [shared threads]. rewrite <- (take_drop_middle _ _ _ Ht) at 1. rewrite insert_take_drop by (by eapply lookup_lt_Some).
    rewrite !map_app, !concat_app. cbn [map]. rewrite !concat_cons. set (a := concat (map _ (take i _))). set (b := concat (map _ (drop (S i) _))).
    transitivity ((map bytes (sends_ (shared w)) ++ map bytes (held t)) ++ a ++ b); [solve_Permutation|]. rewrite Hp. solve_Permutation. }
  split; cbn [shared threads given].
  - rewrite (sum_of_insert _ _ _ _ _ Ht). lia.
  - done.
  - intros x [->|Hx]%elem_of_insert; [done|by apply I3].
  - rewrite Ho in I4. by apply Forall_app in I4 as [_ I4].
  - rewrite Ho, concat_app, length_app in I5. lia.
  - rewrite I6, Hr, Ho, map_app. by rewrite app_assoc.
Qed.

Lemma length_concat_submseteq (l k : list (list Z)) : l ⊆+ k -> (length (concat l) <= length (concat k))%nat.
Proof. intros [r ->]%submseteq_Permutation. rewrite concat_app, length_app. lia. Qed.

Hypothesis size_nonneg : 0 <= size_.

Lemma count_bound w : inv w -> w.(shared).(count_) <= Z.of_nat (length w.(shared).(sends_)) /\ 64 * Z.of_nat (length w.(shared).(sends_)) < 2 ^ 32.
Proof.
  intros [I1 I2 I3 I4 I5 I6]. assert (0 <= sum_of due (threads w)) by (apply sum_of_nonneg; intros t Ht; by apply due_nonneg, I3).
  split; [lia|]. assert (Hb : forall l : list (list Z), Forall (fun bs => wf bs /\ (ownerOf bs < HPX_LOCALITIES)%nat) l -> (64 * length l <= length (concat l))%nat).
  { induction 1 as [|bs l [[Hw _] _] _ IH]; [done|]. rewrite concat_cons, length_app. unfold sizeof_parcel in Hw. cbn [length]. lia. }
  specialize (Hb _ I4). unfold outstanding in Hb at 1. rewrite length_app, length_map in Hb. lia.
Qed.

Lemma thread_ok_at w i t : inv w -> w.(threads) !! i = Some t -> thread_ok t.
Proof. intros I Ht. apply (iv_threads _ I). by eapply list_elem_of_lookup_2. Qed.

Lemma claim_ok n c : 0 <= n -> thread_ok (send_claim n c) /\ due (send_claim n c) = n /\ held (send_claim n c) = [].
Proof.
  intros Hn. unfold send_claim. destruct (Z.eqb_spec n 0) as [->|]; [by destruct c|]. simpl. split; [split; [lia|]|split; [done|]].
  - split; [apply length_replicate|]. intros j b _ Hb. apply lookup_replicate in Hb as [-> _]. by split; constructor.
  - induction HPX_LOCALITIES as [|k IH]; [done|exact IH].
Qed.

Lemma return_ok c : thread_ok (return_to c) /\ due (return_to c) = 0 /\ held (return_to c) = [].
Proof. by destruct c. Qed.

(** A thread that has to take a parcel finds one. *)
Lemma dequeue_some w i k bs c : inv w -> w.(threads) !! i = Some (Dequeue k bs c) -> exists p q, w.(shared).(sends_) = p :: q.
Proof.
  intros I Ht. pose proof (thread_ok_at _ _ _ I Ht) as [Hk _]. destruct I as [I1 I2 I3 _ _ _].
  assert (due (Dequeue k bs c) <= sum_of due (threads w)).
  { apply sum_of_elem; [|by eapply list_elem_of_lookup_2]. intros t Hin. by apply due_nonneg, I3. }
  simpl in *. destruct (sends_ (shared w)) as [|p q]; [simpl in *; lia|by exists p, q].
Qed.

(** The parcel at the front of the queue, and the buffer of its locality, are outstanding. *)
Lemma record_ok w i k bs c p q b : inv w -> w.(threads) !! i = Some (Dequeue k bs c) -> w.(shared).(sends_) = p :: q ->
  bs !! ownerOf p.(bytes) = Some b -> buffer_ok (ownerOf p.(bytes)) (record b p).
Proof.
  intros I Ht Hq Hb. pose proof (thread_ok_at _ _ _ I Ht) as [_ [_ Hbs]]. destruct (Hbs _ _ (Nat.le_0_l _) Hb) as [B1 B2 B3].
  destruct I as [_ _ _ I4 I5 _]. assert (Hwf : wf (bytes p)).
  { rewrite Forall_forall in I4. apply I4. unfold outstanding. rewrite Hq. by left. }
  assert (Hs : bytes p :: map bytes (parcels_ b) ⊆+ outstanding w).
  { unfold outstanding. rewrite Hq. cbn [map app]. apply submseteq_skip. apply submseteq_inserts_l.
    rewrite <- (take_drop_middle _ _ _ Ht), map_app, concat_app. apply submseteq_inserts_l. cbn [map]. rewrite concat_cons. apply submseteq_inserts_r.
    cbn [held]. rewrite <- (take_drop_middle _ _ _ Hb), map_app, concat_app, map_app. apply submseteq_inserts_l. cbn [map]. rewrite concat_cons, map_app. by apply submseteq_inserts_r. }
  apply length_concat_submseteq in Hs. rewrite concat_cons, length_app in Hs. pose proof (sizes_concat _ B1) as Hsz.
  split; cbn [record parcels_ bytes_ map].
  - by apply Forall_cons.
  - by apply Forall_cons.
  - rewrite B3. unfold sizes in *. simpl. rewrite Hsz, <- (proj2 Hwf), wrap_small by lia. lia.
Qed.

Lemma inv_dequeue w i k bs c : inv w -> w.(threads) !! i = Some (Dequeue k bs c) ->
  exists s t', thread_step w.(shared) (Dequeue k bs c) = Some (s, t') /\ inv (mkWorld s (<[i := t']> w.(threads)) w.(given)).
Proof.
  intros I Ht. destruct (dequeue_some _ _ _ _ _ I Ht) as (p & q & Hq). pose proof (thread_ok_at _ _ _ I Ht) as [Hk [Hl Hbs]].
  assert (Ho : (ownerOf (bytes p) < HPX_LOCALITIES)%nat).
  { pose proof (iv_wf _ I) as Hw. rewrite Forall_forall in Hw. apply Hw. unfold outstanding. rewrite Hq. by left. }
  destruct (lookup_lt_is_Some_2 bs (ownerOf (bytes p)) ltac:(lia)) as [b Hb]. cbn [thread_step]. rewrite Hq. rewrite Hb. cbn [mbind option_bind].
  set (bs' := <[ownerOf (bytes p) := record b p]> bs). assert (Hok : buffers_ok 0 bs').
  { split; [unfold bs'; by rewrite length_insert|]. intros j b' _ Hj. apply list_lookup_insert_Some in Hj as [(<- & <- & _)|[_ Hj]].
    - by eapply record_ok.
    - by apply Hbs; [lia|]. }
  assert (Hp : map bytes (p :: q) ++ map bytes (concat (map parcels_ bs)) ≡ₚ map bytes q ++ map bytes (concat (map parcels_ bs'))).
  { unfold bs'. rewrite !concat_map, !map_map. rewrite (concat_insert (fun b => map bytes (parcels_ b)) bs _ b _ [bytes p]) by (done || (simpl; solve_Permutation)).
    simpl. solve_Permutation. }
  eexists _, _. split; [reflexivity|]. apply (inv_update w i (Dequeue k bs c) _ _ []); [done|done| | |apply (iv_nonneg _ I)| |by rewrite app_nil_r].
  - destruct (Z.eqb_spec k 1); [done|]. simpl. split; [lia|done].
  - rewrite Hq. destruct (Z.eqb_spec k 1); cbn [with_sends sends_ count_ due length]; lia.
  - rewrite Hq. destruct (Z.eqb_spec k 1); exact Hp.
Qed.

Lemma inv_finish w i j bs c : inv w -> w.(threads) !! i = Some (Finish j bs c) ->
  exists s t', thread_step w.(shared) (Finish j bs c) = Some (s, t') /\ inv (mkWorld s (<[i := t']> w.(threads)) w.(given)).
Proof.
  intros I Ht. pose proof (thread_ok_at _ _ _ I Ht) as [Hl Hbs]. cbn [thread_step]. destruct (bs !! j) as [b|] eqn:Hb.
  - destruct (finish_ok j b (Hbs _ _ (le_n _) Hb)) as (ms & E & Hr). rewrite E. cbn [mbind option_bind]. eexists _, _. split; [reflexivity|].
    apply (inv_update w i (Finish j bs c) _ _ (map bytes (parcels_ b))); [done|done| |done|apply (iv_nonneg _ I)| |].
    + split; [done|]. intros k b' Hk. apply Hbs. lia.
    + cbn [held with_impl sends_]. rewrite (drop_S _ _ _ Hb). cbn [map]. rewrite concat_cons, map_app. solve_Permutation.
    + cbn [with_impl impl_]. by rewrite received_app, Hr.
  - eexists _, _. split; [reflexivity|]. destruct (return_ok c) as (R1 & R2 & R3).
    apply (inv_update w i (Finish j bs c) _ _ []); [done|done|done|by rewrite R2|apply (iv_nonneg _ I)| |by rewrite app_nil_r].
    cbn [held]. by rewrite R3, drop_ge by (by apply lookup_ge_None).
Qed.

(** A step that moves no parcel. *)
Lemma inv_quiet w i t s t' : inv w -> w.(threads) !! i = Some t -> held t = [] ->
  s.(sends_) = w.(shared).(sends_) -> s.(impl_) = w.(shared).(impl_) -> 0 <= s.(count_) ->
  s.(count_) + due t' = w.(shared).(count_) + due t -> thread_ok t' -> held t' = [] ->
  inv (mkWorld s (<[i := t']> w.(threads)) w.(given)).
Proof.
  intros I Ht Hh Es Ei Hn Hc Hok Hh'. apply (inv_update w i t s t' []); try done.
  - rewrite Es. lia.
  - by rewrite Es, Hh, Hh'.
  - by rewrite Ei, app_nil_r.
Qed.

(** Every thread can take its next step, and the step keeps the invariant. *)
Lemma inv_thread w i t : inv w -> w.(threads) !! i = Some t -> t <> Idle ->
  exists s t', thread_step w.(shared) t = Some (s, t') /\ inv (mkWorld s (<[i := t']> w.(threads)) w.(given)).
Proof.
  intros I Ht Hne. pose proof (count_bound _ I) as [Hc Hb]. pose proof (iv_nonneg _ I) as Hn. pose proof (thread_ok_at _ _ _ I Ht) as Hok.
  destruct (claim_ok (count_ (shared w)) InProgress Hn) as (P1 & P2 & P3). destruct (claim_ok (count_ (shared w)) InFlush Hn) as (F1 & F2 & F3).
  destruct t as [|p| |n|n|n|k bs c|j bs c|n| |n| | | |n| |]; try done; try (by apply inv_dequeue); try (by apply inv_finish); cbn [thread_step];
    try (eexists _, _; split; [reflexivity|]; eapply inv_quiet; [done|exact Ht|done..| | | |]; cbn [with_count with_coalescing with_prev count_ due]; (done || lia)).
  - eexists _, _. split; [reflexivity|]. apply (inv_update w i (Enqueue p) _ _ []); try done.
    + cbn [with_sends sends_ count_ due]. rewrite length_app. simpl. lia.
    + simpl. by rewrite map_app, app_nil_r.
    + by rewrite app_nil_r.
  - rewrite wrap_small by lia. eexists _, _. split; [reflexivity|]. eapply inv_quiet; [done|exact Ht|done..| | | |]; simpl; (done || lia).
  - eexists _, _. split; [reflexivity|]. eapply inv_quiet; [done|exact Ht|done..| | | |]; destruct (Z.ltb_spec size_ n); simpl; (done || lia).
  - simpl in Hok. destruct (Z.eqb_spec (count_ (shared w)) n) as [<-|]; (eexists _, _; split; [reflexivity|]).
    + destruct (claim_ok size_ (InSend (count_ (shared w))) size_nonneg) as (S1 & S2 & S3). rewrite wrap_small by lia.
      eapply inv_quiet; [done|exact Ht|done..| | |done|done]; rewrite ?S2; simpl; lia.
    + eapply inv_quiet; [done|exact Ht|done..| | | |]; simpl; (done || lia).
  - eexists _, _. split; [reflexivity|]. eapply inv_quiet; [done|exact Ht|done..| | | |]; destruct (n =? prev_ (shared w)); simpl; (done || lia).
  - eexists _, _. split; [reflexivity|]. eapply inv_quiet; [done|exact Ht|done..| | | |]; destruct (coalescing_ (shared w) =? 0); simpl; (done || lia).
Qed.

Lemma inv_step w w' : inv w -> step w w' -> inv w'.
Proof.
  intros I Hs. destruct Hs as [w i p ssync Ht Hw Ho Hr|w i p ssync Ht|w i Ht|w i Ht|w i t s t' Ht E].
  - assert (Hout : outstanding (mkWorld (shared w) (<[i := Enqueue p]> (threads w)) (given w ++ [p])) ≡ₚ outstanding w ++ [bytes p]).
    { unfold outstanding. cbn [shared threads]. rewrite (concat_insert _ _ i Idle _ [bytes p]) by done. by rewrite app_assoc. }
    destruct I as [I1 I2 I3 I4 I5 I6]. cbn [send fst snd]. split; try done.
    + cbn [shared threads]. rewrite (sum_of_insert _ _ _ _ _ Ht). cbn [due]. lia.
    + intros x [->|Hx]%elem_of_insert; [done|by apply I3].
    + rewrite Hout. apply Forall_app. split; [done|]. by apply Forall_singleton.
    + rewrite Hout, concat_app, length_app. simpl. rewrite app_nil_r. lia.
    + cbn [given shared]. rewrite Hout, !map_app, I6. by rewrite <- app_assoc.
  - apply (inv_update w i Idle _ _ []); try done; [apply (iv_nonneg _ I)|]. cbn [send fst with_impl impl_]. by rewrite received_app.
  - eapply inv_quiet; [exact I|exact Ht|done|done|done|apply (iv_nonneg _ I)|done|done|done].
  - eapply inv_quiet; [exact I|exact Ht|done|done|done|apply (iv_nonneg _ I)|done|done|done].
  - destruct (inv_thread w i t I Ht) as (s0 & t0 & E0 & I0); [by intros ->|]. rewrite E in E0. by injection E0 as -> ->.
Qed.

Lemma coalescing_inv n w : reachable n w -> inv w.
Proof.
  induction 1 as [|w w' _ IH Hs]; [|by eapply inv_step].
  assert (Hh : concat (map (fun t => map bytes (held t)) (replicate n Idle)) = []) by (induction n; done).
  assert (Ho : outstanding (mkWorld CoalescingWrapper (replicate n Idle) []) = []) by exact Hh.
  split; rewrite ?Ho; try done.
  - simpl. clear Hh Ho. induction n as [|n IH]; [done|exact IH].
  - intros t Ht. apply elem_of_replicate in Ht as [-> _]. done.
Qed.

(** The threads that the counter of concurrent operations counts. *)
Definition inside t : Z :=
  match t with
  | Exchange _ | Dequeue _ _ (InSend _) | Dequeue _ _ InProgress | Finish _ _ (InSend _) | Finish _ _ InProgress
  | Leave _ | ProgressExchange | ProgressLeave => 1
  | _ => 0
  end.

Lemma all_idle (l : list thread) : (forall t, t ∈ l -> t = Idle) ->
  concat (map (fun t => map bytes (held t)) l) = [] /\ sum_of due l = 0 /\ sum_of inside l = 0.
Proof.
  induction l as [|t l IH]; intros H; [done|]. rewrite (H t) by (by left). apply IH. intros u Hu. apply H. by right.
Qed.

(** C12: under any interleaving of any number of threads that send, make progress and flush,
    every parcel given to the coalescing network is run exactly once, byte for byte, at the
    locality that owns its target, by the receiver of a large parcel that was passed to the
    network below, or is still in the queue or in the hands of a thread.  No thread is
    ever stuck: one that has claimed parcels finds each of them in the queue; when all the threads are idle, the counter is the number of parcels
    in the queue. *)
Theorem coalescing_exactly_once n w : reachable n w ->
  map meant (map bytes w.(given)) ≡ₚ received w.(shared).(impl_) ++ map meant (outstanding w)
  /\ (forall i t, w.(threads) !! i = Some t -> t <> Idle -> is_Some (thread_step w.(shared) t))
  /\ ((forall t, t ∈ w.(threads) -> t = Idle) ->
       outstanding w = map bytes w.(shared).(sends_) /\ w.(shared).(count_) = Z.of_nat (length w.(shared).(sends_))).
Proof.
  intros Hr. pose proof (coalescing_inv _ _ Hr) as I. split; [apply (iv_once _ I)|]. split.
  - intros i t Ht Hne. destruct (inv_thread w i t I Ht Hne) as (s & t' & E & _). by exists (s, t').
  - intros Hidle. pose proof (iv_count _ I) as Hc. unfold outstanding. destruct (all_idle _ Hidle) as (H1 & H2 & _).
    rewrite H1, H2, app_nil_r in *. split; [done|lia].
Qed.

(** ** Flushing *)

Lemma inside_return c : inside (return_to c) = match c with InFlush => 0 | _ => 1 end.
Proof. by destruct c. Qed.

Lemma inside_claim n c : inside (send_claim n c) = match c with InFlush => 0 | _ => 1 end.
Proof. unfold send_claim. destruct (n =? 0); [apply inside_return|by destruct c]. Qed.

Lemma inside_step s t s' t' : 0 <= s.(coalescing_) < 2 ^ 32 -> thread_step s t = Some (s', t') ->
  s'.(coalescing_) = u32 (s.(coalescing_) - inside t + inside t').
Proof.
  intros Hr E. assert (Hid : forall x, x = s.(coalescing_) -> s.(coalescing_) = u32 x) by (intros x ->; by rewrite wrap_small by lia).
  destruct t as [|p| |n|n|n|k bs c|j bs c|n| |n| | | |n| |]; cbn [thread_step] in E; try done;
    try (injection E as <- <-; rewrite ?inside_claim; cbn [inside with_coalescing with_count with_sends with_prev coalescing_]; (apply Hid; lia) || (f_equal; lia)).
  - injection E as <- <-. apply Hid. destruct (size_ <? n); simpl; lia.
  - destruct (count_ s =? n); injection E as <- <-; apply Hid; rewrite ?inside_claim; simpl; lia.
  - destruct (sends_ s); [done|]. destruct (bs !! ownerOf (bytes p)); [|done]. injection E as <- <-. apply Hid.
    destruct (k =? 1), c; simpl; lia.
  - destruct (bs !! j) as [b|]; [destruct (finish b j); [|done]|]; injection E as <- <-; apply Hid; [destruct c; simpl; lia|].
    rewrite inside_return. destruct c; simpl; lia.
  - injection E as <- <-. apply Hid. destruct (n =? prev_ s); simpl; lia.
  - injection E as <- <-. apply Hid. destruct (coalescing_ s =? 0); simpl; lia.
Qed.

(** The counter counts them, modulo 2^32. *)
Lemma reachable_inside n w : reachable n w -> w.(shared).(coalescing_) = u32 (sum_of inside w.(threads)).
Proof.
  induction 1 as [|w w' _ IH Hs]; [simpl; induction n; [done|done]|].
  assert (Hr : 0 <= coalescing_ (shared w) < 2 ^ 32) by (rewrite IH; apply wrap_range; lia).
  destruct Hs as [w i p ssync Ht _ _ _|w i p ssync Ht|w i Ht|w i Ht|w i t s t' Ht E]; cbn [shared threads]; rewrite (sum_of_insert _ _ _ _ _ Ht);
    try (cbn [send fst snd with_impl coalescing_ inside]; rewrite IH; f_equal; lia).
  rewrite (inside_step _ _ _ _ Hr E), IH. replace (u32 (sum_of inside (threads w)) - inside t + inside t') with (u32 (sum_of inside (threads w)) + (inside t' - inside t)) by lia.
  rewrite wrap_add_l. f_equal. lia.
Qed.

Lemma decide_idle t : t = Idle \/ t <> Idle.
Proof. destruct t; (by left) || (by right). Qed.

(** A thread runs by itself until its operation returns. *)
Fixpoint run_alone (fuel i : nat) w : option world :=
  match w.(threads) !! i, fuel with
  | Some Idle, _ => Some w
  | Some t, S fuel => '(s, t') ← thread_step w.(shared) t; run_alone fuel i (mkWorld s (<[i := t']> w.(threads)) w.(given))
  | _, _ => None
  end.

(** How many steps a flush still takes. *)
Definition flush_left w t : Z :=
  match t with
  | FlushExchange => w.(shared).(count_) + Z.of_nat HPX_LOCALITIES + 4
  | Dequeue k _ InFlush => k + Z.of_nat HPX_LOCALITIES + 3
  | Finish j _ InFlush => Z.of_nat (HPX_LOCALITIES - j) + 2
  | FlushSpin => 1
  | _ => 0
  end.

(** A flush under way, while all the other threads are idle. *)
Record flushing i w t : Prop := {
  fl_at : w.(threads) !! i = Some t;
  fl_idle j u : j <> i -> w.(threads) !! j = Some u -> u = Idle;
  fl_phase : match t with FlushExchange | Dequeue _ _ InFlush | Finish _ _ InFlush | FlushSpin | Idle => True | _ => False end;
  fl_count : t <> FlushExchange -> w.(shared).(count_) = 0;
  fl_alone : w.(shared).(coalescing_) = 0;
}.

Lemma flushing_step i w t : inv w -> flushing i w t -> t <> Idle ->
  exists s t', thread_step w.(shared) t = Some (s, t') /\ inv (mkWorld s (<[i := t']> w.(threads)) w.(given))
    /\ flushing i (mkWorld s (<[i := t']> w.(threads)) w.(given)) t'
    /\ 0 <= flush_left (mkWorld s (<[i := t']> w.(threads)) w.(given)) t' < flush_left w t.
Proof.
  intros I [F1 F2 F3 F4 F5] Hne. destruct (inv_thread w i t I F1 Hne) as (s & t' & E & I'). exists s, t'. split; [done|]. split; [done|].
  assert (H : match t' with FlushExchange | Dequeue _ _ InFlush | Finish _ _ InFlush | FlushSpin | Idle => True | _ => False end
    /\ s.(count_) = 0 /\ s.(coalescing_) = 0 /\ t' <> FlushExchange /\ 0 <= flush_left (mkWorld s (<[i := t']> (threads w)) (given w)) t' < flush_left w t).
  { pose proof (thread_ok_at _ _ _ I F1) as Hok. pose proof (iv_nonneg _ I) as Hn.
    destruct t as [|p| |n|n|n|k bs [| |]|j bs [| |]|n| |n| | | |n| |]; try done; cbn [thread_step] in E.
    - destruct (sends_ (shared w)); [done|]. destruct (bs !! ownerOf (bytes p)); [|done]. cbn [mbind option_bind] in E. destruct Hok as [Hk _].
      injection E as <- <-. destruct (Z.eqb_spec k 1); cbn [flush_left]; (split_and!; [done|by apply F4|done|done|lia..]).
    - destruct (bs !! j) eqn:Hj.
      + apply lookup_lt_Some in Hj as Hlt. destruct Hok as [Hl _]. destruct (finish c j); [|done]. injection E as <- <-. cbn [flush_left].
        split_and!; [done|by apply F4|done|done|lia..].
      + injection E as <- <-. cbn [flush_left return_to]. split_and!; [done|by apply F4|done|done|lia..].
    - injection E as <- <-. unfold send_claim. destruct (Z.eqb_spec (count_ (shared w)) 0); cbn [flush_left return_to]; (split_and!; [done|done|done|done|lia..]).
    - rewrite F5 in E. injection E as <- <-. cbn [flush_left]. split_and!; [done|by apply F4|done|done|lia..]. }
  destruct H as (H1 & H2 & H3 & H4 & H5). split; [|done]. split; cbn [threads shared]; try done.
  - apply list_lookup_insert_eq. by eapply lookup_lt_Some.
  - intros j u Hj. rewrite list_lookup_insert_ne by done. by apply F2.
Qed.

Lemma flush_runs i fuel : forall w t, inv w -> flushing i w t -> flush_left w t <= Z.of_nat fuel ->
  exists w', run_alone fuel i w = Some w' /\ inv w' /\ flushing i w' Idle /\ w'.(given) = w.(given).
Proof.
  induction fuel as [|fuel IH]; intros w t I F Hl.
  - assert (t = Idle) as ->.
    { pose proof (thread_ok_at _ _ _ I (fl_at _ _ _ F)) as Hok. pose proof (iv_nonneg _ I). pose proof (fl_phase _ _ _ F) as Hp.
      destruct t as [|p| |n|n|n|k bs [| |]|j bs [| |]|n| |n| | | |n| |]; try done; simpl in Hok, Hl; lia. }
    exists w. simpl. by rewrite (fl_at _ _ _ F).
  - destruct (decide_idle t) as [->|Hne].
    { exists w. simpl. by rewrite (fl_at _ _ _ F). }
    destruct (flushing_step i w t I F Hne) as (s & t' & E & I' & F' & Hd). destruct (IH _ _ I' F') as (w' & Er & Iw & Fw & Eg); [lia|].
    exists w'. cbn [run_alone]. rewrite (fl_at _ _ _ F). destruct t; try done; rewrite E; by cbn [mbind option_bind].
Qed.

(** When no other operation is under way, a flush of the coalescing network returns, after
    at most as many steps as there are parcels in the queue and localities together, and four
    more; then the queue and the counter are empty, and every parcel ever given has been passed
    to the network below, for the locality that owns its target. *)
Theorem coalescing_flush n w i : reachable n w -> (forall t, t ∈ w.(threads) -> t = Idle) -> (i < length w.(threads))%nat ->
  exists w', run_alone (length w.(shared).(sends_) + HPX_LOCALITIES + 4) i (mkWorld w.(shared) (<[i := FlushExchange]> w.(threads)) w.(given)) = Some w'
    /\ w'.(shared).(sends_) = [] /\ w'.(shared).(count_) = 0
    /\ map meant (map bytes w.(given)) ≡ₚ received w'.(shared).(impl_).
Proof.
  intros Hr Hidle Hi. pose proof (coalescing_inv _ _ Hr) as I. destruct (all_idle _ Hidle) as (_ & D & N). pose proof (iv_count _ I) as Hc.
  destruct (lookup_lt_is_Some_2 _ _ Hi) as [t Ht]. rewrite (Hidle t) in Ht by (by eapply list_elem_of_lookup_2).
  pose proof (inv_step _ _ I (step_flush _ _ Ht)) as I1. set (w1 := mkWorld _ _ _) in *. assert (F : flushing i w1 FlushExchange).
  { split; try done; cbn [w1 threads shared].
    - by apply list_lookup_insert_eq.
    - intros j u Hj. rewrite list_lookup_insert_ne by done. intros Hu. apply Hidle. by eapply list_elem_of_lookup_2.
    - by rewrite (reachable_inside _ _ Hr), N. }
  destruct (flush_runs i (length w.(shared).(sends_) + HPX_LOCALITIES + 4) w1 FlushExchange I1 F) as (w' & E & I' & F' & Eg); [simpl; lia|].
  exists w'. split; [done|]. pose proof (fl_count _ _ _ F' ltac:(done)) as Hc'. assert (Hidle' : forall t, t ∈ w'.(threads) -> t = Idle).
  { intros u [j Hj]%list_elem_of_lookup. destruct (decide (j = i)) as [->|Hne]; [rewrite (fl_at _ _ _ F') in Hj; by injection Hj|].
    by apply (fl_idle _ _ _ F' j u). }
  destruct (all_idle _ Hidle') as (Hh & D' & _). pose proof (iv_count _ I') as Hl. rewrite Hc', D' in Hl.
  assert (Hs : sends_ (shared w') = []) by (destruct (sends_ (shared w')); [done|simpl in Hl; lia]). split; [done|]. split; [done|].
  pose proof (iv_once _ I') as Ho. unfold outstanding in Ho. rewrite Hh, Hs, Eg, app_nil_r in Ho. simpl in Ho. by rewrite ?app_nil_r in Ho.
Qed.
End Coalescing.

(** ** Three threads *)

Definition demo_owner (bs : list Z) : nat := Z.to_nat (field 32 8 bs mod 2).

(** A parcel with target [target] and the payload [data]. *)
Definition demo_parcel (target : Z) (data : list Z) : parcel :=
  mkParcel (replicate 16 0 ++ le 4 0 ++ le 4 (Z.of_nat (length data)) ++ [2; 0; 0; 0; 7; 0; 0; 0] ++ le 8 target ++ replicate 24 0 ++ data) [].

Inductive action := ASend (i : nat) (p : parcel) | AFlush (i : nat) | AStep (i : nat).

Definition demo_size : Z := 2.

(** The actions as functions, with the conditions of the steps. *)
Definition act (w : world) (a : action) : option world :=
  match a with
  | ASend i p =>
    match w.(threads) !! i with
    | Some Idle =>
      if (sizeof_parcel <=? length p.(bytes))%nat && (Z.of_nat (length p.(bytes)) =? parcel_size p.(bytes)) && (demo_owner p.(bytes) <? 2)%nat
         && (Z.of_nat (length (concat (outstanding w)) + length p.(bytes)) <? 2 ^ 32)
      then Some (mkWorld (send true w.(shared) p []).1 (<[i := (send true w.(shared) p []).2]> w.(threads)) (w.(given) ++ [p])) else None
    | _ => None
    end
  | AFlush i =>
    match w.(threads) !! i with
    | Some Idle => Some (mkWorld w.(shared) (<[i := FlushExchange]> w.(threads)) w.(given))
    | _ => None
    end
  | AStep i =>
    t ← w.(threads) !! i;
    '(s, t') ← thread_step demo_owner 2 demo_size w.(shared) t;
    Some (mkWorld s (<[i := t']> w.(threads)) w.(given))
  end.

Fixpoint acts (w : world) (l : list action) : option world :=
  match l with
  | [] => Some w
  | a :: l => w ← act w a; acts w l
  end.

Lemma act_step w a w' : act w a = Some w' -> step demo_owner 2 demo_size w w'.
Proof.
  destruct a as [i p|i|i]; cbn [act].
  - destruct (threads w !! i) as [[]|] eqn:Ht; try done. destruct (_ && _) eqn:E; [|done].
    rewrite !andb_true_iff, Nat.leb_le, Z.eqb_eq, Nat.ltb_lt, Z.ltb_lt in E. destruct E as [[[E1 E2] E3] E4]. intros [= <-].
    by apply (step_send _ _ _ _ i p []).
  - destruct (threads w !! i) as [[]|] eqn:Ht; try done. intros [= <-]. by apply step_flush.
  - destruct (threads w !! i) as [t|] eqn:Ht; [|done]. cbn [mbind option_bind]. destruct (thread_step _ _ _ _ t) as [[s t']|] eqn:E; [|done].
    intros [= <-]. by eapply step_thread.
Qed.

Lemma acts_reachable n l : forall w w', reachable demo_owner 2 demo_size n w -> acts w l = Some w' -> reachable demo_owner 2 demo_size n w'.
Proof.
  induction l as [|a l IH]; intros w w' Hr E; simpl in E; [by simplify_eq|]. destruct (act w a) as [w1|] eqn:Ea; [|done].
  apply (IH w1); [|done]. eapply reachable_step; [exact Hr|by apply (act_step _ a)].
Qed.

Definition demo_world : world := mkWorld CoalescingWrapper (replicate 3 Idle) [].

Definition no_world : world := mkWorld CoalescingWrapper [] [].

Definition demo_p : parcel := demo_parcel 1 [10; 11].
Definition demo_q : parcel := demo_parcel 1 [20].
Definition demo_r : parcel := demo_parcel 0 [30; 31; 32].

(** Two sends return with their parcels in the queue; the third claims two of the three. *)
Definition demo_queued : world := default no_world
  (acts demo_world ([ASend 0 demo_p] ++ replicate 3 (AStep 0) ++ [ASend 0 demo_q] ++ replicate 3 (AStep 0))).
Definition demo_claimed : world := default no_world (acts demo_queued ([ASend 1 demo_r] ++ replicate 6 (AStep 1))).

Lemma demo_queued_ok : acts demo_world ([ASend 0 demo_p] ++ replicate 3 (AStep 0) ++ [ASend 0 demo_q] ++ replicate 3 (AStep 0)) = Some demo_queued.
Proof. by vm_compute. Qed.

Lemma demo_claimed_ok : acts demo_queued ([ASend 1 demo_r] ++ replicate 6 (AStep 1)) = Some demo_claimed.
Proof. by vm_compute. Qed.

Lemma demo_queued_reachable : reachable demo_owner 2 demo_size 3 demo_queued.
Proof. eapply acts_reachable; [apply reachable_start|exact demo_queued_ok]. Qed.

Lemma demo_claimed_reachable : reachable demo_owner 2 demo_size 3 demo_claimed.
Proof. eapply acts_reachable; [exact demo_queued_reachable|exact demo_claimed_ok]. Qed.

Lemma coalescing_exactly_once_witness : 0 <= demo_size
  /\ map (meant demo_owner) (map bytes demo_claimed.(given)) ≡ₚ received demo_claimed.(shared).(impl_) ++ map (meant demo_owner) (outstanding demo_claimed)
  /\ length (outstanding demo_claimed) = 3%nat /\ length demo_claimed.(shared).(sends_) = 2%nat.
Proof.
  split; [done|]. split; [apply (coalescing_exactly_once demo_owner 2 demo_size ltac:(done) 3 demo_claimed demo_claimed_reachable)|].
  split; by vm_compute.
Defined.

Lemma demo_queued_idle : demo_queued.(threads) = replicate 3 Idle.
Proof. by vm_compute. Qed.

Lemma coalescing_flush_witness : exists w', run_alone demo_owner 2 demo_size 8 2 (mkWorld demo_queued.(shared) (<[2%nat := FlushExchange]> demo_queued.(threads)) demo_queued.(given)) = Some w'
  /\ map (meant demo_owner) (map bytes demo_queued.(given)) ≡ₚ received w'.(shared).(impl_).
Proof.
  destruct (coalescing_flush demo_owner 2 demo_size ltac:(done) 3 demo_queued 2 demo_queued_reachable) as (w' & E & _ & _ & H).
  - intros t Ht. rewrite demo_queued_idle in Ht. by apply elem_of_replicate in Ht as [-> _].
  - rewrite demo_queued_idle, length_replicate. lia.
  - exists w'. split; [exact E|exact H].
Defined.

(** ** Two surprises *)

(** With a send under way, a flush may forward its parcel, which is not counted yet, in place
    of one whose send has returned: that one is still in the queue when the flush returns. *)
Lemma flush_overtaken : exists w, acts demo_world ([ASend 0 demo_p; AStep 0; ASend 1 demo_q] ++ replicate 3 (AStep 1) ++ [AFlush 2] ++ replicate 6 (AStep 2)) = Some w
  /\ w.(threads) = [Count; Idle; Idle] /\ w.(shared).(sends_) = [demo_q] /\ w.(shared).(count_) = 0.
Proof. eexists. split; [by vm_compute|]. by vm_compute. Qed.

(** The parcels that the completion of a coalesced send should spawn are dropped. *)
Lemma ssync_dropped s p ssync : send true s p ssync = send true s p [].
Proof. done. Qed.
