(* ===== verification/Parcel.v ===== *)
(** * Parcels: their memory, states and life cycle

    The parcel structure, its state bits, serialization, launching, cloning and deletion
    of network/parcel.cpp and include/libhpx/parcel.h, the calls of
    network/hpx_parcel_glue.cpp, the attach handler of scheduler/lco/LCO.cpp, which nests
    a parcel in the parcel that carried it, and the continuations of
    process/Continuation.cpp, which keep retained parcels. *)

From S2P Require Import Prelude Math.

(** ** Memory *)

Record hpx_parcel := mkParcel {
  thread : Z;
  next : Z;
  src : Z;
  size : Z;
  state : Z;
  offset : Z;
  action : Z;
  c_action : Z;
  target : Z;
  c_target : Z;
  pid : Z;
  credit : Z;
}.

Definition sizeof_parcel : Z := 64.

(** What is stored at an address: the header of a parcel, a pointer, or a byte.  A header
    takes the next [sizeof_parcel] addresses, a pointer the next eight. *)
Inductive cell :=
| Hdr (h : hpx_parcel)
| Ptr (p : Z)
| Byte (b : Z).

(** What the runtime is told to do with a parcel. *)
Inductive event :=
| Spawned (p : Z)                       (* scheduled here *)
| NetSend (p ssync : Z)                 (* handed to the network *)
| Returned (p : Z)                      (* given back to the network's block *)
| Freed (p : Z)
| LcoError (lco status : Z)
| HpxCall (act lsync : Z) (args : list Z).

Record heap := mkHeap {
  mem : gmap Z cell;
  live : gmap Z Z;                      (* the regions allocated: base and bytes *)
  out : list event;
}.

Implicit Types h : heap.

(** An access to [n] bytes at [a] is to an allocated region. *)
Definition covered (live : gmap Z Z) (a n : Z) : bool :=
  existsb (fun '(b, s) => (b <=? a) && (a + n <=? b + s)) (map_to_list live).

Definition header h (p : Z) : option hpx_parcel :=
  if covered h.(live) p sizeof_parcel
  then match h.(mem) !! p with Some (Hdr x) => Some x | _ => None end
  else None.

Definition write h (a : Z) (n : Z) (c : cell) : option heap :=
  if covered h.(live) a n then Some (mkHeap (<[a := c]> h.(mem)) h.(live) h.(out)) else None.

Definition write_header h (p : Z) (x : hpx_parcel) : option heap := write h p sizeof_parcel (Hdr x).

Definition copy_cell (m : gmap Z cell) (dst from i : Z) (acc : gmap Z cell) : gmap Z cell :=
  match m !! (from + i) with
  | Some c => <[dst + i := c]> acc
  | None => delete (dst + i) acc
  end.

Definition copy_cells (m : gmap Z cell) (dst from n : Z) : gmap Z cell :=
  foldr (copy_cell m dst from) m (seqZ 0 n).

Definition memcpy h (dst from n : Z) : option heap :=
  if covered h.(live) dst n && covered h.(live) from n
  then Some (mkHeap (copy_cells h.(mem) dst from n) h.(live) h.(out)) else None.

Definition emit h (e : event) : heap := mkHeap h.(mem) h.(live) (h.(out) ++ [e]).

(** as_memalign(AS_REGISTERED, ...) returned [a]. *)
Definition alloc h (a bytes : Z) : heap := mkHeap h.(mem) (<[a := bytes]> h.(live)) h.(out).

(** as_free: the address must be that of a live allocation. *)
Definition free h (a : Z) : option heap :=
  match h.(live) !! a with
  | Some _ => Some (mkHeap h.(mem) (delete a h.(live)) (h.(out) ++ [Freed a]))
  | None => None
  end.

(** ** States *)

Definition PARCEL_SERIALIZED : Z := Z.shiftl 1 1.
Definition PARCEL_RETAINED : Z := Z.shiftl 1 2.
Definition PARCEL_NESTED : Z := Z.shiftl 1 3.
Definition PARCEL_BLOCK_ALLOCATED : Z := Z.shiftl 1 4.
Definition PARCEL_PINNED : Z := Z.shiftl 1 5.

Definition parcel_serialized (s : Z) : bool := nz (Z.land s PARCEL_SERIALIZED).
Definition parcel_retained (s : Z) : bool := nz (Z.land s PARCEL_RETAINED).
Definition parcel_nested (s : Z) : bool := nz (Z.land s PARCEL_NESTED).
Definition parcel_block_allocated (s : Z) : bool := nz (Z.land s PARCEL_BLOCK_ALLOCATED).
Definition parcel_pinned (s : Z) : bool := nz (Z.land s PARCEL_PINNED).

Definition with_state (x : hpx_parcel) (s : Z) : hpx_parcel :=
  mkParcel x.(thread) x.(next) x.(src) x.(size) (u16 s) x.(offset) x.(action) x.(c_action)
    x.(target) x.(c_target) x.(pid) x.(credit).
Definition with_credit (x : hpx_parcel) (c : Z) : hpx_parcel :=
  mkParcel x.(thread) x.(next) x.(src) x.(size) x.(state) x.(offset) x.(action) x.(c_action)
    x.(target) x.(c_target) x.(pid) (u64 c).
Definition with_next (x : hpx_parcel) (p : Z) : hpx_parcel :=
  mkParcel x.(thread) p x.(src) x.(size) x.(state) x.(offset) x.(action) x.(c_action)
    x.(target) x.(c_target) x.(pid) x.(credit).
Definition with_thread (x : hpx_parcel) (t : Z) : hpx_parcel :=
  mkParcel t x.(next) x.(src) x.(size) x.(state) x.(offset) x.(action) x.(c_action)
    x.(target) x.(c_target) x.(pid) x.(credit).
Definition with_address (x : hpx_parcel) (a t : Z) : hpx_parcel :=
  mkParcel x.(thread) x.(next) x.(src) x.(size) x.(state) x.(offset) a x.(c_action)
    t x.(c_target) x.(pid) x.(credit).

Definition parcel_get_state h (p : Z) : option Z := x ← header h p; Some x.(state).

Definition parcel_set_state h (p s : Z) : option heap :=
  x ← header h p; write_header h p (with_state x s).

Definition parcel_exchange_state h (p s : Z) : option (heap * Z) :=
  x ← header h p; h ← write_header h p (with_state x s); Some (h, x.(state)).

(** Adding a state bit under the assertions of the pin, nest and retain operations. *)
Definition parcel_pin h (p : Z) : option heap :=
  s ← parcel_get_state h p;
  if parcel_serialized s && negb (parcel_nested s) && negb (parcel_retained s)
  then parcel_set_state h p (Z.lor s PARCEL_PINNED) else None.

Definition parcel_nest h (p : Z) : option heap :=
  s ← parcel_get_state h p;
  if parcel_serialized s && negb (parcel_pinned s) && negb (parcel_retained s)
  then parcel_set_state h p (Z.lor s PARCEL_NESTED) else None.

Definition parcel_retain h (p : Z) : option heap :=
  s ← parcel_get_state h p;
  if parcel_serialized s && negb (parcel_pinned s) && negb (parcel_nested s)
  then parcel_set_state h p (Z.lor s PARCEL_RETAINED) else None.

Definition parcel_release h (p : Z) : option heap :=
  s ← parcel_get_state h p;
  if parcel_retained s then parcel_set_state h p (Z.land s (Z.lnot PARCEL_RETAINED)) else None.

(** ** Payload *)

Definition parcel_size (x : hpx_parcel) : Z := u32 (sizeof_parcel + x.(size)).

Definition buffer (p : Z) : Z := p + sizeof_parcel.

(** The address of the payload: none, in place, or the pointer the buffer holds. *)
Definition hpx_parcel_get_data h (p : Z) : option Z :=
  x ← header h p;
  if x.(size) =? 0 then Some 0
  else if parcel_serialized x.(state) then Some (buffer p)
  else if covered h.(live) (buffer p) 8
       then match h.(mem) !! buffer p with Some (Ptr d) => Some d | _ => None end
       else None.

Definition hpx_parcel_set_data h (p data n : Z) : option heap :=
  if nz n then (to ← hpx_parcel_get_data h p; memcpy h to data n) else Some h.

(** ** Stacks of parcels *)

Definition parcel_stack_pop h (stack : Z) : option (heap * Z * Z) :=
  if nz stack then
    x ← header h stack;
    h ← write_header h stack (with_next x 0);
    Some (h, x.(next), stack)
  else Some (h, stack, 0).

Definition parcel_stack_push h (stack p : Z) : option (heap * Z) :=
  x ← header h p; h ← write_header h p (with_next x stack); Some (h, p).

(** ** Deletion

    The steps of a deletion are its accesses to the state of a parcel, which other
    threads can change: the first reads it, the second takes the pinned bit away. *)
Inductive deletion :=
| Delete (p : Z)
| Unpin (p s : Z)
| Deleted.

Definition dispose h (p s : Z) : option (heap * deletion) :=
  if parcel_block_allocated s then
    if parcel_serialized s then Some (emit h (Returned p), Deleted) else None
  else (h ← free h p; Some (h, Deleted)).

Definition delete_step h (d : deletion) : option (heap * deletion) :=
  match d with
  | Delete p =>
    if p =? 0 then Some (h, Deleted) else
    x ← header h p;
    let s := x.(state) in
    if parcel_retained s then Some (h, Deleted)
    else if parcel_nested s then
      parent ← header h (p - sizeof_parcel);
      if parcel_size x =? parent.(size) then Some (h, Delete (p - sizeof_parcel)) else None
    else if parcel_pinned s then Some (h, Unpin p (Z.land s (Z.lnot PARCEL_PINNED)))
    else dispose h p s
  | Unpin p s =>
    '(h, s) ← parcel_exchange_state h p s;
    if parcel_pinned s then Some (h, Deleted) else dispose h p s
  | Deleted => Some (h, Deleted)
  end.

(** A deletion that nothing interferes with; [fuel] bounds the depth of nesting. *)
Fixpoint delete_run (fuel : nat) h (d : deletion) : option heap :=
  match d, fuel with
  | Deleted, _ => Some h
  | _, O => None
  | _, S fuel => '(h, d) ← delete_step h d; delete_run fuel h d
  end.

(** Each parcel of a nest has a header of its own. *)
Definition parcel_delete h (p : Z) : option heap :=
  delete_run (length (map_to_list h.(mem)) + 2) h (Delete p).

(** ** Operations of a locality *)

Section Locality.
Variables (rank HPX_HERE HPX_PAGE_SIZE : Z) (ownerOf : Z -> Z).
Variables (lco_attach send_async send_through_async : Z).

(** [cur] is the parcel of the running thread. *)
Implicit Types cur p loc : Z.

Definition parcel_prepare h cur p : option heap :=
  x ← header h p;
  h ← (if negb (parcel_serialized x.(state)) && nz x.(size) then
         data ← hpx_parcel_get_data h p;
         h ← memcpy h (buffer p) data x.(size);
         parcel_set_state h p (Z.lor x.(state) PARCEL_SERIALIZED)
       else Some h);
  if nz x.(pid) && (x.(credit) =? 0) then
    parent ← header h cur;
    if parent.(pid) =? x.(pid) then
      h ← write_header h cur (with_credit parent (parent.(credit) + 1));
      parent ← header h cur;
      y ← header h p;
      write_header h p (with_credit y parent.(credit))
    else None
  else Some h.

Definition parcel_launch h cur p : option heap :=
  x ← header h p;
  if nz x.(action) then
    h ← parcel_prepare h cur p;
    Some (emit h (if ownerOf x.(target) =? rank then Spawned p else NetSend p 0))
  else None.

Fixpoint parcel_launch_all (fuel : nat) h cur (stack : Z) : option heap :=
  match fuel with
  | O => if nz stack then None else Some h
  | S fuel =>
    '(h, stack, p) ← parcel_stack_pop h stack;
    if nz p then (h ← parcel_launch h cur p; parcel_launch_all fuel h cur stack) else Some h
  end.

Definition parcel_launch_error h cur p (error : Z) : option heap :=
  if nz error then None else parcel_launch h cur p.

Definition parcel_init h (target action c_target c_action pid data len p : Z) : option heap :=
  let x s := mkParcel 0 0 rank (u32 len) s 0 action c_action target c_target pid 0 in
  if nz data && nz len then
    h ← write_header h p (x 0);
    write h (buffer p) 8 (Ptr data)
  else write_header h p (x PARCEL_SERIALIZED).

Definition parcel_alloc_size (payload : Z) : Z :=
  if nz payload then
    let size := u64 (sizeof_parcel + Z.max 8 payload) in
    u64 (size + pad_bytes 8 size)
  else sizeof_parcel.

(** [loc] is the address the allocator returned. *)
Definition parcel_new h loc (target action c_target c_action pid data len : Z) : option heap :=
  parcel_init (alloc h loc (parcel_alloc_size len)) target action c_target c_action pid data len loc.

Definition parcel_clone h loc p : option heap :=
  x ← header h p;
  if parcel_serialized x.(state) || (x.(size) =? 0) then
    let n := parcel_size x in
    h ← memcpy (alloc h loc n) loc p n;
    y ← header h loc;
    write_header h loc (with_state (with_next (with_thread y 0) 0) PARCEL_SERIALIZED)
  else None.

Definition parcel_launch_through h cur loc p (gate : Z) : option heap :=
  if nz gate then
    h ← parcel_prepare h cur p;
    c ← header h cur;
    x ← header h p;
    h ← parcel_new h loc gate lco_attach 0 0 c.(pid) p (parcel_size x);
    parcel_launch h cur loc
  else None.

(** *** The calls of the user interface *)

Definition hpx_parcel_acquire h cur loc (buf bytes : Z) : option heap :=
  c ← header h cur; parcel_new h loc HPX_HERE 0 0 0 c.(pid) buf bytes.

Definition LIBHPX_SMALL_THRESHOLD : Z := HPX_PAGE_SIZE.

Definition hpx_parcel_send h cur p (lsync : Z) : option heap :=
  x ← header h p;
  if (x.(size) <? LIBHPX_SMALL_THRESHOLD) || parcel_serialized x.(state) then
    h ← parcel_launch h cur p; Some (emit h (LcoError lsync 0))
  else Some (emit h (HpxCall send_async lsync [p])).

Definition hpx_parcel_send_through_sync h cur loc p (gate : Z) : option heap :=
  x ← header h p;
  if nz x.(target) then
    h ← parcel_launch_through h cur loc p gate;
    parcel_delete h p
  else None.

Definition hpx_parcel_send_through h cur loc p (gate lsync : Z) : option heap :=
  x ← header h p;
  if parcel_size x <? LIBHPX_SMALL_THRESHOLD then
    h ← parcel_launch_through h cur loc p gate;
    h ← parcel_delete h p;
    Some (emit h (LcoError lsync 0))
  else Some (emit h (HpxCall send_through_async lsync [p; gate])).

Definition hpx_parcel_release h p : option heap := h ← parcel_release h p; parcel_delete h p.

(** LCO::AttachHandler: the payload of the running parcel is a parcel, which is handed to
    the LCO in place. *)
Definition AttachHandler h cur p : option heap :=
  data ← hpx_parcel_get_data h cur;
  if data =? p then (h ← parcel_pin h cur; parcel_nest h p) else None.
End Locality.

(** ** Memory lemmas *)

Lemma covered_spec l a n :
  covered l a n = true <-> exists b s, l !! b = Some s /\ b <= a /\ a + n <= b + s.
Proof.
  unfold covered. rewrite existsb_exists. split.
  - intros ([b s] & Hin & Hb). rewrite <- list_elem_of_In, elem_of_map_to_list in Hin.
    exists b, s. zbool. done.
  - intros (b & s & Hl & ? & ?). exists (b, s).
    rewrite <- list_elem_of_In, elem_of_map_to_list. split; [done|].
    rewrite andb_true_iff, !Z.leb_le. lia.
Qed.

Lemma covered_sub l a n a' n' : covered l a n = true -> a <= a' -> a' + n' <= a + n -> covered l a' n' = true.
Proof.
  rewrite !covered_spec. intros (b & s & Hl & ? & ?) ??. exists b, s. split; [done|lia].
Qed.

Lemma covered_region l b s : l !! b = Some s -> covered l b s = true.
Proof. intros. rewrite covered_spec. exists b, s. split; [done|lia]. Qed.

Lemma covered_insert l b s a n : l !! b = None -> covered l a n = true -> covered (<[b := s]> l) a n = true.
Proof.
  rewrite !covered_spec. intros Hb (b' & s' & Hl & ? & ?). exists b', s'.
  rewrite lookup_insert_ne by congruence. done.
Qed.

Definition disjoint_ranges (a n b m : Z) : Prop := a + n <= b \/ b + m <= a.

(** The allocator returns addresses outside of the regions it has given out. *)
Definition fresh_region h (a n : Z) : Prop :=
  0 < a /\ h.(live) !! a = None /\ forall b s, h.(live) !! b = Some s -> disjoint_ranges b s a n.

Lemma covered_fresh h b n a m : fresh_region h b n -> covered h.(live) a m = true -> 0 <= m ->
  disjoint_ranges a m b n.
Proof.
  intros (_ & _ & Hf). rewrite covered_spec. intros (b' & s & Hl & ? & ?) ?.
  destruct (Hf _ _ Hl); [left|right]; lia.
Qed.

Definition freshb h (a n : Z) : bool :=
  (0 <? a) && negb (bool_decide (is_Some (h.(live) !! a)))
  && forallb (fun '(b, s) => (b + s <=? a) || (a + n <=? b)) (map_to_list h.(live)).

Lemma freshb_fresh h a n : freshb h a n = true -> fresh_region h a n.
Proof.
  unfold freshb. rewrite !andb_true_iff, forallb_forall, negb_true_iff, bool_decide_eq_false. intros [[? Hn] Hl].
  split; [lia|]. split; [by apply eq_None_not_Some|]. intros b s Hs.
  specialize (Hl (b, s)). rewrite <- list_elem_of_In, elem_of_map_to_list in Hl.
  apply Hl in Hs. apply orb_true_iff in Hs. rewrite !Z.leb_le in Hs. done.
Qed.

Lemma copy_cells_lookup m dst from n a :
  copy_cells m dst from n !! a = if decide (dst <= a < dst + n) then m !! (from + (a - dst)) else m !! a.
Proof.
  assert (H : forall l (m0 : gmap Z cell), foldr (copy_cell m dst from) m0 l !! a
    = if decide (a - dst ∈ l) then m !! (from + (a - dst)) else m0 !! a).
  { intros l m0. induction l as [|i l IH]; simpl; [done|].
    unfold copy_cell at 1. destruct (decide (a - dst = i)) as [<-|Hne].
    - rewrite decide_True by apply list_elem_of_here. replace (dst + (a - dst)) with a by lia.
      destruct (m !! (from + (a - dst))); [apply lookup_insert_eq|apply lookup_delete_eq].
    - transitivity (foldr (copy_cell m dst from) m0 l !! a).
      { destruct (m !! (from + i)); [apply lookup_insert_ne|apply lookup_delete_ne]; lia. }
      rewrite IH. apply decide_ext. rewrite elem_of_cons. naive_solver. }
  unfold copy_cells. rewrite H. apply decide_ext. rewrite elem_of_seqZ. lia.
Qed.

Lemma header_inv h p x : header h p = Some x ->
  covered h.(live) p sizeof_parcel = true /\ h.(mem) !! p = Some (Hdr x).
Proof. unfold header. intros H. simp. done. Qed.

Lemma header_intro h p x : covered h.(live) p sizeof_parcel = true -> h.(mem) !! p = Some (Hdr x) ->
  header h p = Some x.
Proof. unfold header. by intros -> ->. Qed.

Lemma header_ext h h' p : live h' = live h -> mem h' !! p = mem h !! p -> header h' p = header h p.
Proof. unfold header. by intros -> ->. Qed.

Definition set_cell h (a : Z) (c : cell) : heap := mkHeap (<[a := c]> h.(mem)) h.(live) h.(out).

Lemma write_header_some h p x y : header h p = Some x -> write_header h p y = Some (set_cell h p (Hdr y)).
Proof. intros [Hc _]%header_inv. unfold write_header, write. by rewrite Hc. Qed.

Lemma header_set_eq h p x y : header h p = Some x -> header (set_cell h p (Hdr y)) p = Some y.
Proof. intros [Hc _]%header_inv. apply header_intro; [done|]. apply lookup_insert_eq. Qed.

Lemma header_set_ne h p a c : a <> p -> header (set_cell h a c) p = header h p.
Proof. intros. apply header_ext; [done|]. by apply lookup_insert_ne. Qed.

Lemma memcpy_some h dst from n : covered h.(live) dst n = true -> covered h.(live) from n = true ->
  memcpy h dst from n = Some (mkHeap (copy_cells h.(mem) dst from n) h.(live) h.(out)).
Proof. unfold memcpy. by intros -> ->. Qed.

(** ** State bits *)

Definition bits16 (x : hpx_parcel) : Prop := x.(state) ∈u 16.

Lemma state_bit s k : nz (Z.land s (Z.shiftl 1 k)) = Z.testbit s k.
Proof.
  rewrite Z.shiftl_1_l. unfold nz. destruct (Z.le_gt_cases 0 k).
  2: { rewrite Z.pow_neg_r, Z.land_0_r, Z.testbit_neg_r by lia. done. }
  destruct (Z.testbit s k) eqn:E.
  - apply negb_true_iff, Z.eqb_neq. intros Hz.
    assert (Ht : Z.testbit (Z.land s (2 ^ k)) k = false) by by rewrite Hz, Z.testbit_0_l.
    rewrite Z.land_spec, E, Z.pow2_bits_true in Ht by done. done.
  - apply negb_false_iff, Z.eqb_eq. apply Z.bits_inj'. intros i Hi.
    rewrite Z.land_spec, Z.pow2_bits_eqb, Z.testbit_0_l by done.
    destruct (Z.eqb_spec k i) as [<-|]; [by rewrite E|]. apply andb_false_r.
Qed.

Lemma testbit_set s k i : 0 <= k < 16 -> 0 <= i < 16 ->
  Z.testbit (u16 (Z.lor s (Z.shiftl 1 k))) i = Z.testbit s i || (k =? i).
Proof.
  intros. rewrite testbit_wrap, Z.lor_spec, Z.shiftl_1_l, Z.pow2_bits_eqb by lia.
  by rewrite (proj2 (Z.ltb_lt i 16)) by lia.
Qed.

Lemma testbit_clear s k i : 0 <= k < 16 -> 0 <= i < 16 ->
  Z.testbit (u16 (Z.land s (Z.lnot (Z.shiftl 1 k)))) i = Z.testbit s i && negb (k =? i).
Proof.
  intros. rewrite testbit_wrap, Z.land_spec, Z.lnot_spec, Z.shiftl_1_l, Z.pow2_bits_eqb by lia.
  by rewrite (proj2 (Z.ltb_lt i 16)) by lia.
Qed.

Create Rewrite HintDb state.
#[export] Hint Rewrite (fun s => state_bit s 1 : parcel_serialized s = _)
  (fun s => state_bit s 2 : parcel_retained s = _) (fun s => state_bit s 3 : parcel_nested s = _)
  (fun s => state_bit s 4 : parcel_block_allocated s = _) (fun s => state_bit s 5 : parcel_pinned s = _) : state.
#[export] Hint Rewrite (fun s => testbit_set s 1) (fun s => testbit_set s 2) (fun s => testbit_set s 3)
  (fun s => testbit_set s 4) (fun s => testbit_set s 5) (fun s => testbit_clear s 2)
  (fun s => testbit_clear s 5) using lia : state.

(** ** Preparing a parcel *)

Definition unserialized (x : hpx_parcel) : bool := negb (parcel_serialized x.(state)) && nz x.(size).

Definition serialize (x : hpx_parcel) : hpx_parcel :=
  if unserialized x then with_state x (Z.lor x.(state) PARCEL_SERIALIZED) else x.

(** The parcel needs credit of its parent. *)
Definition takes_credit (x : hpx_parcel) : bool := nz x.(pid) && (x.(credit) =? 0).

Definition prepared (x c : hpx_parcel) : hpx_parcel :=
  if takes_credit x then with_credit (serialize x) (c.(credit) + 1) else serialize x.

Definition charged (x c : hpx_parcel) : hpx_parcel :=
  if takes_credit x then with_credit c (c.(credit) + 1) else c.

Record preparable h (cur p : Z) (x c : hpx_parcel) (d : Z) : Prop := {
  prep_parcel : header h p = Some x;
  prep_current : header h cur = Some c;
  prep_data : hpx_parcel_get_data h p = Some d;
  prep_size : 0 <= x.(size);
  prep_covered : covered h.(live) p (sizeof_parcel + x.(size)) = true;
  prep_payload : unserialized x = true ->
    covered h.(live) d x.(size) = true /\ disjoint_ranges p (sizeof_parcel + x.(size)) d x.(size);
  prep_apart : disjoint_ranges cur sizeof_parcel p (sizeof_parcel + x.(size));
  prep_pid : takes_credit x = true -> c.(pid) = x.(pid);
}.

Record preparation h (m : gmap Z cell) (cur p : Z) (x c : hpx_parcel) (d : Z) : Prop := {
  prepared_parcel : m !! p = Some (Hdr (prepared x c));
  prepared_current : m !! cur = Some (Hdr (charged x c));
  prepared_payload i : 0 <= i < x.(size) -> m !! (buffer p + i) = mem h !! (d + i);
  prepared_frame a : a <> p -> a <> cur -> ~ (buffer p <= a < buffer p + x.(size)) -> m !! a = mem h !! a;
}.

(** The first half: the payload is copied into the buffer. *)
Lemma serialize_step h cur p x c d : preparable h cur p x c d ->
  exists h', (if unserialized x then
         data ← hpx_parcel_get_data h p;
         h ← memcpy h (buffer p) data x.(size);
         parcel_set_state h p (Z.lor x.(state) PARCEL_SERIALIZED)
       else Some h) = Some h'
    /\ live h' = live h /\ out h' = out h
    /\ header h' p = Some (serialize x) /\ header h' cur = Some c
    /\ (forall i, 0 <= i < x.(size) -> mem h' !! (buffer p + i) = mem h !! (d + i))
    /\ (forall a, a <> p -> ~ (buffer p <= a < buffer p + x.(size)) -> mem h' !! a = mem h !! a).
Proof.
  intros [Hp Hc Hd Hs Hcov Hpay Hapart _]. unfold serialize.
  assert (Hbuf : buffer p = p + 64) by done. unfold sizeof_parcel, disjoint_ranges in *.
  destruct (unserialized x) eqn:Hu.
  - destruct (Hpay eq_refl) as [Hcd Hdis]. rewrite Hd; cbn [mbind option_bind].
    rewrite memcpy_some by (done || (apply (covered_sub _ p (64 + size x)); [done|lia..])). cbn [mbind option_bind].
    set (h1 := mkHeap _ _ _).
    assert (Hp1 : header h1 p = Some x).
    { rewrite (header_ext h h1) by (done || (simpl; rewrite copy_cells_lookup, decide_False by lia; done)). done. }
    unfold parcel_set_state. rewrite Hp1; cbn [mbind option_bind].
    erewrite write_header_some by done. eexists. split; [done|]. split; [done|]. split; [done|].
    split; [by eapply header_set_eq|]. split.
    { rewrite header_set_ne by lia. rewrite (header_ext h h1); [done..|]. simpl.
      rewrite copy_cells_lookup, decide_False by lia. done. }
    simpl. split; intros.
    + rewrite lookup_insert_ne, copy_cells_lookup, decide_True by lia. f_equal. lia.
    + rewrite lookup_insert_ne, copy_cells_lookup, decide_False by lia. done.
  - exists h. split; [done|]. do 4 (split; [done|]). split; [|done]. intros i Hi. do 2 f_equal.
    unfold hpx_parcel_get_data in Hd. rewrite Hp in Hd; cbn [mbind option_bind] in Hd.
    unfold unserialized, nz in Hu. destruct (Z.eqb_spec (size x) 0); [lia|].
    destruct (parcel_serialized (state x)); [|done]. by injection Hd.
Qed.

Lemma prepare_spec h cur p x c d : preparable h cur p x c d ->
  exists m, parcel_prepare h cur p = Some (mkHeap m h.(live) h.(out)) /\ preparation h m cur p x c d.
Proof.
  intros Hprep. destruct (serialize_step _ _ _ _ _ _ Hprep) as (h1 & H1 & Hl & Ho & Hp & Hc & Hpay & Hfr).
  destruct Hprep as [Hx Hcur _ Hsz _ _ Hapart Hpid]. unfold disjoint_ranges, sizeof_parcel in Hapart.
  assert (Hbuf : buffer p = p + 64) by done.
  unfold parcel_prepare. rewrite Hx; cbn [mbind option_bind]. fold (unserialized x).
  rewrite H1; cbn [mbind option_bind]. fold (takes_credit x).
  destruct (takes_credit x) eqn:Ht.
  - rewrite Hc; cbn [mbind option_bind]. rewrite (Hpid eq_refl), Z.eqb_refl.
    erewrite write_header_some by done; cbn [mbind option_bind].
    erewrite header_set_eq by done; cbn [mbind option_bind].
    rewrite header_set_ne by lia. rewrite Hp; cbn [mbind option_bind].
    erewrite write_header_some by (rewrite header_set_ne by lia; done).
    unfold set_cell; simpl. rewrite Hl, Ho. eexists. split; [done|].
    unfold with_credit at 1; simpl. split; unfold prepared, charged; rewrite ?Ht.
    + rewrite lookup_insert_eq. unfold with_credit; simpl. by rewrite wrap_wrap by lia.
    + by rewrite lookup_insert_ne, lookup_insert_eq by lia.
    + intros. rewrite !lookup_insert_ne by lia. by apply Hpay.
    + intros. rewrite !lookup_insert_ne by done. by apply Hfr.
  - exists (mem h1). split; [destruct h1; simpl in *; by subst|].
    split; unfold prepared, charged; rewrite ?Ht; [by apply header_inv|by apply header_inv|done|auto].
Qed.

Lemma prepared_size x c : size (prepared x c) = size x.
Proof. unfold prepared, serialize. by destruct (takes_credit x), (unserialized x). Qed.

Lemma prepared_action x c : action (prepared x c) = action x /\ target (prepared x c) = target x
  /\ c_action (prepared x c) = c_action x /\ c_target (prepared x c) = c_target x /\ pid (prepared x c) = pid x.
Proof. unfold prepared, serialize. by destruct (takes_credit x), (unserialized x). Qed.

Lemma prepared_state x c : state (prepared x c) = state (serialize x).
Proof. unfold prepared. by destruct (takes_credit x). Qed.

Lemma charged_pid x c : pid (charged x c) = pid c.
Proof. unfold charged. by destruct (takes_credit x). Qed.

(** A parcel that has a payload, or none and is serialized, is serialized once prepared,
    and its other state bits are as they were. *)
Lemma serialize_bits x i : parcel_serialized x.(state) = true \/ x.(size) <> 0 -> 1 <= i <= 5 ->
  Z.testbit (state (serialize x)) i = Z.testbit x.(state) i || (1 =? i).
Proof.
  intros Hs Hi. unfold serialize. destruct (unserialized x) eqn:Hu.
  - simpl. unfold PARCEL_SERIALIZED. by rewrite testbit_set by lia.
  - destruct (Z.eqb_spec 1 i) as [<-|]; [|by rewrite orb_false_r].
    unfold unserialized, nz in Hu. unfold parcel_serialized, PARCEL_SERIALIZED in *. rewrite state_bit in *.
    destruct (Z.testbit (state x) 1); [done|]. simpl in Hu. destruct Hs; [done|].
    apply negb_false_iff, Z.eqb_eq in Hu. done.
Qed.

(** ** New parcels and sending through a gate *)

Lemma alloc_size_enough n : 0 < n < 2 ^ 32 -> sizeof_parcel + Z.max 8 n <= parcel_alloc_size n < 2 ^ 33.
Proof.
  intros Hn. unfold parcel_alloc_size, sizeof_parcel, nz, pad_bytes. destruct (Z.eqb_spec n 0); [lia|]. simpl.
  rewrite (wrap_small 64 (64 + _)) by lia.
  pose proof (Z.mod_pos_bound (64 + Z.max 8 n) 8 ltac:(lia)). rewrite wrap_small by lia. lia.
Qed.

Lemma new_spec rank h loc target action c_target c_action pid data len :
  0 < data -> 0 < len < 2 ^ 32 ->
  parcel_new rank h loc target action c_target c_action pid data len =
    Some (mkHeap (<[buffer loc := Ptr data]>
                   (<[loc := Hdr (mkParcel 0 0 rank len 0 0 action c_action target c_target pid 0)]> h.(mem)))
            (<[loc := parcel_alloc_size len]> h.(live)) h.(out)).
Proof.
  intros Hd Hl. pose proof (alloc_size_enough len Hl). unfold parcel_new, parcel_init, nz.
  destruct (Z.eqb_spec data 0), (Z.eqb_spec len 0); [lia..|]; cbn [negb andb].
  unfold write_header, write, alloc; simpl. rewrite wrap_small by lia.
  assert (Hreg : forall a n, loc <= a -> a + n <= loc + sizeof_parcel + 8 ->
    covered (<[loc:=parcel_alloc_size len]> (live h)) a n = true).
  { intros. apply (covered_sub _ loc (parcel_alloc_size len)); [|lia..].
    apply covered_region, lookup_insert_eq. }
  unfold buffer, sizeof_parcel in *. rewrite Hreg by lia. cbn [mbind option_bind]. simpl. by rewrite Hreg by lia.
Qed.

Section Through.
Variables (rank HPX_HERE HPX_PAGE_SIZE : Z) (ownerOf : Z -> Z) (lco_attach : Z).
Hypothesis attach_action : 0 < lco_attach.

Lemma parcel_launch_spec h cur p x c d : preparable h cur p x c d -> x.(action) <> 0 ->
  exists m, parcel_launch rank ownerOf h cur p
      = Some (mkHeap m h.(live) (h.(out) ++ [if ownerOf x.(target) =? rank then Spawned p else NetSend p 0]))
    /\ preparation h m cur p x c d.
Proof.
  intros Hp Ha. destruct (prepare_spec _ _ _ _ _ _ Hp) as (m & Hm & Hprep). exists m. split; [|done].
  unfold parcel_launch. rewrite (prep_parcel _ _ _ _ _ _ Hp); cbn [mbind option_bind].
  unfold nz. destruct (Z.eqb_spec (action x) 0); [done|]. simpl. rewrite Hm. done.
Qed.

(** The parcel that carries [n] bytes at [p] to the attach handler of [gate]. *)
Definition carrier (gate pid n : Z) : hpx_parcel :=
  mkParcel 0 0 rank n 0 0 lco_attach 0 gate 0 pid 0.

Record carried h (m : gmap Z cell) (cur p loc gate : Z) (x c : hpx_parcel) (d : Z) : Prop := {
  carried_parcel : m !! p = Some (Hdr (prepared x c));
  carried_carrier :
    m !! loc = Some (Hdr (prepared (carrier gate c.(pid) (sizeof_parcel + x.(size))) (charged x c)));
  carried_child : m !! buffer loc = Some (Hdr (prepared x c));
  carried_payload i : 0 <= i < x.(size) -> m !! (buffer (buffer loc) + i) = mem h !! (d + i);
}.

(** The carrier is ready to be prepared, its payload being the parcel it carries. *)
Lemma carrier_preparable h m cur p loc gate c k :
  let h2 := mkHeap (<[buffer loc := Ptr p]> (<[loc := Hdr (carrier gate c.(pid) k)]> m))
              (<[loc := parcel_alloc_size k]> h.(live)) h.(out) in
  covered h.(live) p k = true -> covered h.(live) cur sizeof_parcel = true ->
  m !! cur = Some (Hdr c) -> sizeof_parcel <= k < 2 ^ 32 - sizeof_parcel ->
  fresh_region h loc (parcel_alloc_size k) ->
  preparable h2 cur loc (carrier gate c.(pid) k) c p.
Proof.
  intros h2 Hcp Hcc Hc Hk Hfresh. unfold sizeof_parcel in *.
  pose proof (alloc_size_enough k ltac:(lia)) as Hal. unfold sizeof_parcel in Hal.
  assert (D1 := covered_fresh _ _ _ _ _ Hfresh Hcp ltac:(lia)).
  assert (D2 := covered_fresh _ _ _ _ _ Hfresh Hcc ltac:(lia)).
  unfold disjoint_ranges in D1, D2. destruct Hfresh as (Hl0 & Hlive & _).
  assert (Hbuf : buffer loc = loc + 64) by done.
  assert (Hregion : covered (live h2) loc (64 + k) = true).
  { apply (covered_sub _ loc (parcel_alloc_size k)); [|lia..]. apply covered_region, lookup_insert_eq. }
  assert (Hloc : header h2 loc = Some (carrier gate c.(pid) k)).
  { apply header_intro; [by apply (covered_sub _ loc (64 + k)); [|unfold sizeof_parcel; lia..]|]. simpl.
    rewrite lookup_insert_ne by lia. apply lookup_insert_eq. }
  split; simpl; unfold sizeof_parcel, disjoint_ranges; [done| | |lia|done| |lia|done].
  - apply header_intro; [by apply covered_insert|]. simpl. by rewrite !lookup_insert_ne by lia.
  - unfold hpx_parcel_get_data. rewrite Hloc; cbn [mbind option_bind size carrier].
    destruct (Z.eqb_spec k 0); [lia|]. change (parcel_serialized (state _)) with false. cbv iota.
    rewrite (covered_sub _ _ (64 + k) (buffer loc) 8 Hregion) by lia. simpl. by rewrite lookup_insert_eq.
  - split; [by apply covered_insert|lia].
Qed.

Lemma launch_through_spec h cur p loc gate x c d : preparable h cur p x c d ->
  0 < p -> x.(size) + 2 * sizeof_parcel < 2 ^ 32 -> 0 < gate ->
  fresh_region h loc (parcel_alloc_size (sizeof_parcel + x.(size))) ->
  exists m, parcel_launch_through rank ownerOf lco_attach h cur loc p gate
      = Some (mkHeap m (<[loc := parcel_alloc_size (sizeof_parcel + x.(size))]> h.(live))
                (h.(out) ++ [if ownerOf gate =? rank then Spawned loc else NetSend loc 0]))
    /\ carried h m cur p loc gate x c d.
Proof.
  intros Hp Hp0 Hsz Hg Hfresh.
  destruct (prepare_spec _ _ _ _ _ _ Hp) as (m1 & Hm1 & [Q1 Q2 Q3 Q4]).
  destruct Hp as [Hx Hc _ Hs Hcov _ Hapart _].
  apply header_inv in Hx as [Hcx _]. apply header_inv in Hc as [Hcc _].
  assert (D1 := covered_fresh _ _ _ _ _ Hfresh Hcov ltac:(unfold sizeof_parcel; lia)).
  assert (D2 := covered_fresh _ _ _ _ _ Hfresh Hcc ltac:(unfold sizeof_parcel; lia)).
  pose proof (alloc_size_enough (sizeof_parcel + size x) ltac:(unfold sizeof_parcel in *; lia)) as Hal.
  unfold parcel_launch_through, nz. destruct (Z.eqb_spec gate 0); [lia|]; cbn [negb].
  rewrite Hm1; cbn [mbind option_bind].
  rewrite (header_intro _ cur (charged x c)) by done; cbn [mbind option_bind].
  rewrite (header_intro _ p (prepared x c)) by done; cbn [mbind option_bind].
  unfold parcel_size. rewrite prepared_size, (wrap_small 32) by (unfold sizeof_parcel in *; lia).
  rewrite new_spec by (unfold sizeof_parcel in *; lia); cbn [mbind option_bind mem live out].
  fold (carrier gate (pid (charged x c)) (sizeof_parcel + size x)).
  destruct (parcel_launch_spec _ cur loc _ _ _ (carrier_preparable (mkHeap m1 (live h) (out h)) m1 cur p loc gate
    (charged x c) (sizeof_parcel + size x) Hcov Hcc Q2 ltac:(unfold sizeof_parcel in *; lia) Hfresh)
    ltac:(simpl; lia)) as (m2 & Hm2 & [R1 R2 R3 R4]).
  exists m2. split; [exact Hm2|]. unfold carrier in R1, R2, R3, R4; simpl in R1, R2, R3, R4.
  rewrite charged_pid in R1. unfold buffer, sizeof_parcel, disjoint_ranges in *. split; [|exact R1| |].
  - rewrite R4, !lookup_insert_ne by lia. done.
  - specialize (R3 0 ltac:(lia)). rewrite !Z.add_0_r in R3. unfold buffer, sizeof_parcel. by rewrite R3, !lookup_insert_ne by lia.
  - intros i Hi. specialize (R3 (64 + i) ltac:(lia)). unfold buffer, sizeof_parcel.
    replace (loc + 64 + 64 + i) with (loc + 64 + (64 + i)) by lia.
    rewrite R3, !lookup_insert_ne by lia. replace (p + (64 + i)) with (p + 64 + i) by lia. by apply Q3.
Qed.

Lemma delete_plain h p x s : header h p = Some x -> 0 < p -> h.(live) !! p = Some s ->
  parcel_retained x.(state) = false -> parcel_nested x.(state) = false ->
  parcel_pinned x.(state) = false -> parcel_block_allocated x.(state) = false ->
  parcel_delete h p = Some (mkHeap h.(mem) (delete p h.(live)) (h.(out) ++ [Freed p])).
Proof.
  intros Hx Hp Hl Hr Hn Hpi Hb. unfold parcel_delete. generalize (length (map_to_list (mem h))). intros k.
  rewrite Nat.add_comm. simpl.
  destruct (Z.eqb_spec p 0); [lia|]. rewrite Hx; cbn [mbind option_bind].
  rewrite Hr, Hn, Hpi. unfold dispose, free. rewrite Hb, Hl. done.
Qed.

Lemma attach_handler_spec h cur x y : header h cur = Some y -> header h (buffer cur) = Some x ->
  y.(size) <> 0 -> parcel_serialized y.(state) = true -> parcel_nested y.(state) = false ->
  parcel_retained y.(state) = false ->
  parcel_serialized x.(state) = true -> parcel_pinned x.(state) = false -> parcel_retained x.(state) = false ->
  AttachHandler h cur (buffer cur) =
    Some (set_cell (set_cell h cur (Hdr (with_state y (Z.lor y.(state) PARCEL_PINNED))))
            (buffer cur) (Hdr (with_state x (Z.lor x.(state) PARCEL_NESTED)))).
Proof.
  intros Hy Hx Hz Hs Hn Hr Hs' Hp' Hr'. unfold AttachHandler, hpx_parcel_get_data.
  rewrite Hy; cbn [mbind option_bind]. destruct (Z.eqb_spec (size y) 0); [done|]. rewrite Hs; cbn [mbind option_bind].
  rewrite Z.eqb_refl. unfold parcel_pin, parcel_get_state, parcel_set_state.
  rewrite Hy; cbn [mbind option_bind]. rewrite Hs, Hn, Hr. cbn [negb andb]. erewrite write_header_some by done.
  cbn [mbind option_bind]. unfold parcel_nest, parcel_get_state, parcel_set_state.
  rewrite header_set_ne by (unfold buffer, sizeof_parcel; lia). rewrite Hx; cbn [mbind option_bind].
  rewrite Hs', Hp', Hr'. cbn [negb andb]. erewrite write_header_some; [done|].
  by rewrite header_set_ne by (unfold buffer, sizeof_parcel; lia).
Qed.

(** An ordinary parcel: allocated by itself, and neither retained, nested nor pinned. *)
Record ordinary h (p : Z) (x : hpx_parcel) : Prop := {
  ordinary_region : is_Some (h.(live) !! p);
  ordinary_payload : parcel_serialized x.(state) = true \/ x.(size) <> 0;
  ordinary_state : parcel_retained x.(state) = false /\ parcel_nested x.(state) = false
    /\ parcel_pinned x.(state) = false /\ parcel_block_allocated x.(state) = false;
}.

Lemma ordinary_prepared h p x c : ordinary h p x ->
  parcel_serialized (state (prepared x c)) = true /\ parcel_retained (state (prepared x c)) = false
  /\ parcel_nested (state (prepared x c)) = false /\ parcel_pinned (state (prepared x c)) = false
  /\ parcel_block_allocated (state (prepared x c)) = false.
Proof.
  intros [_ Hp Hs]. rewrite prepared_state. autorewrite with state in *.
  rewrite !serialize_bits by (lia || by autorewrite with state). simpl. rewrite !orb_false_r, orb_true_r. tauto.
Qed.

(** A parcel sent through a gate arrives whole.  For every parcel, its payload in place
    or still in the user's buffer, the call copies it into a carrier for the gate, launches
    the carrier and frees the parcel; and the attach handler that receives the carrier
    accepts the copy, which has the fields of the parcel, with the credit it was given, and
    its payload. *)
Theorem send_through_attach h cur p loc gate x c d :
  preparable h cur p x c d -> ordinary h p x ->
  0 < p -> 0 < gate -> x.(target) <> 0 -> x.(size) + 2 * sizeof_parcel < 2 ^ 32 ->
  fresh_region h loc (parcel_alloc_size (sizeof_parcel + x.(size))) ->
  exists h' h'', hpx_parcel_send_through_sync rank ownerOf lco_attach h cur loc p gate = Some h'
    /\ out h' = out h ++ [if ownerOf gate =? rank then Spawned loc else NetSend loc 0; Freed p]
    /\ AttachHandler h' loc (buffer loc) = Some h''
    /\ header h'' (buffer loc)
       = Some (with_state (prepared x c) (Z.lor (state (prepared x c)) PARCEL_NESTED))
    /\ forall i, 0 <= i < x.(size) -> mem h'' !! (buffer (buffer loc) + i) = mem h !! (d + i).
Proof.
  intros Hprep Hord Hp Hg Ht Hsz Hfresh.
  destruct (launch_through_spec _ _ _ _ _ _ _ _ Hprep Hp Hsz Hg Hfresh) as (m & Hm & [C1 C2 C3 C4]).
  destruct (ordinary_prepared _ _ _ c Hord) as (B1 & B2 & B3 & B4 & B5).
  destruct Hord as [[s Hs] _ _]. pose proof (prep_size _ _ _ _ _ _ Hprep) as Hsize.
  pose proof (alloc_size_enough (sizeof_parcel + size x) ltac:(unfold sizeof_parcel in *; lia)) as Hal.
  pose proof (prep_covered _ _ _ _ _ _ Hprep) as Hcov.
  assert (Hne : p <> loc) by (intros ->; destruct Hfresh as (_ & Hn & _); congruence).
  unfold hpx_parcel_send_through_sync. rewrite (prep_parcel _ _ _ _ _ _ Hprep); cbn [mbind option_bind].
  unfold nz. destruct (Z.eqb_spec (target x) 0); [done|]. cbn [negb]. rewrite Hm; cbn [mbind option_bind].
  set (h1 := mkHeap _ _ _).
  rewrite (delete_plain h1 p (prepared x c) s); [|apply header_intro; [|done]|done|simpl; by rewrite lookup_insert_ne|done..].
  2: { apply covered_insert; [apply Hfresh|]. apply (covered_sub _ p (sizeof_parcel + size x)); [done|lia..]. }
  eexists _, _. split; [done|]. split; [simpl; by rewrite <- app_assoc|].
  assert (Hreg : forall a k, loc <= a -> a + k <= loc + 2 * sizeof_parcel ->
    covered (delete p (live h1)) a k = true).
  { intros. apply (covered_sub _ loc (parcel_alloc_size (sizeof_parcel + size x))); [|unfold sizeof_parcel in *; lia..].
    apply covered_region. rewrite lookup_delete_ne by done. apply lookup_insert_eq. }
  set (h2 := mkHeap _ _ _). set (carry := prepared (carrier _ _ _) _) in *.
  assert (Hsc : state carry = 2).
  { unfold carry. rewrite prepared_state. unfold serialize, unserialized, nz; simpl.
    destruct (Z.eqb_spec (sizeof_parcel + size x) 0); [unfold sizeof_parcel in *; lia|done]. }
  assert (Hchild : header h2 (buffer loc) = Some (prepared x c)).
  { apply header_intro; [apply Hreg; unfold buffer, sizeof_parcel; lia|done]. }
  split; [apply (attach_handler_spec h2 loc (prepared x c) carry)|]; rewrite ?Hsc; try done.
  - apply header_intro; [apply Hreg; unfold sizeof_parcel; lia|done].
  - unfold carry. rewrite prepared_size. simpl. unfold sizeof_parcel; lia.
  - split; [by eapply header_set_eq; rewrite header_set_ne by (unfold buffer, sizeof_parcel; lia)|].
    intros i Hi. simpl. rewrite !lookup_insert_ne by (unfold buffer, sizeof_parcel; lia). by apply C4.
Qed.
End Through.

(** ** Deleting a parcel and the parcel that carries it *)

(** Two deletions, one step of one of them at a time. *)
Fixpoint delete_both (sched : list bool) h (d1 d2 : deletion) : option (heap * deletion * deletion) :=
  match sched with
  | [] => Some (h, d1, d2)
  | true :: sched => '(h, d1) ← delete_step h d1; delete_both sched h d1 d2
  | false :: sched => '(h, d2) ← delete_step h d2; delete_both sched h d1 d2
  end.

(** The steps a deletion of the carrier or of the parcel in it still takes. *)
Definition deletion_steps (cur : Z) (d : deletion) : nat :=
  match d with
  | Delete p => if p =? cur then 2 else 3
  | Unpin _ _ => 1
  | Deleted => 0
  end.

Section Nested.
Variables (h : heap) (cur : Z) (x y : hpx_parcel).
Hypothesis carrier_at : header h cur = Some y.
Hypothesis child_at : header h (buffer cur) = Some x.
Hypothesis cur_pos : 0 < cur.
Hypothesis child_size : parcel_size x = y.(size).
Hypothesis child_nested : parcel_nested x.(state) = true /\ parcel_retained x.(state) = false.
Hypothesis carrier_pinned : parcel_pinned y.(state) = true /\ parcel_retained y.(state) = false
  /\ parcel_nested y.(state) = false /\ parcel_serialized y.(state) = true.
Hypothesis carrier_memory : parcel_block_allocated y.(state) = true \/ is_Some (h.(live) !! cur).

(** The state that unpinning writes, and the heap then. *)
Let s2 : Z := Z.land y.(state) (Z.lnot PARCEL_PINNED).
Let half : heap := set_cell h cur (Hdr (with_state y s2)).
Let disposed : event := if parcel_block_allocated y.(state) then Returned cur else Freed cur.

Inductive running : deletion -> Prop :=
| running_child : running (Delete (buffer cur))
| running_carrier : running (Delete cur)
| running_unpin : running (Unpin cur s2).

Inductive phase : heap -> deletion -> deletion -> Prop :=
| phase_pinned d1 d2 : running d1 -> running d2 -> phase h d1 d2
| phase_first d1 : running d1 -> phase half d1 Deleted
| phase_second d2 : running d2 -> phase half Deleted d2
| phase_done h' : out h' = out h ++ [disposed] -> phase h' Deleted Deleted.

Lemma half_state i : 1 <= i <= 5 -> Z.testbit (u16 s2) i = Z.testbit y.(state) i && negb (5 =? i).
Proof. intros. apply testbit_clear; lia. Qed.

Lemma dispose_half h' s : live h' = live h -> out h' = out h ->
  Z.testbit s 4 = Z.testbit y.(state) 4 -> Z.testbit s 1 = true ->
  exists h'', dispose h' cur s = Some (h'', Deleted) /\ out h'' = out h ++ [disposed].
Proof.
  intros Hl Ho H4 H1. unfold dispose, disposed. pose proof carrier_memory as Hmem. autorewrite with state in Hmem |- *. rewrite H4, H1.
  destruct (Z.testbit (state y) 4).
  - eexists. split; [done|]. simpl. by rewrite Ho.
  - destruct Hmem as [?|[s' Hs]]; [done|]. unfold free. rewrite Hl, Hs. simpl.
    eexists. split; [done|]. simpl. by rewrite Ho.
Qed.

(** While the carrier is pinned, a deletion gets ahead or takes the pin away. *)
Lemma pinned_step d : running d ->
  exists h' d', delete_step h d = Some (h', d') /\ (deletion_steps cur d' < deletion_steps cur d)%nat
    /\ ((h' = h /\ running d') \/ (h' = half /\ d' = Deleted)).
Proof.
  destruct child_nested, carrier_pinned as (Hpin & Hret & Hnest & Hser).
  assert (Hb : buffer cur = cur + 64) by done.
  destruct 1; simpl.
  - destruct (Z.eqb_spec (buffer cur) 0), (Z.eqb_spec (buffer cur) cur); [lia..|].
    rewrite child_at; cbn [mbind option_bind]. rewrite H, H0.
    replace (buffer cur - sizeof_parcel) with cur by (unfold sizeof_parcel; lia).
    rewrite carrier_at; cbn [mbind option_bind]. rewrite child_size, Z.eqb_refl.
    eexists _, _. split; [done|]. simpl. rewrite Z.eqb_refl. split; [lia|]. left. split; [done|constructor].
  - destruct (Z.eqb_spec cur 0); [lia|]. rewrite carrier_at; cbn [mbind option_bind].
    rewrite Hret, Hnest, Hpin, Z.eqb_refl. eexists _, _. split; [done|]. split; [simpl; lia|].
    left. split; [done|constructor].
  - unfold parcel_exchange_state. rewrite carrier_at; cbn [mbind option_bind].
    erewrite write_header_some by done; cbn [mbind option_bind]. rewrite Hpin.
    eexists _, _. split; [done|]. split; [simpl; lia|]. by right.
Qed.

(** Once it is unpinned, the other deletion gets ahead or disposes of the carrier. *)
Lemma half_step d : running d ->
  exists h' d', delete_step half d = Some (h', d') /\ (deletion_steps cur d' < deletion_steps cur d)%nat
    /\ ((h' = half /\ running d') \/ (out h' = out h ++ [disposed] /\ d' = Deleted)).
Proof.
  destruct child_nested as [Hn Hr], carrier_pinned as (Hpin & Hret & Hnest & Hser).
  assert (Hb : buffer cur = cur + 64) by done.
  assert (Hhc : header half cur = Some (with_state y s2)) by by eapply header_set_eq.
  assert (Hch : header half (buffer cur) = Some x) by (unfold half; rewrite header_set_ne by lia; done).
  destruct 1; simpl.
  - destruct (Z.eqb_spec (buffer cur) 0), (Z.eqb_spec (buffer cur) cur); [lia..|].
    rewrite Hch; cbn [mbind option_bind]. rewrite Hn, Hr.
    replace (buffer cur - sizeof_parcel) with cur by (unfold sizeof_parcel; lia).
    rewrite Hhc; cbn [mbind option_bind]. simpl. rewrite child_size, Z.eqb_refl.
    eexists _, _. split; [done|]. simpl. rewrite Z.eqb_refl. split; [lia|]. left. split; [done|constructor].
  - destruct (Z.eqb_spec cur 0); [lia|]. rewrite Hhc; cbn [mbind option_bind]. simpl.
    autorewrite with state in Hret, Hnest, Hpin, Hser |- *. rewrite !half_state by lia. rewrite Hret, Hnest, Hpin. simpl.
    destruct (dispose_half half (u16 s2)) as (h'' & -> & Ho); [done|done|rewrite half_state by lia; apply andb_true_r|..].
    { rewrite half_state by lia. by rewrite Hser. }
    exists h'', Deleted. split; [done|]. split; [simpl; rewrite ?Z.eqb_refl; lia|]. by right.
  - unfold parcel_exchange_state. rewrite Hhc; cbn [mbind option_bind].
    erewrite write_header_some by done; cbn [mbind option_bind]. simpl.
    autorewrite with state in Hret, Hnest, Hpin, Hser |- *. rewrite half_state by lia. rewrite Hpin. simpl.
    destruct (dispose_half (set_cell half cur (Hdr (with_state (with_state y s2) s2))) (u16 s2)) as (h'' & -> & Ho);
      [done|done|rewrite half_state by lia; apply andb_true_r|..].
    { rewrite half_state by lia. by rewrite Hser. }
    exists h'', Deleted. split; [done|]. split; [simpl; rewrite ?Z.eqb_refl; lia|]. by right.
Qed.

Lemma phase_step h1 d1 d2 b : phase h1 d1 d2 ->
  exists h' d', delete_step h1 (if b : bool then d1 else d2) = Some (h', d')
    /\ phase h' (if b then d' else d1) (if b then d2 else d')
    /\ (deletion_steps cur d' <= pred (deletion_steps cur (if b then d1 else d2)))%nat.
Proof.
  assert (Hstop : forall h' d1 d2, phase h' d1 d2 ->
    (if b then d1 else d2) = Deleted -> exists h'' d', delete_step h' (if b then d1 else d2) = Some (h'', d')
      /\ phase h'' (if b then d' else d1) (if b then d2 else d') /\ (deletion_steps cur d' <= 0)%nat).
  { intros h' e1 e2 Hp He. rewrite He. exists h', Deleted. simpl. by destruct b; subst. }
  destruct 1 as [d1 d2 R1 R2|d1 R1|d2 R2|h1 Ho].
  - assert (R : running (if b then d1 else d2)) by by destruct b.
    destruct (pinned_step _ R) as (h' & d' & Hs & Hw & Hph). exists h', d'. split; [done|]. split; [|lia].
    destruct Hph as [[-> Hr]|[-> ->]]; destruct b; by constructor.
  - destruct b; [|destruct (Hstop half d1 Deleted) as (?&?&?&?&?); [by constructor|done|eauto]].
    destruct (half_step _ R1) as (h' & d' & Hs & Hw & Hph). exists h', d'. split; [done|]. split; [|lia].
    destruct Hph as [[-> Hr]|[Ho ->]]; by constructor.
  - destruct b; [destruct (Hstop half Deleted d2) as (?&?&?&?&?); [by constructor|done|eauto]|].
    destruct (half_step _ R2) as (h' & d' & Hs & Hw & Hph). exists h', d'. split; [done|]. split; [|lia].
    destruct Hph as [[-> Hr]|[Ho ->]]; by constructor.
  - destruct (Hstop h1 Deleted Deleted) as (h'&d'&?&?&?); [by constructor|by destruct b|].
    exists h', d'. split; [done|]. split; [done|lia].
Qed.

Lemma phase_run sched : forall h1 d1 d2, phase h1 d1 d2 ->
  exists h' d1' d2', delete_both sched h1 d1 d2 = Some (h', d1', d2') /\ phase h' d1' d2'
    /\ (deletion_steps cur d1' <= deletion_steps cur d1 - length (filter (eq true) sched))%nat
    /\ (deletion_steps cur d2' <= deletion_steps cur d2 - length (filter (eq false) sched))%nat.
Proof.
  induction sched as [|b sched IH]; intros h1 d1 d2 Hp; simpl.
  { exists h1, d1, d2. split; [done|]. split; [done|]. lia. }
  destruct (phase_step _ _ _ b Hp) as (h' & d' & Hs & Hp' & Hw).
  destruct (IH _ _ _ Hp') as (h'' & e1 & e2 & Hr & Hp'' & W1 & W2). exists h'', e1, e2.
  destruct b; rewrite Hs; cbn [mbind option_bind]; (split; [done|]); (split; [done|]);
    rewrite ?filter_cons_True, ?filter_cons_False by done; simpl; lia.
Qed.

Lemma phase_outcome h1 d1 d2 : phase h1 d1 d2 ->
  (live h1 = live h /\ out h1 = out h /\ ~ (d1 = Deleted /\ d2 = Deleted))
  \/ (d1 = Deleted /\ d2 = Deleted /\ out h1 = out h ++ [disposed]).
Proof.
  destruct 1 as [d1 d2 R1 R2|d1 R1|d2 R2|h1 Ho]; [left..|by right]; do 2 (split; [done|]); intros [E1 E2]; subst;
    match goal with R : running Deleted |- _ => inversion R end.
Qed.
End Nested.

Lemma attach_handler_inv h cur h' : 0 < cur -> AttachHandler h cur (buffer cur) = Some h' ->
  exists x y, header h cur = Some y /\ header h (buffer cur) = Some x
    /\ parcel_serialized y.(state) = true /\ parcel_nested y.(state) = false /\ parcel_retained y.(state) = false
    /\ parcel_retained x.(state) = false
    /\ h' = set_cell (set_cell h cur (Hdr (with_state y (Z.lor y.(state) PARCEL_PINNED))))
            (buffer cur) (Hdr (with_state x (Z.lor x.(state) PARCEL_NESTED))).
Proof.
  intros Hc. assert (Hb : buffer cur = cur + 64) by done. unfold AttachHandler, parcel_pin, parcel_nest, parcel_get_state, parcel_set_state.
  destruct (hpx_parcel_get_data h cur) as [d|]; [|done]; cbn [mbind option_bind]. destruct (d =? _); [|done].
  destruct (header h cur) as [y|] eqn:Hy; [|done]; cbn [mbind option_bind].
  destruct (parcel_serialized _ && _ && _) eqn:E; [|done]. erewrite write_header_some by done; cbn [mbind option_bind].
  rewrite header_set_ne by lia. destruct (header h (buffer cur)) as [x|] eqn:Hx; [|done]; cbn [mbind option_bind].
  destruct (parcel_serialized (state x) && _ && _) eqn:E'; [|done].
  erewrite write_header_some by (by rewrite header_set_ne by lia). intros [= <-]. exists x, y. zbool.
  repeat split; done.
Qed.

(** C40: a carrier is freed once.  After the attach handler has pinned the carrier and nested
    the parcel in it, the end of the handler deletes the carrier and the one who runs the
    nested parcel deletes that, in any interleaving of their steps.  No step fails; the
    memory of both is left alone until both deletions are done, and is then given back
    exactly once; and three steps of each are enough. *)
Theorem attach_deletes_once h cur h' sched :
  0 < cur -> AttachHandler h cur (buffer cur) = Some h' ->
  (forall x y, header h (buffer cur) = Some x -> header h cur = Some y ->
     parcel_size x = y.(size) /\ (parcel_block_allocated y.(state) = true \/ is_Some (h.(live) !! cur))) ->
  exists h'' d1 d2, delete_both sched h' (Delete cur) (Delete (buffer cur)) = Some (h'', d1, d2)
    /\ ((live h'' = live h /\ out h'' = out h /\ ~ (d1 = Deleted /\ d2 = Deleted))
        \/ (d1 = Deleted /\ d2 = Deleted
            /\ exists e, (e = Freed cur \/ e = Returned cur) /\ out h'' = out h ++ [e]))
    /\ ((3 <= length (filter (eq true) sched))%nat -> (3 <= length (filter (eq false) sched))%nat ->
        d1 = Deleted /\ d2 = Deleted).
Proof.
  intros Hc Ha Hsz. destruct (attach_handler_inv _ _ _ Hc Ha) as (x & y & Hy & Hx & S1 & S2 & S3 & S4 & ->).
  destruct (Hsz _ _ Hx Hy) as [Hsize Hmem]. assert (Hb : buffer cur = cur + 64) by done.
  set (h' := set_cell _ _ _). set (y' := with_state y _) in *. set (x' := with_state x _) in *.
  assert (Hy' : header h' cur = Some y') by (unfold h'; rewrite header_set_ne by lia; by eapply header_set_eq).
  assert (Hx' : header h' (buffer cur) = Some x') by (eapply header_set_eq; by rewrite header_set_ne by lia).
  assert (Hwx : parcel_nested x'.(state) = true /\ parcel_retained x'.(state) = false).
  { unfold x', with_state; cbn [state]. unfold PARCEL_NESTED. autorewrite with state in S4 |- *.
    rewrite S4. split; [apply orb_true_iff; by right|done]. }
  assert (Hwy : parcel_pinned y'.(state) = true /\ parcel_retained y'.(state) = false
    /\ parcel_nested y'.(state) = false /\ parcel_serialized y'.(state) = true).
  { unfold y', with_state; cbn [state]. unfold PARCEL_PINNED. autorewrite with state in S1, S2, S3 |- *.
    rewrite S1, S2, S3. split; [apply orb_true_iff; by right|done]. }
  assert (Hwm : parcel_block_allocated y'.(state) = true \/ is_Some (live h' !! cur)).
  { unfold y', with_state; cbn [state]. unfold PARCEL_PINNED. autorewrite with state in Hmem |- *.
    destruct Hmem as [->|]; [by left|by right]. }
  destruct (phase_run h' cur x' y' Hy' Hx' Hc Hsize Hwx Hwy Hwm sched h' (Delete cur) (Delete (buffer cur)))
    as (h'' & d1 & d2 & Hr & Hp & W1 & W2); [by repeat constructor|].
  exists h'', d1, d2. split; [done|]. split.
  - destruct (phase_outcome _ _ _ _ _ _ Hp) as [Hl|(-> & -> & Ho)]; [by left|right].
    do 2 (split; [done|]). rewrite Ho. exists (if parcel_block_allocated (state y') then Returned cur else Freed cur).
    split; [|done]. destruct (parcel_block_allocated (state y')); auto.
  - intros N1 N2. simpl in W1, W2. rewrite Z.eqb_refl in W1. destruct (_ =? _) in W2.
    all: destruct d1 as [p| |], d2 as [p'| |]; try done; simpl in W1, W2; repeat case_match; lia.
Qed.

(** ** Deletion ends *)

Definition headers_below h (p : Z) : nat := length (filter (fun kc => kc.1 <= p) (map_to_list h.(mem))).

Lemma filter_length_lt {A} (P Q : A -> Prop) `{!forall x, Decision (P x), !forall x, Decision (Q x)} l x :
  (forall y, Q y -> P y) -> x ∈ l -> P x -> ~ Q x -> (length (filter Q l) < length (filter P l))%nat.
Proof.
  intros HQP. assert (Hle : forall l, (length (filter Q l) <= length (filter P l))%nat).
  { intros l'. induction l' as [|y l' IH]; [simpl; lia|].
    rewrite !filter_cons. destruct (decide (Q y)), (decide (P y)); simpl; try lia. naive_solver. }
  induction 1 as [x' l'|x' y l' Hin IH]; intros HP HQ.
  - rewrite (filter_cons_True P), (filter_cons_False Q) by done. simpl. by apply le_n_S.
  - specialize (IH HP HQ). rewrite !filter_cons. destruct (decide (Q y)), (decide (P y)); simpl; try lia. naive_solver.
Qed.

Lemma headers_below_lt h p q x : header h p = Some x -> q < p -> (headers_below h q < headers_below h p)%nat.
Proof.
  intros [_ Hm]%header_inv Hq. apply (filter_length_lt _ _ _ (p, Hdr x)); simpl; [lia| |lia..].
  by apply elem_of_map_to_list.
Qed.

(** What a step of a deletion does to it. *)
Lemma delete_step_cases h d h' d' : delete_step h d = Some (h', d') ->
  d' = Deleted \/ exists p, d = Delete p /\ h' = h
    /\ ((exists s, d' = Unpin p s) \/ (d' = Delete (p - sizeof_parcel) /\ exists x, header h p = Some x)).
Proof.
  assert (Hdis : forall h p s, dispose h p s = Some (h', d') -> d' = Deleted).
  { unfold dispose, free. intros h0 p s. repeat case_match; simpl; intros; simplify_eq/=; try done. }
  destruct d as [p|p s|]; simpl.
  - destruct (p =? 0); [naive_solver|]. destruct (header h p) as [x|] eqn:Hx; [|done]; cbn [mbind option_bind].
    destruct (parcel_retained _); [naive_solver|]. destruct (parcel_nested _).
    { destruct (header h (p - _)) as [y|]; [|done]; cbn [mbind option_bind]. destruct (_ =? _); [|done].
      intros [= <- <-]. right. exists p. eauto 6. }
    destruct (parcel_pinned _); [intros [= <- <-]; right; exists p; eauto 6|]. intros H. left. by eapply Hdis.
  - destruct (parcel_exchange_state h p s) as [[h1 s1]|]; [|done]; cbn [mbind option_bind].
    destruct (parcel_pinned s1); [naive_solver|]. intros H. left. by eapply Hdis.
  - naive_solver.
Qed.

#[global] Instance deletion_eq_dec : EqDecision deletion.
Proof. solve_decision. Defined.

Definition deletes_to (a b : heap * deletion) : Prop := delete_step a.1 a.2 = Some b.

Lemma delete_run_S n h d : d <> Deleted ->
  delete_run (S n) h d = ('(h, d) ← delete_step h d; delete_run n h d).
Proof. by destruct d. Qed.

Lemma delete_run_deleted n h : delete_run n h Deleted = Some h.
Proof. by destruct n. Qed.

Lemma delete_run_stuck n : forall h p, (headers_below h p <= n)%nat ->
  delete_run (n + 2) h (Delete p) = None ->
  exists b, rtc deletes_to (h, Delete p) b /\ delete_step b.1 b.2 = None.
Proof.
  induction n as [n IH] using lt_wf_ind. intros h p Hn. rewrite Nat.add_comm.
  change (2 + n)%nat with (S (S n)). rewrite delete_run_S by done.
  destruct (delete_step h (Delete p)) as [[h' d']|] eqn:Hs; cbn [mbind option_bind].
  2: { intros _. exists (h, Delete p). split; [constructor|done]. }
  assert (Hto : deletes_to (h, Delete p) (h', d')) by done.
  destruct (delete_step_cases _ _ _ _ Hs) as [->|(q & [= <-] & -> & [[s ->]|[-> (x & Hx)]])]; [done| |].
  - rewrite delete_run_S by done. destruct (delete_step h (Unpin p s)) as [[h2 d2]|] eqn:Hs2; cbn [mbind option_bind].
    + destruct (delete_step_cases _ _ _ _ Hs2) as [->|(q & ? & _)]; [|done]. by rewrite delete_run_deleted.
    + intros _. exists (h, Unpin p s). split; [by apply rtc_once|done].
  - pose proof (headers_below_lt h p (p - sizeof_parcel) x Hx ltac:(unfold sizeof_parcel; lia)) as Hlt.
    destruct n as [|n]; [lia|]. replace (S (S n)) with (n + 2)%nat by lia. intros Hr.
    destruct (IH n ltac:(lia) h (p - sizeof_parcel) ltac:(lia) Hr) as (b & Hrt & Hb).
    exists b. split; [by eapply rtc_l|done].
Qed.

Lemma delete_run_reaches n : forall h d h', delete_run n h d = Some h' -> rtc deletes_to (h, d) (h', Deleted).
Proof.
  induction n as [|n IH]; intros h d h'.
  { destruct d; simpl; intros; simplify_eq. constructor. }
  destruct (decide (d = Deleted)) as [->|Hd]; [simpl; intros [= ->]; constructor|].
  rewrite delete_run_S by done. destruct (delete_step h d) as [[h1 d1]|] eqn:Hs; [|done]; cbn [mbind option_bind].
  intros Hr. by eapply rtc_l; [|by apply IH].
Qed.

(** Deletion ends.  Deleting a parcel, however deep it is nested, takes at most one step
    for each header in memory and two more: its steps lead to an end, or to one that fails,
    which is a failed assertion or an access to memory that is not allocated. *)
Theorem parcel_delete_terminates h p :
  (exists h', parcel_delete h p = Some h' /\ rtc deletes_to (h, Delete p) (h', Deleted))
  \/ exists b, rtc deletes_to (h, Delete p) b /\ delete_step b.1 b.2 = None.
Proof.
  destruct (parcel_delete h p) as [h'|] eqn:Hd.
  - left. exists h'. split; [done|]. by eapply delete_run_reaches.
  - right. eapply delete_run_stuck; [|done]. apply length_filter.
Qed.

(** ** Witnesses: a running parcel at 1024, a user's buffer of three bytes at 8192 *)

Definition demo_current : hpx_parcel := mkParcel 0 0 0 0 PARCEL_SERIALIZED 0 1 0 1 0 5 3.
Definition demo_heap : heap :=
  mkHeap {[1024 := Hdr demo_current; 8192 := Byte 10; 8193 := Byte 20; 8194 := Byte 30]}
    {[1024 := 64; 8192 := 3]} [].

(** A parcel of process 5 with the buffer as its payload, not copied yet. *)
Definition demo_parcel : hpx_parcel := mkParcel 0 0 0 3 0 0 9 0 7 0 5 0.
Definition demo_new : heap := default demo_heap (parcel_new 0 demo_heap 2048 7 9 0 0 5 8192 3).
Definition demo_sent : heap :=
  default demo_heap (hpx_parcel_send_through_sync 0 (fun _ => 0) 11 demo_new 1024 4096 2048 77).

Lemma demo_preparable : preparable demo_new 1024 2048 demo_parcel demo_current 8192.
Proof. split; vm_compute; try done; try reflexivity; [split; [done|by left]|by left]. Qed.

Lemma demo_ordinary : ordinary demo_new 2048 demo_parcel.
Proof. split; [by eexists; vm_compute|by right|by vm_compute]. Qed.

Lemma send_through_attach_witness :
  exists h', AttachHandler demo_sent 4096 (buffer 4096) = Some h'
    /\ mem h' !! (buffer (buffer 4096) + 2) = Some (Byte 30).
Proof.
  destruct (send_through_attach 0 (fun _ => 0) 11 ltac:(lia) demo_new 1024 2048 4096 77 demo_parcel demo_current 8192
    demo_preparable demo_ordinary ltac:(lia) ltac:(lia) ltac:(done) ltac:(done))
    as (h' & h'' & Hs & _ & Ha & _ & Hp).
  - apply freshb_fresh. vm_compute. reflexivity.
  - assert (E : demo_sent = h') by (unfold demo_sent; rewrite Hs; reflexivity). rewrite E. exists h''.
    split; [exact Ha|]. rewrite (Hp 2) by (simpl; lia). vm_compute. reflexivity.
Defined.

Definition demo_attached : heap := default demo_heap (AttachHandler demo_sent 4096 (buffer 4096)).

Lemma attach_deletes_once_witness :
  exists h d1 d2, delete_both [true; false; true; false; false; true; false] demo_attached
      (Delete 4096) (Delete (buffer 4096)) = Some (h, d1, d2) /\ d1 = Deleted /\ d2 = Deleted.
Proof.
  destruct (attach_deletes_once demo_sent 4096 demo_attached [true; false; true; false; false; true; false])
    as (h & d1 & d2 & Hr & _ & Hd).
  - lia.
  - vm_compute. reflexivity.
  - intros x y Hx Hy. vm_compute in Hx, Hy. injection Hx as <-. injection Hy as <-.
    split; [reflexivity|]. right. by eexists; vm_compute.
  - exists h, d1, d2. split; [exact Hr|]. apply Hd; vm_compute; lia.
Defined.

(** A retained parcel may be sent, but not through a gate: its copy is retained too, and the
    attach handler refuses to nest it. *)
Lemma send_through_retained :
  (h ← parcel_prepare demo_new 1024 2048;
   h ← parcel_retain h 2048;
   h ← hpx_parcel_send_through_sync 0 (fun _ => 0) 11 h 1024 4096 2048 77;
   Some (AttachHandler h 4096 (buffer 4096))) = Some None.
Proof. vm_compute. reflexivity. Qed.
