(* ===== verification/Compression.v ===== *)
(** * Compressed parcels

    libhpx/network/CompressionWrapper.cpp: a parcel whose action asks for it is sent inside of
    another, as the LZ4 block of its bytes, and the action that runs at the other end takes it
    out and launches it.  The memory is that of the parcels; what a new allocation holds, in
    the parts that are written by LZ4, is an argument. *)

From S2P Require Import Prelude Math Bytes Lz4 Lz4Compress Lz4Decompress Parcel.

(** ** Parcels as bytes *)

(** The layout of struct hpx_parcel. *)
Definition encode (x : hpx_parcel) : list Z :=
  le 8 x.(thread) ++ le 8 x.(next) ++ le 4 x.(Parcel.src) ++ le 4 x.(size) ++ le 2 x.(state) ++ le 2 x.(offset)
  ++ le 2 x.(action) ++ le 2 x.(c_action) ++ le 8 x.(target) ++ le 8 x.(c_target) ++ le 8 x.(pid) ++ le 8 x.(credit).

Definition field (bs : list Z) (p n : Z) : Z := unle (sub bs p n).

Definition decode (bs : list Z) : hpx_parcel :=
  mkParcel (field bs 0 8) (field bs 8 8) (field bs 16 4) (field bs 20 4) (field bs 24 2) (field bs 26 2)
    (field bs 28 2) (field bs 30 2) (field bs 32 8) (field bs 40 8) (field bs 48 8) (field bs 56 8).

Definition byte_at (m : gmap Z cell) (a : Z) : option Z := match m !! a with Some (Byte b) => Some b | _ => None end.

Definition read_bytes (h : heap) (a n : Z) : option (list Z) :=
  if covered h.(live) a n then mapM (fun i => byte_at h.(mem) (a + i)) (seqZ 0 n) else None.

Fixpoint put_bytes (m : gmap Z cell) (a : Z) (bs : list Z) : gmap Z cell :=
  match bs with
  | [] => m
  | b :: bs => <[a := Byte b]> (put_bytes m (a + 1) bs)
  end.

Definition write_bytes (h : heap) (a : Z) (bs : list Z) : option heap :=
  if covered h.(live) a (len bs) then Some (mkHeap (put_bytes h.(mem) a bs) h.(live) h.(out)) else None.

(** The [n] bytes at a parcel, and the parcel that bytes are. *)
Definition read_parcel (h : heap) (p n : Z) : option (list Z) :=
  x ← header h p; bs ← read_bytes h (buffer p) (n - sizeof_parcel); Some (encode x ++ bs).

Definition write_parcel (h : heap) (p : Z) (bs : list Z) : option heap :=
  h ← write_header h p (decode bs); write_bytes h (buffer p) (drop (Z.to_nat sizeof_parcel) bs).

(** ** The wrapper *)

Definition sizeof_Args : Z := 8.

Section Wrapper.
Variables (rank Decompress : Z) (ownerOf : Z -> Z) (action_is_compressed : Z -> bool).

Definition with_size (x : hpx_parcel) (n : Z) : hpx_parcel :=
  mkParcel x.(thread) x.(next) x.(Parcel.src) n x.(state) x.(offset) x.(action) x.(c_action) x.(target) x.(c_target) x.(pid) x.(credit).

(** CompressionWrapper::send: [loc] is the address of the new parcel, [fresh] what the memory
    for its data holds. *)
Definition send (h : heap) (p ssync loc : Z) (fresh : list Z) : option heap :=
  x ← header h p;
  if action_is_compressed x.(action) then
    let isize := parcel_size x in
    let bytes := u64 (sizeof_Args + LZ4_compressBound (i32 isize)) in
    h ← parcel_new rank h loc x.(target) Decompress 0 0 x.(pid) 0 bytes;
    args ← hpx_parcel_get_data h loc;
    h ← write_bytes h args (le 8 isize);
    buf ← read_parcel h p isize;
    '(csize, data) ← LZ4_compress_fast buf fresh (i32 isize) (i32 bytes) 1;
    h ← write_bytes h (args + sizeof_Args) data;
    if nz csize then
      q ← header h loc;
      h ← write_header h loc (with_size q (u32 (sizeof_Args + csize)));
      h ← parcel_delete h p;
      Some (emit h (NetSend loc ssync))
    else
      h ← parcel_delete h loc;
      Some (emit h (NetSend p ssync))
  else Some (emit h (NetSend p ssync)).

(** DecompressHandler, on the bytes of its arguments. *)
Definition DecompressHandler (h : heap) (cur loc : Z) (fresh args : list Z) : option heap :=
  bs ← load args 0 8;
  let bytes := unle bs in
  let h := alloc h loc (parcel_alloc_size bytes) in
  '(_, buf) ← LZ4_decompress_fast false (drop 8 args) fresh (i32 bytes);
  h ← write_parcel h loc buf;
  x ← header h loc;
  h ← write_header h loc (with_next (with_thread x 0) 0);
  h ← parcel_set_state h loc PARCEL_SERIALIZED;
  parcel_launch rank ownerOf h cur loc.
End Wrapper.

(** ** Reading and writing bytes *)

Lemma byte_at_iff m a b : byte_at m a = Some b <-> m !! a = Some (Byte b).
Proof. unfold byte_at. destruct (m !! a) as [[]|]; naive_solver. Qed.

Lemma read_bytes_iff h a n bs : 0 <= n -> read_bytes h a n = Some bs <->
  covered h.(live) a n = true /\ len bs = n /\ forall i, 0 <= i < n -> h.(mem) !! (a + i) = Some (Byte (bt bs i)).
Proof.
  intros Hn. unfold read_bytes. destruct (covered h.(live) a n) eqn:Ec; [|naive_solver]. rewrite mapM_Some, Forall2_lookup. split.
  - intros HF. split; [done|]. assert (Hl : length bs = Z.to_nat n).
    { rewrite <- (length_seqZ 0 n). symmetry. apply Forall2_length with (P := fun i b => byte_at h.(mem) (a + i) = Some b). by apply Forall2_lookup. }
    assert (Hlen : len bs = n) by (unfold len; lia). split; [done|]. intros i Hi. specialize (HF (Z.to_nat i)). rewrite (bt_lookup bs i) in HF by lia.
    rewrite lookup_seqZ_lt in HF by lia. inversion HF as [? ? HP|]; subst. apply byte_at_iff in HP. by replace (a + i) with (a + (0 + Z.of_nat (Z.to_nat i))) by lia.
  - intros (_ & Hl & Hm) i. destruct (decide (i < Z.to_nat n)%nat) as [Hi|Hi].
    + rewrite lookup_seqZ_lt by lia. replace i with (Z.to_nat (Z.of_nat i)) at 2 by lia. rewrite bt_lookup by lia. constructor.
      apply byte_at_iff. rewrite Z.add_0_l. apply Hm. lia.
    + rewrite (lookup_ge_None_2 (seqZ 0 n)) by (rewrite length_seqZ; lia). rewrite lookup_ge_None_2 by (unfold len in Hl; lia). constructor.
Qed.

Lemma put_bytes_lookup bs : forall m a k,
  put_bytes m a bs !! k = if (a <=? k) && (k <? a + len bs) then Some (Byte (bt bs (k - a))) else m !! k.
Proof.
  induction bs as [|b bs IH]; intros m a k; cbn [put_bytes].
  - unfold len. cbn [length]. destruct (Z.leb_spec a k), (Z.ltb_spec k (a + Z.of_nat 0)); try lia; done.
  - assert (El : len (b :: bs) = 1 + len bs) by (unfold len; simpl; lia). rewrite El. pose proof (len_nonneg bs). destruct (decide (a = k)) as [->|Hne].
    + rewrite lookup_insert_eq. destruct (Z.leb_spec k k), (Z.ltb_spec k (k + (1 + len bs))); try lia. cbn [andb]. by rewrite Z.sub_diag.
    + rewrite lookup_insert_ne, IH by done. destruct (Z.leb_spec (a + 1) k), (Z.ltb_spec k (a + 1 + len bs)), (Z.leb_spec a k), (Z.ltb_spec k (a + (1 + len bs)));
        try lia; cbn [andb]; try done. do 2 f_equal. unfold bt. replace (Z.to_nat (k - a)) with (S (Z.to_nat (k - (a + 1)))) by lia. done.
Qed.

(** The numbers of a header fit its fields. *)
Record fits (x : hpx_parcel) : Prop := {
  fits_thread : x.(thread) ∈u 64;
  fits_next : x.(next) ∈u 64;
  fits_src : x.(Parcel.src) ∈u 32;
  fits_size : x.(size) ∈u 32;
  fits_state : x.(state) ∈u 16;
  fits_offset : x.(offset) ∈u 16;
  fits_action : x.(action) ∈u 16;
  fits_c_action : x.(c_action) ∈u 16;
  fits_target : x.(target) ∈u 64;
  fits_c_target : x.(c_target) ∈u 64;
  fits_pid : x.(pid) ∈u 64;
  fits_credit : x.(credit) ∈u 64;
}.

Lemma le_bytes k : forall v, bytes (le k v).
Proof. induction k as [|k IH]; intros v; constructor; [|apply IH]. apply Z.mod_pos_bound. lia. Qed.

Lemma encode_bytes x : bytes (encode x).
Proof. unfold encode, bytes. rewrite !Forall_app. repeat split; apply le_bytes. Qed.

Lemma encode_length x : len (encode x) = 64.
Proof. unfold encode. rewrite !len_app. unfold len. rewrite !le_length. lia. Qed.

Lemma decode_encode x bs : fits x -> decode (encode x ++ bs) = x.
Proof.
  intros [H1 H2 H3 H4 H5 H6 H7 H8 H9 H10 H11 H12]. unfold decode, field.
  change (sub (encode x ++ bs) 0 8) with (le 8 x.(thread)). change (sub (encode x ++ bs) 8 8) with (le 8 x.(next)).
  change (sub (encode x ++ bs) 16 4) with (le 4 x.(Parcel.src)). change (sub (encode x ++ bs) 20 4) with (le 4 x.(size)).
  change (sub (encode x ++ bs) 24 2) with (le 2 x.(state)). change (sub (encode x ++ bs) 26 2) with (le 2 x.(offset)).
  change (sub (encode x ++ bs) 28 2) with (le 2 x.(action)). change (sub (encode x ++ bs) 30 2) with (le 2 x.(c_action)).
  change (sub (encode x ++ bs) 32 8) with (le 8 x.(target)). change (sub (encode x ++ bs) 40 8) with (le 8 x.(c_target)).
  change (sub (encode x ++ bs) 48 8) with (le 8 x.(pid)). change (sub (encode x ++ bs) 56 8) with (le 8 x.(credit)).
  rewrite !unle_le by assumption. by destruct x.
Qed.

(** ** Sending *)

(** A parcel that is ready to be sent, with its payload in place. *)
Record sendable (h : heap) (p : Z) (x : hpx_parcel) (data : list Z) : Prop := {
  sendable_header : header h p = Some x;
  sendable_fits : fits x;
  sendable_pos : 0 < p;
  sendable_ordinary : ordinary h p x;
  sendable_credit : x.(pid) = 0 \/ x.(credit) <> 0;
  sendable_action : x.(action) <> 0;
  sendable_data : read_bytes h (buffer p) x.(size) = Some data;
  sendable_bytes : bytes data;
  sendable_small : sizeof_parcel + x.(size) < 2 ^ 32;
}.

(** The bound for a size that is passed as an int: zero when it is too large. *)
Lemma compress_bound n : 0 <= n < 2 ^ 32 -> 0 <= LZ4_compressBound (i32 n) < 2 ^ 31 - 16
  /\ (n <= LZ4_MAX_INPUT_SIZE -> i32 n = n /\ LZ4_compressBound n = n + n / 255 + 16) /\ (LZ4_MAX_INPUT_SIZE < n -> LZ4_compressBound (i32 n) = 0).
Proof.
  intros Hn. unfold LZ4_compressBound, LZ4_MAX_INPUT_SIZE. rewrite wrap_swrap, !(wrap_small 32 n) by lia. pose proof (Z.div_mod n 255). pose proof (Z.mod_pos_bound n 255).
  destruct (Z.ltb_spec 2113929216 n); [lia|]. rewrite swrap_small by lia. lia.
Qed.

Lemma header_put h p x m live_ out_ : header h p = Some x -> covered live_ p sizeof_parcel = true -> m !! p = h.(mem) !! p -> header (mkHeap m live_ out_) p = Some x.
Proof. intros [_ Hm]%header_inv Hc E. apply header_intro; [done|]. cbn. by rewrite E. Qed.

Section Send.
Variables (rank Decompress : Z) (action_is_compressed : Z -> bool) (h : heap) (p loc : Z) (x : hpx_parcel) (data fresh : list Z).
Abbreviation isize := (sizeof_parcel + x.(size)).
Abbreviation bound := (LZ4_compressBound (i32 isize)).
Abbreviation room := (sizeof_Args + bound).
Hypothesis Hx : sendable h p x data.
Hypothesis Hfresh : fresh_region h loc (parcel_alloc_size room).
Hypothesis Hlen : len fresh = bound.

(** The new parcel. *)
Definition wrapper (n : Z) : hpx_parcel := mkParcel 0 0 rank n PARCEL_SERIALIZED 0 Decompress 0 x.(target) 0 x.(pid) 0.

Lemma isize_range : 64 <= isize < 2 ^ 32 /\ 0 <= x.(size).
Proof. clear Hlen Hfresh. destruct Hx as [_ [] _ _ _ _ _ _ Hs]. unfold sizeof_parcel in *. lia. Qed.

Lemma room_range : room < 2 ^ 31 /\ 8 <= room /\ sizeof_parcel + room <= parcel_alloc_size room.
Proof.
  clear Hlen Hfresh. pose proof isize_range as [Hi _]. destruct (compress_bound isize) as [Hb _]; [lia|]. unfold sizeof_Args.
  pose proof (alloc_size_enough (8 + bound)). unfold sizeof_parcel in *. lia.
Qed.

(** The memory of the parcel is apart from the new one. *)
Lemma apart : disjoint_ranges p sizeof_parcel loc (parcel_alloc_size room) /\ disjoint_ranges (buffer p) x.(size) loc (parcel_alloc_size room).
Proof.
  clear Hlen. pose proof isize_range as [_ H0]. destruct Hx as [Hh _ _ _ _ _ Hd _ _]. apply header_inv in Hh as [Hc _]. apply read_bytes_iff in Hd as (Hc' & _); [|done].
  split; by eapply covered_fresh.
Qed.

Lemma image_length : len (encode x ++ data) = isize.
Proof.
  clear Hlen Hfresh. pose proof isize_range as [_ H0]. destruct Hx as [_ _ _ _ _ _ Hd _ _]. apply read_bytes_iff in Hd as (_ & Hl & _); [|done].
  rewrite len_app, encode_length. unfold sizeof_parcel. lia.
Qed.

(** The memory with the new parcel, the size and [dest]. *)
Abbreviation asz := (parcel_alloc_size room).
Definition args_mem : gmap Z cell := put_bytes (<[loc := Hdr (wrapper room)]> h.(mem)) (loc + 64) (le 8 isize).
Definition block_mem (dest : list Z) : gmap Z cell := put_bytes args_mem (loc + 64 + 8) dest.
Definition sent_live : gmap Z Z := <[loc := asz]> h.(live).

Lemma args_outside a : a < loc \/ loc + asz <= a -> args_mem !! a = h.(mem) !! a.
Proof.
  clear Hlen Hfresh. intros Ha. pose proof room_range as (Hr1 & Hr2 & Hr3). unfold args_mem. rewrite put_bytes_lookup. change (len (le 8 isize)) with 8. unfold sizeof_parcel in *.
  destruct (Z.leb_spec (loc + 64) a), (Z.ltb_spec a (loc + 64 + 8)); cbn [andb]; try lia; by rewrite lookup_insert_ne by lia.
Qed.

Lemma block_outside dest a : len dest = bound -> a < loc \/ loc + asz <= a -> block_mem dest !! a = h.(mem) !! a.
Proof.
  clear Hlen Hfresh. intros Hl Ha. pose proof room_range as (Hr1 & Hr2 & Hr3). unfold block_mem. rewrite put_bytes_lookup, Hl. unfold sizeof_parcel, sizeof_Args in *.
  destruct (Z.leb_spec (loc + 64 + 8) a), (Z.ltb_spec a (loc + 64 + 8 + LZ4_compressBound (i32 (64 + size x)))); cbn [andb]; try lia; by apply args_outside.
Qed.

Lemma block_header dest : block_mem dest !! loc = Some (Hdr (wrapper room)).
Proof.
  clear. unfold block_mem, args_mem. rewrite !put_bytes_lookup. destruct (Z.leb_spec (loc + 64 + 8) loc); [lia|]. cbn [andb].
  destruct (Z.leb_spec (loc + 64) loc); [lia|]. apply lookup_insert_eq.
Qed.

Lemma bt_app a b i : 0 <= i -> bt (a ++ b) i = if i <? len a then bt a i else bt b (i - len a).
Proof.
  clear. intros Hi. unfold bt, len. destruct (Z.ltb_spec i (Z.of_nat (length a))); [by rewrite app_nth1 by lia|]. rewrite app_nth2 by lia. f_equal. lia.
Qed.

Lemma block_bytes dest i : 0 <= i < 8 + len dest -> block_mem dest !! (loc + 64 + i) = Some (Byte (bt (le 8 isize ++ dest) i)).
Proof.
  clear. intros Hi. unfold block_mem, args_mem. rewrite !put_bytes_lookup, bt_app by lia. change (len (le 8 isize)) with 8.
  destruct (Z.leb_spec (loc + 64 + 8) (loc + 64 + i)), (Z.ltb_spec (loc + 64 + i) (loc + 64 + 8 + len dest)), (Z.ltb_spec i 8); cbn [andb]; try lia.
  - do 3 f_equal. lia.
  - destruct (Z.leb_spec (loc + 64) (loc + 64 + i)), (Z.ltb_spec (loc + 64 + i) (loc + 64 + 8)); cbn [andb]; try lia. do 3 f_equal. lia.
Qed.

Lemma sent_covered a k : loc <= a -> a + k <= loc + asz -> covered sent_live a k = true.
Proof. clear. intros Ha Hk. apply covered_spec. exists loc, asz. split; [apply lookup_insert_eq|lia]. Qed.

Lemma live_covered a k : covered h.(live) a k = true -> covered sent_live a k = true.
Proof. clear Hx Hlen. destruct Hfresh as (_ & Hnone & _). by apply covered_insert. Qed.

(** Up to the call of LZ4. *)
Lemma send_args : parcel_new rank h loc x.(target) Decompress 0 0 x.(pid) 0 room = Some (mkHeap (<[loc := Hdr (wrapper room)]> h.(mem)) sent_live h.(out))
  /\ hpx_parcel_get_data (mkHeap (<[loc := Hdr (wrapper room)]> h.(mem)) sent_live h.(out)) loc = Some (buffer loc)
  /\ write_bytes (mkHeap (<[loc := Hdr (wrapper room)]> h.(mem)) sent_live h.(out)) (buffer loc) (le 8 isize) = Some (mkHeap args_mem sent_live h.(out))
  /\ read_parcel (mkHeap args_mem sent_live h.(out)) p isize = Some (encode x ++ data).
Proof.
  pose proof room_range as (Hr1 & Hr2 & Hr3). pose proof apart as [Ha1 Ha2]. pose proof isize_range as [Hi Hs0]. unfold disjoint_ranges, sizeof_Args, sizeof_parcel in *. split; [|split; [|split]].
  - unfold parcel_new, parcel_init. cbn [nz andb negb Z.eqb]. rewrite wrap_small by lia. unfold write_header, write, alloc. cbn [live mem out].
    fold sent_live. by rewrite sent_covered by (unfold sizeof_parcel, sizeof_Args; lia).
  - unfold hpx_parcel_get_data, header. cbn [live mem]. rewrite (sent_covered loc sizeof_parcel) by (unfold sizeof_parcel, sizeof_Args; lia). rewrite lookup_insert_eq. cbn [mbind option_bind size wrapper].
    destruct (Z.eqb_spec (8 + LZ4_compressBound (i32 (64 + size x))) 0); [lia|done].
  - unfold write_bytes, buffer. cbn [live mem out]. change (len (le 8 (64 + size x))) with 8. by rewrite sent_covered by (unfold sizeof_parcel, sizeof_Args; lia).
  - unfold read_parcel. destruct Hx as [Hh _ _ _ _ _ Hd _ _]. rewrite (header_put h p x args_mem sent_live (out h) Hh).
    + cbn [mbind option_bind]. assert (E : read_bytes (mkHeap args_mem sent_live (out h)) (buffer p) (64 + size x - 64) = Some data); [|unfold sizeof_parcel; by rewrite E].
      replace (64 + size x - 64) with (size x) by lia. apply read_bytes_iff in Hd as (D1 & D2 & D3); [|done]. apply read_bytes_iff; [done|].
      split; [by apply live_covered|]. split; [done|]. intros i Hi'. cbn [mem]. rewrite args_outside; [by apply D3|]. unfold sizeof_Args, sizeof_parcel. lia.
    + apply live_covered. by apply header_inv in Hh as [? _].
    + apply args_outside. unfold sizeof_Args, sizeof_parcel. lia.
Qed.

Lemma send_spec ssync : action_is_compressed x.(action) = true -> isize <= LZ4_MAX_INPUT_SIZE ->
  exists h' n block, send rank Decompress action_is_compressed h p ssync loc fresh = Some h' /\ header h' loc = Some (wrapper (sizeof_Args + n))
    /\ n = len block /\ 0 < n <= isize + isize / 255 + 2 /\ read_bytes h' (buffer loc) (sizeof_Args + n) = Some (le 8 isize ++ block)
    /\ h'.(live) = delete p sent_live /\ h'.(out) = h.(out) ++ [Freed p; NetSend loc ssync]
    /\ forall buf overlap, len buf = isize -> LZ4_decompress_fast overlap block buf isize = Some (n, encode x ++ data).
Proof.
  intros Hact Hmax. pose proof isize_range as [Hi Hs0]. destruct (compress_bound isize ltac:(lia)) as (_ & Hb & _). destruct (Hb Hmax) as [Ei Eb0]. assert (Eb : bound = isize + isize / 255 + 16) by (by rewrite Ei). pose proof room_range as (Hr1 & Hr2 & Hr3). pose proof apart as [Ha1 _]. pose proof image_length as Himg.
  destruct send_args as (A1 & A2 & A3 & A4). pose proof Hx as [Hh Hfit Hp [[s Hreg] _ (O1 & O2 & O3 & O4)] _ _ _ Hbd _].
  destruct (fast_roundtrip (encode x ++ data) fresh room 1) as (n & dest & Ec & Hdl & Hr).
  { unfold bytes. rewrite Forall_app. split; [apply encode_bytes|done]. }
  { rewrite Himg. lia. } { lia. } { left. rewrite Himg, Hlen. unfold sizeof_Args. lia. }
  rewrite Himg in *. assert (Ec' : forall k, k = isize -> LZ4_compress_fast (encode x ++ data) fresh k room 1 = Some (n, dest)) by (by intros k ->).
  unfold disjoint_ranges, sizeof_parcel, sizeof_Args, LZ4_MAX_INPUT_SIZE, buffer in *. destruct Hr as [[_ Hr]|[Hn Hdec]]; [lia|].
  set (h3 := mkHeap (block_mem dest) sent_live h.(out)). assert (Hh3 : header h3 loc = Some (wrapper (8 + LZ4_compressBound (i32 (64 + size x))))).
  { apply header_intro; [apply sent_covered; unfold sizeof_parcel, sizeof_Args; lia|apply block_header]. }
  set (h4 := set_cell h3 loc (Hdr (with_size (wrapper (8 + LZ4_compressBound (i32 (64 + size x)))) (8 + n)))).
  assert (Hp4 : header h4 p = Some x).
  { unfold h4. rewrite header_set_ne by lia. apply (header_put h); [done|apply live_covered; by apply header_inv in Hh as [? _]|].
    apply block_outside; [by rewrite Hdl|]. unfold sizeof_parcel, sizeof_Args. lia. }
  exists (emit (mkHeap h4.(mem) (delete p sent_live) (h.(out) ++ [Freed p])) (NetSend loc ssync)), n, (take (Z.to_nat n) dest).
  split; [|split; [|split; [|split; [|split; [|split; [|split]]]]]].
  - unfold send. rewrite Hh. cbn [mbind option_bind]. rewrite Hact. unfold parcel_size, sizeof_parcel, sizeof_Args. rewrite (wrap_small 32) by lia.
    rewrite (wrap_small 64) by lia. rewrite A1. cbn [mbind option_bind]. rewrite A2. cbn [mbind option_bind].
    rewrite A3. cbn [mbind option_bind]. rewrite A4. cbn [mbind option_bind]. rewrite (swrap_small 32 (8 + _)) by lia. rewrite (Ec' _ Ei). cbn [mbind option_bind].
    unfold write_bytes. cbn [live mem out]. rewrite sent_covered by (unfold sizeof_parcel, sizeof_Args; lia). cbn [mbind option_bind].
    change (loc + sizeof_parcel + 8) with (loc + 64 + 8). fold (block_mem dest). fold h3. unfold nz. destruct (Z.eqb_spec n 0); [lia|]. cbn [negb]. rewrite Hh3. cbn [mbind option_bind].
    rewrite (wrap_small 32) by lia. rewrite (write_header_some h3 loc _ _ Hh3). cbn [mbind option_bind]. fold h4.
    rewrite (delete_plain h4 p x s Hp4); try done. unfold h4, h3, set_cell, sent_live. cbn [live]. rewrite lookup_insert_ne by lia. done.
  - apply header_intro; [|apply lookup_insert_eq]. cbn [live emit]. apply covered_spec. exists loc, (parcel_alloc_size (8 + LZ4_compressBound (i32 (64 + size x)))).
    unfold sent_live, sizeof_parcel, sizeof_Args. rewrite lookup_delete_ne, lookup_insert_eq by lia. split; [done|lia].
  - unfold len in *. rewrite length_take. lia.
  - lia.
  - apply read_bytes_iff; [lia|]. cbn [live emit]. split; [|split].
    + apply covered_spec. exists loc, (parcel_alloc_size (8 + LZ4_compressBound (i32 (64 + size x)))).
      unfold sent_live, sizeof_parcel, sizeof_Args. rewrite lookup_delete_ne, lookup_insert_eq by lia. split; [done|lia].
    + rewrite len_app. change (len (le 8 (64 + size x))) with 8. unfold len in *. rewrite length_take. lia.
    + intros i Hi'. cbn [mem emit]. unfold h4, set_cell, sizeof_parcel. cbn [mem]. rewrite lookup_insert_ne by lia. unfold h3. cbn [mem]. rewrite block_bytes by lia.
      do 2 f_equal. unfold sizeof_parcel. rewrite !bt_app by lia. change (len (le 8 (64 + size x))) with 8. destruct (Z.ltb_spec i 8); [done|]. unfold bt. by rewrite !nth_lookup, lookup_take_lt by lia.
  - done.
  - cbn [out emit]. by rewrite <- app_assoc.
  - intros buf overlap Hbuf. by apply Hdec.
Qed.

(** A parcel that is too large for LZ4 is sent as it is. *)
Lemma send_large ssync : action_is_compressed x.(action) = true -> LZ4_MAX_INPUT_SIZE < isize ->
  exists h', send rank Decompress action_is_compressed h p ssync loc fresh = Some h' /\ header h' p = Some x
    /\ h'.(live) = h.(live) /\ h'.(out) = h.(out) ++ [Freed loc; NetSend p ssync].
Proof.
  intros Hact Hmax. pose proof isize_range as [Hi Hs0]. destruct (compress_bound isize ltac:(lia)) as (_ & _ & Hb). specialize (Hb Hmax).
  pose proof room_range as (Hr1 & Hr2 & Hr3). pose proof apart as [Ha1 _]. destruct send_args as (A1 & A2 & A3 & A4). pose proof Hx as [Hh _ Hp _ _ _ _ _ _].
  pose proof Hfresh as (Hloc & Hnone & _).
  assert (Ec : LZ4_compress_fast (encode x ++ data) fresh (i32 isize) room 1 = Some (0, fresh)).
  { unfold LZ4_compress_fast. rewrite Hb. unfold sizeof_Args. cbn [Z.leb Z.add Z.compare]. unfold LZ4_compress_generic. rewrite wrap_swrap, wrap_small by lia.
    destruct (Z.ltb_spec LZ4_MAX_INPUT_SIZE isize); [done|lia]. }
  unfold disjoint_ranges, sizeof_parcel, sizeof_Args, LZ4_MAX_INPUT_SIZE, buffer in *. set (h3 := mkHeap (block_mem fresh) sent_live h.(out)).
  assert (Hh3 : header h3 loc = Some (wrapper (8 + LZ4_compressBound (i32 (64 + size x))))).
  { apply header_intro; [apply sent_covered; unfold sizeof_parcel, sizeof_Args; lia|apply block_header]. }
  exists (emit (mkHeap h3.(mem) (delete loc sent_live) (h.(out) ++ [Freed loc])) (NetSend p ssync)). split; [|split; [|split]].
  - unfold send. rewrite Hh. cbn [mbind option_bind]. rewrite Hact. unfold parcel_size, sizeof_parcel, sizeof_Args. rewrite (wrap_small 32) by lia.
    rewrite (wrap_small 64) by lia. rewrite A1. cbn [mbind option_bind]. rewrite A2. cbn [mbind option_bind].
    rewrite A3. cbn [mbind option_bind]. rewrite A4. cbn [mbind option_bind]. rewrite (swrap_small 32 (8 + _)) by lia. rewrite Ec. cbn [mbind option_bind].
    unfold write_bytes. cbn [live mem out]. rewrite sent_covered by (unfold sizeof_parcel, sizeof_Args; lia). cbn [mbind option_bind nz negb Z.eqb].
    change (loc + sizeof_parcel + 8) with (loc + 64 + 8). fold (block_mem fresh). fold h3.
    rewrite (delete_plain h3 loc _ asz Hh3); try done. unfold h3, sent_live. cbn [live]. apply lookup_insert_eq.
  - apply (header_put h); [done| |apply block_outside; [done|unfold sizeof_parcel, sizeof_Args; lia]]. unfold sent_live. rewrite delete_insert_id by done. by apply header_inv in Hh as [? _].
  - cbn [live emit]. unfold sent_live. by rewrite delete_insert_id.
  - cbn [out emit]. by rewrite <- app_assoc.
Qed.
End Send.

(** ** Receiving *)

Section Receive.
Variables (rank cur loc : Z) (ownerOf : Z -> Z) (h : heap) (x : hpx_parcel) (data fresh block : list Z) (n : Z).
Abbreviation isize := (sizeof_parcel + x.(size)).
Hypothesis Hfits : fits x.
Hypothesis Hdata : len data = x.(size).
Hypothesis Hmax : isize <= LZ4_MAX_INPUT_SIZE.
Hypothesis Haction : x.(action) <> 0.
Hypothesis Hcredit : x.(pid) = 0 \/ x.(credit) <> 0.
Hypothesis Hblock : LZ4_decompress_fast false block fresh isize = Some (n, encode x ++ data).

(** The parcel as it is launched. *)
Definition arrived : hpx_parcel := with_state (with_next (with_thread x 0) 0) PARCEL_SERIALIZED.

Lemma launch_ready h0 : header h0 loc = Some arrived ->
  parcel_launch rank ownerOf h0 cur loc = Some (emit h0 (if ownerOf x.(target) =? rank then Spawned loc else NetSend loc 0)).
Proof.
  clear -Haction Hcredit. intros Hh. unfold parcel_launch, parcel_prepare. rewrite Hh. cbn [mbind option_bind]. unfold arrived. cbn [action with_state with_next with_thread].
  unfold nz at 1. destruct (Z.eqb_spec (action x) 0); [done|]. cbn [negb].
  cbn [with_state with_next with_thread state pid credit target size].
  change (parcel_serialized (u16 PARCEL_SERIALIZED)) with true. cbn [negb andb mbind option_bind].
  assert (E : nz (pid x) && (credit x =? 0) = false) by (unfold nz; destruct (Z.eqb_spec (pid x) 0), (Z.eqb_spec (credit x) 0); naive_solver).
  by rewrite E.
Qed.

Lemma receive_spec : exists h', DecompressHandler rank ownerOf h cur loc fresh (le 8 isize ++ block) = Some h'
  /\ header h' loc = Some arrived /\ read_bytes h' (buffer loc) x.(size) = Some data /\ h'.(live) = <[loc := parcel_alloc_size isize]> h.(live)
  /\ h'.(out) = h.(out) ++ [if ownerOf x.(target) =? rank then Spawned loc else NetSend loc 0]
  /\ forall a, a < loc \/ loc + isize <= a -> h'.(mem) !! a = h.(mem) !! a.
Proof.
  pose proof (fits_size x Hfits) as Hs. unfold sizeof_parcel, LZ4_MAX_INPUT_SIZE in *. pose proof (alloc_size_enough (64 + size x) ltac:(lia)) as [Hasz _].
  unfold sizeof_parcel in Hasz. set (l1 := <[loc := parcel_alloc_size (64 + size x)]> h.(live)).
  assert (Hcov : forall a k, loc <= a -> a + k <= loc + 64 + size x -> covered l1 a k = true).
  { intros a k Ha Hk. apply covered_spec. exists loc, (parcel_alloc_size (64 + size x)). split; [apply lookup_insert_eq|lia]. }
  set (m1 := put_bytes (<[loc := Hdr x]> h.(mem)) (loc + 64) data). set (h1 := mkHeap m1 l1 h.(out)).
  assert (Hm1 : m1 !! loc = Some (Hdr x)).
  { unfold m1. rewrite put_bytes_lookup. destruct (Z.leb_spec (loc + 64) loc); [lia|]. apply lookup_insert_eq. }
  assert (Hh1 : header h1 loc = Some x) by (apply header_intro; [apply Hcov; unfold sizeof_parcel; lia|done]).
  set (h2 := set_cell h1 loc (Hdr (with_next (with_thread x 0) 0))). assert (Hh2 : header h2 loc = Some (with_next (with_thread x 0) 0)) by (by eapply header_set_eq).
  set (h3 := set_cell h2 loc (Hdr arrived)). assert (Hh3 : header h3 loc = Some arrived) by (by eapply header_set_eq).
  exists (emit h3 (if ownerOf x.(target) =? rank then Spawned loc else NetSend loc 0)).
  assert (Hload : load (le 8 (64 + size x) ++ block) 0 8 = Some (le 8 (64 + size x))) by done.
  assert (Hw : write_parcel (mkHeap h.(mem) l1 h.(out)) loc (encode x ++ data) = Some h1).
  { unfold write_parcel. rewrite decode_encode by done. unfold write_header, write. cbn [live mem out]. rewrite Hcov by (unfold sizeof_parcel; lia). cbn [mbind option_bind].
    assert (Hdrop : drop (Z.to_nat sizeof_parcel) (encode x ++ data) = data).
    { rewrite drop_app_length'; [done|]. pose proof (encode_length x). unfold len in *. unfold sizeof_parcel. lia. }
    rewrite Hdrop. unfold write_bytes, buffer. cbn [live mem out]. by rewrite Hcov by (unfold sizeof_parcel; lia). }
  split; [|split; [|split; [|split; [|split]]]].
  - unfold DecompressHandler. rewrite Hload. cbn [mbind option_bind]. rewrite unle_le by lia. rewrite swrap_small by lia.
    change (drop 8 (le 8 (64 + size x) ++ block)) with block. rewrite Hblock. cbn [mbind option_bind]. unfold alloc. fold l1. rewrite Hw. cbn [mbind option_bind].
    rewrite Hh1. cbn [mbind option_bind]. rewrite (write_header_some h1 loc _ _ Hh1). cbn [mbind option_bind]. fold h2. unfold parcel_set_state. rewrite Hh2. cbn [mbind option_bind].
    rewrite (write_header_some h2 loc _ _ Hh2). cbn [mbind option_bind]. fold arrived. fold h3. by apply launch_ready.
  - exact Hh3.
  - apply read_bytes_iff; [lia|]. split; [apply Hcov; unfold buffer, sizeof_parcel; lia|]. split; [done|]. intros i Hi. unfold buffer, sizeof_parcel.
    unfold h3, h2, h1, set_cell. cbn [mem emit]. rewrite !lookup_insert_ne by lia. unfold m1. rewrite put_bytes_lookup.
    destruct (Z.leb_spec (loc + 64) (loc + 64 + i)), (Z.ltb_spec (loc + 64 + i) (loc + 64 + len data)); try lia. cbn [andb]. do 3 f_equal. lia.
  - done.
  - done.
  - intros a Ha. unfold h3, h2, h1, set_cell. cbn [mem emit]. rewrite !lookup_insert_ne by lia. unfold m1. rewrite put_bytes_lookup.
    destruct (Z.leb_spec (loc + 64) a), (Z.ltb_spec a (loc + 64 + len data)); cbn [andb]; try lia; by rewrite lookup_insert_ne by lia.
Qed.
End Receive.

(** ** A compressed parcel arrives *)

(** C25: sending a parcel whose action is compressed frees the parcel and hands one to the
    network instead that has its target and process, and at most 1/255 and ten bytes more
    payload than its size; the completion parcel is passed on.  The handler of that parcel,
    run on its payload at any locality, makes a new parcel with the same header, but that it
    is not linked to a thread or another parcel and is serialized, and with the same payload,
    launches it and changes no other memory.  Neither end accesses memory outside of what it
    allocated, or uses memcpy on parts of the output that overlap. *)
Theorem compressed_parcel_arrives rank Decompress action_is_compressed h p ssync loc x data fresh rank' ownerOf h2 cur loc2 fresh2 :
  sendable h p x data -> action_is_compressed x.(action) = true -> sizeof_parcel + x.(size) <= LZ4_MAX_INPUT_SIZE ->
  fresh_region h loc (parcel_alloc_size (sizeof_Args + LZ4_compressBound (i32 (sizeof_parcel + x.(size))))) ->
  len fresh = LZ4_compressBound (i32 (sizeof_parcel + x.(size))) ->
  len fresh2 = sizeof_parcel + x.(size) ->
  exists h' q args h2', send rank Decompress action_is_compressed h p ssync loc fresh = Some h'
    /\ h'.(out) = h.(out) ++ [Freed p; NetSend loc ssync] /\ header h' loc = Some q
    /\ q.(action) = Decompress /\ q.(target) = x.(target) /\ q.(pid) = x.(pid)
    /\ q.(size) <= sizeof_parcel + x.(size) + (sizeof_parcel + x.(size)) / 255 + 10
    /\ read_bytes h' (buffer loc) q.(size) = Some args
    /\ DecompressHandler rank' ownerOf h2 cur loc2 fresh2 args = Some h2'
    /\ header h2' loc2 = Some (with_state (with_next (with_thread x 0) 0) PARCEL_SERIALIZED)
    /\ read_bytes h2' (buffer loc2) x.(size) = Some data
    /\ h2'.(out) = h2.(out) ++ [if ownerOf x.(target) =? rank' then Spawned loc2 else NetSend loc2 0]
    /\ forall a, a < loc2 \/ loc2 + (sizeof_parcel + x.(size)) <= a -> h2'.(mem) !! a = h2.(mem) !! a.
Proof.
  intros Hx Hact Hmax Hf Hl Hl2. pose proof (isize_range h p x data Hx) as [_ Hs0].
  destruct (send_spec rank Decompress action_is_compressed h p loc x data fresh Hx Hf Hl ssync Hact Hmax) as (h' & n & block & E & Hq & -> & Hn & Hr & _ & Ho & Hdec).
  pose proof Hx as [_ Hfit _ _ Hcr Ha Hd _ _]. apply read_bytes_iff in Hd as (_ & Hdl & _); [|done].
  destruct (receive_spec rank' cur loc2 ownerOf h2 x data fresh2 block (len block) Hfit Hdl Hmax Ha Hcr (Hdec fresh2 false Hl2)) as (h2' & E2 & Hh2 & Hr2 & _ & Ho2 & Hm2).
  exists h', (wrapper rank Decompress x (sizeof_Args + len block)), (le 8 (sizeof_parcel + x.(size)) ++ block), h2'.
  do 6 (split; [done|]). split; [cbn; unfold sizeof_Args; lia|]. done.
Qed.

(** A parcel with a payload of forty bytes. *)
Definition demo_x : hpx_parcel := mkParcel 0 0 0 40 2 0 7 0 8192 0 0 0.
Definition demo_data : list Z := [1; 2; 3; 4; 5; 6; 7; 8] ++ replicate 27 9 ++ [8; 7; 6; 5; 4].
Definition demo_heap : heap := mkHeap (put_bytes {[4096 := Hdr demo_x]} 4160 demo_data) {[4096 := 104]} [].

Lemma demo_sendable : sendable demo_heap 4096 demo_x demo_data.
Proof.
  split; [by vm_compute|split; cbn; lia|lia|split; [by eexists; vm_compute|by left|done]|by left|done|by vm_compute| |by vm_compute].
  unfold bytes, demo_data. repeat constructor; lia.
Qed.

Lemma compressed_parcel_arrives_witness :
  exists h' q args h2', send 0 3 (fun _ => true) demo_heap 4096 0 65536 (replicate 120 0) = Some h'
    /\ header h' 65536 = Some q /\ read_bytes h' (buffer 65536) q.(size) = Some args
    /\ DecompressHandler 1 (fun _ => 1) (mkHeap ∅ ∅ []) 0 1024 (replicate 104 0) args = Some h2'
    /\ read_bytes h2' (buffer 1024) 40 = Some demo_data /\ h2'.(out) = [Spawned 1024].
Proof.
  destruct (compressed_parcel_arrives 0 3 (fun _ => true) demo_heap 4096 0 65536 demo_x demo_data (replicate 120 0) 1 (fun _ => 1) (mkHeap ∅ ∅ []) 0 1024 (replicate 104 0))
    as (h' & q & args & h2' & E & _ & Hq & _ & _ & _ & _ & Hr & E2 & _ & Hr2 & Ho & _).
  - apply demo_sendable.
  - reflexivity.
  - vm_compute. discriminate.
  - apply freshb_fresh. vm_compute. reflexivity.
  - vm_compute. reflexivity.
  - vm_compute. reflexivity.
  - exists h', q, args, h2'. split; [exact E|]. split; [exact Hq|]. split; [exact Hr|]. split; [exact E2|]. split; [exact Hr2|exact Ho].
Defined.
