(* ===== verification/Continuation.v ===== *)
(** * Continuations of the process collectives

    process/Continuation.cpp: a table of retained parcels, one for each participant that
    has registered, of which a copy with the result is launched when the collective is
    done. *)

From S2P Require Import Prelude Math Parcel.

Record Continuation := mkContinuation {
  bytes_ : Z;
  parcels_ : list Z;          (* the null pointer is 0 *)
}.

Section Operations.
Variables (rank HPX_HERE : Z) (ownerOf : Z -> Z).
Implicit Types c : Continuation.

Definition Continuation_new (bytes : Z) : Continuation := mkContinuation bytes (replicate 16 0).

(** The first slot a leaver left, or a new one. *)
Fixpoint fill (ps : list Z) (p : Z) : list Z * nat :=
  match ps with
  | [] => ([p], O)
  | q :: ps => if q =? 0 then (p :: ps, O) else let '(ps, i) := fill ps p in (q :: ps, S i)
  end.

(** [loc] is the address the allocator returned for the parcel. *)
Definition insert h cur loc c (op addr : Z) : option (heap * Continuation * nat) :=
  h ← hpx_parcel_acquire rank HPX_HERE h cur loc 0 c.(bytes_);
  x ← header h loc;
  h ← write_header h loc (with_address x op addr);
  h ← parcel_retain h loc;
  let '(ps, id) := fill c.(parcels_) loc in
  Some (h, mkContinuation c.(bytes_) ps, id).

Definition remove h c (id : nat) : option (heap * Continuation) :=
  p ← c.(parcels_) !! id;
  h ← parcel_release h p;
  h ← parcel_delete h p;
  Some (h, mkContinuation c.(bytes_) (<[id := 0]> c.(parcels_))).

(** One copy, at [loc]. *)
Definition launch_copy h cur loc (value bytes p : Z) : option heap :=
  h ← parcel_clone h loc p;
  h ← hpx_parcel_set_data h loc value bytes;
  parcel_launch rank ownerOf h cur loc.

Fixpoint trigger_loop h cur (value bytes : Z) (ps locs : list Z) : option heap :=
  match ps, locs with
  | [], _ => Some h
  | p :: ps, loc :: locs' =>
    if nz p then (h ← launch_copy h cur loc value bytes p; trigger_loop h cur value bytes ps locs')
    else trigger_loop h cur value bytes ps locs
  | p :: ps, [] => if nz p then None else trigger_loop h cur value bytes ps []
  end.

Definition trigger h cur c (value : Z) (locs : list Z) : option heap :=
  trigger_loop h cur value c.(bytes_) c.(parcels_) locs.

Definition Continuation_delete h c : option heap :=
  foldl (fun oh p => h ← oh; if nz p then (h ← parcel_release h p; parcel_delete h p) else Some h)
    (Some h) c.(parcels_).
End Operations.

(** ** Triggering *)

Record registered h (cur bytes p : Z) (x c : hpx_parcel) : Prop := {
  reg_header : header h p = Some x;
  reg_serialized : parcel_serialized x.(state) = true;
  reg_size : x.(size) = bytes;
  reg_covered : covered h.(live) p (sizeof_parcel + bytes) = true;
  reg_action : x.(action) <> 0;
  reg_apart : p <> cur;
  reg_pid : takes_credit x = true -> c.(pid) = x.(pid);
}.

Definition copy_of (x : hpx_parcel) : hpx_parcel :=
  with_state (with_next (with_thread x 0) 0) PARCEL_SERIALIZED.

(** The heap after a copy of [x] with the value was launched at [loc]. *)
Record copied h h' (cur loc value bytes : Z) (x : hpx_parcel) : Prop := {
  copied_live : live h' = <[loc := sizeof_parcel + bytes]> (live h);
  copied_header : exists c, mem h' !! loc = Some (Hdr (prepared (copy_of x) c));
  copied_current c : header h cur = Some c -> exists c', mem h' !! cur = Some (Hdr c') /\ pid c' = pid c;
  copied_payload i : 0 <= i < bytes -> mem h' !! (buffer loc + i) = mem h !! (value + i);
  copied_frame a : a <> cur -> ~ (loc <= a < loc + sizeof_parcel + bytes) -> mem h' !! a = mem h !! a;
}.

Section Trigger.
Variables (rank : Z) (ownerOf : Z -> Z) (cur value bytes : Z).
Hypothesis bytes_range : 0 <= bytes < 2 ^ 32 - sizeof_parcel.

Lemma clone_spec h loc p x c : registered h cur bytes p x c ->
  fresh_region h loc (sizeof_parcel + bytes) ->
  parcel_clone h loc p = Some (mkHeap (<[loc := Hdr (copy_of x)]> (copy_cells h.(mem) loc p (sizeof_parcel + bytes)))
                                 (<[loc := sizeof_parcel + bytes]> h.(live)) h.(out)).
Proof.
  intros [Hx Hs Hz Hc _ _ _] Hf. unfold parcel_clone. rewrite Hx; cbn [mbind option_bind]. rewrite Hs; cbn [orb].
  unfold parcel_size. rewrite Hz, wrap_small by (unfold sizeof_parcel in *; lia).
  assert (Hl : covered (live (alloc h loc (sizeof_parcel + bytes))) loc (sizeof_parcel + bytes) = true)
    by apply covered_region, lookup_insert_eq.
  rewrite memcpy_some; [|done|apply covered_insert; [apply Hf|done]]. cbn [mbind option_bind].
  set (h1 := mkHeap _ _ _).
  assert (Hh : header h1 loc = Some x).
  { apply header_intro; [by apply (covered_sub _ _ _ _ _ Hl); [lia|unfold sizeof_parcel in *; lia]|]. simpl.
    rewrite copy_cells_lookup, decide_True by (unfold sizeof_parcel in *; lia). 
    replace (p + (loc - loc)) with p by lia. by apply header_inv in Hx as [_ ?]. }
  rewrite Hh; cbn [mbind option_bind]. by erewrite write_header_some by done.
Qed.

(** The value is written into the buffer of a fresh copy. *)
Lemma set_data_spec h h1 loc x : live h1 = <[loc := sizeof_parcel + bytes]> (live h) ->
  fresh_region h loc (sizeof_parcel + bytes) -> covered h.(live) value bytes = true ->
  header h1 loc = Some x -> x.(size) = bytes -> parcel_serialized x.(state) = true ->
  (forall a, ~ (loc <= a < loc + sizeof_parcel + bytes) -> mem h1 !! a = mem h !! a) ->
  exists m, hpx_parcel_set_data h1 loc value bytes = Some (mkHeap m (live h1) (out h1))
    /\ (forall i, 0 <= i < bytes -> m !! (buffer loc + i) = mem h !! (value + i))
    /\ m !! loc = Some (Hdr x)
    /\ (forall a, ~ (loc <= a < loc + sizeof_parcel + bytes) -> m !! a = mem h !! a).
Proof.
  intros Hl Hf Hv Hx Hz Hs Hfr. assert (D := covered_fresh _ _ _ _ _ Hf Hv ltac:(lia)).
  assert (Hbuf : buffer loc = loc + 64) by done. unfold sizeof_parcel, disjoint_ranges in *.
  unfold hpx_parcel_set_data, nz. destruct (Z.eqb_spec bytes 0) as [E|E]; cbn [negb].
  - exists (mem h1). split; [by destruct h1|]. split; [lia|]. split; [by apply header_inv in Hx as [_ ?]|done].
  - unfold hpx_parcel_get_data. rewrite Hx; cbn [mbind option_bind]. rewrite Hz, Hs.
    destruct (Z.eqb_spec bytes 0); [done|]. cbn [mbind option_bind].
    rewrite memcpy_some; rewrite ?Hl.
    2: { apply (covered_sub _ loc (64 + bytes)); [apply covered_region, lookup_insert_eq|lia..]. }
    2: { apply covered_insert; [apply Hf|done]. }
    eexists. split; [done|]. split; [|split].
    + intros i Hi. rewrite copy_cells_lookup, decide_True, Hfr by lia. f_equal. lia.
    + rewrite copy_cells_lookup, decide_False by lia. by apply header_inv in Hx as [_ ?].
    + intros a Hout. by rewrite copy_cells_lookup, decide_False, Hfr by lia.
Qed.

Lemma launch_copy_spec h loc p x c : registered h cur bytes p x c -> header h cur = Some c ->
  covered h.(live) value bytes = true -> fresh_region h loc (sizeof_parcel + bytes) ->
  exists h', launch_copy rank ownerOf h cur loc value bytes p = Some h'
    /\ out h' = out h ++ [if ownerOf x.(target) =? rank then Spawned loc else NetSend loc 0]
    /\ copied h h' cur loc value bytes x.
Proof.
  intros Hreg Hc Hv Hf. unfold launch_copy. rewrite (clone_spec _ _ _ _ _ Hreg Hf); cbn [mbind option_bind].
  destruct Hreg as [Hx Hs Hz Hcov Ha Hne Hpid]. pose proof (header_inv _ _ _ Hc) as [Hcc Hmc].
  assert (D := covered_fresh _ _ _ _ _ Hf Hcc ltac:(unfold sizeof_parcel in *; lia)).
  set (h1 := mkHeap _ _ _). assert (Hbuf : buffer loc = loc + 64) by done. unfold sizeof_parcel, disjoint_ranges in *.
  assert (Hl : covered (live h1) loc (64 + bytes) = true) by apply covered_region, lookup_insert_eq.
  assert (Hl64 : covered (live h1) loc sizeof_parcel = true) by (apply (covered_sub _ _ _ _ _ Hl); unfold sizeof_parcel; lia).
  assert (H1 : header h1 loc = Some (copy_of x)) by (apply header_intro; [done|apply lookup_insert_eq]).
  destruct (set_data_spec h h1 loc (copy_of x)) as (m2 & -> & Hpay & Hl2 & Hfr); try done.
  { intros a Hout. unfold sizeof_parcel in Hout. simpl. by rewrite lookup_insert_ne, copy_cells_lookup, decide_False by lia. }
  cbn [mbind option_bind]. set (h2 := mkHeap _ _ _).
  assert (H2 : header h2 loc = Some (copy_of x)) by (apply header_intro; done). unfold sizeof_parcel in Hfr.
  destruct (parcel_launch_spec rank ownerOf h2 cur loc (copy_of x) c (if bytes =? 0 then 0 else buffer loc)) as (m & Hm & [P1 P2 P3 P4]).
  { split; unfold sizeof_parcel, disjoint_ranges; rewrite ?Hz; try done; simpl; rewrite ?Hz; try done; try lia.
    - apply header_intro; [apply covered_insert; [apply Hf|done]|]. simpl. by rewrite Hfr by lia.
    - unfold hpx_parcel_get_data. rewrite H2; cbn [mbind option_bind]. simpl. rewrite Hz. by destruct (bytes =? 0). }
  { done. }
  eexists. split; [exact Hm|]. split; [done|]. simpl in P3, P4. rewrite Hz in P3, P4. split; simpl.
  - done.
  - by exists c.
  - intros c0 Hc0. assert (c0 = c) as -> by congruence. exists (charged (copy_of x) c). by rewrite charged_pid.
  - intros i Hi. rewrite P3 by lia. destruct (Z.eqb_spec bytes 0); [lia|]. by apply Hpay.
  - unfold sizeof_parcel. intros a Hcur Hout. rewrite P4 by lia. apply Hfr. lia.
Qed.

(** Addresses the allocator returns one after the other. *)
Fixpoint fresh_list h (n : Z) (locs : list Z) : Prop :=
  match locs with
  | [] => True
  | loc :: locs => fresh_region h loc n /\ fresh_list (alloc h loc n) n locs
  end.

Lemma fresh_list_ext h h' n locs : live h = live h' -> fresh_list h n locs -> fresh_list h' n locs.
Proof.
  revert h h'. induction locs as [|loc locs IH]; intros h h' Hl; [done|]. simpl. unfold fresh_region.
  rewrite <- Hl. intros [Hf Hr]. split; [done|]. by eapply IH; [|done]; simpl; rewrite Hl.
Qed.

(** What holds of a copy once it was launched, and goes on to hold. *)
Record delivered h h' (x : hpx_parcel) (loc : Z) : Prop := {
  delivered_header : exists y, header h' loc = Some y /\ action y = action x /\ target y = target x
    /\ size y = bytes /\ parcel_serialized (state y) = true;
  delivered_payload i : 0 <= i < bytes -> mem h' !! (buffer loc + i) = mem h !! (value + i);
}.

(** What the later copies leave alone. *)
Definition preserved h h' : Prop :=
  (forall a n, covered (live h) a n = true -> covered (live h') a n = true)
  /\ (forall a, covered (live h) a 1 = true -> a <> cur -> mem h' !! a = mem h !! a).

Lemma copied_delivered h h' loc x : fresh_region h loc (sizeof_parcel + bytes) ->
  x.(size) = bytes -> copied h h' cur loc value bytes x -> delivered h h' x loc.
Proof.
  intros Hf Hz [Hl [c Hh] _ Hp _]. split; [|done]. exists (prepared (copy_of x) c).
  destruct (prepared_action (copy_of x) c) as (? & ? & _). rewrite prepared_size, prepared_state.
  split; [|done]. apply header_intro; [|done]. rewrite Hl.
  apply (covered_sub _ loc (sizeof_parcel + bytes)); [apply covered_region, lookup_insert_eq|lia..].
Qed.

Lemma copied_preserved h h' loc x : fresh_region h loc (sizeof_parcel + bytes) ->
  copied h h' cur loc value bytes x -> preserved h h'.
Proof.
  intros Hf [Hl _ _ _ Hfr]. split.
  - intros a n Ha. rewrite Hl. by apply covered_insert; [apply Hf|].
  - intros a Ha Hne. apply Hfr; [done|]. pose proof (covered_fresh _ _ _ _ _ Hf Ha ltac:(lia)) as D.
    unfold disjoint_ranges in D. lia.
Qed.

Lemma preserved_trans h1 h2 h3 : preserved h1 h2 -> preserved h2 h3 -> preserved h1 h3.
Proof.
  intros [A1 B1] [A2 B2]. split; [auto|]. intros a Ha Hne. rewrite B2 by auto. by apply B1.
Qed.

Lemma preserved_header h h' p x : preserved h h' -> p <> cur -> header h p = Some x -> header h' p = Some x.
Proof.
  intros [Hc Hm] Hne [Hcov Hp]%header_inv. apply header_intro; [by apply Hc|]. rewrite Hm; [done| |done].
  apply (covered_sub _ _ _ _ _ Hcov); unfold sizeof_parcel; lia.
Qed.

Lemma preserved_registered h h' p x c c' : preserved h h' -> pid c' = pid c ->
  registered h cur bytes p x c -> registered h' cur bytes p x c'.
Proof.
  intros Hpr Hpid []. split; try done; [by eapply preserved_header|by apply Hpr|]. by rewrite Hpid.
Qed.

(** A copy that was delivered in [h1] is delivered for good. *)
Lemma preserved_delivered h h1 h2 x loc : loc <> cur -> (forall i, 0 <= i < bytes -> buffer loc + i <> cur) ->
  covered (live h1) loc (sizeof_parcel + bytes) = true ->
  delivered h h1 x loc -> preserved h1 h2 -> delivered h h2 x loc.
Proof.
  intros Hne Hne' Hcov [(y & Hy & Hy') Hp] Hpr. split.
  - exists y. split; [|done]. by eapply preserved_header.
  - intros i Hi. rewrite <- Hp by done. apply (proj2 Hpr); [|auto].
    apply (covered_sub _ _ _ _ _ Hcov); unfold buffer, sizeof_parcel in *; lia.
Qed.

Hypothesis value_apart : forall i, 0 <= i < bytes -> value + i <> cur.

Lemma delivered_earlier h h1 h2 x loc : covered (live h) value bytes = true ->
  preserved h h1 -> delivered h1 h2 x loc -> delivered h h2 x loc.
Proof.
  intros Hv [_ Hm] [Hh Hp]. split; [done|]. intros i Hi. rewrite Hp by done. apply Hm; [|auto].
  apply (covered_sub _ _ _ _ _ Hv); lia.
Qed.

Abbreviation slots ps := (filter (fun p => p <> 0) ps).
Abbreviation launch_event x loc := (if ownerOf (target x) =? rank then Spawned loc else NetSend loc 0).

Lemma trigger_loop_spec xs ps : forall h locs c, header h cur = Some c ->
  (forall p, p ∈ ps -> p <> 0 -> registered h cur bytes p (xs p) c) ->
  covered (live h) value bytes = true -> fresh_list h (sizeof_parcel + bytes) locs ->
  (length (slots ps) <= length locs)%nat ->
  exists h', trigger_loop rank ownerOf h cur value bytes ps locs = Some h'
    /\ out h' = out h ++ zip_with (fun p loc => launch_event (xs p) loc) (slots ps) locs
    /\ preserved h h'
    /\ forall k p loc, slots ps !! k = Some p -> locs !! k = Some loc -> delivered h h' (xs p) loc.
Proof.
  induction ps as [|p ps IH]; intros h locs c Hc Hreg Hv Hf Hlen.
  { exists h. simpl. rewrite app_nil_r. split; [by destruct locs|]. repeat split; try done. }
  rewrite filter_cons in Hlen |- *. destruct (decide (p <> 0)) as [Hp|Hp].
  - destruct locs as [|loc locs]; simpl in Hlen; [lia|]. destruct Hf as [Hf Hfs].
    destruct (launch_copy_spec h loc p (xs p) c) as (h1 & H1 & Ho1 & Hcp); [apply Hreg; [left|done]|done..|].
    pose proof (copied_preserved _ _ _ _ Hf Hcp) as Hpr.
    destruct (copied_current _ _ _ _ _ _ _ Hcp c Hc) as (c' & Hc' & Hpid).
    pose proof (header_inv _ _ _ Hc) as [Hcc _].
    destruct (IH h1 locs c') as (h' & H' & Ho & Hpr' & Hdel).
    + by apply header_intro; [apply Hpr|].
    + intros q Hq Hq0. eapply preserved_registered; [done..|]. apply Hreg; [by right|done].
    + by apply Hpr.
    + eapply fresh_list_ext; [|done]. simpl. by rewrite (copied_live _ _ _ _ _ _ _ Hcp).
    + lia.
    + exists h'. split; [|split; [|split]].
      * simpl. unfold nz. rewrite (proj2 (Z.eqb_neq p 0)) by done. cbn [negb]. by rewrite H1.
      * rewrite Ho, Ho1, <- app_assoc. done.
      * by eapply preserved_trans.
      * intros [|k] q loc' Hq Hloc'; simpl in Hq, Hloc'.
        -- injection Hq as <-. injection Hloc' as <-.
           assert (D := covered_fresh _ _ _ _ _ Hf Hcc ltac:(unfold sizeof_parcel; lia)). unfold disjoint_ranges, sizeof_parcel in D.
           apply (preserved_delivered h h1); [lia|unfold buffer, sizeof_parcel; lia| | |done].
           { rewrite (copied_live _ _ _ _ _ _ _ Hcp). apply covered_region, lookup_insert_eq. }
           apply copied_delivered; [done| |done]. by apply (Hreg p); [left|].
        -- apply (delivered_earlier h h1); [done..|]. by apply (Hdel k).
  - assert (p = 0) as -> by lia. destruct (IH h locs c) as (h' & H' & Hrest); [done| |done..|].
    { intros q Hq. apply Hreg. by right. }
    exists h'. split; [|done]. simpl. by destruct locs.
Qed.
End Trigger.

(** Triggering a continuation tells every participant.  Every parcel that is registered
    is copied and launched once, in the order of the slots; the copy has the action and the
    target it was registered with and the value as its payload; and the registered parcels
    stay as they are, so that the collective can be used again. *)
Theorem continuation_trigger rank ownerOf h cur c value locs xs x :
  0 <= c.(bytes_) < 2 ^ 32 - sizeof_parcel -> header h cur = Some x ->
  (forall p, p ∈ c.(parcels_) -> p <> 0 -> registered h cur c.(bytes_) p (xs p) x) ->
  covered (live h) value c.(bytes_) = true -> disjoint_ranges cur sizeof_parcel value c.(bytes_) ->
  fresh_list h (sizeof_parcel + c.(bytes_)) locs ->
  length locs = length (filter (fun p => p <> 0) c.(parcels_)) ->
  exists h', trigger rank ownerOf h cur c value locs = Some h'
    /\ out h' = out h ++ zip_with (fun p loc => if ownerOf (target (xs p)) =? rank then Spawned loc else NetSend loc 0)
                           (filter (fun p => p <> 0) c.(parcels_)) locs
    /\ (forall k p loc, filter (fun p => p <> 0) c.(parcels_) !! k = Some p -> locs !! k = Some loc ->
         delivered value c.(bytes_) h h' (xs p) loc)
    /\ forall p, p ∈ c.(parcels_) -> p <> 0 -> header h' p = Some (xs p).
Proof.
  intros Hb Hx Hreg Hv Hd Hf Hlen.
  destruct (trigger_loop_spec rank ownerOf cur value c.(bytes_) Hb) with xs c.(parcels_) h locs x
    as (h' & H' & Ho & Hpr & Hdel); [|done..|lia|].
  { intros i Hi. unfold disjoint_ranges, sizeof_parcel in Hd. lia. }
  exists h'. do 3 (split; [done|]). intros p Hp Hp0. destruct (Hreg p Hp Hp0). by eapply preserved_header.
Qed.

(** ** Witness: two participants, the slot between them left *)

Definition demo_c : Continuation := mkContinuation 2 [16384; 0; 32768].
Definition demo_x (p : Z) : hpx_parcel :=
  mkParcel 0 0 0 2 (PARCEL_SERIALIZED + PARCEL_RETAINED) 0 (p / 8192) 0 p 0 0 0.
Definition demo_h : heap :=
  mkHeap {[1024 := Hdr demo_current; 8192 := Byte 10; 8193 := Byte 20;
           16384 := Hdr (demo_x 16384); 32768 := Hdr (demo_x 32768)]}
    {[1024 := 64; 8192 := 3; 16384 := 80; 32768 := 80]} [].

Lemma demo_registered p : p ∈ demo_c.(parcels_) -> p <> 0 ->
  registered demo_h 1024 2 p (demo_x p) demo_current.
Proof.
  simpl. rewrite !elem_of_cons. intros [->|[->|[->|[]%not_elem_of_nil]]] Hp; [|done|]; split; vm_compute; done.
Qed.

Lemma continuation_trigger_witness :
  exists h', trigger 0 (fun a => a / 32768) demo_h 1024 demo_c 8192 [65536; 131072] = Some h'
    /\ out h' = [Spawned 65536; NetSend 131072 0].
Proof.
  destruct (continuation_trigger 0 (fun a => a / 32768) demo_h 1024 demo_c 8192 [65536; 131072] demo_x demo_current)
    as (h' & Ht & Ho & _).
  - vm_compute. done.
  - vm_compute. reflexivity.
  - apply demo_registered.
  - vm_compute. reflexivity.
  - left. vm_compute. done.
  - split; [|split; [|done]]; apply freshb_fresh; vm_compute; reflexivity.
  - vm_compute. reflexivity.
  - exists h'. split; [exact Ht|]. rewrite Ho. vm_compute. reflexivity.
Defined.
