(* ===== verification/Tree.v ===== *)
(** * The allreduce of a process

    process/Reduce.cpp, process/Allreduce.cpp and process/allreduce_glue.cpp: a tree of a root
    and a leaf for every locality.  The inputs of a locality join at its leaf; the last one
    sends the reduced value to the root, whose last join broadcasts the result to the leaves,
    and each leaf launches the continuations of its inputs.  Joins accumulate into one slot
    for every worker, and count down; accumulating, counting and resetting are separate
    steps, interleaved in any way.  The table of continuations is that of Continuation. *)

From S2P Require Import Prelude Math.
From S2P Require Import Continuation.

(** What the clients' operation and identity have to satisfy. *)
Class CommutativeMonoid {V : Type} (id : V) (op : V -> V -> V) : Prop := {
  op_assoc x y z : op x (op y z) = op (op x y) z;
  op_comm x y : op x y = op y x;
  op_id x : op id x = x;
}.

#[global] Instance sum_monoid : CommutativeMonoid 0 Z.add.
Proof. split; intros; lia. Qed.

#[global] Instance max_monoid : CommutativeMonoid 0%nat Nat.max.
Proof. split; intros; lia. Qed.

Section Tree.
Context {V : Type} (id : V) (op : V -> V -> V).
Variable slots_ : nat.                 (* the number of workers *)
Variable leaf_addr : nat -> Z.         (* the address of the leaf of a locality *)
Variable ranks : nat.                  (* the number of localities *)
Variable ownerOf : Z -> Z.

(** ** The local reduction *)

Record Reduce := mkReduce { values_ : list V; i_ : Z; n_ : Z }.

Definition Reduce_new : Reduce := mkReduce (replicate slots_ id) 0 0.

Definition reduce_add (r : Reduce) : option (Reduce * bool) :=
  if r.(i_) =? r.(n_) then let n := r.(n_) + 1 in Some (mkReduce r.(values_) n n, n =? 1) else None.

Definition reduce_remove (r : Reduce) : option (Reduce * bool) :=
  if r.(i_) =? r.(n_) then let n := r.(n_) - 1 in Some (mkReduce r.(values_) n n, n =? 0) else None.

(** The two accesses of a join, by worker [w]. *)
Definition accumulate (r : Reduce) (w : nat) (v : V) : option Reduce :=
  x ← r.(values_) !! w;
  Some (mkReduce (<[w := op x v]> r.(values_)) r.(i_) r.(n_)).

Definition fetch_sub (r : Reduce) : Reduce * bool :=
  (mkReduce r.(values_) (r.(i_) - 1) r.(n_), r.(i_) - 1 =? 0).

Fixpoint reset_loop (slots : list V) (out : V) : list V * V :=
  match slots with
  | [] => ([], out)
  | slot :: slots => let '(rest, out) := reset_loop slots (op out slot) in (id :: rest, out)
  end.

Definition reset (r : Reduce) : Reduce * V :=
  let '(values, out) := reset_loop r.(values_) id in
  (mkReduce values r.(n_) r.(n_), out).

(** ** A node *)

Definition no_id : Z := 2 ^ 32 - 1.

(** The addresses in the table of continuations are 0 for a free entry. *)
Record Allreduce := mkAllreduce {
  parent_ : bool;
  continuation_ : list Z;
  reduce_ : Reduce;
  id_ : Z;
  ctx_ : list Z;       (* the ranks in the communication context *)
}.

Definition Allreduce_new (parent : bool) : Allreduce := mkAllreduce parent (replicate 16 0) Reduce_new no_id [].

Definition with_reduce (a : Allreduce) (r : Reduce) : Allreduce := mkAllreduce a.(parent_) a.(continuation_) r a.(id_) a.(ctx_).
Definition with_id (a : Allreduce) (i : Z) : Allreduce := mkAllreduce a.(parent_) a.(continuation_) a.(reduce_) i a.(ctx_).

(** The root records the rank of a new leaf; the context has room for every locality. *)
Definition add_rank (a : Allreduce) (addr : Z) : option (list Z) :=
  if a.(parent_) then Some a.(ctx_)
  else if (length a.(ctx_) <? ranks)%nat then Some (a.(ctx_) ++ [if (1 <? ranks)%nat then ownerOf addr else 0])
  else None.

(** The entry of the new input, and whether the parent has to be told. *)
Definition add (a : Allreduce) (addr : Z) : option (Allreduce * nat * bool) :=
  let '(ps, i) := fill a.(continuation_) addr in
  ctx ← add_rank a addr;
  '(r, first) ← reduce_add a.(reduce_);
  Some (mkAllreduce a.(parent_) ps r a.(id_) ctx, i, first && a.(parent_)).

Definition remove (a : Allreduce) (i : nat) : option (Allreduce * bool) :=
  p ← a.(continuation_) !! i;
  if nz p then
    '(r, last) ← reduce_remove a.(reduce_);
    Some (mkAllreduce a.(parent_) (<[i := 0]> a.(continuation_)) r a.(id_) a.(ctx_), last && a.(parent_))
  else None.

(** ** Subscriptions *)

Record tree := mkTree { root : Allreduce; leaves : list Allreduce }.

Definition allreduce_new : tree := mkTree (Allreduce_new false) (replicate ranks (Allreduce_new true)).

Implicit Types t : tree.

(** The locks of the leaf and of the root are held throughout. *)
Definition subscribe t (rank : nat) (c_target : Z) : option (tree * nat) :=
  a ← t.(leaves) !! rank;
  '(a, i, up) ← add a c_target;
  match up with
  | true =>
    '(r, k, _) ← add t.(root) (leaf_addr rank);
    Some (mkTree r (<[rank := with_id a (Z.of_nat k)]> t.(leaves)), i)
  | false => Some (mkTree t.(root) (<[rank := a]> t.(leaves)), i)
  end.

Definition unsubscribe t (rank : nat) (i : nat) : option tree :=
  a ← t.(leaves) !! rank;
  '(a, up) ← remove a i;
  match up with
  | true =>
    '(r, _) ← remove t.(root) (Z.to_nat a.(id_));
    Some (mkTree r (<[rank := with_id a no_id]> t.(leaves)))
  | false => Some (mkTree t.(root) (<[rank := a]> t.(leaves)))
  end.

(** ** Rounds *)

(** An input: the values it has joined with, and the results its continuation was given. *)
Record client := mkClient { vals : list V; results : list V }.

(** A node while joins are under way: how many have accumulated and not yet counted, and
    whether the last one is about to reset. *)
Record node := mkNode { ar : Allreduce; opped : Z; last : bool }.

Inductive msg := Join (v : V) | BCast (addr : Z) (v : V).

(** The clients of a leaf are in the order of the entries of its table. *)
Record world := mkWorld {
  top : node;
  bottom : list node;
  clients : list (list client);
  flight : list msg;
}.

(** The parcels launched by a table of continuations: its entries are not null. *)
Definition trigger (ps : list Z) (v : V) : list (Z * V) := map (fun p => (p, v)) (filter (fun p => p <> 0) ps).

Definition join_accumulate (x : node) (w : nat) (v : V) : option node :=
  r ← accumulate x.(ar).(reduce_) w v;
  Some (mkNode (with_reduce x.(ar) r) (x.(opped) + 1) x.(last)).

Definition join_count (x : node) : option node :=
  if 0 <? x.(opped) then
    let '(r, zero) := fetch_sub x.(ar).(reduce_) in
    Some (mkNode (with_reduce x.(ar) r) (x.(opped) - 1) (x.(last) || zero))
  else None.

Definition join_reset (x : node) : option (node * V) :=
  if x.(last) then
    let '(r, out) := reset x.(ar).(reduce_) in
    Some (mkNode (with_reduce x.(ar) r) x.(opped) false, out)
  else None.

(** The rest of reduce() after the join that was last: a leaf joins its parent, the root
    triggers its continuations, which are the broadcasts of the leaves.  Without coll_network. *)
Definition forward (x : node) : option (node * list msg) :=
  '(x, out) ← join_reset x;
  Some (x, if x.(ar).(parent_) then [Join out] else map (fun '(a, v) => BCast a v) (trigger x.(ar).(continuation_) out)).

Definition receive (c : client) (v : V) : client := mkClient c.(vals) (c.(results) ++ [v]).

(** The continuations of a leaf reach its clients. *)
Definition bcast (x : node) (cs : list client) (v : V) : list client :=
  zip_with (fun l c => receive c l.2) (trigger x.(ar).(continuation_) v) cs.

Inductive label :=
| LJoin (l j w : nat) (v : V)     (* client j of leaf l joins, on worker w *)
| LRootJoin (k w : nat)           (* the parcel k in flight joins at the root *)
| LCount (l : nat)
| LRootCount
| LForward (l : nat)
| LRootForward
| LBCast (k l : nat).             (* the parcel k in flight reaches leaf l *)

Implicit Types y : world.

Definition with_leaf y (l : nat) (x : node) (ms : list msg) : world := mkWorld y.(top) (<[l := x]> y.(bottom)) y.(clients) (y.(flight) ++ ms).
Definition with_top y (x : node) (ms : list msg) : world := mkWorld x y.(bottom) y.(clients) ms.

(** An input joins again when it has the result of its last join. *)
Definition tstep y (a : label) : option world :=
  match a with
  | LJoin l j w v =>
    x ← y.(bottom) !! l; cs ← y.(clients) !! l; c ← cs !! j;
    if (length c.(vals) =? length c.(results))%nat then
      x ← join_accumulate x w v;
      Some (mkWorld y.(top) (<[l := x]> y.(bottom)) (<[l := <[j := mkClient (c.(vals) ++ [v]) c.(results)]> cs]> y.(clients)) y.(flight))
    else None
  | LRootJoin k w =>
    match y.(flight) !! k with
    | Some (Join v) => x ← join_accumulate y.(top) w v; Some (with_top y x (delete k y.(flight)))
    | _ => None
    end
  | LCount l => x ← y.(bottom) !! l; x ← join_count x; Some (with_leaf y l x [])
  | LRootCount => x ← join_count y.(top); Some (with_top y x y.(flight))
  | LForward l => x ← y.(bottom) !! l; '(x, ms) ← forward x; Some (with_leaf y l x ms)
  | LRootForward => '(x, ms) ← forward y.(top); Some (with_top y x (y.(flight) ++ ms))
  | LBCast k l =>
    match y.(flight) !! k with
    | Some (BCast a v) =>
      if a =? leaf_addr l then
        x ← y.(bottom) !! l; cs ← y.(clients) !! l;
        Some (mkWorld y.(top) y.(bottom) (<[l := bcast x cs v]> y.(clients)) (delete k y.(flight)))
      else None
    | _ => None
    end
  end.

(** The first round of a tree. *)
Definition begin_rounds (t : tree) : world :=
  mkWorld (mkNode t.(root) 0 false) (map (fun a => mkNode a 0 false) t.(leaves))
    (map (fun a => map (fun _ => mkClient [] []) (filter (fun p => p <> 0) a.(continuation_))) t.(leaves)) [].

(** ** Tables *)

(** The continuations in a table. *)
Definition entries (ps : list Z) : list Z := filter (fun p => p <> 0) ps.

Lemma fill_spec ps p : p <> 0 ->
  let '(ps', i) := fill ps p in entries ps' ≡ₚ p :: entries ps /\ ps' !! i = Some p
    /\ (forall j q, ps !! j = Some q -> q <> 0 -> ps' !! j = Some q /\ j <> i).
Proof.
  intros Hp. induction ps as [|q ps IH]; cbn [fill].
  - unfold entries. rewrite filter_cons_True by done. split; [done|]. split; [done|]. intros j q Hj. by rewrite lookup_nil in Hj.
  - destruct (Z.eqb_spec q 0) as [->|Hq].
    + unfold entries. rewrite filter_cons_True by done. rewrite (filter_cons_False _ 0) by (by intros []). split; [done|]. split; [done|].
      intros [|j] q Hj Hne; [by simplify_eq/=|done].
    + destruct (fill ps p) as [ps' i]. destruct IH as (H1 & H2 & H3). unfold entries in *. rewrite !filter_cons_True by done.
      split; [rewrite H1; apply Permutation_swap|]. split; [done|]. intros [|j] q' Hj Hne; [done|]. simpl in *. destruct (H3 j q' Hj Hne). split; [done|lia].
Qed.

Lemma entries_remove ps i p : ps !! i = Some p -> p <> 0 -> entries ps ≡ₚ p :: entries (<[i := 0]> ps).
Proof.
  revert i. induction ps as [|q ps IH]; intros [|i] Hi Hp; simplify_eq/=; unfold entries in *.
  - rewrite filter_cons_True by done. by rewrite filter_cons_False by (by intros []).
  - destruct (decide (q = 0)) as [->|Hq].
    + rewrite !(filter_cons_False _ 0) by (by intros []). by apply IH.
    + rewrite !filter_cons_True by done. rewrite (IH i) by done. apply Permutation_swap.
Qed.

(** ** Membership *)

Hypothesis leaf_addr_inj : forall k l, leaf_addr k = leaf_addr l -> k = l.
Hypothesis leaf_addr_nonzero : forall l, leaf_addr l <> 0.

(** A node between rounds: an input for every continuation. *)
Record quiet (a : Allreduce) : Prop := {
  q_values : a.(reduce_).(values_) = replicate slots_ id;
  q_count : a.(reduce_).(i_) = a.(reduce_).(n_);
  q_entries : a.(reduce_).(n_) = Z.of_nat (length (entries a.(continuation_)));
}.

(** The root knows the leaves [L], which are those that have inputs. *)
Record members t (L : list nat) : Prop := {
  m_root : quiet t.(root) /\ t.(root).(parent_) = false;
  m_leaf l a : t.(leaves) !! l = Some a -> quiet a /\ a.(parent_) = true;
  m_id l a : t.(leaves) !! l = Some a -> 0 < a.(reduce_).(n_) ->
    exists k, a.(id_) = Z.of_nat k /\ t.(root).(continuation_) !! k = Some (leaf_addr l);
  m_nodup : NoDup L;
  m_active l : l ∈ L <-> exists a, t.(leaves) !! l = Some a /\ 0 < a.(reduce_).(n_);
  m_entries : entries t.(root).(continuation_) ≡ₚ map leaf_addr L;
}.

Lemma new_quiet p : quiet (Allreduce_new p).
Proof. by split. Qed.

Lemma new_members : members allreduce_new [].
Proof.
  split; simpl; try done.
  - intros l a Ha. apply lookup_replicate in Ha as [-> _]. split; [apply new_quiet|done].
  - intros l a Ha. apply lookup_replicate in Ha as [-> _]. done.
  - constructor.
  - intros l. split; [by intros ?%elem_of_nil|]. intros (a & Ha & Hn). apply lookup_replicate in Ha as [-> _]. done.
Qed.

(** There is room in the context of the node. *)
Definition room (a : Allreduce) : Prop := a.(parent_) = true \/ (length a.(ctx_) < ranks)%nat.

Lemma add_rank_room a addr : room a <-> is_Some (add_rank a addr).
Proof.
  clear id op. unfold room, add_rank, is_Some. destruct (parent_ a); [naive_solver|]. destruct (Nat.ltb_spec (length (ctx_ a)) ranks); [naive_solver|].
  split; [intros [?|?]; [done|lia]|by intros [? ?]].
Qed.

Lemma add_quiet a addr : quiet a -> addr <> 0 -> room a -> exists a' i, add a addr = Some (a', i, (a.(reduce_).(n_) =? 0) && a.(parent_))
  /\ quiet a' /\ a'.(parent_) = a.(parent_) /\ a'.(id_) = a.(id_) /\ a'.(reduce_).(n_) = a.(reduce_).(n_) + 1
  /\ entries a'.(continuation_) ≡ₚ addr :: entries a.(continuation_) /\ a'.(continuation_) !! i = Some addr
  /\ (forall j q, a.(continuation_) !! j = Some q -> q <> 0 -> a'.(continuation_) !! j = Some q).
Proof.
  intros [Q1 Q2 Q3] Hne [ctx Hctx]%(add_rank_room a addr). unfold add, reduce_add. pose proof (fill_spec a.(continuation_) addr Hne) as H.
  destruct (fill _ _) as [ps i]. destruct H as (H1 & H2 & H3). rewrite Hctx, Q2, Z.eqb_refl. cbn [mbind option_bind].
  assert (E : (n_ (reduce_ a) + 1 =? 1) = (n_ (reduce_ a) =? 0)).
  { destruct (Z.eqb_spec (n_ (reduce_ a)) 0), (Z.eqb_spec (n_ (reduce_ a) + 1) 1); (done || lia). }
  rewrite E. eexists _, i. split; [reflexivity|]. simpl. split_and!; try done.
  - split; simpl; [done|done|]. rewrite (Permutation_length H1). simpl. lia.
  - intros j q Hj Hq. by apply H3.
Qed.

Lemma remove_quiet a i p : quiet a -> a.(continuation_) !! i = Some p -> p <> 0 ->
  exists a', remove a i = Some (a', (a.(reduce_).(n_) =? 1) && a.(parent_))
  /\ quiet a' /\ a'.(parent_) = a.(parent_) /\ a'.(id_) = a.(id_) /\ a'.(reduce_).(n_) = a.(reduce_).(n_) - 1
  /\ entries a.(continuation_) ≡ₚ p :: entries a'.(continuation_) /\ a'.(continuation_) = <[i := 0]> a.(continuation_).
Proof.
  intros [Q1 Q2 Q3] Hi Hne. unfold remove, reduce_remove. rewrite Hi. cbn [mbind option_bind]. unfold nz. destruct (Z.eqb_spec p 0); [done|]. cbn [negb].
  rewrite Q2, Z.eqb_refl. cbn [mbind option_bind].
  assert (E : (n_ (reduce_ a) - 1 =? 0) = (n_ (reduce_ a) =? 1)).
  { destruct (Z.eqb_spec (n_ (reduce_ a)) 1), (Z.eqb_spec (n_ (reduce_ a) - 1) 0); (done || lia). }
  rewrite E. eexists. split; [reflexivity|]. simpl. pose proof (entries_remove _ _ _ Hi Hne) as Hp. split_and!; try done.
  split; simpl; [done|done|]. apply Permutation_length in Hp. simpl in Hp. lia.
Qed.

Lemma subscribe_members t L l c : members t L -> (l < length t.(leaves))%nat -> c <> 0 -> l ∈ L \/ room t.(root) ->
  exists t' i L', subscribe t l c = Some (t', i) /\ members t' L' /\ length t'.(leaves) = length t.(leaves).
Proof.
  intros [[M1 M1'] M2 M3 M4 M5 M6] Hl Hc Hroom. destruct (lookup_lt_is_Some_2 _ _ Hl) as [a Ha]. destruct (M2 _ _ Ha) as [Qa Pa].
  destruct (add_quiet a c Qa Hc (or_introl Pa)) as (a' & i & E & Q' & P' & I' & N' & _). unfold subscribe. rewrite Ha. cbn [mbind option_bind]. rewrite E, Pa. cbn [mbind option_bind].
  destruct (Z.eqb_spec (n_ (reduce_ a)) 0) as [Hz|Hz]; cbn [andb].
  - destruct Hroom as [(b & Hb & Hn)%M5|Hroom]; [simplify_eq; lia|].
    destruct (add_quiet (root t) (leaf_addr l) M1 (leaf_addr_nonzero l) Hroom) as (r & k & Er & Qr & Pr & Ir & Nr & Pe & Hk & Hkeep). rewrite Er. cbn [mbind option_bind].
    eexists _, i, (l :: L). split; [reflexivity|]. split; [|simpl; by rewrite length_insert]. split; cbn [root leaves].
    + split; [done|by rewrite Pr].
    + intros l' b Hb. apply list_lookup_insert_Some in Hb as [(<- & <- & _)|[_ Hb]]; [|by apply (M2 l')]. split; [by destruct Q'|simpl; congruence].
    + intros l' b Hb Hn. apply list_lookup_insert_Some in Hb as [(<- & <- & _)|[_ Hb]]; [by exists k|].
      destruct (M3 _ _ Hb Hn) as (k' & Ek & Hk'). exists k'. split; [done|]. by apply Hkeep.
    + constructor; [|done]. intros (b & Hb & Hn)%M5. simplify_eq. lia.
    + intros l'. rewrite elem_of_cons, M5. split.
      * intros [->|(b & Hb & Hn)]; [eexists; split; [by apply list_lookup_insert_eq|]; simpl; rewrite N'; lia|].
        destruct (decide (l = l')) as [->|]; [simplify_eq; lia|]. exists b. by rewrite list_lookup_insert_ne.
      * intros (b & Hb & Hn). apply list_lookup_insert_Some in Hb as [(<- & <- & _)|[_ Hb]]; [by left|right; by exists b].
    + by rewrite Pe, M6.
  - eexists _, i, L. split; [reflexivity|]. split; [|simpl; by rewrite length_insert]. split; cbn [root leaves]; try done.
    + intros l' b Hb. apply list_lookup_insert_Some in Hb as [(<- & <- & _)|[_ Hb]]; [|by apply (M2 l')]. split; [done|congruence].
    + intros l' b Hb Hn. apply list_lookup_insert_Some in Hb as [(<- & <- & _)|[_ Hb]]; [|by apply M3].
      rewrite I'. apply M3; [done|]. pose proof (q_entries _ Qa). lia.
    + intros l'. rewrite M5. split; intros (b & Hb & Hn).
      * destruct (decide (l = l')) as [->|]; [|exists b; by rewrite list_lookup_insert_ne]. eexists. split; [by apply list_lookup_insert_eq|]. simplify_eq. lia.
      * apply list_lookup_insert_Some in Hb as [(<- & <- & _)|[_ Hb]]; [|by exists b]. exists a. split; [done|]. pose proof (q_entries _ Qa). lia.
Qed.

Lemma unsubscribe_members t L l a i c : members t L -> t.(leaves) !! l = Some a -> a.(continuation_) !! i = Some c -> c <> 0 ->
  exists t' L', unsubscribe t l i = Some t' /\ members t' L' /\ length t'.(leaves) = length t.(leaves).
Proof.
  intros [[M1 M1'] M2 M3 M4 M5 M6] Ha Hi Hc. destruct (M2 _ _ Ha) as [Qa Pa].
  destruct (remove_quiet a i c Qa Hi Hc) as (a' & E & Q' & P' & I' & N' & Pe & _). unfold unsubscribe. rewrite Ha. cbn [mbind option_bind]. rewrite E, Pa. cbn [mbind option_bind].
  assert (Hpos : 0 < n_ (reduce_ a)). { rewrite (q_entries _ Qa), (Permutation_length Pe). simpl. lia. }
  apply lookup_lt_Some in Ha as Hl. destruct (Z.eqb_spec (n_ (reduce_ a)) 1) as [Hz|Hz]; cbn [andb].
  - destruct (M3 _ _ Ha Hpos) as (k & Ek & Hk). rewrite I', Ek, Nat2Z.id.
    destruct (remove_quiet (root t) k _ M1 Hk (leaf_addr_nonzero l)) as (r & Er & Qr & Pr & Ir & Nr & Pre & Hcont). rewrite Er. cbn [mbind option_bind].
    assert (HlL : l ∈ L) by (apply M5; by exists a). apply elem_of_Permutation in HlL as [L' HL]. rewrite HL in M4. apply NoDup_cons in M4 as [Hnot M4].
    eexists _, L'. split; [reflexivity|]. split; [|simpl; by rewrite length_insert]. split; cbn [root leaves]; try done.
    + split; [done|by rewrite Pr].
    + intros l' b Hb. apply list_lookup_insert_Some in Hb as [(<- & <- & _)|[_ Hb]]; [|by apply (M2 l')]. split; [by destruct Q'|simpl; congruence].
    + intros l' b Hb Hn. apply list_lookup_insert_Some in Hb as [(<- & <- & _)|[Hne Hb]]; [simpl in Hn; lia|].
      destruct (M3 _ _ Hb Hn) as (k' & Ek' & Hk'). exists k'. split; [done|]. rewrite Hcont. rewrite list_lookup_insert_ne; [done|].
      intros ->. simplify_eq. by apply Hne, leaf_addr_inj.
    + intros l'. specialize (M5 l'). rewrite HL, elem_of_cons in M5. split.
      * intros Hin. destruct (proj1 M5 (or_intror Hin)) as (b & Hb & Hn). exists b. rewrite list_lookup_insert_ne; [done|]. by intros ->.
      * intros (b & Hb & Hn). apply list_lookup_insert_Some in Hb as [(<- & <- & _)|[Hne Hb]]; [simpl in Hn; lia|].
        destruct (proj2 M5 (ex_intro _ b (conj Hb Hn))) as [->|]; done.
    + rewrite Pre, HL in M6. cbn [map] in M6. by apply Permutation_cons_inv in M6.
  - eexists _, L. split; [reflexivity|]. split; [|simpl; by rewrite length_insert]. split; cbn [root leaves]; try done.
    + intros l' b Hb. apply list_lookup_insert_Some in Hb as [(<- & <- & _)|[_ Hb]]; [|by apply (M2 l')]. split; [done|congruence].
    + intros l' b Hb Hn. apply list_lookup_insert_Some in Hb as [(<- & <- & _)|[_ Hb]]; [|by apply M3]. rewrite I'. by apply M3.
    + intros l'. rewrite M5. split; intros (b & Hb & Hn).
      * destruct (decide (l = l')) as [->|]; [|exists b; by rewrite list_lookup_insert_ne]. eexists. split; [by apply list_lookup_insert_eq|]. simplify_eq. lia.
      * apply list_lookup_insert_Some in Hb as [(<- & <- & _)|[_ Hb]]; [|by exists b]. by exists a.
Qed.

(** The trees that a sequence of subscriptions and their withdrawals leads to. *)
Inductive subscribed : tree -> Prop :=
  | subscribed_new : subscribed allreduce_new
  | subscribed_add t l c t' i : subscribed t -> c <> 0 -> subscribe t l c = Some (t', i) -> subscribed t'
  | subscribed_remove t l i t' : subscribed t -> unsubscribe t l i = Some t' -> subscribed t'.

(** The root is told of a new leaf only. *)
Lemma subscribe_room t L l c t' i : members t L -> c <> 0 -> subscribe t l c = Some (t', i) -> l ∈ L \/ room t.(root).
Proof.
  intros M Hc E. unfold subscribe in E. destruct (leaves t !! l) as [a|] eqn:Ha; [|done]. cbn [mbind option_bind] in E.
  destruct (m_leaf _ _ M _ _ Ha) as [Q P]. destruct (add_quiet a c Q Hc (or_introl P)) as (a' & k & E0 & _). rewrite E0, P in E. cbn [mbind option_bind] in E.
  destruct (Z.eqb_spec (n_ (reduce_ a)) 0) as [Hz|Hz]; cbn [andb] in E.
  - right. apply (add_rank_room _ (leaf_addr l)). unfold add in E. destruct (fill _ _). destruct (add_rank (root t) (leaf_addr l)); [by eexists|done].
  - left. apply (m_active _ _ M). exists a. split; [done|]. pose proof (q_entries _ Q). lia.
Qed.

Lemma subscribed_members t : subscribed t -> length t.(leaves) = ranks /\ exists L, members t L.
Proof.
  induction 1 as [|t l c t' i _ [Hl (L & M)] Hc E|t l i t' _ [Hl (L & M)] E].
  - split; [by apply length_replicate|]. exists []. apply new_members.
  - assert (Hlt : (l < length (leaves t))%nat).
    { unfold subscribe in E. destruct (leaves t !! l) eqn:Ha; [|done]. by eapply lookup_lt_Some. }
    destruct (subscribe_members t L l c M Hlt Hc (subscribe_room _ _ _ _ _ _ M Hc E)) as (t2 & i2 & L' & E2 & M' & Hlen). simplify_eq. split; [congruence|by exists L'].
  - pose proof E as E1. unfold unsubscribe in E1. destruct (leaves t !! l) as [a|] eqn:Ha; [|done]. cbn [mbind option_bind] in E1.
    destruct (a.(continuation_) !! i) as [c|] eqn:Hi; [|unfold remove in E1; by rewrite Hi in E1].
    assert (Hc : c <> 0) by (intros ->; unfold remove in E1; by rewrite Hi in E1).
    destruct (unsubscribe_members t L l a i c M Ha Hi Hc) as (t2 & L' & E2 & M' & Hlen). simplify_eq. split; [congruence|by exists L'].
Qed.

(** After any sequence of subscriptions to a process's allreduce, and of withdrawals, at any
    localities, the root knows exactly the leaves that have inputs, each once, and every node
    expects as many joins as it has continuations; the withdrawal of any input succeeds, and
    so does a further subscription at any locality that has an input, or where the root has
    been told of fewer leaves than there are localities. *)
Theorem process_allreduce_members t : subscribed t ->
  exists L, NoDup L /\ (forall l, l ∈ L <-> exists a, t.(leaves) !! l = Some a /\ entries a.(continuation_) <> [])
    /\ entries t.(root).(continuation_) ≡ₚ map leaf_addr L /\ t.(root).(reduce_).(i_) = Z.of_nat (length L)
    /\ (forall l a, t.(leaves) !! l = Some a -> a.(reduce_).(i_) = Z.of_nat (length (entries a.(continuation_)))
         /\ forall i c, a.(continuation_) !! i = Some c -> c <> 0 -> is_Some (unsubscribe t l i))
    /\ forall l c, (l < ranks)%nat -> c <> 0 -> l ∈ L \/ (length t.(root).(ctx_) < ranks)%nat -> is_Some (subscribe t l c).
Proof.
  intros Hs. destruct (subscribed_members _ Hs) as (Hlen & L & M). exists L. pose proof M as [[M1 M1'] M2 M3 M4 M5 M6].
  split; [done|]. split; [|split; [done|split; [|split]]].
  - intros l. rewrite M5. split; intros (a & Ha & Hn); exists a; (split; [done|]); destruct (M2 _ _ Ha) as [[_ _ Q3] _].
    + intros E. rewrite E in Q3. simpl in Q3. lia.
    + destruct (entries (continuation_ a)); [done|simpl in Q3; lia].
  - rewrite (q_count _ M1), (q_entries _ M1), (Permutation_length M6). by rewrite length_map.
  - intros l a Ha. destruct (M2 _ _ Ha) as [Q _]. split; [rewrite (q_count _ Q); apply (q_entries _ Q)|].
    intros i c Hi Hc. destruct (unsubscribe_members t L l a i c M Ha Hi Hc) as (t' & L' & E & _). by exists t'.
  - intros l c Hl Hc Hr. assert (Hroom : l ∈ L \/ room (root t)) by (destruct Hr; [by left|by right; right]).
    destruct (subscribe_members t L l c M ltac:(lia) Hc Hroom) as (t' & i & L' & E & _). by exists (t', i).
Qed.

(** ** Sums *)

Context `{CommutativeMonoid V id op}.

Definition msum (l : list V) : V := foldr op id l.

Lemma op_id_r x : op x id = x.
Proof. by rewrite op_comm, op_id. Qed.

Lemma msum_app l k : msum (l ++ k) = op (msum l) (msum k).
Proof. induction l as [|x l IH]; simpl; [by rewrite op_id|]. by rewrite IH, op_assoc. Qed.

Lemma msum_perm l k : l ≡ₚ k -> msum l = msum k.
Proof.
  induction 1 as [|x l k _ IH|x z l|l k m _ IH1 _ IH2]; simpl; [done|by rewrite IH| |congruence].
  by rewrite !op_assoc, (op_comm z x).
Qed.

Lemma msum_id n : msum (replicate n id) = id.
Proof. induction n as [|n IH]; simpl; [done|]. by rewrite op_id. Qed.

Lemma msum_insert l i x v : l !! i = Some x -> msum (<[i := op x v]> l) = op (msum l) v.
Proof.
  revert i. induction l as [|z l IH]; intros [|i] Hi; simplify_eq/=.
  - by rewrite <- !op_assoc, (op_comm v).
  - by rewrite IH, op_assoc by done.
Qed.

Lemma reset_loop_spec slots : forall out, reset_loop slots out = (replicate (length slots) id, op out (msum slots)).
Proof.
  induction slots as [|x slots IH]; intros out; simpl; [by rewrite op_id_r|]. by rewrite IH, <- op_assoc.
Qed.

(** What the clients of a leaf contribute to round [r], and all of them. *)
Definition joined (r : nat) (cs : list client) : list V := omap (fun c => c.(vals) !! r) cs.
Definition contrib (r : nat) (cs : list client) : V := msum (joined r cs).
Definition total (r : nat) (css : list (list client)) : V := msum (map (contrib r) css).

Lemma joined_insert r cs j c c' : cs !! j = Some c -> c.(vals) !! r = None ->
  joined r (<[j := c']> cs) ≡ₚ joined r cs ++ option_list (c'.(vals) !! r).
Proof.
  revert j. induction cs as [|d cs IH]; intros [|j] Hj Hc; simplify_eq/=.
  - rewrite Hc. destruct (vals c' !! r); simpl; [apply Permutation_cons_append|by rewrite app_nil_r].
  - destruct (vals d !! r); simpl; by rewrite IH.
Qed.

Lemma joined_same r cs j c c' : cs !! j = Some c -> c'.(vals) !! r = c.(vals) !! r -> joined r (<[j := c']> cs) = joined r cs.
Proof.
  revert j. induction cs as [|d cs IH]; intros [|j] Hj Hc; simplify_eq/=; [by rewrite Hc|]. by rewrite IH.
Qed.

Lemma total_insert r css l cs cs' : css !! l = Some cs -> contrib r cs' = contrib r cs -> total r (<[l := cs']> css) = total r css.
Proof.
  intros Hl Hc. unfold total. f_equal. rewrite list_fmap_insert. apply list_insert_id. rewrite list_lookup_fmap, Hl. simpl. by rewrite Hc.
Qed.

(** ** Nodes *)

(** A node that collects joins, of which [k] have accumulated a value; the values add up
    to [s]. *)
Record collects (x : node) (k : Z) (s : V) : Prop := {
  c_slots : length x.(ar).(reduce_).(values_) = slots_;
  c_sum : msum x.(ar).(reduce_).(values_) = s;
  c_count : x.(ar).(reduce_).(i_) = x.(ar).(reduce_).(n_) - k + x.(opped);
  c_opped : 0 <= x.(opped);
  c_last : if x.(last) then x.(ar).(reduce_).(i_) = 0 /\ x.(opped) = 0
           else 0 < x.(ar).(reduce_).(i_) \/ x.(ar).(reduce_).(n_) = 0;
}.

(** What the steps of a node leave alone. *)
Definition same_node (x x' : node) : Prop :=
  x'.(ar).(parent_) = x.(ar).(parent_) /\ x'.(ar).(continuation_) = x.(ar).(continuation_) /\ x'.(ar).(reduce_).(n_) = x.(ar).(reduce_).(n_).

Lemma collects_accumulate x k s w v : collects x k s -> k < x.(ar).(reduce_).(n_) -> (w < slots_)%nat ->
  exists x', join_accumulate x w v = Some x' /\ collects x' (k + 1) (op s v) /\ same_node x x'.
Proof.
  intros [C1 C2 C3 C4 C5] Hk Hw. unfold join_accumulate, accumulate. destruct (lookup_lt_is_Some_2 (values_ (reduce_ (ar x))) w ltac:(lia)) as [z Hz].
  rewrite Hz. cbn [mbind option_bind]. eexists. split; [reflexivity|]. split; [|done]. split; simpl; try lia.
  - by rewrite length_insert.
  - by rewrite (msum_insert _ _ _ _ Hz), C2.
  - destruct (last x); [lia|]. lia.
Qed.

Lemma collects_count x k s : collects x k s -> 0 < x.(opped) -> k <= x.(ar).(reduce_).(n_) ->
  exists x', join_count x = Some x' /\ collects x' k s /\ same_node x x'.
Proof.
  intros [C1 C2 C3 C4 C5] Ho Hk. unfold join_count, fetch_sub. rewrite (proj2 (Z.ltb_lt _ _) Ho). eexists. split; [reflexivity|]. split; [|done].
  split; simpl; try done; try lia. destruct (last x); [lia|]. cbn [orb]. destruct (Z.eqb_spec (i_ (reduce_ (ar x)) - 1) 0); lia.
Qed.

Definition idle (x : node) : Prop := collects x 0 id /\ x.(opped) = 0 /\ x.(last) = false.

(** The node that is last has counted every join, and starts over. *)
Lemma collects_reset x k s : collects x k s -> 0 <= k -> x.(last) = true ->
  k = x.(ar).(reduce_).(n_) /\ exists x', join_reset x = Some (x', s) /\ idle x' /\ same_node x x'.
Proof.
  intros [C1 C2 C3 C4 C5] Hk Hl. rewrite Hl in C5. split; [lia|]. unfold join_reset, reset.
  assert (E : op id (msum (values_ (reduce_ (ar x)))) = s) by (by rewrite op_id). rewrite Hl, reset_loop_spec, E. eexists. split; [reflexivity|].
  split; [|done]. split; [|simpl; lia]. split; simpl; try lia.
  - by rewrite length_replicate.
  - apply msum_id.
Qed.

(** ** The invariant *)

(** Clients that have joined round [r], and do not have its result yet. *)
Definition waiting (r : nat) (x : node) (cs : list client) : Prop :=
  idle x /\ Forall (fun c => length c.(results) = r /\ length c.(vals) = S r) cs.

(** In round [R], a leaf collects joins, or has sent its value to the root, or the value has
    arrived there, or the result of the round before is due. *)
Record leaf_ok (R : nat) (coll sent arr due : list nat) (l : nat) (x : node) (cs : list client) : Prop := {
  lf_parent : x.(ar).(parent_) = true;
  lf_n : x.(ar).(reduce_).(n_) = Z.of_nat (length cs);
  lf_entries : length (entries x.(ar).(continuation_)) = length cs;
  lf_coll : l ∈ coll -> collects x (Z.of_nat (length (joined R cs))) (contrib R cs)
    /\ Forall (fun c => length c.(results) = R /\ (length c.(vals) = R \/ length c.(vals) = S R)) cs;
  lf_wait : l ∈ sent ++ arr -> waiting R x cs;
  lf_due : l ∈ due -> exists R0, R = S R0 /\ waiting R0 x cs;
  lf_out : l ∉ coll ++ sent ++ arr ++ due -> cs = [] /\ idle x;
}.

Definition clients_of (css : list (list client)) (l : nat) : list client := default [] (css !! l).

Record inv y (R : nat) (coll sent arr due : list nat) : Prop := {
  v_nodup : NoDup (coll ++ sent ++ arr ++ due);
  v_entries : entries y.(top).(ar).(continuation_) ≡ₚ map leaf_addr (coll ++ sent ++ arr ++ due);
  v_range l : l ∈ coll ++ sent ++ arr ++ due -> (l < length y.(bottom))%nat;
  v_length : length y.(clients) = length y.(bottom);
  v_leaf l x cs : y.(bottom) !! l = Some x -> y.(clients) !! l = Some cs -> leaf_ok R coll sent arr due l x cs;
  v_top : y.(top).(ar).(parent_) = false /\ y.(top).(ar).(reduce_).(n_) = Z.of_nat (length (coll ++ sent ++ arr ++ due))
    /\ collects y.(top) (Z.of_nat (length arr)) (msum (map (fun l => contrib R (clients_of y.(clients) l)) arr));
  v_flight : y.(flight) ≡ₚ map (fun l => Join (contrib R (clients_of y.(clients) l))) sent
    ++ map (fun l => BCast (leaf_addr l) (total (pred R) y.(clients))) due;
  v_results l cs c r v : y.(clients) !! l = Some cs -> c ∈ cs -> c.(results) !! r = Some v -> v = total r y.(clients);
  v_some l : l ∈ coll ++ sent ++ arr ++ due -> clients_of y.(clients) l <> [];
}.

(** A leaf that has clients takes part. *)
Lemma inv_leaf y R coll sent arr due l cs : inv y R coll sent arr due -> y.(clients) !! l = Some cs ->
  exists x, y.(bottom) !! l = Some x /\ leaf_ok R coll sent arr due l x cs /\ (cs <> [] -> l ∈ coll ++ sent ++ arr ++ due).
Proof.
  intros I Hc. apply lookup_lt_Some in Hc as Hlt. rewrite (v_length _ _ _ _ _ _ I) in Hlt. destruct (lookup_lt_is_Some_2 _ _ Hlt) as [x Hx].
  pose proof (v_leaf _ _ _ _ _ _ I l x cs Hx Hc) as Hok. exists x. split; [done|]. split; [done|]. intros Hne.
  destruct (decide (l ∈ coll ++ sent ++ arr ++ due)) as [|Hout]; [done|]. by apply (lf_out _ _ _ _ _ _ _ _ Hok) in Hout as [-> _].
Qed.

Lemma inv_clients y R coll sent arr due l : inv y R coll sent arr due -> l ∈ coll ++ sent ++ arr ++ due ->
  exists x cs, y.(bottom) !! l = Some x /\ y.(clients) !! l = Some cs /\ clients_of y.(clients) l = cs /\ leaf_ok R coll sent arr due l x cs.
Proof.
  intros I Hl. apply (v_range _ _ _ _ _ _ I) in Hl. destruct (lookup_lt_is_Some_2 _ _ Hl) as [x Hx].
  rewrite <- (v_length _ _ _ _ _ _ I) in Hl. destruct (lookup_lt_is_Some_2 _ _ Hl) as [cs Hc]. exists x, cs.
  split; [done|]. split; [done|]. split; [unfold clients_of; by rewrite Hc|]. by apply (v_leaf _ _ _ _ _ _ I).
Qed.

(** No client has more results than there were rounds. *)
Lemma results_bound y R coll sent arr due l cs c : inv y R coll sent arr due -> y.(clients) !! l = Some cs -> c ∈ cs ->
  (length c.(results) <= R)%nat.
Proof.
  intros I Hl Hc. destruct (inv_leaf _ _ _ _ _ _ _ _ I Hl) as (x & _ & [_ _ _ L1 L2 L3 _] & Hin).
  assert (Hne : cs <> []) by (intros ->; by apply elem_of_nil in Hc). specialize (Hin Hne). rewrite (app_assoc sent), !elem_of_app in Hin.
  destruct Hin as [Hin|[Hin|Hin]].
  - destruct (L1 Hin) as [_ Hf]. rewrite Forall_forall in Hf. destruct (Hf c Hc). lia.
  - apply elem_of_app in Hin. destruct (L2 Hin) as [_ Hf]. rewrite Forall_forall in Hf. destruct (Hf c Hc). lia.
  - destruct (L3 Hin) as (R0 & -> & _ & Hf). rewrite Forall_forall in Hf. destruct (Hf c Hc). lia.
Qed.

Lemma clients_of_ne css l k cs : k <> l -> clients_of (<[l := cs]> css) k = clients_of css k.
Proof. intros Hne. unfold clients_of. by rewrite list_lookup_insert_ne. Qed.

Lemma clients_of_at css l cs : css !! l = Some cs -> clients_of css l = cs.
Proof. intros E. unfold clients_of. by rewrite E. Qed.

(** A step of a node of the bottom that keeps the clients. *)
Lemma inv_bottom y R coll sent arr due l x cs x' : inv y R coll sent arr due -> y.(bottom) !! l = Some x -> y.(clients) !! l = Some cs ->
  same_node x x' -> l ∈ coll -> collects x' (Z.of_nat (length (joined R cs))) (contrib R cs) ->
  inv (with_leaf y l x' []) R coll sent arr due.
Proof.
  intros I Hx Hc (S1 & S2 & S3) Hl Hcol. pose proof (v_leaf _ _ _ _ _ _ I _ _ _ Hx Hc) as Hok. pose proof (v_nodup _ _ _ _ _ _ I) as Hnd.
  destruct I as [I1 I2 I3 I4 I5 I6 I7 I8 I9]. split; cbn [with_leaf top bottom clients flight]; try done.
  - intros k Hk. rewrite length_insert. by apply I3.
  - by rewrite length_insert.
  - intros k z ds Hz Hd. apply list_lookup_insert_Some in Hz as [(<- & <- & _)|[_ Hz]]; [|by apply I5]. simplify_eq.
    apply NoDup_app in Hnd as (_ & Hnd & _). destruct Hok as [L1 L2 L3 L4 L5 L6 L7]. split; try congruence.
    + intros _. split; [done|]. by apply L4.
    + intros Hk. exfalso. apply (Hnd _ Hl). rewrite app_assoc. apply elem_of_app. by left.
    + intros Hk. exfalso. apply (Hnd _ Hl). rewrite app_assoc. apply elem_of_app. by right.
    + intros Hk. exfalso. apply Hk. apply elem_of_app. by left.
  - by rewrite app_nil_r.
Qed.

(** A node of the bottom that is not idle collects. *)
Lemma busy_collects R coll sent arr due l x cs : leaf_ok R coll sent arr due l x cs -> ~ idle x -> l ∈ coll.
Proof.
  intros [_ _ _ _ L2 L3 L4] Hn. destruct (decide (l ∈ coll ++ sent ++ arr ++ due)) as [Hin|Hout]; [|by destruct (L4 Hout)].
  rewrite (app_assoc sent), !elem_of_app in Hin. destruct Hin as [Hin|[Hin|Hin]]; [done| |].
  - apply elem_of_app in Hin. by destruct (L2 Hin).
  - by destruct (L3 Hin) as (R0 & _ & Hi & _).
Qed.

Lemma joined_length r cs : (length (joined r cs) <= length cs)%nat.
Proof. induction cs as [|c cs IH]; simpl; [done|]. destruct (vals c !! r); simpl; lia. Qed.

Lemma joined_all r cs : length (joined r cs) = length cs -> forall c, c ∈ cs -> (r < length c.(vals))%nat.
Proof.
  induction cs as [|d cs IH]; intros Hl c Hc; [by apply elem_of_nil in Hc|]. simpl in Hl. pose proof (joined_length r cs) as Hle. unfold joined in *.
  destruct (vals d !! r) as [v|] eqn:Hd; simpl in Hl; [|lia]. apply elem_of_cons in Hc as [->|Hc]; [by eapply lookup_lt_Some|]. apply IH; [lia|done].
Qed.

Lemma inv_count y R coll sent arr due l y' : inv y R coll sent arr due -> tstep y (LCount l) = Some y' -> inv y' R coll sent arr due.
Proof.
  intros I E. cbn [tstep] in E. destruct (bottom y !! l) as [x|] eqn:Hx; [|done]. cbn [mbind option_bind] in E.
  apply lookup_lt_Some in Hx as Hlt. rewrite <- (v_length _ _ _ _ _ _ I) in Hlt. destruct (lookup_lt_is_Some_2 _ _ Hlt) as [cs Hc].
  pose proof (v_leaf _ _ _ _ _ _ I _ _ _ Hx Hc) as Hok. destruct (join_count x) as [x1|] eqn:E1; [|done]. injection E as <-.
  assert (Ho : 0 < opped x) by (unfold join_count in E1; by destruct (Z.ltb_spec 0 (opped x))).
  assert (Hl : l ∈ coll) by (apply (busy_collects _ _ _ _ _ _ _ _ Hok); intros (_ & H0 & _); lia).
  destruct (lf_coll _ _ _ _ _ _ _ _ Hok Hl) as [Hcol _]. pose proof (joined_length R cs) as Hj.
  destruct (collects_count x _ _ Hcol Ho) as (x2 & E2 & Hcol' & Hs); [rewrite (lf_n _ _ _ _ _ _ _ _ Hok); lia|]. simplify_eq. by eapply inv_bottom.
Qed.

Lemma inv_root_count y R coll sent arr due y' : inv y R coll sent arr due -> tstep y LRootCount = Some y' -> inv y' R coll sent arr due.
Proof.
  intros [I1 I2 I3 I4 I5 (I6 & I6' & I6'') I7 I8 I9] E. cbn [tstep] in E. destruct (join_count (top y)) as [x1|] eqn:E1; [|done]. injection E as <-.
  assert (Ho : 0 < opped (top y)) by (unfold join_count in E1; by destruct (Z.ltb_spec 0 (opped (top y)))).
  destruct (collects_count _ _ _ I6'' Ho) as (x2 & E2 & Hcol & S1 & S2 & S3); [rewrite I6', !length_app; lia|]. simplify_eq.
  split; cbn [with_top top bottom clients flight]; try done; [by rewrite S2|]. by rewrite S1, S3.
Qed.

Lemma phases_in (coll sent arr due : list nat) k : k ∈ coll ++ sent ++ arr ++ due <-> k ∈ coll \/ k ∈ sent ++ arr \/ k ∈ due.
Proof. rewrite (app_assoc sent), !(elem_of_app _ (_ ++ due)), (elem_of_app (sent ++ arr)). done. Qed.

Definition same_elsewhere (l : nat) (S S' : list nat) : Prop := forall j, j <> l -> j ∈ S' <-> j ∈ S.

(** A leaf whose phase is the same in other lists. *)
Lemma leaf_ok_ne R coll sent arr due coll' sent' arr' due' l k x cs : leaf_ok R coll sent arr due k x cs -> k <> l ->
  same_elsewhere l coll coll' -> same_elsewhere l (sent ++ arr) (sent' ++ arr') -> same_elsewhere l due due' ->
  leaf_ok R coll' sent' arr' due' k x cs.
Proof.
  intros [L1 L2 L3 L4 L5 L6 L7] Hne H1 H2 H3. specialize (H1 k Hne). specialize (H2 k Hne). specialize (H3 k Hne).
  split; try done; rewrite ?H1, ?H2, ?H3; try done. intros Hout. apply L7. intros Hin. apply Hout. rewrite phases_in in *. tauto.
Qed.

(** When a result is due, there was a round. *)
Lemma due_round y R coll sent arr due l : inv y R coll sent arr due -> l ∈ due -> (0 < R)%nat.
Proof.
  intros I Hl. assert (Hall : l ∈ coll ++ sent ++ arr ++ due) by (rewrite phases_in; tauto).
  destruct (inv_clients _ _ _ _ _ _ _ I Hall) as (x & cs & _ & _ & _ & Hok). destruct (lf_due _ _ _ _ _ _ _ _ Hok Hl) as (R0 & -> & _). lia.
Qed.

Lemma old_results y R coll sent arr due l cs c r v : inv y R coll sent arr due -> y.(clients) !! l = Some cs -> c ∈ cs ->
  c.(results) !! r = Some v -> v = total r y.(clients) /\ (r < R)%nat.
Proof.
  intros I Hl Hc Hv. split; [by apply (v_results _ _ _ _ _ _ I l cs c)|]. pose proof (results_bound _ _ _ _ _ _ _ _ _ I Hl Hc).
  apply lookup_lt_Some in Hv. lia.
Qed.

(** Leaf [l] perhaps changes phase, its node, and its clients, which have joined round [R] at
    most. *)
Lemma inv_move y R coll sent arr due coll' sent' arr' due' l x x' cs cs' tp fl : inv y R coll sent arr due ->
  y.(bottom) !! l = Some x -> y.(clients) !! l = Some cs ->
  coll ++ sent ++ arr ++ due ≡ₚ coll' ++ sent' ++ arr' ++ due' ->
  same_elsewhere l coll coll' -> same_elsewhere l (sent ++ arr) (sent' ++ arr') -> same_elsewhere l due due' ->
  (forall r, (r < R)%nat \/ l ∈ sent' ++ arr' -> contrib r cs' = contrib r cs) -> leaf_ok R coll' sent' arr' due' l x' cs' ->
  (forall e r v, e ∈ cs' -> e.(results) !! r = Some v -> v = total r y.(clients) /\ (r < R)%nat) -> length cs' = length cs ->
  same_node y.(top) tp -> collects tp (Z.of_nat (length arr')) (msum (map (fun k => contrib R (clients_of y.(clients) k)) arr')) ->
  fl ≡ₚ map (fun k => Join (contrib R (clients_of y.(clients) k))) sent' ++ map (fun k => BCast (leaf_addr k) (total (pred R) y.(clients))) due' ->
  inv (mkWorld tp (<[l := x']> y.(bottom)) (<[l := cs']> y.(clients)) fl) R coll' sent' arr' due'.
Proof.
  intros I Hx Hc HP E1 E2 E3 Hcon Hok Hres Hlen (S1 & S2 & S3) Htop Hfl.
  assert (Hk : forall k, k ∈ sent' ++ arr' -> contrib R (clients_of (<[l := cs']> (clients y)) k) = contrib R (clients_of (clients y) k)).
  { intros k Hin. destruct (decide (k = l)) as [->|]; [|by rewrite clients_of_ne]. apply lookup_lt_Some in Hc as Hlt.
    rewrite (clients_of_at _ l cs Hc), (clients_of_at _ l cs') by (by apply list_lookup_insert_eq). apply Hcon. by right. }
  assert (Ht : forall r, (r < R)%nat -> total r (<[l := cs']> (clients y)) = total r (clients y)).
  { intros r Hr. eapply total_insert; [done|]. apply Hcon. by left. }
  assert (Hdue : forall k, k ∈ due' -> (pred R < R)%nat).
  { intros k Hin. destruct (decide (k = l)) as [->|Hne]; [destruct (lf_due _ _ _ _ _ _ _ _ Hok Hin) as (R0 & -> & _); simpl; lia|].
    apply (E3 _ Hne) in Hin. pose proof (due_round _ _ _ _ _ _ _ I Hin). lia. }
  pose proof (fun k ds d => results_bound y _ coll sent arr due k ds d I) as Hbound.
  destruct I as [I1 I2 I3 I4 I5 (I6 & I6' & I6'') I7 I8 I9]. split; cbn [top bottom clients flight].
  - by rewrite <- HP.
  - by rewrite S2, I2, HP.
  - intros k Hin. rewrite length_insert. apply I3. by rewrite HP.
  - by rewrite !length_insert.
  - intros k z ds Hz Hd. destruct (decide (k = l)) as [->|Hne].
    + apply lookup_lt_Some in Hx as L1. apply lookup_lt_Some in Hc as L2. rewrite list_lookup_insert_eq in Hz by done. rewrite list_lookup_insert_eq in Hd by done. by simplify_eq.
    + rewrite list_lookup_insert_ne in Hz by done. rewrite list_lookup_insert_ne in Hd by done. eapply (leaf_ok_ne R coll sent arr due coll' sent' arr' due' l); [by apply I5|done..].
  - rewrite S1, S3, <- HP. split; [done|]. split; [done|]. rewrite (map_ext_in _ (fun k => contrib R (clients_of (clients y) k))); [done|].
    intros k Hin%list_elem_of_In. apply Hk, elem_of_app. by right.
  - rewrite Hfl. f_equiv.
    + apply reflexive_eq, map_ext_in. intros k Hin%list_elem_of_In. rewrite Hk; [done|]. apply elem_of_app. by left.
    + apply reflexive_eq, map_ext_in. intros k Hin%list_elem_of_In. by rewrite Ht by (by eapply Hdue).
  - intros k ds e r v Hd He Hv. apply list_lookup_insert_Some in Hd as [(<- & <- & _)|[_ Hd]].
    + destruct (Hres e r v He Hv) as [-> Hr]. by rewrite Ht.
    + rewrite Ht; [by eapply I8|]. apply lookup_lt_Some in Hv. specialize (Hbound _ _ _ Hd He). lia.
  - intros k Hin. rewrite <- HP in Hin. specialize (I9 k Hin). destruct (decide (k = l)) as [->|]; [|by rewrite clients_of_ne]. apply lookup_lt_Some in Hc as Hlt.
    rewrite (clients_of_at _ l cs Hc) in I9. rewrite (clients_of_at _ l cs') by (by apply list_lookup_insert_eq). intros ->. by destruct cs.
Qed.

Lemma inv_forward y R coll sent arr due l y' : inv y R coll sent arr due -> tstep y (LForward l) = Some y' ->
  exists coll' sent', inv y' R coll' sent' arr due.
Proof.
  intros I E. cbn [tstep] in E. destruct (bottom y !! l) as [x|] eqn:Hx; [|done]. cbn [mbind option_bind] in E.
  apply lookup_lt_Some in Hx as Hlt. rewrite <- (v_length _ _ _ _ _ _ I) in Hlt. destruct (lookup_lt_is_Some_2 _ _ Hlt) as [cs Hc].
  pose proof (v_leaf _ _ _ _ _ _ I _ _ _ Hx Hc) as Hok. unfold forward in E. destruct (last x) eqn:Hlast; [|unfold join_reset in E; by rewrite Hlast in E].
  assert (Hl : l ∈ coll) by (apply (busy_collects _ _ _ _ _ _ _ _ Hok); intros (_ & _ & H0); congruence).
  destruct (lf_coll _ _ _ _ _ _ _ _ Hok Hl) as [Hcol Hf]. destruct (collects_reset x _ _ Hcol ltac:(lia) Hlast) as (Hall & x1 & E1 & Hidle & S1 & S2 & S3).
  rewrite E1 in E. cbn [mbind option_bind] in E. rewrite S1, (lf_parent _ _ _ _ _ _ _ _ Hok) in E. injection E as <-.
  apply elem_of_Permutation in Hl as [coll' Hcoll]. exists coll', (l :: sent).
  assert (Ey : with_leaf y l x1 [Join (contrib R cs)] = mkWorld (top y) (<[l := x1]> (bottom y)) (<[l := cs]> (clients y)) (flight y ++ [Join (contrib R cs)]))
    by (unfold with_leaf; by rewrite (list_insert_id (clients y) l cs)).
  rewrite Ey. pose proof (v_nodup _ _ _ _ _ _ I) as Hnd. rewrite Hcoll in Hnd. simpl in Hnd. apply NoDup_cons in Hnd as [Hnot _].
  apply (inv_move y R coll sent arr due coll' (l :: sent) arr due l x x1 cs cs); try done.
  - rewrite Hcoll. solve_Permutation.
  - intros j Hj. rewrite Hcoll, elem_of_cons. tauto.
  - intros j Hj. simpl. rewrite elem_of_cons. tauto.
  - destruct Hok as [L1 L2 L3 _ _ _ _]. split; try congruence.
    + intros Hin. exfalso. apply Hnot. rewrite phases_in. tauto.
    + intros _. split; [done|]. rewrite Forall_forall in *. intros c Hcin. destruct (Hf c Hcin) as [H1 H2]. split; [done|].
      pose proof (joined_all R cs ltac:(lia) c Hcin). lia.
    + intros Hin. exfalso. apply Hnot. rewrite phases_in. tauto.
    + intros Hin. exfalso. apply Hin. rewrite phases_in. right; left. by left.
  - intros e r v He Hv. by eapply old_results.
  - apply (v_top _ _ _ _ _ _ I).
  - rewrite (v_flight _ _ _ _ _ _ I). cbn [map]. rewrite (clients_of_at _ _ _ Hc). solve_Permutation.
Qed.

Lemma inv_root_join y R coll sent arr due k w y' : inv y R coll sent arr due -> tstep y (LRootJoin k w) = Some y' ->
  exists sent' arr', inv y' R coll sent' arr' due.
Proof.
  intros I E. cbn [tstep] in E. destruct (flight y !! k) as [[v|a v]|] eqn:Hk; [|done|done].
  pose proof (v_flight _ _ _ _ _ _ I) as Hfl. pose proof (delete_Permutation _ _ _ Hk) as Hd.
  assert (Hin : Join v ∈ flight y) by (by eapply list_elem_of_lookup_2). rewrite Hfl, elem_of_app, !list_elem_of_fmap in Hin.
  destruct Hin as [(l & [= ->] & Hl)|(l & [=] & _)]. destruct (v_top _ _ _ _ _ _ I) as (T1 & T2 & T3).
  assert (Hall : l ∈ coll ++ sent ++ arr ++ due) by (rewrite phases_in, elem_of_app; tauto).
  destruct (inv_clients _ _ _ _ _ _ _ I Hall) as (x & cs & Hx & Hc & Ecs & Hok). rewrite Ecs in *.
  apply elem_of_Permutation in Hl as [sent' Hsent]. exists sent', (l :: arr).
  destruct (join_accumulate (top y) w (contrib R cs)) as [x1|] eqn:E1; [|done]. injection E as <-.
  assert (Hw : (w < slots_)%nat).
  { unfold join_accumulate, accumulate in E1. destruct (values_ (reduce_ (ar (top y))) !! w) eqn:Hw; [|done]. apply lookup_lt_Some in Hw. rewrite (c_slots _ _ _ T3) in Hw. done. }
  destruct (collects_accumulate (top y) _ _ w (contrib R cs) T3) as (x2 & E2 & Hcol & Hsame); [|done|].
  { rewrite T2, Hsent, !length_app. simpl. lia. }
  simplify_eq. assert (Ey : with_top y x1 (delete k (flight y)) = mkWorld x1 (<[l := x]> (bottom y)) (<[l := clients_of (clients y) l]> (clients y)) (delete k (flight y)))
    by (unfold with_top; by rewrite (list_insert_id (bottom y)), (list_insert_id (clients y))).
  rewrite Ey. pose proof (v_nodup _ _ _ _ _ _ I) as Hnd. rewrite Hsent in Hnd.
  assert (Hp : coll ++ (l :: sent') ++ arr ++ due ≡ₚ l :: coll ++ sent' ++ arr ++ due) by solve_Permutation. rewrite Hp in Hnd. apply NoDup_cons in Hnd as [Hnot _].
  apply (inv_move y R coll sent arr due coll sent' (l :: arr) due l x x (clients_of (clients y) l) _); try done.
  - rewrite Hsent. solve_Permutation.
  - intros j Hj. rewrite Hsent. rewrite !elem_of_app, !elem_of_cons. tauto.
  - destruct Hok as [L1 L2 L3 L4 L5 L6 L7]. rewrite phases_in, elem_of_app in Hnot. split; try done.
    + intros _. apply L5. rewrite Hsent. by left.
    + intros Hout. exfalso. apply Hout. rewrite phases_in, elem_of_app. right; left; right. by left.
  - intros e r v He Hv. by eapply old_results.
  - cbn [length map]. rewrite (msum_perm _ (map (fun k0 => contrib R (clients_of (clients y) k0)) arr ++ [contrib R (clients_of (clients y) l)])) by (apply Permutation_cons_append).
    rewrite msum_app. simpl. rewrite op_id_r. replace (Z.of_nat (S (length arr))) with (Z.of_nat (length arr) + 1) by lia. done.
  - rewrite Hd, Hsent in Hfl. cbn [map app] in Hfl. by apply Permutation_cons_inv in Hfl.
Qed.

Lemma bcast_map x cs v : length (entries x.(ar).(continuation_)) = length cs -> bcast x cs v = map (fun c => receive c v) cs.
Proof.
  intros Hl. unfold bcast, trigger. fold (entries (continuation_ (ar x))). revert Hl. generalize (entries (continuation_ (ar x))) as ps.
  induction cs as [|c cs IH]; intros [|p ps] Hl; simpl in *; try done. by rewrite IH by lia.
Qed.

Lemma joined_receive r v cs : joined r (map (fun c => receive c v) cs) = joined r cs.
Proof. induction cs as [|c cs IH]; simpl; [done|]. by rewrite IH. Qed.

Lemma joined_none r cs : Forall (fun c => (length c.(vals) <= r)%nat) cs -> joined r cs = [].
Proof. induction 1 as [|c cs Hc _ IH]; simpl; [done|]. by rewrite (lookup_ge_None_2 _ _ Hc). Qed.

Lemma inv_bcast y R coll sent arr due k l y' : inv y R coll sent arr due -> tstep y (LBCast k l) = Some y' ->
  exists coll' due', inv y' R coll' sent arr due'.
Proof.
  intros I E. cbn [tstep] in E. destruct (flight y !! k) as [[v|a v]|] eqn:Hk; [done| |done]. destruct (Z.eqb_spec a (leaf_addr l)) as [->|]; [|done].
  pose proof (v_flight _ _ _ _ _ _ I) as Hfl. pose proof (delete_Permutation _ _ _ Hk) as Hd.
  assert (Hin : BCast (leaf_addr l) v ∈ flight y) by (by eapply list_elem_of_lookup_2). rewrite Hfl, elem_of_app, !list_elem_of_fmap in Hin.
  destruct Hin as [(l' & [=] & _)|(l' & [= Hl' ->] & Hl)]. apply leaf_addr_inj in Hl' as <-.
  assert (Hall : l ∈ coll ++ sent ++ arr ++ due) by (rewrite phases_in; tauto).
  destruct (inv_clients _ _ _ _ _ _ _ I Hall) as (x & cs & Hx & Hc & Ecs & Hok). rewrite Hx, Hc in E. cbn [mbind option_bind] in E. injection E as <-.
  rewrite (bcast_map x cs _ (lf_entries _ _ _ _ _ _ _ _ Hok)). destruct (lf_due _ _ _ _ _ _ _ _ Hok Hl) as (R0 & -> & Hidle & Hf). cbn [pred] in *.
  apply elem_of_Permutation in Hl as [due' Hdue]. exists (l :: coll), due'. pose proof (v_nodup _ _ _ _ _ _ I) as Hnd. rewrite Hdue in Hnd.
  assert (Hp : coll ++ sent ++ arr ++ l :: due' ≡ₚ l :: coll ++ sent ++ arr ++ due') by solve_Permutation. rewrite Hp in Hnd. apply NoDup_cons in Hnd as [Hnot _].
  rewrite phases_in in Hnot. rewrite <- (list_insert_id (bottom y) l x Hx) at 1. set (v := total R0 (clients y)) in *.
  assert (Hnone : joined (S R0) cs = []) by (apply joined_none; eapply Forall_impl; [exact Hf|]; intros c [_ ->]; lia).
  apply (inv_move y (S R0) coll sent arr due (l :: coll) sent arr due' l x x cs _); try done.
  - rewrite Hdue. solve_Permutation.
  - intros j Hj. rewrite elem_of_cons. tauto.
  - intros j Hj. rewrite Hdue, elem_of_cons. tauto.
  - intros r _. unfold contrib. by rewrite joined_receive.
  - destruct Hok as [L1 L2 L3 L4 L5 L6 L7]. split; rewrite ?length_map; try done; try tauto.
    + intros _. unfold contrib. rewrite joined_receive, Hnone. split; [by destruct Hidle|]. apply Forall_fmap. eapply Forall_impl; [exact Hf|].
      intros c [H1 H2]. simpl. rewrite length_app. simpl. lia.
    + intros Hout. exfalso. apply Hout. rewrite phases_in. left. by left.
  - intros e r u He Hu. apply list_elem_of_fmap in He as (c & -> & He). cbn [receive results] in Hu. apply lookup_app_Some in Hu as [Hu|[Hge Hu]].
    + by eapply old_results.
    + apply list_lookup_singleton_Some in Hu as [Hr <-]. rewrite Forall_forall in Hf. destruct (Hf c He) as [Hlen _]. split; [unfold v; f_equal; lia|lia].
  - by rewrite length_map.
  - apply (v_top _ _ _ _ _ _ I).
  - rewrite Hd, Hdue in Hfl. cbn [map] in Hfl. apply (Permutation_cons_inv (a := BCast (leaf_addr l) v)). rewrite Hfl. solve_Permutation.
Qed.

(** A client may join only while its leaf collects, and it has joined every round before. *)
Lemma joins_collecting R coll sent arr due l x cs c : leaf_ok R coll sent arr due l x cs -> c ∈ cs ->
  length c.(vals) = length c.(results) -> l ∈ coll /\ length c.(vals) = R.
Proof.
  intros [_ _ _ L1 L2 L3 L4] Hc Heq. destruct (decide (l ∈ coll ++ sent ++ arr ++ due)) as [Hin|Hout].
  2: { destruct (L4 Hout) as [-> _]. by apply elem_of_nil in Hc. }
  rewrite phases_in in Hin. destruct Hin as [Hin|[Hin|Hin]].
  - split; [done|]. destruct (L1 Hin) as [_ Hf]. rewrite Forall_forall in Hf. destruct (Hf c Hc). lia.
  - destruct (L2 Hin) as [_ Hf]. rewrite Forall_forall in Hf. destruct (Hf c Hc). lia.
  - destruct (L3 Hin) as (R0 & -> & _ & Hf). rewrite Forall_forall in Hf. destruct (Hf c Hc). lia.
Qed.

(** The values of a leaf when client [j] joins with [v]. *)
Lemma joined_join R cs j c v : cs !! j = Some c -> length c.(vals) = R ->
  let cs' := <[j := mkClient (c.(vals) ++ [v]) c.(results)]> cs in
  length (joined R cs') = S (length (joined R cs)) /\ contrib R cs' = op (contrib R cs) v
  /\ (forall r, (r < R)%nat -> contrib r cs' = contrib r cs).
Proof.
  intros Hj HR cs'. set (c' := mkClient (vals c ++ [v]) (results c)) in *.
  pose proof (joined_insert R cs j c c' Hj (lookup_ge_None_2 (vals c) R ltac:(lia))) as Hjoin.
  assert (Hv : vals c' !! R = Some v) by (simpl; rewrite lookup_app_r by lia; by rewrite HR, Nat.sub_diag). rewrite Hv in Hjoin. cbn [option_list] in Hjoin.
  split; [unfold cs'; rewrite Hjoin, length_app; simpl; lia|]. split.
  - unfold contrib, cs'. rewrite (msum_perm _ _ Hjoin), msum_app. simpl. by rewrite op_id_r.
  - intros r Hr. unfold contrib, cs'. rewrite (joined_same r cs j c c'); [done|done|]. simpl. by rewrite lookup_app_l by lia.
Qed.

Lemma accumulate_worker x k s w v x' : collects x k s -> join_accumulate x w v = Some x' -> (w < slots_)%nat.
Proof.
  intros Hcol E. unfold join_accumulate, accumulate in E. destruct (values_ (reduce_ (ar x)) !! w) eqn:Hw; [|done].
  apply lookup_lt_Some in Hw. by rewrite (c_slots _ _ _ Hcol) in Hw.
Qed.

Lemma inv_join y R coll sent arr due l j w v y' : inv y R coll sent arr due -> tstep y (LJoin l j w v) = Some y' -> inv y' R coll sent arr due.
Proof.
  intros I E. cbn [tstep] in E. destruct (bottom y !! l) as [x|] eqn:Hx; [|done]. destruct (clients y !! l) as [cs|] eqn:Hc; [|done].
  cbn [mbind option_bind] in E. destruct (cs !! j) as [c|] eqn:Hj; [|done]. cbn [mbind option_bind] in E.
  destruct (Nat.eqb_spec (length (vals c)) (length (results c))) as [Heq|]; [|done]. pose proof (v_leaf _ _ _ _ _ _ I _ _ _ Hx Hc) as Hok.
  assert (Hcin : c ∈ cs) by (by eapply list_elem_of_lookup_2). destruct (joins_collecting _ _ _ _ _ _ _ _ _ Hok Hcin Heq) as [Hl HR].
  destruct (join_accumulate x w v) as [x1|] eqn:E1; [|done]. injection E as <-. destruct (lf_coll _ _ _ _ _ _ _ _ Hok Hl) as [Hcol Hf].
  destruct (joined_join R cs j c v Hj HR) as (J1 & J2 & J3). set (cs' := <[j := _]> cs) in *.
  pose proof (joined_length R cs') as Hjl. assert (Hcl : length cs' = length cs) by apply length_insert.
  destruct (collects_accumulate x _ _ w v Hcol) as (x2 & E2 & Hcol' & S1 & S2 & S3); [rewrite (lf_n _ _ _ _ _ _ _ _ Hok); lia|by eapply accumulate_worker|]. simplify_eq.
  pose proof (v_nodup _ _ _ _ _ _ I) as Hnd. apply NoDup_app in Hnd as (_ & Hnd & _). specialize (Hnd _ Hl).
  assert (Hno : l ∉ sent ++ arr /\ l ∉ due) by (rewrite app_assoc, elem_of_app in Hnd; tauto). destruct Hno as [Hno1 Hno2].
  eapply (inv_move y (length (vals c)) coll sent arr due coll sent arr due l x x1 cs cs'); try done.
  - intros r [Hr|Hr]; [by apply J3|done].
  - destruct Hok as [L1 L2 L3 _ _ _ _]. split; try congruence.
    + intros _. rewrite J1, J2. split; [by replace (Z.of_nat (S (length (joined (length (vals c)) cs)))) with (Z.of_nat (length (joined (length (vals c)) cs)) + 1) by lia|].
      apply Forall_insert; [done|]. simpl. rewrite length_app. simpl. lia.
    + intros Hin. exfalso. apply Hin. rewrite phases_in. by left.
  - intros e r u He Hu. apply elem_of_insert in He as [->|He]; [|by eapply old_results]. by eapply old_results.
  - apply (v_top _ _ _ _ _ _ I).
  - apply (v_flight _ _ _ _ _ _ I).
Qed.

Lemma msum_filter {A} (f : A -> V) (P : A -> Prop) {HP : forall a, Decision (P a)} l : (forall a, a ∈ l -> ~ P a -> f a = id) ->
  msum (map f (filter P l)) = msum (map f l).
Proof.
  induction l as [|a l IH]; intros Hl; [done|]. rewrite filter_cons. specialize (IH (fun b Hb => Hl b (list_elem_of_further _ _ _ Hb))).
  destruct (decide (P a)) as [Ha|Ha]; simpl; rewrite IH; [done|]. by rewrite (Hl a (list_elem_of_here _ _) Ha), op_id.
Qed.

(** Only the leaves that take part contribute. *)
Lemma total_members r css L : NoDup L -> (forall l, l ∈ L -> (l < length css)%nat) -> (forall l, l ∉ L -> clients_of css l = []) ->
  total r css = msum (map (fun l => contrib r (clients_of css l)) L).
Proof.
  intros Hnd Hr Hout. assert (HL : L ≡ₚ filter (fun l => l ∈ L) (seq 0 (length css))).
  { apply NoDup_Permutation; [done|apply NoDup_filter, NoDup_seq|]. intros l. rewrite list_elem_of_filter, elem_of_seq. split; [|tauto].
    intros Hl. split; [done|]. specialize (Hr l Hl). lia. }
  rewrite (msum_perm _ _ (Permutation_map (fun l => contrib r (clients_of css l)) HL)), msum_filter.
  - unfold total. f_equal. apply list_eq. intros l. rewrite !list_lookup_fmap. destruct (css !! l) as [cs|] eqn:E.
    + apply lookup_lt_Some in E as Hlt. rewrite lookup_seq_lt by done. simpl. by rewrite (clients_of_at _ _ _ E).
    + apply lookup_ge_None in E. by rewrite lookup_seq_ge by done.
  - intros l _ Hl. by rewrite (Hout l Hl).
Qed.

Lemma inv_root_forward y R coll sent arr due y' : inv y R coll sent arr due -> tstep y LRootForward = Some y' ->
  inv y' (S R) [] [] [] arr.
Proof.
  intros I E. cbn [tstep] in E. unfold forward in E. destruct (last (top y)) eqn:Hlast; [|unfold join_reset in E; by rewrite Hlast in E].
  destruct (v_top _ _ _ _ _ _ I) as (T1 & T2 & T3). destruct (collects_reset _ _ _ T3 ltac:(lia) Hlast) as (Hall & x1 & E1 & Hidle & S1 & S2 & S3).
  rewrite E1 in E. cbn [mbind option_bind] in E. rewrite S1, T1 in E. injection E as <-.
  rewrite Hall, T2, !length_app in *. assert (coll = [] /\ sent = [] /\ due = []) as (-> & -> & ->).
  { rewrite <- (length_zero_iff_nil coll), <- (length_zero_iff_nil sent), <- (length_zero_iff_nil due). lia. }
  pose proof (fun k ds d r v => old_results y _ [] [] arr [] k ds d r v I) as Hold.
  assert (Htot : msum (map (fun l => contrib R (clients_of (clients y) l)) arr) = total R (clients y)).
  { symmetry. apply total_members.
    - pose proof (v_nodup _ _ _ _ _ _ I) as Hnd. simpl in Hnd. by rewrite app_nil_r in Hnd.
    - intros l Hl. rewrite (v_length _ _ _ _ _ _ I). apply (v_range _ _ _ _ _ _ I). simpl. by rewrite app_nil_r.
    - intros l Hl. destruct (clients y !! l) as [cs|] eqn:Hc; [|unfold clients_of; by rewrite Hc].
      destruct (inv_leaf _ _ _ _ _ _ _ _ I Hc) as (x & _ & Hok & _). rewrite (clients_of_at _ _ _ Hc). apply (lf_out _ _ _ _ _ _ _ _ Hok). simpl. by rewrite app_nil_r. }
  destruct I as [I1 I2 I3 I4 I5 _ I7 I8 I9]. simpl in I1, I2, I3. rewrite app_nil_r in *. split; cbn [with_top top bottom clients flight]; try done.
  - by rewrite S2.
  - intros l x cs Hx Hc. destruct (I5 l x cs Hx Hc) as [L1 L2 L3 L4 L5 L6 L7]. split; try done; try (by intros ?%elem_of_nil).
    + intros Hin. exists R. split; [done|]. by apply L5.
    + simpl. intros Hout. apply L7. simpl. by rewrite app_nil_r.
  - rewrite S1, S3. split; [done|]. split; [simpl in *; lia|]. by destruct Hidle.
  - simpl in I7. apply Permutation_nil_r in I7 as ->. unfold trigger. rewrite Htot, S2. cbn [app map pred]. rewrite map_map.
    change (filter _ _) with (entries (continuation_ (ar (top y)))). rewrite I2. by rewrite map_map.
Qed.

(** Every step keeps the invariant. *)
Lemma inv_tstep y a y' R coll sent arr due : inv y R coll sent arr due -> tstep y a = Some y' ->
  exists R' coll' sent' arr' due', inv y' R' coll' sent' arr' due'.
Proof.
  intros I E. destruct a as [l j w v|k w|l| |l| |k l].
  - eexists _, _, _, _, _. by eapply inv_join.
  - destruct (inv_root_join _ _ _ _ _ _ _ _ _ I E) as (s & a & I'). by eexists _, _, _, _, _.
  - eexists _, _, _, _, _. by eapply inv_count.
  - eexists _, _, _, _, _. by eapply inv_root_count.
  - destruct (inv_forward _ _ _ _ _ _ _ _ I E) as (c & s & I'). by eexists _, _, _, _, _.
  - eexists _, _, _, _, _. by eapply inv_root_forward.
  - destruct (inv_bcast _ _ _ _ _ _ _ _ _ I E) as (c & d & I'). by eexists _, _, _, _, _.
Qed.

(** ** Runs *)

Lemma quiet_idle a : quiet a -> idle (mkNode a 0 false).
Proof.
  intros [Q1 Q2 Q3]. split; [|done]. split; simpl; try done; try lia.
  - by rewrite Q1, length_replicate.
  - by rewrite Q1, msum_id.
Qed.

Lemma joined_new r (ps : list Z) : joined r (map (fun _ => mkClient [] []) ps) = [].
Proof. apply joined_none, Forall_fmap, Forall_true. intros p. simpl. lia. Qed.

Lemma begin_inv t L : members t L -> inv (begin_rounds t) 0 L [] [] [].
Proof.
  intros [[M1 M1'] M2 M3 M4 M5 M6]. pose proof (quiet_idle _ M1) as [Htop _].
  assert (Hcs : forall l a, t.(leaves) !! l = Some a -> clients_of (clients (begin_rounds t)) l = map (fun _ => mkClient [] []) (entries a.(continuation_))).
  { intros l a Ha. apply clients_of_at. simpl. by rewrite list_lookup_fmap, Ha. }
  split; cbn [begin_rounds top bottom clients flight ar]; rewrite ?app_nil_r, ?length_map; try done.
  - intros l (a & Ha & _)%M5. by eapply lookup_lt_Some.
  - intros l x cs Hx Hc. rewrite list_lookup_fmap in Hx. rewrite list_lookup_fmap in Hc. destruct (leaves t !! l) as [a|] eqn:Ha; [|done]. injection Hx as <-. injection Hc as <-.
    fold (entries (continuation_ a)). destruct (M2 _ _ Ha) as [Qa Pa]. pose proof (quiet_idle _ Qa) as Hidle. split; cbn [ar]; rewrite ?length_map; try done; try (by intros ?%elem_of_nil).
    + apply (q_entries _ Qa).
    + intros _. unfold contrib. rewrite joined_new. split; [by destruct Hidle|]. apply Forall_fmap, Forall_true. intros p. simpl. lia.
    + rewrite app_nil_r. intros Hout. split; [|done]. assert (Hn : ~ 0 < n_ (reduce_ a)) by (intros Hn; apply Hout, M5; by exists a).
      pose proof (q_entries _ Qa). destruct (entries (continuation_ a)); [done|simpl in *; lia].
  - split; [done|]. split; [|done]. rewrite (q_entries _ M1), (Permutation_length M6), length_map. done.
  - intros l cs c r v Hl Hc Hv. rewrite list_lookup_fmap in Hl. destruct (leaves t !! l) as [a|]; [|done]. injection Hl as <-.
    apply list_elem_of_fmap in Hc as (p & -> & _). done.
  - intros l (a & Ha & Hn)%M5. change (map _ (leaves t)) with (clients (begin_rounds t)). rewrite (Hcs l a Ha). pose proof (q_entries _ (proj1 (M2 _ _ Ha))).
    destruct (entries (continuation_ a)); [simpl in *; lia|done].
Qed.

Fixpoint trun y (l : list label) : option world :=
  match l with
  | [] => Some y
  | a :: l => y ← tstep y a; trun y l
  end.

Lemma trun_inv l : forall y y' R coll sent arr due, inv y R coll sent arr due -> trun y l = Some y' ->
  exists R' coll' sent' arr' due', inv y' R' coll' sent' arr' due'.
Proof.
  induction l as [|a l IH]; intros y y' R coll sent arr due I E; cbn [trun] in E; [simplify_eq; by eexists _, _, _, _, _|].
  destruct (tstep y a) as [y1|] eqn:E1; [|done]. destruct (inv_tstep _ _ _ _ _ _ _ _ I E1) as (R1 & c1 & s1 & a1 & d1 & I1). by eapply IH.
Qed.

Lemma run_inv t l y : subscribed t -> trun (begin_rounds t) l = Some y -> exists R coll sent arr due, inv y R coll sent arr due.
Proof. intros Hs E. destruct (subscribed_members _ Hs) as (_ & L & M). eapply trun_inv; [by apply begin_inv|done]. Qed.

(** How far a client may be. *)
Lemma client_rounds y R coll sent arr due l cs c : inv y R coll sent arr due -> y.(clients) !! l = Some cs -> c ∈ cs ->
  (R <= length c.(vals))%nat /\ (length c.(results) <= length c.(vals) <= S (length c.(results)))%nat.
Proof.
  intros I Hl Hc. destruct (inv_leaf _ _ _ _ _ _ _ _ I Hl) as (x & _ & [_ _ _ L1 L2 L3 _] & Hin).
  assert (Hne : cs <> []) by (intros ->; by apply elem_of_nil in Hc). specialize (Hin Hne). rewrite phases_in in Hin.
  destruct Hin as [Hin|[Hin|Hin]].
  - destruct (L1 Hin) as [_ Hf]. rewrite Forall_forall in Hf. destruct (Hf c Hc). lia.
  - destruct (L2 Hin) as [_ Hf]. rewrite Forall_forall in Hf. destruct (Hf c Hc). lia.
  - destruct (L3 Hin) as (R0 & -> & _ & Hf). rewrite Forall_forall in Hf. destruct (Hf c Hc). lia.
Qed.

(** C13: the allreduce of a process, after any subscriptions and withdrawals (of
    which the root's context has room for the new leaves), and under any interleaving of the joins, on any workers, and of the parcels of the tree, in any number
    of rounds: the result of a round that an input is given is the reduction, over every
    subscribed input of every locality, of the value it joined that round with, and every one
    of them has joined.  No input is more than its own join ahead of its results. *)
Theorem process_allreduce_rounds t l y : subscribed t -> trun (begin_rounds t) l = Some y ->
  forall k cs c, y.(clients) !! k = Some cs -> c ∈ cs ->
    (length c.(results) <= length c.(vals) <= S (length c.(results)))%nat
    /\ forall r v, c.(results) !! r = Some v -> v = total r y.(clients)
      /\ forall k' cs' c', y.(clients) !! k' = Some cs' -> c' ∈ cs' -> (r < length c'.(vals))%nat.
Proof.
  intros Hs E k cs c Hk Hc. destruct (run_inv _ _ _ Hs E) as (R & coll & sent & arr & due & I).
  split; [by apply (client_rounds _ _ _ _ _ _ _ _ _ I Hk Hc)|]. intros r v Hv. destruct (old_results _ _ _ _ _ _ _ _ _ _ _ I Hk Hc Hv) as [-> Hr].
  split; [done|]. intros k' cs' c' Hk' Hc'. destruct (client_rounds _ _ _ _ _ _ _ _ _ I Hk' Hc') as [H1 _]. lia.
Qed.

(** ** Every round ends *)

(** The steps that no client decides on. *)
Definition internal (a : label) : bool := match a with LJoin _ _ _ _ => false | _ => true end.

Definition fanout y : Z := Z.of_nat (length (entries y.(top).(ar).(continuation_))).

Definition node_work (k : Z) (x : node) : Z := k * x.(opped) + (if x.(last) then k - 1 else 0).

Definition msg_work (n : Z) (m : msg) : Z := match m with Join _ => n + 3 | BCast _ _ => 1 end.

(** A bound on the internal steps to come. *)
Definition work y : Z :=
  let n := fanout y in
  sum_of (node_work (n + 5)) y.(bottom) + node_work (n + 2) y.(top) + sum_of (msg_work n) y.(flight).

Lemma count_work x x' k : join_count x = Some x' -> 0 < k -> (x.(last) = true -> x.(opped) = 0) -> node_work k x' < node_work k x.
Proof.
  unfold join_count, fetch_sub. destruct (Z.ltb_spec 0 (opped x)) as [Ho|]; [|done]. intros [= <-] Hk Hl. unfold node_work. simpl.
  destruct (last x); simpl; [specialize (Hl eq_refl); lia|]. destruct (_ =? 0); lia.
Qed.

Lemma reset_work x x' out k : join_reset x = Some (x', out) -> node_work k x' = node_work k x - (k - 1).
Proof. unfold join_reset, reset. destruct (last x) eqn:E; [|done]. destruct (reset_loop _ _) as [vs o]. intros [= <- <-]. unfold node_work. simpl. rewrite E. lia. Qed.

Lemma accumulate_work x w v x' k : join_accumulate x w v = Some x' -> node_work k x' = node_work k x + k.
Proof. unfold join_accumulate. destruct (accumulate _ _ _); [|done]. intros [= <-]. unfold node_work. simpl. lia. Qed.

Lemma collects_last x k s : collects x k s -> x.(last) = true -> x.(opped) = 0.
Proof. intros C E. pose proof (c_last _ _ _ C) as Hl. rewrite E in Hl. lia. Qed.

(** Nodes of the bottom collect something. *)
Lemma bottom_collects y R coll sent arr due l x : inv y R coll sent arr due -> y.(bottom) !! l = Some x -> exists k s, collects x k s.
Proof.
  intros I Hx. apply lookup_lt_Some in Hx as Hlt. rewrite <- (v_length _ _ _ _ _ _ I) in Hlt. destruct (lookup_lt_is_Some_2 _ _ Hlt) as [cs Hc].
  pose proof (v_leaf _ _ _ _ _ _ I _ _ _ Hx Hc) as Hok. destruct (decide (l ∈ coll)) as [Hl|Hl].
  - destruct (lf_coll _ _ _ _ _ _ _ _ Hok Hl) as [Hcol _]. by eexists _, _.
  - exists 0, id. destruct Hok as [_ _ _ _ L2 L3 L4]. destruct (decide (l ∈ coll ++ sent ++ arr ++ due)) as [Hin|Hout].
    + rewrite phases_in in Hin. destruct Hin as [Hin|[Hin|Hin]]; [done|by destruct (L2 Hin) as [[? _] _]|by destruct (L3 Hin) as (? & _ & [? _] & _)].
    + by destruct (L4 Hout) as [_ [? _]].
Qed.

Lemma node_work_nonneg x k s n : collects x k s -> 1 <= n -> 0 <= node_work n x.
Proof. intros C Hn. unfold node_work. pose proof (c_opped _ _ _ C). destruct (last x); nia. Qed.

Lemma work_nonneg y R coll sent arr due : inv y R coll sent arr due -> 0 <= work y.
Proof.
  intros I. destruct (v_top _ _ _ _ _ _ I) as (_ & _ & T). unfold work. assert (0 <= fanout y) by (unfold fanout; lia).
  assert (0 <= sum_of (node_work (fanout y + 5)) (bottom y)).
  { apply sum_of_nonneg. intros x [l Hl]%list_elem_of_lookup. destruct (bottom_collects _ _ _ _ _ _ _ _ I Hl) as (k & s & C). eapply node_work_nonneg; [done|lia]. }
  pose proof (node_work_nonneg _ _ _ (fanout y + 2) T ltac:(lia)). assert (0 <= sum_of (msg_work (fanout y)) (flight y)).
  { apply sum_of_nonneg. intros [] _; simpl; lia. }
  lia.
Qed.

Lemma bcasts_work n (ps : list Z) v : sum_of (msg_work n) (map (fun '(a, u) => BCast a u) (trigger ps v)) = Z.of_nat (length (entries ps)).
Proof. unfold trigger. fold (entries ps). induction (entries ps) as [|p l IH]; [done|]. cbn [map sum_of foldr] in *. unfold sum_of in IH. rewrite IH. simpl. lia. Qed.

Lemma work_step y a y' R coll sent arr due : inv y R coll sent arr due -> internal a = true -> tstep y a = Some y' -> work y' < work y.
Proof.
  intros I Hi E. destruct (v_top _ _ _ _ _ _ I) as (T1 & _ & T). assert (Hn : 0 <= fanout y) by (unfold fanout; lia).
  destruct a as [l j w v|k w|l| |l| |k l]; [done|..]; cbn [tstep] in E.
  - destruct (flight y !! k) as [[v|a v]|] eqn:Hk; [|done|done]. destruct (join_accumulate (top y) w v) as [x|] eqn:E1; [|done]. injection E as <-.
    assert (Hf : fanout (with_top y x (delete k (flight y))) = fanout y) by (unfold join_accumulate in E1; destruct (accumulate _ _ _); [by injection E1 as <-|done]).
    unfold work. rewrite Hf. cbn [with_top bottom top flight]. rewrite (accumulate_work _ _ _ _ _ E1), (sum_of_delete _ _ _ _ Hk). simpl. lia.
  - destruct (bottom y !! l) as [x|] eqn:Hx; [|done]. cbn [mbind option_bind] in E. destruct (join_count x) as [x1|] eqn:E1; [|done]. injection E as <-.
    destruct (bottom_collects _ _ _ _ _ _ _ _ I Hx) as (k & s & C). unfold work. change (fanout (with_leaf _ _ _ _)) with (fanout y). cbn [with_leaf bottom top flight].
    rewrite (sum_of_insert _ _ _ _ _ Hx), app_nil_r. pose proof (count_work x x1 (fanout y + 5) E1 ltac:(lia) (collects_last _ _ _ C)). lia.
  - destruct (join_count (top y)) as [x1|] eqn:E1; [|done]. injection E as <-. pose proof (count_work _ _ (fanout y + 2) E1 ltac:(lia) (collects_last _ _ _ T)).
    assert (Hf : fanout (with_top y x1 (flight y)) = fanout y) by (unfold join_count, fetch_sub in E1; destruct (0 <? opped (top y)); [by injection E1 as <-|done]).
    unfold work. rewrite Hf. cbn [with_top bottom top flight]. lia.
  - destruct (bottom y !! l) as [x|] eqn:Hx; [|done]. cbn [mbind option_bind] in E. unfold forward in E. destruct (join_reset x) as [[x1 out]|] eqn:E1; [|done].
    cbn [mbind option_bind] in E. assert (Hp : parent_ (ar x1) = true).
    { apply lookup_lt_Some in Hx as Hlt. rewrite <- (v_length _ _ _ _ _ _ I) in Hlt. destruct (lookup_lt_is_Some_2 _ _ Hlt) as [cs Hc].
      rewrite <- (lf_parent _ _ _ _ _ _ _ _ (v_leaf _ _ _ _ _ _ I _ _ _ Hx Hc)). unfold join_reset in E1. destruct (last x); [|done]. destruct (reset _). by injection E1 as <- _. }
    rewrite Hp in E. injection E as <-. unfold work. change (fanout (with_leaf _ _ _ _)) with (fanout y). cbn [with_leaf bottom top flight].
    rewrite (sum_of_insert _ _ _ _ _ Hx), (reset_work _ _ _ _ E1), sum_of_app. simpl. lia.
  - unfold forward in E. destruct (join_reset (top y)) as [[x1 out]|] eqn:E1; [|done]. cbn [mbind option_bind] in E.
    assert (Hp : parent_ (ar x1) = false /\ continuation_ (ar x1) = continuation_ (ar (top y))).
    { unfold join_reset in E1. destruct (last (top y)); [|done]. destruct (reset _). by injection E1 as <- _. }
    destruct Hp as [Hp1 Hp2]. rewrite Hp1 in E. injection E as <-. unfold work.
    assert (Hf : forall fl, fanout (with_top y x1 fl) = fanout y) by (intros; unfold fanout; simpl; by rewrite Hp2).
    rewrite Hf. cbn [with_top bottom top flight]. rewrite (reset_work _ _ _ _ E1), sum_of_app, bcasts_work, Hp2. unfold fanout in *. lia.
  - destruct (flight y !! k) as [[v|a v]|] eqn:Hk; [done| |done]. destruct (a =? leaf_addr l); [|done]. destruct (bottom y !! l); [|done]. destruct (clients y !! l); [|done].
    injection E as <-. unfold work. change (fanout (mkWorld _ _ _ _)) with (fanout y). cbn [bottom top flight]. rewrite (sum_of_delete _ _ _ _ Hk). simpl. lia.
Qed.

Hypothesis slots_pos : (0 < slots_)%nat.

(** When no internal step is possible, no parcel is in flight, and no join is under way. *)
Lemma stuck_state y R coll sent arr due : inv y R coll sent arr due -> (forall a, internal a = true -> tstep y a = None) ->
  sent = [] /\ due = [] /\ y.(top).(opped) = 0 /\ y.(top).(last) = false
  /\ forall l x, y.(bottom) !! l = Some x -> x.(opped) = 0 /\ x.(last) = false.
Proof.
  intros I Hst. destruct (v_top _ _ _ _ _ _ I) as (T1 & _ & T).
  assert (Hcount : forall x, join_count x = None -> forall k s, collects x k s -> opped x = 0).
  { intros x E k s C. unfold join_count, fetch_sub in E. destruct (Z.ltb_spec 0 (opped x)); [done|]. pose proof (c_opped _ _ _ C). lia. }
  assert (Hlast : forall x, forward x = None -> last x = false).
  { intros x E. unfold forward, join_reset, reset in E. destruct (last x); [|done]. by destruct (reset_loop _ _). }
  assert (Hfl : flight y = []).
  { destruct (flight y) as [|m fl] eqn:Ef; [done|]. exfalso. destruct m as [v|a v].
    - specialize (Hst (LRootJoin 0 0) eq_refl). cbn [tstep] in Hst. rewrite Ef in Hst. cbn [lookup list_lookup] in Hst. unfold join_accumulate, accumulate in Hst.
      destruct (lookup_lt_is_Some_2 (values_ (reduce_ (ar (top y)))) 0 ltac:(rewrite (c_slots _ _ _ T); lia)) as [z Hz]. by rewrite Hz in Hst.
    - pose proof (v_flight _ _ _ _ _ _ I) as Hp. rewrite Ef in Hp. assert (Hin : BCast a v ∈ BCast a v :: fl) by (by left).
      rewrite Hp, elem_of_app, !list_elem_of_fmap in Hin. destruct Hin as [(l & [=] & _)|(l & [= -> ->] & Hl)].
      assert (Hall : l ∈ coll ++ sent ++ arr ++ due) by (rewrite phases_in; tauto). destruct (inv_clients _ _ _ _ _ _ _ I Hall) as (x & cs & Hx & Hc & _).
      specialize (Hst (LBCast 0 l) eq_refl). cbn [tstep] in Hst. rewrite Ef in Hst. cbn [lookup list_lookup] in Hst. by rewrite Z.eqb_refl, Hx, Hc in Hst. }
  pose proof (v_flight _ _ _ _ _ _ I) as Hp. rewrite Hfl in Hp. apply Permutation_length in Hp. rewrite length_app, !length_map in Hp. simpl in Hp.
  split; [destruct sent; [done|simpl in Hp; lia]|]. split; [destruct due; [done|simpl in Hp; lia]|].
  split; [|split].
  - specialize (Hst LRootCount eq_refl). cbn [tstep] in Hst. destruct (join_count (top y)) eqn:E; [done|]. by eapply Hcount.
  - specialize (Hst LRootForward eq_refl). cbn [tstep] in Hst. apply Hlast. by destruct (forward (top y)) as [[? ?]|].
  - intros l x Hx. destruct (bottom_collects _ _ _ _ _ _ _ _ I Hx) as (k & s & C). split.
    + specialize (Hst (LCount l) eq_refl). cbn [tstep] in Hst. rewrite Hx in Hst. cbn [mbind option_bind] in Hst. destruct (join_count x) eqn:E; [done|]. by eapply Hcount.
    + specialize (Hst (LForward l) eq_refl). cbn [tstep] in Hst. rewrite Hx in Hst. cbn [mbind option_bind] in Hst. apply Hlast. by destruct (forward x) as [[? ?]|].
Qed.

(** A leaf that collects, with no join under way, lacks the join of some client. *)
Lemma collecting_lacks R sent arr due coll l x cs : leaf_ok R coll sent arr due l x cs -> l ∈ coll -> cs <> [] -> x.(opped) = 0 -> x.(last) = false ->
  exists c, c ∈ cs /\ length c.(vals) = R.
Proof.
  intros Hok Hl Hne Ho Hla. destruct (lf_coll _ _ _ _ _ _ _ _ Hok Hl) as [[_ _ C3 _ C5] Hf]. rewrite Hla, (lf_n _ _ _ _ _ _ _ _ Hok) in *. rewrite Ho in C3.
  destruct (decide (Exists (fun c => length (vals c) = R) cs)) as [He|He]; [by apply Exists_exists in He as (c & ? & ?); exists c|].
  exfalso. assert (Hall : length (joined R cs) = length cs).
  { apply not_Exists_Forall in He; [|intros c; apply _]. clear - He Hf. induction cs as [|c cs IH]; [done|]. apply Forall_cons in He as [Hc He]. apply Forall_cons in Hf as [Hc' Hf].
    simpl. destruct (lookup_lt_is_Some_2 (vals c) R) as [v Hv]; [destruct Hc' as [_ [|]]; [done|lia]|]. rewrite Hv. simpl. f_equal. by apply IH. }
  destruct cs; [done|]. simpl in *. lia.
Qed.

(** C32: the rounds of a process's allreduce end.  From any state of the tree, only a bounded
    number of steps is possible without a further join; and when no such step is left, and
    every input has joined the same number of rounds, every input has the results of all of
    them: none is lost, and no one waits for ever. *)
Theorem process_allreduce_ends t l y : subscribed t -> trun (begin_rounds t) l = Some y ->
  (forall k y', Forall (fun a => internal a = true) k -> trun y k = Some y' -> Z.of_nat (length k) <= work y)
  /\ ((forall a, internal a = true -> tstep y a = None) ->
      forall K, (forall j cs c, y.(clients) !! j = Some cs -> c ∈ cs -> length c.(vals) = K) ->
      forall j cs c, y.(clients) !! j = Some cs -> c ∈ cs -> length c.(results) = K).
Proof.
  intros Hs E. destruct (run_inv _ _ _ Hs E) as (R & coll & sent & arr & due & I). split.
  - clear - I leaf_addr_inj H. intros k. revert y R coll sent arr due I. induction k as [|a k IH]; intros y R coll sent arr due I y' Hf Er; simpl.
    + by eapply work_nonneg.
    + apply Forall_cons in Hf as [Ha Hf]. cbn [trun] in Er. destruct (tstep y a) as [y1|] eqn:E1; [|done]. cbn [mbind option_bind] in Er.
      destruct (inv_tstep _ _ _ _ _ _ _ _ I E1) as (R1 & c1 & s1 & a1 & d1 & I1). pose proof (work_step _ _ _ _ _ _ _ _ I Ha E1). specialize (IH _ _ _ _ _ _ I1 y' Hf Er). lia.
  - intros Hst K Hvals j cs c Hj Hc. destruct (stuck_state _ _ _ _ _ _ I Hst) as (-> & -> & Ht1 & Ht2 & Hb).
    destruct (inv_leaf _ _ _ _ _ _ _ _ I Hj) as (x & Hx & Hok & Hin). assert (Hne : cs <> []) by (intros ->; by apply elem_of_nil in Hc). specialize (Hin Hne).
    destruct (Hb _ _ Hx) as [Ho Hla]. simpl in Hin. rewrite app_nil_r, elem_of_app in Hin. assert (Hcoll : coll = [] -> False).
    { intros ->. destruct (v_top _ _ _ _ _ _ I) as (_ & T2 & T). pose proof (c_count _ _ _ T) as Hc3. pose proof (c_last _ _ _ T) as Hc5. rewrite Ht2, T2, Ht1 in *.
      simpl in *. rewrite app_nil_r in *. destruct Hin as [Hin|Hin]; [by apply elem_of_nil in Hin|]. destruct arr; [by apply elem_of_nil in Hin|simpl in *; lia]. }
    destruct coll as [|m coll]; [done|]. assert (Hm : m ∈ (m :: coll) ++ [] ++ arr ++ []) by (by left).
    destruct (inv_clients _ _ _ _ _ _ _ I Hm) as (z & ds & Hz & Hd & Ed & Hokm). destruct (Hb _ _ Hz) as [Hoz Hlz].
    assert (Hds : ds <> []) by (rewrite <- Ed; by apply (v_some _ _ _ _ _ _ I)).
    destruct (collecting_lacks _ _ _ _ _ _ _ _ Hokm ltac:(by left) Hds Hoz Hlz) as (d & Hdin & Hdl). rewrite (Hvals _ _ _ Hd Hdin) in Hdl. subst K.
    pose proof (Hvals _ _ _ Hj Hc) as Hcv. pose proof (client_rounds _ _ _ _ _ _ _ _ _ I Hj Hc). destruct Hin as [Hin|Hin].
    + destruct (lf_coll _ _ _ _ _ _ _ _ Hok Hin) as [_ Hf]. rewrite Forall_forall in Hf. by destruct (Hf c Hc).
    + destruct (lf_wait _ _ _ _ _ _ _ _ Hok Hin) as [_ Hf]. rewrite Forall_forall in Hf. destruct (Hf c Hc). lia.
Qed.
End Tree.

(** ** Two localities *)

Definition ztree : Type := tree (V := Z).

Definition demo_addr (l : nat) : Z := Z.of_nat l + 1.

Definition demo_owner (a : Z) : Z := a - 1.

Definition demo_new : ztree := allreduce_new 0 2 2.

Definition demo_join (t : option ztree) (l : nat) (c : Z) : option ztree := t ← t; '(t, _) ← subscribe demo_addr 2 demo_owner t l c; Some t.

(** Three inputs of locality 0, of which the first withdraws, and one of locality 1. *)
Definition demo_tree : option ztree :=
  t ← demo_join (demo_join (demo_join (demo_join (Some demo_new) 0 101) 0 102) 1 201) 0 103;
  unsubscribe t 0 0.

Definition no_tree : ztree := mkTree (Allreduce_new 0 2 false) [].

Definition demo_t : ztree := default no_tree demo_tree.

Lemma demo_join_subscribed t l c t' : subscribed 0 2 demo_addr 2 demo_owner t -> c <> 0 -> demo_join (Some t) l c = Some t' -> subscribed 0 2 demo_addr 2 demo_owner t'.
Proof.
  intros Hs Hc E. unfold demo_join in E. cbn [mbind option_bind] in E. destruct (subscribe demo_addr 2 demo_owner t l c) as [[t1 i]|] eqn:E1; [|done]. injection E as <-.
  by eapply subscribed_add.
Qed.

Lemma demo_subscribed : subscribed 0 2 demo_addr 2 demo_owner demo_t.
Proof.
  assert (E : demo_tree = Some demo_t) by (by vm_compute). revert E. generalize demo_t as t. intros t E. unfold demo_tree in E.
  assert (H : forall o l c, c <> 0 -> (forall t, o = Some t -> subscribed 0 2 demo_addr 2 demo_owner t) -> forall t, demo_join o l c = Some t -> subscribed 0 2 demo_addr 2 demo_owner t).
  { intros [t0|] l c Hc Ho t1 E1; [|done]. by apply (demo_join_subscribed t0 l c); [apply Ho|..]. }
  destruct (demo_join _ 0 103) as [t1|] eqn:E1; [|done]. cbn [mbind option_bind] in E. eapply subscribed_remove; [|exact E].
  revert E1. apply H; [done|]. apply H; [done|]. apply H; [done|]. apply H; [done|]. intros t2 [= <-]. apply subscribed_new.
Qed.

Lemma demo_addr_inj k l : demo_addr k = demo_addr l -> k = l.
Proof. unfold demo_addr. lia. Qed.

Lemma demo_addr_nonzero l : demo_addr l <> 0.
Proof. unfold demo_addr. lia. Qed.

Lemma process_allreduce_members_witness : exists L, entries demo_t.(root).(continuation_) ≡ₚ map demo_addr L /\ demo_t.(root).(reduce_).(i_) = Z.of_nat (length L).
Proof.
  destruct (process_allreduce_members 0 2 demo_addr 2 demo_owner demo_addr_inj demo_addr_nonzero demo_t demo_subscribed) as (L & _ & _ & H1 & H2 & _).
  exists L. split; [exact H1|exact H2].
Defined.

(** A withdrawal does not take the rank out of the context: when a locality has subscribed
    again as often as there are localities, the next subscription writes past its end. *)
Lemma resubscribe_overflows :
  let again (o : option ztree) := t ← demo_join o 1 201; unsubscribe t 1 0 in
  is_Some (again (again (Some demo_new))) /\ demo_join (again (again (Some demo_new))) 0 101 = None.
Proof. split; [|by vm_compute]. eexists. vm_compute. reflexivity. Qed.

(** A round: 1 and 2 at locality 0, on the same worker, and 3 at locality 1; a client of
    locality 0 is in the next round before locality 1 has the result. *)
Definition demo_labels : list (label (V := Z)) :=
  [LJoin 0 0 1 1; LJoin 1 0 0 3; LCount 1; LForward 1; LJoin 0 1 1 2; LCount 0; LRootJoin 0 0; LCount 0; LForward 0; LRootCount; LRootJoin 0 1;
   LRootCount; LRootForward; LBCast 0 0; LJoin 0 1 0 7].

Definition no_world : world (V := Z) := mkWorld (mkNode (Allreduce_new 0 2 false) 0 false) [] [] [].

Definition demo_y : world := default no_world (trun 0 Z.add demo_addr (begin_rounds demo_t) demo_labels).

Lemma demo_y_ok : trun 0 Z.add demo_addr (begin_rounds demo_t) demo_labels = Some demo_y.
Proof. by vm_compute. Qed.

Lemma process_allreduce_rounds_witness : demo_y.(clients) = [[mkClient [1] [6]; mkClient [2; 7] [6]]; [mkClient [3] []]]
  /\ 6 = total 0 Z.add 0 demo_y.(clients).
Proof.
  split; [by vm_compute|]. assert (Hc : clients demo_y !! 0%nat = Some [mkClient [1] [6]; mkClient [2; 7] [6]]) by (by vm_compute).
  destruct (process_allreduce_rounds 0 Z.add 2 demo_addr 2 demo_owner demo_addr_inj demo_addr_nonzero demo_t demo_labels demo_y demo_subscribed demo_y_ok
    0%nat _ (mkClient [1] [6]) Hc ltac:(by left)) as [_ H]. by apply (H 0%nat 6).
Defined.

(** The rest of the first round. *)
Definition demo_end : world := default no_world (trun 0 Z.add demo_addr (begin_rounds demo_t) (take 14 demo_labels ++ [LBCast 0 1])).

Lemma demo_end_ok : trun 0 Z.add demo_addr (begin_rounds demo_t) (take 14 demo_labels ++ [LBCast 0 1]) = Some demo_end.
Proof. by vm_compute. Qed.

Lemma process_allreduce_ends_witness : (forall k y', Forall (fun a => internal a = true) k -> trun 0 Z.add demo_addr demo_y k = Some y' -> Z.of_nat (length k) <= work demo_y)
  /\ map (map results) demo_end.(clients) = [[[6]; [6]]; [[6]]].
Proof.
  split; [apply (process_allreduce_ends 0 Z.add 2 demo_addr 2 demo_owner demo_addr_inj demo_addr_nonzero ltac:(lia) demo_t demo_labels demo_y demo_subscribed demo_y_ok)|].
  by vm_compute.
Defined.
