(* ===== verification/Credit.v ===== *)
(** * Process termination by credit recovery

    process/Bitmap.h, process/Bitmap.cpp and the handlers of process/process.cpp: a process
    gives each call credit out of its own, a parcel shares its credit with the parcels it
    sends (parcel_prepare), hands it to its continuation or returns it when it is done,
    and the process has terminated when what was returned is all that was given out.
    Credit [c] stands for the fraction 2^-c.  The handlers that collect credit run in
    parallel; their steps are their accesses to the shared words. *)

From S2P Require Import Prelude Parcel.

(** ** The bitmap of returned credit *)

Definition HPX_PAGE_SIZE : Z := 4096.
Definition sizeof_Word : Z := 8.
Definition Pages : Z := HPX_PAGE_SIZE / 8.
Definition Words : Z := HPX_PAGE_SIZE / sizeof_Word.
Definition Bits : Z := sizeof_Word * 8.

(** The pages that have been allocated, with their words. *)
Abbreviation bitmap := (gmap Z (list Z)).

Definition Bitmap_new : bitmap := {[0 := replicate (Z.to_nat Words) 0]}.

Definition getPage (b : bitmap) (page : Z) : list Z := default (replicate (Z.to_nat Words) 0) (b !! page).

(** ** Returning credit *)

(** Where a handler is: about to add to a word, to read the base word, to read the
    process' credit and test, or to exchange it. *)
Inductive handler :=
| Add (page word mask : Z)
| Load
| Test (debt : Z)
| Cas (debt credit : Z)
| Finished.

(** Page::addBit(offset). *)
Definition add_offset (page offset : Z) : handler :=
  Add page (offset / sizeof_Word) (Z.shiftl 1 ((Bits - 1) - offset mod sizeof_Word)).

Definition addAndTest (i : Z) : handler := add_offset ((i - 1) / Pages) ((i - 1) mod Pages).

Record process := mkProcess {
  p_credit : Z;
  debt : bitmap;
  terminated : nat;        (* how often the termination LCO was set *)
}.

Definition process_init : process := mkProcess 0 Bitmap_new 0.

(** One step of Page::addBit(word, bit) and, when a page is exhausted, Bitmap::addBit. *)
Definition add_step (b : bitmap) (page word mask : Z) : option (bitmap * handler) :=
  if page <? Pages then
    let words := getPage b page in
    old ← words !! Z.to_nat word;
    let b := <[page := <[Z.to_nat word := u64 (old + mask)]> words]> b in
    Some (b, if u64 (old + mask) >? mask then
               if word =? 0 then
                 if nz page then add_offset (page - 1) (Words * sizeof_Word) else Load
               else Add page (word - 1) 1
             else Load)
  else None.

Definition baseWord (b : bitmap) : option Z := getPage b 0 !! 0%nat.

(** A shift by 64 or more is undefined in C; the machine takes the count modulo 64. *)
Definition shift1 (n : Z) : Z := Z.shiftl 1 (u64 n mod 64).

Definition quiescent (credit debt : Z) : bool :=
  nz credit && (u64 (Z.lnot (Z.lor debt (u64 (shift1 (64 - credit) - 1)))) =? 0).

(** [spurious]: the weak exchange fails although the value is the expected one. *)
Definition handler_step (p : process) (x : handler) (spurious : bool) : option (process * handler) :=
  match x with
  | Add page word mask =>
    '(b, x) ← add_step p.(debt) page word mask;
    Some (mkProcess p.(p_credit) b p.(terminated), x)
  | Load => d ← baseWord p.(debt); Some (p, Test d)
  | Test d => Some (p, if quiescent p.(p_credit) d then Cas d p.(p_credit) else Finished)
  | Cas d c =>
    if (p.(p_credit) =? c) && negb spurious
    then Some (mkProcess (u64 (0 - c)) p.(debt) (S p.(terminated)), Finished)
    else Some (p, Test d)
  | Finished => None
  end.

(** ** The process' parcels *)

Record system := mkSystem {
  proc : process;
  parcels : list hpx_parcel;    (* the parcels of the process that have not finished *)
  returning : list Z;           (* credit on its way back *)
  handlers : list handler;
}.

Inductive action_of_process :=
| Call (x : hpx_parcel)                (* _proc_call: a call from outside *)
| Spawn (i : nat) (x : hpx_parcel)     (* a parcel of the process sends another *)
| Finish (i : nat) (x : hpx_parcel)    (* a parcel is done; [x] is its continuation *)
| Receive (i : nat)                    (* returned credit arrives *)
| Handle (i : nat) (spurious : bool).

Section System.
Variable pid_ : Z.

Definition with_pid (x : hpx_parcel) : hpx_parcel :=
  mkParcel x.(thread) x.(next) x.(src) x.(size) x.(state) x.(offset) x.(action) x.(c_action)
    x.(target) x.(c_target) pid_ x.(credit).

(** _proc_call_handler *)
Definition proc_call (y : system) (x : hpx_parcel) : system :=
  let p := y.(proc) in
  let c := u64 (p.(p_credit) + 1) in
  mkSystem (mkProcess c p.(debt) p.(terminated)) (y.(parcels) ++ [with_credit (with_pid x) c])
    y.(returning) y.(handlers).

(** process_recover_credit *)
Definition recover_credit (x : hpx_parcel) : list Z :=
  if (x.(pid) =? 0) || (x.(credit) =? 0) then [] else [x.(credit)].

(** Thread::invokeContinue, once: the continuation [k] takes the credit of [x], and gets
    its own pid from it. *)
Definition invoke_continue (x k : hpx_parcel) : list hpx_parcel * list Z :=
  if nz x.(c_action) && nz x.(c_target) then ([with_credit (with_pid k) x.(credit)], [])
  else ([], recover_credit x).

Definition system_step (y : system) (a : action_of_process) : option system :=
  match a with
  | Call x => Some (proc_call y x)
  | Spawn i x =>
    parent ← y.(parcels) !! i;
    let x := with_credit (with_pid x) 0 in
    Some (mkSystem y.(proc) (<[i := charged x parent]> y.(parcels) ++ [prepared x parent])
            y.(returning) y.(handlers))
  | Finish i k =>
    x ← y.(parcels) !! i;
    let '(ks, cs) := invoke_continue x k in
    Some (mkSystem y.(proc) (delete i y.(parcels) ++ ks) (y.(returning) ++ cs) y.(handlers))
  | Receive i =>
    c ← y.(returning) !! i;
    Some (mkSystem y.(proc) y.(parcels) (delete i y.(returning)) (y.(handlers) ++ [addAndTest c]))
  | Handle i spurious =>
    x ← y.(handlers) !! i;
    '(p, x) ← handler_step y.(proc) x spurious;
    Some (mkSystem p y.(parcels) y.(returning) (<[i := x]> y.(handlers)))
  end.

Fixpoint system_run (y : system) (ls : list action_of_process) : option system :=
  match ls with
  | [] => Some y
  | a :: ls => y ← system_step y a; system_run y ls
  end.

Definition system_start : system := mkSystem process_init [] [] [].
End System.

(** ** Credit as binary fractions of 2^64 *)

Definition weight (c : Z) : Z := 2 ^ (64 - c).
Definition pending (x : handler) : Z := match x with Add _ _ mask => mask | _ => 0 end.

(** What has been given out after [k] calls. *)
Definition full (k : Z) : Z := 2 ^ 64 - 2 ^ (64 - k).

(** The credits that the first word of the bitmap keeps. *)
Definition small (c : Z) : Prop := 1 <= c <= 8.

Lemma small_cases (P : Z -> Prop) c : P 1 -> P 2 -> P 3 -> P 4 -> P 5 -> P 6 -> P 7 -> P 8 -> small c -> P c.
Proof.
  unfold small. intros. assert (c = 1 \/ c = 2 \/ c = 3 \/ c = 4 \/ c = 5 \/ c = 6 \/ c = 7 \/ c = 8) as H' by lia.
  by destruct H' as [->|[->|[->|[->|[->|[->|[->| ->]]]]]]].
Qed.

Lemma addAndTest_small c : small c -> addAndTest c = Add 0 0 (weight c).
Proof. intros Hc. pattern c. by apply small_cases. Qed.

Lemma divide_pow n : 56 <= n -> (2 ^ 56 | 2 ^ n).
Proof. intros. exists (2 ^ (n - 56)). rewrite <- Z.pow_add_r by lia. f_equal. lia. Qed.

Lemma weight_small c : small c -> 2 ^ 56 <= weight c /\ (2 ^ 56 | weight c).
Proof.
  unfold small, weight. intros. split; [apply Z.pow_le_mono_r; lia|]. apply divide_pow. lia.
Qed.

Lemma weight_half c : small c -> c < 8 -> weight c = weight (c + 1) + weight (c + 1).
Proof. unfold small, weight. intros. replace (64 - c) with (Z.succ (64 - (c + 1))) by lia. rewrite Z.pow_succ_r; lia. Qed.

Lemma full_succ k : 0 <= k <= 8 -> full (k + 1) = full k + weight (k + 1).
Proof.
  unfold full, weight. intros. replace (64 - k) with (Z.succ (64 - (k + 1))) by lia. rewrite Z.pow_succ_r; lia.
Qed.

Lemma full_lt k j : 0 <= k -> k < j <= 64 -> full k < full j.
Proof. unfold full. intros. assert (2 ^ (64 - j) < 2 ^ (64 - k)) by (apply Z.pow_lt_mono_r; lia). lia. Qed.

Lemma full_range k : 0 <= k <= 8 -> 0 <= full k < 2 ^ 64 /\ (2 ^ 56 | full k).
Proof.
  intros Hk. unfold full. assert (0 < 2 ^ (64 - k) <= 2 ^ 64).
  { split; [apply Z.pow_pos_nonneg; lia|apply Z.pow_le_mono_r; lia]. }
  split; [lia|]. apply Z.divide_sub_r; apply divide_pow; lia.
Qed.

Lemma lor_ones_low d n : 0 <= d -> 0 <= n -> Z.lor d (Z.ones n) = d / 2 ^ n * 2 ^ n + (2 ^ n - 1).
Proof.
  intros Hd Hn. rewrite <- lor_shiftl_add by lia. rewrite <- Z.shiftr_div_pow2 by done.
  rewrite Z.sub_1_r, <- Z.ones_equiv.
  apply Z.bits_inj'; intros i Hi. rewrite !Z.lor_spec, Z.shiftl_spec, testbit_ones by done.
  destruct (Z.lt_ge_cases i n).
  - rewrite (proj2 (Z.leb_le 0 i)), (proj2 (Z.ltb_lt i n)), !orb_true_r by lia. done.
  - rewrite Z.shiftr_spec by lia. do 2 f_equal. lia.
Qed.

Lemma quiescent_iff k d : small k -> 0 <= d < 2 ^ 64 -> quiescent k d = true <-> full k <= d.
Proof.
  intros Hk Hd. unfold quiescent, nz, shift1, small in *.
  rewrite (proj2 (Z.eqb_neq k 0)) by lia. simpl. rewrite (wrap_small 64 (64 - k)), Z.mod_small by lia.
  assert (Hp : 1 <= 2 ^ (64 - k) < 2 ^ 64).
  { split; [assert (0 < 2 ^ (64 - k)) by (apply Z.pow_pos_nonneg; lia); lia|]. apply Z.pow_lt_mono_r; lia. }
  rewrite Z.shiftl_1_l, (wrap_small 64 (2 ^ (64 - k) - 1)) by lia.
  replace (2 ^ (64 - k) - 1) with (Z.ones (64 - k)) by (rewrite Z.ones_equiv; lia).
  rewrite lor_ones_low by lia. set (q := d / 2 ^ (64 - k)).
  assert (Hpow : 2 ^ 64 = 2 ^ k * 2 ^ (64 - k)) by (rewrite <- Z.pow_add_r by lia; f_equal; lia).
  assert (Hq : 0 <= q < 2 ^ k).
  { split; [apply Z.div_pos; lia|]. apply Z.div_lt_upper_bound; lia. }
  set (P := 2 ^ (64 - k)) in *.
  assert (Hz : q * P <= (2 ^ k - 1) * P) by (apply Z.mul_le_mono_nonneg_r; lia).
  assert (Hq0 : 0 <= q * P) by (apply Z.mul_nonneg_nonneg; lia).
  set (z := q * P + (P - 1)) in *. unfold Z.lnot, wrap.
  replace (Z.pred (- z)) with (2 ^ 64 - 1 - z + (-1) * 2 ^ 64) by lia.
  rewrite Z_mod_plus_full, Z.mod_small, Z.eqb_eq by lia.
  pose proof (Z.div_mod d P ltac:(lia)) as Hdm. pose proof (Z.mod_pos_bound d P ltac:(lia)). fold q in Hdm.
  unfold full. fold P. split; intros; [lia|].
  destruct (Z.eq_dec q (2 ^ k - 1)) as [E|E]; [unfold z; rewrite E; lia|].
  assert (q * P <= (2 ^ k - 2) * P) by (apply Z.mul_le_mono_nonneg_r; lia). lia.
Qed.

(** After termination the credit is negative, and no test succeeds. *)
Lemma quiescent_after k d : small k -> 0 <= d < 2 ^ 64 -> (2 ^ 56 | d) -> quiescent (2 ^ 64 - k) d = false.
Proof.
  intros Hk Hd [q ->]. unfold quiescent. apply andb_false_iff. right. apply Z.eqb_neq. intros Hz.
  assert (Hbit : Z.testbit (u64 (Z.lnot (Z.lor (q * 2 ^ 56) (u64 (shift1 (64 - (2 ^ 64 - k)) - 1))))) 10 = false)
    by by rewrite Hz, Z.testbit_0_l.
  rewrite testbit_wrap, Z.lnot_spec, Z.lor_spec, Z.mul_pow2_bits_low in Hbit by lia.
  pattern k in Hbit. revert Hbit. pattern k. by apply small_cases; vm_compute.
Qed.

(** ** The invariant *)

Section Invariant.
Variable pid_ : Z.
Hypothesis pid_nonzero : pid_ <> 0.

(** [D] is the credit that has been collected, [k] the number of calls. *)
Definition handler_ok (D : Z) (x : handler) : Prop :=
  match x with
  | Add page word mask => page = 0 /\ word = 0 /\ exists c, small c /\ mask = weight c
  | Load | Finished => True
  | Test d => 0 <= d <= D /\ (2 ^ 56 | d)
  | Cas d c => small c /\ d = full c /\ d <= D
  end.

Definition outstanding_credit (y : system) : Z :=
  sum_of (fun x => weight x.(credit)) y.(parcels) + sum_of weight y.(returning) + sum_of pending y.(handlers).

(** A handler that will see all the credit collected. *)
Definition will_detect (D k : Z) (x : handler) : Prop := x = Load \/ x = Test D \/ x = Cas D k.

Record credit_inv (y : system) (D k : Z) : Prop := {
  inv_calls : 0 <= k <= 8;
  inv_word : exists rest, getPage y.(proc).(debt) 0 = D :: rest;
  inv_collected : 0 <= D /\ (2 ^ 56 | D);
  inv_balance : outstanding_credit y + D = full k;
  inv_parcels x : x ∈ y.(parcels) -> small x.(credit) /\ x.(pid) = pid_;
  inv_returning c : c ∈ y.(returning) -> small c;
  inv_handlers x : x ∈ y.(handlers) -> handler_ok D x;
  inv_state : (y.(proc).(terminated) = 0%nat /\ y.(proc).(p_credit) = k
               /\ (0 < k -> D = full k -> exists x, x ∈ y.(handlers) /\ will_detect D k x))
    \/ (y.(proc).(terminated) = 1%nat /\ y.(proc).(p_credit) = 2 ^ 64 - k /\ 0 < k /\ D = full k);
}.

Lemma credit_pending_nonneg D x : handler_ok D x -> 0 <= pending x.
Proof.
  destruct x; simpl; try lia. intros (_ & _ & c & Hc & ->). pose proof (weight_small c Hc). lia.
Qed.

Lemma outstanding_parts y D k : credit_inv y D k ->
  0 <= sum_of (fun x => weight x.(credit)) y.(parcels) /\ 0 <= sum_of weight y.(returning)
  /\ 0 <= sum_of pending y.(handlers).
Proof.
  intros I. split; [|split]; apply sum_of_nonneg; intros x Hx.
  - destruct (inv_parcels _ _ _ I x Hx) as [Hc _]. pose proof (weight_small _ Hc). lia.
  - pose proof (weight_small _ (inv_returning _ _ _ I x Hx)). lia.
  - by eapply credit_pending_nonneg, inv_handlers.
Qed.

Lemma collected_bound y D k : credit_inv y D k -> D <= full k < 2 ^ 64.
Proof.
  intros I. pose proof (outstanding_parts _ _ _ I). pose proof (inv_balance _ _ _ I) as Hb.
  pose proof (full_range k (inv_calls _ _ _ I)). unfold outstanding_credit in Hb. lia.
Qed.

(** All the credit has been collected exactly when nothing of the process is left. *)
Definition quiet (y : system) : Prop :=
  y.(parcels) = [] /\ y.(returning) = [] /\ forall x, x ∈ y.(handlers) -> pending x = 0.

Lemma collected_quiet y D k : credit_inv y D k -> D = full k <-> quiet y.
Proof.
  intros I. pose proof (outstanding_parts _ _ _ I) as (H1 & H2 & H3). pose proof (inv_balance _ _ _ I) as Hb.
  unfold outstanding_credit in Hb. split.
  - intros E. assert (S1 : sum_of (fun x => weight x.(credit)) y.(parcels) = 0) by lia.
    assert (S2 : sum_of weight y.(returning) = 0) by lia. split; [|split].
    + apply sum_of_zero in S1; [done|]. intros x Hx. destruct (inv_parcels _ _ _ I x Hx) as [Hc _].
      pose proof (weight_small _ Hc). lia.
    + apply sum_of_zero in S2; [done|]. intros c Hc. pose proof (weight_small _ (inv_returning _ _ _ I c Hc)). lia.
    + intros x Hx. pose proof (sum_of_elem pending y.(handlers) x) as He.
      assert (0 <= pending x) by by eapply credit_pending_nonneg, inv_handlers.
      assert (pending x <= sum_of pending (handlers y)); [|lia]. apply He; [|done].
      intros z Hz. by eapply credit_pending_nonneg, inv_handlers.
  - intros (E1 & E2 & E3). rewrite E1, E2 in Hb. simpl in Hb.
    assert (sum_of pending y.(handlers) = 0); [|lia]. clear -E3. induction (handlers y) as [|x l IH]; [done|]. simpl.
    rewrite (E3 x) by left. rewrite IH; [done|]. intros z Hz. apply E3. by right.
Qed.

Lemma handler_ok_mono D D' x : D <= D' -> handler_ok D x -> handler_ok D' x.
Proof. destruct x; simpl; intuition lia. Qed.

Lemma start_credit_inv : credit_inv system_start 0 0.
Proof.
  split; simpl; try done; try (by intros ? ?%not_elem_of_nil).
  - by eexists.
  - split; [lia|]. by exists 0.
  - left. split; [done|]. split; [done|]. lia.
Qed.

Definition legal (y : system) (a : action_of_process) : Prop :=
  match a with
  | Call _ => y.(proc).(terminated) = 0%nat /\ y.(proc).(p_credit) < 8
  | Spawn i _ => exists x, y.(parcels) !! i = Some x /\ x.(credit) < 8
  | _ => True
  end.

Lemma call_inv y D k x : credit_inv y D k -> legal y (Call x) -> credit_inv (proc_call pid_ y x) D (k + 1).
Proof.
  intros I [Ht Hk]. pose proof (collected_bound _ _ _ I) as HD. destruct I as [I1 I2 I3 I4 I5 I6 I7 I8].
  destruct I8 as [(_ & Ec & _)|(Ht' & _)]; [|congruence]. rewrite Ec in Hk.
  assert (Hc : u64 (k + 1) = k + 1) by (apply wrap_small; lia).
  assert (Hlt : full k < full (k + 1)) by (apply full_lt; lia).
  split; simpl; try done; try lia.
  - unfold outstanding_credit in *; simpl. rewrite sum_of_app, full_succ by lia. simpl.
    rewrite Ec, Hc. unfold with_credit; simpl. rewrite Hc. lia.
  - intros z [Hz|Hz%list_elem_of_singleton]%elem_of_app; [by apply I5|]. subst z. simpl. rewrite Ec, Hc, Hc.
    unfold small. split; [lia|done].
  - left. rewrite Ec. split; [done|]. split; [done|]. lia.
Qed.

Lemma spawn_inv y D k i x y' : credit_inv y D k -> legal y (Spawn i x) ->
  system_step pid_ y (Spawn i x) = Some y' -> credit_inv y' D k.
Proof.
  intros [I1 I2 I3 I4 I5 I6 I7 I8] (c & Hi & Hc). simpl. rewrite Hi; cbn [mbind option_bind]. intros [= <-].
  set (z := with_credit (with_pid pid_ x) 0).
  assert (Hin : c ∈ parcels y) by by eapply list_elem_of_lookup_2.
  destruct (I5 c Hin) as [Hs Hp]. assert (Hw : u64 (credit c + 1) = credit c + 1) by (apply wrap_small; unfold small in Hs; lia).
  assert (Ht : takes_credit z = true).
  { unfold takes_credit, z; simpl. unfold nz. by rewrite (proj2 (Z.eqb_neq pid_ 0)). }
  assert (E1 : credit (charged z c) = credit c + 1 /\ pid (charged z c) = pid_).
  { unfold charged. rewrite Ht. simpl. by rewrite Hw. }
  assert (E2 : credit (prepared z c) = credit c + 1 /\ pid (prepared z c) = pid_).
  { unfold prepared. rewrite Ht. simpl. rewrite Hw. split; [done|]. unfold serialize. by destruct (unserialized z). }
  split; simpl; try done.
  - unfold outstanding_credit in *; simpl. rewrite sum_of_app, (sum_of_insert _ _ _ c) by done. simpl.
    rewrite (proj1 E1), (proj1 E2). rewrite (weight_half (credit c)) by done. lia.
  - intros w [[->|Hw']%elem_of_insert|Hw'%list_elem_of_singleton]%elem_of_app; [|by apply I5|subst w].
    + rewrite (proj1 E1), (proj2 E1). unfold small in *. split; [lia|done].
    + rewrite (proj1 E2), (proj2 E2). unfold small in *. split; [lia|done].
Qed.

Lemma finish_inv y D k i x y' : credit_inv y D k ->
  system_step pid_ y (Finish i x) = Some y' -> credit_inv y' D k.
Proof.
  intros [I1 I2 I3 I4 I5 I6 I7 I8]. simpl. destruct (parcels y !! i) as [c|] eqn:Hi; [|done]; cbn [mbind option_bind].
  assert (Hin : c ∈ parcels y) by by eapply list_elem_of_lookup_2. destruct (I5 c Hin) as [Hs Hp].
  assert (Hw : u64 (credit c) = credit c) by (apply wrap_small; unfold small in Hs; lia).
  unfold invoke_continue. destruct (nz (c_action c) && nz (c_target c)); intros [= <-].
  - split; simpl; try done.
    + unfold outstanding_credit in *; simpl. rewrite sum_of_app, (sum_of_delete _ _ _ c) by done. simpl.
      rewrite Hw, app_nil_r. lia.
    + intros z [Hz%elem_of_delete|Hz%list_elem_of_singleton]%elem_of_app; [by apply I5|]. subst z. simpl. by rewrite Hw.
    + by rewrite app_nil_r.
  - unfold recover_credit. rewrite Hp, (proj2 (Z.eqb_neq pid_ 0)), (proj2 (Z.eqb_neq (credit c) 0)) by (done || unfold small in Hs; lia).
    simpl. split; simpl; try done.
    + unfold outstanding_credit in *; simpl. rewrite !sum_of_app, (sum_of_delete _ _ _ c) by done. simpl. lia.
    + rewrite app_nil_r. intros z Hz%elem_of_delete. by apply I5.
    + intros z [Hz|Hz%list_elem_of_singleton]%elem_of_app; [by apply I6|by subst].
Qed.

Lemma receive_inv y D k i y' : credit_inv y D k ->
  system_step pid_ y (Receive i) = Some y' -> credit_inv y' D k.
Proof.
  intros [I1 I2 I3 I4 I5 I6 I7 I8]. simpl. destruct (returning y !! i) as [c|] eqn:Hi; [|done]; cbn [mbind option_bind].
  intros [= <-]. assert (Hs : small c) by (apply I6; by eapply list_elem_of_lookup_2).
  rewrite (addAndTest_small c Hs). split; simpl; try done.
  - unfold outstanding_credit in *; simpl. rewrite sum_of_app, (sum_of_delete _ _ _ c) by done. simpl. lia.
  - intros z Hz%elem_of_delete. by apply I6.
  - intros z [Hz|Hz%list_elem_of_singleton]%elem_of_app; [by apply I7|]. subst z. simpl. eauto.
  - destruct I8 as [(?&?&Hd)|?]; [left|by right]. split; [done|]. split; [done|]. intros Hk HD.
    destruct (Hd Hk HD) as (z & Hz & Hwd). exists z. split; [|done]. rewrite elem_of_app. by left.
Qed.

Lemma detect_update D k (l : list handler) (i : nat) x x' : l !! i = Some x -> (will_detect D k x -> will_detect D k x') ->
  (exists z, z ∈ l /\ will_detect D k z) -> exists z, z ∈ <[i := x']> l /\ will_detect D k z.
Proof.
  intros Hi Hx (z & [j Hj]%list_elem_of_lookup & Hz). destruct (decide (i = j)) as [->|Hne].
  - exists x'. split; [|apply Hx; congruence]. apply list_elem_of_lookup. exists j.
    apply list_lookup_insert_eq. by eapply lookup_lt_Some.
  - exists z. split; [|done]. apply list_elem_of_lookup. exists j. by rewrite list_lookup_insert_ne.
Qed.

(** A step of a handler that leaves the words and the credit alone. *)
Lemma handler_moves y D k i x x' : credit_inv y D k -> y.(handlers) !! i = Some x ->
  pending x = 0 -> pending x' = 0 -> handler_ok D x' ->
  (y.(proc).(terminated) = 0%nat -> 0 < k -> D = full k -> will_detect D k x -> will_detect D k x') ->
  credit_inv (mkSystem y.(proc) y.(parcels) y.(returning) (<[i := x']> y.(handlers))) D k.
Proof.
  intros [I1 I2 I3 I4 I5 I6 I7 I8] Hi Hx Hx' Hok Hd. split; simpl; try done.
  - unfold outstanding_credit in *; simpl. rewrite (sum_of_insert _ _ _ x) by done. lia.
  - intros z [->|Hz]%elem_of_insert; [done|by apply I7].
  - destruct I8 as [(Ht & Ec & Hdet)|?]; [left|by right]. split; [done|]. split; [done|]. intros Hk HD.
    by apply (detect_update D k _ i x); [done|auto|auto].
Qed.

Lemma add_step_small b D rest c : getPage b 0 = D :: rest -> small c -> 0 <= D -> D + weight c < 2 ^ 64 ->
  add_step b 0 0 (weight c) = Some (<[0 := (D + weight c) :: rest]> b, Load).
Proof.
  intros Hb Hc HD Hlt. pose proof (weight_small c Hc). unfold add_step. rewrite Hb. simpl.
  rewrite (wrap_small 64) by lia. by destruct (_ >? _).
Qed.

(** Collecting credit. *)
Lemma collect_inv y D k i c b y' : credit_inv y D k -> y.(handlers) !! i = Some (Add 0 0 (weight c)) -> small c ->
  system_step pid_ y (Handle i b) = Some y' -> credit_inv y' (D + weight c) k.
Proof.
  intros I Hi Hc. pose proof (outstanding_parts _ _ _ I) as (P1 & P2 & P3).
  pose proof (full_range k (inv_calls _ _ _ I)) as [Hf _]. pose proof (weight_small c Hc) as [Hw1 Hw2].
  assert (Hin : Add 0 0 (weight c) ∈ handlers y) by by eapply list_elem_of_lookup_2.
  assert (Hle : weight c <= sum_of pending (handlers y)).
  { apply (sum_of_elem pending _ (Add 0 0 (weight c))); [|done]. intros z Hz. by eapply credit_pending_nonneg, inv_handlers. }
  assert (Hnq : D <> full k).
  { intros E. apply (collected_quiet _ _ _ I) in E as (_ & _ & E). specialize (E _ Hin). simpl in E. lia. }
  destruct I as [I1 [rest I2] [I3 I3'] I4 I5 I6 I7 I8]. unfold outstanding_credit in I4.
  unfold system_step. rewrite Hi; cbn [mbind option_bind handler_step].
  rewrite (add_step_small _ D rest) by (done || lia). cbn [mbind option_bind]. intros [= <-].
  split; simpl; try done; try lia.
  - exists rest. unfold getPage. by rewrite lookup_insert_eq.
  - split; [lia|]. by apply Z.divide_add_r.
  - unfold outstanding_credit; simpl. rewrite (sum_of_insert _ _ _ (Add 0 0 (weight c))) by done. simpl. lia.
  - intros z [->|Hz]%elem_of_insert; [done|]. apply (handler_ok_mono D); [lia|]. by apply I7.
  - destruct I8 as [(Ht & Ec & _)|(_ & _ & _ & E)]; [left|done]. split; [done|]. split; [done|]. intros _ _.
    exists Load. split; [|by left]. apply list_elem_of_lookup. exists i. apply list_lookup_insert_eq. by eapply lookup_lt_Some.
Qed.

Lemma test_inv y D k i d b y' : credit_inv y D k -> y.(handlers) !! i = Some (Test d) ->
  system_step pid_ y (Handle i b) = Some y' -> credit_inv y' D k.
Proof.
  intros I Hi. simpl. rewrite Hi; cbn [mbind option_bind handler_step]. intros [= <-].
  destruct (inv_handlers _ _ _ I (Test d)) as [Hd Hdiv]; [by eapply list_elem_of_lookup_2|].
  pose proof (collected_bound _ _ _ I) as HD. pose proof (inv_calls _ _ _ I) as Hk.
  destruct (inv_state _ _ _ I) as [(Ht & Ec & _)|(Ht & Ec & Hk0 & _)]; rewrite Ec.
  - destruct (decide (k = 0)) as [->|Hk0].
    { apply (handler_moves _ _ _ _ (Test d)); try done. }
    pose proof (quiescent_iff k d ltac:(unfold small; lia) ltac:(lia)) as Hq. destruct (quiescent k d) eqn:E.
    + assert (d = D /\ D = full k) as [-> ->] by (destruct Hq as [Hq _]; specialize (Hq eq_refl); lia).
      apply (handler_moves _ _ _ _ (Test (full k))); try done; simpl.
      * unfold small. split; [lia|done].
      * intros _ _ _ _. by right; right.
    + apply (handler_moves _ _ _ _ (Test d)); try done. intros _ _ HDk [?|[[= ->]|?]]; try done.
      destruct Hq as [_ Hq]. assert (false = true) by (apply Hq; lia). done.
  - rewrite quiescent_after by (done || unfold small; lia).
    apply (handler_moves _ _ _ _ (Test d)); try done. congruence.
Qed.

Lemma cas_inv y D k i d c b y' : credit_inv y D k -> y.(handlers) !! i = Some (Cas d c) ->
  system_step pid_ y (Handle i b) = Some y' -> credit_inv y' D k.
Proof.
  intros I Hi. simpl. rewrite Hi; cbn [mbind option_bind handler_step].
  destruct (inv_handlers _ _ _ I (Cas d c)) as (Hc & Hd & HdD); [by eapply list_elem_of_lookup_2|].
  pose proof (collected_bound _ _ _ I) as HD. pose proof (inv_calls _ _ _ I) as Hk. pose proof (full_range c) as Hfc.
  unfold small in Hc. destruct (Z.eqb_spec (p_credit (proc y)) c) as [E|E]; [destruct b|]; simpl; intros [= <-].
  1, 3: apply (handler_moves _ _ _ _ (Cas d c)); try done; simpl; [subst d; split; [lia|apply Hfc; lia]|];
    intros _ _ _ [?|[?|[= -> ->]]]; try done; by right; left.
  destruct I as [I1 I2 I3 I4 I5 I6 I7 I8]. destruct I8 as [(Ht & Ec & _)|(_ & Ec & _)]; [|lia].
  assert (c = k) as -> by lia. split; simpl; try done.
  - unfold outstanding_credit in *; simpl. rewrite (sum_of_insert _ _ _ (Cas d k)) by done. simpl. lia.
  - intros z [->|Hz]%elem_of_insert; [done|by apply I7].
  - right. rewrite Ht. split; [done|]. split; [|lia].
    unfold wrap. rewrite <- (Z_mod_plus_full _ 1), Z.mod_small by lia. lia.
Qed.

Lemma system_step_inv y D k a y' : credit_inv y D k -> legal y a -> system_step pid_ y a = Some y' ->
  exists D' k', credit_inv y' D' k'.
Proof.
  intros I Hl Hs. destruct a as [x|i x|i x|i|i b].
  - injection Hs as <-. eexists _, _. by eapply call_inv.
  - eexists _, _. by eapply spawn_inv.
  - eexists _, _. by eapply finish_inv.
  - eexists _, _. by eapply receive_inv.
  - pose proof Hs as Hs'. simpl in Hs'. destruct (handlers y !! i) as [x|] eqn:Hi; [|done]; cbn [mbind option_bind] in Hs'.
    assert (Hok : handler_ok D x) by (eapply inv_handlers; [done|]; by eapply list_elem_of_lookup_2).
    destruct x as [page word mask| |d|d c|]; [|clear Hok| | |done].
    + destruct Hok as (-> & -> & c & Hc & ->). eexists _, _. by eapply collect_inv.
    + destruct (inv_word _ _ _ I) as [rest Hr]. simpl in Hs'. unfold baseWord in Hs'. rewrite Hr in Hs'; simpl in Hs'.
      injection Hs' as <-. exists D, k. apply (handler_moves _ _ _ _ Load); try done; simpl.
      * split; [|by apply (inv_collected _ _ _ I)]. pose proof (inv_collected _ _ _ I). lia.
      * intros. by right; left.
    + eexists _, _. by eapply test_inv.
    + eexists _, _. by eapply cas_inv.
Qed.

(** A handler that has not finished can always go on. *)
Lemma handler_progress y D k i x b : credit_inv y D k -> y.(handlers) !! i = Some x -> x <> Finished ->
  is_Some (system_step pid_ y (Handle i b)).
Proof.
  intros I Hi Hx. simpl. rewrite Hi; cbn [mbind option_bind]. destruct (inv_word _ _ _ I) as [rest Hr].
  assert (Hok : handler_ok D x) by (eapply inv_handlers; [done|]; by eapply list_elem_of_lookup_2).
  destruct x; simpl; try done.
  - destruct Hok as (-> & -> & _). unfold add_step. rewrite Hr. simpl. by eexists.
  - unfold baseWord. rewrite Hr. simpl. by eexists.
  - by destruct (_ && _); eexists.
Qed.

(** Runs in which the process is called before it terminates, and no credit is split
    more than eight times. *)
Inductive legal_run (y : system) : list action_of_process -> system -> Prop :=
| legal_nil : legal_run y [] y
| legal_cons a y1 ls y' : legal y a -> system_step pid_ y a = Some y1 -> legal_run y1 ls y' ->
    legal_run y (a :: ls) y'.

Lemma legal_run_inv y ls y' : legal_run y ls y' -> forall D k, credit_inv y D k -> exists D' k', credit_inv y' D' k'.
Proof.
  induction 1 as [y|y a y1 ls y' Hl Hs Hr IH]; intros D k I; [eauto|].
  destruct (system_step_inv _ _ _ _ _ I Hl Hs) as (D1 & k1 & I1). by eapply IH.
Qed.

Definition legalb (y : system) (a : action_of_process) : bool :=
  match a with
  | Call _ => (y.(proc).(terminated) =? 0)%nat && (y.(proc).(p_credit) <? 8)
  | Spawn i _ => match y.(parcels) !! i with Some x => x.(credit) <? 8 | None => false end
  | _ => true
  end.

Fixpoint legal_runb (y : system) (ls : list action_of_process) : option system :=
  match ls with
  | [] => Some y
  | a :: ls => if legalb y a then (y ← system_step pid_ y a; legal_runb y ls) else None
  end.

Lemma legal_runb_run ls : forall y y', legal_runb y ls = Some y' -> legal_run y ls y'.
Proof.
  induction ls as [|a ls IH]; intros y y'; simpl; [intros [= ->]; constructor|].
  destruct (legalb y a) eqn:Hl; [|done]. destruct (system_step pid_ y a) as [y1|] eqn:Hs; [|done]. simpl.
  intros Hr. apply legal_cons with y1; [|done|by apply IH]. destruct a as [x|i x| | |]; simpl in *; try done.
  - apply andb_true_iff in Hl as [H1 H2]. split; [by apply Nat.eqb_eq|by apply Z.ltb_lt].
  - destruct (parcels y !! i) as [x'|] eqn:E; [|done]. exists x'. split; [done|]. by apply Z.ltb_lt.
Qed.

(** Termination is not detected early.  In every run, whatever the order in which
    credit is split, handed on and returned, the termination LCO is set at most once, and
    once it is, no parcel of the process is left and no credit is on its way. *)
Theorem termination_safe ls y : legal_run system_start ls y ->
  (y.(proc).(terminated) <= 1)%nat
  /\ (y.(proc).(terminated) = 1%nat -> quiet y).
Proof.
  intros Hr. destruct (legal_run_inv _ _ _ Hr _ _ start_credit_inv) as (D & k & I).
  pose proof (collected_quiet _ _ _ I) as [Hq _].
  destruct (inv_state _ _ _ I) as [(Ht & _)|(Ht & _ & _ & E)]; rewrite Ht; split; [lia|done|lia|auto].
Qed.

(** Termination is detected.  In every run, a handler that collects credit can always
    go on, and when all the parcels of a process that was called are done, their credit has
    arrived and the handlers have finished, the termination LCO has been set. *)
Theorem termination_detected ls y : legal_run system_start ls y ->
  (forall i x b, y.(handlers) !! i = Some x -> x <> Finished -> is_Some (system_step pid_ y (Handle i b)))
  /\ (y.(proc).(p_credit) <> 0 -> y.(parcels) = [] -> y.(returning) = [] ->
      (forall x, x ∈ y.(handlers) -> x = Finished) -> y.(proc).(terminated) = 1%nat).
Proof.
  intros Hr. destruct (legal_run_inv _ _ _ Hr _ _ start_credit_inv) as (D & k & I).
  split; [intros; by eapply handler_progress|]. intros Hc Hp Hret Hh.
  destruct (inv_state _ _ _ I) as [(Ht & Ec & Hd)|(Ht & _)]; [exfalso|done].
  destruct Hd as (x & Hx & Hw).
  - pose proof (inv_calls _ _ _ I). lia.
  - apply (collected_quiet _ _ _ I). split; [done|]. split; [done|]. intros x Hx. by rewrite (Hh x Hx).
  - rewrite (Hh x Hx) in Hw. by destruct Hw as [?|[?|?]].
Qed.
End Invariant.

(** ** Witnesses: two calls, one of which sends two parcels *)

Definition nop : hpx_parcel := mkParcel 0 0 0 0 PARCEL_SERIALIZED 0 1 0 1 0 0 0.

(** Four parcels finish; their credit is collected by handlers that interleave. *)
Definition demo_actions : list action_of_process :=
  [Call nop; Spawn 0 nop; Call nop; Finish 1 nop; Receive 0; Spawn 0 nop; Handle 0 false;
   Finish 0 nop; Finish 0 nop; Receive 0; Receive 0; Finish 0 nop; Handle 1 false; Receive 0; Handle 2 false;
   Handle 3 false; Handle 0 false; Handle 3 false; Handle 3 false; Handle 2 false; Handle 3 true; Handle 0 false;
   Handle 3 false; Handle 1 false; Handle 1 false; Handle 3 false; Handle 2 false; Handle 0 false;
   Handle 0 false; Handle 1 false; Handle 1 false].

Definition demo_final : system := default system_start (legal_runb 7 system_start demo_actions).

Lemma termination_safe_witness : (demo_final.(proc).(terminated) <= 1)%nat /\ quiet demo_final.
Proof.
  destruct (termination_safe 7 ltac:(done) demo_actions demo_final) as [H1 H2].
  - apply legal_runb_run. vm_compute. reflexivity.
  - split; [exact H1|]. apply H2. vm_compute. reflexivity.
Defined.

Lemma termination_detected_witness : demo_final.(proc).(terminated) = 1%nat.
Proof.
  destruct (termination_detected 7 ltac:(done) demo_actions demo_final) as [_ H].
  - apply legal_runb_run. vm_compute. reflexivity.
  - apply H; [vm_compute; done|vm_compute; reflexivity|vm_compute; reflexivity|].
    assert (E : handlers demo_final = replicate 4 Finished) by (vm_compute; reflexivity). rewrite E.
    intros x Hx. by apply elem_of_replicate in Hx as [-> _].
Defined.

(** ** Beyond eight splits

    The bitmap takes the eight bytes of a word for its sixty-four bits, so that the ninth
    half goes to the second word, and the carry of an addition that overflows is dropped.
    A parcel that sends eight others holds credit 9, as does the last of them. *)
Definition eight_children : list action_of_process :=
  [Call nop] ++ replicate 8 (Spawn 0 nop) ++ replicate 9 (Finish 0 nop) ++ replicate 9 (Receive 0)
  ++ concat (map (fun i => replicate 3 (Handle i false)) (seq 0 9)).

Lemma eight_children_undetected :
  exists y, system_run 7 system_start eight_children = Some y
    /\ y.(parcels) = [] /\ y.(returning) = [] /\ y.(handlers) = replicate 9 Finished
    /\ y.(proc).(p_credit) = 1 /\ y.(proc).(terminated) = 0%nat.
Proof. eexists. split; [vm_compute; reflexivity|]. vm_compute. done. Qed.

(** A carry out of a page is added past the end of the page before it. *)
Lemma page_carry_out_of_bounds b page :
  length (getPage b page) = Z.to_nat Words ->
  match add_offset page (Words * sizeof_Word) with
  | Add page word mask => add_step b page word mask = None
  | _ => False
  end.
Proof.
  intros Hl. simpl. unfold add_step. destruct (_ <? _); [|done].
  rewrite lookup_ge_None_2; [done|]. rewrite Hl. vm_compute. lia.
Qed.

(** A call of a process that has terminated gets credit that was given out before, or none. *)
Lemma call_after_termination :
  match system_step 7 demo_final (Call nop) with
  | Some y => map credit y.(parcels) = [2 ^ 64 - 1]
  | None => False
  end.
Proof. vm_compute. reflexivity. Qed.
