(* ===== verification/Deque.v ===== *)
(** * The work-stealing deque

    include/libhpx/util/ChaseLevDeque.h: the owner pushes and pops at the bottom while
    thieves steal at the top.  The steps of the owner and of the thieves are their accesses
    to the shared words and buffers, interleaved in any way (sequentially consistent);
    an exchange may fail spuriously.  Values carry the events of a run. *)

From S2P Require Import Prelude Math.

Section Deque.
Context {A : Type}.

(** ** The deque *)

(** The slots of a buffer; its mask is its length less one. *)
Abbreviation buf := (list (option A)).

Definition slot (b : buf) (i : Z) : nat := Z.to_nat (Z.land i (Z.of_nat (length b) - 1)).
Definition set (b : buf) (i : Z) (v : A) : buf := <[slot b i := Some v]> b.
Definition get (b : buf) (i : Z) : option A := v ← b !! slot b i; v.

Record deque := mkDeque {
  bottom_ : Z;
  topBound_ : Z;
  capacity_ : Z;
  parents : list buf;      (* the buffers that were outgrown, oldest first *)
  buffer_ : buf;
  top_ : Z;
}.

Definition ChaseLevDeque (capacity : Z) : deque :=
  let c := ceil2 32 capacity in
  mkDeque 1 1 c [] (replicate (Z.to_nat c) None) 1.

(** All the buffers a thief may have read the address of. *)
Definition buffers (d : deque) : list buf := d.(parents) ++ [d.(buffer_)].

Definition size (d : deque) : Z := u64 (d.(bottom_) - d.(top_)).

(** The copy of the elements into a buffer twice the size. *)
Definition regrow (old : buf) (capacity : Z) (top bottom : Z) : buf :=
  foldl (fun b i => match get old i with Some v => set b i v | None => b end)
    (replicate (Z.to_nat capacity) None) (seqZ top (bottom - top)).

Definition grow (d : deque) (bottom top : Z) : deque :=
  let c := u32 (d.(capacity_) * 2) in
  mkDeque d.(bottom_) d.(topBound_) c (d.(parents) ++ [d.(buffer_)]) (regrow d.(buffer_) c top bottom) d.(top_).

Definition tryIncTop (d : deque) (top : Z) (spurious : bool) : deque * bool :=
  if (d.(top_) =? top) && negb spurious
  then (mkDeque d.(bottom_) d.(topBound_) d.(capacity_) d.(parents) d.(buffer_) (u64 (top + 1)), true)
  else (d, false).

Definition with_bottom (d : deque) (b : Z) : deque :=
  mkDeque b d.(topBound_) d.(capacity_) d.(parents) d.(buffer_) d.(top_).
Definition with_bound (d : deque) (t : Z) : deque :=
  mkDeque d.(bottom_) t d.(capacity_) d.(parents) d.(buffer_) d.(top_).
Definition with_buffer (d : deque) (b : buf) : deque :=
  mkDeque d.(bottom_) d.(topBound_) d.(capacity_) d.(parents) b d.(top_).

(** ** Steps *)

Inductive owner :=
| Idle
| PushGrow (v : A) (b : Z)
| PushSet (v : A) (b : Z)
| PushStore (v : A) (b : Z)
| PopLoad (b : Z)
| PopEmpty
| PopCas (v : A)
| PopStore.

(** A thief whose element was taken meanwhile may read a slot that was never written: the
    value it read is then not used. *)
Inductive thief :=
| Away
| StealBottom (t : Z)
| StealBuffer (t : Z)
| StealGet (t : Z) (j : nat)
| StealCas (t : Z) (v : option A).

(** What a step decides about an operation. *)
Inductive event :=
| Silent
| Pushed (v : A)
| Popped (v : A)
| PopNone
| Stolen (v : A)
| StealNone.

Inductive call := Push (v : A) | Pop.

(** The owner starts an operation. *)
Definition owner_call (d : deque) (c : call) : deque * owner :=
  match c with
  | Push v =>
    let b := d.(bottom_) in
    if u64 (b - d.(topBound_)) >=? d.(capacity_) then
      let d := with_bound d d.(top_) in
      if u64 (b - d.(topBound_)) >=? d.(capacity_) then (d, PushGrow v b) else (d, PushSet v b)
    else (d, PushSet v b)
  | Pop =>
    let b := u64 (d.(bottom_) - 1) in
    (with_bottom d b, PopLoad b)
  end.

Definition owner_step (d : deque) (o : owner) (spurious : bool) : option (deque * owner * event) :=
  match o with
  | Idle => None
  | PushGrow v b => Some (grow d b d.(topBound_), PushSet v b, Silent)
  | PushSet v b => Some (with_buffer d (set d.(buffer_) b v), PushStore v b, Silent)
  | PushStore v b => Some (with_bottom d (u64 (b + 1)), Idle, Pushed v)
  | PopLoad b =>
    let d := with_bound d d.(top_) in
    if b <? d.(topBound_) then Some (d, PopEmpty, PopNone)
    else
      v ← get d.(buffer_) b;
      if b >? d.(topBound_) then Some (d, Idle, Popped v) else Some (d, PopCas v, Silent)
  | PopEmpty => Some (with_bottom d d.(topBound_), Idle, Silent)
  | PopCas v =>
    let '(d, ok) := tryIncTop d d.(topBound_) spurious in
    Some (d, PopStore, if ok then Popped v else PopNone)
  | PopStore => Some (with_bottom d (u64 (d.(topBound_) + 1)), Idle, Silent)
  end.

Definition thief_step (d : deque) (x : thief) (spurious : bool) : option (deque * thief * event) :=
  match x with
  | Away => Some (d, StealBottom d.(top_), Silent)
  | StealBottom t =>
    if d.(bottom_) <=? t then Some (d, Away, StealNone) else Some (d, StealBuffer t, Silent)
  | StealBuffer t => Some (d, StealGet t (length d.(parents)), Silent)
  | StealGet t j => b ← buffers d !! j; Some (d, StealCas t (get b t), Silent)
  | StealCas t v =>
    let '(d, ok) := tryIncTop d t spurious in
    if ok then (v ← v; Some (d, Away, Stolen v)) else Some (d, Away, StealNone)
  end.

Record system := mkSystem {
  dq : deque;
  own : owner;
  thieves : list thief;
}.

Inductive label :=
| Start (c : call)
| Owner (spurious : bool)
| Thief (i : nat) (spurious : bool).

Definition step (y : system) (a : label) : option (system * event) :=
  match a with
  | Start c =>
    match y.(own) with
    | Idle => let '(d, o) := owner_call y.(dq) c in Some (mkSystem d o y.(thieves), Silent)
    | _ => None
    end
  | Owner s => '(d, o, e) ← owner_step y.(dq) y.(own) s; Some (mkSystem d o y.(thieves), e)
  | Thief i s =>
    x ← y.(thieves) !! i;
    '(d, x, e) ← thief_step y.(dq) x s;
    Some (mkSystem d y.(own) (<[i := x]> y.(thieves)), e)
  end.

Definition start (capacity : Z) (n : nat) : system := mkSystem (ChaseLevDeque capacity) Idle (replicate n Away).

(** ** Buffers *)

Definition pow2 (n : Z) : Prop := exists k, 0 <= k /\ n = 2 ^ k.

Lemma slot_pow2 (b : buf) i : pow2 (Z.of_nat (length b)) -> 0 <= i ->
  slot b i = Z.to_nat (i mod Z.of_nat (length b)) /\ (slot b i < length b)%nat.
Proof.
  intros (k & Hk & E) Hi. unfold slot. rewrite E, land_pred_pow2 by done. split; [done|].
  pose proof (Z.mod_pos_bound i (2 ^ k) ltac:(lia)). lia.
Qed.

Lemma set_length (b : buf) i v : length (set b i v) = length b.
Proof. apply length_insert. Qed.

Lemma get_set_eq (b : buf) i v : pow2 (Z.of_nat (length b)) -> 0 <= i -> get (set b i v) i = Some v.
Proof.
  intros Hp Hi. unfold get. assert (Hs : slot (set b i v) i = slot b i) by (unfold slot; by rewrite set_length).
  rewrite Hs. unfold set. rewrite list_lookup_insert_eq; [done|]. by apply slot_pow2.
Qed.

Lemma get_set_ne (b : buf) i j v : pow2 (Z.of_nat (length b)) -> 0 <= i -> 0 <= j -> i <> j ->
  Z.abs (i - j) < Z.of_nat (length b) -> get (set b i v) j = get b j.
Proof.
  intros Hp Hi Hj Hne Habs. unfold get. assert (Hs : slot (set b i v) j = slot b j) by (unfold slot; by rewrite set_length).
  rewrite Hs. unfold set. rewrite list_lookup_insert_ne; [done|].
  destruct (slot_pow2 b i Hp Hi) as [E1 _]. destruct (slot_pow2 b j Hp Hj) as [E2 _]. rewrite E1, E2.
  pose proof (mod_distinct i j (Z.of_nat (length b)) ltac:(lia) Hne Habs) as Hd.
  pose proof (Z.mod_pos_bound i (Z.of_nat (length b)) ltac:(lia)).
  pose proof (Z.mod_pos_bound j (Z.of_nat (length b)) ltac:(lia)). lia.
Qed.

(** The larger buffer has the elements of the old one. *)
Lemma regrow_spec old capacity top bottom : pow2 capacity -> 0 <= top -> bottom - top <= capacity ->
  length (regrow old capacity top bottom) = Z.to_nat capacity
  /\ forall i v, top <= i < bottom -> get old i = Some v -> get (regrow old capacity top bottom) i = Some v.
Proof.
  intros Hp Ht Hc. destruct (Z.le_gt_cases bottom top) as [Hle|Hgt].
  { unfold regrow. rewrite seqZ_nil by lia. simpl. rewrite length_replicate. split; [done|lia]. }
  assert (Hcap : 0 < capacity) by (destruct Hp as (k & ? & ->); lia).
  set (f := fun (b : buf) i => match get old i with Some v => set b i v | None => b end).
  assert (H : forall n, 0 <= n -> n <= bottom - top ->
    let b := foldl f (replicate (Z.to_nat capacity) None) (seqZ top n) in
    length b = Z.to_nat capacity /\ forall i v, top <= i < top + n -> get old i = Some v -> get b i = Some v).
  { apply (natlike_ind (fun n => n <= bottom - top -> _)).
    - intros _. simpl. rewrite length_replicate. split; [done|lia].
    - intros n Hn IH Hle. destruct (IH ltac:(lia)) as [Hlen Hget]. clear IH.
      replace (Z.succ n) with (n + 1) by lia. rewrite seqZ_app by lia. rewrite foldl_app.
      change (seqZ (top + n) 1) with [top + n]. simpl in Hlen, Hget |- *.
      set (b := foldl f (replicate _ _) _) in *. unfold f.
      assert (Hpb : pow2 (Z.of_nat (length b))) by (rewrite Hlen, Z2Nat.id by lia; done).
      destruct (get old (top + n)) as [w|] eqn:E.
      + rewrite set_length. split; [done|]. intros i v Hi Hv. destruct (Z.eq_dec i (top + n)) as [->|Hne].
        * rewrite get_set_eq by (done || lia). congruence.
        * rewrite get_set_ne by (done || lia). apply Hget; [lia|done].
      + split; [done|]. intros i v Hi Hv. apply Hget; [|done]. destruct (Z.eq_dec i (top + n)); [congruence|lia]. }
  destruct (H (bottom - top)) as [H1 H2]; [lia..|]. split; [done|]. intros i v Hi. apply H2. lia.
Qed.

(** ** The invariant *)

Definition popping (o : owner) : bool :=
  match o with PopLoad _ | PopEmpty | PopCas _ | PopStore => true | _ => false end.

(** The index past the last element: a pop has stored a smaller one before it knows. *)
Definition limit (y : system) : Z := y.(dq).(bottom_) + (if popping y.(own) then 1 else 0).

Definition owner_ok (d : deque) (o : owner) : Prop :=
  match o with
  | Idle => True
  | PushGrow v b => b = d.(bottom_) /\ b + 1 < 2 ^ 62 /\ b - d.(topBound_) >= d.(capacity_) /\ d.(capacity_) <= 2 ^ 30
  | PushSet v b => b = d.(bottom_) /\ b + 1 < 2 ^ 62 /\ b - d.(topBound_) < d.(capacity_)
  | PushStore v b => b = d.(bottom_) /\ b + 1 < 2 ^ 62 /\ b - d.(topBound_) < d.(capacity_) /\ get d.(buffer_) b = Some v
  | PopLoad b => b = d.(bottom_)
  | PopEmpty => d.(top_) = d.(topBound_) /\ d.(top_) = d.(bottom_) + 1
  | PopCas v => d.(bottom_) = d.(topBound_) /\ get d.(buffer_) d.(topBound_) = Some v
  | PopStore => d.(bottom_) = d.(topBound_)
  end.

(** What a thief has read is right as long as the top has not moved on. *)
Definition thief_ok (d : deque) (lim : Z) (l : list A) (x : thief) : Prop :=
  match x with
  | Away => True
  | StealBottom t => 1 <= t <= d.(top_)
  | StealBuffer t => 1 <= t <= d.(top_) /\ (t = d.(top_) -> t < lim)
  | StealGet t j => 1 <= t <= d.(top_)
      /\ exists b, buffers d !! j = Some b /\ (t = d.(top_) -> t < lim /\ get b t = head l)
  | StealCas t v => 1 <= t <= d.(top_) /\ (t = d.(top_) -> t < lim /\ v = head l)
  end.

(** [l] are the elements, from the top to the bottom. *)
Record deque_inv (y : system) (l : list A) : Prop := {
  inv_bounds : 1 <= y.(dq).(topBound_) <= y.(dq).(top_) /\ y.(dq).(top_) <= limit y < 2 ^ 62;
  inv_buffer : Z.of_nat (length y.(dq).(buffer_)) = y.(dq).(capacity_) /\ pow2 y.(dq).(capacity_)
    /\ y.(dq).(capacity_) <= 2 ^ 31;
  inv_room : limit y - y.(dq).(topBound_) <= y.(dq).(capacity_);
  inv_length : Z.of_nat (length l) = limit y - y.(dq).(top_);
  inv_items i x : l !! i = Some x -> get y.(dq).(buffer_) (y.(dq).(top_) + Z.of_nat i) = Some x;
  inv_owner : owner_ok y.(dq) y.(own);
  inv_thieves x : x ∈ y.(thieves) -> thief_ok y.(dq) (limit y) l x;
}.

(** What an event does to the elements. *)
Definition event_spec (e : event) (l l' : list A) : Prop :=
  match e with
  | Silent | PopNone | StealNone => l' = l
  | Pushed v => l' = l ++ [v]
  | Popped v => l = l' ++ [v]
  | Stolen v => l = v :: l'
  end.

(** The deque has room for another element. *)
Definition legal (y : system) (a : label) : Prop :=
  match a with
  | Start (Push _) => y.(dq).(bottom_) + 1 < 2 ^ 62 /\ y.(dq).(bottom_) - y.(dq).(top_) < 2 ^ 30
  | _ => True
  end.

(** The thieves do not notice a step that leaves the top element where it is. *)
Lemma thief_ok_mono d d' lim lim' l l' x : d.(top_) <= d'.(top_) ->
  (d'.(top_) = d.(top_) -> d.(top_) < lim -> d.(top_) < lim' /\ head l' = head l) ->
  (forall j b, buffers d !! j = Some b -> exists b', buffers d' !! j = Some b'
     /\ (d'.(top_) = d.(top_) -> d.(top_) < lim -> get b' d.(top_) = get b d.(top_))) ->
  thief_ok d lim l x -> thief_ok d' lim' l' x.
Proof.
  intros Ht Hl Hb. destruct x as [|t|t|t j|t v]; simpl; try done.
  - lia.
  - intros [? Hx]. split; [lia|]. intros E. assert (E' : top_ d' = top_ d) by lia.
    destruct (Hl E' ltac:(rewrite <- E', <- E; apply Hx; lia)). lia.
  - intros [? (b & Hj & Hx)]. split; [lia|]. destruct (Hb _ _ Hj) as (b' & Hj' & Hb'). exists b'.
    split; [done|]. intros E. assert (E' : top_ d' = top_ d) by lia. assert (Et : t = top_ d) by lia.
    destruct (Hx Et) as [Hlt Hg]. rewrite Et in *. destruct (Hl E' Hlt) as [? ->]. split; [lia|]. by rewrite Hb'.
  - intros [? Hx]. split; [lia|]. intros E. assert (E' : top_ d' = top_ d) by lia. assert (Et : t = top_ d) by lia.
    destruct (Hx Et) as [Hlt ->]. rewrite Et in *. destruct (Hl E' Hlt) as [? ->]. split; [lia|done].
Qed.

(** The owner's step changed neither the top nor the buffers. *)
Lemma thieves_same y d' o' l l' :
  (forall x, x ∈ y.(thieves) -> thief_ok y.(dq) (limit y) l x) ->
  d'.(top_) = y.(dq).(top_) -> buffers d' = buffers y.(dq) ->
  (y.(dq).(top_) < limit y -> y.(dq).(top_) < limit (mkSystem d' o' y.(thieves)) /\ head l' = head l) ->
  forall x, x ∈ y.(thieves) -> thief_ok d' (limit (mkSystem d' o' y.(thieves))) l' x.
Proof.
  intros H Ht Hb Hl x Hx. apply (thief_ok_mono y.(dq) d' (limit y) _ l); [lia|auto| |auto].
  intros j b Hj. exists b. by rewrite Hb.
Qed.

Lemma u64_small x : 0 <= x < 2 ^ 64 -> u64 x = x.
Proof. apply wrap_small. Qed.

(** Raising the bound on the top to the top. *)
Lemma bound_inv y l o : deque_inv y l -> popping o = popping y.(own) ->
  owner_ok (with_bound y.(dq) y.(dq).(top_)) o ->
  deque_inv (mkSystem (with_bound y.(dq) y.(dq).(top_)) o y.(thieves)) l.
Proof.
  intros [I1 I2 I3 I4 I5 I6 I7] Hp Ho. unfold limit in *. rewrite <- Hp in *.
  split; simpl; unfold limit; simpl; try done; try lia.
Qed.

Lemma owner_moves y l o : deque_inv y l -> popping o = popping y.(own) -> owner_ok y.(dq) o ->
  deque_inv (mkSystem y.(dq) o y.(thieves)) l.
Proof.
  intros [I1 I2 I3 I4 I5 I6 I7] Hp Ho. unfold limit in *. rewrite <- Hp in *.
  split; simpl; unfold limit; simpl; done.
Qed.

Lemma push_call y l v : deque_inv y l -> y.(own) = Idle -> legal y (Start (Push v)) ->
  let '(d, o) := owner_call y.(dq) (Push v) in deque_inv (mkSystem d o y.(thieves)) l.
Proof.
  intros I Ho [L1 L2]. pose proof I as [I1 I2 I3 _ _ _ _]. unfold limit in *. rewrite Ho in *. simpl popping in *. cbv iota in *.
  unfold owner_call. rewrite (u64_small (bottom_ (dq y) - topBound_ (dq y))) by lia.
  rewrite !Z.geb_leb. destruct (Z.leb_spec (capacity_ (dq y)) (bottom_ (dq y) - topBound_ (dq y))).
  - simpl. rewrite u64_small by lia.
    destruct (Z.leb_spec (capacity_ (dq y)) (bottom_ (dq y) - top_ (dq y))).
    + apply bound_inv; [done|by rewrite Ho|]. simpl. lia.
    + apply bound_inv; [done|by rewrite Ho|]. simpl. lia.
  - apply owner_moves; [done|by rewrite Ho|]. simpl. lia.
Qed.

Lemma pop_call y l : deque_inv y l -> y.(own) = Idle ->
  let '(d, o) := owner_call y.(dq) Pop in deque_inv (mkSystem d o y.(thieves)) l.
Proof.
  intros [I1 I2 I3 I4 I5 I6 I7] Ho. unfold limit in *. rewrite Ho in *. simpl popping in *. cbv iota in *. simpl.
  rewrite u64_small by lia.
  split; simpl; unfold limit; simpl; try done; try lia.
  replace (bottom_ (dq y) - 1 + 1) with (bottom_ (dq y) + 0) by lia. exact I7.
Qed.

(** Reduce the owner's step and bring the invariant of [y] into the context. *)
Ltac owner_case Ho :=
  match goal with
  | |- deque_inv ?y _ -> _ =>
    intros [I1 I2 I3 I4 I5 I6 I7]; unfold limit in *; rewrite Ho in *; simpl popping in *; cbv iota in *; simpl in I6
  end.

Lemma grow_inv y l v b : y.(own) = PushGrow v b -> deque_inv y l ->
  deque_inv (mkSystem (grow y.(dq) b y.(dq).(topBound_)) (PushSet v b) y.(thieves)) l.
Proof.
  intros Ho. owner_case Ho. destruct I6 as (-> & Hb & Hfull & Hc). destruct I2 as (Hlen & (k & Hk & Ek) & Hmax).
  assert (Hpos : 0 < capacity_ (dq y)) by lia.
  assert (Ew : u32 (capacity_ (dq y) * 2) = capacity_ (dq y) * 2) by (apply wrap_small; lia).
  destruct (regrow_spec (buffer_ (dq y)) (capacity_ (dq y) * 2) (topBound_ (dq y)) (bottom_ (dq y))) as [R1 R2].
  { exists (k + 1). split; [lia|]. rewrite Z.pow_add_r by lia. lia. }
  { lia. }
  { lia. }
  split; simpl; unfold limit; simpl; rewrite ?Ew; try done; try lia.
  - rewrite R1. split; [lia|]. split; [|lia]. exists (k + 1). split; [lia|]. rewrite Z.pow_add_r by lia. lia.
  - intros i x Hx. apply R2; [|by apply I5]. apply lookup_lt_Some in Hx. lia.
  - intros x Hx. apply (thief_ok_mono (dq y) _ (bottom_ (dq y) + 0) _ l); simpl; [lia|done| |by apply I7].
    intros j b Hj. exists b. split; [|done]. unfold buffers in *; simpl. rewrite lookup_app_l; [done|].
    by eapply lookup_lt_Some.
Qed.

Lemma set_inv y l v b : y.(own) = PushSet v b -> deque_inv y l ->
  deque_inv (mkSystem (with_buffer y.(dq) (set y.(dq).(buffer_) b v)) (PushStore v b) y.(thieves)) l.
Proof.
  intros Ho. owner_case Ho. destruct I6 as (-> & Hb & Hroom). destruct I2 as (Hlen & Hp & Hmax).
  assert (Hget : forall i, topBound_ (dq y) <= i < bottom_ (dq y) ->
    get (set (buffer_ (dq y)) (bottom_ (dq y)) v) i = get (buffer_ (dq y)) i).
  { intros i Hi. apply get_set_ne; [by rewrite Hlen|lia..]. }
  split; simpl; unfold limit; simpl; rewrite ?set_length; try done.
  - intros i x Hx. rewrite Hget by (apply lookup_lt_Some in Hx; lia). by apply I5.
  - do 3 (split; [done|]). apply get_set_eq; [by rewrite Hlen|lia].
  - intros x Hx. apply (thief_ok_mono (dq y) _ (bottom_ (dq y) + 0) _ l); simpl; [lia|done| |by apply I7].
    intros j b Hj. unfold buffers in *; simpl. apply lookup_app_Some in Hj as [Hj|[Hj Hj']].
    + exists b. split; [|done]. by apply lookup_app_l_Some.
    + apply list_lookup_singleton_Some in Hj' as [Hj' <-]. eexists. split.
      * rewrite lookup_app_r by done. by rewrite Hj'.
      * intros _ Hlt. apply Hget. lia.
Qed.

Lemma push_store_inv y l v b : y.(own) = PushStore v b -> deque_inv y l ->
  deque_inv (mkSystem (with_bottom y.(dq) (u64 (b + 1))) Idle y.(thieves)) (l ++ [v]).
Proof.
  intros Ho. owner_case Ho. destruct I6 as (-> & Hb & Hroom & Hv). rewrite u64_small by lia.
  split; simpl; unfold limit; simpl; try done; try lia.
  - rewrite length_app; simpl. lia.
  - intros i x [Hx|[Hi Hx]]%lookup_app_Some; [by apply I5|].
    apply list_lookup_singleton_Some in Hx as [Hi' <-]. rewrite <- Hv. f_equal. lia.
  - intros x Hx. apply (thief_ok_mono (dq y) _ (bottom_ (dq y) + 0) _ l); simpl; [lia| | |by apply I7].
    + intros _ Hlt. split; [lia|]. destruct l; [simpl in I4; lia|done].
    + intros j b Hj. by exists b.
Qed.

Lemma head_app_singleton (l : list A) (x : A) : l <> [] -> head (l ++ [x]) = head l.
Proof. by destruct l. Qed.

(** The elements when the owner looks at the top. *)
Lemma pop_load_inv y l b s : y.(own) = PopLoad b -> deque_inv y l ->
  exists d o e l', owner_step y.(dq) y.(own) s = Some (d, o, e)
    /\ deque_inv (mkSystem d o y.(thieves)) l' /\ event_spec e l l' /\ (e = PopNone -> l' = []).
Proof.
  intros Ho. owner_case Ho. subst b. simpl. destruct I2 as (Hlen & Hp & Hmax).
  destruct (Z.ltb_spec (bottom_ (dq y)) (top_ (dq y))).
  - assert (l = []) as -> by (destruct l; [done|simpl in I4; lia]).
    eexists _, _, _, []. split; [done|]. split; [|done].
    split; simpl; unfold limit; simpl; try done; lia.
  - assert (Hlast : exists x, l !! Z.to_nat (bottom_ (dq y) - top_ (dq y)) = Some x) by (apply lookup_lt_is_Some; lia).
    destruct Hlast as [x Hx]. pose proof (I5 _ _ Hx) as Hget. rewrite Z2Nat.id in Hget by lia.
    replace (top_ (dq y) + (bottom_ (dq y) - top_ (dq y))) with (bottom_ (dq y)) in Hget by lia.
    rewrite Hget; cbn [mbind option_bind]. rewrite Z.gtb_ltb. destruct (Z.ltb_spec (top_ (dq y)) (bottom_ (dq y))).
    + destruct l as [|z l _] using rev_ind; [simpl in I4; lia|]. rewrite length_app in I4; simpl in I4.
      rewrite list_lookup_middle in Hx by lia. injection Hx as ->.
      eexists _, _, _, l. split; [done|]. split; [|done].
      split; simpl; unfold limit; simpl; try done; try lia.
      * intros i z Hz. apply I5. by apply lookup_app_l_Some.
      * intros z Hz. apply (thief_ok_mono (dq y) _ (bottom_ (dq y) + 1) _ (l ++ [x])); simpl; [lia| | |by apply I7].
        -- intros _ _. split; [lia|]. rewrite head_app_singleton; [done|]. intros ->. simpl in I4; lia.
        -- intros j b Hj. by exists b.
    + assert (E : bottom_ (dq y) = top_ (dq y)) by lia. eexists _, _, _, l. split; [done|]. split; [|done].
      split; simpl; unfold limit; simpl; try done; try lia. split; [done|]. by rewrite <- E.
Qed.

Lemma pop_empty_inv y l : y.(own) = PopEmpty -> deque_inv y l ->
  deque_inv (mkSystem (with_bottom y.(dq) y.(dq).(topBound_)) Idle y.(thieves)) l.
Proof.
  intros Ho. owner_case Ho. destruct I6 as [E1 E2]. split; simpl; unfold limit; simpl; try done; try lia.
  replace (topBound_ (dq y) + 0) with (bottom_ (dq y) + 1) by lia. exact I7.
Qed.

Lemma pop_store_inv y l : y.(own) = PopStore -> deque_inv y l ->
  deque_inv (mkSystem (with_bottom y.(dq) (u64 (y.(dq).(topBound_) + 1))) Idle y.(thieves)) l.
Proof.
  intros Ho. owner_case Ho. rewrite u64_small by lia. split; simpl; unfold limit; simpl; try done; try lia.
  replace (topBound_ (dq y) + 1 + 0) with (bottom_ (dq y) + 1) by lia. exact I7.
Qed.

(** The top moves on: the first element is gone. *)
Lemma take_top y l o x : deque_inv y l -> popping o = popping y.(own) -> head l = Some x ->
  owner_ok (mkDeque y.(dq).(bottom_) y.(dq).(topBound_) y.(dq).(capacity_) y.(dq).(parents) y.(dq).(buffer_)
              (y.(dq).(top_) + 1)) o ->
  deque_inv (mkSystem (mkDeque y.(dq).(bottom_) y.(dq).(topBound_) y.(dq).(capacity_) y.(dq).(parents) y.(dq).(buffer_)
                         (y.(dq).(top_) + 1)) o y.(thieves)) (tail l) /\ l = x :: tail l.
Proof.
  intros [I1 I2 I3 I4 I5 I6 I7] Hp Hh Ho. destruct l as [|z l]; [done|]. injection Hh as ->.
  split; [|done]. unfold limit in *. rewrite <- Hp in *. simpl in I4.
  split; simpl; unfold limit; simpl; try done; try lia.
  - intros i z Hz. specialize (I5 (S i) z Hz). rewrite <- I5. f_equal. lia.
  - intros z Hz. eapply thief_ok_mono; [| | |by apply I7]; simpl; [lia|lia|]. intros j b Hj. exists b. split; [done|lia].
Qed.

Lemma pop_cas_inv y l v s : y.(own) = PopCas v -> deque_inv y l ->
  exists d o e l', owner_step y.(dq) y.(own) s = Some (d, o, e)
    /\ deque_inv (mkSystem d o y.(thieves)) l' /\ event_spec e l l' /\ (e = PopNone -> s = false -> l' = []).
Proof.
  intros Ho I. pose proof I as [I1 _ _ I4 I5 I6 _]. unfold limit in I1, I4. rewrite Ho in *. simpl in I1, I4, I6.
  destruct I6 as [E Hv]. simpl. unfold tryIncTop.
  destruct (Z.eqb_spec (top_ (dq y)) (topBound_ (dq y))) as [Et|Et]; [destruct s|]; simpl.
  - eexists _, _, _, l. split; [done|]. split; [|done]. apply owner_moves; [done|by rewrite Ho|done].
  - assert (Hh : head l = Some v).
    { destruct l as [|z l]; [simpl in I4; lia|]. specialize (I5 O z eq_refl). simpl. rewrite <- I5, <- Hv. f_equal. lia. }
    destruct (take_top y l PopStore v I) as [I' El]; [by rewrite Ho|done|done|].
    assert (tail l = []) as Enil by (destruct l as [|? [|]]; simpl in *; [done|done|lia]).
    eexists _, _, _, (tail l). split; [done|]. rewrite u64_small by lia.
    replace (topBound_ (dq y) + 1) with (top_ (dq y) + 1) by lia. split; [done|]. split; [|done]. simpl.
    rewrite Enil in *. done.
  - eexists _, _, _, l. split; [done|]. split; [apply owner_moves; [done|by rewrite Ho|done]|]. split; [done|].
    intros _ _. destruct l; [done|]. simpl in I4. lia.
Qed.

Lemma owner_step_inv y l s : deque_inv y l -> y.(own) <> Idle ->
  exists d o e l', owner_step y.(dq) y.(own) s = Some (d, o, e)
    /\ deque_inv (mkSystem d o y.(thieves)) l' /\ event_spec e l l' /\ (e = PopNone -> s = false -> l' = []).
Proof.
  intros I Hi. destruct (own y) as [|v b|v b|v b|b| |v|] eqn:Ho; [done|..].
  - eexists _, _, _, l. split; [done|]. split; [by eapply grow_inv|done].
  - eexists _, _, _, l. split; [done|]. split; [by eapply set_inv|done].
  - eexists _, _, _, (l ++ [v]). split; [done|]. split; [by eapply push_store_inv|done].
  - destruct (pop_load_inv y l b s Ho I) as (d & o & e & l' & Hs & HI & He & Hn). rewrite Ho in Hs.
    eexists d, o, e, l'. auto.
  - eexists _, _, _, l. split; [done|]. split; [by eapply pop_empty_inv|done].
  - destruct (pop_cas_inv y l v s Ho I) as (d & o & e & l' & Hs & HI & He & Hn). rewrite Ho in Hs.
    eexists d, o, e, l'. auto.
  - eexists _, _, _, l. split; [done|]. split; [by eapply pop_store_inv|done].
Qed.

Lemma thief_moves y l i x' : deque_inv y l -> thief_ok y.(dq) (limit y) l x' ->
  deque_inv (mkSystem y.(dq) y.(own) (<[i := x']> y.(thieves))) l.
Proof.
  intros [I1 I2 I3 I4 I5 I6 I7] Hx. split; try done. intros z [->|Hz]%elem_of_insert; [done|by apply I7].
Qed.

Lemma thief_step_inv y l i x s : deque_inv y l -> y.(thieves) !! i = Some x ->
  exists d x' e l', thief_step y.(dq) x s = Some (d, x', e)
    /\ deque_inv (mkSystem d y.(own) (<[i := x']> y.(thieves))) l' /\ event_spec e l l' /\ e <> PopNone.
Proof.
  intros I Hi. pose proof (inv_bounds _ _ I) as Hb. pose proof (inv_length _ _ I) as Hlen.
  assert (Hx : thief_ok y.(dq) (limit y) l x) by (eapply inv_thieves; [done|]; by eapply list_elem_of_lookup_2).
  destruct x as [|t|t|t j|t v]; simpl in *.
  - eexists _, _, _, l. split; [done|]. split; [|done]. apply thief_moves; [done|]. simpl. lia.
  - destruct (Z.leb_spec (bottom_ (dq y)) t); (eexists _, _, _, l; split; [done|]; split; [|done]);
      apply thief_moves; try done. simpl. split; [lia|]. unfold limit. destruct (popping _); lia.
  - eexists _, _, _, l. split; [done|]. split; [|done]. apply thief_moves; [done|]. simpl. split; [lia|].
    exists (buffer_ (dq y)). split; [by apply list_lookup_middle|]. intros ->. split; [apply Hx; done|].
    destruct l as [|z l]; [simpl in Hlen; assert (top_ (dq y) < limit y) by (by apply Hx); lia|].
    simpl. rewrite <- (inv_items _ _ I O z eq_refl). f_equal. lia.
  - destruct Hx as [Ht (b & Hj & Hx)]. rewrite Hj; cbn [mbind option_bind].
    eexists _, _, _, l. split; [done|]. split; [|done]. apply thief_moves; [done|]. simpl. auto.
  - destruct Hx as [Ht Hx]. unfold tryIncTop.
    destruct (Z.eqb_spec (top_ (dq y)) t) as [<-|Hne]; [destruct s|]; simpl.
    1, 3: eexists _, _, _, l; split; [done|]; split; [|done]; by apply thief_moves.
    destruct (Hx eq_refl) as [Hlt ->]. destruct l as [|z l]; [simpl in Hlen; lia|]. simpl.
    destruct (take_top y (z :: l) (own y) z I eq_refl eq_refl) as [I' _].
    { pose proof (inv_owner _ _ I) as Ho. unfold limit in Hlt. destruct (own y); simpl in *; try done. lia. }
    eexists _, _, _, l. split; [done|]. rewrite u64_small by lia. split; [|done].
    apply (thief_moves _ _ i Away I'). done.
Qed.

Lemma deque_step_inv y l a : deque_inv y l -> legal y a ->
  (forall y' e, step y a = Some (y', e) ->
     exists l', deque_inv y' l' /\ event_spec e l l' /\ (e = PopNone -> a = Owner false -> l' = []))
  /\ (step y a = None -> match a with
       | Start _ => y.(own) <> Idle
       | Owner _ => y.(own) = Idle
       | Thief i _ => y.(thieves) !! i = None
       end).
Proof.
  intros I Hl. destruct a as [c|s|i s]; simpl.
  - destruct (owner_call (dq y) c) as [d o] eqn:Hc. destruct (own y) eqn:Ho; (split; intros; try done). simplify_eq.
    exists l. split; [|done]. destruct c as [v|].
    + pose proof (push_call y l v I Ho Hl) as H. by rewrite Hc in H.
    + pose proof (pop_call y l I Ho) as H. by rewrite Hc in H.
  - assert (own y = Idle \/ own y <> Idle) as [Ho|Ho] by (destruct (own y); (by left) || by right); [by rewrite Ho|].
    destruct (owner_step_inv y l s I Ho) as (d & o & e & l' & Hs & I' & He & Hn). rewrite Hs; cbn [mbind option_bind].
    split; [|done]. intros y' e' [= <- <-]. exists l'. split; [done|]. split; [done|]. intros -> [= ->]. by apply Hn.
  - destruct (thieves y !! i) as [x|] eqn:Hi; [|done]; cbn [mbind option_bind].
    destruct (thief_step_inv y l i x s I Hi) as (d & x' & e & l' & -> & I' & He & Hn). cbn [mbind option_bind].
    split; [|done]. intros y' e' [= <- <-]. by exists l'.
Qed.

(** Runs from a new deque with [n] thieves, with the event of each step. *)
Inductive deque_run (capacity : Z) (n : nat) : list (label * event) -> system -> Prop :=
| run_start : deque_run capacity n [] (start capacity n)
| run_step es y a y' e : deque_run capacity n es y -> legal y a -> step y a = Some (y', e) ->
    deque_run capacity n (es ++ [(a, e)]) y'.

(** The elements after the events: those of the operations in sequence. *)
Inductive replay : list (label * event) -> list A -> Prop :=
| replay_nil : replay [] []
| replay_snoc es l a e l' : replay es l -> event_spec e l l' -> (e = PopNone -> a = Owner false -> l' = []) ->
    replay (es ++ [(a, e)]) l'.

Lemma start_deque_inv capacity n : 1 <= capacity <= 2 ^ 31 -> deque_inv (start capacity n) [].
Proof.
  intros Hc. assert (Hlog := log2_up_bound 31 capacity ltac:(lia) ltac:(lia)).
  assert (E : ceil2 32 capacity = 2 ^ Z.log2_up capacity).
  { unfold ceil2. rewrite ceil_log2_eq, Z.shiftl_1_l by lia. apply wrap_small.
    split; [apply Z.pow_nonneg; lia|]. apply Z.pow_lt_mono_r; lia. }
  assert (1 <= 2 ^ Z.log2_up capacity <= 2 ^ 31).
  { split; [|apply Z.pow_le_mono_r; lia]. assert (0 < 2 ^ Z.log2_up capacity) by (apply Z.pow_pos_nonneg; lia). lia. }
  split; simpl; unfold limit; simpl; rewrite ?E; try done; try lia.
  - rewrite length_replicate. split; [lia|]. split; [|lia]. exists (Z.log2_up capacity). split; [lia|done].
  - intros x [-> _]%elem_of_replicate. done.
Qed.

Lemma deque_run_inv capacity n es y : 1 <= capacity <= 2 ^ 31 -> deque_run capacity n es y ->
  exists l, replay es l /\ deque_inv y l.
Proof.
  intros Hc. induction 1 as [|es y a y' e Hr (l & Hrep & I) Hl Hs].
  - exists []. split; [constructor|]. by apply start_deque_inv.
  - destruct (deque_step_inv y l a I Hl) as [H _]. destruct (H _ _ Hs) as (l' & I' & He & Hn).
    exists l'. split; [|done]. by eapply replay_snoc.
Qed.

(** C15: the deque is linearizable.  For every interleaving of the owner's pushes and pops
    with the thieves' steals, and whatever exchanges fail, the steps at which the
    operations decide are those of a sequential deque: a push adds its element at the
    bottom, a pop returns the bottom element, a steal the top one, and a pop that returns
    nothing, other than by a spurious failure, finds the deque empty.  The elements are
    those in the buffer between the indices, and an operation that was started can always
    go on: none reads a slot that was not written or misses the buffer. *)
Theorem deque_linearizable capacity n es y : 1 <= capacity <= 2 ^ 31 -> deque_run capacity n es y ->
  (exists l, replay es l
     /\ (y.(own) = Idle -> Z.of_nat (length l) = y.(dq).(bottom_) - y.(dq).(top_))
     /\ forall i x, l !! i = Some x -> get y.(dq).(buffer_) (y.(dq).(top_) + Z.of_nat i) = Some x)
  /\ (forall s, y.(own) <> Idle -> step y (Owner s) <> None)
  /\ (forall i x s, y.(thieves) !! i = Some x -> step y (Thief i s) <> None).
Proof.
  intros Hc Hr. destruct (deque_run_inv _ _ _ _ Hc Hr) as (l & Hrep & I). split; [|split].
  - exists l. split; [done|]. split; [|apply (inv_items _ _ I)]. intros Ho.
    pose proof (inv_length _ _ I) as Hlen. unfold limit in Hlen. rewrite Ho in Hlen. simpl in Hlen. lia.
  - intros s Ho Hs. destruct (deque_step_inv y l (Owner s) I Logic.I) as [_ Hn]. by apply Ho, Hn.
  - intros i x s Hx Hs. destruct (deque_step_inv y l (Thief i s) I Logic.I) as [_ Hn]. specialize (Hn Hs). simpl in Hn. congruence.
Qed.

(** Running the labels of a schedule. *)
Definition legalb (y : system) (a : label) : bool :=
  match a with
  | Start (Push _) => (y.(dq).(bottom_) + 1 <? 2 ^ 62) && (y.(dq).(bottom_) - y.(dq).(top_) <? 2 ^ 30)
  | _ => true
  end.

Fixpoint execute (y : system) (ls : list label) : option (list (label * event) * system) :=
  match ls with
  | [] => Some ([], y)
  | a :: ls =>
    if legalb y a then
      '(y, e) ← step y a; '(es, y) ← execute y ls; Some ((a, e) :: es, y)
    else None
  end.

Lemma execute_run capacity n ls : forall es y es' y', deque_run capacity n es y ->
  execute y ls = Some (es', y') -> deque_run capacity n (es ++ es') y'.
Proof.
  induction ls as [|a ls IH]; intros es y es' y' Hr; simpl; [intros [= <- <-]; by rewrite app_nil_r|].
  destruct (legalb y a) eqn:Hl; [|done]. destruct (step y a) as [[y1 e]|] eqn:Hs; [|done]; cbn [mbind option_bind].
  destruct (execute y1 ls) as [[es1 y2]|] eqn:He; [|done]; cbn [mbind option_bind]. intros [= <- <-].
  rewrite (app_assoc es [(a, e)] es1 : es ++ (a, e) :: es1 = _). apply (IH _ y1); [|done].
  eapply run_step; [done| |done]. destruct a as [[v|]|s|i s]; simpl in *; try done.
  apply andb_true_iff in Hl as [H1 H2]. split; by apply Z.ltb_lt.
Qed.
End Deque.

(** ** Witness: a thief takes the first of three elements while the owner grows the buffer
    and pops, and loses the race for the last one *)

Definition owns (n : nat) : list (label (A := Z)) := repeat (Owner false) n.
Definition steals (n : nat) : list (label (A := Z)) := repeat (Thief 0 false) n.

Definition demo_labels : list (label (A := Z)) :=
  [Start (Push 1)] ++ owns 2 ++ [Start (Push 2)] ++ owns 2 ++ steals 3 ++ [Start (Push 3)] ++ owns 3
  ++ steals 2 ++ [Start Pop] ++ owns 1 ++ steals 2 ++ [Start Pop] ++ owns 1 ++ steals 3 ++ owns 2 ++ [Start Pop] ++ owns 2.

Definition demo_run := default ([], start 2 1) (execute (start 2 1) demo_labels).

Lemma deque_linearizable_witness :
  (exists l, replay demo_run.1 l) /\ (Thief 0 false, Stolen 2) ∈ demo_run.1 /\ length (parents (dq demo_run.2)) = 1%nat.
Proof.
  destruct (deque_linearizable 2 1 demo_run.1 demo_run.2) as [(l & Hl & _) _].
  - lia.
  - assert (H : execute (start 2 1) demo_labels = Some (demo_run.1, demo_run.2)) by (vm_compute; reflexivity).
    exact (execute_run 2 1 demo_labels [] (start 2 1) demo_run.1 demo_run.2 (run_start 2 1) H).
  - split; [exists l; exact Hl|]. split; [|vm_compute; reflexivity].
    apply list_elem_of_lookup. exists 23%nat. vm_compute. reflexivity.
Defined.
