(* ===== verification/Mailbox.v ===== *)
(** * The mailbox queue

    include/libhpx/util/TwoLockQueue.h: any number of threads enqueue under the tail lock
    and dequeue under the head lock, over a chain of heap nodes that starts with a dummy.
    Each access to shared memory is a step, interleaved in any way; the allocator may
    return any address that is free, those of deleted nodes included. *)

From S2P Require Import Prelude.

Section Mailbox.
Context {A : Type}.

(** ** The queue *)

Record node := mkNode { next : option Z; value : option A }.

(** What a thread has still to do of its operation. *)
Inductive thread :=
| Idle
| EnqNew (t : option A)
| EnqAcquire (n : Z) (t : option A)
| EnqLink (n : Z) (t : option A)
| EnqTail (n : Z)
| EnqRelease
| EnqReturn
| DeqAcquire
| DeqHead
| DeqNext (h : Z)
| DeqRead (h n : Z)
| DeqWrite (h n : Z) (v : option A)
| DeqAdvance (h n : Z)
| DeqRelease (r : option Z)
| DeqValue (h : Z)
| DeqDelete (h : Z) (v : option A)
| DeqReturn (v : option A).

Record queue := mkQueue {
  heap : gmap Z node;
  headLock_ : option nat;
  head_ : Z;
  tailLock_ : option nat;
  tail_ : Z;
}.

Inductive event := Silent | Effect | Ret (r : option A).

Implicit Types (s : queue) (x : thread) (i j : nat) (a h n : Z) (v : option A).

Definition with_heap s m : queue := mkQueue m s.(headLock_) s.(head_) s.(tailLock_) s.(tail_).
Definition with_headLock s l : queue := mkQueue s.(heap) l s.(head_) s.(tailLock_) s.(tail_).
Definition with_tailLock s l : queue := mkQueue s.(heap) s.(headLock_) s.(head_) l s.(tail_).

Definition set_next s a n : option queue :=
  c ← s.(heap) !! a; Some (with_heap s (<[a := mkNode (Some n) c.(value)]> s.(heap))).
Definition set_value s a v : option queue :=
  c ← s.(heap) !! a; Some (with_heap s (<[a := mkNode c.(next) v]> s.(heap))).

(** The accesses of enqueue and enqueueNode; [a] is the address that the allocator returns. *)
Definition enqueue_step s i x a : option (queue * thread * event) :=
  match x with
  | EnqNew t =>
    match s.(heap) !! a with
    | None => Some (with_heap s (<[a := mkNode None t]> s.(heap)), EnqAcquire a t, Silent)
    | Some _ => None
    end
  | EnqAcquire n t =>
    match s.(tailLock_) with
    | None => Some (with_tailLock s (Some i), EnqLink n t, Silent)
    | Some _ => None
    end
  | EnqLink n t => s ← set_next s s.(tail_) n; Some (s, EnqTail n, Effect)
  | EnqTail n => Some (mkQueue s.(heap) s.(headLock_) s.(head_) s.(tailLock_) n, EnqRelease, Silent)
  | EnqRelease => Some (with_tailLock s None, EnqReturn, Silent)
  | EnqReturn => Some (s, Idle, Ret None)
  | _ => None
  end.

(** The accesses of dequeue and dequeueNode. *)
Definition dequeue_step s i x : option (queue * thread * event) :=
  match x with
  | DeqAcquire =>
    match s.(headLock_) with
    | None => Some (with_headLock s (Some i), DeqHead, Silent)
    | Some _ => None
    end
  | DeqHead => Some (s, DeqNext s.(head_), Silent)
  | DeqNext h =>
    c ← s.(heap) !! h;
    match c.(next) with
    | None => Some (s, DeqRelease None, Effect)
    | Some n => Some (s, DeqRead h n, Silent)
    end
  | DeqRead h n => c ← s.(heap) !! n; Some (s, DeqWrite h n c.(value), Silent)
  | DeqWrite h n v => s ← set_value s h v; Some (s, DeqAdvance h n, Silent)
  | DeqAdvance h n => Some (mkQueue s.(heap) s.(headLock_) n s.(tailLock_) s.(tail_), DeqRelease (Some h), Effect)
  | DeqRelease None => Some (with_headLock s None, DeqReturn None, Silent)
  | DeqRelease (Some h) => Some (with_headLock s None, DeqValue h, Silent)
  | DeqValue h => c ← s.(heap) !! h; Some (s, DeqDelete h c.(value), Silent)
  | DeqDelete h v =>
    match s.(heap) !! h with
    | Some _ => Some (with_heap s (delete h s.(heap)), DeqReturn v, Silent)
    | None => None
    end
  | DeqReturn v => Some (s, Idle, Ret v)
  | _ => None
  end.

Definition thread_step s i x a : option (queue * thread * event) :=
  match enqueue_step s i x a with
  | Some r => Some r
  | None => dequeue_step s i x
  end.

Record system := mkSystem { shared : queue; threads : list thread }.

Inductive label :=
| CallEnqueue (i : nat) (t : option A)
| CallDequeue (i : nat)
| Step (i : nat) (a : Z).

Definition mbox_step (y : system) (l : label) : option (system * event) :=
  match l with
  | CallEnqueue i t =>
    match y.(threads) !! i with
    | Some Idle => Some (mkSystem y.(shared) (<[i := EnqNew t]> y.(threads)), Silent)
    | _ => None
    end
  | CallDequeue i =>
    match y.(threads) !! i with
    | Some Idle => Some (mkSystem y.(shared) (<[i := DeqAcquire]> y.(threads)), Silent)
    | _ => None
    end
  | Step i a =>
    x ← y.(threads) !! i;
    '(s, x, e) ← thread_step y.(shared) i x a;
    Some (mkSystem s (<[i := x]> y.(threads)), e)
  end.

(** A new queue, whose dummy node is at [a]. *)
Definition TwoLockQueue a : queue := mkQueue {[a := mkNode None None]} None a None a.

Definition mbox_start a (n : nat) : system := mkSystem (TwoLockQueue a) (replicate n Idle).

(** dequeueNode by a thread that runs alone, and the destructor. *)
Definition dequeueNode s : option (queue * option Z) :=
  c ← s.(heap) !! s.(head_);
  match c.(next) with
  | None => Some (s, None)
  | Some n =>
    d ← s.(heap) !! n;
    let h := s.(head_) in
    s ← set_value s h d.(value);
    Some (mkQueue s.(heap) s.(headLock_) n s.(tailLock_) s.(tail_), Some h)
  end.

Fixpoint destroy (fuel : nat) s : option queue :=
  match fuel with
  | O => None
  | S fuel =>
    '(s, r) ← dequeueNode s;
    match r with
    | None => Some s
    | Some h => destroy fuel (with_heap s (delete h s.(heap)))
    end
  end.

(** ** The contract: an atomic queue *)

Inductive client :=
| CIdle
| CEnqueue (t : option A)
| CEnqueued
| CDequeue
| CDequeued (r : option A).

Record spec := mkSpec { contents : list (option A); clients : list client }.

Definition spec_call (y : spec) i (c : client) : option spec :=
  match y.(clients) !! i with
  | Some CIdle => Some (mkSpec y.(contents) (<[i := c]> y.(clients)))
  | _ => None
  end.

(** The step at which the operation of client [i] takes place. *)
Definition spec_effect (y : spec) i : option spec :=
  match y.(clients) !! i with
  | Some (CEnqueue t) => Some (mkSpec (y.(contents) ++ [t]) (<[i := CEnqueued]> y.(clients)))
  | Some CDequeue =>
    match y.(contents) with
    | [] => Some (mkSpec [] (<[i := CDequeued None]> y.(clients)))
    | v :: q => Some (mkSpec q (<[i := CDequeued v]> y.(clients)))
    end
  | _ => None
  end.

Definition spec_return (y : spec) i : option (spec * option A) :=
  match y.(clients) !! i with
  | Some CEnqueued => Some (mkSpec y.(contents) (<[i := CIdle]> y.(clients)), None)
  | Some (CDequeued r) => Some (mkSpec y.(contents) (<[i := CIdle]> y.(clients)), r)
  | _ => None
  end.

(** What the contract does when the queue makes a step with an event. *)
Inductive spec_step : spec -> label -> event -> spec -> Prop :=
| spec_enqueue y i t y' : spec_call y i (CEnqueue t) = Some y' -> spec_step y (CallEnqueue i t) Silent y'
| spec_dequeue y i y' : spec_call y i CDequeue = Some y' -> spec_step y (CallDequeue i) Silent y'
| spec_silent y i a : spec_step y (Step i a) Silent y
| spec_take y i a y' : spec_effect y i = Some y' -> spec_step y (Step i a) Effect y'
| spec_ret y i a r y' : spec_return y i = Some (y', r) -> spec_step y (Step i a) (Ret r) y'.

(** ** The invariant *)

(** The chain from a node: the addresses and values of those after it. *)
Fixpoint seg (m : gmap Z node) a v (l : list (Z * option A)) : Prop :=
  m !! a = Some (mkNode (fst <$> head l) v) /\
  match l with
  | [] => True
  | (b, w) :: l => seg m b w l
  end.

(** The node that only this thread can reach. *)
Definition owned x : list Z :=
  match x with
  | EnqAcquire n _ | EnqLink n _ => [n]
  | DeqRelease (Some h) | DeqValue h | DeqDelete h _ => [h]
  | _ => []
  end.

Definition in_head x : bool :=
  match x with
  | DeqHead | DeqNext _ | DeqRead _ _ | DeqWrite _ _ _ | DeqAdvance _ _ | DeqRelease _ => true
  | _ => false
  end.
Definition in_tail x : bool :=
  match x with EnqLink _ _ | EnqTail _ | EnqRelease => true | _ => false end.

Definition all_owned (ts : list thread) : list Z := concat (map owned ts).
Definition chain s (l : list (Z * option A)) : list Z := s.(head_) :: map fst l.

Definition thread_ok s (l : list (Z * option A)) x : Prop :=
  match x with
  | EnqAcquire n t | EnqLink n t => s.(heap) !! n = Some (mkNode None t)
  | EnqTail n => last (chain s l) = Some n
  | DeqNext h => h = s.(head_)
  | DeqRead h n => h = s.(head_) /\ fst <$> head l = Some n
  | DeqWrite h n v => h = s.(head_) /\ head l = Some (n, v)
  | DeqAdvance h n => h = s.(head_) /\ exists v nx, head l = Some (n, v) /\ s.(heap) !! h = Some (mkNode nx v)
  | _ => True
  end.

Definition lock_ok s i x : Prop :=
  (in_head x = true <-> s.(headLock_) = Some i) /\ (in_tail x = true <-> s.(tailLock_) = Some i).

Definition is_EnqTail x : Prop := match x with EnqTail _ => True | _ => False end.

Record mbox_inv (y : system) (l : list (Z * option A)) : Prop := {
  mi_seg : exists v, seg y.(shared).(heap) y.(shared).(head_) v l;
  mi_nodup : NoDup (chain y.(shared) l ++ all_owned y.(threads));
  mi_dom a : is_Some (y.(shared).(heap) !! a) <-> a ∈ chain y.(shared) l ++ all_owned y.(threads);
  mi_tail : (exists i x, y.(threads) !! i = Some x /\ is_EnqTail x) \/ last (chain y.(shared) l) = Some y.(shared).(tail_);
  mi_ok i x : y.(threads) !! i = Some x -> thread_ok y.(shared) l x;
  mi_lock i x : y.(threads) !! i = Some x -> lock_ok y.(shared) i x;
  mi_holder i : y.(shared).(headLock_) = Some i \/ y.(shared).(tailLock_) = Some i -> (i < length y.(threads))%nat;
}.

(** What the contract's client sees of a thread. *)
Definition client_of s x : client :=
  match x with
  | Idle => CIdle
  | EnqNew t | EnqAcquire _ t | EnqLink _ t => CEnqueue t
  | EnqTail _ | EnqRelease | EnqReturn => CEnqueued
  | DeqAcquire | DeqHead | DeqNext _ | DeqRead _ _ | DeqWrite _ _ _ | DeqAdvance _ _ => CDequeue
  | DeqRelease None => CDequeued None
  | DeqRelease (Some h) | DeqValue h => CDequeued (c ← s.(heap) !! h; c.(value))
  | DeqDelete _ v | DeqReturn v => CDequeued v
  end.

Definition abstraction (y : system) (l : list (Z * option A)) : spec :=
  mkSpec (map snd l) (map (client_of y.(shared)) y.(threads)).

(** ** Chains *)

Lemma seg_frame (m : gmap Z node) a v l b c : b ∉ a :: map fst l -> seg m a v l -> seg (<[b := c]> m) a v l.
Proof.
  revert a v. induction l as [|[a' w] l IH]; intros a v Hb [H1 H2]; split; simpl in *.
  - rewrite lookup_insert_ne by set_solver. done.
  - done.
  - rewrite lookup_insert_ne by set_solver. done.
  - apply IH; [set_solver|done].
Qed.

Lemma seg_delete (m : gmap Z node) a v l b : b ∉ a :: map fst l -> seg m a v l -> seg (delete b m) a v l.
Proof.
  revert a v. induction l as [|[a' w] l IH]; intros a v Hb [H1 H2]; split; simpl in *.
  - rewrite lookup_delete_ne by set_solver. done.
  - done.
  - rewrite lookup_delete_ne by set_solver. done.
  - apply IH; [set_solver|done].
Qed.

Lemma seg_head (m : gmap Z node) a v l : seg m a v l -> m !! a = Some (mkNode (fst <$> head l) v).
Proof. destruct l as [|[]]; simpl; by intros [? _]. Qed.

(** The last node of a chain ends it, and can be linked to a new one. *)
Lemma seg_last (m : gmap Z node) a v l t : seg m a v l -> last (a :: map fst l) = Some t ->
  exists w, m !! t = Some (mkNode None w).
Proof.
  revert a v. induction l as [|[a' w] l IH]; intros a v [H1 H2] Hl; simpl in *.
  - injection Hl as <-. by eexists.
  - by eapply IH.
Qed.

Lemma seg_link (m : gmap Z node) a v l t w n u : NoDup (a :: map fst l) -> n ∉ a :: map fst l ->
  seg m a v l -> last (a :: map fst l) = Some t -> m !! t = Some (mkNode None w) -> m !! n = Some (mkNode None u) ->
  seg (<[t := mkNode (Some n) w]> m) a v (l ++ [(n, u)]).
Proof.
  revert a v. induction l as [|[a' w'] l IH]; intros a v Hnd Hn [H1 H2] Hl Ht Hu; simpl in *.
  - injection Hl as <-. rewrite H1 in Ht. injection Ht as <-.
    rewrite lookup_insert_eq. split; [done|]. rewrite lookup_insert_ne by set_solver. done.
  - apply NoDup_cons in Hnd as [Ha Hnd]. split.
    + rewrite lookup_insert_ne; [done|]. intros <-. apply Ha. apply last_Some_elem_of in Hl. done.
    + apply IH; try done. set_solver.
Qed.

Lemma last_map_app a (l : list (Z * option A)) n u : last (a :: map fst (l ++ [(n, u)])) = Some n.
Proof. rewrite map_app, app_comm_cons. apply last_snoc. Qed.

(** ** Ownership *)

Lemma all_owned_split ts i x : ts !! i = Some x -> all_owned ts ≡ₚ owned x ++ all_owned (delete i ts).
Proof.
  intros H. unfold all_owned. rewrite delete_take_drop. rewrite <- (take_drop_middle ts i x H) at 1.
  rewrite !map_app, !concat_app. simpl. solve_Permutation.
Qed.

Lemma all_owned_insert ts i x x' : ts !! i = Some x -> all_owned (<[i := x']> ts) ≡ₚ owned x' ++ all_owned (delete i ts).
Proof.
  intros H. rewrite (all_owned_split _ i x') by (apply list_lookup_insert_eq; by eapply lookup_lt_Some).
  rewrite !delete_take_drop. rewrite take_insert_ge, drop_insert_lt by lia. done.
Qed.

Lemma owned_elem ts i x a : ts !! i = Some x -> a ∈ owned x -> a ∈ all_owned ts.
Proof. intros H Ha. rewrite (all_owned_split _ _ _ H). set_solver. Qed.

(** What another thread owns is not ours. *)
Lemma other_owned ts i j x2 a : j <> i -> ts !! j = Some x2 -> a ∈ owned x2 -> a ∈ all_owned (delete i ts).
Proof.
  intros Hne Hj Ha. unfold all_owned. apply list_elem_of_In, in_concat. exists (owned x2).
  split; [|by apply list_elem_of_In]. apply in_map_iff. exists x2. split; [done|]. apply list_elem_of_In.
  rewrite delete_take_drop, elem_of_app. destruct (Nat.lt_ge_cases j i).
  - left. apply (list_elem_of_lookup_2 _ j). by rewrite lookup_take_lt.
  - right. apply (list_elem_of_lookup_2 _ (j - S i)%nat). rewrite lookup_drop. by replace (S i + (j - S i))%nat with j by lia.
Qed.

Lemma client_frame s s' x : (forall n, n ∈ owned x -> s'.(heap) !! n = s.(heap) !! n) -> client_of s' x = client_of s x.
Proof.
  intros Hh. destruct x as [| | | | | | | | | | | | |[]| | |]; simpl in *; try done; rewrite Hh; (done || set_solver).
Qed.

(** ** Steps *)

(** The locks as the other threads see them. *)
Definition same_locks s s' i : Prop :=
  forall j, j <> i -> (s'.(headLock_) = Some j <-> s.(headLock_) = Some j)
                   /\ (s'.(tailLock_) = Some j <-> s.(tailLock_) = Some j).

Section Update.
Context (y : system) (l : list (Z * option A)) (i : nat) (x : thread).
Context (I : mbox_inv y l) (Hi : y.(threads) !! i = Some x).

Abbreviation s0 := (y.(shared)).
Abbreviation others := (all_owned (delete i y.(threads))).

Lemma foot_split : NoDup (chain s0 l ++ owned x ++ others).
Proof. rewrite <- (all_owned_split _ _ _ Hi). apply I. Qed.

Lemma foot_dom a : is_Some (s0.(heap) !! a) <-> a ∈ chain s0 l ++ owned x ++ others.
Proof. rewrite (mi_dom _ _ I a), !elem_of_app, (all_owned_split _ _ _ Hi), elem_of_app. tauto. Qed.

Lemma mbox_update s l' x' :
  (exists v, seg s.(heap) s.(head_) v l') ->
  NoDup (chain s l' ++ owned x' ++ others) ->
  (forall a, is_Some (s.(heap) !! a) <-> a ∈ chain s l' ++ owned x' ++ others) ->
  (is_EnqTail x' \/ (exists j x2, j <> i /\ y.(threads) !! j = Some x2 /\ is_EnqTail x2) \/ last (chain s l') = Some s.(tail_)) ->
  thread_ok s l' x' ->
  (forall j x2, j <> i -> y.(threads) !! j = Some x2 -> thread_ok s l' x2) ->
  lock_ok s i x' -> same_locks s0 s i ->
  mbox_inv (mkSystem s (<[i := x']> y.(threads))) l'.
Proof.
  intros Hseg Hnd Hdom Htail Hok Hoks Hlock Hlocks.
  assert (Hlt : (i < length (threads y))%nat) by by eapply lookup_lt_Some.
  assert (Hat : <[i := x']> (threads y) !! i = Some x') by by apply list_lookup_insert_eq.
  split; cbn [shared threads].
  - done.
  - by rewrite (all_owned_insert _ _ _ x' Hi).
  - intros a. rewrite Hdom, !elem_of_app, (all_owned_insert _ _ _ x' Hi), elem_of_app. done.
  - destruct Htail as [Ht|[(j & x2 & Hj & Hx & Ht)|Ht]]; [left; by exists i, x'| |by right].
    left. exists j, x2. by rewrite list_lookup_insert_ne.
  - intros j x2 Hj. apply list_lookup_insert_Some in Hj as [(-> & <- & _)|(Hne & Hj)]; [done|]. eapply Hoks; [|done]. done.
  - intros j x2 Hj. apply list_lookup_insert_Some in Hj as [(-> & <- & _)|(Hne & Hj)]; [done|].
    destruct (Hlocks j) as [E1 E2]; [done|]. destruct (mi_lock _ _ I j x2 Hj). unfold lock_ok. by rewrite E1, E2.
  - intros j Hj. rewrite length_insert. destruct (decide (j = i)) as [->|Hne]; [done|].
    destruct (Hlocks j Hne) as [E1 E2]. apply (mi_holder _ _ I). by rewrite <- E1, <- E2.
Qed.

Lemma abstraction_update s l' x' :
  (forall j x2, j <> i -> y.(threads) !! j = Some x2 -> client_of s x2 = client_of s0 x2) ->
  abstraction (mkSystem s (<[i := x']> y.(threads))) l'
  = mkSpec (map snd l') (<[i := client_of s x']> (map (client_of s0) y.(threads))).
Proof.
  intros H. unfold abstraction; simpl. f_equal. apply list_eq. intros j. rewrite list_lookup_fmap.
  destruct (decide (j = i)) as [->|Hne].
  - assert ((i < length (threads y))%nat) by by eapply lookup_lt_Some.
    rewrite !list_lookup_insert_eq; [done| |done]. by rewrite length_fmap.
  - rewrite !list_lookup_insert_ne by done. rewrite list_lookup_fmap.
    destruct (threads y !! j) as [x2|] eqn:Hj; [|done]. simpl. by rewrite (H j).
Qed.

(** A step that changes neither the heap nor the head. *)
Lemma local_update s x' : s.(heap) = s0.(heap) -> s.(head_) = s0.(head_) -> owned x' = owned x ->
  (is_EnqTail x' \/ ~ is_EnqTail x /\ s.(tail_) = s0.(tail_) \/ last (chain s l) = Some s.(tail_)) ->
  thread_ok s l x' -> lock_ok s i x' -> same_locks s0 s i ->
  mbox_inv (mkSystem s (<[i := x']> y.(threads))) l
  /\ abstraction (mkSystem s (<[i := x']> y.(threads))) l
     = mkSpec (map snd l) (<[i := client_of s x']> (map (client_of s0) y.(threads))).
Proof.
  intros Eh Ed Eo Ht Hok Hlock Hlocks. assert (Ec : chain s l = chain s0 l) by (unfold chain; by rewrite Ed). split.
  - apply mbox_update; try done.
    + rewrite Eh, Ed. apply I.
    + rewrite Ec, Eo. apply foot_split.
    + intros a. rewrite Ec, Eo, Eh. apply foot_dom.
    + destruct Ht as [Ht|[[Hx Ht]|Ht]]; [by left| |by right; right]. right.
      destruct (mi_tail _ _ I) as [(j & x2 & Hj & Hx2)|Hl]; [|right; by rewrite Ec, Ht].
      left. exists j, x2. split; [|done]. intros ->. by simplify_eq.
    + intros j x2 _ Hj. pose proof (mi_ok _ _ I j x2 Hj) as H. destruct x2; simpl in *; rewrite ?Eh, ?Ed, ?Ec; done.
  - apply abstraction_update. intros j x2 _ _. destruct x2 as [| | | | | | | | | | | | |[]| | |]; simpl; by rewrite ?Eh.
Qed.

Abbreviation refines s x' l' e := (mbox_inv (mkSystem s (<[i := x']> y.(threads))) l'
  /\ forall a, spec_step (abstraction y l) (Step i a) e (abstraction (mkSystem s (<[i := x']> y.(threads))) l')).

Lemma client_at : (abstraction y l).(clients) !! i = Some (client_of s0 x).
Proof. simpl. rewrite list_lookup_fmap, Hi. done. Qed.

(** A silent step leaves the contract where it is. *)
Lemma silent_update s l' x' : mbox_inv (mkSystem s (<[i := x']> y.(threads))) l' -> map snd l' = map snd l ->
  (forall j x2, j <> i -> y.(threads) !! j = Some x2 -> client_of s x2 = client_of s0 x2) ->
  client_of s x' = client_of s0 x -> refines s x' l' Silent.
Proof.
  intros HI El Hc Hx. split; [done|]. intros a. rewrite abstraction_update by done.
  rewrite El, Hx, list_insert_id by apply client_at. apply spec_silent.
Qed.

Lemma local_silent s x' : s.(heap) = s0.(heap) -> s.(head_) = s0.(head_) -> owned x' = owned x ->
  (is_EnqTail x' \/ ~ is_EnqTail x /\ s.(tail_) = s0.(tail_) \/ last (chain s l) = Some s.(tail_)) ->
  thread_ok s l x' -> lock_ok s i x' -> same_locks s0 s i -> client_of s x' = client_of s0 x ->
  refines s x' l Silent.
Proof.
  intros Eh Ed Eo Ht Hok Hl Hs Hc. destruct (local_update s x' Eh Ed Eo Ht Hok Hl Hs) as [H1 H2].
  split; [done|]. intros a. rewrite H2, Hc, list_insert_id by apply client_at. apply spec_silent.
Qed.

Lemma same_locks_refl : same_locks s0 s0 i.
Proof. done. Qed.

(** An address outside the footprint of the other threads is not theirs. *)
Lemma ok_frame s l' j x2 : j <> i -> y.(threads) !! j = Some x2 ->
  (forall n, n ∈ owned x2 -> s.(heap) !! n = s0.(heap) !! n) -> in_head x2 = false -> ~ is_EnqTail x2 ->
  thread_ok s l' x2.
Proof.
  intros Hne Hj Hh Hin Ht. pose proof (mi_ok _ _ I j x2 Hj) as H.
  destruct x2; simpl in *; try done; rewrite Hh; (done || set_solver).
Qed.

Lemma other_not_head j x2 : j <> i -> in_head x = true -> y.(threads) !! j = Some x2 -> in_head x2 = false.
Proof.
  intros Hne Hx Hj. destruct (mi_lock _ _ I i x Hi) as [[H1 _] _]. destruct (mi_lock _ _ I j x2 Hj) as [[H2 _] _].
  destruct (in_head x2); [|done]. specialize (H1 Hx). specialize (H2 eq_refl). congruence.
Qed.

Lemma other_not_tail j x2 : j <> i -> in_tail x = true -> y.(threads) !! j = Some x2 -> in_tail x2 = false.
Proof.
  intros Hne Hx Hj. destruct (mi_lock _ _ I i x Hi) as [_ [H1 _]]. destruct (mi_lock _ _ I j x2 Hj) as [_ [H2 _]].
  destruct (in_tail x2); [|done]. specialize (H1 Hx). specialize (H2 eq_refl). congruence.
Qed.

End Update.

Section Cases.
Context (y : system) (l : list (Z * option A)) (i : nat) (I : mbox_inv y l).

Abbreviation s0 := (y.(shared)).
Abbreviation others := (all_owned (delete i y.(threads))).
Abbreviation refines s x' l' e := (mbox_inv (mkSystem s (<[i := x']> y.(threads))) l'
  /\ forall a, spec_step (abstraction y l) (Step i a) e (abstraction (mkSystem s (<[i := x']> y.(threads))) l')).

(** [new Node(t)]. *)
Lemma alloc_refines t a : y.(threads) !! i = Some (EnqNew t) -> s0.(heap) !! a = None ->
  refines (with_heap s0 (<[a := mkNode None t]> s0.(heap))) (EnqAcquire a t) l Silent.
Proof.
  intros Hi Ha. assert (Hn : a ∉ chain s0 l ++ owned (EnqNew t) ++ others).
  { intros Hin. apply (foot_dom y l i _ I Hi) in Hin as [? ?]. congruence. }
  assert (Hframe : forall j x2 n, j <> i -> y.(threads) !! j = Some x2 -> n ∈ owned x2 ->
    <[a := mkNode None t]> s0.(heap) !! n = s0.(heap) !! n).
  { intros j x2 n Hne Hj Hin. rewrite lookup_insert_ne; [done|]. intros <-. apply Hn.
    rewrite !elem_of_app. right. right. by eapply other_owned. }
  apply (silent_update y l i _ Hi); [|done| |done].
  2: { intros j x2 Hne Hj. apply client_frame. intros n Hin. by eapply Hframe. }
  apply (mbox_update y l i _ I Hi); simpl.
  - destruct (mi_seg _ _ I) as [v Hs]. exists v. apply seg_frame; [|done]. unfold chain in Hn. set_solver.
  - pose proof (foot_split y l i _ I Hi) as Hf. change (NoDup (chain s0 l ++ [a] ++ others)).
    assert (P : chain s0 l ++ [a] ++ others ≡ₚ a :: (chain s0 l ++ others)) by solve_Permutation.
    rewrite P. apply NoDup_cons. by split.
  - intros b. destruct (decide (b = a)) as [->|Hne].
    + rewrite lookup_insert_eq. split; [|by eexists]. intros _. set_solver.
    + rewrite lookup_insert_ne by done. rewrite (foot_dom y l i _ I Hi). simpl. set_solver.
  - right. destruct (mi_tail _ _ I) as [(j & x2 & Hj & Hx2)|?]; [left; exists j, x2|by right].
    split; [|done]. intros ->. by simplify_eq.
  - by rewrite lookup_insert_eq.
  - intros j x2 Hne Hj. pose proof (mi_ok _ _ I j x2 Hj) as H. pose proof (Hframe j x2) as Hf.
    destruct x2; simpl in *; try done; try (rewrite Hf by (done || apply list_elem_of_here); done).
    destruct H as [-> (v & nx & H1 & H2)]. split; [done|]. exists v, nx. split; [done|].
    rewrite lookup_insert_ne; [done|]. intros ->. congruence.
  - pose proof (mi_lock _ _ I i _ Hi) as H. done.
  - done.
Qed.

(** [tail_->next = node]: the operation takes place here. *)
Lemma link_refines n t : y.(threads) !! i = Some (EnqLink n t) ->
  exists s, set_next s0 s0.(tail_) n = Some s /\ refines s (EnqTail n) (l ++ [(n, t)]) Effect.
Proof.
  intros Hi. pose proof (mi_ok _ _ I _ _ Hi) as Hn; simpl in Hn. destruct (mi_seg _ _ I) as [v Hs].
  pose proof (foot_split y l i _ I Hi) as Hf. cbn [owned] in Hf.
  assert (Hnt : forall j x2, j <> i -> y.(threads) !! j = Some x2 -> in_tail x2 = false).
  { intros j x2 Hne Hj. by eapply (other_not_tail y l i (EnqLink n t)). }
  assert (Hl : last (chain s0 l) = Some (tail_ s0)).
  { destruct (mi_tail _ _ I) as [(j & x2 & Hj & Hx2)|?]; [|done]. destruct (decide (j = i)) as [->|Hne]; [by simplify_eq|].
    specialize (Hnt j x2 Hne Hj). by destruct x2. }
  destruct (seg_last _ _ _ _ _ Hs Hl) as [w Hw].
  assert (Htin : tail_ s0 ∈ chain s0 l) by by apply last_Some_elem_of.
  apply NoDup_app in Hf as (Hc & Hdis & Ho).
  assert (Hnc : n ∉ chain s0 l) by (intros Hin; by apply (Hdis n Hin), list_elem_of_here).
  set (s := with_heap s0 (<[tail_ s0 := mkNode (Some n) w]> (heap s0))).
  exists s. split; [unfold set_next; by rewrite Hw|].
  assert (Hch : chain s (l ++ [(n, t)]) = chain s0 l ++ [n]) by (unfold chain; simpl; by rewrite map_app).
  assert (Hframe : forall j x2 b, j <> i -> y.(threads) !! j = Some x2 -> b ∈ owned x2 -> s.(heap) !! b = s0.(heap) !! b).
  { intros j x2 b Hne Hj Hb. simpl. rewrite lookup_insert_ne; [done|]. intros <-. apply (Hdis _ Htin). right. by eapply other_owned. }
  split.
  - apply (mbox_update y l i _ I Hi).
    + exists v. simpl. by apply seg_link.
    + rewrite Hch, <- app_assoc. apply NoDup_app. by split.
    + intros b. rewrite Hch, <- app_assoc. rewrite <- (foot_dom y l i _ I Hi b). simpl.
      destruct (decide (b = tail_ s0)) as [->|Hne]; [rewrite lookup_insert_eq, Hw|by rewrite lookup_insert_ne].
      split; intros _; by eexists.
    + by left.
    + simpl. rewrite Hch. apply last_snoc.
    + intros j x2 Hne Hj. pose proof (mi_ok _ _ I j x2 Hj) as H. specialize (Hnt j x2 Hne Hj).
      pose proof (Hframe j x2) as Hfr. destruct x2; cbn [thread_ok] in *; try done.
      * rewrite Hfr by (done || apply list_elem_of_here). done.
      * destruct H as [-> H]. split; [done|]. destruct l as [|[? ?] ?]; done.
      * destruct H as [-> H]. split; [done|]. destruct l as [|[? ?] ?]; done.
      * destruct H as [-> (v' & nx & H1 & H2)]. split; [done|].
        exists v'. simpl. destruct (decide (tail_ s0 = head_ s0)) as [E|E].
        -- rewrite E in *. rewrite lookup_insert_eq. exists (Some n). split; [destruct l; done|]. congruence.
        -- rewrite lookup_insert_ne by done. exists nx. split; [destruct l; done|]. done.
    + pose proof (mi_lock _ _ I i _ Hi). done.
    + done.
  - intros a. rewrite (abstraction_update y i _ Hi) by (intros j x2 Hne Hj; apply client_frame; intros b Hb; by eapply Hframe).
    apply spec_take. unfold spec_effect. rewrite (client_at y l i _ Hi). simpl. by rewrite map_app.
Qed.

(** [head->value = next->value]. *)
Lemma write_refines h n v : y.(threads) !! i = Some (DeqWrite h n v) ->
  exists s, set_value s0 h v = Some s /\ refines s (DeqAdvance h n) l Silent.
Proof.
  intros Hi. pose proof (mi_ok _ _ I _ _ Hi) as [-> Hh]. destruct (mi_seg _ _ I) as [w Hs].
  pose proof (seg_head _ _ _ _ Hs) as Hw. pose proof (foot_split y l i _ I Hi) as Hf. simpl in Hf.
  apply NoDup_cons in Hf as [Hnh Hf].
  set (s := with_heap s0 (<[head_ s0 := mkNode (fst <$> head l) v]> (heap s0))).
  exists s. split; [unfold set_value; by rewrite Hw|].
  assert (Hframe : forall j x2 b, j <> i -> y.(threads) !! j = Some x2 -> b ∈ owned x2 -> s.(heap) !! b = s0.(heap) !! b).
  { intros j x2 b Hne Hj Hb. simpl. rewrite lookup_insert_ne; [done|]. intros <-. apply Hnh. rewrite elem_of_app. right. by eapply other_owned. }
  apply (silent_update y l i _ Hi); [|done| |done].
  2: { intros j x2 Hne Hj. apply client_frame. intros b Hb. by eapply Hframe. }
  apply (mbox_update y l i _ I Hi).
  - exists v. simpl. destruct l as [|[b u] l']; split; [by rewrite lookup_insert_eq|done|by rewrite lookup_insert_eq|].
    destruct Hs as [_ Hs]. apply seg_frame; [|done]. intros Hin. apply Hnh. apply elem_of_app. by left.
  - apply (foot_split y l i _ I Hi).
  - intros b. transitivity (is_Some (heap s0 !! b)); [|apply (foot_dom y l i _ I Hi b)]. simpl.
    destruct (decide (b = head_ s0)) as [->|Hne]; [rewrite lookup_insert_eq, Hw|by rewrite lookup_insert_ne].
    split; intros _; by eexists.
  - right. destruct (mi_tail _ _ I) as [(j & x2 & Hj & Hx2)|?]; [left; exists j, x2|by right].
    split; [|done]. intros ->. by simplify_eq.
  - split; [done|]. simpl. exists v, (fst <$> head l). split; [done|]. by rewrite lookup_insert_eq.
  - intros j x2 Hne Hj. pose proof (mi_ok _ _ I j x2 Hj) as H.
    pose proof (other_not_head y l i _ I Hi j x2 Hne eq_refl Hj) as Hnin.
    pose proof (Hframe j x2) as Hfr. destruct x2; cbn [thread_ok] in *; try done;
      rewrite Hfr by (done || apply list_elem_of_here); done.
  - pose proof (mi_lock _ _ I i _ Hi). done.
  - done.
Qed.

(** [head_ = next]: the operation takes place here. *)
Lemma advance_refines h n : y.(threads) !! i = Some (DeqAdvance h n) ->
  exists l', refines (mkQueue s0.(heap) s0.(headLock_) n s0.(tailLock_) s0.(tail_)) (DeqRelease (Some h)) l' Effect.
Proof.
  intros Hi. pose proof (mi_ok _ _ I _ _ Hi) as [-> (v & nx & Hh & Hv)]. destruct (mi_seg _ _ I) as [w Hs].
  destruct l as [|[b u] l']; [done|]. simpl in Hh. injection Hh as -> ->. destruct Hs as [H0 Hs].
  rewrite H0 in Hv. injection Hv as _ ->. exists l'.
  set (s := mkQueue _ _ _ _ _).
  assert (Hch : forall k, chain s0 ((n, v) :: l') ++ k = head_ s0 :: chain s l' ++ k) by done.
  split.
  - apply (mbox_update y _ i _ I Hi).
    + exists v. done.
    + pose proof (foot_split y _ i _ I Hi) as Hf. rewrite Hch in Hf. cbn [owned] in *.
      assert (P : chain s l' ++ [head_ s0] ++ others ≡ₚ head_ s0 :: chain s l' ++ others) by solve_Permutation.
      by rewrite P.
    + intros b. etransitivity; [apply (foot_dom y _ i _ I Hi b)|]. rewrite Hch. cbn [owned]. rewrite !elem_of_app, elem_of_cons, !elem_of_app, list_elem_of_singleton.
      rewrite (elem_of_nil b). tauto.
    + right. destruct (mi_tail _ _ I) as [(j & x2 & Hj & Hx2)|H]; [left; exists j, x2|right].
      * split; [|done]. intros ->. by simplify_eq.
      * done.
    + done.
    + intros j x2 Hne Hj. pose proof (mi_ok _ _ I j x2 Hj) as H.
      pose proof (other_not_head y _ i _ I Hi j x2 Hne eq_refl Hj) as Hnin.
      by destruct x2.
    + pose proof (mi_lock _ _ I i _ Hi). done.
    + done.
  - intros a. rewrite (abstraction_update y i _ Hi) by done.
    apply spec_take. unfold spec_effect. rewrite (client_at y _ i _ Hi). simpl. by rewrite H0.
Qed.

(** [delete node]. *)
Lemma delete_refines h v : y.(threads) !! i = Some (DeqDelete h v) ->
  is_Some (s0.(heap) !! h) /\ refines (with_heap s0 (delete h s0.(heap))) (DeqReturn v) l Silent.
Proof.
  intros Hi. pose proof (foot_split y l i _ I Hi) as Hf. cbn [owned] in Hf.
  split; [apply (foot_dom y l i _ I Hi); cbn [owned]; rewrite !elem_of_app, list_elem_of_singleton; tauto|].
  set (s := with_heap _ _). apply NoDup_app in Hf as (Hc & Hdis & Ho). apply NoDup_cons in Ho as [Hno Ho].
  assert (Hnc : h ∉ chain s0 l) by (intros Hin; by apply (Hdis h Hin), list_elem_of_here).
  assert (Hframe : forall j x2 b, j <> i -> y.(threads) !! j = Some x2 -> b ∈ owned x2 -> s.(heap) !! b = s0.(heap) !! b).
  { intros j x2 b Hne Hj Hb. simpl. rewrite lookup_delete_ne; [done|]. intros <-. apply Hno. by eapply other_owned. }
  apply (silent_update y l i _ Hi); [|done| |done].
  2: { intros j x2 Hne Hj. apply client_frame. intros b Hb. by eapply Hframe. }
  apply (mbox_update y l i _ I Hi).
  - destruct (mi_seg _ _ I) as [w Hs]. exists w. by apply seg_delete.
  - cbn [owned]. apply NoDup_app. split; [done|]. split; [|done]. intros b Hb Hin. apply (Hdis b Hb). by right.
  - intros b. pose proof (foot_dom y l i _ I Hi b) as Hd. cbn [owned] in *.
    change (heap s) with (delete h (heap s0)). change (chain s l) with (chain s0 l). rewrite !elem_of_app, list_elem_of_singleton in Hd.
    rewrite !elem_of_app, (elem_of_nil b). destruct (decide (b = h)) as [->|Hne].
    + rewrite lookup_delete_eq. split; [by intros []|]. tauto.
    + rewrite lookup_delete_ne by done. tauto.
  - right. destruct (mi_tail _ _ I) as [(j & x2 & Hj & Hx2)|?]; [left; exists j, x2|by right].
    split; [|done]. intros ->. by simplify_eq.
  - done.
  - intros j x2 Hne Hj. pose proof (mi_ok _ _ I j x2 Hj) as H. pose proof (Hframe j x2) as Hfr.
    destruct x2; cbn [thread_ok] in *; try done; try (rewrite Hfr by (done || apply list_elem_of_here); done).
    destruct H as [-> (v' & nx & H1 & H2)]. split; [done|]. exists v', nx. split; [done|]. simpl.
    rewrite lookup_delete_ne; [done|]. intros ->. apply Hnc. by left.
  - pose proof (mi_lock _ _ I i _ Hi). done.
  - done.
Qed.

End Cases.

Lemma lock_head y l i x x' : mbox_inv y l -> y.(threads) !! i = Some x -> y.(shared).(headLock_) = None ->
  in_head x' = true -> in_tail x' = in_tail x ->
  lock_ok (with_headLock y.(shared) (Some i)) i x' /\ same_locks y.(shared) (with_headLock y.(shared) (Some i)) i.
Proof.
  intros I Hi Hl H1 H2. destruct (mi_lock _ _ I _ _ Hi) as [_ Ht]. unfold lock_ok, same_locks; simpl. rewrite H1, H2, Hl.
  split; [by split|]. intros j Hne. split; [|done]. split; [by intros [= ->]|done].
Qed.

Lemma unlock_head y l i x x' : mbox_inv y l -> y.(threads) !! i = Some x -> in_head x = true ->
  in_head x' = false -> in_tail x' = in_tail x ->
  lock_ok (with_headLock y.(shared) None) i x' /\ same_locks y.(shared) (with_headLock y.(shared) None) i.
Proof.
  intros I Hi Hx H1 H2. destruct (mi_lock _ _ I _ _ Hi) as [Hh Ht]. unfold lock_ok, same_locks; simpl. rewrite H1, H2.
  apply Hh in Hx. rewrite Hx. split; [by split|]. intros j Hne. split; [|done]. split; [done|by intros [= ->]].
Qed.

Lemma lock_tail y l i x x' : mbox_inv y l -> y.(threads) !! i = Some x -> y.(shared).(tailLock_) = None ->
  in_tail x' = true -> in_head x' = in_head x ->
  lock_ok (with_tailLock y.(shared) (Some i)) i x' /\ same_locks y.(shared) (with_tailLock y.(shared) (Some i)) i.
Proof.
  intros I Hi Hl H1 H2. destruct (mi_lock _ _ I _ _ Hi) as [Hh _]. unfold lock_ok, same_locks; simpl. rewrite H1, H2, Hl.
  split; [by split|]. intros j Hne. split; [done|]. split; [by intros [= ->]|done].
Qed.

Lemma unlock_tail y l i x x' : mbox_inv y l -> y.(threads) !! i = Some x -> in_tail x = true ->
  in_tail x' = false -> in_head x' = in_head x ->
  lock_ok (with_tailLock y.(shared) None) i x' /\ same_locks y.(shared) (with_tailLock y.(shared) None) i.
Proof.
  intros I Hi Hx H1 H2. destruct (mi_lock _ _ I _ _ Hi) as [Hh Ht]. unfold lock_ok, same_locks; simpl. rewrite H1, H2.
  apply Ht in Hx. rewrite Hx. split; [by split|]. intros j Hne. split; [done|]. split; [done|by intros [= ->]].
Qed.

(** A step that changes nothing that is shared. *)
Lemma private_update y l i x x' : mbox_inv y l -> y.(threads) !! i = Some x -> owned x' = owned x ->
  ~ is_EnqTail x -> thread_ok y.(shared) l x' -> in_head x' = in_head x -> in_tail x' = in_tail x ->
  mbox_inv (mkSystem y.(shared) (<[i := x']> y.(threads))) l
  /\ abstraction (mkSystem y.(shared) (<[i := x']> y.(threads))) l
     = mkSpec (map snd l) (<[i := client_of y.(shared) x']> (map (client_of y.(shared)) y.(threads))).
Proof.
  intros I Hi Ho Ht Hok H1 H2. apply (local_update y l i x I Hi); try done; [tauto|].
  destruct (mi_lock _ _ I _ _ Hi). unfold lock_ok. by rewrite H1, H2.
Qed.

Lemma private_silent y l i a x x' : mbox_inv y l -> y.(threads) !! i = Some x -> owned x' = owned x ->
  ~ is_EnqTail x -> thread_ok y.(shared) l x' -> in_head x' = in_head x -> in_tail x' = in_tail x ->
  client_of y.(shared) x' = client_of y.(shared) x ->
  mbox_inv (mkSystem y.(shared) (<[i := x']> y.(threads))) l
  /\ spec_step (abstraction y l) (Step i a) Silent (abstraction (mkSystem y.(shared) (<[i := x']> y.(threads))) l).
Proof.
  intros I Hi Ho Ht Hok H1 H2 Hc. destruct (private_update y l i x x' I Hi Ho Ht Hok H1 H2) as [H3 H4].
  split; [done|]. rewrite H4, Hc, list_insert_id by apply (client_at y l i x Hi). apply spec_silent.
Qed.

Lemma enqueue_refines y l i x a s x' e : mbox_inv y l -> y.(threads) !! i = Some x ->
  enqueue_step y.(shared) i x a = Some (s, x', e) ->
  exists l', mbox_inv (mkSystem s (<[i := x']> y.(threads))) l'
    /\ spec_step (abstraction y l) (Step i a) e (abstraction (mkSystem s (<[i := x']> y.(threads))) l').
Proof.
  intros I Hi Hs. pose proof (mi_ok _ _ I _ _ Hi) as Hok. destruct x as [|t|n t|n t|n| | | | | | | | | | | |]; try done; simpl in Hs.
  - destruct (heap (shared y) !! a) eqn:Ha; [done|]. injection Hs as <- <- <-. exists l.
    destruct (alloc_refines y l i I t a Hi Ha) as [H1 H2]. split; [done|apply H2].
  - destruct (tailLock_ (shared y)) eqn:El; [done|]. injection Hs as <- <- <-. exists l.
    destruct (lock_tail y l i _ (EnqLink n t) I Hi El) as [H1 H2]; [done..|].
    destruct (local_silent y l i _ I Hi (with_tailLock (shared y) (Some i)) (EnqLink n t)) as [H3 H4]; [first [done|tauto|by right; right]..|].
    split; [done|apply H4].
  - destruct (link_refines y l i I n t Hi) as (s' & E & H1 & H2). rewrite E in Hs. simpl in Hs. injection Hs as <- <- <-.
    eexists; split; [done|apply H2].
  - injection Hs as <- <- <-. exists l. pose proof (mi_lock _ _ I _ _ Hi) as Hl.
    destruct (local_silent y l i _ I Hi (mkQueue (heap (shared y)) (headLock_ (shared y)) (head_ (shared y)) (tailLock_ (shared y)) n) EnqRelease)
      as [H3 H4]; [first [done|tauto|by right; right]..|]. split; [done|apply H4].
  - injection Hs as <- <- <-. exists l. destruct (unlock_tail y l i _ EnqReturn I Hi) as [H1 H2]; [done..|].
    destruct (local_silent y l i _ I Hi (with_tailLock (shared y) None) EnqReturn) as [H3 H4]; [first [done|tauto|by right; right]..|].
    split; [done|apply H4].
  - injection Hs as <- <- <-. exists l. destruct (private_update y l i _ Idle I Hi) as [H1 H2]; [done|tauto|done..|].
    split; [done|]. rewrite H2. apply spec_ret. unfold spec_return. by rewrite (client_at y l i _ Hi).
Qed.

Lemma dequeue_refines y l i x a s x' e : mbox_inv y l -> y.(threads) !! i = Some x ->
  dequeue_step y.(shared) i x = Some (s, x', e) ->
  exists l', mbox_inv (mkSystem s (<[i := x']> y.(threads))) l'
    /\ spec_step (abstraction y l) (Step i a) e (abstraction (mkSystem s (<[i := x']> y.(threads))) l').
Proof.
  intros I Hi Hs. pose proof (mi_ok _ _ I _ _ Hi) as Hok. destruct (mi_seg _ _ I) as [u Hseg].
  destruct x as [| | | | | | | | |h|h n|h n v|h n|r|h|h v|v]; try done; simpl in Hs.
  - destruct (headLock_ (shared y)) eqn:El; [done|]. injection Hs as <- <- <-. exists l.
    destruct (lock_head y l i _ DeqHead I Hi El) as [H1 H2]; [done..|].
    destruct (local_silent y l i _ I Hi (with_headLock (shared y) (Some i)) DeqHead) as [H3 H4]; [first [done|tauto|by right; right]..|].
    split; [done|apply H4].
  - injection Hs as <- <- <-. exists l. apply (private_silent _ _ _ _ DeqHead); try done. tauto.
  - simpl in Hok. subst h. rewrite (seg_head _ _ _ _ Hseg) in Hs. cbn [mbind option_bind next] in Hs.
    destruct (fst <$> head l) as [n|] eqn:Eh; injection Hs as <- <- <-; exists l.
    + apply (private_silent _ _ _ _ (DeqNext (head_ (shared y)))); try done. tauto.
    + destruct (private_update y l i _ (DeqRelease None) I Hi) as [H1 H2]; [done|tauto|done..|].
      split; [done|]. rewrite H2. apply spec_take. unfold spec_effect. rewrite (client_at y l i _ Hi). simpl. by destruct l.
  - destruct Hok as [-> Hn]. destruct l as [|[b w] l']; simpl in Hn; [done|]. injection Hn as ->.
    destruct Hseg as [_ Hseg]. rewrite (seg_head _ _ _ _ Hseg) in Hs. cbn [mbind option_bind value] in Hs.
    injection Hs as <- <- <-. eexists. apply (private_silent _ _ _ _ (DeqRead (head_ (shared y)) n)); try done. tauto.
  - destruct (write_refines y l i I h n v Hi) as (s' & E & H1 & H2). rewrite E in Hs. simpl in Hs. injection Hs as <- <- <-.
    eexists; split; [done|apply H2].
  - injection Hs as <- <- <-. destruct (advance_refines y l i I h n Hi) as (l' & H1 & H2). exists l'. split; [done|apply H2].
  - destruct r as [h|]; injection Hs as <- <- <-; exists l.
    + destruct (unlock_head y l i _ (DeqValue h) I Hi) as [H1 H2]; [done..|].
      destruct (local_silent y l i _ I Hi (with_headLock (shared y) None) (DeqValue h)) as [H3 H4]; [first [done|tauto|by right; right]..|].
      split; [done|apply H4].
    + destruct (unlock_head y l i _ (DeqReturn None) I Hi) as [H1 H2]; [done..|].
      destruct (local_silent y l i _ I Hi (with_headLock (shared y) None) (DeqReturn None)) as [H3 H4]; [first [done|tauto|by right; right]..|].
      split; [done|apply H4].
  - destruct (heap (shared y) !! h) as [c|] eqn:Eh; [|done]. simpl in Hs. injection Hs as <- <- <-. exists l.
    apply (private_silent _ _ _ _ (DeqValue h)); try done; [tauto|]. simpl. by rewrite Eh.
  - destruct (delete_refines y l i I h v Hi) as [[c E] [H1 H2]]. rewrite E in Hs. injection Hs as <- <- <-.
    exists l. split; [done|apply H2].
  - injection Hs as <- <- <-. exists l. destruct (private_update y l i _ Idle I Hi) as [H1 H2]; [done|tauto|done..|].
    split; [done|]. rewrite H2. apply spec_ret. unfold spec_return. by rewrite (client_at y l i _ Hi).
Qed.

Lemma mbox_step_refines y l (b : label) y' e : mbox_inv y l -> mbox_step y b = Some (y', e) ->
  exists l', mbox_inv y' l' /\ spec_step (abstraction y l) b e (abstraction y' l').
Proof.
  intros I. destruct b as [i t|i|i a]; simpl; destruct (threads y !! i) as [x|] eqn:Hi; [|done| |done| |done].
  - destruct x; try done. intros [= <- <-]. exists l.
    destruct (private_update y l i _ (EnqNew t) I Hi) as [H1 H2]; [done|tauto|done..|].
    split; [done|]. rewrite H2. apply spec_enqueue. unfold spec_call. by rewrite (client_at y l i _ Hi).
  - destruct x; try done. intros [= <- <-]. exists l.
    destruct (private_update y l i _ DeqAcquire I Hi) as [H1 H2]; [done|tauto|done..|].
    split; [done|]. rewrite H2. apply spec_dequeue. unfold spec_call. by rewrite (client_at y l i _ Hi).
  - cbn [mbind option_bind]. unfold thread_step. destruct (enqueue_step _ _ _ _) as [[[s x'] e']|] eqn:E.
    + intros [= <- <-]. by eapply enqueue_refines.
    + destruct (dequeue_step _ _ _) as [[[s x'] e']|] eqn:E'; [|done]. intros [= <- <-]. by eapply dequeue_refines.
Qed.

Lemma mbox_start_inv a (n : nat) : mbox_inv (mbox_start a n) [].
Proof.
  assert (Ho : all_owned (replicate n Idle) = []) by (induction n; done).
  split; simpl; rewrite ?Ho.
  - exists None. by rewrite lookup_singleton_eq.
  - apply NoDup_singleton.
  - intros b. rewrite list_elem_of_singleton. destruct (decide (b = a)) as [->|Hne].
    + rewrite lookup_singleton_eq. split; [done|by eexists].
    + rewrite lookup_singleton_ne by done. split; [by intros []|done].
  - by right.
  - intros i x [-> _]%lookup_replicate. done.
  - intros i x [-> _]%lookup_replicate. done.
  - by intros i [?|?].
Qed.

(** ** Runs *)

Inductive mbox_run a (n : nat) : list (label * event) -> system -> Prop :=
| mbox_nil : mbox_run a n [] (mbox_start a n)
| mbox_cons tr y b y' e : mbox_run a n tr y -> mbox_step y b = Some (y', e) -> mbox_run a n (tr ++ [(b, e)]) y'.

Inductive spec_run (n : nat) : list (label * event) -> spec -> Prop :=
| spec_nil : spec_run n [] (mkSpec [] (replicate n CIdle))
| spec_cons tr y b y' e : spec_run n tr y -> spec_step y b e y' -> spec_run n (tr ++ [(b, e)]) y'.

Lemma mbox_run_refines a (n : nat) tr y : mbox_run a n tr y -> exists l, mbox_inv y l /\ spec_run n tr (abstraction y l).
Proof.
  induction 1 as [|tr y b y' e Hr (l & I & Hs) Hst].
  - exists []. split; [apply mbox_start_inv|]. unfold abstraction; simpl. change (map ?f ?l) with (f <$> l). rewrite fmap_replicate. constructor.
  - destruct (mbox_step_refines _ _ _ _ _ I Hst) as (l' & I' & Hs'). exists l'. split; [done|]. by econstructor.
Qed.

(** A thread that has an operation to go on with can make a step, or waits for a lock that
    another thread holds. *)
Definition waits (y : system) i j : Prop :=
  j <> i /\ (y.(threads) !! i = Some DeqAcquire /\ y.(shared).(headLock_) = Some j
           \/ exists n t, y.(threads) !! i = Some (EnqAcquire n t) /\ y.(shared).(tailLock_) = Some j).

Definition can_step (y : system) i : Prop := exists a y' e, mbox_step y (Step i a) = Some (y', e).

Lemma thread_can_step y i x a s x' e : y.(threads) !! i = Some x ->
  thread_step y.(shared) i x a = Some (s, x', e) -> can_step y i.
Proof. intros Hi Hs. exists a. do 2 eexists. simpl. rewrite Hi; cbn [mbind option_bind]. by rewrite Hs. Qed.

Lemma mbox_progress y l i x : mbox_inv y l -> y.(threads) !! i = Some x -> x <> Idle ->
  can_step y i \/ exists j, waits y i j.
Proof.
  intros I Hi Hx. pose proof (mi_ok _ _ I _ _ Hi) as Hok. destruct (mi_seg _ _ I) as [u Hseg].
  pose proof (fun a => proj2 (foot_dom y l i x I Hi a)) as Hdom. pose proof (mi_lock _ _ I _ _ Hi) as [Hl1 Hl2].
  assert (Hstep : forall a, is_Some (thread_step (shared y) i x a) -> can_step y i).
  { intros a [[[s x'] e] E]. by eapply thread_can_step. }
  assert (Hown : forall h, h ∈ owned x -> exists c, heap (shared y) !! h = Some c).
  { intros h Hh. apply Hdom. rewrite !elem_of_app. tauto. }
  destruct x as [|t|n t|n t|n| | | | |h|h n|h n v|h n|r|h|h v|v]; try done.
  - left. apply (Hstep (fresh (dom (heap (shared y))))). unfold thread_step; simpl.
    rewrite (proj1 (not_elem_of_dom (heap (shared y)) _) (is_fresh _)). by eexists.
  - destruct (tailLock_ (shared y)) as [j|] eqn:El.
    + right. exists j. split; [|right; by exists n, t]. intros ->. by pose proof (proj2 Hl2 eq_refl).
    + left. apply (Hstep 0). unfold thread_step; simpl. rewrite El. by eexists.
  - left. apply (Hstep 0). unfold thread_step; simpl. destruct (link_refines y l i I n t Hi) as (s' & -> & _). by eexists.
  - left. apply (Hstep 0). by eexists.
  - left. apply (Hstep 0). by eexists.
  - left. apply (Hstep 0). by eexists.
  - destruct (headLock_ (shared y)) as [j|] eqn:El.
    + right. exists j. split; [|by left]. intros ->. by pose proof (proj2 Hl1 eq_refl).
    + left. apply (Hstep 0). unfold thread_step; simpl. rewrite El. by eexists.
  - left. apply (Hstep 0). by eexists.
  - left. apply (Hstep 0). unfold thread_step; simpl. simpl in Hok. subst h. rewrite (seg_head _ _ _ _ Hseg).
    cbn [mbind option_bind next]. destruct (fst <$> head l); by eexists.
  - left. apply (Hstep 0). unfold thread_step; simpl. destruct Hok as [-> Hn].
    destruct l as [|[b w] l']; simpl in Hn; [done|]. injection Hn as ->. destruct Hseg as [_ Hseg].
    rewrite (seg_head _ _ _ _ Hseg). by eexists.
  - left. apply (Hstep 0). unfold thread_step; simpl. destruct (write_refines y l i I h n v Hi) as (s' & -> & _). by eexists.
  - left. apply (Hstep 0). by eexists.
  - left. apply (Hstep 0). destruct r; by eexists.
  - left. apply (Hstep 0). unfold thread_step; simpl. destruct (Hown h) as [c ->]; [apply list_elem_of_here|]. by eexists.
  - left. apply (Hstep 0). unfold thread_step; simpl. destruct (Hown h) as [c ->]; [apply list_elem_of_here|]. by eexists.
  - left. apply (Hstep 0). by eexists.
Qed.

(** The thread that holds a lock does not wait. *)
Lemma holder_progress y l i j : mbox_inv y l -> waits y i j -> can_step y j.
Proof.
  intros I (Hne & Hw). assert (Hlt : (j < length (threads y))%nat) by (apply (mi_holder _ _ I); destruct Hw as [[_ ?]|(? & ? & _ & ?)]; tauto).
  apply lookup_lt_is_Some in Hlt as [x Hj]. pose proof (mi_lock _ _ I _ _ Hj) as [Hl1 Hl2].
  assert (Hin : in_head x = true \/ in_tail x = true).
  { destruct Hw as [[_ H]|(? & ? & _ & H)]; [left; by apply Hl1|right; by apply Hl2]. }
  destruct (mbox_progress y l j x I Hj) as [|(k & _ & Hk)]; [by intros ->; destruct Hin|done|].
  exfalso. destruct Hk as [[Hk _]|(n & t & Hk & _)]; rewrite Hk in Hj; injection Hj as <-; by destruct Hin.
Qed.

Lemma idle_owned (ts : list thread) : (forall i x, ts !! i = Some x -> x = Idle) -> all_owned ts = [].
Proof.
  induction ts as [|x ts IH]; intros H; [done|]. unfold all_owned in *. simpl. rewrite (H 0%nat x eq_refl). simpl.
  apply IH. intros i x' Hi. by apply (H (S i)).
Qed.

Lemma idle_heap y l : mbox_inv y l -> (forall i x, y.(threads) !! i = Some x -> x = Idle) ->
  size (y.(shared).(heap)) = S (length l).
Proof.
  intros I Hidle%idle_owned. pose proof (mi_nodup _ _ I) as Hn. pose proof (mi_dom _ _ I) as Hd.
  rewrite Hidle, app_nil_r in Hn. rewrite <- size_dom. assert (E : dom (heap (shared y)) = list_to_set (chain (shared y) l)).
  { apply set_eq. intros b. by rewrite elem_of_dom, elem_of_list_to_set, Hd, Hidle, app_nil_r. }
  rewrite E, size_list_to_set by done. simpl. by rewrite length_fmap.
Qed.

(** C19: the mailbox is a linearizable queue.  Every interleaving of enqueues and dequeues
    by any number of threads, with nodes allocated at any free address, has the calls and
    the results of an atomic queue on which each operation takes place in one step
    between its call and its return.  No thread ever touches a node that was deleted: an
    operation can always go on, or waits for a lock whose holder can.  When no operation
    is under way the heap holds the elements' nodes and the dummy, and nothing else. *)
Theorem mailbox_linearizable a (n : nat) tr y : mbox_run a n tr y ->
  exists q, spec_run n tr q
    /\ (forall i x, y.(threads) !! i = Some x -> x <> Idle -> can_step y i \/ exists j, waits y i j /\ can_step y j)
    /\ ((forall i x, y.(threads) !! i = Some x -> x = Idle) -> size y.(shared).(heap) = S (length q.(contents))).
Proof.
  intros (l & I & Hs)%mbox_run_refines. exists (abstraction y l). split; [done|]. split.
  - intros i x Hi Hx. destruct (mbox_progress y l i x I Hi Hx) as [?|(j & Hj)]; [by left|right].
    exists j. split; [done|]. by eapply holder_progress.
  - intros Hidle. simpl. rewrite length_fmap. by apply idle_heap.
Qed.

(** ** Destruction *)

Lemma destroy_leaves s l v : seg s.(heap) s.(head_) v l -> NoDup (chain s l) ->
  (forall b, is_Some (s.(heap) !! b) <-> b ∈ chain s l) ->
  exists s', destroy (S (length l)) s = Some s' /\ size s'.(heap) = 1%nat.
Proof.
  revert s v. induction l as [|[b w] l IH]; intros s v Hs Hn Hd.
  - exists s. simpl. unfold dequeueNode. rewrite (seg_head _ _ _ _ Hs). simpl. split; [done|]. rewrite <- size_dom.
    assert (E : dom (heap s) = {[head_ s]}) by (apply set_eq; intros c; rewrite elem_of_dom, Hd; unfold chain; set_solver).
    rewrite E. apply size_singleton.
  - cbn [length destroy]. unfold dequeueNode, set_value. rewrite (seg_head _ _ _ _ Hs). destruct Hs as [_ Hs].
    cbn [mbind option_bind next head fmap option_fmap option_map fst]. rewrite (seg_head _ _ _ _ Hs). cbn [mbind option_bind next].
    apply NoDup_cons in Hn as [Hh Hn]. cbn [map fst] in Hh.
    apply (IH _ w); simpl; rewrite ?delete_insert_eq.
    + apply seg_delete; [done|]. done.
    + done.
    + intros c. destruct (decide (c = head_ s)) as [->|Hne].
      * rewrite lookup_delete_eq. split; [by intros []|done].
      * rewrite lookup_delete_ne by done. rewrite Hd. unfold chain. simpl. rewrite elem_of_cons. tauto.
Qed.

(** The destructor of a queue that no thread uses deletes every node but one. *)
Lemma destroy_leaks a (n : nat) tr y : mbox_run a n tr y -> (forall i x, y.(threads) !! i = Some x -> x = Idle) ->
  exists fuel s', destroy fuel y.(shared) = Some s' /\ size s'.(heap) = 1%nat.
Proof.
  intros (l & I & _)%mbox_run_refines Hidle%idle_owned. destruct (mi_seg _ _ I) as [v Hs]. exists (S (length l)).
  pose proof (mi_nodup _ _ I) as Hn. pose proof (mi_dom _ _ I) as Hd. rewrite Hidle, app_nil_r in Hn.
  apply (destroy_leaves _ l v Hs Hn). intros b. by rewrite Hd, Hidle, app_nil_r.
Qed.

(** ** Executable runs *)

Fixpoint mbox_exec (y : system) (bs : list label) : option (list (label * event) * system) :=
  match bs with
  | [] => Some ([], y)
  | b :: bs =>
    '(y, e) ← mbox_step y b;
    '(tr, y) ← mbox_exec y bs;
    Some ((b, e) :: tr, y)
  end.

Lemma mbox_exec_run a (n : nat) bs : forall tr y tr' y', mbox_run a n tr y -> mbox_exec y bs = Some (tr', y') ->
  mbox_run a n (tr ++ tr') y'.
Proof.
  induction bs as [|b bs IH]; simpl; intros tr y tr' y' Hr H.
  - injection H as <- <-. by rewrite app_nil_r.
  - destruct (mbox_step y b) as [[y1 e]|] eqn:E; [|done]; cbn [mbind option_bind] in H.
    destruct (mbox_exec y1 bs) as [[tr1 y2]|] eqn:E'; [|done]; cbn [mbind option_bind] in H. injection H as <- <-.
    replace (tr ++ (b, e) :: tr1) with ((tr ++ [(b, e)]) ++ tr1) by by rewrite <- app_assoc.
    eapply IH; [|done]. by econstructor.
Qed.
End Mailbox.

(** Two threads: one enqueues while the other dequeues, which finds the queue empty at
    first, and reuses the address of the node it deleted. *)
Definition demo_schedule : list (@label Z) :=
  [CallDequeue 1; Step 1 0; Step 1 0; CallEnqueue 0 (Some 7); Step 0 2; Step 0 0; Step 1 0; Step 0 0; Step 1 0; Step 1 0;
   CallDequeue 1; Step 1 0; Step 1 0; Step 1 0; Step 1 0; Step 0 0; Step 1 0; Step 1 0; Step 1 0; Step 1 0; Step 1 0;
   Step 0 0; Step 0 0; Step 1 0; CallEnqueue 0 (Some 8); Step 0 1; Step 0 0; Step 0 0; Step 0 0; Step 0 0; Step 0 0].

Definition demo_mailbox := mbox_exec (mbox_start 1 2) demo_schedule.

Lemma mailbox_linearizable_witness : exists tr y q, demo_mailbox = Some (tr, y)
  /\ omap (fun r => match r.2 with Ret v => Some v | _ => None end) tr = [None; None; Some 7; None]
  /\ spec_run 2 tr q.
Proof.
  destruct demo_mailbox as [[tr y]|] eqn:E; [|vm_compute in E; discriminate].
  destruct (mailbox_linearizable 1 2 tr y) as (q & H & _).
  - exact (mbox_exec_run 1 2 demo_schedule [] _ tr y (mbox_nil 1 2) E).
  - exists tr, y, q. split; [done|]. split; [|exact H]. vm_compute in E. injection E as <- <-. reflexivity.
Defined.
