(* ===== verification/Worker.v ===== *)
(** * The scheduler's workers

    scheduler/Worker.cpp and include/libhpx/Worker.h: each worker has two work queues, a
    mailbox, a cache of stacks and the thread it runs, which is the system thread when it
    looks for work.  A step is what a worker does from one scheduling decision to the
    next; queues and mailboxes are used atomically, as their own files justify. *)

From S2P Require Import Prelude Math.

(** ** Work queues

    The elements from the top to the bottom, how far the owner's bound on the top is
    behind, and the capacity. *)
Record lifo := mkLifo { items : list Z; slack : Z; cap : Z }.

Definition lifo_new : lifo := mkLifo [] 0 32.

Definition lifo_size (q : lifo) : Z := Z.of_nat (length q.(items)).

(** Pushing returns the size as far as the owner knows. *)
Definition lifo_push (q : lifo) (p : Z) : lifo * Z :=
  let slack := if lifo_size q + q.(slack) >=? q.(cap) then 0 else q.(slack) in
  let cap := if lifo_size q + slack >=? q.(cap) then 2 * q.(cap) else q.(cap) in
  (mkLifo (q.(items) ++ [p]) slack cap, lifo_size q + 1 + slack).

Definition lifo_pop (q : lifo) : lifo * option Z :=
  match last q.(items) with
  | None => (mkLifo q.(items) 0 q.(cap), None)
  | Some p =>
    (mkLifo (take (length q.(items) - 1) q.(items)) (if lifo_size q =? 1 then 1 else 0) q.(cap), Some p)
  end.

Definition lifo_steal (q : lifo) : lifo * option Z :=
  match q.(items) with
  | [] => (q, None)
  | p :: l => (mkLifo l (q.(slack) + 1) q.(cap), Some p)
  end.

(** ** Workers *)

Inductive wstate := SHUTDOWN | RUN | STOP.

#[global] Instance wstate_eq_dec : EqDecision wstate.
Proof. solve_decision. Defined.

Record worker := mkWorker {
  workFirst_ : Z;
  lastVictim_ : option nat;
  current_ : option Z;         (* none: the system thread *)
  threads_ : list Z;           (* the cached stacks *)
  state_ : wstate;
  workId_ : bool;
  queue0 : lifo;
  queue1 : lifo;
  inbox_ : list (list Z);      (* each mail is a stack of parcels *)
}.

Definition Worker_new : worker := mkWorker 0 None None [] STOP false lifo_new lifo_new [].

(** What becomes of the thread a worker transfers away from. *)
Inductive continuation :=
| KNull           (* the system thread stays where it is *)
| KPush           (* back into the work queue *)
| KYield          (* into the queue of the next epoch *)
| KBlock          (* someone will resume it *)
| KFinish         (* done: its stack and its parcel are given back *)
| KAbandon.       (* its stack is given back; someone has the parcel *)

Record locality := mkLocality {
  workers : list worker;
  blocked : list Z;            (* suspended, or handed to someone who resumes them *)
  finished : list Z;            (* deleted *)
  departed : list Z;           (* given to the network *)
  locked : gset Z;             (* the threads inside an LCO *)
  stacks : gmap Z Z;           (* the stack bound to a parcel *)
  next_stack : Z;              (* the allocator's next stack *)
}.

Implicit Types y : locality.
Implicit Types w : worker.

Definition set_worker y (i : nat) w : locality :=
  mkLocality (<[i := w]> y.(workers)) y.(blocked) y.(finished) y.(departed) y.(locked) y.(stacks) y.(next_stack).

Definition with_queues w (q0 q1 : lifo) : worker :=
  mkWorker w.(workFirst_) w.(lastVictim_) w.(current_) w.(threads_) w.(state_) w.(workId_) q0 q1 w.(inbox_).
Definition with_workFirst w (f : Z) : worker :=
  mkWorker f w.(lastVictim_) w.(current_) w.(threads_) w.(state_) w.(workId_) w.(queue0) w.(queue1) w.(inbox_).
Definition with_inbox w (m : list (list Z)) : worker :=
  mkWorker w.(workFirst_) w.(lastVictim_) w.(current_) w.(threads_) w.(state_) w.(workId_) w.(queue0) w.(queue1) m.
Definition with_current w (c : option Z) : worker :=
  mkWorker w.(workFirst_) w.(lastVictim_) c w.(threads_) w.(state_) w.(workId_) w.(queue0) w.(queue1) w.(inbox_).
Definition with_threads w (ts : list Z) : worker :=
  mkWorker w.(workFirst_) w.(lastVictim_) w.(current_) ts w.(state_) w.(workId_) w.(queue0) w.(queue1) w.(inbox_).
Definition with_victim w (v : option nat) : worker :=
  mkWorker w.(workFirst_) v w.(current_) w.(threads_) w.(state_) w.(workId_) w.(queue0) w.(queue1) w.(inbox_).
Definition with_wstate w (s : wstate) : worker :=
  mkWorker w.(workFirst_) w.(lastVictim_) w.(current_) w.(threads_) s w.(workId_) w.(queue0) w.(queue1) w.(inbox_).

(** queues_[workId_] *)
Definition work w : lifo := if w.(workId_) then w.(queue1) else w.(queue0).
Definition with_work w (q : lifo) : worker :=
  if w.(workId_) then with_queues w w.(queue0) q else with_queues w q w.(queue1).

(** queues_[1 - workId_] *)
Definition other w : lifo := if w.(workId_) then w.(queue0) else w.(queue1).
Definition with_other w (q : lifo) : worker :=
  if w.(workId_) then with_queues w q w.(queue1) else with_queues w w.(queue0) q.

Section Scheduler.
Variables (sched_wfthreshold sched_stackcachelimit : Z).
Variable getAffinity : Z -> Z.         (* of the target of a parcel *)
Variables (is_interrupt is_StealHalf : Z -> bool).
Variable numa_to_cpus : Z -> list nat. (* the workers of a node *)
Variable numaNode : nat -> Z.

(** *** Queues and mail *)

Definition pushLIFO w (p : Z) : worker :=
  let '(q, size) := lifo_push (work w) p in
  let w := with_work w q in
  if 0 <=? w.(workFirst_) then with_workFirst w (if sched_wfthreshold <? size then 1 else 0) else w.

Definition popLIFO w : worker * option Z :=
  let '(q, p) := lifo_pop (work w) in (with_work w q, p).

Definition pushYield w (p : Z) : worker := with_other w (lifo_push (other w) p).1.

Definition pushMail w (ps : list Z) : worker := with_inbox w (w.(inbox_) ++ [ps]).

(** All the mail goes to the work queue but for the last parcel. *)
Fixpoint mail_loop w (prev : Z) (ps : list Z) : worker * Z :=
  match ps with
  | [] => (w, prev)
  | next :: ps => mail_loop (pushLIFO w prev) next ps
  end.

Definition handleMail w : worker * option Z :=
  match concat w.(inbox_) with
  | [] => (w, None)
  | p :: ps => let '(w, p) := mail_loop (with_inbox w []) p ps in (w, Some p)
  end.

Definition handleEpoch w : worker :=
  mkWorker w.(workFirst_) w.(lastVictim_) w.(current_) w.(threads_) w.(state_) (negb w.(workId_))
    w.(queue0) w.(queue1) w.(inbox_).

(** *** Stacks *)

(** Bind a stack of the cache, or a new one, to a parcel that has none. *)
Definition bind y (i : nat) (p : Z) : option locality :=
  w ← y.(workers) !! i;
  match y.(stacks) !! p, w.(threads_) with
  | Some _, _ => None
  | None, s :: ts =>
    let y := set_worker y i (with_threads w ts) in
    Some (mkLocality y.(workers) y.(blocked) y.(finished) y.(departed) y.(locked) (<[p := s]> y.(stacks)) y.(next_stack))
  | None, [] =>
    Some (mkLocality y.(workers) y.(blocked) y.(finished) y.(departed) y.(locked)
            (<[p := y.(next_stack)]> y.(stacks)) (y.(next_stack) + 1))
  end.

(** The stacks a worker keeps; the depth of the cache is its length. *)
Definition trim (ts : list Z) : option (list Z) :=
  let depth := Z.of_nat (length ts) in
  let limit := sched_stackcachelimit in
  if (limit <? 0) || (depth <? limit) then Some ts
  else
    let e := ceil_div limit 2 in
    if depth <? e then None
    else
      let ts := drop (Z.to_nat e) ts in
      if (length ts =? 0)%nat || (Z.of_nat (length ts) =? ceil_div limit 2) then Some ts else None.

Definition unbind y (i : nat) (p : Z) : option locality :=
  w ← y.(workers) !! i;
  match y.(stacks) !! p with
  | None => Some y
  | Some s =>
    ts ← trim (s :: w.(threads_));
    let y := set_worker y i (with_threads w ts) in
    Some (mkLocality y.(workers) y.(blocked) y.(finished) y.(departed) y.(locked) (delete p y.(stacks)) y.(next_stack))
  end.

(** *** Transfer *)

Definition add_blocked y (p : Z) : locality :=
  mkLocality y.(workers) (y.(blocked) ++ [p]) y.(finished) y.(departed) y.(locked) y.(stacks) y.(next_stack).
Definition add_finished y (p : Z) : locality :=
  mkLocality y.(workers) y.(blocked) (y.(finished) ++ [p]) y.(departed) y.(locked) y.(stacks) y.(next_stack).

Definition run_continuation y (i : nat) (k : continuation) (p : Z) : option locality :=
  w ← y.(workers) !! i;
  match k with
  | KNull => None
  | KPush => Some (set_worker y i (pushLIFO w p))
  | KYield => Some (set_worker y i (pushYield w p))
  | KBlock => Some (add_blocked y p)
  | KFinish => y ← unbind y i p; Some (add_finished y p)
  | KAbandon => y ← unbind y i p; Some (add_blocked y p)
  end.

(** The system thread always has its stack. *)
Definition ensure_stack y (i : nat) (p : option Z) : option locality :=
  match p with
  | None => Some y
  | Some p => match y.(stacks) !! p with Some _ => Some y | None => bind y i p end
  end.

(** Worker [i] goes on with [p] (none: the system thread), and [k] gets the thread it ran. *)
Definition transfer y (i : nat) (p : option Z) (k : continuation) : option locality :=
  y ← ensure_stack y i p;
  w ← y.(workers) !! i;
  if decide (p = w.(current_)) then None
  else
    let y := set_worker y i (with_current w p) in
    match w.(current_), k with
    | Some c, _ => run_continuation y i k c
    | None, KNull => Some y
    | None, _ => None
    end.

Definition schedule y (i : nat) (k : continuation) : option locality :=
  w ← y.(workers) !! i;
  if decide (w.(state_) = RUN) then
    match handleMail w with
    | (w, Some p) => transfer (set_worker y i w) i (Some p) k
    | (w, None) =>
      let '(w, p) := popLIFO w in transfer (set_worker y i w) i p k
    end
  else transfer y i None k.

(** *** Spawning *)

Definition spawn y (i : nat) (p : Z) : option locality :=
  w ← y.(workers) !! i;
  if (0 <=? getAffinity p) && negb (getAffinity p =? Z.of_nat i) then
    v ← y.(workers) !! Z.to_nat (getAffinity p);
    Some (set_worker y (Z.to_nat (getAffinity p)) (pushMail v [p]))
  else if decide (w.(state_) <> RUN) then Some (set_worker y i (pushLIFO w p))
  else if w.(workFirst_) <? 1 then Some (set_worker y i (pushLIFO w p))
  else match w.(current_) with
  | None => transfer y i (Some p) KNull
  | Some c =>
    if bool_decide (c ∈ y.(locked)) then Some (set_worker y i (pushLIFO w p))
    else if is_interrupt c then Some (set_worker y i (pushLIFO w p))
    else transfer y i (Some p) KPush
  end.

(** *** Looking for work *)

(** [launched] are the parcels that the network's progress launches, without work-first
    scheduling, and [probed] those it received. *)
Definition handleNetwork y (i : nat) (launched probed : list Z) : option (locality * option Z) :=
  w ← y.(workers) !! i;
  let wf := w.(workFirst_) in
  y ← foldl (fun oy p => y ← oy; spawn y i p) (Some (set_worker y i (with_workFirst w (-1)))) launched;
  w ← y.(workers) !! i;
  let '(w, p) := popLIFO (foldl pushLIFO (with_workFirst w wf) probed) in
  Some (set_worker y i w, p).

Definition stealFrom y (i v : nat) : option (locality * option Z) :=
  victim ← y.(workers) !! v;
  let '(q, p) := lifo_steal (work victim) in
  let y := set_worker y v (with_work victim q) in
  w ← y.(workers) !! i;
  Some (set_worker y i (with_victim w (match p with Some _ => Some v | None => None end)), p).

(** The victims that the random numbers select. *)
Inductive choice :=
| Random (v : nat)
| Hierarchical (v1 v2 v3 : nat) (node : Z) (request : Z).

Definition stealRandom y (i v : nat) : option (locality * option Z) :=
  if decide (v = i) then None else stealFrom y i v.

Definition stealRandomNode y (i v : nat) : option (locality * option Z) :=
  if decide (v ∈ numa_to_cpus (numaNode i) /\ v <> i) then stealFrom y i v else None.

(** Run an attempt, and the next one when it found nothing. *)
Definition or_else (r : option (locality * option Z)) (f : locality -> option (locality * option Z * list Z))
    : option (locality * option Z * list Z) :=
  '(y, p) ← r; match p with Some p => Some (y, Some p, []) | None => f y end.

(** The last attempt asks a worker of another node for half of its work, with a new parcel. *)
Definition stealHierarchical y (i v1 v2 v3 : nat) (node request : Z) : option (locality * option Z * list Z) :=
  w ← y.(workers) !! i;
  or_else (match w.(lastVictim_) with Some v => stealFrom y i v | None => Some (y, None) end) (fun y =>
  or_else (stealRandomNode y i v1) (fun y =>
  or_else (stealRandomNode y i v2) (fun y =>
    if decide (node <> numaNode i /\ v3 ∈ numa_to_cpus node) then
      v ← y.(workers) !! v3;
      Some (set_worker y v3 (pushMail v [request]), None, [request])
    else None))).

Definition handleSteal y (i : nat) (c : choice) : option (locality * option Z * list Z) :=
  if decide (length y.(workers) = 1%nat) then Some (y, None, [])
  else match c with
  | Random v => '(y, p) ← stealRandom y i v; Some (y, p, [])
  | Hierarchical v1 v2 v3 node request => stealHierarchical y i v1 v2 v3 node request
  end.

Definition MAGIC_STEAL_HALF_THRESHOLD : Z := 6.

(** The stack of parcels taken, and the steal requests found among them, which are deleted. *)
Fixpoint steal_half_loop (n : nat) w (parcels deleted : list Z) : worker * list Z * list Z :=
  match n with
  | O => (w, parcels, deleted)
  | S n =>
    match popLIFO w with
    | (w, None) => (w, parcels, deleted)
    | (w, Some p) =>
      if is_StealHalf p then steal_half_loop n w parcels (deleted ++ [p])
      else steal_half_loop n w (p :: parcels) deleted
    end
  end.

Definition stealHalf w : worker * list Z * list Z :=
  let qsize := lifo_size (work w) in
  if qsize <? MAGIC_STEAL_HALF_THRESHOLD then (w, [], [])
  else steal_half_loop (Z.to_nat (qsize / 2)) w [] [].

(** StealHalfHandler on worker [i], for worker [j]. *)
Definition StealHalfHandler y (i j : nat) : option locality :=
  w ← y.(workers) !! i;
  let '(w, half, deleted) := stealHalf w in
  let y := foldl add_finished (set_worker y i w) deleted in
  match half with
  | [] => Some y
  | _ => v ← y.(workers) !! j; Some (set_worker y j (pushMail v half))
  end.

(** One turn of the loop of the system thread. *)
Definition run y (i : nat) (launched probed : list Z) (c : choice) : option (locality * list Z) :=
  w ← y.(workers) !! i;
  match handleMail w with
  | (w, Some p) => y ← transfer (set_worker y i w) i (Some p) KNull; Some (y, [])
  | (w, None) =>
    match popLIFO w with
    | (w, Some p) => y ← transfer (set_worker y i w) i (Some p) KNull; Some (y, [])
    | (w, None) =>
      '(y, p) ← handleNetwork (set_worker y i (handleEpoch w)) i launched probed;
      match p with
      | Some p => y ← transfer y i (Some p) KNull; Some (y, launched ++ probed)
      | None =>
        '(y, p, new) ← handleSteal y i c;
        match p with
        | Some p => y ← transfer y i (Some p) KNull; Some (y, launched ++ probed ++ new)
        | None => Some (y, launched ++ probed ++ new)
        end
      end
    end
  end.

(** A worker that was stopped brings its work together before it sleeps. *)
Fixpoint gather_loop (n : nat) w : worker :=
  match n with
  | O => w
  | S n =>
    let '(q, p) := lifo_pop (other w) in
    match p with
    | Some p => gather_loop n (pushLIFO (with_other w q) p)
    | None => with_other w q
    end
  end.

Definition sleep w : worker :=
  let w := gather_loop (S (length (items (other w)))) w in
  match handleMail w with
  | (w, Some p) => pushLIFO w p
  | (w, None) => w
  end.

(** The destructor's loop: the parcels it deletes. *)
Fixpoint drain_loop (n : nat) w (deleted : list Z) : worker * list Z :=
  match n with
  | O => (w, deleted)
  | S n =>
    match popLIFO w with
    | (w, Some p) => drain_loop n w (deleted ++ [p])
    | (w, None) => (w, deleted)
    end
  end.

(** The destructor of a worker that has shut down. *)
Definition Worker_delete w : worker * list Z :=
  let '(w, p) := handleMail w in
  let deleted := match p with Some p => [p] | None => [] end in
  let '(w, deleted) := drain_loop (S (length (items (work w)))) w deleted in
  (with_threads w [], deleted).

(** *** What the running thread does *)

Inductive label :=
| Run (launched probed : list Z) (c : choice)
| Sleep
| SetState (s : wstate)
| Spawn (p : Z)                (* send a new parcel here *)
| Resume (p : Z)               (* send a parcel that was suspended *)
| Lock
| Unlock
| Yield
| Suspend
| Wait
| Finish
| Resend (local : bool)
| Abandon
| HandleStealHalf (j : nat).

Definition with_locked y (l : gset Z) : locality :=
  mkLocality y.(workers) y.(blocked) y.(finished) y.(departed) l y.(stacks) y.(next_stack).

(** Take a suspended parcel. *)
Definition unblock y (p : Z) : option locality :=
  '(j, _) ← list_find (eq p) y.(blocked);
  Some (mkLocality y.(workers) (delete j y.(blocked)) y.(finished) y.(departed) y.(locked) y.(stacks) y.(next_stack)).

Definition depart y (p : Z) : locality :=
  mkLocality y.(workers) y.(blocked) y.(finished) (y.(departed) ++ [p]) y.(locked) y.(stacks) y.(next_stack).

(** A step of worker [i], and the parcels it created. *)
Definition sched_step y (i : nat) (a : label) : option (locality * list Z) :=
  w ← y.(workers) !! i;
  match a, w.(current_) with
  | SetState s, _ => Some (set_worker y i (with_wstate w s), [])
  | Run launched probed c, None => if decide (w.(state_) = RUN) then run y i launched probed c else None
  | Sleep, None => if decide (w.(state_) = STOP) then Some (set_worker y i (sleep w), []) else None
  | Spawn p, _ => y ← spawn y i p; Some (y, [p])
  | Resume p, _ => y ← unblock y p; y ← spawn y i p; Some (y, [])
  | Lock, Some c => Some (with_locked y ({[c]} ∪ y.(locked)), [])
  | Unlock, Some c => Some (with_locked y (y.(locked) ∖ {[c]}), [])
  | Yield, Some c => y ← schedule y i KYield; Some (y, [])
  | Suspend, Some c => y ← schedule y i KBlock; Some (y, [])
  | Wait, Some c =>
    if decide (c ∈ y.(locked)) then
      y ← schedule y i KBlock; Some (with_locked y (y.(locked) ∖ {[c]}), [])
    else None
  | Finish, Some c => y ← schedule y i KFinish; Some (y, [])
  | Resend local, Some c =>
    y ← schedule y i KAbandon;
    y ← unblock y c;
    y ← (if local : bool then spawn y i c else Some (depart y c)); Some (y, [])
  | Abandon, Some c => y ← schedule y i KAbandon; Some (y, [])
  | HandleStealHalf j, Some c =>
    if is_StealHalf c then (y ← StealHalfHandler y i j; Some (y, [])) else None
  | _, _ => None
  end.

Definition sched_start (n : nat) : locality := mkLocality (replicate n Worker_new) [] [] [] ∅ ∅ 1.

(** ** Counting parcels *)

Definition ind (p q : Z) : Z := if decide (p = q) then 1 else 0.
Definition occ (p : Z) (l : list Z) : Z := sum_of (ind p) l.

Definition wcount (p : Z) w : Z :=
  occ p (items w.(queue0)) + occ p (items w.(queue1)) + sum_of (occ p) w.(inbox_)
  + match w.(current_) with Some c => ind p c | None => 0 end.

(** How often a parcel is anywhere in the locality. *)
Definition total (p : Z) y : Z :=
  sum_of (wcount p) y.(workers) + occ p y.(blocked) + occ p y.(finished) + occ p y.(departed).

(** What the queue operations leave alone. *)
Definition core w := (w.(current_), w.(threads_), w.(state_)).

Lemma occ_app p l k : occ p (l ++ k) = occ p l + occ p k.
Proof. apply sum_of_app. Qed.

Lemma occ_singleton p q : occ p [q] = ind p q.
Proof. unfold occ; simpl. lia. Qed.

Lemma occ_concat p ls : occ p (concat ls) = sum_of (occ p) ls.
Proof. induction ls as [|l ls IH]; simpl; [done|]. by rewrite occ_app, IH. Qed.

Lemma wcount_with_work p w q :
  wcount p (with_work w q) = wcount p w - occ p (items (work w)) + occ p (items q) /\ core (with_work w q) = core w.
Proof. unfold with_work, work, wcount. destruct (workId_ w); simpl; split; (done || lia). Qed.

Lemma wcount_with_other p w q :
  wcount p (with_other w q) = wcount p w - occ p (items (other w)) + occ p (items q) /\ core (with_other w q) = core w.
Proof. unfold with_other, other, wcount. destruct (workId_ w); simpl; split; (done || lia). Qed.

Lemma lifo_push_items q p : items (lifo_push q p).1 = items q ++ [p].
Proof. done. Qed.

Lemma lifo_pop_items q q' r : lifo_pop q = (q', r) -> items q = items q' ++ match r with Some p => [p] | None => [] end.
Proof.
  unfold lifo_pop. destruct (last (items q)) as [p|] eqn:E; intros [= <- <-]; simpl; [|by rewrite app_nil_r].
  apply last_Some in E as [l ->]. rewrite length_app; simpl.
  replace (length l + 1 - 1)%nat with (length l) by lia. by rewrite take_app_length.
Qed.

Lemma lifo_steal_items q q' r : lifo_steal q = (q', r) -> items q = match r with Some p => [p] | None => [] end ++ items q'.
Proof. unfold lifo_steal. destruct (items q) as [|p l] eqn:E; intros [= <- <-]; simpl; by rewrite ?E. Qed.

(** The number of [p] in the result of an operation that may take a parcel. *)
Definition found (p : Z) (r : option Z) : Z := match r with Some q => ind p q | None => 0 end.

Lemma pushLIFO_count p w q : wcount p (pushLIFO w q) = wcount p w + ind p q /\ core (pushLIFO w q) = core w.
Proof.
  unfold pushLIFO. destruct (lifo_push (work w) q) as [q' n] eqn:E.
  assert (Eq : items q' = items (work w) ++ [q]) by (by injection E as <- _).
  destruct (wcount_with_work p w q') as [H1 H2]. rewrite Eq, occ_app, occ_singleton in H1.
  destruct (0 <=? _); [|split; [lia|done]]. unfold wcount in *; simpl in *. split; [lia|]. by rewrite <- H2.
Qed.

Lemma popLIFO_count p w w' r : popLIFO w = (w', r) -> wcount p w = wcount p w' + found p r /\ core w' = core w.
Proof.
  unfold popLIFO. destruct (lifo_pop (work w)) as [q r'] eqn:E. intros [= <- <-]. apply lifo_pop_items in E.
  destruct (wcount_with_work p w q) as [H1 H2]. rewrite E, occ_app in H1. split; [|done].
  destruct r'; [rewrite occ_singleton in H1|]; unfold occ in *; simpl in *; lia.
Qed.

Lemma pushYield_count p w q : wcount p (pushYield w q) = wcount p w + ind p q /\ core (pushYield w q) = core w.
Proof.
  unfold pushYield. destruct (wcount_with_other p w (lifo_push (other w) q).1) as [H1 H2].
  rewrite lifo_push_items, occ_app, occ_singleton in H1. split; [lia|done].
Qed.

Lemma pushMail_count p w ps : wcount p (pushMail w ps) = wcount p w + occ p ps /\ core (pushMail w ps) = core w.
Proof. unfold pushMail, wcount; simpl. rewrite sum_of_app; simpl. split; [lia|done]. Qed.

Lemma mail_loop_count p ps : forall w prev w' q, mail_loop w prev ps = (w', q) ->
  wcount p w + ind p prev + occ p ps = wcount p w' + ind p q /\ core w' = core w.
Proof.
  induction ps as [|r ps IH]; intros w prev w' q; simpl; [intros [= <- <-]; unfold occ; simpl; split; [lia|done]|].
  intros H%IH. destruct (pushLIFO_count p w prev) as [H1 H2]. destruct H as [H3 H4].
  unfold occ in *; simpl. split; [lia|congruence].
Qed.

Lemma handleMail_count p w w' r : handleMail w = (w', r) -> wcount p w = wcount p w' + found p r /\ core w' = core w.
Proof.
  unfold handleMail. destruct (concat (inbox_ w)) as [|q ps] eqn:E; [intros [= <- <-]; simpl; split; [lia|done]|].
  destruct (mail_loop (with_inbox w []) q ps) as [w1 q1] eqn:Em. intros [= <- <-].
  destruct (mail_loop_count p _ _ _ _ _ Em) as [H1 H2]. split; [|by rewrite H2].
  assert (Hc : sum_of (occ p) (inbox_ w) = ind p q + occ p ps) by (rewrite <- occ_concat, E; done).
  unfold wcount in *; simpl in *. lia.
Qed.

Lemma handleEpoch_count p w : wcount p (handleEpoch w) = wcount p w /\ core (handleEpoch w) = core w.
Proof. done. Qed.

Lemma push_all_count p ps : forall w, wcount p (foldl pushLIFO w ps) = wcount p w + occ p ps
  /\ core (foldl pushLIFO w ps) = core w.
Proof.
  induction ps as [|q ps IH]; intros w; simpl; [unfold occ; simpl; split; [lia|done]|].
  destruct (IH (pushLIFO w q)) as [H1 H2]. destruct (pushLIFO_count p w q) as [H3 H4].
  unfold occ in *; simpl. split; [lia|congruence].
Qed.

Lemma steal_half_count p n : forall w ps ds w' ps' ds', steal_half_loop n w ps ds = (w', ps', ds') ->
  wcount p w + occ p ps + occ p ds = wcount p w' + occ p ps' + occ p ds' /\ core w' = core w.
Proof.
  induction n as [|n IH]; intros w ps ds w' ps' ds'; simpl; [by intros [= <- <- <-]|].
  destruct (popLIFO w) as [w1 [q|]] eqn:E; destruct (popLIFO_count p _ _ _ E) as [H1 H2]; simpl in H1.
  - destruct (is_StealHalf q); intros H%IH; destruct H as [H3 H4]; rewrite ?occ_app, ?occ_singleton in H3;
      unfold occ in *; simpl in *; (split; [lia|congruence]).
  - intros [= <- <- <-]. split; [lia|done].
Qed.

Lemma gather_count p n : forall w, wcount p (gather_loop n w) = wcount p w /\ core (gather_loop n w) = core w.
Proof.
  induction n as [|n IH]; intros w; simpl; [done|]. destruct (lifo_pop (other w)) as [q r] eqn:E.
  apply lifo_pop_items in E. destruct (wcount_with_other p w q) as [H1 H2]. rewrite E, occ_app in H1.
  destruct r as [r|].
  - destruct (IH (pushLIFO (with_other w q) r)) as [H3 H4]. destruct (pushLIFO_count p (with_other w q) r) as [H5 H6].
    rewrite occ_singleton in H1. split; [lia|congruence].
  - unfold occ in *; simpl in *. split; [lia|done].
Qed.

Lemma sleep_count p w : wcount p (sleep w) = wcount p w /\ core (sleep w) = core w.
Proof.
  unfold sleep. destruct (gather_count p (S (length (items (other w)))) w) as [H1 H2].
  destruct (handleMail _) as [w1 [q|]] eqn:E; destruct (handleMail_count p _ _ _ E) as [H3 H4]; cbn [found] in H3.
  - destruct (pushLIFO_count p w1 q) as [H5 H6]. split; [lia|congruence].
  - split; [lia|congruence].
Qed.

(** ** Conservation of parcels *)

Lemma total_set p y i w w' : y.(workers) !! i = Some w ->
  total p (set_worker y i w') = total p y - wcount p w + wcount p w'.
Proof. intros Hi. unfold total, set_worker; simpl. rewrite (sum_of_insert _ _ _ w) by done. lia. Qed.

Lemma lookup_set y i w w' : y.(workers) !! i = Some w -> (set_worker y i w').(workers) !! i = Some w'.
Proof. intros Hi. simpl. apply list_lookup_insert_eq. by eapply lookup_lt_Some. Qed.

Lemma wcount_threads p w ts : wcount p (with_threads w ts) = wcount p w.
Proof. done. Qed.

Lemma ensure_stack_count p y i q y' : ensure_stack y i q = Some y' -> total p y' = total p y.
Proof.
  destruct q as [q|]; simpl; [|by intros [= <-]]. destruct (stacks y !! q) eqn:Hq; [by intros [= <-]|].
  unfold bind. destruct (workers y !! i) as [w|] eqn:Hi; [|done]; cbn [mbind option_bind]. rewrite Hq.
  destruct (threads_ w) as [|s ts] eqn:Et; intros [= <-]; [done|].
  pose proof (total_set p y i w (with_threads w ts) Hi) as H. rewrite wcount_threads in H. unfold total in *; simpl in *. lia.
Qed.

Lemma unbind_count p y i q y' : unbind y i q = Some y' -> total p y' = total p y.
Proof.
  unfold unbind. destruct (workers y !! i) as [w|] eqn:Hi; [|done]; cbn [mbind option_bind].
  destruct (stacks y !! q) as [s|]; [|by intros [= <-]].
  destruct (trim _) as [ts|]; [|done]; cbn [mbind option_bind]. intros [= <-].
  pose proof (total_set p y i w (with_threads w ts) Hi) as H. rewrite wcount_threads in H. unfold total in *; simpl in *. lia.
Qed.

Lemma run_continuation_count p y i k c y' : run_continuation y i k c = Some y' -> total p y' = total p y + ind p c.
Proof.
  unfold run_continuation. destruct (workers y !! i) as [w|] eqn:Hi; [|done]; cbn [mbind option_bind].
  destruct k; [done|intros [= <-]..| |].
  - rewrite (total_set p y i w) by done. destruct (pushLIFO_count p w c). lia.
  - rewrite (total_set p y i w) by done. destruct (pushYield_count p w c). lia.
  - unfold total, add_blocked; simpl. rewrite occ_app, occ_singleton. lia.
  - destruct (unbind y i c) as [y1|] eqn:E; [|done]; cbn [mbind option_bind]. intros [= <-].
    rewrite <- (unbind_count p _ _ _ _ E). unfold total, add_finished; simpl. rewrite occ_app, occ_singleton. lia.
  - destruct (unbind y i c) as [y1|] eqn:E; [|done]; cbn [mbind option_bind]. intros [= <-].
    rewrite <- (unbind_count p _ _ _ _ E). unfold total, add_blocked; simpl. rewrite occ_app, occ_singleton. lia.
Qed.

Lemma transfer_count p y i q k y' : transfer y i q k = Some y' -> total p y' = total p y + found p q.
Proof.
  unfold transfer. intros H.
  destruct (ensure_stack y i q) as [y1|] eqn:Eb; [|done]; cbn [mbind option_bind] in H.
  destruct (workers y1 !! i) as [w1|] eqn:Hi; [|done]; cbn [mbind option_bind] in H.
  pose proof (ensure_stack_count p _ _ _ _ Eb) as Ht.
  destruct (decide (q = current_ w1)); [done|].
  assert (Hs : total p (set_worker y1 i (with_current w1 q)) = total p y1 + found p q - found p (current_ w1)).
  { rewrite (total_set p y1 i w1) by done. unfold wcount, found; simpl. destruct q, (current_ w1); lia. }
  destruct (current_ w1) as [c|] eqn:Ec; simpl in Hs.
  - apply (run_continuation_count p) in H. lia.
  - destruct k; try done. injection H as <-. lia.
Qed.

Lemma schedule_count p y i k y' : schedule y i k = Some y' -> total p y' = total p y.
Proof.
  unfold schedule. destruct (workers y !! i) as [w|] eqn:Hi; [|done]; cbn [mbind option_bind].
  destruct (decide (state_ w = RUN)); [|intros H%(transfer_count p); simpl in H; lia].
  destruct (handleMail w) as [w1 [q|]] eqn:Em; destruct (handleMail_count p _ _ _ Em) as [H1 _]; cbn [found] in H1.
  - intros H%(transfer_count p). rewrite (total_set p y i w) in H by done. simpl in H. lia.
  - destruct (popLIFO w1) as [w2 r] eqn:Ep. destruct (popLIFO_count p _ _ _ Ep) as [H2 _].
    intros H%(transfer_count p). rewrite (total_set p y i w) in H by done. lia.
Qed.

Lemma spawn_count p y i q y' : spawn y i q = Some y' -> total p y' = total p y + ind p q.
Proof.
  unfold spawn. destruct (workers y !! i) as [w|] eqn:Hi; [|done]; cbn [mbind option_bind].
  assert (Hpush : total p (set_worker y i (pushLIFO w q)) = total p y + ind p q).
  { rewrite (total_set p y i w) by done. destruct (pushLIFO_count p w q). lia. }
  destruct (_ && _).
  - destruct (workers y !! Z.to_nat _) as [v|] eqn:Hv; [|done]; cbn [mbind option_bind]. intros [= <-].
    rewrite (total_set p y _ v) by done. destruct (pushMail_count p v [q]) as [H _]. rewrite occ_singleton in H. lia.
  - destruct (decide _); [intros [= <-]; done|]. destruct (_ <? 1); [intros [= <-]; done|].
    destruct (current_ w) as [c|]; [|intros H%(transfer_count p); done].
    destruct (bool_decide _); [intros [= <-]; done|]. destruct (is_interrupt c); [intros [= <-]; done|].
    intros H%(transfer_count p). done.
Qed.

Lemma spawn_all_count p i ps : forall y y',
  foldl (fun oy p => y ← oy; spawn y i p) (Some y) ps = Some y' -> total p y' = total p y + occ p ps.
Proof.
  assert (Hnone : forall l, foldl (fun oy p => y ← oy; spawn y i p) None l = None)
    by (intros l; induction l as [|? ? IH]; [done|apply IH]).
  induction ps as [|q ps IH]; intros y y'; simpl; [intros [= <-]; unfold occ; simpl; lia|].
  destruct (spawn y i q) as [y1|] eqn:E; [|by rewrite Hnone]. intros H%IH. apply (spawn_count p) in E.
  unfold occ in *; simpl. lia.
Qed.

Lemma handleNetwork_count p y i launched probed y' r : handleNetwork y i launched probed = Some (y', r) ->
  total p y' + found p r = total p y + occ p (launched ++ probed).
Proof.
  unfold handleNetwork. destruct (workers y !! i) as [w|] eqn:Hi; [|done]; cbn [mbind option_bind].
  destruct (foldl _ _ launched) as [y1|] eqn:El; [|done]; cbn [mbind option_bind].
  apply (spawn_all_count p) in El. rewrite (total_set p y i w) in El by done.
  destruct (workers y1 !! i) as [w1|] eqn:Hi1; [|done]; cbn [mbind option_bind].
  destruct (popLIFO _) as [w2 r'] eqn:Ep. intros [= <- <-]. destruct (popLIFO_count p _ _ _ Ep) as [H1 _].
  destruct (push_all_count p probed (with_workFirst w1 (workFirst_ w))) as [H2 _].
  rewrite (total_set p y1 i w1) by done. rewrite occ_app. unfold wcount at 2 in El. unfold wcount at 2 in H2.
  unfold wcount at 1 in El. unfold wcount at 2. simpl in *. unfold wcount in *. lia.
Qed.

Lemma stealFrom_count p y i v y' r : stealFrom y i v = Some (y', r) -> total p y' + found p r = total p y.
Proof.
  unfold stealFrom. destruct (workers y !! v) as [u|] eqn:Hv; [|done]; cbn [mbind option_bind].
  destruct (lifo_steal (work u)) as [q r'] eqn:Es. apply lifo_steal_items in Es.
  destruct (workers _ !! i) as [w|] eqn:Hi; [|done]; cbn [mbind option_bind]. intros [= <- <-].
  rewrite (total_set p _ i w) by done. rewrite (total_set p y v u) by done.
  destruct (wcount_with_work p u q) as [H1 _]. rewrite Es, occ_app in H1.
  assert (found p r' = occ p (match r' with Some p => [p] | None => [] end)) by (destruct r'; unfold occ; simpl; lia).
  assert (wcount p (with_victim w (match r' with Some _ => Some v | None => None end)) = wcount p w) by done. lia.
Qed.

Lemma or_else_count p y r f y' q new : (forall y1 x, r = Some (y1, x) -> total p y1 + found p x = total p y) ->
  (forall y1, total p y1 = total p y -> f y1 = Some (y', q, new) -> total p y' + found p q = total p y + occ p new) ->
  or_else r f = Some (y', q, new) -> total p y' + found p q = total p y + occ p new.
Proof.
  intros Hr Hf. unfold or_else. destruct r as [[y1 [x|]]|]; [|..|done]; cbn [mbind option_bind].
  - intros [= <- <- <-]. rewrite (Hr _ _ eq_refl). unfold occ; simpl. lia.
  - intros H. eapply Hf; [|done]. specialize (Hr _ _ eq_refl). simpl in Hr. lia.
Qed.

Lemma stealRandomNode_count p y i v y' r : stealRandomNode y i v = Some (y', r) -> total p y' + found p r = total p y.
Proof. unfold stealRandomNode. destruct (decide _); [apply stealFrom_count|done]. Qed.

Lemma stealHierarchical_count p y i v1 v2 v3 node request y' r new :
  stealHierarchical y i v1 v2 v3 node request = Some (y', r, new) -> total p y' + found p r = total p y + occ p new.
Proof.
  unfold stealHierarchical. destruct (workers y !! i) as [w|] eqn:Hi; [|done]; cbn [mbind option_bind].
  apply or_else_count.
  { intros y1 x. destruct (lastVictim_ w); [apply stealFrom_count|]. intros [= <- <-]. simpl. lia. }
  intros y1 E1. rewrite <- E1. apply or_else_count; [intros y2 x; apply stealRandomNode_count|].
  intros y2 E2. rewrite <- E2. apply or_else_count; [intros y3 x; apply stealRandomNode_count|].
  intros y3 E3. destruct (decide _); [|done]. destruct (workers y3 !! v3) as [v|] eqn:Hv; [|done]; cbn [mbind option_bind].
  intros [= <- <- <-]. rewrite (total_set p y3 v3 v) by done. destruct (pushMail_count p v [request]) as [H _].
  cbn [found]. lia.
Qed.

Lemma handleSteal_count p y i c y' r new : handleSteal y i c = Some (y', r, new) ->
  total p y' + found p r = total p y + occ p new.
Proof.
  unfold handleSteal. destruct (decide _); [intros [= <- <- <-]; unfold occ; simpl; lia|].
  destruct c as [v|v1 v2 v3 node request]; [|apply stealHierarchical_count].
  unfold stealRandom. destruct (decide _); [done|]. destruct (stealFrom y i v) as [[y1 r1]|] eqn:E; [|done]; cbn [mbind option_bind].
  intros [= <- <- <-]. apply (stealFrom_count p) in E. unfold occ; simpl. lia.
Qed.

Lemma StealHalfHandler_count p y i j y' : StealHalfHandler y i j = Some y' -> total p y' = total p y.
Proof.
  unfold StealHalfHandler. destruct (workers y !! i) as [w|] eqn:Hi; [|done]; cbn [mbind option_bind].
  destruct (stealHalf w) as [[w1 half] ds] eqn:E.
  assert (Hh : wcount p w = wcount p w1 + occ p half + occ p ds).
  { unfold stealHalf in E. destruct (_ <? _); [simplify_eq; unfold occ; simpl; lia|].
    destruct (steal_half_count p _ _ _ _ _ _ _ E) as [H _]. unfold occ in *; simpl in H. lia. }
  assert (Hf : forall ds y, total p (foldl add_finished y ds) = total p y + occ p ds).
  { clear. induction ds as [|d ds IH]; intros y; simpl; [unfold occ; simpl; lia|].
    rewrite IH. unfold total, add_finished; simpl. rewrite occ_app. unfold occ; simpl. lia. }
  pose proof (Hf ds (set_worker y i w1)) as Hy. rewrite (total_set p y i w) in Hy by done.
  destruct half as [|q half]; [intros [= <-]; unfold occ in *; simpl in *; lia|].
  destruct (workers _ !! j) as [v|] eqn:Hj; [|done]; cbn [mbind option_bind]. intros [= <-].
  rewrite (total_set p _ j v) by done. destruct (pushMail_count p v (q :: half)). lia.
Qed.

Lemma run_count p y i launched probed c y' new : run y i launched probed c = Some (y', new) ->
  total p y' = total p y + occ p new.
Proof.
  unfold run. destruct (workers y !! i) as [w|] eqn:Hi; [|done]; cbn [mbind option_bind].
  destruct (handleMail w) as [w1 [q|]] eqn:Em; destruct (handleMail_count p _ _ _ Em) as [H1 _]; cbn [found] in H1.
  { destruct (transfer _ _ _ _) as [y1|] eqn:Et; [|done]; cbn [mbind option_bind]. intros [= <- <-].
    apply (transfer_count p) in Et. rewrite (total_set p y i w) in Et by done. unfold occ; simpl in *. lia. }
  destruct (popLIFO w1) as [w2 [q|]] eqn:Ep; destruct (popLIFO_count p _ _ _ Ep) as [H2 _]; cbn [found] in H2.
  { destruct (transfer _ _ _ _) as [y1|] eqn:Et; [|done]; cbn [mbind option_bind]. intros [= <- <-].
    apply (transfer_count p) in Et. rewrite (total_set p y i w) in Et by done. unfold occ; simpl in *. lia. }
  destruct (handleNetwork _ _ _ _) as [[y1 r]|] eqn:En; [|done]; cbn [mbind option_bind].
  apply (handleNetwork_count p) in En. rewrite (total_set p y i w) in En by done.
  assert (wcount p (handleEpoch w2) = wcount p w2) by done.
  destruct r as [q|].
  { destruct (transfer _ _ _ _) as [y2|] eqn:Et; [|done]; cbn [mbind option_bind]. intros [= <- <-].
    apply (transfer_count p) in Et. simpl in *. lia. }
  destruct (handleSteal y1 i c) as [[[y2 r] new']|] eqn:Es; [|done]; cbn [mbind option_bind].
  apply (handleSteal_count p) in Es. simpl in En. destruct r as [q|].
  - destruct (transfer _ _ _ _) as [y3|] eqn:Et; [|done]; cbn [mbind option_bind]. intros [= <- <-].
    apply (transfer_count p) in Et. rewrite !occ_app in *. simpl in *. lia.
  - intros [= <- <-]. rewrite !occ_app in *. simpl in *. lia.
Qed.

Lemma unblock_count p y q y' : unblock y q = Some y' -> total p y' = total p y - ind p q.
Proof.
  unfold unblock. destruct (list_find (eq q) (blocked y)) as [[j x]|] eqn:E; [|done]; cbn [mbind option_bind].
  apply list_find_Some in E as (Hj & -> & _). intros [= <-]. unfold total; simpl.
  unfold occ at 1. rewrite (sum_of_delete _ _ _ x) by done. unfold occ. lia.
Qed.

Lemma sched_step_count p y i a y' new : sched_step y i a = Some (y', new) -> total p y' = total p y + occ p new.
Proof.
  unfold sched_step. destruct (workers y !! i) as [w|] eqn:Hi; [|done]; cbn [mbind option_bind].
  assert (Hsched : forall k (f : locality -> locality), (forall y, total p (f y) = total p y) ->
    (y ← schedule y i k; Some (f y, @nil Z)) = Some (y', new) -> total p y' = total p y + occ p new).
  { intros k f Hf. destruct (schedule y i k) as [y1|] eqn:E; [|done]; cbn [mbind option_bind]. intros [= <- <-].
    rewrite Hf. apply (schedule_count p) in E. unfold occ; simpl. lia. }
  destruct a as [launched probed c| |s|q|q| | | | | | |local| |j].
  - destruct (current_ w); [done|]. destruct (decide _); [apply run_count|done].
  - destruct (current_ w); [done|]. destruct (decide _); [|done]. intros [= <- <-].
    rewrite (total_set p y i w) by done. destruct (sleep_count p w). unfold occ; simpl. lia.
  - intros [= <- <-]. rewrite (total_set p y i w) by done. unfold occ, wcount; simpl. lia.
  - destruct (spawn y i q) as [y1|] eqn:E; [|done]; cbn [mbind option_bind]. intros [= <- <-].
    apply (spawn_count p) in E. rewrite occ_singleton. lia.
  - destruct (unblock y q) as [y1|] eqn:E1; [|done]; cbn [mbind option_bind].
    destruct (spawn y1 i q) as [y2|] eqn:E2; [|done]; cbn [mbind option_bind]. intros [= <- <-].
    apply (unblock_count p) in E1. apply (spawn_count p) in E2. unfold occ; simpl. lia.
  - destruct (current_ w); [|done]. intros [= <- <-]. unfold total, occ; simpl. lia.
  - destruct (current_ w); [|done]. intros [= <- <-]. unfold total, occ; simpl. lia.
  - destruct (current_ w); [|done]. by apply (Hsched KYield id).
  - destruct (current_ w); [|done]. by apply (Hsched KBlock id).
  - destruct (current_ w) as [c|]; [|done]. destruct (decide _); [|done].
    by apply (Hsched KBlock (fun y => with_locked y (locked y ∖ {[c]}))).
  - destruct (current_ w); [|done]. by apply (Hsched KFinish id).
  - destruct (current_ w) as [c|]; [|done]. destruct (schedule y i KAbandon) as [y1|] eqn:E1; [|done]; cbn [mbind option_bind].
    destruct (unblock y1 c) as [y2|] eqn:E2; [|done]; cbn [mbind option_bind].
    apply (schedule_count p) in E1. apply (unblock_count p) in E2. destruct local.
    + destruct (spawn y2 i c) as [y3|] eqn:E3; [|done]; cbn [mbind option_bind]. intros [= <- <-].
      apply (spawn_count p) in E3. unfold occ; simpl. lia.
    + cbn [mbind option_bind]. intros [= <- <-]. unfold total in *; simpl. rewrite occ_app, occ_singleton. unfold occ in *; simpl. lia.
  - destruct (current_ w); [|done]. by apply (Hsched KAbandon id).
  - destruct (current_ w) as [c|]; [|done]. destruct (is_StealHalf c); [|done].
    destruct (StealHalfHandler y i j) as [y1|] eqn:E; [|done]; cbn [mbind option_bind]. intros [= <- <-].
    apply (StealHalfHandler_count p) in E. unfold occ; simpl. lia.
Qed.

(** Runs of a locality of [n] workers, and the parcels created in them. *)
Inductive sched_run (n : nat) : list Z -> locality -> Prop :=
| sched_nil : sched_run n [] (sched_start n)
| sched_cons created y i a y' new : sched_run n created y -> sched_step y i a = Some (y', new) ->
    sched_run n (created ++ new) y'.

Lemma sched_run_count n created y p : sched_run n created y -> total p y = occ p created.
Proof.
  induction 1 as [|created y i a y' new Hr IH Hs].
  - unfold total, occ; simpl. assert (H : sum_of (wcount p) (replicate n Worker_new) = 0); [|lia].
    clear. induction n as [|n IH]; simpl; [done|]. rewrite IH. done.
  - apply (sched_step_count p) in Hs. rewrite occ_app. lia.
Qed.

Lemma ind_nonneg p q : 0 <= ind p q.
Proof. unfold ind. destruct (decide _); lia. Qed.

Lemma occ_nonneg p l : 0 <= occ p l.
Proof. apply sum_of_nonneg. intros. apply ind_nonneg. Qed.

Lemma wcount_nonneg p w : 0 <= wcount p w.
Proof.
  unfold wcount. pose proof (occ_nonneg p (items (queue0 w))). pose proof (occ_nonneg p (items (queue1 w))).
  assert (0 <= sum_of (occ p) (inbox_ w)) by (apply sum_of_nonneg; intros; apply occ_nonneg).
  destruct (current_ w) as [c|]; [pose proof (ind_nonneg p c)|]; lia.
Qed.

Lemma occ_none p l : p ∉ l -> occ p l = 0.
Proof.
  induction l as [|q l IH]; intros Hn; [done|]. apply not_elem_of_cons in Hn as [Hne Hn].
  unfold occ in *; simpl. rewrite IH by done. unfold ind. by rewrite decide_False.
Qed.

Lemma occ_nodup p l : NoDup l -> p ∈ l -> occ p l = 1.
Proof.
  induction 1 as [|q l Hq Hl IH]; [by intros ?%not_elem_of_nil|]. intros [->|Hp]%elem_of_cons; unfold occ in *; simpl.
  - rewrite (occ_none q l Hq : sum_of _ _ = 0). unfold ind. by rewrite decide_True.
  - rewrite IH by done. unfold ind. rewrite decide_False; [done|]. by intros ->.
Qed.

Lemma occ_le_1 p l : NoDup l -> occ p l <= 1.
Proof.
  intros Hl. destruct (decide (p ∈ l)); [rewrite occ_nodup by done; lia|rewrite occ_none by done; lia].
Qed.

(** A thread runs on one worker only. *)
Definition distinct_currents y : Prop :=
  forall i j wi wj c, y.(workers) !! i = Some wi -> y.(workers) !! j = Some wj ->
    wi.(current_) = Some c -> wj.(current_) = Some c -> i = j.

Lemma total_distinct y : (forall p, total p y <= 1) -> distinct_currents y.
Proof.
  intros Ht i j wi wj c Hi Hj Ci Cj. destruct (decide (i = j)) as [|Hne]; [done|exfalso].
  specialize (Ht c). pose proof (sum_of_insert (wcount c) (workers y) i wi (with_current wi None) Hi) as H1.
  assert (Hj' : <[i := with_current wi None]> (workers y) !! j = Some wj) by by rewrite list_lookup_insert_ne.
  assert (H2 : wcount c wj <= sum_of (wcount c) (<[i := with_current wi None]> (workers y))).
  { apply sum_of_elem; [intros; apply wcount_nonneg|]. by eapply list_elem_of_lookup_2. }
  assert (Hone : ind c c = 1) by (unfold ind; by rewrite decide_True).
  assert (1 <= wcount c wj).
  { pose proof (wcount_nonneg c (with_current wj None)). unfold wcount in *; simpl in *. rewrite Cj. lia. }
  assert (wcount c wi = wcount c (with_current wi None) + 1) by (unfold wcount; simpl; rewrite Ci; lia).
  pose proof (occ_nonneg c (blocked y)). pose proof (occ_nonneg c (finished y)). pose proof (occ_nonneg c (departed y)).
  unfold total in Ht. lia.
Qed.

(** C18: the scheduler neither loses nor duplicates parcels.  Through mail, work queues,
    epochs, the network, every stealing policy, work-first spawns, yields, suspensions,
    resends and stops, every parcel that was created is at any time in exactly one place:
    a queue or a mailbox of one worker, running, suspended, deleted or sent away; in
    particular no thread runs on two workers. *)
Theorem scheduler_conserves n created y : sched_run n created y -> NoDup created ->
  (forall p, p ∈ created -> total p y = 1) /\ (forall p, p ∉ created -> total p y = 0)
  /\ distinct_currents y.
Proof.
  intros Hr Hn. assert (H : forall p, total p y = occ p created) by (intros; by eapply sched_run_count).
  split; [intros; rewrite H; by apply occ_nodup|]. split; [intros; rewrite H; by apply occ_none|].
  apply total_distinct. intros p. rewrite H. by apply occ_le_1.
Qed.

(** ** Stacks *)

Lemma occ_perm p l k : l ≡ₚ k -> occ p l = occ p k.
Proof. unfold occ. induction 1; simpl; lia. Qed.

Definition bound_stacks (m : gmap Z Z) : list Z := map snd (map_to_list m).

Lemma bound_insert s p t m : m !! p = None -> occ s (bound_stacks (<[p := t]> m)) = occ s (bound_stacks m) + ind s t.
Proof.
  intros Hp. unfold bound_stacks. rewrite (occ_perm _ _ (t :: map snd (map_to_list m))).
  - unfold occ; simpl. lia.
  - by rewrite map_to_list_insert.
Qed.

Lemma bound_delete s p t m : m !! p = Some t -> occ s (bound_stacks (delete p m)) = occ s (bound_stacks m) - ind s t.
Proof.
  intros Hp. unfold bound_stacks. rewrite <- (occ_perm _ _ _ (Permutation_map snd (map_to_list_delete m p t Hp))).
  unfold occ; simpl. lia.
Qed.

(** How often a stack is in a cache or bound to a parcel. *)
Definition scount (s : Z) y : Z :=
  sum_of (fun w => occ s w.(threads_)) y.(workers) + occ s (bound_stacks y.(stacks)).

Record stack_inv y : Prop := {
  stack_unique s : scount s y <= 1;
  stack_fresh s : y.(next_stack) <= s -> scount s y = 0;
  stack_current i w c : y.(workers) !! i = Some w -> w.(current_) = Some c -> is_Some (y.(stacks) !! c);
  stack_limit i w : 0 < sched_stackcachelimit -> y.(workers) !! i = Some w ->
    Z.of_nat (length w.(threads_)) < sched_stackcachelimit;
}.

Lemma scount_nonneg s y : 0 <= scount s y.
Proof.
  unfold scount. assert (0 <= sum_of (fun w => occ s (threads_ w)) (workers y)) by (apply sum_of_nonneg; intros; apply occ_nonneg).
  pose proof (occ_nonneg s (bound_stacks (stacks y))). lia.
Qed.

Lemma core_eq w w' : core w' = core w -> current_ w' = current_ w /\ threads_ w' = threads_ w /\ state_ w' = state_ w.
Proof. unfold core. by intros [= -> -> ->]. Qed.

(** Updating a worker's queues. *)
Lemma stack_set y i w w' : stack_inv y -> y.(workers) !! i = Some w -> core w' = core w -> stack_inv (set_worker y i w').
Proof.
  intros [S1 S2 S3 S4] Hi (Hc & Ht & _)%core_eq.
  assert (Hs : forall s, scount s (set_worker y i w') = scount s y).
  { intros s. unfold scount; simpl. rewrite (sum_of_insert _ _ _ w) by done. rewrite Ht. lia. }
  split; simpl.
  - intros s. rewrite Hs. apply S1.
  - intros s Hlt. rewrite Hs. by apply S2.
  - intros j v c Hj Hv. apply list_lookup_insert_Some in Hj as [(-> & -> & _)|(_ & Hj)]; [|by eapply S3].
    eapply S3; [done|]. by rewrite <- Hc.
  - intros j v Hl Hj. apply list_lookup_insert_Some in Hj as [(-> & -> & _)|(_ & Hj)]; [|by eapply S4].
    rewrite Ht. by eapply S4.
Qed.

Lemma stack_same y y' : stack_inv y -> workers y' = workers y -> stacks y' = stacks y -> next_stack y' = next_stack y ->
  stack_inv y'.
Proof.
  intros [S1 S2 S3 S4] Hw Hs Hn. unfold scount in *.
  split; unfold scount; rewrite ?Hw, ?Hs, ?Hn; done.
Qed.

Lemma stack_bind y i q y' : stack_inv y -> bind y i q = Some y' ->
  stack_inv y' /\ is_Some (y'.(stacks) !! q)
  /\ (forall j, (fun w => (current_ w, state_ w)) <$> y'.(workers) !! j = (fun w => (current_ w, state_ w)) <$> y.(workers) !! j).
Proof.
  intros I. unfold bind. destruct (workers y !! i) as [w|] eqn:Hi; [|done]; cbn [mbind option_bind].
  destruct (stacks y !! q) as [s|] eqn:Hq; [done|].
  pose proof I as [S1 S2 S3 S4]. destruct (threads_ w) as [|s ts] eqn:Et; intros [= <-].
  - split; [|split; [simpl; by rewrite lookup_insert_eq|done]].
    assert (Hc : forall s, scount s (mkLocality (workers y) (blocked y) (finished y) (departed y) (locked y)
       (<[q:=next_stack y]> (stacks y)) (next_stack y + 1)) = scount s y + ind s (next_stack y)).
    { intros s. unfold scount; simpl. rewrite bound_insert by done. lia. }
    split; simpl; [|..|done].
    + intros s. rewrite Hc. specialize (S1 s). unfold ind. destruct (decide _) as [->|]; [|lia]. rewrite S2 by lia. lia.
    + intros s Hs. rewrite Hc. rewrite S2 by lia. unfold ind. rewrite decide_False by lia. done.
    + intros j v c Hj Hv. destruct (decide (c = q)) as [->|Hne]; [by rewrite lookup_insert_eq|].
      rewrite lookup_insert_ne by done. by eapply S3.
  - split; [|split; [simpl; by rewrite lookup_insert_eq|]].
    2: { intros j. simpl. destruct (decide (i = j)) as [<-|Hne].
         - rewrite list_lookup_insert_eq, Hi by (by eapply lookup_lt_Some). done.
         - by rewrite list_lookup_insert_ne. }
    assert (Hc : forall t, scount t (mkLocality (workers (set_worker y i (with_threads w ts))) (blocked y) (finished y)
       (departed y) (locked y) (<[q:=s]> (stacks y)) (next_stack y)) = scount t y).
    { intros t. unfold scount; simpl. rewrite bound_insert, (sum_of_insert _ _ _ w) by done. simpl. rewrite Et.
      unfold occ; simpl. lia. }
    split; simpl.
    + intros t. rewrite Hc. apply S1.
    + intros t Ht. rewrite Hc. by apply S2.
    + intros j v c Hj Hv. destruct (decide (c = q)) as [->|Hne]; [by rewrite lookup_insert_eq|].
      rewrite lookup_insert_ne by done. apply list_lookup_insert_Some in Hj as [(-> & <- & _)|(_ & Hj)]; by eapply S3.
    + intros j v Hl Hj. apply list_lookup_insert_Some in Hj as [(-> & <- & _)|(_ & Hj)]; [|by eapply S4].
      simpl. specialize (S4 j w Hl Hi). rewrite Et in S4. simpl in S4. lia.
Qed.

Lemma trim_spec ts ts' : trim ts = Some ts' ->
  (exists k, ts' = drop k ts)
  /\ (0 < sched_stackcachelimit -> Z.of_nat (length ts) <= sched_stackcachelimit ->
      Z.of_nat (length ts') < sched_stackcachelimit).
Proof.
  unfold trim. intros H. destruct (_ || _) eqn:E.
  - injection H as <-. split; [by exists 0%nat|]. intros Hl _. apply orb_true_iff in E as [E|E]; zbool; lia.
  - apply orb_false_iff in E as [E1 E2]. zbool. destruct (_ <? ceil_div _ 2) eqn:E3; [done|].
    destruct (_ || _); [|done]. injection H as <-. split; [by eexists|]. intros Hl Hlen. rewrite length_drop.
    pose proof (ceil_div_spec sched_stackcachelimit 2 ltac:(lia) ltac:(lia)). lia.
Qed.

Lemma occ_drop s k l : occ s (drop k l) <= occ s l.
Proof.
  pose proof (occ_app s (take k l) (drop k l)) as H. rewrite take_drop in H. pose proof (occ_nonneg s (take k l)). lia.
Qed.

Definition not_running y (c : Z) : Prop := forall j w, y.(workers) !! j = Some w -> w.(current_) <> Some c.

Lemma stack_unbind y i c y' : stack_inv y -> not_running y c -> unbind y i c = Some y' -> stack_inv y'.
Proof.
  intros I Hn. unfold unbind. destruct (workers y !! i) as [w|] eqn:Hi; [|done]; cbn [mbind option_bind].
  destruct (stacks y !! c) as [t|] eqn:Hc; [|by intros [= <-]].
  destruct (trim _) as [ts|] eqn:Et; [|done]; cbn [mbind option_bind]. intros [= <-].
  destruct (trim_spec _ _ Et) as [[k ->] Hlen]. destruct I as [S1 S2 S3 S4].
  assert (Hle : forall s, scount s (mkLocality (workers (set_worker y i (with_threads w (drop k (t :: threads_ w))))) (blocked y)
     (finished y) (departed y) (locked y) (delete c (stacks y)) (next_stack y)) <= scount s y).
  { intros s. unfold scount; simpl. rewrite (bound_delete _ _ t), (sum_of_insert _ _ _ w) by done. simpl.
    pose proof (occ_drop s k (t :: threads_ w)). unfold occ in *; simpl in *. lia. }
  split; simpl.
  - intros s. specialize (Hle s). specialize (S1 s). simpl in Hle. lia.
  - intros s Hs. specialize (Hle s). rewrite (S2 s Hs) in Hle. simpl in Hle.
    match goal with |- scount s ?z = 0 => pose proof (scount_nonneg s z) end. lia.
  - intros j v d Hj Hd. assert (Hv : exists v', workers y !! j = Some v' /\ current_ v' = Some d).
    { apply list_lookup_insert_Some in Hj as [(-> & <- & _)|(_ & Hj)]; [by exists w|by exists v]. }
    destruct Hv as (v' & Hj' & Hd'). rewrite lookup_delete_ne; [by eapply S3|]. intros ->. by eapply Hn.
  - intros j v Hl Hj. apply list_lookup_insert_Some in Hj as [(-> & <- & _)|(_ & Hj)]; [|by eapply S4].
    simpl. apply Hlen; [done|]. specialize (S4 j w Hl Hi). simpl. lia.
Qed.

Lemma stack_run_continuation y i k c y' : stack_inv y -> not_running y c ->
  run_continuation y i k c = Some y' -> stack_inv y'.
Proof.
  intros I Hn. unfold run_continuation. destruct (workers y !! i) as [w|] eqn:Hi; [|done]; cbn [mbind option_bind].
  destruct k; [done|intros [= <-]..| |].
  - eapply stack_set; [done..|]. by apply (pushLIFO_count c).
  - eapply stack_set; [done..|]. by apply (pushYield_count c).
  - by apply (stack_same y).
  - destruct (unbind y i c) as [y1|] eqn:E; [|done]; cbn [mbind option_bind]. intros [= <-].
    apply (stack_same y1); [|done..]. by eapply stack_unbind.
  - destruct (unbind y i c) as [y1|] eqn:E; [|done]; cbn [mbind option_bind]. intros [= <-].
    apply (stack_same y1); [|done..]. by eapply stack_unbind.
Qed.

Lemma stack_transfer y i q k y' : stack_inv y -> (forall p, total p y <= 1) -> transfer y i q k = Some y' -> stack_inv y'.
Proof.
  intros I Hd%total_distinct. unfold transfer. intros H.
  destruct (ensure_stack y i q) as [y1|] eqn:Eb; [|done]; cbn [mbind option_bind] in H.
  assert (HI : stack_inv y1 /\ (forall p, q = Some p -> is_Some (stacks y1 !! p))
    /\ (forall j, (fun w => (current_ w, state_ w)) <$> y1.(workers) !! j = (fun w => (current_ w, state_ w)) <$> y.(workers) !! j)).
  { destruct q as [q|]; simpl in Eb; [|by injection Eb as <-].
    destruct (stacks y !! q) eqn:Hq; [injection Eb as <-; split; [done|]; split; [|done]; by intros p [= <-]|].
    destruct (stack_bind _ _ _ _ I Eb) as (? & ? & ?).
    split; [done|]. split; [|done]. by intros p [= <-]. }
  destruct HI as (I1 & Hq & Hcur).
  destruct (workers y1 !! i) as [w1|] eqn:Hi; [|done]; cbn [mbind option_bind] in H.
  destruct (decide (q = current_ w1)) as [|Hne]; [done|].
  assert (I2 : stack_inv (set_worker y1 i (with_current w1 q))).
  { destruct I1 as [S1 S2 S3 S4].
    assert (Hs : forall s, scount s (set_worker y1 i (with_current w1 q)) = scount s y1).
    { intros s. unfold scount; simpl. rewrite (sum_of_insert _ _ _ w1) by done. simpl. lia. }
    split; simpl.
    - intros s. rewrite Hs. apply S1.
    - intros s Hlt. rewrite Hs. by apply S2.
    - intros j v c Hj Hv. apply list_lookup_insert_Some in Hj as [(-> & <- & _)|(_ & Hj)]; [by apply Hq|by eapply S3].
    - intros j v Hl Hj. apply list_lookup_insert_Some in Hj as [(-> & <- & _)|(_ & Hj)]; [|by eapply S4].
      simpl. by eapply S4. }
  destruct (current_ w1) as [c|] eqn:Ec.
  - apply (stack_run_continuation _ _ _ _ _ I2) in H; [done|]. intros j v Hj Hv. simpl in Hj.
    apply list_lookup_insert_Some in Hj as [(-> & <- & _)|(Hij & Hj)]; [done|].
    pose proof (Hcur i) as Ci. pose proof (Hcur j) as Cj. rewrite Hi in Ci. rewrite Hj in Cj. simpl in Ci, Cj.
    destruct (workers y !! i) as [wi|] eqn:Ei; [|done]. destruct (workers y !! j) as [wj|] eqn:Ej; [|done].
    injection Ci as Ci _. injection Cj as Cj _. apply Hij. apply (Hd i j wi wj c Ei Ej); congruence.
  - destruct k; try done. by injection H as <-.
Qed.

Abbreviation once y := (forall p, total p y <= 1).

Lemma found_nonneg p r : 0 <= found p r.
Proof. destruct r; simpl; [apply ind_nonneg|lia]. Qed.

(** Setting a worker after a parcel was taken from it. *)
Lemma take_once y i w w' r : once y -> y.(workers) !! i = Some w ->
  (forall p, wcount p w = wcount p w' + found p r) -> once (set_worker y i w').
Proof.
  intros Ho Hi Hc p. rewrite (total_set p y i w) by done. specialize (Ho p). specialize (Hc p).
  pose proof (found_nonneg p r). lia.
Qed.

Lemma stack_schedule y i k y' : stack_inv y -> once y -> schedule y i k = Some y' -> stack_inv y'.
Proof.
  intros I Ho. unfold schedule. destruct (workers y !! i) as [w|] eqn:Hi; [|done]; cbn [mbind option_bind].
  destruct (decide (state_ w = RUN)); [|by apply stack_transfer].
  destruct (handleMail w) as [w1 [q|]] eqn:Em.
  - apply stack_transfer.
    + eapply stack_set; [done..|]. by apply (handleMail_count 0 _ _ _ Em).
    + eapply take_once; [done..|]. intros p. by apply (handleMail_count p _ _ _ Em).
  - destruct (popLIFO w1) as [w2 r] eqn:Ep. apply stack_transfer.
    + eapply stack_set; [done..|]. destruct (handleMail_count 0 _ _ _ Em) as [_ <-]. by apply (popLIFO_count 0 _ _ _ Ep).
    + apply (take_once y i w w2 r); [done..|]. intros p. destruct (handleMail_count p _ _ _ Em) as [H1 _].
      destruct (popLIFO_count p _ _ _ Ep) as [H2 _]. simpl in H1. lia.
Qed.

Lemma stack_spawn y i q y' : stack_inv y -> once y -> spawn y i q = Some y' -> stack_inv y'.
Proof.
  intros I Ho. unfold spawn. destruct (workers y !! i) as [w|] eqn:Hi; [|done]; cbn [mbind option_bind].
  assert (Hpush : stack_inv (set_worker y i (pushLIFO w q))) by (eapply stack_set; [done..|]; by apply (pushLIFO_count 0)).
  destruct (_ && _).
  - destruct (workers y !! Z.to_nat _) as [v|] eqn:Hv; [|done]; cbn [mbind option_bind]. intros [= <-].
    eapply stack_set; [done..|]. by apply (pushMail_count 0).
  - destruct (decide _); [by intros [= <-]|]. destruct (_ <? 1); [by intros [= <-]|].
    destruct (current_ w) as [c|]; [|by apply stack_transfer].
    destruct (bool_decide _); [by intros [= <-]|]. destruct (is_interrupt c); [by intros [= <-]|]. by apply stack_transfer.
Qed.

Lemma stack_spawn_all i ps : forall y y', stack_inv y -> (forall p, total p y + occ p ps <= 1) ->
  foldl (fun oy p => y ← oy; spawn y i p) (Some y) ps = Some y' -> stack_inv y'.
Proof.
  assert (Hnone : forall l, foldl (fun oy p => y ← oy; spawn y i p) None l = None)
    by (intros l; induction l as [|? ? IH]; [done|apply IH]).
  induction ps as [|q ps IH]; intros y y' I Ho; simpl; [by intros [= <-]|].
  destruct (spawn y i q) as [y1|] eqn:E; [|by rewrite Hnone].
  assert (I1 : stack_inv y1).
  { eapply stack_spawn; [done| |done]. intros p. specialize (Ho p). pose proof (occ_nonneg p (q :: ps)). lia. }
  apply IH; [done|]. intros p. specialize (Ho p). apply (spawn_count p) in E. unfold occ in *; simpl in Ho. lia.
Qed.

Lemma stack_handleNetwork y i launched probed y' r : stack_inv y ->
  (forall p, total p y + occ p launched <= 1) -> handleNetwork y i launched probed = Some (y', r) -> stack_inv y'.
Proof.
  intros I Ho. unfold handleNetwork. destruct (workers y !! i) as [w|] eqn:Hi; [|done]; cbn [mbind option_bind].
  destruct (foldl _ _ launched) as [y1|] eqn:El; [|done]; cbn [mbind option_bind].
  assert (I1 : stack_inv y1).
  { eapply stack_spawn_all; [| |done]; [by eapply stack_set|]. intros p. rewrite (total_set p y i w) by done.
    specialize (Ho p). assert (wcount p (with_workFirst w (-1)) = wcount p w) by done. lia. }
  destruct (workers y1 !! i) as [w1|] eqn:Hi1; [|done]; cbn [mbind option_bind].
  destruct (popLIFO _) as [w2 r'] eqn:Ep. intros [= <- <-]. eapply stack_set; [done..|].
  destruct (popLIFO_count 0 _ _ _ Ep) as [_ ->].
  by destruct (push_all_count 0 probed (with_workFirst w1 (workFirst_ w))) as [_ ->].
Qed.

Lemma stack_stealFrom y i v y' r : stack_inv y -> stealFrom y i v = Some (y', r) -> stack_inv y'.
Proof.
  intros I. unfold stealFrom. destruct (workers y !! v) as [u|] eqn:Hv; [|done]; cbn [mbind option_bind].
  destruct (lifo_steal (work u)) as [q r'] eqn:Es.
  assert (I1 : stack_inv (set_worker y v (with_work u q))) by (eapply stack_set; [done..|]; by apply (wcount_with_work 0)).
  destruct (workers (set_worker y v (with_work u q)) !! i) as [w|] eqn:Hi; [|done]; cbn [mbind option_bind]. intros [= <- <-].
  by eapply stack_set.
Qed.

Lemma stack_or_else r f y' q new : (forall y1 x, r = Some (y1, x) -> stack_inv y1) ->
  (forall y1, stack_inv y1 -> f y1 = Some (y', q, new) -> stack_inv y') ->
  or_else r f = Some (y', q, new) -> stack_inv y'.
Proof.
  intros Hr Hf. unfold or_else. destruct r as [[y1 [x|]]|]; [|..|done]; cbn [mbind option_bind].
  - intros [= <- <- <-]. by eapply Hr.
  - intros H. eapply Hf; [|done]. by eapply Hr.
Qed.

Lemma stack_handleSteal y i c y' r new : stack_inv y -> handleSteal y i c = Some (y', r, new) -> stack_inv y'.
Proof.
  intros I. unfold handleSteal. destruct (decide _); [by intros [= <- <- <-]|].
  destruct c as [v|v1 v2 v3 node request].
  - unfold stealRandom. destruct (decide _); [done|]. destruct (stealFrom y i v) as [[y1 r1]|] eqn:E; [|done]; cbn [mbind option_bind].
    intros [= <- <- <-]. by eapply stack_stealFrom.
  - assert (Hnode : forall y v y1 x, stack_inv y -> stealRandomNode y i v = Some (y1, x) -> stack_inv y1).
    { intros y0 v y1 x I0. unfold stealRandomNode. destruct (decide _); [by apply stack_stealFrom|done]. }
    unfold stealHierarchical. destruct (workers y !! i) as [w|] eqn:Hi; [|done]; cbn [mbind option_bind].
    apply stack_or_else.
    { intros y1 x. destruct (lastVictim_ w); [by apply stack_stealFrom|]. by intros [= <- <-]. }
    intros y1 I1. apply stack_or_else; [intros y2 x; by apply Hnode|]. intros y2 I2.
    apply stack_or_else; [intros y3 x; by apply Hnode|]. intros y3 I3.
    destruct (decide _); [|done]. destruct (workers y3 !! v3) as [v|] eqn:Hv; [|done]; cbn [mbind option_bind].
    intros [= <- <- <-]. eapply stack_set; [done..|]. by apply (pushMail_count 0).
Qed.

Lemma stack_StealHalfHandler y i j y' : stack_inv y -> StealHalfHandler y i j = Some y' -> stack_inv y'.
Proof.
  intros I. unfold StealHalfHandler. destruct (workers y !! i) as [w|] eqn:Hi; [|done]; cbn [mbind option_bind].
  destruct (stealHalf w) as [[w1 half] ds] eqn:E.
  assert (Hh : core w1 = core w).
  { unfold stealHalf in E. destruct (_ <? _); [by simplify_eq|]. by destruct (steal_half_count 0 _ _ _ _ _ _ _ E). }
  assert (I1 : stack_inv (foldl add_finished (set_worker y i w1) ds)).
  { assert (Hf : forall ds y, stack_inv y -> stack_inv (foldl add_finished y ds)).
    { clear. induction ds as [|d ds IH]; intros y I; simpl; [done|]. apply IH. by apply (stack_same y). }
    apply Hf. by eapply stack_set. }
  destruct half as [|q half]; [by intros [= <-]|].
  destruct (workers _ !! j) as [v|] eqn:Hj; [|done]; cbn [mbind option_bind]. intros [= <-].
  eapply stack_set; [done..|]. by apply (pushMail_count 0).
Qed.

Lemma stack_run y i launched probed c y' new : stack_inv y -> (forall p, total p y + occ p new <= 1) ->
  run y i launched probed c = Some (y', new) -> stack_inv y'.
Proof.
  intros I Ho H. assert (O : once y) by (intros p; specialize (Ho p); pose proof (occ_nonneg p new); lia).
  assert (O' : once y') by (intros p; specialize (Ho p); apply (run_count p) in H; lia).
  unfold run in H. destruct (workers y !! i) as [w|] eqn:Hi; [|done]; cbn [mbind option_bind] in H.
  destruct (handleMail w) as [w1 [q|]] eqn:Em.
  { destruct (transfer _ _ _ _) as [y1|] eqn:Et; [|done]; simplify_eq/=. eapply stack_transfer; [| |done].
    - eapply stack_set; [done..|]. by apply (handleMail_count 0 _ _ _ Em).
    - apply (take_once y i w w1 (Some q)); [done..|]. intros p. by apply (handleMail_count p _ _ _ Em). }
  destruct (popLIFO w1) as [w2 r] eqn:Ep.
  assert (Hc2 : core w2 = core w).
  { destruct (popLIFO_count 0 _ _ _ Ep) as [_ ->]. by apply (handleMail_count 0 _ _ _ Em). }
  assert (Hw2 : forall p, wcount p w = wcount p w2 + found p r).
  { intros p. destruct (popLIFO_count p _ _ _ Ep) as [H2 _]. destruct (handleMail_count p _ _ _ Em) as [H1 _]. simpl in H1. lia. }
  destruct r as [q|].
  { destruct (transfer _ _ _ _) as [y1|] eqn:Et; [|done]; injection H as -> <-. eapply stack_transfer; [| |done].
    - by eapply stack_set.
    - by apply (take_once y i w w2 (Some q)). }
  destruct (handleNetwork _ _ _ _) as [[y1 r]|] eqn:En; [|done]; cbn [mbind option_bind] in H.
  assert (Hset : forall p, total p (set_worker y i (handleEpoch w2)) = total p y).
  { intros p. rewrite (total_set p y i w) by done. specialize (Hw2 p). simpl in Hw2.
    assert (wcount p (handleEpoch w2) = wcount p w2) by done. lia. }
  assert (Hnew : forall p, total p y + occ p (launched ++ probed) <= 1).
  { intros p. specialize (Ho p). destruct r as [q|].
    - destruct (transfer _ _ _ _); [|done]. by simplify_eq/=.
    - destruct (handleSteal y1 i c) as [[[y2 [q|]] new']|]; [|..|done]; simplify_eq/=;
        [destruct (transfer _ _ _ _); [|done]; simplify_eq/=|]; rewrite !occ_app in *; pose proof (occ_nonneg p new'); lia. }
  assert (I1 : stack_inv y1).
  { eapply stack_handleNetwork; [| |done]; [by eapply stack_set|]. intros p. rewrite Hset. specialize (Hnew p).
    rewrite occ_app in Hnew. pose proof (occ_nonneg p probed). lia. }
  assert (O1 : once y1).
  { intros p. apply (handleNetwork_count p) in En. rewrite Hset in En. specialize (Hnew p). pose proof (found_nonneg p r). lia. }
  destruct r as [q|].
  { destruct (transfer _ _ _ _) as [y2|] eqn:Et; [|done]; simplify_eq/=. by eapply stack_transfer. }
  destruct (handleSteal y1 i c) as [[[y2 r] new']|] eqn:Es; [|done]; cbn [mbind option_bind] in H.
  pose proof (stack_handleSteal _ _ _ _ _ _ I1 Es) as I2. destruct r as [q|]; [|by simplify_eq/=].
  destruct (transfer _ _ _ _) as [y3|] eqn:Et; [|done]; simplify_eq/=. eapply stack_transfer; [done| |done].
  intros p. specialize (O' p). apply (transfer_count p) in Et. pose proof (found_nonneg p (Some q)). lia.
Qed.

Lemma stack_step y i a y' new : stack_inv y -> (forall p, total p y + occ p new <= 1) ->
  sched_step y i a = Some (y', new) -> stack_inv y'.
Proof.
  intros I Ho. assert (O : once y) by (intros p; specialize (Ho p); pose proof (occ_nonneg p new); lia).
  unfold sched_step. destruct (workers y !! i) as [w|] eqn:Hi; [|done]; cbn [mbind option_bind].
  assert (Hsched : forall k (f : locality -> locality), (forall y, stack_inv y -> stack_inv (f y)) ->
    (y ← schedule y i k; Some (f y, @nil Z)) = Some (y', new) -> stack_inv y').
  { intros k f Hf. destruct (schedule y i k) as [y1|] eqn:E; [|done]; cbn [mbind option_bind]. intros [= <- <-].
    apply Hf. by eapply stack_schedule. }
  destruct a as [launched probed c| |s|q|q| | | | | | |local| |j].
  - destruct (current_ w); [done|]. destruct (decide _); [by apply stack_run|done].
  - destruct (current_ w); [done|]. destruct (decide _); [|done]. intros [= <- <-].
    eapply stack_set; [done..|]. by apply (sleep_count 0).
  - intros [= <- <-]. destruct I as [S1 S2 S3 S4].
    assert (Hs : forall t, scount t (set_worker y i (with_wstate w s)) = scount t y).
    { intros t. unfold scount; simpl. rewrite (sum_of_insert _ _ _ w) by done. simpl. lia. }
    split; simpl; intros; rewrite ?Hs; auto.
    all: match goal with H : <[_ := _]> _ !! _ = Some _ |- _ =>
           apply list_lookup_insert_Some in H as [(-> & <- & _)|(_ & H)] end; simpl in *; eauto.
  - destruct (spawn y i q) as [y1|] eqn:E; [|done]; cbn [mbind option_bind]. intros [= <- <-]. by eapply stack_spawn.
  - destruct (unblock y q) as [y1|] eqn:E1; [|done]; cbn [mbind option_bind].
    destruct (spawn y1 i q) as [y2|] eqn:E2; [|done]; cbn [mbind option_bind]. intros [= <- <-].
    eapply stack_spawn; [| |done].
    + unfold unblock in E1. destruct (list_find _ _) as [[]|]; [|done]; simplify_eq/=. by apply (stack_same y).
    + intros p. apply (unblock_count p) in E1. specialize (O p). pose proof (ind_nonneg p q). lia.
  - destruct (current_ w); [|done]. intros [= <- <-]. by apply (stack_same y).
  - destruct (current_ w); [|done]. intros [= <- <-]. by apply (stack_same y).
  - destruct (current_ w); [|done]. by apply (Hsched KYield id).
  - destruct (current_ w); [|done]. by apply (Hsched KBlock id).
  - destruct (current_ w) as [c|]; [|done]. destruct (decide _); [|done].
    apply (Hsched KBlock (fun y => with_locked y (locked y ∖ {[c]}))). intros z Iz. by apply (stack_same z).
  - destruct (current_ w); [|done]. by apply (Hsched KFinish id).
  - destruct (current_ w) as [c|]; [|done]. destruct (schedule y i KAbandon) as [y1|] eqn:E1; [|done]; cbn [mbind option_bind].
    pose proof (stack_schedule _ _ _ _ I O E1) as I1.
    destruct (unblock y1 c) as [y2|] eqn:E2; [|done]; cbn [mbind option_bind].
    assert (I2 : stack_inv y2).
    { unfold unblock in E2. destruct (list_find _ _) as [[]|]; [|done]; simplify_eq/=. by apply (stack_same y1). }
    destruct local; [|cbn [mbind option_bind]; intros [= <- <-]; by apply (stack_same y2)].
    destruct (spawn y2 i c) as [y3|] eqn:E3; [|done]; cbn [mbind option_bind]. intros [= <- <-].
    eapply stack_spawn; [done| |done]. intros p. apply (schedule_count p) in E1. apply (unblock_count p) in E2.
    specialize (O p). pose proof (ind_nonneg p c). lia.
  - destruct (current_ w); [|done]. by apply (Hsched KAbandon id).
  - destruct (current_ w) as [c|]; [|done]. destruct (is_StealHalf c); [|done].
    destruct (StealHalfHandler y i j) as [y1|] eqn:E; [|done]; cbn [mbind option_bind]. intros [= <- <-].
    by eapply stack_StealHalfHandler.
Qed.

Lemma stack_start n : stack_inv (sched_start n).
Proof.
  assert (Hs : forall s, scount s (sched_start n) = 0).
  { intros s. unfold scount; simpl. unfold bound_stacks. rewrite map_to_list_empty. simpl.
    induction n as [|n IH]; [done|]. simpl. rewrite <- Z.add_assoc. rewrite IH. done. }
  split; simpl; intros; rewrite ?Hs; try lia.
  - apply lookup_replicate in H as [-> _]. done.
  - apply lookup_replicate in H0 as [-> _]. simpl. lia.
Qed.

Lemma stack_sched_run n created y : sched_run n created y -> NoDup created -> stack_inv y.
Proof.
  induction 1 as [|created y i a y' new Hr IH Hs]; intros Hn; [apply stack_start|].
  pose proof Hn as Hn'. apply NoDup_app in Hn' as (Hn1 & _ & _). eapply stack_step; [by apply IH| |done].
  intros p. rewrite (sched_run_count _ _ _ p Hr), <- occ_app. by apply occ_le_1.
Qed.

(** The cache can be trimmed: the limit is negative, one, or even and positive. *)
Definition limit_ok : Prop :=
  sched_stackcachelimit < 0 \/ sched_stackcachelimit = 1
  \/ (0 < sched_stackcachelimit /\ (2 | sched_stackcachelimit)).

Lemma trim_some ts : limit_ok -> (0 < sched_stackcachelimit -> Z.of_nat (length ts) <= sched_stackcachelimit) ->
  is_Some (trim ts).
Proof.
  intros Hl Hlen. unfold trim. destruct (_ || _) eqn:E; [by eexists|]. apply orb_false_iff in E as [E1 E2]. zbool.
  assert (Hpos : 0 < sched_stackcachelimit) by (unfold limit_ok in Hl; lia). specialize (Hlen Hpos).
  pose proof (ceil_div_spec sched_stackcachelimit 2 ltac:(lia) ltac:(lia)) as Hc.
  assert (El : Z.of_nat (length ts) = sched_stackcachelimit) by lia.
  destruct (Z.ltb_spec (Z.of_nat (length ts)) (ceil_div sched_stackcachelimit 2)); [lia|].
  rewrite length_drop. destruct Hl as [?|[Hone|[_ [m Hm]]]]; [lia|..].
  - assert (ceil_div sched_stackcachelimit 2 = 1) as -> by lia. replace (length ts - Z.to_nat 1)%nat with 0%nat by lia.
    simpl. by eexists.
  - assert (Ed : ceil_div sched_stackcachelimit 2 = m) by lia. rewrite Ed.
    replace (Z.of_nat (length ts - Z.to_nat m)) with m by lia. rewrite Z.eqb_refl, orb_true_r. by eexists.
Qed.

(** C35: stacks are bounded and never shared.  In every run, a stack is bound to one parcel
    or in one cache; a running thread has a stack; with a positive limit a cache holds
    fewer stacks than it; and with a limit that can be trimmed (negative, one, or even)
    returning a stack never fails its assertion. *)
Theorem stacks_bounded n created y : sched_run n created y -> NoDup created ->
  (forall s, scount s y <= 1)
  /\ (forall i w c, y.(workers) !! i = Some w -> w.(current_) = Some c -> is_Some (y.(stacks) !! c))
  /\ (forall i w, y.(workers) !! i = Some w ->
       (0 < sched_stackcachelimit -> Z.of_nat (length w.(threads_)) < sched_stackcachelimit)
       /\ (limit_ok -> forall p, is_Some (unbind y i p))).
Proof.
  intros Hr Hn. destruct (stack_sched_run _ _ _ Hr Hn) as [S1 S2 S3 S4].
  split; [done|]. split; [done|]. intros i w Hi. split; [by eauto|]. intros Hl p. unfold unbind.
  rewrite Hi; cbn [mbind option_bind]. destruct (stacks y !! p) as [s|]; [|by eexists].
  destruct (trim_some (s :: threads_ w) Hl) as [ts ->]; [|by eexists]. intros Hpos. specialize (S4 _ _ Hpos Hi). simpl. lia.
Qed.

(** ** Shutting down *)

Lemma pushLIFO_other w p : items (other (pushLIFO w p)) = items (other w) /\ inbox_ (pushLIFO w p) = inbox_ w.
Proof.
  unfold pushLIFO. destruct (lifo_push _ _) as [q size]. destruct w as [? ? ? ? ? [] ? ? ?]; unfold with_work; simpl; by destruct (0 <=? _).
Qed.

Lemma mail_loop_other ps : forall w prev w' q, mail_loop w prev ps = (w', q) ->
  items (other w') = items (other w) /\ inbox_ w' = inbox_ w.
Proof.
  induction ps as [|p ps IH]; simpl; intros w prev w' q H; [by simplify_eq|].
  apply IH in H as [-> ->]. apply pushLIFO_other.
Qed.

Lemma handleMail_other w w' r : handleMail w = (w', r) -> items (other w') = items (other w) /\ concat (inbox_ w') = [].
Proof.
  unfold handleMail. destruct (concat (inbox_ w)) as [|p ps] eqn:E; [intros [= <- <-]; by rewrite E|].
  destruct (mail_loop _ _ _) as [w1 q] eqn:Em. intros [= <- <-]. by apply mail_loop_other in Em as [-> ->].
Qed.

Lemma gather_empty n : forall w, (length (items (other w)) < n)%nat ->
  items (other (gather_loop n w)) = [] /\ inbox_ (gather_loop n w) = inbox_ w.
Proof.
  induction n as [|n IH]; intros w Hn; [lia|]; simpl. destruct (lifo_pop (other w)) as [q [p|]] eqn:E.
  - apply lifo_pop_items in E as E'. destruct (pushLIFO_other (with_other w q) p) as [H1 H2].
    assert (Hq : items (other (with_other w q)) = items q) by by destruct w as [? ? ? ? ? [] ? ? ?].
    destruct (IH (pushLIFO (with_other w q) p)) as [-> ->].
    { rewrite H1, Hq. rewrite E' in Hn. rewrite length_app in Hn. simpl in Hn. lia. }
    split; [done|]. rewrite H2. by destruct w as [? ? ? ? ? [] ? ? ?].
  - apply lifo_pop_items in E as E'. unfold lifo_pop in E. destruct (last (items (other w))) eqn:El; [done|].
    apply last_None in El. injection E as <-. destruct w as [? ? ? ? ? [] ? ? ?]; simpl in *; by rewrite El.
Qed.

Lemma sleep_gathers w : items (other (sleep w)) = [] /\ concat (inbox_ (sleep w)) = [].
Proof.
  unfold sleep. destruct (gather_empty (S (length (items (other w)))) w ltac:(lia)) as [H1 H2].
  destruct (handleMail _) as [w1 [p|]] eqn:Em; apply handleMail_other in Em as [Ho Hi]; [|by rewrite Ho].
  destruct (pushLIFO_other w1 p) as [-> ->]. by rewrite Ho.
Qed.

Lemma popLIFO_work w w' r : popLIFO w = (w', r) ->
  items (work w) = items (work w') ++ match r with Some p => [p] | None => [] end
  /\ (r = None -> items (work w') = []) /\ items (other w') = items (other w).
Proof.
  unfold popLIFO. destruct (lifo_pop (work w)) as [q p] eqn:E. intros [= <- <-]. apply lifo_pop_items in E as E'.
  assert (Hw : items (work (with_work w q)) = items q) by by destruct w as [? ? ? ? ? [] ? ? ?].
  rewrite Hw. split; [done|]. split; [|by destruct w as [? ? ? ? ? [] ? ? ?]].
  intros ->. unfold lifo_pop in E. destruct (last _) eqn:El; [done|]. apply last_None in El. injection E as <-. done.
Qed.

Lemma drain_count n : forall w ds w' ds', (length (items (work w)) < n)%nat -> drain_loop n w ds = (w', ds') ->
  (forall p, wcount p w + occ p ds = wcount p w' + occ p ds') /\ items (work w') = []
  /\ items (other w') = items (other w) /\ core w' = core w /\ (forall p, occ p (items (work w)) + occ p ds = occ p ds').
Proof.
  induction n as [|n IH]; intros w ds w' ds' Hn H; [lia|]; simpl in H.
  destruct (popLIFO w) as [w1 [q|]] eqn:E; pose proof (popLIFO_work _ _ _ E) as (Hw & Hnone & Ho).
  - apply IH in H as (H1 & H2 & H3 & H4 & H5); [|rewrite Hw, length_app in Hn; simpl in Hn; lia].
    destruct (popLIFO_count 0 _ _ _ E) as [_ Hc]. split; [|split; [done|split; [by rewrite H3|split; [by rewrite H4|]]]]; intros p.
    + specialize (H1 p). destruct (popLIFO_count p _ _ _ E) as [Hp _]. cbn [found] in Hp. rewrite occ_app, occ_singleton in H1. lia.
    + specialize (H5 p). rewrite Hw, !occ_app, !occ_singleton in *. lia.
  - injection H as <- <-. destruct (popLIFO_count 0 _ _ _ E) as [_ Hc]. rewrite app_nil_r in Hw.
    split; [|split; [by apply Hnone|split; [done|split; [done|]]]]; intros p.
    + destruct (popLIFO_count p _ _ _ E) as [Hp _]. cbn [found] in Hp. lia.
    + rewrite Hw, Hnone by done. done.
Qed.

Lemma drain_inbox n : forall w ds w' ds', drain_loop n w ds = (w', ds') -> inbox_ w' = inbox_ w.
Proof.
  induction n as [|n IH]; simpl; intros w ds w' ds' Ed; [by simplify_eq|].
  unfold popLIFO in Ed. destruct (lifo_pop (work w)) as [q [p|]].
  - apply IH in Ed. rewrite Ed. by destruct w as [? ? ? ? ? [] ? ? ?].
  - injection Ed as <- _. by destruct w as [? ? ? ? ? [] ? ? ?].
Qed.

(** A worker that went to sleep before it was shut down leaves nothing behind. *)
Lemma delete_after_sleep w w' ds : w.(current_) = None -> Worker_delete (sleep w) = (w', ds) ->
  forall p, occ p ds = wcount p w /\ wcount p w' = 0.
Proof.
  intros Hcur H p. unfold Worker_delete in H. destruct (handleMail (sleep w)) as [w1 r] eqn:Em.
  destruct (drain_loop _ _ _) as [w2 ds2] eqn:Ed. injection H as <- <-.
  pose proof Ed as Ed0. apply drain_count in Ed as (H1 & H2 & H3 & H4 & H5); [|lia]. specialize (H1 p).
  destruct (sleep_count p w) as [Hs Hcs]. destruct (handleMail_count p _ _ _ Em) as [Hm Hcm].
  destruct (handleMail_other _ _ _ Em) as [Ho Hib]. destruct (sleep_gathers w) as [G1 G2].
  pose proof (drain_inbox _ _ _ _ _ Ed0) as E1.
  assert (Z2 : wcount p w2 = 0).
  { assert (Hc2 : current_ w2 = None).
    { unfold core in *. assert (core w2 = core w) as Hcw by (unfold core in *; congruence). unfold core in Hcw. congruence. }
    assert (O2 : items (other w2) = []) by (rewrite H3, Ho; done).
    unfold wcount. rewrite Hc2, <- occ_concat, E1, Hib. destruct w2 as [? ? ? ? ? [] ? ? ?]; unfold work, other in *; simpl in *; by rewrite H2, O2. }
  rewrite wcount_threads, Z2. split; [|done].
  destruct r; cbn [found] in Hm; rewrite ?occ_singleton in H1; unfold occ in *; simpl in *; lia.
Qed.

(** ** Executable runs *)

Fixpoint sched_exec created y (l : list (nat * label)) : option (list Z * locality) :=
  match l with
  | [] => Some (created, y)
  | (i, a) :: l => '(y, new) ← sched_step y i a; sched_exec (created ++ new) y l
  end.

Lemma sched_exec_run n l : forall created y created' y', sched_run n created y ->
  sched_exec created y l = Some (created', y') -> sched_run n created' y'.
Proof.
  induction l as [|[i a] l IH]; simpl; intros created y created' y' Hr H; [by simplify_eq|].
  destruct (sched_step y i a) as [[y1 new]|] eqn:E; [|done]; cbn [mbind option_bind] in H.
  eapply IH; [|done]. by econstructor.
Qed.
End Scheduler.

(** Two workers: the first spawns parcels, one of them with affinity to the second, runs
    them, work-first when it has two, and the second steals. *)
Definition demo_affinity (p : Z) : Z := if p =? 5 then 1 else -1.
Definition demo_cpus (node : Z) : list nat := [0; 1]%nat.
Definition demo_run : list (nat * label) :=
  [(0%nat, SetState RUN); (1%nat, SetState RUN); (0%nat, Spawn 1); (0%nat, Run [] [] (Random 1));
   (0%nat, Spawn 2); (0%nat, Spawn 3); (0%nat, Spawn 4); (0%nat, Spawn 5); (1%nat, Run [] [] (Random 0)); (1%nat, Yield);
   (1%nat, Run [] [6] (Random 0)); (1%nat, Suspend); (0%nat, Resume 6); (0%nat, Finish); (0%nat, Finish); (0%nat, Lock); (0%nat, Unlock)].

Abbreviation demo f := (f 1 2 demo_affinity (fun _ => false) (fun _ => false) demo_cpus (fun _ => 0)) (only parsing).

Definition demo_result : option (list Z * locality) := demo sched_exec [] (sched_start 2) demo_run.

Lemma demo_runs created y : demo_result = Some (created, y) -> demo sched_run 2%nat created y.
Proof. unfold demo_result. apply sched_exec_run. constructor. Qed.

Lemma demo_created created y : demo_result = Some (created, y) -> created = [1; 2; 3; 4; 5; 6].
Proof.
  intros E. assert (H : fst <$> demo_result = Some [1; 2; 3; 4; 5; 6]) by (vm_compute; reflexivity).
  rewrite E in H. by injection H.
Qed.

Lemma demo_returns : is_Some demo_result.
Proof. apply (bool_decide_unpack (is_Some demo_result)). by vm_compute. Qed.

Lemma demo_nodup : NoDup [1; 2; 3; 4; 5; 6].
Proof. apply (bool_decide_unpack (NoDup [1; 2; 3; 4; 5; 6])). by vm_compute. Qed.

Lemma scheduler_conserves_witness : exists created y, demo_result = Some (created, y) /\ total 3 y = 1.
Proof.
  destruct demo_returns as [[created y] E]. exists created, y. split; [exact E|].
  destruct (demo scheduler_conserves 2%nat created y (demo_runs _ _ E)) as [H _].
  - rewrite (demo_created _ _ E). exact demo_nodup.
  - apply H. rewrite (demo_created _ _ E). rewrite !elem_of_cons. tauto.
Defined.

Lemma stacks_bounded_witness : exists created y, demo_result = Some (created, y) /\ scount 2 y <= 1.
Proof.
  destruct demo_returns as [[created y] E]. exists created, y. split; [exact E|].
  destruct (demo stacks_bounded 2%nat created y (demo_runs _ _ E)) as [H _].
  - rewrite (demo_created _ _ E). exact demo_nodup.
  - apply H.
Defined.

(** Trimming fails its assertion for an odd limit above one, and for zero. *)
Lemma trim_odd : trim 3 [1; 2; 3] = None.
Proof. reflexivity. Qed.

Lemma trim_zero s : trim 0 [s] = None.
Proof. reflexivity. Qed.

(** A worker shut down without having slept leaks the threads that yielded. *)
Lemma shutdown_leaks : (Worker_delete 1 (pushYield Worker_new 7)).2 = []
  /\ items (other (Worker_delete 1 (pushYield Worker_new 7)).1) = [7].
Proof. split; reflexivity. Qed.
