(* ===== verification/Transfer.v ===== *)
(** * The context switch

    The x86-64 code of thread_transfer and of the trampoline that starts a thread
    (scheduler/arch/x86_64/transfer.S and asm.S), instruction by instruction, with the frame
    that is made for a new thread (scheduler/arch/x86_64/frame.cpp), Worker::checkpoint, which
    the code calls on the new stack, and the layout of the stacks (scheduler/Thread.cpp).
    Memory is bytes at addresses.  Workers switch between threads while the others go on; an
    abstract scheduler keeps the contexts of suspended threads in a map. *)

From S2P Require Import Prelude Math Bytes.

(** ** Memory *)

Abbreviation memory := (gmap Z Z).

Implicit Types m : memory.

Definition read m (a : Z) (n : nat) : option Z := unle <$> mapM (fun i => m !! (a + i)) (seqZ 0 (Z.of_nat n)).

Fixpoint write_le m (a : Z) (bs : list Z) : option memory :=
  match bs with
  | [] => Some m
  | b :: bs => match m !! a with Some _ => write_le (<[a := b]> m) (a + 1) bs | None => None end
  end.

Definition write m (a : Z) (n : nat) (v : Z) : option memory := write_le m a (le n v).

(** ** The processor *)

Inductive reg := RSP | RBP | RBX | R12 | R13 | R14 | R15 | RDI | RSI | RDX | RCX.

Definition reg_id (r : reg) : nat :=
  match r with RSP => 0 | RBP => 1 | RBX => 2 | R12 => 3 | R13 => 4 | R14 => 5 | R15 => 6 | RDI => 7 | RSI => 8 | RDX => 9 | RCX => 10 end.

Record cpu := mkCpu { regs : reg -> Z; mxcsr : Z; fpucw : Z }.

Implicit Types c : cpu.

Definition set_reg (r : reg) (v : Z) c : cpu := mkCpu (fun x => if (reg_id x =? reg_id r)%nat then v else c.(regs) x) c.(mxcsr) c.(fpucw).
Definition set_mxcsr (v : Z) c : cpu := mkCpu c.(regs) v c.(fpucw).
Definition set_fpucw (v : Z) c : cpu := mkCpu c.(regs) c.(mxcsr) v.

(** The instructions that the code uses, but for the call, the return and the jump. *)
Inductive instr :=
| Push (r : reg)
| PushImm (v : Z)
| Pop (r : reg)
| SubRsp (n : Z)
| AddRsp (n : Z)
| Fnstcw (off : Z)
| Stmxcsr (off : Z)
| Ldmxcsr (off : Z)
| Fldcw (off : Z)
| Load (base dst : reg)                 (* mov (base), dst *)
| Mov (src dst : reg)
| Xchg (a b : reg).

Definition exec (i : instr) c m : option (cpu * memory) :=
  let sp := c.(regs) RSP in
  match i with
  | Push r => m ← write m (sp - 8) 8 (c.(regs) r); Some (set_reg RSP (sp - 8) c, m)
  | PushImm v => m ← write m (sp - 8) 8 v; Some (set_reg RSP (sp - 8) c, m)
  | Pop r => v ← read m sp 8; Some (set_reg r v (set_reg RSP (sp + 8) c), m)
  | SubRsp n => Some (set_reg RSP (sp - n) c, m)
  | AddRsp n => Some (set_reg RSP (sp + n) c, m)
  | Fnstcw off => m ← write m (sp + off) 2 c.(fpucw); Some (c, m)
  | Stmxcsr off => m ← write m (sp + off) 4 c.(mxcsr); Some (c, m)
  | Ldmxcsr off => v ← read m (sp + off) 4; Some (set_mxcsr v c, m)
  | Fldcw off => v ← read m (sp + off) 2; Some (set_fpucw v c, m)
  | Load base dst => v ← read m (c.(regs) base) 8; Some (set_reg dst v c, m)
  | Mov src dst => Some (set_reg dst (c.(regs) src) c, m)
  | Xchg a b => Some (set_reg a (c.(regs) b) (set_reg b (c.(regs) a) c), m)
  end.

Fixpoint exec_all (is_ : list instr) c m : option (cpu * memory) :=
  match is_ with
  | [] => Some (c, m)
  | i :: is_ => '(c, m) ← exec i c m; exec_all is_ c m
  end.

(** ** The code *)

(** thread_transfer up to the call of worker_checkpoint. *)
Definition thread_transfer_save : list instr :=
  [Push RBP; Push RBX; Push R12; Push R13; Push R14; Push R15; SubRsp 8; Fnstcw 4; Stmxcsr 0;
   Load RDI RCX; Load RCX RCX; Xchg RSP RCX].

(** And after it, up to the return. *)
Definition thread_transfer_restore : list instr :=
  [Ldmxcsr 0; Fldcw 4; AddRsp 8; Pop R15; Pop R14; Pop R13; Pop R12; Pop RBX; Pop RBP].

Definition ret c m : option (Z * cpu) := ip ← read m (c.(regs) RSP) 8; Some (ip, set_reg RSP (c.(regs) RSP + 8) c).

Definition align_stack_trampoline : list instr := [PushImm 0; Mov R12 RDI].

(** The call pushes the address after it, [after]; then Worker::checkpoint stores the stack
    pointer, its fourth argument, in the thread of the worker's current parcel.  Its
    continuation comes later. *)
Definition call_checkpoint (after current : Z) c m : option memory :=
  m ← write m (c.(regs) RSP - 8) 8 after;
  thread ← read m current 8;
  write m thread 8 (c.(regs) RCX).

(** ** The frame of a new thread *)

Definition sizeof_TransferFrame : Z := 80.

Definition TransferFrame (this p f mxcsr fpucw trampoline : Z) : list Z :=
  le 4 mxcsr ++ le 2 fpucw ++ le 2 0 ++ le 8 0 ++ le 8 0 ++ le 8 0 ++ le 8 p ++ le 8 f ++ le 8 (this + 56) ++ le 8 trampoline ++ le 8 0 ++ le 8 0.

Section Stacks.
Variables (protect : bool) (HPX_PAGE_SIZE : Z).

(** Thread::SetStackSize: Size_ and Buffer_. *)
Definition SetStackSize (bytes : Z) : Z * Z :=
  if protect then
    let pages := ceil_div bytes HPX_PAGE_SIZE in
    (pages * HPX_PAGE_SIZE, pages * HPX_PAGE_SIZE + 2 * HPX_PAGE_SIZE)
  else (Z.land bytes (Z.lnot 15), Z.land bytes (Z.lnot 15)).

Definition stack_align : Z := if protect then HPX_PAGE_SIZE else 16.

(** Thread::operator new: the bytes it allocates, and the thread in them. *)
Definition stack_bytes (sz : Z * Z) : Z := if protect then sz.2 else sz.1.
Definition thread_at (base : Z) : Z := base + stack_align.

Definition top (sz : Z * Z) (this : Z) : Z := this + sz.1 - (if protect then 0 else 16).
End Stacks.

(** Thread::initTransferFrame: the frame below [top], and sp_. *)
Definition initTransferFrame m (this top p f mxcsr fpucw trampoline : Z) : option memory :=
  let addr := top - sizeof_TransferFrame in
  m ← write_le m addr (TransferFrame addr p f mxcsr fpucw trampoline);
  write m this 8 addr.

(** ** Reading what was written *)

Lemma word_iff m a n v : read m a n = Some v <-> exists bs, length bs = n /\ (forall i, (i < n)%nat -> m !! (a + Z.of_nat i) = bs !! i) /\ v = unle bs.
Proof.
  unfold read. rewrite fmap_Some. split.
  - intros (bs & Hbs & ->). exists bs. apply mapM_Some in Hbs. pose proof (Forall2_length _ _ _ Hbs) as Hl. rewrite length_seqZ, Nat2Z.id in Hl.
    split; [done|]. split; [|done]. intros i Hi. rewrite Forall2_lookup in Hbs. specialize (Hbs i). rewrite lookup_seqZ_lt in Hbs by lia.
    inversion Hbs as [x y E|]; subst. rewrite <- E; f_equal; lia.
  - intros (bs & Hl & Hm & ->). exists bs. split; [|done]. apply mapM_Some. apply Forall2_lookup. intros i. destruct (decide (i < n)%nat) as [Hi|Hi].
    + rewrite lookup_seqZ_lt by lia. destruct (lookup_lt_is_Some_2 bs i) as [b Hb]; [lia|]. rewrite Hb. constructor. rewrite <- Hb, <- Hm by done; f_equal; lia.
    + rewrite (lookup_ge_None_2 (seqZ _ _)) by (rewrite length_seqZ; lia). rewrite lookup_ge_None_2 by lia. constructor.
Qed.

Lemma word_ext m m' a n : (forall x, a <= x < a + Z.of_nat n -> m' !! x = m !! x) -> read m' a n = read m a n.
Proof.
  intros H. unfold read. f_equal. assert (Hg : forall l, (forall i, i ∈ l -> 0 <= i < Z.of_nat n) -> mapM (fun i => m' !! (a + i)) l = mapM (fun i => m !! (a + i)) l).
  { induction l as [|i l IH]; intros Hl; [done|]. cbn. rewrite H by (specialize (Hl i ltac:(left)); lia). by rewrite IH by (intros j Hj; apply Hl; by right). }
  apply Hg. intros i Hi. apply elem_of_seqZ in Hi. lia.
Qed.

Definition mapped m (a n : Z) : Prop := forall x, a <= x < a + n -> is_Some (m !! x).

Lemma write_le_spec bs : forall m a, mapped m a (Z.of_nat (length bs)) ->
  exists m', write_le m a bs = Some m' /\ (forall x, x < a \/ a + Z.of_nat (length bs) <= x -> m' !! x = m !! x)
    /\ forall i, (i < length bs)%nat -> m' !! (a + Z.of_nat i) = bs !! i.
Proof.
  induction bs as [|b bs IH]; intros m a Hm; cbn [write_le].
  - exists m. split; [done|]. split; [done|]. intros i Hi. simpl in Hi. lia.
  - destruct (Hm a ltac:(simpl; lia)) as [v ->]. destruct (IH (<[a := b]> m) (a + 1)) as (m' & E & H1 & H2).
    { intros x Hx. destruct (decide (x = a)) as [->|]; [lia|]. rewrite lookup_insert_ne by done. apply Hm. simpl. lia. }
    exists m'. split; [done|]. split.
    + intros x Hx. simpl in Hx. rewrite H1 by lia. apply lookup_insert_ne. lia.
    + intros [|i] Hi; [rewrite Z.add_0_r, H1 by lia; apply lookup_insert_eq|]. simpl in Hi.
      replace (a + Z.of_nat (S i)) with (a + 1 + Z.of_nat i) by lia. apply H2. lia.
Qed.

Lemma write_spec m a n v : mapped m a (Z.of_nat n) -> 0 <= v < 2 ^ (8 * Z.of_nat n) ->
  exists m', write m a n v = Some m' /\ read m' a n = Some v /\ (forall x, x < a \/ a + Z.of_nat n <= x -> m' !! x = m !! x).
Proof.
  intros Hm Hv. unfold write. destruct (write_le_spec (le n v) m a) as (m' & E & H1 & H2); [by rewrite le_length|]. rewrite le_length in *.
  exists m'. split; [done|]. split; [|done]. apply word_iff. exists (le n v). split; [apply le_length|]. split; [done|]. by rewrite unle_le.
Qed.

(** ** Several writes *)

Abbreviation field := (Z * nat * Z)%type.

(** A property of each field of a list. *)
Ltac each_field tac := repeat (first [apply Forall_nil_2|apply Forall_cons_2; [tac|]]).

Definition holds m (l : list field) : Prop := Forall (fun '(a, n, v) => read m a n = Some v) l.
Definition apart_from (x y : Z) (l : list field) : Prop := Forall (fun '(a, n, _) => y <= a \/ a + Z.of_nat n <= x) l.
Definition in_range (l : list field) : Prop := Forall (fun '(a, n, v) => 0 <= v < 2 ^ (8 * Z.of_nat n)) l.

Fixpoint write_fields m (l : list field) : option memory :=
  match l with [] => Some m | (a, n, v) :: l => m ← write m a n v; write_fields m l end.

Fixpoint disjoint_fields (l : list field) : Prop :=
  match l with [] => True | (a, n, _) :: l => apart_from a (a + Z.of_nat n) l /\ disjoint_fields l end.

Lemma holds_ext m m' x y l : (forall z, z < x \/ y <= z -> m' !! z = m !! z) -> apart_from x y l -> holds m l -> holds m' l.
Proof.
  unfold holds, apart_from. intros Hm. rewrite !Forall_forall. intros Ha Hh [[a n] v] Hin. specialize (Ha _ Hin). specialize (Hh _ Hin). cbn in *.
  rewrite <- Hh. apply word_ext. intros z Hz. apply Hm. lia.
Qed.

Lemma write_fields_spec l : forall m, disjoint_fields l -> in_range l -> Forall (fun '(a, n, _) => mapped m a (Z.of_nat n)) l ->
  exists m', write_fields m l = Some m' /\ holds m' l /\ forall x, apart_from x (x + 1) l -> m' !! x = m !! x.
Proof.
  induction l as [|[[a n] v] l IH]; intros m Hd Hr Hm; cbn [write_fields].
  - exists m. split; [done|]. split; [constructor|done].
  - inversion Hm as [|? ? Hm1 Hm2]; subst. inversion Hr as [|? ? Hr1 Hr2]; subst. destruct Hd as [Hd1 Hd2].
    destruct (write_spec m a n v Hm1 Hr1) as (m1 & -> & R1 & F1). cbn [mbind option_bind].
    destruct (IH m1 Hd2 Hr2) as (m2 & -> & H2 & F2).
    { eapply Forall_impl; [exact Hm2|]. intros [[a' n'] v'] Hx y Hy. destruct (decide (a <= y < a + Z.of_nat n)) as [Hin|Hout].
      - apply word_iff in R1 as (bs & Hl & Hb & _). destruct (lookup_lt_is_Some_2 bs (Z.to_nat (y - a))) as [w Hw]; [lia|]. exists w.
        rewrite <- Hw, <- Hb by lia. f_equal. lia.
      - rewrite F1 by lia. by apply Hx. }
    exists m2. split; [done|]. split.
    + constructor; [|done]. rewrite <- R1. apply word_ext. intros y Hy. apply F2. eapply Forall_impl; [exact Hd1|]. intros [[a' n'] v'] Hx. cbn in Hx. lia.
    + intros x Hx. inversion Hx as [|? ? Hx1 Hx2]; subst. rewrite F2 by done. apply F1. lia.
Qed.

(** ** Contexts *)

(** What a thread has when it goes on. *)
Record context := mkContext { k_mxcsr : Z; k_fpucw : Z; k_r15 : Z; k_r14 : Z; k_r13 : Z; k_r12 : Z; k_rbx : Z; k_rbp : Z; k_rip : Z; k_rsp : Z }.

Definition frame_fields (sp : Z) (k : context) : list field :=
  [(sp + 0, 4%nat, k.(k_mxcsr)); (sp + 4, 2%nat, k.(k_fpucw)); (sp + 8, 8%nat, k.(k_r15)); (sp + 16, 8%nat, k.(k_r14)); (sp + 24, 8%nat, k.(k_r13));
   (sp + 32, 8%nat, k.(k_r12)); (sp + 40, 8%nat, k.(k_rbx)); (sp + 48, 8%nat, k.(k_rbp)); (sp + 56, 8%nat, k.(k_rip))].

(** The context is in the frame at [sp]. *)
Definition framed m (sp : Z) (k : context) : Prop := holds m (frame_fields sp k) /\ k.(k_rsp) = sp + 64.

(** The callee-saved state, the address the call returns to and the stack pointer there. *)
Definition context_of c (rip : Z) : context :=
  mkContext c.(mxcsr) c.(fpucw) (c.(regs) R15) (c.(regs) R14) (c.(regs) R13) (c.(regs) R12) (c.(regs) RBX) (c.(regs) RBP) rip (c.(regs) RSP + 8).

Record sound c : Prop := {
  sound_regs : forall r, 0 <= c.(regs) r < 2 ^ 64;
  sound_mxcsr : 0 <= c.(mxcsr) < 2 ^ 32;
  sound_fpucw : 0 <= c.(fpucw) < 2 ^ 16;
}.

Lemma fields_inside sp k : Forall (fun '(a, n, _) => sp <= a /\ a + Z.of_nat n <= sp + 64) (frame_fields sp k).
Proof. unfold frame_fields. each_field lia. Qed.

Lemma framed_ext m m' sp k : (forall x, sp <= x < sp + 64 -> m' !! x = m !! x) -> framed m sp k -> framed m' sp k.
Proof.
  intros Hm [Hh Hk]. split; [|done]. pose proof (fields_inside sp k) as Hi. unfold holds in *. rewrite Forall_forall in *. intros [[a n] v] Hin.
  specialize (Hi _ Hin). specialize (Hh _ Hin). cbn in *. rewrite <- Hh. apply word_ext. intros x Hx. apply Hm. lia.
Qed.

(** ** Saving and restoring *)

(** What the code before the call writes, in its order. *)
Definition save_writes c : list field :=
  let s := c.(regs) RSP in
  [(s - 8, 8%nat, c.(regs) RBP); (s - 8 - 8, 8%nat, c.(regs) RBX); (s - 8 - 8 - 8, 8%nat, c.(regs) R12); (s - 8 - 8 - 8 - 8, 8%nat, c.(regs) R13);
   (s - 8 - 8 - 8 - 8 - 8, 8%nat, c.(regs) R14); (s - 8 - 8 - 8 - 8 - 8 - 8, 8%nat, c.(regs) R15);
   (s - 8 - 8 - 8 - 8 - 8 - 8 - 8 + 4, 2%nat, c.(fpucw)); (s - 8 - 8 - 8 - 8 - 8 - 8 - 8 + 0, 4%nat, c.(mxcsr))].

Lemma save_exec c m m' th sp : write_fields m (save_writes c) = Some m' -> read m' (c.(regs) RDI) 8 = Some th -> read m' th 8 = Some sp ->
  exists c', exec_all thread_transfer_save c m = Some (c', m') /\ c'.(regs) RSP = sp /\ c'.(regs) RCX = c.(regs) RSP - 56 /\ c'.(regs) RDI = c.(regs) RDI
    /\ (forall r, r <> RSP -> r <> RCX -> c'.(regs) r = c.(regs) r) /\ c'.(mxcsr) = c.(mxcsr) /\ c'.(fpucw) = c.(fpucw).
Proof.
  intros E H1 H2. unfold save_writes in E. cbn [write_fields] in E.
  repeat match type of E with context [write ?x ?a ?n ?v ≫= _] => destruct (write x a n v) as [?m|] eqn:?; cbn [mbind option_bind] in E; [|discriminate E] end.
  injection E as <-. unfold thread_transfer_save.
  repeat (cbn [exec_all exec regs set_reg mxcsr fpucw reg_id Nat.eqb mbind option_bind];
    match goal with W : write ?x ?a ?n ?v = Some _ |- context [write ?x ?a ?n ?v] => rewrite W end).
  cbn [exec_all exec regs set_reg mxcsr fpucw reg_id Nat.eqb mbind option_bind]. rewrite H1.
  cbn [exec_all exec regs set_reg mxcsr fpucw reg_id Nat.eqb mbind option_bind]. rewrite H2.
  cbn [exec_all exec regs set_reg mxcsr fpucw reg_id Nat.eqb mbind option_bind]. eexists. split; [done|]. cbn. split; [done|]. split; [lia|]. split; [done|].
  split; [|done]. intros r Hr1 Hr2. by destruct r.
Qed.

Lemma save_frame c m rip : sound c -> read m (c.(regs) RSP) 8 = Some rip -> mapped m (c.(regs) RSP - 56) 56 ->
  exists m', write_fields m (save_writes c) = Some m' /\ framed m' (c.(regs) RSP - 56) (context_of c rip)
    /\ forall x, x < c.(regs) RSP - 56 \/ c.(regs) RSP <= x -> m' !! x = m !! x.
Proof.
  intros [Hr Hx Hf] Hip Hm. set (s := c.(regs) RSP) in *.
  destruct (write_fields_spec (save_writes c) m) as (m' & E & Hh & Hout).
  - cbn. unfold apart_from. repeat (split; [each_field lia|]). done.
  - unfold in_range, save_writes. each_field ltac:(first [apply Hr|apply Hx|apply Hf]).
  - unfold save_writes. fold s. each_field ltac:(intros x Hx'; apply Hm; lia).
  - assert (Hsame : forall x, x < s - 56 \/ s <= x -> m' !! x = m !! x).
    { intros x Hx'. apply Hout. unfold save_writes, apart_from. fold s. each_field lia. }
    exists m'. split; [done|]. split; [|done]. split; [|cbn; fold s; lia].
    unfold holds, save_writes, frame_fields, context_of in *. fold s in Hh |- *. cbn [k_mxcsr k_fpucw k_r15 k_r14 k_r13 k_r12 k_rbx k_rbp k_rip].
    rewrite !Forall_cons in Hh. destruct Hh as (B1 & B2 & B3 & B4 & B5 & B6 & B7 & B8 & _).
    repeat (apply Forall_cons; split); [..|constructor];
      try (match goal with H : read m' ?x ?n = Some ?v |- read m' ?y ?n = Some ?v => replace y with x by lia; exact H end).
    replace (s - 56 + 56) with s by lia. rewrite <- Hip. apply word_ext. intros x Hx'. apply Hsame. lia.
Qed.

(** The processor goes on with a context. *)
Definition matches c (k : context) : Prop :=
  c.(mxcsr) = k.(k_mxcsr) /\ c.(fpucw) = k.(k_fpucw) /\ c.(regs) R15 = k.(k_r15) /\ c.(regs) R14 = k.(k_r14) /\ c.(regs) R13 = k.(k_r13)
  /\ c.(regs) R12 = k.(k_r12) /\ c.(regs) RBX = k.(k_rbx) /\ c.(regs) RBP = k.(k_rbp) /\ c.(regs) RSP = k.(k_rsp).

Lemma restore_exec c m k : framed m (c.(regs) RSP) k ->
  exists c1 c2, exec_all thread_transfer_restore c m = Some (c1, m) /\ ret c1 m = Some (k.(k_rip), c2) /\ matches c2 k
    /\ (forall r, r = RDI \/ r = RSI \/ r = RDX \/ r = RCX -> c2.(regs) r = c.(regs) r).
Proof.
  intros [Hh Hk]. set (s := c.(regs) RSP) in *. unfold holds, frame_fields in Hh. rewrite !Forall_cons in Hh. destruct Hh as (B1 & B2 & B3 & B4 & B5 & B6 & B7 & B8 & B9 & _).
  assert (E16 : s + 8 + 8 = s + 16) by lia. assert (E24 : s + 16 + 8 = s + 24) by lia. assert (E32 : s + 24 + 8 = s + 32) by lia. assert (E40 : s + 32 + 8 = s + 40) by lia.
  assert (E48 : s + 40 + 8 = s + 48) by lia. assert (E56 : s + 48 + 8 = s + 56) by lia. assert (E64 : s + 56 + 8 = s + 64) by lia.
  unfold thread_transfer_restore, ret.
  repeat (cbn [exec_all exec regs set_reg set_mxcsr set_fpucw mxcsr fpucw reg_id Nat.eqb mbind option_bind]; fold s;
    rewrite ?E16, ?E24, ?E32, ?E40, ?E48, ?E56; first [rewrite B1|rewrite B2|rewrite B3|rewrite B4|rewrite B5|rewrite B6|rewrite B7|rewrite B8]).
  cbn [exec_all exec regs set_reg set_mxcsr set_fpucw mxcsr fpucw reg_id Nat.eqb mbind option_bind]. fold s. rewrite ?E16, ?E24, ?E32, ?E40, ?E48, ?E56.
  eexists _, _. split; [done|]. cbn [regs set_reg set_mxcsr set_fpucw mxcsr fpucw reg_id Nat.eqb]. rewrite B9. cbn [mbind option_bind]. split; [done|].
  split; [unfold matches; cbn; rewrite Hk; repeat split; lia|]. intros r [->|[->|[->| ->]]]; done.
Qed.

(** ** New threads *)

Definition new_context (top p f mxcsr fpucw trampoline : Z) : context :=
  mkContext mxcsr fpucw 0 0 0 p f (top - 24) trampoline (top - 16).

(** The frame as fields, one after the other. *)
Definition new_fields (a p f mx fp tramp : Z) : list field :=
  [(a, 4%nat, mx); (a + 4, 2%nat, fp);
   (a + 4 + 2, 2%nat, 0); (a + 4 + 2 + 2, 8%nat, 0);
   (a + 4 + 2 + 2 + 8, 8%nat, 0); (a + 4 + 2 + 2 + 8 + 8, 8%nat, 0);
   (a + 4 + 2 + 2 + 8 + 8 + 8, 8%nat, p); (a + 4 + 2 + 2 + 8 + 8 + 8 + 8, 8%nat, f);
   (a + 4 + 2 + 2 + 8 + 8 + 8 + 8 + 8, 8%nat, (a + 56)); (a + 4 + 2 + 2 + 8 + 8 + 8 + 8 + 8 + 8, 8%nat, tramp);
   (a + 4 + 2 + 2 + 8 + 8 + 8 + 8 + 8 + 8 + 8, 8%nat, 0); (a + 4 + 2 + 2 + 8 + 8 + 8 + 8 + 8 + 8 + 8 + 8, 8%nat, 0)].

Lemma write_le_app xs : forall m a ys, write_le m a (xs ++ ys) = (m ← write_le m a xs; write_le m (a + Z.of_nat (length xs)) ys).
Proof.
  induction xs as [|x xs IH]; intros m a ys; cbn [write_le app length]; [by rewrite Z.add_0_r|]. destruct (m !! a); [|done]. rewrite IH.
  by replace (a + 1 + Z.of_nat (length xs)) with (a + Z.of_nat (S (length xs))) by lia.
Qed.

Lemma frame_write m a p f mx fp tramp : write_le m a (TransferFrame a p f mx fp tramp) = write_fields m (new_fields a p f mx fp tramp).
Proof.
  unfold TransferFrame, new_fields. cbn [write_fields]. unfold write.
  do 11 (rewrite write_le_app, le_length; change (Z.of_nat 4) with 4; change (Z.of_nat 2) with 2; change (Z.of_nat 8) with 8;
    match goal with |- (write_le ?x ?y ?z ≫= _) = _ => destruct (write_le x y z) as [?m|]; cbn [mbind option_bind]; [|done] end).
  by destruct (write_le _ _ _).
Qed.

Lemma new_frame_spec m this top p f mx fp tramp : mapped m (top - 80) 80 -> mapped m this 8 -> this + 8 <= top - 80 \/ top <= this ->
  0 <= p < 2 ^ 64 -> 0 <= f < 2 ^ 64 -> 0 <= mx < 2 ^ 32 -> 0 <= fp < 2 ^ 16 -> 0 <= tramp < 2 ^ 64 -> 80 <= top < 2 ^ 64 ->
  exists m', initTransferFrame m this top p f mx fp tramp = Some m' /\ framed m' (top - 80) (new_context top p f mx fp tramp) /\ read m' this 8 = Some (top - 80)
    /\ forall x, (x < top - 80 \/ top <= x) -> (x < this \/ this + 8 <= x) -> m' !! x = m !! x.
Proof.
  intros Hm Ht Hd Hp Hf Hmx Hfp Htr Htop. unfold initTransferFrame, sizeof_TransferFrame. rewrite frame_write. set (a := top - 80) in *.
  destruct (write_fields_spec (new_fields a p f mx fp tramp) m) as (m1 & -> & Hh & Hout).
  - cbn. unfold apart_from. repeat (split; [each_field lia|]). done.
  - unfold in_range, new_fields. each_field lia.
  - unfold new_fields. each_field ltac:(intros x Hx; apply Hm; lia).
  - cbn [mbind option_bind]. assert (Hsame : forall x, x < a \/ top <= x -> m1 !! x = m !! x).
    { intros x Hx. apply Hout. unfold new_fields, apart_from. each_field lia. }
    destruct (write_spec m1 this 8 a) as (m2 & -> & R2 & F2); [intros x Hx; rewrite Hsame by lia; apply Ht; lia|lia|].
    exists m2. split; [done|]. split; [|split; [done|]].
    + apply (framed_ext m1); [intros x Hx; apply F2; lia|]. split; [|cbn; lia]. unfold holds, new_fields, frame_fields, new_context in *.
      cbn [k_mxcsr k_fpucw k_r15 k_r14 k_r13 k_r12 k_rbx k_rbp k_rip]. rewrite !Forall_cons in Hh. destruct Hh as (B1 & B2 & _ & B4 & B5 & B6 & B7 & B8 & B9 & B10 & _).
      replace (top - 24) with (a + 56) by lia.
      repeat (apply Forall_cons; split); [..|constructor];
        match goal with H : read m1 ?x ?n = Some ?v |- read m1 ?y ?n = Some ?v => replace y with x by lia; exact H end.
    + intros x H1 H2. rewrite F2 by done. by apply Hsame.
Qed.

(** Where a new thread starts: at its entry function with its parcel, on a stack as a call
    leaves it, with a return address of zero. *)
Lemma trampoline_spec c m top p f mx fp tramp : matches c (new_context top p f mx fp tramp) -> mapped m (top - 24) 8 -> 0 <= p < 2 ^ 64 ->
  exists c' m', exec_all align_stack_trampoline c m = Some (c', m') /\ c'.(regs) RBX = f /\ c'.(regs) RDI = p /\ c'.(regs) RSP = top - 24
    /\ read m' (c'.(regs) RSP) 8 = Some 0.
Proof.
  intros (_ & _ & _ & _ & _ & H12 & Hbx & _ & Hsp) Hm Hp. unfold new_context in *. cbn in H12, Hbx, Hsp. unfold align_stack_trampoline. cbn [exec_all exec]. rewrite Hsp.
  replace (top - 16 - 8) with (top - 24) by lia. destruct (write_spec m (top - 24) 8 0 Hm ltac:(lia)) as (m' & -> & R & _). cbn. eexists _, m'. split; [done|]. cbn. done.
Qed.

(** ** Stacks *)

Section Layout.
Variables (protect : bool) (HPX_PAGE_SIZE base bytes : Z).
Hypothesis Hpage : exists k, 4 <= k < 32 /\ HPX_PAGE_SIZE = 2 ^ k.
Hypothesis Hbytes : 0 < bytes < 2 ^ 31.
Abbreviation sz := (SetStackSize protect HPX_PAGE_SIZE bytes).
Abbreviation this := (thread_at protect HPX_PAGE_SIZE base).

Lemma land_not_15 x : 0 <= x -> Z.land x (Z.lnot 15) = x - x mod 16.
Proof.
  intros Hx. change (Z.lnot 15) with (Z.lnot (Z.ones 4)). rewrite <- Z.ldiff_land. rewrite Z.ldiff_ones_r by lia.
  rewrite Z.shiftl_mul_pow2, Z.shiftr_div_pow2 by lia. change (2 ^ 4) with 16. pose proof (Z.div_mod x 16). lia.
Qed.

(** The top is in the buffer, or its end, below the upper guard page when there is one, and
    aligned like the buffer; the thread and its frame are between the guard pages. *)
Lemma stack_layout : base mod stack_align protect HPX_PAGE_SIZE = 0 ->
  let t := top protect sz this in
  t mod 16 = 0 /\ this mod 16 = 0 /\ base + 16 <= this /\ t <= base + stack_bytes protect sz
  /\ (protect = true -> base + HPX_PAGE_SIZE <= this /\ t + HPX_PAGE_SIZE <= base + stack_bytes protect sz).
Proof.
  destruct Hpage as (k & Hk & Epage). intros Hb. unfold top, thread_at, stack_align, stack_bytes, SetStackSize in *.
  assert (H16 : (16 | HPX_PAGE_SIZE)). { exists (2 ^ (k - 4)). rewrite Epage. replace k with (k - 4 + 4) at 1 by lia. rewrite Z.pow_add_r by lia. done. }
  assert (Hps : 16 <= HPX_PAGE_SIZE). { rewrite Epage. change 16 with (2 ^ 4). apply Z.pow_le_mono_r; lia. }
  destruct protect; cbn [fst snd].
  - assert (Hb16 : (16 | base)) by (etransitivity; [exact H16|]; by apply Z.mod_divide; [lia|]).
    split; [apply Z.mod_divide; [lia|]; rewrite Z.sub_0_r; repeat apply Z.divide_add_r; [done|done|by apply Z.divide_mul_r]|].
    split; [apply Z.mod_divide; [lia|]; by apply Z.divide_add_r|]. split; [lia|]. split; [lia|]. intros _. lia.
  - rewrite land_not_15 by lia. pose proof (Z.mod_pos_bound bytes 16 ltac:(lia)). assert (Hb16 : (16 | base)) by (by apply Z.mod_divide; [lia|]).
    assert (Hs16 : (16 | bytes - bytes mod 16)). { exists (bytes / 16). pose proof (Z.div_mod bytes 16). lia. }
    split; [apply Z.mod_divide; [lia|]; replace (base + 16 + (bytes - bytes mod 16) - 16) with (base + (bytes - bytes mod 16)) by lia; by apply Z.divide_add_r|].
    split; [apply Z.mod_divide; [lia|]; apply Z.divide_add_r; [done|by exists 1]|]. split; [lia|]. split; [lia|]. done.
Qed.
End Layout.

(** ** Workers and threads *)

(** The Thread structure of a thread, whose first word is sp_, and its stack. *)
Record stack := mkStack { s_this : Z; s_lo : Z; s_hi : Z }.

(** The places of threads. *)
Section System.
Context `{Countable A}.

(** A worker runs a thread, or is in the continuation of a switch, on the stack of the next
    thread. *)
Inductive wstate :=
| Running (t : A) (ip : Z) (c : cpu)
| Switched (t : A) (c : cpu).

Definition tid (x : wstate) : A := match x with Running t _ _ => t | Switched t _ => t end.

Record state := mkState {
  mem : memory;
  work : gmap nat wstate;
  live : gmap A Z;                    (* the threads that exist, with the addresses of their parcels *)
}.

Implicit Types s : state.

(** What can be seen of a step. *)
Inductive label :=
| LLocal (w : nat)
| LSave (w : nat) (t b : A) (k : context) (m : memory)
| LRestore (w : nat) (t : A) (ip : Z) (c : cpu) (m : memory)
| LNew (t : A) (k : context) (m : memory)
| LEnd (t : A).

Variable T : A -> stack.
Variables (after_call trampoline : Z).

Definition current (work : gmap nat wstate) (t : A) : Prop := exists w x, work !! w = Some x /\ tid x = t.
Definition running (work : gmap nat wstate) (t : A) : Prop := exists w ip c, work !! w = Some (Running t ip c).

(** The memory that only the switch itself may change: the words that link parcels, threads and
    stack pointers, and the stacks, from the frame on, of threads that do not run. *)
Definition protected s (x : Z) : Prop :=
  (exists t p, s.(live) !! t = Some p /\ ((T t).(s_this) <= x < (T t).(s_this) + 8 \/ p <= x < p + 8))
  \/ exists t p sp, s.(live) !! t = Some p /\ ~ running s.(work) t /\ read s.(mem) (T t).(s_this) 8 = Some sp /\ sp <= x < (T t).(s_hi).

Definition respects s m' : Prop := (forall x, protected s x -> m' !! x = s.(mem) !! x) /\ forall x, is_Some (s.(mem) !! x) -> is_Some (m' !! x).

(** The entry of thread_transfer: the stack is as a call leaves it, and has room. *)
Definition entry s (t : A) c (rip : Z) : Prop :=
  (c.(regs) RSP) mod 16 = 8 /\ (T t).(s_lo) + 64 <= c.(regs) RSP /\ c.(regs) RSP + 8 <= (T t).(s_hi) /\ read s.(mem) (c.(regs) RSP) 8 = Some rip /\ 0 <= rip < 2 ^ 64.

(** A new parcel is apart from the threads and from the parcels of others. *)
Definition parcel_apart (live : gmap A Z) (p : Z) : Prop :=
  (forall u, (p + 8 <= (T u).(s_this) \/ (T u).(s_this) + 8 <= p) /\ (p + 8 <= (T u).(s_lo) \/ (T u).(s_hi) <= p))
  /\ forall u q, live !! u = Some q -> p + 8 <= q \/ q + 8 <= p.

Inductive step : state -> label -> state -> Prop :=
| step_local s w t ip c ip' c' m' : s.(work) !! w = Some (Running t ip c) -> sound c' -> respects s m' ->
    step s (LLocal w) (mkState m' (<[w := Running t ip' c']> s.(work)) s.(live))
| step_continuation s w t c c' m' : s.(work) !! w = Some (Switched t c) -> c'.(regs) RSP = c.(regs) RSP -> sound c' -> respects s m' ->
    step s (LLocal w) (mkState m' (<[w := Switched t c']> s.(work)) s.(live))
| step_save s w t ip c rip p b pb c1 m1 m2 : s.(work) !! w = Some (Running t ip c) -> s.(live) !! t = Some p -> s.(live) !! b = Some pb ->
    ~ current s.(work) b -> c.(regs) RDI = pb -> entry s t c rip ->
    exec_all thread_transfer_save c s.(mem) = Some (c1, m1) -> call_checkpoint after_call p c1 m1 = Some m2 ->
    step s (LSave w t b (context_of c rip) s.(mem)) (mkState m2 (<[w := Switched b c1]> s.(work)) s.(live))
| step_restore s w t c c1 m1 ip c2 : s.(work) !! w = Some (Switched t c) -> exec_all thread_transfer_restore c s.(mem) = Some (c1, m1) -> ret c1 m1 = Some (ip, c2) ->
    step s (LRestore w t ip c2 m1) (mkState m1 (<[w := Running t ip c2]> s.(work)) s.(live))
| step_new s t p f mx fp m1 m2 : s.(live) !! t = None -> parcel_apart s.(live) p -> mapped s.(mem) p 8 -> mapped s.(mem) (T t).(s_this) 8 ->
    mapped s.(mem) (T t).(s_lo) ((T t).(s_hi) - (T t).(s_lo)) -> 0 <= p < 2 ^ 64 -> 0 <= f < 2 ^ 64 -> 0 <= mx < 2 ^ 32 -> 0 <= fp < 2 ^ 16 ->
    initTransferFrame s.(mem) (T t).(s_this) (T t).(s_hi) p f mx fp trampoline = Some m1 -> write m1 p 8 (T t).(s_this) = Some m2 ->
    step s (LNew t (new_context (T t).(s_hi) p f mx fp trampoline) m2) (mkState m2 s.(work) (<[t := p]> s.(live)))
| step_end s t p : s.(live) !! t = Some p -> ~ current s.(work) t -> step s (LEnd t) (mkState s.(mem) s.(work) (delete t s.(live))).

(** ** The abstract scheduler *)

(** Contexts, with the memory at the time they were saved, and the threads of the workers. *)
Record astate := mkAstate { awork : gmap nat (A * bool); saved : gmap A (context * memory) }.

Implicit Types a : astate.

Definition acurrent a (t : A) : Prop := exists w b, a.(awork) !! w = Some (t, b).

Inductive astep : astate -> label -> astate -> Prop :=
| a_local a w : astep a (LLocal w) a
| a_save a w t b k m : a.(awork) !! w = Some (t, true) -> is_Some (a.(saved) !! b) -> ~ acurrent a b ->
    astep a (LSave w t b k m) (mkAstate (<[w := (b, false)]> a.(awork)) (<[t := (k, m)]> a.(saved)))
| a_restore a w t k m0 ip c m : a.(awork) !! w = Some (t, false) -> a.(saved) !! t = Some (k, m0) -> ip = k.(k_rip) -> matches c k ->
    (forall x, k.(k_rsp) <= x < (T t).(s_hi) -> m !! x = m0 !! x) ->
    astep a (LRestore w t ip c m) (mkAstate (<[w := (t, true)]> a.(awork)) (delete t a.(saved)))
| a_new a t k m : a.(saved) !! t = None -> ~ acurrent a t -> astep a (LNew t k m) (mkAstate a.(awork) (<[t := (k, m)]> a.(saved)))
| a_end a t : is_Some (a.(saved) !! t) -> ~ acurrent a t -> astep a (LEnd t) (mkAstate a.(awork) (delete t a.(saved))).

(** ** The simulation *)

(** The words and the stacks of the threads are apart from each other. *)
Record layout : Prop := {
  l_range t : 0 <= (T t).(s_this) < 2 ^ 64 /\ 0 <= (T t).(s_lo) /\ (T t).(s_lo) + 96 <= (T t).(s_hi) /\ (T t).(s_hi) < 2 ^ 64 /\ (T t).(s_hi) mod 16 = 0;
  l_self t : (T t).(s_this) + 8 <= (T t).(s_lo) \/ (T t).(s_hi) <= (T t).(s_this);
  l_words t u : t <> u -> (T t).(s_this) + 8 <= (T u).(s_this) \/ (T u).(s_this) + 8 <= (T t).(s_this);
  l_mixed t u : t <> u -> (T t).(s_this) + 8 <= (T u).(s_lo) \/ (T u).(s_hi) <= (T t).(s_this);
  l_stacks t u : t <> u -> (T t).(s_hi) <= (T u).(s_lo) \/ (T u).(s_hi) <= (T t).(s_lo);
}.

Definition cpu_of (x : wstate) : cpu := match x with Running _ _ c => c | Switched _ c => c end.
Definition view (x : wstate) : A * bool := match x with Running t _ _ => (t, true) | Switched t _ => (t, false) end.

Record k_sound (k : context) : Prop := {
  ks_mxcsr : 0 <= k.(k_mxcsr) < 2 ^ 32;
  ks_fpucw : 0 <= k.(k_fpucw) < 2 ^ 16;
  ks_regs : Forall (fun v => 0 <= v < 2 ^ 64) [k.(k_r15); k.(k_r14); k.(k_r13); k.(k_r12); k.(k_rbx); k.(k_rbp); k.(k_rip); k.(k_rsp)];
}.

Definition live_ok m (t : A) (p : Z) : Prop :=
  mapped m (T t).(s_this) 8 /\ mapped m (T t).(s_lo) ((T t).(s_hi) - (T t).(s_lo)) /\ mapped m p 8 /\ 0 <= p < 2 ^ 64 /\ read m p 8 = Some (T t).(s_this).

(** The frame of a thread that does not run, and what is above it. *)
Definition saved_ok m (t : A) (k : context) (m0 : memory) (sp : Z) : Prop :=
  read m (T t).(s_this) 8 = Some sp /\ framed m sp k /\ k_sound k /\ (T t).(s_lo) + 8 <= sp /\ sp mod 16 = 0 /\ k.(k_rsp) <= (T t).(s_hi)
  /\ forall x, k.(k_rsp) <= x < (T t).(s_hi) -> m !! x = m0 !! x.

Record sim s a : Prop := {
  i_live t p : s.(live) !! t = Some p -> live_ok s.(mem) t p;
  i_apart t p : s.(live) !! t = Some p -> parcel_apart (delete t s.(live)) p;
  i_work w x : s.(work) !! w = Some x -> is_Some (s.(live) !! tid x) /\ sound (cpu_of x);
  i_inj w w' x x' : s.(work) !! w = Some x -> s.(work) !! w' = Some x' -> tid x = tid x' -> w = w';
  i_awork : a.(awork) = view <$> s.(work);
  i_saved t k m0 : a.(saved) !! t = Some (k, m0) -> is_Some (s.(live) !! t) /\ ~ running s.(work) t /\ exists sp, saved_ok s.(mem) t k m0 sp;
  i_unsaved t p : s.(live) !! t = Some p -> ~ running s.(work) t -> is_Some (a.(saved) !! t);
  i_switched w t c : s.(work) !! w = Some (Switched t c) -> read s.(mem) (T t).(s_this) 8 = Some (c.(regs) RSP);
}.

Hypothesis Hl : layout.
Hypothesis Hcode : 0 <= after_call < 2 ^ 64 /\ 0 <= trampoline < 2 ^ 64.

(** Nothing is unmapped. *)
Definition grows m m' : Prop := forall x, is_Some (m !! x) -> is_Some (m' !! x).

Lemma grows_trans m1 m2 m3 : grows m1 m2 -> grows m2 m3 -> grows m1 m3.
Proof. intros H1 H2 x Hx. by apply H2, H1. Qed.

Lemma mapped_grows m m' b n : grows m m' -> mapped m b n -> mapped m' b n.
Proof. intros Hg Hm x Hx. by apply Hg, Hm. Qed.

Lemma write_le_grows bs : forall m m' b, write_le m b bs = Some m' -> grows m m'.
Proof.
  clear Hl Hcode. induction bs as [|v bs IH]; intros m m' b E x Hx; cbn [write_le] in E; [by injection E as <-|].
  destruct (m !! b); [|done]. apply (IH _ _ _ E). destruct (decide (b = x)) as [->|]; [by rewrite lookup_insert_eq|by rewrite lookup_insert_ne].
Qed.

Lemma write_grows m m' b n v : write m b n v = Some m' -> grows m m'.
Proof. apply write_le_grows. Qed.

Lemma write_fields_grows l : forall m m', write_fields m l = Some m' -> grows m m'.
Proof.
  clear Hl Hcode. induction l as [|[[b n] v] l IH]; intros m m' E; cbn [write_fields] in E; [injection E as <-; by intros x|].
  apply bind_Some in E as (m1 & E1 & E2). eapply grows_trans; [by eapply write_grows|by apply IH].
Qed.

Lemma live_ok_ext m m' t p : grows m m' -> (forall x, p <= x < p + 8 -> m' !! x = m !! x) -> live_ok m t p -> live_ok m' t p.
Proof.
  intros Hg He (H1 & H2 & H3 & H4 & H5). repeat (split; [first [by eapply mapped_grows|done]|]). rewrite <- H5. by apply word_ext.
Qed.

Lemma saved_ok_ext m m' t k m0 sp : saved_ok m t k m0 sp -> (forall x, (T t).(s_this) <= x < (T t).(s_this) + 8 \/ sp <= x < (T t).(s_hi) -> m' !! x = m !! x) -> saved_ok m' t k m0 sp.
Proof.
  intros (H1 & H2 & H3 & H4 & H5 & H6 & H7) He. pose proof (proj2 H2) as Hk. split; [rewrite <- H1; apply word_ext; intros x Hx; apply He; lia|].
  split; [apply (framed_ext m); [intros x Hx; apply He; lia|done]|]. repeat (split; [done|]). intros x Hx. rewrite He by lia. by apply H7.
Qed.

Lemma running_insert (w : gmap nat wstate) i x y : w !! i = Some x -> tid x = tid y -> (view y).2 = (view x).2 -> forall t, running (<[i := y]> w) t <-> running w t.
Proof.
  clear Hl Hcode. intros Hi Ht Hv t. split; intros (j & ip & c & Hj).
  - destruct (decide (i = j)) as [<-|Hn]; [|rewrite lookup_insert_ne in Hj by done; by exists j, ip, c].
    rewrite lookup_insert_eq in Hj. injection Hj as ->. destruct x as [u ip' c'|u c']; [|done]. cbn in Ht. subst u. by exists i, ip', c'.
  - destruct (decide (i = j)) as [<-|Hn]; [|exists j, ip, c; by rewrite lookup_insert_ne].
    rewrite Hi in Hj. injection Hj as ->. destruct y as [u ip' c'|u c']; [|done]. cbn in Ht. subst u. exists i, ip', c'. by rewrite lookup_insert_eq.
Qed.

Lemma view_insert (w : gmap nat wstate) i x y : w !! i = Some x -> view x = view y -> view <$> (<[i := y]> w) = view <$> w.
Proof. clear Hl Hcode. intros Hi Hv. rewrite fmap_insert, <- Hv. apply insert_id. by rewrite lookup_fmap, Hi. Qed.

Lemma view_tid x y : view x = view y -> tid x = tid y /\ (view y).2 = (view x).2.
Proof. clear Hl Hcode. intros E. split; [|by rewrite E]. by destruct x, y; cbn in E; simplify_eq. Qed.

(** A step of a worker that keeps its thread and its mode. *)
Lemma sim_local s a w x y m' : sim s a -> s.(work) !! w = Some x -> view x = view y -> sound (cpu_of y) -> respects s m' ->
  (forall t c, y = Switched t c -> c.(regs) RSP = (cpu_of x).(regs) RSP) ->
  sim (mkState m' (<[w := y]> s.(work)) s.(live)) a.
Proof.
  intros [I1 I2 I3 I4 I5 I6 I7 I8] Hw Hv Hs [Hp Hg] Hrsp. destruct (view_tid _ _ Hv) as [Ht Hm]. pose proof (running_insert _ _ _ _ Hw Ht Hm) as Hr. split; cbn [mem work live].
  - intros t p Hlt. apply (live_ok_ext s.(mem)); [done| |by apply I1]. intros z Hz. apply Hp. left. exists t, p. auto.
  - done.
  - intros v z Hvz. destruct (decide (w = v)) as [<-|]; [rewrite lookup_insert_eq in Hvz; injection Hvz as <-; split; [rewrite <- Ht; by eapply I3|done]|rewrite lookup_insert_ne in Hvz by done; by eapply I3].
  - intros v v' z z' E1 E2 E3. destruct (decide (w = v)) as [<-|]; destruct (decide (w = v')) as [<-|]; rewrite ?lookup_insert_eq in *; rewrite ?lookup_insert_ne in * by done; simplify_eq.
    + done.
    + eapply I4; [done|done|congruence].
    + eapply I4; [done|done|congruence].
    + by eapply I4.
  - by rewrite (view_insert _ _ _ _ Hw Hv).
  - intros t k m0 E. destruct (I6 t k m0 E) as ([p Hlt] & Hnr & sp & Hok). split; [by exists p|]. split; [by rewrite Hr|]. exists sp.
    apply (saved_ok_ext s.(mem)); [done|]. intros z Hz. apply Hp. destruct Hz; [left; exists t, p; auto|right; exists t, p, sp; split; [done|]; split; [done|]; split; [apply Hok|done]].
  - intros t p Hlt Hnr. apply (I7 t p); [done|]. by rewrite <- Hr.
  - intros v t c E. assert (Hc : exists c0, s.(work) !! v = Some (Switched t c0) /\ c0.(regs) RSP = c.(regs) RSP).
    { destruct (decide (w = v)) as [<-|]; [rewrite lookup_insert_eq in E|rewrite lookup_insert_ne in E by done; by exists c]. injection E as ->. rewrite (Hrsp t c) by done.
      destruct x as [|u c0]; [done|]. cbn in Ht. subst u. by exists c0. }
    destruct Hc as (c0 & Ec & <-). rewrite <- (I8 v t c0 Ec). apply word_ext. intros z Hz. apply Hp. destruct (I3 _ _ Ec) as [[p Hlt] _]. left. exists t, p. split; [done|]. cbn in Hz. lia.
Qed.

(** The bytes that a switch from [t], with the stack pointer [rsp], to [b] changes. *)
Definition switch_bytes (t b : A) (rsp sp x : Z) : Prop := rsp - 56 <= x < rsp \/ sp - 8 <= x < sp \/ (T t).(s_this) <= x < (T t).(s_this) + 8.

(** A switch does not fault; the context is in a frame whose address is in sp_, and the
    processor is on the stack of the next thread. *)
Lemma save_spec m t p b pb k m0 sp c rip : t <> b -> sound c -> live_ok m t p -> live_ok m b pb ->
  p + 8 <= (T t).(s_lo) \/ (T t).(s_hi) <= p -> p + 8 <= (T b).(s_lo) \/ (T b).(s_hi) <= p -> pb + 8 <= (T t).(s_lo) \/ (T t).(s_hi) <= pb ->
  saved_ok m b k m0 sp -> c.(regs) RDI = pb -> (T t).(s_lo) + 64 <= c.(regs) RSP -> c.(regs) RSP + 8 <= (T t).(s_hi) -> read m (c.(regs) RSP) 8 = Some rip ->
  exists c1 m1 m2, exec_all thread_transfer_save c m = Some (c1, m1) /\ call_checkpoint after_call p c1 m1 = Some m2
    /\ c1.(regs) RSP = sp /\ sound c1 /\ framed m2 (c.(regs) RSP - 56) (context_of c rip) /\ read m2 (T t).(s_this) 8 = Some (c.(regs) RSP - 56)
    /\ (forall x, ~ switch_bytes t b (c.(regs) RSP) sp x -> m2 !! x = m !! x) /\ grows m m2.
Proof.
  intros Htb Hs (Ht1 & Ht2 & Ht3 & Ht4 & Ht5) (Hb1 & Hb2 & Hb3 & Hb4 & Hb5) Hpt Hpb Hpbt (S1 & S2 & S3 & S4 & S5 & S6 & S7) Hrdi Hlo Hhi Hrip.
  set (rsp := c.(regs) RSP) in *. pose proof (proj2 S2) as Hk. pose proof (l_range Hl t) as Lt. pose proof (l_range Hl b) as Lb. pose proof (l_self Hl t) as Ls. pose proof (l_self Hl b) as Lsb.
  pose proof (l_words Hl t b Htb) as Lw. pose proof (l_mixed Hl t b Htb) as Lm. pose proof (l_mixed Hl b t ltac:(done)) as Lm'. pose proof (l_stacks Hl t b Htb) as Lst.
  destruct (save_frame c m rip Hs Hrip) as (m1 & E1 & F1 & O1); [intros x Hx; apply Ht2; fold rsp in Hx; lia|]. fold rsp in F1, O1.
  assert (R1 : read m1 pb 8 = Some (T b).(s_this)) by (rewrite <- Hb5; apply word_ext; intros x Hx; apply O1; lia).
  assert (R2 : read m1 (T b).(s_this) 8 = Some sp) by (rewrite <- S1; apply word_ext; intros x Hx; apply O1; lia).
  rewrite <- Hrdi in R1. destruct (save_exec c m m1 _ _ E1 R1 R2) as (c1 & X & Xsp & Xcx & _ & Xr & Xm & Xf). fold rsp in Xcx.
  pose proof (write_fields_grows _ _ _ E1) as G1.
  destruct (write_spec m1 (sp - 8) 8 after_call) as (m2 & E2 & _ & O2); [eapply mapped_grows; [exact G1|]; intros x Hx; apply Hb2; lia|apply Hcode|].
  assert (R3 : read m2 p 8 = Some (T t).(s_this)) by (rewrite <- Ht5; apply word_ext; intros x Hx; rewrite O2 by lia; apply O1; lia).
  pose proof (write_grows _ _ _ _ _ E2) as G2.
  destruct (write_spec m2 (T t).(s_this) 8 (rsp - 56)) as (m3 & E3 & R4 & O3); [do 2 (eapply mapped_grows; [eassumption|]); exact Ht1|lia|].
  pose proof (write_grows _ _ _ _ _ E3) as G3. exists c1, m1, m3. split; [done|].
  split; [unfold call_checkpoint; rewrite Xsp, E2; cbn [mbind option_bind]; rewrite R3; cbn [mbind option_bind]; by rewrite Xcx|].
  split; [done|]. split.
  { destruct Hs as [Hr Hx Hf]. split; [|by rewrite Xm|by rewrite Xf]. intros r. destruct (decide (reg_id r = 0%nat)); [destruct r; try done; rewrite Xsp; lia|].
    destruct (decide (reg_id r = 10%nat)); [destruct r; try done; rewrite Xcx; lia|]. rewrite Xr by (intros ->; done). apply Hr. }
  split; [apply (framed_ext m1); [intros x Hx; rewrite O3 by lia; apply O2; lia|done]|]. split; [done|]. split.
  - unfold switch_bytes. intros x Hx. rewrite O3 by lia. rewrite O2 by lia. apply O1. lia.
  - do 2 (eapply grows_trans; [eassumption|]). done.
Qed.

Lemma running_switch (wk : gmap nat wstate) w t ip c b c1 u : wk !! w = Some (Running t ip c) -> (forall v x, wk !! v = Some x -> tid x = t -> v = w) ->
  running (<[w := Switched b c1]> wk) u <-> running wk u /\ u <> t.
Proof.
  clear Hl Hcode. intros Hw Hu. split.
  - intros (v & ip' & c' & Hv). destruct (decide (w = v)) as [<-|Hn]; [by rewrite lookup_insert_eq in Hv|]. rewrite lookup_insert_ne in Hv by done.
    split; [by exists v, ip', c'|]. intros ->. apply Hn. symmetry. by eapply Hu.
  - intros [(v & ip' & c' & Hv) Hn]. exists v, ip', c'. rewrite lookup_insert_ne; [done|]. intros ->. rewrite Hw in Hv. by simplify_eq.
Qed.

(** The bytes of a switch are not those of parcels, nor those that another thread needs. *)
Lemma switch_parcel t b rsp sp L q x : (T t).(s_lo) + 56 <= rsp -> rsp <= (T t).(s_hi) -> (T b).(s_lo) + 8 <= sp -> sp <= (T b).(s_hi) ->
  parcel_apart L q -> q <= x < q + 8 -> ~ switch_bytes t b rsp sp x.
Proof. intros H1 H2 H3 H4 [Ha _] Hx. unfold switch_bytes. pose proof (Ha t). pose proof (Ha b). lia. Qed.

Lemma switch_thread t b u rsp sp k m0 spu m x : t <> b -> u <> t -> (T t).(s_lo) + 56 <= rsp -> rsp <= (T t).(s_hi) -> (T b).(s_lo) + 8 <= sp -> sp <= (T b).(s_hi) ->
  saved_ok m u k m0 spu -> (u = b -> spu = sp) -> (T u).(s_this) <= x < (T u).(s_this) + 8 \/ spu <= x < (T u).(s_hi) -> ~ switch_bytes t b rsp sp x.
Proof.
  intros Htb Hut H1 H2 H3 H4 (_ & _ & _ & S4 & _) Hub Hx. unfold switch_bytes. pose proof (l_words Hl u t Hut). pose proof (l_mixed Hl u t Hut). pose proof (l_mixed Hl t u ltac:(done)).
  pose proof (l_stacks Hl u t Hut). destruct (decide (u = b)) as [->|Hn].
  - rewrite Hub in * by done. pose proof (l_self Hl b). lia.
  - pose proof (l_words Hl u b Hn). pose proof (l_mixed Hl u b Hn). pose proof (l_stacks Hl u b Hn). lia.
Qed.

Lemma context_sound c rip hi : sound c -> 0 <= rip < 2 ^ 64 -> c.(regs) RSP + 8 <= hi -> hi < 2 ^ 64 -> k_sound (context_of c rip).
Proof.
  intros [Hr Hx Hf] Hrip H1 H2. split; [done|done|]. cbn [k_r15 k_r14 k_r13 k_r12 k_rbx k_rbp k_rip k_rsp context_of].
  repeat (apply Forall_cons; split; [first [apply Hr|exact Hrip|pose proof (Hr RSP); lia]|]). constructor.
Qed.

(** A worker keeps the invariant of the others when it goes over to a thread that no worker has. *)
Lemma work_switch (wk : gmap nat wstate) w y : ~ current wk (tid y) ->
  (forall v v' x x', wk !! v = Some x -> wk !! v' = Some x' -> tid x = tid x' -> v = v') ->
  forall v v' x x', <[w := y]> wk !! v = Some x -> <[w := y]> wk !! v' = Some x' -> tid x = tid x' -> v = v'.
Proof.
  clear Hl Hcode. intros Hc Hu v v' x x' E1 E2 E3. destruct (decide (w = v)) as [<-|]; destruct (decide (w = v')) as [<-|]; rewrite ?lookup_insert_eq in *; rewrite ?lookup_insert_ne in * by done; simplify_eq.
  - done.
  - destruct Hc. by exists v', x'.
  - destruct Hc. by exists v, x.
  - by eapply Hu.
Qed.

Lemma not_current_saved s a b pb : sim s a -> s.(live) !! b = Some pb -> ~ current s.(work) b -> exists k m0 sp, a.(saved) !! b = Some (k, m0) /\ saved_ok s.(mem) b k m0 sp.
Proof.
  intros I Hb Hc. destruct (i_unsaved _ _ I b pb Hb) as [[k m0] Hk]; [intros (w & ip & c & Hw); apply Hc; by exists w, (Running b ip c)|].
  destruct (i_saved _ _ I _ _ _ Hk) as (_ & _ & sp & Hsp). by exists k, m0, sp.
Qed.

Lemma switched_saved s a w t c : sim s a -> s.(work) !! w = Some (Switched t c) -> exists k m0, a.(saved) !! t = Some (k, m0) /\ saved_ok s.(mem) t k m0 (c.(regs) RSP).
Proof.
  intros I Hw. pose proof (i_work _ _ I _ _ Hw) as [[q Hq] _]. destruct (i_unsaved _ _ I t q Hq) as [[k m0] Hk].
  { intros (v & ip & c' & Hv). assert (w = v) by (by eapply (i_inj _ _ I)). subst v. congruence. }
  destruct (i_saved _ _ I _ _ _ Hk) as (_ & _ & sp & Hsp). exists k, m0. split; [done|]. pose proof (i_switched _ _ I _ _ _ Hw). pose proof (proj1 Hsp). by simplify_eq.
Qed.

Lemma sim_save s a w t ip c rip p b pb : sim s a -> s.(work) !! w = Some (Running t ip c) -> s.(live) !! t = Some p -> s.(live) !! b = Some pb ->
  ~ current s.(work) b -> c.(regs) RDI = pb -> entry s t c rip ->
  exists c1 m1 m2, exec_all thread_transfer_save c s.(mem) = Some (c1, m1) /\ call_checkpoint after_call p c1 m1 = Some m2 /\ (c1.(regs) RSP) mod 16 = 0
    /\ sim (mkState m2 (<[w := Switched b c1]> s.(work)) s.(live)) (mkAstate (<[w := (b, false)]> a.(awork)) (<[t := (context_of c rip, s.(mem))]> a.(saved))).
Proof.
  intros I Hw Ht Hb Hc Hrdi (E1 & E2 & E3 & E4 & E5). assert (Htb : t <> b) by (intros ->; apply Hc; by exists w, (Running b ip c)).
  destruct (not_current_saved s a b pb I Hb Hc) as (k & m0 & sp & Hk & Hsp). pose proof (proj2 (i_work _ _ I _ _ Hw)) as Hs. cbn in Hs.
  pose proof (proj1 (i_apart _ _ I _ _ Ht)) as Ap. pose proof (proj1 (i_apart _ _ I _ _ Hb)) as Apb.
  destruct (save_spec s.(mem) t p b pb k m0 sp c rip Htb Hs (i_live _ _ I _ _ Ht) (i_live _ _ I _ _ Hb) (proj2 (Ap t)) (proj2 (Ap b)) (proj2 (Apb t)) Hsp Hrdi E2 E3 E4)
    as (c1 & m1 & m2 & X1 & X2 & Xsp & Xs & Xf & Xr & Xo & Xg).
  exists c1, m1, m2. split; [done|]. split; [done|]. pose proof Hsp as (S1 & S2 & S3 & S4 & S5 & S6 & S7). pose proof (proj2 S2) as Hkk. split; [by rewrite Xsp|].
  pose proof (l_range Hl t) as Lt. set (rsp := c.(regs) RSP) in *.
  assert (Hother : forall u k' m' spu, u <> t -> saved_ok s.(mem) u k' m' spu -> saved_ok m2 u k' m' spu).
  { intros u k' m' spu Hut Hok. apply (saved_ok_ext s.(mem)); [done|]. intros x Hx. apply Xo. eapply (switch_thread t b u rsp sp); [done|done|lia|lia|lia|lia|exact Hok| |done].
    intros ->. pose proof (proj1 Hok). congruence. }
  assert (Hrun : forall u, running (<[w := Switched b c1]> s.(work)) u <-> running s.(work) u /\ u <> t).
  { intros u. apply (running_switch _ _ _ ip c); [done|]. intros v x Hv Hx. by eapply (i_inj _ _ I v w x); [done|done|]. }
  split; cbn [mem work live awork saved].
  - intros u q Hu. apply (live_ok_ext s.(mem)); [done| |by apply (i_live _ _ I)]. intros x Hx. apply Xo. eapply switch_parcel; [lia..|by apply (i_apart _ _ I)|done].
  - apply (i_apart _ _ I).
  - intros v x Hv. destruct (decide (w = v)) as [<-|]; [rewrite lookup_insert_eq in Hv; by injection Hv as <-|rewrite lookup_insert_ne in Hv by done; by apply (i_work _ _ I v)].
  - apply work_switch; [done|apply (i_inj _ _ I)].
  - rewrite fmap_insert. by rewrite (i_awork _ _ I).
  - intros u k' m' Hu. rewrite Hrun. destruct (decide (t = u)) as [<-|Hn].
    + rewrite lookup_insert_eq in Hu. injection Hu as <- <-. split; [by exists p|]. split; [naive_solver|]. exists (rsp - 56). split; [done|]. split; [done|].
      split; [apply (context_sound c rip (T t).(s_hi)); [done|done|done|apply Lt]|]. split; [lia|]. split; [apply Z.mod_divide; [lia|]; exists (rsp / 16 - 3); pose proof (Z.div_mod rsp 16); lia|]. cbn [k_rsp context_of]. fold rsp. split; [lia|].
      intros x Hx. apply Xo. unfold switch_bytes. pose proof (l_self Hl t). pose proof (l_stacks Hl t b Htb). lia.
    + rewrite lookup_insert_ne in Hu by done. destruct (i_saved _ _ I _ _ _ Hu) as (H1 & H2 & spu & H3). split; [done|]. split; [naive_solver|]. exists spu. by apply Hother.
  - intros u q Hu Hnr. destruct (decide (t = u)) as [<-|Hn]; [by rewrite lookup_insert_eq|rewrite lookup_insert_ne by done]. apply (i_unsaved _ _ I u q); [done|]. rewrite Hrun in Hnr. naive_solver.
  - intros v u c' Hv. destruct (decide (w = v)) as [<-|Hn].
    + rewrite lookup_insert_eq in Hv. injection Hv as <- <-. rewrite Xsp. by apply (Hother b k m0).
    + rewrite lookup_insert_ne in Hv by done. assert (Hut : u <> t) by (intros ->; apply Hn; by eapply (i_inj _ _ I w v)).
      destruct (switched_saved s a v u c' I Hv) as (k' & m' & _ & H3). by apply (Hother u k' m').
Qed.

Lemma matches_sound c c2 k : sound c -> k_sound k -> matches c2 k -> (forall r, r = RDI \/ r = RSI \/ r = RDX \/ r = RCX -> c2.(regs) r = c.(regs) r) -> sound c2.
Proof.
  intros [Hr _ _] [K1 K2 K3] (M1 & M2 & M3 & M4 & M5 & M6 & M7 & M8 & M9) He. rewrite !Forall_cons in K3. destruct K3 as (Q1 & Q2 & Q3 & Q4 & Q5 & Q6 & Q7 & Q8 & _).
  split; [|by rewrite M1|by rewrite M2]. intros r. destruct r; first [rewrite He by auto; apply Hr|congruence].
Qed.

Lemma sim_restore s a w t c : sim s a -> s.(work) !! w = Some (Switched t c) ->
  exists c1 c2 k m0, exec_all thread_transfer_restore c s.(mem) = Some (c1, s.(mem)) /\ ret c1 s.(mem) = Some (k.(k_rip), c2)
    /\ a.(saved) !! t = Some (k, m0) /\ matches c2 k /\ (forall x, k.(k_rsp) <= x < (T t).(s_hi) -> s.(mem) !! x = m0 !! x)
    /\ sim (mkState s.(mem) (<[w := Running t k.(k_rip) c2]> s.(work)) s.(live)) (mkAstate (<[w := (t, true)]> a.(awork)) (delete t a.(saved))).
Proof.
  clear Hcode. intros I Hw. destruct (switched_saved s a w t c I Hw) as (k & m0 & Hk & Hok). pose proof Hok as (S1 & S2 & S3 & S4 & S5 & S6 & S7).
  destruct (restore_exec c s.(mem) k S2) as (c1 & c2 & X1 & X2 & X3 & X4). exists c1, c2, k, m0. repeat (split; [done|]).
  destruct (i_work _ _ I _ _ Hw) as [Hlive Hs]. cbn in Hlive, Hs. pose proof (matches_sound c c2 k Hs S3 X3 X4) as Hs2.
  assert (Hrun : forall u, running (<[w := Running t k.(k_rip) c2]> s.(work)) u <-> running s.(work) u \/ u = t).
  { intros u. split.
    - intros (v & ip & c' & Hv). destruct (decide (w = v)) as [<-|]; [rewrite lookup_insert_eq in Hv; right; by simplify_eq|rewrite lookup_insert_ne in Hv by done; left; by exists v, ip, c'].
    - intros [(v & ip & c' & Hv)| ->]; [|exists w, k.(k_rip), c2; by rewrite lookup_insert_eq]. exists v, ip, c'. rewrite lookup_insert_ne; [done|]. intros ->. congruence. }
  split; cbn [mem work live awork saved].
  - apply (i_live _ _ I).
  - apply (i_apart _ _ I).
  - intros v x Hv. destruct (decide (w = v)) as [<-|]; [rewrite lookup_insert_eq in Hv; by injection Hv as <-|rewrite lookup_insert_ne in Hv by done; by apply (i_work _ _ I v)].
  - intros v v' x x' E1 E2 E3. destruct (decide (w = v)) as [<-|]; destruct (decide (w = v')) as [<-|]; rewrite ?lookup_insert_eq in *; rewrite ?lookup_insert_ne in * by done; simplify_eq; [done|..]; by eapply (i_inj _ _ I).
  - rewrite fmap_insert. by rewrite (i_awork _ _ I).
  - intros u k' m' Hu. apply lookup_delete_Some in Hu as [Hn Hu]. destruct (i_saved _ _ I _ _ _ Hu) as (H1 & H2 & H3). split; [done|]. split; [|done]. rewrite Hrun. naive_solver.
  - intros u q Hu Hnr. rewrite Hrun in Hnr. rewrite lookup_delete_ne by naive_solver. apply (i_unsaved _ _ I u q); [done|]. naive_solver.
  - intros v u c' Hv. destruct (decide (w = v)) as [<-|]; [by rewrite lookup_insert_eq in Hv|rewrite lookup_insert_ne in Hv by done; by apply (i_switched _ _ I v)].
Qed.

Lemma sim_end s a t p : sim s a -> s.(live) !! t = Some p -> ~ current s.(work) t -> sim (mkState s.(mem) s.(work) (delete t s.(live))) (mkAstate a.(awork) (delete t a.(saved))).
Proof.
  intros I Ht Hc. split; cbn [mem work live awork saved].
  - intros u q Hu. apply lookup_delete_Some in Hu as [Hn Hu]. by apply (i_live _ _ I).
  - intros u q Hu. apply lookup_delete_Some in Hu as [Hn Hu]. destruct (i_apart _ _ I _ _ Hu) as [A1 A2]. split; [done|]. intros v r Hv.
    apply lookup_delete_Some in Hv as [Hv1 Hv2]. apply lookup_delete_Some in Hv2 as [_ Hv2]. apply (A2 v). by rewrite lookup_delete_ne.
  - intros w x Hw. destruct (i_work _ _ I _ _ Hw) as [H1 H2]. split; [|done]. rewrite lookup_delete_ne; [done|]. intros ->. apply Hc. by exists w, x.
  - apply (i_inj _ _ I).
  - apply (i_awork _ _ I).
  - intros u k m0 Hu. apply lookup_delete_Some in Hu as [Hn Hu]. rewrite lookup_delete_ne by done. by apply (i_saved _ _ I).
  - intros u q Hu. apply lookup_delete_Some in Hu as [Hn Hu]. rewrite lookup_delete_ne by done. by apply (i_unsaved _ _ I u q).
  - apply (i_switched _ _ I).
Qed.

(** Making a thread does not fault, when its memory is mapped, and writes only its frame, its
    sp_ and the word of its parcel. *)
Lemma new_thread_spec m L t p f mx fp : parcel_apart L p -> mapped m p 8 -> mapped m (T t).(s_this) 8 -> mapped m (T t).(s_lo) ((T t).(s_hi) - (T t).(s_lo)) ->
  0 <= p < 2 ^ 64 -> 0 <= f < 2 ^ 64 -> 0 <= mx < 2 ^ 32 -> 0 <= fp < 2 ^ 16 ->
  exists m1 m2, initTransferFrame m (T t).(s_this) (T t).(s_hi) p f mx fp trampoline = Some m1 /\ write m1 p 8 (T t).(s_this) = Some m2
    /\ live_ok m2 t p /\ saved_ok m2 t (new_context (T t).(s_hi) p f mx fp trampoline) m2 ((T t).(s_hi) - 80) /\ grows m m2
    /\ forall x, (x < (T t).(s_lo) \/ (T t).(s_hi) <= x) -> (x < (T t).(s_this) \/ (T t).(s_this) + 8 <= x) -> (x < p \/ p + 8 <= x) -> m2 !! x = m !! x.
Proof.
  intros [Ha _] Hmp Hmt Hms Hp Hf Hmx Hfp. pose proof (l_range Hl t) as Lt. pose proof (l_self Hl t) as Ls. pose proof (Ha t) as Hat. destruct Hcode as [_ Htr].
  destruct (new_frame_spec m (T t).(s_this) (T t).(s_hi) p f mx fp trampoline) as (m1 & E1 & F1 & R1 & O1); [intros x Hx; apply Hms; lia|done|lia|done..|lia|].
  assert (G1 : grows m m1).
  { unfold initTransferFrame in E1. apply bind_Some in E1 as (m' & E & E'). eapply grows_trans; [by eapply write_le_grows|by eapply write_grows]. }
  destruct (write_spec m1 p 8 (T t).(s_this)) as (m2 & E2 & R2 & O2); [by eapply mapped_grows|lia|]. pose proof (write_grows _ _ _ _ _ E2) as G2.
  pose proof (grows_trans _ _ _ G1 G2) as G. exists m1, m2. split; [done|]. split; [done|].
  split; [repeat (split; [first [by eapply mapped_grows|done]|]); done|]. split; [|split; [done|]].
  - split; [rewrite <- R1; apply word_ext; intros x Hx; apply O2; lia|]. split; [apply (framed_ext m1); [intros x Hx; apply O2; lia|done]|].
    cbn [k_rsp new_context]. split; [split; [done|done|]; cbn [k_r15 k_r14 k_r13 k_r12 k_rbx k_rbp k_rip k_rsp new_context]; each_field lia|]. split; [lia|].
    split; [apply Z.mod_divide; [lia|]; exists ((T t).(s_hi) / 16 - 5); pose proof (Z.div_mod (T t).(s_hi) 16); lia|]. split; [lia|done].
  - intros x H1 H2 H3. rewrite O2 by lia. apply O1; lia.
Qed.

Lemma sim_new s a t p f mx fp : sim s a -> s.(live) !! t = None -> parcel_apart s.(live) p -> mapped s.(mem) p 8 -> mapped s.(mem) (T t).(s_this) 8 ->
  mapped s.(mem) (T t).(s_lo) ((T t).(s_hi) - (T t).(s_lo)) -> 0 <= p < 2 ^ 64 -> 0 <= f < 2 ^ 64 -> 0 <= mx < 2 ^ 32 -> 0 <= fp < 2 ^ 16 ->
  exists m1 m2, initTransferFrame s.(mem) (T t).(s_this) (T t).(s_hi) p f mx fp trampoline = Some m1 /\ write m1 p 8 (T t).(s_this) = Some m2
    /\ sim (mkState m2 s.(work) (<[t := p]> s.(live))) (mkAstate a.(awork) (<[t := (new_context (T t).(s_hi) p f mx fp trampoline, m2)]> a.(saved))).
Proof.
  intros I Hn Ha Hmp Hmt Hms Hp Hf Hmx Hfp. destruct (new_thread_spec s.(mem) s.(live) t p f mx fp Ha Hmp Hmt Hms Hp Hf Hmx Hfp) as (m1 & m2 & E1 & E2 & H1 & H2 & G & O).
  exists m1, m2. split; [done|]. split; [done|]. assert (Hother : forall u q, s.(live) !! u = Some q -> u <> t) by (intros u q Hu ->; congruence).
  assert (Hsv : forall u k m0 sp, u <> t -> saved_ok s.(mem) u k m0 sp -> saved_ok m2 u k m0 sp).
  { intros u k m0 sp Hu Hok. apply (saved_ok_ext s.(mem)); [done|]. pose proof Hok as (_ & _ & _ & S4 & _). pose proof (l_words Hl u t Hu). pose proof (l_mixed Hl u t Hu).
    pose proof (l_mixed Hl t u ltac:(done)). pose proof (l_stacks Hl u t Hu). destruct Ha as [Ha _]. pose proof (Ha u). intros x Hx. apply O; lia. }
  assert (Hwk : forall w x, s.(work) !! w = Some x -> tid x <> t) by (intros w x Hw; destruct (i_work _ _ I _ _ Hw) as [[q Hq] _]; by eapply Hother).
  split; cbn [mem work live awork saved].
  - intros u q Hu. destruct (decide (t = u)) as [<-|Hut]; [rewrite lookup_insert_eq in Hu; by injection Hu as <-|rewrite lookup_insert_ne in Hu by done].
    apply (live_ok_ext s.(mem)); [done| |by apply (i_live _ _ I)]. intros x Hx. destruct (i_apart _ _ I _ _ Hu) as [A1 _]. destruct Ha as [_ Ha]. pose proof (A1 t). pose proof (Ha u q Hu). apply O; lia.
  - intros u q Hu. destruct (decide (t = u)) as [<-|Hut].
    + rewrite lookup_insert_eq in Hu. injection Hu as <-. by rewrite delete_insert_id.
    + rewrite lookup_insert_ne in Hu by done. destruct (i_apart _ _ I _ _ Hu) as [A1 A2]. split; [done|]. intros v r Hv. apply lookup_delete_Some in Hv as [Hv1 Hv2].
      destruct (decide (t = v)) as [<-|]; [rewrite lookup_insert_eq in Hv2; injection Hv2 as <-; destruct Ha as [_ Ha]; specialize (Ha u q Hu); lia|].
      rewrite lookup_insert_ne in Hv2 by done. apply (A2 v). by rewrite lookup_delete_ne.
  - intros w x Hw. destruct (i_work _ _ I _ _ Hw) as [K1 K2]. split; [|done]. rewrite lookup_insert_ne; [done|]. intros E. by destruct (Hwk _ _ Hw).
  - apply (i_inj _ _ I).
  - apply (i_awork _ _ I).
  - intros u k m0 Hu. destruct (decide (t = u)) as [<-|Hut].
    + rewrite lookup_insert_eq in Hu. injection Hu as <- <-. rewrite lookup_insert_eq. split; [done|]. split; [|by exists ((T t).(s_hi) - 80)]. intros (w & ip & c & Hw). by destruct (Hwk _ _ Hw).
    + rewrite lookup_insert_ne in Hu by done. rewrite lookup_insert_ne by done. destruct (i_saved _ _ I _ _ _ Hu) as (K1 & K2 & sp & K3). split; [done|]. split; [done|]. exists sp. by apply Hsv.
  - intros u q Hu Hnr. destruct (decide (t = u)) as [<-|Hut]; [by rewrite lookup_insert_eq|rewrite lookup_insert_ne in Hu by done]. rewrite lookup_insert_ne by done. by apply (i_unsaved _ _ I u q).
  - intros w u c Hw. destruct (switched_saved s a w u c I Hw) as (k & m0 & _ & Hok). by apply (Hsv u k m0); [apply (Hwk _ _ Hw)|].
Qed.

(** ** The theorem *)

Inductive steps : state -> list label -> state -> Prop :=
| steps_nil s : steps s [] s
| steps_cons s l s' ls s'' : step s l s' -> steps s' ls s'' -> steps s (l :: ls) s''.

Inductive asteps : astate -> list label -> astate -> Prop :=
| asteps_nil a : asteps a [] a
| asteps_cons a l a' ls a'' : astep a l a' -> asteps a' ls a'' -> asteps a (l :: ls) a''.

Lemma acurrent_iff s a t : sim s a -> acurrent a t <-> current s.(work) t.
Proof.
  intros I. unfold acurrent, current. rewrite (i_awork _ _ I). split.
  - intros (w & b & Hw). rewrite lookup_fmap, fmap_Some in Hw. destruct Hw as (x & Hx & Ex). exists w, x. split; [done|]. by destruct x; cbn in Ex; simplify_eq.
  - intros (w & x & Hw & <-). exists w, (view x).2. rewrite lookup_fmap, Hw. by destruct x.
Qed.

Lemma awork_view s a w x : sim s a -> s.(work) !! w = Some x -> a.(awork) !! w = Some (view x).
Proof. intros I Hw. by rewrite (i_awork _ _ I), lookup_fmap, Hw. Qed.

Lemma step_sim s a l s' : sim s a -> step s l s' -> exists a', astep a l a' /\ sim s' a'.
Proof.
  intros I St. destruct St as [s w t ip c ip' c' m' Hw Hc Hr|s w t c c' m' Hw Hsp Hc Hr|s w t ip c rip p b pb c1 m1 m2 Hw Ht Hb Hcur Hrdi He X1 X2|s w t c c1 m1 ip c2 Hw X1 X2|s t p f mx fp m1 m2 Hn Ha H1 H2 H3 H4 H5 H6 H7 X1 X2|s t p Ht Hcur].
  - exists a. split; [constructor|]. by apply (sim_local s a w (Running t ip c)).
  - exists a. split; [constructor|]. apply (sim_local s a w (Switched t c)); [done..|]. intros u d [= <- <-]. done.
  - destruct (sim_save s a w t ip c rip p b pb I Hw Ht Hb Hcur Hrdi He) as (d1 & n1 & n2 & Y1 & Y2 & _ & HI). simplify_eq. eexists. split; [|exact HI].
    constructor; [by apply (awork_view s a w (Running t ip c))| |by rewrite (acurrent_iff s)].
    destruct (not_current_saved s a b _ I Hb Hcur) as (k & m0 & sp & Hk & _). by exists (k, m0).
  - destruct (sim_restore s a w t c I Hw) as (d1 & d2 & k & m0 & Y1 & Y2 & Hk & Hm & Hst & HI). simplify_eq. eexists. split; [|exact HI].
    eapply (a_restore a w t k m0); [by apply (awork_view s a w (Switched t c))|done..].
  - destruct (sim_new s a t p f mx fp I Hn Ha H1 H2 H3 H4 H5 H6 H7) as (n1 & n2 & Y1 & Y2 & HI). simplify_eq. eexists. split; [|exact HI].
    constructor.
    + destruct (a.(saved) !! t) as [[k m0]|] eqn:E; [|done]. destruct (i_saved _ _ I _ _ _ E) as ([q Hq] & _). congruence.
    + rewrite (acurrent_iff s) by done. intros (w & x & Hw & <-). destruct (i_work _ _ I _ _ Hw) as [[q Hq] _]. congruence.
  - eexists. split; [|by apply (sim_end s a t p)]. constructor; [|by rewrite (acurrent_iff s)]. destruct (not_current_saved s a t p I Ht Hcur) as (k & m0 & sp & Hk & _). by exists (k, m0).
Qed.

Lemma steps_sim ls : forall s a s', sim s a -> steps s ls s' -> exists a', asteps a ls a' /\ sim s' a'.
Proof.
  induction ls as [|l ls IH]; intros s a s' I St; inversion St as [|? ? s1 ? ? S1 S2]; subst; [exists a; split; [constructor|done]|].
  destruct (step_sim s a l s1 I S1) as (a1 & A1 & I1). destruct (IH s1 a1 s' I1 S2) as (a2 & A2 & I2). exists a2. split; [by econstructor|done].
Qed.

(** Where the program starts: the threads that exist are those of the workers. *)
Record start s : Prop := {
  st_live t p : s.(live) !! t = Some p -> live_ok s.(mem) t p /\ parcel_apart (delete t s.(live)) p /\ running s.(work) t;
  st_work w x : s.(work) !! w = Some x -> is_Some (s.(live) !! tid x) /\ sound (cpu_of x) /\ (view x).2 = true;
  st_inj w w' x x' : s.(work) !! w = Some x -> s.(work) !! w' = Some x' -> tid x = tid x' -> w = w';
}.

Definition astart s : astate := mkAstate (view <$> s.(work)) ∅.

Lemma start_sim s : start s -> sim s (astart s).
Proof.
  intros [S1 S2 S3]. split; cbn [astart awork saved].
  - intros t p Ht. apply (S1 t p Ht).
  - intros t p Ht. apply (S1 t p Ht).
  - intros w x Hw. destruct (S2 w x Hw) as (H1 & H2 & _). done.
  - done.
  - done.
  - intros t k m0 E. by rewrite lookup_empty in E.
  - intros t p Ht Hn. by destruct Hn, (S1 t p Ht) as (_ & _ & Hr).
  - intros w t c Hw. by destruct (S2 w _ Hw) as (_ & _ & Hv).
Qed.

(** C16: from the start, every sequence of switches, new and ended threads on any number of
    workers, with arbitrary code of the threads in between that leaves the stacks and the links
    of suspended threads alone, is a sequence of the scheduler that keeps contexts in a map: a
    thread goes on with the callee-saved registers, the floating-point control words, the
    return address, the stack pointer and the stack that it had at its last switch, or with
    those of its first frame.  A switch to a suspended thread never faults and calls the
    checkpoint with an aligned stack, and neither does the restoring of the next thread. *)
Theorem context_switch_refines s ls s' : start s -> steps s ls s' ->
  (exists a', asteps (astart s) ls a')
  /\ (forall w t ip c rip p b pb, s'.(work) !! w = Some (Running t ip c) -> s'.(live) !! t = Some p -> s'.(live) !! b = Some pb ->
        ~ current s'.(work) b -> c.(regs) RDI = pb -> entry s' t c rip ->
        exists c1 m1 m2, exec_all thread_transfer_save c s'.(mem) = Some (c1, m1) /\ call_checkpoint after_call p c1 m1 = Some m2 /\ (c1.(regs) RSP) mod 16 = 0)
  /\ (forall w t c, s'.(work) !! w = Some (Switched t c) ->
        exists c1 ip c2, exec_all thread_transfer_restore c s'.(mem) = Some (c1, s'.(mem)) /\ ret c1 s'.(mem) = Some (ip, c2)).
Proof.
  intros Hs St. destruct (steps_sim ls s (astart s) s' (start_sim s Hs) St) as (a' & Ha & I). split; [by exists a'|]. split.
  - intros w t ip c rip p b pb Hw Ht Hb Hc Hrdi He. destruct (sim_save s' a' w t ip c rip p b pb I Hw Ht Hb Hc Hrdi He) as (c1 & m1 & m2 & E1 & E2 & E3 & _). by exists c1, m1, m2.
  - intros w t c Hw. destruct (sim_restore s' a' w t c I Hw) as (c1 & c2 & k & m0 & E1 & E2 & _). by exists c1, k.(k_rip), c2.
Qed.
End System.

(** ** A run *)

Module Example.
Definition place (b : bool) : stack := if b then mkStack 8 16 256 else mkStack 264 288 512.
Definition zeros : memory := list_to_map ((fun x => (x, 0)) <$> seqZ 0 800).
Definition m0 : memory := default ∅ (write zeros 600 8 8).
Definition c0 : cpu := mkCpu (fun r => match r with RSP => 216 | RDI => 700 | _ => 77 end) 8064 895.
Definition s0 : @state bool _ _ := mkState m0 {[0%nat := Running true 40 c0]} {[true := 600]}.

Lemma place_layout : layout place.
Proof. split; [intros []; cbn; repeat split; lia|intros []; cbn; lia|intros [] []; cbn; done || lia..]. Qed.

Lemma mapped_all m a n : forallb (fun x => bool_decide (is_Some (m !! x))) (seqZ a n) = true -> mapped m a n.
Proof. intros Hf x Hx. rewrite forallb_forall in Hf. specialize (Hf x). rewrite <- list_elem_of_In, elem_of_seqZ, bool_decide_eq_true in Hf. apply Hf. lia. Qed.

Lemma c0_sound : sound c0.
Proof. split; [intros []; cbn; lia|cbn; lia..]. Qed.

Lemma s0_start : start place s0.
Proof.
  split; cbn [live work mem s0].
  - intros t p Ht. apply lookup_singleton_Some in Ht as [<- <-]. split; [|split].
    + repeat (split; [first [apply mapped_all; vm_compute; reflexivity|lia]|]). vm_compute. reflexivity.
    + rewrite delete_singleton_eq. split; [intros []; cbn; lia|]. intros u q Hu. by rewrite lookup_empty in Hu.
    + by exists 0%nat, 40, c0.
  - intros w x Hw. apply lookup_singleton_Some in Hw as [<- <-]. split; [by exists 600|]. split; [apply c0_sound|done].
  - intros w w' x x' Hw Hw'. apply lookup_singleton_Some in Hw as [<- <-]. by apply lookup_singleton_Some in Hw' as [<- <-].
Qed.

(** A thread is made, the worker goes over to it, and it starts at the trampoline. *)
Lemma three_steps : exists c m1 m2 m3 s', steps place 33 44 s0
  [LNew false (new_context 512 700 5 8064 895 44) m1; LSave 0 true false (context_of c0 0) m2; LRestore 0 false 44 c m3] s'.
Proof.
  pose proof (start_sim place s0 s0_start) as I0.
  assert (Hap : parcel_apart place s0.(live) 700).
  { split; [intros []; cbn; lia|]. cbn [live s0]. intros u q Hu. apply lookup_singleton_Some in Hu as [_ <-]. lia. }
  assert (Hm1 : mapped m0 700 8) by (apply mapped_all; vm_compute; reflexivity). assert (Hm2 : mapped m0 264 8) by (apply mapped_all; vm_compute; reflexivity).
  assert (Hm3 : mapped m0 288 224) by (apply mapped_all; vm_compute; reflexivity).
  destruct (new_thread_spec place 33 44 place_layout ltac:(lia) m0 s0.(live) false 700 5 8064 895 Hap Hm1 Hm2 Hm3 ltac:(lia) ltac:(lia) ltac:(lia) ltac:(lia)) as (n1 & n2 & E1 & E2 & _ & _ & _ & O).
  assert (S1 : step place 33 44 s0 (LNew false (new_context 512 700 5 8064 895 44) n2) (mkState n2 {[0%nat := Running true 40 c0]} (<[false := 700]> {[true := 600]}))).
  { apply (step_new place 33 44 s0 false 700 5 8064 895 n1 n2); [done..|lia|lia|lia|lia|done|done]. }
  destruct (sim_new place 33 44 place_layout ltac:(lia) s0 _ false 700 5 8064 895 I0 ltac:(done) Hap Hm1 Hm2 Hm3 ltac:(lia) ltac:(lia) ltac:(lia) ltac:(lia)) as (n1' & n2' & E1' & E2' & I1).
  assert (n1' = n1) as -> by (cbn in E1', E1; congruence). assert (n2' = n2) as -> by congruence. set (a1 := mkAstate _ _) in I1. set (s1 := mkState n2 _ _) in *.
  assert (Hc : ~ current s1.(work) false) by (intros (w & x & Hw & Hx); cbn [work s1] in Hw; apply lookup_singleton_Some in Hw as [_ <-]; done).
  assert (He : entry place s1 true c0 0).
  { split; [done|]. split; [cbn; lia|]. split; [cbn; lia|]. split; [|lia]. transitivity (read m0 216 8); [|vm_compute; reflexivity].
    apply word_ext. intros x Hx. apply O; cbn in Hx |- *; lia. }
  destruct (sim_save place 33 44 place_layout ltac:(lia) s1 a1 0 true 40 c0 0 600 false 700 I1) as (c1 & k1 & k2 & X1 & X2 & _ & I2); [done|done|done|done|done|done|].
  pose proof (step_save place 33 44 s1 0 true 40 c0 0 600 false 700 c1 k1 k2 ltac:(done) ltac:(done) ltac:(done) Hc ltac:(done) He X1 X2) as S2.
  destruct (sim_restore place _ _ 0%nat false c1 I2) as (d1 & d2 & k & q & Y1 & Y2 & Hk & _); [apply lookup_insert_eq|].
  cbn [saved astart a1] in Hk. rewrite lookup_insert_ne, lookup_insert_eq in Hk by done. injection Hk as <- _.
  pose proof (step_restore place 33 44 (mkState k2 (<[0%nat := Switched false c1]> s1.(work)) s1.(live)) 0 false c1 d1 _ _ d2 (lookup_insert_eq _ _ _) Y1 Y2) as S3. eexists d2, n2, _, _, _. econstructor; [exact S1|]. econstructor; [exact S2|]. econstructor; [exact S3|constructor].
Qed.
End Example.

Lemma context_switch_refines_witness : exists ls s' a', length ls = 3%nat /\ steps Example.place 33 44 Example.s0 ls s' /\ asteps Example.place (astart Example.s0) ls a'.
Proof.
  destruct Example.three_steps as (c & m1 & m2 & m3 & s' & St).
  destruct (context_switch_refines Example.place 33 44 Example.place_layout ltac:(lia) _ _ _ Example.s0_start St) as [[a' Ha] _].
  eexists _, s', a'. split; [|split; [exact St|exact Ha]]. reflexivity.
Defined.
