(* ===== verification/Remote.v ===== *)
(** * Calls on LCOs at other localities

    libhpx/scheduler/lco/LCO.cpp, libhpx/actions, libhpx/network/isir/lco_get.cpp: a call pins
    its LCO and runs the method, or sends a parcel to where the LCO is and waits for the reply
    on a future of its own.  The handler pins the LCO and is sent on when that fails, or, for a
    get, makes the call again where it runs.  LCOs that are not pinned may move.  An LCO is a
    parameter, with its methods as functions that are not defined while a thread has to wait. *)

From S2P Require Import Prelude Condition Monitor Reduce.

Definition HPX_LCO_ERROR : Z := 2.

(** The synchronous calls: [hpx_lco_wait], [hpx_lco_wait_reset], [hpx_lco_get] and
    [hpx_lco_get_reset] of some bytes (of none they are waits), [hpx_lco_set_rsync], [hpx_lco_error_sync] with an error,
    and [hpx_lco_reset_sync]. *)
Inductive op := Wait (reset : bool) | Get (n : nat) (reset : bool) | Set_ (v : list Z) | Error (code : Z) | Reset.

(** A status, or whether a set triggered the LCO, and the bytes. *)
Definition res : Type := Z * list Z.

(** What the parcel asks for: both waits send zero. *)
Definition request (o : op) : op := match o with Wait _ => Wait false | o => o end.

(** The handler is an action that runs with its target pinned. *)
Definition pinned_action (o : op) : bool := match o with Get _ _ => false | _ => true end.

(** What a handler continues to the caller's future: of the errors only one is passed on, a
    thread that ends with another ends the program. *)
Definition reply (o : op) (r : res) : option res :=
  match o with
  | Wait _ => if (r.1 =? HPX_SUCCESS) || (r.1 =? HPX_LCO_ERROR) then Some (r.1, []) else None
  | Get _ _ => if r.1 =? HPX_SUCCESS then Some r else None
  | Set_ _ => Some (r.1, [])
  | Error _ | Reset => Some (HPX_SUCCESS, [])
  end.

(** ** Threads, parcels and localities *)

(** Before the attempt to pin; with the LCO pinned; waiting for the reply; with a result, and a
    pin to release; at the end. *)
Inductive phase := Calling | Pinned | Waiting_ | Completed (pin : bool) (r : res) | Done (r : res).

(** Where it runs, the LCO, the call, and the thread that waits for it. *)
Record thread := mkThread { rank : nat; target : nat; call : op; parent : option nat; ph : phase }.

Inductive msg := Request (a : nat) (o : op) (from : nat) | Reply (to : nat) (r : res).

Section Remote.
Context {L : Type} (method : op -> L -> option (L * res)).

(** An LCO with the locality where it is, and its pins. *)
Record block := mkBlock { owner : nat; pins : nat; lco : L }.

(** Threads are numbered in the order of their creation. *)
Record world := mkWorld { blocks : list block; threads : list thread; net : list msg }.

Implicit Types (w : world) (b : block) (t : thread).

Definition with_phase t (p : phase) : thread := mkThread t.(rank) t.(target) t.(call) t.(parent) p.
Definition pin b : block := mkBlock b.(owner) (S b.(pins)) b.(lco).
Definition unpin b : block := mkBlock b.(owner) (b.(pins) - 1) b.(lco).

Inductive label := Start (i : nat) | Method (i : nat) | Finish (i : nat) | Deliver (k r : nat) | Move (a r : nat).

(** The call, up to the method or the parcel. *)
Definition start w (i : nat) t b : world :=
  if (b.(owner) =? t.(rank))%nat
  then mkWorld (<[t.(target) := pin b]> w.(blocks)) (<[i := with_phase t Pinned]> w.(threads)) w.(net)
  else mkWorld w.(blocks) (<[i := with_phase t Waiting_]> w.(threads)) (w.(net) ++ [Request t.(target) (request t.(call)) i]).

(** A handler of a pinned action passes its result on; a call returns it. *)
Definition result t (r : res) : option res := match t.(parent) with Some _ => reply t.(call) r | None => Some r end.

Definition run_method w (i : nat) t b : option world :=
  '(l, r) ← method t.(call) b.(lco);
  r ← result t r;
  Some (mkWorld (<[t.(target) := mkBlock b.(owner) b.(pins) l]> w.(blocks)) (<[i := with_phase t (Completed true r)]> w.(threads)) w.(net)).

(** Releases the pin and sends the reply. *)
Definition finish w (i : nat) t b (p : bool) (r : res) : world :=
  mkWorld (if p then <[t.(target) := unpin b]> w.(blocks) else w.(blocks)) (<[i := with_phase t (Done r)]> w.(threads))
    (match t.(parent) with Some j => w.(net) ++ [Reply j r] | None => w.(net) end).

(** A request at locality [r]: a pinned action runs when the LCO is there and is sent on when
    not, a get is called there. *)
Definition deliver_request w (a : nat) (o : op) (from r : nat) b (ms : list msg) : world :=
  if pinned_action o then
    if (b.(owner) =? r)%nat then mkWorld (<[a := pin b]> w.(blocks)) (w.(threads) ++ [mkThread r a o (Some from) Pinned]) ms
    else w
  else mkWorld w.(blocks) (w.(threads) ++ [mkThread r a o (Some from) Calling]) ms.

Definition step w (x : label) : option world :=
  match x with
  | Start i =>
    t ← w.(threads) !! i;
    b ← w.(blocks) !! t.(target);
    match t.(ph) with Calling => Some (start w i t b) | _ => None end
  | Method i =>
    t ← w.(threads) !! i;
    b ← w.(blocks) !! t.(target);
    match t.(ph) with Pinned => run_method w i t b | _ => None end
  | Finish i =>
    t ← w.(threads) !! i;
    b ← w.(blocks) !! t.(target);
    match t.(ph) with Completed p r => Some (finish w i t b p r) | _ => None end
  | Deliver k r =>
    m ← w.(net) !! k;
    match m with
    | Request a o from => b ← w.(blocks) !! a; Some (deliver_request w a o from r b (delete k w.(net)))
    | Reply i v =>
      t ← w.(threads) !! i;
      match t.(ph) with
      | Waiting_ => Some (mkWorld w.(blocks) (<[i := with_phase t (Completed false v)]> w.(threads)) (delete k w.(net)))
      | _ => None
      end
    end
  | Move a r =>
    b ← w.(blocks) !! a;
    match b.(pins) with O => Some (mkWorld (<[a := mkBlock r 0 b.(lco)]> w.(blocks)) w.(threads) w.(net)) | _ => None end
  end.

Fixpoint run w (l : list label) : option world :=
  match l with [] => Some w | x :: l => w ← step w x; run w l end.

(** ** The order of the calls

    A call takes effect where its method runs; [order] lists the calls in that order. *)

Record entry := mkEntry { e_client : nat; e_target : nat; e_op : op; e_res : res }.

(** The methods of the entries for [a] take the LCO from [l] to [l'], with the results of the
    entries, or with what a handler passes on of them. *)
Fixpoint replay (a : nat) (order : list entry) (l l' : L) : Prop :=
  match order with
  | [] => l = l'
  | e :: order =>
    if (e.(e_target) =? a)%nat
    then exists l1 r, method e.(e_op) l = Some (l1, r) /\ (e.(e_res) = r \/ reply e.(e_op) r = Some e.(e_res)) /\ replay a order l1 l'
    else replay a order l l'
  end.

Lemma replay_snoc_eq order e l2 r : forall l l1, replay e.(e_target) order l l1 -> method e.(e_op) l1 = Some (l2, r) ->
  e.(e_res) = r \/ reply e.(e_op) r = Some e.(e_res) -> replay e.(e_target) (order ++ [e]) l l2.
Proof.
  induction order as [|e' order IH]; intros l l1 H Hm Hr; simpl in *.
  - subst. rewrite Nat.eqb_refl. by exists l2, r.
  - destruct (_ =? _)%nat; [|by eapply IH]. destruct H as (l3 & r3 & H1 & H2 & H3). exists l3, r3. split; [done|]. split; [done|]. by eapply IH.
Qed.

Lemma replay_snoc_ne a order e : e.(e_target) <> a -> forall l l1, replay a order l l1 -> replay a (order ++ [e]) l l1.
Proof.
  intros Hne. induction order as [|e' order IH]; intros l l1 H; simpl in *.
  - destruct (Nat.eqb_spec (e_target e) a); done.
  - destruct (_ =? a)%nat; [|by apply IH]. destruct H as (l3 & r3 & H1 & H2 & H3). exists l3, r3. split; [done|]. split; [done|]. by apply IH.
Qed.

(** ** Calls in progress

    Every thread and parcel works for a call; [roots] names it.  A call that is not done is at
    one place, with its result once it has taken effect. *)

Definition token : Type := nat * option res.

Definition tok_phase (c : nat) (p : phase) : list token :=
  match p with Calling | Pinned => [(c, None)] | Completed _ r => [(c, Some r)] | Waiting_ | Done _ => [] end.

Definition tok_thread (x : nat * thread) : list token := tok_phase x.1 x.2.(ph).

Definition position (m : msg) : nat := match m with Request _ _ i => i | Reply i _ => i end.

Definition tok_msg (roots : list nat) (m : msg) : list token :=
  match roots !! position m with
  | Some c => [(c, match m with Request _ _ _ => None | Reply _ r => Some r end)]
  | None => []
  end.

Definition tokens (roots : list nat) (ths : list thread) (ms : list msg) : list token :=
  concat (map tok_thread (zip roots ths)) ++ concat (map (tok_msg roots) ms).

Record tokens_ok (T : list token) (order : list entry) : Prop := {
  t_nodup : NoDup T.*1;
  t_pending c : (c, None) ∈ T -> c ∉ map e_client order;
  t_taken c r : (c, Some r) ∈ T -> exists e, e ∈ order /\ e.(e_client) = c /\ e.(e_res) = r;
  t_order : NoDup (map e_client order);
}.

Lemma tokens_ok_perm T T' order : T ≡ₚ T' -> tokens_ok T order -> tokens_ok T' order.
Proof. intros HT [H1 H2 H3 H4]. split; [by rewrite <- HT| | |done]; intros *; rewrite <- HT; auto. Qed.

(** A call takes effect. *)
Lemma tokens_ok_effect c e T order : e.(e_client) = c -> tokens_ok ((c, None) :: T) order -> tokens_ok ((c, Some e.(e_res)) :: T) (order ++ [e]).
Proof.
  intros He [H1 H2 H3 H4]. assert (Hc : c ∉ map e_client order) by (apply H2; by apply elem_of_cons; left). split; [done| | |].
  - intros c' Hc'. apply elem_of_cons in Hc' as [?|Hc']; [done|]. rewrite map_app, elem_of_app. intros [Hin|Hin].
    + by apply (H2 c'); [apply elem_of_cons; right|].
    + apply list_elem_of_singleton in Hin. rewrite He in Hin. subst c'. cbn [fmap list_fmap fst] in H1. apply NoDup_cons in H1 as [H1 _]. apply H1.
      apply list_elem_of_fmap. by exists (c, None).
  - intros c' r Hc'. apply elem_of_cons in Hc' as [[= -> ->]|Hc'].
    + exists e. rewrite elem_of_app. split; [right; by apply list_elem_of_singleton|done].
    + destruct (H3 c' r) as (e' & H & ?); [by apply elem_of_cons; right|]. exists e'. rewrite elem_of_app. auto.
  - rewrite map_app. apply NoDup_app. split; [done|]. split; [|apply NoDup_singleton]. intros x Hx Hin. apply list_elem_of_singleton in Hin. simpl in Hin. congruence.
Qed.

Lemma tokens_ok_drop x T order : tokens_ok (x :: T) order -> tokens_ok T order.
Proof.
  intros [H1 H2 H3 H4]. split; [by apply NoDup_cons in H1 as [_ ?]| | |done]; intros *; intros H; [apply H2|apply H3]; by apply elem_of_cons; right.
Qed.

Lemma zip_lookup {A B} (l : list A) (k : list B) i x y : l !! i = Some x -> k !! i = Some y -> zip l k !! i = Some (x, y).
Proof. intros Hx Hy. rewrite lookup_zip_with, Hx, Hy. done. Qed.

(** A thread's phase changes. *)
Lemma tokens_phase roots (ths : list thread) i t c p : ths !! i = Some t -> roots !! i = Some c ->
  concat (map tok_thread (zip roots (<[i := with_phase t p]> ths))) ++ tok_phase c t.(ph) ≡ₚ concat (map tok_thread (zip roots ths)) ++ tok_phase c p.
Proof.
  revert ths i. induction roots as [|c' roots IH]; intros [|t' ths] [|i] Ht Hc; simplify_eq/=.
  - unfold tok_thread at 1 3. simpl. solve_Permutation.
  - rewrite <- !app_assoc. apply Permutation_app_head. by apply IH.
Qed.

(** ** Who works for whom *)

Section Calls.
Variables (cs : list thread) (bs0 : list block).

(** A thread or a parcel of a call does what was called, or what the request of it asks for. *)
Definition acts_as (o called : op) : Prop := o = called \/ o = request called.

Lemma acts_as_request o called : acts_as o called -> acts_as (request o) called.
Proof. unfold acts_as. intros [->| ->]; right; [done|]. by destruct called. Qed.

Definition works_for (roots : list nat) (i a : nat) (o : op) : Prop :=
  exists c t, roots !! i = Some c /\ cs !! c = Some t /\ a = t.(target) /\ acts_as o t.(call).

Definition good_thread (roots : list nat) (i : nat) t : Prop :=
  works_for roots i t.(target) t.(call) /\ match t.(parent) with None => roots !! i = Some i | Some p => roots !! p = roots !! i /\ (p < i)%nat end.

Definition good_msg (roots : list nat) (m : msg) : Prop :=
  match m with Request a o i => works_for roots i a o | Reply i _ => is_Some (roots !! i) end.

Record structure (roots : list nat) (ths : list thread) (ms : list msg) : Prop := {
  w_length : length roots = length ths;
  w_thread i t : ths !! i = Some t -> good_thread roots i t;
  w_msg m : m ∈ ms -> good_msg roots m;
  w_clients i : is_Some (cs !! i) -> exists t, ths !! i = Some t /\ t.(parent) = None;
}.

Lemma structure_phase roots ths ms i t p : structure roots ths ms -> ths !! i = Some t -> structure roots (<[i := with_phase t p]> ths) ms.
Proof.
  intros [H1 H2 H3 H4] Ht. split; [by rewrite length_insert| |done|].
  - intros j u Hu. apply list_lookup_insert_Some in Hu as [(<- & <- & _)|[_ Hu]]; [exact (H2 i t Ht)|by apply H2].
  - intros j Hj. destruct (H4 j Hj) as (u & Hu & Hp). destruct (decide (i = j)) as [<-|Hne].
    + exists (with_phase t p). rewrite Ht in Hu. injection Hu as <-. rewrite list_lookup_insert_eq by (by eapply lookup_lt_Some). done.
    + exists u. by rewrite list_lookup_insert_ne.
Qed.

Lemma structure_send roots ths ms m : structure roots ths ms -> good_msg roots m -> structure roots ths (ms ++ [m]).
Proof. intros [H1 H2 H3 H4] Hm. split; try done. intros m'. rewrite elem_of_app, list_elem_of_singleton. intros [?| ->]; auto. Qed.

Lemma structure_delete roots ths ms k : structure roots ths ms -> structure roots ths (delete k ms).
Proof. intros [H1 H2 H3 H4]. split; try done. intros m Hm. apply H3. by eapply elem_of_delete. Qed.

Lemma structure_child roots ths ms i r a o p : structure roots ths ms -> works_for roots i a o ->
  exists c, roots !! i = Some c /\ structure (roots ++ [c]) (ths ++ [mkThread r a o (Some i) p]) ms.
Proof.
  intros [H1 H2 H3 H4] (c & t & Hc & Ht & -> & Ho). exists c. split; [done|].
  assert (Hk : forall j x, roots !! j = Some x -> (roots ++ [c]) !! j = Some x) by (intros; by apply lookup_app_l_Some).
  assert (Hw : forall j a o, works_for roots j a o -> works_for (roots ++ [c]) j a o) by (intros j a0 o0 (x & u & Hx & ?); exists x, u; auto).
  split.
  - rewrite !length_app. simpl. lia.
  - intros j u Hu. apply lookup_app_Some in Hu as [Hu|[Hj Hu]].
    + destruct (H2 j u Hu) as [Hg Hp]. split; [auto|]. destruct (parent u) as [q|]; [|auto]. destruct Hg as (x & _ & Hx & _). rewrite Hx in Hp. destruct Hp as [Hp ?]. by rewrite (Hk _ _ Hp), (Hk _ _ Hx).
    + apply list_lookup_singleton_Some in Hu as [Hj' <-]. assert (j = length roots) as -> by lia. rewrite <- H1 in *.
      assert (Hl : (roots ++ [c]) !! length roots = Some c) by (rewrite lookup_app_r, Nat.sub_diag by done; done).
      split; [by exists c, t|]. simpl. rewrite Hl, (Hk _ _ Hc). split; [done|]. by eapply lookup_lt_Some.
  - intros m Hm. specialize (H3 m Hm). destruct m as [a' o' j|j v]; simpl in *; [auto|]. destruct H3 as [x Hx]. eauto.
  - intros j Hj. destruct (H4 j Hj) as (u & Hu & ?). exists u. split; [|done]. by apply lookup_app_l_Some.
Qed.

(** ** The threads that wait for a reply *)

Inductive waits (ths : list thread) : nat -> Prop :=
| waits_client i t : ths !! i = Some t -> t.(ph) = Waiting_ -> t.(parent) = None -> waits ths i
| waits_child i t j : ths !! i = Some t -> t.(ph) = Waiting_ -> t.(parent) = Some j -> waits ths j -> waits ths i.

Lemma waits_waiting ths i : waits ths i -> exists t, ths !! i = Some t /\ t.(ph) = Waiting_.
Proof. destruct 1 as [i t|i t j]; by exists t. Qed.

(** Only an older thread of the same call can be in the way of a waiting one. *)
Lemma waits_change roots ths ms i t p : structure roots ths ms -> ths !! i = Some t -> forall j, waits ths j ->
  t.(ph) <> Waiting_ \/ roots !! i <> roots !! j \/ (j < i)%nat -> waits (<[i := with_phase t p]> ths) j.
Proof.
  intros HS Ht j Hj. induction Hj as [j u Hu Hp Hc|j u q Hu Hp Hc Hq IH]; intros Hne.
  - assert (i <> j) by (intros ->; rewrite Ht in Hu; injection Hu as <-; destruct Hne as [|[|]]; [done|done|lia]). apply waits_client with u; by rewrite ?list_lookup_insert_ne.
  - assert (i <> j) by (intros ->; rewrite Ht in Hu; injection Hu as <-; destruct Hne as [|[|]]; [done|done|lia]). apply waits_child with u q; rewrite ?list_lookup_insert_ne; try done.
    apply IH. destruct (w_thread _ _ _ HS j u Hu) as [_ Hr]. rewrite Hc in Hr. destruct Hr as [Hr Hlt]. rewrite Hr. destruct Hne as [?|[?|?]]; [by left|right; by left|right; right; lia].
Qed.

Lemma waits_app ths u j : waits ths j -> waits (ths ++ [u]) j.
Proof.
  induction 1 as [j t Ht Hp Hc|j t q Ht Hp Hc Hq IH]; [apply waits_client with t|apply waits_child with t q]; try done; by apply lookup_app_l_Some.
Qed.

(** A call whose thread is done has nobody waiting for it. *)
Lemma waits_root roots ths ms i c : structure roots ths ms -> waits ths i -> roots !! i = Some c -> exists t, ths !! c = Some t /\ t.(ph) = Waiting_.
Proof.
  intros HS. induction 1 as [i t Ht Hp Hc|i t q Ht Hp Hc Hq IH]; intros Hr; destruct (w_thread _ _ _ HS i t Ht) as [_ Hg]; rewrite Hc in Hg.
  - rewrite Hr in Hg. injection Hg as ->. by exists t.
  - apply IH. by rewrite (proj1 Hg).
Qed.

(** Where a call is, the threads above wait. *)
Record paths (ths : list thread) (ms : list msg) : Prop := {
  p_msg m : m ∈ ms -> waits ths (position m);
  p_thread i t j : ths !! i = Some t -> t.(parent) = Some j -> tok_phase 0 t.(ph) <> [] -> waits ths j;
}.

Lemma paths_change roots ths ms i t p : structure roots ths ms -> paths ths ms -> ths !! i = Some t -> tok_phase 0 t.(ph) <> [] -> paths (<[i := with_phase t p]> ths) ms.
Proof.
  intros HS [H1 H2] Ht Hp. assert (Hn : ph t <> Waiting_) by (intros E; by rewrite E in Hp).
  assert (Hc : forall j, waits ths j -> waits (<[i:=with_phase t p]> ths) j) by (intros j Hj; eapply waits_change; eauto). split; [auto|].
  intros j u q Hu. apply list_lookup_insert_Some in Hu as [(<- & <- & _)|[_ Hu]]; eauto.
Qed.

Lemma paths_send ths ms m : paths ths ms -> waits ths (position m) -> paths ths (ms ++ [m]).
Proof. intros [H1 H2] Hm. split; [|done]. intros m'. rewrite elem_of_app, list_elem_of_singleton. intros [?| ->]; auto. Qed.

Lemma paths_delete ths ms k : paths ths ms -> paths ths (delete k ms).
Proof. intros [H1 H2]. split; [|done]. intros m Hm. apply H1. by eapply elem_of_delete. Qed.

Lemma paths_child ths ms i r a o p : paths ths ms -> waits ths i -> paths (ths ++ [mkThread r a o (Some i) p]) ms.
Proof.
  intros [H1 H2] Hi. split; [intros m Hm; by apply waits_app, H1|]. intros j u q Hu Hq Hp. apply waits_app. apply lookup_app_Some in Hu as [Hu|[_ Hu]]; [by eapply H2|].
  apply list_lookup_singleton_Some in Hu as [_ <-]. simpl in Hq. by injection Hq as <-.
Qed.

Lemma elem_of_concat {A} (x : A) (l : list (list A)) : x ∈ concat l <-> exists y, x ∈ y /\ y ∈ l.
Proof.
  rewrite list_elem_of_In, in_concat. split; intros (y & H1 & H2); exists y; [rewrite !list_elem_of_In; tauto|]. apply list_elem_of_In in H1, H2. tauto.
Qed.

Lemma token_of_msg roots ths ms m c : m ∈ ms -> roots !! position m = Some c -> c ∈ (tokens roots ths ms).*1.
Proof.
  intros Hm Hc. apply list_elem_of_fmap. assert (Ht : exists x, (c, x) ∈ tok_msg roots m) by (unfold tok_msg; rewrite Hc; eexists; by apply list_elem_of_singleton).
  destruct Ht as [x Hx]. exists (c, x). split; [done|]. apply elem_of_app. right. apply elem_of_concat. exists (tok_msg roots m). split; [done|]. apply list_elem_of_fmap. by exists m.
Qed.

Lemma token_of_thread roots ths ms i t c : ths !! i = Some t -> roots !! i = Some c -> tok_phase 0 t.(ph) <> [] -> c ∈ (tokens roots ths ms).*1.
Proof.
  intros Ht Hc Hp. apply list_elem_of_fmap. assert (Hx : exists x, (c, x) ∈ tok_phase c (ph t)) by (destruct (ph t); try done; eexists; by apply list_elem_of_singleton).
  destruct Hx as [x Hx]. exists (c, x). split; [done|]. apply elem_of_app. left. apply elem_of_concat. exists (tok_phase c (ph t)). split; [done|].
  apply list_elem_of_fmap. exists (c, t). split; [done|]. eapply list_elem_of_lookup_2. by apply zip_lookup.
Qed.

Lemma tokens_delete roots ths ms k m : ms !! k = Some m -> tokens roots ths ms ≡ₚ tok_msg roots m ++ tokens roots ths (delete k ms).
Proof. intros Hk. unfold tokens. rewrite (delete_Permutation _ _ _ Hk) at 1. simpl. solve_Permutation. Qed.

(** The reply of a call is all there is of it. *)
Lemma paths_reply roots ths ms k i t v p : structure roots ths ms -> paths ths ms -> NoDup (tokens roots ths ms).*1 ->
  ms !! k = Some (Reply i v) -> ths !! i = Some t -> t.(ph) = Waiting_ -> paths (<[i := with_phase t p]> ths) (delete k ms).
Proof.
  intros HS HP Hnd Hk Ht Hw. pose proof (w_msg _ _ _ HS (Reply i v) (list_elem_of_lookup_2 _ _ _ Hk)) as [c Hc]. rewrite (tokens_delete _ _ _ _ _ Hk) in Hnd.
  unfold tok_msg in Hnd. cbn [position] in Hnd. rewrite Hc in Hnd. cbn [app fmap list_fmap fst] in Hnd. apply NoDup_cons in Hnd as [Hnot _]. split.
  - intros m Hm. eapply waits_change; [exact HS|done| |].
    + apply (p_msg _ _ HP). by eapply elem_of_delete.
    + right. left. rewrite Hc. intros E. apply Hnot. by eapply token_of_msg.
  - intros j u q Hu Hq Hp. apply list_lookup_insert_Some in Hu as [(<- & <- & _)|[Hne Hu]].
    + simpl in Hq. pose proof (p_msg _ _ HP (Reply i v) (list_elem_of_lookup_2 _ _ _ Hk)) as Hi. cbn [position] in Hi.
      inversion Hi as [i' t' Ht' _ Hn|i' t' q' Ht' _ Hq' Hwq]; subst; rewrite Ht in Ht'; injection Ht' as <-; [congruence|]. rewrite Hq in Hq'. injection Hq' as <-.
      eapply waits_change; [exact HS|done|done|]. right. right. destruct (w_thread _ _ _ HS i t Ht) as [_ Hg]. rewrite Hq in Hg. tauto.
    + eapply waits_change; [exact HS|done|by eapply (p_thread _ _ HP)|]. right. left. destruct (w_thread _ _ _ HS j u Hu) as [_ Hg]. rewrite Hq in Hg. rewrite (proj1 Hg), Hc.
      intros E. apply Hnot. by eapply token_of_thread.
Qed.

(** ** Pins *)

Definition holding (p : phase) : bool := match p with Pinned | Completed true _ => true | _ => false end.

Definition holds (a : nat) t : nat := if (t.(target) =? a)%nat && holding t.(ph) then 1 else 0.

(** An LCO has as many pins as threads hold it, and they are at its locality. *)
Record pins_ok (bs : list block) (ths : list thread) : Prop := {
  pin_count a b : bs !! a = Some b -> b.(pins) = sum_list_with (holds a) ths;
  pin_owner i t b : ths !! i = Some t -> bs !! t.(target) = Some b -> holding t.(ph) = true -> t.(rank) = b.(owner);
}.

Lemma sum_holds_phase a (ths : list thread) i t p : ths !! i = Some t ->
  (sum_list_with (holds a) (<[i := with_phase t p]> ths) + holds a t = sum_list_with (holds a) ths + holds a (with_phase t p))%nat.
Proof. revert i. induction ths as [|u ths IH]; intros [|i] Ht; simplify_eq/=; [lia|]. specialize (IH i Ht). lia. Qed.

Lemma sum_holds_app a (ths : list thread) u : sum_list_with (holds a) (ths ++ [u]) = (sum_list_with (holds a) ths + holds a u)%nat.
Proof. induction ths as [|t ths IH]; simpl; lia. Qed.

Lemma sum_holds_elem a (ths : list thread) i t : ths !! i = Some t -> (holds a t <= sum_list_with (holds a) ths)%nat.
Proof. revert i. induction ths as [|u ths IH]; intros [|i] Ht; simplify_eq/=; [lia|]. specialize (IH i Ht). lia. Qed.

Lemma pins_phase bs ths i t p : pins_ok bs ths -> ths !! i = Some t -> holding p = holding t.(ph) -> pins_ok bs (<[i := with_phase t p]> ths).
Proof.
  intros [H1 H2] Ht Hp. split.
  - intros a b Hb. pose proof (sum_holds_phase a ths i t p Ht) as Hs. rewrite (H1 a b Hb). unfold holds in Hs at 2 4. simpl in Hs. rewrite Hp in Hs. lia.
  - intros j u b Hu. apply list_lookup_insert_Some in Hu as [(<- & <- & _)|[_ Hu]]; [|by eapply H2]. simpl. rewrite Hp. by apply (H2 i t b).
Qed.

Lemma pins_pin bs ths i t p b : pins_ok bs ths -> ths !! i = Some t -> bs !! t.(target) = Some b -> holding t.(ph) = false -> holding p = true -> t.(rank) = b.(owner) ->
  pins_ok (<[t.(target) := pin b]> bs) (<[i := with_phase t p]> ths).
Proof.
  intros [H1 H2] Ht Hb Ho Hp Hr. split.
  - intros a b' Hb'. pose proof (sum_holds_phase a ths i t p Ht) as Hs. unfold holds in Hs at 2 4. simpl in Hs. rewrite Hp, Ho in Hs.
    apply list_lookup_insert_Some in Hb' as [(<- & <- & _)|[Hne Hb']]; simpl.
    + rewrite (H1 _ _ Hb). rewrite Nat.eqb_refl in Hs. simpl in Hs. lia.
    + rewrite (H1 _ _ Hb'). destruct (Nat.eqb_spec (target t) a); [done|]. simpl in Hs. lia.
  - assert (Hold : forall u c, <[t.(target) := pin b]> bs !! u = Some c -> exists c', bs !! u = Some c' /\ owner c' = owner c).
    { intros u c Hc. apply list_lookup_insert_Some in Hc as [(<- & <- & _)|[_ Hc]]; eauto. }
    intros j u c Hu Hc Hh. destruct (Hold _ _ Hc) as (c' & Hc' & <-). apply list_lookup_insert_Some in Hu as [(<- & <- & _)|[_ Hu]]; [|by apply (H2 j u c')].
    simpl in *. rewrite Hb in Hc'. by injection Hc' as <-.
Qed.

Lemma pins_unpin bs ths i t p b : pins_ok bs ths -> ths !! i = Some t -> bs !! t.(target) = Some b -> holding t.(ph) = true -> holding p = false ->
  pins_ok (<[t.(target) := unpin b]> bs) (<[i := with_phase t p]> ths).
Proof.
  intros [H1 H2] Ht Hb Ho Hp. split.
  - intros a b' Hb'. pose proof (sum_holds_phase a ths i t p Ht) as Hs. unfold holds in Hs at 2 4. simpl in Hs. rewrite Hp, Ho in Hs.
    apply list_lookup_insert_Some in Hb' as [(<- & <- & _)|[Hne Hb']]; simpl.
    + rewrite (H1 _ _ Hb). rewrite Nat.eqb_refl in Hs. simpl in Hs. lia.
    + rewrite (H1 _ _ Hb'). destruct (Nat.eqb_spec (target t) a); [done|]. simpl in Hs. lia.
  - intros j u c Hu Hc Hh. apply list_lookup_insert_Some in Hu as [(<- & <- & _)|[_ Hu]]; [simpl in Hh; congruence|].
    apply list_lookup_insert_Some in Hc as [(E & <- & _)|[_ Hc]]; [|by apply (H2 j u c)]. simpl. apply (H2 j u b); [done|by rewrite <- E|done].
Qed.

Lemma pins_app bs ths u : pins_ok bs ths -> holding u.(ph) = false -> pins_ok bs (ths ++ [u]).
Proof.
  intros [H1 H2] Hu. split.
  - intros a b Hb. rewrite sum_holds_app, (H1 a b Hb). unfold holds at 3. rewrite Hu, andb_false_r. lia.
  - intros j t b Ht. apply lookup_app_Some in Ht as [Ht|[_ Ht]]; [by eapply H2|]. apply list_lookup_singleton_Some in Ht as [_ <-]. congruence.
Qed.

Lemma pins_lco bs ths a b l : pins_ok bs ths -> bs !! a = Some b -> pins_ok (<[a := mkBlock b.(owner) b.(pins) l]> bs) ths.
Proof.
  intros [H1 H2] Hb. split.
  - intros a' b' Hb'. apply list_lookup_insert_Some in Hb' as [(<- & <- & _)|[_ Hb']]; [exact (H1 a b Hb)|auto].
  - intros i t c Ht Hc Hh. apply list_lookup_insert_Some in Hc as [(E & <- & _)|[_ Hc]]; [|by eapply H2]. simpl. apply (H2 i t b); [done|by rewrite <- E|done].
Qed.

(** Nobody holds an LCO that moves. *)
Lemma pins_move bs ths a b r : pins_ok bs ths -> bs !! a = Some b -> b.(pins) = 0%nat -> pins_ok (<[a := mkBlock r 0 b.(lco)]> bs) ths.
Proof.
  intros [H1 H2] Hb Hz. split.
  - intros a' b' Hb'. apply list_lookup_insert_Some in Hb' as [(<- & <- & _)|[_ Hb']]; [|auto]. simpl. by rewrite <- (H1 _ _ Hb).
  - intros i t c Ht Hc Hh. apply list_lookup_insert_Some in Hc as [(E & <- & _)|[_ Hc]]; [|by eapply H2]. pose proof (sum_holds_elem a ths i t Ht) as Hs.
    rewrite <- (H1 _ _ Hb), Hz in Hs. unfold holds in Hs. rewrite <- E, Nat.eqb_refl, Hh in Hs. simpl in Hs. lia.
Qed.

Lemma insert_last {A} (l : list A) x y : <[length l := y]> (l ++ [x]) = l ++ [y].
Proof. rewrite insert_app_r_alt, Nat.sub_diag by done. done. Qed.

Lemma pins_handler bs ths r a o j b : pins_ok bs ths -> bs !! a = Some b -> b.(owner) = r ->
  pins_ok (<[a := pin b]> bs) (ths ++ [mkThread r a o (Some j) Pinned]).
Proof.
  intros H Hb Hr. pose proof (pins_app bs ths (mkThread r a o (Some j) Calling) H eq_refl) as H'.
  rewrite <- (insert_last ths (mkThread r a o (Some j) Calling)).
  apply (pins_pin bs _ (length ths) (mkThread r a o (Some j) Calling) Pinned b H'); try done. by rewrite lookup_app_r, Nat.sub_diag.
Qed.

(** ** The invariant *)

Record inv (roots : list nat) (order : list entry) w : Prop := {
  i_structure : structure roots w.(threads) w.(net);
  i_paths : paths w.(threads) w.(net);
  i_tokens : tokens_ok (tokens roots w.(threads) w.(net)) order;
  i_entries e : e ∈ order -> exists t, cs !! e.(e_client) = Some t /\ e.(e_target) = t.(target) /\ acts_as e.(e_op) t.(call);
  i_done i t r : w.(threads) !! i = Some t -> t.(parent) = None -> t.(ph) = Done r -> exists e, e ∈ order /\ e.(e_client) = i /\ e.(e_res) = r;
  i_live i t : w.(threads) !! i = Some t -> t.(parent) = None -> (exists r, t.(ph) = Done r) \/ i ∈ (tokens roots w.(threads) w.(net)).*1;
  i_length : length w.(blocks) = length bs0;
  i_state a b0 b : bs0 !! a = Some b0 -> w.(blocks) !! a = Some b -> replay a order b0.(lco) b.(lco);
  i_pins : pins_ok w.(blocks) w.(threads);
}.

(** The calls of [ths'] are those of [ths], and as many are done. *)
Definition same_done (ths ths' : list thread) : Prop :=
  forall i t', ths' !! i = Some t' -> t'.(parent) = None -> exists t, ths !! i = Some t /\ t.(parent) = None /\ forall r, t'.(ph) = Done r <-> t.(ph) = Done r.

Lemma same_done_phase (ths : list thread) i t p : ths !! i = Some t -> (forall r, t.(ph) <> Done r) -> (t.(parent) = None -> forall r, p <> Done r) ->
  same_done ths (<[i := with_phase t p]> ths).
Proof.
  intros Ht Hn Hp j u Hu Hc. apply list_lookup_insert_Some in Hu as [(<- & <- & _)|[_ Hu]]; [|by exists u]. exists t. split; [done|]. split; [done|].
  intros r. simpl. split; intros E; [by apply Hp in E|by apply Hn in E].
Qed.

Lemma same_done_child (ths : list thread) r a o j p : same_done ths (ths ++ [mkThread r a o (Some j) p]).
Proof.
  intros i u Hu Hc. apply lookup_app_Some in Hu as [Hu|[_ Hu]]; [by exists u|]. by apply list_lookup_singleton_Some in Hu as [_ <-].
Qed.

(** Steps between the effects of calls. *)
Lemma inv_between roots order w roots' bs ths ms : inv roots order w -> structure roots' ths ms -> paths ths ms ->
  tokens roots w.(threads) w.(net) ≡ₚ tokens roots' ths ms -> same_done w.(threads) ths -> length bs = length w.(blocks) ->
  (forall a b, bs !! a = Some b -> exists b', w.(blocks) !! a = Some b' /\ b'.(lco) = b.(lco)) -> pins_ok bs ths ->
  inv roots' order (mkWorld bs ths ms).
Proof.
  intros [I1 I2 I3 I4 I5 I6 I7 I8 I9] HS HP HT HD Hl Hb Hpins. split; cbn [blocks threads net]; try done.
  - by eapply tokens_ok_perm.
  - intros i t r Ht Hc Hr. destruct (HD i t Ht Hc) as (u & Hu & Hcu & Hi). apply (I5 i u r); [done..|]. by apply Hi.
  - intros i t Ht Hc. destruct (HD i t Ht Hc) as (u & Hu & Hcu & Hi). rewrite <- HT. destruct (I6 i u Hu Hcu) as [[r Hr]|?]; [left; exists r; by apply Hi|by right].
  - by rewrite Hl.
  - intros a b0 b H0 Hab. destruct (Hb a b Hab) as (b' & Hb' & <-). by apply (I8 a).
Qed.

Lemma tokens_change roots (ths : list thread) ms i t c p : ths !! i = Some t -> roots !! i = Some c ->
  tokens roots (<[i := with_phase t p]> ths) ms ++ tok_phase c t.(ph) ≡ₚ tokens roots ths ms ++ tok_phase c p.
Proof.
  intros Ht Hc. pose proof (tokens_phase roots ths i t c p Ht Hc) as H. unfold tokens. rewrite <- !app_assoc, (Permutation_app_comm _ (tok_phase c (ph t))), app_assoc, H. solve_Permutation.
Qed.

Lemma tokens_send roots ths ms m : tokens roots ths (ms ++ [m]) ≡ₚ tokens roots ths ms ++ tok_msg roots m.
Proof. unfold tokens. by rewrite map_app, concat_app, <- app_assoc; simpl; rewrite app_nil_r. Qed.

Lemma tokens_child roots (ths : list thread) ms c u : structure roots ths ms -> tokens (roots ++ [c]) (ths ++ [u]) ms ≡ₚ tokens roots ths ms ++ tok_phase c u.(ph).
Proof.
  intros HS. unfold tokens. rewrite zip_with_app by apply (w_length _ _ _ HS). rewrite map_app, concat_app. simpl. rewrite app_nil_r. change (tok_thread (c, u)) with (tok_phase c (ph u)).
  assert (Hm : map (tok_msg (roots ++ [c])) ms = map (tok_msg roots) ms).
  { apply map_ext_in. intros m Hm. apply list_elem_of_In, (w_msg _ _ _ HS) in Hm. unfold tok_msg. destruct m as [a o j|j v]; cbn [position] in *.
    - destruct Hm as (x & _ & Hx & _). by rewrite (lookup_app_l_Some _ _ _ _ Hx), Hx.
    - destruct Hm as [x Hx]. by rewrite (lookup_app_l_Some _ _ _ _ Hx), Hx. }
  rewrite Hm. solve_Permutation.
Qed.

Lemma thread_root roots ths ms i t : structure roots ths ms -> ths !! i = Some t -> exists c t0, roots !! i = Some c /\ cs !! c = Some t0 /\ t.(target) = t0.(target) /\ acts_as t.(call) t0.(call).
Proof. intros HS Ht. destruct (w_thread _ _ _ HS i t Ht) as [(c & t0 & H) _]. by exists c, t0. Qed.

Lemma insert_kept (bs : list block) a b b' : bs !! a = Some b -> b'.(lco) = b.(lco) -> forall x y, <[a := b']> bs !! x = Some y -> exists z, bs !! x = Some z /\ z.(lco) = y.(lco).
Proof. intros Hb Hl x y Hy. apply list_lookup_insert_Some in Hy as [(<- & <- & _)|[_ Hy]]; eauto. Qed.

Lemma inv_start roots order w i t b : inv roots order w -> w.(threads) !! i = Some t -> w.(blocks) !! t.(target) = Some b -> t.(ph) = Calling ->
  inv roots order (start w i t b).
Proof.
  intros I Ht Hb Hp. pose proof I as [I1 I2 I3 I4 I5 I6 I7 I8 I9]. destruct (thread_root _ _ _ _ _ I1 Ht) as (c & t0 & Hc & Hcs & Ha & Ho).
  unfold start. destruct (Nat.eqb_spec (owner b) (rank t)) as [He|He].
  - eapply inv_between; [exact I|by apply structure_phase|eapply paths_change; try done; by rewrite Hp| |apply same_done_phase; [done|by rewrite Hp|done]|by rewrite length_insert| |].
    + pose proof (tokens_change roots (threads w) (net w) i t c Pinned Ht Hc) as H. rewrite Hp in H. by apply Permutation_app_inv_r in H.
    + by eapply insert_kept.
    + by apply pins_pin; rewrite ?Hp.
  - eapply inv_between; [exact I| | | |apply same_done_phase; [done|by rewrite Hp|done]|done|by eauto|by apply pins_phase; rewrite ?Hp].
    + apply structure_send; [by apply structure_phase|]. exists c, t0. rewrite Ha. split; [done|]. split; [done|]. split; [done|]. by apply acts_as_request.
    + apply paths_send; [eapply paths_change; try done; by rewrite Hp|]. cbn [position].
      assert (Hi : <[i:=with_phase t Waiting_]> (threads w) !! i = Some (with_phase t Waiting_)) by (rewrite list_lookup_insert_eq; [done|by eapply lookup_lt_Some]).
      destruct (parent t) as [q|] eqn:Hq; [|by eapply waits_client]. eapply waits_child; [exact Hi|done|exact Hq|].
      eapply waits_change; [exact I1|done| |left; by rewrite Hp]. eapply (p_thread _ _ I2); [exact Ht|done|by rewrite Hp].
    + rewrite tokens_send. pose proof (tokens_change roots (threads w) (net w) i t c Waiting_ Ht Hc) as H. rewrite Hp in H. cbn [tok_phase] in H. rewrite app_nil_r in H.
      unfold tok_msg. cbn [position]. by rewrite Hc, H.
Qed.

Lemma remote_finish roots order w i t b p r : inv roots order w -> w.(threads) !! i = Some t -> w.(blocks) !! t.(target) = Some b -> t.(ph) = Completed p r ->
  inv roots order (finish w i t b p r).
Proof.
  intros I Ht Hb Hp. pose proof I as [I1 I2 I3 I4 I5 I6 I7 I8 I9]. destruct (thread_root _ _ _ _ _ I1 Ht) as (c & t0 & Hc & Hcs & Ha & Ho).
  pose proof (tokens_change roots (threads w) (net w) i t c (Done r) Ht Hc) as HT. rewrite Hp in HT. cbn [tok_phase] in HT. rewrite app_nil_r in HT.
  assert (Hlen : length (if p then <[target t:=unpin b]> (blocks w) else blocks w) = length (blocks w)) by (destruct p; [apply length_insert|done]).
  assert (Hkept : forall x y, (if p then <[target t:=unpin b]> (blocks w) else blocks w) !! x = Some y -> exists z, blocks w !! x = Some z /\ lco z = lco y)
    by (destruct p; [by eapply insert_kept|eauto]).
  assert (Hpins : pins_ok (if p then <[target t:=unpin b]> (blocks w) else blocks w) (<[i:=with_phase t (Done r)]> (threads w))).
  { destruct p; [apply pins_unpin|apply pins_phase]; try done; by rewrite Hp. }
  unfold finish. destruct (parent t) as [j|] eqn:Hq.
  - eapply inv_between; [exact I| | | |apply same_done_phase; [done|by rewrite Hp|by rewrite Hq]|done|done|done].
    + apply structure_send; [by apply structure_phase|]. destruct (w_thread _ _ _ I1 i t Ht) as [_ Hg]. rewrite Hq in Hg. simpl. rewrite (proj1 Hg). by eexists.
    + apply paths_send; [eapply paths_change; try done; by rewrite Hp|]. cbn [position]. eapply waits_change; [exact I1|done| |left; by rewrite Hp].
      eapply (p_thread _ _ I2); [exact Ht|done|by rewrite Hp].
    + rewrite tokens_send, <- HT. destruct (w_thread _ _ _ I1 i t Ht) as [_ Hg]. rewrite Hq in Hg. unfold tok_msg. cbn [position]. by rewrite (proj1 Hg), Hc.
  - destruct (w_thread _ _ _ I1 i t Ht) as [_ Hg]. rewrite Hq, Hc in Hg. injection Hg as ->.
    assert (HT' : (i, Some r) :: tokens roots (<[i:=with_phase t (Done r)]> (threads w)) (net w) ≡ₚ tokens roots (threads w) (net w)) by (rewrite <- HT; solve_Permutation).
    split; cbn [blocks threads net]; try done.
    + by apply structure_phase.
    + eapply paths_change; try done; by rewrite Hp.
    + eapply tokens_ok_drop. eapply tokens_ok_perm; [symmetry; exact HT'|done].
    + intros j u v Hu Hcu Hv. apply list_lookup_insert_Some in Hu as [(<- & <- & _)|[_ Hu]]; [|by apply (I5 j u v)]. simpl in Hv. injection Hv as <-.
      apply (t_taken _ _ I3). rewrite <- HT'. by apply elem_of_cons; left.
    + intros j u Hu Hcu. apply list_lookup_insert_Some in Hu as [(<- & <- & _)|[Hne Hu]]; [left; by eexists|]. destruct (I6 j u Hu Hcu) as [?|Hj]; [by left|right].
      rewrite <- HT' in Hj. cbn [fmap list_fmap fst] in Hj. apply elem_of_cons in Hj as [->|?]; done.
    + by rewrite Hlen.
    + intros a b0 b' H0 Hb'. destruct (Hkept a b' Hb') as (z & Hz & <-). by apply (I8 a).
Qed.

Lemma inv_method roots order w i t b w' : inv roots order w -> w.(threads) !! i = Some t -> w.(blocks) !! t.(target) = Some b -> t.(ph) = Pinned ->
  run_method w i t b = Some w' -> exists e, inv roots (order ++ [e]) w'.
Proof.
  intros I Ht Hb Hp E. pose proof I as [I1 I2 I3 I4 I5 I6 I7 I8 I9]. destruct (thread_root _ _ _ _ _ I1 Ht) as (c & t0 & Hc & Hcs & Ha & Ho).
  unfold run_method in E. destruct (method (call t) (lco b)) as [[l r0]|] eqn:Hm; [|done]. cbn [mbind option_bind] in E. destruct (result t r0) as [r|] eqn:Hr; [|done].
  cbn [mbind option_bind] in E. injection E as <-. set (e := mkEntry c (target t) (call t) r). exists e.
  pose proof (tokens_change roots (threads w) (net w) i t c (Completed true r) Ht Hc) as HT. rewrite Hp in HT. cbn [tok_phase] in HT.
  assert (Hin : (c, None) ∈ tokens roots (threads w) (net w)).
  { assert (H : (c, None) ∈ tokens roots (threads w) (net w) ++ [(c, Some r)]) by (rewrite <- HT; apply elem_of_app; right; by apply list_elem_of_singleton).
    apply elem_of_app in H as [H|H]; [done|]. by apply list_elem_of_singleton in H. }
  apply elem_of_Permutation in Hin as [T0 HT0].
  assert (HT' : (c, Some r) :: T0 ≡ₚ tokens roots (<[i:=with_phase t (Completed true r)]> (threads w)) (net w)).
  { apply Permutation_app_inv_r with [(c, None)]. rewrite HT, HT0. solve_Permutation. }
  assert (Hok : tokens_ok ((c, Some r) :: T0) (order ++ [e])) by (apply (tokens_ok_effect c e); [done|]; by eapply tokens_ok_perm).
  split; cbn [blocks threads net]; try done.
  - by apply structure_phase.
  - eapply paths_change; try done; by rewrite Hp.
  - by eapply tokens_ok_perm.
  - intros e'. rewrite elem_of_app, list_elem_of_singleton. intros [?| ->]; [auto|]. by exists t0.
  - intros j u v Hu Hcu Hv. apply list_lookup_insert_Some in Hu as [(<- & <- & _)|[_ Hu]]; [done|]. destruct (I5 j u v Hu Hcu Hv) as (e' & ? & ?). exists e'. rewrite elem_of_app. auto.
  - intros j u Hu Hcu. rewrite <- HT'. apply list_lookup_insert_Some in Hu as [(<- & <- & _)|[_ Hu]].
    + right. destruct (I6 i t Ht Hcu) as [[v Hv]|Hj]; [by rewrite Hp in Hv|]. by rewrite HT0 in Hj.
    + destruct (I6 j u Hu Hcu) as [?|Hj]; [by left|right]. by rewrite HT0 in Hj.
  - by rewrite length_insert.
  - intros a b0 b' H0 Hb'. apply list_lookup_insert_Some in Hb' as [(<- & <- & _)|[Hne Hb']].
    + change (target t) with (e_target e). eapply replay_snoc_eq; [by apply (I8 _ _ b)|exact Hm|]. unfold result in Hr. cbn [e e_res e_op]. destruct (parent t); [by right|left; congruence].
    + apply replay_snoc_ne; [exact Hne|]. by apply (I8 a).
  - apply pins_lco; [|done]. apply pins_phase; [done|done|by rewrite Hp].
Qed.

Lemma inv_request roots order w k a o j r b : inv roots order w -> w.(net) !! k = Some (Request a o j) -> w.(blocks) !! a = Some b ->
  exists roots', inv roots' order (deliver_request w a o j r b (delete k w.(net))).
Proof.
  intros I Hk Hb. pose proof I as [I1 I2 I3 I4 I5 I6 I7 I8 I9]. pose proof (list_elem_of_lookup_2 _ _ _ Hk) as Hm. pose proof (w_msg _ _ _ I1 _ Hm) as Hw. cbn [good_msg] in Hw.
  pose proof (p_msg _ _ I2 _ Hm) as Hwait. cbn [position] in Hwait.
  assert (Hnew : forall bs p, tok_phase 0 p = [(0%nat, None)] -> length bs = length (blocks w) ->
    (forall x y, bs !! x = Some y -> exists z, blocks w !! x = Some z /\ lco z = lco y) -> pins_ok bs (threads w ++ [mkThread r a o (Some j) p]) ->
    exists roots', inv roots' order (mkWorld bs (threads w ++ [mkThread r a o (Some j) p]) (delete k (net w)))).
  { intros bs p Hp Hl Hkept Hpins. destruct (structure_child _ _ _ j r a o p (structure_delete _ _ _ k I1) Hw) as (c & Hc & HS). exists (roots ++ [c]).
    eapply inv_between; [exact I|exact HS|by apply paths_child, Hwait; apply paths_delete| |apply same_done_child|done|done|done].
    rewrite tokens_child by (by apply structure_delete). rewrite (tokens_delete _ _ _ _ _ Hk). unfold tok_msg. cbn [position]. rewrite Hc.
    assert (Hp' : tok_phase c p = [(c, None)]) by (by destruct p). cbn [ph]. rewrite Hp'. solve_Permutation. }
  unfold deliver_request. destruct (pinned_action o); [|by apply Hnew; [..|apply pins_app]; eauto].
  destruct (Nat.eqb_spec (owner b) r) as [He|He]; [|by exists roots]. apply Hnew; [done|by rewrite length_insert|by eapply insert_kept|by apply pins_handler].
Qed.

Lemma inv_reply roots order w k i v t : inv roots order w -> w.(net) !! k = Some (Reply i v) -> w.(threads) !! i = Some t -> t.(ph) = Waiting_ ->
  inv roots order (mkWorld w.(blocks) (<[i := with_phase t (Completed false v)]> w.(threads)) (delete k w.(net))).
Proof.
  intros I Hk Ht Hp. pose proof I as [I1 I2 I3 I4 I5 I6 I7 I8 I9]. destruct (thread_root _ _ _ _ _ I1 Ht) as (c & t0 & Hc & _).
  eapply inv_between; [exact I|by apply structure_delete, structure_phase|eapply paths_reply; try done; apply (t_nodup _ _ I3)| |apply same_done_phase; [done|by rewrite Hp|done]|done|by eauto|by apply pins_phase; rewrite ?Hp].
  pose proof (tokens_change roots (threads w) (delete k (net w)) i t c (Completed false v) Ht Hc) as HT. rewrite Hp in HT. cbn [tok_phase] in HT. rewrite app_nil_r in HT.
  rewrite HT, (tokens_delete _ _ _ _ _ Hk). unfold tok_msg. cbn [position]. rewrite Hc. solve_Permutation.
Qed.

Lemma remote_step roots order w x w' : inv roots order w -> step w x = Some w' -> exists roots' order', inv roots' order' w'.
Proof.
  intros I E. destruct x as [i|i|i|k r|a r]; cbn [step] in E.
  - destruct (threads w !! i) as [t|] eqn:Ht; [|done]. cbn [mbind option_bind] in E. destruct (blocks w !! target t) as [b|] eqn:Hb; [|done]. cbn [mbind option_bind] in E.
    destruct (ph t) eqn:Hp; try done. injection E as <-. exists roots, order. by apply inv_start.
  - destruct (threads w !! i) as [t|] eqn:Ht; [|done]. cbn [mbind option_bind] in E. destruct (blocks w !! target t) as [b|] eqn:Hb; [|done]. cbn [mbind option_bind] in E.
    destruct (ph t) eqn:Hp; try done. destruct (inv_method _ _ _ _ _ _ _ I Ht Hb Hp E) as [e ?]. by exists roots, (order ++ [e]).
  - destruct (threads w !! i) as [t|] eqn:Ht; [|done]. cbn [mbind option_bind] in E. destruct (blocks w !! target t) as [b|] eqn:Hb; [|done]. cbn [mbind option_bind] in E.
    destruct (ph t) as [| | |p v|v] eqn:Hp; try done. injection E as <-. exists roots, order. by apply remote_finish.
  - destruct (net w !! k) as [[a o j|i v]|] eqn:Hk; [| |done]; cbn [mbind option_bind] in E.
    + destruct (blocks w !! a) as [b|] eqn:Hb; [|done]. cbn [mbind option_bind] in E. injection E as <-. destruct (inv_request _ _ _ _ _ _ _ r _ I Hk Hb) as [roots' ?].
      by exists roots', order.
    + destruct (threads w !! i) as [t|] eqn:Ht; [|done]. cbn [mbind option_bind] in E. destruct (ph t) eqn:Hp; try done. injection E as <-. exists roots, order. by apply inv_reply.
  - destruct (blocks w !! a) as [b|] eqn:Hb; [|done]. cbn [mbind option_bind] in E. destruct (pins b) eqn:Hz; [|done]. injection E as <-. exists roots, order.
    pose proof I as [I1 I2 I3 I4 I5 I6 I7 I8 I9]. eapply inv_between; [exact I|done|done|done| |by rewrite length_insert|by eapply insert_kept|by apply pins_move].
    intros i t Ht Hc. by exists t.
Qed.

(** ** The calls begin *)

Hypothesis cs_begin : forall i t, cs !! i = Some t -> t.(ph) = Calling /\ t.(parent) = None /\ (t.(target) < length bs0)%nat.
Hypothesis bs_begin : forall a b, bs0 !! a = Some b -> b.(pins) = 0%nat.

Lemma begin_tokens k (l : list thread) : (forall i t, l !! i = Some t -> t.(ph) = Calling) ->
  concat (map tok_thread (zip (seq k (length l)) l)) = map (fun c => (c, None)) (seq k (length l)).
Proof.
  revert k. induction l as [|t l IH]; intros k H; [done|]. simpl. unfold tok_thread at 1. simpl. rewrite (H 0%nat t eq_refl). simpl. f_equal. apply IH. intros i u Hu. by apply (H (S i)).
Qed.

Lemma inv_begin : inv (seq 0 (length cs)) [] (mkWorld bs0 cs []).
Proof.
  assert (Hroot : forall i t, cs !! i = Some t -> seq 0 (length cs) !! i = Some i) by (intros i t Ht; apply lookup_seq_lt; by eapply lookup_lt_Some).
  assert (HT : tokens (seq 0 (length cs)) cs [] = map (fun c => (c, None)) (seq 0 (length cs))).
  { unfold tokens. rewrite begin_tokens by (intros i t Ht; apply (cs_begin i t Ht)). by rewrite app_nil_r. }
  assert (Hfst : (tokens (seq 0 (length cs)) cs []).*1 = seq 0 (length cs)) by (rewrite HT, <- list_fmap_compose; apply list_fmap_id).
  split; cbn [blocks threads net]; try done.
  - split; [by rewrite length_seq| |by intros m Hm; apply elem_of_nil in Hm|].
    + intros i t Ht. destruct (cs_begin i t Ht) as (_ & Hc & _). split; [exists i, t; rewrite (Hroot i t Ht); split; [done|]; split; [done|]; split; [done|]; by left|]. rewrite Hc. by eapply Hroot.
    + intros i [t Ht]. exists t. split; [done|]. by apply (cs_begin i).
  - split; [by intros m Hm; apply elem_of_nil in Hm|]. intros i t j Ht Hj. destruct (cs_begin i t Ht) as (_ & Hc & _). congruence.
  - split; [rewrite Hfst; apply NoDup_seq|intros c _; apply not_elem_of_nil| |apply NoDup_nil_2]. intros c r Hin. rewrite HT in Hin. by apply list_elem_of_fmap in Hin as (x & [=] & _).
  - by intros e He; apply elem_of_nil in He.
  - intros i t r Ht _ Hd. destruct (cs_begin i t Ht) as (Hc & _). congruence.
  - intros i t Ht _. right. rewrite Hfst. apply elem_of_seq. apply lookup_lt_Some in Ht. lia.
  - intros a b0 b H0 Hb. rewrite H0 in Hb. by injection Hb as <-.
  - assert (Hz : forall a (l : list thread), (forall i t, l !! i = Some t -> t.(ph) = Calling) -> sum_list_with (holds a) l = 0%nat).
    { intros a l. induction l as [|t l IH]; intros H; [done|]. simpl. rewrite IH by (intros i; apply (H (S i))). unfold holds. rewrite (H 0%nat t eq_refl). simpl. by rewrite andb_false_r. }
    split.
    + intros a b Hb. rewrite (bs_begin a b Hb). symmetry. apply Hz. intros i t Ht. by apply (cs_begin i).
    + intros i t b Ht _ Hh. destruct (cs_begin i t Ht) as (Hc & _). by rewrite Hc in Hh.
Qed.

Lemma inv_run roots order l : forall w w', inv roots order w -> run w l = Some w' -> exists roots' order', inv roots' order' w'.
Proof.
  revert roots order. induction l as [|x l IH]; intros roots order w w' I E; cbn [run] in E; [injection E as <-; by exists roots, order|].
  destruct (step w x) as [w1|] eqn:E1; [|done]. cbn [mbind option_bind] in E. destruct (remote_step _ _ _ _ _ I E1) as (roots1 & order1 & I1). by eapply IH.
Qed.

(** A step of a call, with its parcels delivered where the LCO is. *)
Definition serves w (x : label) : Prop :=
  match x with
  | Move _ _ => False
  | Deliver k r => match w.(net) !! k with Some (Request a _ _) => exists b, w.(blocks) !! a = Some b /\ b.(owner) = r | _ => True end
  | _ => True
  end.

Lemma target_block roots order w i a o : inv roots order w -> works_for roots i a o -> exists b, w.(blocks) !! a = Some b.
Proof.
  intros I (c & t & _ & Ht & -> & _). apply lookup_lt_is_Some. rewrite (i_length _ _ _ I). by apply (cs_begin c t Ht).
Qed.

(** What stops a method that is to run: it has to wait, or it ran in a handler that ends the
    program because it does not pass the error on. *)
Definition stopped (u : thread) (b : block) : Prop :=
  method u.(call) b.(lco) = None
  \/ exists j l r, u.(parent) = Some j /\ method u.(call) b.(lco) = Some (l, r) /\ reply u.(call) r = None.

Lemma run_method_stopped w j u b : run_method w j u b = None -> stopped u b.
Proof.
  unfold run_method, stopped, result. destruct (method (call u) (lco b)) as [[l r]|]; [|by left]. cbn [mbind option_bind].
  destruct (parent u) as [q|]; [|done]. destruct (reply (call u) r) eqn:E; [done|]. intros _. right. by exists q, l, r.
Qed.

(** A call that is not done has a step, unless its method has to wait, or ends the program. *)
Lemma inv_progress roots order w i t : inv roots order w -> w.(threads) !! i = Some t -> t.(parent) = None -> (forall r, t.(ph) <> Done r) ->
  (exists x w', serves w x /\ step w x = Some w')
  \/ exists j u b, w.(threads) !! j = Some u /\ u.(ph) = Pinned /\ w.(blocks) !! u.(target) = Some b /\ stopped u b.
Proof.
  intros I Ht Hc Hn. destruct (i_live _ _ _ I i t Ht Hc) as [[r Hr]|Hin]; [by apply Hn in Hr|]. apply list_elem_of_fmap in Hin as ([c x] & -> & Hin). simpl in *. clear Hn.
  apply elem_of_app in Hin as [Hin|Hin]; apply elem_of_concat in Hin as (y & Hy & Hin); apply list_elem_of_fmap in Hin as (z & -> & Hz).
  - apply list_elem_of_lookup in Hz as [j Hz]. destruct z as [c' u]. rewrite lookup_zip_with in Hz. destruct (roots !! j) as [c1|] eqn:Hr; [|done]. destruct (threads w !! j) as [u1|] eqn:Hu; [|done].
    simpl in Hz. injection Hz as -> ->. destruct (w_thread _ _ _ (i_structure _ _ _ I) j u Hu) as [Hw _]. destruct (target_block _ _ _ _ _ _ I Hw) as [b Hb].
    unfold tok_thread in Hy. simpl in Hy. destruct (ph u) as [| | |p v|v] eqn:Hp; try (by apply elem_of_nil in Hy).
    + left. exists (Start j). cbn [step]. rewrite Hu. cbn [mbind option_bind]. rewrite Hb. cbn [mbind option_bind]. rewrite Hp. by eexists.
    + destruct (run_method w j u b) as [w'|] eqn:Hm; [|right; exists j, u, b; by eauto using run_method_stopped]. left. exists (Method j), w'. cbn [step]. rewrite Hu. cbn [mbind option_bind]. rewrite Hb. cbn [mbind option_bind]. by rewrite Hp.
    + left. exists (Finish j). cbn [step]. rewrite Hu. cbn [mbind option_bind]. rewrite Hb. cbn [mbind option_bind]. rewrite Hp. by eexists.
  - left. pose proof (w_msg _ _ _ (i_structure _ _ _ I) _ Hz) as Hg. pose proof (p_msg _ _ (i_paths _ _ _ I) _ Hz) as Hwait. apply list_elem_of_lookup in Hz as [k Hk].
    destruct z as [a o j|j v]; cbn [good_msg position] in *.
    + destruct (target_block _ _ _ _ _ _ I Hg) as [b Hb]. exists (Deliver k (owner b)). cbn [step serves]. rewrite Hk. cbn [mbind option_bind]. rewrite Hb. eexists. split; [by exists b|done].
    + destruct (waits_waiting _ _ Hwait) as (u & Hu & Hp). exists (Deliver k 0). cbn [step serves]. rewrite Hk. cbn [mbind option_bind]. rewrite Hu. cbn [mbind option_bind]. rewrite Hp. by eexists.
Qed.

(** When every call is done nothing is left. *)
Lemma inv_end roots order w : inv roots order w -> (forall i t, w.(threads) !! i = Some t -> t.(parent) = None -> exists r, t.(ph) = Done r) ->
  w.(net) = [] /\ forall a b, w.(blocks) !! a = Some b -> b.(pins) = 0%nat.
Proof.
  intros I Hall. pose proof (i_structure _ _ _ I) as HS.
  assert (Hno : forall j, ~ waits (threads w) j).
  { intros j Hj. destruct (waits_waiting _ _ Hj) as (t & Ht & _). destruct (thread_root _ _ _ _ _ HS Ht) as (c & t0 & Hc & Hcs & _).
    destruct (waits_root _ _ _ _ _ HS Hj Hc) as (u & Hu & Hp). destruct (w_clients _ _ _ HS c (ltac:(by eexists))) as (u' & Hu' & Hpc).
    rewrite Hu in Hu'. injection Hu' as <-. destruct (Hall c u Hu Hpc) as [r Hr]. congruence. }
  split.
  - destruct (net w) as [|m ms] eqn:Hm; [done|]. destruct (Hno (position m)). apply (p_msg _ _ (i_paths _ _ _ I)). rewrite Hm. by apply elem_of_cons; left.
  - intros a b Hb. rewrite (pin_count _ _ (i_pins _ _ _ I) a b Hb).
    assert (Hz : forall i t, threads w !! i = Some t -> holds a t = 0%nat).
    { intros i t Ht. unfold holds. destruct (holding (ph t)) eqn:Hh; [|by rewrite andb_false_r]. exfalso. destruct (parent t) as [j|] eqn:Hj.
      - apply (Hno j). eapply (p_thread _ _ (i_paths _ _ _ I)); [exact Ht|done|]. by destruct (ph t).
      - destruct (Hall i t Ht Hj) as [r Hr]. by rewrite Hr in Hh. }
    clear -Hz. induction (threads w) as [|t l IH]; [done|]. simpl. rewrite (Hz 0%nat t eq_refl). apply IH. intros i u Hu. by apply (Hz (S i)).
Qed.

End Calls.

End Remote.

(** ** Witness: two inputs to a reduction and its reader, at two localities *)

(** The methods of a reduction. *)
Definition reduce_method (o : op) (l : Reduce) : option (Reduce * res) :=
  let call := match o with
    | Wait reset => CallGet 0 reset
    | Get n reset => CallGet n reset
    | Set_ v => CallSet v
    | Error code => CallError code
    | Reset => CallReset
    end in
  '(l, _, n) ← reduce_segment sum_op sum_id call 0 l;
  match n with
  | Return (SetResult r) => Some (l, (r, []))
  | Return (GetResult status _ out) => Some (l, (status, out))
  | Return _ => Some (l, (HPX_SUCCESS, []))
  | _ => None
  end.

Definition demo_calls : list thread :=
  [mkThread 0 0 (Set_ [4]) None Calling; mkThread 1 0 (Set_ [5]) None Calling; mkThread 0 0 (Get 1 false) None Calling].

Definition demo_blocks : list block := [mkBlock 1 0 (new sum_id 2 [9])].

(** The LCO moves before the requests arrive. *)
Definition demo_steps : list label :=
  [Start 0; Start 2; Start 1; Method 1; Finish 1; Move 0 2; Deliver 0 1; Deliver 1 1; Start 3; Deliver 0 2; Method 4; Finish 4;
   Deliver 0 2; Start 5; Method 5; Finish 5; Deliver 0 0; Finish 0; Deliver 0 1; Finish 3; Deliver 0 0; Finish 2].

Definition demo_world : world := default (mkWorld demo_blocks demo_calls []) (run reduce_method (mkWorld demo_blocks demo_calls []) demo_steps).

Lemma demo_remote_runs : run reduce_method (mkWorld demo_blocks demo_calls []) demo_steps = Some demo_world.
Proof. vm_compute. reflexivity. Qed.

Lemma demo_begin i t : demo_calls !! i = Some t -> t.(ph) = Calling /\ t.(parent) = None /\ (t.(target) < length demo_blocks)%nat.
Proof. intros H. destruct i as [|[|[|i]]]; simplify_eq/=; repeat split; lia. Qed.

Lemma demo_unpinned a b : demo_blocks !! a = Some b -> b.(pins) = 0%nat.
Proof. intros H. by destruct a; simplify_eq/=. Qed.

