(* ===== verification/Copies.v ===== *)
(** * Copies in memory that do not race

    What the protocols that copy bytes between localities share: memory by locality and address,
    and copies of which none writes what another reads or writes.  In whatever order such copies
    read and write, each brings the bytes that were at its source in the beginning. *)

From S2P Require Import Prelude.

(** A byte's address: the memory it is in, and the address there. *)
Definition loc : Type := nat * Z.

Definition memory : Type := loc -> Z.

Definition read (m : memory) (l : loc) (n : nat) : list Z := map (fun i => m (l.1, l.2 + Z.of_nat i)) (seq 0 n).

Definition in_range (l : loc) (n : nat) (x : loc) : bool := (x.1 =? l.1)%nat && (l.2 <=? x.2) && (x.2 <? l.2 + Z.of_nat n).

(** [std::copy] *)
Definition copy_to (m : memory) (l : loc) (bs : list Z) : memory :=
  fun x => if in_range l (length bs) x then default 0 (bs !! Z.to_nat (x.2 - l.2)) else m x.

(** ** Reading and writing *)

Lemma read_length m l n : length (read m l n) = n.
Proof. unfold read. by rewrite length_map, length_seq. Qed.

Lemma read_lookup m l n i : (i < n)%nat -> read m l n !! i = Some (m (l.1, l.2 + Z.of_nat i)).
Proof. intros H. unfold read. rewrite list_lookup_fmap, lookup_seq_lt by done. done. Qed.

Lemma in_range_spec l n x : in_range l n x = true <-> exists i, (i < n)%nat /\ x = (l.1, l.2 + Z.of_nat i).
Proof.
  unfold in_range. rewrite !andb_true_iff, Nat.eqb_eq, Z.leb_le, Z.ltb_lt. destruct x as [s a], l as [s' a']. simpl. split.
  - intros [[-> H1] H2]. exists (Z.to_nat (a - a')). split; [lia|]. f_equal. lia.
  - intros (i & Hi & [= -> ->]). lia.
Qed.

Lemma in_range_none l x : in_range l 0 x = false.
Proof. apply not_true_iff_false. rewrite in_range_spec. intros (j & ? & _). lia. Qed.

Lemma read_ext m m' l n : (forall x, in_range l n x = true -> m x = m' x) -> read m l n = read m' l n.
Proof.
  intros H. unfold read. apply map_ext_in. intros i Hi. apply in_seq in Hi. apply H, in_range_spec. exists i. split; [lia|done].
Qed.

(** The byte that a copy from [src] brings to [x]. *)
Definition copied (m : memory) (dest src : loc) (x : loc) : Z := m (src.1, src.2 + (x.2 - dest.2)).

Lemma copy_to_in m0 m dest src n x : in_range dest n x = true -> copy_to m dest (read m0 src n) x = copied m0 dest src x.
Proof.
  intros Hx. unfold copy_to. rewrite read_length, Hx. apply in_range_spec in Hx as (i & Hi & ->). simpl. replace (Z.to_nat (dest.2 + Z.of_nat i - dest.2)) with i by lia.
  rewrite read_lookup by done. unfold copied. simpl. f_equal. f_equal. lia.
Qed.

Lemma copy_to_out m dest bs x : in_range dest (length bs) x = false -> copy_to m dest bs x = m x.
Proof. intros Hx. unfold copy_to. by rewrite Hx. Qed.

(** ** Copies that do not race *)

Record copy := mkCopy { c_dest : loc; c_src : loc; c_len : nat }.

Definition writes (c : copy) (x : loc) : bool := in_range c.(c_dest) c.(c_len) x.

Definition race_free (cs : list copy) : Prop := forall i j c d x, cs !! i = Some c -> cs !! j = Some d -> i <> j -> writes c x = true ->
  writes d x = false /\ in_range d.(c_src) d.(c_len) x = false.

(** A copy that is done at once. *)
Definition copy_now (m : memory) (c : copy) : memory := copy_to m c.(c_dest) (read m c.(c_src) c.(c_len)).

Section Copies.
Variables (m0 : memory) (cs : list copy).
Hypothesis no_races : race_free cs.

(** The memory when the copies of [W] have written. *)
Record after (W : nat -> Prop) (m : memory) : Prop := {
  a_written i c x : cs !! i = Some c -> W i -> writes c x = true -> m x = copied m0 c.(c_dest) c.(c_src) x;
  a_fresh x : (forall i c, cs !! i = Some c -> W i -> writes c x = false) -> m x = m0 x;
}.

Lemma after_none (W : nat -> Prop) : (forall i, ~ W i) -> after W m0.
Proof. intros H. split; [intros i c x _ Hi; by destruct (H i)|done]. Qed.

Lemma after_iff (W W' : nat -> Prop) m : (forall i, W i <-> W' i) -> after W m -> after W' m.
Proof. intros H [A1 A2]. split; [intros i c x Hc Hi; apply (A1 i c x Hc); by apply H|]. intros x Hx. apply A2. intros i c Hc Hi. apply (Hx i c Hc). by apply H. Qed.

(** What a copy reads before it has written is as in the beginning. *)
Lemma after_read W m i c : after W m -> cs !! i = Some c -> ~ W i -> read m c.(c_src) c.(c_len) = read m0 c.(c_src) c.(c_len).
Proof.
  intros [A1 A2] Hc Hn. apply read_ext. intros x Hx. apply A2. intros j d Hd Hw. destruct (writes d x) eqn:E; [|done].
  destruct (no_races j i d c x Hd Hc ltac:(by intros ->) E) as [_ ?]. congruence.
Qed.

(** A copy writes. *)
Lemma after_write W m m' i c : after W m -> cs !! i = Some c -> (forall x, m' x = copy_to m c.(c_dest) (read m0 c.(c_src) c.(c_len)) x) -> after (fun j => j = i \/ W j) m'.
Proof.
  intros [A1 A2] Hc Hm. split.
  - intros j d x Hd Hw Hx. rewrite Hm. destruct (decide (j = i)) as [->|Hne]; [rewrite Hc in Hd; injection Hd as <-; by apply copy_to_in|].
    rewrite copy_to_out; [apply (A1 j d x Hd); naive_solver|]. rewrite read_length. by apply (no_races j i d c x).
  - intros x Hx. rewrite Hm, copy_to_out; [|rewrite read_length; apply (Hx i c Hc); by left]. apply A2. intros j d Hd Hw. apply (Hx j d Hd). by right.
Qed.

(** A destination that was written holds the bytes of its source. *)
Lemma after_bytes W m i c : after W m -> cs !! i = Some c -> W i -> read m c.(c_dest) c.(c_len) = read m0 c.(c_src) c.(c_len).
Proof.
  intros [A1 _] Hc Hw. apply list_eq. intros j. destruct (decide (j < c_len c)%nat) as [Hj|Hj]; [|by rewrite !lookup_ge_None_2 by (rewrite read_length; lia)].
  rewrite !read_lookup by done. f_equal. rewrite (A1 i c) by (done || (apply in_range_spec; by exists j)). unfold copied. simpl. f_equal. f_equal. lia.
Qed.

(** The memory is determined by what was written. *)
Lemma after_unique W m m' : (forall i, Decision (W i)) -> after W m -> after W m' -> forall x, m x = m' x.
Proof.
  intros D [A1 A2] [B1 B2] x. destruct (decide (Exists (fun i => W i /\ match cs !! i with Some c => writes c x | None => false end = true) (seq 0 (length cs)))) as [Hex|Hex].
  - apply Exists_exists in Hex as (i & _ & Hw & Hx). destruct (cs !! i) as [c|] eqn:Hc; [|done]. by rewrite (A1 i c x), (B1 i c x).
  - assert (Hno : forall i c, cs !! i = Some c -> W i -> writes c x = false).
    { intros i c Hc Hw. apply not_true_iff_false. intros Hx. apply Hex, Exists_exists. exists i. split; [apply elem_of_seq; apply lookup_lt_Some in Hc; lia|]. split; [done|]. by rewrite Hc. }
    by rewrite A2, B2.
Qed.

Lemma after_now k : (k <= length cs)%nat -> after (fun i => i < k)%nat (foldl copy_now m0 (take k cs)).
Proof.
  induction k as [|k IH]; intros Hk; [rewrite take_0; apply after_none; lia|]. destruct (lookup_lt_is_Some_2 cs k ltac:(lia)) as [d Hd]. rewrite (take_S_r _ _ _ Hd), foldl_app. simpl.
  apply after_iff with (fun i => i = k \/ (i < k)%nat); [lia|]. specialize (IH ltac:(lia)). eapply after_write; [done|done|]. intros x. unfold copy_now at 1. by rewrite (after_read _ _ k d IH Hd) by lia.
Qed.

(** When all have written, the memory is as if each copy had been done at once. *)
Lemma after_all (W : nat -> Prop) m : (forall i c, cs !! i = Some c -> W i) -> after W m -> forall x, m x = foldl copy_now m0 cs x.
Proof.
  intros Hall A. pose proof (after_now (length cs) ltac:(done)) as B. rewrite firstn_all in B. apply (after_unique (fun i => i < length cs)%nat); [apply _| |done].
  destruct A as [A1 A2]. split; [intros i c x Hc _; apply (A1 i c x Hc); by eapply Hall|]. intros x Hx. apply A2. intros i c Hc _. apply (Hx i c Hc). by eapply lookup_lt_Some.
Qed.
End Copies.

(** ** Calls and their progress *)

(** What calls with a status each contribute to a part of the world. *)
Section Progress.
Context {C S A : Type} (f : C * S -> list A).

Definition contributions (ops : list C) (st : list S) : list A := concat (map f (zip ops st)).

(** One call changes its status. *)
Lemma contributions_exchange ops : forall st i c s s', ops !! i = Some c -> st !! i = Some s ->
  contributions ops (<[i := s']> st) ++ f (c, s) ≡ₚ contributions ops st ++ f (c, s').
Proof.
  unfold contributions. induction ops as [|d l IH]; intros [|t st] [|i] c s s' Hc Hs; simplify_eq/=.
  - solve_Permutation.
  - rewrite <- !app_assoc. apply Permutation_app_head. by apply IH.
Qed.

Lemma contributions_elem ops st x : x ∈ contributions ops st -> exists i c s, ops !! i = Some c /\ st !! i = Some s /\ x ∈ f (c, s).
Proof.
  intros Hx. apply list_elem_of_In, in_concat in Hx as (y & Hy & Hx). apply in_map_iff in Hy as ([c s] & <- & Hy). apply list_elem_of_In, list_elem_of_lookup in Hy as [i Hi].
  rewrite lookup_zip_with in Hi. destruct (ops !! i) as [c'|] eqn:Hc; [|done]. destruct (st !! i) as [s'|] eqn:Hs; [|done]. simpl in Hi. injection Hi as -> ->.
  exists i, c, s. split; [done|]. split; [done|]. by apply list_elem_of_In.
Qed.

Lemma contributions_in ops st i c s x : ops !! i = Some c -> st !! i = Some s -> x ∈ f (c, s) -> x ∈ contributions ops st.
Proof.
  intros Hc Hs Hx. apply list_elem_of_In, in_concat. exists (f (c, s)). split; [|by apply list_elem_of_In]. apply in_map, list_elem_of_In, list_elem_of_lookup.
  exists i. by rewrite lookup_zip_with, Hc, Hs.
Qed.

(** Calls whose status is a function of the call. *)
Lemma contributions_initial (g : C -> S) ops : contributions ops (map g ops) = concat (map (fun c => f (c, g c)) ops).
Proof. unfold contributions. induction ops as [|c l IH]; [done|]. simpl. by rewrite IH. Qed.

Lemma contributions_nil ops st : (forall i c s, ops !! i = Some c -> st !! i = Some s -> f (c, s) = []) -> contributions ops st = [].
Proof.
  intros H. destruct (contributions ops st) as [|x l] eqn:E; [done|]. assert (Hx : x ∈ contributions ops st) by (rewrite E; by apply elem_of_cons; left).
  apply contributions_elem in Hx as (i & c & s & Hc & Hs & Hx). rewrite (H i c s) in Hx by done. by apply elem_of_nil in Hx.
Qed.
End Progress.

Lemma delete_snoc {A} (l : list A) k x : l !! k = Some x -> delete k l ++ [x] ≡ₚ l.
Proof. intros H. etransitivity; [apply Permutation_app_comm|]. symmetry. by apply delete_Permutation. Qed.
