(* ===== verification/UserAlloc.v ===== *)
(** * Allocation and release in the active address space

    libhpx/gas/agas/AGAS.cpp: allocateLocal, allocateUser with the parcels that place its
    blocks at other ranks and report them to the home, and free with the parcels that take
    a segment apart.  One allocation is followed from the call to its release, with the
    parcels delivered in any order, next to whatever else the ranks have mapped.  The
    address arithmetic, the translation tables and the ranks are those of the other files;
    what the allocators return is a label of the steps. *)

From S2P Require Import Prelude Math Gva Btt Agas CyclicAlloc Copies.

Section Alloc.
Context {D : Type}.                    (* the contents of a block *)
Variables (zeros : D) (nranks : Z) (offsetOf : Z -> Z).

Implicit Types (x : @local D) (m : gmap Z D).

(** ** Memory *)

(** An allocator returns memory that nobody has, for blocks of [padded] bytes that hold [ds]. *)
Fixpoint take_blocks m (l padded : Z) (ds : list D) : option (gmap Z D) :=
  match ds with
  | [] => Some m
  | d :: ds =>
    match m !! l with
    | Some _ => None
    | None => take_blocks (<[l := d]> m) (l + padded) padded ds
    end
  end.

Fixpoint drop_blocks m (l padded : Z) (n : nat) : gmap Z D :=
  match n with O => m | S n => drop_blocks (delete l m) (l + padded) padded n end.

(** memset of [n] blocks, which must have been allocated. *)
Fixpoint clear_blocks m (l padded : Z) (n : nat) : option (gmap Z D) :=
  match n with
  | O => Some m
  | S n => _ ← m !! l; clear_blocks (<[l := zeros]> m) (l + padded) padded n
  end.

Definition maxBlockSize : Z := 2 ^ 32.

(** ** Local allocation *)

(** [i] and [padded] have 32 bits, and so has their product. *)
Fixpoint local_loop (k : nat) (i : Z) (t : btt) (gva l n padded attr : Z) : option btt :=
  match k with
  | O => Some t
  | S k =>
    block ← add nranks gva (u32 (i * padded)) padded;
    t ← insert t block t.(rank_) (l + u32 (i * padded)) n attr;
    local_loop k (i + 1) t gva l n padded attr
  end.

(** [l] is what global_memalign returns: memory for blocks that hold [ds], or null. *)
Definition allocateLocal x (n bsize attr : Z) (zero : bool) (l : Z) (ds : list D) : option (local * Z) :=
  if bsize <? maxBlockSize then
    let padded := u32 (Z.shiftl 1 (ceil_log2 64 bsize)) in
    if l =? 0 then Some (x, 0)
    else
      m ← take_blocks x.(mem) l padded ds;
      m ← (if zero then clear_blocks m l padded (Z.to_nat n) else Some m);
      let gva := lvaToGVA offsetOf x.(tbl).(rank_) l padded in
      t ← local_loop (Z.to_nat n) 0 x.(tbl) gva l n padded attr;
      Some (mkLocal t m, gva)
  else None.

(** ** Allocation with a distribution *)

Inductive parcel :=
| InsertUserBlock (to src gva blocks padded attr l : Z) (zero : bool)
| InsertTranslation (to gva r blocks attr : Z)
| FreeSegment (to gva : Z)
| FreeBlock (to gva : Z).

(** The blocked distribution. *)
Definition Blocked (i n bsize : Z) : option Z :=
  let blocks_per_locality := u32 (n / nranks) in
  if blocks_per_locality =? 0 then None else Some (there (i / blocks_per_locality mod nranks)).

Fixpoint user_loop (k : nat) (i : Z) x (dist : Z -> Z -> Z -> option Z) (gva l n bsize padded attr : Z) (zero : bool) :
    option (list parcel) :=
  match k with
  | O => Some []
  | S k =>
    where_ ← (if i =? 0 then Some (there x.(tbl).(rank_)) else dist i n bsize);
    addr ← add nranks gva (i * padded) padded;
    ps ← user_loop k (i + 1) x dist gva l n bsize padded attr zero;
    Some (InsertUserBlock (ownerOf x where_) x.(tbl).(rank_) addr n padded attr (l + i * padded) zero :: ps)
  end.

(** The memory, the address and the parcels; the caller then waits for all of them. *)
Definition allocateUser x (n bsize attr : Z) (zero : bool) (dist : Z -> Z -> Z -> option Z) (l : Z) (ds : list D) :
    option (local * Z * list parcel) :=
  if bsize <=? maxBlockSize then
    let padded := u64 (Z.shiftl 1 (ceil_log2 64 bsize)) in
    if l =? 0 then None
    else
      m ← take_blocks x.(mem) l padded ds;
      let gva := lvaToGVA offsetOf x.(tbl).(rank_) l padded in
      ps ← user_loop (Z.to_nat n) 0 x dist gva l n bsize padded attr zero;
      Some (mkLocal x.(tbl) m, gva, ps)
  else None.

(** [a] is what posix_memalign returns, for a block that holds [d]; true when the
    translation goes back to the source. *)
Definition insertUserBlock x (src gva blocks padded attr l : Z) (zero : bool) (a : Z) (d : D) : option (local * bool) :=
  if (gva =? 0) || (blocks =? 0) || (padded =? 0) || (l =? 0) then None
  else
    let remote := negb (src =? x.(tbl).(rank_)) in
    m ← (if remote then if a =? 0 then None else take_blocks x.(mem) a padded [d] else Some x.(mem));
    let l := if remote then a else l in
    m ← (if zero then clear_blocks m l padded 1 else Some m);
    t ← insert x.(tbl) gva x.(tbl).(rank_) l blocks attr;
    Some (mkLocal t m, remote).

Definition insertTranslation x (gva r blocks attr : Z) : local := with_tbl x (upsert x.(tbl) gva r 0 blocks attr).

(** ** Release *)

(** The loop of freeSegment: the blocks that are sent a FreeBlock. *)
Fixpoint segment_loop (k : nat) (r gva stride : Z) : option (list Z) :=
  match k with
  | O => Some []
  | S k =>
    if home gva =? r then
      gva' ← add nranks gva stride (getBlockSize gva);
      bs ← segment_loop k r gva' stride;
      Some (gva :: bs)
    else None
  end.

(** freeSegment up to its wait: the memory of the segment and its blocks. *)
Definition freeSegment x (gva : Z) : option (Z * list Z) :=
  let bsize := getBlockSize gva in
  gva ← (if nz (cyclic gva) then add nranks gva (x.(tbl).(rank_) * bsize) bsize else Some gva);
  '(l, blocks) ← getSegment x.(tbl) gva;
  let stride := if nz (cyclic gva) then nranks * bsize else bsize in
  bs ← segment_loop (Z.to_nat blocks) x.(tbl).(rank_) gva stride;
  Some (l, bs).

(** The cases of free. *)
Inductive release_ := Nothing | Fast (l : Z) | Everywhere | AtHome (to : Z).

Definition free x (gva : Z) : local * release_ :=
  if gva =? 0 then (x, Nothing)
  else let '(t, l) := tryRemoveForFastpathFree x.(tbl) gva in
    if nz l then (with_tbl x t, Fast l)
    else if nz (cyclic gva) then (x, Everywhere) else (x, AtHome (home gva)).

(** ** The system *)

Inductive phase := Allocating | Allocated | Called | Freeing (r l : Z) | Freed.

(** [segs] are the allocations of the global allocators: the size and number of their
    blocks; [left] is the value of the gate that a thread waits for; [updates] are the
    parcels of UpdateOwner.  For the specification there are [vals], what the blocks should
    hold, where that is known, and [told], the ranks that were sent the owner of a block. *)
Record space := mkSpace {
  places : list (@local D);
  segs : gmap (Z * Z) (Z * nat);
  posts : list parcel;
  left_ : Z;
  now : phase;
  vals : list (option D);
  updates : list (Z * Z * Z);
  told : list (Z * Z);
}.

Implicit Types y : space.

Definition place (xs : list (@local D)) (r : Z) : option (@local D) := if r <? 0 then None else xs !! Z.to_nat r.

Definition set_place y (r : Z) x : space := mkSpace (<[Z.to_nat r := x]> y.(places)) y.(segs) y.(posts) y.(left_) y.(now) y.(vals) y.(updates) y.(told).
Definition with_posts y ps : space := mkSpace y.(places) y.(segs) ps y.(left_) y.(now) y.(vals) y.(updates) y.(told).
Definition post y ps : space := with_posts y (y.(posts) ++ ps).
Definition with_left y n : space := mkSpace y.(places) y.(segs) y.(posts) n y.(now) y.(vals) y.(updates) y.(told).
Definition enter y (ph : phase) : space := mkSpace y.(places) y.(segs) y.(posts) y.(left_) ph y.(vals) y.(updates) y.(told).
Definition with_vals y v : space := mkSpace y.(places) y.(segs) y.(posts) y.(left_) y.(now) v y.(updates) y.(told).
Definition with_updates y us : space := mkSpace y.(places) y.(segs) y.(posts) y.(left_) y.(now) y.(vals) us y.(told).

(** The rank [s] is told that [o] owns the block of [g]. *)
Definition tell y (s g o : Z) : space :=
  mkSpace y.(places) y.(segs) y.(posts) y.(left_) y.(now) y.(vals) (y.(updates) ++ [(s, g, o)]) (y.(told) ++ [(s, toKey g)]).

(** global_free at rank [r]. *)
Definition global_free y (r l : Z) : option space :=
  '(padded, n) ← y.(segs) !! (r, l);
  x ← place y.(places) r;
  let y := set_place y r (mkLocal x.(tbl) (drop_blocks x.(mem) l padded n)) in
  Some (mkSpace y.(places) (delete (r, l) y.(segs)) y.(posts) y.(left_) y.(now) y.(vals) y.(updates) y.(told)).

(** A parcel is run at its target. *)
Definition run_parcel y (p : parcel) (a : Z) (d : D) : option space :=
  match p with
  | InsertUserBlock to src gva blocks padded attr l zero =>
    x ← place y.(places) to;
    '(x, remote) ← insertUserBlock x src gva blocks padded attr l zero a d;
    let y := set_place y to x in
    Some (if remote : bool then post y [InsertTranslation src gva x.(tbl).(rank_) blocks attr] else with_left y (y.(left_) - 1))
  | InsertTranslation to gva r blocks attr =>
    x ← place y.(places) to;
    Some (with_left (set_place y to (insertTranslation x gva r blocks attr)) (y.(left_) - 1))
  | FreeSegment to gva =>
    x ← place y.(places) to;
    '(l, bs) ← freeSegment x gva;
    Some (enter (with_left (post y (map (fun b => FreeBlock (ownerOf x b) b) bs)) (Z.of_nat (length bs))) (Freeing to l))
  | FreeBlock to gva =>
    x ← place y.(places) to;
    '(x, on) ← freeBlock x gva;
    let y := set_place y to x in
    Some (if on : bool then post y [FreeBlock (ownerOf x gva) gva] else with_left y (y.(left_) - 1))
  end.

Inductive move :=
| Deliver (k : nat) (a : Z) (d : D)
| Return_
| Use (r src p : Z) (w : option D)     (* a pinned access to the byte at position [p], for rank [src] *)
| Update (k : nat)
| Free (r : Z)
| Finish.

Section Run.
Variables gva bsize : Z.               (* what was allocated *)

(** The blocks stay where they were placed.  Any rank may be asked for a byte by any other,
    but a rank that has the block asks no other for it. *)
Definition alloc_step y (b : move) : option (space * option D) :=
  match b with
  | Deliver k a d =>
    p ← y.(posts) !! k;
    y ← run_parcel (with_posts y (delete k y.(posts))) p a d;
    Some (y, None)
  | Return_ =>
    match y.(now) with
    | Allocating => if y.(left_) =? 0 then Some (enter y Allocated, None) else None
    | _ => None
    end
  | Use r src p w =>
    match y.(now) with
    | Allocated =>
      if (0 <=? p) && (p / bsize <? Z.of_nat (length y.(vals))) then
        g ← add nranks gva p bsize;
        x ← place y.(places) r;
        x' ← place y.(places) src;
        if (ownerOf x' g =? src) && negb (r =? src) then None
        else
          '(x, res) ← access x g src w;
          let y := set_place y r x in
          match res with
          | Seen d =>
            Some (match w with Some _ => with_vals y (<[Z.to_nat (p / bsize) := w]> y.(vals)) | None => y end, Some d)
          | Failed None => Some (y, None)
          | Failed (Some (s, o)) => Some (tell y s g o, None)
          end
      else None
    | _ => None
    end
  | Update k =>
    '(s, g, o) ← y.(updates) !! k;
    x ← place y.(places) s;
    x ← UpdateOwnerHandler x g o;
    Some (set_place (with_updates y (delete k y.(updates))) s x, None)
  | Free r =>
    match y.(now) with
    | Allocated =>
      x ← place y.(places) r;
      let '(x, c) := free x gva in
      match c with
      | Fast l => y ← global_free (set_place y r x) r l; Some (enter y Freed, None)
      | AtHome to => Some (enter (post y [FreeSegment to gva]) Called, None)
      | _ => None
      end
    | _ => None
    end
  | Finish =>
    match y.(now) with
    | Freeing r l => if y.(left_) =? 0 then y ← global_free y r l; Some (enter y Freed, None) else None
    | _ => None
    end
  end.

(** The steps other than uses and what they tell are counted. *)
Definition weight (b : move) : nat := match b with Use _ _ _ _ | Update _ => 0%nat | _ => 1%nat end.

Inductive alloc_run (y0 : space) : nat -> list (option D) -> space -> Prop :=
| alloc_nil : alloc_run y0 0 [] y0
| alloc_cons k tr y b y' v : alloc_run y0 k tr y -> alloc_step y b = Some (y', v) ->
    alloc_run y0 (k + weight b) (tr ++ [v]) y'.
End Run.

Inductive request := Local | User (dist : Z -> Z -> Z -> option Z).

(** A thread at rank [me] calls one of the allocation functions. *)
Definition call_alloc (q : request) (xs : list (@local D)) (sg : gmap (Z * Z) (Z * nat)) (me n bsize attr : Z) (zero : bool)
    (l : Z) (ds : list D) : option (space * Z) :=
  x ← place xs me;
  let v := replicate (Z.to_nat n) (if zero then Some zeros else None) in
  let sg := <[(me, l) := (u64 (Z.shiftl 1 (ceil_log2 64 bsize)), length ds)]> sg in
  match q with
  | Local =>
    '(x, gva) ← allocateLocal x n bsize attr zero l ds;
    Some (mkSpace (<[Z.to_nat me := x]> xs) sg [] 0 Allocated v [] [], gva)
  | User dist =>
    '(x, gva, ps) ← allocateUser x n bsize attr zero dist l ds;
    Some (mkSpace (<[Z.to_nat me := x]> xs) sg ps n Allocating v [] [], gva)
  end.

(** ** Addresses of the allocation *)

Section Life.
Variables (me n s bsize at_ l o : Z) (zero : bool).
Hypothesis Hs : 0 <= s < 32.
Hypothesis Hb : 0 < bsize.
Hypothesis Hlog : Z.log2_up bsize = s.
Hypothesis Hn : 0 < n < 2 ^ 31.
Hypothesis Hl : 0 < l.
Hypothesis Ho : 0 < o.
Hypothesis Hd : (2 ^ s | o).
Hypothesis Hr : o + n * 2 ^ s < 2 ^ 42.
Hypothesis Hme : 0 <= me < 2 ^ 16.

Definition base : Z := GlobalVirtualAddress o s 0 me.
Definition blk (i : nat) : Z := base + Z.of_nat i * 2 ^ s.
Definition lva_of (i : nat) : Z := l + Z.of_nat i * 2 ^ s.
Definition count_ : nat := Z.to_nat n.

Lemma pow_pos : 0 < 2 ^ s < 2 ^ 32.
Proof. split; [lia|apply Z.pow_lt_mono_r; lia]. Qed.

Lemma count_eq : Z.of_nat count_ = n.
Proof. unfold count_. lia. Qed.

Lemma base_fields : base ∈u 64 /\ offset base = o /\ size base = s /\ cyclic base = 0 /\ home base = me.
Proof. pose proof pow_pos. apply gva_fields; nia. Qed.

Lemma near_fields d : 0 <= d -> o + d < 2 ^ 42 ->
  (base + d) ∈u 64 /\ offset (base + d) = o + d /\ size (base + d) = s /\ cyclic (base + d) = 0 /\ home (base + d) = me.
Proof.
  intros H1 H2. destruct base_fields as (F1 & F2 & F3 & F4 & F5). destruct (add_offset base d F1 H1) as (A1 & A2 & A3); [lia|].
  apply (high_eq _ _ A1 F1) in A3 as (E1 & E2 & E3). rewrite F2 in A2. repeat split; congruence || lia.
Qed.

Lemma blk_off i : (i < count_)%nat -> 0 <= Z.of_nat i * 2 ^ s /\ Z.of_nat i * 2 ^ s + 2 ^ s <= n * 2 ^ s.
Proof. pose proof count_eq. pose proof pow_pos. intros Hi. nia. Qed.

Lemma blk_fields i ph : (i < count_)%nat -> 0 <= ph < 2 ^ s ->
  (blk i + ph) ∈u 64 /\ size (blk i + ph) = s /\ cyclic (blk i + ph) = 0 /\ home (blk i + ph) = me
  /\ offset (blk i + ph) <> THERE_OFFSET.
Proof.
  intros Hi Hp. pose proof (blk_off i Hi). destruct (near_fields (Z.of_nat i * 2 ^ s + ph)) as (A & B & C & E & F); [lia|lia|].
  unfold blk. rewrite <- Z.add_assoc. unfold THERE_OFFSET. repeat split; (done || lia).
Qed.

Lemma blk_fields0 i : (i < count_)%nat -> blk i ∈u 64 /\ size (blk i) = s /\ cyclic (blk i) = 0 /\ home (blk i) = me
  /\ offset (blk i) <> THERE_OFFSET.
Proof. intros Hi. pose proof pow_pos. pose proof (blk_fields i 0 Hi ltac:(lia)) as Hf. by rewrite Z.add_0_r in Hf. Qed.

Lemma base_divide : (2 ^ s | base).
Proof.
  pose proof pow_pos. unfold base. rewrite gva_eq by nia.
  assert (H48 : forall k, s <= k -> (2 ^ s | 2 ^ k)).
  { intros k Hk. exists (2 ^ (k - s)). rewrite <- Z.pow_add_r by lia. f_equal. lia. }
  repeat apply Z.divide_add_r; try (apply Z.divide_mul_r, H48; lia); done.
Qed.

Lemma blk_key i ph : (i < count_)%nat -> 0 <= ph < 2 ^ s -> toKey (blk i + ph) = blk i /\ toBlockOffset (blk i + ph) = ph.
Proof.
  intros Hi Hp. destruct (blk_fields i ph Hi Hp) as (A & B & _). rewrite key_eq, block_offset_eq, B by done.
  destruct base_divide as [q Hq]. unfold blk. rewrite Hq.
  replace (q * 2 ^ s + Z.of_nat i * 2 ^ s + ph) with (ph + (q + Z.of_nat i) * 2 ^ s) by ring.
  rewrite Z.div_add, Z.mod_add, Z.div_small, Z.mod_small by lia. split; [ring|done].
Qed.

Lemma blk_key0 i : (i < count_)%nat -> toKey (blk i) = blk i.
Proof. intros Hi. pose proof pow_pos. destruct (blk_key i 0 Hi ltac:(lia)) as [Hk _]. by rewrite Z.add_0_r in Hk. Qed.

Lemma blk_inj i j : blk i = blk j -> i = j.
Proof. unfold blk. pose proof pow_pos. nia. Qed.

Lemma lva_inj i j : lva_of i = lva_of j -> i = j.
Proof. unfold lva_of. pose proof pow_pos. nia. Qed.

Lemma lva_pos i : 0 < lva_of i.
Proof. unfold lva_of. pose proof pow_pos. nia. Qed.

Lemma padded_log : ceil_log2 64 (2 ^ s) = s.
Proof. pose proof pow_pos. rewrite ceil_log2_eq, Z.log2_up_pow2 by lia. done. Qed.

Lemma padded_eq : u64 (Z.shiftl 1 (ceil_log2 64 bsize)) = 2 ^ s.
Proof.
  pose proof pow_pos. pose proof (bsize_bounds s bsize Hs Hb Hlog). rewrite ceil_log2_eq, Hlog, Z.shiftl_1_l by lia. apply wrap_small. lia.
Qed.

Lemma add_blk d : 0 <= d -> o + d < 2 ^ 42 -> forall k, 0 <= k -> o + d + k < 2 ^ 42 ->
  add nranks (base + d) k (2 ^ s) = Some (base + d + k).
Proof.
  intros H1 H2 k H3 H4. destruct (near_fields d) as (A & B & C & E & F); [done|done|].
  unfold add. rewrite C, padded_log, Z.eqb_refl, E. simpl. rewrite <- C. rewrite addLocal_padded by done. f_equal. apply wrap_small.
  destruct (near_fields (d + k)) as (A' & _); [lia|lia|]. by rewrite Z.add_assoc in A'.
Qed.

Lemma add_use p : 0 <= p -> p / bsize < n ->
  add nranks base p bsize = Some (blk (Z.to_nat (p / bsize)) + p mod bsize).
Proof.
  intros H1 H2. destruct base_fields as (F1 & F2 & F3 & F4 & F5). pose proof pow_pos as Hp. pose proof (bsize_bounds s bsize Hs Hb Hlog) as Hbs.
  assert (Hq : 0 <= p / bsize) by (apply Z.div_pos; lia). pose proof (Z.mod_pos_bound p bsize ltac:(lia)).
  unfold add. rewrite F3, ceil_log2_eq, Hlog, Z.eqb_refl, F4 by lia. simpl.
  assert (p < 2 ^ 64) by (pose proof (Z.div_mod p bsize ltac:(lia)); nia).
  destruct (near_fields (p / bsize * 2 ^ s + p mod bsize)) as (A & B & _); [nia|nia|]. rewrite Z.add_assoc in A, B.
  rewrite addLocal_eq, F3, (wrap_small 64 p) by lia. cbv zeta. rewrite wrap_small by done.
  assert (E : (base + p / bsize * 2 ^ s + p mod bsize) mod 2 ^ s = p mod bsize).
  { rewrite block_mod, B by (done || lia). destruct Hd as [c ->].
    replace (c * 2 ^ s + (p / bsize * 2 ^ s + p mod bsize)) with (p mod bsize + (c + p / bsize) * 2 ^ s) by ring.
    rewrite Z.mod_add, Z.mod_small by lia. done. }
  rewrite E. destruct (Z.ltb_spec (p mod bsize) bsize); [|lia]. f_equal. unfold blk. rewrite Z2Nat.id by lia. ring.
Qed.

Lemma use_block p : 0 <= p -> p / bsize < n -> (Z.to_nat (p / bsize) < count_)%nat /\ 0 <= p mod bsize < 2 ^ s.
Proof.
  intros H1 H2. pose proof (bsize_bounds s bsize Hs Hb Hlog). pose proof (Z.mod_pos_bound p bsize ltac:(lia)).
  assert (0 <= p / bsize) by (apply Z.div_pos; lia). unfold count_. lia.
Qed.

(** ** Blocks *)

Variables (w : nat -> Z) (X : list (@local D)) (G0 : gmap (Z * Z) (Z * nat)).
Hypothesis HN : Z.of_nat (length X) <= 2 ^ 16.
Hypothesis HX : forall r x, place X r = Some x -> x.(tbl).(rank_) = r.
Hypothesis Hw : forall i, (i < count_)%nat -> 0 <= w i < Z.of_nat (length X).
Hypothesis Hw0 : w 0 = me.
Hypothesis Hmap : forall r x i, place X r = Some x -> (i < count_)%nat -> find x.(tbl) (blk i) = None.
Hypothesis Hmem : forall x j, place X me = Some x -> (j < count_)%nat -> x.(mem) !! lva_of j = None.
Hypothesis HG : G0 !! (me, l) = None.

(** A block that goes to rank [w i] is asked for, placed there at address [a], reported to
    the home, and on release taken away there and then at the home. *)
Inductive stage :=
| Asked
| Copied (a : Z) (d : D)
| Placed (a : Z) (d : D)
| FreeSent (a : Z) (d : D)
| Forwarded
| Gone.

Definition entry_of (i : nat) (st : stage) (r : Z) : option Entry :=
  let there_ a := Some (Entry_new (w i) a n at_) in
  match st with
  | Asked | Gone => None
  | Copied a _ => if decide (r = w i) then there_ a else None
  | Placed a _ | FreeSent a _ => if decide (r = w i) then there_ a else if decide (r = me) then there_ 0 else None
  | Forwarded => if decide (r = me) then there_ 0 else None
  end.

Definition held (st : stage) : option (Z * D) :=
  match st with Copied a d | Placed a d | FreeSent a d => Some (a, d) | _ => None end.

Definition msgs (c : nat * stage) : list parcel :=
  let '(i, st) := c in
  match st with
  | Asked => [InsertUserBlock (w i) me (blk i) n (2 ^ s) at_ (lva_of i) zero]
  | Copied _ _ => [InsertTranslation me (blk i) (w i) n at_]
  | FreeSent _ _ => [FreeBlock (w i) (blk i)]
  | Forwarded => [FreeBlock me (blk i)]
  | _ => []
  end.

Definition stage_ok (i : nat) (st : stage) : Prop :=
  match st with
  | Copied a _ => w i <> me /\ a <> 0
  | Placed a _ | FreeSent a _ => a <> 0 /\ (w i = me -> a = lva_of i)
  | Forwarded => w i <> me
  | _ => True
  end.

Definition phase_ok (ph : phase) (st : stage) : Prop :=
  match ph, st with
  | Allocating, (Asked | Copied _ _ | Placed _ _) => True
  | (Allocated | Called), Placed _ _ => True
  | Freeing r l', (FreeSent _ _ | Forwarded | Gone) => r = me /\ l' = l
  | Freed, Gone => True
  | _, _ => False
  end.

Definition extra (ph : phase) : list parcel := match ph with Called => [FreeSegment me base] | _ => [] end.

(** ** Tables *)

(** What a rank that was told the owner of a block has. *)
Definition cached (i : nat) : Entry := Entry_new (w i) 0 1 HPX_GAS_ATTR_NONE.

Definition is_cached (U : list (Z * Z)) (i : nat) (st : stage) (r : Z) (e : option Entry) : Prop :=
  e = Some (cached i) /\ r <> w i /\ (r = me -> st = Gone) /\ (r, blk i) ∈ U.

Record tab_inv (U : list (Z * Z)) (xs : list (@local D)) (sts : list stage) : Prop := {
  ti_rank r x : place xs r = Some x -> x.(tbl).(rank_) = r;
  ti_block i st r x : sts !! i = Some st -> place xs r = Some x ->
    x.(tbl).(map_) !! blk i = entry_of i st r \/ is_cached U i st r (x.(tbl).(map_) !! blk i);
  ti_other r x x0 k : place xs r = Some x -> place X r = Some x0 -> (forall i, (i < count_)%nat -> k <> blk i) ->
    x.(tbl).(map_) !! k = x0.(tbl).(map_) !! k;
}.

Lemma tab_block U xs sts i st r x : tab_inv U xs sts -> sts !! i = Some st -> place xs r = Some x ->
  (r = w i \/ st <> Gone /\ r = me) -> x.(tbl).(map_) !! blk i = entry_of i st r.
Proof.
  intros T Hi Hx Hr0. destruct (ti_block _ _ _ T i st r x Hi Hx) as [|(_ & H1 & H2 & _)]; [done|].
  destruct Hr0 as [Hr0|[Hg Hr0]]; [done|]. by destruct (Hg (H2 Hr0)).
Qed.

Ltac known := solve [by left | right; done | left; congruence].

Lemma place_set xs r x x' r' : place xs r = Some x ->
  place (<[Z.to_nat r := x']> xs) r' = if decide (r = r') then Some x' else place xs r'.
Proof.
  unfold place. intros H. destruct (Z.ltb_spec r 0); [done|]. case_decide as E.
  - subst r'. destruct (Z.ltb_spec r 0); [lia|]. apply list_lookup_insert_eq. by eapply lookup_lt_Some.
  - destruct (Z.ltb_spec r' 0); [done|]. apply list_lookup_insert_ne. lia.
Qed.

Lemma place_is xs r : 0 <= r < Z.of_nat (length xs) -> exists x, place xs r = Some x.
Proof. intros H. unfold place. destruct (Z.ltb_spec r 0); [lia|]. apply lookup_lt_is_Some. lia. Qed.

Lemma place_range xs r x : place xs r = Some x -> 0 <= r < Z.of_nat (length xs).
Proof. unfold place. destruct (Z.ltb_spec r 0); [done|]. intros Hlk%lookup_lt_Some. lia. Qed.

(** A change of one block at one rank. *)
Lemma tab_step U xs sts i st st' r x x' : tab_inv U xs sts -> length sts = count_ -> sts !! i = Some st -> st <> Gone ->
  place xs r = Some x ->
  x'.(tbl).(rank_) = r ->
  (forall k, x'.(tbl).(map_) !! k = if decide (k = blk i) then entry_of i st' r else x.(tbl).(map_) !! k) ->
  (forall r2, r2 <> r -> entry_of i st' r2 = entry_of i st r2) ->
  tab_inv U (<[Z.to_nat r := x']> xs) (<[i := st']> sts).
Proof.
  intros [T1 T2 T3] Hlen Hi Hg Hx Hk Hm Hoth. pose proof (lookup_lt_Some _ _ _ Hi) as Hlt. split.
  - intros r2 x2. rewrite (place_set xs r x) by done. case_decide; [intros [= <-]; congruence|apply T1].
  - intros j sj r2 x2 Hj. rewrite (place_set xs r x) by done. destruct (decide (j = i)) as [->|Hne].
    + rewrite list_lookup_insert_eq in Hj by done. injection Hj as <-. case_decide as E.
      * intros [= <-]. subst r2. left. by rewrite Hm, decide_True.
      * intros H2. rewrite Hoth by done. destruct (T2 i st r2 x2 Hi H2) as [?|(H3 & H4 & H5 & H6)]; [by left|right].
        split; [done|]. split; [done|]. split; [|done]. intros Em. by destruct (Hg (H5 Em)).
    + rewrite list_lookup_insert_ne in Hj by done. case_decide as E; [|by apply T2].
      intros [= <-]. subst r2. rewrite Hm, decide_False by (intros ?%blk_inj; congruence). by apply T2.
  - intros r2 x2 x0 k. rewrite (place_set xs r x) by done. intros H2 H0 Hk'. case_decide as E; [|by apply (T3 r2)].
    injection H2 as <-. subst r2. rewrite Hm, decide_False by (apply Hk'; lia). by apply (T3 r).
Qed.

(** ** Memory *)

Record mem_inv (live : Prop) (xs : list (@local D)) (sts : list stage) : Prop := {
  mi_held i st a d x : sts !! i = Some st -> held st = Some (a, d) -> place xs (w i) = Some x -> x.(mem) !! a = Some d;
  mi_seg x j : place xs me = Some x -> live -> (j < count_)%nat -> is_Some (x.(mem) !! lva_of j);
  mi_other r x x0 a : place xs r = Some x -> place X r = Some x0 ->
    (forall i st d, sts !! i = Some st -> held st = Some (a, d) -> w i <> r) ->
    (r = me -> live -> forall j, (j < count_)%nat -> a <> lva_of j) -> x.(mem) !! a = x0.(mem) !! a;
  mi_new i st a d x0 : sts !! i = Some st -> held st = Some (a, d) -> place X (w i) = Some x0 -> x0.(mem) !! a = None;
  mi_sep i j st st' a d d' : sts !! i = Some st -> sts !! j = Some st' -> held st = Some (a, d) -> held st' = Some (a, d') ->
    w i = w j -> i = j;
}.

(** What a step does to the memory of the rank at which a block changes its stage. *)
Inductive mem_change (i : nat) (st st' : stage) (r : Z) (m : gmap Z D) : gmap Z D -> Prop :=
| mem_same : held st' = held st -> mem_change i st st' r m m
| mem_write a d d' : r = w i -> held st = Some (a, d) -> held st' = Some (a, d') -> mem_change i st st' r m (<[a := d']> m)
| mem_here d : r = me -> w i = me -> held st = None -> held st' = Some (lva_of i, d) ->
    mem_change i st st' r m (<[lva_of i := d]> m)
| mem_take a d : r = w i -> w i <> me -> m !! a = None -> held st = None -> held st' = Some (a, d) ->
    mem_change i st st' r m (<[a := d]> m)
| mem_free a d : r = w i -> w i <> me -> held st = Some (a, d) -> held st' = None -> mem_change i st st' r m (delete a m)
| mem_leave d : w i = me -> held st = Some (lva_of i, d) -> held st' = None -> mem_change i st st' r m m.

(** The address that a change touches, if any. *)
Lemma mem_change_elsewhere i st st' r m m' a : mem_change i st st' r m m' ->
  (r = w i -> forall d, held st <> Some (a, d) /\ held st' <> Some (a, d)) -> m' !! a = m !! a.
Proof.
  intros [ | a1 d d' E H1 H2|d E E' H1 H2|a1 d E E' Hm' H1 H2|a1 d E E' H1 H2|] Ha; try done.
  - apply lookup_insert_ne. intros <-. by destruct (Ha E d').
  - apply lookup_insert_ne. intros <-. by destruct (Ha ltac:(congruence) d).
  - apply lookup_insert_ne. intros <-. by destruct (Ha E d).
  - apply lookup_delete_ne. intros <-. by destruct (Ha E d).
Qed.

(** The possible changes. *)
Ltac mem_cases Hc :=
  let E := fresh "E2" in
  inversion Hc as [E1 E|a1 d1 d2 Er H1 H2 E|d1 Er E' H1 H2 E|a1 d1 Er E' Hm1 H1 H2 E|a1 d1 Er E' H1 H2 E|d1 E' H1 H2 E];
  try congruence.

Section MemStep.
Variables (xs : list (@local D)) (sts : list stage) (i : nat) (st st' : stage) (r : Z) (x x' : @local D).
Hypothesis I : mem_inv True xs sts.
Hypothesis Hlen : length sts = count_.
Hypothesis Hok : forall j sj, sts !! j = Some sj -> stage_ok j sj.
Hypothesis Hi : sts !! i = Some st.
Hypothesis Hx : place xs r = Some x.
Hypothesis Hc : mem_change i st st' r x.(mem) x'.(mem).

Lemma held_lva j sj a d : sts !! j = Some sj -> held sj = Some (a, d) -> w j = me -> a = lva_of j.
Proof. intros Hj Hh E. pose proof (Hok j sj Hj) as H. destruct sj; simplify_eq/=; [by destruct H|by apply H..]. Qed.

(** What a block holds next is new, or its own. *)
Lemma mem_step_sep j sj a d d' : j <> i -> sts !! j = Some sj -> held sj = Some (a, d) -> held st' = Some (a, d') -> w j = w i -> False.
Proof.
  intros Hne Hj Hh Hh' Ew. destruct Hc as [E|a1 d1 d2 Er H1 H2|d1 Er E' H1 H2|a1 d1 Er E' Hm1 H1 H2|a1 d1 Er E' H1 H2|d1 E' H1 H2].
  - apply Hne. symmetry. apply (mi_sep _ _ _ I i j st sj a d' d); congruence.
  - apply Hne. symmetry. apply (mi_sep _ _ _ I i j st sj a d1 d); congruence.
  - apply Hne. rewrite Hh' in H2. injection H2 as -> _. symmetry. apply lva_inj. apply (held_lva j sj _ d); congruence.
  - rewrite Hh' in H2. injection H2 as -> _. rewrite (mi_held _ _ _ I j sj a1 d x) in Hm1; [done|done|done|congruence].
  - congruence.
  - congruence.
Qed.

Lemma old_sep j sj a d d' : j <> i -> sts !! j = Some sj -> held sj = Some (a, d) -> held st = Some (a, d') -> w j = w i -> False.
Proof. intros Hne Hj Hh Hh' E. apply Hne. by apply (mi_sep _ _ _ I j i sj st a d d'). Qed.

Lemma mem_step_other j sj a d : j <> i -> sts !! j = Some sj -> held sj = Some (a, d) -> w j = r -> x'.(mem) !! a = Some d.
Proof.
  intros Hne Hj Hh E. rewrite (mem_change_elsewhere i st st' r (mem x) (mem x') a Hc).
  - apply (mi_held _ _ _ I j sj); congruence.
  - intros Er d'. split; intros Hh'; [apply (old_sep j sj a d d')|apply (mem_step_sep j sj a d d')]; congruence || done.
Qed.

Lemma mem_step_block a d : held st' = Some (a, d) -> w i = r -> x'.(mem) !! a = Some d.
Proof.
  intros Hh E. mem_cases Hc; rewrite Hh in *; simplify_eq; rewrite ?lookup_insert_eq; try done.
  apply (mi_held _ _ _ I i st); congruence.
Qed.

Lemma mem_step_elsewhere a d x2 : w i <> r -> held st' = Some (a, d) -> place xs (w i) = Some x2 -> x2.(mem) !! a = Some d.
Proof.
  intros Hne Hh H2x. mem_cases Hc.
  by apply (mi_held _ _ _ I i st); congruence.
Qed.

Lemma mem_step_new a d x0 : held st' = Some (a, d) -> place X (w i) = Some x0 -> x0.(mem) !! a = None.
Proof.
  intros Hh H0. mem_cases Hc; rewrite Hh in *; simplify_eq.
  - by apply (mi_new _ _ _ I i st a d).
  - by eapply (mi_new _ _ _ I i st).
  - apply Hmem; [congruence|]. rewrite <- Hlen. by eapply lookup_lt_Some.
  - rewrite <- (mi_other _ _ _ I (w i) x x0 a1); [done|done|done| |done].
    intros j sj d' Hj Hh' Ew. rewrite (mi_held _ _ _ I j sj a1 d' x) in Hm1; [done|done|done|congruence].
Qed.

Lemma mem_step_seg j : r = me -> (j < count_)%nat -> is_Some (x'.(mem) !! lva_of j).
Proof.
  intros E Hj. assert (Hs0 : is_Some (mem x !! lva_of j)) by (apply (mi_seg _ _ _ I x j); congruence || done).
  mem_cases Hc; try done; apply lookup_insert_is_Some'; by right.
Qed.

Lemma mem_step_frame x0 a : place X r = Some x0 ->
  (forall j sj d, <[i := st']> sts !! j = Some sj -> held sj = Some (a, d) -> w j <> r) ->
  (r = me -> forall j, (j < count_)%nat -> a <> lva_of j) -> x'.(mem) !! a = x0.(mem) !! a.
Proof.
  intros H0 Hj Hseg. assert (Hlt : (i < length sts)%nat) by by eapply lookup_lt_Some.
  assert (Hnew : w i = r -> forall d, held st' <> Some (a, d)).
  { intros E d Hh. apply (Hj i st' d); [by rewrite list_lookup_insert_eq|done|done]. }
  assert (Hold : forall j sj d, j <> i -> sts !! j = Some sj -> held sj = Some (a, d) -> w j <> r).
  { intros j sj d Hne Hs' Hh. apply (Hj j sj d); [by rewrite list_lookup_insert_ne|done]. }
  assert (Hcase : (w i = r /\ exists d, held st = Some (a, d)) \/ ~ (w i = r /\ exists d, held st = Some (a, d))).
  { destruct (decide (w i = r)); [|right; naive_solver]. destruct (held st) as [[a1 d1]|]; [|right; naive_solver].
    destruct (decide (a1 = a)) as [->|]; [left; eauto|right; naive_solver]. }
  destruct Hcase as [[E (d & Hh)]|Hno].
  - destruct (decide (w i = me)) as [Em|Em].
    { exfalso. apply (Hseg ltac:(congruence) i); [lia|]. by eapply held_lva. }
    mem_cases Hc; rewrite Hh in *; simplify_eq.
    + by destruct (Hnew eq_refl d).
    + by destruct (Hnew eq_refl d2).
    + rewrite lookup_delete_eq. symmetry. by apply (mi_new _ _ _ I i st a1 d1).
  - rewrite (mem_change_elsewhere i st st' r (mem x) (mem x') a Hc).
    + apply (mi_other _ _ _ I r); [done|done| |intros; by apply Hseg]. intros j sj d Hs' Hh. destruct (decide (j = i)) as [->|Hne]; [|by eapply Hold].
      intros E. apply Hno. split; [done|]. exists d. congruence.
    + intros E d. split; [intros Hh; apply Hno; eauto|by apply Hnew].
Qed.

Lemma mem_step : mem_inv True (<[Z.to_nat r := x']> xs) (<[i := st']> sts).
Proof.
  assert (Hlt : (i < length sts)%nat) by by eapply lookup_lt_Some.
  split.
  - intros j sj a d x2 Hj Hh. rewrite (place_set xs r x) by done. destruct (decide (j = i)) as [->|Hne].
    + rewrite list_lookup_insert_eq in Hj by done. injection Hj as <-. case_decide as E; [intros [= <-]; by apply mem_step_block|].
      intros H2. by eapply mem_step_elsewhere.
    + rewrite list_lookup_insert_ne in Hj by done. case_decide as E; [intros [= <-]; by eapply mem_step_other|].
      by apply (mi_held _ _ _ I j sj).
  - intros x2 j. rewrite (place_set xs r x) by done. case_decide as E; [intros [= <-] _ Hj; by apply mem_step_seg|apply I].
  - intros r2 x2 x0 a. rewrite (place_set xs r x) by done. intros Hx2 H0 Hj Hseg. case_decide as E.
    + injection Hx2 as <-. subst r2. apply mem_step_frame; [done|done|]. intros; by apply Hseg.
    + apply (mi_other _ _ _ I r2); [done|done| |done]. intros j sj d Hs' Hh Ew. destruct (decide (j = i)) as [->|Hne].
      * rewrite Hi in Hs'. injection Hs' as <-. mem_cases Hc.
        -- apply (Hj i st' d); [by rewrite list_lookup_insert_eq|congruence|done].
        -- rewrite Hh in H1. injection H1 as -> _. apply (Hseg ltac:(congruence) Logic.I i); [lia|done].
      * apply (Hj j sj d); [by rewrite list_lookup_insert_ne|done|done].
  - intros j sj a d x0 Hj Hh. destruct (decide (j = i)) as [->|Hne].
    + rewrite list_lookup_insert_eq in Hj by done. injection Hj as <-. by eapply mem_step_new.
    + rewrite list_lookup_insert_ne in Hj by done. by eapply (mi_new _ _ _ I j).
  - intros j k sj sk a d d' Hj Hk Hh Hh' E. destruct (decide (j = i)) as [->|Hne], (decide (k = i)) as [->|Hne']; [done| | |].
    + rewrite list_lookup_insert_eq in Hj by done. rewrite list_lookup_insert_ne in Hk by done. injection Hj as <-. exfalso. by eapply (mem_step_sep k).
    + rewrite list_lookup_insert_eq in Hk by done. rewrite list_lookup_insert_ne in Hj by done. injection Hk as <-. exfalso. by eapply (mem_step_sep j).
    + rewrite list_lookup_insert_ne in Hj, Hk by done. by eapply (mi_sep _ _ _ I j k).
Qed.
End MemStep.

(** ** The invariant *)

Abbreviation ops := (seq 0 count_).
Abbreviation pending sts := (contributions msgs ops sts).

Definition val_ok (st : stage) (v : option D) : Prop :=
  match v, st with
  | Some d, Asked => zero = true /\ d = zeros
  | Some d, _ => forall a d', held st = Some (a, d') -> d' = d
  | None, _ => True
  end.

Definition update_ok y (u : Z * Z * Z) : Prop :=
  y.(now) <> Allocating /\ exists i ph r, u = (r, blk i + ph, w i) /\ (i < count_)%nat /\ 0 <= ph < 2 ^ s
    /\ r <> w i /\ 0 <= r < Z.of_nat (length X) /\ (r, blk i) ∈ y.(told).

Record life_inv y (sts : list stage) : Prop := {
  li_len : length sts = count_;
  li_places : length y.(places) = length X;
  li_tab : tab_inv y.(told) y.(places) sts;
  li_mem : mem_inv (y.(now) <> Freed) y.(places) sts;
  li_stage i st : sts !! i = Some st -> stage_ok i st /\ phase_ok y.(now) st;
  li_posts : y.(posts) ≡ₚ extra y.(now) ++ pending sts;
  li_left : y.(left_) = Z.of_nat (length (pending sts));
  li_segs : y.(segs) = match y.(now) with Freed => G0 | _ => <[(me, l) := (2 ^ s, count_)]> G0 end;
  li_vals : length y.(vals) = count_;
  li_val i st v : sts !! i = Some st -> y.(vals) !! i = Some v -> val_ok st v;
  li_update u : u ∈ y.(updates) -> update_ok y u;
}.

Lemma ops_lookup i : (i < count_)%nat -> ops !! i = Some i.
Proof. intros Hi. rewrite lookup_seq. split; lia. Qed.

(** One block changes its stage. *)
Lemma block_step y sts i st st' r x x' y' : life_inv y sts -> sts !! i = Some st -> place y.(places) r = Some x ->
  y'.(places) = <[Z.to_nat r := x']> y.(places) -> y'.(segs) = y.(segs) -> y'.(now) = y.(now) -> y.(now) <> Freed ->
  y'.(updates) = y.(updates) -> y'.(told) = y.(told) -> st <> Gone ->
  x'.(tbl).(rank_) = r ->
  (forall k, x'.(tbl).(map_) !! k = if decide (k = blk i) then entry_of i st' r else x.(tbl).(map_) !! k) ->
  (forall r2, r2 <> r -> entry_of i st' r2 = entry_of i st r2) ->
  mem_change i st st' r x.(mem) x'.(mem) ->
  stage_ok i st' -> phase_ok y.(now) st' ->
  y'.(posts) ++ msgs (i, st) ≡ₚ y.(posts) ++ msgs (i, st') ->
  y'.(left_) + Z.of_nat (length (msgs (i, st))) = y.(left_) + Z.of_nat (length (msgs (i, st'))) ->
  length y'.(vals) = length y.(vals) -> (forall j, j <> i -> y'.(vals) !! j = y.(vals) !! j) ->
  (forall v, y'.(vals) !! i = Some v -> val_ok st' v) ->
  life_inv y' (<[i := st']> sts).
Proof.
  intros I Hi Hx Ep Es En Hfr Eu Etd Hg Hk Ht Hoth Hm Hok Hph Hps Hlf Hv1 Hv2 Hv3.
  pose proof (lookup_lt_Some _ _ _ Hi) as Hlt. pose proof (li_len _ _ I) as Hlen.
  pose proof (contributions_exchange msgs ops sts i i st st' (ops_lookup i ltac:(lia)) Hi) as Hex.
  split.
  - by rewrite length_insert.
  - rewrite Ep, length_insert. apply I.
  - rewrite Ep, Etd. eapply tab_step; try done. apply I.
  - rewrite Ep, En. assert (Hmi : mem_inv True (places y) sts).
    { destruct (li_mem _ _ I) as [A1 A2 A3 A4 A5]. split; eauto. }
    destruct (mem_step (places y) sts i st st' r x x' Hmi) as [A1 A2 A3 A4 A5]; try done; [|by split; eauto].
    intros j sj Hj. by apply (li_stage _ _ I).
  - rewrite En. intros j sj Hj. destruct (decide (j = i)) as [->|Hne].
    + rewrite list_lookup_insert_eq in Hj by done. by injection Hj as <-.
    + rewrite list_lookup_insert_ne in Hj by done. by apply (li_stage _ _ I).
  - rewrite En. apply Permutation_app_inv_r with (msgs (i, st)). rewrite Hps, (li_posts _ _ I), <- !app_assoc. by rewrite Hex.
  - apply Permutation_length in Hex. rewrite !length_app in Hex. pose proof (li_left _ _ I). lia.
  - rewrite Es, En. apply I.
  - rewrite Hv1. apply I.
  - intros j sj v Hj. destruct (decide (j = i)) as [->|Hne].
    + rewrite list_lookup_insert_eq in Hj by done. injection Hj as <-. apply Hv3.
    + rewrite list_lookup_insert_ne in Hj by done. rewrite Hv2 by done. by apply (li_val _ _ I).
  - intros u. rewrite Eu. intros Hu%(li_update _ _ I). unfold update_ok in *. by rewrite En, Etd.
Qed.

(** ** Placing blocks *)

Lemma blk_nonzero i : blk i <> 0.
Proof. unfold blk, base. pose proof pow_pos. rewrite gva_eq by nia. nia. Qed.

Lemma store_blk (t : btt) i e k : (i < count_)%nat ->
  (store t (blk i) e).(map_) !! k = if decide (k = blk i) then Some e else t.(map_) !! k.
Proof.
  intros Hi. unfold store; simpl. rewrite blk_key0 by done. case_decide as E; [subst; by rewrite lookup_insert_eq|by rewrite lookup_insert_ne].
Qed.

Lemma erase_blk (t : btt) i k : (i < count_)%nat ->
  (erase t (blk i)).(map_) !! k = if decide (k = blk i) then None else t.(map_) !! k.
Proof.
  intros Hi. unfold erase; simpl. rewrite blk_key0 by done. case_decide as E; [subst; by rewrite lookup_delete_eq|by rewrite lookup_delete_ne].
Qed.

Lemma find_blk (t : btt) i ph : (i < count_)%nat -> 0 <= ph < 2 ^ s -> find t (blk i + ph) = t.(map_) !! blk i.
Proof. intros Hi Hp. unfold find. by rewrite (proj1 (blk_key i ph Hi Hp)). Qed.

Lemma find_blk0 (t : btt) i : (i < count_)%nat -> find t (blk i) = t.(map_) !! blk i.
Proof. intros Hi. unfold find. by rewrite blk_key0. Qed.

Lemma guard_ok i : (blk i =? 0) || (n =? 0) || (2 ^ s =? 0) || (lva_of i =? 0) = false.
Proof. pose proof (blk_nonzero i). pose proof pow_pos. pose proof (lva_pos i). zcases; (done || lia). Qed.

Lemma insert_here x i a d : x.(tbl).(rank_) = me -> (i < count_)%nat -> x.(tbl).(map_) !! blk i = None ->
  is_Some (x.(mem) !! lva_of i) ->
  exists d', insertUserBlock x me (blk i) n (2 ^ s) at_ (lva_of i) zero a d
    = Some (mkLocal (store x.(tbl) (blk i) (Entry_new me (lva_of i) n at_)) (<[lva_of i := d']> x.(mem)), false)
    /\ (zero = true -> d' = zeros).
Proof.
  intros Hk Hi Hf [d0 Hd0]. unfold insertUserBlock, insert. rewrite guard_ok, Hk, Z.eqb_refl. simpl. rewrite find_blk0, Hf by done.
  destruct zero; simpl; [rewrite Hd0; simpl; by exists zeros|exists d0]. by rewrite insert_id.
Qed.

Lemma insert_there x i a d : x.(tbl).(rank_) <> me -> (i < count_)%nat -> x.(tbl).(map_) !! blk i = None ->
  insertUserBlock x me (blk i) n (2 ^ s) at_ (lva_of i) zero a d
  = if (a =? 0) || bool_decide (is_Some (x.(mem) !! a)) then None
    else Some (mkLocal (store x.(tbl) (blk i) (Entry_new x.(tbl).(rank_) a n at_)) (<[a := if zero then zeros else d]> x.(mem)), true).
Proof.
  intros Hk Hi Hf. unfold insertUserBlock, insert. rewrite guard_ok. destruct (Z.eqb_spec me (rank_ (tbl x))); [congruence|]. simpl.
  destruct (a =? 0); [done|]. simpl. destruct (x.(mem) !! a) eqn:E; simpl; [done|]. rewrite find_blk0, Hf by done.
  destruct zero; simpl; [|done]. rewrite lookup_insert_eq. simpl. by rewrite insert_insert_eq.
Qed.

Lemma post_exchange (ps q : list parcel) k p : ps !! k = Some p -> (delete k ps ++ q) ++ [p] ≡ₚ ps ++ q.
Proof.
  intros Hk. transitivity ((delete k ps ++ [p]) ++ q); [|by rewrite delete_snoc].
  rewrite <- !app_assoc. apply Permutation_app_head, Permutation_app_comm.
Qed.

Lemma ask_step y sts i k a d y' : life_inv y sts -> sts !! i = Some Asked -> y.(posts) !! k = Some (InsertUserBlock (w i) me (blk i) n (2 ^ s) at_ (lva_of i) zero) ->
  run_parcel (with_posts y (delete k y.(posts))) (InsertUserBlock (w i) me (blk i) n (2 ^ s) at_ (lva_of i) zero) a d = Some y' ->
  exists st', life_inv y' (<[i := st']> sts) /\ y'.(now) = y.(now) /\ (exists a' d', st' = Copied a' d' \/ st' = Placed a' d').
Proof.
  intros I Hi Hk H. pose proof (lookup_lt_Some _ _ _ Hi) as Hlt. rewrite (li_len _ _ I) in Hlt. simpl in H.
  destruct (place (places y) (w i)) as [x|] eqn:Hx; [|done]; cbn [mbind option_bind] in H.
  pose proof (ti_rank _ _ _ (li_tab _ _ I) _ _ Hx) as Hrk. pose proof (tab_block _ _ _ _ _ _ _ (li_tab _ _ I) Hi Hx ltac:(known)) as Hf. simpl in Hf.
  destruct (li_stage _ _ I i _ Hi) as [_ Hph]. assert (Hfr : now y <> Freed) by (intros E; by rewrite E in Hph).
  assert (Hval : forall v d', vals y !! i = Some v -> (zero = true -> d' = zeros) -> match v with Some d => d' = d | None => True end).
  { intros v d' Hv Hz. pose proof (li_val _ _ I i _ v Hi Hv) as Hok. destruct v; [|done]. destruct Hok as [Hz0 ->]. by apply Hz. }
  destruct (decide (w i = me)) as [Em|Em].
  - destruct (insert_here x i a d) as (d' & E & Hd'); [congruence|done|done|apply (mi_seg _ _ _ (li_mem _ _ I)); congruence || done|].
    rewrite E in H. cbn [mbind option_bind] in H. injection H as <-. exists (Placed (lva_of i) d'). split; [|split; [done|eauto]].
    eapply (block_step y sts i Asked (Placed (lva_of i) d') (w i) x); try done.
    + intros k'. cbn [tbl]. rewrite store_blk by done. case_decide; [|done]. cbn [entry_of]. rewrite decide_True by done. by rewrite Em.
    + intros r2 Hr2. simpl. rewrite decide_False, decide_False by congruence. done.
    + by apply mem_here.
    + split; [pose proof (lva_pos i); lia|done].
    + revert Hph. by destruct (now y).
    + simpl. by rewrite app_nil_r, delete_snoc.
    + simpl. lia.
    + simpl. intros v Hv. specialize (Hval v d' Hv Hd'). destruct v; [|done]. by intros ? ? [= _ <-].
  - rewrite insert_there in H by (done || congruence). destruct (Z.eqb_spec a 0); [done|]. simpl in H.
    destruct (mem x !! a) eqn:Hma; [done|]. cbn in H. injection H as <-. exists (Copied a (if zero then zeros else d)). split; [|split; [done|eauto]].
    eapply (block_step y sts i Asked (Copied a (if zero then zeros else d)) (w i) x); try done.
    + intros k'. cbn [tbl]. rewrite store_blk by done. case_decide; [|done]. cbn [entry_of]. rewrite decide_True by done. by rewrite Hrk.
    + intros r2 Hr2. simpl. by rewrite decide_False by congruence.
    + simpl. by apply mem_take.
    + simpl. rewrite Hrk. by apply post_exchange.
    + simpl. intros v Hv. specialize (Hval v (if zero then zeros else d) Hv ltac:(by intros ->)). destruct v; [|done]. by intros ? ? [= _ <-].
Qed.

Lemma translation_step y sts i k a d p x : life_inv y sts -> sts !! i = Some (Copied a d) ->
  p = InsertTranslation me (blk i) (w i) n at_ -> y.(posts) !! k = Some p -> place y.(places) me = Some x ->
  exists y', (forall a' d', run_parcel (with_posts y (delete k y.(posts))) p a' d' = Some y')
    /\ life_inv y' (<[i := Placed a d]> sts) /\ y'.(now) = y.(now).
Proof.
  intros I Hi -> Hk Hx. pose proof (lookup_lt_Some _ _ _ Hi) as Hlt. rewrite (li_len _ _ I) in Hlt.
  pose proof (ti_rank _ _ _ (li_tab _ _ I) _ _ Hx) as Hrk. destruct (li_stage _ _ I i _ Hi) as [[Hok1 Hok2] Hph].
  assert (Hfr : now y <> Freed) by (intros E; by rewrite E in Hph).
  eexists. split; [intros a' d'; simpl; rewrite Hx; reflexivity|]. split; [|done].
  eapply (block_step y sts i (Copied a d) (Placed a d) me x); try done.
  - intros k'. unfold insertTranslation, upsert. cbn [tbl with_tbl]. rewrite store_blk by done. case_decide; [|done].
    cbn [entry_of]. by rewrite decide_False, decide_True by congruence.
  - intros r2 Hr2. simpl. case_decide; [done|]. by rewrite decide_False.
  - by apply mem_same.
  - revert Hph. by destruct (now y).
  - simpl. by rewrite app_nil_r, delete_snoc.
  - simpl. lia.
  - intros v Hv. exact (li_val _ _ I i _ v Hi Hv).
Qed.

(** ** Taking blocks away *)

Lemma freeBlock_here x i e : x.(tbl).(rank_) = me -> (i < count_)%nat -> x.(tbl).(map_) !! blk i = Some e -> e.(count) = 0 ->
  freeBlock x (blk i) = Some (mkLocal (erase x.(tbl) (blk i)) x.(mem), false).
Proof.
  intros Hk Hi He Hc. unfold freeBlock, tryRemove, remove_read. rewrite find_blk0, He by done. cbn [mbind option_bind]. rewrite Hc, Z.eqb_refl. cbn [mbind option_bind].
  destruct (blk_fields0 i Hi) as (_ & _ & _ & -> & _). cbn [tbl with_tbl]. unfold erase at 1. cbn [with_map rank_]. by rewrite Hk, Z.eqb_refl.
Qed.

Lemma freeBlock_there x i e d : x.(tbl).(rank_) <> me -> (i < count_)%nat -> x.(tbl).(map_) !! blk i = Some e -> e.(count) = 0 ->
  x.(mem) !! e.(lva) = Some d ->
  freeBlock x (blk i) = Some (mkLocal (erase x.(tbl) (blk i)) (delete e.(lva) x.(mem)), true)
  /\ ownerOf (mkLocal (erase x.(tbl) (blk i)) (delete e.(lva) x.(mem))) (blk i) = me.
Proof.
  intros Hk Hi He Hc Hm. destruct (blk_fields0 i Hi) as (_ & _ & _ & Hh & Ht). split.
  - unfold freeBlock, tryRemove, remove_read. rewrite find_blk0, He by done. cbn [mbind option_bind]. rewrite Hc, Z.eqb_refl. cbn [mbind option_bind]. rewrite Hh.
    cbn [tbl with_tbl]. unfold erase at 1. cbn [with_map rank_]. destruct (Z.eqb_spec me (rank_ (tbl x))); [congruence|].
    unfold free_mem. cbn [mem with_tbl tbl]. by rewrite Hm.
  - unfold ownerOf, getOwner_cached. destruct (Z.eqb_spec (offset (blk i)) THERE_OFFSET); [done|]. cbn [tbl].
    by rewrite find_blk0, erase_blk, decide_True.
Qed.

Lemma remove_step y sts i k a d p x : life_inv y sts -> sts !! i = Some (FreeSent a d) ->
  p = FreeBlock (w i) (blk i) -> y.(posts) !! k = Some p -> place y.(places) (w i) = Some x ->
  exists y' st', (forall a' d', run_parcel (with_posts y (delete k y.(posts))) p a' d' = Some y')
    /\ life_inv y' (<[i := st']> sts) /\ (st' = Forwarded \/ st' = Gone) /\ y'.(now) = y.(now).
Proof.
  intros I Hi -> Hk Hx. pose proof (lookup_lt_Some _ _ _ Hi) as Hlt. rewrite (li_len _ _ I) in Hlt.
  pose proof (ti_rank _ _ _ (li_tab _ _ I) _ _ Hx) as Hrk. destruct (li_stage _ _ I i _ Hi) as [[Hok1 Hok2] Hph].
  pose proof (tab_block _ _ _ _ _ _ _ (li_tab _ _ I) Hi Hx ltac:(known)) as Hf. cbn [entry_of] in Hf. rewrite decide_True in Hf by done.
  assert (Hfr : now y <> Freed) by (intros E; by rewrite E in Hph).
  destruct (decide (w i = me)) as [Em|Em].
  - pose proof (freeBlock_here x i _ ltac:(congruence) Hlt Hf eq_refl) as E. eexists. exists Gone.
    split; [intros a' d'; simpl; rewrite Hx; simpl; rewrite E; reflexivity|]. split; [|split; [by right|done]].
    eapply (block_step y sts i (FreeSent a d) Gone (w i) x); try done.
    + intros k'. cbn [tbl]. by rewrite erase_blk.
    + intros r2 Hr2. simpl. rewrite decide_False, decide_False by congruence. done.
    + cbn [mem]. apply (mem_leave i _ _ _ _ d); [done|simpl; by rewrite Hok2|done].
    + revert Hph. by destruct (now y).
    + simpl. by rewrite app_nil_r, delete_snoc.
    + simpl. lia.
    + intros v Hv. destruct v; done.
  - pose proof (mi_held _ _ _ (li_mem _ _ I) i _ a d x Hi eq_refl Hx) as Hma.
    destruct (freeBlock_there x i _ d ltac:(congruence) Hlt Hf eq_refl Hma) as [E Eo]. eexists. exists Forwarded.
    split; [intros a' d'; simpl; rewrite Hx; simpl; rewrite E; cbn [mbind option_bind]; rewrite Eo; reflexivity|]. split; [|split; [by left|done]].
    eapply (block_step y sts i (FreeSent a d) Forwarded (w i) x); try done.
    + intros k'. cbn [tbl]. rewrite erase_blk by done. case_decide; [|done]. simpl. by rewrite decide_False by congruence.
    + intros r2 Hr2. simpl. by rewrite (decide_False (P := r2 = w i)) by congruence.
    + cbn [mem]. by apply (mem_free i _ _ _ _ a d).
    + simpl. by apply post_exchange.
    + intros v Hv. destruct v; done.
Qed.

Lemma forward_step y sts i k p x : life_inv y sts -> sts !! i = Some Forwarded ->
  p = FreeBlock me (blk i) -> y.(posts) !! k = Some p -> place y.(places) me = Some x ->
  exists y', (forall a' d', run_parcel (with_posts y (delete k y.(posts))) p a' d' = Some y')
    /\ life_inv y' (<[i := Gone]> sts) /\ y'.(now) = y.(now).
Proof.
  intros I Hi -> Hk Hx. pose proof (lookup_lt_Some _ _ _ Hi) as Hlt. rewrite (li_len _ _ I) in Hlt.
  pose proof (ti_rank _ _ _ (li_tab _ _ I) _ _ Hx) as Hrk. destruct (li_stage _ _ I i _ Hi) as [Hok Hph].
  pose proof (tab_block _ _ _ _ _ _ _ (li_tab _ _ I) Hi Hx ltac:(known)) as Hf. cbn [entry_of] in Hf. rewrite decide_True in Hf by done.
  assert (Hfr : now y <> Freed) by (intros E; by rewrite E in Hph).
  pose proof (freeBlock_here x i _ Hrk Hlt Hf eq_refl) as E. eexists.
  split; [intros a' d'; simpl; rewrite Hx; simpl; rewrite E; reflexivity|]. split; [|done].
  eapply (block_step y sts i Forwarded Gone me x); try done.
  - intros k'. cbn [tbl]. by rewrite erase_blk.
  - intros r2 Hr2. simpl. by rewrite decide_False by congruence.
  - by apply mem_same.
  - revert Hph. by destruct (now y).
  - simpl. by rewrite app_nil_r, delete_snoc.
  - simpl. lia.
  - intros v Hv. destruct v; done.
Qed.

(** ** Phases *)

(** A step that touches no rank: every block goes on to a stage that looks the same. *)
Lemma restage f y sts y' : life_inv y sts -> y'.(places) = y.(places) -> y'.(segs) = y.(segs) -> y'.(vals) = y.(vals) ->
  y'.(updates) = y.(updates) -> y'.(told) = y.(told) -> y.(now) <> Freed -> y'.(now) <> Freed -> y'.(now) <> Allocating ->
  (forall i st, sts !! i = Some st -> held (f st) = held st /\ (forall r, entry_of i (f st) r = entry_of i st r)
     /\ (st = Gone -> f st = Gone) /\ stage_ok i (f st) /\ phase_ok y'.(now) (f st) /\ (forall v, val_ok st v -> val_ok (f st) v)) ->
  y'.(posts) ≡ₚ extra y'.(now) ++ pending (map f sts) -> y'.(left_) = Z.of_nat (length (pending (map f sts))) ->
  life_inv y' (map f sts).
Proof.
  intros I E1 E2 E3 Eu Etd Hf1 Hf2 Ha Hf Hp Hl'.
  assert (Hmf : forall i st, map f sts !! i = Some st -> exists st0, sts !! i = Some st0 /\ st = f st0).
  { intros i st Hi. rewrite list_lookup_fmap in Hi. destruct (sts !! i); [|done]. injection Hi as <-. eauto. }
  split; try done.
  - rewrite length_map. apply I.
  - rewrite E1. apply I.
  - rewrite E1. destruct (li_tab _ _ I) as [T1 T2 T3]. split; [done| |done].
    intros i st r x (st0 & Hi & ->)%Hmf Hx. destruct (Hf i st0 Hi) as (_ & -> & Hg & _). rewrite Etd.
    destruct (T2 i st0 r x Hi Hx) as [?|(H3 & H4 & H5 & H6)]; [by left|right]. split; [done|]. split; [done|]. split; [|done].
    intros Em. apply Hg, H5, Em.
  - rewrite E1. destruct (li_mem _ _ I) as [M1 M2 M3 M4 M5]. split.
    + intros i st a d x (st0 & Hi & ->)%Hmf. destruct (Hf i st0 Hi) as (-> & _). by apply M1.
    + intros x j Hx _. by apply M2.
    + intros r x x0 a Hx H0 Hj Hseg. apply (M3 r); [done|done| |intros; by apply Hseg].
      intros i st d Hi Hh. apply (Hj i (f st) d); [by rewrite list_lookup_fmap, Hi|]. by destruct (Hf i st Hi) as (-> & _).
    + intros i st a d x0 (st0 & Hi & ->)%Hmf. destruct (Hf i st0 Hi) as (-> & _). by apply M4.
    + intros i j si sj a d d' (st0 & Hi & ->)%Hmf (st1 & Hj & ->)%Hmf. destruct (Hf i st0 Hi) as (-> & _), (Hf j st1 Hj) as (-> & _). by apply M5.
  - intros i st (st0 & Hi & ->)%Hmf. by destruct (Hf i st0 Hi) as (_ & _ & _ & ? & ? & _).
  - rewrite E2, (li_segs _ _ I). by destruct (now y), (now y').
  - rewrite E3. apply I.
  - intros i st v (st0 & Hi & ->)%Hmf. rewrite E3. intros Hv. destruct (Hf i st0 Hi) as (_ & _ & _ & _ & _ & H). apply H. by apply (li_val _ _ I i).
  - intros u. rewrite Eu. intros [_ Hu]%(li_update _ _ I). split; [done|]. by rewrite Etd.
Qed.

Lemma restage_same y sts y' : life_inv y sts -> y'.(places) = y.(places) -> y'.(segs) = y.(segs) -> y'.(vals) = y.(vals) ->
  y'.(updates) = y.(updates) -> y'.(told) = y.(told) ->
  y'.(left_) = y.(left_) -> y.(now) <> Freed -> y'.(now) <> Freed -> y'.(now) <> Allocating ->
  (forall i st, sts !! i = Some st -> phase_ok y'.(now) st) -> y'.(posts) ≡ₚ extra y'.(now) ++ pending sts -> life_inv y' sts.
Proof.
  intros I E1 E2 E3 Eu Etd E4 Hf1 Hf2 Ha Hph Hp. rewrite <- (map_id sts). apply (restage id y); rewrite ?map_id; try done.
  - intros i st Hi. split; [done|]. split; [done|]. split; [done|]. split; [by apply (li_stage _ _ I)|]. split; [by apply (Hph i)|done].
  - rewrite E4. apply I.
Qed.

Lemma pending_nil sts i st : length sts = count_ -> pending sts = [] -> sts !! i = Some st -> msgs (i, st) = [].
Proof.
  intros Hlen Hp Hi. destruct (msgs (i, st)) as [|p ps] eqn:E; [done|].
  assert (Hin : p ∈ pending sts).
  { eapply contributions_in; [apply ops_lookup|done|rewrite E; left]. rewrite <- Hlen. by eapply lookup_lt_Some. }
  rewrite Hp in Hin. by apply elem_of_nil in Hin.
Qed.

Lemma pending_quiet sts : (forall i st, sts !! i = Some st -> msgs (i, st) = []) -> pending sts = [].
Proof.
  intros H. apply contributions_nil. intros i c st Hc Hi. apply lookup_seq in Hc as [-> _]. by apply H.
Qed.

Lemma left_zero y sts : life_inv y sts -> y.(left_) = 0 -> pending sts = [].
Proof. intros I E. rewrite (li_left _ _ I) in E. apply length_zero_iff_nil. lia. Qed.

Lemma return_step y sts : life_inv y sts -> y.(now) = Allocating -> y.(left_) = 0 -> life_inv (enter y Allocated) sts.
Proof.
  intros I En El. pose proof (left_zero _ _ I El) as Hp. apply (restage_same y); try done; [by rewrite En| |].
  - intros i st Hi. pose proof (pending_nil sts i st (li_len _ _ I) Hp Hi) as Hm. destruct (li_stage _ _ I i st Hi) as [_ Hph].
    rewrite En in Hph. by destruct st.
  - rewrite Hp. simpl. pose proof (li_posts _ _ I) as Hq. by rewrite En, Hp in Hq.
Qed.

Lemma called_step y sts : life_inv y sts -> y.(now) = Allocated -> life_inv (enter (post y [FreeSegment me base]) Called) sts.
Proof.
  intros I En. apply (restage_same y); try done; [by rewrite En| |].
  - intros i st Hi. destruct (li_stage _ _ I i st Hi) as [_ Hph]. by rewrite En in Hph.
  - simpl. rewrite (li_posts _ _ I), En. simpl. apply Permutation_app_comm.
Qed.

(** ** The segment *)

Lemma segment_loop_eq k : forall i, (i + k <= count_)%nat -> segment_loop k me (blk i) (2 ^ s) = Some (map blk (seq i k)).
Proof.
  pose proof pow_pos. induction k as [|k IH]; intros i Hik; [done|]. cbn [segment_loop seq map].
  destruct (blk_fields0 i) as (A & B & C & E & F); [lia|]. rewrite E, Z.eqb_refl, block_size_eq, B by done.
  pose proof (blk_off i ltac:(lia)). assert (Ea : add nranks (blk i) (2 ^ s) (2 ^ s) = Some (blk (S i))).
  { unfold blk. rewrite add_blk by lia. f_equal. lia. }
  rewrite Ea. cbn [mbind option_bind]. by rewrite IH by lia.
Qed.

Lemma freeSegment_eq x d : x.(tbl).(rank_) = me -> x.(tbl).(map_) !! blk 0 = entry_of 0 (Placed (lva_of 0) d) me ->
  freeSegment x base = Some (l, map blk ops).
Proof.
  intros Hk Hf. assert (H0 : (0 < count_)%nat) by (unfold count_; lia).
  destruct base_fields as (A & B & C & E & F). assert (Eb : base = blk 0) by (unfold blk; lia).
  unfold freeSegment, getSegment. rewrite E. change (nz 0) with false. cbn [mbind option_bind].
  rewrite E. change (nz 0) with false. rewrite Eb at 1. rewrite find_blk0, Hf by done. cbn [entry_of].
  rewrite decide_True by (by rewrite Hw0). cbn [mbind option_bind Entry_new lva blocks]. rewrite block_size_eq, C by done.
  change (Z.to_nat n) with count_. rewrite Hk, Eb, (segment_loop_eq count_ 0) by lia. cbn [mbind option_bind]. do 2 f_equal. unfold lva_of. lia.
Qed.

Definition send_free (st : stage) : stage := match st with Placed a d => FreeSent a d | _ => st end.

Lemma me_place y sts : life_inv y sts -> exists x, place y.(places) me = Some x.
Proof. intros I. apply place_is. rewrite (li_places _ _ I), <- Hw0. apply Hw. unfold count_. lia. Qed.

Lemma w_place y sts i : life_inv y sts -> (i < count_)%nat -> exists x, place y.(places) (w i) = Some x.
Proof. intros I Hi. apply place_is. rewrite (li_places _ _ I). by apply Hw. Qed.

Lemma placed_stage y sts i : life_inv y sts -> (y.(now) = Allocated \/ y.(now) = Called) -> (i < count_)%nat ->
  exists a d, sts !! i = Some (Placed a d).
Proof.
  intros I En Hi. destruct (lookup_lt_is_Some_2 sts i) as [st Hst]; [by rewrite (li_len _ _ I)|].
  destruct (li_stage _ _ I i st Hst) as [_ Hph]. destruct st as [| |a d| | |]; destruct En as [E|E]; rewrite E in Hph; (done || eauto).
Qed.

(** The home knows where its blocks are. *)
Lemma owner_known y sts i a d x : life_inv y sts -> sts !! i = Some (Placed a d) -> place y.(places) me = Some x ->
  ownerOf x (blk i) = w i.
Proof.
  intros I Hi Hx. pose proof (lookup_lt_Some _ _ _ Hi) as Hlt. rewrite (li_len _ _ I) in Hlt.
  destruct (blk_fields0 i Hlt) as (_ & _ & _ & _ & Ht). pose proof (tab_block _ _ _ _ _ _ _ (li_tab _ _ I) Hi Hx ltac:(known)) as Hf. cbn [entry_of] in Hf.
  unfold ownerOf, getOwner_cached. destruct (Z.eqb_spec (offset (blk i)) THERE_OFFSET); [done|]. rewrite find_blk0, Hf by done.
  pose proof (Hw i Hlt). rewrite (decide_True (P := me = me)) by done. assert (Hu : u16 (w i) = w i) by (apply wrap_small; lia).
  case_decide; cbn [Entry_new owner fst]; exact Hu.
Qed.

Lemma pending_free sts : length sts = count_ -> (forall i st, sts !! i = Some st -> exists a d, st = Placed a d) ->
  pending (map send_free sts) = map (fun i => FreeBlock (w i) (blk i)) ops.
Proof.
  intros Hlen Hall. unfold contributions. revert Hlen Hall. generalize 0%nat. generalize count_. intros c i0 Hlen Hall. revert i0 c Hlen.
  induction sts as [|st sts IH]; intros i0 [|c] Hlen; try done. simpl in Hlen. injection Hlen as Hlen.
  destruct (Hall 0%nat st eq_refl) as (a & d & ->). simpl. f_equal. apply IH; [|done]. intros i st Hi. by apply (Hall (S i)).
Qed.

Lemma segment_step y sts k x : life_inv y sts -> y.(now) = Called -> y.(posts) !! k = Some (FreeSegment me base) ->
  place y.(places) me = Some x ->
  exists y', (forall a d, run_parcel (with_posts y (delete k y.(posts))) (FreeSegment me base) a d = Some y')
    /\ life_inv y' (map send_free sts) /\ y'.(now) = Freeing me l.
Proof.
  intros I En Hk Hx. assert (Hall : forall i st, sts !! i = Some st -> exists a d, st = Placed a d).
  { intros i st Hi. destruct (placed_stage y sts i) as (a & d & E); [done|by right| |exists a, d; congruence].
    rewrite <- (li_len _ _ I). by eapply lookup_lt_Some. }
  destruct (placed_stage y sts 0) as (a & d & H0); [done|by right|unfold count_; lia|].
  pose proof (ti_rank _ _ _ (li_tab _ _ I) _ _ Hx) as Hrk. pose proof (tab_block _ _ _ _ _ _ _ (li_tab _ _ I) H0 Hx ltac:(known)) as Hf.
  destruct (li_stage _ _ I _ _ H0) as [[_ Ha] _]. rewrite (Ha Hw0) in *.
  pose proof (freeSegment_eq x d Hrk Hf) as E.
  assert (Hpend : pending sts = []).
  { apply pending_quiet. intros i st Hi. by destruct (Hall i st Hi) as (? & ? & ->). }
  assert (Hps : map (fun b => FreeBlock (ownerOf x b) b) (map blk ops) = pending (map send_free sts)).
  { rewrite pending_free, map_map by (apply I || done). apply map_ext_in. intros i Hi%in_seq.
    destruct (placed_stage y sts i) as (a' & d' & Hi'); [done|by right|lia|]. by rewrite (owner_known y sts i a' d' x). }
  eexists. split; [intros a' d'; cbn [run_parcel with_posts places]; rewrite Hx; cbn [mbind option_bind]; rewrite E; reflexivity|]. split; [|done].
  apply (restage send_free y); try done; [by rewrite En|..].
  - intros i st Hi. destruct (Hall i st Hi) as (a' & d' & ->). destruct (li_stage _ _ I i _ Hi) as [Hok _]. done.
  - cbn [posts enter with_left post with_posts now extra]. rewrite Hps. apply Permutation_app_tail with (l' := []).
    pose proof (li_posts _ _ I) as Hq. rewrite En, Hpend in Hq. simpl in Hq. apply Permutation_singleton_r in Hq. rewrite Hq in *.
    destruct k as [|k]; [done|]. by destruct k.
  - cbn [left_ enter with_left]. rewrite <- Hps. by rewrite !length_map.
Qed.

Lemma drop_blocks_lookup k : forall (m : gmap Z D) i a,
  ((exists j, (i <= j < i + k)%nat /\ a = lva_of j) -> drop_blocks m (lva_of i) (2 ^ s) k !! a = None)
  /\ ((forall j, (i <= j < i + k)%nat -> a <> lva_of j) -> drop_blocks m (lva_of i) (2 ^ s) k !! a = m !! a).
Proof.
  assert (Hnext : forall i, lva_of i + 2 ^ s = lva_of (S i)) by (intros; unfold lva_of; lia).
  induction k as [|k IH]; intros m i a; cbn [drop_blocks]; [split; [intros (j & Hj & _); lia|done]|].
  rewrite Hnext. destruct (IH (delete (lva_of i) m) (S i) a) as [H1 H2]. split.
  - intros (j & Hj & ->). destruct (decide (j = i)) as [->|Hne]; [|apply H1; exists j; split; [lia|done]].
    rewrite H2; [apply lookup_delete_eq|]. intros j Hj' E%lva_inj. lia.
  - intros H. rewrite H2 by (intros j Hj'; apply H; lia). apply lookup_delete_ne. intros E. apply (H i); [lia|done].
Qed.

(** The last step: the memory of the segment goes back. *)
Lemma finish_step y sts : life_inv y sts -> y.(now) <> Freed -> (forall i st, sts !! i = Some st -> st = Gone) ->
  y.(now) <> Called ->
  exists y', global_free y me l = Some y' /\ life_inv (enter y' Freed) sts.
Proof.
  intros I En Hall Hnc. destruct (me_place y sts I) as [x Hx].
  assert (Es : segs y = <[(me, l) := (2 ^ s, count_)]> G0) by (rewrite (li_segs _ _ I); by destruct (now y)).
  eexists. split.
  { unfold global_free. rewrite Es, lookup_insert_eq. cbn [mbind option_bind]. rewrite Hx. reflexivity. }
  assert (Hpend : pending sts = []) by (apply pending_quiet; intros i st Hi; by rewrite (Hall i st Hi)).
  split; cbn [enter places segs posts left_ now vals set_place].
  - apply I.
  - rewrite length_insert. apply I.
  - destruct (li_tab _ _ I) as [T1 T2 T3].
    assert (Hpl : forall r x2, place (<[Z.to_nat me := mkLocal (tbl x) (drop_blocks (mem x) l (2 ^ s) count_)]> (places y)) r = Some x2 ->
      exists x1, place (places y) r = Some x1 /\ tbl x2 = tbl x1).
    { intros r x2. rewrite (place_set (places y) me x) by done. case_decide; [intros [= <-]; subst; eauto|eauto]. }
    split.
    + intros r x2 (x1 & H1 & ->)%Hpl. by apply T1.
    + intros i st r x2 Hi (x1 & H1 & ->)%Hpl. by apply T2.
    + intros r x2 x0 k (x1 & H1 & ->)%Hpl. by apply T3.
  - assert (Hnone : forall i st a d, sts !! i = Some st -> held st = Some (a, d) -> False) by (intros i st a d Hi; by rewrite (Hall i st Hi)).
    destruct (li_mem _ _ I) as [M1 M2 M3 M4 M5]. split; try (intros; exfalso; by eauto).
    intros r x2 x0 a. rewrite (place_set (places y) me x) by done. intros Hx2 H0 _ _. case_decide as E.
    + subst r. injection Hx2 as <-. cbn [mem]. assert (El : l = lva_of 0) by (unfold lva_of; lia). rewrite El.
      destruct (drop_blocks_lookup count_ (mem x) 0 a) as [D1 D2].
      destruct (decide (Exists (fun j => a = lva_of j) ops)) as [(j & Hj & Ea)%Exists_exists|Hno].
      * apply elem_of_seq in Hj. rewrite D1 by (exists j; split; [lia|done]). rewrite Ea. symmetry. apply Hmem; [done|lia].
      * assert (Hne : forall j, (j < count_)%nat -> a <> lva_of j).
        { intros j Hj ->. apply Hno, Exists_exists. exists j. split; [apply elem_of_seq; lia|done]. }
        rewrite D2 by (intros j Hj; apply Hne; lia). apply (M3 me); [done|done|by eauto|by eauto].
    + apply (M3 r); [done|done|by eauto|]. intros ->. done.
  - intros i st Hi. rewrite (Hall i st Hi). done.
  - rewrite Hpend. simpl. pose proof (li_posts _ _ I) as Hq. rewrite Hpend in Hq. by destruct (now y).
  - apply I.
  - rewrite Es. by apply delete_insert_id.
  - apply I.
  - intros i st v Hi _. rewrite (Hall i st Hi). by destruct v.
  - intros u [_ Hu]%(li_update _ _ I). by split.
Qed.

(** ** Uses *)

Lemma access_block x i ph a d src v : (i < count_)%nat -> 0 <= ph < 2 ^ s ->
  x.(tbl).(map_) !! blk i = Some (Entry_new x.(tbl).(rank_) a n at_) -> x.(mem) !! a = Some d ->
  access x (blk i + ph) src v
  = Some (mkLocal x.(tbl) (match v with Some d' => <[a := d']> x.(mem) | None => x.(mem) end), Seen d).
Proof.
  intros Hi Hp Hf Hm. unfold access, tryPin. rewrite find_blk, Hf by done. cbn [owner count lva Entry_new]. rewrite Z.eqb_refl.
  change ((0 <=? 0) && (0 <? 2 ^ 31 - 1)) with true. cbn [mbind option_bind].
  replace (a + toBlockOffset (blk i + ph) - toBlockOffset (blk i + ph)) with a by lia. rewrite Hm. cbn [mbind option_bind].
  unfold unpin. rewrite find_store, decide_True by done. cbn [mbind option_bind owner count with_count Entry_new].
  unfold store. cbn [with_map rank_ map_]. rewrite Z.eqb_refl. cbn [andb]. change (0 <? 0 + 1) with true. cbn [andb].
  change (nz (0 + 1 - 1)) with false. cbn [mbind option_bind with_map rank_ map_ lva blocks cont attr].
  rewrite (proj1 (blk_key i ph Hi Hp)), insert_insert_eq. change (0 + 1 - 1) with 0.
  change (mkEntry 0 (rank_ (tbl x)) a n None at_) with (Entry_new (rank_ (tbl x)) a n at_). rewrite (insert_id _ _ _ Hf).
  by destruct x as [[] ?].
Qed.

Lemma access_failed x i ph src v x' res : (i < count_)%nat -> 0 <= ph < 2 ^ s ->
  (forall e, x.(tbl).(map_) !! blk i = Some e -> e.(owner) = w i) -> w i <> x.(tbl).(rank_) ->
  access x (blk i + ph) src v = Some (x', res) ->
  x' = x /\ (res = Failed None \/ res = Failed (Some (src, w i)) /\ src <> x.(tbl).(rank_)).
Proof.
  intros Hi Hp Hf Hne. unfold access, tryPin. rewrite find_blk by done. destruct (map_ (tbl x) !! blk i) as [e|].
  - rewrite (Hf e eq_refl). destruct (Z.eqb_spec (w i) (rank_ (tbl x))); [done|]. cbn [mbind option_bind].
    intros [= <- <-]. split; [by destruct x|]. destruct (Z.eqb_spec src (rank_ (tbl x))); [by left|by right].
  - destruct (home (blk i + ph) =? _); [done|]. cbn [mbind option_bind]. intros [= <- <-]. split; [by destruct x|by left].
Qed.

(** An entry for a block names its rank. *)
Lemma entry_owner y sts i st r x e : life_inv y sts -> sts !! i = Some st -> place y.(places) r = Some x ->
  x.(tbl).(map_) !! blk i = Some e -> e.(owner) = w i /\ e.(count) = 0.
Proof.
  intros I Hi Hx He. destruct (ti_block _ _ _ (li_tab _ _ I) i st r x Hi Hx) as [Hf|[Hf _]]; rewrite He in Hf; [|by injection Hf as ->].
  destruct st; cbn [entry_of] in Hf; repeat case_decide; simplify_eq; done.
Qed.

(** A step that keeps the blocks and tells a rank. *)
Lemma tell_step y sts i ph r : life_inv y sts -> y.(now) = Allocated -> (i < count_)%nat -> 0 <= ph < 2 ^ s -> r <> w i ->
  0 <= r < Z.of_nat (length X) -> life_inv (tell y r (blk i + ph) (w i)) sts.
Proof.
  intros I En Hi Hph Hne Hrr. destruct (blk_key i ph Hi Hph) as [Hk _]. destruct I as [I1 I2 I3 I4 I5 I6 I7 I8 I9 I10 I11].
  split; try done; cbn [tell told updates].
  - destruct I3 as [T1 T2 T3]. split; [done| |done]. intros j st r2 x Hj Hx. destruct (T2 j st r2 x Hj Hx) as [?|(H1 & H2 & H3 & H4)]; [by left|right].
    split; [done|]. split; [done|]. split; [done|]. apply elem_of_app. by left.
  - intros u. rewrite elem_of_app, list_elem_of_singleton. intros [(_ & j & ph' & r' & Hu)%I11| ->]; (split; [cbn [now tell]; by rewrite En|]).
    + exists j, ph', r'. cbn [told tell]. rewrite elem_of_app. naive_solver.
    + exists i, ph, r. cbn [told tell]. rewrite elem_of_app, Hk. repeat split; try done; try lia. right. left.
Qed.

Lemma use_step y sts r src p v y' res : life_inv y sts -> alloc_step base bsize y (Use r src p v) = Some (y', res) ->
  y'.(now) = y.(now) /\
  ((life_inv y' sts /\ res = None) \/
   exists i a d d', i = Z.to_nat (p / bsize) /\ r = w i /\ sts !! i = Some (Placed a d) /\ res = Some d
     /\ life_inv y' (<[i := Placed a d']> sts)).
Proof.
  intros I H. cbn [alloc_step] in H. destruct (now y) eqn:En; try done.
  destruct (Z.leb_spec 0 p) as [Hp0|]; [|done]. destruct (Z.ltb_spec (p / bsize) (Z.of_nat (length (vals y)))) as [Hp1|]; [|done].
  rewrite (li_vals _ _ I), count_eq in Hp1. cbn [andb] in H. rewrite add_use in H by done. cbn [mbind option_bind] in H.
  destruct (use_block p Hp0 Hp1) as [Hi Hph]. set (i := Z.to_nat (p / bsize)) in *.
  destruct (place (places y) r) as [x|] eqn:Hx; [|done]. cbn [mbind option_bind] in H.
  destruct (place (places y) src) as [x2|] eqn:Hx2; [|done]. cbn [mbind option_bind] in H.
  destruct (_ && _) eqn:Hask; [done|]. destruct (placed_stage y sts i) as (a & d & Hst); [done|by left|done|].
  pose proof (ti_rank _ _ _ (li_tab _ _ I) _ _ Hx) as Hrk.
  destruct (decide (r = w i)) as [Er|Er].
  - pose proof (tab_block _ _ _ _ _ _ _ (li_tab _ _ I) Hst Hx ltac:(known)) as Hf. cbn [entry_of] in Hf.
    pose proof (mi_held _ _ _ (li_mem _ _ I) i _ a d x Hst eq_refl ltac:(by rewrite <- Er)) as Hma. rewrite decide_True in Hf by done.
    rewrite (access_block x i (p mod bsize) a d src v) in H; [|done|done|by rewrite Hf, Hrk, Er|done].
    cbn [mbind option_bind] in H. injection H as <- <-.
    split; [by destruct v|]. right. exists i, a, d, (match v with Some d' => d' | None => d end).
    split; [done|]. split; [done|]. split; [done|]. split; [done|].
    eapply (block_step y sts i (Placed a d) (Placed a (match v with Some d' => d' | None => d end)) r x
      (mkLocal (tbl x) (match v with Some d' => <[a := d']> (mem x) | None => mem x end))); try done; try (by destruct v).
    + by rewrite En.
    + intros k. cbn [tbl]. case_decide as E; [|done]. subst k. rewrite Hf. cbn [entry_of]. by rewrite decide_True.
    + cbn [mem]. destruct v as [d'|]; [by apply (mem_write i _ _ _ _ a d d')|by apply mem_same].
    + destruct (li_stage _ _ I i _ Hst) as [Hok _]. done.
    + by rewrite En.
    + destruct v; simpl; [by rewrite length_insert|done].
    + intros j Hj. destruct v; simpl; [by rewrite list_lookup_insert_ne|done].
    + intros v' Hv'. destruct v as [d'|]; simpl in Hv'.
      * rewrite list_lookup_insert_eq in Hv' by (by rewrite (li_vals _ _ I)). injection Hv' as <-. by intros ? ? [= _ <-].
      * exact (li_val _ _ I i _ v' Hst Hv').
  - destruct (access x (blk i + p mod bsize) src v) as [[x' c]|] eqn:Ea; [|done]. cbn [mbind option_bind] in H.
    assert (Hset : set_place y r x = y).
    { unfold set_place. destruct y; simpl in *. f_equal. apply list_insert_id. unfold place in Hx. by destruct (r <? 0). }
    apply access_failed in Ea as [-> [-> |[-> Hne]]]; [..|done|done| |congruence].
    + rewrite Hset in H. injection H as <- <-. split; [by rewrite <- En|]. by left.
    + rewrite Hset in H. injection H as <- <-. split; [by rewrite <- En|]. left. split; [|done].
      apply tell_step; try done; [|rewrite <- (li_places _ _ I); by eapply place_range].
      intros ->. rewrite Hrk in Hne. pose proof (tab_block _ _ _ _ _ _ _ (li_tab _ _ I) Hst Hx2 ltac:(known)) as Hf.
      cbn [entry_of] in Hf. rewrite decide_True in Hf by done. destruct (blk_fields i (p mod bsize) Hi Hph) as (_ & _ & _ & _ & Hth).
      assert (Eo : ownerOf x2 (blk i + p mod bsize) = w i).
      { unfold ownerOf, getOwner_cached. destruct (Z.eqb_spec (offset (blk i + p mod bsize)) THERE_OFFSET); [done|].
        rewrite find_blk, Hf by done. cbn [fst owner Entry_new]. apply wrap_small. pose proof (Hw i Hi). lia. }
      rewrite Eo, Z.eqb_refl in Hask. destruct (Z.eqb_spec r (w i)); [done|]. done.
    + intros e He. by destruct (entry_owner y sts i _ r x e I Hst Hx He).
Qed.

(** ** Owner updates *)

(** An update that arrives changes nothing, or leaves a translation. *)
Lemma update_step y sts k u : life_inv y sts -> y.(updates) !! k = Some u ->
  exists y', alloc_step base bsize y (Update k) = Some (y', None) /\ y'.(now) = y.(now) /\ life_inv y' sts.
Proof.
  intros I Hk. destruct (li_update _ _ I u (list_elem_of_lookup_2 _ _ _ Hk)) as (Hna & i & ph & r & -> & Hi & Hph & Hne & Hrr & Htold).
  destruct (place_is (places y) r) as [x Hx]; [by rewrite (li_places _ _ I)|]. pose proof (ti_rank _ _ _ (li_tab _ _ I) _ _ Hx) as Hrk.
  destruct (lookup_lt_is_Some_2 sts i) as [st Hst]; [by rewrite (li_len _ _ I)|].
  assert (Hu : exists e, UpdateOwnerHandler x (blk i + ph) (w i) = Some (with_tbl x (store x.(tbl) (blk i) e))
    /\ (x.(tbl).(map_) !! blk i = Some e \/ x.(tbl).(map_) !! blk i = None /\ e = cached i)).
  { unfold UpdateOwnerHandler, updateOwner. rewrite wrap_small by (pose proof (Hw i Hi); lia). rewrite Hrk.
    destruct (Z.eqb_spec (w i) r); [congruence|]. rewrite find_blk by done. unfold store.
    rewrite (proj1 (blk_key i ph Hi Hph)), (blk_key0 i Hi). destruct (map_ (tbl x) !! blk i) as [e|] eqn:He.
    - destruct (entry_owner y sts i st r x e I Hst Hx He) as [Eo Ec]. rewrite Ec, Z.eqb_refl. cbn [mbind option_bind]. exists e.
      split; [|by left]. assert (Ee : with_owner e (w i) = e) by (rewrite <- Eo; by destruct e). by rewrite Ee.
    - cbn [mbind option_bind]. eexists. split; [done|by right]. }
  destruct Hu as (e & Eu & He). eexists. split.
  { cbn [alloc_step]. rewrite Hk. cbn [mbind option_bind]. rewrite Hx. cbn [mbind option_bind]. rewrite Eu. reflexivity. }
  split; [done|].
  assert (Hmap' : forall k', map_ (store (tbl x) (blk i) e) !! k' = if decide (k' = blk i) then Some e else map_ (tbl x) !! k') by (intros; by apply store_blk).
  assert (Hmem' : forall r2 x2, place (<[Z.to_nat r := with_tbl x (store (tbl x) (blk i) e)]> (places y)) r2 = Some x2 ->
    exists x1, place (places y) r2 = Some x1 /\ mem x2 = mem x1).
  { intros r2 x2. rewrite (place_set (places y) r x) by done. case_decide; [intros [= <-]; subst; eauto|eauto]. }
  split; cbn [set_place with_updates places segs posts left_ now vals updates told]; try apply I.
  - rewrite length_insert. apply I.
  - destruct (li_tab _ _ I) as [T1 T2 T3]. split.
    + intros r2 x2. rewrite (place_set (places y) r x) by done. case_decide; [intros [= <-]; simpl; congruence|apply T1].
    + intros j sj r2 x2 Hj. rewrite (place_set (places y) r x) by done. case_decide as E; [|by apply T2]. subst r2. intros [= <-].
      cbn [tbl with_tbl]. rewrite Hmap'. case_decide as Ej; [|by apply T2]. apply blk_inj in Ej as ->. rewrite Hst in Hj. injection Hj as <-.
      destruct He as [He|[He ->]]; [rewrite <- He; by apply T2|right]. split; [done|]. split; [done|]. split; [|done].
      intros ->. destruct (T2 i st me x Hst Hx) as [Hf|[Hf _]]; [|congruence]. rewrite He in Hf.
      destruct (li_stage _ _ I i st Hst) as [_ Hp]. destruct st; cbn [entry_of] in Hf; rewrite ?(decide_False (P := me = w i)), ?(decide_True (P := me = me)) in Hf by done; try done;
        by destruct (now y).
    + intros r2 x2 x0 k'. rewrite (place_set (places y) r x) by done. intros H2 H0 Hk'. case_decide as E; [|by apply (T3 r2)].
      injection H2 as <-. subst r2. cbn [tbl with_tbl]. rewrite Hmap', decide_False by (by apply Hk'). by apply (T3 r).
  - destruct (li_mem _ _ I) as [M1 M2 M3 M4 M5]. split; try done.
    + intros j sj a d x2 Hj Hh (x1 & H1 & ->)%Hmem'. by apply (M1 j sj).
    + intros x2 j (x1 & H1 & ->)%Hmem'. by apply M2.
    + intros r2 x2 x0 a (x1 & H1 & ->)%Hmem'. by apply M3.
  - intros u Hu%elem_of_delete. by apply (li_update _ _ I).
Qed.

(** ** Release *)

Lemma fast_eq x d : x.(tbl).(rank_) = me -> x.(tbl).(map_) !! blk 0 = entry_of 0 (Placed (lva_of 0) d) me ->
  free x base = if n =? 1 then (mkLocal (erase x.(tbl) (blk 0)) x.(mem), Fast l) else (x, AtHome me).
Proof.
  intros Hk Hf. assert (H0 : (0 < count_)%nat) by (unfold count_; lia).
  destruct base_fields as (A & B & C & E & F). assert (Eb : base = blk 0) by (unfold blk; lia).
  unfold free. destruct (Z.eqb_spec base 0) as [Hz|_]; [destruct (blk_nonzero 0); congruence|].
  unfold tryRemoveForFastpathFree. rewrite E, F, Hk, Z.eqb_refl. change (nz 0) with false. cbn [orb negb]. rewrite Eb, find_blk0, Hf by done.
  cbn [entry_of]. rewrite decide_True by (by rewrite Hw0). cbn [Entry_new count blocks lva]. rewrite Z.eqb_refl. cbn [andb].
  assert (El : lva_of 0 = l) by (unfold lva_of; lia). rewrite El. assert (Hnz : nz l = true) by (unfold nz; destruct (Z.eqb_spec l 0); [lia|done]).
  destruct (n =? 1); [by rewrite Hnz, Hnz|reflexivity].
Qed.

Lemma slow_eq x r : x.(tbl).(rank_) = r -> r <> me -> free x base = (x, AtHome me).
Proof.
  intros Hk Hne. destruct base_fields as (A & B & C & E & F). assert (Eb : base = blk 0) by (unfold blk; lia).
  unfold free. destruct (Z.eqb_spec base 0) as [Hz|_]; [destruct (blk_nonzero 0); congruence|].
  unfold tryRemoveForFastpathFree. rewrite E, F, Hk. change (nz 0) with false. destruct (Z.eqb_spec me r); [congruence|]. done.
Qed.

(** The fast path does what the segment's release would have done. *)
Lemma fast_step y sts x a d : life_inv y sts -> y.(now) = Allocated -> n = 1 -> place y.(places) me = Some x -> sts = [Placed a d] ->
  exists y', global_free (set_place y me (mkLocal (erase x.(tbl) (blk 0)) x.(mem))) me l = Some y' /\ life_inv (enter y' Freed) [Gone].
Proof.
  intros I En E1 Hx ->. assert (Ec : count_ = 1%nat) by (unfold count_; lia).
  assert (Hps : posts y = []).
  { pose proof (li_posts _ _ I) as Hq. rewrite En, Ec in Hq. simpl in Hq. by apply Permutation_nil_r in Hq. }
  set (y1 := mkSpace (places y) (segs y) [FreeBlock (w 0) (blk 0)] 1 (Freeing me l) (vals y) (updates y) (told y)).
  assert (I1 : life_inv y1 [FreeSent a d]).
  { apply (restage send_free y [Placed a d]); try done; [by rewrite En| |by rewrite Ec|by rewrite Ec].
    intros [|i] st [= <-]. destruct (li_stage _ _ I 0%nat _ eq_refl) as [Hok _]. done. }
  destruct (remove_step y1 [FreeSent a d] 0 0 a d _ x I1 eq_refl eq_refl eq_refl) as (y2 & st' & E2 & I2 & _ & En2); [cbn; by rewrite Hw0|].
  assert (Hrk : rank_ (tbl x) = me) by by apply (ti_rank _ _ _ (li_tab _ _ I)).
  pose proof (tab_block _ _ _ 0%nat _ _ _ (li_tab _ _ I1) eq_refl Hx ltac:(known)) as Hf. cbn [entry_of] in Hf. rewrite decide_True in Hf by done.
  specialize (E2 0 d). cbn [run_parcel y1 with_posts places] in E2. rewrite Hw0, Hx in E2. cbn [mbind option_bind] in E2.
  rewrite (freeBlock_here x 0 _ Hrk ltac:(lia) Hf eq_refl) in E2. cbn [mbind option_bind] in E2. injection E2 as <-.
  assert (st' = Gone) as ->.
  { pose proof (li_left _ _ I2) as HL. rewrite Ec in HL. cbn in HL. destruct (li_stage _ _ I2 0%nat st' eq_refl) as [_ Hp]. by destruct st'. }
  destruct (finish_step _ _ I2) as (y3 & E3 & I3); [done| |done|].
  { intros [|i] st Hi; cbn in Hi; [by injection Hi as <-|done]. }
  exists (mkSpace (places y3) (segs y3) [] 0 Allocated (vals y3) (updates y3) (told y3)). split.
  - subst y1. unfold global_free in E3 |- *. cbn [with_left set_place with_posts places segs] in E3 |- *.
    destruct (segs y !! (me, l)) as [[pd c]|]; [|done]. cbn [mbind option_bind] in E3 |- *.
    rewrite (place_set (places y) me x), decide_True in E3 |- * by done. cbn [mbind option_bind] in E3 |- *. injection E3 as <-.
    cbn. rewrite Hps, En. do 2 f_equal. pose proof (li_left _ _ I) as HL. by rewrite Ec in HL.
  - replace (enter (mkSpace _ _ _ _ _ _ _ _) Freed) with (enter y3 Freed); [done|].
    unfold enter. cbn. f_equal; [|].
    + pose proof (li_posts _ _ I3) as Hq. rewrite Ec in Hq. cbn in Hq. by apply Permutation_nil_r in Hq.
    + pose proof (li_left _ _ I3) as HL. by rewrite Ec in HL.
Qed.

(** ** Steps *)

Definition stage_cost (st : stage) : Z :=
  match st with Asked => 5 | Copied _ _ => 4 | Placed _ _ => 3 | FreeSent _ _ => 2 | Forwarded => 1 | Gone => 0 end.

Definition phase_cost (ph : phase) : Z := match ph with Allocating => 4 | Allocated => 3 | Called => 2 | Freeing _ _ => 1 | Freed => 0 end.

Definition cost y (sts : list stage) : Z := phase_cost y.(now) + sum_of stage_cost sts.

Lemma stage_cost_nonneg st : 0 <= stage_cost st.
Proof. by destruct st. Qed.

Lemma cost_insert y y' sts i st st' : sts !! i = Some st -> y'.(now) = y.(now) ->
  cost y' (<[i := st']> sts) = cost y sts - stage_cost st + stage_cost st'.
Proof. intros Hi En. unfold cost. rewrite En, (sum_of_insert _ sts i st) by done. lia. Qed.

Lemma cost_send sts : sum_of stage_cost (map send_free sts) <= sum_of stage_cost sts.
Proof. unfold sum_of in *. induction sts as [|st sts IH]; [done|]. cbn [map foldr] in *. destruct st; cbn [send_free stage_cost]; lia. Qed.

(** A parcel belongs to a block, or starts the release of the segment. *)
Lemma post_block y sts k p : life_inv y sts -> y.(posts) !! k = Some p ->
  (p = FreeSegment me base /\ y.(now) = Called) \/ exists i st, sts !! i = Some st /\ msgs (i, st) = [p].
Proof.
  intros I Hk. apply list_elem_of_lookup_2 in Hk. rewrite (li_posts _ _ I) in Hk. apply elem_of_app in Hk as [Hk|Hk].
  - left. destruct (now y); simpl in Hk; try (by apply elem_of_nil in Hk). by apply list_elem_of_singleton in Hk.
  - right. apply contributions_elem in Hk as (i & c & st & Hc & Hst & Hp). apply lookup_seq in Hc as [-> _]. exists i, st. split; [done|].
    destruct st; simpl in *; try (by apply elem_of_nil in Hp); by apply list_elem_of_singleton in Hp as ->.
Qed.

Lemma post_step y sts k a d p y' : life_inv y sts -> y.(posts) !! k = Some p ->
  run_parcel (with_posts y (delete k y.(posts))) p a d = Some y' ->
  exists sts', life_inv y' sts' /\ cost y' sts' < cost y sts.
Proof.
  intros I Hk H. destruct (me_place y sts I) as [x0 Hx0].
  destruct (post_block y sts k p I Hk) as [[-> En]|(i & st & Hi & Hp)].
  - destruct (segment_step y sts k x0 I En Hk Hx0) as (y2 & E & I2 & En2). rewrite E in H. injection H as <-.
    exists (map send_free sts). split; [done|]. unfold cost. rewrite En2, En. pose proof (cost_send sts). simpl. lia.
  - assert (Hlt : (i < count_)%nat) by (rewrite <- (li_len _ _ I); by eapply lookup_lt_Some).
    destruct (w_place y sts i I Hlt) as [x Hx].
    destruct st as [|a1 d1|a1 d1|a1 d1| |]; simpl in Hp; try done; injection Hp as <-.
    + destruct (ask_step y sts i k a d y' I Hi Hk H) as (st' & I' & En & a' & d' & Hst'). eexists. split; [done|].
      rewrite (cost_insert y y' sts i Asked) by done. destruct Hst' as [-> | ->]; simpl; lia.
    + destruct (translation_step y sts i k a1 d1 _ x0 I Hi eq_refl Hk Hx0) as (y2 & E & I2 & En). rewrite E in H. injection H as <-.
      eexists. split; [done|]. rewrite (cost_insert y y2 sts i (Copied a1 d1)) by done. simpl. lia.
    + destruct (remove_step y sts i k a1 d1 _ x I Hi eq_refl Hk Hx) as (y2 & st' & E & I2 & Hst' & En). rewrite E in H. injection H as <-.
      eexists. split; [done|]. rewrite (cost_insert y y2 sts i (FreeSent a1 d1)) by done. destruct Hst' as [-> | ->]; simpl; lia.
    + destruct (forward_step y sts i k _ x0 I Hi eq_refl Hk Hx0) as (y2 & E & I2 & En). rewrite E in H. injection H as <-.
      eexists. split; [done|]. rewrite (cost_insert y y2 sts i Forwarded) by done. simpl. lia.
Qed.

(** Every parcel can be run, if the allocator has an address that it has not. *)
Lemma deliver_runs y sts k p : life_inv y sts -> y.(posts) !! k = Some p -> forall d, exists a y',
  run_parcel (with_posts y (delete k y.(posts))) p a d = Some y'.
Proof.
  intros I Hk d. destruct (me_place y sts I) as [x0 Hx0].
  destruct (post_block y sts k p I Hk) as [[-> En]|(i & st & Hi & Hp)].
  - destruct (segment_step y sts k x0 I En Hk Hx0) as (y2 & E & _). exists 0, y2. by apply E.
  - assert (Hlt : (i < count_)%nat) by (rewrite <- (li_len _ _ I); by eapply lookup_lt_Some).
    destruct (w_place y sts i I Hlt) as [x Hx].
    destruct st as [|a1 d1|a1 d1|a1 d1| |]; simpl in Hp; try done; injection Hp as <-.
    + pose proof (ti_rank _ _ _ (li_tab _ _ I) _ _ Hx) as Hrk. pose proof (tab_block _ _ _ _ _ _ _ (li_tab _ _ I) Hi Hx ltac:(known)) as Hf. simpl in Hf.
      destruct (li_stage _ _ I i _ Hi) as [_ Hph]. assert (Hfr : now y <> Freed) by (intros E; by rewrite E in Hph).
      cbn [run_parcel with_posts places]. rewrite Hx. cbn [mbind option_bind]. destruct (decide (w i = me)) as [Em|Em].
      * destruct (insert_here x i 0 d) as (d' & E & _); [congruence|done|done|apply (mi_seg _ _ _ (li_mem _ _ I)); congruence || done|].
        exists 0. rewrite E. by eexists.
      * set (a := fresh (dom (mem x) ∪ {[0]} : gset Z)). assert (Ha : a ∉ dom (mem x) ∪ ({[0]} : gset Z)) by apply is_fresh.
        apply not_elem_of_union in Ha as [Ha Ha0]. exists a. rewrite insert_there by (done || congruence).
        destruct (Z.eqb_spec a 0); [set_solver|]. rewrite bool_decide_false by (by rewrite <- elem_of_dom). by eexists.
    + destruct (translation_step y sts i k a1 d1 _ x0 I Hi eq_refl Hk Hx0) as (y2 & E & _). exists 0, y2. by apply E.
    + destruct (remove_step y sts i k a1 d1 _ x I Hi eq_refl Hk Hx) as (y2 & st' & E & _). exists 0, y2. by apply E.
    + destruct (forward_step y sts i k _ x0 I Hi eq_refl Hk Hx0) as (y2 & E & _). exists 0, y2. by apply E.
Qed.

Lemma gone_stage y sts i st r l' : life_inv y sts -> y.(now) = Freeing r l' -> pending sts = [] -> sts !! i = Some st -> st = Gone.
Proof.
  intros I En Hp Hi. pose proof (pending_nil sts i st (li_len _ _ I) Hp Hi) as Hm. destruct (li_stage _ _ I i st Hi) as [_ Hph].
  rewrite En in Hph. by destruct st.
Qed.

Lemma freeing_at y sts r l' : life_inv y sts -> y.(now) = Freeing r l' -> r = me /\ l' = l.
Proof.
  intros I En. destruct (lookup_lt_is_Some_2 sts 0) as [st Hst]; [rewrite (li_len _ _ I); unfold count_; lia|].
  destruct (li_stage _ _ I _ _ Hst) as [_ Hph]. rewrite En in Hph. by destruct st.
Qed.

Lemma free_step y sts r x : life_inv y sts -> y.(now) = Allocated -> place y.(places) r = Some x ->
  exists y' sts', alloc_step base bsize y (Free r) = Some (y', None) /\ life_inv y' sts' /\ 1 + cost y' sts' <= cost y sts.
Proof.
  intros I En Hx. cbn [alloc_step]. rewrite En, Hx. cbn [mbind option_bind]. pose proof (ti_rank _ _ _ (li_tab _ _ I) _ _ Hx) as Hrk.
  assert (Hslow : forall y' sts', y' = enter (post y [FreeSegment me base]) Called -> sts' = sts -> life_inv y' sts' /\ 1 + cost y' sts' <= cost y sts).
  { intros y' sts' -> ->. split; [by apply called_step|]. unfold cost. rewrite En. simpl. lia. }
  destruct (decide (r = me)) as [-> |Hne]; [|rewrite (slow_eq x r) by done; do 2 eexists; split; [done|by apply Hslow]].
  destruct (placed_stage y sts 0) as (a & d & H0); [done|by left|unfold count_; lia|].
  pose proof (tab_block _ _ _ _ _ _ _ (li_tab _ _ I) H0 Hx ltac:(known)) as Hf. destruct (li_stage _ _ I _ _ H0) as [[_ Ha] _]. rewrite (Ha Hw0) in *.
  rewrite (fast_eq x d) by done. destruct (Z.eqb_spec n 1) as [E1|_]; [|do 2 eexists; split; [done|by apply Hslow]].
  assert (Ests : sts = [Placed (lva_of 0) d]).
  { pose proof (li_len _ _ I) as Hlen. destruct sts as [|st [|? ?]]; simpl in *; unfold count_ in Hlen; try lia. congruence. }
  destruct (fast_step y sts x (lva_of 0) d I En E1 Hx Ests) as (y' & E & I'). rewrite E. cbn [mbind option_bind].
  do 2 eexists. split; [done|]. split; [done|]. unfold cost. rewrite En, Ests. cbn. lia.
Qed.

Lemma life_step y sts b y' v : life_inv y sts -> alloc_step base bsize y b = Some (y', v) ->
  exists sts', life_inv y' sts' /\ Z.of_nat (weight b) + cost y' sts' <= cost y sts.
Proof.
  intros I H. destruct b as [k a d| |r src p v'|k|r|].
  - cbn [alloc_step] in H. destruct (posts y !! k) as [p|] eqn:Hk; [|done]. cbn [mbind option_bind] in H.
    destruct (run_parcel _ p a d) as [y1|] eqn:E; [|done]. cbn [mbind option_bind] in H. injection H as <- <-.
    destruct (post_step y sts k a d p y1 I Hk E) as (sts' & I' & Hc). exists sts'. split; [done|]. simpl. lia.
  - cbn [alloc_step] in H. destruct (now y) eqn:En; try done. destruct (Z.eqb_spec (left_ y) 0) as [El|]; [|done]. injection H as <- <-.
    exists sts. split; [by apply return_step|]. unfold cost. rewrite En. simpl. lia.
  - destruct (use_step y sts r src p v' y' v I H) as [En [[I' ->]|(i & a & d & d' & Hi & Hr' & Hst & Hv & I')]].
    + exists sts. split; [done|]. unfold cost. rewrite En. simpl. lia.
    + eexists. split; [done|]. rewrite (cost_insert y y' sts i (Placed a d)) by done. simpl. lia.
  - destruct (updates y !! k) as [u|] eqn:Hk; [|cbn [alloc_step] in H; by rewrite Hk in H].
    destruct (update_step y sts k u I Hk) as (y2 & E & En & I'). rewrite E in H. injection H as <- <-.
    exists sts. split; [done|]. unfold cost. rewrite En. simpl. lia.
  - assert (Hx : exists x, now y = Allocated /\ place (places y) r = Some x).
    { cbn [alloc_step] in H. destruct (now y); try done. destruct (place (places y) r); [by eauto|done]. }
    destruct Hx as (x & En & Hx). destruct (free_step y sts r x I En Hx) as (y1 & sts' & E & I' & Hc). rewrite E in H. injection H as <- <-.
    exists sts'. split; [done|]. simpl. lia.
  - cbn [alloc_step] in H. destruct (now y) as [| | |r l'|] eqn:En; try done. destruct (freeing_at y sts r l' I En) as [-> ->].
    destruct (Z.eqb_spec (left_ y) 0) as [El|]; [|done]. pose proof (left_zero _ _ I El) as Hp.
    destruct (finish_step y sts I) as (y1 & E & I'); [by rewrite En|by intros i st; apply (gone_stage y sts i st me l I En Hp)|by rewrite En|].
    rewrite E in H. cbn [mbind option_bind] in H. injection H as <- <-. exists sts. split; [done|]. unfold cost. rewrite En. simpl. lia.
Qed.

Lemma life_progress y sts : life_inv y sts -> y.(now) <> Freed ->
  exists b y' v, weight b = 1%nat /\ alloc_step base bsize y b = Some (y', v).
Proof.
  intros I Hfr. destruct (me_place y sts I) as [x Hx].
  destruct (posts y) as [|p ps] eqn:Hps.
  2: { destruct (deliver_runs y sts 0 p I) with (d := zeros) as (a & y' & E); [by rewrite Hps|].
       exists (Deliver 0 a zeros), y', None. split; [done|]. cbn [alloc_step]. rewrite Hps. cbn [lookup list_lookup mbind option_bind].
       rewrite Hps in E. by rewrite E. }
  pose proof (li_posts _ _ I) as Hq. rewrite Hps in Hq. symmetry in Hq. apply Permutation_nil_r in Hq. apply app_eq_nil in Hq as [Hq1 Hq2].
  assert (El : left_ y = 0) by (rewrite (li_left _ _ I), Hq2; done).
  destruct (now y) as [| | |r l'|] eqn:En; try done.
  - exists Return_. do 2 eexists. split; [done|]. cbn [alloc_step]. by rewrite En, El.
  - destruct (free_step y sts me x I En Hx) as (y' & sts' & E & _). exists (Free me), y', None. done.
  - destruct (freeing_at y sts r l' I En) as [-> ->].
    destruct (finish_step y sts I) as (y1 & E & I'); [by rewrite En|by intros i st; apply (gone_stage y sts i st me l I En Hq2)|by rewrite En|].
    exists Finish. do 2 eexists. split; [done|]. cbn [alloc_step]. rewrite En, El. cbn [Z.eqb]. rewrite E. done.
Qed.

(** ** What is left *)

Lemma freed_place y sts r x x0 : life_inv y sts -> y.(now) = Freed -> place y.(places) r = Some x -> place X r = Some x0 ->
  x.(mem) = x0.(mem) /\ x.(tbl).(rank_) = x0.(tbl).(rank_)
  /\ forall k, x.(tbl).(map_) !! k = x0.(tbl).(map_) !! k
       \/ exists i, (i < count_)%nat /\ k = blk i /\ r <> w i /\ (r, k) ∈ y.(told) /\ x.(tbl).(map_) !! k = Some (cached i).
Proof.
  intros I En Hp Hp0. assert (Hall : forall i st, sts !! i = Some st -> st = Gone).
  { intros i st Hi. destruct (li_stage _ _ I i st Hi) as [_ Hph]. rewrite En in Hph. by destruct st. }
  split; [|split].
  - apply map_eq. intros a. eapply (mi_other _ _ _ (li_mem _ _ I)); [done|done| |intros _ Hl'; by rewrite En in Hl'].
    intros j st d Hj Hh. by rewrite (Hall j st Hj) in Hh.
  - rewrite (HX _ _ Hp0). by apply (ti_rank _ _ _ (li_tab _ _ I)).
  - intros k. destruct (decide (Exists (fun j => k = blk j) ops)) as [(j & Hj & ->)%Exists_exists|Hno].
    + apply elem_of_seq in Hj. destruct (lookup_lt_is_Some_2 sts j) as [st Hst]; [rewrite (li_len _ _ I); lia|].
      destruct (ti_block _ _ _ (li_tab _ _ I) j st _ _ Hst Hp) as [Hf|(Hf & H1 & _ & H2)].
      * left. rewrite Hf, (Hall j st Hst). rewrite <- find_blk0 by lia. symmetry. eapply Hmap; [done|lia].
      * right. exists j. split; [lia|done].
    + left. eapply (ti_other _ _ _ (li_tab _ _ I)); [done|done|]. intros j Hj ->. apply Hno, Exists_exists. exists j. split; [apply elem_of_seq; lia|done].
Qed.

Lemma freed_same y sts : life_inv y sts -> y.(now) = Freed -> y.(told) = [] -> y.(places) = X.
Proof.
  intros I En Et. apply list_eq_same_length with (length X); [done|apply I|]. intros i x x0 _ Hx Hx0.
  assert (Hp : place (places y) (Z.of_nat i) = Some x) by (unfold place; destruct (Z.ltb_spec (Z.of_nat i) 0); [lia|by rewrite Nat2Z.id]).
  assert (Hp0 : place X (Z.of_nat i) = Some x0) by (unfold place; destruct (Z.ltb_spec (Z.of_nat i) 0); [lia|by rewrite Nat2Z.id]).
  destruct (freed_place y sts _ x x0 I En Hp Hp0) as (E1 & E2 & E3).
  assert (E4 : map_ (tbl x) = map_ (tbl x0)).
  { apply map_eq. intros k. destruct (E3 k) as [?|(j & _ & _ & _ & H & _)]; [done|]. rewrite Et in H. by apply elem_of_nil in H. }
  destruct x as [[] ?], x0 as [[] ?]; simpl in *; congruence.
Qed.

Lemma freed_rest y sts : life_inv y sts -> y.(now) = Freed -> y.(segs) = G0 /\ y.(posts) = [].
Proof.
  intros I En. split; [rewrite (li_segs _ _ I); by rewrite En|]. pose proof (li_posts _ _ I) as Hq. rewrite En, pending_quiet in Hq.
  - by apply Permutation_nil_r in Hq.
  - intros i st Hi. destruct (li_stage _ _ I i st Hi) as [_ Hph]. rewrite En in Hph. by destruct st.
Qed.

(** ** Allocated blocks *)

Definition hist_of (i : nat) : list Z := if decide (w i = me) then [me] else [me; w i].

(** The owner updates of a block that are under way. *)
Definition news y (i : nat) : list (@message D) :=
  omap (fun u : Z * Z * Z => if decide (toKey u.1.2 = blk i) then Some (UpdateOwner u.1.1 u.2) else None) y.(updates).

Lemma news_quiet y i : omap in_parcel (news y i) = [].
Proof.
  unfold news. induction (updates y) as [|u us IH]; [done|]. rewrite omap_one, omap_app, IH. by case_decide.
Qed.

Lemma hist_last i : last (hist_of i) = Some (w i).
Proof. unfold hist_of. case_decide as E; [by rewrite <- E|done]. Qed.

(** An allocated block is in a state that the protocol of moving blocks can start from. *)
Lemma allocated_inv y sts i a d : life_inv y sts -> y.(now) = Allocated -> sts !! i = Some (Placed a d) ->
  agas_inv (blk i) (length X) (mkWorld y.(places) (news y i) [] (hist_of i) d).
Proof.
  intros I En Hi. assert (Hlt : (i < count_)%nat) by (rewrite <- (li_len _ _ I); by eapply lookup_lt_Some).
  destruct (blk_fields0 i Hlt) as (_ & _ & _ & Hh & _). set (W := mkWorld (places y) (news y i) [] (hist_of i) d).
  assert (Hpl : forall r x, rank W r = Some x -> place (places y) r = Some x) by done.
  assert (Hfl : flights W = []) by (unfold flights; simpl; apply news_quiet).
  assert (Hpath : path W = hist_of i) by (unfold path; rewrite Hfl; apply app_nil_r).
  destruct (li_stage _ _ I i _ Hi) as [[Ha _] _].
  assert (H0 : (0 < count_)%nat) by (unfold count_; lia).
  assert (Hrec : forall r, r <> w i -> recent W r (w i)).
  { intros r Hne. exists (pred (length (hist_of i))). rewrite Hpath, <- last_lookup, hist_last. split; [done|].
    intros j Hj. simpl in Hj. pose proof (lookup_lt_Some _ _ _ Hj). destruct (decide (j = pred (length (hist_of i)))) as [->|]; [|lia].
    rewrite <- last_lookup, hist_last in Hj. congruence. }
  split; cbn [W ranks hist].
  - apply I.
  - intros r x Hx%Hpl. by apply (ti_rank _ _ _ (li_tab _ _ I)).
  - rewrite Hh. unfold hist_of. by case_decide.
  - intros r. rewrite Hpath. unfold hist_of. pose proof (Hw i Hlt). pose proof (Hw 0%nat H0) as H00. rewrite Hw0 in H00.
    case_decide; rewrite !elem_of_cons, elem_of_nil; intros Hin; destruct_or?; subst; done || lia.
  - by left.
  - intros r x [_ Hlast] Hx%Hpl. simpl in Hlast. rewrite hist_last in Hlast. injection Hlast as <-.
    pose proof (tab_block _ _ _ _ _ _ _ (li_tab _ _ I) Hi Hx ltac:(known)) as Hf. cbn [entry_of] in Hf. rewrite decide_True in Hf by done.
    exists (Entry_new (w i) a n at_). rewrite find_blk0 by done. split; [done|]. split; [simpl; symmetry; by apply (ti_rank _ _ _ (li_tab _ _ I))|]. split; [done|]. split; [done|].
    by apply (mi_held _ _ _ (li_mem _ _ I) i (Placed a d)).
  - intros r x Hres Hx%Hpl. assert (Hne : r <> w i) by (intros ->; apply Hres; split; [done|apply hist_last]).
    unfold knows_block. rewrite find_blk0 by done. split.
    + intros e He. destruct (entry_owner y sts i _ r x e I Hi Hx He) as [-> ->]. split; [done|]. split; [congruence|by apply Hrec].
    + cbn [W hist]. unfold hist_of. case_decide; rewrite !elem_of_cons, elem_of_nil; [naive_solver|].
      intros [-> |[?|[]]]; [|done]. pose proof (tab_block _ _ _ _ _ _ _ (li_tab _ _ I) Hi Hx ltac:(known)) as Hf. rewrite Hf. cbn [entry_of].
      rewrite decide_False, decide_True by done. done.
  - done.
Qed.

(** ** The calls *)

Lemma lva_next i : lva_of i + 2 ^ s = lva_of (S i).
Proof. unfold lva_of. lia. Qed.

Lemma take_blocks_spec ds : forall m i m', take_blocks m (lva_of i) (2 ^ s) ds = Some m' ->
  (forall j, (i <= j < i + length ds)%nat -> m !! lva_of j = None /\ is_Some (m' !! lva_of j))
  /\ (forall a, (forall j, (i <= j < i + length ds)%nat -> a <> lva_of j) -> m' !! a = m !! a).
Proof.
  induction ds as [|d ds IH]; intros m i m' H; cbn [take_blocks length] in H |- *; [injection H as <-; split; [lia|done]|].
  destruct (m !! lva_of i) eqn:E; [done|]. rewrite lva_next in H. destruct (IH _ _ _ H) as [H1 H2]. split.
  - intros j Hj. destruct (decide (j = i)) as [->|Hne].
    + split; [done|]. rewrite H2, lookup_insert_eq by (intros k Hk ?%lva_inj; lia). done.
    + destruct (H1 j) as [H3 H4]; [lia|]. rewrite lookup_insert_ne in H3 by (intros ?%lva_inj; congruence). done.
  - intros a Ha. rewrite H2 by (intros j Hj; apply Ha; lia). apply lookup_insert_ne. intros <-. apply (Ha i); [lia|done].
Qed.

Lemma clear_blocks_spec k : forall m i m', clear_blocks m (lva_of i) (2 ^ s) k = Some m' ->
  (forall j, (i <= j < i + k)%nat -> m' !! lva_of j = Some zeros)
  /\ (forall a, (forall j, (i <= j < i + k)%nat -> a <> lva_of j) -> m' !! a = m !! a).
Proof.
  induction k as [|k IH]; intros m i m' H; cbn [clear_blocks] in H |- *; [injection H as <-; split; [lia|done]|].
  destruct (m !! lva_of i) eqn:E; [|done]. cbn [mbind option_bind] in H. rewrite lva_next in H. destruct (IH _ _ _ H) as [H1 H2]. split.
  - intros j Hj. destruct (decide (j = i)) as [->|Hne]; [|apply H1; lia]. rewrite H2, lookup_insert_eq by (intros j Hj' ?%lva_inj; lia). done.
  - intros a Ha. rewrite H2 by (intros j Hj; apply Ha; lia). apply lookup_insert_ne. intros <-. apply (Ha i); [lia|done].
Qed.

Lemma local_loop_spec k : forall (t : btt) i, (i + k <= count_)%nat -> n * 2 ^ s <= 2 ^ 32 ->
  (forall j, (i <= j < i + k)%nat -> t.(map_) !! blk j = None) ->
  exists t', local_loop k (Z.of_nat i) t base l n (2 ^ s) at_ = Some t' /\ t'.(rank_) = t.(rank_)
    /\ (forall j, (i <= j < i + k)%nat -> t'.(map_) !! blk j = Some (Entry_new t.(rank_) (lva_of j) n at_))
    /\ (forall a, (forall j, (i <= j < i + k)%nat -> a <> blk j) -> t'.(map_) !! a = t.(map_) !! a).
Proof.
  induction k as [|k IH]; intros t i Hik H32 Hf; cbn [local_loop]; [exists t; repeat split; try done; lia|].
  pose proof (blk_off i ltac:(lia)). pose proof pow_pos. rewrite wrap_small by lia.
  pose proof (add_blk 0 ltac:(lia) ltac:(lia) (Z.of_nat i * 2 ^ s) ltac:(lia) ltac:(lia)) as Ea. rewrite Z.add_0_r in Ea. rewrite Ea. cbn [mbind option_bind].
  change (base + Z.of_nat i * 2 ^ s) with (blk i). change (l + Z.of_nat i * 2 ^ s) with (lva_of i).
  unfold insert. rewrite find_blk0, Hf by lia. cbn [mbind option_bind]. replace (Z.of_nat i + 1) with (Z.of_nat (S i)) by lia.
  destruct (IH (store t (blk i) (Entry_new (rank_ t) (lva_of i) n at_)) (S i)) as (t' & E & Hk & H1 & H2); [lia|done| |].
  { intros j Hj. rewrite store_blk, decide_False by (lia || intros ?%blk_inj; lia). apply Hf. lia. }
  exists t'. split; [done|]. split; [done|]. split.
  - intros j Hj. destruct (decide (j = i)) as [->|Hne]; [|apply H1; lia].
    rewrite H2 by (intros j' Hj' ?%blk_inj; lia). by rewrite store_blk, decide_True by lia.
  - intros a Ha. rewrite H2 by (intros j Hj; apply Ha; lia). rewrite store_blk, decide_False; [done|apply Ha; lia|lia].
Qed.

(** The state that a call leaves at its rank. *)
Section Start.
Variables (x : @local D) (t : btt) (m : gmap Z D) (sts : list stage).
Hypothesis Hx : place X me = Some x.
Hypothesis Hlen : length sts = count_.
Hypothesis Hrk : t.(rank_) = me.
Hypothesis Ht1 : forall i st, sts !! i = Some st -> t.(map_) !! blk i = entry_of i st me /\ forall r, r <> me -> entry_of i st r = None.
Hypothesis Ht2 : forall k, (forall i, (i < count_)%nat -> k <> blk i) -> t.(map_) !! k = x.(tbl).(map_) !! k.
Hypothesis Hm1 : forall j, (j < count_)%nat -> is_Some (m !! lva_of j).
Hypothesis Hm2 : forall a, (forall j, (j < count_)%nat -> a <> lva_of j) -> m !! a = x.(mem) !! a.
Hypothesis Hm3 : forall i st a d, sts !! i = Some st -> held st = Some (a, d) -> w i = me /\ a = lva_of i /\ m !! a = Some d.

Lemma start_tab : tab_inv [] (<[Z.to_nat me := mkLocal t m]> X) sts.
Proof.
  split.
  - intros r x1. rewrite (place_set X me x) by done. case_decide; [intros [= <-]; simpl; congruence|apply HX].
  - intros i st r x1 Hi. rewrite (place_set X me x) by done. destruct (Ht1 i st Hi) as [H1 H2]. case_decide as E.
    + intros [= <-]. left. by subst r.
    + intros H3. left. rewrite (H2 r) by congruence. assert (Hlt : (i < count_)%nat) by (rewrite <- Hlen; by eapply lookup_lt_Some).
      rewrite <- find_blk0 by done. by eapply Hmap.
  - intros r x1 x0 k. rewrite (place_set X me x) by done. intros H1 H0 Hk. case_decide as E; [|congruence].
    subst r. injection H1 as <-. rewrite Hx in H0. injection H0 as <-. by apply Ht2.
Qed.

Lemma start_mem (live : Prop) : live -> mem_inv live (<[Z.to_nat me := mkLocal t m]> X) sts.
Proof.
  intros Hlive. split.
  - intros i st a d x1 Hi Hh. destruct (Hm3 i st a d Hi Hh) as (E & _ & H3). rewrite (place_set X me x), E, decide_True by done. by intros [= <-].
  - intros x1 j. rewrite (place_set X me x), decide_True by done. intros [= <-] _. apply Hm1.
  - intros r x1 x0 a. rewrite (place_set X me x) by done. intros H1 H0 _ Hseg. case_decide as E; [|congruence].
    subst r. injection H1 as <-. rewrite Hx in H0. injection H0 as <-. apply Hm2. by apply Hseg.
  - intros i st a d x0 Hi Hh H0. destruct (Hm3 i st a d Hi Hh) as (E & -> & _). apply Hmem; [by rewrite <- E|].
    rewrite <- Hlen. by eapply lookup_lt_Some.
  - intros i j si sj a d d' Hi Hj Hh Hh' _. destruct (Hm3 _ _ _ _ Hi Hh) as (_ & E1 & _), (Hm3 _ _ _ _ Hj Hh') as (_ & E2 & _). apply lva_inj. congruence.
Qed.
End Start.

Definition init_val : option D := if zero then Some zeros else None.
Definition first_seg : gmap (Z * Z) (Z * nat) := <[(me, l) := (2 ^ s, count_)]> G0.

Lemma user_start x m ds : place X me = Some x -> length ds = count_ -> take_blocks x.(mem) l (2 ^ s) ds = Some m ->
  life_inv (mkSpace (<[Z.to_nat me := mkLocal x.(tbl) m]> X) first_seg
     (map (fun j => InsertUserBlock (w j) me (blk j) n (2 ^ s) at_ (lva_of j) zero) ops) n Allocating (replicate count_ init_val) [] [])
    (map (fun _ => Asked) ops).
Proof.
  intros Hx Hds Htake. assert (El : l = lva_of 0) by (unfold lva_of; lia). rewrite El in Htake.
  destruct (take_blocks_spec ds _ 0 _ Htake) as [A1 A2]. rewrite Hds in A1, A2.
  assert (Hst : forall i st, map (fun _ => Asked) ops !! i = Some st -> st = Asked).
  { intros i st Hi. rewrite list_lookup_fmap in Hi. destruct (ops !! i); [by injection Hi as <-|done]. }
  assert (Hpend : pending (map (fun _ => Asked) ops) = map (fun j => InsertUserBlock (w j) me (blk j) n (2 ^ s) at_ (lva_of j) zero) ops).
  { rewrite contributions_initial. generalize ops. intros ks. induction ks as [|k ks IH]; [done|]. simpl. by f_equal. }
  split; cbn [places segs posts left_ now vals].
  - by rewrite length_map, length_seq.
  - by rewrite length_insert.
  - apply (start_tab x); [done|by rewrite length_map, length_seq|by apply HX| |done].
    intros i st Hi. rewrite (Hst i st Hi). split; [|done]. rewrite <- find_blk0; [eapply Hmap; [done|]|];
      (apply lookup_lt_Some in Hi; by rewrite length_map, length_seq in Hi).
  - apply (start_mem x); try done; [by rewrite length_map, length_seq|intros j Hj; apply A1; lia|intros a Ha; apply A2; intros j Hj; apply Ha; lia|].
    intros i st a d Hi. by rewrite (Hst i st Hi).
  - intros i st Hi. by rewrite (Hst i st Hi).
  - by rewrite Hpend.
  - rewrite Hpend, length_map, length_seq. by rewrite count_eq.
  - done.
  - apply length_replicate.
  - intros i st v Hi Hv. rewrite (Hst i st Hi). apply lookup_replicate in Hv as [-> _]. unfold val_ok, init_val. by destruct zero.
  - intros u Hu. by apply elem_of_nil in Hu.
Qed.

Lemma local_start x t m m1 ds : place X me = Some x -> length ds = count_ -> (forall i, (i < count_)%nat -> w i = me) -> n * 2 ^ s <= 2 ^ 32 ->
  take_blocks x.(mem) l (2 ^ s) ds = Some m1 -> (if zero then clear_blocks m1 l (2 ^ s) count_ else Some m1) = Some m ->
  local_loop count_ 0 x.(tbl) base l n (2 ^ s) at_ = Some t ->
  life_inv (mkSpace (<[Z.to_nat me := mkLocal t m]> X) first_seg [] 0 Allocated (replicate count_ init_val) [] [])
    (map (fun i => Placed (lva_of i) (default zeros (m !! lva_of i))) ops).
Proof.
  intros Hx Hds Hwm H32 Htake Hclear Hloop. assert (El : l = lva_of 0) by (unfold lva_of; lia). rewrite El in Htake, Hclear.
  destruct (take_blocks_spec ds _ 0 _ Htake) as [A1 A2]. rewrite Hds in A1, A2. pose proof (HX _ _ Hx) as Hrk.
  assert (B1 : (forall j, (j < count_)%nat -> exists d, m !! lva_of j = Some d /\ (zero = true -> d = zeros))
    /\ forall a, (forall j, (j < count_)%nat -> a <> lva_of j) -> m !! a = x.(mem) !! a).
  { destruct zero.
    - destruct (clear_blocks_spec count_ _ 0 _ Hclear) as [C1 C2]. split; [intros j Hj; exists zeros; split; [apply C1; lia|done]|].
      intros a Ha. rewrite C2, A2; [done|intros j Hj; apply Ha; lia..].
    - injection Hclear as <-. split; [intros j Hj; destruct (A1 j) as [_ [d Hd']]; [lia|by exists d]|]. intros a Ha. apply A2. intros j Hj. apply Ha. lia. }
  destruct B1 as [B1 B2].
  destruct (local_loop_spec count_ (tbl x) 0) as (t' & E & Hk & T1 & T2); [lia|done|intros j Hj; rewrite <- find_blk0 by lia; eapply Hmap; [done|lia]|].
  change (Z.of_nat 0) with 0 in E. rewrite E in Hloop. injection Hloop as <-.
  set (f := fun i => Placed (lva_of i) (default zeros (m !! lva_of i))).
  assert (Hst : forall i st, map f ops !! i = Some st -> st = f i /\ (i < count_)%nat).
  { intros i st Hi. rewrite list_lookup_fmap in Hi. destruct (ops !! i) as [k|] eqn:Hk'; [|done]. injection Hi as <-. apply lookup_seq in Hk' as [-> ?]. done. }
  assert (Hpend : pending (map f ops) = []) by (apply pending_quiet; intros i st Hi; by destruct (Hst i st Hi) as [-> _]).
  split; cbn [places segs posts left_ now vals].
  - by rewrite length_map, length_seq.
  - by rewrite length_insert.
  - apply (start_tab x); [done|by rewrite length_map, length_seq|congruence| |intros k Hk'; apply T2; intros j Hj; apply Hk'; lia].
    intros i st Hi. destruct (Hst i st Hi) as [-> Hi']. cbn [entry_of f]. rewrite T1, Hwm, decide_True, Hrk by (done || lia).
    split; [done|]. intros r Hr'. by rewrite !decide_False.
  - apply (start_mem x); try done; [by rewrite length_map, length_seq|intros j Hj; destruct (B1 j Hj) as (d & -> & _); done|].
    intros i st a d Hi. destruct (Hst i st Hi) as [-> Hi']. destruct (B1 i Hi') as (d' & E' & _). intros [= <- <-]. rewrite E'. split; [by apply Hwm|done].
  - intros i st Hi. destruct (Hst i st Hi) as [-> Hi']. split; [|done]. split; [pose proof (lva_pos i); lia|done].
  - by rewrite Hpend.
  - by rewrite Hpend.
  - done.
  - apply length_replicate.
  - intros i st v Hi Hv. destruct (Hst i st Hi) as [-> Hi']. apply lookup_replicate in Hv as [-> _]. destruct (B1 i Hi') as (d' & E' & Hz).
    unfold init_val, f. rewrite E'. destruct zero; [|done]. intros a d [= <- <-]. by apply Hz.
  - intros u Hu. by apply elem_of_nil in Hu.
Qed.

Lemma owner_there x r : 0 <= r < 2 ^ 16 -> ownerOf x (there r) = r.
Proof.
  intros Hrr. unfold ownerOf, there. destruct (gva_fields THERE_OFFSET 0 0 r) as (_ & E & _ & _ & F); [unfold THERE_OFFSET; lia..|].
  by rewrite E, F, Z.eqb_refl.
Qed.

Lemma user_loop_eq x dist k : x.(tbl).(rank_) = me ->
  (forall i, (0 < i < count_)%nat -> dist (Z.of_nat i) n bsize = Some (there (w i))) -> forall i, (i + k <= count_)%nat ->
  user_loop k (Z.of_nat i) x dist base l n bsize (2 ^ s) at_ zero
  = Some (map (fun j => InsertUserBlock (w j) me (blk j) n (2 ^ s) at_ (lva_of j) zero) (seq i k)).
Proof.
  intros Hk Hdist. induction k as [|k IH]; intros i Hik; [done|]. cbn [user_loop seq map].
  assert (Ew : (if Z.of_nat i =? 0 then Some (there x.(tbl).(rank_)) else dist (Z.of_nat i) n bsize) = Some (there (w i))).
  { destruct (Z.eqb_spec (Z.of_nat i) 0) as [E|]; [|apply Hdist; lia]. rewrite Hk. do 2 f_equal. replace i with 0%nat by lia. by rewrite Hw0. }
  rewrite Ew. cbn [mbind option_bind]. pose proof (blk_off i ltac:(lia)). pose proof pow_pos.
  pose proof (add_blk 0 ltac:(lia) ltac:(lia) (Z.of_nat i * 2 ^ s) ltac:(lia) ltac:(lia)) as Ea. rewrite Z.add_0_r in Ea. rewrite Ea. cbn [mbind option_bind].
  replace (Z.of_nat i + 1) with (Z.of_nat (S i)) by lia. rewrite IH by lia. cbn [mbind option_bind].
  pose proof (Hw i ltac:(lia)). by rewrite owner_there, Hk by lia.
Qed.

Definition placed_by (q : request) : Prop :=
  match q with
  | Local => n * 2 ^ s <= 2 ^ 32 /\ forall i, (i < count_)%nat -> w i = me
  | User dist => forall i, (0 < i < count_)%nat -> dist (Z.of_nat i) n bsize = Some (there (w i))
  end.

Lemma call_local ds y gva : bsize <= 2 ^ 31 -> offsetOf l = o -> length ds = count_ ->
  call_alloc Local X G0 me n bsize at_ zero l ds = Some (y, gva) ->
  exists x m1 m t, place X me = Some x /\ take_blocks x.(mem) l (2 ^ s) ds = Some m1
    /\ (if zero then clear_blocks m1 l (2 ^ s) count_ else Some m1) = Some m
    /\ local_loop count_ 0 x.(tbl) base l n (2 ^ s) at_ = Some t /\ gva = base
    /\ y = mkSpace (<[Z.to_nat me := mkLocal t m]> X) first_seg [] 0 Allocated (replicate count_ init_val) [] [].
Proof.
  clear Hmem. intros Hb31 Hoff Hds H. unfold call_alloc in H. destruct (place X me) as [x|] eqn:Hx; [|done]. cbn [mbind option_bind] in H.
  pose proof (HX _ _ Hx) as Hrk. pose proof pow_pos as Hp. pose proof padded_eq as Hpad. rewrite Hpad, Hds in H. fold init_val first_seg in H.
  assert (Hgva : lvaToGVA offsetOf me l (2 ^ s) = base) by (unfold lvaToGVA, base; by rewrite padded_log, Hoff).
  assert (Hl0 : (l =? 0) = false) by (apply Z.eqb_neq; lia).
  unfold allocateLocal in H. destruct (Z.ltb_spec bsize maxBlockSize) as [_|Hmax]; [|unfold maxBlockSize in Hmax; lia].
  assert (H32' : u32 (Z.shiftl 1 (ceil_log2 64 bsize)) = 2 ^ s).
  { pose proof (bsize_bounds s bsize Hs Hb Hlog). rewrite ceil_log2_eq, Hlog, Z.shiftl_1_l by lia. apply wrap_small. lia. }
  rewrite H32', Hl0, Hrk, Hgva in H. fold count_ in H.
  destruct (take_blocks (mem x) l (2 ^ s) ds) as [m1|] eqn:Et; [|done]. cbn [mbind option_bind] in H.
  destruct (if zero then clear_blocks m1 l (2 ^ s) count_ else Some m1) as [m|] eqn:Ec; [|done]. cbn [mbind option_bind] in H.
  destruct (local_loop count_ 0 (tbl x) base l n (2 ^ s) at_) as [t|] eqn:El; [|done]. cbn [mbind option_bind] in H. injection H as <- <-.
  exists x, m1, m, t. done.
Qed.

Lemma call_user dist ds y gva : bsize <= 2 ^ 31 -> offsetOf l = o -> length ds = count_ -> placed_by (User dist) ->
  call_alloc (User dist) X G0 me n bsize at_ zero l ds = Some (y, gva) ->
  exists x m, place X me = Some x /\ take_blocks x.(mem) l (2 ^ s) ds = Some m /\ gva = base
    /\ y = mkSpace (<[Z.to_nat me := mkLocal x.(tbl) m]> X) first_seg
         (map (fun j => InsertUserBlock (w j) me (blk j) n (2 ^ s) at_ (lva_of j) zero) ops) n Allocating (replicate count_ init_val) [] [].
Proof.
  clear Hmem. intros Hb31 Hoff Hds Hq H. unfold call_alloc in H. destruct (place X me) as [x|] eqn:Hx; [|done]. cbn [mbind option_bind] in H.
  pose proof (HX _ _ Hx) as Hrk. pose proof pow_pos as Hp. pose proof padded_eq as Hpad. rewrite Hpad, Hds in H. fold init_val first_seg in H.
  assert (Hgva : lvaToGVA offsetOf me l (2 ^ s) = base) by (unfold lvaToGVA, base; by rewrite padded_log, Hoff).
  assert (Hl0 : (l =? 0) = false) by (apply Z.eqb_neq; lia).
  unfold allocateUser in H. destruct (Z.leb_spec bsize maxBlockSize) as [_|Hmax]; [|unfold maxBlockSize in Hmax; lia].
  rewrite Hpad, Hl0, Hrk, Hgva in H. destruct (take_blocks (mem x) l (2 ^ s) ds) as [m|] eqn:Et; [|done]. cbn [mbind option_bind] in H.
  fold count_ in H. pose proof (user_loop_eq x dist count_ Hrk Hq 0 ltac:(lia)) as Eu. change (Z.of_nat 0) with 0 in Eu. rewrite Eu in H.
  cbn [mbind option_bind] in H. injection H as <- <-. by exists x, m.
Qed.

Lemma call_memory q ds y gva : bsize <= 2 ^ 31 -> offsetOf l = o -> length ds = count_ -> placed_by q ->
  call_alloc q X G0 me n bsize at_ zero l ds = Some (y, gva) ->
  gva = base /\ forall x j, place X me = Some x -> (j < count_)%nat -> x.(mem) !! lva_of j = None.
Proof.
  clear Hmem. intros Hb31 Hoff Hds Hq H.
  assert (Hx : exists x m, place X me = Some x /\ take_blocks (mem x) l (2 ^ s) ds = Some m /\ gva = base).
  { destruct q as [|dist].
    - destruct (call_local ds y gva Hb31 Hoff Hds H) as (x & m1 & _ & _ & ? & ? & _ & _ & ? & _). eauto.
    - destruct (call_user dist ds y gva Hb31 Hoff Hds Hq H) as (x & m & ? & ? & ? & _). eauto. }
  destruct Hx as (x & m & Hx & Ht & ->). split; [done|]. intros x' j Hx' Hj. rewrite Hx in Hx'. injection Hx' as <-.
  assert (El : l = lva_of 0) by (unfold lva_of; lia). rewrite El in Ht. apply (take_blocks_spec ds _ 0 _ Ht). lia.
Qed.

Lemma sum_stages f : (forall i, stage_cost (f i) <= 5) -> sum_of stage_cost (map f ops) <= 5 * n.
Proof.
  intros Hf. rewrite <- count_eq. generalize 0%nat. generalize count_. intros c. induction c as [|c IH]; intros i0; [done|]. cbn [seq map].
  pose proof (IH (S i0)). pose proof (Hf i0). unfold sum_of in *. cbn [foldr]. lia.
Qed.

Lemma alloc_call_inv q ds y gva : bsize <= 2 ^ 31 -> offsetOf l = o -> length ds = count_ -> placed_by q ->
  call_alloc q X G0 me n bsize at_ zero l ds = Some (y, gva) ->
  exists sts, life_inv y sts /\ cost y sts <= 5 * n + 4.
Proof.
  intros Hb31 Hoff Hds Hq H. destruct q as [|dist].
  - destruct (call_local ds y gva Hb31 Hoff Hds H) as (x & m1 & m & t & Hx & Et & Ec & El & _ & ->). destruct Hq as [H32 Hwm].
    eexists. split; [by eapply local_start|]. unfold cost. cbn [now phase_cost].
    pose proof (sum_stages (fun i => Placed (lva_of i) (default zeros (m !! lva_of i))) ltac:(simpl; lia)). lia.
  - destruct (call_user dist ds y gva Hb31 Hoff Hds Hq H) as (x & m & Hx & Et & _ & ->).
    eexists. split; [by eapply user_start|]. unfold cost. cbn [now phase_cost]. pose proof (sum_stages (fun _ => Asked) ltac:(simpl; lia)). lia.
Qed.

Lemma alloc_run_inv y0 sts0 k tr y : life_inv y0 sts0 -> alloc_run base bsize y0 k tr y ->
  exists sts, life_inv y sts /\ Z.of_nat k + cost y sts <= cost y0 sts0.
Proof.
  intros I0 H. induction H as [|k tr y b y' v H (sts & I & Hc) Hs']; [exists sts0; split; [done|lia]|].
  destruct (life_step y sts b y' v I Hs') as (sts' & I' & Hc'). exists sts'. split; [done|]. lia.
Qed.

(** What holds along a run. *)
Lemma life_facts y sts : life_inv y sts ->
  (y.(now) = Allocated -> forall i, (i < count_)%nat -> exists d, agas_inv (blk i) (length X) (mkWorld y.(places) (news y i) [] (hist_of i) d)
     /\ forall d', y.(vals) !! i = Some (Some d') -> d = d')
  /\ (forall r src p v y' d d', alloc_step base bsize y (Use r src p v) = Some (y', Some d) ->
        r = w (Z.to_nat (p / bsize)) /\ (y.(vals) !! Z.to_nat (p / bsize) = Some (Some d') -> d = d')).
Proof.
  intros I. split.
  - intros En i Hi. destruct (placed_stage y sts i) as (a & d & Hst); [done|by left|done|]. exists d. split; [by eapply allocated_inv|].
    intros d' Hv. exact (li_val _ _ I i _ _ Hst Hv a d eq_refl).
  - intros r src p v y' d d' H. destruct (use_step y sts r src p v y' _ I H) as [_ [[_ ?]|(i & a & d1 & d2 & -> & Hr' & Hst & Hd' & _)]]; [done|].
    injection Hd' as <-. split; [done|]. intros Hv. exact (li_val _ _ I _ _ _ Hst Hv a d eq_refl).
Qed.
End Life.

(** ** The life of an allocation *)

(** What an allocation relies on: memory that the allocator returns in the global address
    space and that is not yet mapped anywhere, ranks that know who they are, and a
    distribution that names ranks.  [w i] is the rank that block [i] goes to. *)
Record alloc_fits (q : request) (xs : list (@local D)) (sg : gmap (Z * Z) (Z * nat)) (me n bsize l : Z) (ds : list D)
    (w : nat -> Z) (gva : Z) : Prop := {
  ao_bsize : 0 < bsize <= 2 ^ 31;
  ao_n : 0 < n < 2 ^ 31;
  ao_memory : 0 < l /\ length ds = Z.to_nat n /\ sg !! (me, l) = None;
  ao_offset : 0 < offsetOf l /\ (2 ^ Z.log2_up bsize | offsetOf l) /\ offsetOf l + n * 2 ^ Z.log2_up bsize < 2 ^ 42;
  ao_ranks : Z.of_nat (length xs) <= 2 ^ 16 /\ forall r x, place xs r = Some x -> x.(tbl).(rank_) = r;
  ao_unmapped : forall r x i, place xs r = Some x -> (i < Z.to_nat n)%nat -> find x.(tbl) (gva + Z.of_nat i * 2 ^ Z.log2_up bsize) = None;
  ao_targets : w 0%nat = me /\ forall i, (i < Z.to_nat n)%nat -> 0 <= w i < Z.of_nat (length xs);
  ao_dist : placed_by me n (Z.log2_up bsize) bsize w q;
}.

(** The translation that a rank keeps of a block at rank [o] when it was told so. *)
Definition translation (o : Z) : Entry := Entry_new o 0 1 HPX_GAS_ATTR_NONE.

(** C10: the life of an allocation.  After allocateLocal, or allocateUser with any
    distribution, however the parcels that place the blocks are delivered and whatever else
    the ranks have mapped: when the call returns, every block is at the rank that the
    distribution gave it, at memory of its own, the home knows that rank, and the block is
    in a state that the protocol of moving blocks starts from; an access to a byte of it
    that is pinned, by any rank for any other, sees what was last written there, or zeros
    after calloc; an update that tells a rank the owner of a block can be run whenever it
    arrives; free, from any rank, leaves the memory of every rank and the allocators as
    they were before the allocation, and the tables up to translations that ranks without
    the block were told of, so that all is exactly as it was when none was told; and there is
    always a step to make until then, of which there are at most [5 n + 4] besides the
    accesses and updates. *)
Theorem allocation_life q xs sg me n bsize at_ zero l ds w y0 gva k tr y : alloc_fits q xs sg me n bsize l ds w gva ->
  call_alloc q xs sg me n bsize at_ zero l ds = Some (y0, gva) -> alloc_run gva bsize y0 k tr y ->
  let block i := gva + Z.of_nat i * 2 ^ Z.log2_up bsize in
  (y.(now) = Allocated -> forall i, (i < Z.to_nat n)%nat -> exists d news,
     agas_inv (block i) (length xs) (mkWorld y.(places) news [] (if decide (w i = me) then [me] else [me; w i]) d)
     /\ forall d', y.(vals) !! i = Some (Some d') -> d = d')
  /\ (forall r src p v y' d d', alloc_step gva bsize y (Use r src p v) = Some (y', Some d) ->
        r = w (Z.to_nat (p / bsize)) /\ (y.(vals) !! Z.to_nat (p / bsize) = Some (Some d') -> d = d'))
  /\ (forall j u, y.(updates) !! j = Some u -> exists y', alloc_step gva bsize y (Update j) = Some (y', None))
  /\ (y.(now) = Freed -> y.(segs) = sg /\ y.(posts) = [] /\ (y.(told) = [] -> y.(places) = xs)
      /\ forall r x x0, place y.(places) r = Some x -> place xs r = Some x0 ->
           x.(mem) = x0.(mem) /\ x.(tbl).(rank_) = x0.(tbl).(rank_)
           /\ forall g, x.(tbl).(map_) !! g = x0.(tbl).(map_) !! g
                \/ exists i, (i < Z.to_nat n)%nat /\ g = block i /\ r <> w i /\ (r, g) ∈ y.(told)
                     /\ x.(tbl).(map_) !! g = Some (translation (w i)))
  /\ (y.(now) <> Freed -> exists b y' v, weight b = 1%nat /\ alloc_step gva bsize y b = Some (y', v))
  /\ Z.of_nat k <= 5 * n + 4.
Proof.
  intros [Hb Hn (Hl & Hds & HG) (Ho & Hd & Hr) (HN & HX) Hun (Hw0 & Hw) Hq] Hcall Hrun. set (s := Z.log2_up bsize) in *.
  assert (Hs : 0 <= s < 32) by (pose proof (log2_up_bound 31 bsize ltac:(lia) ltac:(lia)); unfold s; lia).
  assert (Hme : 0 <= me < 2 ^ 16) by (pose proof (Hw 0%nat ltac:(lia)); lia). assert (Hb0 : 0 < bsize) by lia.
  destruct (call_memory me n s bsize at_ l _ zero Hs Hb0 eq_refl Hn Hl Ho Hr Hme w xs sg HN HX Hw Hw0 q ds y0 gva (proj2 Hb) eq_refl Hds Hq Hcall) as [-> Hmem].
  destruct (alloc_call_inv me n s bsize at_ l _ zero Hs Hb0 eq_refl Hn Hl Ho Hd Hr Hme w xs sg HN HX Hw Hw0 Hun Hmem q ds y0 _ (proj2 Hb) eq_refl Hds Hq Hcall)
    as (sts0 & I0 & Hc0).
  destruct (alloc_run_inv me n s bsize at_ l _ zero Hs Hb0 eq_refl Hn Hl Ho Hd Hr Hme w xs sg HN Hw Hw0 Hmem HG y0 sts0 k tr y I0 Hrun) as (sts & I & Hc).
  destruct (life_facts me n s bsize at_ l _ zero Hs Hb0 eq_refl Hn Ho Hd Hr Hme w xs sg HN Hw Hw0 Hmem y sts I) as [F1 F2].
  intros block. split; [|split; [done|split; [|split; [|split]]]].
  - intros En i Hi. destruct (F1 En i Hi) as (d & H1 & H2). by exists d, (news me s (offsetOf l) y i).
  - intros j u Hj. destruct (update_step me n s bsize at_ l _ zero Hs Hn Ho Hd Hr Hme w xs sg HN Hw y sts j u I Hj) as (y' & E & _). by exists y'.
  - intros En. destruct (freed_rest me n s at_ l _ zero w xs sg y sts I En) as [R1 R2]. split; [done|]. split; [done|]. split.
    + by apply (freed_same me n s at_ l _ zero Hs Hn Ho Hd Hr Hme w xs sg HX Hun y sts I).
    + intros r x x0. by apply (freed_place me n s at_ l _ zero Hs Hn Ho Hd Hr Hme w xs sg HX Hun y sts r x x0 I).
  - by apply (life_progress me n s bsize at_ l _ zero Hs Hb0 eq_refl Hn Hl Ho Hd Hr Hme w xs sg HN HX Hw Hw0 Hun Hmem HG y sts I).
  - unfold cost in Hc, Hc0. assert (0 <= sum_of stage_cost sts) by (apply sum_of_nonneg; intros; apply stage_cost_nonneg).
    assert (0 <= phase_cost (now y)) by by destruct (now y). lia.
Qed.
(** ** Executable runs *)

Fixpoint alloc_exec (gva bsize : Z) (y : space) (bs : list move) : option (nat * list (option D) * space) :=
  match bs with
  | [] => Some (0%nat, [], y)
  | b :: bs =>
    '(y, v) ← alloc_step gva bsize y b;
    '(k, tr, y) ← alloc_exec gva bsize y bs;
    Some ((weight b + k)%nat, v :: tr, y)
  end.

Lemma alloc_exec_run gva bsize y0 bs : forall k0 tr0 y k tr y', alloc_run gva bsize y0 k0 tr0 y -> alloc_exec gva bsize y bs = Some (k, tr, y') ->
  alloc_run gva bsize y0 (k0 + k) (tr0 ++ tr) y'.
Proof.
  induction bs as [|b bs IH]; cbn [alloc_exec]; intros k0 tr0 y k tr y' Hr H.
  - injection H as <- <- <-. by rewrite Nat.add_0_r, app_nil_r.
  - destruct (alloc_step gva bsize y b) as [[y1 v]|] eqn:E; [|done]; cbn [mbind option_bind] in H.
    destruct (alloc_exec gva bsize y1 bs) as [[[k1 tr1] y2]|] eqn:E'; [|done]; cbn [mbind option_bind] in H. injection H as <- <- <-.
    rewrite Nat.add_assoc. replace (tr0 ++ v :: tr1) with ((tr0 ++ [v]) ++ tr1) by by rewrite <- app_assoc.
    eapply IH; [by econstructor|done].
Qed.
End Alloc.

(** Three blocks of 3000 bytes, one at each of three ranks: the parcels arrive in another
    order than they were sent, a block is written and read, rank 1 asks for it at its home and
    is told, and rank 2 frees it all. *)
Definition demo_ranks : list (@local Z) := [empty_local 0; empty_local 1; empty_local 2].
Definition demo_dist (i n bsize : Z) : option Z := Some (there (i mod 3)).
Definition life_gva : Z := GlobalVirtualAddress 65536 12 0 0.
Definition demo_call : option (space * Z) :=
  call_alloc 0 3 (fun l => l) (User demo_dist) demo_ranks ∅ 0 3 3000 0 true 65536 [7; 8; 9].
Definition life_moves : list (@move Z) :=
  [Deliver 2 4096 5; Deliver 2 0 0; Deliver 1 8192 6; Deliver 0 0 0; Deliver 0 0 0; Return_;
   Use 2 2 7000 (Some 11); Use 1 1 7000 None; Use 0 1 7000 None; Use 2 1 8999 None; Use 1 1 3000 None; Update 0; Free 2;
   Deliver 0 0 0; Deliver 2 0 0; Deliver 0 0 0;
   Deliver 0 0 0; Deliver 0 0 0; Deliver 0 0 0; Finish].
Definition demo_life : option (nat * list (option Z) * space) := c ← demo_call; alloc_exec 0 3 life_gva 3000 c.1 life_moves.

Lemma life_call_ok : snd <$> demo_call = Some life_gva.
Proof. vm_compute. reflexivity. Qed.

Lemma life_demo_end : (fun r : nat * list (option Z) * space => (omap (fun v => v) r.1.2, r.2.(now), r.2.(told))) <$> demo_life
  = Some ([0; 11; 0], Freed, [(1, life_gva + 8192)]).
Proof. vm_compute. reflexivity. Qed.

Lemma life_demo_ok : alloc_fits (fun l => l) (User demo_dist) demo_ranks ∅ 0 3 3000 65536 [7; 8; 9] Z.of_nat life_gva.
Proof.
  assert (Hrk : forall r x, place demo_ranks r = Some x -> x = empty_local r /\ 0 <= r < 3).
  { intros r x Hx. assert (Hr : 0 <= r < 3) by (unfold place in Hx; destruct (Z.ltb_spec r 0); [done|]; apply lookup_lt_Some in Hx; simpl in Hx; lia). assert (r = 0 \/ r = 1 \/ r = 2) as [-> |[-> | ->]] by lia;
      injection Hx as <-; (split; [done|lia]). }
  split.
  - lia.
  - lia.
  - done.
  - split; [lia|]. split; [exists 16; reflexivity|vm_compute; reflexivity].
  - split; [simpl; lia|]. intros r x Hx. destruct (Hrk r x Hx) as [-> _]. done.
  - intros r x i Hx _. destruct (Hrk r x Hx) as [-> _]. unfold find. simpl. apply lookup_empty.
  - split; [done|]. simpl. lia.
  - intros i Hi. unfold demo_dist. do 2 f_equal. apply Z.mod_small. unfold count_ in Hi. lia.
Qed.

Lemma allocation_life_witness : exists k tr y, demo_life = Some (k, tr, y) /\ y.(segs) = ∅ /\ y.(posts) = []
  /\ (forall x, place y.(places) 1 = Some x -> x.(mem) = ∅) /\ (Z.of_nat k <= 19).
Proof.
  destruct (proj1 (fmap_Some _ demo_life _) life_demo_end) as ([[k tr] y] & E & Hend). exists k, tr, y. split; [exact E|].
  injection Hend as _ Hnow _. unfold demo_life in E. destruct demo_call as [[y0 gva]|] eqn:Ec; [|discriminate].
  assert (Hg : gva = life_gva) by (pose proof life_call_ok as H; rewrite Ec in H; injection H as H; exact H). subst gva.
  destruct (allocation_life 0 3 (fun l => l) (User demo_dist) demo_ranks ∅ 0 3 3000 0 true 65536 [7; 8; 9] Z.of_nat y0 life_gva k tr y)
    as (_ & _ & _ & Hf & _ & Hk).
  - exact life_demo_ok.
  - exact Ec.
  - exact (alloc_exec_run 0 3 life_gva 3000 y0 life_moves 0 [] y0 k tr y (alloc_nil 0 3 life_gva 3000 y0) E).
  - destruct (Hf (eq_sym Hnow)) as (Hs & Hp & _ & Hx). split; [exact Hs|]. split; [exact Hp|]. split; [|exact Hk].
    intros x Hx1. exact (proj1 (Hx 1 x (empty_local 1) Hx1 eq_refl)).
Defined.

(** ** Where allocation and release go wrong *)

(** The loop of allocateLocal multiplies 32-bit numbers: the third block of [2^31] bytes gets
    the address of the first, which fails the assertion of insert. *)
Lemma local_wraps : allocateLocal 0 1 (fun l => l) (empty_local 0) 3 (2 ^ 31) 0 false (2 ^ 31) [1; 2; 3] = None
  /\ is_Some (allocateLocal 0 1 (fun l => l) (empty_local 0) 2 (2 ^ 31) 0 false (2 ^ 31) [1; 2]).
Proof. split; [vm_compute; reflexivity|]. eexists. vm_compute. reflexivity. Qed.

(** A block that was moved away is released on the fast path of its home, which does not
    look at the owner: the copy at the owner stays. *)
Lemma fast_free_of_moved : exists tr y x0 x1,
  agas_exec demo_block (agas_start demo_block 4 4096 1) [StartMove 0 1; TryMove 0; SendBlock 0; Agas.Deliver 0 100] = Some (tr, y)
  /\ rank y 0 = Some x0 /\ (free x0 demo_block).2 = Fast 4096 /\ find (free x0 demo_block).1.(tbl) demo_block = None
  /\ rank y 1 = Some x1 /\ owner <$> find x1.(tbl) demo_block = Some 1 /\ x1.(mem) !! 100 = Some 1.
Proof. do 4 eexists. split; [vm_compute; reflexivity|]. repeat split; vm_compute; reflexivity. Qed.

(** The first block of an allocation of two, back at its home after a move, looks like an
    allocation of one: free gives the copy that malloc allocated to the global allocator,
    which does not know it, and forgets the other block. *)
Definition returned_home : option (@local Z) :=
  x ← fst <$> allocateLocal 0 4 (fun l => l) (empty_local 0) 2 4096 0 false 65536 [1; 2];
  let '(x, c) := invalidate_try x life_gva 1 in
  '(l, _) ← c;
  '(x, _) ← invalidate_send x life_gva l;
  upsertBlock x life_gva 0 1 100.

Lemma free_after_return : exists x, returned_home = Some x /\ (free x life_gva).2 = Fast 100
  /\ is_Some (find (free x life_gva).1.(tbl) (life_gva + 4096))
  /\ global_free (mkSpace [x] {[(0, 65536) := (4096, 2%nat)]} [] 0 Allocated [] [] []) 0 100 = None.
Proof.
  eexists. split; [vm_compute; reflexivity|]. split; [vm_compute; reflexivity|]. split; [|vm_compute; reflexivity].
  eexists. vm_compute. reflexivity.
Qed.

(** A rank that was told the owner of a block keeps the translation when the block is freed;
    a block of a later allocation with that address cannot be placed there. *)
Lemma cached_translation_blocks {D} (zeros : D) (x x' : local) src gva o blocks padded attr l zero a d :
  UpdateOwnerHandler x gva o = Some x' -> insertUserBlock zeros x' src gva blocks padded attr l zero a d = None.
Proof.
  unfold UpdateOwnerHandler. intros H. destruct (updateOwner (tbl x) gva (u16 o)) as [t|] eqn:Eu; [|done]. simpl in H. injection H as <-.
  assert (Hf : is_Some (find t gva)).
  { unfold updateOwner in Eu. destruct (_ =? _); [done|]. destruct (find (tbl x) gva) as [e|]; [destruct (count e =? 0); [|done]|];
      injection Eu as <-; rewrite find_store, decide_True by done; eauto. }
  destruct Hf as [e He]. unfold insertUserBlock, insert. cbn [tbl with_tbl]. rewrite He. destruct (_ || _); [done|].
  repeat (match goal with |- context [mbind _ ?o] => destruct o; [|done] end; cbn [mbind option_bind]); done.
Qed.
