(* ===== verification/StringOps.v ===== *)
(** * Copying in the global address space: [memput], [memget] and [memcpy]

    libhpx/network/ParcelStringOps.cpp does the copies with parcels: the source is read when the
    call is made, by a thread that sends the parcel later, or where the parcel runs, the
    destination is written where another runs, and the LCOs of the call are set by their
    continuations.  gas/agas/AGAS.cpp copies at once what it can pin and leaves the rest to them;
    gas/smp/SMP.cpp always copies at once.  For calls that do not write what another reads or
    writes these agree, in any order of the parcels. *)

From S2P Require Import Prelude Copies.

(** A byte's address is in memory 0 for the global address space, or in memory [S r] for that of
    locality [r]. *)

(** An LCO, or none. *)
Definition sync : Type := option nat.

(** The form of memput that waits until its source can be reused has no [lsync]. *)
Inductive call :=
| memget (dest src : loc) (n : nat) (lsync rsync : sync)
| memput (dest src : loc) (n : nat) (lsync : option sync) (rsync : sync)
| memcpy (dest src : loc) (n : nat) (rsync : sync).

Definition dest_of (c : call) : loc := match c with memget d _ _ _ _ | memput d _ _ _ _ | memcpy d _ _ _ => d end.
Definition src_of (c : call) : loc := match c with memget _ s _ _ _ | memput _ s _ _ _ | memcpy _ s _ _ => s end.
Definition len_of (c : call) : nat := match c with memget _ _ n _ _ | memput _ _ n _ _ | memcpy _ _ n _ => n end.

(** std::memcpy, which is undefined for ranges that overlap. *)
Definition overlap (dest src : loc) (n : nat) : bool := (dest.1 =? src.1)%nat && (Z.abs (dest.2 - src.2) <? Z.of_nat n).

Definition std_memcpy (m : memory) (dest src : loc) (n : nat) : option memory :=
  if overlap dest src n then None else Some (copy_to m dest (read m src n)).

(** ** The address space of one locality *)

(** The assertions are on null pointers. *)
Definition smp_copy (m : memory) (dest src : loc) (n : nat) : option memory :=
  match n with
  | O => Some m
  | _ => if (dest.2 =? 0) || (src.2 =? 0) then None else std_memcpy m dest src n
  end.

Definition smp_call (m : memory) (c : call) : option memory :=
  match c with
  | memget dest src n _ _ | memput dest src n _ _ | memcpy dest src n _ => smp_copy m dest src n
  end.

Fixpoint smp_calls (m : memory) (cs : list call) : option memory :=
  match cs with
  | [] => Some m
  | c :: cs => m ← smp_call m c; smp_calls m cs
  end.

(** ** Parcels *)

Inductive parcel :=
| GetRequest (from to : loc) (n : nat) (lsync rsync : sync)
| GetReply (to : loc) (bytes : list Z) (lsync : sync)
| SendAsync (from : loc) (n : nat) (dest : loc) (lsync rsync : sync)     (* the thread of hpx_parcel_send *)
| PutAsync (dest : loc) (bytes : list Z) (rsync : sync)
| CopyRequest (from : loc) (n : nat) (dest : loc) (rsync : sync)
| CopyReply (dest : loc) (bytes : list Z) (rsync : sync)
| SetLco (y : nat).

(** The continuation that sets an LCO. *)
Definition continue_to (y : sync) : list parcel := match y with Some y => [SetLco y] | None => [] end.

Section Calls.
Variable HPX_PAGE_SIZE : Z.           (* of the build *)
Variable block : Z -> Z.              (* the block of a global address *)

(** What parcels can carry: a marshalled argument's size is read as an int, and the size of
    a parcel has 32 bits, of which the reply of a memget needs eight bytes for an address. *)
Definition carried (c : call) : bool :=
  match c with
  | memget _ _ n _ _ => 8 + Z.of_nat n <? 2 ^ 32
  | memput _ _ n _ _ | memcpy _ _ n _ => Z.of_nat n <? 2 ^ 31
  end.

(** The parcels of a call.  A small [memput] has the bytes, and setting [lsync] follows when
    they have left; a large one with an [lsync] is left to a thread that reads them. *)
Definition issue (m : memory) (c : call) : option (list parcel) :=
  if carried c then
    Some match c with
    | memget dest src n lsync rsync => [GetRequest src dest n lsync rsync]
    | memput dest src n None rsync => [PutAsync dest (read m src n) rsync]
    | memput dest src n (Some lsync) rsync =>
      if Z.of_nat n <? HPX_PAGE_SIZE then PutAsync dest (read m src n) rsync :: continue_to lsync
      else [SendAsync src n dest lsync rsync]
    | memcpy dest src n rsync => [CopyRequest src n dest rsync]
    end
  else None.

(** ** The active global address space *)

Definition set_all (c : call) : list parcel :=
  match c with
  | memget _ _ _ lsync rsync => continue_to lsync ++ continue_to rsync
  | memput _ _ _ lsync rsync => continue_to (default None lsync) ++ continue_to rsync
  | memcpy _ _ _ rsync => continue_to rsync
  end.

(** A range of global addresses must be within one block. *)
Definition one_block (l : loc) (n : nat) : bool :=
  negb (l.1 =? 0)%nat || forallb (fun i => block (l.2 + Z.of_nat i) =? block l.2) (seq 0 n).

(** A call is done at once when it copies nothing, or when its global addresses can be pinned
    here, as [local] tells. *)
Definition agas_call (local : bool) (m : memory) (c : call) : option (memory * list parcel) :=
  if one_block (dest_of c) (len_of c) && one_block (src_of c) (len_of c) then
    match len_of c with
    | O => Some (m, set_all c)
    | _ =>
      if local then m ← std_memcpy m (dest_of c) (src_of c) (len_of c); Some (m, set_all c)
      else ps ← issue m c; Some (m, ps)
    end
  else None.

(** The LCOs that have been set are kept in order. *)
Record world := mkWorld { mem : memory; calls : list call; net : list parcel; sets : list nat }.

Definition handle (w : world) (p : parcel) (ps : list parcel) : world :=
  match p with
  | GetRequest from to n lsync rsync => mkWorld w.(mem) w.(calls) (ps ++ GetReply to (read w.(mem) from n) lsync :: continue_to rsync) w.(sets)
  | GetReply to bytes lsync => mkWorld (copy_to w.(mem) to bytes) w.(calls) (ps ++ continue_to lsync) w.(sets)
  | SendAsync from n dest lsync rsync => mkWorld w.(mem) w.(calls) (ps ++ PutAsync dest (read w.(mem) from n) rsync :: continue_to lsync) w.(sets)
  | PutAsync dest bytes rsync => mkWorld (copy_to w.(mem) dest bytes) w.(calls) (ps ++ continue_to rsync) w.(sets)
  | CopyRequest from n dest rsync => mkWorld w.(mem) w.(calls) (ps ++ [CopyReply dest (read w.(mem) from n) rsync]) w.(sets)
  | CopyReply dest bytes rsync => mkWorld (copy_to w.(mem) dest bytes) w.(calls) (ps ++ continue_to rsync) w.(sets)
  | SetLco y => mkWorld w.(mem) w.(calls) ps (w.(sets) ++ [y])
  end.

Inductive label := Issue (k : nat) (local : bool) | Deliver (k : nat).

Definition step (w : world) (x : label) : option world :=
  match x with
  | Issue k local =>
    c ← w.(calls) !! k;
    '(m, ps) ← agas_call local w.(mem) c;
    Some (mkWorld m (delete k w.(calls)) (w.(net) ++ ps) w.(sets))
  | Deliver k => p ← w.(net) !! k; Some (handle w p (delete k w.(net)))
  end.

Fixpoint run (w : world) (l : list label) : option world :=
  match l with [] => Some w | x :: l => w ← step w x; run w l end.

(** ** The progress of a call *)

Definition to_list (y : sync) : list nat := match y with Some y => [y] | None => [] end.

(** The LCOs that are set after the source was read, and after the destination was written. *)
Definition read_syncs (c : call) : list nat := match c with memget _ _ _ _ r => to_list r | memput _ _ _ l _ => to_list (default None l) | memcpy _ _ _ _ => [] end.
Definition write_syncs (c : call) : list nat := match c with memget _ _ _ l _ => to_list l | memput _ _ _ _ r | memcpy _ _ _ r => to_list r end.

Inductive status := Todo | Reading | Writing | Written.

Definition todo (x : call * status) : list call := match x with (c, Todo) => [c] | _ => [] end.

Definition parcels (m0 : memory) (x : call * status) : list parcel :=
  match x with
  | (memget d s n l r, Reading) => [GetRequest s d n l r]
  | (memget d s n l _, Writing) => [GetReply d (read m0 s n) l]
  | (memput d s n l r, Reading) => [SendAsync s n d (default None l) r]
  | (memput d s n _ r, Writing) => [PutAsync d (read m0 s n) r]
  | (memcpy d s n r, Reading) => [CopyRequest s n d r]
  | (memcpy d s n r, Writing) => [CopyReply d (read m0 s n) r]
  | _ => []
  end.

Definition to_be_set (x : call * status) : list nat :=
  match x with
  | (c, Todo) | (c, Reading) => read_syncs c ++ write_syncs c
  | (c, Writing) => write_syncs c
  | (_, Written) => []
  end.

(** The steps that a call still needs, but for the setting of LCOs. *)
Definition steps_of (x : call * status) : list unit := match x.2 with Todo => [(); (); ()] | Reading => [(); ()] | Writing => [()] | Written => [] end.

Lemma continue_to_sets y : continue_to y = map SetLco (to_list y).
Proof. by destruct y. Qed.

Section Race_free.
Variables (m0 : memory) (ops : list call).

Definition copy_of (c : call) : copy := mkCopy (dest_of c) (src_of c) (len_of c).

(** No call writes what another reads or writes. *)
Hypothesis no_races : race_free (map copy_of ops).

Abbreviation all f st := (contributions f ops st).

Definition written (st : list status) (i : nat) : Prop := st !! i = Some Written.

Record inv (st : list status) (pend : list nat) (w : world) : Prop := {
  v_length : length st = length ops;
  v_calls : w.(calls) ≡ₚ all todo st;
  v_net : w.(net) ≡ₚ all (parcels m0) st ++ map SetLco pend;
  v_sets : w.(sets) ++ pend ++ all to_be_set st ≡ₚ concat (map (fun c => read_syncs c ++ write_syncs c) ops);
  v_mem : after m0 (map copy_of ops) (written st) w.(mem);
}.

Lemma copy_lookup i c : ops !! i = Some c -> map copy_of ops !! i = Some (copy_of c).
Proof. intros H. by rewrite list_lookup_fmap, H. Qed.

(** What a call reads is as at the beginning, while it has not written. *)
Lemma read_fresh st pend w i c s : inv st pend w -> ops !! i = Some c -> st !! i = Some s -> s <> Written -> read w.(mem) (src_of c) (len_of c) = read m0 (src_of c) (len_of c).
Proof.
  intros I Hc Hs Hn. apply (after_read m0 _ no_races _ _ i (copy_of c) (v_mem _ _ _ I)); [by apply copy_lookup|]. unfold written. congruence.
Qed.

(** A call goes on: its parcel or itself is replaced by its next parcel, and LCOs are to be
    set. *)
Lemma inv_advance st pend w i c s s' m cs ps ys : inv st pend w -> ops !! i = Some c -> st !! i = Some s ->
  cs ++ todo (c, s) ≡ₚ w.(calls) ++ todo (c, s') ->
  ps ++ parcels m0 (c, s) ≡ₚ w.(net) ++ parcels m0 (c, s') ++ map SetLco ys ->
  ys ++ to_be_set (c, s') ≡ₚ to_be_set (c, s) ->
  s <> Written -> (s' = Written /\ (forall x, m x = copy_to w.(mem) (dest_of c) (read m0 (src_of c) (len_of c)) x) \/ s' <> Written /\ m = w.(mem)) ->
  inv (<[i := s']> st) (pend ++ ys) (mkWorld m cs ps w.(sets)).
Proof.
  intros [V1 V2 V3 V4 V6] Hc Hs Hcs Hps Hys Hsw Hm. pose proof (lookup_lt_Some _ _ _ Hs) as Hlt.
  assert (Hst : forall j t, <[i := s']> st !! j = Some t <-> j = i /\ t = s' \/ j <> i /\ st !! j = Some t).
  { intros j t. rewrite list_lookup_insert_Some. naive_solver. }
  split; cbn [calls net sets mem].
  - by rewrite length_insert.
  - apply Permutation_app_inv_r with (todo (c, s)). rewrite Hcs, V2. symmetry. by apply contributions_exchange.
  - apply Permutation_app_inv_r with (parcels m0 (c, s)). rewrite Hps, V3, map_app. pose proof (contributions_exchange (parcels m0) ops st i c s s' Hc Hs) as H.
    transitivity ((all (parcels m0) st ++ parcels m0 (c, s')) ++ map SetLco pend ++ map SetLco ys); [solve_Permutation|]. rewrite <- H. solve_Permutation.
  - rewrite <- V4. apply Permutation_app_head. rewrite <- app_assoc. apply Permutation_app_head. apply Permutation_app_inv_r with (to_be_set (c, s)).
    transitivity (ys ++ (all to_be_set (<[i:=s']> st) ++ to_be_set (c, s))); [solve_Permutation|]. rewrite (contributions_exchange to_be_set ops st i c s s' Hc Hs), <- Hys. solve_Permutation.
  - destruct Hm as [[-> Hm]|[Hn ->]].
    + apply after_iff with (fun j => j = i \/ written st j); [|eapply after_write; [done|done|by apply copy_lookup|done]].
      intros j. unfold written. rewrite Hst. destruct (decide (j = i)) as [->|]; naive_solver.
    + apply after_iff with (written st); [|done]. intros j. unfold written. rewrite Hst. destruct (decide (j = i)) as [->|]; naive_solver.
Qed.

Definition cost (st : list status) (pend : list nat) : nat := (length (all steps_of st) + length pend + length (all to_be_set st))%nat.

Lemma cost_advance st pend i c s s' ys : ops !! i = Some c -> st !! i = Some s -> ys ++ to_be_set (c, s') ≡ₚ to_be_set (c, s) ->
  (length (steps_of (c, s')) < length (steps_of (c, s)))%nat -> (cost (<[i := s']> st) (pend ++ ys) < cost st pend)%nat.
Proof.
  intros Hc Hs Hy Hl. pose proof (Permutation_length (contributions_exchange steps_of ops st i c s s' Hc Hs)) as H1. pose proof (Permutation_length (contributions_exchange to_be_set ops st i c s s' Hc Hs)) as H2.
  pose proof (Permutation_length Hy) as H3. unfold cost. rewrite !length_app in *. lia.
Qed.

(** Done at once. *)
Lemma inv_at_once st pend w i c m cs : inv st pend w -> ops !! i = Some c -> st !! i = Some Todo -> cs ++ [c] ≡ₚ w.(calls) ->
  (forall x, m x = copy_to w.(mem) (dest_of c) (read w.(mem) (src_of c) (len_of c)) x) ->
  exists st' pend', inv st' pend' (mkWorld m cs (w.(net) ++ set_all c) w.(sets)) /\ (cost st' pend' < cost st pend)%nat.
Proof.
  intros I Hc Hs Hcs Hm. pose proof (read_fresh _ _ _ _ _ _ I Hc Hs ltac:(done)) as Hr.
  set (ys := match c with memget _ _ _ l r => to_list l ++ to_list r | memput _ _ _ l r => to_list (default None l) ++ to_list r | memcpy _ _ _ r => to_list r end).
  assert (Hys : set_all c = map SetLco ys) by (unfold ys; destruct c; simpl; by rewrite ?map_app, !continue_to_sets).
  assert (Hp : ys ++ to_be_set (c, Written) ≡ₚ to_be_set (c, Todo)) by (unfold ys; destruct c; simpl; rewrite ?app_nil_r; [apply Permutation_app_comm|done|done]).
  exists (<[i := Written]> st), (pend ++ ys). split; [|eapply cost_advance; [done|done|done|simpl; lia]].
  eapply inv_advance; try done; [by rewrite app_nil_r|rewrite Hys; destruct c; simpl; by rewrite app_nil_r|left; split; [done|]].
  intros x. by rewrite Hm, Hr.
Qed.

(** Left to parcels. *)
Lemma inv_parcels st pend w i c cs ps : inv st pend w -> ops !! i = Some c -> st !! i = Some Todo -> cs ++ [c] ≡ₚ w.(calls) ->
  issue w.(mem) c = Some ps ->
  exists st' pend', inv st' pend' (mkWorld w.(mem) cs (w.(net) ++ ps) w.(sets)) /\ (cost st' pend' < cost st pend)%nat.
Proof.
  intros I Hc Hs Hd E. pose proof (read_fresh _ _ _ _ _ _ I Hc Hs ltac:(done)) as Hr. unfold issue in E. destruct (carried c); [|done]. injection E as <-.
  assert (Hlater : parcels m0 (c, Reading) = match c with memget d sr n l r => [GetRequest sr d n l r] | memput d sr n l r => [SendAsync sr n d (default None l) r] | memcpy d sr n r => [CopyRequest sr n d r] end) by by destruct c.
  assert (Hread : exists st' pend', inv st' pend' (mkWorld w.(mem) cs (w.(net) ++ parcels m0 (c, Reading)) w.(sets)) /\ (cost st' pend' < cost st pend)%nat).
  { exists (<[i := Reading]> st), (pend ++ []). split; [|eapply cost_advance; [done|done|done|simpl; lia]].
    eapply inv_advance; try done; [by rewrite app_nil_r|destruct c; by rewrite !app_nil_r|by right]. }
  assert (Hput : forall d sr n l r, c = memput d sr n l r ->
    exists st' pend', inv st' pend' (mkWorld w.(mem) cs (w.(net) ++ PutAsync d (read w.(mem) sr n) r :: continue_to (default None l)) w.(sets)) /\ (cost st' pend' < cost st pend)%nat).
  { intros d sr n l r ->. exists (<[i := Writing]> st), (pend ++ to_list (default None l)). split; [|eapply cost_advance; [done|done|done|simpl; lia]].
    simpl in Hr. rewrite Hr, continue_to_sets. eapply inv_advance; try done; [by rewrite app_nil_r|by rewrite app_nil_r|by right]. }
  destruct c as [d sr n l r|d sr n [l|] r|d sr n r]; try exact Hread.
  - destruct (_ <? _); [by apply (Hput d sr n (Some l) r)|exact Hread].
  - by apply (Hput d sr n None r).
Qed.

Lemma inv_issue st pend w k local w' : inv st pend w -> step w (Issue k local) = Some w' -> exists st' pend', inv st' pend' w' /\ (cost st' pend' < cost st pend)%nat.
Proof.
  intros I E. cbn [step] in E. destruct (calls w !! k) as [c|] eqn:Hk; [|done]. cbn [mbind option_bind] in E. pose proof (list_elem_of_lookup_2 _ _ _ Hk) as Hin. rewrite (v_calls _ _ _ I) in Hin.
  apply contributions_elem in Hin as (i & d & s & Hc & Hs & Hin). assert (s = Todo /\ d = c) as [-> ->] by (destruct s; simpl in Hin; [by apply list_elem_of_singleton in Hin as ->|by apply elem_of_nil in Hin..]).
  pose proof (delete_snoc _ _ _ Hk) as Hd. unfold agas_call in E. destruct (_ && _); [|done].
  assert (Hcases : (len_of c = O /\ w' = mkWorld (mem w) (delete k (calls w)) (net w ++ set_all c) (sets w))
    \/ (exists m, std_memcpy (mem w) (dest_of c) (src_of c) (len_of c) = Some m /\ w' = mkWorld m (delete k (calls w)) (net w ++ set_all c) (sets w))
    \/ (exists ps, issue (mem w) c = Some ps /\ w' = mkWorld (mem w) (delete k (calls w)) (net w ++ ps) (sets w))).
  { destruct (len_of c) as [|len]; [injection E as <-; by left|right]. destruct local.
    - left. destruct (std_memcpy _ _ _ _) as [m|]; [|done]. injection E as <-. by exists m.
    - right. destruct (issue _ c) as [ps|]; [|done]. injection E as <-. by exists ps. }
  destruct Hcases as [[Hlen ->]|[(m & Em & ->)|(ps & Ei & ->)]].
  - eapply inv_at_once; try done. intros x. rewrite Hlen. by rewrite copy_to_out by apply in_range_none.
  - eapply inv_at_once; try done. intros x. unfold std_memcpy in Em. destruct (overlap _ _ _); [done|]. by injection Em as <-.
  - by eapply inv_parcels.
Qed.

(** The call that a parcel belongs to. *)
Lemma inv_parcel st pend w i c s k p : inv st pend w -> ops !! i = Some c -> st !! i = Some s -> w.(net) !! k = Some p -> p ∈ parcels m0 (c, s) ->
  exists st' pend', inv st' pend' (handle w p (delete k w.(net))) /\ (cost st' pend' < cost st pend)%nat.
Proof.
  intros I Hc Hs Hk Hp. pose proof (delete_snoc _ _ _ Hk) as Hd. set (D := delete k (net w)) in *. clearbody D.
  assert (Hread : forall p' ys, s = Reading -> parcels m0 (c, Writing) = [p'] -> p' :: map SetLco ys = p' :: map SetLco (read_syncs c) ->
    exists st' pend', inv st' pend' (mkWorld w.(mem) w.(calls) (D ++ p' :: map SetLco ys) w.(sets)) /\ (cost st' pend' < cost st pend)%nat).
  { intros p' ys -> Hp' Hy. exists (<[i := Writing]> st), (pend ++ read_syncs c). rewrite Hy. split; [|eapply cost_advance; [done|done|done|simpl; lia]].
    assert (Hp1 : parcels m0 (c, Reading) = [p]) by (destruct c; simpl in Hp; by apply list_elem_of_singleton in Hp as ->).
    eapply inv_advance; try done; [rewrite <- Hd, Hp1, Hp'; simpl; solve_Permutation|by right]. }
  assert (Hwrite : forall m', s = Writing -> (forall x, m' x = copy_to w.(mem) (dest_of c) (read m0 (src_of c) (len_of c)) x) ->
    exists st' pend', inv st' pend' (mkWorld m' w.(calls) (D ++ map SetLco (write_syncs c)) w.(sets)) /\ (cost st' pend' < cost st pend)%nat).
  { intros m' -> Hm. exists (<[i := Written]> st), (pend ++ write_syncs c). split; [|eapply cost_advance; [done|done|simpl; by rewrite app_nil_r|simpl; lia]].
    assert (Hp1 : parcels m0 (c, Writing) = [p]) by (destruct c; simpl in Hp; by apply list_elem_of_singleton in Hp as ->).
    eapply inv_advance; try done; [rewrite <- Hd, Hp1; destruct c; simpl; solve_Permutation|simpl; by rewrite app_nil_r|by left]. }
  destruct s; [by destruct c; apply elem_of_nil in Hp| | |by destruct c; apply elem_of_nil in Hp].
  - pose proof (read_fresh _ _ _ _ _ _ I Hc Hs ltac:(done)) as Hr.
    destruct c as [d sr n l r|d sr n l r|d sr n r]; simpl in Hp, Hr; apply list_elem_of_singleton in Hp as ->; cbn [handle]; rewrite Hr, ?continue_to_sets.
    + by apply (Hread _ (to_list r)).
    + by apply (Hread _ (to_list (default None l))).
    + by apply (Hread _ []).
  - destruct c as [d sr n l r|d sr n l r|d sr n r]; simpl in Hp; apply list_elem_of_singleton in Hp as ->; cbn [handle]; rewrite continue_to_sets; by apply Hwrite.
Qed.

Lemma inv_deliver st pend w k w' : inv st pend w -> step w (Deliver k) = Some w' -> exists st' pend', inv st' pend' w' /\ (cost st' pend' < cost st pend)%nat.
Proof.
  intros I E. cbn [step] in E. destruct (net w !! k) as [p|] eqn:Hk; [|done]. injection E as <-. pose proof (list_elem_of_lookup_2 _ _ _ Hk) as Hin.
  pose proof I as [V1 V2 V3 V4 V6]. rewrite V3 in Hin. apply elem_of_app in Hin as [Hin|Hin].
  - apply contributions_elem in Hin as (i & c & s & Hc & Hs & Hp). by eapply inv_parcel.
  - apply list_elem_of_fmap in Hin as (y & -> & Hy). apply elem_of_Permutation in Hy as [pend' Hp]. exists st, pend'. split; [|unfold cost; rewrite Hp; simpl; lia].
    cbn [handle]. split; cbn [calls net sets mem]; try done.
    + rewrite (delete_Permutation _ _ _ Hk), Hp in V3. simpl in V3. apply Permutation_cons_inv with (SetLco y). rewrite V3. solve_Permutation.
    + rewrite <- V4, Hp. solve_Permutation.
Qed.

Lemma copies_run l : forall st pend w w', inv st pend w -> run w l = Some w' -> exists st' pend', inv st' pend' w' /\ (length l + cost st' pend' <= cost st pend)%nat.
Proof.
  induction l as [|x l IH]; intros st pend w w' I E; cbn [run] in E; [injection E as <-; by exists st, pend|].
  destruct (step w x) as [w1|] eqn:E1; [|done]. cbn [mbind option_bind] in E.
  assert (Hs : exists st' pend', inv st' pend' w1 /\ (cost st' pend' < cost st pend)%nat) by (destruct x; [by eapply inv_issue|by eapply inv_deliver]).
  destruct Hs as (st1 & pend1 & I1 & Hc1). destruct (IH _ _ _ _ I1 E) as (st2 & pend2 & I2 & Hc2). exists st2, pend2. split; [done|]. simpl. lia.
Qed.

Definition syncs : list nat := concat (map (fun c => read_syncs c ++ write_syncs c) ops).

Lemma copies_begin : inv (map (fun _ => Todo) ops) [] (mkWorld m0 ops [] []) /\ cost (map (fun _ => Todo) ops) [] = (3 * length ops + length syncs)%nat.
Proof.
  assert (Hno : forall i s, map (fun _ : call => Todo) ops !! i = Some s -> s = Todo) by (intros i s; rewrite list_lookup_fmap; by destruct (ops !! i); intros [= <-]).
  split; [split; cbn [calls net sets mem]|].
  - apply length_map.
  - rewrite contributions_initial. clear. by induction ops as [|c l IH]; simpl; [|rewrite <- IH].
  - rewrite contributions_initial. clear. by induction ops as [|[] l IH]; simpl in *; [|rewrite <- IH..].
  - simpl. by rewrite contributions_initial.
  - apply after_none. intros i H. by apply Hno in H.
  - unfold cost, syncs. rewrite !contributions_initial. simpl. assert (H : forall l : list call, length (concat (map (fun c => steps_of (c, Todo)) l)) = (3 * length l)%nat).
    { induction l as [|c l IH]; [done|]. simpl in *. rewrite IH. lia. } rewrite H. lia.
Qed.

(** Nothing is left of calls that have written. *)
Lemma copies_end st pend w i c : inv st pend w -> w.(calls) = [] -> w.(net) = [] -> pend = [] /\ (ops !! i = Some c -> st !! i = Some Written).
Proof.
  intros [V1 V2 V3 V4 V6] Hcs Hnet. rewrite Hcs in V2. rewrite Hnet in V3. apply Permutation_nil_l in V2, V3. symmetry in V3. apply app_eq_nil in V3 as [V3 Hp].
  split; [by apply map_eq_nil in Hp|]. intros Hc. assert (Hlt : (i < length st)%nat) by (rewrite V1; by eapply lookup_lt_Some). apply lookup_lt_is_Some in Hlt as [s Hs].
  destruct (todo (c, s)) as [|x l] eqn:E1; [|assert (Hx : x ∈ all todo st) by (eapply contributions_in; [done|done|rewrite E1; by apply elem_of_cons; left]); rewrite <- V2 in Hx; by apply elem_of_nil in Hx].
  destruct (parcels m0 (c, s)) as [|x l] eqn:E2; [|assert (Hx : x ∈ all (parcels m0) st) by (eapply contributions_in; [done|done|rewrite E2; by apply elem_of_cons; left]); rewrite V3 in Hx; by apply elem_of_nil in Hx].
  by destruct s, c.
Qed.

(** *** Well-formed calls *)

(** What a caller has to see to: addresses that are not null, a source and a destination that do
    not overlap, global ranges within a block, and a size that parcels can carry. *)
Definition well_formed (c : call) : bool :=
  negb ((dest_of c).2 =? 0) && negb ((src_of c).2 =? 0) && negb (overlap (dest_of c) (src_of c) (len_of c))
  && one_block (dest_of c) (len_of c) && one_block (src_of c) (len_of c) && carried c.

Lemma well_formed_spec c : well_formed c = true -> ((dest_of c).2 =? 0) || ((src_of c).2 =? 0) = false
  /\ overlap (dest_of c) (src_of c) (len_of c) = false /\ one_block (dest_of c) (len_of c) && one_block (src_of c) (len_of c) = true /\ carried c = true.
Proof. unfold well_formed. rewrite !andb_true_iff, !negb_true_iff. intros [[[[[-> ->] ->] ->] ->] ->]. done. Qed.

(** The copies of the address space of one locality. *)
Lemma smp_fold : forallb well_formed ops = true ->
  exists m, smp_calls m0 ops = Some m /\ forall x, m x = foldl copy_now m0 (map copy_of ops) x.
Proof.
  clear no_races. assert (H : forall l (m m' : memory), forallb well_formed l = true -> (forall x, m x = m' x) ->
    exists r, smp_calls m l = Some r /\ forall x, r x = foldl copy_now m' (map copy_of l) x); [|intros Hw; by apply H].
  induction l as [|c l IH]; intros m m' Hw Hm; [by exists m|]. cbn [forallb] in Hw. apply andb_true_iff in Hw as [Hc Hw].
  destruct (well_formed_spec c Hc) as (W1 & W2 & _).
  assert (Hs : exists m1, smp_call m c = Some m1 /\ forall x, m1 x = copy_now m' (copy_of c) x).
  { assert (E : smp_call m c = smp_copy m (dest_of c) (src_of c) (len_of c)) by (by destruct c). rewrite E. unfold smp_copy, std_memcpy, copy_now.
    cbn [copy_of c_dest c_src c_len]. rewrite W1, W2. destruct (len_of c) as [|n].
    - exists m. split; [done|]. intros x. by rewrite copy_to_out by apply in_range_none.
    - eexists. split; [done|]. intros x. unfold copy_to. rewrite !read_length. rewrite (read_ext m m') by (intros; apply Hm). by rewrite Hm. }
  destruct Hs as (m1 & E1 & Hm1). cbn [smp_calls map foldl]. rewrite E1. cbn [mbind option_bind]. by apply IH.
Qed.

(** Something can always be done. *)
Lemma copies_progress st pend w : forallb well_formed ops = true -> inv st pend w -> w.(calls) <> [] \/ w.(net) <> [] ->
  exists x w', step w x = Some w'.
Proof.
  intros Hw I H. destruct (net w) as [|p ps] eqn:Hn; [|exists (Deliver 0); eexists; cbn [step]; rewrite Hn; reflexivity].
  destruct H as [H|H]; [|done]. destruct (calls w) as [|c cs] eqn:Hcs; [done|]. exists (Issue 0 false).
  assert (Hin : c ∈ ops).
  { pose proof (v_calls _ _ _ I) as V. rewrite Hcs in V. assert (Hc : c ∈ all todo st) by (rewrite <- V; left).
    apply contributions_elem in Hc as (i & d & s & Hd & _ & Hc). destruct s; simpl in Hc; try (by apply elem_of_nil in Hc).
    apply list_elem_of_singleton in Hc as ->. by eapply list_elem_of_lookup_2. }
  rewrite forallb_forall in Hw. destruct (well_formed_spec c (Hw c (proj1 (list_elem_of_In _ _) Hin))) as (_ & _ & W3 & W4).
  cbn [step]. rewrite Hcs. cbn [lookup list_lookup mbind option_bind]. unfold agas_call, issue. rewrite W3, W4.
  destruct (len_of c); by eexists.
Qed.

(** C26: copies by parcels are copies.  Take calls of memput, memget and memcpy of which none writes
    what another reads or writes, each with addresses that are not null, a source and a
    destination that do not overlap, global ranges within a block, and a size below 2^31 (2^32 - 8
    for memget).  In any order of the calls, of their parcels and of the threads that send large
    parcels, and whichever calls are done at once: an LCO that is to be set when a destination
    was written is set only when it holds the source's bytes; something can be done as long as a
    call or a parcel is left; at most three steps for a call and one for an LCO are made; and when
    no call and no parcel is left the memory is as if each call had copied at once, and every LCO
    of the calls was set once. *)
Theorem string_ops l w : forallb well_formed ops = true -> run (mkWorld m0 ops [] []) l = Some w ->
  (NoDup syncs -> forall i c y, ops !! i = Some c -> y ∈ write_syncs c -> y ∈ w.(sets) -> read w.(mem) (dest_of c) (len_of c) = read m0 (src_of c) (len_of c))
  /\ (w.(calls) <> [] \/ w.(net) <> [] -> exists x w', step w x = Some w')
  /\ (length l <= 3 * length ops + length syncs)%nat
  /\ (w.(calls) = [] -> w.(net) = [] -> (exists m, smp_calls m0 ops = Some m /\ forall x, w.(mem) x = m x) /\ w.(sets) ≡ₚ syncs).
Proof.
  intros Hw E. destruct copies_begin as [I0 HC]. destruct (copies_run _ _ _ _ _ I0 E) as (st & pend & I & Hl). pose proof I as [V1 V2 V3 V4 V6].
  split; [|split; [by eapply copies_progress|split; [lia|]]].
  - intros Hnd i c y Hc Hy Hset. assert (Hlt : (i < length st)%nat) by (rewrite V1; by eapply lookup_lt_Some). apply lookup_lt_is_Some in Hlt as [s Hs].
    assert (s = Written) as ->.
    { unfold syncs in Hnd. rewrite <- V4 in Hnd. apply NoDup_app in Hnd as (_ & Hnd & _). destruct s; [| | |done]; destruct (Hnd y Hset); apply elem_of_app; right;
        (eapply contributions_in; [done|done|]); simpl; rewrite ?elem_of_app; auto. }
    by apply (after_bytes m0 _ _ _ i (copy_of c) V6); [apply copy_lookup|].
  - intros Hcs Hnet. destruct (copies_end _ _ _ 0 (memcpy (0%nat, 0) (0%nat, 0) 0 None) I Hcs Hnet) as [-> _]. split.
    + destruct (smp_fold Hw) as (m & Em & Hm). exists m. split; [done|]. intros x. rewrite Hm.
      apply (after_all m0 _ no_races (written st)); [|done]. intros i c Hc. rewrite list_lookup_fmap in Hc. destruct (ops !! i) as [d|] eqn:Hd; [|done]. destruct (copies_end _ _ _ i d I Hcs Hnet) as [_ Hwr]. by apply Hwr.
    + unfold syncs. rewrite <- V4. rewrite (contributions_nil to_be_set); [by rewrite !app_nil_r|].
      intros i c s Hc Hs. destruct (copies_end _ _ _ i c I Hcs Hnet) as [_ Hwr]. rewrite (Hwr Hc) in Hs. by injection Hs as <-.
Qed.
End Race_free.
End Calls.

(** ** Witness: a put that a thread sends, a get and a copy *)

Definition three_calls : list call :=
  [memput (0%nat, 100) (1%nat, 8) 2 (Some (Some 1%nat)) (Some 2%nat); memget (2%nat, 8) (0%nat, 200) 2 (Some 3%nat) None; memcpy (0%nat, 300) (0%nat, 200) 2 (Some 4%nat)].

Definition start_memory : memory := fun x => x.2 + 1.

(** Blocks of a hundred bytes, and pages of two. *)
Definition string_block (a : Z) : Z := a / 100.

Lemma three_race_free : race_free (map copy_of three_calls).
Proof.
  intros i j c d x Hc Hd Hne Hx. apply in_range_spec in Hx as (k & Hk & ->).
  destruct i as [|[|[|i]]], j as [|[|[|j]]]; try done; simplify_eq/=; destruct k as [|[|k]]; try lia; done.
Qed.

Definition three_steps : list label :=
  [Issue 1 false; Issue 1 true; Issue 0 false; Deliver 1; Deliver 1; Deliver 0; Deliver 0; Deliver 0; Deliver 0; Deliver 0; Deliver 0].

Lemma string_ops_witness : exists w, run 2 string_block (mkWorld start_memory three_calls [] []) three_steps = Some w
  /\ read w.(mem) (0%nat, 100) 2 = [9; 10] /\ w.(sets) ≡ₚ [1; 2; 3; 4]%nat.
Proof.
  destruct (run 2 string_block (mkWorld start_memory three_calls [] []) three_steps) as [w|] eqn:E; [|by vm_compute in E]. exists w. split; [done|].
  destruct (string_ops 2 string_block start_memory three_calls three_race_free three_steps w eq_refl E) as (_ & _ & _ & H).
  assert (Hn : calls w = [] /\ net w = [] /\ read w.(mem) (0%nat, 100) 2 = [9; 10]) by (vm_compute in E; by injection E as <-). destruct Hn as (H1 & H2 & H3). split; [done|].
  destruct (H H1 H2) as [_ Hs]. exact Hs.
Defined.
