(* ===== verification/Rma.v ===== *)
(** * Copies by remote memory access

    libhpx/network/pwc: the memput, memget and memcpy of PGASNetwork.cpp and the rendezvous sends
    of rendezvous_send.cpp are puts and gets of the transport (PhotonTransport.cpp) with commands
    that run at the two ends when they complete.  A command sets an LCO or names a parcel by its
    address, to be resumed where it is; a buffer that is not registered is pinned for the time of
    the operation.  The transport reads and writes when it wants; what it does is a label. *)

From S2P Require Import Prelude Math Gpa Commands Copies.

(** ** Parcels and transport operations *)

(** A parcel that a command can name: one that sets an LCO, a suspended thread, one that unpins
    a buffer and goes on with a command, one that is being sent (with the parcel [ssync] in its
    next pointer, or 0), and one that is being received. *)
Inductive pkind :=
| PSet (lco : Z)
| PThread
| PUnpin (base : Z) (n : nat) (src op : Z)
| PSent (ssync : Z)
| PRecv.

(** Parcels by their locality and address. *)
Abbreviation key := (Z * Z)%type.

Record xfer := mkXfer {
  x_put : bool;               (* a put, or a get *)
  x_init : Z; x_rank : Z;     (* who made it, and the other end *)
  x_dest : loc; x_src : loc; x_n : nat;
  x_lid : Z; x_rid : Z;       (* the packed commands *)
  x_lce : bool; x_rce : bool; (* which completions are asked for *)
}.

(** What is under way: an operation with the bytes it has read, a command without data, a
    completion, and a parcel that is to run. *)
Inductive item :=
| Transfer (x : xfer) (bytes : option (list Z))
| Cmd (src rank word : Z)
| Event (rank src word : Z)
| Ready (rank p : Z) (k : pkind).

(** What the calls are to bring about. *)
Inductive note :=
| Set_ (lco : Z)
| Resumed (rank p : Z)
| Deleted (rank p : Z)
| Launched (rank p : Z).

(** The buffers that were registered for an operation. *)
Abbreviation pin := (Z * Z * nat)%type.

Definition at_ (rank a : Z) : loc := (Z.to_nat rank, a).

(** What an operation allocates, pins and starts. *)
Definition started : Type := list (key * pkind) * list pin * item.

(** [_chain_unpin], with the address [u] of its parcel. *)
Definition _chain_unpin (rank addr : Z) (n : nat) (op : Command) (u : Z) : (key * pkind) * Command :=
  (((rank, u), PUnpin addr n rank (Pack op)), ResumeParcel u).

(** [Op::put] of [rank] to [there]; [registered] tells whether the source is. *)
Definition op_put (rank there dest src : Z) (n : nat) (registered : bool) (u : Z) (lop rop : Command) : started :=
  let lce := nonempty lop in
  let rce := nonempty rop in
  if registered then ([], [], Transfer (mkXfer true rank there (at_ there dest) (at_ rank src) n (Pack lop) (Pack rop) lce rce) None)
  else
    let '(p, lop) := _chain_unpin rank src n lop u in
    ([p], [(rank, src, n)], Transfer (mkXfer true rank there (at_ there dest) (at_ rank src) n (Pack lop) (Pack rop) lce rce) None).

(** [Op::get]: the local completion is always asked for. *)
Definition op_get (rank there dest src : Z) (n : nat) (registered : bool) (u : Z) (lop rop : Command) : started :=
  let rce := nonempty rop in
  if registered then ([], [], Transfer (mkXfer false rank there (at_ rank dest) (at_ there src) n (Pack lop) (Pack rop) true rce) None)
  else
    let '(p, lop) := _chain_unpin rank dest n lop u in
    ([p], [(rank, dest, n)], Transfer (mkXfer false rank there (at_ rank dest) (at_ there src) n (Pack lop) (Pack rop) true rce) None).

(** [Op::cmd], of commands without a local part. *)
Definition op_cmd (rank there : Z) (rop : Command) : list item := if nonempty rop then [Cmd rank there (Pack rop)] else [].

(** ** The network's calls *)

Section Network.
(** Where the heap of a locality begins in its memory. *)
Variable heap : Z -> Z.

Definition put (rank to lva : Z) (n : nat) (registered : bool) (u : Z) (lcmd rcmd : Command) : started :=
  op_put rank (gpa_to_rank to) (heap (gpa_to_rank to) + gpa_to_offset to) lva n registered u lcmd rcmd.

Definition get (rank lva from : Z) (n : nat) (registered : bool) (u : Z) (lcmd rcmd : Command) : started :=
  op_get rank (gpa_to_rank from) lva (heap (gpa_to_rank from) + gpa_to_offset from) n registered u lcmd rcmd.

(** The commands for the LCOs of a call; [p] is the address of the parcel, if one is made. *)
Definition lsync_command (rank lsync p : Z) : list (key * pkind) * Command :=
  if lsync =? 0 then ([], Nop)
  else if gpa_to_rank lsync =? rank then ([], SetLCO lsync)
  else ([((rank, p), PSet lsync)], ResumeParcel p).

Definition rsync_command (rank there rsync p : Z) : list (key * pkind) * Command :=
  if rsync =? 0 then ([], Nop)
  else if gpa_to_rank rsync =? rank then ([], SetLCOAtSource rsync)
  else if gpa_to_rank rsync =? there then ([], SetLCO rsync)
  else ([((rank, p), PSet rsync)], ResumeParcelAtSource p).

(** What the environment gives to a call: the addresses of the parcels that it may allocate,
    and whether its buffer is registered. *)
Record given := mkGiven { g_l : Z; g_r : Z; g_u : Z; g_registered : bool }.

(** The calls, with the locality that makes them; [t] is the parcel of the thread that is suspended
    until the call is done.  A memcpy and a rendezvous send are requests to the locality of the
    source and of the target, whose handlers make the call that copies. *)
Inductive call :=
| memget (rank to from : Z) (n : nat) (lsync rsync : Z) (g : given)
| memget_rsync (rank to from : Z) (n : nat) (lsync t : Z) (g : given)
| memget_lsync (rank to from : Z) (n : nat) (t : Z) (g : given)
| memput (rank to from : Z) (n : nat) (lsync rsync : Z) (g : given)
| memput_lsync (rank to from : Z) (n : nat) (rsync t : Z) (g : given)
| memput_rsync (rank to from : Z) (n : nat) (t : Z) (g : given)
| memcpy (to from : Z) (n : nat) (sync t : Z) (g : given)
| memcpy_rsync (to from : Z) (n : nat) (t : Z) (g : given)
| rendezvousSend (rank p target : Z) (n : nat) (ssync p' : Z)
| rendezvous_get (rank src p : Z) (n : nat) (ssync p' : Z).

Definition add_parcels (ps : list (key * pkind)) (s : started) : started := (ps ++ s.1.1, s.1.2, s.2).

Definition pgas_memget (rank to from : Z) (n : nat) (lsync rsync : Z) (g : given) : started :=
  let '(p1, lcmd) := lsync_command rank lsync g.(g_l) in
  let '(p2, rcmd) := rsync_command rank (gpa_to_rank from) rsync g.(g_r) in
  add_parcels (p1 ++ p2) (get rank to from n g.(g_registered) g.(g_u) lcmd rcmd).

(** The thread is suspended, and its parcel is what the continuation gets. *)
Definition pgas_memget_rsync (rank to from : Z) (n : nat) (lsync t : Z) (g : given) : started :=
  let '(p1, lcmd) := lsync_command rank lsync g.(g_l) in
  add_parcels (p1 ++ [((rank, t), PThread)]) (get rank to from n g.(g_registered) g.(g_u) lcmd (ResumeParcelAtSource t)).

Definition pgas_memget_lsync (rank to from : Z) (n : nat) (t : Z) (g : given) : started :=
  add_parcels [((rank, t), PThread)] (get rank to from n g.(g_registered) g.(g_u) (ResumeParcel t) Nop).

Definition pgas_memput (rank to from : Z) (n : nat) (lsync rsync : Z) (g : given) : started :=
  let '(p1, lcmd) := lsync_command rank lsync g.(g_l) in
  let '(p2, rcmd) := rsync_command rank (gpa_to_rank to) rsync g.(g_r) in
  add_parcels (p1 ++ p2) (put rank to from n g.(g_registered) g.(g_u) lcmd rcmd).

Definition pgas_memput_lsync (rank to from : Z) (n : nat) (rsync t : Z) (g : given) : started :=
  let '(p2, rcmd) := rsync_command rank (gpa_to_rank to) rsync g.(g_r) in
  add_parcels ([((rank, t), PThread)] ++ p2) (put rank to from n g.(g_registered) g.(g_u) (ResumeParcel t) rcmd).

Definition pgas_memput_rsync (rank to from : Z) (n : nat) (t : Z) (g : given) : started :=
  add_parcels [((rank, t), PThread)] (put rank to from n g.(g_registered) g.(g_u) Nop (ResumeParcelAtSource t)).

(** The request handler of a rendezvous: [p'] is the parcel that it allocates, in registered memory. *)
Definition _rendezvous_get_handler (rank src p : Z) (n : nat) (p' : Z) : started :=
  add_parcels [((rank, p'), PRecv)] (op_get rank src p' p n true 0 (RendezvousLaunch p') (DeleteParcel p)).

Definition issue (c : call) : option started :=
  match c with
  | memget rank to from n lsync rsync g => Some (pgas_memget rank to from n lsync rsync g)
  | memget_rsync rank to from n lsync t g => Some (pgas_memget_rsync rank to from n lsync t g)
  | memget_lsync rank to from n t g => Some (pgas_memget_lsync rank to from n t g)
  | memput rank to from n lsync rsync g => Some (pgas_memput rank to from n lsync rsync g)
  | memput_lsync rank to from n rsync t g => Some (pgas_memput_lsync rank to from n rsync t g)
  | memput_rsync rank to from n t g => Some (pgas_memput_rsync rank to from n t g)
  | rendezvous_get rank src p n ssync p' => Some (_rendezvous_get_handler rank src p n p')
  | _ => None
  end.

(** The calls that the handlers of requests make: those of memcpy run where the source is pinned. *)
Definition _pwc_memcpy_handler (to from : Z) (n : nat) (sync t : Z) (g : given) : call :=
  let rank := gpa_to_rank from in memput_lsync rank to (heap rank + gpa_to_offset from) n sync t g.

Definition _pwc_memcpy_rsync_handler (to from : Z) (n : nat) (t : Z) (g : given) : call :=
  let rank := gpa_to_rank from in memput_rsync rank to (heap rank + gpa_to_offset from) n t g.

Definition rendezvous_request (rank p target : Z) (n : nat) (ssync p' : Z) : call := rendezvous_get (gpa_to_rank target) rank p n ssync p'.

Definition request (c : call) : option call :=
  match c with
  | memcpy to from n sync t g => Some (_pwc_memcpy_handler to from n sync t g)
  | memcpy_rsync to from n t g => Some (_pwc_memcpy_rsync_handler to from n t g)
  | rendezvousSend rank p target n ssync p' => Some (rendezvous_request rank p target n ssync p')
  | _ => None
  end.

(** ** Running *)

Record world := mkWorld { mem : memory; calls : list call; store : gmap key pkind; items : list item; notes : list note; pinned : list pin }.

(** The parcels that are allocated are at addresses that are not in use. *)
Fixpoint allocate (s : gmap key pkind) (ps : list (key * pkind)) : option (gmap key pkind) :=
  match ps with
  | [] => Some s
  | (a, k) :: ps => match s !! a with None => allocate (<[a := k]> s) ps | Some _ => None end
  end.

(** A parcel that a command resumes must be there. *)
Definition take_parcel (s : gmap key pkind) (rank p : Z) : option (gmap key pkind * item) :=
  k ← s !! (rank, p); Some (delete (rank, p) s, Ready rank p k).

(** A command of the word [word], from [src], runs at [rank].  The commands of the eager protocol
    are not among those of these calls. *)
Definition run_word (s : gmap key pkind) (rank src word : Z) : option (gmap key pkind * list item * list note) :=
  e ← run_command rank src (Unpack word);
  match e with
  | Resume p => '(s, i) ← take_parcel s rank p; Some (s, [i], [])
  | SetLco lco => Some (s, [], [Set_ lco])
  | Forward dst c => Some (s, op_cmd rank dst c, [])
  | Delete p =>
    match s !! (rank, p) with
    | Some (PSent ssync) =>
      let s := delete (rank, p) s in
      if ssync =? 0 then Some (s, [], [Deleted rank p])
      else '(s, i) ← take_parcel s rank ssync; Some (s, [i], [Deleted rank p])
    | _ => None
    end
  | Launch p => match s !! (rank, p) with Some PRecv => Some (delete (rank, p) s, [], [Launched rank p]) | _ => None end
  | _ => None
  end.

(** A buffer is unregistered once. *)
Definition unpin (ps : list pin) (q : pin) : option (list pin) :=
  '(i, _) ← list_find (eq q) ps; Some (delete i ps).

(** The completions of an operation that has read, and of one that has written. *)
Definition read_events (x : xfer) : list item :=
  if x.(x_put) then (if x.(x_lce) then [Event x.(x_init) x.(x_init) x.(x_lid)] else [])
  else (if x.(x_rce) then [Event x.(x_rank) x.(x_init) x.(x_rid)] else []).

Definition write_events (x : xfer) : list item :=
  if x.(x_put) then (if x.(x_rce) then [Event x.(x_rank) x.(x_init) x.(x_rid)] else [])
  else (if x.(x_lce) then [Event x.(x_init) x.(x_init) x.(x_lid)] else []).

(** An item goes on. *)
Definition advance (w : world) (i : item) (rest : list item) : option world :=
  match i with
  | Transfer x None =>
    Some (mkWorld w.(mem) w.(calls) w.(store) (rest ++ Transfer x (Some (read w.(mem) x.(x_src) x.(x_n))) :: read_events x) w.(notes) w.(pinned))
  | Transfer x (Some bytes) =>
    Some (mkWorld (copy_to w.(mem) x.(x_dest) bytes) w.(calls) w.(store) (rest ++ write_events x) w.(notes) w.(pinned))
  | Cmd src rank word => Some (mkWorld w.(mem) w.(calls) w.(store) (rest ++ [Event rank src word]) w.(notes) w.(pinned))
  | Event rank src word =>
    '(s, js, ns) ← run_word w.(store) rank src word;
    Some (mkWorld w.(mem) w.(calls) s (rest ++ js) (w.(notes) ++ ns) w.(pinned))
  | Ready rank p (PSet lco) => Some (mkWorld w.(mem) w.(calls) w.(store) rest (w.(notes) ++ [Set_ lco]) w.(pinned))
  | Ready rank p PThread => Some (mkWorld w.(mem) w.(calls) w.(store) rest (w.(notes) ++ [Resumed rank p]) w.(pinned))
  | Ready rank p (PUnpin base n src op) =>
    ps ← unpin w.(pinned) (rank, base, n);
    '(s, js, ns) ← run_word w.(store) rank src op;
    Some (mkWorld w.(mem) w.(calls) s (rest ++ js) (w.(notes) ++ ns) ps)
  | Ready _ _ _ => None
  end.

Inductive label := Call (k : nat) | Advance (k : nat).

Definition step (w : world) (x : label) : option world :=
  match x with
  | Call k =>
    c ← w.(calls) !! k;
    match request c with
    | Some c' => Some (mkWorld w.(mem) (delete k w.(calls) ++ [c']) w.(store) w.(items) w.(notes) w.(pinned))
    | None =>
      '(ps, pins, i) ← issue c;
      s ← allocate w.(store) ps;
      Some (mkWorld w.(mem) (delete k w.(calls)) s (w.(items) ++ [i]) w.(notes) (w.(pinned) ++ pins))
    end
  | Advance k => i ← w.(items) !! k; advance w i (delete k w.(items))
  end.

Fixpoint run (w : world) (l : list label) : option world :=
  match l with [] => Some w | x :: l => w ← step w x; run w l end.

(** ** Commands with the parcels that they name *)

(** The tree behind a command: the parcels that it and the commands it leads to name. *)
Inductive spar := QSet (lco : Z) | QThread.

Inductive scmd :=
| KSet (lco : Z)
| KSetSrc (lco : Z)
| KRes (p : Z) (q : spar)
| KResSrc (p : Z) (q : spar)
| KDelete (p ssync : Z)
| KLaunch (p : Z).

(** What is under way, but for transfers: a completion, that of an operation with a pinned buffer,
    the parcel that unpins it, a command on its way, and a parcel that is to run. *)
Inductive ritem :=
| REvent (rank src : Z) (c : scmd)
| RChain (rank u base : Z) (n : nat) (c : scmd)
| RUnpin (rank u base : Z) (n : nat) (c : scmd)
| RCmd (src rank : Z) (c : scmd)
| RReady (rank p : Z) (q : spar).

Definition kind_of (q : spar) : pkind := match q with QSet lco => PSet lco | QThread => PThread end.

Definition cmd_of (c : scmd) : Command :=
  match c with
  | KSet lco => SetLCO lco
  | KSetSrc lco => SetLCOAtSource lco
  | KRes p _ => ResumeParcel p
  | KResSrc p _ => ResumeParcelAtSource p
  | KDelete p _ => DeleteParcel p
  | KLaunch p => RendezvousLaunch p
  end.

Definition forget (i : ritem) : item :=
  match i with
  | REvent r s c => Event r s (Pack (cmd_of c))
  | RChain r u b n c => Event r r (Pack (ResumeParcel u))
  | RUnpin r u b n c => Ready r u (PUnpin b n r (Pack (cmd_of c)))
  | RCmd s r c => Cmd s r (Pack (cmd_of c))
  | RReady r p q => Ready r p (kind_of q)
  end.

(** The parcels behind a command that runs at [r] for [s]. *)
Definition ckeys (r s : Z) (c : scmd) : list (key * pkind) :=
  match c with
  | KSet _ | KSetSrc _ => []
  | KRes p q => [((r, p), kind_of q)]
  | KResSrc p q => [((s, p), kind_of q)]
  | KDelete p ssync => ((r, p), PSent ssync) :: if ssync =? 0 then [] else [((r, ssync), PThread)]
  | KLaunch p => [((r, p), PRecv)]
  end.

Definition keys (i : ritem) : list (key * pkind) :=
  match i with
  | REvent r s c => ckeys r s c
  | RChain r u b n c => ((r, u), PUnpin b n r (Pack (cmd_of c))) :: ckeys r r c
  | RUnpin r u b n c => ckeys r r c
  | RCmd s r c => ckeys r s c
  | RReady _ _ _ => []
  end.

(** What it brings about. *)
Definition pnotes (r p : Z) (q : spar) : list note := match q with QSet lco => [Set_ lco] | QThread => [Resumed r p] end.

Definition cnotes (r s : Z) (c : scmd) : list note :=
  match c with
  | KSet lco | KSetSrc lco => [Set_ lco]
  | KRes p q => pnotes r p q
  | KResSrc p q => pnotes s p q
  | KDelete p ssync => Deleted r p :: if ssync =? 0 then [] else [Resumed r ssync]
  | KLaunch p => [Launched r p]
  end.

Definition rnotes (i : ritem) : list note :=
  match i with
  | REvent r s c => cnotes r s c
  | RChain r _ _ _ c | RUnpin r _ _ _ c => cnotes r r c
  | RCmd s r c => cnotes r s c
  | RReady r p q => pnotes r p q
  end.

Definition rpins (i : ritem) : list pin := match i with RChain r _ b n _ | RUnpin r _ b n _ => [(r, b, n)] | _ => [] end.

(** LCOs are set where they are, and addresses fit into a command. *)
Definition cwf (r s : Z) (c : scmd) : Prop :=
  match c with
  | KSet lco => lco ∈u 64 /\ gpa_to_rank lco = r
  | KSetSrc lco => lco ∈u 64 /\ gpa_to_rank lco = s
  | KRes p _ | KResSrc p _ | KDelete p _ | KLaunch p => p ∈u 48
  end.

Definition rwf (i : ritem) : Prop :=
  match i with
  | REvent r s c => cwf r s c
  | RChain r u _ _ c => u ∈u 48 /\ cwf r r c
  | RUnpin r _ _ _ c => cwf r r c
  | RCmd s r c => cwf r s c
  | RReady _ _ _ => True
  end.

(** The steps that are left. *)
Definition ccost (c : scmd) : nat :=
  match c with KSet _ | KLaunch _ => 1 | KSetSrc _ => 3 | KRes _ _ | KDelete _ _ => 2 | KResSrc _ _ => 4 end.

Definition rcost (i : ritem) : nat :=
  match i with REvent _ _ c | RUnpin _ _ _ _ c => ccost c | RChain _ _ _ _ c | RCmd _ _ c => S (ccost c) | RReady _ _ _ => 1 end.

Lemma lco_of_offset lco : lco ∈u 64 -> offset_to_gpa (gpa_to_rank lco) (wrap 48 lco) = lco.
Proof.
  intros Hl. unfold offset_to_gpa, gpa_to_rank, GPA_RANK_BITS, GPA_OFFSET_BITS.
  rewrite !wrap_wrap by lia. rewrite lor_shiftl_add by (try apply wrap_range; lia). rewrite Z.shiftr_div_pow2 by lia. rewrite (wrap_small 16).
  - unfold wrap. pose proof (Z.div_mod lco (2 ^ 48)). lia.
  - split; [apply Z.div_pos; lia|]. apply Z.div_lt_upper_bound; lia.
Qed.

(** Parcels in a list of their addresses. *)
Definition stored (K : list (key * pkind)) : gmap key pkind := list_to_map K.
Arguments stored : simpl never.

Lemma stored_take a k K : NoDup (a :: K.*1) -> stored ((a, k) :: K) !! a = Some k /\ delete a (stored ((a, k) :: K)) = stored K.
Proof.
  intros [Ha _]%NoDup_cons. unfold stored. simpl. split; [apply lookup_insert_eq|]. apply delete_insert_id. by apply not_elem_of_list_to_map_1.
Qed.

Definition total (js : list ritem) : nat := list_sum (map rcost js).

(** A command does what its tree says. *)
Lemma run_word_spec r s c K : cwf r s c -> NoDup (ckeys r s c ++ K).*1 ->
  exists js ns, run_word (stored (ckeys r s c ++ K)) r s (Pack (cmd_of c)) = Some (stored (concat (map keys js) ++ K), map forget js, ns)
    /\ ns ++ concat (map rnotes js) = cnotes r s c /\ Forall rwf js /\ concat (map rpins js) = [] /\ concat (map keys js) ⊆+ ckeys r s c /\ (total js < ccost c)%nat.
Proof.
  intros Hwf Hnd. unfold run_word.
  assert (Hu : forall op arg, Unpack (Pack (command op arg)) = command op arg) by (intros; apply unpack_pack; auto with hpx).
  destruct c as [lco|lco|p q|p q|p ssync|p]; cbn [cmd_of ckeys cnotes cwf] in *; unfold SetLCO, SetLCOAtSource, ResumeParcel, ResumeParcelAtSource, DeleteParcel, RendezvousLaunch; rewrite Hu; unfold run_command; cbn [op_ arg_ command]; cbn [mbind option_bind].
  - destruct Hwf as [Hl <-]. simpl. rewrite lco_of_offset by done. exists [], [Set_ lco]. unfold total; repeat split; simpl; (done || lia || apply submseteq_nil_l).
  - destruct Hwf as [Hl Hr]. simpl. exists [RCmd r s (KSet lco)], []. unfold op_cmd, nonempty, command. simpl. rewrite wrap_wrap by lia. unfold total; repeat split; simpl; try done; try lia. by constructor.
  - simpl. rewrite (wrap_small 48 p) by done. destruct (stored_take (r, p) (kind_of q) K Hnd) as [H1 H2]. unfold take_parcel. cbn [app] in *. rewrite H1. cbn [mbind option_bind]. rewrite H2.
    exists [RReady r p q], []. unfold total; repeat split; simpl; try done; try lia; [by rewrite app_nil_r|by constructor|apply submseteq_nil_l].
  - simpl. exists [RCmd r s (KRes p q)], []. unfold op_cmd, nonempty, command. simpl. rewrite wrap_wrap by lia. unfold total; repeat split; simpl; try done; try lia; [by rewrite app_nil_r|by constructor].
  - simpl. rewrite (wrap_small 48 p) by done. destruct (Z.eqb_spec ssync 0) as [->|Hs].
    + destruct (stored_take (r, p) (PSent 0) K Hnd) as [H1 H2]. cbn [app] in *. rewrite H1, H2. exists [], [Deleted r p]. unfold total; repeat split; simpl; (done || lia || apply submseteq_nil_l).
    + destruct (stored_take (r, p) (PSent ssync) (((r, ssync), PThread) :: K) Hnd) as [H1 H2]. cbn [app] in *. rewrite H1, H2. destruct (Z.eqb_spec ssync 0); [done|].
      destruct (stored_take (r, ssync) PThread K) as [H3 H4]; [by apply NoDup_cons in Hnd as [_ Hnd]|]. unfold take_parcel. cbn [app] in *. rewrite H3. cbn [mbind option_bind]. rewrite H4.
      exists [RReady r ssync QThread], [Deleted r p]. unfold total; repeat split; simpl; try done; try lia; [by constructor|apply submseteq_nil_l].
  - simpl. rewrite (wrap_small 48 p) by done. destruct (stored_take (r, p) PRecv K Hnd) as [H1 H2]. cbn [app] in *. rewrite H1, H2. exists [], [Launched r p]. unfold total; repeat split; simpl; (done || lia || apply submseteq_nil_l).
Qed.

Lemma unpin_spec ps (q : pin) P : ps ≡ₚ q :: P -> exists ps', unpin ps q = Some ps' /\ ps' ≡ₚ P.
Proof.
  intros H. unfold unpin. assert (Hq : q ∈ ps) by (rewrite H; by apply elem_of_cons; left). destruct (list_find_elem_of (eq q) ps q Hq eq_refl) as [[i q'] E]. rewrite E. cbn [mbind option_bind]. eexists. split; [done|].
  apply list_find_Some in E as (Hi & <- & _). apply Permutation_cons_inv with q. rewrite <- H. symmetry. by apply delete_Permutation.
Qed.

(** What is under way goes on as its tree says. *)
Lemma advance_ritem w i K P rest : rwf i -> w.(store) = stored (keys i ++ K) -> NoDup (keys i ++ K).*1 -> w.(pinned) ≡ₚ rpins i ++ P ->
  exists js ns P', advance w (forget i) rest = Some (mkWorld w.(mem) w.(calls) (stored (concat (map keys js) ++ K)) (rest ++ map forget js) (w.(notes) ++ ns) P')
    /\ ns ++ concat (map rnotes js) = rnotes i /\ Forall rwf js /\ P' ≡ₚ concat (map rpins js) ++ P /\ concat (map keys js) ⊆+ keys i /\ (total js < rcost i)%nat.
Proof.
  intros Hwf Hst Hnd Hp. destruct i as [r s c|r u b n c|r u b n c|s r c|r p q]; cbn [forget]; [cbn [advance]..|].
  - destruct (run_word_spec r s c K Hwf Hnd) as (js & ns & E & H1 & H2 & H3 & H4 & H5). rewrite Hst. cbn [keys]. rewrite E. cbn [mbind option_bind]. exists js, ns, (pinned w). rewrite H3. by split_and!.
  - destruct Hwf as [Hu Hc]. rewrite Hst. unfold run_word, ResumeParcel. rewrite unpack_pack by auto with hpx. unfold run_command. simpl. rewrite (wrap_small 48 u) by done.
    destruct (stored_take (r, u) (PUnpin b n r (Pack (cmd_of c))) (ckeys r r c ++ K) Hnd) as [H1 H2]. unfold take_parcel. rewrite H1. cbn [mbind option_bind]. rewrite H2.
    exists [RUnpin r u b n c], [], (pinned w). unfold total. simpl. rewrite !app_nil_r. split_and!; [done|done|by constructor|done|by apply submseteq_cons|lia].
  - destruct (unpin_spec (pinned w) (r, b, n) P Hp) as (ps' & -> & Hps). cbn [mbind option_bind]. destruct (run_word_spec r r c K Hwf Hnd) as (js & ns & E & H1 & H2 & H3 & H4 & H5). rewrite Hst. cbn [keys]. rewrite E. cbn [mbind option_bind].
    exists js, ns, ps'. rewrite H3. by split_and!.
  - exists [REvent r s c], [], (pinned w). unfold total. simpl. rewrite !app_nil_r, Hst. split_and!; [done|done|by constructor|done|done|lia].
  - exists [], (pnotes r p q), (pinned w). unfold total. cbn [map concat keys rcost list_sum foldr app]. rewrite !app_nil_r. cbn [keys app] in Hst.
    split_and!; [destruct q; cbn [kind_of pnotes advance]; by rewrite Hst|done|done|done|done|lia].
Qed.

(** ** The tree of a call *)

Definition lsync_tree (rank lsync p : Z) : option scmd :=
  if lsync =? 0 then None else if gpa_to_rank lsync =? rank then Some (KSet lsync) else Some (KRes p (QSet lsync)).

Definition rsync_tree (rank there rsync p : Z) : option scmd :=
  if rsync =? 0 then None else if gpa_to_rank rsync =? rank then Some (KSetSrc rsync)
  else if gpa_to_rank rsync =? there then Some (KSet rsync) else Some (KResSrc p (QSet rsync)).

Definition okeys (r s : Z) (o : option scmd) : list (key * pkind) := match o with Some c => ckeys r s c | None => [] end.
Definition ocmd (o : option scmd) : Command := match o with Some c => cmd_of c | None => Nop end.

(** An operation: its ends, and the trees of its local and remote command. *)
Record shape := mkShape { s_put : bool; s_init : Z; s_there : Z; s_dest : Z; s_src : Z; s_n : nat; s_registered : bool; s_u : Z; s_l : option scmd; s_r : option scmd }.

Definition shape_of (c : call) : shape :=
  match c with
  | memget rank to from n lsync rsync g => let there := gpa_to_rank from in
    mkShape false rank there to (heap there + gpa_to_offset from) n g.(g_registered) g.(g_u) (lsync_tree rank lsync g.(g_l)) (rsync_tree rank there rsync g.(g_r))
  | memget_rsync rank to from n lsync t g => let there := gpa_to_rank from in
    mkShape false rank there to (heap there + gpa_to_offset from) n g.(g_registered) g.(g_u) (lsync_tree rank lsync g.(g_l)) (Some (KResSrc t QThread))
  | memget_lsync rank to from n t g => let there := gpa_to_rank from in
    mkShape false rank there to (heap there + gpa_to_offset from) n g.(g_registered) g.(g_u) (Some (KRes t QThread)) None
  | memput rank to from n lsync rsync g => let there := gpa_to_rank to in
    mkShape true rank there (heap there + gpa_to_offset to) from n g.(g_registered) g.(g_u) (lsync_tree rank lsync g.(g_l)) (rsync_tree rank there rsync g.(g_r))
  | memput_lsync rank to from n rsync t g => let there := gpa_to_rank to in
    mkShape true rank there (heap there + gpa_to_offset to) from n g.(g_registered) g.(g_u) (Some (KRes t QThread)) (rsync_tree rank there rsync g.(g_r))
  | memput_rsync rank to from n t g => let there := gpa_to_rank to in
    mkShape true rank there (heap there + gpa_to_offset to) from n g.(g_registered) g.(g_u) None (Some (KResSrc t QThread))
  | memcpy to from n sync t g => let rank := gpa_to_rank from in let there := gpa_to_rank to in
    mkShape true rank there (heap there + gpa_to_offset to) (heap rank + gpa_to_offset from) n g.(g_registered) g.(g_u) (Some (KRes t QThread)) (rsync_tree rank there sync g.(g_r))
  | memcpy_rsync to from n t g => let rank := gpa_to_rank from in let there := gpa_to_rank to in
    mkShape true rank there (heap there + gpa_to_offset to) (heap rank + gpa_to_offset from) n g.(g_registered) g.(g_u) None (Some (KResSrc t QThread))
  | rendezvousSend rank p target n ssync p' => mkShape false (gpa_to_rank target) rank p' p n true 0 (Some (KLaunch p')) (Some (KDelete p ssync))
  | rendezvous_get rank src p n ssync p' => mkShape false rank src p' p n true 0 (Some (KLaunch p')) (Some (KDelete p ssync))
  end.

Definition buffer (sh : shape) : Z := if sh.(s_put) then sh.(s_src) else sh.(s_dest).

Definition lside (sh : shape) : list ritem :=
  match sh.(s_l) with
  | None => []
  | Some c => if sh.(s_registered) then [REvent sh.(s_init) sh.(s_init) c] else [RChain sh.(s_init) sh.(s_u) (buffer sh) sh.(s_n) c]
  end.

Definition rside (sh : shape) : list ritem := match sh.(s_r) with None => [] | Some c => [REvent sh.(s_there) sh.(s_init) c] end.

Definition read_side (sh : shape) : list ritem := if sh.(s_put) then lside sh else rside sh.
Definition write_side (sh : shape) : list ritem := if sh.(s_put) then rside sh else lside sh.

(** A put of a buffer that is not registered, without a local command, never unpins it. *)
Definition leaks (sh : shape) : bool := match sh.(s_l) with None => negb sh.(s_registered) | Some _ => false end.
Definition leak_keys (sh : shape) : list (key * pkind) := if leaks sh then [((sh.(s_init), sh.(s_u)), PUnpin (buffer sh) sh.(s_n) sh.(s_init) (Pack Nop))] else [].
Definition leak_pins (sh : shape) : list pin := if leaks sh then [(sh.(s_init), buffer sh, sh.(s_n))] else [].

Definition xfer_of (sh : shape) : xfer :=
  let dest := if sh.(s_put) then at_ sh.(s_there) sh.(s_dest) else at_ sh.(s_init) sh.(s_dest) in
  let src := if sh.(s_put) then at_ sh.(s_init) sh.(s_src) else at_ sh.(s_there) sh.(s_src) in
  mkXfer sh.(s_put) sh.(s_init) sh.(s_there) dest src sh.(s_n)
    (Pack (if sh.(s_registered) then ocmd sh.(s_l) else ResumeParcel sh.(s_u))) (Pack (ocmd sh.(s_r)))
    (if sh.(s_put) then nonempty (ocmd sh.(s_l)) else true) (nonempty (ocmd sh.(s_r))).

(** The parcels that are there before a call: those that a rendezvous sends. *)
Definition parcels_before (c : call) : list (key * pkind) :=
  match c with
  | rendezvousSend rank p _ _ ssync _ => ckeys rank 0 (KDelete p ssync)
  | rendezvous_get _ src p _ ssync _ => ckeys src 0 (KDelete p ssync)
  | _ => []
  end.

Definition final (c : call) : call := match request c with Some c' => c' | None => c end.

Lemma final_shape c : shape_of (final c) = shape_of c /\ parcels_before (final c) = parcels_before c /\ request (final c) = None.
Proof. by destruct c. Qed.

Lemma lsync_command_eq rank lsync p : lsync_command rank lsync p = (okeys rank rank (lsync_tree rank lsync p), ocmd (lsync_tree rank lsync p)).
Proof. unfold lsync_command, lsync_tree. destruct (_ =? _); [done|]. by destruct (_ =? _). Qed.

Lemma rsync_command_eq rank there rsync p : rsync_command rank there rsync p = (okeys there rank (rsync_tree rank there rsync p), ocmd (rsync_tree rank there rsync p)).
Proof. unfold rsync_command, rsync_tree. destruct (_ =? _); [done|]. destruct (_ =? _); [done|]. by destruct (_ =? _). Qed.

Lemma nonempty_cmd c : nonempty (cmd_of c) = true.
Proof. by destruct c. Qed.

Lemma nonempty_ocmd o : nonempty (ocmd o) = match o with Some _ => true | None => false end.
Proof. destruct o; [apply nonempty_cmd|done]. Qed.

(** The completions of the operation are those of its sides. *)
Lemma events_of sh : (sh.(s_put) = false -> sh.(s_l) <> None) -> read_events (xfer_of sh) = map forget (read_side sh) /\ write_events (xfer_of sh) = map forget (write_side sh).
Proof.
  intros Hl. unfold read_events, write_events, xfer_of, read_side, write_side, lside, rside. destruct sh as [[] i t d s n [] u [l|] [r|]]; cbn in *; rewrite ?nonempty_cmd; try done; by destruct (Hl eq_refl).
Qed.

Definition unpin_keys (sh : shape) : list (key * pkind) :=
  if sh.(s_registered) then [] else [((sh.(s_init), sh.(s_u)), PUnpin (buffer sh) sh.(s_n) sh.(s_init) (Pack (ocmd sh.(s_l))))].
Definition unpin_pins (sh : shape) : list pin := if sh.(s_registered) then [] else [(sh.(s_init), buffer sh, sh.(s_n))].

Definition op_of (sh : shape) : started :=
  if sh.(s_put) then op_put sh.(s_init) sh.(s_there) sh.(s_dest) sh.(s_src) sh.(s_n) sh.(s_registered) sh.(s_u) (ocmd sh.(s_l)) (ocmd sh.(s_r))
  else op_get sh.(s_init) sh.(s_there) sh.(s_dest) sh.(s_src) sh.(s_n) sh.(s_registered) sh.(s_u) (ocmd sh.(s_l)) (ocmd sh.(s_r)).

Lemma op_of_eq sh : op_of sh = (unpin_keys sh, unpin_pins sh, Transfer (xfer_of sh) None).
Proof. destruct sh as [[] i t d s n [] u l r]; done. Qed.

Definition side_keys (sh : shape) : list (key * pkind) := concat (map keys (read_side sh ++ write_side sh)) ++ leak_keys sh.
Definition side_pins (sh : shape) : list pin := concat (map rpins (read_side sh ++ write_side sh)) ++ leak_pins sh.

Lemma side_keys_eq sh : okeys sh.(s_init) sh.(s_init) sh.(s_l) ++ okeys sh.(s_there) sh.(s_init) sh.(s_r) ++ unpin_keys sh ≡ₚ side_keys sh.
Proof.
  unfold side_keys, unpin_keys, leak_keys, leaks, read_side, write_side, lside, rside. destruct sh as [[] i t d s n [] u [l|] [r|]]; cbn; rewrite ?app_nil_r, ?app_nil_l; try done; solve_Permutation.
Qed.

Lemma side_pins_eq sh : unpin_pins sh ≡ₚ side_pins sh.
Proof. unfold side_pins, unpin_pins, leak_pins, leaks, read_side, write_side, lside, rside. by destruct sh as [[] i t d s n [] u [l|] [r|]]. Qed.

(** What a call allocates and starts. *)
Lemma issue_eq c : exists ps, issue (final c) = Some (ps, unpin_pins (shape_of c), Transfer (xfer_of (shape_of c)) None) /\ parcels_before c ++ ps ≡ₚ side_keys (shape_of c).
Proof.
  assert (H : exists ps0, issue (final c) = Some (add_parcels ps0 (op_of (shape_of c))) /\ parcels_before c ++ ps0 ≡ₚ okeys (s_init (shape_of c)) (s_init (shape_of c)) (s_l (shape_of c)) ++ okeys (s_there (shape_of c)) (s_init (shape_of c)) (s_r (shape_of c))).
  { destruct c; cbn [final request issue _pwc_memcpy_handler _pwc_memcpy_rsync_handler rendezvous_request]; unfold pgas_memget, pgas_memget_rsync, pgas_memput, pgas_memput_lsync; rewrite ?lsync_command_eq, ?rsync_command_eq; eexists; (split; [reflexivity|]); cbn -[lsync_tree rsync_tree]; rewrite ?app_nil_r; try done; solve_Permutation. }
  destruct H as (ps0 & -> & P). unfold add_parcels. rewrite op_of_eq. eexists. split; [reflexivity|]. cbn [fst snd]. rewrite app_assoc, P, <- app_assoc. apply side_keys_eq.
Qed.

(** ** Calls that do not race *)

Definition given_ok (g : given) : Prop := g.(g_l) ∈u 48 /\ g.(g_r) ∈u 48 /\ g.(g_u) ∈u 48.

(** Addresses fit, and a get has a local command. *)
Definition call_ok (c : call) : Prop :=
  match c with
  | memget _ _ _ _ lsync rsync g => lsync <> 0 /\ lsync ∈u 64 /\ rsync ∈u 64 /\ given_ok g
  | memget_rsync _ _ _ _ lsync t g => lsync <> 0 /\ lsync ∈u 64 /\ t ∈u 48 /\ given_ok g
  | memget_lsync _ _ _ _ t g | memput_rsync _ _ _ _ t g | memcpy_rsync _ _ _ t g => t ∈u 48 /\ given_ok g
  | memput _ _ _ _ lsync rsync g => lsync ∈u 64 /\ rsync ∈u 64 /\ given_ok g
  | memput_lsync _ _ _ _ rsync t g | memcpy _ _ _ rsync t g => rsync ∈u 64 /\ t ∈u 48 /\ given_ok g
  | rendezvousSend _ p _ _ _ p' | rendezvous_get _ _ p _ _ p' => p ∈u 48 /\ p' ∈u 48
  end.

Lemma lsync_tree_wf rank lsync p c : lsync ∈u 64 -> p ∈u 48 -> lsync_tree rank lsync p = Some c -> cwf rank rank c.
Proof.
  intros Hl Hp. unfold lsync_tree. destruct (_ =? _); [done|]. destruct (Z.eqb_spec (gpa_to_rank lsync) rank); intros [= <-]; done.
Qed.

Lemma rsync_tree_wf rank there rsync p c : rsync ∈u 64 -> p ∈u 48 -> rsync_tree rank there rsync p = Some c -> cwf there rank c.
Proof.
  intros Hl Hp. unfold rsync_tree. destruct (_ =? _); [done|]. destruct (Z.eqb_spec (gpa_to_rank rsync) rank); [by intros [= <-]|]. destruct (Z.eqb_spec (gpa_to_rank rsync) there); intros [= <-]; done.
Qed.

Lemma lsync_tree_some rank lsync p : lsync <> 0 -> lsync_tree rank lsync p <> None.
Proof. intros H. unfold lsync_tree. destruct (Z.eqb_spec lsync 0); [done|]. by destruct (_ =? _). Qed.

Lemma sides_wf sh : (forall c, sh.(s_l) = Some c -> cwf sh.(s_init) sh.(s_init) c) -> (forall c, sh.(s_r) = Some c -> cwf sh.(s_there) sh.(s_init) c) -> sh.(s_u) ∈u 48 ->
  Forall rwf (read_side sh) /\ Forall rwf (write_side sh).
Proof.
  intros Hl Hr Hu. unfold read_side, write_side, lside, rside. destruct sh as [[] i t d s n [] u [l|] [r|]]; cbn in *; split; repeat constructor; cbn; try (by apply Hl); try (by apply Hr); lia.
Qed.

Lemma call_sides c : call_ok c -> Forall rwf (read_side (shape_of c)) /\ Forall rwf (write_side (shape_of c)) /\ ((shape_of c).(s_put) = false -> (shape_of c).(s_l) <> None).
Proof.
  intros Hok. rewrite assoc by apply _. split.
  - apply sides_wf; destruct c; cbn -[lsync_tree rsync_tree] in *; unfold given_ok in *; intros; simplify_eq; try (cbn; tauto); try (eapply lsync_tree_wf; [| |done]; tauto); try (eapply rsync_tree_wf; [| |done]; tauto); lia.
  - destruct c; cbn -[lsync_tree] in *; try done; intros _; apply lsync_tree_some; tauto.
Qed.

Definition copy_of (c : call) : copy := let x := xfer_of (shape_of c) in mkCopy x.(x_dest) x.(x_src) x.(x_n).

Definition call_notes (c : call) : list note := concat (map rnotes (read_side (shape_of c) ++ write_side (shape_of c))).

Lemma concat_map_permutation {A B} (f : A -> list B) l l' : l ≡ₚ l' -> concat (map f l) ≡ₚ concat (map f l').
Proof. induction 1 as [|x l l' _ IH|x y l|l l' l'' _ IH1 _ IH2]; simpl; [done|by rewrite IH|solve_Permutation|by rewrite IH1]. Qed.

Inductive status := Asked | Todo | Started | Moving | Written.

Definition start_status (c : call) : status := match request c with Some _ => Asked | None => Todo end.

Definition new_keys (c : call) : list (key * pkind) := match issue (final c) with Some (ps, _, _) => ps | None => [] end.

Definition k_calls (x : call * status) : list call := match x.2 with Asked => [x.1] | Todo => [final x.1] | _ => [] end.

Definition k_items (m0 : memory) (x : call * status) : list item :=
  match x.2 with
  | Started => [Transfer (xfer_of (shape_of x.1)) None]
  | Moving => [Transfer (xfer_of (shape_of x.1)) (Some (read m0 (c_src (copy_of x.1)) (c_len (copy_of x.1))))]
  | _ => []
  end.

Definition k_keys (x : call * status) : list (key * pkind) :=
  match x.2 with
  | Asked | Todo => parcels_before x.1
  | Started => side_keys (shape_of x.1)
  | Moving => concat (map keys (write_side (shape_of x.1))) ++ leak_keys (shape_of x.1)
  | Written => leak_keys (shape_of x.1)
  end.

Definition k_future (x : call * status) : list (key * pkind) := match x.2 with Asked | Todo => new_keys x.1 | _ => [] end.

Definition k_notes (x : call * status) : list note :=
  match x.2 with Asked | Todo | Started => call_notes x.1 | Moving => concat (map rnotes (write_side (shape_of x.1))) | Written => [] end.

Definition k_pins (x : call * status) : list pin :=
  match x.2 with
  | Asked | Todo => []
  | Started => side_pins (shape_of x.1)
  | Moving => concat (map rpins (write_side (shape_of x.1))) ++ leak_pins (shape_of x.1)
  | Written => leak_pins (shape_of x.1)
  end.

(** The steps that a call and its commands still need. *)
Definition k_steps (x : call * status) : list unit :=
  let r := total (read_side (shape_of x.1)) in
  let w := total (write_side (shape_of x.1)) in
  replicate (match x.2 with Asked => 4 + r + w | Todo => 3 + r + w | Started => 2 + r + w | Moving => 1 + w | Written => 0 end) tt.

(** *** What the calls promise *)

Definition lco (y : Z) : list note := if y =? 0 then [] else [Set_ y].

(** When the source has been read. *)
Definition promised_read (c : call) : list note :=
  match c with
  | memget _ _ _ _ _ rsync _ => lco rsync
  | memget_rsync rank _ _ _ _ t _ | memput_lsync rank _ _ _ _ t _ => [Resumed rank t]
  | memget_lsync _ _ _ _ _ _ | memput_rsync _ _ _ _ _ _ | memcpy_rsync _ _ _ _ _ => []
  | memput _ _ _ _ lsync _ _ => lco lsync
  | memcpy _ from _ _ t _ => [Resumed (gpa_to_rank from) t]
  | rendezvousSend rank p _ _ ssync _ | rendezvous_get _ rank p _ ssync _ => Deleted rank p :: if ssync =? 0 then [] else [Resumed rank ssync]
  end.

(** When the destination has been written. *)
Definition promised_write (c : call) : list note :=
  match c with
  | memget _ _ _ _ lsync _ _ | memget_rsync _ _ _ _ lsync _ _ => lco lsync
  | memget_lsync rank _ _ _ t _ | memput_rsync rank _ _ _ t _ => [Resumed rank t]
  | memput _ _ _ _ _ rsync _ | memput_lsync _ _ _ _ rsync _ _ | memcpy _ _ _ rsync _ _ => lco rsync
  | memcpy_rsync _ from _ t _ => [Resumed (gpa_to_rank from) t]
  | rendezvousSend _ _ target _ _ p' => [Launched (gpa_to_rank target) p']
  | rendezvous_get rank _ _ _ _ p' => [Launched rank p']
  end.

(** The buffers that a call never unpins. *)
Definition left_pinned (c : call) : list pin := leak_pins (shape_of c).

Lemma lsync_notes rank lsync p : match lsync_tree rank lsync p with Some c => cnotes rank rank c | None => [] end = lco lsync.
Proof. unfold lsync_tree, lco. destruct (_ =? _); [done|]. by destruct (_ =? _). Qed.

Lemma rsync_notes rank there rsync p : match rsync_tree rank there rsync p with Some c => cnotes there rank c | None => [] end = lco rsync.
Proof. unfold rsync_tree, lco. destruct (_ =? _); [done|]. destruct (_ =? _); [done|]. by destruct (_ =? _). Qed.

Lemma lside_notes sh : concat (map rnotes (lside sh)) = match sh.(s_l) with Some c => cnotes sh.(s_init) sh.(s_init) c | None => [] end.
Proof. unfold lside. destruct (s_l sh); [|done]. destruct (s_registered sh); simpl; by rewrite app_nil_r. Qed.

Lemma rside_notes sh : concat (map rnotes (rside sh)) = match sh.(s_r) with Some c => cnotes sh.(s_there) sh.(s_init) c | None => [] end.
Proof. unfold rside. destruct (s_r sh); [|done]. simpl. by rewrite app_nil_r. Qed.

Lemma promised_eq c : concat (map rnotes (read_side (shape_of c))) = promised_read c /\ concat (map rnotes (write_side (shape_of c))) = promised_write c.
Proof.
  unfold read_side, write_side. destruct c; cbn [shape_of s_put]; rewrite lside_notes, rside_notes; cbn [s_l s_r s_init s_there]; rewrite ?lsync_notes, ?rsync_notes; done.
Qed.

Lemma call_notes_eq c : call_notes c = promised_read c ++ promised_write c.
Proof. unfold call_notes. rewrite map_app, concat_app. by destruct (promised_eq c) as [-> ->]. Qed.

Section Race_free.
Variables (m0 : memory) (ops : list call).

(** No call writes what another reads or writes, and the parcels of the calls are at different
    addresses. *)
Hypothesis no_races : race_free (map copy_of ops).
Hypothesis ops_ok : Forall call_ok ops.
Hypothesis distinct : NoDup (concat (map (fun c => side_keys (shape_of c)) ops)).*1.

Abbreviation all f st := (contributions f ops st).

Definition written (st : list status) (i : nat) : Prop := st !! i = Some Written.

Record inv (st : list status) (rs : list ritem) (w : world) : Prop := {
  v_length : length st = length ops;
  v_asked i c : ops !! i = Some c -> st !! i = Some Asked -> request c <> None;
  v_calls : w.(calls) ≡ₚ all k_calls st;
  v_items : w.(items) ≡ₚ all (k_items m0) st ++ map forget rs;
  v_store : exists K, w.(store) = stored K /\ K ≡ₚ all k_keys st ++ concat (map keys rs);
  v_keys : exists G, (all k_keys st ++ concat (map keys rs) ++ all k_future st) ++ G ≡ₚ concat (map (fun c => side_keys (shape_of c)) ops);
  v_notes : w.(notes) ++ concat (map rnotes rs) ++ all k_notes st ≡ₚ concat (map call_notes ops);
  v_pins : w.(pinned) ≡ₚ all k_pins st ++ concat (map rpins rs);
  v_wf : Forall rwf rs;
  v_mem : after m0 (map copy_of ops) (written st) w.(mem);
}.

Lemma rma_copy_lookup i c : ops !! i = Some c -> map copy_of ops !! i = Some (copy_of c).
Proof. intros H. by rewrite list_lookup_fmap, H. Qed.

(** The addresses of the parcels that are there, and of those that are still to be allocated. *)
Lemma inv_distinct st rs w : inv st rs w -> NoDup ((all k_keys st ++ concat (map keys rs)) ++ all k_future st).*1.
Proof.
  intros I. destruct (v_keys _ _ _ I) as [G HG]. rewrite (app_assoc (all k_keys st)) in HG. pose proof distinct as Hd. rewrite <- HG, fmap_app in Hd. by apply NoDup_app in Hd as [? _].
Qed.

Lemma stored_permutation K K' : K ≡ₚ K' -> NoDup K.*1 -> stored K = stored K'.
Proof. intros H Hnd. by apply list_to_map_proper. Qed.

Lemma inv_stored st rs w K : inv st rs w -> K ≡ₚ all k_keys st ++ concat (map keys rs) -> w.(store) = stored K.
Proof.
  intros I HK. destruct (v_store _ _ _ I) as (K' & -> & HK'). pose proof (inv_distinct _ _ _ I) as Hnd. rewrite fmap_app in Hnd. apply NoDup_app in Hnd as (Hnd & _). apply stored_permutation; by rewrite HK'.
Qed.

(** A call goes on, and things come to be under way. *)
Lemma rma_move st rs w i c s s' js w' : inv st rs w -> ops !! i = Some c -> st !! i = Some s -> s <> Written -> s' <> Asked ->
  w'.(calls) ++ k_calls (c, s) ≡ₚ w.(calls) ++ k_calls (c, s') ->
  w'.(items) ++ k_items m0 (c, s) ≡ₚ w.(items) ++ k_items m0 (c, s') ++ map forget js ->
  w'.(store) = stored (all k_keys (<[i := s']> st) ++ concat (map keys (rs ++ js))) ->
  (exists G, (k_keys (c, s') ++ concat (map keys js) ++ k_future (c, s')) ++ G ≡ₚ k_keys (c, s) ++ k_future (c, s)) ->
  w'.(notes) = w.(notes) -> concat (map rnotes js) ++ k_notes (c, s') ≡ₚ k_notes (c, s) ->
  w'.(pinned) ++ k_pins (c, s) ≡ₚ w.(pinned) ++ k_pins (c, s') ++ concat (map rpins js) -> Forall rwf js ->
  (s' = Written /\ (forall x, w'.(mem) x = copy_to w.(mem) (c_dest (copy_of c)) (read m0 (c_src (copy_of c)) (c_len (copy_of c))) x) \/ s' <> Written /\ w'.(mem) = w.(mem)) ->
  inv (<[i := s']> st) (rs ++ js) w'.
Proof.
  intros [V1 V2 V3 V4 V5 V6 V7 V8 V9 V10] Hc Hs Hsw Hsa Hcs His Hst [G HG] Hnn Hn Hp Hjs Hm.
  assert (Hx : forall j t, <[i := s']> st !! j = Some t <-> j = i /\ t = s' \/ j <> i /\ st !! j = Some t).
  { intros j t. rewrite list_lookup_insert_Some. pose proof (lookup_lt_Some _ _ _ Hs). naive_solver. }
  split.
  - by rewrite length_insert.
  - intros j d Hd Hj. apply Hx in Hj as [[-> <-]|[_ Hj]]; [done|by eapply V2].
  - apply Permutation_app_inv_r with (k_calls (c, s)). rewrite Hcs, V3. symmetry. by apply contributions_exchange.
  - apply Permutation_app_inv_r with (k_items m0 (c, s)). rewrite His, V4, map_app. pose proof (contributions_exchange (k_items m0) ops st i c s s' Hc Hs) as H.
    transitivity ((all (k_items m0) st ++ k_items m0 (c, s')) ++ map forget rs ++ map forget js); [solve_Permutation|]. rewrite <- H. solve_Permutation.
  - eexists. split; [exact Hst|done].
  - destruct V6 as [F HF]. exists (G ++ F). rewrite <- HF. rewrite map_app, concat_app. pose proof (contributions_exchange k_keys ops st i c s s' Hc Hs) as H1. pose proof (contributions_exchange k_future ops st i c s s' Hc Hs) as H2.
    apply Permutation_app_inv_r with (k_keys (c, s) ++ k_future (c, s)).
    transitivity ((all k_keys (<[i:=s']> st) ++ k_keys (c, s)) ++ (all k_future (<[i:=s']> st) ++ k_future (c, s)) ++ concat (map keys rs) ++ concat (map keys js) ++ G ++ F); [solve_Permutation|]. rewrite H1, H2.
    transitivity (all k_keys st ++ all k_future st ++ concat (map keys rs) ++ ((k_keys (c, s') ++ concat (map keys js) ++ k_future (c, s')) ++ G) ++ F); [solve_Permutation|]. rewrite HG. solve_Permutation.
  - rewrite Hnn, <- V7, map_app, concat_app. apply Permutation_app_head. pose proof (contributions_exchange k_notes ops st i c s s' Hc Hs) as H1. apply Permutation_app_inv_r with (k_notes (c, s)).
    transitivity (concat (map rnotes rs) ++ concat (map rnotes js) ++ (all k_notes (<[i:=s']> st) ++ k_notes (c, s))); [solve_Permutation|]. rewrite H1, <- Hn. solve_Permutation.
  - apply Permutation_app_inv_r with (k_pins (c, s)). rewrite Hp, V8, map_app, concat_app. pose proof (contributions_exchange k_pins ops st i c s s' Hc Hs) as H1.
    transitivity ((all k_pins st ++ k_pins (c, s')) ++ concat (map rpins rs) ++ concat (map rpins js)); [solve_Permutation|]. rewrite <- H1. solve_Permutation.
  - by apply Forall_app.
  - destruct Hm as [[-> Hm]|[Hn' ->]].
    + apply after_iff with (fun j => j = i \/ written st j); [|eapply after_write; [done|done|by apply rma_copy_lookup|done]].
      intros j. unfold written. rewrite Hx. destruct (decide (j = i)) as [->|]; naive_solver.
    + apply after_iff with (written st); [|done]. intros j. unfold written. rewrite Hx. destruct (decide (j = i)) as [->|]; naive_solver.
Qed.

Definition cost (st : list status) (rs : list ritem) : nat := (length (all k_steps st) + total rs)%nat.

Lemma total_app l l' : total (l ++ l') = (total l + total l')%nat.
Proof. unfold total. by rewrite map_app, list_sum_app. Qed.

Lemma cost_move st rs i c s s' js : ops !! i = Some c -> st !! i = Some s -> (length (k_steps (c, s')) + total js < length (k_steps (c, s)))%nat -> (cost (<[i := s']> st) (rs ++ js) < cost st rs)%nat.
Proof.
  intros Hc Hs Hl. pose proof (Permutation_length (contributions_exchange k_steps ops st i c s s' Hc Hs)) as H1. rewrite !length_app in H1. unfold cost. rewrite total_app. lia.
Qed.

(** *** Calls *)

Lemma keys_same st rs i c s s' js : ops !! i = Some c -> st !! i = Some s -> k_keys (c, s') ++ concat (map keys js) ≡ₚ k_keys (c, s) ->
  all k_keys (<[i := s']> st) ++ concat (map keys (rs ++ js)) ≡ₚ all k_keys st ++ concat (map keys rs).
Proof.
  intros Hc Hs Hk. pose proof (contributions_exchange k_keys ops st i c s s' Hc Hs) as H1. rewrite map_app, concat_app. apply Permutation_app_inv_r with (k_keys (c, s)).
  transitivity ((all k_keys (<[i:=s']> st) ++ k_keys (c, s)) ++ concat (map keys rs) ++ concat (map keys js)); [solve_Permutation|]. rewrite H1, <- Hk. solve_Permutation.
Qed.

Lemma allocate_spec ps : forall K, NoDup (K ++ ps).*1 -> exists K', allocate (stored K) ps = Some (stored K') /\ K' ≡ₚ K ++ ps.
Proof.
  induction ps as [|[a k] ps IH]; intros K Hnd; [exists K; by rewrite app_nil_r|]. cbn [allocate].
  assert (Ha : a ∉ K.*1).
  { rewrite fmap_app in Hnd. apply NoDup_app in Hnd as (_ & Hnd & _). intros Ha. apply (Hnd a Ha). by apply elem_of_cons; left. }
  unfold stored at 1. rewrite not_elem_of_list_to_map_1 by done. change (<[a := k]> (stored K)) with (stored ((a, k) :: K)).
  assert (HP : ((a, k) :: K) ++ ps ≡ₚ K ++ (a, k) :: ps) by solve_Permutation. destruct (IH ((a, k) :: K)) as (K' & E & HK'); [by rewrite HP|]. exists K'. split; [done|]. by rewrite HK'.
Qed.

Lemma new_keys_eq c : parcels_before c ++ new_keys c ≡ₚ side_keys (shape_of c).
Proof. unfold new_keys. destruct (issue_eq c) as (ps & -> & H). done. Qed.

Lemma inv_call st rs w k c' : inv st rs w -> w.(calls) !! k = Some c' -> exists w' st' rs', step w (Call k) = Some w' /\ inv st' rs' w' /\ (cost st' rs' < cost st rs)%nat.
Proof.
  intros I Hk. pose proof (list_elem_of_lookup_2 _ _ _ Hk) as Hin. rewrite (v_calls _ _ _ I) in Hin. apply contributions_elem in Hin as (i & c & s & Hc & Hs & Hin).
  pose proof (delete_snoc _ _ _ Hk) as Hd. cbn [step]. rewrite Hk. cbn [mbind option_bind]. set (D := delete k (calls w)) in *. clearbody D. destruct s; cbn in Hin; try (by apply elem_of_nil in Hin); apply list_elem_of_singleton in Hin as ->.
  - pose proof (v_asked _ _ _ I i c Hc Hs) as Hr. destruct (request c) as [c2|] eqn:Er; [|done]. assert (Hf : final c = c2) by (unfold final; by rewrite Er).
    eexists _, (<[i := Todo]> st), (rs ++ []). split; [done|]. split; [|eapply cost_move; [done|done|unfold k_steps; rewrite !length_replicate; cbn; unfold total; cbn; lia]].
    eapply rma_move; try done; cbn [mem calls store items notes pinned k_calls k_items k_keys k_future k_notes k_pins fst snd map concat app]; rewrite ?app_nil_r; try done.
    + rewrite Hf. rewrite <- Hd. solve_Permutation.
    + eapply inv_stored; [done|]. rewrite <- (app_nil_r rs) at 1. eapply keys_same; [done|done|]. cbn. by rewrite app_nil_r.
    + exists []. by rewrite !app_nil_r.
    + right. done.
  - destruct (final_shape c) as (_ & _ & ->). destruct (issue_eq c) as (ps & E & HP). rewrite E. cbn [mbind option_bind]. assert (Hps : new_keys c = ps) by (unfold new_keys; by rewrite E).
    destruct (v_store _ _ _ I) as (K & HK & HKp). pose proof (inv_distinct _ _ _ I) as Hnd. pose proof (contributions_exchange k_keys ops st i c Todo Started Hc Hs) as H1. pose proof (contributions_exchange k_future ops st i c Todo Started Hc Hs) as H2.
    cbn [k_keys k_future fst snd] in H1, H2. rewrite app_nil_r, Hps in H2.
    assert (HndK : NoDup (K ++ ps).*1).
    { rewrite <- HKp, <- H2 in Hnd. assert (HA : K ++ all k_future (<[i:=Started]> st) ++ ps ≡ₚ (K ++ ps) ++ all k_future (<[i:=Started]> st)) by solve_Permutation. rewrite HA, fmap_app in Hnd. by apply NoDup_app in Hnd as [? _]. }
    destruct (allocate_spec ps K HndK) as (K' & EK & HK'). rewrite HK, EK. cbn [mbind option_bind].
    eexists _, (<[i := Started]> st), (rs ++ []). split; [done|]. split; [|eapply cost_move; [done|done|unfold k_steps; rewrite !length_replicate; cbn; unfold total; cbn; lia]].
    eapply rma_move; try done; cbn [mem calls store items notes pinned k_calls k_items k_keys k_future k_notes k_pins fst snd map concat app]; rewrite ?app_nil_r; try done.
    + apply stored_permutation; [|by rewrite HK']. rewrite HK', HKp. apply Permutation_app_inv_r with (parcels_before c).
      transitivity ((all k_keys (<[i:=Started]> st) ++ parcels_before c) ++ concat (map keys rs)); [|solve_Permutation]. rewrite H1, <- HP. solve_Permutation.
    + exists []. rewrite !app_nil_r, <- HP, Hps. done.
    + apply Permutation_app_head, side_pins_eq.
    + right. done.
Qed.

(** *** Transfers *)

Lemma inv_transfer st rs w k i c s x b : inv st rs w -> ops !! i = Some c -> st !! i = Some s -> w.(items) !! k = Some (Transfer x b) -> Transfer x b ∈ k_items m0 (c, s) ->
  exists w' st' rs', advance w (Transfer x b) (delete k w.(items)) = Some w' /\ inv st' rs' w' /\ (cost st' rs' < cost st rs)%nat.
Proof.
  intros I Hc Hs Hk Hin. pose proof (delete_snoc _ _ _ Hk) as Hd. set (D := delete k (items w)) in *. clearbody D.
  destruct (call_sides c (Forall_lookup_1 _ _ _ _ ops_ok Hc)) as (Hw1 & Hw2 & Hg). destruct (events_of (shape_of c) Hg) as [Er Ew].
  destruct s; cbn in Hin; try (by apply elem_of_nil in Hin); apply list_elem_of_singleton in Hin as [= -> ->]; cbn [advance].
  - pose proof (after_read m0 _ no_races _ _ i (copy_of c) (v_mem _ _ _ I) (rma_copy_lookup _ _ Hc) ltac:(unfold written; congruence)) as Hr. cbn [copy_of c_src c_len] in Hr. rewrite Hr, Er.
    eexists _, (<[i := Moving]> st), (rs ++ read_side (shape_of c)). split; [done|]. split; [|eapply cost_move; [done|done|unfold k_steps; rewrite !length_replicate; cbn; lia]].
    eapply rma_move; try done; cbn [mem calls store items notes pinned k_calls k_items k_keys k_future k_notes k_pins fst snd app]; rewrite ?app_nil_r; try done.
    + rewrite <- Hd. solve_Permutation.
    + eapply inv_stored; [done|]. eapply keys_same; [done|done|]. cbn [k_keys fst snd]. unfold side_keys. rewrite map_app, concat_app. solve_Permutation.
    + exists []. rewrite !app_nil_r. unfold side_keys. rewrite map_app, concat_app. solve_Permutation.
    + unfold call_notes. by rewrite map_app, concat_app.
    + apply Permutation_app_head. unfold side_pins. rewrite map_app, concat_app. solve_Permutation.
    + by right.
  - rewrite Ew. eexists _, (<[i := Written]> st), (rs ++ write_side (shape_of c)). split; [done|]. split; [|eapply cost_move; [done|done|unfold k_steps; rewrite !length_replicate; cbn; lia]].
    eapply rma_move; try done; cbn [mem calls store items notes pinned k_calls k_items k_keys k_future k_notes k_pins fst snd app]; rewrite ?app_nil_r; try done.
    + rewrite <- Hd. solve_Permutation.
    + eapply inv_stored; [done|]. eapply keys_same; [done|done|]. cbn [k_keys fst snd]. solve_Permutation.
    + exists []. rewrite !app_nil_r. solve_Permutation.
    + apply Permutation_app_head. solve_Permutation.
    + by left.
Qed.

(** *** Commands and parcels *)

Lemma total_permutation l l' : l ≡ₚ l' -> total l = total l'.
Proof. unfold total. induction 1; simpl in *; lia. Qed.

Lemma inv_ritem st rs w k q : inv st rs w -> w.(items) !! k = Some (forget q) -> q ∈ rs ->
  exists w' st' rs', advance w (forget q) (delete k w.(items)) = Some w' /\ inv st' rs' w' /\ (cost st' rs' < cost st rs)%nat.
Proof.
  intros I Hk Hq. apply elem_of_Permutation in Hq as [R HR]. pose proof (delete_snoc _ _ _ Hk) as Hd. set (D := delete k (items w)) in *. clearbody D.
  set (B := all k_keys st ++ concat (map keys R)). pose proof (concat_map_permutation keys _ _ HR) as HK. pose proof (concat_map_permutation rnotes _ _ HR) as HN. pose proof (concat_map_permutation rpins _ _ HR) as HP. cbn in HK, HN, HP.
  assert (HB : keys q ++ B ≡ₚ all k_keys st ++ concat (map keys rs)) by (unfold B; rewrite HK; solve_Permutation).
  pose proof (inv_distinct _ _ _ I) as Hnd. rewrite <- HB, fmap_app in Hnd. apply NoDup_app in Hnd as (Hnd & _). pose proof (v_wf _ _ _ I) as Hwf. rewrite HR in Hwf. apply Forall_cons in Hwf as [Hq HwR].
  pose proof I as [V1 V2 V3 V4 V5 V6 V7 V8 V9 V10]. assert (HPq : w.(pinned) ≡ₚ rpins q ++ (all k_pins st ++ concat (map rpins R))) by (rewrite V8, HP; solve_Permutation).
  destruct (advance_ritem w q B _ D Hq (inv_stored _ _ _ _ I HB) Hnd HPq) as (js & ns & P' & E & H1 & H2 & H3 & H4 & H5).
  eexists _, st, (js ++ R). split; [exact E|]. split; [split; cbn [mem calls store items notes pinned]; try done|].
  - apply Permutation_app_inv_r with [forget q]. transitivity ((D ++ [forget q]) ++ map forget js); [solve_Permutation|]. rewrite Hd, V4, HR, map_app. simpl. solve_Permutation.
  - eexists. split; [done|]. unfold B. rewrite map_app, concat_app. solve_Permutation.
  - destruct V6 as [G HG]. apply submseteq_Permutation in H4 as [F HF]. exists (F ++ G). rewrite <- HG, HK, HF, map_app, concat_app. solve_Permutation.
  - rewrite <- V7, HN, <- H1, map_app, concat_app. solve_Permutation.
  - rewrite H3, map_app, concat_app. solve_Permutation.
  - by apply Forall_app.
  - unfold cost. rewrite total_app, (total_permutation _ _ HR). unfold total in *. simpl. lia.
Qed.

Lemma rma_advance st rs w k x : inv st rs w -> w.(items) !! k = Some x -> exists w' st' rs', step w (Advance k) = Some w' /\ inv st' rs' w' /\ (cost st' rs' < cost st rs)%nat.
Proof.
  intros I Hk. cbn [step]. rewrite Hk. cbn [mbind option_bind]. pose proof (list_elem_of_lookup_2 _ _ _ Hk) as Hin. rewrite (v_items _ _ _ I) in Hin. apply elem_of_app in Hin as [Hin|Hin].
  - apply contributions_elem in Hin as (i & c & s & Hc & Hs & Hin). assert (Ht : exists y b, x = Transfer y b) by (destruct s; cbn in Hin; try (by apply elem_of_nil in Hin); apply list_elem_of_singleton in Hin; eauto).
    destruct Ht as (y & b & ->). by eapply inv_transfer.
  - apply list_elem_of_fmap in Hin as (q & -> & Hq). by eapply inv_ritem.
Qed.

Lemma rma_run l : forall st rs w w', inv st rs w -> run w l = Some w' -> exists st' rs', inv st' rs' w' /\ (length l + cost st' rs' <= cost st rs)%nat.
Proof.
  induction l as [|x l IH]; intros st rs w w' I E; cbn [run] in E; [injection E as <-; by exists st, rs|].
  destruct (step w x) as [w1|] eqn:E1; [|done]. cbn [mbind option_bind] in E.
  assert (Hs : exists st' rs', inv st' rs' w1 /\ (cost st' rs' < cost st rs)%nat).
  { destruct x as [k|k]; pose proof E1 as E2; cbn [step] in E2.
    - destruct (calls w !! k) as [c|] eqn:Hk; [|done]. destruct (inv_call _ _ _ _ _ I Hk) as (w2 & st' & rs' & H1 & H2 & H3). rewrite E1 in H1. injection H1 as <-. eauto.
    - destruct (items w !! k) as [y|] eqn:Hk; [|done]. destruct (rma_advance _ _ _ _ _ I Hk) as (w2 & st' & rs' & H1 & H2 & H3). rewrite E1 in H1. injection H1 as <-. eauto. }
  destruct Hs as (st1 & rs1 & I1 & Hc1). destruct (IH _ _ _ _ I1 E) as (st2 & rs2 & I2 & Hc2). exists st2, rs2. split; [done|]. simpl. lia.
Qed.

(** The parcels to be sent are there in the beginning. *)
Definition start : world := mkWorld m0 ops (stored (concat (map parcels_before ops))) [] [] [].

Lemma total_side sh : (total (read_side sh) + total (write_side sh) <= 9)%nat.
Proof.
  assert (Hc : forall c, (ccost c <= 4)%nat) by (intros []; cbn; lia). unfold total, read_side, write_side, lside, rside. destruct sh as [[] i t d s n [] u [l|] [r|]]; cbn; try pose proof (Hc l); try pose proof (Hc r); lia.
Qed.

Lemma rma_begin : inv (map start_status ops) [] start /\ (cost (map start_status ops) [] <= 13 * length ops)%nat.
Proof.
  assert (Hno : forall i s, map start_status ops !! i = Some s -> exists c, ops !! i = Some c /\ s = start_status c) by (intros i s; rewrite list_lookup_fmap; destruct (ops !! i) as [c|]; [intros [= <-]; eauto|done]).
  assert (Hk : forall {A} (f : call * status -> list A) (g : call -> list A), (forall c, f (c, start_status c) = g c) -> all f (map start_status ops) = concat (map g ops)).
  { intros A f g H. rewrite contributions_initial. f_equal. by apply map_ext. }
  assert (Hcase : forall c, start_status c = Asked /\ request c <> None \/ start_status c = Todo /\ final c = c) by (intros c; unfold start_status, final; destruct (request c); [left|right]; done).
  split; [split; cbn [start calls items store notes pinned mem]|].
  - apply length_map.
  - intros i c Hc Hs. apply Hno in Hs as (d & Hd & Hs). rewrite Hc in Hd. injection Hd as <-. by destruct (Hcase c) as [[_ ?]|[E _]]; [|rewrite E in Hs].
  - rewrite (Hk _ k_calls (fun c => [c])); [clear; by induction ops as [|c l IH]; simpl; [|rewrite <- IH]|]. intros c. unfold k_calls. cbn. destruct (Hcase c) as [[-> _]|[-> E]]; [done|by rewrite E].
  - rewrite (Hk _ (k_items m0) (fun c => [])); [simpl; rewrite app_nil_r; clear; by induction ops|]. intros c. unfold k_items. cbn. by destruct (Hcase c) as [[-> _]|[-> _]].
  - eexists. split; [done|]. rewrite (Hk _ k_keys parcels_before); [by rewrite app_nil_r|]. intros c. unfold k_keys. cbn. by destruct (Hcase c) as [[-> _]|[-> _]].
  - exists []. rewrite (Hk _ k_keys parcels_before), (Hk _ k_future new_keys); [|intros c; unfold k_future; cbn; by destruct (Hcase c) as [[-> _]|[-> _]]|intros c; unfold k_keys; cbn; by destruct (Hcase c) as [[-> _]|[-> _]]].
    rewrite app_nil_r. simpl. clear. induction ops as [|c l IH]; [done|]. simpl. rewrite <- IH, <- (new_keys_eq c). solve_Permutation.
  - rewrite (Hk _ k_notes call_notes); [done|]. intros c. unfold k_notes. cbn. by destruct (Hcase c) as [[-> _]|[-> _]].
  - rewrite (Hk _ k_pins (fun c => [])); [simpl; rewrite app_nil_r; clear; by induction ops|]. intros c. unfold k_pins. cbn. by destruct (Hcase c) as [[-> _]|[-> _]].
  - done.
  - apply after_none. intros i H. apply Hno in H as (c & _ & H). by destruct (Hcase c) as [[E _]|[E _]]; rewrite E in H.
  - unfold cost. rewrite contributions_initial. unfold total at 1. simpl. clear -Hcase. induction ops as [|c l IH]; [simpl; lia|]. cbn [map concat length]. rewrite length_app. unfold k_steps at 1. rewrite length_replicate. cbn [fst snd].
    pose proof (total_side (shape_of c)). destruct (Hcase c) as [[-> _]|[-> _]]; lia.
Qed.

(** Nothing is left of calls that have written. *)
Lemma rma_end st rs w : inv st rs w -> w.(calls) = [] -> w.(items) = [] -> rs = [] /\ forall i c, ops !! i = Some c -> st !! i = Some Written.
Proof.
  intros [V1 V2 V3 V4 V5 V6 V7 V8 V9 V10] Hcs His. rewrite Hcs in V3. rewrite His in V4. apply Permutation_nil_l in V3, V4. symmetry in V4. apply app_eq_nil in V4 as [V4 Hr].
  split; [by apply map_eq_nil in Hr|]. intros i c Hc. assert (Hlt : (i < length st)%nat) by (rewrite V1; by eapply lookup_lt_Some). apply lookup_lt_is_Some in Hlt as [s Hs].
  destruct (k_calls (c, s)) as [|x l] eqn:E1; [|assert (Hx : x ∈ all k_calls st) by (eapply contributions_in; [done|done|rewrite E1; by apply elem_of_cons; left]); rewrite <- V3 in Hx; by apply elem_of_nil in Hx].
  destruct (k_items m0 (c, s)) as [|x l] eqn:E2; [|assert (Hx : x ∈ all (k_items m0) st) by (eapply contributions_in; [done|done|rewrite E2; by apply elem_of_cons; left]); rewrite V4 in Hx; by apply elem_of_nil in Hx].
  by destruct s.
Qed.

(** C8: copies by remote memory access.  For calls that do not race, whose addresses fit into a
    command, whose parcels, those of the suspended threads included, are apart, and whose
    memgets have an LCO for their local completion, in any order of calls, transfers, completions
    and parcels: no step fails, so that every command finds the parcel it names; at most 13 steps for a call are
    made; an LCO is set, a thread resumed, or a parcel received by rendezvous launched, for a
    destination only when it holds the bytes of the source; and when nothing is left, the memory
    is as if each call had copied at once, everything that the calls promised has happened once,
    and the only buffers still pinned, and parcels never run, are those of puts of unregistered
    buffers without a local command. *)
Theorem rma_copies l w : run start l = Some w ->
  (forall k, (k < length w.(calls))%nat -> is_Some (step w (Call k))) /\ (forall k, (k < length w.(items))%nat -> is_Some (step w (Advance k)))
  /\ (length l <= 13 * length ops)%nat
  /\ (NoDup (concat (map (fun c => promised_read c ++ promised_write c) ops)) ->
      forall i c y, ops !! i = Some c -> y ∈ promised_write c -> y ∈ w.(notes) -> read w.(mem) (c_dest (copy_of c)) (c_len (copy_of c)) = read m0 (c_src (copy_of c)) (c_len (copy_of c)))
  /\ (w.(calls) = [] -> w.(items) = [] ->
      (forall x, w.(mem) x = foldl copy_now m0 (map copy_of ops) x)
      /\ w.(notes) ≡ₚ concat (map (fun c => promised_read c ++ promised_write c) ops)
      /\ w.(pinned) ≡ₚ concat (map left_pinned ops) /\ w.(store) = stored (concat (map (fun c => leak_keys (shape_of c)) ops))).
Proof.
  intros E. destruct rma_begin as [I0 HC]. destruct (rma_run _ _ _ _ _ I0 E) as (st & rs & I & Hl).
  assert (Hnotes : concat (map (fun c => promised_read c ++ promised_write c) ops) = concat (map call_notes ops)) by (f_equal; apply map_ext; intros c; by rewrite call_notes_eq).
  split; [|split; [|split; [lia|split]]].
  - intros k Hk. apply lookup_lt_is_Some_2 in Hk as [c Hk]. destruct (inv_call _ _ _ _ _ I Hk) as (w' & _ & _ & H & _). by exists w'.
  - intros k Hk. apply lookup_lt_is_Some_2 in Hk as [x Hk]. destruct (rma_advance _ _ _ _ _ I Hk) as (w' & _ & _ & H & _). by exists w'.
  - intros Hnd i c y Hc Hy Hset. apply (after_bytes m0 _ _ _ i (copy_of c) (v_mem _ _ _ I)); [by apply rma_copy_lookup|].
    assert (Hlt : (i < length st)%nat) by (rewrite (v_length _ _ _ I); by eapply lookup_lt_Some). apply lookup_lt_is_Some in Hlt as [s Hs]. unfold written. rewrite Hs. f_equal.
    rewrite Hnotes, <- (v_notes _ _ _ I) in Hnd. apply NoDup_app in Hnd as (_ & Hnd & _). destruct (promised_eq c) as [_ Hw].
    destruct s; [| | | |done]; destruct (Hnd y Hset); apply elem_of_app; right; (eapply contributions_in; [done|done|]); cbn [k_notes fst snd]; rewrite ?call_notes_eq, ?Hw, ?elem_of_app; auto.
  - intros Hcs His. destruct (rma_end _ _ _ I Hcs His) as [-> Hw]. pose proof I as [V1 V2 V3 V4 V5 V6 V7 V8 V9 V10].
    assert (Hk : forall {A} (f : call * status -> list A), all f st = concat (map (fun c => f (c, Written)) ops)).
    { intros A f. rewrite <- (contributions_initial f (fun _ => Written)). f_equal. apply list_eq. intros i. rewrite list_lookup_fmap. destruct (ops !! i) as [c|] eqn:Hc; [by rewrite (Hw i c)|]. apply lookup_ge_None. rewrite V1. by apply lookup_ge_None. }
    split; [|split; [|split]].
    + intros x. apply (after_all m0 _ no_races (written st)); [|done]. intros i c Hc. rewrite list_lookup_fmap in Hc. destruct (ops !! i) as [d|] eqn:Hd; [|done]. by apply (Hw i d).
    + rewrite Hnotes, <- V7, Hk. simpl. assert (Hz : concat (map (fun c => k_notes (c, Written)) ops) = []) by (clear; by induction ops). by rewrite Hz, app_nil_r.
    + rewrite V8, Hk. simpl. by rewrite app_nil_r.
    + eapply inv_stored; [done|]. rewrite Hk. simpl. by rewrite app_nil_r.
Qed.
End Race_free.
End Network.

(** ** Concrete calls *)

Definition zero_heap (r : Z) : Z := 0.

Definition three_ops : list call :=
  [memput 0 (offset_to_gpa 1 100) 16 2 (offset_to_gpa 0 8) (offset_to_gpa 2 8) (mkGiven 1001 1002 1003 false);
   memget_lsync 1 200 (offset_to_gpa 0 300) 2 1004 (mkGiven 0 0 1005 false);
   rendezvousSend 0 400 (offset_to_gpa 1 0) 3 0 600].

Definition some_memory : memory := fun x => x.2 + 1.

Definition three_labels : list label := [Call 0; Call 0; Call 0; Call 0] ++ replicate 17 (Advance 0).

Lemma three_race_free_rma : race_free (map (copy_of zero_heap) three_ops).
Proof.
  assert (E : map (copy_of zero_heap) three_ops = [mkCopy (1%nat, 100) (0%nat, 16) 2; mkCopy (1%nat, 200) (0%nat, 300) 2; mkCopy (1%nat, 600) (0%nat, 400) 3]) by (by vm_compute).
  rewrite E. intros i j c d x Hc Hd Hne Hx. apply in_range_spec in Hx as (k & Hk & ->).
  destruct i as [|[|[|i]]], j as [|[|[|j]]]; try done; simplify_eq/=; destruct k as [|[|[|k]]]; try lia; done.
Qed.

Lemma three_ops_ok : Forall call_ok three_ops.
Proof. repeat constructor; cbn; unfold given_ok; cbn; try done; vm_compute; split_and?; done. Qed.

Lemma rma_copies_witness : exists w, run zero_heap (start some_memory three_ops) three_labels = Some w
  /\ read w.(mem) (1%nat, 600) 3 = [401; 402; 403] /\ w.(notes) ≡ₚ [Set_ (offset_to_gpa 0 8); Set_ (offset_to_gpa 2 8); Resumed 1 1004; Deleted 0 400; Launched 1 600].
Proof.
  destruct (run zero_heap (start some_memory three_ops) three_labels) as [w|] eqn:E; [|by vm_compute in E]. exists w. split; [done|].
  assert (Hn : calls w = [] /\ items w = [] /\ read w.(mem) (1%nat, 600) 3 = [401; 402; 403]) by (vm_compute in E; by injection E as <-). destruct Hn as (H1 & H2 & H3). split; [done|].
  destruct (rma_copies zero_heap some_memory three_ops three_race_free_rma three_ops_ok ltac:(apply (bool_decide_unpack _); by vm_compute) three_labels w E) as (_ & _ & _ & _ & H).
  destruct (H H1 H2) as (_ & Hnotes & _). exact Hnotes.
Defined.

(** A get without an LCO for its local completion ends the program. *)
Lemma get_without_lsync : is_Some (run zero_heap (start some_memory [memget 0 200 (offset_to_gpa 1 300) 2 0 0 (mkGiven 0 0 0 true)]) [Call 0; Advance 0; Advance 0])
  /\ run zero_heap (start some_memory [memget 0 200 (offset_to_gpa 1 300) 2 0 0 (mkGiven 0 0 0 true)]) [Call 0; Advance 0; Advance 0; Advance 0] = None.
Proof. split; [eexists; by vm_compute|by vm_compute]. Qed.

(** A put without an LCO for its local completion leaves its buffer pinned. *)
Lemma put_without_lsync : exists w, run zero_heap (start some_memory [memput 0 (offset_to_gpa 1 100) 16 2 0 0 (mkGiven 0 0 1001 false)]) [Call 0; Advance 0; Advance 0] = Some w
  /\ w.(calls) = [] /\ w.(items) = [] /\ w.(pinned) = [(0, 16, 2%nat)].
Proof. eexists. split; [by vm_compute|]. by vm_compute. Qed.
