(* ===== verification/Exit.v ===== *)
(** * Ending an epoch

    scheduler/Scheduler.cpp and hpx.cpp: a run of the runtime is an epoch at every locality.
    An epoch that runs the same program everywhere ends when every locality has called exit,
    which the scheduler of locality 0 counts; an epoch with one program ends when that calls
    exit, and its output is copied to every locality.  The stop signals are parcels, and the
    thread that sends them waits until each has left the locality; the main threads wait for
    their scheduler to stop, and then for each other. *)

From S2P Require Import Prelude.

Section Exit.
Context {V : Type}.

(** ** A locality *)

(** Whether the scheduler runs; what its program called exit with, none for no output; the
    output slot, and its contents; and what the main thread found there when start returned. *)
Record locality := mkLocality {
  run : bool;
  exited : option (option V);
  output_ : option (option V);
  returned : option (option (option V));
}.

Implicit Types (x : locality) (o : option V).

Definition setOutput x o : locality :=
  match o, x.(output_) with
  | Some v, Some _ => mkLocality x.(run) x.(exited) (Some (Some v)) x.(returned)
  | _, _ => x
  end.

Definition stop x : locality := mkLocality false x.(exited) x.(output_) x.(returned).

Definition exits x o : locality := mkLocality x.(run) (Some o) x.(output_) x.(returned).

(** The end of start: the slot is the caller's again. *)
Definition start_return x : option locality :=
  match x.(run), x.(returned) with
  | false, None => Some (mkLocality x.(run) x.(exited) x.(output_) (Some x.(output_)))
  | _, _ => None
  end.

(** ** All of them *)

Inductive msg := TerminateSPMD | SetOutput (i : nat) (o : option V) | Stop (i : nat).

(** A thread that has sent the signals: its locality, the sends that are not complete, and the
    output that it still has to set. *)
Record waiter := mkWaiter { at_rank : nat; pending : nat; out : option V }.

Record world := mkWorld {
  localities : list locality;
  spmdCount_ : nat;
  waiting : option waiter;
  net : list msg;
}.

Implicit Types w : world.

Definition ranks w : nat := length w.(localities).

Definition others w (r : nat) : list nat := filter (fun i => i <> r) (seq 0 (ranks w)).

Definition with_locality w (r : nat) x (ms : list msg) : world := mkWorld (<[r := x]> w.(localities)) w.(spmdCount_) w.(waiting) ms.

Definition exitSPMD w (r : nat) x o : world := with_locality w r (exits (setOutput x o) o) (w.(net) ++ [TerminateSPMD]).

Definition exitDiffuse w (r : nat) x o : world :=
  mkWorld (<[r := exits x o]> w.(localities)) w.(spmdCount_) (Some (mkWaiter r (ranks w - 1) o))
    (w.(net) ++ map (fun i => SetOutput i o) (others w r)).

(** At locality 0; [ms] is the rest of the parcels. *)
Definition terminateSPMD w (ms : list msg) : world :=
  if (S w.(spmdCount_) =? ranks w)%nat
  then mkWorld w.(localities) 0 (Some (mkWaiter 0 (ranks w - 1) None)) (ms ++ map Stop (others w 0))
  else mkWorld w.(localities) (S w.(spmdCount_)) w.(waiting) ms.

(** The locality at which a parcel is run. *)
Definition target (m : msg) : nat := match m with TerminateSPMD => 0 | SetOutput i _ => i | Stop i => i end.

(** The output is set, and the continuation of that action stops the locality. *)
Definition handle w (m : msg) x (ms : list msg) : world :=
  match m with
  | TerminateSPMD => terminateSPMD w ms
  | SetOutput i o => with_locality w i (setOutput x o) (ms ++ [Stop i])
  | Stop i => with_locality w i (stop x) ms
  end.

Inductive label := Exit (r : nat) (o : option V) | Deliver (k : nat) | Sync | Proceed | Return (r : nat).

(** A locality runs parcels and threads while its scheduler runs.  In an epoch of the same
    program everywhere every locality exits once, in one with a single program there is one
    exit. *)
Definition estep (spmd : bool) w (a : label) : option world :=
  match a with
  | Exit r o =>
    x ← w.(localities) !! r;
    if x.(run) then
      if spmd then match x.(exited) with None => Some (exitSPMD w r x o) | Some _ => None end
      else if forallb (fun y => match y.(exited) with None => true | Some _ => false end) w.(localities)
      then Some (exitDiffuse w r x o) else None
    else None
  | Deliver k =>
    m ← w.(net) !! k;
    x ← w.(localities) !! target m;
    if x.(run) then Some (handle w m x (delete k w.(net))) else None
  | Sync =>
    match w.(waiting) with
    | Some (mkWaiter r (S n) o) =>
      x ← w.(localities) !! r;
      if x.(run) then Some (mkWorld w.(localities) w.(spmdCount_) (Some (mkWaiter r n o)) w.(net)) else None
    | _ => None
    end
  | Proceed =>
    match w.(waiting) with
    | Some (mkWaiter r O o) =>
      x ← w.(localities) !! r;
      if x.(run) then Some (mkWorld (<[r := stop (setOutput x o)]> w.(localities)) w.(spmdCount_) None w.(net)) else None
    | _ => None
    end
  | Return r =>
    x ← w.(localities) !! r;
    x ← start_return x;
    Some (with_locality w r x w.(net))
  end.

(** A new epoch, with the output slots [slots]. *)
Definition begin (slots : list (option (option V))) : world :=
  mkWorld (map (fun s => mkLocality true None s None) slots) 0 None [].

Fixpoint erun (spmd : bool) w (l : list label) : option world :=
  match l with
  | [] => Some w
  | a :: l => w ← estep spmd w a; erun spmd w l
  end.

(** ** Outputs *)

(** The contents of a slot after an output. *)
Definition final (s : option (option V)) o : option (option V) :=
  match o, s with
  | Some v, Some _ => Some (Some v)
  | _, _ => s
  end.

Lemma setOutput_spec x o : setOutput x o = mkLocality x.(run) x.(exited) (final x.(output_) o) x.(returned).
Proof. unfold setOutput, final. destruct x as [r e [p|] t], o; done. Qed.

Definition has_exited x : nat := match x.(exited) with None => 0 | Some _ => 1 end.
Definition unreturned x : nat := match x.(returned) with None => 1 | Some _ => 0 end.

Lemma elem_of_others w r i : i ∈ others w r <-> i <> r /\ (i < ranks w)%nat.
Proof. unfold others. rewrite list_elem_of_filter, elem_of_seq. lia. Qed.

Lemma others_nodup w r : NoDup (others w r).
Proof. apply NoDup_filter, NoDup_seq. Qed.

Lemma others_length w r : (r < ranks w)%nat -> length (others w r) = (ranks w - 1)%nat.
Proof.
  intros H. assert (Hp : r :: others w r ≡ₚ seq 0 (ranks w)).
  { apply NoDup_Permutation.
    - apply NoDup_cons. split; [rewrite elem_of_others; lia|apply others_nodup].
    - apply NoDup_seq.
    - intros i. rewrite elem_of_cons, elem_of_others, elem_of_seq. lia. }
  apply Permutation_length in Hp. rewrite length_seq in Hp. simpl in Hp. lia.
Qed.

Lemma insert_locality {P : nat -> locality -> Prop} (l : list locality) r x : (forall i y, i <> r -> l !! i = Some y -> P i y) -> P r x ->
  forall i y, <[r := x]> l !! i = Some y -> P i y.
Proof. intros H Hx i y Hy. apply list_lookup_insert_Some in Hy as [(<- & <- & _)|[Hne Hy]]; [done|]. apply H; [congruence|done]. Qed.

Lemma sum_insert (f : locality -> nat) (l : list locality) r x y : l !! r = Some x ->
  (sum_list_with f (<[r := y]> l) + f x = sum_list_with f l + f y)%nat.
Proof. revert r. induction l as [|z l IH]; intros [|r] Hx; simplify_eq/=; [lia|]. specialize (IH r Hx). lia. Qed.

Lemma sum_exited_le l : (sum_list_with has_exited l <= length l)%nat.
Proof. induction l as [|x l IH]; simpl; [done|]. unfold has_exited at 1. destruct (exited x); lia. Qed.

Lemma sum_exited_all l : sum_list_with has_exited l = length l -> forall r x, l !! r = Some x -> exists o, x.(exited) = Some o.
Proof.
  induction l as [|y l IH]; intros H [|r] x Hx; simplify_eq/=; pose proof (sum_exited_le l); unfold has_exited in H at 1.
  - destruct (exited x); [by eexists|lia].
  - destruct (exited y); [|lia]. apply (IH ltac:(lia) r x Hx).
Qed.

Lemma sum_unreturned_none l : (forall r x, l !! r = Some x -> x.(returned) = None) -> sum_list_with unreturned l = length l.
Proof.
  induction l as [|y l IH]; intros H; [done|]. simpl. rewrite IH by (intros r; apply (H (S r))). unfold unreturned. by rewrite (H 0%nat y eq_refl).
Qed.

(** ** The stop signals

    From the localities [base] the thread at [r] sends its signals, with the output [o] for
    them and itself: those in [S] have it to set and then to stop, those in [R] only to stop. *)

Definition unset w (r : nat) (S : list nat) (i : nat) : Prop := i ∈ S \/ i = r /\ w.(waiting) <> None.

Record stopping (base : list locality) (r : nat) o w (S R : list nat) : Prop := {
  s_length : length w.(localities) = length base;
  s_local i x : w.(localities) !! i = Some x -> exists b, base !! i = Some b /\ x.(exited) = b.(exited)
    /\ (unset w r S i /\ x.(output_) = b.(output_) \/ ~ unset w r S i /\ x.(output_) = final b.(output_) o)
    /\ (x.(returned) = None \/ x.(returned) = Some x.(output_) /\ x.(run) = false)
    /\ (x.(run) = true <-> unset w r S i \/ i ∈ R);
  s_nodup : NoDup (r :: S ++ R);
  s_range : Forall (fun i => i < length base)%nat (r :: S ++ R);
  s_net : w.(net) ≡ₚ map (fun i => SetOutput i o) S ++ map Stop R;
  s_waiting y : w.(waiting) = Some y -> y.(at_rank) = r /\ y.(out) = o;
  s_count : w.(spmdCount_) = 0%nat;
}.

(** The steps to the end. *)
Definition cost w (S R : list nat) : nat :=
  (2 * length S + length R + match w.(waiting) with Some y => Datatypes.S y.(pending) | None => 0 end + sum_list_with unreturned w.(localities))%nat.

Section Stopping.
Variables (spmd : bool) (base : list locality) (r : nat) (o : option V).
Abbreviation stopping := (stopping base r o).

Lemma stopping_set w S R i x : stopping w (i :: S) R -> w.(localities) !! i = Some x ->
  forall k, w.(net) !! k = Some (SetOutput i o) -> stopping (with_locality w i (setOutput x o) (delete k w.(net) ++ [Stop i])) S (i :: R).
Proof.
  intros [S1 S2 S3 S3' S4 S5 S6] Hx k Hk. rewrite setOutput_spec. destruct (S2 i x Hx) as (b & Hb & K1 & K2 & K3 & K4).
  assert (Hu : unset w r (i :: S) i) by (left; by apply elem_of_cons; left). destruct K2 as [[_ K2]|[? _]]; [|done].
  assert (Hi : ~ unset w r S i).
  { unfold unset. cbn [app] in S3. rewrite !NoDup_cons, elem_of_cons, !elem_of_app in S3. intros [?|[? _]]; naive_solver. }
  assert (Hrun : run x = true) by (apply K4; by left). assert (Hp : r :: S ++ i :: R ≡ₚ r :: (i :: S) ++ R) by solve_Permutation.
  split; cbn [with_locality localities waiting net spmdCount_]; try done.
  - by rewrite length_insert.
  - apply insert_locality.
    + intros j y Hne Hy. destruct (S2 j y Hy) as (c & Hc & L1 & L2 & L3 & L4). exists c. split; [done|]. split; [done|].
      assert (Hiff : unset w r (i :: S) j <-> unset w r S j) by (unfold unset; rewrite elem_of_cons; naive_solver). rewrite Hiff in L2, L4. split; [done|]. split; [done|].
      rewrite L4, elem_of_cons. change (unset (with_locality w i _ _) r S j) with (unset w r S j). naive_solver.
    + exists b. split; [done|]. split; [done|]. split; [right; split; [exact Hi|cbn [output_]; by rewrite K2]|]. simpl. split; [destruct K3 as [|[_ ?]]; [by left|congruence]|].
      split; [|done]. intros _. right. by apply elem_of_cons; left.
  - by rewrite Hp.
  - by rewrite Hp.
  - pose proof (delete_Permutation _ _ _ Hk) as Hd. rewrite Hd in S4. cbn [map app] in S4 |- *. apply Permutation_cons_inv in S4. rewrite S4. solve_Permutation.
Qed.

Lemma stopping_stop w S R i x : stopping w S (i :: R) -> w.(localities) !! i = Some x ->
  forall k, w.(net) !! k = Some (Stop i) -> stopping (with_locality w i (stop x) (delete k w.(net))) S R.
Proof.
  intros [S1 S2 S3 S3' S4 S5 S6] Hx k Hk. destruct (S2 i x Hx) as (b & Hb & K1 & K2 & K3 & K4).
  assert (Hp : r :: S ++ i :: R ≡ₚ i :: r :: S ++ R) by solve_Permutation. rewrite Hp in S3, S3'. apply NoDup_cons in S3 as [Hnot S3].
  assert (Hrun : run x = true) by (apply K4; right; by apply elem_of_cons; left).
  assert (Hi : ~ unset w r S i /\ i ∉ R) by (unfold unset; rewrite elem_of_cons, elem_of_app in Hnot; naive_solver).
  split; cbn [with_locality localities waiting net spmdCount_]; try done.
  - by rewrite length_insert.
  - apply insert_locality.
    + intros j y Hne Hy. destruct (S2 j y Hy) as (c & Hc & L1 & L2 & L3 & L4). exists c. split; [done|]. split; [done|]. split; [done|]. split; [done|].
      rewrite L4, elem_of_cons. change (unset (with_locality w i _ _) r S j) with (unset w r S j). naive_solver.
    + exists b. split; [done|]. split; [done|]. split; [exact K2|]. simpl. split; [destruct K3 as [|[_ ?]]; [by left|congruence]|].
      split; [done|]. change (unset (with_locality w i _ _) r S i) with (unset w r S i). tauto.
  - exact (Forall_inv_tail S3').
  - pose proof (delete_Permutation _ _ _ Hk) as Hd. rewrite Hd in S4. cbn [map] in S4. apply Permutation_cons_inv with (a := Stop i). rewrite S4. solve_Permutation.
Qed.

Lemma stopping_perm w S R S' R' : S ≡ₚ S' -> R ≡ₚ R' -> stopping w S R -> stopping w S' R'.
Proof.
  intros HS HR [S1 S2 S3 S3' S4 S5 S6]. split; try done.
  - intros i x Hx. destruct (S2 i x Hx) as (b & Hb). exists b. unfold unset in *. by rewrite <- HS, <- HR.
  - by rewrite <- HS, <- HR.
  - by rewrite <- HS, <- HR.
  - by rewrite <- HS, <- HR.
Qed.

Lemma cost_locality w S R i x y ms : w.(localities) !! i = Some x -> y.(returned) = x.(returned) -> cost w S R = cost (with_locality w i y ms) S R.
Proof.
  intros Hx Hy. unfold cost. cbn [with_locality localities waiting]. pose proof (sum_insert unreturned _ _ _ y Hx) as Hs. unfold unreturned in Hs at 2 4.
  rewrite Hy in Hs. lia.
Qed.

Lemma stopping_deliver w S R k w' : stopping w S R -> estep spmd w (Deliver k) = Some w' -> exists S' R', stopping w' S' R' /\ cost w S R = Datatypes.S (cost w' S' R').
Proof.
  intros H E. cbn [estep] in E. destruct (net w !! k) as [m|] eqn:Hk; [|done]. cbn [mbind option_bind] in E.
  assert (Hm : m ∈ net w) by (by eapply list_elem_of_lookup_2). rewrite (s_net _ _ _ _ _ _ H), elem_of_app, !list_elem_of_fmap in Hm.
  destruct (localities w !! target m) as [x|] eqn:Hx; [|done]. cbn [mbind option_bind] in E. destruct (run x); [|done]. injection E as <-.
  destruct Hm as [(i & -> & Hi)|(i & -> & Hi)]; apply elem_of_Permutation in Hi as [T HT]; cbn [handle target] in *.
  - exists T, (i :: R). split; [apply stopping_set; [by eapply stopping_perm; [exact HT|done|]|done|done]|].
    rewrite <- (cost_locality w T (i :: R) i x) by (done || by rewrite setOutput_spec). unfold cost. rewrite HT. simpl. lia.
  - exists S, T. split; [apply stopping_stop; [by eapply stopping_perm; [done|exact HT|]|done|done]|].
    rewrite <- (cost_locality w S T i x) by done. unfold cost. rewrite HT. simpl. lia.
Qed.

Lemma stopping_sync w S R w' : stopping w S R -> estep spmd w Sync = Some w' -> stopping w' S R /\ cost w S R = Datatypes.S (cost w' S R).
Proof.
  intros [S1 S2 S3 S3' S4 S5 S6] E. cbn [estep] in E. destruct (waiting w) as [[r' [|n] o']|] eqn:Hw; try done. destruct (localities w !! r') as [x|]; [|done].
  cbn [mbind option_bind] in E. destruct (run x); [|done]. injection E as <-. split; [|unfold cost; cbn [waiting localities]; rewrite Hw; simpl; lia].
  assert (Hu : forall i, unset (mkWorld (localities w) (spmdCount_ w) (Some (mkWaiter r' n o')) (net w)) r S i <-> unset w r S i).
  { intros i. unfold unset. cbn [waiting]. rewrite Hw. naive_solver. }
  split; cbn [localities waiting net spmdCount_]; try done.
  - intros i y Hy. destruct (S2 i y Hy) as (b & Hb). exists b. by rewrite !Hu.
  - intros y [= <-]. by destruct (S5 _ eq_refl).
Qed.

Lemma stopping_proceed w S R w' : stopping w S R -> estep spmd w Proceed = Some w' -> stopping w' S R /\ cost w S R = Datatypes.S (cost w' S R).
Proof.
  intros [S1 S2 S3 S3' S4 S5 S6] E. cbn [estep] in E. destruct (waiting w) as [[r' [|n] o']|] eqn:Hw; try done. destruct (S5 _ eq_refl) as [H1 H2]. simpl in H1, H2. subst r' o'.
  destruct (localities w !! r) as [x|] eqn:Hx; [|done]. cbn [mbind option_bind] in E. destruct (run x) eqn:Hrun; [|done]. injection E as <-. rewrite setOutput_spec.
  destruct (S2 r x Hx) as (b & Hb & K1 & K2 & K3 & K4). assert (Hur : unset w r S r) by (right; by rewrite Hw). destruct K2 as [[_ K2]|[? _]]; [|done].
  apply NoDup_cons in S3 as [Hr S3]. rewrite elem_of_app in Hr. set (y := stop _). split.
  2: { unfold cost. cbn [waiting localities]. rewrite Hw. cbn [pending]. pose proof (sum_insert unreturned _ _ _ y Hx) as Hs. change (unreturned y) with (unreturned x) in Hs. lia. }
  assert (Hu : forall i, i <> r -> unset (mkWorld (<[r:=y]> (localities w)) (spmdCount_ w) None (net w)) r S i <-> unset w r S i).
  { intros i Hi. unfold unset. naive_solver. }
  split; cbn [localities waiting net spmdCount_]; try done.
  - by rewrite length_insert.
  - apply insert_locality.
    + intros j z Hne Hz. destruct (S2 j z Hz) as (c & Hc). exists c. by rewrite !Hu.
    + exists b. split; [done|]. split; [done|]. assert (Hn : ~ unset (mkWorld (<[r:=y]> (localities w)) (spmdCount_ w) None (net w)) r S r) by (unfold unset; naive_solver).
      split; [right; split; [done|simpl; by rewrite K2]|]. simpl. split; [destruct K3 as [|[_ ?]]; [by left|congruence]|]. split; [done|tauto].
  - apply NoDup_cons. by rewrite elem_of_app.
Qed.

Lemma stopping_return w S R i w' : stopping w S R -> estep spmd w (Return i) = Some w' -> stopping w' S R /\ cost w S R = Datatypes.S (cost w' S R).
Proof.
  intros [S1 S2 S3 S3' S4 S5 S6] E. cbn [estep] in E. destruct (localities w !! i) as [x|] eqn:Hx; [|done]. cbn [mbind option_bind] in E. unfold start_return in E.
  destruct (run x) eqn:Hrun; [done|]. destruct (returned x) eqn:Hret; [done|]. injection E as <-. set (y := mkLocality _ _ _ _). split.
  2: { unfold cost. cbn [with_locality waiting localities]. pose proof (sum_insert unreturned _ _ _ y Hx) as Hs. unfold unreturned in Hs at 2 4. rewrite Hret in Hs. simpl in Hs. lia. }
  split; cbn [with_locality localities waiting net spmdCount_]; try done.
  - by rewrite length_insert.
  - apply insert_locality; [intros j z _; apply S2|]. destruct (S2 i x Hx) as (b & Hb & K1 & K2 & _ & K4). exists b. split; [done|]. split; [done|]. split; [exact K2|].
    split; [by right|]. simpl. by rewrite Hrun in K4.
Qed.

(** No locality exits after the exits that started the signals. *)
Hypothesis base_exited : if spmd then forall i b, base !! i = Some b -> b.(exited) <> None else exists i b, base !! i = Some b /\ b.(exited) <> None.

Lemma stopping_exit w S R i o' : stopping w S R -> estep spmd w (Exit i o') = None.
Proof.
  intros H. cbn [estep]. destruct (localities w !! i) as [x|] eqn:Hx; [|done]. cbn [mbind option_bind]. destruct (run x); [|done]. destruct spmd.
  - destruct (s_local _ _ _ _ _ _ H i x Hx) as (b & Hb & He & _). specialize (base_exited i b Hb). rewrite <- He in base_exited. by destruct (exited x).
  - destruct base_exited as (j & b & Hb & Hex). assert (Hj : (j < length (localities w))%nat) by (rewrite (s_length _ _ _ _ _ _ H); by eapply lookup_lt_Some).
    apply lookup_lt_is_Some in Hj as [y Hy]. destruct (s_local _ _ _ _ _ _ H j y Hy) as (c & Hc & He & _). rewrite Hb in Hc. injection Hc as <-.
    destruct (forallb _ _) eqn:Hall; [|done]. rewrite forallb_forall in Hall. specialize (Hall y (proj1 (list_elem_of_In _ _) (list_elem_of_lookup_2 _ _ _ Hy))).
    rewrite He in Hall. by destruct (exited b).
Qed.

Lemma stopping_step w S R a w' : stopping w S R -> estep spmd w a = Some w' -> exists S' R', stopping w' S' R' /\ cost w S R = Datatypes.S (cost w' S' R').
Proof.
  intros H E. destruct a as [i o'|k| | |i].
  - by rewrite (stopping_exit _ _ _ _ _ H) in E.
  - by eapply stopping_deliver.
  - exists S, R. by apply stopping_sync.
  - exists S, R. by apply stopping_proceed.
  - exists S, R. by eapply stopping_return.
Qed.

Lemma stopping_deliverable w S R m : stopping w S R -> m ∈ w.(net) -> exists k w', estep spmd w (Deliver k) = Some w'.
Proof.
  intros H Hm. apply list_elem_of_lookup in Hm as [k Hk]. pose proof Hk as Hm. apply list_elem_of_lookup_2 in Hm. rewrite (s_net _ _ _ _ _ _ H), elem_of_app, !list_elem_of_fmap in Hm.
  assert (Hi : target m ∈ S ++ R) by (rewrite elem_of_app; destruct Hm as [(i & -> & Hi)|(i & -> & Hi)]; [by left|by right]).
  pose proof (s_range _ _ _ _ _ _ H) as Hr. rewrite Forall_forall in Hr. specialize (Hr (target m) ltac:(apply elem_of_cons; by right)).
  rewrite <- (s_length _ _ _ _ _ _ H) in Hr. apply lookup_lt_is_Some in Hr as [x Hx]. destruct (s_local _ _ _ _ _ _ H _ _ Hx) as (_ & _ & _ & _ & _ & Hrun).
  exists k. cbn [estep]. rewrite Hk. cbn [mbind option_bind]. rewrite Hx. cbn [mbind option_bind]. rewrite (proj2 Hrun); [by eexists|].
  rewrite elem_of_app in Hi. unfold unset. tauto.
Qed.

Definition internal (a : label) : Prop := match a with Exit _ _ => False | _ => True end.

Lemma sum_zero (f : locality -> nat) (l : list locality) : sum_list_with f l = 0%nat -> forall x, x ∈ l -> f x = 0%nat.
Proof. induction l as [|y l IH]; intros H x Hx; [by apply elem_of_nil in Hx|]. simpl in H. apply elem_of_cons in Hx as [->|Hx]; [lia|]. apply IH; [lia|done]. Qed.

(** While a locality has not returned there is a step. *)
Lemma stopping_progress w S R : stopping w S R -> cost w S R <> 0%nat -> exists a w', internal a /\ estep spmd w a = Some w'.
Proof.
  intros H Hc. destruct (net w) as [|m ms] eqn:Hnet.
  2: { destruct (stopping_deliverable w S R m H) as (k & w' & E); [rewrite Hnet; by apply elem_of_cons; left|]. by exists (Deliver k), w'. }
  pose proof (s_net _ _ _ _ _ _ H) as Hn. rewrite Hnet in Hn. apply Permutation_nil_l in Hn. symmetry in Hn. apply app_eq_nil in Hn as [HS HR].
  apply map_eq_nil in HS, HR. subst S R. destruct (waiting w) as [[r' n o']|] eqn:Hw.
  - destruct (s_waiting _ _ _ _ _ _ H _ Hw) as [H1 H2]. simpl in H1, H2. subst r' o'. pose proof (s_range _ _ _ _ _ _ H) as Hr. apply Forall_inv in Hr.
    rewrite <- (s_length _ _ _ _ _ _ H) in Hr. apply lookup_lt_is_Some in Hr as [x Hx]. destruct (s_local _ _ _ _ _ _ H _ _ Hx) as (_ & _ & _ & _ & _ & Hrun).
    assert (Hx' : run x = true) by (apply Hrun; left; right; by rewrite Hw).
    destruct n as [|n]; [exists Proceed|exists Sync]; cbn [estep]; rewrite Hw, Hx; cbn [mbind option_bind]; rewrite Hx'; by eexists.
  - destruct (decide (Exists (fun x => returned x = None) (localities w))) as [Hex|Hex].
    + apply Exists_exists in Hex as (x & Hx & Hret). apply list_elem_of_lookup in Hx as [i Hx]. destruct (s_local _ _ _ _ _ _ H _ _ Hx) as (_ & _ & _ & _ & _ & Hrun).
      assert (Hx' : run x = false) by (apply not_true_iff_false; rewrite Hrun; unfold unset; rewrite Hw; intros [[?|[_ ?]]|?]; set_solver).
      exists (Return i). cbn [estep]. rewrite Hx. cbn [mbind option_bind]. unfold start_return. rewrite Hx', Hret. by eexists.
    + exfalso. apply Hc. unfold cost. rewrite Hw. simpl. rewrite <- Forall_Exists_neg in Hex. clear -Hex. induction Hex as [|x l Hx _ IH]; [done|]. simpl. unfold unreturned at 1.
      by destruct (returned x).
Qed.

Lemma stopping_end w S R : stopping w S R -> cost w S R = 0%nat -> w.(net) = [] /\ w.(waiting) = None /\ w.(spmdCount_) = 0%nat /\ forall x, x ∈ w.(localities) -> x.(returned) <> None.
Proof.
  intros H Hc. unfold cost in Hc. destruct S; [|simpl in Hc; lia]. destruct R; [|simpl in Hc; lia]. pose proof (s_net _ _ _ _ _ _ H) as Hn. apply Permutation_nil_r in Hn.
  destruct (waiting w); [lia|]. split; [done|]. split; [done|]. split; [apply (s_count _ _ _ _ _ _ H)|]. intros x Hx. apply (sum_zero unreturned) in Hx; [|lia].
  unfold unreturned in Hx. by destruct (returned x).
Qed.

Lemma stopping_returned w S R i x v : stopping w S R -> w.(localities) !! i = Some x -> x.(returned) = Some v ->
  exists b, base !! i = Some b /\ x.(exited) = b.(exited) /\ v = final b.(output_) o.
Proof.
  intros H Hx Hv. destruct (s_local _ _ _ _ _ _ H _ _ Hx) as (b & Hb & He & Ho & Hr & Hrun). exists b. split; [done|]. split; [done|]. destruct Hr as [?|[Hr Hf]]; [congruence|].
  rewrite Hv in Hr. injection Hr as ->. destruct Ho as [[Hu _]|[_ ->]]; [|done]. rewrite (proj2 Hrun) in Hf; [done|by left].
Qed.
End Stopping.

Lemma final_none (s : option (option V)) : final s None = s.
Proof. done. Qed.

(** The signals start from running localities. *)
Lemma stopping_start base r o S R ms : (forall i b, base !! i = Some b -> b.(run) = true /\ b.(returned) = None) -> (r < length base)%nat ->
  S ++ R ≡ₚ filter (fun i => i <> r) (seq 0 (length base)) -> R = [] \/ o = None -> ms ≡ₚ map (fun i => SetOutput i o) S ++ map Stop R ->
  stopping base r o (mkWorld base 0 (Some (mkWaiter r (length base - 1) o)) ms) S R /\
  (cost (mkWorld base 0 (Some (mkWaiter r (length base - 1) o)) ms) S R + 1 = length S + 3 * length base)%nat.
Proof.
  intros Hb Hr HSR Ho Hms. set (w := mkWorld _ _ _ _). change (S ++ R ≡ₚ others w r) in HSR. split.
  - assert (Hin : forall i, i ∈ S ++ R <-> i <> r /\ (i < length base)%nat) by (intros i; rewrite HSR; apply elem_of_others).
    split; cbn [w localities waiting net spmdCount_]; try done.
    + intros i x Hx. exists x. destruct (Hb i x Hx) as [H1 H2]. pose proof (lookup_lt_Some _ _ _ Hx) as Hi. specialize (Hin i). rewrite elem_of_app in Hin.
      split; [done|]. split; [done|]. split; [|split; [by left|]].
      * destruct (decide (i ∈ S \/ i = r)) as [Hu|Hu]; [left; split; [|done]; unfold unset, w; cbn [waiting]; naive_solver|].
        right. split; [unfold unset; naive_solver|]. destruct Ho as [->| ->]; [|done]. exfalso. apply Hu. destruct (decide (i = r)) as [|n]; [by right|].
        destruct (proj2 Hin (conj n Hi)) as [?|Hn]; [by left|by apply elem_of_nil in Hn].
      * rewrite H1. split; [|done]. intros _. unfold unset, w. cbn [waiting]. destruct (decide (i = r)); [by left; right|]. naive_solver.
    + apply NoDup_cons. rewrite Hin, HSR. split; [tauto|apply others_nodup].
    + apply Forall_cons. split; [done|]. apply Forall_forall. intros i Hi. apply Hin in Hi. tauto.
    + by intros y [= <-].
  - pose proof (Permutation_length HSR) as Hl. rewrite length_app, others_length in Hl by done. unfold cost. change (localities w) with base. cbn [w waiting pending].
    rewrite sum_unreturned_none by (intros i b H; apply (Hb i b H)). unfold ranks in Hl. simpl in Hl. lia.
Qed.

(** ** The same program everywhere *)

Section Epoch.
Variable slots : list (option (option V)).

(** Before the signals [n] exits are on their way to locality 0. *)
Record gathering w (n : nat) : Prop := {
  g_length : length w.(localities) = length slots;
  g_local r x : w.(localities) !! r = Some x -> x.(run) = true /\ x.(returned) = None
    /\ exists s, slots !! r = Some s /\ x.(output_) = match x.(exited) with None => s | Some o => final s o end;
  g_waiting : w.(waiting) = None;
  g_net : w.(net) = replicate n TerminateSPMD;
  g_count : (w.(spmdCount_) + n = sum_list_with has_exited w.(localities))%nat;
  g_partial : (w.(spmdCount_) < length slots)%nat;
}.

Definition gone w : nat := (sum_list_with has_exited w.(localities) + w.(spmdCount_))%nat.

Definition exited_base (base : list locality) : Prop :=
  length base = length slots /\ forall i b, base !! i = Some b -> exists s o, slots !! i = Some s /\ b.(exited) = Some o /\ b.(output_) = final s o.

(** After [k] steps. *)
Definition spmd_inv w (k : nat) : Prop :=
  (exists n, gathering w n /\ k = gone w) \/
  exists base S R, stopping base 0 None w S R /\ exited_base base /\ (k + cost w S R + 1 = 5 * length slots)%nat.

Lemma gathering_exit w n r o w' : gathering w n -> estep true w (Exit r o) = Some w' -> gathering w' (S n) /\ gone w' = S (gone w).
Proof.
  intros [G1 G2 G3 G4 G5 G6] E. cbn [estep] in E. destruct (localities w !! r) as [x|] eqn:Hx; [|done]. cbn [mbind option_bind] in E.
  destruct (G2 r x Hx) as (H1 & H2 & s & Hs & H3). rewrite H1 in E. destruct (exited x) eqn:Hex; [done|]. injection E as <-.
  unfold exitSPMD. rewrite setOutput_spec. set (y := exits _ _). pose proof (sum_insert has_exited _ _ _ y Hx) as Hsum.
  assert (Hy : has_exited x = 0%nat /\ has_exited y = 1%nat) by (unfold has_exited; rewrite Hex; done). destruct Hy as [Hy1 Hy2].
  split; [split|unfold gone]; cbn [with_locality localities waiting net spmdCount_]; try done; try lia.
  - by rewrite length_insert.
  - apply insert_locality; [intros i z _; apply G2|]. split; [done|]. split; [done|]. exists s. split; [done|]. simpl. by rewrite H3.
  - rewrite G4. by rewrite replicate_S_end.
Qed.

(** The count reaches the number of localities when every one has exited, and not before. *)
Lemma gathering_deliver w n k w' : gathering w n -> estep true w (Deliver k) = Some w' -> spmd_inv w' (S (gone w)).
Proof.
  intros [G1 G2 G3 G4 G5 G6] E. cbn [estep] in E. destruct (net w !! k) as [m|] eqn:Hk; [|done]. cbn [mbind option_bind] in E. pose proof Hk as Hk'.
  rewrite G4 in Hk. apply lookup_replicate in Hk as [-> Hlt]. cbn [target] in E. destruct (localities w !! 0%nat) as [x|] eqn:Hx; [|done]. cbn [mbind option_bind] in E.
  destruct (G2 _ _ Hx) as (H1 & _). rewrite H1 in E. injection E as <-. cbn [handle]. unfold terminateSPMD. pose proof (sum_exited_le (localities w)) as Hle.
  assert (Hd : delete k (net w) = replicate (n - 1) TerminateSPMD).
  { rewrite G4, delete_take_drop, take_replicate, drop_replicate, <- replicate_add. f_equal. lia. }
  rewrite Hd. destruct (Nat.eqb_spec (S (spmdCount_ w)) (ranks w)) as [He|He]; unfold ranks in He.
  - right. assert (Hn : n = 1%nat) by lia. subst n. assert (Hall : sum_list_with has_exited (localities w) = length (localities w)) by lia.
    exists (localities w), [], (others w 0). destruct (stopping_start (localities w) 0 None [] (others w 0) (map Stop (others w 0))) as [HS HC]; try done.
    { intros i b Hb. destruct (G2 i b Hb) as (? & ? & _). done. } { by eapply lookup_lt_Some. } { by right. }
    split; [exact HS|]. split; [split; [done|]|unfold ranks, gone in *; simpl in *; lia]. intros i b Hb. destruct (G2 i b Hb) as (_ & _ & s & Hs & Ho).
    destruct (sum_exited_all _ Hall i b Hb) as [o Heq]. rewrite Heq in Ho. by exists s, o.
  - left. exists (n - 1)%nat. split; [split|unfold gone]; cbn [localities waiting net spmdCount_]; try done; lia.
Qed.

Lemma spmd_step w k a w' : spmd_inv w k -> estep true w a = Some w' -> spmd_inv w' (S k).
Proof.
  intros [(n & G & ->)|(base & S & R & HS & HB & Hk)] E.
  - destruct a as [r o|j| | |r].
    + left. exists (S n). destruct (gathering_exit _ _ _ _ _ G E) as [? ->]. done.
    + by eapply gathering_deliver.
    + cbn [estep] in E. by rewrite (g_waiting _ _ G) in E.
    + cbn [estep] in E. by rewrite (g_waiting _ _ G) in E.
    + cbn [estep] in E. destruct (localities w !! r) as [x|] eqn:Hx; [|done]. destruct (g_local _ _ G r x Hx) as (H1 & _). cbn [mbind option_bind] in E.
      unfold start_return in E. by rewrite H1 in E.
  - right. exists base. destruct (stopping_step true base 0 None) with (w := w) (S := S) (R := R) (a := a) (w' := w') as (S' & R' & HS' & HC); try done.
    { intros i b Hb. destruct HB as [_ HB]. destruct (HB i b Hb) as (? & ? & _ & -> & _). done. }
    exists S', R'. split; [done|]. split; [done|]. lia.
Qed.

Lemma begin_local r x : (begin slots).(localities) !! r = Some x -> exists s, slots !! r = Some s /\ x = mkLocality true None s None.
Proof. cbn [begin localities]. rewrite list_lookup_fmap. destruct (slots !! r) as [s|]; [|done]. intros [= <-]. by exists s. Qed.

Lemma begin_gathering : slots <> [] -> spmd_inv (begin slots) 0.
Proof.
  intros Hne. assert (Hs : sum_list_with has_exited (begin slots).(localities) = 0%nat) by (cbn [begin localities]; clear; induction slots as [|s l IH]; [done|exact IH]).
  left. exists 0%nat. split; [split|unfold gone; by rewrite Hs]; try done.
  - apply length_map.
  - intros r x Hx. apply begin_local in Hx as (s & Hs' & ->). split; [done|]. split; [done|]. by exists s.
  - cbn [begin spmdCount_]. destruct slots; [done|simpl; lia].
Qed.

Lemma erun_inv spmd (P : world -> nat -> Prop) : (forall w k a w', P w k -> estep spmd w a = Some w' -> P w' (S k)) ->
  forall l w k w', P w k -> erun spmd w l = Some w' -> P w' (k + length l)%nat.
Proof.
  intros Hstep l. induction l as [|a l IH]; intros w k w' I E; cbn [erun] in E.
  - injection E as <-. simpl. by rewrite Nat.add_0_r.
  - destruct (estep spmd w a) as [w1|] eqn:E1; [|done]. cbn [mbind option_bind] in E. simpl. rewrite <- Nat.add_succ_comm. apply (IH w1); [by eapply Hstep|done].
Qed.

Lemma gathering_progress w n : gathering w n -> (forall y, y ∈ w.(localities) -> y.(exited) <> None) -> exists a w', internal a /\ estep true w a = Some w'.
Proof.
  intros [G1 G2 G3 G4 G5 G6] Hall. assert (Hs : sum_list_with has_exited (localities w) = length (localities w)).
  { clear -Hall. induction (localities w) as [|x l IH]; [done|]. simpl. rewrite IH by (intros y Hy; apply Hall; by apply elem_of_cons; right).
    specialize (Hall x ltac:(by apply elem_of_cons; left)). unfold has_exited. by destruct (exited x). }
  destruct (localities w) as [|x l] eqn:Hl; [simpl in *; lia|]. exists (Deliver 0). destruct n as [|n]; [lia|]. cbn [estep]. rewrite G4. simpl. rewrite Hl. simpl.
  destruct (G2 0%nat x eq_refl) as (-> & _). by eexists.
Qed.

(** C14: an epoch of the same program everywhere ends as one: a locality returns only when every
    one has called exit, with its own output in its slot if it has both; at most [5 n - 1]
    steps are made by [n] localities, while fewer were made and all have exited one is
    possible, and after as many every locality has returned, without a parcel on its way, a
    thread waiting or a count of exits left for the next epoch. *)
Theorem spmd_epoch l w : slots <> [] -> erun true (begin slots) l = Some w ->
  (forall i x v, w.(localities) !! i = Some x -> x.(returned) = Some v ->
     (forall y, y ∈ w.(localities) -> y.(exited) <> None) /\ exists s o, slots !! i = Some s /\ x.(exited) = Some o /\ v = final s o)
  /\ (length l + 1 <= 5 * length slots)%nat
  /\ ((length l + 1 = 5 * length slots)%nat -> w.(net) = [] /\ w.(waiting) = None /\ w.(spmdCount_) = 0%nat /\ forall x, x ∈ w.(localities) -> x.(returned) <> None)
  /\ ((length l + 1 < 5 * length slots)%nat -> (forall y, y ∈ w.(localities) -> y.(exited) <> None) -> exists a w', internal a /\ estep true w a = Some w').
Proof.
  intros Hne E. destruct (erun_inv true spmd_inv spmd_step l _ 0 w (begin_gathering Hne) E) as [(n & G & Hk)|(base & S & R & HS & [HB1 HB2] & Hk)]; simpl in Hk.
  - pose proof (sum_exited_le (localities w)) as Hle. pose proof (g_length _ _ G) as Hl. pose proof (g_partial _ _ G) as Hc. unfold gone in Hk.
    split; [|split; [lia|split; [lia|intros _; by eapply gathering_progress]]]. intros i x v Hx Hv. destruct (g_local _ _ G i x Hx) as (_ & ? & _). congruence.
  - assert (Hex : forall i b, base !! i = Some b -> exited b <> None) by (intros i b Hb; destruct (HB2 i b Hb) as (? & ? & _ & -> & _); done).
    split; [|split; [lia|split; [intros Hd; apply (stopping_end _ _ _ _ _ _ HS); lia|intros Hd _; apply (stopping_progress true _ _ _ Hex _ _ _ HS); lia]]].
    intros i x v Hx Hv. split.
    + intros y Hy. apply list_elem_of_lookup in Hy as [j Hy]. destruct (s_local _ _ _ _ _ _ HS j y Hy) as (b & Hb & -> & _). by eapply Hex.
    + destruct (stopping_returned _ _ _ _ _ _ _ _ _ HS Hx Hv) as (b & Hb & -> & ->). destruct (HB2 i b Hb) as (s & o & Hs & He & ->). by exists s, o.
Qed.

(** ** One program *)

Definition diffuse_inv w (k : nat) : Prop :=
  w = begin slots /\ k = 0%nat \/
  exists r s o S R, slots !! r = Some s /\ stopping (<[r := mkLocality true (Some o) s None]> (begin slots).(localities)) r o w S R /\ (k + cost w S R + 1 = 4 * length slots)%nat.

Lemma insert_begin r s o i b : slots !! r = Some s -> <[r := mkLocality true (Some o) s None]> (begin slots).(localities) !! i = Some b ->
  slots !! i = Some b.(output_) /\ b.(run) = true /\ b.(returned) = None /\ b.(exited) = (if decide (i = r) then Some o else None).
Proof.
  intros Hs. revert i b. apply insert_locality; [|rewrite decide_True by done; done].
  intros j b Hne Hb. apply begin_local in Hb as (t & Ht & ->). by rewrite decide_False.
Qed.

Lemma begin_exit r o w : estep false (begin slots) (Exit r o) = Some w -> diffuse_inv w 1.
Proof.
  intros E. cbn [estep] in E. destruct (localities (begin slots) !! r) as [x|] eqn:Hx; [|done]. cbn [mbind option_bind] in E. apply begin_local in Hx as (s & Hs & ->).
  cbn [run] in E. destruct (forallb _ _); [|done]. injection E as <-. right. assert (Hl : length (localities (begin slots)) = length slots) by apply length_map.
  set (base := <[r := mkLocality true (Some o) s None]> (localities (begin slots))). assert (Hb : length base = length slots) by (unfold base; by rewrite length_insert).
  pose proof (lookup_lt_Some _ _ _ Hs) as Hr. exists r, s, o, (others (begin slots) r), []. split; [done|].
  destruct (stopping_start base r o (others (begin slots) r) [] (map (fun i => SetOutput i o) (others (begin slots) r))) as [HS HC].
  - intros i b Hi. destruct (insert_begin r s o i b Hs Hi) as (_ & ? & ? & _). done.
  - by rewrite Hb.
  - rewrite app_nil_r, Hb. unfold others, ranks. by rewrite Hl.
  - by left.
  - by rewrite app_nil_r.
  - unfold exitDiffuse, ranks. rewrite Hl, <- Hb. split; [exact HS|]. pose proof (others_length (begin slots) r) as Ho. unfold ranks in Ho. rewrite Hl in Ho. specialize (Ho Hr).
    rewrite Ho, Hb in HC. cbn [begin net app]. unfold exits in *. cbn [run output_ returned] in *. fold base. rewrite Hb in *. change (spmdCount_ (begin slots)) with 0%nat. lia.
Qed.

Lemma diffuse_step w k a w' : diffuse_inv w k -> estep false w a = Some w' -> diffuse_inv w' (S k).
Proof.
  intros [[-> ->]|(r & s & o & S & R & Hs & HS & Hk)] E.
  - destruct a as [r o|j| | |r]; try done; [by eapply begin_exit|]. cbn [estep] in E. destruct (localities (begin slots) !! r) as [x|] eqn:Hx; [|done].
    by apply begin_local in Hx as (s & _ & ->).
  - right. exists r, s, o. edestruct (stopping_step false) as (S' & R' & HS' & HC); [|exact HS|exact E|].
    { exists r, (mkLocality true (Some o) s None). split; [|done]. rewrite list_lookup_insert_eq; [done|]. cbn [begin localities]. rewrite length_map. by eapply lookup_lt_Some. }
    exists S', R'. split; [done|]. split; [done|]. lia.
Qed.

(** An epoch with one program ends everywhere when it calls exit: there is one exit, a
    locality returns only after it and with its output in its slot if there is both; at most
    [4 n - 1] steps are made by [n] localities, after the exit one is possible until as many
    were made, and then every locality has returned, without a parcel on its way or a thread
    waiting. *)
Theorem diffuse_epoch l w : slots <> [] -> erun false (begin slots) l = Some w ->
  (forall i x v, w.(localities) !! i = Some x -> x.(returned) = Some v ->
     exists r y s o, w.(localities) !! r = Some y /\ y.(exited) = Some o /\ slots !! i = Some s /\ v = final s o)
  /\ (forall i j x y, w.(localities) !! i = Some x -> w.(localities) !! j = Some y -> x.(exited) <> None -> y.(exited) <> None -> i = j)
  /\ (length l + 1 <= 4 * length slots)%nat
  /\ ((length l + 1 = 4 * length slots)%nat -> w.(net) = [] /\ w.(waiting) = None /\ forall x, x ∈ w.(localities) -> x.(returned) <> None)
  /\ ((length l + 1 < 4 * length slots)%nat -> l <> [] -> exists a w', internal a /\ estep false w a = Some w').
Proof.
  intros Hne E. destruct (erun_inv false diffuse_inv diffuse_step l _ 0 w (or_introl (conj eq_refl eq_refl)) E) as [[-> Hk]|(r & s & o & S & R & Hs & HS & Hk)]; simpl in Hk.
  - assert (0 < length slots)%nat by (destruct slots; [done|simpl; lia]). destruct l; [|done]. simpl. split; [|split; [|split; [lia|split; [lia|done]]]].
    + intros i x v Hx Hv. by apply begin_local in Hx as (s & _ & ->).
    + intros i j x y Hx _ Hex. by apply begin_local in Hx as (s & _ & ->).
  - pose proof (s_local _ _ _ _ _ _ HS) as Hlocal. split; [|split; [|split; [lia|split]]].
    + intros i x v Hx Hv. destruct (stopping_returned _ _ _ _ _ _ _ _ _ HS Hx Hv) as (b & Hb & _ & ->). destruct (insert_begin _ _ _ _ _ Hs Hb) as (Hi & _).
      assert (Hr : (r < length (localities w))%nat) by (rewrite (s_length _ _ _ _ _ _ HS), length_insert; cbn [begin localities]; rewrite length_map; by eapply lookup_lt_Some).
      apply lookup_lt_is_Some in Hr as [y Hy]. destruct (Hlocal r y Hy) as (c & Hc & He & _). destruct (insert_begin _ _ _ _ _ Hs Hc) as (_ & _ & _ & Hce).
      rewrite decide_True in Hce by done. exists r, y, (output_ b), o. rewrite He. done.
    + assert (Hone : forall i x, localities w !! i = Some x -> exited x <> None -> i = r).
      { intros i x Hx Hex. destruct (Hlocal i x Hx) as (c & Hc & He & _). destruct (insert_begin _ _ _ _ _ Hs Hc) as (_ & _ & _ & Hce). rewrite He, Hce in Hex. by case_decide. }
      intros i j x y Hx Hy H1 H2. rewrite (Hone i x Hx H1). symmetry. by apply (Hone j y).
    + intros Hd. destruct (stopping_end _ _ _ _ _ _ HS) as (? & ? & _ & ?); [lia|done].
    + intros Hd _. eapply (stopping_progress false); [|exact HS|lia].
      exists r, (mkLocality true (Some o) s None). split; [|done]. rewrite list_lookup_insert_eq; [done|]. cbn [begin localities]. rewrite length_map. by eapply lookup_lt_Some.
Qed.
End Epoch.
End Exit.

(** ** Two localities *)

Definition two_slots : list (option (option Z)) := [Some None; Some None].
Definition spmd_labels : list (@label Z) := [Exit 1 (Some 5); Exit 0 (Some 7); Deliver 0; Deliver 0; Sync; Proceed; Return 0; Deliver 0; Return 1].
Definition spmd_end : world := default (begin two_slots) (erun true (begin two_slots) spmd_labels).
Definition diffuse_labels : list (@label Z) := [Exit 0 (Some 5); Deliver 0; Sync; Proceed; Deliver 0; Return 1; Return 0].
Definition diffuse_end : world := default (begin two_slots) (erun false (begin two_slots) diffuse_labels).

Lemma spmd_runs : erun true (begin two_slots) spmd_labels = Some spmd_end.
Proof. vm_compute. reflexivity. Qed.

Lemma diffuse_runs : erun false (begin two_slots) diffuse_labels = Some diffuse_end.
Proof. vm_compute. reflexivity. Qed.

Lemma two_slots_some : two_slots <> [].
Proof. done. Qed.

Lemma spmd_epoch_witness : map returned spmd_end.(localities) = [Some (Some (Some 7)); Some (Some (Some 5))] /\ spmd_end.(net) = [] /\ spmd_end.(spmdCount_) = 0%nat.
Proof.
  split; [vm_compute; reflexivity|]. destruct (spmd_epoch two_slots spmd_labels spmd_end two_slots_some spmd_runs) as (_ & _ & H & _).
  destruct (H eq_refl) as (H1 & _ & H2 & _). exact (conj H1 H2).
Defined.

Lemma diffuse_epoch_witness : map returned diffuse_end.(localities) = [Some (Some (Some 5)); Some (Some (Some 5))] /\ diffuse_end.(net) = [] /\ diffuse_end.(waiting) = None.
Proof.
  split; [vm_compute; reflexivity|]. destruct (diffuse_epoch two_slots diffuse_labels diffuse_end two_slots_some diffuse_runs) as (_ & _ & _ & H & _).
  destruct (H eq_refl) as (H1 & H2 & _). exact (conj H1 H2).
Defined.
