(* ===== verification/Guppie.v ===== *)
(** * The random access benchmark: [examples/guppie.c]

    A table is updated at the places that a random sequence names.  The sequence is that of a
    shift register, and every lane of every locality starts at its own place in it, which
    [startr] finds without making the steps before.  The table's entries are read with [memget]
    and written with [memput], here lookups and insertions of a list. *)

From S2P Require Import Prelude Math.

Definition POLY : Z := 7.
Definition PERIOD : Z := 1317624576693539401.

(** A step of the random sequence: [(temp << 1) ^ ((long) temp < 0 ? POLY : 0)]. *)
Definition advance (temp : Z) : Z := Z.lxor (u64 (Z.shiftl temp 1)) (if i64 temp <? 0 then POLY else 0).

(** ** Starting at the nth number *)

(** The two loops that bring [n] into the period; eight rounds are enough for 64 bits. *)
Fixpoint raise_ (fuel : nat) (n : Z) : option Z :=
  match fuel with
  | O => None
  | S fuel => if n <? 0 then raise_ fuel (n + PERIOD) else Some n
  end.

Fixpoint lower (fuel : nat) (n : Z) : option Z :=
  match fuel with
  | O => None
  | S fuel => if n >? PERIOD then lower fuel (n - PERIOD) else Some n
  end.

(** [m2]: the numbers at the even places. *)
Fixpoint squares (k : nat) (temp : Z) : list Z :=
  match k with O => [] | S k => temp :: squares k (advance (advance temp)) end.

(** The first bit of [n] that is set, from [i] downwards, or -1. *)
Fixpoint top_bit (i : nat) (n : Z) : Z :=
  if nz (Z.land (Z.shiftr n (Z.of_nat i)) 1) then Z.of_nat i
  else match i with O => -1 | S i => top_bit i n end.

(** The loop over [j] that combines the entries of [m2]. *)
Definition combine (m2 : list Z) (ran : Z) : Z :=
  foldl (fun temp j => if nz (Z.land (Z.shiftr ran (Z.of_nat j)) 1) then Z.lxor temp (m2 !!! j) else temp) 0 (seq 0 64).

(** The loop over the lower bits of [n]. *)
Fixpoint powers (m2 : list Z) (i : nat) (n ran : Z) : Z :=
  match i with
  | O => ran
  | S i =>
    let ran := combine m2 ran in
    powers m2 i n (if nz (Z.land (Z.shiftr n (Z.of_nat i)) 1) then advance ran else ran)
  end.

Definition startr (n : Z) : option Z :=
  n ← raise_ 9 n;
  n ← lower 9 n;
  if n =? 0 then Some 1
  else Some (powers (squares 64 1) (Z.to_nat (top_bit 62 n)) n 2).

(** ** The table *)

(** The share of a locality: its first and last update and their number. *)
Definition Block (mype npes totalsize : Z) : Z * Z * Z :=
  let div := Z.quot totalsize npes in
  let rem := Z.rem totalsize npes in
  if mype <? rem then (mype * (div + 1), mype * (div + 1) + div, div + 1)
  else (mype * div + rem, mype * div + rem + div - 1, div).

Definition VLEN : nat := 32.

(** The entry that a number updates, in a table of [tabsize] entries. *)
Definition slot (tabsize v : Z) : nat := Z.to_nat (Z.land v (tabsize - 1)).

(** The entries that a locality initializes: each is set to its index. *)
Definition init_indices (me nranks tabsize : Z) : list Z :=
  let blocks := Z.quot tabsize nranks + (if me <? Z.rem tabsize nranks then 1 else 0) in
  map (fun b => me + Z.of_nat b * nranks) (seq 0 (Z.to_nat blocks)).

Definition init_table (me nranks tabsize : Z) (t : list Z) : list Z :=
  foldl (fun t i => <[Z.to_nat i := i]> t) t (init_indices me nranks tabsize).

(** The random numbers of the lanes, row by row. *)
Fixpoint rows (i : nat) (ran : list Z) : list (list Z) :=
  match i with O => [] | S i => let ran := map advance ran in ran :: rows i ran end.

(** A row of updates: all entries are read, then all are written; the writes arrive in the
    order of the lanes [order]. *)
Definition update_row (tabsize : Z) (t : list Z) (ran : list Z) (order : list nat) : list Z :=
  let t1 := map (fun v => Z.lxor (t !!! slot tabsize v) v) ran in
  foldl (fun t j => <[slot tabsize (ran !!! j) := t1 !!! j]> t) t order.

Definition update_rows (me nranks nupdate : Z) : option (list (list Z)) :=
  let '(start, _, size) := Block me nranks nupdate in
  ran ← mapM (fun j => startr (start + Z.of_nat j * Z.quot size (Z.of_nat VLEN))) (seq 0 VLEN);
  Some (rows (Z.to_nat (Z.quot size (Z.of_nat VLEN))) ran).

Definition update_table (me nranks nupdate tabsize : Z) (orders : list (list nat)) (t : list Z) : option (list Z) :=
  rs ← update_rows me nranks nupdate;
  Some (foldl (fun t x => update_row tabsize t x.1 x.2) t (zip rs orders)).

(** The verification: every number is combined into its entry again, and the entries that then
    differ from their index are counted. *)
Definition bitwiseor (tabsize : Z) (t : list Z) (value : Z) : list Z :=
  <[slot tabsize value := Z.lxor value (t !!! slot tabsize value)]> t.

Fixpoint verify_loop (n : nat) (tabsize temp : Z) (t : list Z) : list Z :=
  match n with
  | O => t
  | S n => let temp := advance temp in verify_loop n tabsize temp (bitwiseor tabsize t temp)
  end.

Definition errors (tabsize : Z) (t : list Z) : nat :=
  length (List.filter (fun i => negb (t !!! i =? Z.of_nat i)) (seq 0 (Z.to_nat tabsize))).

(** ** Linear maps on words *)

(** The reference: [k] steps from 1. *)
Definition ran_at (k : nat) : Z := Nat.iter k advance 1.

Definition linear (f : Z -> Z) : Prop := forall a b, a ∈u 64 -> b ∈u 64 -> f (Z.lxor a b) = Z.lxor (f a) (f b).

Lemma lxor_fits a b : a ∈u 64 -> b ∈u 64 -> Z.lxor a b ∈u 64.
Proof.
  intros Ha Hb. assert (0 <= Z.lxor a b) by (apply Z.lxor_nonneg; lia). apply bits_bound; [lia|done|].
  intros i Hi. rewrite Z.lxor_spec, !(testbit_high 64) by lia. done.
Qed.

Lemma linear_zero f : linear f -> f 0 = 0.
Proof. intros L. pose proof (L 0 0 ltac:(lia) ltac:(lia)) as H. by rewrite !Z.lxor_nilpotent in H. Qed.

(** Linear maps that agree on the single bits agree. *)
Lemma linear_ext f g : linear f -> linear g -> forallb (fun j => f (2 ^ Z.of_nat j) =? g (2 ^ Z.of_nat j)) (seq 0 64) = true -> forall a, a ∈u 64 -> f a = g a.
Proof.
  intros F G H. assert (Hw : forall w, (w <= 64)%nat -> forall a, a ∈u (Z.of_nat w) -> f a = g a); [|intros a Ha; by apply (Hw 64%nat)].
  induction w as [|w IH]; intros Hw a Ha.
  - replace a with 0 by lia. by rewrite !linear_zero.
  - assert (Hp : 2 ^ Z.of_nat (S w) = 2 * 2 ^ Z.of_nat w) by (rewrite Nat2Z.inj_succ, Z.pow_succ_r by lia; done). assert (Hp64 : 2 * 2 ^ Z.of_nat w <= 2 ^ 64) by (rewrite <- Hp; apply Z.pow_le_mono_r; lia).
    destruct (Z.lt_ge_cases a (2 ^ Z.of_nat w)) as [|Hge]; [apply IH; lia|].
    assert (E : a = Z.lxor (2 ^ Z.of_nat w) (a - 2 ^ Z.of_nat w)).
    { rewrite <- Z.add_nocarry_lxor by (rewrite Z.land_comm; apply Z.bits_inj'; intros i Hi; rewrite Z.land_spec, Z.bits_0; destruct (Z.eq_dec i (Z.of_nat w)) as [->|Hne];
        [rewrite (testbit_high (Z.of_nat w)) by lia; done|rewrite Z.pow2_bits_false, andb_false_r by lia; done]). lia. }
    rewrite E, F, G by lia. f_equal; [|apply IH; lia]. rewrite forallb_forall in H. specialize (H w). rewrite in_seq in H. apply Z.eqb_eq. apply H. lia.
Qed.

Lemma advance_fits a : a ∈u 64 -> advance a ∈u 64.
Proof. intros Ha. unfold advance. apply lxor_fits; [by apply wrap_range|]. unfold POLY. destruct (_ <? _); lia. Qed.

Lemma advance_linear : linear advance.
Proof.
  intros a b Ha Hb. unfold advance.
  assert (Hs : forall x, x ∈u 64 -> (i64 x <? 0) = Z.testbit x 63).
  { intros x Hx. rewrite Z.testbit_eqb by lia. unfold swrap. change (64 - 1) with 63. destruct (Z.lt_ge_cases x (2 ^ 63)).
    - rewrite (Z.mod_small (x + 2 ^ 63)) by lia. rewrite (Z.div_small x) by lia. zcases; try done; exfalso; lia.
    - replace (x + 2 ^ 63) with ((x - 2 ^ 63) + 1 * 2 ^ 64) by lia. rewrite Z_mod_plus_full, Z.mod_small by lia. replace x with ((x - 2 ^ 63) + 1 * 2 ^ 63) at 2 by lia. rewrite Z.div_add, Z.div_small by lia. zcases; try done; exfalso; lia. }
  rewrite !Hs by (done || by apply lxor_fits). rewrite Z.lxor_spec. apply Z.bits_inj'. intros i Hi. rewrite !Z.lxor_spec, !testbit_wrap, !Z.shiftl_spec, Z.lxor_spec by lia.
  destruct (Z.testbit a 63), (Z.testbit b 63); simpl; rewrite ?Z.bits_0; destruct (i <? 64); simpl; btauto.
Qed.

Lemma ran_at_fits k : ran_at k ∈u 64.
Proof. induction k as [|k IH]; [done|]. by apply advance_fits. Qed.

Lemma iter_linear k f : linear f -> (forall a, a ∈u 64 -> f a ∈u 64) -> linear (Nat.iter k f) /\ forall a, a ∈u 64 -> Nat.iter k f a ∈u 64.
Proof.
  intros L R. induction k as [|k [IH1 IH2]]; [done|]. split; [|intros a Ha; by apply R, IH2]. intros a b Ha Hb. simpl. rewrite IH1 by done. apply L; by apply IH2.
Qed.

(** ** Squaring *)

Lemma bit_eq x (j : nat) : nz (Z.land (Z.shiftr x (Z.of_nat j)) 1) = Z.testbit x (Z.of_nat j).
Proof.
  unfold nz. change 1 with (Z.ones 1). rewrite Z.land_ones by lia. rewrite Z.testbit_eqb, Z.shiftr_div_pow2 by lia. change (2 ^ 1) with 2.
  pose proof (Z.mod_pos_bound (x / 2 ^ Z.of_nat j) 2 ltac:(lia)). zcases; try done; exfalso; lia.
Qed.

Definition even_powers : list Z := squares 64 1.

Lemma combine_linear m2 : linear (combine m2).
Proof.
  intros a b _ _. unfold combine. change 0 with (Z.lxor 0 0) at 1. generalize 0 at 1 3 as s. generalize 0 as t. induction (seq 0 64) as [|j l IH]; intros t s; [done|]. cbn [foldl].
  rewrite !bit_eq, Z.lxor_spec. rewrite <- IH. f_equal. apply Z.bits_inj'. intros i _. destruct (Z.testbit a (Z.of_nat j)), (Z.testbit b (Z.of_nat j)); simpl; rewrite !Z.lxor_spec; btauto.
Qed.

Lemma combine_fits m2 a : (forall j, m2 !!! j ∈u 64) -> combine m2 a ∈u 64.
Proof.
  intros Hm. unfold combine. assert (H : forall l s, s ∈u 64 -> foldl (fun temp j => if nz (Z.land (Z.shiftr a (Z.of_nat j)) 1) then Z.lxor temp (m2 !!! j) else temp) s l ∈u 64); [|by apply H].
  induction l as [|j l IH]; intros s Hs; [done|]. apply IH. destruct (nz _); [|done]. by apply lxor_fits.
Qed.

Lemma squares_fit k : forall a j, a ∈u 64 -> squares k a !!! j ∈u 64.
Proof. induction k as [|k IH]; intros a [|j] Ha; try done. apply IH. by apply advance_fits, advance_fits. Qed.

(** Squaring a number of the sequence doubles its place. *)
Lemma combine_ran_at k : combine even_powers (ran_at k) = ran_at (2 * k).
Proof.
  assert (Hs : forall a, a ∈u 64 -> combine even_powers (advance a) = advance (advance (combine even_powers a))).
  { assert (Hf : forall a, combine even_powers a ∈u 64) by (intros a; apply combine_fits; intros j; by apply squares_fit).
    apply (linear_ext (fun a => combine even_powers (advance a)) (fun a => advance (advance (combine even_powers a)))); [| |by vm_compute].
    - intros a b Ha Hb. rewrite advance_linear by done. apply combine_linear; by apply advance_fits.
    - intros a b Ha Hb. rewrite combine_linear by done. rewrite advance_linear by done. apply advance_linear; by apply advance_fits. }
  induction k as [|k IH]; [by vm_compute|]. change (ran_at (S k)) with (advance (ran_at k)). rewrite Hs by apply ran_at_fits. rewrite IH. replace (2 * S k)%nat with (S (S (2 * k))) by lia. done.
Qed.

Lemma powers_spec i n : 0 <= n -> forall ran, ran = ran_at (Z.to_nat (Z.shiftr n (Z.of_nat i))) -> powers even_powers i n ran = ran_at (Z.to_nat n).
Proof.
  intros Hn. induction i as [|i IH]; intros ran ->; [by rewrite Z.shiftr_0_r|]. cbn [powers]. apply IH. rewrite combine_ran_at, bit_eq.
  assert (E : Z.shiftr n (Z.of_nat i) = 2 * Z.shiftr n (Z.of_nat (S i)) + Z.b2z (Z.testbit n (Z.of_nat i))).
  { rewrite Nat2Z.inj_succ, <- Z.add_1_r, <- Z.shiftr_shiftr by lia. rewrite (Z.shiftr_div_pow2 _ 1) by lia. change (2 ^ 1) with 2. rewrite Z.testbit_spec' by lia. rewrite <- Z.shiftr_div_pow2 by lia. apply Z.div_mod. lia. }
  assert (0 <= Z.shiftr n (Z.of_nat (S i))) by (by apply Z.shiftr_nonneg). rewrite E. destruct (Z.testbit n (Z.of_nat i)); simpl Z.b2z.
  - replace (Z.to_nat (2 * Z.shiftr n (Z.of_nat (S i)) + 1)) with (S (2 * Z.to_nat (Z.shiftr n (Z.of_nat (S i))))) by lia. done.
  - f_equal. lia.
Qed.

Lemma top_bit_spec i n : 0 < n < 2 ^ Z.of_nat (S i) -> exists t : nat, top_bit i n = Z.of_nat t /\ Z.shiftr n (Z.of_nat t) = 1.
Proof.
  induction i as [|i IH]; intros Hn; cbn [top_bit]; rewrite bit_eq.
  - replace n with 1 by lia. by exists 0%nat.
  - destruct (Z.testbit n (Z.of_nat (S i))) eqn:E.
    + exists (S i). split; [done|]. rewrite Z.shiftr_div_pow2 by lia. assert (2 ^ Z.of_nat (S (S i)) = 2 * 2 ^ Z.of_nat (S i)) by (rewrite (Nat2Z.inj_succ (S i)), Z.pow_succ_r by lia; done).
      rewrite Z.testbit_eqb in E by lia. apply Z.eqb_eq in E. assert (n / 2 ^ Z.of_nat (S i) < 2) by (apply Z.div_lt_upper_bound; lia). assert (0 <= n / 2 ^ Z.of_nat (S i)) by (apply Z.div_pos; lia).
      destruct (Z.eq_dec (n / 2 ^ Z.of_nat (S i)) 0) as [Ez|]; [by rewrite Ez in E|lia].
    + apply IH. split; [lia|]. destruct (Z.lt_ge_cases n (2 ^ Z.of_nat (S i))) as [|Hge]; [done|]. exfalso.
      assert (Hb : Z.testbit n (Z.of_nat (S i)) = true); [|congruence]. rewrite Z.testbit_eqb by lia. assert (Hd : n / 2 ^ Z.of_nat (S i) = 1); [|by rewrite Hd].
      symmetry. apply Z.div_unique with (n - 2 ^ Z.of_nat (S i)); [|lia]. assert (2 ^ Z.of_nat (S (S i)) = 2 * 2 ^ Z.of_nat (S i)) by (rewrite (Nat2Z.inj_succ (S i)), Z.pow_succ_r by lia; done). lia.
Qed.

(** Within the period. *)
Definition start_at (n : Z) : option Z := if n =? 0 then Some 1 else Some (powers even_powers (Z.to_nat (top_bit 62 n)) n 2).

Lemma start_at_spec n : 0 <= n <= PERIOD -> start_at n = Some (ran_at (Z.to_nat n)).
Proof.
  intros Hn. assert (HP : PERIOD < 2 ^ 63) by done. unfold start_at. destruct (Z.eqb_spec n 0) as [->|]; [done|]. f_equal.
  destruct (top_bit_spec 62 n ltac:(change (Z.of_nat 63) with 63; lia)) as (t & -> & Ht). rewrite Nat2Z.id. apply powers_spec; [lia|]. rewrite Ht. done.
Qed.

(** The sequence comes back to 1: by computing the number at the place [PERIOD]. *)
Lemma ran_at_period : ran_at (Z.to_nat PERIOD) = 1.
Proof.
  assert (E : start_at PERIOD = Some 1) by (by vm_compute). assert (Hi : forall r : Z, Some 1 = Some r -> r = 1) by (by intros r [= <-]).
  apply Hi. rewrite <- E. apply start_at_spec. unfold PERIOD. lia.
Qed.

Lemma ran_at_add k j : ran_at (k + j) = Nat.iter k advance (ran_at j).
Proof. unfold ran_at. by rewrite Nat.iter_add. Qed.

Lemma ran_at_cycle n q : 0 <= n -> 0 <= q -> ran_at (Z.to_nat (n + q * PERIOD)) = ran_at (Z.to_nat n).
Proof.
  intros Hn Hq. pattern q. apply natlike_ind; [by rewrite Z.mul_0_l, Z.add_0_r| |done]. intros x Hx IH. replace (n + Z.succ x * PERIOD) with (n + x * PERIOD + PERIOD) by lia.
  assert (0 <= x * PERIOD) by (apply Z.mul_nonneg_nonneg; done). rewrite Z2Nat.inj_add by (done || lia). rewrite ran_at_add, ran_at_period. exact IH.
Qed.

Lemma raise_spec fuel : forall n, - (Z.of_nat fuel * PERIOD) <= n -> exists q, 0 <= q /\ raise_ (S fuel) n = Some (n + q * PERIOD) /\ 0 <= n + q * PERIOD /\ (0 <= n -> q = 0) /\ (n < 0 -> n + q * PERIOD < PERIOD).
Proof.
  induction fuel as [|fuel IH]; intros n Hn; cbn [raise_].
  - destruct (Z.ltb_spec n 0); [lia|]. exists 0. rewrite Z.mul_0_l, Z.add_0_r. split; [done|]. split; [done|]. lia.
  - destruct (Z.ltb_spec n 0).
    + destruct (IH (n + PERIOD) ltac:(lia)) as (q & Hq & E & H1 & H2 & H3). cbn [raise_] in E. rewrite E. exists (q + 1). split; [lia|]. split; [f_equal; lia|]. split; [lia|]. split; [lia|]. intros _.
      destruct (Z.lt_ge_cases (n + PERIOD) 0); [specialize (H3 ltac:(lia)); lia|rewrite (H2 ltac:(lia)) in *; lia].
    + exists 0. rewrite Z.mul_0_l, Z.add_0_r. split; [done|]. split; [done|]. lia.
Qed.

Lemma lower_spec fuel : forall n, 0 <= n <= Z.of_nat (S fuel) * PERIOD -> exists q, 0 <= q /\ lower (S fuel) n = Some (n - q * PERIOD) /\ 0 <= n - q * PERIOD <= PERIOD.
Proof.
  induction fuel as [|fuel IH]; intros n Hn; cbn [lower].
  - destruct (Z.gtb_spec n PERIOD); [lia|]. exists 0. rewrite Z.mul_0_l, Z.sub_0_r. split; [done|]. split; [done|]. lia.
  - destruct (Z.gtb_spec n PERIOD).
    + destruct (IH (n - PERIOD) ltac:(lia)) as (q & Hq & E & H1). cbn [lower] in E. rewrite E. exists (q + 1). split; [lia|]. split; [f_equal; lia|lia].
    + exists 0. rewrite Z.mul_0_l, Z.sub_0_r. split; [done|]. split; [done|]. lia.
Qed.

Lemma ran_at_mod n : 0 <= n -> ran_at (Z.to_nat (n mod PERIOD)) = ran_at (Z.to_nat n).
Proof.
  intros Hn. assert (HP : 0 < PERIOD) by (unfold PERIOD; lia). rewrite (Z.div_mod n PERIOD) at 2 by lia. rewrite Z.add_comm, Z.mul_comm. symmetry. apply ran_at_cycle; [by apply Z.mod_pos_bound|by apply Z.div_pos].
Qed.

Lemma startr_eq n : n ∈s 64 -> startr n = Some (ran_at (Z.to_nat (n mod PERIOD))).
Proof.
  intros Hn. assert (HP : 0 < PERIOD) by (unfold PERIOD; lia). assert (HP8 : 2 ^ 63 <= 8 * PERIOD) by (unfold PERIOD; lia). unfold startr.
  destruct (raise_spec 8 n ltac:(simpl; lia)) as (q1 & Hq1 & -> & H1 & H2 & H3). cbn [mbind option_bind].
  destruct (lower_spec 8 (n + q1 * PERIOD)) as (q2 & Hq2 & -> & H4); [destruct (Z.lt_ge_cases n 0) as [Hlt|Hge]; [specialize (H3 Hlt); lia|rewrite (H2 Hge) in *; lia]|]. cbn [mbind option_bind].
  set (m := n + q1 * PERIOD - q2 * PERIOD) in *. change (start_at m = Some (ran_at (Z.to_nat (n mod PERIOD)))). rewrite start_at_spec by done. f_equal.
  replace (n mod PERIOD) with (m mod PERIOD); [symmetry; apply ran_at_mod; lia|]. unfold m. replace (n + q1 * PERIOD - q2 * PERIOD) with (n + (q1 - q2) * PERIOD) by lia. apply Z_mod_plus_full.
Qed.

(** C34: jumping ahead in the random sequence.  For every 64-bit [n], negative ones included, [startr]
    ends, with the number that as many single steps from 1 give as [n] is in the period; for
    [n] from 0 on it is the number after [n] steps. *)
Theorem startr_jumps n : n ∈s 64 -> startr n = Some (ran_at (Z.to_nat (n mod PERIOD))) /\ (0 <= n -> startr n = Some (ran_at (Z.to_nat n))).
Proof. intros Hn. split; [by apply startr_eq|]. intros Hp. by rewrite startr_eq, ran_at_mod. Qed.

(** ** The shares of the localities *)

Definition block_start (r n total : Z) : Z := (Block r n total).1.1.
Definition block_size (r n total : Z) : Z := (Block r n total).2.

Lemma block_spec r n total : 0 <= r < n -> 0 <= total ->
  block_start r n total = r * (total / n) + Z.min r (total mod n) /\ block_size r n total = total / n + (if r <? total mod n then 1 else 0).
Proof.
  intros Hr Ht. unfold block_start, block_size, Block. rewrite Z.quot_div_nonneg, Z.rem_mod_nonneg by lia. destruct (Z.ltb_spec r (total mod n)); cbn [fst snd]; lia.
Qed.

(** The share of [r] begins where that of the one before ends, and the last ends with the total. *)
Lemma block_next r n total : 0 <= r < n -> 0 <= total -> 0 <= block_size r n total /\
  block_start r n total + block_size r n total = if r + 1 <? n then block_start (r + 1) n total else total.
Proof.
  intros Hr Ht. destruct (block_spec r n total Hr Ht) as [E1 E2]. pose proof (Z.div_mod total n ltac:(lia)) as Hd. pose proof (Z.mod_pos_bound total n ltac:(lia)). assert (0 <= total / n) by (apply Z.div_pos; lia).
  rewrite E1, E2. split; [zcases; lia|]. destruct (Z.ltb_spec (r + 1) n).
  - destruct (block_spec (r + 1) n total ltac:(lia) Ht) as [-> _]. zcases; lia.
  - assert (n = r + 1) by lia. subst n. zcases; lia.
Qed.

Definition ranks (n : nat) : list Z := map Z.of_nat (seq 0 n).

(** The shares, one after the other, are all numbers of steps. *)
Lemma blocks_cover n total : (0 < n)%nat -> 0 <= total ->
  concat (map (fun r => seq (Z.to_nat (block_start r (Z.of_nat n) total)) (Z.to_nat (block_size r (Z.of_nat n) total))) (ranks n)) = seq 0 (Z.to_nat total).
Proof.
  intros Hn Ht. set (f := fun r => seq _ _).
  assert (H : forall k, (k <= n)%nat -> exists e, concat (map f (ranks k)) = seq 0 (Z.to_nat e) /\ 0 <= e /\ e = if (Z.of_nat k <? Z.of_nat n) then block_start (Z.of_nat k) (Z.of_nat n) total else total).
  { induction k as [|k IH]; intros Hk.
    - exists 0. split; [done|]. split; [done|]. change (Z.of_nat 0) with 0. destruct (Z.ltb_spec 0 (Z.of_nat n)); [|lia]. destruct (block_spec 0 (Z.of_nat n) total ltac:(lia) Ht) as [-> _].
      pose proof (Z.mod_pos_bound total (Z.of_nat n) ltac:(lia)). simpl. lia.
    - destruct (IH ltac:(lia)) as (e & E & He & Hs). destruct (Z.ltb_spec (Z.of_nat k) (Z.of_nat n)); [|lia]. destruct (block_next (Z.of_nat k) (Z.of_nat n) total ltac:(lia) Ht) as [B1 B2].
      exists (e + block_size (Z.of_nat k) (Z.of_nat n) total). replace (Z.of_nat (S k)) with (Z.of_nat k + 1) by lia. rewrite <- B2, <- Hs. split; [|split; [lia|lia]].
      unfold ranks in *. rewrite seq_S, map_app, map_app, concat_app, E. simpl. rewrite app_nil_r. unfold f. rewrite <- Hs, Z2Nat.inj_add, seq_app by lia. done. }
  destruct (H n ltac:(done)) as (e & E & _ & He). destruct (Z.ltb_spec (Z.of_nat n) (Z.of_nat n)); [lia|]. by subst e.
Qed.

(** ** Initialization *)

Lemma init_elem me n tabsize i : 0 <= me < n -> 0 <= tabsize -> i ∈ init_indices me n tabsize <-> 0 <= i < tabsize /\ i mod n = me.
Proof.
  intros Hme Ht. unfold init_indices. rewrite Z.quot_div_nonneg, Z.rem_mod_nonneg by lia. rewrite list_elem_of_fmap. pose proof (Z.div_mod tabsize n ltac:(lia)) as Hd. pose proof (Z.mod_pos_bound tabsize n ltac:(lia)).
  assert (0 <= tabsize / n) by (apply Z.div_pos; lia). split.
  - intros (b & -> & Hb). apply elem_of_seq in Hb. split; [|rewrite Z_mod_plus_full; by apply Z.mod_small].
    assert (0 <= Z.of_nat b * n) by (apply Z.mul_nonneg_nonneg; lia). set (q := tabsize / n) in *. destruct (Z.ltb_spec me (tabsize mod n)).
    + assert (Z.of_nat b * n <= q * n) by (apply Z.mul_le_mono_nonneg_r; lia). lia.
    + assert (Z.of_nat b * n <= (q - 1) * n) by (apply Z.mul_le_mono_nonneg_r; lia). lia.
  - intros [Hi Hm]. exists (Z.to_nat (i / n)). pose proof (Z.div_mod i n ltac:(lia)). assert (0 <= i / n) by (apply Z.div_pos; lia). split; [rewrite Z2Nat.id by lia; lia|]. apply elem_of_seq. split; [lia|].
    set (q := tabsize / n) in *. set (k := i / n) in *. destruct (Z.ltb_spec me (tabsize mod n)).
    + destruct (Z.lt_ge_cases k (q + 1)) as [|Hge]; [lia|]. apply (Z.mul_le_mono_nonneg_r _ _ n ltac:(lia)) in Hge. lia.
    + destruct (Z.lt_ge_cases k q) as [|Hge]; [lia|]. apply (Z.mul_le_mono_nonneg_r _ _ n ltac:(lia)) in Hge. lia.
Qed.

Lemma foldl_untouched (l : list Z) (i : nat) : ~ Exists (fun x => Z.to_nat x = i) l -> forall t : list Z, foldl (fun t i => <[Z.to_nat i := i]> t) t l !! i = t !! i.
Proof.
  intros Hn. induction l as [|x l IH]; intros t; [done|]. cbn [foldl]. rewrite IH by (intros H; apply Hn; by right). rewrite list_lookup_insert_ne; [done|]. intros E. apply Hn. by left.
Qed.

Lemma init_table_lookup me n tabsize t (i : nat) : 0 <= me < n -> Z.of_nat (length t) = tabsize -> (i < length t)%nat ->
  init_table me n tabsize t !! i = if Z.of_nat i mod n =? me then Some (Z.of_nat i) else t !! i.
Proof.
  intros Hme Ht Hi. unfold init_table. assert (He : Exists (fun x => Z.to_nat x = i) (init_indices me n tabsize) <-> Z.of_nat i mod n = me).
  { rewrite Exists_exists. split.
    - intros (x & Hx & <-). apply init_elem in Hx as [Hx Hm]; [|lia..]. by rewrite Z2Nat.id by lia.
    - intros Hm. exists (Z.of_nat i). split; [apply init_elem; lia|lia]. }
  assert (Hpos : Forall (fun x => 0 <= x) (init_indices me n tabsize)) by (apply Forall_forall; intros x Hx; apply init_elem in Hx; lia).
  destruct (Z.eqb_spec (Z.of_nat i mod n) me) as [E|E].
  - apply He in E. clear He. revert t Ht Hi. induction (init_indices me n tabsize) as [|x l IH]; intros t Ht Hi; [by inversion E|]. cbn [foldl]. inversion Hpos as [|? ? Hx Hl]; subst.
    destruct (decide (Exists (fun x => Z.to_nat x = i) l)) as [Hex|Hex]; [apply IH; [done|done|by rewrite length_insert|by rewrite length_insert]|].
    rewrite foldl_untouched by done. inversion E as [? ? Ex|]; subst; [|done]. rewrite list_lookup_insert_eq by lia. f_equal. lia.
  - apply foldl_untouched. by rewrite He.
Qed.

(** ** The numbers that are used *)

Lemma rows_spec i : forall xs, rows i (map ran_at xs) = map (fun t => map (fun x => ran_at (x + S t)) xs) (seq 0 i).
Proof.
  induction i as [|i IH]; intros xs; [done|]. cbn [rows seq map]. assert (E : map advance (map ran_at xs) = map ran_at (map S xs)) by (by rewrite !map_map). rewrite E, IH. f_equal.
  - rewrite map_map. apply map_ext. intros x. f_equal. lia.
  - rewrite <- seq_shift, map_map. apply map_ext. intros t. rewrite map_map. apply map_ext. intros x. f_equal. lia.
Qed.

Lemma transpose {A B C} (g : A -> B -> C) (xs : list A) (ts : list B) : concat (map (fun t => map (fun x => g x t) xs) ts) ≡ₚ concat (map (fun x => map (g x) ts) xs).
Proof.
  induction xs as [|x xs IH]; simpl.
  - induction ts as [|t ts IH]; [done|]. simpl. done.
  - rewrite <- IH. clear IH. induction ts as [|t ts IH]; [done|]. simpl. rewrite IH. solve_Permutation.
Qed.

Lemma lanes_concat {A} (g : nat -> A) s L v : concat (map (fun j => map (fun t => g (s + j * L + S t)%nat) (seq 0 L)) (seq 0 v)) = map g (seq (S s) (v * L)).
Proof.
  induction v as [|v IH]; [done|]. rewrite seq_S, map_app, concat_app, IH. simpl. rewrite app_nil_r. replace (L + v * L)%nat with (v * L + L)%nat by lia. rewrite seq_app, map_app. f_equal.
  replace (S s + v * L)%nat with (S (s + v * L) + 0)%nat by lia. rewrite <- (fmap_add_seq (S (s + v * L)) 0 L). rewrite <- (list_fmap_compose (Nat.add _) g). apply map_ext. intros t. simpl. f_equal. lia.
Qed.

Lemma update_rows_spec r n total : 0 <= r < n -> 0 <= total < 2 ^ 62 -> (Z.of_nat VLEN | block_size r n total) ->
  exists rs, update_rows r n total = Some rs /\ concat rs ≡ₚ map ran_at (seq (S (Z.to_nat (block_start r n total))) (Z.to_nat (block_size r n total))).
Proof.
  intros Hr Ht [L HL]. destruct (block_next r n total Hr ltac:(lia)) as [Hsz Hend]. destruct (block_spec r n total Hr ltac:(lia)) as [Hst _].
  pose proof (Z.mod_pos_bound total n ltac:(lia)). assert (Hd0 : 0 <= total / n) by (apply Z.div_pos; lia). assert (Hs0 : 0 <= block_start r n total) by (rewrite Hst; apply Z.add_nonneg_nonneg; [apply Z.mul_nonneg_nonneg|]; lia).
  assert (Hle : block_start r n total + block_size r n total <= total).
  { rewrite Hend. destruct (Z.ltb_spec (r + 1) n); [|lia]. destruct (block_spec (r + 1) n total ltac:(lia) ltac:(lia)) as [-> _]. pose proof (Z.div_mod total n ltac:(lia)).
    assert ((r + 1) * (total / n) <= n * (total / n)) by (apply Z.mul_le_mono_nonneg_r; lia). lia. }
  unfold update_rows. unfold block_start, block_size in *. destruct (Block r n total) as [[start stop] size]. cbn [fst snd] in *. subst size. change (Z.of_nat VLEN) with 32 in *. rewrite Z.quot_div_nonneg by lia. rewrite Z.div_mul by lia.
  assert (E : mapM (fun j => startr (start + Z.of_nat j * L)) (seq 0 VLEN) = Some (map (fun j => ran_at (Z.to_nat start + j * Z.to_nat L)) (seq 0 VLEN))).
  { apply mapM_Some. apply Forall2_fmap_r, Forall2_same_length_lookup. split; [done|]. intros i x y Hx Hy. rewrite Hx in Hy. injection Hy as <-. apply lookup_seq in Hx as [-> Hi]. unfold VLEN in Hi.
    assert (Z.of_nat (0 + i) * L <= 32 * L) by (apply Z.mul_le_mono_nonneg_r; lia). assert (0 <= Z.of_nat (0 + i) * L) by (apply Z.mul_nonneg_nonneg; lia).
    rewrite startr_eq by lia. rewrite ran_at_mod by lia. f_equal. f_equal. rewrite Z2Nat.inj_add, Z2Nat.inj_mul, Nat2Z.id by lia. done. }
  rewrite E. cbn [mbind option_bind]. eexists. split; [done|]. assert (Em : map (fun j => ran_at (Z.to_nat start + j * Z.to_nat L)) (seq 0 VLEN) = map ran_at (map (fun j => (Z.to_nat start + j * Z.to_nat L)%nat) (seq 0 VLEN))) by (by rewrite map_map).
  rewrite Em, rows_spec, (transpose (fun x t => ran_at (x + S t))), map_map, lanes_concat. replace (VLEN * Z.to_nat L)%nat with (Z.to_nat (L * 32)) by (unfold VLEN; lia). done.
Qed.

(** All localities together use every number of the sequence once. *)
Lemma numbers_cover n total : (0 < n)%nat -> 0 <= total < 2 ^ 62 -> (forall r, 0 <= r < Z.of_nat n -> (Z.of_nat VLEN | block_size r (Z.of_nat n) total)) ->
  exists rss, mapM (fun r => update_rows r (Z.of_nat n) total) (ranks n) = Some rss /\ concat (map (@concat Z) rss) ≡ₚ map ran_at (seq 1 (Z.to_nat total)).
Proof.
  intros Hn Ht HV. assert (Hall : forall k, (k <= n)%nat -> exists rss, mapM (fun r => update_rows r (Z.of_nat n) total) (ranks k) = Some rss
    /\ concat (map (@concat Z) rss) ≡ₚ map ran_at (map S (concat (map (fun r => seq (Z.to_nat (block_start r (Z.of_nat n) total)) (Z.to_nat (block_size r (Z.of_nat n) total))) (ranks k))))).
  { induction k as [|k IH]; intros Hk; [by exists []|]. destruct (IH ltac:(lia)) as (rss & E & P). destruct (update_rows_spec (Z.of_nat k) (Z.of_nat n) total ltac:(lia) ltac:(lia)) as (rs & Er & Pr); [apply HV; lia|].
    exists (rss ++ [rs]). unfold ranks in *. rewrite seq_S, map_app. split.
    - apply mapM_Some. apply Forall2_app; [by apply mapM_Some|]. simpl. by constructor.
    - rewrite !map_app, !concat_app, !map_app, P. simpl. rewrite !app_nil_r, Pr. apply Permutation_app_head. by rewrite seq_shift. }
  destruct (Hall n ltac:(done)) as (rss & E & P). exists rss. split; [done|]. rewrite P, blocks_cover by (done || lia). by rewrite seq_shift.
Qed.

(** ** The entries of the table *)

(** What the numbers of a list combine into an entry. *)
Definition xor_all (tabsize : Z) (i : nat) (l : list Z) : Z := foldr (fun v acc => if (slot tabsize v =? i)%nat then Z.lxor v acc else acc) 0 l.

Section Table.
Variables (k : Z).
Hypothesis k_range : 0 <= k.
Abbreviation tabsize := (2 ^ k).

Lemma slot_range v : (slot tabsize v < Z.to_nat tabsize)%nat.
Proof. unfold slot. rewrite land_pred_pow2 by lia. pose proof (Z.mod_pos_bound v tabsize ltac:(lia)). lia. Qed.

Lemma xor_all_app i l l' : xor_all tabsize i (l ++ l') = Z.lxor (xor_all tabsize i l) (xor_all tabsize i l').
Proof. induction l as [|v l IH]; [done|]. simpl. destruct (_ =? _)%nat; [|done]. by rewrite IH, Z.lxor_assoc. Qed.

Lemma xor_all_permutation i l l' : l ≡ₚ l' -> xor_all tabsize i l = xor_all tabsize i l'.
Proof.
  induction 1 as [|v l l' _ IH|v w l|l l' l'' _ IH1 _ IH2]; simpl; [done|by rewrite IH| |congruence].
  destruct (_ =? _)%nat, (_ =? _)%nat; try done. by rewrite <- !Z.lxor_assoc, (Z.lxor_comm v w).
Qed.

Lemma bitwiseor_length l : forall t, length (foldl (bitwiseor tabsize) t l) = length t.
Proof. induction l as [|v l IH]; intros t; [done|]. simpl. rewrite IH. apply length_insert. Qed.

Lemma bitwiseor_lookup i l : forall t, length t = Z.to_nat tabsize -> (i < length t)%nat -> foldl (bitwiseor tabsize) t l !!! i = Z.lxor (t !!! i) (xor_all tabsize i l).
Proof.
  induction l as [|v l IH]; intros t Ht Hi; simpl; [by rewrite Z.lxor_0_r|]. unfold bitwiseor at 2. rewrite IH by (by rewrite length_insert). pose proof (slot_range v). destruct (Nat.eqb_spec (slot tabsize v) i) as [<-|Hne].
  - rewrite list_lookup_total_insert_eq by lia. rewrite (Z.lxor_comm v), Z.lxor_assoc. done.
  - rewrite list_lookup_total_insert_ne by done. done.
Qed.

Lemma verify_loop_eq n : forall s t, verify_loop n tabsize (ran_at s) t = foldl (bitwiseor tabsize) t (map ran_at (seq (S s) n)).
Proof. induction n as [|n IH]; intros s t; [done|]. cbn [verify_loop seq map foldl]. change (advance (ran_at s)) with (ran_at (S s)). apply IH. Qed.

(** Writes to different entries, in any order. *)
Lemma writes_lookup (f : nat -> nat) (v : nat -> Z) i order : NoDup (map f order) -> forall t : list Z, (forall j, j ∈ order -> f j < length t)%nat ->
  foldl (fun t j => <[f j := v j]> t) t order !!! i = match List.find (fun j => (f j =? i)%nat) order with Some j => v j | None => t !!! i end.
Proof.
  induction order as [|j l IH]; intros Hnd t Hr; [done|]. cbn [foldl List.find map] in *. apply NoDup_cons in Hnd as [Hj Hnd]. rewrite IH by (done || (intros x Hx; rewrite length_insert; apply Hr; by right)).
  assert (Hjt : (f j < length t)%nat) by (apply Hr; by left). destruct (Nat.eqb_spec (f j) i) as [<-|Hne].
  - destruct (List.find _ l) as [x|] eqn:Ef; [|by rewrite list_lookup_total_insert_eq]. apply find_some in Ef as [Hx Ex]. apply Nat.eqb_eq in Ex. destruct Hj. rewrite <- Ex. by apply list_elem_of_fmap_2, list_elem_of_In.
  - destruct (List.find _ l); [done|]. by rewrite list_lookup_total_insert_ne.
Qed.

Lemma xor_all_one i ran j v : NoDup (map (slot tabsize) ran) -> ran !! j = Some v -> slot tabsize v = i -> xor_all tabsize i ran = v.
Proof.
  intros Hnd Hj <-. apply list_elem_of_lookup_2 in Hj. apply elem_of_Permutation in Hj as [l Hl]. rewrite (xor_all_permutation _ _ _ Hl). rewrite Hl in Hnd. apply NoDup_cons in Hnd as [Hn _]. simpl. rewrite Nat.eqb_refl.
  assert (Hz : xor_all tabsize (slot tabsize v) l = 0); [|by rewrite Hz, Z.lxor_0_r]. clear Hl. induction l as [|w l IH]; [done|]. simpl in *. apply not_elem_of_cons in Hn as [H1 H2]. destruct (Nat.eqb_spec (slot tabsize w) (slot tabsize v)); [congruence|by apply IH].
Qed.

Lemma xor_all_none i ran : (forall v, v ∈ ran -> slot tabsize v <> i) -> xor_all tabsize i ran = 0.
Proof. induction ran as [|v l IH]; intros H; [done|]. simpl. destruct (Nat.eqb_spec (slot tabsize v) i) as [E|]; [by destruct (H v ltac:(by left))|]. apply IH. intros w Hw. apply H. by right. Qed.

(** A row without two numbers for the same entry combines them all. *)
Lemma update_row_lookup t ran order i : length t = Z.to_nat tabsize -> NoDup (map (slot tabsize) ran) -> order ≡ₚ seq 0 (length ran) -> update_row tabsize t ran order !!! i = Z.lxor (t !!! i) (xor_all tabsize i ran).
Proof.
  intros Ht Hnd Ho. unfold update_row. set (f := fun j => slot tabsize (ran !!! j)). set (t1 := map _ ran).
  assert (Hf : map f (seq 0 (length ran)) = map (slot tabsize) ran).
  { apply list_eq. intros j. rewrite !list_lookup_fmap. destruct (decide (j < length ran)%nat) as [Hj|Hj].
    - rewrite lookup_seq_lt by done. destruct (lookup_lt_is_Some_2 _ _ Hj) as [v Hv]. rewrite Hv. simpl. unfold f. by rewrite (list_lookup_total_correct _ _ _ Hv).
    - rewrite lookup_seq_ge by lia. rewrite lookup_ge_None_2 by lia. done. }
  assert (Hin : forall j, j ∈ order <-> (j < length ran)%nat) by (intros j; rewrite Ho, elem_of_seq; lia).
  rewrite (writes_lookup f (fun j => t1 !!! j)) by ((by rewrite Ho, Hf) || (intros j _; rewrite Ht; apply slot_range)).
  destruct (List.find _ order) as [j|] eqn:Ef.
  - apply find_some in Ef as [Hj Ej]. apply Nat.eqb_eq in Ej. apply list_elem_of_In, Hin in Hj. destruct (lookup_lt_is_Some_2 _ _ Hj) as [v Hv]. unfold f in Ej. rewrite (list_lookup_total_correct _ _ _ Hv) in Ej.
    rewrite (xor_all_one i ran j v) by done. assert (E1 : t1 !! j = Some (Z.lxor (t !!! slot tabsize v) v)) by (unfold t1; by rewrite list_lookup_fmap, Hv). by rewrite (list_lookup_total_correct _ _ _ E1), Ej.
  - rewrite xor_all_none, Z.lxor_0_r; [done|]. intros v Hv E. apply list_elem_of_lookup in Hv as [j Hv]. assert (Hj : j ∈ order) by (apply Hin; by eapply lookup_lt_Some).
    apply list_elem_of_In in Hj. apply (find_none _ _ Ef) in Hj. unfold f in Hj. rewrite (list_lookup_total_correct _ _ _ Hv) in Hj. by apply Nat.eqb_neq in Hj.
Qed.

Lemma update_row_length t ran order : length (update_row tabsize t ran order) = length t.
Proof. unfold update_row. generalize (map (fun v => Z.lxor (t !!! slot tabsize v) v) ran) as t1. intros t1. revert t. induction order as [|j l IH]; intros t; [done|]. simpl. rewrite IH. apply length_insert. Qed.

Lemma rows_fold rs : forall orders t, length orders = length rs -> length t = Z.to_nat tabsize -> (forall i ran, rs !! i = Some ran -> NoDup (map (slot tabsize) ran)) ->
  (forall i o ran, orders !! i = Some o -> rs !! i = Some ran -> o ≡ₚ seq 0 (length ran)) ->
  let t' := foldl (fun t x => update_row tabsize t x.1 x.2) t (zip rs orders) in
  length t' = length t /\ forall i, t' !!! i = Z.lxor (t !!! i) (xor_all tabsize i (concat rs)).
Proof.
  induction rs as [|ran rs IH]; intros [|o orders] t Hl Ht Hnd Ho; simplify_eq/=; [split; [done|]; intros i; by rewrite Z.lxor_0_r|].
  destruct (IH orders (update_row tabsize t ran o)) as [H1 H2]; [done|by rewrite update_row_length|intros i; apply (Hnd (S i))|intros i; apply (Ho (S i))|]. rewrite update_row_length in H1. split; [done|].
  intros i. rewrite H2, (update_row_lookup t ran o i Ht (Hnd 0%nat ran eq_refl) (Ho 0%nat o ran eq_refl eq_refl)). by rewrite xor_all_app, Z.lxor_assoc.
Qed.

Lemma slot_NoDup ran : NoDup (map (fun v => Z.land v (tabsize - 1)) ran) -> NoDup (map (slot tabsize) ran).
Proof.
  intros Hnd. assert (E : map (slot tabsize) ran = map Z.to_nat (map (fun v => Z.land v (tabsize - 1)) ran)) by (by rewrite map_map). rewrite E.
  assert (Hp : Forall (fun x => 0 <= x) (map (fun v => Z.land v (tabsize - 1)) ran)).
  { apply Forall_forall. intros x Hx. apply list_elem_of_fmap in Hx as (v & -> & _). rewrite land_pred_pow2 by lia. apply Z.mod_pos_bound. lia. }
  clear E. induction Hnd as [|x l Hx Hnd IH]; [by constructor|]. inversion Hp as [|? ? H1 H2]; subst. simpl. constructor; [|by apply IH]. intros Hin. apply list_elem_of_fmap in Hin as (y & Ey & Hy). rewrite Forall_forall in H2. specialize (H2 y Hy).
  assert (x = y) by lia. congruence.
Qed.

Lemma initial_table i : (i < Z.to_nat tabsize)%nat -> init_table 0 1 tabsize (replicate (Z.to_nat tabsize) 0) !!! i = Z.of_nat i.
Proof.
  intros Hi. apply list_lookup_total_correct. rewrite init_table_lookup by (rewrite ?length_replicate; lia). by rewrite Z.mod_1_r.
Qed.

Lemma init_table_length me n t : length (init_table me n tabsize t) = length t.
Proof. unfold init_table. revert t. induction (init_indices me n tabsize) as [|x l IH]; intros t; [done|]. simpl. rewrite IH. apply length_insert. Qed.

(** The benchmark passes its verification.  On one locality whose number of updates fills the lanes,
    and as long as no row of updates names an entry twice: whatever the order in which the
    writes of a row arrive, the updates use the first numbers of the sequence once each, so that
    the verification, which combines these numbers again, finds every entry as it was
    initialized. *)
Theorem guppie_passes total rs orders : 0 <= total < 2 ^ 62 -> (Z.of_nat VLEN | total) -> update_rows 0 1 total = Some rs -> length orders = length rs ->
  (forall i ran, rs !! i = Some ran -> NoDup (map (fun v => Z.land v (tabsize - 1)) ran)) -> (forall i o ran, orders !! i = Some o -> rs !! i = Some ran -> o ≡ₚ seq 0 (length ran)) ->
  concat rs ≡ₚ map ran_at (seq 1 (Z.to_nat total))
  /\ exists t, update_table 0 1 total tabsize orders (init_table 0 1 tabsize (replicate (Z.to_nat tabsize) 0)) = Some t /\ errors tabsize (verify_loop (Z.to_nat total) tabsize 1 t) = 0%nat.
Proof.
  intros Ht HV E Hl Hnd Ho. assert (Hsz : block_size 0 1 total = total /\ block_start 0 1 total = 0).
  { destruct (block_spec 0 1 total ltac:(lia) ltac:(lia)) as [-> ->]. rewrite Z.mod_1_r, Z.div_1_r. simpl. lia. }
  destruct Hsz as [Hsz Hst]. destruct (update_rows_spec 0 1 total ltac:(lia) Ht ltac:(by rewrite Hsz)) as (rs' & E' & P). rewrite E in E'. injection E' as <-. rewrite Hsz, Hst in P. split; [done|].
  unfold update_table. rewrite E. cbn [mbind option_bind]. eexists. split; [done|]. set (t0 := init_table _ _ _ _). assert (H0 : length t0 = Z.to_nat tabsize) by (unfold t0; by rewrite init_table_length, length_replicate).
  destruct (rows_fold rs orders t0 Hl H0) as [H1 H2]; [intros i ran Hr; apply slot_NoDup; by eapply Hnd|done|]. set (t := foldl _ t0 _) in *. unfold errors.
  assert (Hv : forall i, (i < Z.to_nat tabsize)%nat -> verify_loop (Z.to_nat total) tabsize 1 t !!! i = Z.of_nat i).
  { intros i Hi. change 1 with (ran_at 0). rewrite verify_loop_eq, bitwiseor_lookup by lia. rewrite H2, (xor_all_permutation i _ _ P). unfold t0. rewrite initial_table by done. by rewrite Z.lxor_assoc, Z.lxor_nilpotent, Z.lxor_0_r. }
  clearbody t. assert (Hfil : forall l, (forall i, i ∈ l -> (i < Z.to_nat tabsize)%nat) -> List.filter (fun i => negb (verify_loop (Z.to_nat total) tabsize 1 t !!! i =? Z.of_nat i)) l = []).
  { induction l as [|i l IH]; intros Hi; [done|]. simpl. rewrite Hv by (apply Hi; by left). rewrite Z.eqb_refl. simpl. apply IH. intros j Hj. apply Hi. by right. }
  rewrite Hfil; [done|]. intros i Hi. apply elem_of_seq in Hi. lia.
Qed.
End Table.

(** ** Concrete runs *)

Lemma startr_jumps_witness : startr (-3) = Some (ran_at (Z.to_nat ((-3) mod PERIOD))) /\ startr 100 = Some (ran_at (Z.to_nat 100)).
Proof. split; [exact (proj1 (startr_jumps (-3) ltac:(lia)))|exact (proj2 (startr_jumps 100 ltac:(lia)) ltac:(lia))]. Defined.

(** One row of updates, of a table with 2^33 entries, whose writes arrive in reverse. *)
Lemma guppie_passes_witness : exists rs t, update_rows 0 1 32 = Some rs
  /\ update_table 0 1 32 (2 ^ 33) [rev (seq 0 VLEN)] (init_table 0 1 (2 ^ 33) (replicate (Z.to_nat (2 ^ 33)) 0)) = Some t /\ errors (2 ^ 33) (verify_loop (Z.to_nat 32) (2 ^ 33) 1 t) = 0%nat.
Proof.
  destruct (update_rows 0 1 32) as [rs|] eqn:E; [|by vm_compute in E]. exists rs.
  assert (Hrs : rs = [map (fun i => 2 ^ Z.of_nat i) (seq 1 32)]) by (vm_compute in E; injection E as <-; by vm_compute).
  destruct (guppie_passes 33 ltac:(lia) 32 rs [rev (seq 0 VLEN)] ltac:(lia) ltac:(by exists 1) E) as (_ & t & H1 & H2); [by rewrite Hrs| | |exists t; split; [reflexivity|]; split; [exact H1|exact H2]].
  - intros [|i] ran Hr; rewrite Hrs in Hr; [|done]. injection Hr as <-. apply (bool_decide_unpack _). by vm_compute.
  - intros [|i] o ran Hi Hr; rewrite Hrs in Hr; [|done]. injection Hr as <-. injection Hi as <-. symmetry. apply Permutation_rev.
Defined.
