(* ===== verification/Shared.v ===== *)
(** * Threads that share an array

    Programs of threads that read and write an array, fork two threads and wait for both, as
    an action does that calls two others and gets their futures.  The accesses of the threads
    interleave in any order.  When the threads of every fork keep to ranges of the array that
    are apart, any order ends, without an access outside of the array, with the array that one
    thread after the other leaves. *)

From S2P Require Import Prelude.

Section Shared.
Context {A : Type}.

(** ** Programs and their steps *)

Inductive prog :=
| Ret
| Read (i : Z) (k : A -> prog)
| Write (i : Z) (v : A) (k : prog)
| Fork (p q : prog) (k : prog)
| Diverge.                              (* a recursion that was given too little fuel *)

Definition at_ (a : list A) (i : Z) : option A := if 0 <=? i then a !! Z.to_nat i else None.
Definition put_at (a : list A) (i : Z) (v : A) : option (list A) :=
  if (0 <=? i) && (i <? Z.of_nat (length a)) then Some (<[Z.to_nat i := v]> a) else None.

(** One access of one thread, or the end of a fork. *)
Inductive step : prog * list A -> prog * list A -> Prop :=
| step_read i k a v : at_ a i = Some v -> step (Read i k, a) (k v, a)
| step_write i v k a b : put_at a i v = Some b -> step (Write i v k, a) (k, b)
| step_left p q k a p' b : step (p, a) (p', b) -> step (Fork p q k, a) (Fork p' q k, b)
| step_right p q k a q' b : step (q, a) (q', b) -> step (Fork p q k, a) (Fork p q' k, b)
| step_join k a : step (Fork Ret Ret k, a) (k, a).

(** One thread after the other, with the number of steps. *)
Fixpoint run (p : prog) (a : list A) : option (nat * list A) :=
  match p with
  | Ret => Some (0%nat, a)
  | Read i k => v ← at_ a i; '(n, b) ← run (k v) a; Some (S n, b)
  | Write i v k => a ← put_at a i v; '(n, b) ← run k a; Some (S n, b)
  | Fork p q k => '(n, a) ← run p a; '(m, a) ← run q a; '(l, b) ← run k a; Some (S (n + m + l), b)
  | Diverge => None
  end.

(** All accesses are to [lo, hi], and those of the threads of a fork to disjoint parts. *)
Fixpoint within (p : prog) (lo hi : Z) : Prop :=
  match p with
  | Ret => True
  | Read i k => lo <= i <= hi /\ forall v, within (k v) lo hi
  | Write i v k => lo <= i <= hi /\ within k lo hi
  | Fork p q k => (exists m, within p lo m /\ within q (m + 1) hi /\ lo <= m + 1 /\ m <= hi) /\ within k lo hi
  | Diverge => False
  end.

(** ** Arrays *)

Lemma at_Some a i v : at_ a i = Some v <-> 0 <= i /\ a !! Z.to_nat i = Some v.
Proof.
  unfold at_. destruct (Z.leb_spec 0 i).
  - split; [by intros ->|by intros [_ ->]].
  - split; [done|intros [? _]; lia].
Qed.

Lemma at_length a i v : at_ a i = Some v -> 0 <= i < Z.of_nat (length a).
Proof. intros [H0 H]%at_Some. apply lookup_lt_Some in H. lia. Qed.

Lemma at_is_Some a i : 0 <= i < Z.of_nat (length a) -> exists v, at_ a i = Some v.
Proof. intros H. destruct (lookup_lt_is_Some_2 a (Z.to_nat i)) as [v Hv]; [lia|]. exists v. apply at_Some. split; [lia|done]. Qed.

Lemma put_at_Some a i v b : put_at a i v = Some b <-> 0 <= i < Z.of_nat (length a) /\ b = <[Z.to_nat i := v]> a.
Proof. unfold put_at. destruct (Z.leb_spec 0 i), (Z.ltb_spec i (Z.of_nat (length a))); simpl; (split; [intros E; simplify_eq; (split; [lia|done])|intros [? ->]; done || lia]). Qed.

Lemma put_length a i v b : put_at a i v = Some b -> length b = length a.
Proof. intros [_ ->]%put_at_Some. apply length_insert. Qed.

Lemma put_at_lookup a i v b j : put_at a i v = Some b -> at_ b j = if j =? i then Some v else at_ a j.
Proof.
  intros [Hi ->]%put_at_Some. unfold at_. destruct (Z.eqb_spec j i) as [->|Hne].
  - destruct (Z.leb_spec 0 i); [|lia]. rewrite list_lookup_insert_eq by lia. done.
  - destruct (Z.leb_spec 0 j); [|done]. rewrite list_lookup_insert_ne by lia. done.
Qed.

Lemma at_ext (a b : list A) : length a = length b -> (forall i, 0 <= i -> at_ a i = at_ b i) -> a = b.
Proof. intros Hl H. apply list_eq. intros i. specialize (H (Z.of_nat i) ltac:(lia)). unfold at_ in H. destruct (Z.leb_spec 0 (Z.of_nat i)); [|lia]. by rewrite Nat2Z.id in H. Qed.

(** The same on [lo, hi], or outside of it. *)
Definition same (lo hi : Z) (a b : list A) : Prop := forall i, lo <= i <= hi -> at_ a i = at_ b i.
Definition same_but (lo hi : Z) (a b : list A) : Prop := length a = length b /\ forall i, i < lo \/ hi < i -> at_ a i = at_ b i.

#[global] Instance same_but_equiv lo hi : Equivalence (same_but lo hi).
Proof.
  split.
  - done.
  - intros a b [H1 H2]. split; [done|]. intros i Hi. by rewrite H2.
  - intros a b c [H1 H2] [H3 H4]. split; [congruence|]. intros i Hi. rewrite H2, H4 by done. done.
Qed.

#[global] Instance same_equiv lo hi : Equivalence (same lo hi).
Proof. split; [done| |]; [intros a b H i Hi; by rewrite H|intros a b c H1 H2 i Hi; by rewrite H1, H2]. Qed.

Lemma same_but_mono lo hi lo' hi' a b : lo' <= lo -> hi <= hi' -> same_but lo hi a b -> same_but lo' hi' a b.
Proof. intros Hl Hh [H1 H2]. split; [done|]. intros i Hi. apply H2. lia. Qed.

Lemma same_but_same lo hi lo' hi' a b : hi' < lo \/ hi < lo' -> same_but lo hi a b -> same lo' hi' a b.
Proof. intros Hd [_ H] i Hi. apply H. lia. Qed.

Lemma same_both lo hi a b : same lo hi a b -> same_but lo hi a b -> a = b.
Proof. intros H1 [Hl H2]. apply at_ext; [done|]. intros i _. destruct (decide (lo <= i <= hi)); [by apply H1|]. apply H2. lia. Qed.

Lemma put_same_but lo hi a i v b : put_at a i v = Some b -> lo <= i <= hi -> same_but lo hi a b.
Proof.
  intros Hp Hi. split; [by rewrite (put_length _ _ _ _ Hp)|]. intros j Hj. rewrite (put_at_lookup _ _ _ _ j Hp).
  destruct (Z.eqb_spec j i); [lia|done].
Qed.

Lemma put_same lo hi a i v b a2 : put_at a i v = Some b -> same lo hi a a2 -> length a = length a2 -> lo <= i <= hi ->
  exists b2, put_at a2 i v = Some b2 /\ same lo hi b b2 /\ same_but lo hi a2 b2.
Proof.
  intros Hp Hs Hl Hi. pose proof Hp as [Hr _]%put_at_Some. assert (Hp2 : put_at a2 i v = Some (<[Z.to_nat i := v]> a2)) by (apply put_at_Some; split; [lia|done]).
  eexists. split; [done|]. split; [|by eapply put_same_but]. intros j Hj. rewrite (put_at_lookup _ _ _ _ j Hp), (put_at_lookup _ _ _ _ j Hp2).
  destruct (j =? i); [done|by apply Hs].
Qed.

(** Changes in disjoint ranges, done in either order. *)
Lemma same_but_join lo m hi a a' a1 a1' a2 : same_but lo m a a1 -> same_but (m + 1) hi a a' -> same (m + 1) hi a' a1' -> same_but (m + 1) hi a1 a1' ->
  same_but lo m a' a2 -> same_but lo m a2 a1'.
Proof.
  intros [L1 H1] [L2 H2] H3 [L4 H4] [L5 H5]. split; [congruence|]. intros i Hi. rewrite <- H5 by done. destruct (decide (m + 1 <= i <= hi)) as [Hin|Hout]; [by apply H3|].
  rewrite <- H2, H1, H4 by lia. done.
Qed.

(** ** A program depends on its range and changes nothing else *)

Lemma within_mono p : forall lo hi lo' hi', lo' <= lo -> hi <= hi' -> within p lo hi -> within p lo' hi'.
Proof.
  induction p as [|i k IH|i v k IH|p IHp q IHq k IHk|]; intros lo hi lo' hi' Hl Hh H; simpl in *; [done| | | |done].
  - destruct H as [Hi H]. split; [lia|]. intros v. by apply (IH v lo hi).
  - destruct H as [Hi H]. split; [lia|]. by apply (IH lo hi).
  - destruct H as [(m & H1 & H2 & H3 & H4) H5]. split; [|by apply (IHk lo hi)]. exists m.
    split; [by apply (IHp lo m)|]. split; [by apply (IHq (m + 1) hi)|lia].
Qed.

Lemma run_frame p : forall lo hi a n b a2, within p lo hi -> run p a = Some (n, b) -> same lo hi a a2 -> length a = length a2 ->
  same_but lo hi a b /\ exists b2, run p a2 = Some (n, b2) /\ same lo hi b b2 /\ same_but lo hi a2 b2.
Proof.
  induction p as [|i k IH|i v k IH|p IHp q IHq k IHk|]; intros lo hi a n b a2 Hw Hr Hs Hl; cbn [within run] in *.
  - injection Hr as <- <-. split; [done|]. exists a2. done.
  - destruct Hw as [Hi Hw]. destruct (at_ a i) as [v|] eqn:Ea; [|done]. cbn in Hr. destruct (run (k v) a) as [[m c]|] eqn:Er; [|done]. injection Hr as <- <-.
    destruct (IH v lo hi a m c a2 (Hw v) Er Hs Hl) as [H1 (b2 & H2 & H3)]. split; [done|]. exists b2. rewrite <- (Hs i Hi), Ea. cbn. by rewrite H2.
  - destruct Hw as [Hi Hw]. destruct (put_at a i v) as [c|] eqn:Ea; [|done]. cbn in Hr. destruct (run k c) as [[m d]|] eqn:Er; [|done]. injection Hr as <- <-.
    destruct (put_same lo hi a i v c a2 Ea Hs Hl Hi) as (c2 & E2 & S2 & B2). pose proof (put_length _ _ _ _ Ea). pose proof (put_length _ _ _ _ E2).
    destruct (IH lo hi c m d c2 Hw Er S2 ltac:(lia)) as [H1 (b2 & H2 & H3 & H4)].
    split; [etransitivity; [by eapply put_same_but|done]|]. exists b2. rewrite E2. cbn. rewrite H2. split; [done|]. split; [done|]. by etransitivity.
  - destruct Hw as [(m & W1 & W2 & Hm1 & Hm2) W3]. destruct (run p a) as [[n1 a1]|] eqn:E1; [|done]. cbn in Hr.
    destruct (run q a1) as [[n2 c]|] eqn:E2; [|done]. cbn in Hr. destruct (run k c) as [[n3 d]|] eqn:E3; [|done]. injection Hr as <- <-.
    destruct (IHp lo m a n1 a1 a2 W1 E1) as [P1 (b1 & P2 & P3 & P4)]; [intros j Hj; apply Hs; lia|done|].
    assert (L1 : length a1 = length b1) by (destruct P1, P4; congruence).
    assert (S1 : same lo hi a1 b1).
    { intros j Hj. destruct (decide (j <= m)); [apply P3; lia|]. destruct P1 as [_ P1], P4 as [_ P4]. rewrite <- P1, <- P4 by lia. apply Hs. lia. }
    destruct (IHq (m + 1) hi a1 n2 c b1 W2 E2) as [Q1 (b3 & Q2 & Q3 & Q4)]; [intros j Hj; apply S1; lia|done|].
    assert (L2 : length c = length b3) by (destruct Q1, Q4; congruence).
    assert (S2 : same lo hi c b3).
    { intros j Hj. destruct (decide (m + 1 <= j)); [apply Q3; lia|]. destruct Q1 as [_ Q1], Q4 as [_ Q4]. rewrite <- Q1, <- Q4 by lia. apply S1. lia. }
    destruct (IHk lo hi c n3 d b3 W3 E3 S2 L2) as [R1 (b4 & R2 & R3 & R4)].
    split.
    + etransitivity; [|done]. etransitivity; [|eapply same_but_mono; [| |exact Q1]; lia]. eapply same_but_mono; [| |exact P1]; lia.
    + exists b4. rewrite P2. cbn. rewrite Q2. cbn. rewrite R2. split; [done|]. split; [done|].
      etransitivity; [|done]. etransitivity; [|eapply same_but_mono; [| |exact Q4]; lia]. eapply same_but_mono; [| |exact P4]; lia.
  - done.
Qed.

Lemma step_frame q : forall lo hi a q' a' b, within q lo hi -> step (q, a) (q', a') -> same lo hi a b -> length a = length b ->
  within q' lo hi /\ same_but lo hi a a' /\ exists b', step (q, b) (q', b') /\ same lo hi a' b' /\ same_but lo hi b b'.
Proof.
  induction q as [|i k IH|i v k IH|p IHp q IHq k IHk|]; intros lo hi a q' a' b Hw Hst Hs Hl; cbn [within] in Hw; inversion Hst; subst.
  - destruct Hw as [Hi Hw]. split; [done|]. split; [done|]. exists b. split; [constructor; by rewrite <- Hs|done].
  - destruct Hw as [Hi Hw]. split; [done|]. split; [by eapply put_same_but|].
    destruct (put_same lo hi a i v a' b ltac:(done) Hs Hl Hi) as (b' & E & H1 & H2). exists b'. split; [by constructor|done].
  - destruct Hw as [(m & W1 & W2 & Hm1 & Hm2) W3]. edestruct (IHp lo m a p' a' b) as (V & B & b' & E & H1 & H2); [done|done|intros j Hj; apply Hs; lia|done|].
    split; [split; [by exists m|done]|]. split; [eapply same_but_mono; [| |done]; lia|]. exists b'. split; [by constructor|].
    split; [|eapply same_but_mono; [| |done]; lia]. intros j Hj. destruct (decide (j <= m)); [apply H1; lia|].
    destruct B as [_ B], H2 as [_ H2]. rewrite <- B, <- H2 by lia. apply Hs. lia.
  - destruct Hw as [(m & W1 & W2 & Hm1 & Hm2) W3]. edestruct (IHq (m + 1) hi a q'0 a' b) as (V & B & b' & E & H1 & H2); [done|done|intros j Hj; apply Hs; lia|done|].
    split; [split; [by exists m|done]|]. split; [eapply same_but_mono; [| |done]; lia|]. exists b'. split; [by constructor|].
    split; [|eapply same_but_mono; [| |done]; lia]. intros j Hj. destruct (decide (m + 1 <= j)); [apply H1; lia|].
    destruct B as [_ B], H2 as [_ H2]. rewrite <- B, <- H2 by lia. apply Hs. lia.
  - destruct Hw as [_ W3]. split; [done|]. split; [done|]. exists b. split; [constructor|done].
Qed.

(** ** Every step is one of the sequential run *)

Lemma run_step p : forall lo hi a p' a' n b, within p lo hi -> step (p, a) (p', a') -> run p a = Some (n, b) ->
  exists n', n = S n' /\ run p' a' = Some (n', b).
Proof.
  induction p as [|i k IH|i v k IH|p IHp q IHq k IHk|]; intros lo hi a p' a' n b Hw Hst Hr; cbn [within run] in *; inversion Hst; subst.
  - match goal with E : at_ _ _ = _ |- _ => rewrite E in Hr end. cbn in Hr. destruct (run (k v) a') as [[m c]|]; [|done]. injection Hr as <- <-. by exists m.
  - match goal with E : put_at _ _ _ = _ |- _ => rewrite E in Hr end. cbn in Hr. destruct (run p' a') as [[m c]|]; [|done]. injection Hr as <- <-. by exists m.
  - destruct Hw as [(m & W1 & W2 & _) W3]. destruct (run p a) as [[n1 a1]|] eqn:E1; [|done]. cbn in Hr. destruct (run q a1) as [[n2 c]|] eqn:E2; [|done]. cbn in Hr.
    destruct (run k c) as [[n3 d]|] eqn:E3; [|done]. injection Hr as <- <-. edestruct (IHp lo m a p'0 a' n1 a1) as (n1' & -> & E1'); [done..|].
    exists (S (n1' + n2 + n3)). split; [done|]. cbn [run]. rewrite E1'. cbn. rewrite E2. cbn. by rewrite E3.
  - destruct Hw as [(m & W1 & W2 & Hm1 & Hm2) W3]. destruct (run p a) as [[n1 a1]|] eqn:E1; [|done]. cbn in Hr. destruct (run q a1) as [[n2 c]|] eqn:E2; [|done]. cbn in Hr.
    destruct (run k c) as [[n3 d]|] eqn:E3; [|done]. injection Hr as <- <-.
    match goal with E : step (q, a) _ |- _ => rename E into Hq end.
    destruct (run_frame p lo m a n1 a1 a W1 E1 ltac:(done) eq_refl) as [P1 _].
    (* the same step after the left thread *)
    destruct (step_frame q (m + 1) hi a q' a' a1 W2 Hq) as (W2' & B1 & a1' & Hq1 & S1 & B2).
    { apply (same_but_same lo m); [lia|done]. } { apply P1. }
    destruct (IHq (m + 1) hi a1 q' a1' n2 c W2 Hq1 E2) as (n2' & -> & E2').
    (* the left thread after the step *)
    destruct (run_frame p lo m a n1 a1 a' W1 E1) as [_ (a2 & E1' & S2 & B3)].
    { apply (same_but_same (m + 1) hi); [lia|done]. } { apply B1. }
    assert (a2 = a1') as ->.
    { apply (same_both lo m).
      - etransitivity; [symmetry; exact S2|]. apply (same_but_same (m + 1) hi); [lia|done].
      - apply (same_but_join lo m hi a a' a1 a1' a2); done. }
    exists (S (n1 + n2' + n3)). split; [lia|]. cbn [run]. rewrite E1'. cbn. rewrite E2'. cbn. by rewrite E3.
  - cbn in Hr. destruct (run p' a') as [[m c]|]; [|done]. injection Hr as <- <-. by exists m.
Qed.

Lemma run_progress p : forall a n b, run p a = Some (n, b) -> p = Ret \/ exists s, step (p, a) s.
Proof.
  induction p as [|i k IH|i v k IH|p IHp q IHq k IHk|]; intros a n b Hr; cbn [run] in Hr; [by left| | | |done]; right.
  - destruct (at_ a i) as [v|] eqn:E; [|done]. eexists. by constructor.
  - destruct (put_at a i v) as [c|] eqn:E; [|done]. eexists. by constructor.
  - destruct (run p a) as [[n1 a1]|] eqn:E1; [|done]. cbn in Hr. destruct (IHp _ _ _ E1) as [->|[[p' a'] Hp]]; [|eexists; by apply step_left].
    cbn in E1. injection E1 as <- <-. destruct (run q a) as [[n2 c]|] eqn:E2; [|done].
    destruct (IHq _ _ _ E2) as [->|[[q' a'] Hq]]; [eexists; apply step_join|eexists; by apply step_right].
Qed.

Lemma steps_run p lo hi a n b m p' a' : within p lo hi -> run p a = Some (n, b) -> nsteps step m (p, a) (p', a') ->
  within p' lo hi /\ exists n', n = (m + n')%nat /\ run p' a' = Some (n', b).
Proof.
  revert p a n. induction m as [|m IH]; intros p a n Hw Hr Hs; inversion Hs; subst; [split; [done|by exists n]|].
  match goal with E : step _ ?y |- _ => destruct y as [p1 a1]; rename E into Hst end.
  destruct (run_step p lo hi a p1 a1 n b Hw Hst Hr) as (n1 & -> & Hr1). destruct (step_frame p lo hi a p1 a1 a Hw Hst) as (Hw1 & _); [done|done|].
  edestruct (IH p1 a1 n1) as (Hw' & n' & -> & Hr'); [done|done|done|]. split; [done|]. by exists n'.
Qed.

(** Any order of the steps: it can go on until the program has ended, which takes as many steps
    as the sequential run, and the array is then the same. *)
Lemma interleavings p lo hi a n b m s : within p lo hi -> run p a = Some (n, b) -> nsteps step m (p, a) s ->
  (m <= n)%nat /\ (m = n <-> s.1 = Ret) /\ (s.1 = Ret -> s.2 = b) /\ (s.1 <> Ret -> exists s', step s s').
Proof.
  intros Hw Hr Hs. destruct s as [p' a']. destruct (steps_run p lo hi a n b m p' a' Hw Hr Hs) as (Hw' & n' & -> & Hr'). cbn [fst snd].
  split; [lia|]. assert (Hz : p' = Ret -> n' = 0%nat /\ a' = b) by (intros ->; cbn in Hr'; by injection Hr' as <- <-).
  destruct (run_progress p' a' n' b Hr') as [->|[s' Hs']].
  - destruct (Hz eq_refl) as [-> ->]. split; [split; [done|lia]|]. done.
  - split; [|split; [intros ->; by apply Hz|by intros _; exists s']]. split; [|intros ->; destruct (Hz eq_refl); lia]. intros Hn.
    destruct s' as [p2 a2]. destruct (run_step p' lo hi a' p2 a2 n' b Hw' Hs' Hr') as (n2 & -> & _). lia.
Qed.
End Shared.

#[global] Arguments prog : clear implicits.
