(* ===== verification/Qsort.v ===== *)
(** * Parallel quicksort

    examples/qsort.c: quicksort of an array, sequential, and parallel by actions that partition
    their part of the array, call themselves for the two sides, and wait for both.  The
    elements, doubles that are not NaN in the program, are of any type with a total order. *)

From stdpp Require Import sorting.
From S2P Require Import Prelude Shared.

Section Qsort.
Context {A : Type} (leb : A -> A -> bool).
Abbreviation prog := (Shared.prog A).

(** ** The program *)

Definition swap (i j : Z) (k : prog) : prog :=
  Read i (fun temp => Read j (fun v => Write i v (Write j temp k))).

(** for (int i=lo; i<hi; i++) *)
Fixpoint partition_loop (n : nat) (i : Z) (pivotValue : A) (storeIndex : Z) (k : Z -> prog) : prog :=
  match n with
  | O => k storeIndex
  | S n => Read i (fun v =>
      if leb v pivotValue then swap i storeIndex (partition_loop n (i + 1) pivotValue (storeIndex + 1) k)
      else partition_loop n (i + 1) pivotValue storeIndex k)
  end.

Definition partition (lo hi : Z) (k : Z -> prog) : prog :=
  let pivot := Z.quot (i32 (lo + hi)) 2 in
  Read pivot (fun pivotValue =>
    swap pivot hi (partition_loop (Z.to_nat (hi - lo)) lo pivotValue lo (fun storeIndex =>
      swap storeIndex hi (k storeIndex)))).

(** The sequential recursion, with fuel for its depth. *)
Fixpoint quicksortHelper (fuel : nat) (lo hi : Z) (k : prog) : prog :=
  if hi <=? lo then k
  else match fuel with
       | O => Diverge
       | S fuel => partition lo hi (fun b => quicksortHelper fuel lo (b - 1) (quicksortHelper fuel (b + 1) hi k))
       end.

Definition quicksort (size : Z) : prog := quicksortHelper (Z.to_nat size) 0 (size - 1) Ret.

(** The action: it forks one action for each side and gets both futures. *)
Fixpoint parallelQuicksortHelper (level : nat) (fuel : nat) (low high : Z) : prog :=
  match level with
  | O => quicksortHelper fuel low high Ret
  | S level' =>
    if low =? high then quicksortHelper fuel low high Ret
    else partition low high (fun mid =>
      Fork (parallelQuicksortHelper level' fuel low (if low <? mid then mid - 1 else low))
           (parallelQuicksortHelper level' fuel (if mid <? high then mid + 1 else high) high)
           Ret)
  end.

Definition parallelQuicksort (size : Z) (tlevel : nat) : prog :=
  Fork (parallelQuicksortHelper tlevel (Z.to_nat size) 0 (size - 1)) Ret Ret.

Fixpoint isSorted_loop (n : nat) (i : Z) (lyst : list A) : option Z :=
  match n with
  | O => Some 1
  | S n =>
    x ← at_ lyst i;
    y ← at_ lyst (i - 1);
    if negb (leb y x) then Some 0 else isSorted_loop n (i + 1) lyst
  end.

Definition isSorted (lyst : list A) (size : Z) : option Z := isSorted_loop (Z.to_nat (size - 1)) 1 lyst.

(** ** Accesses *)

Lemma swap_within i j k lo hi : lo <= i <= hi -> lo <= j <= hi -> within k lo hi -> within (swap i j k) lo hi.
Proof. intros. simpl. tauto. Qed.

Lemma partition_loop_within n : forall i pv s k lo hi, lo <= s <= i -> i + Z.of_nat n <= hi ->
  (forall s', s <= s' <= i + Z.of_nat n -> within (k s') lo hi) -> within (partition_loop n i pv s k) lo hi.
Proof.
  induction n as [|n IH]; intros i pv s k lo hi Hs Hi Hk; cbn [partition_loop]; [apply Hk; lia|]. split; [lia|]. intros v. destruct (leb v pv).
  - apply swap_within; [lia|lia|]. apply IH; [lia|lia|]. intros s' Hs'. apply Hk. lia.
  - apply IH; [lia|lia|]. intros s' Hs'. apply Hk. lia.
Qed.

Lemma mid_range lo hi : 0 <= lo -> lo <= hi -> hi < 2 ^ 30 -> lo <= Z.quot (i32 (lo + hi)) 2 <= hi.
Proof. intros. rewrite swrap_small by lia. rewrite Z.quot_div_nonneg by lia. split; [apply Z.div_le_lower_bound; lia|apply Z.div_le_upper_bound; lia]. Qed.

Lemma partition_within lo hi k : 0 <= lo -> lo <= hi -> hi < 2 ^ 30 -> (forall s, lo <= s <= hi -> within (k s) lo hi) -> within (partition lo hi k) lo hi.
Proof.
  intros H0 Hl Hh Hk. pose proof (mid_range lo hi H0 Hl Hh). split; [done|]. intros pv. apply swap_within; [done|lia|].
  apply partition_loop_within; [lia|lia|]. intros s Hs. apply swap_within; [lia|lia|]. apply Hk. lia.
Qed.

Lemma quicksort_within fuel : forall lo hi k lo' hi', 0 <= lo' -> lo' <= lo -> hi <= hi' -> hi' < 2 ^ 30 -> hi - lo <= Z.of_nat fuel ->
  within k lo' hi' -> within (quicksortHelper fuel lo hi k) lo' hi'.
Proof.
  induction fuel as [|fuel IH]; intros lo hi k lo' hi' H0 Hl Hh Hb Hf Hk; cbn [quicksortHelper]; destruct (Z.leb_spec hi lo); [done|lia|done|].
  pose proof (mid_range lo hi ltac:(lia) ltac:(lia) ltac:(lia)). split; [lia|]. intros pv. apply swap_within; [lia|lia|].
  apply partition_loop_within; [lia|lia|]. intros s Hs. apply swap_within; [lia|lia|]. apply IH; [lia|lia|lia|lia|lia|]. apply IH; [lia|lia|lia|lia|lia|done].
Qed.

Lemma parallel_within level fuel : forall low high, 0 <= low -> low <= high -> high < 2 ^ 30 -> high - low <= Z.of_nat fuel ->
  within (parallelQuicksortHelper level fuel low high) low high.
Proof.
  induction level as [|level IH]; intros low high H0 Hl Hh Hf; cbn [parallelQuicksortHelper]; [by apply quicksort_within|].
  destruct (Z.eqb_spec low high); [by apply quicksort_within|]. apply partition_within; [lia|lia|lia|]. intros mid Hm. cbn [within]. split; [|done].
  exists (if low <? mid then mid - 1 else low).
  split; [apply IH; destruct (Z.ltb_spec low mid); lia|].
  assert (E : (if low <? mid then mid - 1 else low) + 1 <= (if mid <? high then mid + 1 else high)) by (destruct (Z.ltb_spec low mid), (Z.ltb_spec mid high); lia).
  split; [|destruct (Z.ltb_spec low mid); lia]. eapply within_mono; [exact E|reflexivity|]. apply IH; destruct (Z.ltb_spec mid high); lia.
Qed.

(** ** Exchanges *)

Definition exch (a : list A) (i j : Z) : list A :=
  match at_ a i, at_ a j with Some x, Some y => <[Z.to_nat j := x]> (<[Z.to_nat i := y]> a) | _, _ => a end.

(** The steps before the rest of a program. *)
Definition after (m : nat) (r : option (nat * list A)) : option (nat * list A) := '(n, b) ← r; Some ((m + n)%nat, b).

Lemma after_after m n r : after m (after n r) = after (m + n) r.
Proof. destruct r as [[l b]|]; [|done]. cbn. do 2 f_equal. lia. Qed.

Abbreviation size_ a := (Z.of_nat (length a)).

Lemma exch_length a i j : length (exch a i j) = length a.
Proof. unfold exch. destruct (at_ a i), (at_ a j); try done. by rewrite !length_insert. Qed.

Lemma exch_perm a i j : exch a i j ≡ₚ a.
Proof.
  unfold exch. destruct (at_ a i) as [x|] eqn:Ei; [|done]. destruct (at_ a j) as [y|] eqn:Ej; [|done].
  apply at_Some in Ei as [_ Ei], Ej as [_ Ej]. by apply Permutation_insert_swap.
Qed.

Lemma exch_at a i j t : 0 <= i < size_ a -> 0 <= j < size_ a -> at_ (exch a i j) t = if t =? i then at_ a j else if t =? j then at_ a i else at_ a t.
Proof.
  intros Hi Hj. unfold exch. destruct (at_is_Some a i Hi) as [x Ex], (at_is_Some a j Hj) as [y Ey]. rewrite Ex, Ey.
  assert (P1 : put_at a i y = Some (<[Z.to_nat i := y]> a)) by (apply put_at_Some; split; [lia|done]).
  assert (P2 : put_at (<[Z.to_nat i := y]> a) j x = Some (<[Z.to_nat j := x]> (<[Z.to_nat i := y]> a))).
  { apply put_at_Some. rewrite length_insert. split; [lia|done]. }
  rewrite (put_at_lookup _ _ _ _ t P2), (put_at_lookup _ _ _ _ t P1). destruct (Z.eqb_spec t j), (Z.eqb_spec t i); try done. subst. congruence.
Qed.

Lemma run_swap i j k a : 0 <= i < size_ a -> 0 <= j < size_ a -> run (swap i j k) a = after 4 (run k (exch a i j)).
Proof.
  intros Hi Hj. unfold exch. destruct (at_is_Some a i Hi) as [x Ex], (at_is_Some a j Hj) as [y Ey]. unfold swap. cbn [run]. rewrite Ex, Ey. cbn [mbind option_bind].
  assert (P1 : put_at a i y = Some (<[Z.to_nat i := y]> a)) by (apply put_at_Some; split; [lia|done]).
  assert (P2 : put_at (<[Z.to_nat i := y]> a) j x = Some (<[Z.to_nat j := x]> (<[Z.to_nat i := y]> a))).
  { apply put_at_Some. rewrite length_insert. split; [lia|done]. }
  rewrite P1. cbn [mbind option_bind]. rewrite P2. cbn [mbind option_bind]. unfold after. by destruct (run k _) as [[n b]|].
Qed.

(** Any number of exchanges in [lo, hi]. *)
Definition moves (lo hi : Z) : list A -> list A -> Prop :=
  rtc (fun a b => exists i j, lo <= i <= hi /\ lo <= j <= hi /\ 0 <= lo /\ hi < size_ a /\ b = exch a i j).

Lemma moves_once lo hi a i j : lo <= i <= hi -> lo <= j <= hi -> 0 <= lo -> hi < size_ a -> moves lo hi a (exch a i j).
Proof. intros. apply rtc_once. by exists i, j. Qed.

Lemma moves_trans lo hi a b c : moves lo hi a b -> moves lo hi b c -> moves lo hi a c.
Proof. unfold moves. intros. by transitivity b. Qed.

Lemma moves_length lo hi a b : moves lo hi a b -> length b = length a.
Proof. induction 1 as [|a b c (i & j & _ & _ & _ & _ & ->) _ IH]; [done|]. by rewrite IH, exch_length. Qed.

Lemma moves_perm lo hi a b : moves lo hi a b -> b ≡ₚ a.
Proof. induction 1 as [|a b c (i & j & _ & _ & _ & _ & ->) _ IH]; [done|]. by rewrite IH, exch_perm. Qed.

Lemma moves_outside lo hi a b t : moves lo hi a b -> t < lo \/ hi < t -> at_ b t = at_ a t.
Proof.
  induction 1 as [|a b c (i & j & Hi & Hj & H0 & Hh & ->) _ IH]; [done|]. intros Ht. rewrite IH by done. rewrite exch_at by lia.
  destruct (Z.eqb_spec t i), (Z.eqb_spec t j); done || lia.
Qed.

Lemma moves_all lo hi a b (P : option A -> Prop) : moves lo hi a b -> (forall t, lo <= t <= hi -> P (at_ a t)) -> forall t, lo <= t <= hi -> P (at_ b t).
Proof.
  induction 1 as [|a b c (i & j & Hi & Hj & H0 & Hh & ->) _ IH]; [done|]. intros HP. apply IH. intros t Ht. rewrite exch_at by lia.
  destruct (t =? i), (t =? j); by apply HP.
Qed.

Lemma moves_mono lo hi lo' hi' a b : 0 <= lo' -> lo' <= lo -> hi <= hi' -> hi' < size_ a -> moves lo hi a b -> moves lo' hi' a b.
Proof.
  intros H0 Hl Hh Hs H. revert Hs. induction H as [|a b c (i & j & Hi & Hj & _ & _ & ->) _ IH]; intros Hs; [constructor|].
  eapply rtc_l; [exists i, j; repeat (split; [lia|]); done|]. apply IH. by rewrite exch_length.
Qed.

(** ** Partition *)

Definition le_ (v : A) (o : option A) : Prop := exists x, o = Some x /\ leb x v = true.
Definition gt_ (v : A) (o : option A) : Prop := exists x, o = Some x /\ leb x v = false.

Lemma partition_loop_run n : forall i pv s lo hi a, 0 <= lo <= s -> s <= i -> i + Z.of_nat n = hi -> hi < size_ a ->
  (forall t, lo <= t < s -> le_ pv (at_ a t)) -> (forall t, s <= t < i -> gt_ pv (at_ a t)) ->
  exists m s' b, (forall k, run (partition_loop n i pv s k) a = after m (run (k s') b)) /\ moves lo (hi - 1) a b /\ s <= s' <= hi
    /\ (forall t, lo <= t < s' -> le_ pv (at_ b t)) /\ (forall t, s' <= t < hi -> gt_ pv (at_ b t)).
Proof.
  induction n as [|n IH]; intros i pv s lo hi a Hs Hi Hn Hh Hle Hgt; cbn [partition_loop].
  - exists 0%nat, s, a. split; [intros k; by destruct (run (k s) a) as [[]|]|]. split; [constructor|]. split; [lia|]. split; [done|]. intros t Ht. apply Hgt. lia.
  - destruct (at_is_Some a i ltac:(lia)) as [v Ev]. destruct (leb v pv) eqn:Ec.
    + destruct (IH (i + 1) pv (s + 1) lo hi (exch a i s)) as (m & s' & b & Hr & Hm & Hs' & H1 & H2); [lia|lia|lia|by rewrite exch_length| | |].
      * intros t Ht. rewrite exch_at by lia. destruct (Z.eqb_spec t i); [subst t|destruct (Z.eqb_spec t s); [by exists v|apply Hle; lia]].
        destruct (Z.eq_dec i s) as [->|]; [by exists v|lia].
      * intros t Ht. rewrite exch_at by lia. destruct (Z.eqb_spec t i); [apply Hgt; lia|]. destruct (Z.eqb_spec t s); [lia|]. apply Hgt. lia.
      * exists (5 + m)%nat, s', b. split; [|split; [|split; [lia|done]]].
        -- intros k. cbn [run]. rewrite Ev. cbn [mbind option_bind]. rewrite Ec, run_swap, Hr by lia. unfold after. by destruct (run (k s') b) as [[]|].
        -- eapply rtc_l; [|exact Hm]. exists i, s. repeat (split; [lia|]). done.
    + destruct (IH (i + 1) pv s lo hi a) as (m & s' & b & Hr & Hm & Hs' & H1 & H2); [lia|lia|lia|done|done| |].
      * intros t Ht. destruct (Z.eq_dec t i) as [->|]; [by exists v|apply Hgt; lia].
      * exists (1 + m)%nat, s', b. split; [|done]. intros k. cbn [run]. rewrite Ev. cbn [mbind option_bind]. rewrite Ec, Hr. unfold after. by destruct (run (k s') b) as [[]|].
Qed.

Lemma partition_run lo hi a : 0 <= lo <= hi -> hi < size_ a -> hi < 2 ^ 30 ->
  exists m s b pv, (forall k, run (partition lo hi k) a = after m (run (k s) b)) /\ moves lo hi a b /\ lo <= s <= hi /\ at_ b s = Some pv
    /\ (forall t, lo <= t < s -> le_ pv (at_ b t)) /\ (forall t, s < t <= hi -> gt_ pv (at_ b t)).
Proof.
  intros Hl Hh Hb. unfold partition. pose proof (mid_range lo hi ltac:(lia) ltac:(lia) Hb) as Hm. set (p := Z.quot (i32 (lo + hi)) 2) in *.
  destruct (at_is_Some a p ltac:(lia)) as [pv Ep]. set (a1 := exch a p hi).
  assert (E1 : at_ a1 hi = Some pv). { unfold a1. rewrite exch_at by lia. destruct (Z.eqb_spec hi p) as [<-|]; [done|]. by rewrite Z.eqb_refl. }
  assert (L1 : size_ a1 = size_ a) by (unfold a1; by rewrite exch_length).
  destruct (partition_loop_run (Z.to_nat (hi - lo)) lo pv lo lo hi a1) as (m & s & b & Hr & Hmv & Hs & H1 & H2); [lia|lia|lia|lia|intros t Ht; lia|intros t Ht; lia|].
  pose proof (moves_length _ _ _ _ Hmv) as L2. assert (E2 : at_ b hi = Some pv) by (rewrite (moves_outside _ _ _ _ hi Hmv) by lia; done).
  exists (5 + m + 4)%nat, s, (exch b s hi), pv. split; [|split; [|split; [lia|split; [|split]]]].
  - intros k. cbn [run]. rewrite Ep. cbn [mbind option_bind]. rewrite run_swap by lia. fold a1. rewrite Hr, run_swap, !after_after by lia.
    unfold after. destruct (run (k s) _) as [[n c]|]; [|done]. cbn. do 2 f_equal.
  - eapply rtc_l; [exists p, hi; repeat (split; [lia|]); done|]. fold a1. eapply moves_trans; [eapply moves_mono; [| | | |exact Hmv]; lia|].
    apply moves_once; lia.
  - rewrite exch_at by lia. by rewrite Z.eqb_refl.
  - intros t Ht. rewrite exch_at by lia. destruct (Z.eqb_spec t s); [lia|]. destruct (Z.eqb_spec t hi); [lia|]. by apply H1.
  - intros t Ht. rewrite exch_at by lia. destruct (Z.eqb_spec t s); [lia|]. destruct (Z.eqb_spec t hi); apply H2; lia.
Qed.

(** ** Sorting *)

Hypothesis leb_total : forall x y, leb x y = true \/ leb y x = true.
Hypothesis leb_trans : forall x y z, leb x y = true -> leb y z = true -> leb x z = true.

Definition sorted_range (lo hi : Z) (a : list A) : Prop :=
  forall i j, lo <= i -> i <= j -> j <= hi -> exists x y, at_ a i = Some x /\ at_ a j = Some y /\ leb x y = true.

Lemma leb_refl x : leb x x = true.
Proof. by destruct (leb_total x x). Qed.

Lemma gt_leb x y : leb x y = false -> leb y x = true.
Proof. intros E. destruct (leb_total x y); congruence. Qed.

Lemma sorted_small lo hi a : hi <= lo -> 0 <= lo -> hi < size_ a -> sorted_range lo hi a.
Proof.
  intros Hle H0 Hh i j Hi Hij Hj. replace j with i by lia. destruct (at_is_Some a i ltac:(lia)) as [x Ex]. exists x, x. split; [done|]. split; [done|apply leb_refl].
Qed.

(** Two sorted sides of a pivot. *)
Lemma sorted_join lo hi s pv a : lo <= s <= hi -> at_ a s = Some pv -> (forall t, lo <= t < s -> le_ pv (at_ a t)) -> (forall t, s < t <= hi -> gt_ pv (at_ a t)) ->
  sorted_range lo (s - 1) a -> sorted_range (s + 1) hi a -> sorted_range lo hi a.
Proof.
  intros Hs Es Hle Hgt S1 S2 i j Hi Hij Hj.
  assert (Hl : forall t, lo <= t <= s -> exists x, at_ a t = Some x /\ leb x pv = true).
  { intros t Ht. destruct (Z.eq_dec t s) as [->|]; [exists pv; split; [done|apply leb_refl]|]. apply Hle. lia. }
  assert (Hr : forall t, s <= t <= hi -> exists x, at_ a t = Some x /\ leb pv x = true).
  { intros t Ht. destruct (Z.eq_dec t s) as [->|]; [exists pv; split; [done|apply leb_refl]|]. destruct (Hgt t ltac:(lia)) as (x & E & Hx). exists x. split; [done|by apply gt_leb]. }
  destruct (Z.lt_ge_cases j s) as [Hjs|Hjs]; [apply S1; lia|]. destruct (Z.lt_ge_cases s i) as [His|His]; [apply S2; lia|].
  destruct (Hl i ltac:(lia)) as (x & Ex & Hx), (Hr j ltac:(lia)) as (y & Ey & Hy). exists x, y. split; [done|]. split; [done|]. by apply (leb_trans x pv y).
Qed.

(** Sorting the sides after a partition, each within a range that may include the pivot alone. *)
Lemma sorted_sides lo hi s pv a l r b c : 0 <= lo -> lo <= s <= hi -> hi < size_ a -> at_ a s = Some pv ->
  (forall t, lo <= t < s -> le_ pv (at_ a t)) -> (forall t, s < t <= hi -> gt_ pv (at_ a t)) ->
  l = s - 1 \/ (l = lo /\ lo = s) -> r = s + 1 \/ (r = hi /\ hi = s) -> l < r ->
  moves lo l a b -> sorted_range lo l b -> moves r hi b c -> sorted_range r hi c -> moves lo hi a c /\ sorted_range lo hi c.
Proof.
  intros H0 Hs Hh Es Hle Hgt Hl Hr Hlr M1 S1 M2 S2. pose proof (moves_length _ _ _ _ M1) as L1.
  assert (Hbs : at_ b s = Some pv).
  { destruct (decide (l < s)) as [Hls|Hls]; [by rewrite (moves_outside _ _ _ _ s M1) by lia|].
    apply (moves_all lo l a b (fun o => o = Some pv) M1); [|lia]. intros t Ht. by replace t with s by lia. }
  assert (Hbl : forall t, lo <= t < s -> le_ pv (at_ b t)).
  { intros t Ht. destruct (Z.le_gt_cases t l); [|lia]. apply (moves_all lo l a b (le_ pv) M1); [|lia]. intros u Hu. apply Hle. lia. }
  assert (Hbr : forall t, s < t <= hi -> gt_ pv (at_ b t)) by (intros t Ht; rewrite (moves_outside _ _ _ _ t M1) by lia; by apply Hgt).
  split; [eapply moves_trans; [eapply moves_mono; [| | | |exact M1]; lia|eapply moves_mono; [| | | |exact M2]; lia]|].
  apply (sorted_join lo hi s pv); [done| | | | |].
  - destruct (decide (s < r)) as [Hsr|Hsr]; [by rewrite (moves_outside _ _ _ _ s M2) by lia|].
    apply (moves_all r hi b c (fun o => o = Some pv) M2); [|lia]. intros t Ht. by replace t with s by lia.
  - intros t Ht. rewrite (moves_outside _ _ _ _ t M2) by lia. by apply Hbl.
  - intros t Ht. destruct (Z.le_gt_cases r t); [|lia]. apply (moves_all r hi b c (gt_ pv) M2); [|lia]. intros u Hu. apply Hbr. lia.
  - intros i j Hi Hij Hj. rewrite !(moves_outside _ _ _ _ _ M2) by lia. apply S1; lia.
  - intros i j Hi Hij Hj. apply S2; lia.
Qed.

Lemma quicksort_run fuel : forall lo hi a, 0 <= lo -> hi < size_ a -> hi < 2 ^ 30 -> hi - lo <= Z.of_nat fuel ->
  exists m b, (forall k, run (quicksortHelper fuel lo hi k) a = after m (run k b)) /\ moves lo hi a b /\ sorted_range lo hi b.
Proof.
  induction fuel as [|fuel IH]; intros lo hi a H0 Hh Hb Hf; cbn [quicksortHelper]; (destruct (Z.leb_spec hi lo) as [Hle|Hgt];
    [exists 0%nat, a; split; [intros k; by destruct (run k a) as [[]|]|]; split; [constructor|by apply sorted_small]|]); [lia|].
  destruct (partition_run lo hi a ltac:(lia) Hh Hb) as (m & s & b & pv & Hr & Hm & Hs & Es & H1 & H2). pose proof (moves_length _ _ _ _ Hm) as L1.
  destruct (IH lo (s - 1) b) as (m1 & c & R1 & M1 & S1); [lia|lia|lia|lia|]. pose proof (moves_length _ _ _ _ M1) as L2.
  destruct (IH (s + 1) hi c) as (m2 & d & R2 & M2 & S2); [lia|lia|lia|lia|].
  destruct (sorted_sides lo hi s pv b (s - 1) (s + 1) c d) as [M3 S3]; try done; try lia.
  exists (m + m1 + m2)%nat, d. split; [|split; [by eapply moves_trans|done]]. intros k. rewrite Hr, R1, R2, !after_after. f_equal; lia.
Qed.

Lemma parallel_run level fuel : forall low high a, 0 <= low -> low <= high -> high < size_ a -> high < 2 ^ 30 -> high - low <= Z.of_nat fuel ->
  exists m b, run (parallelQuicksortHelper level fuel low high) a = Some (m, b) /\ moves low high a b /\ sorted_range low high b.
Proof.
  induction level as [|level IH]; intros low high a H0 Hl Hh Hb Hf; cbn [parallelQuicksortHelper].
  1: { destruct (quicksort_run fuel low high a H0 Hh Hb Hf) as (m & b & Hr & Hm & Hs). exists m, b. rewrite Hr. cbn. by rewrite Nat.add_0_r. }
  destruct (Z.eqb_spec low high) as [Heq|Hne].
  1: { destruct (quicksort_run fuel low high a H0 Hh Hb Hf) as (m & b & Hr & Hm & Hs). exists m, b. rewrite Hr. cbn. by rewrite Nat.add_0_r. }
  destruct (partition_run low high a ltac:(lia) Hh Hb) as (m & s & b & pv & Hr & Hm & Hs & Es & H1 & H2). pose proof (moves_length _ _ _ _ Hm) as L1.
  set (l := if low <? s then s - 1 else low). set (r := if s <? high then s + 1 else high).
  assert (Hlc : l = s - 1 /\ low < s \/ l = low /\ low = s) by (unfold l; destruct (Z.ltb_spec low s); lia).
  assert (Hrc : r = s + 1 /\ s < high \/ r = high /\ high = s) by (unfold r; destruct (Z.ltb_spec s high); lia).
  destruct (IH low l b) as (m1 & c & R1 & M1 & S1); [lia|lia|lia|lia|lia|]. pose proof (moves_length _ _ _ _ M1) as L2.
  destruct (IH r high c) as (m2 & d & R2 & M2 & S2); [lia|lia|lia|lia|lia|].
  destruct (sorted_sides low high s pv b l r c d) as [M3 S3]; try done; try lia.
  eexists _, d. split; [|split; [by eapply moves_trans|done]]. rewrite Hr. cbn [run]. fold l r. rewrite R1. cbn [mbind option_bind]. rewrite R2. cbn. done.
Qed.

Lemma isSorted_range size a : 0 <= size <= size_ a -> sorted_range 0 (size - 1) a -> isSorted a size = Some 1.
Proof.
  intros Hn Hs. unfold isSorted. assert (Hg : forall n i, 1 <= i -> i + Z.of_nat n <= size -> isSorted_loop n i a = Some 1).
  { induction n as [|n IH]; intros i Hi Hin; cbn [isSorted_loop]; [done|]. destruct (Hs (i - 1) i) as (y & x & Ey & Ex & Hle); [lia|lia|lia|].
    rewrite Ex, Ey. cbn [mbind option_bind]. rewrite Hle. cbn [negb]. apply IH; lia. }
  destruct (Z.eq_dec size 0) as [->|]; [done|]. apply Hg; lia.
Qed.

Lemma sorted_range_Sorted a : sorted_range 0 (size_ a - 1) a -> Sorted (fun x y => leb x y = true) a.
Proof.
  intros H. assert (Hl : forall i x y, a !! i = Some x -> a !! S i = Some y -> leb x y = true).
  { intros i x y Ex Ey. pose proof (lookup_lt_Some _ _ _ Ey). destruct (H (Z.of_nat i) (Z.of_nat (S i))) as (x' & y' & Ex' & Ey' & Hle); [lia|lia|lia|].
    apply at_Some in Ex' as [_ Ex'], Ey' as [_ Ey']. rewrite Nat2Z.id in Ex', Ey'. congruence. }
  clear H. induction a as [|x a IH]; constructor.
  - apply IH. intros i u v Eu Ev. by apply (Hl (S i)).
  - destruct a as [|y a]; constructor. by apply (Hl 0%nat).
Qed.
End Qsort.

(** ** The sorts *)

Lemma top_within {A} (leb : A -> A -> bool) size level : 1 <= size -> size <= 2 ^ 30 -> within (parallelQuicksort leb size level) 0 (size - 1).
Proof. intros H1 H2. cbn [parallelQuicksort within]. split; [|done]. exists (size - 1). split; [apply parallel_within; lia|]. split; [done|lia]. Qed.

(** The sequential sort. *)
Lemma quicksort_sorts {A} (leb : A -> A -> bool) (lyst : list A) :
  (forall x y, leb x y = true \/ leb y x = true) -> (forall x y z, leb x y = true -> leb y z = true -> leb x z = true) ->
  Z.of_nat (length lyst) <= 2 ^ 30 ->
  exists n b, run (quicksort leb (Z.of_nat (length lyst))) lyst = Some (n, b) /\ b ≡ₚ lyst /\ Sorted (fun x y => leb x y = true) b.
Proof.
  intros Ht Htr Hb. destruct (quicksort_run leb Ht Htr (Z.to_nat (Z.of_nat (length lyst))) 0 (Z.of_nat (length lyst) - 1) lyst) as (m & b & Hr & Hm & Hs); [lia|lia|lia|lia|].
  pose proof (moves_length _ _ _ _ Hm) as L. exists m, b. unfold quicksort. rewrite Hr. cbn. rewrite Nat.add_0_r. split; [done|]. split; [by eapply moves_perm|].
  apply sorted_range_Sorted. by rewrite L.
Qed.

(** C20: a parallel quicksort of one to 2^30 elements ends, whatever the order in which its threads
    access the array: there is a number of steps after which every order is at the end, before it
    every order can go on, no thread accesses memory outside of the array, and at the end the array
    is the same sorted permutation of the elements, which isSorted accepts. *)
Theorem parallel_quicksort_sorts {A} (leb : A -> A -> bool) (lyst : list A) (level : nat) :
  (forall x y, leb x y = true \/ leb y x = true) -> (forall x y z, leb x y = true -> leb y z = true -> leb x z = true) ->
  1 <= Z.of_nat (length lyst) <= 2 ^ 30 ->
  exists n b, b ≡ₚ lyst /\ Sorted (fun x y => leb x y = true) b /\ isSorted leb b (Z.of_nat (length lyst)) = Some 1
    /\ forall m s, nsteps step m (parallelQuicksort leb (Z.of_nat (length lyst)) level, lyst) s ->
         (m <= n)%nat /\ (m = n <-> s.1 = Ret) /\ (s.1 = Ret -> s.2 = b) /\ (s.1 <> Ret -> exists s', step s s').
Proof.
  intros Ht Htr [H1 Hb]. destruct (parallel_run leb Ht Htr level (Z.to_nat (Z.of_nat (length lyst))) 0 (Z.of_nat (length lyst) - 1) lyst) as (m & b & Hr & Hm & Hs); [lia|lia|lia|lia|lia|].
  pose proof (moves_length _ _ _ _ Hm) as L. exists (S (m + 0 + 0))%nat, b. split; [by eapply moves_perm|]. split; [apply sorted_range_Sorted; by rewrite L|].
  split; [apply isSorted_range; [lia|done]|]. intros n s Hn. apply (interleavings (parallelQuicksort leb (Z.of_nat (length lyst)) level) 0 (Z.of_nat (length lyst) - 1) lyst); [by apply top_within| |done].
  unfold parallelQuicksort. cbn [run]. by rewrite Hr.
Qed.

Lemma parallel_quicksort_sorts_witness :
  exists b : list Z, b ≡ₚ [3; 1; 4; 1; 5; 9; 2; 6] /\ isSorted Z.leb b 8 = Some 1
    /\ forall m s, nsteps step m (parallelQuicksort Z.leb 8 10, [3; 1; 4; 1; 5; 9; 2; 6]) s -> s.1 = Ret -> s.2 = b.
Proof.
  destruct (parallel_quicksort_sorts Z.leb [3; 1; 4; 1; 5; 9; 2; 6] 10) as (n & b & Hp & _ & Hs & Hr).
  - intros x y. rewrite !Z.leb_le. lia.
  - intros x y z. rewrite !Z.leb_le. lia.
  - simpl. lia.
  - exists b. split; [exact Hp|]. split; [exact Hs|]. intros m s Hm. apply (Hr m s Hm).
Defined.

(** An empty list: the range is from 0 to -1, which is not one element, and its partition reads
    and writes outside of the array. *)
Lemma empty_sort_reads_outside : run (parallelQuicksort Z.leb 0 10) [] = None /\ run (quicksort Z.leb 0) [] = Some (0%nat, []).
Proof. done. Qed.

(** The sum of two indices of a larger list overflows. *)
Lemma pivot_overflows : Z.quot (i32 (2 ^ 30 + 2 ^ 30)) 2 < 0.
Proof. by vm_compute. Qed.
